(* ===== verification/_CoqProject ===== *)
-Q . S2P
Prelude.v
ArithUint256.v
Serialize.v
Script.v
Uint256.v
Amount.v
Transaction.v
Compressor.v
Coins.v
CoinsView.v
CoinsRefinement.v
BlockCoins.v
Interpreter.v
Standard.v
InterpreterSafety.v
SoftFork.v
SpendSpec.v
Merkle.v
Hashes.v
Chain.v
VersionBits.v
Bignum.v
Pow.v
HeaderCheck.v
CheckInputs.v
ActiveChain.v
ChainState.v
BestChain.v
ChainMachine.v
ChainProperties.v
Reconsider.v
CheckQueue.v
Stake.v
BlockCheck.v
ConnectBlock.v
ConnectSample.v
ConnectParallel.v
ConnectCoins.v
BlockRules.v
Issuance.v
Replay.v
ConnectUndo.v
Tip.v
CoinsFollow.v
AcceptBlock.v
MerkleBlock.v
Bloom.v
MemPool.v
MemPoolGraph.v
MemPoolIndex.v
MemPoolStats.v
MemPoolRemove.v
MemPoolAdd.v
MemPoolOps.v
MemPoolReorg.v
MemPoolMachine.v
