(* ===== verification/Prelude.v ===== *)
(** * A verification of the core of Noir

    The library models the node of the Noir cryptocurrency, the C++ program under src/src, from its
    numbers and bytes up to the active chain and its coins, and proves what makes these parts
    correct.  This file opens the library and holds what the others share: machine-width
    integers, positional numerals, arrays, tactics and hint databases.

    ** The program and its models

    A node receives headers and blocks.  It checks a header against its parent and the target of
    the proof of work or stake and adds it to the block index; it checks a block, stores it and links it; it
    chooses the chain of most work and moves the tip there, block by block, changing the set of unspent
    outputs (coins) on the way; for every input it runs a script.  Transactions wait for a block in the memory pool, and light
    clients are served through filters.  Files are listed from the bottom up.

    - Numbers and bytes.  [ArithUint256] (arith_uint256.h, .cpp): limb arrays and their loops.
      [Serialize] (serialize.h): the stream formats, with the class [Codec] as contract.  [Uint256]
      (uint256.h, .cpp), [Amount] (amount.h, .cpp, utilmoneystr.cpp), [Bignum] (libzerocoin/bitcoin_bignum/bignum.h, over
      the class [OpenSSL]), [Hashes] (crypto/: SHA-1, SHA-2, RIPEMD-160, HMAC with their buffering).
    - Transactions and scripts.  [Script] (script/script.h, .cpp), [Transaction] (primitives/transaction.h, .cpp),
      [Interpreter] (script/interpreter.h, .cpp): the whole script machine over the class
      [Crypto]; a stack is a list, and an error, an exception, a failed assertion or undefined behaviour (an access out of range, a
      signed overflow) is a result.  [InterpreterSafety], [SoftFork] and [SpendSpec] prove about it.  [Standard] (script/standard.h, .cpp):
      standard output scripts.  [Merkle] (consensus/merkle.cpp).
    - Coins.  [Compressor] (compressor.h, .cpp, pubkey.h over the class [Secp]), [Coins] (coins.h, undo.h),
      [CoinsView] (the caches of coins.cpp and the database of txdb.cpp, with the classes [CCoinsView] and [CoinsSpec]),
      [CoinsRefinement], [BlockCoins] (UpdateCoins and DisconnectBlock of main.cpp), [CheckInputs] (CheckInputs and the
      signature cache), [Replay] (the reference: coins as a function of the blocks).
    - The block index.  [Chain] (chain.h, chain.cpp, AddToBlockIndex): entries live in an arena and a pointer is a
      position in it.  [ActiveChain] (CChain), [ChainState] (the choice of the chain in main.cpp, over the class
      [Validation], which also says when a shutdown is requested and whether the final flush succeeds), [BestChain], [ChainMachine],
      [ChainProperties], [Reconsider].
    - Headers.  [VersionBits] (versionbits.cpp), [Pow] (pow.cpp), [HeaderCheck] (AcceptBlockHeader and all it calls),
      [Stake] (pos.cpp).
    - Blocks.  [CheckQueue] (checkqueue.h as interleaved threads), [BlockCheck] (CheckTransaction, CheckBlock,
      ContextualCheckBlock, locks, subsidy), [ConnectBlock] (ConnectBlock), [Tip] (ConnectTip, DisconnectTip, FlushStateToDisk),
      [AcceptBlock] (AcceptBlock, TestBlockValidity).  [BlockRules], [ConnectParallel], [ConnectCoins], [Issuance],
      [ConnectUndo] and [CoinsFollow] prove about them; [ConnectSample] holds the blocks they are run on.
    - Light clients.  [MerkleBlock] (merkleblock.h, .cpp), [Bloom] (bloom.h, .cpp and the filter messages of main.cpp).
    - The memory pool.  [MemPool] (txmempool.h, .cpp): the pool and its operations.  [MemPoolGraph], [MemPoolIndex], [MemPoolStats],
      [MemPoolRemove], [MemPoolAdd], [MemPoolOps] and [MemPoolReorg] prove about them in turn: walks along the links, the
      indexes, the statistics, removal, addition, the operations made of these, and blocks that are disconnected;
      [MemPoolMachine] runs the calls of main.cpp in any order.

    Effects are written out: pure code is a function; code that throws or asserts returns an option, a sum or a result
    type; code on global state takes and returns the state, in [BlockCheck] and above with a small monad whose outcomes are going on,
    returning a boolean, throwing and (as [None]) failing an assertion or following a null pointer.
    Integers are [Z] with the wrap-around of their type ([u32], [i64]) wherever it can occur.

    ** What the theorems show

    - Numbers, formats, hashes: every limb loop computes on Z modulo 2^256; formats are read back, and what is accepted
      besides is said exactly; SHA-256 and SHA-512 are the functions of the standard; the streaming Merkle root is that of the
      tree and commits to its leaves.
    - Scripts: EvalScript stays within its stacks and limits, overflows nothing, fails no assertion and ends; a spend verifies exactly when it should; a new flag is
      a soft fork; Solver recognises exactly the standard scripts.
    - Coins: a cache over any view is a map of unspent outputs; disconnecting is the inverse of connecting; the coins
      are at every moment the replay of the active chain, whatever was connected and disconnected on the way, also when
      undo data cannot be read or the database cannot be written.
    - Chains: from any sequence of events no assertion fails and activation ends with the best valid chain, except in the
      corruption case that is proved to loop.  A shutdown request that interrupts the activation is excluded by hypothesis.
    - Headers and targets: the exact verdict on a header, the state of deployments against their rules, bounds of a retarget,
      the meaning of a stake kernel.
    - Blocks: what CheckBlock and AcceptBlock enforce; how much money a block can create; that parallel script
      checks change nothing; that a dry run changes nothing; that the check queue answers rightly and always.
    - Light clients: a filter never hides what concerns a peer, and a partial Merkle tree proves what it shows.
    - The memory pool: whatever calls are made, the links, statistics and indexes are those of the entries, and no
      assertion fails.

    ** Fuel

    Loops that follow pointers or are not structural take fuel, and every such bound is proved to be enough: the length of
    the script for [eval_loop], the height for the walks of the index, the number of entries for the marking loops,
    and for the walks of the memory pool, a potential of candidates for [activate_loop] (except where the theorem says that the loop does not end), and the quotient of
    the time by 1800 for [min_work_loop].  Where the fuel of a definition is its argument the theorem names the amount.

    ** Not modelled

    - The hash functions of block headers (Lyra2, MTP and others), the operations of secp256k1 and OpenSSL: parameters with
      their documented laws.  Zerocoin, sigma, instant send, noirnode payees and the block signature: the class
      [Subsystems], about which nothing is assumed.
    - Files and LevelDB: reading and writing them are parameters that may fail; pruning is left out.
    - In [ChainState] the answer of [Validation] depends on the block alone; in [Stake] the transactions that GetTransaction
      finds are those of one moment, and its theorem on the cache says what one filled at earlier moments changes.
    - The address, spent and timestamp indexes, signals and wallets that follow the tip.
    - AcceptToMemoryPool and the policy behind it: what it makes sure of is the hypothesis of the memory pool machine.  The tip is
      modelled without the pool.
    - Network, RPC, user interface, wallet and the embedded Tor client: input and output over sockets, windows
      and files.
    - Floating point code (fee estimation, priority, difficulty as a double). *)
From Stdlib Require Export ZArith Lia.
From stdpp Require Export base list gmap numbers.
#[global] Open Scope Z_scope.

(** ** Machine-width integers *)

(** Conversion of a mathematical integer to [uint8_t], [uint32_t], [uint64_t]. *)
Definition u8 (z : Z) : Z := z mod 2 ^ 8.
Definition u32 (z : Z) : Z := z mod 2 ^ 32.
Definition u64 (z : Z) : Z := z mod 2 ^ 64.

(** Two's-complement conversion to [int32_t] and [int64_t]. *)
Definition i32 (z : Z) : Z := (z + 2 ^ 31) mod 2 ^ 32 - 2 ^ 31.
Definition i64 (z : Z) : Z := (z + 2 ^ 63) mod 2 ^ 64 - 2 ^ 63.

(** ** Fixed-size arrays of integers

    [l .[ i ]] reads an array slot; the models only read in range, and a read out
    of range is 0. *)
Definition get (l : list Z) (i : nat) : Z := default 0 (l !! i).

Declare Scope noir_scope.
Notation "l .[ i ]" := (get l i) (at level 1, left associativity, format "l .[ i ]") : noir_scope.
#[global] Open Scope noir_scope.

(** ** Positional numerals

    [Radix.eval B l] is the value of the little-endian digit string [l] in base
    [B]; [Radix.split B n z] is its inverse on [n] digits.  Bytes ([B = 2^8]) and
    the 32-bit limbs of [base_uint] ([B = 2^32]) are both instances. *)
Module Radix.
Fixpoint eval (B : Z) (l : list Z) : Z :=
  match l with
  | [] => 0
  | d :: l' => d + B * eval B l'
  end.

Fixpoint split (B : Z) (n : nat) (z : Z) : list Z :=
  match n with
  | O => []
  | S n' => z mod B :: split B n' (z / B)
  end.

Definition digits (B : Z) (l : list Z) : Prop := Forall (λ d, 0 <= d < B) l.
End Radix.

(** ** Automation *)
Create HintDb noir discriminated.
Create HintDb noir_arith discriminated.

(** Turn boolean comparisons on [Z] and [nat] in the context and the goal into
    propositions. *)
Ltac breflect :=
  repeat match goal with
  | H : (_ && _)%bool = true |- _ => apply andb_true_iff in H; destruct H
  | H : (_ || _)%bool = false |- _ => apply orb_false_iff in H; destruct H
  | H : negb _ = true |- _ => apply negb_true_iff in H
  | H : negb _ = false |- _ => apply negb_false_iff in H
  | H : (_ <? _) = true |- _ => apply Z.ltb_lt in H
  | H : (_ <? _) = false |- _ => apply Z.ltb_ge in H
  | H : (_ <=? _) = true |- _ => apply Z.leb_le in H
  | H : (_ <=? _) = false |- _ => apply Z.leb_gt in H
  | H : (_ =? _) = true |- _ => apply Z.eqb_eq in H
  | H : (_ =? _) = false |- _ => apply Z.eqb_neq in H
  | H : (_ <? _)%nat = true |- _ => apply Nat.ltb_lt in H
  | H : (_ <? _)%nat = false |- _ => apply Nat.ltb_ge in H
  | H : (_ <=? _)%nat = true |- _ => apply Nat.leb_le in H
  | H : (_ <=? _)%nat = false |- _ => apply Nat.leb_gt in H
  | H : (_ =? _)%nat = true |- _ => apply Nat.eqb_eq in H
  | H : (_ =? _)%nat = false |- _ => apply Nat.eqb_neq in H
  end.

(** Case split on the innermost boolean test of the goal, reflecting it. *)
Ltac bcase :=
  match goal with
  | |- context [if ?b then _ else _] =>
      lazymatch b with
      | context [if _ then _ else _] => fail
      | _ => let E := fresh "E" in destruct b eqn:E; breflect
      end
  end.

(** Case split on every comparison of naturals in the goal. *)
Ltac natcase :=
  repeat match goal with
  | |- context [(?a <? ?b)%nat] => destruct (Nat.ltb_spec a b)
  | |- context [(?a <=? ?b)%nat] => destruct (Nat.leb_spec a b)
  | |- context [(?a =? ?b)%nat] => destruct (Nat.eqb_spec a b)
  end; try lia.

(** Linear arithmetic with division and modulus. *)
Ltac zlia := Z.div_mod_to_equations; lia.
Ltac znia := Z.div_mod_to_equations; nia.

(** ** Bits of integers *)

Lemma u8_range z : 0 <= u8 z < 256.
Proof. apply Z.mod_pos_bound. lia. Qed.

Lemma u32_range z : 0 <= u32 z < 2 ^ 32.
Proof. apply Z.mod_pos_bound. lia. Qed.

Lemma u64_range z : 0 <= u64 z < 2 ^ 64.
Proof. apply Z.mod_pos_bound. lia. Qed.

Lemma i32_range z : - 2 ^ 31 <= i32 z < 2 ^ 31.
Proof. unfold i32. pose proof (Z.mod_pos_bound (z + 2 ^ 31) (2 ^ 32)). lia. Qed.

Lemma i64_range z : - 2 ^ 63 <= i64 z < 2 ^ 63.
Proof. unfold i64. pose proof (Z.mod_pos_bound (z + 2 ^ 63) (2 ^ 64)). lia. Qed.

Lemma u8_small z : 0 <= z < 2 ^ 8 → u8 z = z.
Proof. apply Z.mod_small. Qed.

Lemma u32_small z : 0 <= z < 2 ^ 32 → u32 z = z.
Proof. apply Z.mod_small. Qed.

Lemma u64_small z : 0 <= z < 2 ^ 64 → u64 z = z.
Proof. apply Z.mod_small. Qed.

Lemma i32_small z : - 2 ^ 31 <= z < 2 ^ 31 → i32 z = z.
Proof. intros. unfold i32. rewrite Z.mod_small; lia. Qed.

Lemma i64_small z : - 2 ^ 63 <= z < 2 ^ 63 → i64 z = z.
Proof. intros. unfold i64. rewrite Z.mod_small; lia. Qed.

#[export] Hint Resolve u8_range u32_range u64_range i32_range i64_range : noir.
#[export] Hint Resolve u8_small u32_small u64_small i32_small i64_small : noir.

(** Masking with [2^n - 1] is reduction modulo [2^n]. *)
Lemma land_mask z n : 0 <= n → Z.land z (2 ^ n - 1) = z mod 2 ^ n.
Proof. intros. by rewrite <- Z.land_ones, Z.ones_equiv, Z.sub_1_r by lia. Qed.

Lemma testbit_small z n i : 0 <= z < 2 ^ n → n <= i → Z.testbit z i = false.
Proof.
  intros Hz Hi. destruct (decide (0 <= n)) as [Hn|Hn].
  - rewrite <- (Z.mod_small z (2 ^ n)) by done. by apply Z.mod_pow2_bits_high.
  - rewrite Z.pow_neg_r in Hz by lia. lia.
Qed.

(** Bitwise extensionality restricted to non-negative positions. *)
Lemma bits_ext a b : (∀ i, 0 <= i → Z.testbit a i = Z.testbit b i) → a = b.
Proof. apply Z.bits_inj'. Qed.

(** A disjunction of disjoint bit ranges is a sum. *)
Lemma lor_shiftl_add x y n :
  0 <= n → 0 <= x < 2 ^ n → Z.lor x (Z.shiftl y n) = x + y * 2 ^ n.
Proof.
  intros Hn Hx. rewrite <- Z.shiftl_mul_pow2 by done. symmetry.
  apply Z.add_nocarry_lor, bits_ext. intros i Hi.
  rewrite Z.land_spec, Z.bits_0, Z.shiftl_spec by done.
  destruct (decide (i < n)).
  - rewrite (Z.testbit_neg_r y) by lia. apply andb_false_r.
  - by rewrite (testbit_small x n) by lia.
Qed.

Lemma lor_range x y n : 0 <= n → 0 <= x < 2 ^ n → 0 <= y < 2 ^ n → 0 <= Z.lor x y < 2 ^ n.
Proof.
  intros Hn Hx Hy. assert (Z.lor x y = Z.lor x y mod 2 ^ n) as ->.
  { apply bits_ext. intros i Hi. rewrite Z.lor_spec.
    destruct (decide (i < n)).
    - by rewrite Z.mod_pow2_bits_low, Z.lor_spec by lia.
    - rewrite Z.mod_pow2_bits_high by lia. by rewrite !(testbit_small _ n) by lia. }
  apply Z.mod_pos_bound. lia.
Qed.

Lemma land_range x y n : 0 <= x < 2 ^ n → 0 <= y → 0 <= Z.land x y < 2 ^ n.
Proof.
  intros Hx Hy. split; [by apply Z.land_nonneg; left; lia|].
  destruct (decide (0 <= n)); [|rewrite Z.pow_neg_r in Hx by lia; lia].
  assert (Z.land x y <= x); [|lia].
  apply Z.ldiff_le; [lia|]. apply bits_ext. intros i Hi.
  rewrite Z.ldiff_spec, Z.land_spec, Z.bits_0. by destruct (Z.testbit x i), (Z.testbit y i).
Qed.

Lemma shiftr_range x n k : 0 <= k → 0 <= x < 2 ^ n → 0 <= Z.shiftr x k < 2 ^ n.
Proof.
  intros Hk Hx. rewrite Z.shiftr_div_pow2 by done.
  assert (0 < 2 ^ k) by lia. split; [apply Z.div_pos; lia|].
  apply Z.le_lt_trans with x; [apply Z.div_le_upper_bound; nia|lia].
Qed.

(** Testing a single bit with a mask. *)
Lemma land_bit_eqb x k : 0 <= k → (Z.land x (Z.shiftl 1 k) =? 0) = negb (Z.testbit x k).
Proof.
  intros Hk. rewrite Z.shiftl_1_l. apply eq_true_iff_eq. rewrite Z.eqb_eq, negb_true_iff. split.
  - intros H. apply (f_equal (λ z, Z.testbit z k)) in H. cbn beta in H.
    by rewrite Z.land_spec, Z.bits_0, Z.pow2_bits_true, andb_true_r in H by done.
  - intros H. apply bits_ext. intros i Hi. rewrite Z.land_spec, Z.bits_0.
    destruct (decide (i = k)) as [->|Hne]; [by rewrite H|].
    by rewrite Z.pow2_bits_false, andb_false_r by done.
Qed.

(** The top bit of a number of [n + 1] bits. *)
Lemma testbit_top x n : 0 <= n → 0 <= x < 2 ^ (n + 1) → Z.testbit x n = (2 ^ n <=? x).
Proof.
  intros Hn Hx. rewrite Z.pow_add_r in Hx by lia. change (2 ^ 1) with 2 in Hx.
  apply eq_true_iff_eq. rewrite Z.testbit_true, Z.leb_le by done.
  assert (0 <= x / 2 ^ n < 2) by (split; [apply Z.div_pos; lia|apply Z.div_lt_upper_bound; lia]).
  rewrite Z.mod_small by done. split; intros H1.
  - pose proof (Z.mul_div_le x (2 ^ n)). nia.
  - assert (1 <= x / 2 ^ n); [|lia]. apply Z.div_le_lower_bound; lia.
Qed.

(** Clearing the top bit of a 64-bit word with a mask. *)
Lemma land_clear_top y k : 0 <= k < 64 → 0 <= y < 2 ^ k →
  Z.land (y + 2 ^ k) (u64 (Z.lnot (2 ^ k))) = y.
Proof.
  intros Hk Hy. replace (y + 2 ^ k) with (Z.lor y (Z.shiftl 1 k)) by (rewrite lor_shiftl_add; lia).
  apply bits_ext. intros i Hi. rewrite Z.land_spec, Z.lor_spec, Z.shiftl_1_l. unfold u64.
  destruct (decide (i < 64)).
  - rewrite Z.mod_pow2_bits_low, Z.lnot_spec by lia. destruct (decide (i = k)) as [->|Hne].
    + by rewrite (testbit_small y k), Z.pow2_bits_true by lia.
    + by rewrite Z.pow2_bits_false, orb_false_r, andb_true_r by done.
  - rewrite Z.mod_pow2_bits_high by lia. by rewrite (testbit_small y k), andb_false_r by lia.
Qed.

(** ** Arrays *)
Lemma get_insert_eq l i x : (i < length l)%nat → (<[i := x]> l).[i] = x.
Proof. intros. unfold get. by rewrite list_lookup_insert_eq. Qed.

Lemma get_insert_ne l i j x : i ≠ j → (<[i := x]> l).[j] = l.[j].
Proof. intros. unfold get. by rewrite list_lookup_insert_ne. Qed.

Lemma get_insert l i j x :
  (<[i := x]> l).[j] = if ((i =? j) && (i <? length l))%nat%bool then x else l.[j].
Proof.
  destruct (Nat.eqb_spec i j) as [->|?]; simpl; [|by apply get_insert_ne].
  destruct (Nat.ltb_spec j (length l)); [by apply get_insert_eq|].
  by rewrite list_insert_ge by lia.
Qed.

Lemma get_replicate_0 n i : (replicate n 0).[i] = 0.
Proof.
  unfold get. destruct (decide (i < n)%nat).
  - by rewrite lookup_replicate_2.
  - by rewrite lookup_ge_None_2 by (rewrite length_replicate; lia).
Qed.

Lemma get_ge l i : (length l <= i)%nat → l.[i] = 0.
Proof. intros. unfold get. by rewrite lookup_ge_None_2. Qed.

Lemma get_lookup l i : (i < length l)%nat → l !! i = Some l.[i].
Proof. intros H. unfold get. by destruct (lookup_lt_is_Some_2 l i H) as [x ->]. Qed.

(** Two arrays of the same length with the same slots are equal. *)
Lemma get_ext l1 l2 :
  length l1 = length l2 → (∀ i, (i < length l1)%nat → l1.[i] = l2.[i]) → l1 = l2.
Proof.
  intros Hl H. apply list_eq. intros i. destruct (decide (i < length l1)%nat).
  - rewrite !get_lookup by lia. by rewrite H.
  - by rewrite !lookup_ge_None_2 by lia.
Qed.

(** ** Lemmas on positional numerals *)
Section radix.
Context (B : Z) (HB : 1 < B).
Implicit Types l : list Z.
Import Radix.

Lemma pow_radix_pos n : 0 < B ^ Z.of_nat n.
Proof. apply Z.pow_pos_nonneg; lia. Qed.

Lemma pow_radix_S n : B ^ Z.of_nat (S n) = B * B ^ Z.of_nat n.
Proof. rewrite Nat2Z.inj_succ, Z.pow_succ_r; lia. Qed.

Lemma eval_bound l : digits B l → 0 <= eval B l < B ^ Z.of_nat (length l).
Proof.
  induction 1 as [|d l Hd _ IH]; [simpl; lia|].
  rewrite length_cons, pow_radix_S. cbn [eval]. nia.
Qed.

Lemma eval_app l1 l2 :
  eval B (l1 ++ l2) = eval B l1 + B ^ Z.of_nat (length l1) * eval B l2.
Proof.
  induction l1 as [|d l1 IH]; [cbn [app eval length]; lia|].
  cbn [app eval]. rewrite IH, length_cons, pow_radix_S. lia.
Qed.

Lemma length_split n z : length (split B n z) = n.
Proof. revert z. induction n as [|n IH]; intros z; simpl; by rewrite ?IH. Qed.

Lemma digits_split n z : digits B (split B n z).
Proof.
  revert z. induction n as [|n IH]; intros z; constructor; [|apply IH].
  apply Z.mod_pos_bound. lia.
Qed.

Lemma eval_split n z : eval B (split B n z) = z mod B ^ Z.of_nat n.
Proof.
  revert z. induction n as [|n IH]; intros z; [by rewrite Z.mod_1_r|].
  cbn [split eval]. rewrite IH, pow_radix_S, Z.rem_mul_r by (pose proof (pow_radix_pos n); lia).
  done.
Qed.

Lemma split_eval l : digits B l → split B (length l) (eval B l) = l.
Proof.
  induction 1 as [|d l Hd _ IH]; [done|]. cbn [length split eval].
  rewrite (Z.mul_comm B), Z.mod_add, Z.div_add, Z.mod_small, Z.div_small by lia.
  by rewrite Z.add_0_l, IH.
Qed.

Lemma eval_inj l1 l2 :
  digits B l1 → digits B l2 → length l1 = length l2 → eval B l1 = eval B l2 → l1 = l2.
Proof.
  intros H1 H2 Hl He. rewrite <- (split_eval l1), <- (split_eval l2) by done.
  by rewrite Hl, He.
Qed.

Lemma eval_replicate_0 n : eval B (replicate n 0) = 0.
Proof. induction n as [|n IH]; [done|]. cbn [replicate eval]. rewrite IH. lia. Qed.

Lemma eval_take n l : digits B l → eval B (take n l) = eval B l mod B ^ Z.of_nat (n `min` length l).
Proof.
  intros Hl. rewrite <- (take_drop n l) at 2. rewrite eval_app, length_take.
  rewrite (Z.mul_comm (B ^ _)), Z.mod_add by (pose proof (pow_radix_pos (n `min` length l)); lia).
  rewrite Z.mod_small; [done|]. rewrite <- length_take. apply eval_bound, Forall_take, Hl.
Qed.

Lemma eval_take_S l p :
  (p < length l)%nat →
  eval B (take (S p) l) = eval B (take p l) + B ^ Z.of_nat p * l.[p].
Proof.
  intros Hp. rewrite (take_S_r l p l.[p]) by by apply get_lookup.
  rewrite eval_app, length_take, Nat.min_l by lia. cbn [eval]. lia.
Qed.

Lemma eval_insert l i d x :
  l !! i = Some d → eval B (<[i := x]> l) = eval B l + (x - d) * B ^ Z.of_nat i.
Proof.
  revert i. induction l as [|y l IH]; intros [|i] Hi; simplify_eq/=; [lia|].
  rewrite (IH i Hi), pow_radix_S. lia.
Qed.

Lemma digits_app l1 l2 : digits B (l1 ++ l2) ↔ digits B l1 ∧ digits B l2.
Proof. apply Forall_app. Qed.

Lemma digits_insert l i x : digits B l → 0 <= x < B → digits B (<[i := x]> l).
Proof. intros. by apply Forall_insert. Qed.

Lemma digits_get l i : digits B l → 0 <= l.[i] < B.
Proof.
  intros Hl. unfold get. destruct (l !! i) as [d|] eqn:E; simpl; [|lia].
  by apply (Forall_lookup_1 _ _ _ _ Hl E).
Qed.

Lemma digits_replicate_0 n : digits B (replicate n 0).
Proof. apply Forall_replicate. lia. Qed.
End radix.

#[export] Hint Resolve digits_split digits_insert digits_replicate_0 : noir.

Lemma pow256 n : 0 <= n → 256 ^ n = 2 ^ (8 * n).
Proof. intros. change 256 with (2 ^ 8). by rewrite <- Z.pow_mul_r by lia. Qed.

(** Bit [w*i + r] of a numeral in base [2^w] is bit [r] of its digit [i]. *)
Lemma eval_testbit w l i r :
  0 < w → Radix.digits (2 ^ w) l → 0 <= r < w →
  Z.testbit (Radix.eval (2 ^ w) l) (w * Z.of_nat i + r) = Z.testbit l.[i] r.
Proof.
  intros Hw Hl Hr. assert (1 < 2 ^ w) by (apply Z.pow_gt_1; lia). revert i.
  induction Hl as [|d l Hd Hl IH]; intros i.
  { simpl. unfold get. by rewrite lookup_nil, !Z.bits_0. }
  cbn [Radix.eval]. rewrite Z.mul_comm, <- lor_shiftl_add, Z.lor_spec by lia.
  rewrite Z.shiftl_spec by lia. destruct i as [|i].
  - rewrite (Z.testbit_neg_r (Radix.eval _ _)) by lia. rewrite orb_false_r. f_equal. lia.
  - rewrite (testbit_small d w) by lia. change ((d :: l).[S i]) with (l.[i]).
    rewrite <- IH. simpl. f_equal. lia.
Qed.

(** ** Lists *)
Lemma filter_all {A} (P : A → Prop) `{∀ x, Decision (P x)} l : Forall P l → filter P l = l.
Proof. induction 1 as [|x l Hx _ IH]; [done|]. rewrite filter_cons, decide_True by done. by rewrite IH. Qed.
