(* ===== verification/ArithUint256.v ===== *)
(** * ArithUint256: the big unsigned integers of [arith_uint256.{h,cpp}]

    [base_uint<BITS>] is an array [pn] of [WIDTH = BITS/32] 32-bit limbs, least
    significant first; here a [list Z] of length [WIDTH].  Every operator is the
    limb-level loop of the source.  The lemmas relate each loop to arithmetic on
    [Radix.eval (2^32) pn], the number the limbs denote. *)
From S2P Require Import Prelude.

Module ArithUint256.

(** The exception type [uint_error]; its only throw is in [operator/=]. *)
Inductive uint_error :=
| DivisionByZero.

Section base_uint.
Context (WIDTH : nat).

(** [base_uint()] *)
Definition base_uint_zero : list Z := replicate WIDTH 0.

(** [base_uint(uint64_t b)] and [operator=(uint64_t b)] *)
Definition base_uint_of_uint64 (b : Z) : list Z :=
  u32 b :: u32 (Z.shiftr b 32) :: replicate (WIDTH - 2) 0.

(** [operator!] *)
Definition op_not (pn : list Z) : bool := forallb (λ x, x =? 0) pn.

(** [operator~] *)
Definition op_compl (pn : list Z) : list Z := map (λ x, u32 (Z.lnot x)) pn.

(** [operator++] (prefix): increment limbs until one does not wrap to 0. *)
Fixpoint op_incr (pn : list Z) : list Z :=
  match pn with
  | [] => []
  | x :: pn' => let x' := u32 (x + 1) in
      if x' =? 0 then x' :: op_incr pn' else x' :: pn'
  end.

(** [operator--] (prefix): decrement limbs until one does not wrap to -1. *)
Fixpoint op_decr (pn : list Z) : list Z :=
  match pn with
  | [] => []
  | x :: pn' => let x' := u32 (x - 1) in
      if x' =? 2 ^ 32 - 1 then x' :: op_decr pn' else x' :: pn'
  end.

(** Unary [operator-] *)
Definition op_neg (pn : list Z) : list Z := op_incr (op_compl pn).

(** [operator^=], [operator&=], [operator|=] *)
Definition op_xor (pn b : list Z) : list Z := zip_with Z.lxor pn b.
Definition op_and (pn b : list Z) : list Z := zip_with Z.land pn b.
Definition op_or (pn b : list Z) : list Z := zip_with Z.lor pn b.

(** [operator^=(uint64_t)] and [operator|=(uint64_t)] *)
Definition op_xor64 (pn : list Z) (b : Z) : list Z :=
  let pn := <[0%nat := Z.lxor pn.[0] (u32 b)]> pn in
  <[1%nat := Z.lxor pn.[1] (u32 (Z.shiftr b 32))]> pn.
Definition op_or64 (pn : list Z) (b : Z) : list Z :=
  let pn := <[0%nat := Z.lor pn.[0] (u32 b)]> pn in
  <[1%nat := Z.lor pn.[1] (u32 (Z.shiftr b 32))]> pn.

(** [operator<<=]: one iteration of the loop over [i], then the loop. *)
Definition shl_step (k : nat) (shift : Z) (a pn : list Z) (i : nat) : list Z :=
  let pn := if ((i + k + 1 <? WIDTH)%nat && negb (shift =? 0))%bool
            then <[(i + k + 1)%nat := Z.lor pn.[i + k + 1] (Z.shiftr a.[i] (32 - shift))]> pn
            else pn in
  if (i + k <? WIDTH)%nat
  then <[(i + k)%nat := Z.lor pn.[i + k] (u32 (Z.shiftl a.[i] shift))]> pn
  else pn.

Definition op_shl (a : list Z) (shift : Z) : list Z :=
  foldl (shl_step (Z.to_nat (shift / 32)) (shift mod 32) a) base_uint_zero (seq 0 WIDTH).

(** [operator>>=] *)
Definition shr_step (k : nat) (shift : Z) (a pn : list Z) (i : nat) : list Z :=
  let pn := if ((k + 1 <=? i)%nat && negb (shift =? 0))%bool
            then <[(i - k - 1)%nat := Z.lor pn.[i - k - 1] (u32 (Z.shiftl a.[i] (32 - shift)))]> pn
            else pn in
  if (k <=? i)%nat
  then <[(i - k)%nat := Z.lor pn.[i - k] (Z.shiftr a.[i] shift)]> pn
  else pn.

Definition op_shr (a : list Z) (shift : Z) : list Z :=
  foldl (shr_step (Z.to_nat (shift / 32)) (shift mod 32) a) base_uint_zero (seq 0 WIDTH).

(** [operator+=]: the loop carries a [uint64_t]. *)
Fixpoint add_loop (carry : Z) (pn b : list Z) : list Z :=
  match pn, b with
  | x :: pn', y :: b' =>
      let n := u64 (u64 (carry + x) + y) in
      Z.land n 0xffffffff :: add_loop (Z.shiftr n 32) pn' b'
  | _, _ => []
  end.
Definition op_add (pn b : list Z) : list Z := add_loop 0 pn b.

(** [operator-=] *)
Definition op_sub (pn b : list Z) : list Z := op_add pn (op_neg b).

(** [operator+=(uint64_t)], [operator-=(uint64_t)] *)
Definition op_add64 (pn : list Z) (b64 : Z) : list Z := op_add pn (base_uint_of_uint64 b64).
Definition op_sub64 (pn : list Z) (b64 : Z) : list Z := op_add pn (op_neg (base_uint_of_uint64 b64)).

(** [operator*=(uint32_t)] *)
Fixpoint mul32_loop (carry b32 : Z) (pn : list Z) : list Z :=
  match pn with
  | [] => []
  | x :: pn' =>
      let n := u64 (carry + u64 (b32 * x)) in
      Z.land n 0xffffffff :: mul32_loop (Z.shiftr n 32) b32 pn'
  end.
Definition op_mul32 (pn : list Z) (b32 : Z) : list Z := mul32_loop 0 b32 pn.

(** [operator*=(const base_uint&)]: the body of the inner loop, the inner loop for
    one [j], the outer loop. *)
Definition mul_step (a b : list Z) (j : nat) (st : list Z * Z) (i : nat) : list Z * Z :=
  let '(pn, carry) := st in
  let n := u64 (u64 (carry + pn.[i + j]) + u64 (a.[j] * b.[i])) in
  (<[(i + j)%nat := Z.land n 0xffffffff]> pn, Z.shiftr n 32).
Definition mul_row (a b : list Z) (pn : list Z) (j : nat) : list Z :=
  fst (foldl (mul_step a b j) (pn, 0) (seq 0 (WIDTH - j))).
Definition op_mul (a b : list Z) : list Z :=
  foldl (mul_row a b) base_uint_zero (seq 0 WIDTH).

(** [CompareTo]: the loop runs from the most significant limb down. *)
Fixpoint compare_loop (pn b : list Z) (i : nat) : Z :=
  match i with
  | O => 0
  | S i' => if pn.[i'] <? b.[i'] then -1
            else if b.[i'] <? pn.[i'] then 1
            else compare_loop pn b i'
  end.
Definition CompareTo (pn b : list Z) : Z := compare_loop pn b WIDTH.

(** [EqualTo(uint64_t)] *)
Definition EqualTo (pn : list Z) (b : Z) : bool :=
  forallb (λ x, x =? 0) (drop 2 pn) &&
  (pn.[1] =? Z.shiftr b 32) && (pn.[0] =? Z.land b 0xffffffff).

(** [bits]: the inner loop over the bits of a non-zero limb, then the outer loop. *)
Fixpoint limb_bits (x : Z) (bits : nat) : Z :=
  match bits with
  | O => 1
  | S bits' => if negb (Z.land x (u32 (Z.shiftl 1 (Z.of_nat bits))) =? 0)
               then Z.of_nat bits + 1 else limb_bits x bits'
  end.
Fixpoint bits_loop (pn : list Z) (pos : nat) : Z :=
  match pos with
  | O => 0
  | S p => if negb (pn.[p] =? 0) then 32 * Z.of_nat p + limb_bits pn.[p] 31
           else bits_loop pn p
  end.
Definition bits (pn : list Z) : Z := bits_loop pn WIDTH.

(** [GetLow64] *)
Definition GetLow64 (pn : list Z) : Z := Z.lor pn.[0] (u64 (Z.shiftl pn.[1] 32)).

(** [operator/=]: the body of the [if] in the loop, the loop [while (shift >= 0)],
    which returns the quotient and leaves the remainder in [num]; then the operator,
    with its exception. *)
Definition div_body (shift : nat) (num div quo : list Z) : list Z * list Z :=
  if 0 <=? CompareTo num div
  then (op_sub num div,
        <[(shift / 32)%nat :=
            Z.lor quo.[shift / 32] (u32 (Z.shiftl 1 (Z.land (Z.of_nat shift) 31)))]> quo)
  else (num, quo).
Fixpoint div_loop (shift : nat) (num div quo : list Z) : list Z * list Z :=
  let '(num, quo) := div_body shift num div quo in
  let div := op_shr div 1 in
  match shift with
  | O => (quo, num)
  | S shift' => div_loop shift' num div quo
  end.
Definition op_div (a b : list Z) : uint_error + list Z :=
  let num_bits := bits a in
  let div_bits := bits b in
  if div_bits =? 0 then inl DivisionByZero
  else if num_bits <? div_bits then inr base_uint_zero
  else
    let shift := num_bits - div_bits in
    inr (fst (div_loop (Z.to_nat shift) a (op_shl b shift) base_uint_zero)).
End base_uint.

(** ** [arith_uint256] *)

Definition WIDTH256 : nat := 8.

(** [SetCompact]: the value, [*pfNegative] and [*pfOverflow]. *)
Definition SetCompact (nCompact : Z) : list Z * bool * bool :=
  let nSize := Z.shiftr nCompact 24 in
  let nWord := Z.land nCompact 0x007fffff in
  let '(nWord, val) :=
    if nSize <=? 3
    then let w := Z.shiftr nWord (8 * (3 - nSize)) in (w, base_uint_of_uint64 WIDTH256 w)
    else (nWord, op_shl WIDTH256 (base_uint_of_uint64 WIDTH256 nWord) (8 * (nSize - 3))) in
  (val,
   (negb (nWord =? 0) && negb (Z.land nCompact 0x00800000 =? 0))%bool,
   (negb (nWord =? 0) &&
     ((34 <? nSize) || ((0xff <? nWord) && (33 <? nSize)) || ((0xffff <? nWord) && (32 <? nSize))))%bool).

(** [GetCompact]; [None] is the failure of one of its two assertions. *)
Definition GetCompact (pn : list Z) (fNegative : bool) : option Z :=
  let nSize := (bits WIDTH256 pn + 7) / 8 in
  let nCompact :=
    if nSize <=? 3
    then u32 (u64 (Z.shiftl (GetLow64 pn) (8 * (3 - nSize))))
    else u32 (GetLow64 (op_shr WIDTH256 pn (8 * (nSize - 3)))) in
  let '(nCompact, nSize) :=
    if negb (Z.land nCompact 0x00800000 =? 0)
    then (Z.shiftr nCompact 8, nSize + 1) else (nCompact, nSize) in
  if negb (Z.land nCompact (u32 (Z.lnot 0x007fffff)) =? 0) then None
  else if negb (nSize <? 256) then None
  else
    let nCompact := Z.lor nCompact (u32 (Z.shiftl nSize 24)) in
    Some (Z.lor nCompact
            (if (fNegative && negb (Z.land nCompact 0x007fffff =? 0))%bool then 0x00800000 else 0)).

(** [ArithToUint256] and [UintToArith256]: limbs to and from 32 little-endian bytes. *)
Definition ArithToUint256 (pn : list Z) : list Z := concat (map (Radix.split (2 ^ 8) 4) pn).
Definition UintToArith256 (b : list Z) : list Z :=
  map (λ x, Radix.eval (2 ^ 8) (take 4 (drop (x * 4) b))) (seq 0 WIDTH256).

(** A well-formed array of limbs, and the number it denotes. *)
Definition wf (WIDTH : nat) (pn : list Z) : Prop :=
  length pn = WIDTH ∧ Radix.digits (2 ^ 32) pn.
Definition val (pn : list Z) : Z := Radix.eval (2 ^ 32) pn.

(** ** Limb arithmetic *)
Notation B := (2 ^ 32).

Lemma B_gt_1 : 1 < B.
Proof. lia. Qed.

Lemma wf_bound W pn : wf W pn → 0 <= val pn < B ^ Z.of_nat W.
Proof. intros [<- Hd]. by apply eval_bound. Qed.

Lemma wf_cons W x pn : wf (S W) (x :: pn) ↔ 0 <= x < B ∧ wf W pn.
Proof.
  unfold wf, Radix.digits. rewrite Forall_cons_iff, length_cons. split; intuition lia.
Qed.

Lemma wf_inj W a b : wf W a → wf W b → val a = val b → a = b.
Proof. intros [Ha Hda] [Hb Hdb]. apply eval_inj; [lia|done..|lia]. Qed.

Lemma wf_insert W i x pn : wf W pn → 0 <= x < B → wf W (<[i := x]> pn).
Proof. intros [Hl Hd] Hx. split; [by rewrite length_insert|by apply digits_insert]. Qed.

Lemma wf_get W pn i : wf W pn → 0 <= pn.[i] < B.
Proof. intros [_ Hd]. apply digits_get; [lia|done]. Qed.

Lemma wf_zero W : wf W (base_uint_zero W).
Proof. split; [apply length_replicate|by apply digits_replicate_0]. Qed.

Lemma val_zero W : val (base_uint_zero W) = 0.
Proof. apply eval_replicate_0. Qed.

#[local] Hint Resolve wf_insert wf_zero : noir.

Lemma wf_of_uint64 W b : (2 <= W)%nat → wf W (base_uint_of_uint64 W b).
Proof.
  intros HW. split.
  - unfold base_uint_of_uint64. rewrite !length_cons, length_replicate. lia.
  - repeat constructor; try apply u32_range. by apply digits_replicate_0.
Qed.

Lemma val_of_uint64 W b : 0 <= b < 2 ^ 64 → val (base_uint_of_uint64 W b) = b.
Proof.
  intros Hb. unfold val, base_uint_of_uint64. cbn [Radix.eval].
  rewrite eval_replicate_0, Z.shiftr_div_pow2 by lia. unfold u32.
  rewrite (Z.mod_small (b / B)) by zlia. zlia.
Qed.

(** One step of a carry chain: splitting a 64-bit sum into a limb and a carry. *)
Lemma limb_carry n : 0 <= n < 2 ^ 64 →
  0 <= Z.land n 0xffffffff < B ∧ 0 <= Z.shiftr n 32 < B ∧
  Z.land n 0xffffffff + B * Z.shiftr n 32 = n.
Proof.
  intros Hn. change 0xffffffff with (2 ^ 32 - 1). rewrite land_mask by lia.
  rewrite Z.shiftr_div_pow2 by lia. zlia.
Qed.

(** *** Increment, complement and negation *)
Lemma op_incr_spec W pn : wf W pn →
  wf W (op_incr pn) ∧ val (op_incr pn) = (val pn + 1) mod B ^ Z.of_nat W.
Proof.
  revert W. induction pn as [|x pn IH]; intros W Hwf.
  { destruct Hwf as [<- _]. split; [repeat constructor|by rewrite Z.mod_1_r]. }
  destruct W as [|W]; [by destruct Hwf|]. apply wf_cons in Hwf as [Hx Hwf].
  pose proof (wf_bound W pn Hwf) as Hb. pose proof (pow_radix_pos B B_gt_1 W).
  cbn [op_incr]. rewrite pow_radix_S. destruct (Z.eqb_spec (u32 (x + 1)) 0) as [E|E].
  - destruct (IH W Hwf) as [Hwf' Hv]. rewrite E, wf_cons. split; [by split; [lia|]|].
    assert (x = B - 1) as -> by (unfold u32 in E; zlia).
    unfold val in *. cbn [Radix.eval]. rewrite Hv.
    replace (B - 1 + B * Radix.eval B pn + 1) with (B * (Radix.eval B pn + 1)) by lia.
    by rewrite Z.mul_mod_distr_l by lia.
  - assert (u32 (x + 1) = x + 1) as -> by (unfold u32 in *; zlia).
    rewrite wf_cons. unfold u32 in E. split; [split; [zlia|done]|].
    unfold val in *. cbn [Radix.eval]. rewrite Z.mod_small; [lia|].
    assert (x < B - 1) by zlia. nia.
Qed.

Lemma op_decr_spec W pn : wf W pn →
  wf W (op_decr pn) ∧ val (op_decr pn) = (val pn - 1) mod B ^ Z.of_nat W.
Proof.
  revert W. induction pn as [|x pn IH]; intros W Hwf.
  { destruct Hwf as [<- _]. split; [repeat constructor|by rewrite Z.mod_1_r]. }
  destruct W as [|W]; [by destruct Hwf|]. apply wf_cons in Hwf as [Hx Hwf].
  pose proof (wf_bound W pn Hwf) as Hb. pose proof (pow_radix_pos B B_gt_1 W).
  cbn [op_decr]. rewrite pow_radix_S. destruct (Z.eqb_spec (u32 (x - 1)) (2 ^ 32 - 1)) as [E|E].
  - destruct (IH W Hwf) as [Hwf' Hv]. rewrite E, wf_cons. split; [by split; [lia|]|].
    assert (x = 0) as -> by (unfold u32 in E; zlia).
    unfold val in *. cbn [Radix.eval]. rewrite Hv.
    rewrite (Z.rem_mul_r (0 + B * Radix.eval B pn - 1)) by lia.
    replace (0 + B * Radix.eval B pn - 1) with (B - 1 + (Radix.eval B pn - 1) * B) by lia.
    rewrite Z.mod_add, Z.div_add by lia.
    change ((B - 1) mod B) with (B - 1). change ((B - 1) / B) with 0. done.
  - assert (u32 (x - 1) = x - 1) as -> by (unfold u32 in *; zlia).
    rewrite wf_cons. unfold u32 in E. split; [split; [zlia|done]|].
    unfold val in *. cbn [Radix.eval]. rewrite Z.mod_small; [lia|].
    assert (0 < x) by zlia. nia.
Qed.

Lemma op_compl_spec W pn : wf W pn →
  wf W (op_compl pn) ∧ val (op_compl pn) = B ^ Z.of_nat W - 1 - val pn.
Proof.
  revert W. induction pn as [|x pn IH]; intros W Hwf.
  { destruct Hwf as [<- _]. split; [repeat constructor|done]. }
  destruct W as [|W]; [by destruct Hwf|]. apply wf_cons in Hwf as [Hx Hwf].
  destruct (IH W Hwf) as [Hwf' Hv]. cbn [op_compl map].
  assert (u32 (Z.lnot x) = B - 1 - x) as ->.
  { unfold u32, Z.lnot. rewrite <- (Z.mod_add _ 1) by lia. rewrite Z.mod_small; lia. }
  rewrite wf_cons. split; [split; [lia|done]|].
  unfold val in *. cbn [Radix.eval]. fold (op_compl pn). rewrite Hv, pow_radix_S. lia.
Qed.

Lemma op_neg_spec W pn : wf W pn →
  wf W (op_neg pn) ∧ val (op_neg pn) = (- val pn) mod B ^ Z.of_nat W.
Proof.
  intros Hwf. destruct (op_compl_spec W pn Hwf) as [Hc Hv].
  destruct (op_incr_spec W _ Hc) as [Hi Hi']. split; [done|]. unfold op_neg. rewrite Hi', Hv.
  rewrite <- (Z.mod_add (- val pn) 1) by (pose proof (pow_radix_pos B B_gt_1 W); lia).
  f_equal. lia.
Qed.

(** *** Addition and subtraction *)
Lemma add_loop_spec W c a b : wf W a → wf W b → 0 <= c <= 1 →
  wf W (add_loop c a b) ∧
  val (add_loop c a b) = (c + val a + val b) mod B ^ Z.of_nat W.
Proof.
  revert c b W. induction a as [|x a IH]; intros c b W Ha Hb Hc.
  { destruct Ha as [<- _]. split; [repeat constructor|by rewrite Z.mod_1_r]. }
  destruct W as [|W]; [by destruct Ha|]. destruct b as [|y b]; [by destruct Hb|].
  apply wf_cons in Ha as [Hx Ha]. apply wf_cons in Hb as [Hy Hb].
  cbn [add_loop]. rewrite (u64_small (c + x)), u64_small by lia.
  destruct (limb_carry (c + x + y)) as (Hd & Hcr & Hs); [lia|].
  assert (0 <= Z.shiftr (c + x + y) 32 <= 1) as Hc' by lia.
  destruct (IH _ _ W Ha Hb Hc') as [Hwf Hv].
  set (lo := Z.land _ _) in *. set (hi := Z.shiftr _ _) in *.
  rewrite wf_cons. split; [done|].
  unfold val in *. cbn [Radix.eval]. rewrite Hv, pow_radix_S.
  pose proof (pow_radix_pos B B_gt_1 W).
  replace (c + (x + B * Radix.eval B a) + (y + B * Radix.eval B b))
    with (lo + (hi + Radix.eval B a + Radix.eval B b) * B) by lia.
  by rewrite Z.rem_mul_r, Z.mod_add, Z.div_add, (Z.mod_small lo), (Z.div_small lo) by lia.
Qed.

Lemma op_add_spec W a b : wf W a → wf W b →
  wf W (op_add a b) ∧ val (op_add a b) = (val a + val b) mod B ^ Z.of_nat W.
Proof. intros Ha Hb. by apply add_loop_spec. Qed.

Lemma op_sub_spec W a b : wf W a → wf W b →
  wf W (op_sub a b) ∧ val (op_sub a b) = (val a - val b) mod B ^ Z.of_nat W.
Proof.
  intros Ha Hb. destruct (op_neg_spec W b Hb) as [Hn Hv].
  destruct (op_add_spec W a _ Ha Hn) as [Hs Hs']. split; [done|].
  unfold op_sub. rewrite Hs', Hv. by rewrite Zplus_mod_idemp_r.
Qed.

(** *** Multiplication *)
Lemma mul32_loop_spec W c b32 a : wf W a → 0 <= b32 < B → 0 <= c < B →
  wf W (mul32_loop c b32 a) ∧
  val (mul32_loop c b32 a) = (c + b32 * val a) mod B ^ Z.of_nat W.
Proof.
  revert c W. induction a as [|x a IH]; intros c W Ha Hb Hc.
  { destruct Ha as [<- _]. split; [repeat constructor|by rewrite Z.mod_1_r]. }
  destruct W as [|W]; [by destruct Ha|]. apply wf_cons in Ha as [Hx Ha].
  cbn [mul32_loop]. rewrite (u64_small (b32 * x)), u64_small by nia.
  destruct (limb_carry (c + b32 * x)) as (Hd & Hcr & Hs); [nia|].
  set (lo := Z.land _ _) in *. set (hi := Z.shiftr _ _) in *.
  destruct (IH hi W Ha Hb Hcr) as [Hwf Hv]. rewrite wf_cons. split; [done|].
  unfold val in *. cbn [Radix.eval]. rewrite Hv, pow_radix_S.
  pose proof (pow_radix_pos B B_gt_1 W).
  replace (c + b32 * (x + B * Radix.eval B a))
    with (lo + (hi + b32 * Radix.eval B a) * B) by lia.
  by rewrite Z.rem_mul_r, Z.mod_add, Z.div_add, (Z.mod_small lo), (Z.div_small lo) by lia.
Qed.

Lemma op_mul32_spec W a b32 : wf W a → 0 <= b32 < B →
  wf W (op_mul32 a b32) ∧ val (op_mul32 a b32) = (val a * b32) mod B ^ Z.of_nat W.
Proof. intros Ha Hb. rewrite (Z.mul_comm (val a)). by apply mul32_loop_spec. Qed.

(** Invariant of the inner loop of [operator*=] after [i] iterations. *)
Lemma mul_inner_spec W a b pn j i : wf W a → wf W b → wf W pn → (i + j <= W)%nat →
  let st := foldl (mul_step a b j) (pn, 0) (seq 0 i) in
  wf W st.1 ∧ 0 <= st.2 < B ∧
  val st.1 + st.2 * B ^ Z.of_nat (i + j) =
    val pn + a.[j] * Radix.eval B (take i b) * B ^ Z.of_nat j.
Proof.
  intros Ha Hb Hpn. induction i as [|i IH]; intros Hij.
  { simpl. split_and!; [done|lia..|lia]. }
  destruct IH as (Hwf & Hc & Hv); [lia|].
  rewrite seq_S, foldl_app. cbn [foldl]. rewrite Nat.add_0_l.
  destruct (foldl _ _ _) as [q c]. cbn [fst snd mul_step] in *.
  pose proof (wf_get W q (i + j) Hwf). pose proof (wf_get W a j Ha). pose proof (wf_get W b i Hb).
  rewrite (u64_small (c + _)), (u64_small (a.[j] * _)), u64_small by nia.
  destruct (limb_carry (c + q.[i + j] + a.[j] * b.[i])) as (Hd & Hcr & Hs); [nia|].
  split_and!; [by apply wf_insert|lia..|].
  destruct Hwf as [Hlq Hdq]. destruct Hb as [Hlb Hdb].
  unfold val in *. rewrite (eval_insert B q _ q.[i + j]) by (apply get_lookup; lia).
  rewrite eval_take_S by lia. rewrite Nat.add_succ_l, pow_radix_S.
  rewrite Nat2Z.inj_add, Z.pow_add_r in * by lia.
  apply (f_equal (λ z, z * (B ^ Z.of_nat i * B ^ Z.of_nat j))) in Hs. cbn beta in Hs. lia.
Qed.

Lemma mul_row_spec W a b pn j : wf W a → wf W b → wf W pn → (j < W)%nat →
  wf W (mul_row W a b pn j) ∧
  val (mul_row W a b pn j) mod B ^ Z.of_nat W =
    (val pn + a.[j] * B ^ Z.of_nat j * val b) mod B ^ Z.of_nat W.
Proof.
  intros Ha Hb Hpn Hj. unfold mul_row.
  destruct (mul_inner_spec W a b pn j (W - j)) as (Hwf & Hc & Hv); [done..|lia|].
  destruct (foldl _ _ _) as [q c]. cbn [fst snd] in *. split; [done|].
  rewrite Nat.sub_add in Hv by lia.
  rewrite <- (take_drop (W - j) b) at 1. unfold val in *. rewrite eval_app.
  destruct Hb as [Hlb Hdb]. rewrite length_take, Nat.min_l by lia.
  assert (B ^ Z.of_nat W = B ^ Z.of_nat (W - j) * B ^ Z.of_nat j) as HP
    by (rewrite <- Z.pow_add_r by lia; f_equal; lia).
  rewrite <- (Z.mod_add (Radix.eval B q) c) by (pose proof (pow_radix_pos B B_gt_1 W); lia).
  rewrite Hv. set (e := Radix.eval B (drop _ _)).
  rewrite <- (Z.mod_add (Radix.eval B pn + _) (a.[j] * e)) by (pose proof (pow_radix_pos B B_gt_1 W); lia).
  f_equal. rewrite HP. ring.
Qed.

Lemma op_mul_spec W a b : wf W a → wf W b →
  wf W (op_mul W a b) ∧ val (op_mul W a b) = (val a * val b) mod B ^ Z.of_nat W.
Proof.
  intros Ha Hb.
  assert (∀ j, (j <= W)%nat →
    let r := foldl (mul_row W a b) (base_uint_zero W) (seq 0 j) in
    wf W r ∧ val r mod B ^ Z.of_nat W = (Radix.eval B (take j a) * val b) mod B ^ Z.of_nat W) as H.
  { induction j as [|j IH]; intros Hj.
    { simpl. split; [apply wf_zero|by rewrite val_zero]. }
    destruct IH as [Hwf Hv]; [lia|]. rewrite seq_S, foldl_app. cbn [foldl]. rewrite Nat.add_0_l.
    set (r := foldl _ _ _) in *. destruct (mul_row_spec W a b r j) as [Hr Hrv]; [done..|lia|].
    split; [done|]. rewrite Hrv, <- Zplus_mod_idemp_l, Hv, Zplus_mod_idemp_l.
    destruct Ha as [Hl Hd]. rewrite eval_take_S by lia. f_equal. lia. }
  destruct (H W) as [Hwf Hv]; [lia|]. split; [done|]. unfold op_mul.
  rewrite <- (Z.mod_small (val (foldl _ _ _)) (B ^ Z.of_nat W)) by by apply wf_bound.
  rewrite Hv. destruct Ha as [Hl _]. by rewrite take_ge by lia.
Qed.

(** *** Comparison *)
Lemma compare_loop_spec W a b i : wf W a → wf W b → (i <= W)%nat →
  compare_loop a b i = Z.sgn (Radix.eval B (take i a) - Radix.eval B (take i b)).
Proof.
  intros Ha Hb. induction i as [|i IH]; intros Hi; [done|]. cbn [compare_loop].
  pose proof (wf_get W a i Ha). pose proof (wf_get W b i Hb).
  destruct Ha as [Hla Hda]. destruct Hb as [Hlb Hdb].
  rewrite !eval_take_S by lia.
  assert (0 <= Radix.eval B (take i a) < B ^ Z.of_nat i) as Ea.
  { replace i with (length (take i a)) at 3 by (rewrite length_take; lia).
    apply eval_bound, Forall_take, Hda. lia. }
  assert (0 <= Radix.eval B (take i b) < B ^ Z.of_nat i) as Eb.
  { replace i with (length (take i b)) at 3 by (rewrite length_take; lia).
    apply eval_bound, Forall_take, Hdb. lia. }
  repeat bcase; [symmetry; apply Z.sgn_neg; nia|symmetry; apply Z.sgn_pos; nia|].
  rewrite IH by lia. f_equal. nia.
Qed.

Lemma CompareTo_spec W a b : wf W a → wf W b → CompareTo W a b = Z.sgn (val a - val b).
Proof.
  intros Ha Hb. unfold CompareTo. rewrite (compare_loop_spec W) by done.
  destruct Ha as [Hla _]. destruct Hb as [Hlb _]. by rewrite !take_ge by lia.
Qed.

Lemma EqualTo_spec W a b : (2 <= W)%nat → wf W a → 0 <= b < 2 ^ 64 →
  EqualTo a b = (val a =? b).
Proof.
  intros HW [Hl Hd] Hb. destruct a as [|x [|y a]]; [simpl in Hl; lia..|].
  apply Forall_cons_iff in Hd as [Hx Hd]. apply Forall_cons_iff in Hd as [Hy Hd].
  unfold EqualTo, val. change (drop 2 (x :: y :: a)) with a.
  change ((x :: y :: a).[0]) with x. change ((x :: y :: a).[1]) with y. cbn [Radix.eval].
  change 0xffffffff with (2 ^ 32 - 1). rewrite land_mask, Z.shiftr_div_pow2 by lia.
  pose proof (eval_bound B B_gt_1 a Hd) as Ha.
  assert (forallb (λ x, x =? 0) a = (Radix.eval B a =? 0)) as ->.
  { clear -Hd. induction Hd as [|z a Hz Hd IH]; [done|]. cbn [forallb Radix.eval]. rewrite IH.
    pose proof (eval_bound B B_gt_1 a Hd). apply eq_true_iff_eq.
    rewrite andb_true_iff, !Z.eqb_eq. nia. }
  apply eq_true_iff_eq. rewrite !andb_true_iff, !Z.eqb_eq. simpl. zlia.
Qed.

(** *** Number of significant bits *)
Lemma limb_bits_spec x n : (n <= 31)%nat → 0 < x < 2 ^ (Z.of_nat n + 1) →
  limb_bits x n = Z.log2 x + 1.
Proof.
  induction n as [|n IH]; intros Hn Hx.
  { simpl in *. by assert (x = 1) as -> by lia. }
  cbn [limb_bits]. rewrite u32_small, land_bit_eqb, testbit_top, negb_involutive; try lia.
  2: { rewrite Z.shiftl_1_l. split; [lia|]. apply Z.pow_lt_mono_r; lia. }
  destruct (Z.leb_spec (2 ^ Z.of_nat (S n)) x) as [E|E].
  - rewrite (Z.log2_unique x (Z.of_nat (S n))); [done|lia|]. rewrite <- Z.add_1_r. lia.
  - apply IH; [lia|]. replace (Z.of_nat n + 1) with (Z.of_nat (S n)) by lia. lia.
Qed.

Lemma bits_loop_spec W pn p : wf W pn → (p <= W)%nat →
  let e := Radix.eval B (take p pn) in
  bits_loop pn p = if e =? 0 then 0 else Z.log2 e + 1.
Proof.
  intros Hwf. induction p as [|p IH]; intros Hp; [done|]. cbn [bits_loop].
  pose proof (wf_get W pn p Hwf). destruct Hwf as [Hl Hd].
  rewrite eval_take_S by lia. set (e := Radix.eval B (take p pn)) in *.
  assert (0 <= e < B ^ Z.of_nat p) as He.
  { replace p with (length (take p pn)) at 1 by (rewrite length_take; lia).
    apply eval_bound, Forall_take, Hd. lia. }
  destruct (Z.eqb_spec pn.[p] 0) as [E|E].
  { simpl. rewrite IH by lia. rewrite E, Z.mul_0_r, Z.add_0_r. done. }
  simpl negb. cbn iota. rewrite (limb_bits_spec _ 31) by (simpl; lia).
  destruct (Z.eqb_spec (e + B ^ Z.of_nat p * pn.[p]) 0) as [E'|E']; [nia|].
  rewrite <- Z.pow_mul_r in * by lia.
  rewrite (Z.log2_unique (e + _) (32 * Z.of_nat p + Z.log2 pn.[p])); [lia|..].
  { pose proof (Z.log2_nonneg pn.[p]). lia. }
  destruct (Z.log2_spec pn.[p]) as [L1 L2]; [lia|].
  pose proof (Z.log2_nonneg pn.[p]).
  rewrite <- Z.add_succ_r, !Z.pow_add_r by lia. nia.
Qed.

Lemma bits_spec W pn : wf W pn →
  bits W pn = if val pn =? 0 then 0 else Z.log2 (val pn) + 1.
Proof.
  intros Hwf. unfold bits. rewrite (bits_loop_spec W) by done.
  destruct Hwf as [Hl _]. by rewrite take_ge by lia.
Qed.

(** The bound that [bits] computes. *)
Lemma bits_bound W pn : wf W pn → 0 <= bits W pn <= 32 * Z.of_nat W ∧ val pn < 2 ^ bits W pn ∧
  (0 < val pn → 2 ^ (bits W pn - 1) <= val pn ∧ 0 < bits W pn).
Proof.
  intros Hwf. rewrite (bits_spec W) by done. pose proof (wf_bound W pn Hwf) as Hb.
  rewrite <- Z.pow_mul_r in Hb by lia. destruct (Z.eqb_spec (val pn) 0) as [->|E].
  { split_and!; simpl; lia. }
  pose proof (Z.log2_spec (val pn)) as [L1 L2]; [lia|]. pose proof (Z.log2_nonneg (val pn)).
  assert (Z.log2 (val pn) < 32 * Z.of_nat W) by (apply Z.log2_lt_pow2; lia).
  replace (Z.log2 (val pn) + 1 - 1) with (Z.log2 (val pn)) by lia.
  rewrite <- Z.add_1_r in L2. split_and!; lia.
Qed.

(** *** Shifts

    Slot [j] of the arrays that the loops of [operator<<=] and [operator>>=] have
    built after [n] iterations. *)
Definition shl_slot (k : nat) (t : Z) (a : list Z) (n j : nat) : Z :=
  Z.lor (if ((k + 1 <=? j)%nat && (j <? n + k + 1)%nat && negb (t =? 0))%bool
         then Z.shiftr a.[j - k - 1] (32 - t) else 0)
        (if ((k <=? j)%nat && (j <? n + k)%nat)%bool then u32 (Z.shiftl a.[j - k] t) else 0).

Definition shr_slot (k : nat) (t : Z) (a : list Z) (n j : nat) : Z :=
  Z.lor (if ((j + k + 1 <? n)%nat && negb (t =? 0))%bool
         then u32 (Z.shiftl a.[j + k + 1] (32 - t)) else 0)
        (if (j + k <? n)%nat then Z.shiftr a.[j + k] t else 0).

Lemma shl_loop W k t a n : (n <= W)%nat →
  let r := foldl (shl_step W k t a) (base_uint_zero W) (seq 0 n) in
  length r = W ∧ ∀ j, (j < W)%nat → r.[j] = shl_slot k t a n j.
Proof.
  induction n as [|n IH]; intros Hn.
  { split; [apply length_replicate|]. intros j Hj. simpl. unfold base_uint_zero, shl_slot.
    rewrite get_replicate_0. simpl. natcase; done. }
  destruct IH as [Hlen Hr]; [lia|]. rewrite seq_S, foldl_app. cbn [foldl]. rewrite Nat.add_0_l.
  set (r := foldl _ _ _) in *. clearbody r. unfold shl_step. split.
  { by repeat case_match; rewrite ?length_insert. }
  intros j Hj. assert (Hj' := Hr j Hj). revert Hj'. unfold shl_slot.
  destruct (negb (t =? 0)); rewrite ?andb_true_r, ?andb_false_r;
  natcase; simpl; rewrite ?get_insert, ?length_insert, ?Hlen; natcase; simpl; intros Hj'; subst;
    rewrite ?Hj', ?Z.lor_0_r, ?Z.lor_0_l;
    repeat (f_equal; try lia).
Qed.

Lemma shr_loop W k t a n : (n <= W)%nat →
  let r := foldl (shr_step k t a) (base_uint_zero W) (seq 0 n) in
  length r = W ∧ ∀ j, (j < W)%nat → r.[j] = shr_slot k t a n j.
Proof.
  induction n as [|n IH]; intros Hn.
  { split; [apply length_replicate|]. intros j Hj. simpl. unfold base_uint_zero, shr_slot.
    rewrite get_replicate_0. natcase; done. }
  destruct IH as [Hlen Hr]; [lia|]. rewrite seq_S, foldl_app. cbn [foldl]. rewrite Nat.add_0_l.
  set (r := foldl _ _ _) in *. clearbody r. unfold shr_step. split.
  { by repeat case_match; rewrite ?length_insert. }
  intros j Hj. assert (Hj' := Hr j Hj). revert Hj'. unfold shr_slot.
  destruct (negb (t =? 0)); rewrite ?andb_true_r, ?andb_false_r;
  natcase; simpl; rewrite ?get_insert, ?length_insert, ?Hlen; natcase; simpl; intros Hj'; subst;
    rewrite ?Hj', ?Z.lor_0_r, ?Z.lor_0_l;
    first [done|rewrite Z.lor_comm; repeat (f_equal; try lia)|repeat (f_equal; try lia)].
Qed.

Lemma testbit_val W a n : wf W a → 0 <= n →
  Z.testbit (val a) n = Z.testbit a.[Z.to_nat (n / 32)] (n mod 32).
Proof.
  intros [_ Hd] Hn. rewrite <- (eval_testbit 32) by (done || zlia). f_equal.
  rewrite Z2Nat.id; zlia.
Qed.

Lemma testbit_val_at W a i r : wf W a → 0 <= r < 32 →
  Z.testbit a.[i] r = Z.testbit (val a) (32 * Z.of_nat i + r).
Proof. intros [_ Hd] Hr. by rewrite <- (eval_testbit 32) by (done || lia). Qed.

Lemma pow_limbs W : B ^ Z.of_nat W = 2 ^ (32 * Z.of_nat W).
Proof. by rewrite Z.pow_mul_r by lia. Qed.

(** Reading a limb of an array built slot by slot. *)
Lemma wf_slots W r f : length r = W → (∀ j, (j < W)%nat → r.[j] = f j) →
  (∀ j, 0 <= f j < B) → wf W r.
Proof.
  intros Hl Hr Hf. split; [done|]. apply Forall_lookup_2. intros i x Hi.
  assert (Hlt := lookup_lt_Some _ _ _ Hi). rewrite get_lookup in Hi by done. simplify_eq.
  rewrite Hr by done. apply Hf.
Qed.

(** *** Bitwise operators *)
Section bitwise.
Context (op : Z → Z → Z) (f : bool → bool → bool).
Hypothesis op_spec : ∀ x y n, Z.testbit (op x y) n = f (Z.testbit x n) (Z.testbit y n).
Hypothesis f_false : f false false = false.

Lemma bitwise_range x y : 0 <= x < B → 0 <= y < B → 0 <= op x y < B.
Proof using op_spec f_false.
  intros Hx Hy. cut (op x y = op x y mod B); [intros ->; apply Z.mod_pos_bound; lia|].
  apply Z.bits_inj'. intros n Hn. destruct (Z_lt_ge_dec n 32).
  - by rewrite Z.mod_pow2_bits_low by lia.
  - rewrite Z.mod_pow2_bits_high, op_spec, !(testbit_small _ 32) by lia. done.
Qed.

Lemma bitwise_spec W a b : wf W a → wf W b →
  wf W (zip_with op a b) ∧ val (zip_with op a b) = op (val a) (val b).
Proof using op_spec f_false.
  intros Ha Hb. assert (op 0 0 = 0) as H0.
  { apply Z.bits_inj'. intros n _. by rewrite op_spec, !Z.bits_0. }
  assert (∀ i, (zip_with op a b).[i] = op a.[i] b.[i]) as Hget.
  { intros i. unfold get. rewrite lookup_zip_with. destruct Ha as [La _], Hb as [Lb _].
    destruct (a !! i) eqn:Ea, (b !! i) eqn:Eb; cbn; try done;
      [apply lookup_lt_Some in Ea; apply lookup_ge_None in Eb|apply lookup_lt_Some in Eb; apply lookup_ge_None in Ea]; lia. }
  assert (wf W (zip_with op a b)) as Hw.
  { apply (wf_slots W _ (λ i, op a.[i] b.[i])); [|done|].
    - rewrite length_zip_with. destruct Ha as [-> _], Hb as [-> _]. lia.
    - intros i. apply bitwise_range; by eapply wf_get. }
  split; [done|]. apply Z.bits_inj'. intros n Hn.
  by rewrite op_spec, !(testbit_val W), Hget, op_spec by done.
Qed.
End bitwise.

Lemma op_and_spec W a b : wf W a → wf W b → wf W (op_and a b) ∧ val (op_and a b) = Z.land (val a) (val b).
Proof. by apply (bitwise_spec Z.land andb Z.land_spec). Qed.
Lemma op_or_spec W a b : wf W a → wf W b → wf W (op_or a b) ∧ val (op_or a b) = Z.lor (val a) (val b).
Proof. by apply (bitwise_spec Z.lor orb Z.lor_spec). Qed.
Lemma op_xor_spec W a b : wf W a → wf W b → wf W (op_xor a b) ∧ val (op_xor a b) = Z.lxor (val a) (val b).
Proof. by apply (bitwise_spec Z.lxor xorb Z.lxor_spec). Qed.

(** The operators with a 64-bit operand are those with the array of the operand. *)
Lemma zip_with_zeros (op : Z → Z → Z) l n : (∀ x, op x 0 = x) → length l = n → zip_with op l (replicate n 0) = l.
Proof. intros H0 <-. induction l as [|x l IH]; [done|]. cbn. by rewrite H0, IH. Qed.
Lemma op_or64_or W a b64 : (2 <= W)%nat → wf W a → op_or64 a b64 = op_or a (base_uint_of_uint64 W b64).
Proof.
  intros HW [Hl _]. destruct a as [|x [|y a]]; [simpl in Hl; lia..|]. unfold op_or64, op_or, base_uint_of_uint64. cbn -[Z.lor].
  rewrite (zip_with_zeros Z.lor); [done|apply Z.lor_0_r|]. simpl in Hl. lia.
Qed.
Lemma op_xor64_xor W a b64 : (2 <= W)%nat → wf W a → op_xor64 a b64 = op_xor a (base_uint_of_uint64 W b64).
Proof.
  intros HW [Hl _]. destruct a as [|x [|y a]]; [simpl in Hl; lia..|]. unfold op_xor64, op_xor, base_uint_of_uint64. cbn -[Z.lxor].
  rewrite (zip_with_zeros Z.lxor); [done|apply Z.lxor_0_r|]. simpl in Hl. lia.
Qed.
Lemma uint64_operand W a b64 : (2 <= W)%nat → wf W a → 0 <= b64 < 2 ^ 64 →
  (wf W (op_or64 a b64) ∧ val (op_or64 a b64) = Z.lor (val a) b64) ∧
  (wf W (op_xor64 a b64) ∧ val (op_xor64 a b64) = Z.lxor (val a) b64) ∧
  (wf W (op_add64 W a b64) ∧ val (op_add64 W a b64) = (val a + b64) mod B ^ Z.of_nat W) ∧
  (wf W (op_sub64 W a b64) ∧ val (op_sub64 W a b64) = (val a - b64) mod B ^ Z.of_nat W) ∧
  EqualTo a b64 = (val a =? b64).
Proof.
  intros HW Ha Hb. pose proof (wf_of_uint64 W b64 HW) as Hw. pose proof (val_of_uint64 W b64 Hb) as Hv.
  rewrite (op_or64_or W), (op_xor64_xor W) by done. unfold op_add64, op_sub64.
  destruct (op_or_spec W _ _ Ha Hw), (op_xor_spec W _ _ Ha Hw), (op_add_spec W _ _ Ha Hw), (op_sub_spec W _ _ Ha Hw).
  rewrite Hv in *. split_and!; try done. by apply (EqualTo_spec W).
Qed.

Lemma op_shl_spec W a s : wf W a → 0 <= s →
  wf W (op_shl W a s) ∧ val (op_shl W a s) = (val a * 2 ^ s) mod B ^ Z.of_nat W.
Proof.
  intros Ha Hs. unfold op_shl. set (k := Z.to_nat (s / 32)). set (t := s mod 32).
  assert (0 <= t < 32) as Ht by (apply Z.mod_pos_bound; lia).
  assert (s = 32 * Z.of_nat k + t) as Hst by (unfold k, t; zlia).
  destruct (shl_loop W k t a W) as [Hl Hr]; [lia|]. set (r := foldl _ _ _) in *.
  assert (wf W r) as Hwf.
  { apply (wf_slots W r _ Hl Hr). intros j. unfold shl_slot. apply lor_range; [lia|..]; case_match;
      try lia; try apply u32_range. apply shiftr_range; [lia|]. by apply (wf_get W). }
  split; [done|]. apply bits_ext. intros n Hn. rewrite (testbit_val W) by done.
  rewrite pow_limbs. destruct (decide (32 * Z.of_nat W <= n)) as [Hge|Hlt].
  { rewrite get_ge, Z.bits_0 by (rewrite Hl; zlia). by rewrite Z.mod_pow2_bits_high by lia. }
  rewrite Hr, Z.mod_pow2_bits_low, Z.mul_pow2_bits by zlia.
  set (j := Z.to_nat (n / 32)). set (b := n mod 32).
  assert (0 <= b < 32) as Hb by (apply Z.mod_pos_bound; lia).
  assert (n = 32 * Z.of_nat j + b) as Hjb by (unfold j, b; zlia). clearbody j b k t. subst n.
  assert (j < W)%nat by lia. unfold shl_slot. rewrite Z.lor_spec, Hst.
  rewrite (proj2 (Nat.ltb_lt j (W + k + 1))), (proj2 (Nat.ltb_lt j (W + k))), !andb_true_r by lia.
  assert (∀ m, Z.testbit (u32 (Z.shiftl a.[m] t)) b = Z.testbit a.[m] (b - t)) as Elo.
  { intros m. unfold u32. by rewrite Z.mod_pow2_bits_low, Z.shiftl_spec by lia. }
  destruct (decide (b < t)) as [Hbt|Hbt].
  - rewrite (proj2 (Z.eqb_neq t 0)) by lia. rewrite andb_true_r.
    replace (Z.testbit (if (k <=? j)%nat then _ else 0) b) with false
      by (case_match; by rewrite ?Elo, ?Z.testbit_neg_r, ?Z.bits_0 by lia).
    rewrite orb_false_r. natcase.
    + rewrite Z.shiftr_spec, (testbit_val_at W) by (done || lia). f_equal. lia.
    + rewrite Z.bits_0, Z.testbit_neg_r by lia. done.
  - replace (Z.testbit (if ((k + 1 <=? j)%nat && _)%bool then _ else 0) b) with false.
    2: { symmetry. case_match; [|apply Z.bits_0]. rewrite Z.shiftr_spec by lia.
         destruct (Z.eqb_spec t 0); [by rewrite andb_false_r in *|].
         apply (testbit_small _ 32); [by apply (wf_get W)|lia]. }
    rewrite orb_false_l. natcase.
    + rewrite Elo, (testbit_val_at W) by (done || lia). f_equal. lia.
    + rewrite Z.bits_0, Z.testbit_neg_r by lia. done.
Qed.

Lemma op_shr_spec W a s : wf W a → 0 <= s →
  wf W (op_shr W a s) ∧ val (op_shr W a s) = val a / 2 ^ s.
Proof.
  intros Ha Hs. unfold op_shr. set (k := Z.to_nat (s / 32)). set (t := s mod 32).
  assert (0 <= t < 32) as Ht by (apply Z.mod_pos_bound; lia).
  assert (s = 32 * Z.of_nat k + t) as Hst by (unfold k, t; zlia).
  destruct (shr_loop W k t a W) as [Hl Hr]; [lia|]. set (r := foldl _ _ _) in *.
  assert (wf W r) as Hwf.
  { apply (wf_slots W r _ Hl Hr). intros j. unfold shr_slot. apply lor_range; [lia|..]; case_match;
      try lia; try apply u32_range. apply shiftr_range; [lia|]. by apply (wf_get W). }
  split; [done|]. rewrite <- Z.shiftr_div_pow2 by done.
  apply bits_ext. intros n Hn. rewrite Z.shiftr_spec, !(testbit_val W) by (done || lia).
  destruct (decide (32 * Z.of_nat W <= n)) as [Hge|Hlt].
  { destruct Ha as [Hla _]. rewrite !get_ge by (rewrite ?Hl, ?Hla; zlia). by rewrite !Z.bits_0. }
  rewrite Hr, <- (testbit_val W) by (done || zlia).
  set (j := Z.to_nat (n / 32)). set (b := n mod 32).
  assert (0 <= b < 32) as Hb by (apply Z.mod_pos_bound; lia).
  assert (n = 32 * Z.of_nat j + b) as Hjb by (unfold j, b; zlia). clearbody j b k t. subst n.
  assert (∀ m, (W <= m)%nat → ∀ q, 32 * Z.of_nat m <= q → Z.testbit (val a) q = false) as Hhigh.
  { intros m Hm q Hq. apply (testbit_small _ (32 * Z.of_nat W)); [|lia].
    rewrite <- pow_limbs. by apply wf_bound. }
  unfold shr_slot. rewrite Z.lor_spec, Hst.
  destruct (decide (b + t < 32)) as [Hbt|Hbt].
  - replace (Z.testbit (if ((j + k + 1 <? W)%nat && _)%bool then _ else 0) b) with false.
    2: { symmetry. case_match; [|apply Z.bits_0]. unfold u32.
         rewrite Z.mod_pow2_bits_low, Z.shiftl_spec, Z.testbit_neg_r by lia. done. }
    rewrite orb_false_l. natcase.
    + rewrite Z.shiftr_spec, (testbit_val_at W) by (done || lia). f_equal. lia.
    + rewrite Z.bits_0, (Hhigh (j + k)%nat) by lia. done.
  - rewrite (proj2 (Z.eqb_neq t 0)) by lia. rewrite andb_true_r.
    replace (Z.testbit (if (j + k <? W)%nat then _ else 0) b) with false.
    2: { symmetry. case_match; [|apply Z.bits_0]. rewrite Z.shiftr_spec by lia.
         apply (testbit_small _ 32); [by apply (wf_get W)|lia]. }
    rewrite orb_false_r. natcase.
    + unfold u32. rewrite Z.mod_pow2_bits_low, Z.shiftl_spec, (testbit_val_at W) by (done || lia).
      f_equal. lia.
    + rewrite Z.bits_0, (Hhigh (j + k + 1)%nat) by lia. done.
Qed.

(** *** Division *)

(** Setting a clear bit adds its weight. *)
Lemma val_set_bit W q n : wf W q → (n < 32 * W)%nat → Z.testbit (val q) (Z.of_nat n) = false →
  let q' := <[(n / 32)%nat := Z.lor q.[n / 32] (u32 (Z.shiftl 1 (Z.land (Z.of_nat n) 31)))]> q in
  wf W q' ∧ val q' = val q + 2 ^ Z.of_nat n.
Proof.
  intros Hq Hn Hbit. change 31 with (2 ^ 5 - 1). rewrite land_mask by lia.
  set (r := Z.of_nat n mod 2 ^ 5). assert (0 <= r < 32) as Hr by (unfold r; zlia).
  assert (Z.of_nat n = 32 * Z.of_nat (n / 32) + r) as Hnr
    by (unfold r; rewrite Nat2Z.inj_div; zlia).
  assert (n / 32 < W)%nat as Hlt by (apply Nat.Div0.div_lt_upper_bound; lia).
  rewrite Hnr, <- (testbit_val_at W) in Hbit by done.
  assert (u32 (Z.shiftl 1 r) = 2 ^ r) as ->.
  { rewrite Z.shiftl_1_l. apply u32_small. split; [lia|]. apply Z.pow_lt_mono_r; lia. }
  assert (0 <= 2 ^ r < B) as Hp by (split; [lia|]; apply Z.pow_lt_mono_r; lia).
  assert (Z.lor q.[n / 32] (2 ^ r) = q.[n / 32] + 2 ^ r) as Hlor.
  { symmetry. apply Z.add_nocarry_lor, Z.eqb_eq. rewrite <- Z.shiftl_1_l, land_bit_eqb by lia.
    by rewrite Hbit. }
  pose proof (wf_get W q (n / 32) Hq). split.
  { apply wf_insert; [done|]. apply (lor_range _ _ 32); lia. }
  destruct Hq as [Hl Hd]. unfold val.
  rewrite (eval_insert B q _ q.[n / 32]) by (apply get_lookup; lia).
  rewrite Hlor, Hnr, Z.pow_add_r, Z.pow_mul_r by lia. lia.
Qed.

Lemma div_body_spec W b s num div quo : wf W num → wf W div → wf W quo → 0 < b →
  val div = b * 2 ^ Z.of_nat s → val num < b * 2 ^ (Z.of_nat s + 1) →
  val quo mod 2 ^ (Z.of_nat s + 1) = 0 →
  let st := div_body W s num div quo in
  wf W st.1 ∧ wf W st.2 ∧ val st.1 < b * 2 ^ Z.of_nat s ∧ val st.2 mod 2 ^ Z.of_nat s = 0 ∧
  val st.2 * b + val st.1 = val quo * b + val num.
Proof.
  intros Hnum Hdiv Hquo Hb Vdiv Vnum Vquo.
  pose proof (wf_bound W num Hnum) as Bnum. pose proof (wf_bound W div Hdiv) as Bdiv.
  assert (Z.testbit (val quo) (Z.of_nat s) = false) as Hbit
    by (rewrite <- (Z.mod_pow2_bits_low _ (Z.of_nat s + 1)) by lia; rewrite Vquo; apply Z.bits_0).
  assert (s < 32 * W)%nat as Hm.
  { rewrite pow_limbs in Bdiv. apply Nat2Z.inj_lt, (Z.pow_lt_mono_r_iff 2); [lia..|].
    rewrite Nat2Z.inj_mul. nia. }
  rewrite Z.pow_add_r in * by lia. change (2 ^ 1) with 2 in *.
  assert (val quo mod 2 ^ Z.of_nat s = 0) as Vquo'.
  { apply Z.mod_divide in Vquo; [|lia]. apply Z.mod_divide; [lia|].
    apply (Z.divide_trans _ (2 ^ Z.of_nat s * 2)); [exists 2; lia|done]. }
  unfold div_body. rewrite (CompareTo_spec W) by done.
  destruct (Z.leb_spec 0 (Z.sgn (val num - val div))) as [E|E]; cbn [fst snd].
  - apply Z.sgn_nonneg in E. destruct (op_sub_spec W num div Hnum Hdiv) as [Hsub Vsub].
    rewrite Z.mod_small in Vsub by lia.
    destruct (val_set_bit W quo s Hquo Hm Hbit) as [Hq' Vq'].
    split_and!; [done..|lia| |lia]. rewrite Vq', Z.add_mod, Vquo', Z.mod_same by lia. done.
  - apply Z.sgn_neg_iff in E. split_and!; [done..|lia|done|done].
Qed.

Lemma div_loop_spec W b s : ∀ num div quo, wf W num → wf W div → wf W quo → 0 < b →
  val div = b * 2 ^ Z.of_nat s → val num < b * 2 ^ (Z.of_nat s + 1) →
  val quo mod 2 ^ (Z.of_nat s + 1) = 0 →
  let st := div_loop W s num div quo in
  wf W st.1 ∧ wf W st.2 ∧ val st.2 < b ∧ val st.1 * b + val st.2 = val quo * b + val num.
Proof.
  induction s as [|s IH]; intros num div quo Hnum Hdiv Hquo Hb Vdiv Vnum Vquo; cbn [div_loop].
  all: pose proof (div_body_spec W b _ _ _ _ Hnum Hdiv Hquo Hb Vdiv Vnum Vquo) as HS.
  all: destruct (div_body _ _ _ _ _) as [num' quo']; cbn [fst snd] in *.
  all: destruct HS as (W1 & W2 & V1 & V2 & V3).
  { split_and!; [done..|lia|done]. }
  destruct (op_shr_spec W div 1 Hdiv) as [Hshr Vshr]; [lia|].
  rewrite Nat2Z.inj_succ, Z.pow_succ_r in * by lia.
  destruct (IH num' (op_shr W div 1) quo') as (U1 & U2 & U3 & U4); [done..| | | |].
  - rewrite Vshr, Vdiv. change (2 ^ 1) with 2. symmetry. apply Z.div_unique_exact; lia.
  - rewrite Z.pow_add_r by lia. lia.
  - rewrite Z.pow_add_r by lia. by rewrite Z.mul_comm.
  - split_and!; [done..|lia].
Qed.

Lemma op_div_spec W a b : wf W a → wf W b →
  match op_div W a b with
  | inl _ => val b = 0
  | inr q => val b ≠ 0 ∧ wf W q ∧ val q = val a / val b
  end.
Proof.
  intros Ha Hb. unfold op_div.
  pose proof (wf_bound W a Ha) as Ba. pose proof (wf_bound W b Hb) as Bb.
  destruct (bits_bound W a Ha) as (A1 & A2 & A3). destruct (bits_bound W b Hb) as (B1 & B2 & B3).
  destruct (Z.eqb_spec (bits W b) 0) as [E|E].
  { rewrite E in B2. simpl in B2. lia. }
  assert (val b ≠ 0) as Hb0.
  { intros Hb0. rewrite (bits_spec W), Hb0 in E by done. done. }
  destruct B3 as [B3 B4]; [lia|].
  destruct (Z.ltb_spec (bits W a) (bits W b)) as [E1|E1].
  { split_and!; [done|apply wf_zero|]. rewrite val_zero, Z.div_small; [done|].
    assert (2 ^ bits W a <= 2 ^ (bits W b - 1)) by (apply Z.pow_le_mono_r; lia). lia. }
  split; [done|]. set (s := bits W a - bits W b) in *.
  destruct (op_shl_spec W b s Hb) as [Hshl Vshl]; [lia|].
  assert (2 ^ bits W a = 2 ^ bits W b * 2 ^ s) as Hpow by (rewrite <- Z.pow_add_r by lia; f_equal; lia).
  assert (2 ^ bits W b = 2 * 2 ^ (bits W b - 1)) as Hpow2 by (rewrite <- Z.pow_succ_r by lia; f_equal; lia).
  assert (2 ^ bits W a <= 2 ^ (32 * Z.of_nat W)) by (apply Z.pow_le_mono_r; lia).
  rewrite Z.mod_small in Vshl by (rewrite pow_limbs; nia).
  destruct (div_loop_spec W (val b) (Z.to_nat s) a (op_shl W b s) (base_uint_zero W))
    as (D1 & D2 & D3 & D4); try done; try (rewrite Z2Nat.id by lia); try lia.
  { apply wf_zero. }
  { rewrite Z.pow_add_r by lia. nia. }
  { by rewrite val_zero. }
  split; [done|]. rewrite val_zero in D4. pose proof (wf_bound W _ D2).
  apply Z.div_unique_pos with (val (div_loop W (Z.to_nat s) a (op_shl W b s) (base_uint_zero W)).2); lia.
Qed.

(** ** The compact format *)

Lemma GetLow64_spec W pn : (2 <= W)%nat → wf W pn → GetLow64 pn = val pn mod 2 ^ 64.
Proof.
  intros HW [Hl Hd]. destruct pn as [|x [|y pn]]; [simpl in Hl; lia..|].
  apply Forall_cons_iff in Hd as [Hx Hd]. apply Forall_cons_iff in Hd as [Hy Hd].
  unfold GetLow64, val. change ((x :: y :: pn).[0]) with x. change ((x :: y :: pn).[1]) with y.
  cbn [Radix.eval]. rewrite u64_small.
  2: rewrite Z.shiftl_mul_pow2 by lia; lia.
  rewrite lor_shiftl_add by lia. zlia.
Qed.

(** The mantissa and exponent of the whole number a compact value denotes. *)
Definition compact_word (c : Z) : Z :=
  let s := c / 2 ^ 24 in let m := c mod 2 ^ 23 in
  if s <=? 3 then m / 2 ^ (8 * (3 - s)) else m.
Definition compact_number (c : Z) : Z :=
  let s := c / 2 ^ 24 in
  if s <=? 3 then compact_word c else compact_word c * 2 ^ (8 * (s - 3)).

Lemma SetCompact_value c : 0 <= c < 2 ^ 32 →
  ∃ v, SetCompact c = (v, negb (compact_word c =? 0) && Z.testbit c 23, 2 ^ 256 <=? compact_number c)%bool ∧
       wf WIDTH256 v ∧ val v = compact_number c mod 2 ^ 256.
Proof.
  intros Hc. unfold SetCompact, compact_number, compact_word.
  rewrite Z.shiftr_div_pow2 by lia. change 0x007fffff with (2 ^ 23 - 1). rewrite land_mask by lia.
  change 0x00800000 with (Z.shiftl 1 23). rewrite land_bit_eqb, negb_involutive by lia.
  set (s := c / 2 ^ 24). set (m := c mod 2 ^ 23).
  assert (0 <= s < 256) as Hs by (unfold s; zlia). assert (0 <= m < 2 ^ 23) as Hm by (unfold m; zlia).
  clearbody s m. destruct (Z.leb_spec s 3) as [E|E].
  - rewrite Z.shiftr_div_pow2 by lia. set (w := m / _).
    assert (0 <= w < 2 ^ 23) as Hw.
    { unfold w. split; [apply Z.div_pos; lia|].
      apply Z.le_lt_trans with m; [|lia]. apply Z.div_le_upper_bound; [lia|]. nia. }
    exists (base_uint_of_uint64 WIDTH256 w). split.
    + repeat f_equal. rewrite !(proj2 (Z.ltb_ge _ s)) by lia. rewrite !andb_false_r. simpl.
      symmetry. apply Z.leb_gt. lia.
    + split; [by apply wf_of_uint64; unfold WIDTH256; lia|]. rewrite val_of_uint64 by lia.
      rewrite Z.mod_small; lia.
  - set (v := base_uint_of_uint64 WIDTH256 m).
    assert (wf WIDTH256 v) as Hv by (apply wf_of_uint64; unfold WIDTH256; lia).
    destruct (op_shl_spec WIDTH256 v (8 * (s - 3)) Hv) as [Hw Vw]; [lia|].
    eexists. split; [|split; [exact Hw|]].
    + repeat f_equal.
      apply eq_true_iff_eq. rewrite Z.leb_le.
      rewrite andb_true_iff, !orb_true_iff, !andb_true_iff, negb_true_iff, Z.eqb_neq, !Z.ltb_lt.
      destruct (decide (s <= 32)).
      { assert (2 ^ (8 * (s - 3)) <= 2 ^ 232) by (apply Z.pow_le_mono_r; lia). nia. }
      destruct (decide (s = 33)) as [->|]; [simpl; lia|].
      destruct (decide (s = 34)) as [->|]; [simpl; lia|].
      assert (2 ^ 256 <= 2 ^ (8 * (s - 3))) by (apply Z.pow_le_mono_r; lia). nia.
    + rewrite Vw. unfold v. rewrite val_of_uint64 by lia. done.
Qed.

(** Mantissa and exponent that [GetCompact] stores for the number [x]. *)
Definition compact_parts (x : Z) : Z * Z :=
  let n := ((if x =? 0 then 0 else Z.log2 x + 1) + 7) / 8 in
  let c := if n <=? 3 then x * 2 ^ (8 * (3 - n)) else x / 2 ^ (8 * (n - 3)) in
  if 2 ^ 23 <=? c then (c / 256, n + 1) else (c, n).

(** Number of bytes of [x] and what its leading three bytes are. *)
Lemma compact_bytes x : 0 <= x < 2 ^ 256 →
  let n := ((if x =? 0 then 0 else Z.log2 x + 1) + 7) / 8 in
  let c := if n <=? 3 then x * 2 ^ (8 * (3 - n)) else x / 2 ^ (8 * (n - 3)) in
  0 <= n <= 32 ∧ x < 2 ^ (8 * n) ∧ 0 <= c < 2 ^ 24 ∧ (x = 0 ∧ n = 0 ∨ 0 < x ∧ 1 <= n ∧ 2 ^ 16 <= c).
Proof.
  intros Hx n c. destruct (Z.eqb_spec x 0) as [E|E].
  { subst x. change n with 0 in *. unfold c. simpl. split_and!; try lia. }
  destruct (Z.log2_spec x) as [L1 L2]; [lia|]. pose proof (Z.log2_nonneg x).
  assert (Z.log2 x < 256) by (apply Z.log2_lt_pow2; lia).
  assert (1 <= n <= 32) as Hn by (unfold n; zlia).
  assert (x < 2 ^ (8 * n)) as Hu
    by (eapply Z.lt_le_trans; [exact L2|]; apply Z.pow_le_mono_r; [lia|unfold n; zlia]).
  assert (2 ^ (8 * (n - 1)) <= x) as Hlo
    by (eapply Z.le_trans; [|exact L1]; apply Z.pow_le_mono_r; [lia|unfold n; zlia]).
  clearbody n. split_and!; [lia..| | |right]; unfold c; destruct (Z.leb_spec n 3).
  all: try (assert (n = 1 ∨ n = 2 ∨ n = 3) as Hn3 by lia;
            destruct Hn3 as [-> | [-> | ->]]; simpl in *; split_and?; lia).
  all: replace (8 * n) with (24 + 8 * (n - 3)) in Hu by lia;
       replace (8 * (n - 1)) with (16 + 8 * (n - 3)) in Hlo by lia;
       rewrite Z.pow_add_r in Hu, Hlo by lia.
  - apply Z.div_pos; lia.
  - apply Z.div_lt_upper_bound; lia.
  - split_and!; [lia..|]. apply Z.div_le_lower_bound; lia.
Qed.

Lemma land_high_zero m : 0 <= m < 2 ^ 23 → Z.land m (u32 (Z.lnot 0x007fffff)) = 0.
Proof.
  intros Hm. change (u32 (Z.lnot 0x007fffff)) with (Z.shiftl 0x1ff 23).
  apply bits_ext. intros i Hi. rewrite Z.land_spec, Z.bits_0, Z.shiftl_spec by lia.
  destruct (decide (i < 23)).
  - rewrite (Z.testbit_neg_r _ (i - 23)) by lia. apply andb_false_r.
  - by rewrite (testbit_small m 23) by lia.
Qed.

Lemma GetCompact_value pn f : wf WIDTH256 pn →
  let '(m, n) := compact_parts (val pn) in
  GetCompact pn f = Some (m + n * 2 ^ 24 + if (f && negb (m =? 0))%bool then 2 ^ 23 else 0) ∧
  0 <= m < 2 ^ 23 ∧ 0 <= n < 256.
Proof.
  intros Hwf. pose proof (wf_bound _ _ Hwf) as Hx. change (B ^ Z.of_nat WIDTH256) with (2 ^ 256) in Hx.
  unfold GetCompact, compact_parts. rewrite (bits_spec WIDTH256) by done.
  destruct (compact_bytes (val pn) Hx) as (Hn & Hu & Hc & Hz).
  set (n := (_ + 7) / 8) in *. clearbody n.
  assert ((if n <=? 3 then u32 (u64 (Z.shiftl (GetLow64 pn) (8 * (3 - n))))
           else u32 (GetLow64 (op_shr WIDTH256 pn (8 * (n - 3))))) =
          (if n <=? 3 then val pn * 2 ^ (8 * (3 - n)) else val pn / 2 ^ (8 * (n - 3)))) as ->.
  { destruct (Z.leb_spec n 3).
    - assert (2 ^ (8 * n) <= 2 ^ 24) by (apply Z.pow_le_mono_r; lia).
      rewrite (GetLow64_spec WIDTH256), (Z.mod_small (val pn)) by (done || unfold WIDTH256; lia).
      rewrite Z.shiftl_mul_pow2 by lia. rewrite (u64_small (_ * _)), u32_small by lia. done.
    - destruct (op_shr_spec WIDTH256 pn (8 * (n - 3)) Hwf) as [Hw Vw]; [lia|].
      rewrite (GetLow64_spec WIDTH256), Vw by (done || unfold WIDTH256; lia).
      rewrite Z.mod_small, u32_small by lia. done. }
  set (c := if n <=? 3 then _ else _) in *. clearbody c.
  change 0x00800000 with (Z.shiftl 1 23) at 1. rewrite land_bit_eqb, testbit_top, negb_involutive by lia.
  destruct (if 2 ^ 23 <=? c then _ else (c, n)) as [m k] eqn:Emk.
  replace (if 2 ^ 23 <=? c then (Z.shiftr c 8, n + 1) else (c, n)) with (m, k).
  2: { rewrite <- Emk. by rewrite Z.shiftr_div_pow2 by lia. }
  assert (0 <= m < 2 ^ 23 ∧ 0 <= k < 256) as [Hm Hk].
  { destruct (Z.leb_spec (2 ^ 23) c); simplify_eq; zlia. }
  rewrite land_high_zero by done. simpl negb. cbn iota.
  rewrite (proj2 (Z.ltb_lt k 256)) by lia. simpl negb. cbn iota. split; [|done]. f_equal.
  rewrite u32_small by (rewrite Z.shiftl_mul_pow2 by lia; lia).
  rewrite lor_shiftl_add by lia. change 0x007fffff with (2 ^ 23 - 1). rewrite land_mask by lia.
  assert ((m + k * 2 ^ 24) mod 2 ^ 23 = m) as -> by zlia.
  destruct (f && negb (m =? 0))%bool; [|by rewrite Z.lor_0_r, Z.add_0_r].
  change 8388608 with (Z.shiftl 1 23). symmetry. apply Z.add_nocarry_lor, Z.eqb_eq.
  rewrite land_bit_eqb by lia. apply negb_true_iff, Z.testbit_false; [lia|]. zlia.
Qed.

(** Decoding an encoded number keeps its leading bytes. *)
Lemma compact_parts_number x : 0 <= x < 2 ^ 256 →
  let '(m, n) := compact_parts x in
  let v := if n <=? 3 then m / 2 ^ (8 * (3 - n)) else m * 2 ^ (8 * (n - 3)) in
  0 <= v <= x ∧ (x - v) * 2 ^ 15 <= v ∧ (m = 0 ↔ x = 0) ∧
  ((if n <=? 3 then m / 2 ^ (8 * (3 - n)) else m) = 0 ↔ x = 0).
Proof.
  intros Hx. unfold compact_parts. destruct (compact_bytes x Hx) as (Hn & Hu & Hc & Hz).
  set (n := (_ + 7) / 8) in *. clearbody n. destruct (Z.leb_spec n 3) as [E3|E3].
  - destruct (Z.leb_spec (2 ^ 23) (x * 2 ^ (8 * (3 - n)))) as [E|E].
    + assert (n = 1 ∨ n = 2 ∨ n = 3) as Hn3 by lia.
      destruct Hn3 as [-> | [-> | ->]]; simpl in *; zlia.
    + rewrite (proj2 (Z.leb_le n 3)) by lia. rewrite Z.div_mul by lia. nia.
  - destruct (Z.leb_spec (2 ^ 23) (x / 2 ^ (8 * (n - 3)))) as [E|E].
    + rewrite (proj2 (Z.leb_gt (n + 1) 3)) by lia.
      replace (8 * (n + 1 - 3)) with (8 * (n - 3) + 8) by lia. rewrite Z.pow_add_r by lia.
      change (2 ^ 8) with 256. set (p := 2 ^ (8 * (n - 3))) in *. assert (0 < p) by (unfold p; lia).
      pose proof (Z.div_mod x p ltac:(lia)) as Ex. pose proof (Z.mod_pos_bound x p ltac:(lia)) as Hr.
      set (q := x / p) in *. set (r := x mod p) in *. clearbody q r.
      pose proof (Z.div_mod q 256 ltac:(lia)) as Eq. pose proof (Z.mod_pos_bound q 256 ltac:(lia)) as Hr1.
      set (q1 := q / 256) in *. set (r1 := q mod 256) in *. clearbody q1 r1.
      assert (2 ^ 15 <= q1) by lia. assert (0 <= p * r1 <= p * 255) by nia.
      assert (x - q1 * (p * 256) = p * r1 + r) as Ed by (subst x q; ring).
      assert (p * 2 ^ 15 <= q1 * p) by nia.
      split_and!; lia.
    + rewrite (proj2 (Z.leb_gt n 3)) by lia. set (p := 2 ^ (8 * (n - 3))) in *.
      assert (0 < p) by (unfold p; lia).
      pose proof (Z.div_mod x p ltac:(lia)) as Ex. pose proof (Z.mod_pos_bound x p ltac:(lia)) as Hr.
      set (q := x / p) in *. set (r := x mod p) in *. clearbody q r.
      assert (p * 2 ^ 16 <= q * p) by nia. split_and!; lia.
Qed.

Lemma compact_word_parts m n b : 0 <= m < 2 ^ 23 → 0 <= n < 256 →
  let c := m + n * 2 ^ 24 + (if b : bool then 2 ^ 23 else 0) in
  compact_word c = (if n <=? 3 then m / 2 ^ (8 * (3 - n)) else m) ∧
  compact_number c = (if n <=? 3 then m / 2 ^ (8 * (3 - n)) else m * 2 ^ (8 * (n - 3))) ∧
  Z.testbit c 23 = b ∧ 0 <= c < 2 ^ 32.
Proof.
  intros Hm Hn c. assert (c / 2 ^ 24 = n) as E1 by (unfold c; destruct b; zlia).
  assert (c mod 2 ^ 23 = m) as E2 by (unfold c; destruct b; zlia).
  unfold compact_number, compact_word. rewrite E1, E2. split_and!.
  - done.
  - by destruct (n <=? 3).
  - unfold c. destruct b; [apply Z.testbit_true|apply Z.testbit_false]; try lia; zlia.
  - unfold c; destruct b; lia.
  - unfold c; destruct b; lia.
Qed.

(** *** The number that the bytes of a hash denote *)
Lemma chunks_spec n : ∀ b, List.length b = (n * 4)%nat → Radix.digits 256 b →
  let l := map (λ x, Radix.eval (2 ^ 8) (take 4 (drop (x * 4) b))) (seq 0 n) in Radix.digits (2 ^ 32) l ∧ Radix.eval (2 ^ 32) l = Radix.eval 256 b.
Proof.
  induction n as [|n IH]; intros b Hl Hd; [destruct b; [split; [constructor|done]|done]|]. cbn [seq map]. rewrite <- seq_shift, map_map.
  assert (List.length (take 4 b) = 4%nat) as Ht by (rewrite length_take; lia).
  destruct (IH (drop 4 b)) as [D E]; [rewrite length_drop; lia|by apply Forall_drop|].
  assert (map (λ x, Radix.eval (2 ^ 8) (take 4 (drop (S x * 4) b))) (seq 0 n) = map (λ x, Radix.eval (2 ^ 8) (take 4 (drop (x * 4) (drop 4 b)))) (seq 0 n)) as ->
    by (apply map_ext; intros x; do 2 f_equal; by rewrite drop_drop).
  assert (Radix.digits 256 (take 4 b)) as D4 by (by apply Forall_take). pose proof (eval_bound 256 ltac:(lia) _ D4) as Hb. rewrite Ht in Hb.
  change (drop (0 * 4) b) with b. change (2 ^ 8) with 256 in *. split; [constructor; [exact Hb|exact D]|]. cbn [Radix.eval]. rewrite E.
  rewrite <- (take_drop 4 b) at 3. rewrite eval_app, Ht. change (256 ^ Z.of_nat 4) with (2 ^ 32). lia.
Qed.
Lemma UintToArith256_spec b : List.length b = 32%nat → Radix.digits 256 b →
  wf WIDTH256 (UintToArith256 b) ∧ val (UintToArith256 b) = Radix.eval 256 b.
Proof.
  intros Hl Hd. destruct (chunks_spec 8 b Hl Hd) as [D E]. split; [|exact E]. split; [|exact D]. unfold UintToArith256. by rewrite length_map, length_seq.
Qed.

(** ** Properties *)

(** C28. [base_uint] implements unsigned arithmetic modulo [2^BITS]: on well-formed limb
    arrays of any width, [+=], [-=], unary [-], [*=] (both overloads), [<<=], [>>=], [++],
    [--] keep well-formedness and compute the corresponding operation on the denoted
    numbers modulo [2^(32*WIDTH)]; [CompareTo] is the sign of the difference; [~] is the
    complement to [2^BITS - 1], and [&=], [|=], [^=] are the bitwise operations on the
    numbers.  From two limbs on, so are the overloads with a 64-bit operand ([|=], [^=],
    [+=], [-=]), and [EqualTo] is equality with that operand. *)
Theorem base_uint_refines_Z W a b b32 b64 s :
  wf W a → wf W b → 0 <= b32 < 2 ^ 32 → 0 <= b64 < 2 ^ 64 → 0 <= s →
  let M := 2 ^ (32 * Z.of_nat W) in
  (wf W (op_add a b) ∧ val (op_add a b) = (val a + val b) mod M) ∧
  (wf W (op_sub a b) ∧ val (op_sub a b) = (val a - val b) mod M) ∧
  (wf W (op_neg a) ∧ val (op_neg a) = (- val a) mod M) ∧
  (wf W (op_mul W a b) ∧ val (op_mul W a b) = (val a * val b) mod M) ∧
  (wf W (op_mul32 a b32) ∧ val (op_mul32 a b32) = (val a * b32) mod M) ∧
  (wf W (op_shl W a s) ∧ val (op_shl W a s) = (val a * 2 ^ s) mod M) ∧
  (wf W (op_shr W a s) ∧ val (op_shr W a s) = val a / 2 ^ s) ∧
  (wf W (op_incr a) ∧ val (op_incr a) = (val a + 1) mod M) ∧
  (wf W (op_decr a) ∧ val (op_decr a) = (val a - 1) mod M) ∧
  CompareTo W a b = Z.sgn (val a - val b) ∧
  (wf W (op_compl a) ∧ val (op_compl a) = M - 1 - val a) ∧
  (wf W (op_and a b) ∧ val (op_and a b) = Z.land (val a) (val b)) ∧
  (wf W (op_or a b) ∧ val (op_or a b) = Z.lor (val a) (val b)) ∧
  (wf W (op_xor a b) ∧ val (op_xor a b) = Z.lxor (val a) (val b)) ∧
  ((2 <= W)%nat →
    (wf W (op_or64 a b64) ∧ val (op_or64 a b64) = Z.lor (val a) b64) ∧
    (wf W (op_xor64 a b64) ∧ val (op_xor64 a b64) = Z.lxor (val a) b64) ∧
    (wf W (op_add64 W a b64) ∧ val (op_add64 W a b64) = (val a + b64) mod M) ∧
    (wf W (op_sub64 W a b64) ∧ val (op_sub64 W a b64) = (val a - b64) mod M) ∧
    EqualTo a b64 = (val a =? b64)).
Proof.
  intros Ha Hb H32 H64 Hs. cbv zeta. rewrite <- pow_limbs.
  split_and!; first [by apply op_add_spec|by apply op_sub_spec|by apply op_neg_spec|by apply op_mul_spec
    |by apply op_mul32_spec|by apply op_shl_spec|by apply op_shr_spec|by apply op_incr_spec|by apply op_decr_spec
    |by apply CompareTo_spec|by apply op_compl_spec|by apply (op_and_spec W)|by apply (op_or_spec W)|by apply (op_xor_spec W)|idtac].
  intros HW. by apply uint64_operand.
Qed.

Lemma base_uint_refines_Z_witness :
  wf 8 (base_uint_of_uint64 8 5) ∧ val (op_add (base_uint_of_uint64 8 5) (base_uint_of_uint64 8 7)) = 12.
Proof.
  assert (wf 8 (base_uint_of_uint64 8 5)) as H5 by (apply wf_of_uint64; lia).
  split; [exact H5|].
  assert (wf 8 (base_uint_of_uint64 8 7)) as H7 by (apply wf_of_uint64; lia).
  assert (0 <= 3 < 2 ^ 32) as H3 by lia. assert (0 <= 3 < 2 ^ 64) as H4 by lia. assert (0 <= 1) as H1 by lia.
  rewrite (proj2 (proj1 (base_uint_refines_Z 8 _ _ 3 3 1 H5 H7 H3 H4 H1))). reflexivity.
Defined.

(** [operator/=] throws exactly on a zero divisor; otherwise its shift-and-subtract
    loop returns the well-formed floor quotient. *)
Theorem op_div_correct W a b : wf W a → wf W b →
  (val b = 0 → op_div W a b = inl DivisionByZero) ∧
  (val b ≠ 0 → ∃ q, op_div W a b = inr q ∧ wf W q ∧ val q = val a / val b).
Proof.
  intros Ha Hb. pose proof (op_div_spec W a b Ha Hb) as H.
  destruct (op_div W a b) as [[]|q]; split; intros Hz; try done; naive_solver.
Qed.

Lemma op_div_correct_witness :
  ∃ q, op_div 8 (base_uint_of_uint64 8 1000) (base_uint_of_uint64 8 7) = inr q ∧ wf 8 q ∧ val q = 142.
Proof.
  assert (wf 8 (base_uint_of_uint64 8 1000)) as H5 by (apply wf_of_uint64; lia).
  assert (wf 8 (base_uint_of_uint64 8 7)) as H7 by (apply wf_of_uint64; lia).
  assert (val (base_uint_of_uint64 8 7) ≠ 0) as Hnz by (vm_compute; discriminate).
  exact (proj2 (op_div_correct 8 _ _ H5 H7) Hnz).
Defined.

Lemma SetCompact_denotes c : 0 <= c < 2 ^ 32 →
  ∃ v neg ovf, SetCompact c = (v, neg, ovf) ∧ wf WIDTH256 v ∧
    val v = compact_number c mod 2 ^ 256 ∧
    (ovf = true ↔ 2 ^ 256 <= compact_number c) ∧
    (ovf = false → val v = compact_number c) ∧
    (neg = true ↔ compact_word c ≠ 0 ∧ Z.testbit c 23 = true).
Proof.
  intros Hc. destruct (SetCompact_value c Hc) as (v & E & Hv & Vv).
  assert (0 <= compact_number c) as Hpos.
  { unfold compact_number, compact_word. repeat case_match;
      repeat first [apply Z.mul_nonneg_nonneg|apply Z.div_pos|lia|apply Z.mod_pos_bound]. }
  eexists _, _, _. split; [exact E|]. split_and!; [done..| | |].
  - apply Z.leb_le.
  - intros H. breflect. by rewrite Vv, Z.mod_small by lia.
  - rewrite andb_true_iff, negb_true_iff, Z.eqb_neq. done.
Qed.

Lemma GetCompact_decodes pn f : wf WIDTH256 pn →
  ∃ c v, GetCompact pn f = Some c ∧
    SetCompact c = (v, f && negb (val pn =? 0), false)%bool ∧
    wf WIDTH256 v ∧ val v <= val pn ∧ (val pn - val v) * 2 ^ 15 <= val v.
Proof.
  intros Hwf. pose proof (wf_bound _ _ Hwf) as Hx. change (B ^ Z.of_nat WIDTH256) with (2 ^ 256) in Hx.
  pose proof (GetCompact_value pn f Hwf) as H1. pose proof (compact_parts_number (val pn) Hx) as H2.
  destruct (compact_parts (val pn)) as [m n]. destruct H1 as (HG & Hm & Hn).
  destruct H2 as (Hv & He & Hz & Hw).
  destruct (compact_word_parts m n (f && negb (m =? 0)) Hm Hn) as (E1 & E2 & E3 & Hc).
  destruct (SetCompact_value _ Hc) as (v & HS & Hwfv & Vv).
  rewrite E2, Z.mod_small in Vv by lia. eexists _, v. split; [exact HG|]. split_and!; [|done|lia|lia].
  rewrite HS, E1, E2, E3. f_equal; [f_equal|].
  - destruct f; [simpl|by rewrite andb_false_r]. apply eq_true_iff_eq.
    rewrite andb_true_iff, !negb_true_iff, !Z.eqb_neq. tauto.
  - apply Z.leb_gt. lia.
Qed.

(** The compact format. [SetCompact] decodes the 32-bit word: the result is the denoted
    whole number modulo [2^256]; [*pfOverflow] holds exactly when that number does not fit
    in 256 bits (so without overflow the decoding is exact), and [*pfNegative] exactly when
    the sign bit is set on a non-zero mantissa. Encoding round-trips with bounded loss: the
    assertions of [GetCompact] never fail, decoding its result never reports overflow, gives
    back the requested sign (for a non-zero number) and a number [v <= x] whose error is at
    most [v / 2^15]. *)
Theorem compact_roundtrip c pn f : 0 <= c < 2 ^ 32 → wf WIDTH256 pn →
  (∃ v neg ovf, SetCompact c = (v, neg, ovf) ∧ wf WIDTH256 v ∧
    val v = compact_number c mod 2 ^ 256 ∧
    (ovf = true ↔ 2 ^ 256 <= compact_number c) ∧
    (ovf = false → val v = compact_number c) ∧
    (neg = true ↔ compact_word c ≠ 0 ∧ Z.testbit c 23 = true)) ∧
  (∃ c' v, GetCompact pn f = Some c' ∧
    SetCompact c' = (v, f && negb (val pn =? 0), false)%bool ∧
    wf WIDTH256 v ∧ val v <= val pn ∧ (val pn - val v) * 2 ^ 15 <= val v).
Proof. intros Hc Hpn. split; [by apply SetCompact_denotes|by apply GetCompact_decodes]. Qed.

Lemma compact_roundtrip_witness :
  (∃ v neg ovf, SetCompact 0x1d00ffff = (v, neg, ovf) ∧ wf WIDTH256 v ∧
    val v = compact_number 0x1d00ffff mod 2 ^ 256 ∧
    (ovf = true ↔ 2 ^ 256 <= compact_number 0x1d00ffff) ∧
    (ovf = false → val v = compact_number 0x1d00ffff) ∧
    (neg = true ↔ compact_word 0x1d00ffff ≠ 0 ∧ Z.testbit 0x1d00ffff 23 = true)) ∧
  (∃ c v, GetCompact (base_uint_of_uint64 8 0x123456789a) true = Some c ∧
    SetCompact c = (v, true, false) ∧ wf WIDTH256 v ∧ val v <= 0x123456789a ∧
    (0x123456789a - val v) * 2 ^ 15 <= val v).
Proof.
  assert (0 <= 0x1d00ffff < 2 ^ 32) as Hc by lia.
  assert (wf WIDTH256 (base_uint_of_uint64 8 0x123456789a)) as H by (apply wf_of_uint64; unfold WIDTH256; lia).
  exact (compact_roundtrip _ _ true Hc H).
Defined.
End ArithUint256.
