(* ===== verification/Serialize.v ===== *)
(** * Serialize: the byte-stream layer of [serialize.h]

    A stream being written is the list of bytes appended so far; a stream being read
    is the list of bytes left, and a read either throws ([inl]) or returns its value
    and the rest ([inr]).  The class [Codec] is the contract between this layer and
    its clients: what was written is read back, whatever follows in the stream. *)
From S2P Require Import Prelude.

Module Serialize.

(** What the readers throw: [CDataStream::read] past the end, and the
    [std::ios_base::failure] messages. *)
Inductive ser_error :=
| EndOfData
| NonCanonicalSize
| SizeTooLarge
| StringLimit
| SuperfluousWitness
| UnknownOptionalData
| AssertFailed.

(** ** The reader monad *)
Definition Reader (A : Type) : Type := list Z → ser_error + (A * list Z).

#[export] Instance reader_ret : MRet Reader := λ A a s, inr (a, s).
#[export] Instance reader_bind : MBind Reader := λ A B k m s,
  match m s with
  | inl e => inl e
  | inr (a, s') => k a s'
  end.
Definition rthrow {A} (e : ser_error) : Reader A := λ _, inl e.

(** [Stream::read]: [n] bytes or an exception. *)
Definition read (n : nat) : Reader (list Z) := λ s,
  if (n <=? length s)%nat then inr (take n s, drop n s) else inl EndOfData.

(** ** Integers, little endian *)
Definition ser_writedata8 (obj : Z) : list Z := Radix.split 256 1 obj.
Definition ser_writedata16 (obj : Z) : list Z := Radix.split 256 2 obj.
Definition ser_writedata32 (obj : Z) : list Z := Radix.split 256 4 obj.
Definition ser_writedata64 (obj : Z) : list Z := Radix.split 256 8 obj.

Definition ser_readdata8 : Reader Z := bs ← read 1; mret (Radix.eval 256 bs).
Definition ser_readdata16 : Reader Z := bs ← read 2; mret (Radix.eval 256 bs).
Definition ser_readdata32 : Reader Z := bs ← read 4; mret (Radix.eval 256 bs).
Definition ser_readdata64 : Reader Z := bs ← read 8; mret (Radix.eval 256 bs).

(** [int32_t] and [int64_t] go through the unsigned functions: the conversion to the
    unsigned parameter on the way out, back to the signed variable on the way in. *)
Definition Serialize_int32 (a : Z) : list Z := ser_writedata32 (u32 a).
Definition Unserialize_int32 : Reader Z := a ← ser_readdata32; mret (i32 a).
Definition Serialize_int64 (a : Z) : list Z := ser_writedata64 (u64 a).
Definition Unserialize_int64 : Reader Z := a ← ser_readdata64; mret (i64 a).

(** ** Compact sizes *)
Definition MAX_SIZE : Z := 0x02000000.

Definition GetSizeOfCompactSize (nSize : Z) : Z :=
  if nSize <? 253 then 1
  else if nSize <=? 0xffff then 1 + 2
  else if nSize <=? 0xffffffff then 1 + 4
  else 1 + 8.

Definition WriteCompactSize (nSize : Z) : list Z :=
  if nSize <? 253 then ser_writedata8 nSize
  else if nSize <=? 0xffff then ser_writedata8 253 ++ ser_writedata16 nSize
  else if nSize <=? 0xffffffff then ser_writedata8 254 ++ ser_writedata32 nSize
  else ser_writedata8 255 ++ ser_writedata64 nSize.

Definition ReadCompactSize : Reader Z :=
  chSize ← ser_readdata8;
  nSizeRet ←
    (if chSize <? 253 then mret chSize
     else if chSize =? 253 then
       n ← ser_readdata16; if n <? 253 then rthrow NonCanonicalSize else mret n
     else if chSize =? 254 then
       n ← ser_readdata32; if n <? 0x10000 then rthrow NonCanonicalSize else mret n
     else
       n ← ser_readdata64; if n <? 0x100000000 then rthrow NonCanonicalSize else mret n);
  if MAX_SIZE <? nSizeRet then rthrow SizeTooLarge else mret nSizeRet.

(** ** Variable-length integers

    [WriteVarInt] fills [tmp] from the least significant digit ([len] counts up) and
    emits it backwards; the accumulator [acc] is [tmp] in emission order.  [fuel] is
    the capacity of [tmp], [(sizeof(n)*8+6)/7]: running out of it would be a write
    past the end of the array, and is [None]. *)
Definition varint_capacity (w : Z) : nat := Z.to_nat ((w + 6) / 7).

Fixpoint WriteVarInt_loop (fuel : nat) (len : nat) (n : Z) (acc : list Z) : option (list Z) :=
  match fuel with
  | O => None
  | S fuel' =>
      let acc := Z.lor (Z.land n 0x7f) (if (len =? 0)%nat then 0 else 0x80) :: acc in
      if n <=? 0x7f then Some acc
      else WriteVarInt_loop fuel' (S len) (Z.shiftr n 7 - 1) acc
  end.
Definition WriteVarInt (w n : Z) : option (list Z) := WriteVarInt_loop (varint_capacity w) 0 n [].

(** [GetSizeOfVarInt]: the same loop, counting.  64 iterations are more than any
    64-bit value needs. *)
Fixpoint GetSizeOfVarInt_loop (fuel : nat) (n : Z) (nRet : Z) : Z :=
  match fuel with
  | O => nRet
  | S fuel' =>
      let nRet := nRet + 1 in
      if n <=? 0x7f then nRet else GetSizeOfVarInt_loop fuel' (Z.shiftr n 7 - 1) nRet
  end.
Definition GetSizeOfVarInt (n : Z) : Z := GetSizeOfVarInt_loop 64 n 0.

(** [ReadVarInt] at an unsigned type of [w] bits, by recursion on the stream. *)
Fixpoint ReadVarInt_loop (w n : Z) (s : list Z) : ser_error + (Z * list Z) :=
  match s with
  | [] => inl EndOfData
  | chData :: s' =>
      let n := Z.lor (Z.shiftl n 7 mod 2 ^ w) (Z.land chData 0x7f) in
      if negb (Z.land chData 0x80 =? 0) then ReadVarInt_loop w ((n + 1) mod 2 ^ w) s'
      else inr (n, s')
  end.
Definition ReadVarInt (w : Z) : Reader Z := ReadVarInt_loop w 0.

(** ** Byte vectors and strings *)
Definition Serialize_bytes (v : list Z) : list Z := WriteCompactSize (Z.of_nat (length v)) ++ v.

(** The block-wise reading loop of [Unserialize_impl] for [unsigned char]: [blk] is at
    most [1 + 4999999].  The fuel is [nSize]; every iteration reads at least one byte. *)
Fixpoint Unserialize_bytes_loop (fuel : nat) (i nSize : Z) (v : list Z) : Reader (list Z) :=
  match fuel with
  | O => mret v
  | S fuel' =>
      if i <? nSize then
        let blk := Z.min (nSize - i) (1 + 4999999) in
        bs ← read (Z.to_nat blk);
        Unserialize_bytes_loop fuel' (i + blk) nSize (v ++ bs)
      else mret v
  end.
Definition Unserialize_bytes : Reader (list Z) :=
  nSize ← ReadCompactSize;
  Unserialize_bytes_loop (Z.to_nat nSize) 0 nSize [].

(** [LimitedString<Limit>::Unserialize] *)
Definition Unserialize_limited_string (Limit : Z) : Reader (list Z) :=
  size ← ReadCompactSize;
  if Limit <? size then rthrow StringLimit
  else if negb (size =? 0) then read (Z.to_nat size) else mret [].

(** ** Vectors of other types *)
Section vector.
Context {A : Type} (enc : A → list Z) (dec : Reader A).

Definition Serialize_vector (v : list A) : list Z :=
  WriteCompactSize (Z.of_nat (length v)) ++ concat (map enc v).

(** The inner loop [for (; i < nMid; i++)]. *)
Fixpoint Unserialize_items (n : nat) (v : list A) : Reader (list A) :=
  match n with
  | O => mret v
  | S n' => a ← dec; Unserialize_items n' (v ++ [a])
  end.

(** The outer loop over [nMid], in steps of [5000000 / sizeof(T)]. *)
Fixpoint Unserialize_vector_loop (fuel : nat) (sizeofT nMid nSize : Z) (v : list A) : Reader (list A) :=
  match fuel with
  | O => mret v
  | S fuel' =>
      if nMid <? nSize then
        let nMid' := Z.min (nMid + 5000000 / sizeofT) nSize in
        v' ← Unserialize_items (Z.to_nat (nMid' - nMid)) v;
        Unserialize_vector_loop fuel' sizeofT nMid' nSize v'
      else mret v
  end.
Definition Unserialize_vector (sizeofT : Z) : Reader (list A) :=
  nSize ← ReadCompactSize;
  Unserialize_vector_loop (Z.to_nat nSize) sizeofT 0 nSize [].

Definition GetSerializeSize_vector (size : A → Z) (v : list A) : Z :=
  foldl (λ nSize a, nSize + size a) (GetSizeOfCompactSize (Z.of_nat (length v))) v.
End vector.

(** ** Pairs *)
Definition Serialize_pair {A B} (ea : A → list Z) (eb : B → list Z) (p : A * B) : list Z :=
  ea p.1 ++ eb p.2.
Definition Unserialize_pair {A B} (da : Reader A) (db : Reader B) : Reader (A * B) :=
  a ← da; b ← db; mret (a, b).

(** ** The contract of a serialization

    [enc] writes, [dec] reads, [valid] is the range of the C++ type.  [dec_enc] is the
    round trip with an arbitrary continuation of the stream; [enc_bytes] says that
    only bytes are written. *)
Class Codec {A : Type} (enc : A → list Z) (dec : Reader A) (valid : A → Prop) : Prop := {
  dec_enc a rest : valid a → dec (enc a ++ rest) = inr (a, rest);
  enc_bytes a : valid a → Radix.digits 256 (enc a);
}.

(** Running a bind whose first action succeeds. *)
Lemma bind_run {A B} (m : Reader A) (k : A → Reader B) s a s' :
  m s = inr (a, s') → (x ← m; k x) s = k a s'.
Proof. intros H. unfold mbind, reader_bind. by rewrite H. Qed.

Lemma read_app l rest : read (length l) (l ++ rest) = inr (l, rest).
Proof.
  unfold read. rewrite (proj2 (Nat.leb_le _ _)) by (rewrite length_app; lia).
  by rewrite take_app_length, drop_app_length.
Qed.

(** Fixed-width integers: one lemma for the four widths. *)
Lemma read_split n z rest : 0 <= z < 256 ^ Z.of_nat n →
  (bs ← read n; mret (Radix.eval 256 bs)) (Radix.split 256 n z ++ rest) = inr (z, rest).
Proof.
  intros Hz. erewrite bind_run.
  2: { rewrite <- (length_split 256 n z) at 1. apply read_app. }
  unfold mret, reader_ret. by rewrite eval_split, Z.mod_small by lia.
Qed.

#[export] Instance codec_uint8 : Codec ser_writedata8 ser_readdata8 (λ z, 0 <= z < 2 ^ 8).
Proof. split; intros; [by apply (read_split 1)|by apply digits_split]. Qed.
#[export] Instance codec_uint16 : Codec ser_writedata16 ser_readdata16 (λ z, 0 <= z < 2 ^ 16).
Proof. split; intros; [by apply (read_split 2)|by apply digits_split]. Qed.
#[export] Instance codec_uint32 : Codec ser_writedata32 ser_readdata32 (λ z, 0 <= z < 2 ^ 32).
Proof. split; intros; [by apply (read_split 4)|by apply digits_split]. Qed.
#[export] Instance codec_uint64 : Codec ser_writedata64 ser_readdata64 (λ z, 0 <= z < 2 ^ 64).
Proof. split; intros; [by apply (read_split 8)|by apply digits_split]. Qed.

Lemma i32_u32 z : - 2 ^ 31 <= z < 2 ^ 31 → i32 (u32 z) = z.
Proof. intros. unfold i32, u32. zlia. Qed.
Lemma i64_u64 z : - 2 ^ 63 <= z < 2 ^ 63 → i64 (u64 z) = z.
Proof. intros. unfold i64, u64. zlia. Qed.

#[export] Instance codec_int32 : Codec Serialize_int32 Unserialize_int32 (λ z, - 2 ^ 31 <= z < 2 ^ 31).
Proof.
  split; intros a; [intros rest Ha|intros Ha; by apply digits_split].
  unfold Unserialize_int32, Serialize_int32. erewrite bind_run; [|apply dec_enc, u32_range].
  by rewrite i32_u32.
Qed.
#[export] Instance codec_int64 : Codec Serialize_int64 Unserialize_int64 (λ z, - 2 ^ 63 <= z < 2 ^ 63).
Proof.
  split; intros a; [intros rest Ha|intros Ha; by apply digits_split].
  unfold Unserialize_int64, Serialize_int64. erewrite bind_run; [|apply dec_enc, u64_range].
  by rewrite i64_u64.
Qed.

(** ** Compact sizes *)
#[export] Instance codec_compact_size : Codec WriteCompactSize ReadCompactSize (λ n, 0 <= n <= MAX_SIZE).
Proof.
  unfold MAX_SIZE. split; intros n.
  - intros rest Hn. unfold WriteCompactSize, ReadCompactSize.
    repeat bcase; try lia; rewrite <- ?app_assoc;
      assert ((MAX_SIZE <? n) = false) as Hmax by (apply Z.ltb_ge; unfold MAX_SIZE; lia);
      (erewrite bind_run; [|apply codec_uint8; lia]); simpl.
    + rewrite (proj2 (Z.ltb_lt n 253)) by lia. unfold mret, mbind, reader_bind, reader_ret.
      by rewrite Hmax.
    + erewrite bind_run; [by rewrite Hmax|].
      erewrite bind_run; [|apply codec_uint16; lia]. by rewrite (proj2 (Z.ltb_ge n 253)) by lia.
    + erewrite bind_run; [by rewrite Hmax|].
      erewrite bind_run; [|apply codec_uint32; lia]. by rewrite (proj2 (Z.ltb_ge n _)) by lia.
  - intros Hn. unfold WriteCompactSize. repeat case_match; rewrite ?digits_app; repeat split; by apply digits_split.
Qed.

Lemma WriteCompactSize_length n : 0 <= n →
  Z.of_nat (length (WriteCompactSize n)) = GetSizeOfCompactSize n.
Proof. intros Hn. unfold WriteCompactSize, GetSizeOfCompactSize. by repeat case_match. Qed.

(** Inverting a successful read of a fixed-width integer. *)
Lemma read_inv n s z rest : Radix.digits 256 s →
  (bs ← read n; mret (Radix.eval 256 bs)) s = inr (z, rest) →
  s = Radix.split 256 n z ++ rest ∧ 0 <= z < 256 ^ Z.of_nat n ∧ Radix.digits 256 rest.
Proof.
  intros Hs. unfold mbind, reader_bind, read, mret, reader_ret.
  destruct (Nat.leb_spec n (length s)); [|done]. intros [= <- <-].
  assert (Radix.digits 256 (take n s)) as Ht by by apply Forall_take.
  assert (length (take n s) = n) as Hl by (rewrite length_take; lia).
  pose proof (split_eval 256 ltac:(lia) _ Ht) as E. pose proof (eval_bound 256 ltac:(lia) _ Ht) as Hb.
  rewrite Hl in E, Hb. rewrite E, take_drop. split_and!; [done|lia..|by apply Forall_drop].
Qed.

Lemma ReadCompactSize_canonical s n rest : Radix.digits 256 s →
  ReadCompactSize s = inr (n, rest) → s = WriteCompactSize n ++ rest ∧ 0 <= n <= MAX_SIZE.
Proof.
  intros Hs. unfold ReadCompactSize. unfold mbind at 1, reader_bind at 1.
  destruct (ser_readdata8 s) as [|[c s1]] eqn:E1; [done|].
  apply (read_inv 1) in E1 as (-> & Hc & Hs1); [|done]. change (256 ^ Z.of_nat 1) with 256 in Hc.
  unfold mbind at 1, reader_bind at 1. unfold WriteCompactSize.
  destruct (Z.ltb_spec c 253) as [C1|C1]; [|destruct (Z.eqb_spec c 253) as [->|C2];
    [|destruct (Z.eqb_spec c 254) as [->|C3]]].
  - unfold mret, reader_ret. unfold MAX_SIZE. case_match; [done|]. intros [= -> ->].
    rewrite (proj2 (Z.ltb_lt n 253)) by lia. split; [done|lia].
  - destruct ((_ ← ser_readdata16; _) s1) as [|[m s2]] eqn:E2; [done|].
    unfold mbind, reader_bind in E2. destruct (ser_readdata16 s1) as [|[k s3]] eqn:E3; [done|].
    apply (read_inv 2) in E3 as (-> & Hk & Hs3); [|done]. change (256 ^ Z.of_nat 2) with 65536 in Hk.
    destruct (Z.ltb_spec k 253); [done|]. injection E2 as -> ->.
    case_match; [done|]. intros [= -> ->]. breflect.
    rewrite (proj2 (Z.ltb_ge n 253)), (proj2 (Z.leb_le n _)) by lia. rewrite <- app_assoc.
    split; [done|lia].
  - destruct ((_ ← ser_readdata32; _) s1) as [|[m s2]] eqn:E2; [done|].
    unfold mbind, reader_bind in E2. destruct (ser_readdata32 s1) as [|[k s3]] eqn:E3; [done|].
    apply (read_inv 4) in E3 as (-> & Hk & Hs3); [|done]. change (256 ^ Z.of_nat 4) with 4294967296 in Hk.
    destruct (Z.ltb_spec k 0x10000); [done|]. injection E2 as -> ->.
    case_match; [done|]. intros [= -> ->]. breflect.
    rewrite (proj2 (Z.ltb_ge n 253)), (proj2 (Z.leb_gt n 65535)), (proj2 (Z.leb_le n _)) by lia.
    rewrite <- app_assoc. split; [done|lia].
  - destruct ((_ ← ser_readdata64; _) s1) as [|[m s2]] eqn:E2; [done|].
    unfold mbind, reader_bind in E2. destruct (ser_readdata64 s1) as [|[k s3]] eqn:E3; [done|].
    destruct (Z.ltb_spec k 0x100000000); [done|]. injection E2 as -> ->.
    rewrite (proj2 (Z.ltb_lt MAX_SIZE m)) by (unfold MAX_SIZE; lia). done.
Qed.

(** ** Variable-length integers *)

(** One digit of the encoding: its payload and its continuation bit. *)
Lemma varint_digit n (cont : bool) : 0 <= n →
  let d := Z.lor (Z.land n 0x7f) (if cont then 0x80 else 0) in
  Z.land d 0x7f = n mod 128 ∧ (Z.land d 0x80 =? 0) = negb cont ∧ 0 <= d < 256.
Proof.
  intros Hn. cbv zeta. change 0x7f with (2 ^ 7 - 1). rewrite !land_mask by lia. change (2 ^ 7) with 128.
  pose proof (Z.mod_pos_bound n 128 ltac:(lia)).
  assert (Z.lor (n mod 128) (if cont then 0x80 else 0) = n mod 128 + if cont then 128 else 0) as ->.
  { destruct cont; [|by rewrite Z.lor_0_r, Z.add_0_r].
    change (Z.lor (n mod 128) 128) with (Z.lor (n mod 128) (Z.shiftl 1 7)).
    rewrite lor_shiftl_add by lia. done. }
  set (d := n mod 128 + _) in *. change (Z.land d 0x80) with (Z.land d (Z.shiftl 1 7)). subst d.
  rewrite land_bit_eqb, testbit_top by (destruct cont; lia).
  destruct cont; simpl; [|rewrite Z.add_0_r]; split_and!; try lia; try zlia.
Qed.

Lemma ReadVarInt_digit w n d s : 0 <= w →
  ReadVarInt_loop w n (d :: s) =
    let n := Z.lor (Z.shiftl n 7 mod 2 ^ w) (Z.land d 0x7f) in
    if negb (Z.land d 0x80 =? 0) then ReadVarInt_loop w ((n + 1) mod 2 ^ w) s else inr (n, s).
Proof. done. Qed.

(** Appending a digit to a prefix that stands for [q]. *)
Lemma varint_shift w q n : 7 <= w → 0 <= n < 2 ^ w → q = n / 128 →
  Z.lor (Z.shiftl q 7 mod 2 ^ w) (n mod 128) = n.
Proof.
  intros Hw Hn ->. rewrite Z.shiftl_mul_pow2 by lia. change (2 ^ 7) with 128.
  rewrite Z.mod_small by zlia. rewrite Z.lor_comm. change (n / 128 * 128) with (n / 128 * 2 ^ 7).
  rewrite <- Z.shiftl_mul_pow2, lor_shiftl_add by zlia. change (2 ^ 7) with 128. zlia.
Qed.

Lemma WriteVarInt_loop_read w fuel : ∀ len n acc out rest, 7 <= w → 0 <= n < 2 ^ w →
  WriteVarInt_loop fuel len n acc = Some out →
  ReadVarInt_loop w 0 (out ++ rest) =
    if (len =? 0)%nat then inr (n, acc ++ rest)
    else ReadVarInt_loop w ((n + 1) mod 2 ^ w) (acc ++ rest).
Proof.
  induction fuel as [|fuel IH]; intros len n acc out rest Hw Hn; [done|].
  cbn [WriteVarInt_loop]. set (cont := negb (len =? 0)%nat).
  replace (if (len =? 0)%nat then 0 else 0x80) with (if cont then 0x80 else 0)
    by (unfold cont; by destruct (len =? 0)%nat).
  destruct (varint_digit n cont) as (D1 & D2 & D3); [lia|]. set (d := Z.lor _ _) in *.
  destruct (Z.leb_spec n 0x7f) as [E|E].
  - intros [= <-]. rewrite <- app_comm_cons, ReadVarInt_digit, D1, D2 by lia. cbv zeta.
    rewrite varint_shift by (done || zlia). unfold cont. by destruct (len =? 0)%nat.
  - intros Hout. rewrite (IH _ _ _ _ rest Hw) with (2 := Hout).
    2: { rewrite Z.shiftr_div_pow2 by lia. change (2 ^ 7) with 128. zlia. }
    simpl Nat.eqb. cbn iota. rewrite <- app_comm_cons, ReadVarInt_digit, D1, D2 by lia. cbv zeta.
    rewrite varint_shift; try done.
    + unfold cont. by destruct (len =? 0)%nat.
    + rewrite Z.shiftr_div_pow2, Z.sub_add by lia. change (2 ^ 7) with 128.
      rewrite Z.mod_small; [done|]. zlia.
Qed.

Lemma WriteVarInt_loop_total fuel : ∀ len n acc, (0 < fuel)%nat → 0 <= n < 2 ^ (7 * Z.of_nat fuel) →
  Radix.digits 256 acc →
  ∃ out, WriteVarInt_loop fuel len n acc = Some out ∧ Radix.digits 256 out.
Proof.
  induction fuel as [|fuel IH]; intros len n acc Hf Hn Hacc; [lia|]. cbn [WriteVarInt_loop].
  set (cont := negb (len =? 0)%nat).
  replace (if (len =? 0)%nat then 0 else 0x80) with (if cont then 0x80 else 0)
    by (unfold cont; by destruct (len =? 0)%nat).
  destruct (varint_digit n cont) as (D1 & D2 & D3); [lia|]. set (d := Z.lor _ _) in *.
  assert (Radix.digits 256 (d :: acc)) by by constructor.
  destruct (Z.leb_spec n 0x7f) as [E|E]; [by eexists|].
  replace (7 * Z.of_nat (S fuel)) with (7 * Z.of_nat fuel + 7) in Hn by lia.
  rewrite Z.pow_add_r in Hn by lia. change (2 ^ 7) with 128 in Hn.
  apply IH; [|rewrite Z.shiftr_div_pow2 by lia; change (2 ^ 7) with 128; zlia|done].
  destruct fuel; [simpl in Hn; lia|lia].
Qed.

(** [GetSizeOfVarInt] counts the bytes [WriteVarInt] emits. *)
Lemma GetSizeOfVarInt_loop_length fuel : ∀ fuel' len n acc out r, (fuel <= fuel')%nat →
  WriteVarInt_loop fuel len n acc = Some out →
  GetSizeOfVarInt_loop fuel' n r = r + Z.of_nat (length out - length acc) ∧ (length acc <= length out)%nat.
Proof.
  induction fuel as [|fuel IH]; intros fuel' len n acc out r Hf; [done|].
  destruct fuel' as [|fuel']; [lia|]. cbn [WriteVarInt_loop GetSizeOfVarInt_loop].
  destruct (n <=? 0x7f); [intros [= <-]; simpl; lia|].
  intros H. destruct (IH fuel' (S len) _ _ _ (r + 1) ltac:(lia) H) as [-> Hl]. simpl in *. lia.
Qed.

(** ** Byte vectors and vectors *)
Lemma Unserialize_bytes_loop_read fuel : ∀ i n v s, 0 <= i → n - i <= Z.of_nat fuel →
  Unserialize_bytes_loop fuel i n v s = (bs ← read (Z.to_nat (n - i)); mret (v ++ bs)) s.
Proof.
  induction fuel as [|fuel IH]; intros i n v s Hi Hf; cbn [Unserialize_bytes_loop].
  { replace (Z.to_nat (n - i)) with 0%nat by lia. unfold mbind, reader_bind, mret, reader_ret, read.
    simpl. by rewrite app_nil_r. }
  destruct (Z.ltb_spec i n) as [E|E].
  2: { replace (Z.to_nat (n - i)) with 0%nat by lia. unfold mbind, reader_bind, mret, reader_ret, read.
       simpl. by rewrite app_nil_r. }
  set (blk := Z.min _ _). unfold mbind, reader_bind, mret, reader_ret, read in *.
  destruct (Nat.leb_spec (Z.to_nat blk) (length s)) as [L|L].
  - rewrite IH by lia. rewrite length_drop.
    replace (Z.to_nat (n - i)) with (Z.to_nat blk + Z.to_nat (n - (i + blk)))%nat by lia.
    natcase; rewrite <- ?app_assoc, ?take_take_drop, ?drop_drop; done.
  - rewrite (proj2 (Nat.leb_gt _ _)) by lia. done.
Qed.

#[export] Instance codec_bytes :
  Codec Serialize_bytes Unserialize_bytes
    (λ v, Z.of_nat (length v) <= MAX_SIZE ∧ Radix.digits 256 v).
Proof.
  split; intros v.
  - intros rest [Hlen Hv]. unfold Serialize_bytes, Unserialize_bytes. rewrite <- app_assoc.
    erewrite bind_run; [|apply codec_compact_size; lia].
    rewrite Unserialize_bytes_loop_read, Z.sub_0_r, Nat2Z.id by lia.
    by erewrite bind_run; [|apply read_app].
  - intros [Hlen Hv]. apply digits_app. split; [|done]. apply codec_compact_size. lia.
Qed.

Section vector_facts.
Context {A : Type} {enc : A → list Z} {dec : Reader A}.

Lemma Unserialize_items_app a b : ∀ v s,
  Unserialize_items dec (a + b) v s = (v' ← Unserialize_items dec a v; Unserialize_items dec b v') s.
Proof.
  induction a as [|a IH]; intros v s; [done|]. cbn [Nat.add Unserialize_items].
  unfold mbind, reader_bind in *. destruct (dec s) as [|[x s']]; [done|]. apply IH.
Qed.

Lemma Unserialize_vector_loop_items sz fuel : 0 < sz <= 5000000 → ∀ mid n v s,
  n - mid <= Z.of_nat fuel →
  Unserialize_vector_loop dec fuel sz mid n v s = Unserialize_items dec (Z.to_nat (n - mid)) v s.
Proof.
  intros Hsz. assert (1 <= 5000000 / sz) by (apply Z.div_le_lower_bound; lia).
  induction fuel as [|fuel IH]; intros mid n v s Hf; cbn [Unserialize_vector_loop].
  { by replace (Z.to_nat (n - mid)) with 0%nat by lia. }
  destruct (Z.ltb_spec mid n) as [E|E]; [|by replace (Z.to_nat (n - mid)) with 0%nat by lia].
  set (mid' := Z.min _ _).
  replace (Z.to_nat (n - mid)) with (Z.to_nat (mid' - mid) + Z.to_nat (n - mid'))%nat by lia.
  rewrite Unserialize_items_app. unfold mbind, reader_bind.
  destruct (Unserialize_items _ _ _ _) as [|[v' s']]; [done|]. apply IH. lia.
Qed.

Lemma Unserialize_items_enc {valid} `{!Codec enc dec valid} l : ∀ v rest, Forall valid l →
  Unserialize_items dec (length l) v (concat (map enc l) ++ rest) = inr (v ++ l, rest).
Proof.
  induction l as [|a l IH]; intros v rest Hl; [by rewrite app_nil_r|].
  apply Forall_cons_iff in Hl as [Ha Hl]. cbn [length Unserialize_items map concat].
  rewrite <- app_assoc. erewrite bind_run; [|by apply dec_enc].
  rewrite IH by done. by rewrite <- app_assoc.
Qed.

#[export] Instance codec_vector {valid} `{!Codec enc dec valid} sz : 0 < sz <= 5000000 →
  Codec (Serialize_vector enc) (Unserialize_vector dec sz)
    (λ v, Z.of_nat (length v) <= MAX_SIZE ∧ Forall valid v).
Proof.
  intros Hsz. split; intros v.
  - intros rest [Hlen Hv]. unfold Serialize_vector, Unserialize_vector. rewrite <- app_assoc.
    erewrite bind_run; [|apply codec_compact_size; lia].
    rewrite Unserialize_vector_loop_items, Z.sub_0_r, Nat2Z.id by lia.
    by rewrite (Unserialize_items_enc (valid := valid)).
  - intros [Hlen Hv]. apply digits_app. split; [apply codec_compact_size; lia|].
    clear Hlen. induction Hv as [|a l Ha Hl IH]; [constructor|]. simpl. apply digits_app.
    split; [by apply (enc_bytes (valid := valid) (dec := dec))|done].
Qed.
End vector_facts.

#[export] Instance codec_pair {A B} {ea : A → list Z} {da va} {eb : B → list Z} {db vb}
  `{!Codec ea da va, !Codec eb db vb} :
  Codec (Serialize_pair ea eb) (Unserialize_pair da db) (λ p, va p.1 ∧ vb p.2).
Proof.
  split; intros [a b]; simpl.
  - intros rest [Ha Hb]. unfold Serialize_pair, Unserialize_pair. simpl. rewrite <- app_assoc.
    erewrite bind_run; [|by apply dec_enc]. by erewrite bind_run; [|by apply dec_enc].
  - intros [Ha Hb]. apply digits_app. split; by eapply enc_bytes.
Qed.

(** ** Properties *)

(** The compact-size format is canonical: on a stream of bytes, [ReadCompactSize]
    returns [n] leaving [rest] exactly when the stream is [WriteCompactSize n] followed by
    [rest] and [n <= MAX_SIZE]; every other prefix (overlong, too large, truncated) throws. *)
Theorem ReadCompactSize_exact s n rest : Radix.digits 256 s →
  ReadCompactSize s = inr (n, rest) ↔ s = WriteCompactSize n ++ rest ∧ 0 <= n <= MAX_SIZE.
Proof.
  intros Hs. split; [by apply ReadCompactSize_canonical|].
  intros [-> Hn]. by apply codec_compact_size.
Qed.

Lemma ReadCompactSize_exact_witness :
  ReadCompactSize [253; 0; 1; 7] = inr (256, [7]) ↔ [253; 0; 1; 7] = WriteCompactSize 256 ++ [7] ∧ 0 <= 256 <= MAX_SIZE.
Proof. apply ReadCompactSize_exact. repeat constructor; lia. Defined.

Lemma WriteVarInt_read w n : 7 <= w <= 64 → 0 <= n < 2 ^ w →
  ∃ out, WriteVarInt w n = Some out ∧ Z.of_nat (length out) = GetSizeOfVarInt n ∧
    ∀ rest, ReadVarInt w (out ++ rest) = inr (n, rest).
Proof.
  intros Hw Hn. assert (w <= 7 * Z.of_nat (varint_capacity w)) as Hcap
    by (unfold varint_capacity; zlia).
  assert (varint_capacity w <= 64)%nat as Hcap64 by (unfold varint_capacity; zlia).
  destruct (WriteVarInt_loop_total (varint_capacity w) 0 n []) as (out & Hout & _); [lia| |constructor|].
  { split; [lia|]. eapply Z.lt_le_trans; [apply Hn|]. apply Z.pow_le_mono_r; lia. }
  exists out. split_and!; [done| |].
  - destruct (GetSizeOfVarInt_loop_length _ 64 _ _ _ _ 0 Hcap64 Hout) as [Hsz _].
    unfold GetSizeOfVarInt. rewrite Hsz. simpl. lia.
  - intros rest. unfold ReadVarInt. by rewrite (WriteVarInt_loop_read w (varint_capacity w) 0 n [] out rest) by (done || lia).
Qed.

(** C30. Variable-length integers round-trip at every unsigned width of at least 7 bits:
    [WriteVarInt] never writes past its [tmp] array, emits as many bytes as
    [GetSizeOfVarInt] announces, and [ReadVarInt] returns the number written whatever
    follows in the stream. Contrary to the comment above [GetSizeOfVarInt], though, an
    integer does not have exactly one encoding as far as the reader is concerned:
    [ReadVarInt] lets its accumulator wrap, so at 64 bits it accepts a second, 10-byte
    encoding of 0 beside the one [WriteVarInt] emits. *)
Theorem varint_roundtrip w n : 7 <= w <= 64 → 0 <= n < 2 ^ w →
  (∃ out, WriteVarInt w n = Some out ∧ Z.of_nat (length out) = GetSizeOfVarInt n ∧
    ∀ rest, ReadVarInt w (out ++ rest) = inr (n, rest)) ∧
  (∃ bs, WriteVarInt 64 0 = Some [0] ∧ bs ≠ [0] ∧
    ReadVarInt 64 [0] = inr (0, []) ∧ ReadVarInt 64 bs = inr (0, [])).
Proof.
  intros Hw Hn. split; [by apply WriteVarInt_read|].
  exists [0x80; 0xfe; 0xfe; 0xfe; 0xfe; 0xfe; 0xfe; 0xfe; 0xff; 0x00].
  by repeat split; vm_compute.
Qed.

Lemma varint_roundtrip_witness :
  ∃ out, WriteVarInt 32 65535 = Some out ∧ Z.of_nat (length out) = GetSizeOfVarInt 65535 ∧
    ∀ rest, ReadVarInt 32 (out ++ rest) = inr (65535, rest).
Proof. apply (varint_roundtrip 32 65535); lia. Defined.

(** Block-wise deserialization is plain element-wise deserialization: on every stream
    and for every element reader, the [nMid] loop that bounds allocation (for an element
    size of at most 5000000) reads exactly [nSize] elements one after the other or throws
    the same exception; the byte-vector loop is one [read] of [nSize] bytes. *)
Theorem Unserialize_blocks {A} (dec : Reader A) sz s : 0 < sz <= 5000000 →
  Unserialize_vector dec sz s =
    (nSize ← ReadCompactSize; Unserialize_items dec (Z.to_nat nSize) []) s ∧
  Unserialize_bytes s = (nSize ← ReadCompactSize; read (Z.to_nat nSize)) s.
Proof.
  intros Hsz. unfold Unserialize_vector, Unserialize_bytes, mbind, reader_bind.
  destruct (ReadCompactSize s) as [|[n s']] eqn:E; [done|]. split.
  - rewrite Unserialize_vector_loop_items by lia. by rewrite Z.sub_0_r.
  - rewrite Unserialize_bytes_loop_read, Z.sub_0_r by lia. unfold mbind, reader_bind, mret, reader_ret.
    by destruct (read _ s') as [|[]].
Qed.

Lemma Unserialize_blocks_witness :
  Unserialize_vector ser_readdata16 2 [2; 1; 0; 2; 0] = inr ([1; 2], []).
Proof. rewrite (proj1 (Unserialize_blocks ser_readdata16 2 [2; 1; 0; 2; 0] ltac:(lia))). reflexivity. Defined.
End Serialize.
