(* ===== verification/Script.v ===== *)
(** * Script: the data model of [script/script.{h,cpp}]

    A [CScript] is its list of bytes; a [const_iterator] into one is the suffix that is
    left to read.  [opcodetype] has the constructors of the enumeration; bytes that the
    enumeration does not name are [OP_OTHER]. *)
From S2P Require Import Prelude.

Module Script.

(** ** Opcodes *)
Inductive opcodetype :=
| OP_0 | OP_PUSHDATA1 | OP_PUSHDATA2 | OP_PUSHDATA4 | OP_1NEGATE | OP_RESERVED
| OP_1 | OP_2 | OP_3 | OP_4 | OP_5 | OP_6
| OP_7 | OP_8 | OP_9 | OP_10 | OP_11 | OP_12
| OP_13 | OP_14 | OP_15 | OP_16 | OP_NOP | OP_VER
| OP_IF | OP_NOTIF | OP_VERIF | OP_VERNOTIF | OP_ELSE | OP_ENDIF
| OP_VERIFY | OP_RETURN | OP_TOALTSTACK | OP_FROMALTSTACK | OP_2DROP | OP_2DUP
| OP_3DUP | OP_2OVER | OP_2ROT | OP_2SWAP | OP_IFDUP | OP_DEPTH
| OP_DROP | OP_DUP | OP_NIP | OP_OVER | OP_PICK | OP_ROLL
| OP_ROT | OP_SWAP | OP_TUCK | OP_CAT | OP_SUBSTR | OP_LEFT
| OP_RIGHT | OP_SIZE | OP_INVERT | OP_AND | OP_OR | OP_XOR
| OP_EQUAL | OP_EQUALVERIFY | OP_RESERVED1 | OP_RESERVED2 | OP_1ADD | OP_1SUB
| OP_2MUL | OP_2DIV | OP_NEGATE | OP_ABS | OP_NOT | OP_0NOTEQUAL
| OP_ADD | OP_SUB | OP_MUL | OP_DIV | OP_MOD | OP_LSHIFT
| OP_RSHIFT | OP_BOOLAND | OP_BOOLOR | OP_NUMEQUAL | OP_NUMEQUALVERIFY | OP_NUMNOTEQUAL
| OP_LESSTHAN | OP_GREATERTHAN | OP_LESSTHANOREQUAL | OP_GREATERTHANOREQUAL | OP_MIN | OP_MAX
| OP_WITHIN | OP_RIPEMD160 | OP_SHA1 | OP_SHA256 | OP_HASH160 | OP_HASH256
| OP_CODESEPARATOR | OP_CHECKSIG | OP_CHECKSIGVERIFY | OP_CHECKMULTISIG | OP_CHECKMULTISIGVERIFY | OP_NOP1
| OP_CHECKLOCKTIMEVERIFY | OP_CHECKSEQUENCEVERIFY | OP_NOP4 | OP_NOP5 | OP_NOP6 | OP_NOP7
| OP_NOP8 | OP_NOP9 | OP_NOP10 | OP_SMALLINTEGER | OP_PUBKEYS | OP_PUBKEYHASH
| OP_PUBKEY | OP_INVALIDOPCODE | OP_ZEROCOINMINT | OP_ZEROCOINSPEND | OP_SIGMAMINT | OP_SIGMASPEND
| OP_OTHER (b : Z).

Definition opcode_val (op : opcodetype) : Z :=
  match op with
  | OP_0 => 0x00 | OP_PUSHDATA1 => 0x4c | OP_PUSHDATA2 => 0x4d | OP_PUSHDATA4 => 0x4e
  | OP_1NEGATE => 0x4f | OP_RESERVED => 0x50 | OP_1 => 0x51 | OP_2 => 0x52
  | OP_3 => 0x53 | OP_4 => 0x54 | OP_5 => 0x55 | OP_6 => 0x56
  | OP_7 => 0x57 | OP_8 => 0x58 | OP_9 => 0x59 | OP_10 => 0x5a
  | OP_11 => 0x5b | OP_12 => 0x5c | OP_13 => 0x5d | OP_14 => 0x5e
  | OP_15 => 0x5f | OP_16 => 0x60 | OP_NOP => 0x61 | OP_VER => 0x62
  | OP_IF => 0x63 | OP_NOTIF => 0x64 | OP_VERIF => 0x65 | OP_VERNOTIF => 0x66
  | OP_ELSE => 0x67 | OP_ENDIF => 0x68 | OP_VERIFY => 0x69 | OP_RETURN => 0x6a
  | OP_TOALTSTACK => 0x6b | OP_FROMALTSTACK => 0x6c | OP_2DROP => 0x6d | OP_2DUP => 0x6e
  | OP_3DUP => 0x6f | OP_2OVER => 0x70 | OP_2ROT => 0x71 | OP_2SWAP => 0x72
  | OP_IFDUP => 0x73 | OP_DEPTH => 0x74 | OP_DROP => 0x75 | OP_DUP => 0x76
  | OP_NIP => 0x77 | OP_OVER => 0x78 | OP_PICK => 0x79 | OP_ROLL => 0x7a
  | OP_ROT => 0x7b | OP_SWAP => 0x7c | OP_TUCK => 0x7d | OP_CAT => 0x7e
  | OP_SUBSTR => 0x7f | OP_LEFT => 0x80 | OP_RIGHT => 0x81 | OP_SIZE => 0x82
  | OP_INVERT => 0x83 | OP_AND => 0x84 | OP_OR => 0x85 | OP_XOR => 0x86
  | OP_EQUAL => 0x87 | OP_EQUALVERIFY => 0x88 | OP_RESERVED1 => 0x89 | OP_RESERVED2 => 0x8a
  | OP_1ADD => 0x8b | OP_1SUB => 0x8c | OP_2MUL => 0x8d | OP_2DIV => 0x8e
  | OP_NEGATE => 0x8f | OP_ABS => 0x90 | OP_NOT => 0x91 | OP_0NOTEQUAL => 0x92
  | OP_ADD => 0x93 | OP_SUB => 0x94 | OP_MUL => 0x95 | OP_DIV => 0x96
  | OP_MOD => 0x97 | OP_LSHIFT => 0x98 | OP_RSHIFT => 0x99 | OP_BOOLAND => 0x9a
  | OP_BOOLOR => 0x9b | OP_NUMEQUAL => 0x9c | OP_NUMEQUALVERIFY => 0x9d | OP_NUMNOTEQUAL => 0x9e
  | OP_LESSTHAN => 0x9f | OP_GREATERTHAN => 0xa0 | OP_LESSTHANOREQUAL => 0xa1 | OP_GREATERTHANOREQUAL => 0xa2
  | OP_MIN => 0xa3 | OP_MAX => 0xa4 | OP_WITHIN => 0xa5 | OP_RIPEMD160 => 0xa6
  | OP_SHA1 => 0xa7 | OP_SHA256 => 0xa8 | OP_HASH160 => 0xa9 | OP_HASH256 => 0xaa
  | OP_CODESEPARATOR => 0xab | OP_CHECKSIG => 0xac | OP_CHECKSIGVERIFY => 0xad | OP_CHECKMULTISIG => 0xae
  | OP_CHECKMULTISIGVERIFY => 0xaf | OP_NOP1 => 0xb0 | OP_CHECKLOCKTIMEVERIFY => 0xb1 | OP_CHECKSEQUENCEVERIFY => 0xb2
  | OP_NOP4 => 0xb3 | OP_NOP5 => 0xb4 | OP_NOP6 => 0xb5 | OP_NOP7 => 0xb6
  | OP_NOP8 => 0xb7 | OP_NOP9 => 0xb8 | OP_NOP10 => 0xb9 | OP_SMALLINTEGER => 0xfa
  | OP_PUBKEYS => 0xfb | OP_PUBKEYHASH => 0xfd | OP_PUBKEY => 0xfe | OP_INVALIDOPCODE => 0xff
  | OP_ZEROCOINMINT => 0xc1 | OP_ZEROCOINSPEND => 0xc2 | OP_SIGMAMINT => 0xc3 | OP_SIGMASPEND => 0xc4
  | OP_OTHER b => b
  end.

Definition opcode_of (b : Z) : opcodetype :=
  match b with
  | 0x00 => OP_0 | 0x4c => OP_PUSHDATA1 | 0x4d => OP_PUSHDATA2 | 0x4e => OP_PUSHDATA4
  | 0x4f => OP_1NEGATE | 0x50 => OP_RESERVED | 0x51 => OP_1 | 0x52 => OP_2
  | 0x53 => OP_3 | 0x54 => OP_4 | 0x55 => OP_5 | 0x56 => OP_6
  | 0x57 => OP_7 | 0x58 => OP_8 | 0x59 => OP_9 | 0x5a => OP_10
  | 0x5b => OP_11 | 0x5c => OP_12 | 0x5d => OP_13 | 0x5e => OP_14
  | 0x5f => OP_15 | 0x60 => OP_16 | 0x61 => OP_NOP | 0x62 => OP_VER
  | 0x63 => OP_IF | 0x64 => OP_NOTIF | 0x65 => OP_VERIF | 0x66 => OP_VERNOTIF
  | 0x67 => OP_ELSE | 0x68 => OP_ENDIF | 0x69 => OP_VERIFY | 0x6a => OP_RETURN
  | 0x6b => OP_TOALTSTACK | 0x6c => OP_FROMALTSTACK | 0x6d => OP_2DROP | 0x6e => OP_2DUP
  | 0x6f => OP_3DUP | 0x70 => OP_2OVER | 0x71 => OP_2ROT | 0x72 => OP_2SWAP
  | 0x73 => OP_IFDUP | 0x74 => OP_DEPTH | 0x75 => OP_DROP | 0x76 => OP_DUP
  | 0x77 => OP_NIP | 0x78 => OP_OVER | 0x79 => OP_PICK | 0x7a => OP_ROLL
  | 0x7b => OP_ROT | 0x7c => OP_SWAP | 0x7d => OP_TUCK | 0x7e => OP_CAT
  | 0x7f => OP_SUBSTR | 0x80 => OP_LEFT | 0x81 => OP_RIGHT | 0x82 => OP_SIZE
  | 0x83 => OP_INVERT | 0x84 => OP_AND | 0x85 => OP_OR | 0x86 => OP_XOR
  | 0x87 => OP_EQUAL | 0x88 => OP_EQUALVERIFY | 0x89 => OP_RESERVED1 | 0x8a => OP_RESERVED2
  | 0x8b => OP_1ADD | 0x8c => OP_1SUB | 0x8d => OP_2MUL | 0x8e => OP_2DIV
  | 0x8f => OP_NEGATE | 0x90 => OP_ABS | 0x91 => OP_NOT | 0x92 => OP_0NOTEQUAL
  | 0x93 => OP_ADD | 0x94 => OP_SUB | 0x95 => OP_MUL | 0x96 => OP_DIV
  | 0x97 => OP_MOD | 0x98 => OP_LSHIFT | 0x99 => OP_RSHIFT | 0x9a => OP_BOOLAND
  | 0x9b => OP_BOOLOR | 0x9c => OP_NUMEQUAL | 0x9d => OP_NUMEQUALVERIFY | 0x9e => OP_NUMNOTEQUAL
  | 0x9f => OP_LESSTHAN | 0xa0 => OP_GREATERTHAN | 0xa1 => OP_LESSTHANOREQUAL | 0xa2 => OP_GREATERTHANOREQUAL
  | 0xa3 => OP_MIN | 0xa4 => OP_MAX | 0xa5 => OP_WITHIN | 0xa6 => OP_RIPEMD160
  | 0xa7 => OP_SHA1 | 0xa8 => OP_SHA256 | 0xa9 => OP_HASH160 | 0xaa => OP_HASH256
  | 0xab => OP_CODESEPARATOR | 0xac => OP_CHECKSIG | 0xad => OP_CHECKSIGVERIFY | 0xae => OP_CHECKMULTISIG
  | 0xaf => OP_CHECKMULTISIGVERIFY | 0xb0 => OP_NOP1 | 0xb1 => OP_CHECKLOCKTIMEVERIFY | 0xb2 => OP_CHECKSEQUENCEVERIFY
  | 0xb3 => OP_NOP4 | 0xb4 => OP_NOP5 | 0xb5 => OP_NOP6 | 0xb6 => OP_NOP7
  | 0xb7 => OP_NOP8 | 0xb8 => OP_NOP9 | 0xb9 => OP_NOP10 | 0xfa => OP_SMALLINTEGER
  | 0xfb => OP_PUBKEYS | 0xfd => OP_PUBKEYHASH | 0xfe => OP_PUBKEY | 0xff => OP_INVALIDOPCODE
  | 0xc1 => OP_ZEROCOINMINT | 0xc2 => OP_ZEROCOINSPEND | 0xc3 => OP_SIGMAMINT | 0xc4 => OP_SIGMASPEND
  | _ => OP_OTHER b
  end.

#[export] Instance opcodetype_eq_dec : EqDecision opcodetype.
Proof. solve_decision. Defined.

Definition MAX_SCRIPT_ELEMENT_SIZE : Z := 520.
Definition MAX_OPS_PER_SCRIPT : Z := 201.
Definition MAX_PUBKEYS_PER_MULTISIG : Z := 20.
Definition MAX_SCRIPT_SIZE : Z := 10000.
Definition LOCKTIME_THRESHOLD : Z := 500000000.

(** Size of a vector as the machine integer the comparisons use. *)
Definition size {A} (l : list A) : Z := Z.of_nat (length l).

(** ** [CScriptNum] *)
Inductive scriptnum_error :=
| ScriptNumOverflow
| ScriptNumNonMinimal.

(** The loop [while (absvalue)] of [serialize]; a 64-bit value needs at most 8 rounds. *)
Fixpoint serialize_loop (fuel : nat) (absvalue : Z) : list Z :=
  match fuel with
  | O => []
  | S fuel' => if absvalue =? 0 then []
               else Z.land absvalue 0xff :: serialize_loop fuel' (Z.shiftr absvalue 8)
  end.

(** [CScriptNum::serialize] *)
Definition serialize (value : Z) : list Z :=
  if value =? 0 then []
  else
    let neg := value <? 0 in
    let absvalue := u64 (if neg then - value else value) in
    let result := serialize_loop 8 absvalue in
    let back := List.last result 0 in
    if negb (Z.land back 0x80 =? 0) then result ++ [if neg then 0x80 else 0]
    else if neg then <[(length result - 1)%nat := Z.lor back 0x80]> result
    else result.

(** [CScriptNum::set_vch] *)
Definition set_vch (vch : list Z) : Z :=
  match vch with
  | [] => 0
  | _ =>
      let result := foldl (λ r ib, Z.lor r (i64 (Z.shiftl ib.2 (8 * Z.of_nat ib.1)))) 0
                      (zip (seq 0 (length vch)) vch) in
      if negb (Z.land (List.last vch 0) 0x80 =? 0)
      then - i64 (Z.land (u64 result) (u64 (Z.lnot (u64 (Z.shiftl 0x80 (8 * (size vch - 1)))))))
      else result
  end.

(** [CScriptNum::CScriptNum(vch, fRequireMinimal, nMaxNumSize)] *)
Definition nDefaultMaxNumSize : Z := 4.

Definition CScriptNum (vch : list Z) (fRequireMinimal : bool) (nMaxNumSize : Z) : scriptnum_error + Z :=
  if nMaxNumSize <? size vch then inl ScriptNumOverflow
  else if (fRequireMinimal && (0 <? size vch) && (Z.land (List.last vch 0) 0x7f =? 0) &&
           ((size vch <=? 1) || (Z.land vch.[length vch - 2] 0x80 =? 0)))%bool
  then inl ScriptNumNonMinimal
  else inr (set_vch vch).

(** [getint]: clamps to [int]. *)
Definition getint (m_value : Z) : Z :=
  if 2 ^ 31 - 1 <? m_value then 2 ^ 31 - 1
  else if m_value <? - 2 ^ 31 then - 2 ^ 31
  else m_value.

(** ** Building scripts *)

(** [operator<<(opcodetype)] *)
Definition push_opcode (script : list Z) (op : opcodetype) : list Z := script ++ [opcode_val op].

(** [operator<<(const std::vector<unsigned char>&)] *)
Definition push_data (script b : list Z) : list Z :=
  (script ++
   (if size b <? opcode_val OP_PUSHDATA1 then [size b]
    else if size b <=? 0xff then [opcode_val OP_PUSHDATA1; size b]
    else if size b <=? 0xffff then opcode_val OP_PUSHDATA2 :: Radix.split 256 2 (size b)
    else opcode_val OP_PUSHDATA4 :: Radix.split 256 4 (size b))) ++ b.

(** [push_int64] *)
Definition push_int64 (script : list Z) (n : Z) : list Z :=
  if ((n =? -1) || ((1 <=? n) && (n <=? 16)))%bool then script ++ [n + (opcode_val OP_1 - 1)]
  else if n =? 0 then script ++ [opcode_val OP_0]
  else push_data script (serialize n).

(** ** Reading scripts

    [GetOp2] returns its result, [opcodeRet], [*pvchRet] and the advanced [pc]: on
    failure [pc] is where reading stopped. *)
Definition GetOp2 (pc : list Z) : bool * opcodetype * list Z * list Z :=
  match pc with
  | [] => (false, OP_INVALIDOPCODE, [], [])
  | opcode :: pc =>
      if opcode <=? opcode_val OP_PUSHDATA4 then
        let rd :=
          if opcode <? opcode_val OP_PUSHDATA1 then inr (opcode, pc)
          else if opcode =? opcode_val OP_PUSHDATA1 then
            match pc with
            | n :: pc => inr (n, pc)
            | _ => inl pc
            end
          else if opcode =? opcode_val OP_PUSHDATA2 then
            if size pc <? 2 then inl pc
            else inr (Radix.eval 256 (take 2 pc), drop 2 pc)
          else
            if size pc <? 4 then inl pc
            else inr (Radix.eval 256 (take 4 pc), drop 4 pc) in
        match rd with
        | inl pc => (false, OP_INVALIDOPCODE, [], pc)
        | inr (nSize, pc) =>
            if size pc <? nSize then (false, OP_INVALIDOPCODE, [], pc)
            else (true, opcode_of opcode, take (Z.to_nat nSize) pc, drop (Z.to_nat nSize) pc)
        end
      else (true, opcode_of opcode, [], pc)
  end.

(** [GetOp(pc, opcode, vch)] when it succeeds: opcode, data, advanced iterator. *)
Definition GetOp (pc : list Z) : option (opcodetype * list Z * list Z) :=
  match GetOp2 pc with
  | (true, op, vch, pc') => Some (op, vch, pc')
  | _ => None
  end.

(** [DecodeOP_N] and [EncodeOP_N]; [None] is a failed assertion. *)
Definition DecodeOP_N (op : opcodetype) : option Z :=
  if decide (op = OP_0) then Some 0
  else if ((opcode_val OP_1 <=? opcode_val op) && (opcode_val op <=? opcode_val OP_16))%bool
  then Some (opcode_val op - (opcode_val OP_1 - 1)) else None.
Definition EncodeOP_N (n : Z) : option opcodetype :=
  if ((0 <=? n) && (n <=? 16))%bool
  then Some (if n =? 0 then OP_0 else opcode_of (opcode_val OP_1 + n - 1)) else None.

(** [FindAndDelete]: the inner [while] that skips copies of [b] at [pc]; the fuel is the
    length of [pc], and each round with a non-empty [b] shortens it. *)
Fixpoint skip_matches (fuel : nat) (b pc : list Z) (nFound : Z) : list Z * Z :=
  match fuel with
  | O => (pc, nFound)
  | S fuel' =>
      if bool_decide (take (length b) pc = b) then skip_matches fuel' b (drop (length b) pc) (nFound + 1)
      else (pc, nFound)
  end.

(** The outer [do ... while (GetOp(pc, opcode))]; [result] is what was copied so far. *)
Fixpoint FindAndDelete_loop (fuel : nat) (b result pc2 pc : list Z) (nFound : Z) : list Z * list Z * Z :=
  match fuel with
  | O => (result, pc2, nFound)
  | S fuel' =>
      let result := result ++ take (length pc2 - length pc) pc2 in
      let '(pc, nFound) := skip_matches (length pc) b pc nFound in
      let pc2 := pc in
      match GetOp pc with
      | Some (_, _, pc) => FindAndDelete_loop fuel' b result pc2 pc nFound
      | None => (result, pc2, nFound)
      end
  end.

Definition FindAndDelete (script b : list Z) : list Z * Z :=
  match b with
  | [] => (script, 0)
  | _ =>
      let '(result, pc2, nFound) := FindAndDelete_loop (S (length script)) b [] script script 0 in
      if 0 <? nFound then (result ++ pc2, nFound) else (script, nFound)
  end.

(** [Find] *)
Fixpoint Find_loop (fuel : nat) (pc : list Z) (op : opcodetype) (nFound : Z) : Z :=
  match fuel with
  | O => nFound
  | S fuel' =>
      match GetOp pc with
      | Some (opcode, _, pc) =>
          Find_loop fuel' pc op (if decide (opcode = op) then nFound + 1 else nFound)
      | None => nFound
      end
  end.
Definition Find (script : list Z) (op : opcodetype) : Z := Find_loop (length script) script op 0.

(** ** Counting signature operations *)
Fixpoint GetSigOpCount_loop (fuel : nat) (fAccurate : bool) (pc : list Z) (lastOpcode : opcodetype) (n : Z) : Z :=
  match fuel with
  | O => n
  | S fuel' =>
      match GetOp pc with
      | None => n
      | Some (opcode, _, pc) =>
          let n :=
            match opcode with
            | OP_CHECKSIG | OP_CHECKSIGVERIFY => n + 1
            | OP_CHECKMULTISIG | OP_CHECKMULTISIGVERIFY =>
                if (fAccurate && (opcode_val OP_1 <=? opcode_val lastOpcode) &&
                    (opcode_val lastOpcode <=? opcode_val OP_16))%bool
                then n + default 0 (DecodeOP_N lastOpcode)
                else n + MAX_PUBKEYS_PER_MULTISIG
            | _ => n
            end in
          GetSigOpCount_loop fuel' fAccurate pc opcode n
      end
  end.
Definition GetSigOpCount (script : list Z) (fAccurate : bool) : Z :=
  GetSigOpCount_loop (length script) fAccurate script OP_INVALIDOPCODE 0.

(** ** Recognising script forms *)
Definition IsPayToPublicKeyHash (s : list Z) : bool :=
  (size s =? 25) && (s.[0] =? opcode_val OP_DUP) && (s.[1] =? opcode_val OP_HASH160) && (s.[2] =? 0x14) &&
  (s.[23] =? opcode_val OP_EQUALVERIFY) && (s.[24] =? opcode_val OP_CHECKSIG).

Definition IsPayToScriptHash (s : list Z) : bool :=
  (size s =? 23) && (s.[0] =? opcode_val OP_HASH160) && (s.[1] =? 0x14) && (s.[22] =? opcode_val OP_EQUAL).

Definition IsPayToWitnessScriptHash (s : list Z) : bool :=
  (size s =? 34) && (s.[0] =? opcode_val OP_0) && (s.[1] =? 0x20).

(** [IsWitnessProgram]: version and program on success. *)
Definition IsWitnessProgram (s : list Z) : option (Z * list Z) :=
  if ((size s <? 4) || (42 <? size s))%bool then None
  else if (negb (s.[0] =? opcode_val OP_0) &&
           ((s.[0] <? opcode_val OP_1) || (opcode_val OP_16 <? s.[0])))%bool then None
  else if s.[1] + 2 =? size s then
    match DecodeOP_N (opcode_of s.[0]) with
    | Some version => Some (version, drop 2 s)
    | None => None
    end
  else None.

(** [IsZerocoinMint], [IsZerocoinSpend], [IsSigmaMint], [IsSigmaSpend] *)
Definition starts_with (s : list Z) (op : opcodetype) : bool := (0 <? size s) && (s.[0] =? opcode_val op).
Definition IsZerocoinMint (s : list Z) : bool := starts_with s OP_ZEROCOINMINT.
Definition IsZerocoinSpend (s : list Z) : bool := starts_with s OP_ZEROCOINSPEND.
Definition IsSigmaMint (s : list Z) : bool := starts_with s OP_SIGMAMINT.
Definition IsSigmaSpend (s : list Z) : bool := starts_with s OP_SIGMASPEND.

Definition IsUnspendable (s : list Z) : bool :=
  ((0 <? size s) && (s.[0] =? opcode_val OP_RETURN)) || (MAX_SCRIPT_SIZE <? size s).

(** [IsNormalPaymentScript]: the result of [GetOp] is ignored by the loop. *)
Fixpoint IsNormalPaymentScript_loop (fuel : nat) (pc : list Z) (i : Z) : bool :=
  match fuel, pc with
  | O, _ | _, [] => true
  | S fuel', _ =>
      let '(_, opcode, _, pc) := GetOp2 pc in
      if ((i =? 0) && negb (bool_decide (opcode = OP_DUP)))%bool then false
      else if ((i =? 1) && negb (bool_decide (opcode = OP_HASH160)))%bool then false
      else if ((i =? 3) && negb (bool_decide (opcode = OP_EQUALVERIFY)))%bool then false
      else if ((i =? 4) && negb (bool_decide (opcode = OP_CHECKSIG)))%bool then false
      else if i =? 5 then false
      else IsNormalPaymentScript_loop fuel' pc (i + 1)
  end.
Definition IsNormalPaymentScript (s : list Z) : bool :=
  if negb (size s =? 25) then false else IsNormalPaymentScript_loop (length s) s 0.

(** [HasCanonicalPushes] *)
Definition canonical_push (opcode : opcodetype) (data : list Z) : bool :=
  let v := opcode_val opcode in
  if opcode_val OP_16 <? v then true
  else if ((v <? opcode_val OP_PUSHDATA1) && (opcode_val OP_0 <? v) && ((size data =? 1) && (data.[0] <=? 16)))%bool
  then false
  else if (bool_decide (opcode = OP_PUSHDATA1) && (size data <? opcode_val OP_PUSHDATA1))%bool then false
  else if (bool_decide (opcode = OP_PUSHDATA2) && (size data <=? 0xff))%bool then false
  else if (bool_decide (opcode = OP_PUSHDATA4) && (size data <=? 0xffff))%bool then false
  else true.
Fixpoint HasCanonicalPushes_loop (fuel : nat) (pc : list Z) : bool :=
  match fuel, pc with
  | O, _ | _, [] => true
  | S fuel', _ =>
      match GetOp pc with
      | None => false
      | Some (opcode, data, pc) => if canonical_push opcode data then HasCanonicalPushes_loop fuel' pc else false
      end
  end.
Definition HasCanonicalPushes (s : list Z) : bool := HasCanonicalPushes_loop (length s) s.

(** [IsPushOnly] *)
Fixpoint IsPushOnly_loop (fuel : nat) (pc : list Z) : bool :=
  match fuel, pc with
  | O, _ | _, [] => true
  | S fuel', _ =>
      match GetOp pc with
      | None => false
      | Some (opcode, _, pc) => if opcode_val OP_16 <? opcode_val opcode then false else IsPushOnly_loop fuel' pc
      end
  end.
Definition IsPushOnly (s : list Z) : bool := IsPushOnly_loop (length s) s.

(** [GetSigOpCount(const CScript& scriptSig)]: the last item pushed by [scriptSig], or
    [None] when the loop returns 0. *)
Fixpoint last_push (fuel : nat) (pc data : list Z) : option (list Z) :=
  match fuel, pc with
  | O, _ | _, [] => Some data
  | S fuel', _ =>
      match GetOp pc with
      | None => None
      | Some (opcode, data, pc) => if opcode_val OP_16 <? opcode_val opcode then None else last_push fuel' pc data
      end
  end.
Definition GetSigOpCount_P2SH (script scriptSig : list Z) : Z :=
  if negb (IsPayToScriptHash script) then GetSigOpCount script true
  else match last_push (length scriptSig) scriptSig [] with
       | None => 0
       | Some data => GetSigOpCount data true
       end.

(** ** Script numbers *)

Lemma last_app_one (l : list Z) x d : List.last (l ++ [x]) d = x.
Proof. apply last_last. Qed.

Lemma digits_last l d : Radix.digits 256 l → l ≠ [] → 0 <= List.last l d < 256.
Proof.
  intros Hl Hne. destruct (exists_last Hne) as (l' & x & ->). rewrite last_app_one.
  by apply Forall_app in Hl as [_ Hx%Forall_inv].
Qed.

(** The loop of [set_vch] evaluates the little-endian digits. *)
Lemma set_vch_fold l : (length l <= 7)%nat → Radix.digits 256 l →
  foldl (λ r ib, Z.lor r (i64 (Z.shiftl ib.2 (8 * Z.of_nat ib.1)))) 0 (zip (seq 0 (length l)) l) =
  Radix.eval 256 l.
Proof.
  induction l as [|x l IH] using rev_ind; intros Hlen Hd; [done|].
  rewrite length_app in *. simpl in Hlen. apply Forall_app in Hd as [Hd Hx%Forall_inv].
  rewrite seq_app, zip_with_app by (by rewrite length_seq). simpl. rewrite foldl_app, IH by (done || lia). simpl.
  pose proof (eval_bound 256 ltac:(lia) l Hd) as Hb.
  rewrite eval_app, i64_small.
  - rewrite pow256 in * by lia. rewrite lor_shiftl_add by lia. simpl. lia.
  - rewrite Z.shiftl_mul_pow2 by lia.
    assert (2 ^ (8 * Z.of_nat (length l)) <= 2 ^ 48) by (apply Z.pow_le_mono_r; lia). nia.
Qed.

(** The number a byte string denotes: magnitude and sign bit of the last byte. *)
Definition vch_value (vch : list Z) : Z :=
  let x := List.last vch 0 in
  let m := Radix.eval 256 vch in
  if 128 <=? x then - (m - 128 * 256 ^ (size vch - 1)) else m.

Lemma set_vch_value vch : size vch <= 7 → Radix.digits 256 vch → set_vch vch = vch_value vch.
Proof.
  intros Hlen Hd. destruct vch as [|b vch]; [done|]. unfold set_vch. unfold size in *.
  rewrite set_vch_fold by (done || lia). set (v := b :: vch) in *. unfold vch_value, size.
  destruct (exists_last (l := v)) as (l & x & E); [done|]. rewrite E in *. clear E v b vch.
  rewrite last_app_one. apply Forall_app in Hd as [Hd Hx%Forall_inv].
  change 0x80 with (Z.shiftl 1 7) at 1. rewrite land_bit_eqb, testbit_top, negb_involutive by lia.
  change (2 ^ 7) with 128. destruct (Z.leb_spec 128 x) as [E|E]; [|done].
  rewrite length_app in *. simpl in *. replace (Z.of_nat (length l + 1) - 1) with (Z.of_nat (length l)) in * by lia.
  rewrite eval_app. simpl. rewrite Z.mul_0_r, Z.add_0_r.
  pose proof (eval_bound 256 ltac:(lia) l Hd) as Hb. set (n := Z.of_nat (length l)) in *.
  rewrite (pow256 n) in * by lia. set (P := 2 ^ (8 * n)) in *. set (e := Radix.eval 256 l) in *.
  assert (P <= 2 ^ 48) as Hle by (apply Z.pow_le_mono_r; lia).
  assert (128 * P = 2 ^ (8 * n + 7)) as HP by (unfold P; rewrite Z.pow_add_r by lia; lia).
  f_equal. rewrite (u64_small (e + _)) by nia. rewrite Z.shiftl_mul_pow2 by lia. fold P.
  rewrite (u64_small (128 * P)) by nia.
  replace (e + P * x) with (e + P * x - 128 * P + 2 ^ (8 * n + 7)) at 1 by lia.
  rewrite HP. rewrite land_clear_top; [apply i64_small; nia|lia|nia].
Qed.

Lemma digit_sign x : 0 <= x < 256 →
  (Z.land x 0x80 =? 0) = negb (128 <=? x) ∧ Z.land x 0x7f = x mod 128 ∧
  (x < 128 → Z.lor x 0x80 = x + 128).
Proof.
  intros Hx. split_and!.
  - change (Z.land x 0x80) with (Z.land x (Z.shiftl 1 7)). by rewrite land_bit_eqb, testbit_top by lia.
  - change 0x7f with (2 ^ 7 - 1). by rewrite land_mask by lia.
  - intros. change (Z.lor x 0x80) with (Z.lor x (Z.shiftl 1 7)). rewrite lor_shiftl_add by lia. lia.
Qed.

(** The loop of [serialize] computes the digits without leading zeros. *)
Lemma serialize_loop_eval k a : 0 <= a < 256 ^ Z.of_nat k →
  Radix.eval 256 (serialize_loop k a) = a ∧ Radix.digits 256 (serialize_loop k a) ∧
  (length (serialize_loop k a) <= k)%nat ∧ (0 < a → List.last (serialize_loop k a) 0 ≠ 0).
Proof.
  revert a. induction k as [|k IH]; intros a Ha; cbn [serialize_loop].
  { change (256 ^ Z.of_nat 0) with 1 in Ha. split_and!; simpl; [lia|constructor|lia|lia]. }
  destruct (Z.eqb_spec a 0) as [->|Hne].
  { split_and!; simpl; [lia|constructor|lia|lia]. }
  rewrite pow_radix_S in Ha. change 0xff with (2 ^ 8 - 1). rewrite land_mask, Z.shiftr_div_pow2 by lia.
  change (2 ^ 8) with 256. destruct (IH (a / 256)) as (E & D & L & N); [zlia|].
  cbn [Radix.eval length]. rewrite E. split_and!; [zlia|constructor; [zlia|done]|lia|].
  intros _. destruct (decide (0 < a / 256)) as [Hd|Hd].
  - specialize (N Hd). destruct (serialize_loop k (a / 256)) eqn:Es; [by simpl in N|]. done.
  - assert (a / 256 = 0) as -> by zlia. destruct k; simpl; zlia.
Qed.

Lemma serialize_loop_unique l : ∀ k, Radix.digits 256 l → l ≠ [] → List.last l 0 ≠ 0 → (length l <= k)%nat →
  serialize_loop k (Radix.eval 256 l) = l.
Proof.
  induction l as [|d l IH]; intros k Hd Hne Hlast Hk; [done|].
  destruct k as [|k]; [simpl in Hk; lia|]. apply Forall_cons_iff in Hd as [Hx Hd].
  cbn [serialize_loop Radix.eval]. pose proof (eval_bound 256 ltac:(lia) l Hd) as Hb.
  assert (0 < d + 256 * Radix.eval 256 l) as Hpos.
  { destruct l as [|e l']; [simpl in *; lia|].
    assert (0 < Radix.eval 256 (e :: l')); [|lia].
    destruct (decide (Radix.eval 256 (e :: l') = 0)) as [Hz|Hz]; [|lia].
    specialize (IH (length (e :: l')) Hd ltac:(done) Hlast ltac:(lia)). rewrite Hz in IH. done. }
  destruct (Z.eqb_spec (d + 256 * Radix.eval 256 l) 0); [lia|].
  change 0xff with (2 ^ 8 - 1). rewrite land_mask, Z.shiftr_div_pow2 by lia. change (2 ^ 8) with 256.
  rewrite (Z.mul_comm 256), Z.mod_add, Z.div_add, Z.mod_small, Z.div_small by lia. f_equal.
  destruct l as [|e l']; [by destruct k|]. rewrite Z.add_0_l. apply IH; try done. simpl in *. lia.
Qed.

(** Magnitude and sign of a byte string split at its last byte. *)
Lemma vch_value_snoc l x : 0 <= x < 256 →
  vch_value (l ++ [x]) =
    (if 128 <=? x then -1 else 1) * (Radix.eval 256 l + 256 ^ Z.of_nat (length l) * (x mod 128)).
Proof.
  intros Hx. unfold vch_value, size. rewrite last_app_one, length_app, eval_app. cbn [Radix.eval length].
  replace (Z.of_nat (length l + 1) - 1) with (Z.of_nat (length l)) by lia.
  destruct (Z.leb_spec 128 x).
  - replace (x mod 128) with (x - 128) by zlia. lia.
  - rewrite Z.mod_small by lia. lia.
Qed.

(** [serialize] never emits a leading zero that the sign bit does not need. *)
Definition minimal (vch : list Z) : Prop :=
  vch = [] ∨ ∃ l x, vch = l ++ [x] ∧ (x mod 128 ≠ 0 ∨ l ≠ [] ∧ 128 <= List.last l 0).

Lemma insert_last (l : list Z) x y : <[(length (l ++ [x]) - 1)%nat := y]> (l ++ [x]) = l ++ [y].
Proof. rewrite length_app. simpl. rewrite Nat.add_sub, insert_app_r_alt, Nat.sub_diag by lia. done. Qed.

Lemma serialize_spec v : - 2 ^ 63 < v < 2 ^ 63 →
  vch_value (serialize v) = v ∧ Radix.digits 256 (serialize v) ∧ minimal (serialize v).
Proof.
  intros Hv. unfold serialize. destruct (Z.eqb_spec v 0) as [->|Hnz]; [by repeat split; [constructor|left]|].
  set (neg := v <? 0). set (a := if neg then - v else v).
  assert (0 < a < 2 ^ 63 ∧ v = (if neg then -1 else 1) * a) as [Ha Hva]
    by (unfold a, neg; destruct (Z.ltb_spec v 0); lia).
  clearbody a neg. rewrite u64_small by lia.
  destruct (serialize_loop_eval 8 a) as (E & D & L & N); [change (256 ^ Z.of_nat 8) with (2 ^ 64); lia|].
  specialize (N ltac:(lia)). set (r := serialize_loop 8 a) in *.
  destruct (exists_last (l := r)) as (l & b & Er); [intros Hr; rewrite Hr in N; done|].
  clearbody r. subst r. rewrite last_app_one in *. assert (D' := D).
  apply Forall_app in D' as [Dl Db%Forall_inv]. destruct (digit_sign b Db) as (S1 & S2 & S3).
  rewrite S1, negb_involutive. destruct (Z.leb_spec 128 b) as [Hb|Hb].
  - split_and!.
    + rewrite vch_value_snoc by (destruct neg; lia). rewrite E, Hva.
      replace ((if neg then 128 else 0) mod 128) with 0 by (by destruct neg).
      destruct (Z.leb_spec 128 (if neg then 128 else 0)); destruct neg; lia.
    + apply Forall_app. split; [done|]. constructor; [destruct neg; lia|constructor].
    + right. eexists _, _. split; [done|]. right. rewrite last_app_one. split; [by destruct l|done].
  - rewrite eval_app in E. cbn [Radix.eval] in E. destruct neg.
    + rewrite insert_last, S3 by lia. split_and!.
      * rewrite vch_value_snoc by lia. rewrite (proj2 (Z.leb_le 128 _)) by lia.
        replace ((b + 128) mod 128) with b by zlia. lia.
      * apply Forall_app. split; [done|]. constructor; [lia|constructor].
      * right. eexists _, _. split; [done|]. left. zlia.
    + split_and!.
      * rewrite vch_value_snoc by lia. rewrite (proj2 (Z.leb_gt 128 _)) by lia.
        rewrite Z.mod_small by lia. lia.
      * done.
      * right. eexists _, _. split; [done|]. left. rewrite Z.mod_small; lia.
Qed.

(** [serialize] on a number given by the digits of its magnitude and its sign. *)
Lemma serialize_signed (neg : bool) r b : Radix.digits 256 (r ++ [b]) → b ≠ 0 → (length r <= 7)%nat →
  Radix.eval 256 (r ++ [b]) < 2 ^ 63 →
  serialize ((if neg then -1 else 1) * Radix.eval 256 (r ++ [b])) =
    if 128 <=? b then (r ++ [b]) ++ [if neg then 0x80 else 0] else r ++ [if neg then b + 128 else b].
Proof.
  intros Hd Hb0 Hlen Hlt. assert (Hd' := Hd). apply Forall_app in Hd' as [Dr Db%Forall_inv].
  assert (serialize_loop 8 (Radix.eval 256 (r ++ [b])) = r ++ [b]) as Er.
  { apply serialize_loop_unique; [done|by destruct r|by rewrite last_app_one|rewrite length_app; simpl; lia]. }
  assert (0 < Radix.eval 256 (r ++ [b])) as Hpos.
  { rewrite eval_app. cbn [Radix.eval]. pose proof (pow_radix_pos 256 ltac:(lia) (length r)).
    pose proof (eval_bound 256 ltac:(lia) r Dr). nia. }
  set (a := Radix.eval 256 (r ++ [b])) in *. clearbody a. unfold serialize.
  destruct (Z.eqb_spec ((if neg then -1 else 1) * a) 0); [destruct neg; lia|].
  replace ((if neg then -1 else 1) * a <? 0) with neg
    by (symmetry; destruct neg; [apply Z.ltb_lt|apply Z.ltb_ge]; lia).
  replace (u64 _) with a by (symmetry; destruct neg; rewrite u64_small; lia).
  rewrite Er, last_app_one. destruct (digit_sign b Db) as (S1 & S2 & S3).
  rewrite S1, negb_involutive. destruct (Z.leb_spec 128 b); [done|]. destruct neg; [|done].
  by rewrite insert_last, S3 by lia.
Qed.

(** A minimal byte string is the encoding of the number it denotes. *)
Lemma serialize_unique vch : (length vch <= 7)%nat → Radix.digits 256 vch → minimal vch →
  serialize (vch_value vch) = vch.
Proof.
  intros Hlen Hd [->|(l & x & -> & Hmin)]; [done|].
  rewrite length_app in Hlen. simpl in Hlen. apply Forall_app in Hd as [Dl Dx%Forall_inv].
  rewrite vch_value_snoc by done. pose proof (eval_bound 256 ltac:(lia) l Dl) as Bl.
  assert (0 <= x mod 128 < 128) as Hxm by (apply Z.mod_pos_bound; lia).
  assert (256 ^ Z.of_nat (length l) <= 256 ^ 6) by (apply Z.pow_le_mono_r; lia).
  destruct (decide (x mod 128 = 0)) as [Hx0|Hx0].
  - destruct Hmin as [?|[Hl Hlast]]; [done|]. rewrite Hx0, Z.mul_0_r, Z.add_0_r.
    destruct (exists_last Hl) as (r & b & ->). rewrite last_app_one in Hlast.
    rewrite length_app in Hlen. simpl in Hlen. rewrite serialize_signed by (done || lia).
    rewrite (proj2 (Z.leb_le 128 b)) by done. do 2 f_equal. destruct (Z.leb_spec 128 x); zlia.
  - replace (Radix.eval 256 l + _) with (Radix.eval 256 (l ++ [x mod 128]))
      by (rewrite eval_app; cbn [Radix.eval]; lia).
    assert (Radix.digits 256 (l ++ [x mod 128])) as Hd' by (apply Forall_app; repeat constructor; [done|lia..]).
    rewrite serialize_signed; [|done|done|lia|].
    + rewrite (proj2 (Z.leb_gt 128 _)) by lia. do 2 f_equal. destruct (Z.leb_spec 128 x); zlia.
    + rewrite eval_app. cbn [Radix.eval]. nia.
Qed.

(** The minimality test of the constructor. *)
Lemma CScriptNum_minimal vch : Radix.digits 256 vch →
  ((0 <? size vch) && (Z.land (List.last vch 0) 0x7f =? 0) &&
   ((size vch <=? 1) || (Z.land vch.[length vch - 2] 0x80 =? 0)))%bool = false ↔ minimal vch.
Proof.
  intros Hd. destruct (decide (vch = [])) as [->|Hne]; [split; [by left|done]|].
  destruct (exists_last Hne) as (l & x & ->). clear Hne. apply Forall_app in Hd as [Dl Dx%Forall_inv].
  rewrite last_app_one. unfold size. rewrite length_app. simpl.
  rewrite (proj2 (Z.ltb_lt 0 _)) by lia. simpl. destruct (digit_sign x Dx) as (_ & -> & _).
  destruct (decide (l = [])) as [->|Hl].
  - simpl. rewrite andb_true_r, Z.eqb_neq. split.
    + intros H. right. exists [], x. split; [done|by left].
    + intros [?|(l & y & E & Hm)]; [done|]. apply (app_inj_tail [] l x y) in E as [<- <-].
      destruct Hm as [?|[? _]]; done.
  - destruct (exists_last Hl) as (r & b & ->). clear Hl. apply Forall_app in Dl as [_ Db%Forall_inv].
    rewrite length_app. simpl. replace (length r + 1 + 1 - 2)%nat with (length r) by lia.
    assert (((r ++ [b]) ++ [x]).[length r] = b) as ->.
    { unfold get. rewrite <- app_assoc. cbn [app]. by rewrite list_lookup_middle. }
    destruct (digit_sign b Db) as (-> & _ & _). rewrite (proj2 (Z.leb_gt _ 1)) by lia. simpl.
    rewrite andb_false_iff, Z.eqb_neq, negb_false_iff, Z.leb_le. split.
    + intros H. right. exists (r ++ [b]), x. split; [done|]. rewrite last_app_one.
      destruct H; [by left|right; split; [by destruct r|done]].
    + intros [E|(l & y & E & Hm)]; [by destruct r|]. apply app_inj_tail in E as [<- <-].
      rewrite last_app_one in Hm. destruct Hm as [?|[_ ?]]; [by left|by right].
Qed.

(** The range of a byte string of at most seven bytes. *)
Lemma vch_value_bound vch : Radix.digits 256 vch → vch ≠ [] → Z.abs (vch_value vch) < 2 ^ (8 * size vch - 1).
Proof.
  intros Hd Hne. destruct (exists_last Hne) as (l & x & ->). apply Forall_app in Hd as [Dl Dx%Forall_inv].
  rewrite vch_value_snoc by done. pose proof (eval_bound 256 ltac:(lia) l Dl) as Bl.
  unfold size. rewrite length_app. simpl.
  replace (8 * Z.of_nat (length l + 1) - 1) with (8 * Z.of_nat (length l) + 7) by lia.
  rewrite Z.pow_add_r, <- pow256 by lia. set (P := 256 ^ _) in *.
  assert (0 <= x mod 128 < 128) by (apply Z.mod_pos_bound; lia). set (y := x mod 128) in *.
  change (2 ^ 7) with 128. destruct (128 <=? x); nia.
Qed.

(** Script numbers. For operands of at most seven bytes (the interpreter uses four, and
    five for the lock time operators) the constructor with the minimality rule accepts
    exactly the strings that [serialize] produces: it succeeds with [v] if and only if the
    string is the encoding of [v] and fits. The accepted number is below [2^(8n-1)] in
    absolute value, and without the minimality rule every string of [n] bytes is accepted
    with the value its magnitude and sign bit denote. *)
Theorem CScriptNum_exact vch nMax v : 0 <= nMax <= 7 → Radix.digits 256 vch →
  (CScriptNum vch true nMax = inr v ↔ vch = serialize v ∧ size vch <= nMax ∧ - 2 ^ 63 < v < 2 ^ 63) ∧
  (CScriptNum vch true nMax = inr v → Z.abs v <= 2 ^ (8 * nMax - 1)) ∧
  CScriptNum vch false nMax = (if nMax <? size vch then inl ScriptNumOverflow else inr (vch_value vch)).
Proof.
  intros Hn Hd. unfold CScriptNum. pose proof (CScriptNum_minimal vch Hd) as Hmin.
  rewrite andb_true_l, andb_false_l. destruct (Z.ltb_spec nMax (size vch)) as [Hs|Hs].
  { split_and!; [|done|done]. split; [done|]. lia. }
  rewrite set_vch_value by (done || lia).
  assert (Z.abs (vch_value vch) <= 2 ^ (8 * nMax - 1)) as Hb.
  { destruct (decide (vch = [])) as [->|Hne]; [apply Z.pow_nonneg; lia|].
    pose proof (vch_value_bound vch Hd Hne).
    assert (2 ^ (8 * size vch - 1) <= 2 ^ (8 * nMax - 1)) by (apply Z.pow_le_mono_r; lia). lia. }
  assert (2 ^ (8 * nMax - 1) <= 2 ^ 55) by (apply Z.pow_le_mono_r; lia).
  split_and!; [|intros H0; destruct (_ && _)%bool; congruence|done].
  destruct ((0 <? size vch) && _ && _)%bool.
  - split; [done|]. intros (-> & _ & Hv). apply serialize_spec in Hv as (_ & _ & Hm).
    apply Hmin in Hm. done.
  - assert (minimal vch) as Hm by (by apply Hmin). split.
    + intros [= <-]. rewrite serialize_unique; [split_and!; [done|lia..]|unfold size in *; lia|done..].
    + intros (-> & _ & Hv). by apply serialize_spec in Hv as (-> & _ & _).
Qed.

Lemma CScriptNum_exact_witness :
  CScriptNum [0x80; 0x80] true 4 = inr (-128) ∧ [0x80; 0x80] = serialize (-128).
Proof.
  assert (Radix.digits 256 [0x80; 0x80]) as Hd by (repeat constructor; lia).
  destruct (CScriptNum_exact [0x80; 0x80] 4 (-128) ltac:(lia) Hd) as [H _].
  split; [reflexivity|]. destruct (proj1 H eq_refl) as [E _]. exact E.
Defined.

(** ** Reading one operation *)

Lemma opcode_val_of b : opcode_val (opcode_of b) = b.
Proof. destruct b as [|p|p]; try done. do 8 (destruct p as [p|p|]; try done). Qed.

(** An [OP_OTHER] is a byte that the enumeration does not name. *)
Definition wf_opcode (op : opcodetype) : Prop :=
  match op with OP_OTHER b => 0 <= b < 256 ∧ opcode_of b = OP_OTHER b | _ => True end.

Lemma opcode_of_val op : wf_opcode op → opcode_of (opcode_val op) = op.
Proof. destruct op; try done. by intros [_ ?]. Qed.

Lemma size_ge0 {A} (l : list A) : 0 <= size l.
Proof. unfold size. lia. Qed.
Lemma size_cons {A} (x : A) l : size (x :: l) = 1 + size l.
Proof. unfold size. simpl. lia. Qed.
Lemma size_app {A} (l k : list A) : size (l ++ k) = size l + size k.
Proof. unfold size. rewrite length_app. lia. Qed.

(** The operation that was read is a non-empty prefix of the iterator's range. *)
Lemma GetOp2_suffix pc ok op d pc' : GetOp2 pc = (ok, op, d, pc') →
  ∃ p, pc = p ++ d ++ pc' ∧ (pc ≠ [] → p ≠ []).
Proof.
  unfold GetOp2. destruct pc as [|b pc]; [intros [= <- <- <- <-]; by exists []|].
  destruct (_ <=? _); [|intros [= <- <- <- <-]; by exists [b]].
  set (rd := if b <? _ then _ else _). intros H.
  assert (∃ q r, pc = q ++ r ∧ (rd = inl r ∨ ∃ n, rd = inr (n, r))) as (q & r & -> & Hrd).
  { subst rd. clear H. repeat case_match; eexists _, _; (split; [|by eauto]).
    all: try (by rewrite take_drop); try (by instantiate (1 := [])); by instantiate (1 := [_]). }
  clearbody rd. exists (b :: q). split; [|done]. simpl. f_equal. destruct Hrd as [E|(n & E)]; rewrite E in H; cbn in H.
  - injection H as <- <- <- <-. done.
  - destruct (_ <? _); injection H as <- <- <- <-; [done|]. by rewrite take_drop.
Qed.

Lemma GetOp_suffix pc op d pc' : GetOp pc = Some (op, d, pc') →
  ∃ p, p ≠ [] ∧ pc = p ++ pc' ∧ (length pc' < length pc)%nat.
Proof.
  unfold GetOp. destruct (GetOp2 pc) as [[[ok o] v] r] eqn:E. destruct ok; [|done]. intros [= <- <- <-].
  assert (pc ≠ []) as Hne by (by intros ->).
  apply GetOp2_suffix in E as (p & -> & Hp). specialize (Hp Hne). exists (p ++ v).
  split_and!; [by destruct p|by rewrite app_assoc|]. rewrite !length_app. destruct p; [done|]. simpl. lia.
Qed.

Lemma GetOp_op op rest : wf_opcode op → opcode_val OP_PUSHDATA4 < opcode_val op →
  GetOp (opcode_val op :: rest) = Some (op, [], rest).
Proof.
  intros Hwf Hop. unfold GetOp, GetOp2. rewrite (proj2 (Z.leb_gt _ _)) by done. by rewrite opcode_of_val.
Qed.

(** The opcode that [operator<<(vector)] chooses for an item. *)
Definition push_op (b : list Z) : opcodetype :=
  if size b <? 0x4c then opcode_of (size b)
  else if size b <=? 0xff then OP_PUSHDATA1 else if size b <=? 0xffff then OP_PUSHDATA2 else OP_PUSHDATA4.

Lemma push_data_app script b : push_data script b = script ++ push_data [] b.
Proof. unfold push_data. by rewrite <- !app_assoc. Qed.

Lemma split_prefix n z r : 0 <= z < 256 ^ Z.of_nat n →
  (size (Radix.split 256 n z ++ r) <? Z.of_nat n) = false ∧
  Radix.eval 256 (take n (Radix.split 256 n z ++ r)) = z ∧ drop n (Radix.split 256 n z ++ r) = r.
Proof.
  intros Hz. pose proof (length_split 256 n z) as Hn. split_and!.
  - apply Z.ltb_ge. unfold size. rewrite length_app. lia.
  - rewrite take_app_le, take_ge, eval_split, Z.mod_small by lia. done.
  - by rewrite drop_app_le, drop_ge by lia.
Qed.

Lemma GetOp_push_data b rest : size b < 2 ^ 32 → GetOp (push_data [] b ++ rest) = Some (push_op b, b, rest).
Proof.
  intros Hb. pose proof (size_ge0 b). unfold push_data, push_op. rewrite app_nil_l.
  change (opcode_val OP_PUSHDATA1) with 0x4c.
  assert (∀ pre, pre = b ++ rest → size pre <? size b = false ∧ take (Z.to_nat (size b)) pre = b ∧
            drop (Z.to_nat (size b)) pre = rest) as Hcut.
  { intros ? ->. split; [apply Z.ltb_ge; rewrite size_app; pose proof (size_ge0 rest); lia|].
    unfold size. rewrite Nat2Z.id. by rewrite take_app_length, drop_app_length. }
  specialize (Hcut _ eq_refl) as (C1 & C2 & C3).
  destruct (Z.ltb_spec (size b) 0x4c); [|destruct (Z.leb_spec (size b) 0xff); [|destruct (Z.leb_spec (size b) 0xffff)]].
  - simpl. unfold GetOp, GetOp2. rewrite (proj2 (Z.leb_le _ _)) by (simpl; lia).
    rewrite (proj2 (Z.ltb_lt _ _)) by (simpl; lia). by rewrite C1, C2, C3.
  - simpl. unfold GetOp, GetOp2. simpl. by rewrite C1, C2, C3.
  - unfold GetOp, GetOp2. cbn -[Radix.split Radix.eval take drop].
    destruct (split_prefix 2 (size b) (b ++ rest)) as (E1 & E2 & E3); [simpl; lia|].
    change (Z.of_nat 2) with 2 in E1. rewrite <- app_assoc, E1, E2, E3, C1, C2, C3. done.
  - unfold GetOp, GetOp2. cbn -[Radix.split Radix.eval take drop].
    destruct (split_prefix 4 (size b) (b ++ rest)) as (E1 & E2 & E3); [simpl; lia|].
    change (Z.of_nat 4) with 4 in E1. rewrite <- app_assoc, E1, E2, E3, C1, C2, C3. done.
Qed.

(** ** The sequence of operations of a script

    [parse] is the reference against which the walks over a script are stated: the
    operations that can be read, and the bytes left where reading fails. *)
Fixpoint parse_loop (fuel : nat) (pc : list Z) : list (opcodetype * list Z) * list Z :=
  match fuel with
  | O => ([], pc)
  | S fuel' =>
      match GetOp pc with
      | None => ([], pc)
      | Some (op, d, pc) => let '(l, r) := parse_loop fuel' pc in ((op, d) :: l, r)
      end
  end.
Definition parse (s : list Z) : list (opcodetype * list Z) * list Z := parse_loop (length s) s.

Lemma GetOp_nil : GetOp [] = None.
Proof. done. Qed.

Lemma parse_loop_fuel f pc : (length pc <= f)%nat → parse_loop f pc = parse pc.
Proof.
  unfold parse. remember (length pc) as n eqn:En. assert (length pc <= n)%nat as Hn by lia. clear En.
  revert f pc Hn. induction n as [|n IH]; intros f pc Hn Hf.
  { destruct pc; [|simpl in Hn; lia]. by destruct f. }
  destruct f as [|f]; [lia|]. simpl. destruct (GetOp pc) as [[[op d] r]|] eqn:E; [|done].
  apply GetOp_suffix in E as (p & _ & _ & Hlt). by rewrite (IH f r) by lia.
Qed.

Lemma parse_unfold pc : parse pc =
  match GetOp pc with
  | None => ([], pc)
  | Some (op, d, pc) => let '(l, r) := parse pc in ((op, d) :: l, r)
  end.
Proof.
  rewrite <- (parse_loop_fuel (S (length pc))) by lia. simpl. destruct (GetOp pc) as [[[op d] r]|] eqn:E; [|done].
  apply GetOp_suffix in E as (p & _ & _ & Hlt). by rewrite parse_loop_fuel by lia.
Qed.

(** Induction on the operations of a script. *)
Lemma script_ind (P : list Z → Prop) :
  (∀ pc, (∀ op d pc', GetOp pc = Some (op, d, pc') → P pc') → P pc) → ∀ pc, P pc.
Proof.
  intros H pc. induction pc as [pc IH] using (induction_ltof1 _ (@length Z)). apply H.
  intros op d pc' E. apply IH. unfold ltof. apply GetOp_suffix in E as (p & _ & _ & ?). done.
Qed.

(** Signature operations of a sequence of operations after [last]. *)
Fixpoint sigops (fAccurate : bool) (last : opcodetype) (l : list (opcodetype * list Z)) : Z :=
  match l with
  | [] => 0
  | (op, _) :: l =>
      (if decide (op = OP_CHECKSIG ∨ op = OP_CHECKSIGVERIFY) then 1
       else if decide (op = OP_CHECKMULTISIG ∨ op = OP_CHECKMULTISIGVERIFY) then
         if (fAccurate && (0x51 <=? opcode_val last) && (opcode_val last <=? 0x60))%bool
         then opcode_val last - 0x50 else 20
       else 0) + sigops fAccurate op l
  end.

Lemma GetSigOpCount_loop_sigops f acc pc last n : (length pc <= f)%nat →
  GetSigOpCount_loop f acc pc last n = n + sigops acc last (parse pc).1.
Proof.
  revert f last n. induction pc as [pc IH] using script_ind. intros f last n Hf. rewrite parse_unfold.
  destruct f as [|f].
  { destruct pc; [|simpl in Hf; lia]. simpl. lia. }
  cbn [GetSigOpCount_loop]. destruct (GetOp pc) as [[[op d] r]|] eqn:E; [|simpl; lia].
  specialize (IH _ _ _ eq_refl). apply GetOp_suffix in E as (p & _ & _ & ?). cbv zeta.
  rewrite IH by lia. destruct (parse r) as [l r']. cbn [fst sigops].
  change (opcode_val OP_1) with 0x51. change (opcode_val OP_16) with 0x60.
  assert (((0x51 <=? opcode_val last) && (opcode_val last <=? 0x60))%bool = true →
    default 0 (DecodeOP_N last) = opcode_val last - 0x50) as HD.
  { intros Hr. unfold DecodeOP_N. destruct (decide (last = OP_0)) as [->|]; [done|].
    change (opcode_val OP_1) with 0x51. change (opcode_val OP_16) with 0x60. by rewrite Hr. }
  destruct (decide (op = OP_CHECKSIG ∨ op = OP_CHECKSIGVERIFY)) as [[-> | ->]|N1]; [lia..|].
  destruct (decide (op = OP_CHECKMULTISIG ∨ op = OP_CHECKMULTISIGVERIFY)) as [H2|N2].
  - rewrite <- !andb_assoc. destruct acc; simpl andb.
    + destruct (_ && _)%bool eqn:Hr; [rewrite HD by done|]; destruct H2 as [-> | ->]; unfold MAX_PUBKEYS_PER_MULTISIG; lia.
    + destruct H2 as [-> | ->]; unfold MAX_PUBKEYS_PER_MULTISIG; lia.
  - destruct op; try lia; exfalso; naive_solver.
Qed.

Definition push_opcode_b (od : opcodetype * list Z) : bool := opcode_val od.1 <=? opcode_val OP_16.
Definition complete (s : list Z) : bool := bool_decide ((parse s).2 = []).

(** One round of a walk: the fuel suffices, [parse] and the loop read the same operation. *)
Ltac walk_step IH pc f Hf :=
  destruct f as [|f]; [destruct pc; [done|simpl in Hf; lia]|];
  destruct pc as [|b pc]; [done|];
  cbn [IsPushOnly_loop HasCanonicalPushes_loop last_push];
  let E := fresh "E" in
  destruct (GetOp (b :: pc)) as [[[op d] r]|] eqn:E; [|done];
  specialize (IH _ _ _ eq_refl); apply GetOp_suffix in E as (? & _ & _ & ?).

Lemma IsPushOnly_loop_parse f pc : (length pc <= f)%nat →
  IsPushOnly_loop f pc = (complete pc && forallb push_opcode_b (parse pc).1)%bool.
Proof.
  revert f. induction pc as [pc IH] using script_ind. intros f Hf. unfold complete. rewrite parse_unfold.
  walk_step IH pc f Hf. rewrite IH by lia. unfold complete.
  destruct (parse r) as [l r']. cbn [fst snd forallb]. unfold push_opcode_b at 2. simpl fst.
  rewrite Z.leb_antisym. destruct (_ <? _), (bool_decide _); done.
Qed.

Lemma HasCanonicalPushes_loop_parse f pc : (length pc <= f)%nat →
  HasCanonicalPushes_loop f pc = (complete pc && forallb (λ od, canonical_push od.1 od.2) (parse pc).1)%bool.
Proof.
  revert f. induction pc as [pc IH] using script_ind. intros f Hf. unfold complete. rewrite parse_unfold.
  walk_step IH pc f Hf. rewrite IH by lia. unfold complete.
  destruct (parse r) as [l r']. cbn [fst snd forallb]. destruct (canonical_push op d), (bool_decide _); done.
Qed.

Lemma last_push_parse f pc d0 : (length pc <= f)%nat →
  last_push f pc d0 =
    if (complete pc && forallb push_opcode_b (parse pc).1)%bool
    then Some (List.last (map snd (parse pc).1) d0) else None.
Proof.
  revert f d0. induction pc as [pc IH] using script_ind. intros f d0 Hf. unfold complete. rewrite parse_unfold.
  walk_step IH pc f Hf. rewrite IH by lia. unfold complete.
  destruct (parse r) as [l r']. cbn [fst snd forallb map]. unfold push_opcode_b at 2. simpl fst.
  rewrite (Z.leb_antisym (opcode_val OP_16)). destruct (_ <? _), (bool_decide _), (forallb _ l); simpl; try done.
  f_equal. destruct (map snd l) as [|y m]; [done|]. clear. revert y. induction m as [|z m IH]; intros y; [done|]. apply (IH z).
Qed.

Lemma Find_loop_parse f pc op n : (length pc <= f)%nat →
  Find_loop f pc op n = n + size (filter (λ od, od.1 = op) (parse pc).1).
Proof.
  revert f n. induction pc as [pc IH] using script_ind. intros f n Hf. rewrite parse_unfold.
  destruct f as [|f]; [destruct pc; [simpl; unfold size; simpl; lia|simpl in Hf; lia]|].
  cbn [Find_loop]. destruct (GetOp pc) as [[[o d] r]|] eqn:E; [|unfold size; simpl; lia].
  specialize (IH _ _ _ eq_refl). apply GetOp_suffix in E as (? & _ & _ & ?). rewrite IH by lia.
  destruct (parse r) as [l r']. cbn [fst]. rewrite filter_cons. simpl.
  destruct (decide (o = op)); rewrite ?size_cons; lia.
Qed.

Lemma sigops_bounds last l : 0 <= sigops true last l <= sigops false last l.
Proof.
  revert last. induction l as [|[op d] l IH]; intros last; [simpl; lia|]. cbn [sigops].
  specialize (IH op). rewrite !andb_false_l. destruct (decide _); [lia|]. destruct (decide _); [|lia].
  destruct (Z.leb_spec 0x51 (opcode_val last)), (Z.leb_spec (opcode_val last) 0x60); simpl; lia.
Qed.

(** Every walk over a script is the corresponding function of the sequence of its
    operations ([parse]), so the loops terminate within the length of the script and stop
    where reading fails. Signature operations: the accurate count charges a multisig by the
    preceding [OP_N], never exceeds the inaccurate count and is never negative; a
    pay-to-script-hash output is charged by the last item pushed by a push-only
    [scriptSig]. *)
Theorem script_walks s scriptSig op :
  IsPushOnly s = (complete s && forallb push_opcode_b (parse s).1)%bool ∧
  HasCanonicalPushes s = (complete s && forallb (λ od, canonical_push od.1 od.2) (parse s).1)%bool ∧
  Find s op = size (filter (λ od, od.1 = op) (parse s).1) ∧
  (∀ fAccurate, GetSigOpCount s fAccurate = sigops fAccurate OP_INVALIDOPCODE (parse s).1) ∧
  0 <= GetSigOpCount s true <= GetSigOpCount s false ∧
  (GetSigOpCount_P2SH s scriptSig =
     if negb (IsPayToScriptHash s) then GetSigOpCount s true
     else if IsPushOnly scriptSig then GetSigOpCount (List.last (map snd (parse scriptSig).1) []) true else 0).
Proof.
  assert (∀ acc, GetSigOpCount s acc = sigops acc OP_INVALIDOPCODE (parse s).1) as Hs.
  { intros acc. unfold GetSigOpCount. rewrite GetSigOpCount_loop_sigops by done. lia. }
  split_and!.
  - by apply IsPushOnly_loop_parse.
  - by apply HasCanonicalPushes_loop_parse.
  - unfold Find. rewrite Find_loop_parse by done. lia.
  - done.
  - rewrite Hs. apply sigops_bounds.
  - rewrite !Hs. apply sigops_bounds.
  - unfold GetSigOpCount_P2SH, IsPushOnly. destruct (IsPayToScriptHash s); [|done]. simpl.
    rewrite last_push_parse, IsPushOnly_loop_parse by done. by destruct (_ && _)%bool.
Qed.

(** ** Building and reading back *)

(** What the three [operator<<] append. *)
Inductive item :=
| IOp (op : opcodetype)
| IData (b : list Z)
| IInt (n : Z).

Definition append_item (script : list Z) (i : item) : list Z :=
  match i with
  | IOp op => push_opcode script op
  | IData b => push_data script b
  | IInt n => push_int64 script n
  end.

Definition wf_item (i : item) : Prop :=
  match i with
  | IOp op => wf_opcode op ∧ opcode_val OP_PUSHDATA4 < opcode_val op
  | IData b => size b < 2 ^ 32
  | IInt n => True
  end.

(** The operation a reader finds. *)
Definition item_op (i : item) : opcodetype * list Z :=
  match i with
  | IOp op => (op, [])
  | IData b => (push_op b, b)
  | IInt n => if ((n =? -1) || ((1 <=? n) && (n <=? 16)))%bool then (opcode_of (n + 0x50), [])
              else (push_op (serialize n), serialize n)
  end.

Lemma serialize_size v : size (serialize v) <= 9.
Proof.
  unfold serialize. destruct (v =? 0); [unfold size; simpl; lia|].
  set (a := u64 _). assert (0 <= a < 2 ^ 64) as Ha by apply u64_range.
  destruct (serialize_loop_eval 8 a) as (_ & _ & L & _); [change (256 ^ Z.of_nat 8) with (2 ^ 64); lia|].
  set (r := serialize_loop 8 a) in *. clearbody r. unfold size.
  destruct (negb _); [rewrite length_app; simpl; lia|].
  destruct (v <? 0); [rewrite length_insert|]; lia.
Qed.

Lemma append_item_app script i : append_item script i = script ++ append_item [] i.
Proof.
  destruct i as [op|b|n]; simpl; [done|apply push_data_app|].
  unfold push_int64. destruct (_ || _)%bool; [done|]. destruct (_ =? _); [done|apply push_data_app].
Qed.

Lemma GetOp_item i rest : wf_item i →
  GetOp (append_item [] i ++ rest) = Some ((item_op i).1, (item_op i).2, rest).
Proof.
  destruct i as [op|b|n]; simpl append_item.
  - intros [H1 H2]. by apply GetOp_op.
  - apply GetOp_push_data.
  - intros _. cbn [item_op]. unfold push_int64. destruct ((n =? -1) || _)%bool eqn:E.
    + simpl. unfold GetOp, GetOp2. rewrite (proj2 (Z.leb_gt _ _)); [by replace (n + (81 - 1)) with (n + 80) by lia|].
      simpl. apply orb_true_iff in E. rewrite andb_true_iff in E. breflect. lia.
    + pose proof (serialize_size n). destruct (Z.eqb_spec n 0) as [->|]; [by apply (GetOp_push_data [])|]. apply (GetOp_push_data (serialize n)). lia.
Qed.

Lemma build_app script items :
  foldl append_item script items = script ++ foldl append_item [] items.
Proof.
  revert script. induction items as [|i items IH]; intros script; simpl; [by rewrite app_nil_r|].
  rewrite IH, append_item_app, (IH (append_item [] i)). by rewrite app_assoc.
Qed.

Lemma build_cons i items :
  foldl append_item [] (i :: items) = append_item [] i ++ foldl append_item [] items.
Proof. simpl. apply build_app. Qed.

(** A minimal string of [m] bytes denotes a number that needs [m] bytes. *)
Lemma minimal_lower vch : Radix.digits 256 vch → minimal vch → vch ≠ [] →
  2 ^ (8 * (size vch - 1)) <= 2 * Z.abs (vch_value vch).
Proof.
  intros Hd [->|(l & x & -> & Hm)] _; [done|]. apply Forall_app in Hd as [Dl Dx%Forall_inv].
  rewrite vch_value_snoc by done. pose proof (eval_bound 256 ltac:(lia) l Dl) as Bl.
  unfold size. rewrite length_app. simpl. replace (Z.of_nat (length l + 1) - 1) with (Z.of_nat (length l)) by lia.
  rewrite <- pow256 by lia. set (P := 256 ^ Z.of_nat (length l)) in *.
  assert (0 <= x mod 128 < 128) by (apply Z.mod_pos_bound; lia).
  assert (P <= 2 * (Radix.eval 256 l + P * (x mod 128))); [|destruct (128 <=? x); lia].
  destruct Hm as [Hx|[Hl Hlast]]; [nia|]. destruct (exists_last Hl) as (r & b & ->).
  rewrite last_app_one in Hlast. apply Forall_app in Dl as [Dr _].
  pose proof (eval_bound 256 ltac:(lia) r Dr). subst P. rewrite length_app in *. cbn [length] in *.
  rewrite Nat.add_1_r, pow_radix_S in *. rewrite eval_app. cbn [Radix.eval].
  pose proof (pow_radix_pos 256 ltac:(lia) (length r)). set (Q := 256 ^ _) in *.
  assert (128 * Q <= Q * (b + 256 * 0)) by nia. nia.
Qed.

(** Operands of [k] bytes hold every number below [2^(8k-1)]. *)
Lemma serialize_fits v k : 0 < k <= 8 → Z.abs v < 2 ^ (8 * k - 1) → size (serialize v) <= k.
Proof.
  intros Hk Hv. assert (2 ^ (8 * k - 1) <= 2 ^ 63) by (apply Z.pow_le_mono_r; lia).
  destruct (serialize_spec v ltac:(lia)) as (E & D & M).
  destruct (decide (serialize v = [])) as [->|Hne]; [unfold size; simpl; lia|].
  pose proof (minimal_lower _ D M Hne) as Hlow. rewrite E in Hlow.
  destruct (Z.le_gt_cases (size (serialize v)) k) as [?|Hgt]; [done|].
  assert (2 ^ (8 * k) <= 2 ^ (8 * (size (serialize v) - 1))) by (apply Z.pow_le_mono_r; lia).
  assert (2 ^ (8 * k) = 2 ^ (8 * k - 1) * 2 ^ 1) by (rewrite <- Z.pow_add_r by lia; f_equal; lia). lia.
Qed.

Lemma CScriptNum_serialize v k (m : bool) : 0 < k <= 7 → Z.abs v < 2 ^ (8 * k - 1) →
  CScriptNum (serialize v) m k = inr v.
Proof.
  intros Hk Hv. pose proof (serialize_fits v k ltac:(lia) Hv) as Hs.
  assert (2 ^ (8 * k - 1) <= 2 ^ 63) by (apply Z.pow_le_mono_r; lia).
  destruct (serialize_spec v ltac:(lia)) as (E & D & M). apply CScriptNum_minimal in M; [|done].
  unfold CScriptNum. rewrite (proj2 (Z.ltb_ge _ _)) by done. destruct m; [rewrite andb_true_l, M|];
    by rewrite set_vch_value, E by (done || lia).
Qed.

Lemma parse_build items : Forall wf_item items → parse (foldl append_item [] items) = (map item_op items, []).
Proof.
  induction 1 as [|i items Hi _ IH]; [done|]. rewrite build_cons, parse_unfold, GetOp_item by done.
  rewrite IH. simpl. by destruct (item_op i).
Qed.

(** A script assembled with the stream operators is read back, in full, as the
    operations that were appended: opcodes, data items of any length below [2^32] (all four
    push forms) and integers; an integer pushed as data is a number operand (four bytes,
    minimal) that decodes to it. *)
Theorem build_parse items n : Forall wf_item items → Z.abs n < 2 ^ 31 →
  parse (foldl append_item [] items) = (map item_op items, []) ∧
  ((item_op (IInt n)).2 = [] ∧ -1 <= n <= 16 ∨ CScriptNum (item_op (IInt n)).2 true nDefaultMaxNumSize = inr n).
Proof.
  intros Hwf Hn. split.
  - by apply parse_build.
  - simpl. destruct ((n =? -1) || _)%bool eqn:E.
    + left. split; [done|]. apply orb_true_iff in E. rewrite andb_true_iff in E. breflect. lia.
    + right. simpl. apply CScriptNum_serialize; [done|]. exact Hn.
Qed.

Lemma build_parse_witness :
  parse (foldl append_item [] [IData [1; 2; 3]; IInt 1000; IInt 5; IOp OP_CHECKSIG]) =
    ([(OP_OTHER 3, [1; 2; 3]); (OP_OTHER 2, [0xe8; 3]); (OP_5, []); (OP_CHECKSIG, [])], []).
Proof.
  apply (build_parse [IData [1; 2; 3]; IInt 1000; IInt 5; IOp OP_CHECKSIG] 1000);
    [repeat constructor|reflexivity].
Defined.

(** ** [FindAndDelete] *)

(** The reference: at each operation boundary, drop a copy of [b] or copy the operation. *)
Fixpoint delete_ref (fuel : nat) (b pc : list Z) : list Z * Z :=
  match fuel with
  | O => (pc, 0)
  | S fuel' =>
      if bool_decide (take (length b) pc = b) then
        let '(r, n) := delete_ref fuel' b (drop (length b) pc) in (r, n + 1)
      else
        match GetOp pc with
        | Some (_, _, pc') =>
            let '(r, n) := delete_ref fuel' b pc' in (take (length pc - length pc') pc ++ r, n)
        | None => (pc, 0)
        end
  end.

Lemma match_shorter {b pc : list Z} : b ≠ [] → take (length b) pc = b →
  pc = b ++ drop (length b) pc ∧ (length (drop (length b) pc) < length pc)%nat.
Proof.
  intros Hb E. split; [rewrite <- E at 1; by rewrite take_drop|].
  assert (length (take (length b) pc) = length b) as L by congruence.
  rewrite length_take in L. rewrite length_drop.
  assert (length b ≠ 0%nat) by (by destruct b). lia.
Qed.

Lemma delete_ref_fuel b : b ≠ [] → ∀ pc f g, (length pc < f)%nat → (length pc < g)%nat →
  delete_ref f b pc = delete_ref g b pc.
Proof.
  intros Hb pc. induction pc as [pc IH] using (induction_ltof1 _ (@length Z)).
  intros [|f] [|g] Hf Hg; try lia. simpl. case_bool_decide as E.
  - destruct (match_shorter Hb E) as [_ L]. by rewrite (IH _ L f g) by lia.
  - destruct (GetOp pc) as [[[o d] pc']|] eqn:G; [|done].
    apply GetOp_suffix in G as (? & _ & _ & L). by rewrite (IH _ L f g) by lia.
Qed.

Lemma skip_matches_ref b : b ≠ [] → ∀ pc f n, (length pc <= f)%nat →
  ∃ pc' k, skip_matches f b pc n = (pc', n + k) ∧ (length pc' <= length pc)%nat ∧
    take (length b) pc' ≠ b ∧
    delete_ref (S (length pc)) b pc =
      ((delete_ref (S (length pc')) b pc').1, (delete_ref (S (length pc')) b pc').2 + k).
Proof.
  intros Hb pc. induction pc as [pc IH] using (induction_ltof1 _ (@length Z)). intros f n Hf.
  destruct (decide (take (length b) pc = b)) as [E|E].
  - destruct (match_shorter Hb E) as [_ L]. destruct f as [|f]; [lia|].
    destruct (IH _ L f (n + 1)) as (pc' & k & S1 & S2 & S3 & S4); [lia|].
    exists pc', (k + 1). split_and!; [|lia|done|].
    + simpl. rewrite bool_decide_true, S1 by done. f_equal. lia.
    + cbn [delete_ref] in *. rewrite bool_decide_true by done.
      rewrite (delete_ref_fuel b Hb _ _ (S (length (drop (length b) pc)))) by lia.
      cbn [delete_ref] in *. rewrite S4. cbn [fst snd]. f_equal. lia.
  - exists pc, 0. split_and!; [|lia|done|by rewrite Z.add_0_r; destruct (delete_ref _ b pc)].
    rewrite Z.add_0_r. destruct f; [done|]. simpl. by rewrite bool_decide_false.
Qed.

Lemma FindAndDelete_loop_ref b : b ≠ [] → ∀ pc f result pc2 n, (length pc < f)%nat →
  let '(R, P, N) := FindAndDelete_loop f b result pc2 pc n in
  R ++ P = result ++ take (length pc2 - length pc) pc2 ++ (delete_ref (S (length pc)) b pc).1 ∧
  N = n + (delete_ref (S (length pc)) b pc).2.
Proof.
  intros Hb pc. induction pc as [pc IH] using (induction_ltof1 _ (@length Z)). intros f result pc2 n Hf.
  destruct f as [|f]; [lia|]. cbn [FindAndDelete_loop].
  destruct (skip_matches_ref b Hb pc (length pc) n ltac:(done)) as (pc' & k & -> & L & Hne & ->). cbn [fst snd].
  cbn [delete_ref]. rewrite bool_decide_false by done. destruct (GetOp pc') as [[[o d] pc3]|] eqn:G.
  - apply GetOp_suffix in G as (? & _ & _ & L3).
    specialize (IH pc3 ltac:(unfold ltof; lia) f (result ++ take (length pc2 - length pc) pc2) pc' (n + k) ltac:(lia)).
    destruct (FindAndDelete_loop _ _ _ _ _ _) as [[R P] N]. destruct IH as [-> ->].
    rewrite (delete_ref_fuel b Hb _ (length pc') (S (length pc3))) by lia.
    destruct (delete_ref (S (length pc3)) b pc3) as [r m]. simpl. rewrite <- app_assoc. split; [done|lia].
  - simpl. rewrite <- app_assoc. split; [done|lia].
Qed.

Lemma delete_ref_length b : b ≠ [] → ∀ pc f,
  0 <= (delete_ref f b pc).2 ∧ size (delete_ref f b pc).1 + (delete_ref f b pc).2 * size b = size pc ∧
  ((delete_ref f b pc).2 = 0 → (delete_ref f b pc).1 = pc).
Proof.
  intros Hb pc f. revert pc. induction f as [|f IH]; intros pc; [simpl; split_and!; [lia|lia|done]|].
  simpl. case_bool_decide as E.
  - destruct (match_shorter Hb E) as [Epc _]. specialize (IH (drop (length b) pc)).
    destruct (delete_ref f b (drop (length b) pc)) as [r n]. simpl in *. rewrite Epc, size_app.
    split_and!; lia.
  - destruct (GetOp pc) as [[[o d] pc']|] eqn:G; [|simpl; split_and!; [lia|lia|done]].
    apply GetOp_suffix in G as (p & _ & -> & _). specialize (IH pc').
    destruct (delete_ref f b pc') as [r n]. simpl in *. rewrite length_app, Nat.add_sub, take_app_length.
    rewrite !size_app. split_and!; [lia..|]. intros H0. by rewrite (proj2 (proj2 IH) H0).
Qed.

Lemma FindAndDelete_ref script b : b ≠ [] →
  FindAndDelete script b = delete_ref (S (length script)) b script.
Proof.
  intros Hb. unfold FindAndDelete. destruct b as [|x b']; [done|]. set (b := x :: b') in *.
  pose proof (FindAndDelete_loop_ref b Hb script (S (length script)) [] script 0 ltac:(lia)) as H.
  destruct (FindAndDelete_loop _ _ _ _ _ _) as [[R P] N]. destruct H as [E ->].
  rewrite Nat.sub_diag, take_0, !app_nil_l in E. rewrite Z.add_0_l.
  pose proof (delete_ref_length b Hb script (S (length script))) as (H0 & _ & Hz).
  destruct (delete_ref (S (length script)) b script) as [r n]. cbn [fst snd] in *.
  destruct (Z.ltb_spec 0 n); [by rewrite E|]. assert (n = 0) as -> by lia. by rewrite Hz.
Qed.

Lemma push_data_ne sig : push_data [] sig ≠ [].
Proof. unfold push_data. rewrite app_nil_l. by repeat case_match. Qed.

Lemma delete_ref_build sig items f : size sig < 2 ^ 32 → Forall wf_item items →
  (length (foldl append_item [] items) < f)%nat →
  delete_ref f (push_data [] sig) (foldl append_item [] items) =
    (foldl append_item [] (filter (λ i, append_item [] i ≠ push_data [] sig) items),
     size items - size (filter (λ i, append_item [] i ≠ push_data [] sig) items)).
Proof.
  intros Hsig Hwf. set (b := push_data [] sig).
  assert (b ≠ []) as Hb by apply push_data_ne.
  revert f. induction Hwf as [|i items Hi _ IH]; intros f Hf.
  { destruct f; [done|]. simpl. rewrite take_nil. by rewrite bool_decide_false by (intros E; by rewrite <- E in Hb). }
  rewrite build_cons in *. set (c := append_item [] i) in *. set (rest := foldl append_item [] items) in *.
  pose proof (GetOp_item i rest Hi) as Gi. fold c in Gi. destruct f as [|f]; [lia|]. cbn [delete_ref].
  pose proof (GetOp_suffix _ _ _ _ Gi) as (_ & _ & _ & L). rewrite length_app in *.
  rewrite filter_cons. fold c. case_bool_decide as E.
  - (* the item is a copy: both start with the same operation *)
    destruct (match_shorter Hb E) as [Epc _].
    assert (c = b ∧ drop (length b) (c ++ rest) = rest) as [Ec ->].
    { rewrite Epc in Gi. unfold b in Gi at 1. rewrite GetOp_push_data in Gi by done.
      injection Gi as _ _ Er. rewrite Er in Epc. split; [by apply app_inv_tail in Epc|done]. }
    rewrite IH by lia. rewrite decide_False by (by intros []). rewrite size_cons. f_equal. lia.
  - rewrite Gi, IH by lia. rewrite decide_True.
    + rewrite build_cons. fold c. rewrite Nat.add_sub, take_app_length, !size_cons. f_equal. lia.
    + intros Ec. rewrite Ec in E. by rewrite take_app_length in E.
Qed.

(** [FindAndDelete] is the reference that, at every operation boundary, drops one copy
    of the pattern or copies one operation, so its loops terminate; it removes [nFound]
    copies and nothing else. On a script assembled with the stream operators, deleting the
    push of a signature (as the signature check does) removes exactly the operations that
    push that signature. *)
Theorem FindAndDelete_correct script b sig items : b ≠ [] → size sig < 2 ^ 32 → Forall wf_item items →
  FindAndDelete script b = delete_ref (S (length script)) b script ∧
  size (FindAndDelete script b).1 = size script - (FindAndDelete script b).2 * size b ∧
  ((FindAndDelete script b).2 = 0 → (FindAndDelete script b).1 = script) ∧
  (FindAndDelete (foldl append_item [] items) (push_data [] sig)).1 =
    foldl append_item [] (filter (λ i, append_item [] i ≠ push_data [] sig) items).
Proof.
  intros Hb Hsig Hwf. pose proof (delete_ref_length b Hb script (S (length script))) as (H1 & H2 & H3).
  rewrite (FindAndDelete_ref script b Hb). split_and!; [done|lia|done|].
  rewrite FindAndDelete_ref, delete_ref_build by (done || lia || apply push_data_ne). done.
Qed.

Lemma FindAndDelete_correct_witness :
  (FindAndDelete (foldl append_item [] [IData [7; 7]; IOp OP_DUP; IData [7; 7]; IInt 7]) (push_data [] [7; 7])).1 =
    foldl append_item [] [IOp OP_DUP; IInt 7].
Proof.
  destruct (FindAndDelete_correct [] [1] [7; 7] [IData [7; 7]; IOp OP_DUP; IData [7; 7]; IInt 7]) as (_ & _ & _ & H);
    [done|reflexivity|repeat constructor|]. exact H.
Defined.

(** ** Script forms *)

Lemma list_len_inv {A} (l : list A) n : size l = Z.of_nat n → length l = n.
Proof. unfold size. lia. Qed.

Lemma list_snoc_inv (l : list Z) n : length l = S n → ∃ l' x, l = l' ++ [x] ∧ length l' = n ∧ x = l.[n].
Proof.
  intros H. destruct (exists_last (l := l)) as (l' & x & ->); [by intros ->|].
  rewrite length_app in H. simpl in H. assert (length l' = n) as <- by lia.
  exists l', x. split_and!; [done..|]. unfold get. by rewrite list_lookup_middle.
Qed.

Lemma push_data_short b : size b <? 0x4c = true → push_data [] b = size b :: b.
Proof. intros H. unfold push_data. change (opcode_val OP_PUSHDATA1) with 0x4c. by rewrite H. Qed.

Lemma get_app_r (l k : list Z) i : (l ++ k).[length l + i] = k.[i].
Proof. unfold get. by rewrite lookup_app_r, Nat.add_comm, Nat.add_sub by lia. Qed.

Lemma get_app_at (l k : list Z) n i : length l = n → (l ++ k).[n + i] = k.[i].
Proof. intros <-. apply get_app_r. Qed.

Lemma IsPayToScriptHash_form s :
  IsPayToScriptHash s = true ↔
  ∃ h, size h = 20 ∧ s = foldl append_item [] [IOp OP_HASH160; IData h; IOp OP_EQUAL].
Proof.
  unfold IsPayToScriptHash. rewrite !andb_true_iff, !Z.eqb_eq. split.
  - intros (((Hs & H0) & H1) & H2). apply (list_len_inv _ 23) in Hs.
    destruct (list_snoc_inv s 22 Hs) as (l & x & -> & Hl & Hx). rewrite H2 in Hx. subst x.
    do 2 (destruct l as [|? l]; [done|]). cbn in H0, H1. subst. exists l.
    assert (size l = 20) as Hh by (simpl in Hl; unfold size; lia). split; [done|].
    cbn -[push_data]. unfold push_opcode. rewrite push_data_app, push_data_short, Hh by (by rewrite Hh). done.
  - intros (h & Hh & ->). cbn -[push_data size get]. unfold push_opcode.
    rewrite push_data_app, push_data_short, Hh by (by rewrite Hh). cbn [app opcode_val].
    rewrite !size_cons, size_app, Hh. split_and!; [done..|].
    apply (get_app_at h [0x87] 20 0). by apply list_len_inv.
Qed.

Lemma IsPayToPublicKeyHash_form s :
  IsPayToPublicKeyHash s = true ↔
  ∃ h, size h = 20 ∧ s = foldl append_item [] [IOp OP_DUP; IOp OP_HASH160; IData h; IOp OP_EQUALVERIFY; IOp OP_CHECKSIG].
Proof.
  unfold IsPayToPublicKeyHash. rewrite !andb_true_iff, !Z.eqb_eq. split.
  - intros (((((Hs & H0) & H1) & H2) & H3) & H4). apply (list_len_inv _ 25) in Hs.
    destruct (list_snoc_inv s 24 Hs) as (l' & x & -> & Hl' & Hx). rewrite H4 in Hx. subst x.
    destruct (list_snoc_inv l' 23 Hl') as (l & y & -> & Hl & Hy).
    assert (y = opcode_val OP_EQUALVERIFY) as ->.
    { rewrite <- H3. rewrite Hy at 1. unfold get. rewrite (lookup_app_l (l ++ [y])) by lia. done. }
    do 3 (destruct l as [|? l]; [done|]). cbn in H0, H1, H2. subst. exists l.
    assert (size l = 20) as Hh by (simpl in Hl; unfold size; lia). split; [done|].
    cbn -[push_data]. unfold push_opcode. rewrite push_data_app, push_data_short, Hh by (by rewrite Hh). done.
  - intros (h & Hh & ->). cbn -[push_data size get]. unfold push_opcode.
    rewrite push_data_app, push_data_short, Hh by (by rewrite Hh). cbn [app opcode_val].
    rewrite !size_cons, !size_app, Hh, <- app_assoc. split_and!; [done..| |].
    + apply (get_app_at h [0x88; 0xac] 20 0). by apply list_len_inv.
    + apply (get_app_at h [0x88; 0xac] 20 1). by apply list_len_inv.
Qed.

Lemma DecodeOP_N_of a v :
  DecodeOP_N (opcode_of a) = Some v ↔ a = 0 ∧ v = 0 ∨ 0x51 <= a <= 0x60 ∧ v = a - 0x50.
Proof.
  unfold DecodeOP_N. rewrite opcode_val_of. change (opcode_val OP_1) with 0x51. change (opcode_val OP_16) with 0x60.
  destruct (decide (opcode_of a = OP_0)) as [E|E].
  - apply (f_equal opcode_val) in E. rewrite opcode_val_of in E. change (opcode_val OP_0) with 0 in E. subst.
    split; [intros [= <-]; by left|]. intros [[_ ->]|[? _]]; [done|lia].
  - assert (a ≠ 0) by (intros ->; done).
    destruct (Z.leb_spec 0x51 a), (Z.leb_spec a 0x60); simpl; split; try done; try (intros [[? ?]|[? ?]]; lia).
    + intros [= <-]. right. lia.
    + intros ?. f_equal. lia.
Qed.

Lemma EncodeOP_N_spec v op :
  EncodeOP_N v = Some op ↔ 0 <= v <= 16 ∧ op = opcode_of (if v =? 0 then 0 else v + 0x50).
Proof.
  unfold EncodeOP_N. change (opcode_val OP_1) with 0x51.
  destruct (Z.leb_spec 0 v), (Z.leb_spec v 16); simpl; split; try done; try (intros [? _]; lia).
  - intros [= <-]. split; [lia|]. destruct (v =? 0); [done|]. f_equal. lia.
  - intros [_ ->]. destruct (v =? 0); [done|]. do 2 f_equal. lia.
Qed.

Lemma IsWitnessProgram_cons a b p v q :
  IsWitnessProgram (a :: b :: p) = Some (v, q) ↔
  2 <= size p <= 40 ∧ b = size p ∧ q = p ∧ DecodeOP_N (opcode_of a) = Some v.
Proof.
  unfold IsWitnessProgram. rewrite !size_cons, DecodeOP_N_of. pose proof (size_ge0 p).
  change ((a :: b :: p).[0]) with a. change ((a :: b :: p).[1]) with b. change (drop 2 (a :: b :: p)) with p.
  change (opcode_val OP_0) with 0. change (opcode_val OP_1) with 0x51. change (opcode_val OP_16) with 0x60.
  pose proof (DecodeOP_N_of a) as HD.
  destruct (Z.ltb_spec (1 + (1 + size p)) 4), (Z.ltb_spec 42 (1 + (1 + size p))); simpl; try (split; [done|lia]).
  destruct (Z.eqb_spec a 0), (Z.ltb_spec a 0x51), (Z.ltb_spec 0x60 a); simpl; try lia; try (split; [done|lia]);
    (destruct (Z.eqb_spec (b + 2) (1 + (1 + size p))); [|split; [done|lia]]);
    destruct (DecodeOP_N (opcode_of a)) as [w|]; specialize (HD v);
    (split; [intros [= <- <-]; naive_solver lia|intros (? & -> & -> & Hv); apply HD in Hv; by simplify_eq]).
Qed.

Lemma IsWitnessProgram_form s v p :
  IsWitnessProgram s = Some (v, p) ↔
  2 <= size p <= 40 ∧ ∃ op, EncodeOP_N v = Some op ∧ s = foldl append_item [] [IOp op; IData p].
Proof.
  assert (∀ op, size p <= 40 → foldl append_item [] [IOp op; IData p] = opcode_val op :: size p :: p) as Hb.
  { intros op Hp. cbn -[push_data]. by rewrite push_data_app, push_data_short by (apply Z.ltb_lt; lia). }
  split.
  - destruct s as [|a [|b s]]; [by lazy|by lazy|]. rewrite IsWitnessProgram_cons, DecodeOP_N_of.
    intros (Hs & -> & -> & Hv). split; [done|]. exists (opcode_of a). rewrite EncodeOP_N_spec, Hb, opcode_val_of by lia.
    split; [|done]. destruct (Z.eqb_spec v 0); (split; [lia|]); f_equal; lia.
  - intros (Hp & op & Hop & ->). apply EncodeOP_N_spec in Hop as [Hv ->].
    rewrite Hb, IsWitnessProgram_cons, opcode_val_of, DecodeOP_N_of by lia.
    split_and!; [lia..|done|done|]. destruct (Z.eqb_spec v 0); lia.
Qed.

(** The byte tests that recognise output forms accept exactly the scripts assembled
    from the corresponding template: pay-to-public-key-hash and pay-to-script-hash with a
    20-byte hash, witness programs of version 0 to 16 with 2 to 40 bytes, and
    pay-to-witness-script-hash as version 0 with 32 bytes. *)
Theorem script_forms s :
  (IsPayToPublicKeyHash s = true ↔ ∃ h, size h = 20 ∧
     s = foldl append_item [] [IOp OP_DUP; IOp OP_HASH160; IData h; IOp OP_EQUALVERIFY; IOp OP_CHECKSIG]) ∧
  (IsPayToScriptHash s = true ↔ ∃ h, size h = 20 ∧
     s = foldl append_item [] [IOp OP_HASH160; IData h; IOp OP_EQUAL]) ∧
  (∀ v p, IsWitnessProgram s = Some (v, p) ↔ 2 <= size p <= 40 ∧
     ∃ op, EncodeOP_N v = Some op ∧ s = foldl append_item [] [IOp op; IData p]) ∧
  (IsPayToWitnessScriptHash s = true ↔ ∃ p, size p = 32 ∧ IsWitnessProgram s = Some (0, p)).
Proof.
  split_and!; [apply IsPayToPublicKeyHash_form|apply IsPayToScriptHash_form|intros; apply IsWitnessProgram_form|].
  unfold IsPayToWitnessScriptHash. destruct s as [|a [|b s]]; [split; [done|intros (p & _ & H); by lazy in H]..|].
  rewrite !andb_true_iff, !Z.eqb_eq, !size_cons. change ((a :: b :: s).[0]) with a. change ((a :: b :: s).[1]) with b.
  change (opcode_val OP_0) with 0. split.
  - intros ((Hs & ->) & ->). exists s. rewrite IsWitnessProgram_cons, DecodeOP_N_of. lia || (split_and!; lia || done).
  - intros (p & Hp & H). rewrite IsWitnessProgram_cons, DecodeOP_N_of in H. destruct H as (_ & -> & -> & H). lia.
Qed.
End Script.
