(* ===== verification/Uint256.v ===== *)
(** * Uint256: opaque blobs ([uint256.{h,cpp}])

    A [base_blob] is its array of bytes, least significant byte first when it is read as a
    number.  Characters are their codes; a C string is the list of the characters before
    its terminator. *)
From S2P Require Import Prelude.

Module Uint256.

(** ** Blobs *)
Definition WIDTH : nat := 32.
Definition blob_null (width : nat) : list Z := replicate width 0.

(** [IsNull]: the loop that looks for a byte that is not zero. *)
Fixpoint IsNull (data : list Z) : bool :=
  match data with
  | [] => true
  | b :: data => if negb (b =? 0) then false else IsNull data
  end.

(** [memcmp], by the sign of its result. *)
Fixpoint memcmp (a b : list Z) : Z :=
  match a, b with
  | x :: a, y :: b => if x <? y then -1 else if y <? x then 1 else memcmp a b
  | _, _ => 0
  end.
Definition Compare (a b : list Z) : Z := memcmp a b.
Definition blob_eq (a b : list Z) : bool := Compare a b =? 0.
Definition blob_lt (a b : list Z) : bool := Compare a b <? 0.

(** [GetUint64(pos)] and [GetCheapHash] *)
Definition GetUint64 (data : list Z) (pos : nat) : Z :=
  let ptr i := data.[pos * 8 + i] in
  Z.lor (Z.lor (Z.lor (Z.lor (Z.lor (Z.lor (Z.lor (ptr 0%nat) (Z.shiftl (ptr 1%nat) 8)) (Z.shiftl (ptr 2%nat) 16))
    (Z.shiftl (ptr 3%nat) 24)) (Z.shiftl (ptr 4%nat) 32)) (Z.shiftl (ptr 5%nat) 40)) (Z.shiftl (ptr 6%nat) 48))
    (Z.shiftl (ptr 7%nat) 56).
Definition GetCheapHash (data : list Z) : Z := Radix.eval 256 (take 8 data).

(** ** Hexadecimal text *)

(** [HexDigit]: the table [p_util_hexdigit]. *)
Definition HexDigit (c : Z) : Z :=
  if ((48 <=? c) && (c <=? 57))%bool then c - 48
  else if ((65 <=? c) && (c <=? 70))%bool then c - 65 + 0xa
  else if ((97 <=? c) && (c <=? 102))%bool then c - 97 + 0xa
  else -1.

(** [isspace] and [tolower] in the C locale. *)
Definition isspace (c : Z) : bool := ((9 <=? c) && (c <=? 13)) || (c =? 32).
Definition tolower (c : Z) : Z := if ((65 <=? c) && (c <=? 90))%bool then c + 32 else c.

(** One character of [sprintf("%02x")]. *)
Definition hex_char (d : Z) : Z := if d <? 10 then d + 48 else d - 10 + 97.

Definition GetHex (data : list Z) : list Z :=
  concat (map (λ b, [hex_char (b / 16); hex_char (b mod 16)]) (rev data)).

Fixpoint skip_spaces (psz : list Z) : list Z :=
  match psz with
  | c :: rest => if isspace c then skip_spaces rest else psz
  | [] => []
  end.

(** The characters from [pbegin] up to the first that is not a digit. *)
Fixpoint hex_run (psz : list Z) : list Z :=
  match psz with
  | c :: rest => if negb (HexDigit c =? -1) then c :: hex_run rest else []
  | [] => []
  end.

(** The final loop, which consumes the run from its end; [w] bytes are left in [data]. *)
Fixpoint hex_fill (w : nat) (run : list Z) : list Z :=
  match w, run with
  | O, _ => []
  | S w', [] => replicate (S w') 0
  | S w', [c] => HexDigit c :: replicate w' 0
  | S w', c :: c' :: run => Z.lor (HexDigit c) (u8 (Z.shiftl (HexDigit c') 4)) :: hex_fill w' run
  end.

Definition skip_0x (psz : list Z) : list Z :=
  match psz with
  | c0 :: c1 :: rest => if ((c0 =? 48) && (tolower c1 =? 120))%bool then rest else psz
  | _ => psz
  end.

Definition SetHex (width : nat) (psz : list Z) : list Z :=
  hex_fill width (rev (hex_run (skip_0x (skip_spaces psz)))).

(** ** Order *)
Lemma memcmp_refl a : memcmp a a = 0.
Proof. induction a as [|x a IH]; [done|]. simpl. by rewrite Z.ltb_irrefl. Qed.

Lemma memcmp_eq a : ∀ b, length a = length b → memcmp a b = 0 ↔ a = b.
Proof.
  induction a as [|x a IH]; intros [|y b] Hl; simpl in *; try done.
  destruct (Z.ltb_spec x y); [naive_solver lia|]. destruct (Z.ltb_spec y x); [naive_solver lia|].
  rewrite IH by lia. assert (x = y) as -> by lia. naive_solver.
Qed.

Lemma memcmp_swap a : ∀ b, memcmp b a = - memcmp a b.
Proof.
  induction a as [|x a IH]; intros [|y b]; simpl; try done.
  destruct (Z.ltb_spec x y), (Z.ltb_spec y x); simpl; try lia. apply IH.
Qed.

Lemma memcmp_trans a : ∀ b c, length a = length b → length b = length c →
  memcmp a b < 0 → memcmp b c < 0 → memcmp a c < 0.
Proof.
  induction a as [|x a IH]; intros [|y b] [|z c] H1 H2; simpl in *; try done.
  destruct (Z.ltb_spec x y), (Z.ltb_spec y x), (Z.ltb_spec y z), (Z.ltb_spec z y), (Z.ltb_spec x z), (Z.ltb_spec z x);
    try lia. apply IH; lia.
Qed.

Lemma IsNull_spec data : IsNull data = true ↔ data = blob_null (length data).
Proof.
  unfold blob_null. induction data as [|b data IH]; [done|]. simpl. destruct (Z.eqb_spec b 0) as [->|Hb]; simpl.
  - rewrite IH. split; [by intros <-|by intros [= <-]].
  - split; [done|]. by intros [= ? _].
Qed.

(** ** Hexadecimal text *)
Lemma HexDigit_char d : 0 <= d < 16 → HexDigit (hex_char d) = d ∧ isspace (hex_char d) = false ∧ tolower (hex_char d) ≠ 120.
Proof.
  intros Hd. assert (d = 0 ∨ d = 1 ∨ d = 2 ∨ d = 3 ∨ d = 4 ∨ d = 5 ∨ d = 6 ∨ d = 7 ∨ d = 8 ∨ d = 9 ∨ d = 10 ∨
    d = 11 ∨ d = 12 ∨ d = 13 ∨ d = 14 ∨ d = 15) as H by lia.
  repeat destruct H as [-> | H]; [split_and!; done..|]. subst. split_and!; done.
Qed.

Lemma hex_run_app l rest : Forall (λ c, HexDigit c ≠ -1) l → hex_run (l ++ rest) = l ++ hex_run rest.
Proof.
  induction 1 as [|c l Hc _ IH]; [done|]. simpl. rewrite (proj2 (Z.eqb_neq _ _)) by done. simpl. by rewrite IH.
Qed.

Lemma GetHex_digits data : Radix.digits 256 data → Forall (λ c, ∃ d, 0 <= d < 16 ∧ c = hex_char d) (GetHex data).
Proof.
  intros Hd. unfold GetHex. apply Forall_concat, Forall_map, Forall_rev.
  eapply Forall_impl; [|exact Hd]. intros b Hb. simpl in *.
  constructor; [exists (b / 16)|constructor; [exists (b mod 16)|constructor]]; (split; [zlia|done]).
Qed.

Lemma hex_fill_GetHex data : Radix.digits 256 data → hex_fill (length data) (rev (GetHex data)) = data.
Proof.
  intros Hd. induction data as [|b data IH]; [done|]. apply Forall_cons_iff in Hd as [Hb Hd].
  unfold GetHex in *. simpl rev at 2. rewrite map_app, concat_app, rev_app_distr. cbn [map concat app rev length].
  cbn [hex_fill]. rewrite IH by done. f_equal.
  rewrite (proj1 (HexDigit_char (b mod 16) ltac:(zlia))), (proj1 (HexDigit_char (b / 16) ltac:(zlia))).
  unfold u8. rewrite (Z.mod_small (Z.shiftl _ _)) by (rewrite Z.shiftl_mul_pow2 by lia; change (2 ^ 4) with 16; change (2 ^ 8) with 256; zlia).
  rewrite lor_shiftl_add by (change (2 ^ 4) with 16; zlia). change (2 ^ 4) with 16. zlia.
Qed.

Lemma hex_fill_length w : ∀ run, length (hex_fill w run) = w.
Proof.
  induction w as [|w IH]; intros run; [done|]. destruct run as [|c [|c' run]]; simpl; by rewrite ?length_replicate, ?IH.
Qed.

Lemma hex_run_digits data : Radix.digits 256 data → hex_run (GetHex data) = GetHex data.
Proof.
  intros Hd. rewrite <- (app_nil_r (GetHex data)) at 1. rewrite hex_run_app; [by rewrite app_nil_r|].
  eapply Forall_impl; [|by apply GetHex_digits]. intros c (d & Hr & ->).
  destruct (HexDigit_char d Hr) as (-> & _). lia.
Qed.

(** The text of a blob starts neither with a space nor with [0x]. *)
Lemma hex_run_GetHex data : Radix.digits 256 data → hex_run (skip_0x (skip_spaces (GetHex data))) = GetHex data.
Proof.
  intros Hd. rewrite <- (hex_run_digits data Hd) at 2. f_equal. pose proof (GetHex_digits data Hd) as Hc.
  destruct (GetHex data) as [|c0 l]; [done|]. apply Forall_cons_iff in Hc as [(d0 & H0 & ->) Hc].
  destruct (HexDigit_char d0 H0) as (_ & E & _). simpl. rewrite E. simpl.
  destruct l as [|c1 l]; [done|]. apply Forall_cons_iff in Hc as [(d1 & H1 & ->) _].
  destruct (HexDigit_char d1 H1) as (_ & _ & E1). by rewrite (proj2 (Z.eqb_neq _ _) E1), andb_false_r.
Qed.

Lemma skip_spaces_app spaces l : Forall (λ x, isspace x = true) spaces → skip_spaces (spaces ++ l) = skip_spaces l.
Proof. induction 1 as [|c sp Hc _ IH]; [done|]. simpl. by rewrite Hc. Qed.

(** Blobs. [Compare] is a total order whose zero is equality, [IsNull] recognises
    exactly the null blob, and hexadecimal text round trips: [SetHex] of [GetHex], with
    leading spaces or a [0x] prefix, gives the blob back; it always fills the whole
    blob. *)
Theorem blob_correct a b c spaces : length a = WIDTH → length b = WIDTH → length c = WIDTH →
  Radix.digits 256 a → Forall (λ x, isspace x = true) spaces →
  (Compare a b = 0 ↔ a = b) ∧ Compare b a = - Compare a b ∧
  (Compare a b < 0 → Compare b c < 0 → Compare a c < 0) ∧
  (IsNull a = true ↔ a = blob_null WIDTH) ∧
  SetHex WIDTH (spaces ++ GetHex a) = a ∧ SetHex WIDTH (spaces ++ [48; 120] ++ GetHex a) = a ∧
  ∀ s, length (SetHex WIDTH s) = WIDTH.
Proof.
  intros La Lb Lc Ha Hs. unfold Compare. split_and!.
  - apply memcmp_eq. congruence.
  - apply memcmp_swap.
  - apply memcmp_trans; congruence.
  - by rewrite IsNull_spec, La.
  - unfold SetHex. by rewrite skip_spaces_app, <- La, hex_run_GetHex, hex_fill_GetHex.
  - unfold SetHex. rewrite skip_spaces_app by done. cbn [app skip_spaces].
    change (isspace 48) with false. cbn beta iota. unfold skip_0x at 1.
    change ((48 =? 48) && (tolower 120 =? 120))%bool with true. cbn beta iota.
    by rewrite hex_run_digits, <- La, hex_fill_GetHex.
  - intros s. apply hex_fill_length.
Qed.

Lemma blob_correct_witness :
  SetHex WIDTH ([32; 9] ++ GetHex (0xab :: replicate 31 7)) = 0xab :: replicate 31 7.
Proof.
  apply (blob_correct (0xab :: replicate 31 7) (replicate 32 0) (replicate 32 0) [32; 9]);
    [reflexivity..| |]; repeat constructor; lia.
Defined.

End Uint256.
