(* ===== verification/Amount.v ===== *)
(** * Amount: money and fee rates ([amount.{h,cpp}], [utilmoneystr.cpp])

    [CAmount] is a 64-bit signed integer.  Multiplications keep the width with [i64]; C++
    division truncates towards zero ([Z.quot]). *)
From S2P Require Import Prelude Uint256.

Module Amount.

Definition COIN : Z := 100000000.
Definition CENT : Z := 1000000.
Definition MAX_MONEY : Z := 21625000 * COIN.
Definition MoneyRange (nValue : Z) : bool := (0 <=? nValue) && (nValue <=? MAX_MONEY).

(** [CFeeRate] is [nSatoshisPerK]. [None] is the failed assertion on [nBytes_]. *)
Definition CFeeRate (nFeePaid nBytes : Z) : option Z :=
  if negb (nBytes <=? 2 ^ 63 - 1) then None
  else Some (if 0 <? nBytes then Z.quot (i64 (nFeePaid * 1000)) nBytes else 0).

Definition GetFee (nSatoshisPerK nBytes : Z) : option Z :=
  if negb (nBytes <=? 2 ^ 63 - 1) then None
  else
    let nFee := Z.quot (i64 (nSatoshisPerK * nBytes)) 1000 in
    Some (if ((nFee =? 0) && negb (nBytes =? 0))%bool then
            let nFee := if 0 <? nSatoshisPerK then 1 else nFee in
            if nSatoshisPerK <? 0 then -1 else nFee
          else nFee).
Definition GetFeePerK (nSatoshisPerK : Z) : option Z := GetFee nSatoshisPerK 1000.

(** ** Printing and parsing amounts *)
Definition isdigit (c : Z) : bool := (48 <=? c) && (c <=? 57).

(** [%d] of a number that is not negative; a 64-bit number has at most 20 digits. *)
Fixpoint dec_digits (fuel : nat) (n : Z) : list Z :=
  match fuel with
  | O => []
  | S fuel' => if n <? 10 then [n] else dec_digits fuel' (n / 10) ++ [n mod 10]
  end.
Definition print_dec (n : Z) : list Z := map (λ d, d + 48) (dec_digits 20 n).
(** [%08d] *)
Definition print_dec8 (n : Z) : list Z :=
  let s := print_dec n in replicate (8 - length s) 48 ++ s.

(** The loop that counts and erases trailing zeros, on the reversed string. *)
Fixpoint trim_zeros (r : list Z) : list Z :=
  match r with
  | c0 :: ((_ :: c2 :: _) as r') => if ((c0 =? 48) && isdigit c2)%bool then trim_zeros r' else r
  | _ => r
  end.

Definition FormatMoney (n : Z) : list Z :=
  let n_abs := if 0 <? n then n else i64 (- n) in
  let quotient := Z.quot n_abs COIN in
  let remainder := Z.rem n_abs COIN in
  let str := print_dec quotient ++ [46] ++ print_dec8 remainder in
  let str := rev (trim_zeros (rev str)) in
  if n <? 0 then 45 :: str else str.

(** [while (isdigit( *p) && (nMult > 0))] *)
Fixpoint parse_units (p : list Z) (nMult nUnits : Z) : list Z * Z :=
  match p with
  | c :: p' => if (isdigit c && (0 <? nMult))%bool
               then parse_units p' (Z.quot nMult 10) (nUnits + nMult * (c - 48))
               else (p, nUnits)
  | [] => (p, nUnits)
  end.

Fixpoint parse_whole (p strWhole : list Z) : option (list Z * list Z * Z) :=
  match p with
  | [] => Some ([], strWhole, 0)
  | c :: p' =>
      if c =? 46 then let '(p, nUnits) := parse_units p' (CENT * 10) 0 in Some (p, strWhole, nUnits)
      else if Uint256.isspace c then Some (p, strWhole, 0)
      else if negb (isdigit c) then None
      else parse_whole p' (strWhole ++ [c])
  end.

(** [atoi64] of a string of digits, with the saturation of [strtoll]. *)
Definition atoi64 (s : list Z) : Z := Z.min (2 ^ 63 - 1) (foldl (λ a c, 10 * a + (c - 48)) 0 s).

Definition ParseMoney (pszIn : list Z) : option Z :=
  match parse_whole (Uint256.skip_spaces pszIn) [] with
  | None => None
  | Some (p, strWhole, nUnits) =>
      if negb (forallb Uint256.isspace p) then None
      else if (10 <? length strWhole)%nat then None
      else if ((nUnits <? 0) || (COIN <? nUnits))%bool then None
      else Some (i64 (atoi64 strWhole * COIN + nUnits))
  end.

(** ** Fees *)
Lemma GetFee_nonneg r n : 0 <= r → 0 <= n → r * n < 2 ^ 63 → n < 2 ^ 63 →
  GetFee r n = Some (if ((r * n / 1000 =? 0) && (0 <? n) && (0 <? r))%bool then 1 else r * n / 1000).
Proof.
  intros Hr Hn Hrn Hn63. unfold GetFee. rewrite (proj2 (Z.leb_le _ _)) by lia. simpl negb. cbn match.
  rewrite i64_small by nia. rewrite Z.quot_div_nonneg by nia. f_equal.
  rewrite (proj2 (Z.ltb_ge r 0)) by lia.
  destruct (Z.eqb_spec (r * n / 1000) 0) as [E|E]; simpl; [|done].
  destruct (Z.eqb_spec n 0) as [->|]; simpl; [by rewrite Z.mul_0_r|].
  rewrite (proj2 (Z.ltb_lt 0 n)) by lia. simpl. by destruct (0 <? r).
Qed.

(** Fee rates. For rates and sizes whose product fits 64 bits, [GetFee] is
    [rate * size / 1000] rounded down, except that a positive rate never charges a positive
    size nothing; it is monotone in the size; and the fee of the rate that was computed from
    a fee paid for a size never exceeds that fee. *)
Theorem fee_rate_correct r n m paid : 0 <= r → 0 <= m <= n → n < 2 ^ 63 → r * n < 2 ^ 63 →
  0 <= paid → paid * 1000 < 2 ^ 63 → 0 < n →
  (∃ f g, GetFee r n = Some f ∧ GetFee r m = Some g ∧ g <= f ∧
     (f = r * n / 1000 ∨ f = 1 ∧ r * n < 1000) ∧ (f = 0 ↔ r = 0)) ∧
  (∃ rate f, CFeeRate paid n = Some rate ∧ GetFee rate n = Some f ∧ 0 <= f <= paid).
Proof.
  intros Hr Hm Hn Hrn Hp Hp1000 Hn0. split.
  - rewrite !GetFee_nonneg by nia. eexists _, _. split_and!; [done..| | |].
    + assert (r * m / 1000 <= r * n / 1000) by (apply Z.div_le_mono; nia).
      destruct (Z.eqb_spec (r * m / 1000) 0), (Z.eqb_spec (r * n / 1000) 0), (Z.ltb_spec 0 m), (Z.ltb_spec 0 n),
        (Z.ltb_spec 0 r); simpl; lia.
    + destruct (Z.eqb_spec (r * n / 1000) 0), (Z.ltb_spec 0 n), (Z.ltb_spec 0 r); simpl; try (left; lia).
      right. split; [done|]. zlia.
    + destruct (Z.ltb_spec 0 n); [|lia]. rewrite andb_true_r.
      destruct (Z.eqb_spec (r * n / 1000) 0), (Z.ltb_spec 0 r); simpl; try lia. assert (r = 0) as -> by lia. done.
  - unfold CFeeRate. rewrite (proj2 (Z.leb_le _ _)), (proj2 (Z.ltb_lt 0 n)), i64_small, Z.quot_div_nonneg by lia.
    simpl negb. cbn match. set (rate := paid * 1000 / n).
    assert (0 <= rate ∧ rate * n <= paid * 1000) as [H1 H2].
    { split; [apply Z.div_pos; lia|]. unfold rate. pose proof (Z.mul_div_le (paid * 1000) n Hn0). lia. }
    exists rate. rewrite GetFee_nonneg by nia. eexists. split_and!; [done..| |].
    + destruct (_ && _ && _)%bool; [lia|]. apply Z.div_pos; nia.
    + destruct (Z.eqb_spec (rate * n / 1000) 0), (Z.ltb_spec 0 n), (Z.ltb_spec 0 rate); simpl; zlia || nia.
Qed.

Lemma fee_rate_correct_witness : ∃ rate f, CFeeRate 5000 250 = Some rate ∧ GetFee rate 250 = Some f ∧ 0 <= f <= 5000.
Proof. apply (fee_rate_correct 10 250 100 5000); lia. Defined.

(** ** Text *)

(** The value of decimal digits, and of digits after the point. *)
Definition dec_value (l : list Z) : Z := foldl (λ a d, 10 * a + d) 0 l.
Fixpoint frac_value (l : list Z) (mult : Z) : Z :=
  match l with d :: l => mult * d + frac_value l (mult / 10) | [] => 0 end.

Lemma dec_digits_spec f n : 0 <= n < 10 ^ Z.of_nat f → (0 < f)%nat →
  dec_value (dec_digits f n) = n ∧ Radix.digits 10 (dec_digits f n) ∧
  ∀ k, n < 10 ^ Z.of_nat k → (0 < k)%nat → (length (dec_digits f n) <= k)%nat.
Proof.
  revert n. induction f as [|f IH]; intros n Hn Hf; [lia|]. cbn [dec_digits].
  destruct (Z.ltb_spec n 10).
  { unfold dec_value. simpl. split_and!; [lia|repeat constructor; lia|intros k _ Hk; simpl; lia]. }
  assert (10 ^ Z.of_nat (S f) = 10 * 10 ^ Z.of_nat f) as E10 by apply pow_radix_S.
  destruct f as [|f]; [change (10 ^ Z.of_nat 1) with 10 in Hn; lia|].
  destruct (IH (n / 10)) as (E & D & L); [split; zlia|lia|].
  unfold dec_value in *. rewrite foldl_app, E. cbn [foldl]. split_and!; [zlia|apply Forall_app; split; [done|repeat constructor; zlia]|].
  intros k Hk Hk0. rewrite length_app. cbn [length]. destruct k as [|[|k]]; [lia|change (10 ^ Z.of_nat 1) with 10 in Hk; lia|].
  rewrite pow_radix_S in Hk. specialize (L (S k) ltac:(zlia) ltac:(lia)). lia.
Qed.

Lemma isdigit_char d : 0 <= d < 10 →
  isdigit (d + 48) = true ∧ Uint256.isspace (d + 48) = false ∧ (d + 48 =? 46) = false ∧ (d + 48 =? 48) = (d =? 0).
Proof. intros Hd. unfold isdigit, Uint256.isspace. repeat split; breflect; lia. Qed.
Notation chars l := (map (λ d, d + 48) l).

Lemma trim_zeros_spec g w : Radix.digits 10 g → (2 <= length g)%nat →
  ∃ k g', g = replicate k 0 ++ g' ∧ trim_zeros (chars g ++ 46 :: w) = chars g' ++ 46 :: w ∧ (2 <= length g')%nat.
Proof.
  intros Hg. induction Hg as [|c0 g H0 Hg IH]; [simpl; lia|]. intros Hl.
  destruct g as [|c1 [|c2 g]]; [simpl in Hl; lia| |].
  - exists 0%nat, [c0; c1]. split_and!; [done| |simpl; lia]. simpl. by rewrite andb_false_r.
  - assert (isdigit (c2 + 48) = true) as E2.
    { apply Forall_cons_iff in Hg as [_ Hg]. apply Forall_cons_iff in Hg as [H2 _]. by apply isdigit_char. }
    destruct (isdigit_char c0 H0) as (_ & _ & _ & E0).
    destruct (Z.eqb_spec c0 0) as [->|N].
    + destruct IH as (k & g' & E & T & L); [simpl; lia|]. exists (S k), g'. split_and!; [|simpl|done].
      * simpl. by rewrite <- E.
      * rewrite E2. exact T.
    + exists 0%nat, (c0 :: c1 :: c2 :: g). split_and!; [done| |simpl; lia]. cbn [map app trim_zeros]. by rewrite E0.
Qed.

Lemma parse_whole_digits ds rest acc : Radix.digits 10 ds →
  parse_whole (chars ds ++ rest) acc = parse_whole rest (acc ++ chars ds).
Proof.
  intros Hd. revert acc. induction Hd as [|d ds Hd _ IH]; intros acc; [by rewrite app_nil_r|]. cbn [map app parse_whole].
  destruct (isdigit_char d Hd) as (-> & -> & -> & _). simpl. by rewrite IH, <- app_assoc.
Qed.

Lemma parse_units_digits rest l : (∀ c, head rest = Some c → isdigit c = false) →
  ∀ m acc, Radix.digits 10 l → (length l <= S m)%nat →
  parse_units (chars l ++ rest) (10 ^ Z.of_nat m) acc = (rest, acc + frac_value l (10 ^ Z.of_nat m)).
Proof.
  intros Hrest. assert (∀ m acc, parse_units rest m acc = (rest, acc)) as Hstop.
  { intros m acc. destruct rest as [|c rest]; [done|]. simpl. by rewrite (Hrest c eq_refl). }
  induction l as [|d l IH]; intros m acc Hd Hl; [simpl; by rewrite Hstop, Z.add_0_r|].
  apply Forall_cons_iff in Hd as [Hd Hl']. cbn [map app parse_units frac_value].
  destruct (isdigit_char d Hd) as (-> & _). pose proof (pow_radix_pos 10 ltac:(lia) m).
  rewrite (proj2 (Z.ltb_lt 0 _)) by lia. simpl andb. cbn match. rewrite Z.quot_div_nonneg, Z.add_simpl_r by lia.
  destruct m as [|m].
  - destruct l; [|simpl in Hl; lia]. simpl. rewrite Hstop. f_equal. lia.
  - rewrite pow_radix_S. rewrite (Z.mul_comm 10), Z.div_mul by lia. rewrite IH by (done || (simpl in Hl; lia)).
    f_equal. lia.
Qed.

Lemma frac_value_zeros l k : ∀ m, frac_value (l ++ replicate k 0) m = frac_value l m.
Proof.
  induction l as [|d l IH]; intros m; simpl; [|by rewrite IH].
  revert m. induction k as [|k IH]; intros m; [done|]. simpl. rewrite IH. lia.
Qed.

Lemma dec_value_app a l : foldl (λ a d, 10 * a + d) a l = a * 10 ^ Z.of_nat (length l) + dec_value l.
Proof.
  unfold dec_value. revert a. induction l as [|d l IH]; intros a; [simpl; lia|].
  cbn [foldl length]. rewrite (IH (10 * a + d)), (IH (10 * 0 + d)), pow_radix_S. lia.
Qed.

Lemma frac_value_dec l m : length l = S m → frac_value l (10 ^ Z.of_nat m) = dec_value l.
Proof.
  revert m. induction l as [|d l IH]; intros m Hl; [done|]. injection Hl as Hl.
  unfold dec_value. cbn [foldl frac_value]. rewrite dec_value_app, Hl.
  destruct m as [|m]; [destruct l; [|done]; simpl; unfold dec_value; simpl; lia|].
  rewrite <- (IH m) by done. rewrite pow_radix_S at 2. rewrite (Z.mul_comm 10 (10 ^ _)), Z.div_mul by lia. lia.
Qed.

Lemma dec_value_zeros k l : dec_value (replicate k 0 ++ l) = dec_value l.
Proof. induction k as [|k IH]; [done|]. unfold dec_value in *. simpl. exact IH. Qed.

(** [%08d] of a remainder: eight digits with its value. *)
Lemma print_dec8_spec r : 0 <= r < COIN →
  ∃ fd, print_dec8 r = chars fd ∧ Radix.digits 10 fd ∧ length fd = 8%nat ∧ dec_value fd = r.
Proof.
  intros Hr. unfold COIN in Hr.
  destruct (dec_digits_spec 20 r) as (E & D & L); [change (10 ^ Z.of_nat 20) with 100000000000000000000; lia|lia|].
  specialize (L 8%nat ltac:(change (10 ^ Z.of_nat 8) with 100000000; lia) ltac:(lia)).
  unfold print_dec8, print_dec. set (ds := dec_digits 20 r) in *. clearbody ds.
  exists (replicate (8 - length ds) 0 ++ ds). rewrite map_app, length_map. split_and!.
  - f_equal. induction (8 - length ds)%nat as [|k IH]; simpl; by rewrite <- ?IH.
  - apply Forall_app. split; [|done]. apply Forall_replicate. lia.
  - rewrite length_app, length_replicate. lia.
  - by rewrite dec_value_zeros.
Qed.

Lemma atoi64_chars ds : 0 <= dec_value ds < 2 ^ 63 → atoi64 (chars ds) = dec_value ds.
Proof.
  intros H. unfold atoi64. replace (foldl _ 0 (chars ds)) with (dec_value ds); [lia|].
  unfold dec_value. clear H. generalize 0. induction ds as [|d ds IH]; intros a; [done|]. simpl. rewrite IH.
  by replace (d + 48 - 48) with d by lia.
Qed.

Lemma FormatMoney_shape n : 0 <= n < 10 ^ 18 →
  ∃ ds fd k, FormatMoney n = chars ds ++ 46 :: chars fd ∧ Radix.digits 10 ds ∧ Radix.digits 10 fd ∧
    (0 < length ds <= 10)%nat ∧ (2 <= length fd)%nat ∧ (length fd + k = 8)%nat ∧
    dec_value ds = n / COIN ∧ dec_value (fd ++ replicate k 0) = n mod COIN.
Proof.
  intros Hn. unfold FormatMoney. rewrite (proj2 (Z.ltb_ge n 0)) by lia.
  replace (if 0 <? n then n else i64 (- n)) with n.
  2: { destruct (Z.ltb_spec 0 n); [done|]. assert (n = 0) as -> by lia. done. }
  assert (COIN = 100000000) as HC by done. rewrite Z.quot_div_nonneg, Z.rem_mod_nonneg by lia.
  destruct (print_dec8_spec (n mod COIN)) as (fd & -> & Df & Lf & Ef); [apply Z.mod_pos_bound; lia|].
  assert (0 <= n / COIN < 10 ^ 10) as Hq by zlia.
  destruct (dec_digits_spec 20 (n / COIN)) as (E & D & L); [change (10 ^ Z.of_nat 20) with 100000000000000000000; lia|lia|].
  specialize (L 10%nat ltac:(change (10 ^ Z.of_nat 10) with (10 ^ 10); lia) ltac:(lia)).
  unfold print_dec. set (ds := dec_digits 20 (n / COIN)) in *.
  assert (0 < length ds)%nat.
  { unfold ds. change 20%nat with (S 19). generalize 19%nat as f. intros f. cbn [dec_digits].
    destruct (_ <? _); [simpl; lia|]. rewrite length_app. simpl. lia. }
  clearbody ds. rewrite rev_app_distr. cbn [app rev]. rewrite <- app_assoc. cbn [app]. rewrite <- map_rev.
  destruct (trim_zeros_spec (rev fd) (rev (chars ds))) as (k & g & Eg & -> & Lg); [by apply Forall_rev|rewrite length_rev; lia|].
  assert (fd = rev g ++ replicate k 0) as Efd.
  { rewrite <- (rev_involutive fd), Eg, rev_app_distr. f_equal. rewrite rev_alt. apply reverse_replicate. }
  exists ds, (rev g), k. rewrite rev_app_distr. cbn [rev]. rewrite rev_involutive, <- app_assoc, map_rev. cbn [app].
  rewrite <- Efd. split_and!; try done; try (rewrite ?length_rev; lia).
  - rewrite Efd in Df. apply Forall_app in Df. tauto.
  - rewrite Efd, length_app, length_replicate in Lf. lia.
Qed.

Lemma spaces_not_digits l c : Forall (λ c, Uint256.isspace c = true) l → head l = Some c → isdigit c = false.
Proof.
  destruct 1 as [|x l Hx _]; [done|]. intros [= <-]. unfold Uint256.isspace in Hx. unfold isdigit.
  apply orb_true_iff in Hx. rewrite andb_true_iff in Hx. breflect. lia.
Qed.

Lemma spaces_forallb l : Forall (λ c, Uint256.isspace c = true) l → forallb Uint256.isspace l = true.
Proof. induction 1 as [|x l Hx _ IH]; [done|]. simpl. by rewrite Hx. Qed.

(** Amounts as text. For every amount of at most ten digits before the point (beyond
    [MAX_MONEY]), [ParseMoney] of [FormatMoney], surrounded by spaces, is the amount, and at
    least two decimals are printed; the text of a negative amount is rejected. *)
Theorem money_roundtrip n before after : 0 <= n < 10 ^ 18 →
  Forall (λ c, Uint256.isspace c = true) before → Forall (λ c, Uint256.isspace c = true) after →
  ParseMoney (before ++ FormatMoney n ++ after) = Some n ∧
  (0 < n → ParseMoney (FormatMoney (- n)) = None) ∧
  ∃ whole frac, FormatMoney n = whole ++ 46 :: frac ∧ (2 <= length frac)%nat.
Proof.
  intros Hn Hb Ha. destruct (FormatMoney_shape n Hn) as (ds & fd & k & E & Dd & Df & Lds & Lfd & Lk & Vd & Vf).
  assert (COIN = 100000000) as HC by done. split_and!.
  - unfold ParseMoney. rewrite Uint256.skip_spaces_app by done. rewrite E, <- app_assoc.
    destruct ds as [|d ds]; [simpl in Lds; lia|]. assert (Dd' := Dd). apply Forall_cons_iff in Dd' as [Hd _].
    destruct (isdigit_char d Hd) as (_ & Es & _). cbn [map app Uint256.skip_spaces]. rewrite Es.
    change (d + 48 :: chars ds ++ 46 :: chars fd ++ after) with (chars (d :: ds) ++ 46 :: chars fd ++ after).
    rewrite parse_whole_digits by done. cbn [parse_whole app]. change (46 =? 46) with true. cbn match.
    change (CENT * 10) with (10 ^ Z.of_nat 7). rewrite parse_units_digits by (done || lia || (intros ? ?; by eapply spaces_not_digits)).
    rewrite spaces_forallb by done. cbn [negb].
    rewrite length_map, (proj2 (Nat.ltb_ge _ _)) by lia. rewrite Z.add_0_l.
    rewrite <- (frac_value_zeros fd k), frac_value_dec, Vf by (rewrite length_app, length_replicate; lia).
    rewrite (proj2 (Z.ltb_ge _ 0)), (proj2 (Z.ltb_ge COIN _)) by zlia. simpl orb. cbn match.
    rewrite atoi64_chars by (rewrite Vd; zlia). rewrite Vd, i64_small by zlia. f_equal. zlia.
  - intros Hpos. unfold FormatMoney. rewrite (proj2 (Z.ltb_lt _ 0)) by lia. done.
  - exists (chars ds), (chars fd). rewrite E, length_map. done.
Qed.

Lemma money_roundtrip_witness : ParseMoney ([] ++ FormatMoney 123450000 ++ [32]) = Some 123450000.
Proof.
  apply (money_roundtrip 123450000 [] [32]); [lia|constructor|]. constructor; [reflexivity|constructor].
Defined.
End Amount.
