(* ===== verification/Transaction.v ===== *)
(** * Transaction: [primitives/transaction.{h,cpp}]

    The fields of [CTxIn] that are only kept in memory ([scriptWitness], [prevPubKey]) are
    neither serialized nor compared and are left out.  A write may change the object
    ([vtxinwit.resize]), so [SerializeTransaction] returns the witness it leaves behind.
    The sizes of the C++ types, which [Unserialize] uses to bound allocation, are section
    variables. *)
From S2P Require Import Prelude Serialize Uint256 Amount Script.

Module Transaction.
Import Serialize.

Definition SERIALIZE_TRANSACTION_NO_WITNESS : Z := 0x40000000.
Definition WITNESS_SCALE_FACTOR : Z := 4.
Definition PROTOCOL_VERSION : Z := 90049.

(** ** Data. [CTxIn] also has two fields that are never read from or written to a stream and
    that no operation modelled here touches: [scriptWitness], which nothing assigns, and
    the wallet's [prevPubKey]. *)
Record COutPoint := mkOutPoint { ophash : list Z; opn : Z }.
Record CTxIn := mkTxIn { prevout : COutPoint; scriptSig : list Z; nSequence : Z }.
Record CTxOut := mkTxOut { nValue : Z; scriptPubKey : list Z; nRounds : Z }.
(** [CTxInWitness] is the stack of its [scriptWitness]; [CTxWitness] is [vtxinwit]. *)
Notation CTxInWitness := (list (list Z)).
Notation CTxWitness := (list CTxInWitness).
Record CMutableTransaction := mkTx {
  tx_nVersion : Z; vin : list CTxIn; vout : list CTxOut; wit : CTxWitness; nLockTime : Z }.

#[export] Instance COutPoint_eq_dec : EqDecision COutPoint.
Proof. solve_decision. Defined.
#[export] Instance CTxIn_eq_dec : EqDecision CTxIn.
Proof. solve_decision. Defined.
#[export] Instance CTxOut_eq_dec : EqDecision CTxOut.
Proof. solve_decision. Defined.

Definition SEQUENCE_FINAL : Z := 0xffffffff.
Definition SEQUENCE_LOCKTIME_DISABLE_FLAG : Z := 2 ^ 31.
Definition SEQUENCE_LOCKTIME_TYPE_FLAG : Z := 2 ^ 22.
Definition SEQUENCE_LOCKTIME_MASK : Z := 0x0000ffff.
Definition SEQUENCE_LOCKTIME_GRANULARITY : Z := 9.

(** ** Predicates of the parts *)
Definition COutPoint_SetNull : COutPoint := mkOutPoint (Uint256.blob_null 32) (u32 (-1)).
Definition COutPoint_IsNull (p : COutPoint) : bool := Uint256.IsNull (ophash p) && (opn p =? u32 (-1)).
Definition IsSigmaMintGroup (p : COutPoint) : bool := Uint256.IsNull (ophash p) && (1 <=? opn p).
Definition COutPoint_lt (a b : COutPoint) : bool :=
  let cmp := Uint256.Compare (ophash a) (ophash b) in
  (cmp <? 0) || ((cmp =? 0) && (opn a <? opn b)).

Definition CTxIn_IsZerocoinSpend (i : CTxIn) : bool :=
  COutPoint_IsNull (prevout i) && (0 <? Script.size (scriptSig i)) &&
  ((scriptSig i).[0] =? Script.opcode_val Script.OP_ZEROCOINSPEND).
Definition CTxIn_IsSigmaSpend (i : CTxIn) : bool :=
  IsSigmaMintGroup (prevout i) && (0 <? Script.size (scriptSig i)) &&
  ((scriptSig i).[0] =? Script.opcode_val Script.OP_SIGMASPEND).

Definition CTxOut_SetNull : CTxOut := mkTxOut (-1) [] (-10).
Definition CTxOut_IsNull (o : CTxOut) : bool := nValue o =? -1.
Definition CTxOut_SetEmpty (o : CTxOut) : CTxOut := mkTxOut 0 [] (nRounds o).
Definition CTxOut_IsEmpty (o : CTxOut) : bool := (nValue o =? 0) && (Script.size (scriptPubKey o) =? 0).
Definition CTxOut_IsUnspendable (o : CTxOut) : bool :=
  CTxOut_IsEmpty o ||
  ((0 <? Script.size (scriptPubKey o)) && ((scriptPubKey o).[0] =? Script.opcode_val Script.OP_RETURN)).

Definition CTxInWitness_IsNull (w : CTxInWitness) : bool := match w with [] => true | _ => false end.
Fixpoint CTxWitness_IsNull (w : CTxWitness) : bool :=
  match w with
  | [] => true
  | x :: w => if negb (CTxInWitness_IsNull x) then false else CTxWitness_IsNull w
  end.
(** [vtxinwit.resize(n)] *)
Definition resize (n : nat) (w : CTxWitness) : CTxWitness := take n w ++ replicate (n - length w) [].

(** ** Serialization of the parts *)
Definition Serialize_uint256 (h : list Z) : list Z := h.
Definition Unserialize_uint256 : Reader (list Z) := read 32.

Definition Serialize_COutPoint (p : COutPoint) : list Z := Serialize_uint256 (ophash p) ++ ser_writedata32 (opn p).
Definition Unserialize_COutPoint : Reader COutPoint :=
  h ← Unserialize_uint256; n ← ser_readdata32; mret (mkOutPoint h n).

Definition Serialize_CTxIn (i : CTxIn) : list Z :=
  Serialize_COutPoint (prevout i) ++ Serialize_bytes (scriptSig i) ++ ser_writedata32 (nSequence i).
Definition Unserialize_CTxIn : Reader CTxIn :=
  p ← Unserialize_COutPoint; s ← Unserialize_bytes; q ← ser_readdata32; mret (mkTxIn p s q).

Definition Serialize_CTxOut (o : CTxOut) : list Z := Serialize_int64 (nValue o) ++ Serialize_bytes (scriptPubKey o).
Definition Unserialize_CTxOut : Reader CTxOut :=
  v ← Unserialize_int64; s ← Unserialize_bytes; mret (mkTxOut v s (-10)).

Section transaction.
Context (sizeof_CTxIn sizeof_CTxOut sizeof_vch : Z).

Definition Serialize_CTxInWitness (w : CTxInWitness) : list Z := Serialize_vector Serialize_bytes w.
Definition Unserialize_CTxInWitness : Reader CTxInWitness := Unserialize_vector Unserialize_bytes sizeof_vch.

(** [CTxWitness::SerializationOp]: no count, and a null witness is refused after the fact. *)
Definition Serialize_CTxWitness (w : CTxWitness) : ser_error + list Z :=
  if CTxWitness_IsNull w then inl SuperfluousWitness else inr (concat (map Serialize_CTxInWitness w)).
Definition Unserialize_CTxWitness (n : nat) : Reader CTxWitness :=
  w ← Unserialize_items Unserialize_CTxInWitness n [];
  if CTxWitness_IsNull w then rthrow SuperfluousWitness else mret w.

Definition no_witness (nVersion : Z) : bool := negb (Z.land nVersion SERIALIZE_TRANSACTION_NO_WITNESS =? 0).

(** ** [SerializeTransaction], writing: the bytes and the witness it leaves. *)
Definition SerializeTransaction (tx : CMutableTransaction) (nVersion : Z) : ser_error + (list Z * CTxWitness) :=
  if negb (length (wit tx) <=? length (vin tx))%nat then inl AssertFailed
  else
    let flags := if negb (no_witness nVersion) then if negb (CTxWitness_IsNull (wit tx)) then 1 else 0 else 0 in
    let head := if negb (flags =? 0) then Serialize_vector Serialize_CTxIn [] ++ ser_writedata8 flags else [] in
    let body := Serialize_vector Serialize_CTxIn (vin tx) ++ Serialize_vector Serialize_CTxOut (vout tx) in
    if negb (Z.land flags 1 =? 0) then
      let w := resize (length (vin tx)) (wit tx) in
      match Serialize_CTxWitness w with
      | inl e => inl e
      | inr ws => inr (Serialize_int32 (tx_nVersion tx) ++ head ++ body ++ ws ++ ser_writedata32 (nLockTime tx), w)
      end
    else inr (Serialize_int32 (tx_nVersion tx) ++ head ++ body ++ ser_writedata32 (nLockTime tx), wit tx).

(** ** [SerializeTransaction], reading *)
Definition UnserializeTransaction (nVersion : Z) : Reader CMutableTransaction :=
  v ← Unserialize_int32;
  vin ← Unserialize_vector Unserialize_CTxIn sizeof_CTxIn;
  (* the dummy, or a vin *)
  '(flags, vin, vout) ←
    (if ((length vin =? 0)%nat && negb (no_witness nVersion))%bool then
       flags ← ser_readdata8;
       if negb (flags =? 0) then
         vin ← Unserialize_vector Unserialize_CTxIn sizeof_CTxIn;
         vout ← Unserialize_vector Unserialize_CTxOut sizeof_CTxOut;
         mret (flags, vin, vout)
       else mret (flags, vin, [])
     else
       vout ← Unserialize_vector Unserialize_CTxOut sizeof_CTxOut;
       mret (0, vin, vout));
  '(flags, wit) ←
    (if (negb (Z.land flags 1 =? 0) && negb (no_witness nVersion))%bool then
       wit ← Unserialize_CTxWitness (length vin);
       mret (Z.lxor flags 1, wit)
     else mret (flags, []));
  if negb (flags =? 0) then rthrow UnknownOptionalData
  else
    nLockTime ← ser_readdata32;
    mret (mkTx v vin vout wit nLockTime).

(** [GetSerializeSize] runs the writer into a [CSizeComputer]. *)
Definition GetSerializeSize_tx (tx : CMutableTransaction) (nVersion : Z) : option Z :=
  match SerializeTransaction tx nVersion with
  | inr (s, _) => Some (u32 (Script.size s))
  | inl _ => None
  end.

(** [GetTransactionWeight], in unsigned arithmetic. *)
Definition GetTransactionWeight (tx : CMutableTransaction) : option Z :=
  s ← GetSerializeSize_tx tx (Z.lor PROTOCOL_VERSION SERIALIZE_TRANSACTION_NO_WITNESS);
  t ← GetSerializeSize_tx tx PROTOCOL_VERSION;
  Some (u32 (s * (WITNESS_SCALE_FACTOR - 1) + t)).
End transaction.

(** ** [CTransaction] *)

(** [GetValueOut]; [None] is the exception.  The sum is kept at its width. *)
Fixpoint GetValueOut_loop (vout : list CTxOut) (nValueOut : Z) : option Z :=
  match vout with
  | [] => Some nValueOut
  | o :: vout =>
      let nValueOut := i64 (nValueOut + nValue o) in
      if (negb (Amount.MoneyRange (nValue o)) || negb (Amount.MoneyRange nValueOut))%bool then None
      else GetValueOut_loop vout nValueOut
  end.
Definition GetValueOut (tx : CMutableTransaction) : option Z := GetValueOut_loop (vout tx) 0.

Definition tx_IsNull (tx : CMutableTransaction) : bool :=
  match vin tx, vout tx with [], [] => true | _, _ => false end.

Definition IsCoinBase (tx : CMutableTransaction) : bool :=
  match vin tx with
  | [i] => COutPoint_IsNull (prevout i) &&
           ((Script.size (scriptSig i) =? 0) ||
            negb ((scriptSig i).[0] =? Script.opcode_val Script.OP_ZEROCOINSPEND))
  | _ => false
  end.

Definition IsCoinStake (tx : CMutableTransaction) : bool :=
  match vin tx, vout tx with
  | i :: _, o :: _ :: _ => negb (COutPoint_IsNull (prevout i)) && CTxOut_IsEmpty o
  | _, _ => false
  end.

Definition IsZerocoinSpend (tx : CMutableTransaction) : bool := existsb CTxIn_IsZerocoinSpend (vin tx).
Definition IsSigmaSpend (tx : CMutableTransaction) : bool := existsb CTxIn_IsSigmaSpend (vin tx).
Definition IsZerocoinMint (tx : CMutableTransaction) : bool :=
  existsb (λ o, Script.IsZerocoinMint (scriptPubKey o)) (vout tx).
Definition IsSigmaMint (tx : CMutableTransaction) : bool :=
  existsb (λ o, Script.IsSigmaMint (scriptPubKey o)) (vout tx).
Definition IsZerocoinTransaction (tx : CMutableTransaction) : bool := IsZerocoinSpend tx || IsZerocoinMint tx.
Definition IsZerocoinV3SigmaTransaction (tx : CMutableTransaction) : bool := IsSigmaSpend tx || IsSigmaMint tx.

(** [CalculateModifiedSize], with the size the caller gives or the weight rounded up. *)
Definition CalculateModifiedSize (tx : CMutableTransaction) (nTxSize : Z) : option Z :=
  n ← (if nTxSize =? 0
       then w ← GetTransactionWeight tx; Some (u32 ((w + WITNESS_SCALE_FACTOR - 1) / WITNESS_SCALE_FACTOR))
       else Some nTxSize);
  Some (foldl (λ n i, let offset := 41 + Z.min 110 (u32 (Script.size (scriptSig i))) in
                      if offset <? n then n - offset else n) n (vin tx)).

Definition nMinTxFee : Z := 1000000.
Definition DEFAULT_BLOCK_PRIORITY_SIZE : Z := 50000.
Definition DUST_SOFT_LIMIT : Z := 100000.
Definition MAX_BLOCK_SIZE : Z := 2000000.
Definition MAX_BLOCK_SIZE_GEN : Z := MAX_BLOCK_SIZE / 4.

Inductive GetMinFee_mode := GMF_BLOCK | GMF_RELAY | GMF_SEND.

Definition GetMinFee (tx : CMutableTransaction) (nBlockSize : Z) (fAllowFree : bool) (mode : GetMinFee_mode) : option Z :=
  nBytes ← GetSerializeSize_tx tx PROTOCOL_VERSION;
  let nBaseFee := nMinTxFee in
  let nNewBlockSize := u32 (nBlockSize + nBytes) in
  let nMinFee := (1 + nBytes / 1000) * nBaseFee in
  let nMinFee :=
    if (fAllowFree && (nBytes <? match mode with GMF_SEND => 5000 | _ => DEFAULT_BLOCK_PRIORITY_SIZE - 1000 end))%bool
    then 0 else nMinFee in
  let nMinFee := foldl (λ f o, if nValue o <? DUST_SOFT_LIMIT then i64 (f + nBaseFee) else f) nMinFee (vout tx) in
  let clamp f := if negb (Amount.MoneyRange f) then Amount.MAX_MONEY else f in
  if (negb (nBlockSize =? 1) && (MAX_BLOCK_SIZE_GEN / 2 <=? nNewBlockSize))%bool then
    if MAX_BLOCK_SIZE_GEN <=? nNewBlockSize then Some Amount.MAX_MONEY
    else Some (clamp (i64 (nMinFee * (MAX_BLOCK_SIZE_GEN / (MAX_BLOCK_SIZE_GEN - nNewBlockSize)))))
  else Some (clamp nMinFee).

(** [CTxOut::GetDustThreshold] *)
Definition GetDustThreshold (minRelayTxFee : Z) (o : CTxOut) : option Z :=
  if Script.IsUnspendable (scriptPubKey o) then Some 0
  else
    let nSize := Script.size (Serialize_CTxOut o) in
    let nSize := match Script.IsWitnessProgram (scriptPubKey o) with
                 | Some _ => nSize + (32 + 4 + 1 + (107 / WITNESS_SCALE_FACTOR) + 4)
                 | None => nSize + (32 + 4 + 1 + 107 + 4)
                 end in
    f ← Amount.GetFee minRelayTxFee nSize; Some (i64 (3 * f)).

(** [GetHash] and [GetWitnessHash]: [SerializeHash] of the bytes written, for the double
    SHA-256 [Hash]. *)
Section hashes.
Context (Hash : list Z → list Z).
Definition GetHash (tx : CMutableTransaction) : option (list Z) :=
  match SerializeTransaction tx SERIALIZE_TRANSACTION_NO_WITNESS with
  | inr (s, _) => Some (Hash s)
  | inl _ => None
  end.
Definition GetWitnessHash (tx : CMutableTransaction) : option (list Z) :=
  match SerializeTransaction tx 0 with
  | inr (s, _) => Some (Hash s)
  | inl _ => None
  end.
End hashes.

(** ** Well-formed values: the ranges of the C++ types and the sizes a reader accepts *)
Definition wf_bytes (l : list Z) : Prop := Z.of_nat (length l) <= MAX_SIZE ∧ Radix.digits 256 l.
Definition wf_outpoint (p : COutPoint) : Prop :=
  length (ophash p) = 32%nat ∧ Radix.digits 256 (ophash p) ∧ 0 <= opn p < 2 ^ 32.
Definition wf_txin (i : CTxIn) : Prop := wf_outpoint (prevout i) ∧ wf_bytes (scriptSig i) ∧ 0 <= nSequence i < 2 ^ 32.
Definition wf_txout (o : CTxOut) : Prop := - 2 ^ 63 <= nValue o < 2 ^ 63 ∧ wf_bytes (scriptPubKey o).
Definition wf_txinwit (w : CTxInWitness) : Prop := Z.of_nat (length w) <= MAX_SIZE ∧ Forall wf_bytes w.
Record wf_tx (tx : CMutableTransaction) : Prop := {
  wf_version : - 2 ^ 31 <= tx_nVersion tx < 2 ^ 31;
  wf_vin : Z.of_nat (length (vin tx)) <= MAX_SIZE ∧ Forall wf_txin (vin tx);
  wf_vout : Z.of_nat (length (vout tx)) <= MAX_SIZE ∧ Forall wf_txout (vout tx);
  wf_wit : (length (wit tx) <= length (vin tx))%nat ∧ Forall wf_txinwit (wit tx);
  wf_lock : 0 <= nLockTime tx < 2 ^ 32 }.

(** ** The parts implement the serialization contract *)

#[export] Instance codec_uint256 : Codec Serialize_uint256 Unserialize_uint256
  (λ h, length h = 32%nat ∧ Radix.digits 256 h).
Proof. split; [|by intros h [_ ?]]. intros h rest [Hl _]. unfold Unserialize_uint256. rewrite <- Hl. apply read_app. Qed.

#[export] Instance codec_wf_bytes : Codec Serialize_bytes Unserialize_bytes wf_bytes.
Proof. split; intros; [by apply codec_bytes|by eapply enc_bytes]. Qed.

(** Reading the first of two consecutive fields. *)
Lemma dec_step {A B} {enc : A → list Z} {dec valid} `{!Codec enc dec valid} (k : A → Reader B) a tail :
  valid a → (a ← dec; k a) (enc a ++ tail) = k a tail.
Proof. intros Ha. by erewrite bind_run; [|by apply dec_enc]. Qed.

#[export] Instance codec_outpoint : Codec Serialize_COutPoint Unserialize_COutPoint wf_outpoint.
Proof.
  split; intros [h n].
  - intros rest (Hh & Hd & Hn). unfold Serialize_COutPoint, Unserialize_COutPoint. simpl in *.
    rewrite <- app_assoc. by rewrite (dec_step (enc := Serialize_uint256)), (dec_step (enc := ser_writedata32)).
  - intros (_ & Hd & Hn). apply digits_app. split; [done|]. by apply codec_uint32.
Qed.

#[export] Instance codec_txin : Codec Serialize_CTxIn Unserialize_CTxIn wf_txin.
Proof.
  split; intros [p s q].
  - intros rest (Hp & Hs & Hq). unfold Serialize_CTxIn, Unserialize_CTxIn. cbn [ophash opn prevout scriptSig nSequence nValue scriptPubKey nRounds] in *. rewrite <- !app_assoc.
    by rewrite (dec_step (enc := Serialize_COutPoint)), (dec_step (enc := Serialize_bytes)), (dec_step (enc := ser_writedata32)).
  - intros (Hp & Hs & Hq). unfold Serialize_CTxIn. cbn [nRounds nValue scriptPubKey prevout scriptSig nSequence] in *. rewrite !digits_app.
    split_and!; [by apply codec_outpoint|by apply codec_wf_bytes|by apply codec_uint32].
Qed.

#[export] Instance codec_txout : Codec Serialize_CTxOut Unserialize_CTxOut (λ o, wf_txout o ∧ nRounds o = -10).
Proof.
  split; intros [v s r].
  - intros rest [[Hv Hs] Hr]. cbn [nRounds nValue scriptPubKey] in *. subst. unfold Serialize_CTxOut, Unserialize_CTxOut. cbn [nValue scriptPubKey]. rewrite <- !app_assoc.
    by rewrite (dec_step (enc := Serialize_int64)), (dec_step (enc := Serialize_bytes)).
  - intros [[Hv Hs] _]. unfold Serialize_CTxOut. cbn [nRounds nValue scriptPubKey prevout scriptSig nSequence] in *. rewrite digits_app.
    split; [by apply codec_int64|by apply codec_wf_bytes].
Qed.

(** ** Round trip *)

Lemma CTxWitness_IsNull_spec w : CTxWitness_IsNull w = true ↔ Forall (λ x, x = []) w.
Proof.
  induction w as [|x w IH]; simpl; [done|]. rewrite Forall_cons_iff, <- IH. destruct x; simpl; naive_solver.
Qed.

Lemma resize_spec n w : (length w <= n)%nat →
  length (resize n w) = n ∧ CTxWitness_IsNull (resize n w) = CTxWitness_IsNull w ∧
  (Forall wf_txinwit w → Forall wf_txinwit (resize n w)).
Proof.
  intros Hl. unfold resize. rewrite take_ge by lia. rewrite length_app, length_replicate. split_and!; [lia| |].
  - apply eq_true_iff_eq. rewrite !CTxWitness_IsNull_spec, Forall_app. split; [tauto|]. intros H. split; [done|].
    by apply Forall_replicate.
  - intros H. apply Forall_app. split; [done|]. apply Forall_replicate. split; [simpl; unfold MAX_SIZE; lia|constructor].
Qed.

(** What reading gives back: [nRounds] is reset, the witness is padded or dropped. *)
Definition reset_rounds (o : CTxOut) : CTxOut := mkTxOut (nValue o) (scriptPubKey o) (-10).
Definition normalize (nVersion : Z) (tx : CMutableTransaction) : CMutableTransaction :=
  mkTx (tx_nVersion tx) (vin tx) (map reset_rounds (vout tx))
    (if (no_witness nVersion || CTxWitness_IsNull (wit tx))%bool then [] else resize (length (vin tx)) (wit tx))
    (nLockTime tx).

Lemma Serialize_vout_reset l : Serialize_vector Serialize_CTxOut l = Serialize_vector Serialize_CTxOut (map reset_rounds l).
Proof. unfold Serialize_vector. rewrite length_map, map_map. done. Qed.

Lemma Serialize_vector_nil {A} (enc : A → list Z) : Serialize_vector enc [] = [0].
Proof. done. Qed.

Section roundtrip.
Context (sizeof_CTxIn sizeof_CTxOut sizeof_vch : Z).
Context (HsIn : 0 < sizeof_CTxIn <= 5000000) (HsOut : 0 < sizeof_CTxOut <= 5000000) (HsV : 0 < sizeof_vch <= 5000000).

#[local] Instance codec_vin : Codec (Serialize_vector Serialize_CTxIn)
  (Unserialize_vector Unserialize_CTxIn sizeof_CTxIn) (λ v, Z.of_nat (length v) <= MAX_SIZE ∧ Forall wf_txin v).
Proof using HsIn. by apply codec_vector. Qed.
#[local] Instance codec_vout : Codec (Serialize_vector Serialize_CTxOut)
  (Unserialize_vector Unserialize_CTxOut sizeof_CTxOut)
  (λ v, Z.of_nat (length v) <= MAX_SIZE ∧ Forall (λ o, wf_txout o ∧ nRounds o = -10) v).
Proof using HsOut. by apply codec_vector. Qed.
#[local] Instance codec_txinwit : Codec Serialize_CTxInWitness (Unserialize_CTxInWitness sizeof_vch) wf_txinwit.
Proof using HsV. by apply codec_vector. Qed.

Lemma wf_vout_reset tx : wf_tx tx →
  Z.of_nat (length (map reset_rounds (vout tx))) <= MAX_SIZE ∧
  Forall (λ o, wf_txout o ∧ nRounds o = -10) (map reset_rounds (vout tx)).
Proof.
  intros H. destruct (wf_vout _ H) as [Hl Hv]. rewrite length_map. split; [done|]. apply Forall_map.
  eapply Forall_impl; [|exact Hv]. by intros o Ho.
Qed.

Lemma Unserialize_CTxWitness_enc w rest : Forall wf_txinwit w → CTxWitness_IsNull w = false →
  Unserialize_CTxWitness sizeof_vch (length w) (concat (map Serialize_CTxInWitness w) ++ rest) = inr (w, rest).
Proof using HsV.
  intros Hw Hn. unfold Unserialize_CTxWitness. erewrite bind_run; [|by apply Unserialize_items_enc].
  simpl. by rewrite Hn.
Qed.

(** The bytes written, by format. *)
Definition basic_bytes (tx : CMutableTransaction) : list Z :=
  Serialize_int32 (tx_nVersion tx) ++ Serialize_vector Serialize_CTxIn (vin tx) ++
  Serialize_vector Serialize_CTxOut (map reset_rounds (vout tx)) ++ ser_writedata32 (nLockTime tx).
Definition extended_bytes (tx : CMutableTransaction) : list Z :=
  Serialize_int32 (tx_nVersion tx) ++ Serialize_vector Serialize_CTxIn [] ++ ser_writedata8 1 ++
  Serialize_vector Serialize_CTxIn (vin tx) ++ Serialize_vector Serialize_CTxOut (map reset_rounds (vout tx)) ++
  concat (map Serialize_CTxInWitness (resize (length (vin tx)) (wit tx))) ++ ser_writedata32 (nLockTime tx).

Lemma SerializeTransaction_formats tx nVersion : (length (wit tx) <= length (vin tx))%nat →
  SerializeTransaction tx nVersion =
    if (no_witness nVersion || CTxWitness_IsNull (wit tx))%bool then inr (basic_bytes tx, wit tx)
    else inr (extended_bytes tx, resize (length (vin tx)) (wit tx)).
Proof.
  intros Hl. unfold SerializeTransaction, basic_bytes, extended_bytes. rewrite (proj2 (Nat.leb_le _ _)) by done.
  rewrite (Serialize_vout_reset (vout tx)). destruct (resize_spec (length (vin tx)) (wit tx) Hl) as (_ & E & _).
  destruct (no_witness nVersion); simpl; [by rewrite <- !app_assoc|].
  destruct (CTxWitness_IsNull (wit tx)) eqn:En; simpl; [by rewrite <- !app_assoc|].
  unfold Serialize_CTxWitness. rewrite E. by rewrite <- !app_assoc.
Qed.

Lemma read_basic tx nVersion rest : wf_tx tx →
  vin tx ≠ [] ∨ vout tx = [] ∨ no_witness nVersion = true →
  UnserializeTransaction sizeof_CTxIn sizeof_CTxOut sizeof_vch nVersion (basic_bytes tx ++ rest) =
    inr (mkTx (tx_nVersion tx) (vin tx) (map reset_rounds (vout tx)) [] (nLockTime tx), rest).
Proof using HsIn HsOut HsV.
  intros Hwf Hcase. pose proof (wf_vout_reset tx Hwf) as Ho. destruct Hwf as [Hv Hi _ _ Hlock].
  unfold UnserializeTransaction, basic_bytes. rewrite <- !app_assoc.
  rewrite (dec_step (enc := Serialize_int32)), (dec_step (enc := Serialize_vector Serialize_CTxIn)) by done.
  destruct ((length (vin tx) =? 0)%nat && negb (no_witness nVersion))%bool eqn:E.
  - apply andb_true_iff in E as [E1%Nat.eqb_eq E2]. rewrite negb_true_iff in E2.
    assert (vin tx = []) as Ev by (by destruct (vin tx)). assert (vout tx = []) as -> by (destruct Hcase as [?|[?|?]]; [done|done|congruence]). rewrite Ev.
    cbn [map]. rewrite Serialize_vector_nil.
    erewrite bind_run; [|erewrite bind_run; [|apply (dec_enc (enc := ser_writedata8) 0); lia]; reflexivity].
    cbn [fst snd]. erewrite bind_run; [|reflexivity]. cbn [negb Z.eqb].
    by rewrite (dec_step (enc := ser_writedata32)).
  - erewrite bind_run; [|rewrite (dec_step (enc := Serialize_vector Serialize_CTxOut)) by done; reflexivity].
    cbn beta iota. erewrite bind_run; [|reflexivity]. cbn [negb Z.eqb]. by rewrite (dec_step (enc := ser_writedata32)).
Qed.

Lemma read_extended tx nVersion rest : wf_tx tx → no_witness nVersion = false → CTxWitness_IsNull (wit tx) = false →
  UnserializeTransaction sizeof_CTxIn sizeof_CTxOut sizeof_vch nVersion (extended_bytes tx ++ rest) =
    inr (mkTx (tx_nVersion tx) (vin tx) (map reset_rounds (vout tx)) (resize (length (vin tx)) (wit tx)) (nLockTime tx), rest).
Proof using HsIn HsOut HsV.
  intros Hwf Hnw Hnull. pose proof (wf_vout_reset tx Hwf) as Ho. destruct Hwf as [Hv Hi _ [Hwl Hw] Hlock].
  destruct (resize_spec (length (vin tx)) (wit tx) Hwl) as (Lr & Nr & Wr). rewrite Hnull in Nr. specialize (Wr Hw).
  unfold UnserializeTransaction, extended_bytes. rewrite <- !app_assoc.
  rewrite (dec_step (enc := Serialize_int32)) by done.
  rewrite (dec_step (enc := Serialize_vector Serialize_CTxIn)) by (split; [unfold MAX_SIZE; simpl; lia|constructor]).
  rewrite Hnw. cbn [length Nat.eqb negb andb].
  erewrite bind_run; [|rewrite (dec_step (enc := ser_writedata8) _ 1) by lia; cbn [Z.eqb negb];
    rewrite (dec_step (enc := Serialize_vector Serialize_CTxIn)) by done;
    rewrite (dec_step (enc := Serialize_vector Serialize_CTxOut)) by done; reflexivity].
  cbn beta iota. change (Z.land 1 1) with 1. cbn [Z.eqb negb andb].
  erewrite bind_run; [|erewrite bind_run; [|rewrite <- Lr at 1; by apply Unserialize_CTxWitness_enc]; reflexivity].
  cbn beta iota. change (Z.lxor 1 1) with 0. cbn [Z.eqb negb]. by rewrite (dec_step (enc := ser_writedata32)).
Qed.

Lemma tx_roundtrip_any tx nVersion rest : wf_tx tx →
  vin tx ≠ [] ∨ vout tx = [] ∨ no_witness nVersion = true →
  ∃ s w, SerializeTransaction tx nVersion = inr (s, w) ∧
    UnserializeTransaction sizeof_CTxIn sizeof_CTxOut sizeof_vch nVersion (s ++ rest) = inr (normalize nVersion tx, rest).
Proof using HsIn HsOut HsV.
  intros Hwf Hcase. rewrite SerializeTransaction_formats by apply (wf_wit _ Hwf). unfold normalize.
  destruct (no_witness nVersion) eqn:E1, (CTxWitness_IsNull (wit tx)) eqn:E2; cbn [orb]; eexists _, _;
    (split; [done|]); try (apply read_basic; [done|rewrite E1; naive_solver]). by apply read_extended.
Qed.

(** C31. Transactions round trip through both formats: for every well-formed transaction
    that has an input, or no output, or is written without witness, the bytes written
    are read back, followed by anything, as the same transaction (the memory-only
    [nRounds] reset, the witness padded to the number of inputs or dropped), and the
    reader stops exactly at their end. *)
Theorem tx_roundtrip tx nVersion rest : wf_tx tx →
  vin tx ≠ [] ∨ vout tx = [] ∨ no_witness nVersion = true →
  ∃ s w, SerializeTransaction tx nVersion = inr (s, w) ∧
    UnserializeTransaction sizeof_CTxIn sizeof_CTxOut sizeof_vch nVersion (s ++ rest) = inr (normalize nVersion tx, rest).
Proof using HsIn HsOut HsV.
  apply tx_roundtrip_any.
Qed.
End roundtrip.

Definition sample_tx : CMutableTransaction :=
  mkTx 2 [mkTxIn (mkOutPoint (replicate 32 7) 1) [1; 5] 0xfffffffe]
    [mkTxOut 5000 [0x51] 3] [[[9; 9]; []]] 100.

Lemma sample_tx_wf : wf_tx sample_tx.
Proof.
  split; simpl; repeat (split || constructor); simpl; unfold MAX_SIZE; try lia; repeat constructor; lia.
Defined.

Lemma tx_roundtrip_witness :
  ∃ s w, SerializeTransaction sample_tx 0 = inr (s, w) ∧
    UnserializeTransaction 144 40 24 0 (s ++ []) = inr (normalize 0 sample_tx, []).
Proof. apply (tx_roundtrip 144 40 24); [lia..|apply sample_tx_wf|left; discriminate]. Defined.
(** Without inputs the empty vector of inputs is taken for the marker of the witness format. *)
Example no_inputs_lost : match SerializeTransaction (mkTx 2 [] [mkTxOut 5000 [0x51] 3] [] 100) 0 with
  | inr (s, _) => UnserializeTransaction 144 40 24 0 s
  | inl e => inl e
  end = inl Serialize.EndOfData.
Proof. vm_compute. reflexivity. Qed.

(** ** Identifiers *)

(** The fields a transaction identifier commits to. *)
Definition tx_core (tx : CMutableTransaction) : Z * list CTxIn * list CTxOut * Z :=
  (tx_nVersion tx, vin tx, map reset_rounds (vout tx), nLockTime tx).

Lemma basic_bytes_inj tx1 tx2 : wf_tx tx1 → wf_tx tx2 → basic_bytes tx1 = basic_bytes tx2 → tx_core tx1 = tx_core tx2.
Proof.
  intros H1 H2 E. assert (no_witness SERIALIZE_TRANSACTION_NO_WITNESS = true) as Hn by done.
  pose proof (read_basic 1 1 1 ltac:(lia) ltac:(lia) ltac:(lia) tx1 _ [] H1 (or_intror (or_intror Hn))) as R1.
  pose proof (read_basic 1 1 1 ltac:(lia) ltac:(lia) ltac:(lia) tx2 _ [] H2 (or_intror (or_intror Hn))) as R2.
  rewrite E, R2 in R1. unfold tx_core. congruence.
Qed.

(** Transaction identifiers. [GetHash] ignores the witness and commits to everything
    else: two well-formed transactions with the same identifier have the same version,
    inputs, outputs (values and scripts) and lock time, or exhibit a collision of the hash
    function. For transactions with inputs the witness hash also commits to the witness. *)
Theorem txid_commits Hash tx1 tx2 w : wf_tx tx1 → wf_tx tx2 → (length w <= length (vin tx1))%nat →
  GetHash Hash (mkTx (tx_nVersion tx1) (vin tx1) (vout tx1) w (nLockTime tx1)) = GetHash Hash tx1 ∧
  (GetHash Hash tx1 = GetHash Hash tx2 → tx_core tx1 = tx_core tx2 ∨ ∃ a b, a ≠ b ∧ Hash a = Hash b) ∧
  (vin tx1 ≠ [] → vin tx2 ≠ [] → GetWitnessHash Hash tx1 = GetWitnessHash Hash tx2 →
   normalize 0 tx1 = normalize 0 tx2 ∨ ∃ a b, a ≠ b ∧ Hash a = Hash b).
Proof.
  intros H1 H2 Hw. pose proof (proj1 (wf_wit _ H1)) as L1. pose proof (proj1 (wf_wit _ H2)) as L2.
  unfold GetHash, GetWitnessHash. split_and!.
  - by rewrite !SerializeTransaction_formats.
  - rewrite !SerializeTransaction_formats by done. simpl orb. cbn match. intros [= E].
    destruct (decide (basic_bytes tx1 = basic_bytes tx2)); [left; by apply basic_bytes_inj|]. right. by eexists _, _.
  - intros V1 V2.
    pose proof (tx_roundtrip_any 1 1 1 ltac:(lia) ltac:(lia) ltac:(lia) tx1 0 [] H1 (or_introl V1)) as (s1 & w1 & E1 & R1).
    pose proof (tx_roundtrip_any 1 1 1 ltac:(lia) ltac:(lia) ltac:(lia) tx2 0 [] H2 (or_introl V2)) as (s2 & w2 & E2 & R2).
    rewrite E1, E2. intros [= E]. destruct (decide (s1 = s2)) as [->|]; [left; congruence|]. right. by eexists _, _.
Qed.

Lemma txid_commits_witness :
  GetHash (λ l, [Z.of_nat (length l)]) (mkTx 2 (vin sample_tx) (vout sample_tx) [] 100) =
  GetHash (λ l, [Z.of_nat (length l)]) sample_tx.
Proof.
  apply (txid_commits (λ l, [Z.of_nat (length l)]) sample_tx sample_tx []);
    [apply sample_tx_wf|apply sample_tx_wf|simpl; lia].
Defined.

(** ** Values *)
Definition sum_values (l : list CTxOut) : Z := foldr (λ o a, nValue o + a) 0 l.

Lemma MoneyRange_spec v : Amount.MoneyRange v = true ↔ 0 <= v <= Amount.MAX_MONEY.
Proof. unfold Amount.MoneyRange. rewrite andb_true_iff, !Z.leb_le. done. Qed.

Lemma GetValueOut_loop_spec l acc v : 0 <= acc <= Amount.MAX_MONEY → Forall (λ o, - 2 ^ 63 <= nValue o < 2 ^ 63) l →
  GetValueOut_loop l acc = Some v ↔
  Forall (λ o, Amount.MoneyRange (nValue o) = true) l ∧ v = acc + sum_values l ∧ acc + sum_values l <= Amount.MAX_MONEY.
Proof.
  intros Hacc Hl. revert acc Hacc. induction Hl as [|o l Ho _ IH]; intros acc Hacc; cbn [GetValueOut_loop sum_values foldr].
  { split; [intros [= <-]; split_and!; [constructor|lia..]|]. intros (_ & -> & _). f_equal. lia. }
  fold (sum_values l). assert (Amount.MAX_MONEY < 2 ^ 62) by done.
  assert (Forall (λ o, Amount.MoneyRange (nValue o) = true) l → 0 <= sum_values l) as Hpos.
  { clear. induction 1 as [|o l Ho _ IH]; simpl; [lia|]. apply MoneyRange_spec in Ho. fold (sum_values l). lia. }
  rewrite Forall_cons_iff. destruct (Amount.MoneyRange (nValue o)) eqn:Eo; simpl; [|naive_solver].
  apply MoneyRange_spec in Eo. rewrite i64_small by lia.
  destruct (Amount.MoneyRange (acc + nValue o)) eqn:Es; simpl.
  - apply MoneyRange_spec in Es. rewrite IH by lia. replace (acc + nValue o + sum_values l) with (acc + (nValue o + sum_values l)) by lia.
    naive_solver.
  - split; [done|]. intros ([_ Hf] & _ & Hle). specialize (Hpos Hf).
    assert (Amount.MoneyRange (acc + nValue o) = true) by (apply MoneyRange_spec; lia). congruence.
Qed.

(** [GetValueOut] returns exactly when every output value and their sum are in the
    money range, and then returns the sum: the running 64-bit additions neither wrap into
    the range nor reject a sum that is in it. *)
Theorem GetValueOut_exact tx v : Forall (λ o, - 2 ^ 63 <= nValue o < 2 ^ 63) (vout tx) →
  GetValueOut tx = Some v ↔
  Forall (λ o, Amount.MoneyRange (nValue o) = true) (vout tx) ∧ v = sum_values (vout tx) ∧
  sum_values (vout tx) <= Amount.MAX_MONEY.
Proof. intros H. unfold GetValueOut. rewrite GetValueOut_loop_spec by done. by rewrite !Z.add_0_l. Qed.

Lemma GetValueOut_exact_witness : GetValueOut sample_tx = Some 5000 ∧ 5000 = sum_values (vout sample_tx).
Proof.
  destruct (GetValueOut_exact sample_tx 5000) as [H _]; [constructor; [simpl; lia|constructor]|].
  split; [reflexivity|]. apply (H eq_refl).
Defined.

(** ** Kinds of transactions and fees *)

Lemma COutPoint_IsNull_sigma p : COutPoint_IsNull p = true → IsSigmaMintGroup p = true.
Proof.
  unfold COutPoint_IsNull, IsSigmaMintGroup. rewrite !andb_true_iff. intros [-> E%Z.eqb_eq]. rewrite E. done.
Qed.

(** Kinds of transactions. A coinbase is neither a coinstake nor a zerocoin spend; a
    coinstake's first input refers to an output, so it is no zerocoin spend there. A
    coinbase is a sigma spend exactly when its script starts with [OP_SIGMASPEND]: the null
    outpoint also is a sigma mint group. *)
Theorem tx_kinds tx :
  (IsCoinBase tx = true → IsCoinStake tx = false ∧ IsZerocoinSpend tx = false ∧
     (IsSigmaSpend tx = true ↔ ∃ i s, vin tx = [i] ∧ scriptSig i = Script.opcode_val Script.OP_SIGMASPEND :: s)) ∧
  (IsCoinStake tx = true → ∃ i l, vin tx = i :: l ∧ CTxIn_IsZerocoinSpend i = false ∧ 2 <= Script.size (vout tx)).
Proof.
  split.
  - unfold IsCoinBase, IsCoinStake, IsZerocoinSpend, IsSigmaSpend. destruct (vin tx) as [|i [|? ?]]; try done.
    rewrite andb_true_iff. intros [Hn Hs]. rewrite Hn. simpl. rewrite !orb_false_r. split_and!.
    + by destruct (vout tx) as [|? [|? ?]].
    + unfold CTxIn_IsZerocoinSpend. rewrite Hn. destruct (scriptSig i) as [|c s]; [done|].
      apply orb_true_iff in Hs as [Hs|Hs]; [done|]. apply negb_true_iff in Hs. rewrite Hs. by rewrite andb_false_r.
    + unfold CTxIn_IsSigmaSpend. rewrite (COutPoint_IsNull_sigma _ Hn). split.
      * destruct (scriptSig i) as [|c s] eqn:E; [done|]. rewrite andb_true_iff, Z.eqb_eq. intros [_ Hc].
        exists i, s. split; [done|]. rewrite E. f_equal. exact Hc.
      * intros (i' & s & [= <-] & ->). done.
  - unfold IsCoinStake. destruct (vin tx) as [|i l]; [done|]. destruct (vout tx) as [|o [|o' m]]; [done..|].
    rewrite andb_true_iff, negb_true_iff. intros [Hn _]. exists i, l. split_and!; [done| |unfold Script.size; simpl; lia].
    unfold CTxIn_IsZerocoinSpend. by rewrite Hn.
Qed.

Lemma tx_kinds_witness :
  IsCoinBase (mkTx 1 [mkTxIn COutPoint_SetNull [0xc4] 0] [] [] 0) = true ∧
  IsSigmaSpend (mkTx 1 [mkTxIn COutPoint_SetNull [0xc4] 0] [] [] 0) = true.
Proof.
  split; [reflexivity|].
  destruct (tx_kinds (mkTx 1 [mkTxIn COutPoint_SetNull [0xc4] 0] [] [] 0)) as [H _].
  destruct (H eq_refl) as (_ & _ & H'). apply H'. eexists _, _. split; reflexivity.
Defined.

Lemma modified_size_bounds l n : 0 <= n →
  0 <= foldl (λ n i, let offset := 41 + Z.min 110 (u32 (Script.size (scriptSig i))) in
                     if offset <? n then n - offset else n) n l <= n.
Proof.
  revert n. induction l as [|i l IH]; intros n Hn; cbn [foldl]; [lia|]. cbv zeta in *.
  pose proof (u32_range (Script.size (scriptSig i))). set (off := 41 + Z.min 110 _).
  assert (0 < off) by lia. clearbody off. destruct (Z.ltb_spec off n).
  - specialize (IH (n - off) ltac:(lia)). lia.
  - by apply IH.
Qed.

Lemma dust_fees l f : 0 <= f <= 2 * 10 ^ 9 → Z.of_nat (length l) <= 10 ^ 6 →
  f <= foldl (λ f o, if nValue o <? DUST_SOFT_LIMIT then i64 (f + nMinTxFee) else f) f l
    <= f + Z.of_nat (length l) * nMinTxFee.
Proof.
  intros Hf Hl'. assert (nMinTxFee = 10 ^ 6) as HM by done.
  assert (f + Z.of_nat (length l) * nMinTxFee < 2 ^ 62) as Hb by lia. clear Hl'. destruct Hf as [Hf _].
  revert f Hf Hb. induction l as [|o l IH]; intros f Hf Hb; cbn [foldl length] in *; [lia|].
  destruct (_ <? _).
  - rewrite i64_small by lia. specialize (IH (f + nMinTxFee) ltac:(lia) ltac:(lia)). lia.
  - specialize (IH f ltac:(lia) ltac:(lia)). lia.
Qed.

Definition clamp_fee (f : Z) : Z := if negb (Amount.MoneyRange f) then Amount.MAX_MONEY else f.
Lemma clamp_range f : Amount.MoneyRange (clamp_fee f) = true.
Proof. unfold clamp_fee. destruct (Amount.MoneyRange f) eqn:E; simpl; [done|]. by vm_compute. Qed.
Lemma clamp_lower b f : 0 <= b <= Amount.MAX_MONEY → b <= f → b <= clamp_fee f.
Proof. intros Hb Hf. unfold clamp_fee. destruct (Amount.MoneyRange f); simpl; lia. Qed.

(** Fees and priority size. [GetMinFee] always returns an amount in the money range,
    asks for the maximum once the block would reach the generation limit, and otherwise,
    when the free area does not apply, for at least the base fee per started kilobyte (as
    long as that is in the money range); the modified size is never more than the size
    it starts from. *)
Theorem GetMinFee_bounds tx nBlockSize fAllowFree mode nBytes fee n m :
  GetSerializeSize_tx tx PROTOCOL_VERSION = Some nBytes → (0 <= nBytes <= 10 ^ 6) → Z.of_nat (length (vout tx)) <= 10 ^ 6 →
  0 <= nBlockSize < 2 ^ 31 → GetMinFee tx nBlockSize fAllowFree mode = Some fee →
  0 < n → CalculateModifiedSize tx n = Some m →
  Amount.MoneyRange fee = true ∧
  (nBlockSize ≠ 1 → MAX_BLOCK_SIZE_GEN <= nBlockSize + nBytes → fee = Amount.MAX_MONEY) ∧
  (fAllowFree = false → (1 + nBytes / 1000) * nMinTxFee <= fee) ∧
  0 <= m <= n.
Proof.
  intros Hsz Hn Hvo Hbs Hfee Hn0 Hm. unfold GetMinFee in Hfee. rewrite Hsz in Hfee. cbn [mbind option_bind] in Hfee.
  fold clamp_fee in Hfee. rewrite (u32_small (nBlockSize + nBytes)) in Hfee by lia.
  set (base := (1 + nBytes / 1000) * nMinTxFee) in *. assert (nMinTxFee = 10 ^ 6) as HM by done.
  assert (0 <= base <= 2 * 10 ^ 9) as Hbase by (unfold base; rewrite HM; zlia).
  set (f0 := if (fAllowFree && _)%bool then 0 else base) in Hfee.
  assert (0 <= f0 <= 2 * 10 ^ 9 ∧ (fAllowFree = false → f0 = base)) as [Hf0 Hf0'].
  { unfold f0. destruct fAllowFree; simpl; [split; [destruct (_ <? _); lia|done]|split; [lia|done]]. }
  pose proof (dust_fees (vout tx) f0 Hf0 Hvo) as Hd. set (f1 := foldl _ f0 _) in *. clearbody f1 f0.
  assert (MAX_BLOCK_SIZE_GEN = 500000) as HG by done. assert (2 * 10 ^ 9 <= Amount.MAX_MONEY) by (by vm_compute).
  assert (0 <= m <= n).
  { unfold CalculateModifiedSize in Hm. rewrite (proj2 (Z.eqb_neq n 0)) in Hm by lia. injection Hm as <-.
    apply modified_size_bounds. lia. }
  split_and!.
  - revert Hfee. destruct (_ && _)%bool; [destruct (_ <=? _)|]; intros [= <-]; [by vm_compute|apply clamp_range..].
  - intros H1 H2. rewrite (proj2 (Z.eqb_neq _ 1)), (proj2 (Z.leb_le (MAX_BLOCK_SIZE_GEN / 2) _)),
      (proj2 (Z.leb_le MAX_BLOCK_SIZE_GEN _)) in Hfee by (rewrite ?HG in *; zlia). simpl in Hfee. congruence.
  - intros ->. rewrite (Hf0' eq_refl) in Hd. revert Hfee. destruct (_ && _)%bool.
    + destruct (Z.leb_spec MAX_BLOCK_SIZE_GEN (nBlockSize + nBytes)); intros [= <-]; [lia|].
      apply clamp_lower; [lia|]. set (q := MAX_BLOCK_SIZE_GEN / _).
      assert (1 <= q <= 500000) as Hq.
      { unfold q. split; [apply Z.div_le_lower_bound; lia|]. apply Z.div_le_upper_bound; nia. }
      rewrite i64_small; nia.
    + intros [= <-]. apply clamp_lower; lia.
  - lia.
  - lia.
Qed.

Lemma GetMinFee_bounds_witness :
  Amount.MoneyRange 2000000 = true ∧ 0 <= 57 <= 100.
Proof.
  destruct (GetMinFee_bounds sample_tx 1000 false GMF_RELAY 70 2000000 100 57) as (H1 & _ & _ & H2);
    [reflexivity|lia|simpl; lia|lia|reflexivity|lia|reflexivity|]. split; assumption.
Defined.
End Transaction.
