(* ===== verification/Compressor.v ===== *)
(** * Compressor: compact amounts, scripts and outputs ([compressor.{h,cpp}], [CPubKey] of [pubkey.{h,cpp}])

    The format in which unspent outputs are stored.  Parsing and printing points of the curve is
    an interface ([Secp]); its laws are what secp256k1 documents. *)
From S2P Require Import Prelude Serialize Uint256 Amount Script Transaction.

Module Compressor.
Import Serialize Transaction.

(** ** Public keys: [CPubKey] is the bytes of [vch] up to its size *)
Class Secp := {
  secp256k1_pubkey : Type;
  secp256k1_ec_pubkey_parse : list Z → option secp256k1_pubkey;
  (** [SECP256K1_EC_UNCOMPRESSED] *)
  secp256k1_ec_pubkey_serialize : secp256k1_pubkey → list Z }.

Definition GetLen (chHeader : Z) : Z :=
  if (chHeader =? 2) || (chHeader =? 3) then 33
  else if (chHeader =? 4) || (chHeader =? 6) || (chHeader =? 7) then 65 else 0.
Definition PubKey_Set (l : list Z) : list Z :=
  let len := match l with [] => 0 | h :: _ => GetLen h end in
  if negb (len =? 0) && (len =? Script.size l) then l else [0xff].
Definition PubKey_size (k : list Z) : Z := GetLen k.[0].
Definition PubKey_IsValid (k : list Z) : bool := 0 <? PubKey_size k.

(** ** Amounts *)
(** The loop that divides by ten; the first argument is [9 - e]. *)
Fixpoint strip_zeros (k : nat) (n e : Z) : Z * Z :=
  match k with
  | O => (n, e)
  | S k => if n mod 10 =? 0 then strip_zeros k (n / 10) (e + 1) else (n, e)
  end.
Definition CompressAmount (n : Z) : option Z :=
  if n =? 0 then Some 0
  else
    let '(n, e) := strip_zeros 9 n 0 in
    if e <? 9 then
      let d := n mod 10 in
      if (1 <=? d) && (d <=? 9) then Some (u64 (1 + (n / 10 * 9 + d - 1) * 10 + e)) else None
    else Some (u64 (1 + (n - 1) * 10 + 9)).
Fixpoint add_zeros (e : nat) (n : Z) : Z :=
  match e with O => n | S e => add_zeros e (u64 (n * 10)) end.
Definition DecompressAmount (x : Z) : Z :=
  if x =? 0 then 0
  else
    let x := x - 1 in
    let e := x mod 10 in
    let x := x / 10 in
    let n := if e <? 9 then u64 (x / 9 * 10 + (x mod 9 + 1)) else u64 (x + 1) in
    add_zeros (Z.to_nat e) n.

(** ** Scripts *)
Definition nSpecialScripts : Z := 6.
(** [script[i] == op] *)
Definition is_at (s : list Z) (i : nat) (op : Script.opcodetype) : bool := s.[i] =? Script.opcode_val op.

Definition IsToKeyID (script : list Z) : option (list Z) :=
  if (Script.size script =? 25) && is_at script 0 Script.OP_DUP && is_at script 1 Script.OP_HASH160 &&
     (script.[2] =? 20) && is_at script 23 Script.OP_EQUALVERIFY && is_at script 24 Script.OP_CHECKSIG
  then Some (take 20 (drop 3 script)) else None.
Definition IsToScriptID (script : list Z) : option (list Z) :=
  if (Script.size script =? 23) && is_at script 0 Script.OP_HASH160 && (script.[1] =? 20) && is_at script 22 Script.OP_EQUAL
  then Some (take 20 (drop 2 script)) else None.

Ltac case_if E := match goal with |- context [if ?c then _ else _] => destruct c eqn:E end.

Section scripts.
Context `{Secp}.

Definition IsFullyValid (k : list Z) : bool :=
  PubKey_IsValid k && match secp256k1_ec_pubkey_parse k with Some _ => true | None => false end.
Definition PubKey_Decompress (k : list Z) : option (list Z) :=
  if negb (PubKey_IsValid k) then None
  else match secp256k1_ec_pubkey_parse k with
       | None => None
       | Some P => Some (PubKey_Set (secp256k1_ec_pubkey_serialize P))
       end.

Definition IsToPubKey (script : list Z) : option (list Z) :=
  if (Script.size script =? 35) && (script.[0] =? 33) && is_at script 34 Script.OP_CHECKSIG &&
     ((script.[1] =? 2) || (script.[1] =? 3))
  then Some (PubKey_Set (take 33 (drop 1 script)))
  else if (Script.size script =? 67) && (script.[0] =? 65) && is_at script 66 Script.OP_CHECKSIG && (script.[1] =? 4)
  then let pubkey := PubKey_Set (take 65 (drop 1 script)) in if IsFullyValid pubkey then Some pubkey else None
  else None.

Definition Compress (script : list Z) : option (list Z) :=
  match IsToKeyID script with
  | Some keyID => Some (0 :: keyID)
  | None =>
      match IsToScriptID script with
      | Some scriptID => Some (1 :: scriptID)
      | None =>
          match IsToPubKey script with
          | Some pubkey =>
              if (pubkey.[0] =? 2) || (pubkey.[0] =? 3) then Some (pubkey.[0] :: take 32 (drop 1 pubkey))
              else if pubkey.[0] =? 4 then Some (Z.lor 4 (Z.land pubkey.[64] 1) :: take 32 (drop 1 pubkey))
              else None
          | None => None
          end
      end
  end.

Definition GetSpecialSize (nSize : Z) : Z :=
  if (nSize =? 0) || (nSize =? 1) then 20
  else if (nSize =? 2) || (nSize =? 3) || (nSize =? 4) || (nSize =? 5) then 32 else 0.

(** The script, or [None] when the function returns false and leaves it as it is. *)
Definition Decompress (nSize : Z) (inp : list Z) : ser_error + option (list Z) :=
  let op := Script.opcode_val in
  if nSize =? 0 then
    inr (Some ([op Script.OP_DUP; op Script.OP_HASH160; 20] ++ take 20 inp ++ [op Script.OP_EQUALVERIFY; op Script.OP_CHECKSIG]))
  else if nSize =? 1 then inr (Some ([op Script.OP_HASH160; 20] ++ take 20 inp ++ [op Script.OP_EQUAL]))
  else if (nSize =? 2) || (nSize =? 3) then inr (Some ([33; nSize] ++ take 32 inp ++ [op Script.OP_CHECKSIG]))
  else if (nSize =? 4) || (nSize =? 5) then
    match PubKey_Decompress (PubKey_Set ((nSize - 2) :: take 32 inp)) with
    | None => inr None
    | Some pubkey =>
        if PubKey_size pubkey =? 65 then inr (Some ([65] ++ take 65 pubkey ++ [op Script.OP_CHECKSIG])) else inl AssertFailed
    end
  else inr None.

(** [VARINT] at a width; the buffer is large enough for every value of the type. *)
Definition Serialize_VarInt (w n : Z) : list Z := default [] (WriteVarInt w n).

Definition Serialize_CScriptCompressor (script : list Z) : list Z :=
  match Compress script with
  | Some compr => compr
  | None => Serialize_VarInt 32 (u32 (Script.size script + nSpecialScripts)) ++ script
  end.
Definition GetSerializeSize_CScriptCompressor (script : list Z) : Z :=
  match Compress script with
  | Some compr => u32 (Script.size compr)
  | None => u32 (Script.size script + GetSizeOfVarInt (u32 (Script.size script + nSpecialScripts)))
  end.
(** Reading into [script]; [s.ignore] also throws at the end of the stream. *)
Definition Unserialize_CScriptCompressor (script : list Z) : Reader (list Z) :=
  nSize ← ReadVarInt 32;
  if nSize <? nSpecialScripts then
    vch ← read (Z.to_nat (GetSpecialSize nSize));
    match Decompress nSize vch with
    | inl e => rthrow e
    | inr (Some s) => mret s
    | inr None => mret script
    end
  else
    let nSize := nSize - nSpecialScripts in
    if Script.MAX_SCRIPT_SIZE <? nSize then
      _ ← read (Z.to_nat nSize); mret (Script.push_opcode script Script.OP_RETURN)
    else read (Z.to_nat nSize).

(** ** Outputs; [txout] is the object that is read into *)
Definition Serialize_CTxOutCompressor (txout : CTxOut) : option (list Z) :=
  nVal ← CompressAmount (u64 (nValue txout));
  Some (Serialize_VarInt 64 nVal ++ Serialize_CScriptCompressor (scriptPubKey txout)).
Definition Unserialize_CTxOutCompressor (txout : CTxOut) : Reader CTxOut :=
  nVal ← ReadVarInt 64;
  s ← Unserialize_CScriptCompressor (scriptPubKey txout);
  mret (mkTxOut (i64 (DecompressAmount nVal)) s (nRounds txout)).
(** Writing an output, whose amount always compresses, and reading one into [CTxOut()]. *)
Definition put_txout (o : CTxOut) : list Z := default [] (Serialize_CTxOutCompressor o).
Definition get_txout : Reader CTxOut := Unserialize_CTxOutCompressor CTxOut_SetNull.
End scripts.

(** ** Variable-length integers are a codec *)
Lemma codec_varint w : 7 <= w <= 64 → Codec (Serialize_VarInt w) (ReadVarInt w) (λ n, 0 <= n < 2 ^ w).
Proof.
  intros Hw. split; intros n; [intros rest|]; intros Hn; unfold Serialize_VarInt.
  - destruct (WriteVarInt_read w n Hw Hn) as (out & -> & _ & Hr). apply Hr.
  - destruct (WriteVarInt_loop_total (varint_capacity w) 0 n []) as (out & Hout & Hd); [unfold varint_capacity; zlia| |constructor|].
    + split; [lia|]. eapply Z.lt_le_trans; [apply Hn|]. apply Z.pow_le_mono_r; [lia|unfold varint_capacity; zlia].
    + unfold WriteVarInt. by rewrite Hout.
Qed.
#[export] Instance codec_varint32 : Codec (Serialize_VarInt 32) (ReadVarInt 32) (λ n, 0 <= n < 2 ^ 32) := codec_varint 32 ltac:(lia).
#[export] Instance codec_varint64 : Codec (Serialize_VarInt 64) (ReadVarInt 64) (λ n, 0 <= n < 2 ^ 64) := codec_varint 64 ltac:(lia).
Lemma WriteVarInt_loop_short fuel : ∀ len n acc out, WriteVarInt_loop fuel len n acc = Some out → (length out <= fuel + length acc)%nat.
Proof.
  induction fuel as [|fuel IH]; intros len n acc out; cbn [WriteVarInt_loop]; [done|]. destruct (n <=? 0x7f); [intros [= <-]; simpl; lia|].
  intros H%IH. simpl in H. lia.
Qed.
(** A value of one digit is written as it is. *)
Lemma Serialize_VarInt_small w n : 7 <= w → 0 <= n < 128 → Serialize_VarInt w n = [n].
Proof.
  intros Hw Hn. unfold Serialize_VarInt, WriteVarInt. assert (∃ k, varint_capacity w = S k) as [k ->].
  { unfold varint_capacity. exists (Z.to_nat ((w + 6) / 7 - 1)). zlia. }
  cbn [WriteVarInt_loop Nat.eqb]. rewrite Z.lor_0_r, (proj2 (Z.leb_le n 0x7f)) by lia. cbn [default].
  change 0x7f with (Z.ones 7). rewrite Z.land_ones, Z.mod_small by lia. done.
Qed.

(** ** Amounts *)
Lemma strip_zeros_spec k : ∀ n e, 0 < n →
  ∃ m j, strip_zeros k n e = (m, e + Z.of_nat j) ∧ (j <= k)%nat ∧ n = m * 10 ^ Z.of_nat j ∧ 0 < m ∧ ((j < k)%nat → m mod 10 ≠ 0).
Proof.
  induction k as [|k IH]; intros n e Hn; cbn [strip_zeros].
  { exists n, 0%nat. split_and!; [f_equal; lia|lia|simpl; lia|done|lia]. }
  destruct (Z.eqb_spec (n mod 10) 0) as [E|E].
  - destruct (IH (n / 10) (e + 1)) as (m & j & -> & Hj & Hm & Hp & Hd); [zlia|]. exists m, (S j).
    split_and!; [f_equal; lia|lia| |done|intros; apply Hd; lia].
    rewrite Nat2Z.inj_succ, Z.pow_succ_r by lia. transitivity (10 * (m * 10 ^ Z.of_nat j)); [rewrite <- Hm; zlia|lia].
  - exists n, 0%nat. split_and!; [f_equal; lia|lia|simpl; lia|done|done].
Qed.
Lemma add_zeros_spec e : ∀ n, 0 <= n → n * 10 ^ Z.of_nat e < 2 ^ 64 → add_zeros e n = n * 10 ^ Z.of_nat e.
Proof.
  induction e as [|e IH]; intros n Hn Hb; cbn [add_zeros]; [simpl; lia|].
  rewrite Nat2Z.inj_succ, Z.pow_succ_r in * by lia. assert (0 < 10 ^ Z.of_nat e) by (apply Z.pow_pos_nonneg; lia).
  rewrite (u64_small (n * 10)) by nia. rewrite IH by nia. lia.
Qed.
Lemma CompressAmount_spec n : 0 <= n < 2 ^ 60 → ∃ x, CompressAmount n = Some x ∧ 0 <= x < 2 ^ 64 ∧ DecompressAmount x = n.
Proof.
  intros Hn. unfold CompressAmount. destruct (Z.eqb_spec n 0) as [->|H0]; [by exists 0|].
  destruct (strip_zeros_spec 9 n 0) as (m & j & -> & Hj & Hm & Hp & Hd); [lia|]. rewrite Z.add_0_l.
  assert (0 < 10 ^ Z.of_nat j) by (apply Z.pow_pos_nonneg; lia). assert (m <= n) by nia.
  destruct (Z.ltb_spec (Z.of_nat j) 9) as [Hlt|Hge].
  - specialize (Hd ltac:(lia)). rewrite (proj2 (Z.leb_le 1 (m mod 10))), (proj2 (Z.leb_le (m mod 10) 9)) by zlia. cbn [andb].
    rewrite u64_small by zlia. eexists. split; [done|]. split; [zlia|]. unfold DecompressAmount.
    destruct (Z.eqb_spec (1 + (m / 10 * 9 + m mod 10 - 1) * 10 + Z.of_nat j) 0); [zlia|].
    set (y := 1 + (m / 10 * 9 + m mod 10 - 1) * 10 + Z.of_nat j - 1).
    assert (y mod 10 = Z.of_nat j ∧ y / 10 = m / 10 * 9 + m mod 10 - 1) as [-> ->] by (unfold y; zlia).
    rewrite (proj2 (Z.ltb_lt _ _) Hlt), Nat2Z.id.
    assert ((m / 10 * 9 + m mod 10 - 1) / 9 * 10 + ((m / 10 * 9 + m mod 10 - 1) mod 9 + 1) = m) as -> by zlia.
    rewrite u64_small by lia. rewrite add_zeros_spec by lia. lia.
  - assert (j = 9%nat) as -> by lia. change (10 ^ Z.of_nat 9) with 1000000000 in *. rewrite u64_small by lia. eexists. split; [done|]. split; [lia|]. unfold DecompressAmount.
    destruct (Z.eqb_spec (1 + (m - 1) * 10 + 9) 0); [lia|]. set (y := 1 + (m - 1) * 10 + 9 - 1).
    assert (y mod 10 = 9 ∧ y / 10 + 1 = m) as [-> ->] by (unfold y; zlia). change (9 <? 9) with false. cbv iota.
    rewrite u64_small by lia. rewrite add_zeros_spec; change (10 ^ Z.of_nat (Z.to_nat 9)) with 1000000000; lia.
Qed.

(** ** Scripts *)
(** What secp256k1 documents: parsed points are written as 65 bytes that start with 4; an uncompressed
    key is written as it was read, and its compressed form denotes the same point. *)
Class SecpLaws (S : Secp) : Prop := {
  serialize_form k P : secp256k1_ec_pubkey_parse k = Some P →
    length (secp256k1_ec_pubkey_serialize P) = 65%nat ∧ (secp256k1_ec_pubkey_serialize P).[0] = 4;
  parse_uncompressed k P : length k = 65%nat → k.[0] = 4 → secp256k1_ec_pubkey_parse k = Some P → secp256k1_ec_pubkey_serialize P = k;
  parse_compressed k P : length k = 65%nat → k.[0] = 4 → secp256k1_ec_pubkey_parse k = Some P →
    secp256k1_ec_pubkey_parse ((2 + Z.land k.[64] 1) :: take 32 (drop 1 k)) = Some P }.

Lemma drop_get l i : (i < length l)%nat → drop i l = l.[i] :: drop (S i) l.
Proof. intros Hi. unfold get. destruct (lookup_lt_is_Some_2 l i Hi) as [x Hx]. rewrite Hx. by apply drop_S. Qed.
Lemma take_S_get l i : (i < length l)%nat → take (S i) l = take i l ++ [l.[i]].
Proof. intros Hi. unfold get. destruct (lookup_lt_is_Some_2 l i Hi) as [x Hx]. rewrite Hx. by apply take_S_r. Qed.
(** A list in three parts. *)
Lemma cut a b (l : list Z) : l = take a l ++ take b (drop a l) ++ drop (a + b) l.
Proof. rewrite <- (take_drop a l) at 1. f_equal. rewrite <- (take_drop b (drop a l)) at 1. by rewrite drop_drop. Qed.
Lemma is_at_true l i op : is_at l i op = true ↔ l.[i] = Script.opcode_val op.
Proof. apply Z.eqb_eq. Qed.
Lemma size_eq (l : list Z) n : Script.size l = Z.of_nat n ↔ length l = n.
Proof. unfold Script.size. lia. Qed.

Lemma IsToKeyID_form script h : IsToKeyID script = Some h →
  length h = 20%nat ∧ script = [Script.opcode_val Script.OP_DUP; Script.opcode_val Script.OP_HASH160; 20] ++ h ++
    [Script.opcode_val Script.OP_EQUALVERIFY; Script.opcode_val Script.OP_CHECKSIG].
Proof.
  unfold IsToKeyID. destruct (_ && _)%bool eqn:E; [|done]. intros [= <-]. rewrite !andb_true_iff, !is_at_true, !Z.eqb_eq in E.
  destruct E as [[[[[Hl H0] H1] H2] H3] H4]. apply (size_eq script 25) in Hl. rewrite length_take, length_drop, Hl. split; [done|].
  rewrite (cut 3 20 script) at 1. f_equal; [|f_equal].
  - rewrite !take_S_get by lia. by rewrite H0, H1, H2.
  - cbn [Nat.add]. rewrite !drop_get, drop_ge by lia. by rewrite H3, H4.
Qed.
Lemma IsToScriptID_form script h : IsToScriptID script = Some h →
  length h = 20%nat ∧ script = [Script.opcode_val Script.OP_HASH160; 20] ++ h ++ [Script.opcode_val Script.OP_EQUAL].
Proof.
  unfold IsToScriptID. destruct (_ && _)%bool eqn:E; [|done]. intros [= <-]. rewrite !andb_true_iff, !is_at_true, !Z.eqb_eq in E.
  destruct E as [[[Hl H0] H1] H2]. apply (size_eq script 23) in Hl. rewrite length_take, length_drop, Hl. split; [done|].
  rewrite (cut 2 20 script) at 1. f_equal; [|f_equal].
  - rewrite !take_S_get by lia. by rewrite H0, H1.
  - cbn [Nat.add]. rewrite !drop_get, drop_ge by lia. by rewrite H2.
Qed.
Lemma PubKey_Set_id l : GetLen l.[0] = Script.size l → l ≠ [] → PubKey_Set l = l.
Proof.
  intros Hl Hn. unfold PubKey_Set. destruct l as [|h l]; [done|]. change (h :: l).[0] with h in Hl. rewrite Hl, Z.eqb_refl.
  destruct (Z.eqb_spec (Script.size (h :: l)) 0) as [E|]; [|done]. unfold Script.size in E. simpl in E. lia.
Qed.

Section script_facts.
Context `{SL : SecpLaws}.

Lemma IsToPubKey_form script k : IsToPubKey script = Some k →
  (length k = 33%nat ∧ (k.[0] = 2 ∨ k.[0] = 3) ∧ script = [33] ++ k ++ [Script.opcode_val Script.OP_CHECKSIG]) ∨
  (length k = 65%nat ∧ k.[0] = 4 ∧ (∃ P, secp256k1_ec_pubkey_parse k = Some P) ∧ script = [65] ++ k ++ [Script.opcode_val Script.OP_CHECKSIG]).
Proof using Type.
  assert (∀ n, (2 < length script)%nat → (take (S n) (drop 1 script)).[0] = script.[1]) as Hget
    by (intros n Hn; unfold get; by rewrite lookup_take_lt, lookup_drop by lia).
  assert (∀ n, length script = (n + 2)%nat → script.[S n] = Script.opcode_val Script.OP_CHECKSIG →
    length (take n (drop 1 script)) = n ∧ script = [script.[0]] ++ take n (drop 1 script) ++ [Script.opcode_val Script.OP_CHECKSIG]) as Hcut.
  { intros n Hl Hc. rewrite length_take, length_drop, Hl. split; [lia|]. rewrite (cut 1 n script) at 1. f_equal; [|f_equal].
    - by rewrite take_S_get by lia.
    - cbn [Nat.add]. rewrite drop_get, drop_ge by lia. by rewrite Hc. }
  unfold IsToPubKey. case_if E; [|case_if E']; [| |done].
  - intros [= <-]. left. rewrite !andb_true_iff, orb_true_iff, is_at_true, !Z.eqb_eq in E. destruct E as [[[Hl H0] H1] H2].
    apply (size_eq script 35) in Hl. destruct (Hcut 33%nat Hl H1) as [Hk Hs].
    rewrite PubKey_Set_id; rewrite ?Hget by lia.
    + rewrite H0 in Hs. done.
    + unfold Script.size. rewrite Hk. destruct H2 as [-> | ->]; done.
    + intros Hn. by rewrite Hn in Hk.
  - clear E. rewrite !andb_true_iff, is_at_true, !Z.eqb_eq in E'. destruct E' as [[[Hl H0] H1] H2].
    apply (size_eq script 67) in Hl. destruct (Hcut 65%nat Hl H1) as [Hk Hs]. rewrite PubKey_Set_id; rewrite ?Hget by lia.
    + destruct (IsFullyValid _) eqn:Ev; [|done]. intros [= <-]. right. rewrite Hget by lia. rewrite H0 in Hs. split_and!; [done|done| |done].
      unfold IsFullyValid in Ev. apply andb_true_iff in Ev as [_ Ev]. destruct (secp256k1_ec_pubkey_parse _) as [P|]; [eauto|done].
    + unfold Script.size. by rewrite Hk, H2.
    + intros Hn. by rewrite Hn in Hk.
Qed.

Lemma Decompress_uncompressed k P : length k = 65%nat → k.[0] = 4 → secp256k1_ec_pubkey_parse k = Some P →
  ∃ tag pay, Z.lor 4 (Z.land k.[64] 1) :: take 32 (drop 1 k) = tag :: pay ∧ 0 <= tag < nSpecialScripts ∧
    length pay = Z.to_nat (GetSpecialSize tag) ∧ Decompress tag pay = inr (Some ([65] ++ k ++ [Script.opcode_val Script.OP_CHECKSIG])).
Proof using SL.
  intros Hl H0 HP. set (x := take 32 (drop 1 k)). assert (length x = 32%nat) as Hx by (unfold x; rewrite length_take, length_drop, Hl; done).
  exists (Z.lor 4 (Z.land k.[64] 1)), x. split; [done|].
  assert (∃ d, Z.land k.[64] 1 = d ∧ (d = 0 ∨ d = 1)) as (d & Hd & Hd').
  { exists (k.[64] mod 2). split; [|zlia]. change 1 with (Z.ones 1). by rewrite Z.land_ones by lia. }
  pose proof (parse_compressed k P Hl H0 HP) as Hp. rewrite Hd in Hp. fold x in Hp. rewrite Hd.
  assert (PubKey_Set (2 + d :: x) = 2 + d :: x) as Hset.
  { apply PubKey_Set_id; [|done]. unfold Script.size. cbn [length]. rewrite Hx. destruct Hd' as [-> | ->]; done. }
  assert (PubKey_Decompress (PubKey_Set (2 + d :: take 32 x)) = Some k) as Hdec.
  { rewrite (take_ge x) by lia. rewrite Hset. unfold PubKey_Decompress. rewrite Hp, (parse_uncompressed k P Hl H0 HP).
    assert (PubKey_IsValid (2 + d :: x) = true) as -> by (destruct Hd' as [-> | ->]; done). cbn [negb]. f_equal.
    apply PubKey_Set_id; [by rewrite H0; unfold Script.size; rewrite Hl|by intros ->]. }
  assert (PubKey_size k = 65) as Hsz by (unfold PubKey_size; by rewrite H0).
  destruct Hd' as [-> | ->]; (split_and!; [done|done|done|]); unfold Decompress;
    [change (Z.lor 4 0) with 4; change (4 - 2) with (2 + 0)|change (Z.lor 4 1) with 5; change (5 - 2) with (2 + 1)];
    cbn [Z.eqb Pos.eqb orb]; rewrite Hdec, Hsz, take_ge by lia; done.
Qed.
(** Every special form is restored from its tag and its payload. *)
Lemma Compress_Decompress script c : Compress script = Some c → ∃ tag pay, c = tag :: pay ∧ 0 <= tag < nSpecialScripts ∧
  length pay = Z.to_nat (GetSpecialSize tag) ∧ Decompress tag pay = inr (Some script).
Proof using SL.
  unfold Compress. destruct (IsToKeyID script) as [h|] eqn:E1.
  { intros [= <-]. apply IsToKeyID_form in E1 as [Hl ->]. exists 0, h. split_and!; [done|done|done|done|]. unfold Decompress. cbn [Z.eqb].
    by rewrite take_ge by lia. }
  destruct (IsToScriptID script) as [h|] eqn:E2.
  { intros [= <-]. apply IsToScriptID_form in E2 as [Hl ->]. exists 1, h. split_and!; [done|done|done|done|]. unfold Decompress. cbn [Z.eqb].
    by rewrite take_ge by lia. }
  destruct (IsToPubKey script) as [k|] eqn:E3; [|done]. destruct (IsToPubKey_form script k E3) as [(Hl & H0 & ->)|(Hl & H0 & (P & HP) & ->)].
  - assert (k = k.[0] :: take 32 (drop 1 k)) as Hk.
    { rewrite take_ge by (rewrite length_drop; lia). rewrite <- (drop_get k 0) by lia. done. }
    assert (Script.opcode_val Script.OP_CHECKSIG = 172) as Hop by done.
    destruct H0 as [H0|H0]; rewrite H0 in *; cbn [Z.eqb Pos.eqb orb]; intros [= <-]; eexists _, _; (split; [done|]);
      split_and!; [done|done|rewrite length_take, length_drop, Hl; done| |done|done|rewrite length_take, length_drop, Hl; done|];
      unfold Decompress; cbn [Z.eqb Pos.eqb orb]; rewrite take_take; cbn [Nat.min]; rewrite Hk at 2; done.
  - rewrite H0. cbn [Z.eqb Pos.eqb orb]. intros [= <-]. by apply (Decompress_uncompressed k P).
Qed.
Lemma Compress_size script c : Compress script = Some c → Script.size script <= 67.
Proof using Type.
  unfold Compress. destruct (IsToKeyID script) as [h|] eqn:E1; [|destruct (IsToScriptID script) as [h|] eqn:E2; [|destruct (IsToPubKey script) as [k|] eqn:E3; [|done]]].
  - intros _. apply IsToKeyID_form in E1 as [Hl ->]. unfold Script.size. simpl. rewrite length_app. simpl. lia.
  - intros _. apply IsToScriptID_form in E2 as [Hl ->]. unfold Script.size. simpl. rewrite length_app. simpl. lia.
  - intros _. apply IsToPubKey_form in E3 as [(Hl & _ & ->)|(Hl & _ & _ & ->)]; unfold Script.size; simpl; rewrite length_app; simpl; lia.
Qed.

Lemma compressed_script_read script dst rest : Script.size script + nSpecialScripts < 2 ^ 32 →
  Unserialize_CScriptCompressor dst (Serialize_CScriptCompressor script ++ rest) =
    inr (if Script.MAX_SCRIPT_SIZE <? Script.size script then Script.push_opcode dst Script.OP_RETURN else script, rest).
Proof using SL.
  intros Hs. unfold Unserialize_CScriptCompressor, Serialize_CScriptCompressor. destruct (Compress script) as [c|] eqn:Ec.
  - pose proof (Compress_size script c Ec). destruct (Compress_Decompress script c Ec) as (tag & pay & -> & Ht & Hl & Hd).
    unfold nSpecialScripts in Ht. change ((tag :: pay) ++ rest) with ([tag] ++ pay ++ rest).
    rewrite <- (Serialize_VarInt_small 32 tag) by lia. rewrite (dec_step (enc := Serialize_VarInt 32)) by lia.
    rewrite (proj2 (Z.ltb_lt tag nSpecialScripts)) by (unfold nSpecialScripts; lia). rewrite <- Hl. erewrite bind_run by apply read_app. rewrite Hd.
    by rewrite (proj2 (Z.ltb_ge Script.MAX_SCRIPT_SIZE _)) by (unfold Script.MAX_SCRIPT_SIZE; lia).
  - assert (0 <= Script.size script) by (unfold Script.size; lia). assert (0 < nSpecialScripts) by done. rewrite u32_small by lia.
    rewrite <- app_assoc. rewrite (dec_step (enc := Serialize_VarInt 32)) by lia. rewrite (proj2 (Z.ltb_ge _ nSpecialScripts)) by lia.
    rewrite Z.add_simpl_r. assert (Z.to_nat (Script.size script) = length script) as -> by (unfold Script.size; lia).
    destruct (_ <? _); [by erewrite bind_run by apply read_app|apply read_app].
Qed.
Lemma compressed_script_size script : Script.size script + nSpecialScripts < 2 ^ 31 →
  GetSerializeSize_CScriptCompressor script = Script.size (Serialize_CScriptCompressor script).
Proof using SL.
  intros Hs. assert (0 <= Script.size script) by (unfold Script.size; lia). assert (nSpecialScripts = 6) by done.
  unfold GetSerializeSize_CScriptCompressor, Serialize_CScriptCompressor. destruct (Compress script) as [c|] eqn:Ec.
  - destruct (Compress_Decompress script c Ec) as (tag & pay & -> & _ & Hl & _). apply u32_small. unfold Script.size. cbn [length].
    rewrite Hl. unfold GetSpecialSize. destruct (_ || _)%bool; [lia|destruct (_ || _)%bool; lia].
  - rewrite (u32_small (_ + nSpecialScripts)) by lia. destruct (WriteVarInt_read 32 (Script.size script + nSpecialScripts)) as (out & Hout & Hsz & _); [lia..|].
    unfold Serialize_VarInt. rewrite Hout. change (default [] (Some out)) with out. rewrite <- Hsz. unfold Script.size. rewrite length_app, u32_small; [lia|].
    apply WriteVarInt_loop_short in Hout. unfold Script.size in *. simpl in Hout. lia.
Qed.

Lemma Compress_bytes script c : Radix.digits 256 script → Compress script = Some c → Radix.digits 256 c.
Proof using Type.
  intros Hd Hc. assert (∀ a b, Radix.digits 256 (take a (drop b script))) as Hp by (intros; by apply Forall_take, Forall_drop).
  assert (∀ l, Radix.digits 256 l → Radix.digits 256 (PubKey_Set l)) as Hset.
  { intros l Hl. unfold PubKey_Set. case_if E; [done|]. repeat constructor; lia. }
  assert (∀ k, IsToPubKey script = Some k → Radix.digits 256 k) as Hk.
  { intros k. unfold IsToPubKey. case_if E1; [intros [= <-]; by apply Hset|]. case_if E2; [|done]. case_if E3; [|done]. intros [= <-]. by apply Hset. }
  revert Hc. unfold Compress. destruct (IsToKeyID script) as [h|] eqn:E1.
  { unfold IsToKeyID in E1. revert E1. case_if E; [|done]. intros [= <-] [= <-]. constructor; [lia|apply Hp]. }
  destruct (IsToScriptID script) as [h|] eqn:E2.
  { unfold IsToScriptID in E2. revert E2. case_if E; [|done]. intros [= <-] [= <-]. constructor; [lia|apply Hp]. }
  destruct (IsToPubKey script) as [k|]; [|done]. specialize (Hk k eq_refl). assert (Radix.digits 256 (take 32 (drop 1 k))) by by apply Forall_take, Forall_drop.
  case_if E; [|case_if E'; [|done]]; intros [= <-]; constructor; try done.
  - breflect. lia.
  - assert (Z.land k.[64] 1 = k.[64] mod 2) as -> by (change 1 with (Z.ones 1); by rewrite Z.land_ones by lia).
    assert (k.[64] mod 2 = 0 ∨ k.[64] mod 2 = 1) as [-> | ->] by zlia; split; by vm_compute.
Qed.
(** Outputs as they are stored: an amount in the money range and a script that is not too long. *)
Definition storable (o : CTxOut) : Prop :=
  0 <= nValue o <= Amount.MAX_MONEY ∧ Radix.digits 256 (scriptPubKey o) ∧ Script.size (scriptPubKey o) <= Script.MAX_SCRIPT_SIZE ∧ nRounds o = -10.
Lemma compressed_output o : 0 <= nValue o <= Amount.MAX_MONEY → ∃ x, Serialize_CTxOutCompressor o = Some (Serialize_VarInt 64 x ++ Serialize_CScriptCompressor (scriptPubKey o)) ∧
  0 <= x < 2 ^ 64 ∧ i64 (DecompressAmount x) = nValue o.
Proof using Type.
  intros Hv. assert (Amount.MAX_MONEY < 2 ^ 60) by done. unfold Serialize_CTxOutCompressor. rewrite u64_small by lia.
  destruct (CompressAmount_spec (nValue o)) as (x & -> & Hx & Hd); [lia|]. exists x. split_and!; [done|lia|lia|]. rewrite Hd. apply i64_small. lia.
Qed.
#[export] Instance codec_compressed_txout : Codec put_txout get_txout storable.
Proof using SL.
  split; intros o; [intros rest|]; intros (Hv & Hd & Hs & Hr); unfold put_txout; destruct (compressed_output o Hv) as (x & -> & Hx & Hx'); cbn [from_option id].
  - rewrite <- app_assoc. unfold get_txout, Unserialize_CTxOutCompressor. rewrite (dec_step (enc := Serialize_VarInt 64)) by lia.
    assert (Script.size (scriptPubKey o) + nSpecialScripts < 2 ^ 32) by (unfold nSpecialScripts, Script.MAX_SCRIPT_SIZE in *; lia).
    erewrite bind_run by (by apply compressed_script_read). rewrite (proj2 (Z.ltb_ge _ _)) by lia. rewrite Hx'. unfold mret, reader_ret.
    destruct o. cbn in *. by subst.
  - apply digits_app. split; [by apply codec_varint64|]. unfold Serialize_CScriptCompressor.
    destruct (Compress _) as [c|] eqn:Ec; [by eapply Compress_bytes|]. apply digits_app. split; [|done]. apply codec_varint32, u32_range.
Qed.
End script_facts.

(** Compressed outputs are read back.  For every amount in the money range the assertion of
    [CompressAmount] holds, and for every script shorter than [2^31 - 6] bytes, whatever form it has: the size
    announced is the size written, and reading gives the output back, except that a script longer than
    [MAX_SCRIPT_SIZE] is replaced by [OP_RETURN]; the reader stops at the end of the output. *)
Theorem compressor_roundtrip (S : Secp) o rest : SecpLaws S → 0 <= nValue o <= Amount.MAX_MONEY →
  Script.size (scriptPubKey o) + nSpecialScripts < 2 ^ 31 →
  ∃ out, Serialize_CTxOutCompressor o = Some out ∧
    GetSerializeSize_CScriptCompressor (scriptPubKey o) = Script.size (Serialize_CScriptCompressor (scriptPubKey o)) ∧
    Unserialize_CTxOutCompressor CTxOut_SetNull (out ++ rest) =
      inr (mkTxOut (nValue o) (if Script.MAX_SCRIPT_SIZE <? Script.size (scriptPubKey o) then [Script.opcode_val Script.OP_RETURN]
                               else scriptPubKey o) (-10), rest).
Proof.
  intros SL Hv Hs. destruct (compressed_output o Hv) as (x & E & Hx & Hx'). eexists. split; [exact E|]. split; [by apply compressed_script_size|].
  unfold Unserialize_CTxOutCompressor. rewrite <- app_assoc, (dec_step (enc := Serialize_VarInt 64)) by lia.
  erewrite bind_run by (apply compressed_script_read; lia). by rewrite Hx'.
Qed.

(** A curve of two points per coordinate, to run the definitions on. *)
#[local] Instance toy_secp : Secp := {|
  secp256k1_pubkey := list Z;
  secp256k1_ec_pubkey_parse k :=
    if (length k =? 65)%nat && (k.[0] =? 4) then
      if decide (k = [4] ++ take 32 (drop 1 k) ++ replicate 31 0 ++ [Z.land k.[64] 1]) then Some k else None
    else if (length k =? 33)%nat && ((k.[0] =? 2) || (k.[0] =? 3)) then Some ([4] ++ drop 1 k ++ replicate 31 0 ++ [k.[0] - 2])
    else None;
  secp256k1_ec_pubkey_serialize P := P |}.
#[local] Instance toy_laws : SecpLaws toy_secp.
Proof.
  split; cbn [secp256k1_ec_pubkey_parse secp256k1_ec_pubkey_serialize toy_secp].
  - intros k P. case_if E; [|case_if E'; [|done]].
    + destruct (decide _); [|done]. intros [= <-]. breflect. split; lia.
    + intros [= <-]. apply andb_true_iff in E' as [Hl%Nat.eqb_eq _]. split; [|done]. cbn [app length]. rewrite length_app, length_drop, Hl. done.
  - intros k P Hl H0. rewrite Hl, H0. cbn [Nat.eqb Z.eqb Pos.eqb andb]. destruct (decide _); [|done]. by intros [= <-].
  - intros k P Hl H0. rewrite Hl, H0. cbn [Nat.eqb Z.eqb Pos.eqb andb]. destruct (decide _) as [Hk|]; [|done]. intros [= <-].
    assert (length (take 32 (drop 1 k)) = 32%nat) as Hx by (rewrite length_take, length_drop; lia). cbn [length]. rewrite Hx. cbn [Nat.eqb andb].
    change ((2 + Z.land k.[64] 1 :: take 32 (drop 1 k)).[0]) with (2 + Z.land k.[64] 1).
    assert (Z.land k.[64] 1 = 0 ∨ Z.land k.[64] 1 = 1) as Hd.
    { assert (Z.land k.[64] 1 = k.[64] mod 2) as -> by (change 1 with (Z.ones 1); by rewrite Z.land_ones by lia). zlia. }
    assert (((2 + Z.land k.[64] 1 =? 2) || (2 + Z.land k.[64] 1 =? 3))%bool = true) as -> by (destruct Hd as [-> | ->]; done).
    rewrite Z.add_simpl_l. rewrite skipn_cons, drop_0. by rewrite <- Hk.
Qed.

(** An uncompressed key script of 67 bytes takes 33. *)
Definition sample_key_script : list Z := [65; 4] ++ replicate 32 7 ++ replicate 31 0 ++ [1; 172].
Lemma compressor_roundtrip_witness :
  ∃ out, Serialize_CTxOutCompressor (mkTxOut 1234500000 sample_key_script (-10)) = Some out ∧
    Unserialize_CTxOutCompressor CTxOut_SetNull (out ++ [1; 2]) = inr (mkTxOut 1234500000 sample_key_script (-10), [1; 2]).
Proof.
  destruct (compressor_roundtrip toy_secp (mkTxOut 1234500000 sample_key_script (-10)) [1; 2] toy_laws) as (out & E & _ & H).
  - vm_compute. split; discriminate.
  - vm_compute. reflexivity.
  - exists out. exact (conj E H).
Defined.
Example sample_compressed : Serialize_CTxOutCompressor (mkTxOut 1234500000 sample_key_script (-10)) = Some ([133; 227; 2; 5] ++ replicate 32 7).
Proof. vm_compute. reflexivity. Qed.
End Compressor.
