(* ===== verification/Coins.v ===== *)
(** * Coins: the unspent outputs of a transaction ([CCoins] of [coins.{h,cpp}], [undo.h])

    The data of the coin database and of the undo files: spending, cleaning up, and the
    compact serialization with its bit mask of unspent outputs. *)
From S2P Require Import Prelude Serialize Uint256 Amount Script Transaction Compressor.

Module Coins.
Import Serialize Transaction Compressor.

Record CCoins := mkCoins { fCoinBase : bool; c_vout : list CTxOut; c_nHeight : Z; c_nVersion : Z }.
(** [CCoins()] and what [Clear] leaves. *)
Definition Clear : CCoins := mkCoins false [] 0 0.
Definition set_vout (c : CCoins) (v : list CTxOut) : CCoins := mkCoins (fCoinBase c) v (c_nHeight c) (c_nVersion c).

(** The loop of [Cleanup] on the outputs, the last one first. *)
Fixpoint pop_nulls (back : list CTxOut) : list CTxOut :=
  match back with o :: l => if CTxOut_IsNull o then pop_nulls l else back | [] => [] end.
Definition trim (v : list CTxOut) : list CTxOut := rev (pop_nulls (rev v)).
Definition Cleanup (c : CCoins) : CCoins := set_vout c (trim (c_vout c)).
Definition ClearUnspendable (c : CCoins) : CCoins :=
  Cleanup (set_vout c (map (λ o, if Script.IsUnspendable (scriptPubKey o) then CTxOut_SetNull else o) (c_vout c))).
Definition FromTx (tx : CMutableTransaction) (nHeightIn : Z) : CCoins :=
  ClearUnspendable (mkCoins (IsCoinBase tx) (vout tx) nHeightIn (tx_nVersion tx)).

(** [vout[nPos]] of coins that may have fewer outputs. *)
Definition avail (v : list CTxOut) (i : nat) : bool := match v !! i with Some o => negb (CTxOut_IsNull o) | None => false end.
Definition IsAvailable (c : CCoins) (nPos : Z) : bool := avail (c_vout c) (Z.to_nat nPos).
Definition IsPruned (c : CCoins) : bool := forallb CTxOut_IsNull (c_vout c).
Definition Spend (c : CCoins) (nPos : Z) : option CCoins :=
  if IsAvailable c nPos then Some (Cleanup (set_vout c (<[Z.to_nat nPos := CTxOut_SetNull]> (c_vout c)))) else None.

(** [operator==] of outputs does not compare [nRounds]. *)
Definition CTxOut_eqb (a b : CTxOut) : bool := (nValue a =? nValue b) && bool_decide (scriptPubKey a = scriptPubKey b).
Fixpoint vout_eqb (a b : list CTxOut) : bool :=
  match a, b with
  | [], [] => true
  | x :: a, y :: b => CTxOut_eqb x y && vout_eqb a b
  | _, _ => false
  end.
Definition CCoins_eqb (a b : CCoins) : bool :=
  if IsPruned a && IsPruned b then true
  else Bool.eqb (fCoinBase a) (fCoinBase b) && (c_nHeight a =? c_nHeight b) && (c_nVersion a =? c_nVersion b) && vout_eqb (c_vout a) (c_vout b).

(** ** The bit mask of outputs, from the third on *)
(** The [b] with [2 + b * 8 < vout.size()]. *)
Definition mask_range (v : list CTxOut) : list nat := seq 0 ((length v - 2 + 7) / 8).
Definition fZero (v : list CTxOut) (b : nat) : bool := forallb (λ i, negb (avail v (2 + b * 8 + i))) (seq 0 8).
Definition CalcMaskSize (v : list CTxOut) : nat * nat :=
  foldl (λ '(nLastUsedByte, nNonzeroBytes) b, if fZero v b then (nLastUsedByte, nNonzeroBytes) else (S b, S nNonzeroBytes))
    (0%nat, 0%nat) (mask_range v).
Definition chAvail (v : list CTxOut) (b : nat) : Z :=
  foldl (λ ch i, if avail v (2 + b * 8 + i) then Z.lor ch (Z.shiftl 1 (Z.of_nat i)) else ch) 0 (seq 0 8).

Section serialization.
Context `{Secp}.

Definition coins_nCode (c : CCoins) (nMaskCode : nat) : Z :=
  let fFirst := avail (c_vout c) 0 in
  let fSecond := avail (c_vout c) 1 in
  u32 (8 * u32 (Z.of_nat nMaskCode - (if fFirst || fSecond then 0 else 1)) + (if fCoinBase c then 1 else 0) +
       (if fFirst then 2 else 0) + (if fSecond then 4 else 0)).
(** [None] is a failed assertion. *)
Definition Serialize_CCoins (c : CCoins) : option (list Z) :=
  let '(nMaskSize, nMaskCode) := CalcMaskSize (c_vout c) in
  if avail (c_vout c) 0 || avail (c_vout c) 1 || negb (nMaskCode =? 0)%nat then
    Some (Serialize_VarInt 32 (c_nVersion c) ++ Serialize_VarInt 32 (coins_nCode c nMaskCode) ++
          map (chAvail (c_vout c)) (seq 0 nMaskSize) ++
          concat (map put_txout (List.filter (λ o, negb (CTxOut_IsNull o)) (c_vout c))) ++
          Serialize_VarInt 32 (c_nHeight c))
  else None.

Definition byte_bits (ch : Z) : list bool := map (λ p, negb (Z.land ch (Z.shiftl 1 (Z.of_nat p)) =? 0)) (seq 0 8).
(** The loop that reads the mask, on the stream. *)
Fixpoint read_mask (nMaskCode : Z) (vAvail : list bool) (s : list Z) : ser_error + (list bool * list Z) :=
  if nMaskCode <=? 0 then inr (vAvail, s)
  else match s with
       | [] => inl EndOfData
       | ch :: s => read_mask (if ch =? 0 then nMaskCode else nMaskCode - 1) (vAvail ++ byte_bits ch) s
       end.
Fixpoint read_outputs (vAvail : list bool) : Reader (list CTxOut) :=
  match vAvail with
  | [] => mret []
  | a :: vAvail => o ← (if a : bool then get_txout else mret CTxOut_SetNull); v ← read_outputs vAvail; mret (o :: v)
  end.
Definition Unserialize_CCoins : Reader CCoins :=
  nVersion ← ReadVarInt 32;
  nCode ← ReadVarInt 32;
  vAvail ← read_mask (nCode / 8 + (if negb (Z.land nCode 6 =? 0) then 0 else 1))
             [negb (Z.land nCode 2 =? 0); negb (Z.land nCode 4 =? 0)];
  v ← read_outputs vAvail;
  nHeight ← ReadVarInt 32;
  mret (Cleanup (mkCoins (negb (Z.land nCode 1 =? 0)) v (i32 nHeight) (i32 nVersion))).

(** ** Undo data *)
Record CTxInUndo := mkUndo { u_txout : CTxOut; u_fCoinBase : bool; u_nHeight : Z; u_nVersion : Z }.
Definition Serialize_CTxInUndo (u : CTxInUndo) : list Z :=
  Serialize_VarInt 32 (u32 (u_nHeight u * 2 + (if u_fCoinBase u then 1 else 0))) ++
  (if 0 <? u_nHeight u then Serialize_VarInt 32 (u_nVersion u) else []) ++ put_txout (u_txout u).
(** Reading into [CTxInUndo()]. *)
Definition Unserialize_CTxInUndo : Reader CTxInUndo :=
  nCode ← ReadVarInt 32;
  nVersion ← (if 0 <? nCode / 2 then v ← ReadVarInt 32; mret (i32 v) else mret 0);
  o ← get_txout;
  mret (mkUndo o (negb (Z.land nCode 1 =? 0)) (nCode / 2) nVersion).
End serialization.

(** ** Cleaning up *)
Lemma trim_snoc v o : trim (v ++ [o]) = if CTxOut_IsNull o then trim v else v ++ [o].
Proof. unfold trim. rewrite rev_app_distr. cbn [rev app pop_nulls]. destruct (CTxOut_IsNull o); [done|]. cbn [rev]. by rewrite rev_involutive. Qed.
Lemma trim_ends v : trim v = [] ∨ ∃ l o, trim v = l ++ [o] ∧ CTxOut_IsNull o = false.
Proof.
  induction v as [|o v IH] using rev_ind; [by left|]. rewrite trim_snoc. destruct (CTxOut_IsNull o) eqn:E; [done|]. right. eauto.
Qed.
Lemma trim_idemp v : trim (trim v) = trim v.
Proof. destruct (trim_ends v) as [-> |(l & o & -> & Ho)]; [done|]. by rewrite trim_snoc, Ho. Qed.
Lemma trim_nulls v n : trim (v ++ replicate n CTxOut_SetNull) = trim v.
Proof.
  induction n as [|n IH]; [by rewrite app_nil_r|]. replace (S n) with (n + 1)%nat by lia. rewrite replicate_add, app_assoc.
  cbn [replicate]. by rewrite trim_snoc.
Qed.
Lemma trim_avail v i : avail (trim v) i = avail v i.
Proof.
  induction v as [|o v IH] using rev_ind; [done|]. rewrite trim_snoc. destruct (CTxOut_IsNull o) eqn:E; [|done]. rewrite IH. unfold avail.
  destruct (decide (i < length v)%nat) as [Hi|Hi]; [by rewrite lookup_app_l|]. rewrite lookup_ge_None_2, lookup_app_r by lia.
  destruct (i - length v)%nat; simpl; [by rewrite E|done].
Qed.
Lemma trim_all_null v : forallb CTxOut_IsNull v = true ↔ trim v = [].
Proof.
  induction v as [|o v IH] using rev_ind; [done|]. rewrite trim_snoc, forallb_app. cbn [forallb]. destruct (CTxOut_IsNull o); cbn [andb].
  - by rewrite !andb_true_r.
  - rewrite andb_false_r. split; [done|]. by intros [_ ?]%app_eq_nil.
Qed.
Lemma trim_incl v o : o ∈ trim v → o ∈ v.
Proof.
  induction v as [|x v IH] using rev_ind; [done|]. rewrite trim_snoc. destruct (CTxOut_IsNull x); [|done]. intros ?%IH. apply elem_of_app. by left.
Qed.

(** ** The mask *)
Definition eight (f : nat → bool) : list bool := map f (seq 0 8).
Lemma chAvail_bits v b : byte_bits (chAvail v b) = eight (λ p, avail v (2 + b * 8 + p)) ∧ 0 <= chAvail v b < 256 ∧
  (chAvail v b = 0 ↔ fZero v b = true).
Proof.
  unfold chAvail, fZero, eight. cbn [seq foldl map forallb].
  destruct (avail v _), (avail v _), (avail v _), (avail v _), (avail v _), (avail v _), (avail v _), (avail v _);
    vm_compute; (split; [done|split; [split; congruence|split; congruence]]).
Qed.

Definition nonzero (v : list CTxOut) (l : list nat) : nat := length (List.filter (λ b, negb (fZero v b)) l).
Lemma nonzero_snoc v l b : nonzero v (l ++ [b]) = (nonzero v l + if fZero v b then 0 else 1)%nat.
Proof. unfold nonzero. rewrite List.filter_app, length_app. cbn [List.filter]. by destruct (fZero v b). Qed.
Lemma CalcMaskSize_spec v : ∃ L, CalcMaskSize v = (L, nonzero v (seq 0 L)) ∧ (∀ b, L = S b → fZero v b = false) ∧
  ∀ b, (L <= b)%nat → (2 + b * 8 < length v)%nat → fZero v b = true.
Proof.
  unfold CalcMaskSize, mask_range. set (n := ((length v - 2 + 7) / 8)%nat).
  assert (∀ b, (2 + b * 8 < length v)%nat → (b < n)%nat) as Hn.
  { intros b Hb. unfold n. apply Nat.div_le_lower_bound; lia. }
  assert (∃ L, foldl (λ '(l, z) b, if fZero v b then (l, z) else (S b, S z)) (0%nat, 0%nat) (seq 0 n) = (L, nonzero v (seq 0 L)) ∧
    (∀ b, L = S b → fZero v b = false) ∧ (L <= n)%nat ∧ ∀ b, (L <= b < n)%nat → fZero v b = true) as (L & -> & H1 & _ & H2).
  { clear Hn. induction n as [|n (L & E & H1 & H2 & H3)]; [by exists 0%nat; split_and!; [..|lia|lia]|].
    rewrite seq_S, foldl_app, E. cbn [foldl Nat.add]. destruct (fZero v n) eqn:Ez.
    - exists L. split_and!; [done|done|lia|]. intros b Hb. destruct (decide (b = n)) as [-> |]; [done|]. apply H3. lia.
    - exists (S n). split_and!; [|by intros b [= <-]|lia|lia]. f_equal. rewrite seq_S, nonzero_snoc. cbn [Nat.add]. rewrite Ez.
      replace n with (L + (n - L))%nat by lia. rewrite seq_app. unfold nonzero. rewrite List.filter_app, length_app.
      assert (List.filter (λ b, negb (fZero v b)) (seq (0 + L) (n - L)) = []) as ->; [|simpl; lia].
      assert (∀ b, b ∈ seq (0 + L) (n - L) → negb (fZero v b) = false) as Hall
        by (intros b Hb%elem_of_seq; rewrite H3 by lia; done).
      revert Hall. generalize (seq (0 + L) (n - L)). intros l. induction l as [|b l IH]; intros Hall; [done|]. cbn [List.filter].
      rewrite Hall by set_solver. apply IH. set_solver. }
  exists L. split_and!; [done|done|]. intros b Hb Hv. apply H2. split; [done|by apply Hn].
Qed.

Lemma read_mask_spec bs : ∀ acc rest, (∀ l x, bs = l ++ [x] → x ≠ 0) →
  read_mask (Z.of_nat (length (List.filter (λ x, negb (x =? 0)) bs))) acc (bs ++ rest) = inr (acc ++ concat (map byte_bits bs), rest).
Proof.
  induction bs as [|x bs IH]; intros acc rest Hlast.
  { cbn [List.filter length app map concat]. rewrite app_nil_r. by destruct rest. }
  assert (∀ l y, bs = l ++ [y] → y ≠ 0) as Hlast' by (intros l y ->; by apply (Hlast (x :: l) y)).
  assert (0 < Z.of_nat (length (List.filter (λ y, negb (y =? 0)) (x :: bs)))) as Hpos.
  { destruct (exists_last (l := x :: bs) ltac:(done)) as (l & y & Hl). rewrite Hl, List.filter_app, length_app. cbn [List.filter].
    pose proof (Hlast l y Hl) as Hy. apply Z.eqb_neq in Hy. rewrite Hy. simpl. lia. }
  cbn [app read_mask]. rewrite (proj2 (Z.leb_gt _ 0)) by lia. cbn [map concat]. rewrite app_assoc. rewrite <- IH by done. f_equal.
  cbn [List.filter]. destruct (x =? 0); cbn [negb length]; lia.
Qed.
Lemma eight_concat (f : nat → bool) L : concat (map (λ b, eight (λ p, f (2 + b * 8 + p)%nat)) (seq 0 L)) = map f (seq 2 (8 * L)).
Proof.
  induction L as [|L IH]; [done|]. rewrite seq_S, map_app, concat_app, IH. cbn [map concat]. rewrite app_nil_r.
  replace (8 * S L)%nat with (8 * L + 8)%nat by lia. rewrite seq_app, map_app. f_equal. unfold eight. cbn [seq map Nat.add].
  by repeat (f_equal; try lia).
Qed.

Section roundtrip.
Context `{SL : SecpLaws}.

Definition storable_or_null (o : CTxOut) : Prop := o = CTxOut_SetNull ∨ storable o.
Lemma storable_not_null o : storable o → CTxOut_IsNull o = false.
Proof using Type. intros [Hv _]. unfold CTxOut_IsNull. lia. Qed.

Lemma read_outputs_spec v : ∀ N rest, Forall storable_or_null v → (length v <= N)%nat →
  read_outputs (map (avail v) (seq 0 N)) (concat (map put_txout (List.filter (λ o, negb (CTxOut_IsNull o)) v)) ++ rest) =
    inr (v ++ replicate (N - length v) CTxOut_SetNull, rest).
Proof using SL.
  induction v as [|o v IH]; intros N rest Hv HN.
  - cbn [List.filter map concat app length]. rewrite Nat.sub_0_r. clear HN. generalize 0%nat. induction N as [|N IHN]; intros k; [done|].
    cbn [seq map read_outputs]. change (avail [] k) with false. erewrite bind_run by done. by erewrite bind_run by apply IHN.
  - destruct N as [|N]; [simpl in HN; lia|]. cbn [seq map]. rewrite <- seq_shift, map_map.
    change (map (λ i, avail (o :: v) (S i)) (seq 0 N)) with (map (avail v) (seq 0 N)). change (avail (o :: v) 0) with (negb (CTxOut_IsNull o)).
    cbn [read_outputs List.filter length Nat.sub]. apply Forall_cons_iff in Hv as [Ho Hv]. simpl in HN.
    destruct (CTxOut_IsNull o) eqn:En; cbn [negb].
    + assert (o = CTxOut_SetNull) as -> by (destruct Ho as [|Ho%storable_not_null]; congruence).
      erewrite bind_run by done. by erewrite bind_run by (apply IH; (done || lia)).
    + destruct Ho as [-> |Ho]; [done|]. cbn [map concat]. rewrite <- app_assoc, (dec_step (enc := put_txout)) by done.
      erewrite bind_run by (apply IH; (done || lia)). done.
Qed.

(** What the coin database stores: clean coins that are not pruned, at a height and with a version that are not negative. *)
Record wf_coins (c : CCoins) : Prop := {
  wc_outs : Forall storable_or_null (c_vout c);
  wc_clean : trim (c_vout c) = c_vout c;
  wc_height : 0 <= c_nHeight c < 2 ^ 31;
  wc_length : Z.of_nat (length (c_vout c)) < 2 ^ 31 }.

Lemma mask_bytes_spec v L : (∀ b, L = S b → fZero v b = false) → 
  length (List.filter (λ x, negb (x =? 0)) (map (chAvail v) (seq 0 L))) = nonzero v (seq 0 L) ∧
  (∀ l x, map (chAvail v) (seq 0 L) = l ++ [x] → x ≠ 0) ∧ concat (map byte_bits (map (chAvail v) (seq 0 L))) = map (avail v) (seq 2 (8 * L)).
Proof using Type.
  intros HL. split_and!.
  - unfold nonzero. generalize (seq 0 L). intros l. induction l as [|b l IH]; [done|]. cbn [map List.filter].
    destruct (chAvail_bits v b) as (_ & _ & Hz). destruct (Z.eqb_spec (chAvail v b) 0) as [E|E], (fZero v b); cbn [negb length]; rewrite ?IH; try done; naive_solver.
  - destruct L as [|L]; [by intros [|??] ?|]. intros l x. rewrite seq_S, map_app. cbn [map Nat.add]. intros [_ [= <-]]%app_inj_tail.
    destruct (chAvail_bits v L) as (_ & _ & Hz). rewrite Hz, HL by done. done.
  - rewrite map_map, <- eight_concat. f_equal. apply map_ext. intros b. apply chAvail_bits.
Qed.

Lemma fZero_avail v b i : (i < 8)%nat → avail v (2 + b * 8 + i) = true → fZero v b = false.
Proof using Type.
  intros Hi Ha. apply not_true_iff_false. unfold fZero. rewrite forallb_forall. intros H. specialize (H i (proj2 (in_seq 8 0 i) ltac:(lia))).
  by rewrite Ha in H.
Qed.
Lemma fZero_false v b : fZero v b = false → (2 + b * 8 < length v)%nat.
Proof using Type.
  intros H. destruct (decide (2 + b * 8 < length v)%nat) as [|Hge]; [done|]. assert (fZero v b = true); [|congruence].
  apply forallb_forall. intros i _. unfold avail. by rewrite lookup_ge_None_2 by lia.
Qed.
Lemma avail_byte v i : avail v i = true → (2 <= i)%nat → fZero v ((i - 2) / 8) = false.
Proof using Type.
  intros Ha Hi. apply (fZero_avail v _ ((i - 2) mod 8)); [by apply Nat.mod_upper_bound|]. rewrite <- Ha. f_equal.
  pose proof (Nat.div_mod_eq (i - 2) 8). lia.
Qed.
Lemma trimmed_last v : trim v = v → v ≠ [] → avail v (length v - 1) = true.
Proof using Type.
  intros Ht Hv. destruct (trim_ends v) as [E|(l & o & E & Ho)]; rewrite Ht in E; [done|]. subst v. unfold avail.
  rewrite length_app. cbn [length]. rewrite Nat.add_sub, lookup_app_r, Nat.sub_diag by lia. cbn. by rewrite Ho.
Qed.
Lemma mask_size_facts c L : wf_coins c → IsPruned c = false → (∀ b, L = S b → fZero (c_vout c) b = false) →
  (∀ b, (L <= b)%nat → (2 + b * 8 < length (c_vout c))%nat → fZero (c_vout c) b = true) →
  (length (c_vout c) <= 2 + 8 * L)%nat ∧ (nonzero (c_vout c) (seq 0 L) <= L)%nat ∧ Z.of_nat L <= 2 ^ 28 ∧
  (avail (c_vout c) 0 || avail (c_vout c) 1 || negb (nonzero (c_vout c) (seq 0 L) =? 0)%nat = true)%bool.
Proof using Type.
  intros [_ Hclean _ Hlen] Hp HL Hzero. set (v := c_vout c) in *. assert (v ≠ []) as Hv by (intros E; unfold IsPruned in Hp; fold v in Hp; by rewrite E in Hp).
  pose proof (trimmed_last v Hclean Hv) as Hlast.
  assert (∀ i, avail v i = true → (2 <= i)%nat → ((i - 2) / 8 < L)%nat) as Hbyte.
  { intros i Ha Hi. pose proof (avail_byte v i Ha Hi) as Hf. destruct (decide ((i - 2) / 8 < L)%nat) as [|Hge]; [done|].
    rewrite Hzero in Hf; [done|lia|by apply fZero_false]. }
  split_and!.
  - destruct (decide (length v <= 2)%nat) as [|Hgt]; [lia|]. specialize (Hbyte _ Hlast ltac:(lia)).
    pose proof (Nat.div_mod_eq (length v - 1 - 2) 8). pose proof (Nat.mod_upper_bound (length v - 1 - 2) 8 ltac:(lia)). lia.
  - unfold nonzero. rewrite <- (length_seq L 0) at 2. apply List.filter_length_le.
  - destruct L as [|b]; [done|]. pose proof (fZero_false v b (HL b eq_refl)). lia.
  - destruct (avail v 0) eqn:E0; [done|]. destruct (avail v 1) eqn:E1; [done|]. cbn [orb].
    assert (0 < L)%nat as HL0.
    { assert (2 <= length v - 1)%nat as Hi by (destruct (length v - 1)%nat as [|[|n]]; (congruence || lia)). specialize (Hbyte _ Hlast Hi). lia. }
    destruct L as [|b]; [lia|]. rewrite seq_S, nonzero_snoc. cbn [Nat.add]. rewrite (HL b eq_refl). apply negb_true_iff, Nat.eqb_neq. lia.
Qed.

Lemma land_low x m : 0 <= m < 8 → Z.land x m = Z.land (x mod 8) m.
Proof using Type.
  intros Hm. change 8 with (2 ^ 3) at 1. rewrite <- Z.land_ones by lia. rewrite <- Z.land_assoc. f_equal. change (Z.ones 3) with 7.
  assert (m = 0 ∨ m = 1 ∨ m = 2 ∨ m = 3 ∨ m = 4 ∨ m = 5 ∨ m = 6 ∨ m = 7) as Hcases by lia.
  by repeat (destruct Hcases as [-> |Hcases]; [done|]); subst.
Qed.
Lemma coins_nCode_spec c K : Z.of_nat K <= 2 ^ 28 → avail (c_vout c) 0 || avail (c_vout c) 1 || negb (K =? 0)%nat = true →
  let x := coins_nCode c K in
  0 <= x < 2 ^ 32 ∧ x / 8 + (if negb (Z.land x 6 =? 0) then 0 else 1) = Z.of_nat K ∧ negb (Z.land x 1 =? 0) = fCoinBase c ∧
  negb (Z.land x 2 =? 0) = avail (c_vout c) 0 ∧ negb (Z.land x 4 =? 0) = avail (c_vout c) 1.
Proof using Type.
  intros HK Hassert x. rewrite !(land_low x) by lia. unfold x, coins_nCode. revert Hassert.
  generalize (avail (c_vout c) 0) (avail (c_vout c) 1) (fCoinBase c). intros f g cb Hassert.
  set (M := Z.of_nat K - (if f || g then 0 else 1)). set (k := (if cb then 1 else 0) + (if f then 2 else 0) + (if g then 4 else 0)).
  assert (0 <= M <= 2 ^ 28) as HM.
  { unfold M. destruct (f || g) eqn:E; cbn [orb] in Hassert; [lia|]. apply negb_true_iff, Nat.eqb_neq in Hassert. lia. }
  assert (0 <= k < 8) as Hk by (unfold k; destruct cb, f, g; lia).
  rewrite (u32_small M) by lia. replace (8 * M + _ + _ + _) with (8 * M + k) by (unfold k; lia). rewrite u32_small by lia.
  assert ((8 * M + k) mod 8 = k ∧ (8 * M + k) / 8 = M) as [-> ->] by (split; zlia). split; [lia|]. unfold M, k.
  destruct cb, f, g; (split_and!; [|vm_compute; reflexivity..]);
    match goal with |- context [negb ?b] => let r := eval vm_compute in (negb b) in change (negb b) with r end; cbn [orb]; lia.
Qed.

Lemma coins_read c rest : wf_coins c → IsPruned c = false → 0 <= c_nVersion c < 2 ^ 31 →
  ∃ out, Serialize_CCoins c = Some out ∧ Unserialize_CCoins (out ++ rest) = inr (c, rest).
Proof using SL.
  intros Hwf Hp Hver. pose proof Hwf as [Houts Hclean Hh Hlen]. unfold Serialize_CCoins.
  destruct (CalcMaskSize_spec (c_vout c)) as (L & -> & HL & Hzero).
  destruct (mask_size_facts c L Hwf Hp HL Hzero) as (HN & HK & HL28 & ->). set (K := nonzero (c_vout c) (seq 0 L)) in *.
  eexists. split; [done|]. destruct (coins_nCode_spec c K) as (Hx & H8 & H1 & H2 & H4).
  { lia. }
  { by apply (mask_size_facts c L Hwf Hp HL Hzero). }
  set (x := coins_nCode c K) in *. destruct (mask_bytes_spec (c_vout c) L HL) as (Hcnt & Hlast & Hbits). fold K in Hcnt.
  unfold Unserialize_CCoins. rewrite <- !app_assoc. rewrite (dec_step (enc := Serialize_VarInt 32)) by lia.
  rewrite (dec_step (enc := Serialize_VarInt 32)) by lia. rewrite H8, H1, H2, H4, <- Hcnt.
  erewrite bind_run by (by apply read_mask_spec). rewrite Hbits.
  change ([avail (c_vout c) 0; avail (c_vout c) 1] ++ map (avail (c_vout c)) (seq 2 (8 * L))) with (map (avail (c_vout c)) (seq 0 (2 + 8 * L))).
  erewrite bind_run by (by apply read_outputs_spec). rewrite (dec_step (enc := Serialize_VarInt 32)) by lia. unfold mret, reader_ret.
  rewrite !i32_small by lia. unfold Cleanup, set_vout. cbn [c_vout fCoinBase c_nHeight c_nVersion]. rewrite trim_nulls, Hclean. by destruct c.
Qed.

Definition wf_undo (u : CTxInUndo) : Prop :=
  storable (u_txout u) ∧ 0 <= u_nHeight u < 2 ^ 30 ∧ 0 <= u_nVersion u < 2 ^ 31 ∧ (u_nHeight u = 0 → u_nVersion u = 0).
#[export] Instance codec_undo : Codec Serialize_CTxInUndo Unserialize_CTxInUndo wf_undo.
Proof using SL.
  assert (∀ h (cb : bool), 0 <= h < 2 ^ 30 → let x := u32 (h * 2 + (if cb then 1 else 0)) in
    0 <= x < 2 ^ 32 ∧ x / 2 = h ∧ negb (Z.land x 1 =? 0) = cb) as Hcode.
  { intros h cb Hh. rewrite u32_small by (destruct cb; lia). cbv zeta.
    assert (Z.land (h * 2 + (if cb then 1 else 0)) 1 = if cb then 1 else 0) as ->
      by (change 1 with (Z.ones 1) at 2; rewrite Z.land_ones by lia; change (2 ^ 1) with 2; destruct cb; zlia).
    split_and!; destruct cb; (done || zlia). }
  split; intros [o cb h v]; unfold wf_undo; cbn [u_txout u_nHeight u_nVersion u_fCoinBase]; [intros rest|]; intros (Ho & Hh & Hv & Hz);
    unfold Serialize_CTxInUndo; cbn [u_txout u_nHeight u_nVersion u_fCoinBase]; destruct (Hcode h cb Hh) as (Hx & H2 & H1); set (x := u32 _) in *.
  - unfold Unserialize_CTxInUndo. rewrite <- !app_assoc, (dec_step (enc := Serialize_VarInt 32)) by lia. rewrite H2, H1.
    assert (∀ tail, (if 0 <? h then v ← ReadVarInt 32; mret (i32 v) else mret 0) ((if 0 <? h then Serialize_VarInt 32 v else []) ++ tail) = inr (v, tail)) as Hv'.
    { intros tail. destruct (Z.ltb_spec 0 h); [|by rewrite Hz by lia]. rewrite (dec_step (enc := Serialize_VarInt 32)) by lia. by rewrite i32_small by lia. }
    erewrite bind_run by apply Hv'. by rewrite (dec_step (enc := put_txout)).
  - rewrite !digits_app. split_and!; [by apply codec_varint32| |by apply codec_compressed_txout]. destruct (0 <? h); [apply codec_varint32; lia|constructor].
Qed.

(** C29. Coins with an unspent output, no spent outputs at the end and a version that is not
    negative are read back from their record: the bit mask, which starts at the third output and
    leaves out zero bytes at its end, the two flags in the code and the compressed outputs give
    the same outputs at the same positions.  The undo data of a spent output is read back too. *)
Theorem coins_roundtrip c u rest : wf_coins c → IsPruned c = false → 0 <= c_nVersion c < 2 ^ 31 → wf_undo u →
  (∃ out, Serialize_CCoins c = Some out ∧ Unserialize_CCoins (out ++ rest) = inr (c, rest)) ∧
  Unserialize_CTxInUndo (Serialize_CTxInUndo u ++ rest) = inr (u, rest).
Proof using SL. intros Hc Hp Hv Hu. split; [by apply coins_read|by apply codec_undo]. Qed.
End roundtrip.

(** The third, fourth and eleventh outputs of a transaction are unspent. *)
Definition sample_out : CTxOut := mkTxOut 5000 [81] (-10).
Definition sample_coins : CCoins :=
  mkCoins true (replicate 2 CTxOut_SetNull ++ [sample_out; sample_out] ++ replicate 6 CTxOut_SetNull ++ [sample_out]) 120891 1.
Lemma sample_storable : storable sample_out.
Proof. split_and!; [done|done|repeat constructor; done|done|done]. Qed.
Lemma sample_wf : wf_coins sample_coins.
Proof.
  split; [|done|done|done]. repeat (constructor; [(by left) || (right; apply sample_storable)|]). constructor.
Qed.
Lemma coins_roundtrip_witness : (∃ out, @Serialize_CCoins toy_secp sample_coins = Some out ∧ @Unserialize_CCoins toy_secp (out ++ [7]) = inr (sample_coins, [7])) ∧
  @Unserialize_CTxInUndo toy_secp (@Serialize_CTxInUndo toy_secp (mkUndo sample_out true 120891 1) ++ [7]) = inr (mkUndo sample_out true 120891 1, [7]).
Proof.
  refine (@coins_roundtrip toy_secp toy_laws sample_coins (mkUndo sample_out true 120891 1) [7] sample_wf _ _ _).
  - vm_compute. reflexivity.
  - vm_compute. split; [discriminate|reflexivity].
  - split; [apply sample_storable|]. vm_compute. repeat split; discriminate.
Defined.
(** A negative version is not read back. *)
Example negative_version : (match @Serialize_CCoins toy_secp (mkCoins true [sample_out] 5 (-1)) with Some s => @Unserialize_CCoins toy_secp s | None => inr (Clear, []) end) =
  inr (mkCoins true [sample_out] 5 127, []).
Proof. vm_compute. reflexivity. Qed.
(** Version, code with a mask of two bytes, the mask, three outputs and the height. *)
Example sample_record : @Serialize_CCoins toy_secp sample_coins = Some ([1; 9; 3; 1] ++ [44; 7; 81] ++ [44; 7; 81] ++ [44; 7; 81] ++ [134; 175; 59]).
Proof. vm_compute. reflexivity. Qed.
End Coins.
