(* ===== verification/CoinsView.v ===== *)
(** * CoinsView: the views of the coins ([coins.{h,cpp}], [CCoinsViewDB] of [txdb.cpp])

    A view answers which outputs of a transaction are unspent.  The database stores serialized
    coins; a cache lies over a database or over another cache.  The class [CCoinsView] is the
    virtual interface and [CoinsSpec] what it promises: a view is a map from transactions to
    unspent outputs.  The database and every cache over a view that keeps the promise keep it. *)
From S2P Require Import Prelude Serialize Uint256 Amount Script Transaction Compressor Coins.

Module CoinsView.
Import Serialize Transaction Compressor Coins.
Notation uint256 := (list Z) (only parsing).

(** ** Cache entries *)
Definition DIRTY : Z := 1.
Definition FRESH : Z := 2.
Record CCoinsCacheEntry := mkEntry { e_coins : CCoins; e_flags : Z }.
Definition has_flag (e : CCoinsCacheEntry) (f : Z) : bool := negb (Z.land (e_flags e) f =? 0).
Notation CCoinsMap := (gmap uint256 CCoinsCacheEntry).

(** ** The virtual functions.  A view may fill its own cache when it is read; [None] is a failed assertion. *)
Class CCoinsView (V : Type) := {
  GetCoins : V → uint256 → V * option CCoins;
  GetBestBlock : V → V * uint256;
  BatchWrite : V → CCoinsMap → uint256 → option (V * bool) }.

(** [memusage::DynamicUsage] depends on the allocator. *)
Class MemUsage := { DynamicMemoryUsage : CCoins → Z }.

(** ** The database: serialized coins under their keys *)
Record CCoinsViewDB := mkDB { db_coins : gmap uint256 (list Z); db_best : option uint256 }.
Section db.
Context `{Secp}.
(** Reading fails when there is no record or it does not deserialize. *)
Definition db_GetCoins (v : CCoinsViewDB) (txid : uint256) : CCoinsViewDB * option CCoins :=
  (v, match db_coins v !! txid with
      | Some s => match Unserialize_CCoins s with inr (c, _) => Some c | inl _ => None end
      | None => None
      end).
Definition db_GetBestBlock (v : CCoinsViewDB) : CCoinsViewDB * uint256 := (v, default (Uint256.blob_null 32) (db_best v)).
Definition db_write (m : option (gmap uint256 (list Z))) (ke : uint256 * CCoinsCacheEntry) : option (gmap uint256 (list Z)) :=
  m ← m;
  if has_flag ke.2 DIRTY then
    if IsPruned (e_coins ke.2) then Some (delete ke.1 m) else s ← Serialize_CCoins (e_coins ke.2); Some (<[ke.1 := s]> m)
  else Some m.
(** The batch is written as a whole.  A write that fails throws out of here and out of [Flush]; what is then left of the cache, and what
    [FlushStateToDisk] makes of it, is in [Tip.v]. *)
Definition db_BatchWrite (v : CCoinsViewDB) (mapCoins : CCoinsMap) (hashBlock : uint256) : option (CCoinsViewDB * bool) :=
  m ← foldl db_write (Some (db_coins v)) (map_to_list mapCoins);
  Some (mkDB m (if Uint256.IsNull hashBlock then db_best v else Some hashBlock), true).
#[export] Instance CCoinsViewDB_view : CCoinsView CCoinsViewDB := {|
  GetCoins := db_GetCoins; GetBestBlock := db_GetBestBlock; BatchWrite := db_BatchWrite |}.
End db.

(** ** The cache *)
Record CCoinsViewCache (V : Type) := mkCache {
  base : V; hasModifier : bool; hashBlock : uint256; cacheCoins : CCoinsMap; cachedCoinsUsage : Z }.
Arguments mkCache {V}.
Arguments base {V}.
Arguments hasModifier {V}.
Arguments hashBlock {V}.
Arguments cacheCoins {V}.
Arguments cachedCoinsUsage {V}.

Section cache.
Context {V : Type} `{CCoinsView V} `{MemUsage}.
Implicit Types c : CCoinsViewCache V.

Definition new_cache (v : V) : CCoinsViewCache V := mkCache v false (Uint256.blob_null 32) ∅ 0.
Definition set_base c (v : V) : CCoinsViewCache V := mkCache v (hasModifier c) (hashBlock c) (cacheCoins c) (cachedCoinsUsage c).
Definition set_cache c (m : CCoinsMap) (usage : Z) : CCoinsViewCache V := mkCache (base c) (hasModifier c) (hashBlock c) m (u64 usage).

Definition FetchCoins c (txid : uint256) : CCoinsViewCache V * option CCoinsCacheEntry :=
  match cacheCoins c !! txid with
  | Some e => (c, Some e)
  | None =>
      let '(v, r) := GetCoins (base c) txid in
      let c := set_base c v in
      match r with
      | None => (c, None)
      | Some tmp =>
          let e := mkEntry tmp (if IsPruned tmp then FRESH else 0) in
          (set_cache c (<[txid := e]> (cacheCoins c)) (cachedCoinsUsage c + DynamicMemoryUsage tmp), Some e)
      end
  end.
Definition cache_GetCoins c (txid : uint256) : CCoinsViewCache V * option CCoins :=
  let '(c, e) := FetchCoins c txid in (c, e_coins <$> e).
(** [AccessCoins] returns a pointer to what [GetCoins] copies. *)
Definition AccessCoins := cache_GetCoins.
Definition HaveCoins c (txid : uint256) : CCoinsViewCache V * bool :=
  let '(c, e) := FetchCoins c txid in
  (c, match e with Some e => match c_vout (e_coins e) with [] => false | _ => true end | None => false end).
Definition HaveCoinsInCache c (txid : uint256) : bool := match cacheCoins c !! txid with Some _ => true | None => false end.

Definition cache_GetBestBlock c : CCoinsViewCache V * uint256 :=
  if Uint256.IsNull (hashBlock c) then
    let '(v, h) := GetBestBlock (base c) in (mkCache v (hasModifier c) h (cacheCoins c) (cachedCoinsUsage c), h)
  else (c, hashBlock c).
Definition SetBestBlock c (h : uint256) : CCoinsViewCache V := mkCache (base c) (hasModifier c) h (cacheCoins c) (cachedCoinsUsage c).

(** *** Modifiers: taking one, changing the coins it points to, and its destructor *)
Definition set_modifier c (b : bool) : CCoinsViewCache V := mkCache (base c) b (hashBlock c) (cacheCoins c) (cachedCoinsUsage c).
Definition take_modifier c (usage : Z) : option (CCoinsViewCache V * Z) :=
  if hasModifier c then None else Some (set_modifier c true, usage).
Definition ModifyCoins c (txid : uint256) : option (CCoinsViewCache V * Z) :=
  if hasModifier c then None
  else
    let '(c, e, cachedCoinUsage) :=
      match cacheCoins c !! txid with
      | Some e => (c, e, DynamicMemoryUsage (e_coins e))
      | None =>
          let '(v, r) := GetCoins (base c) txid in
          (set_base c v,
           match r with
           | None => mkEntry Clear FRESH
           | Some coins => mkEntry coins (if IsPruned coins then FRESH else 0)
           end, 0)
      end in
    take_modifier (set_cache c (<[txid := mkEntry (e_coins e) (Z.lor (e_flags e) DIRTY)]> (cacheCoins c)) (cachedCoinsUsage c)) cachedCoinUsage.
Definition ModifyNewCoins c (txid : uint256) (coinbase : bool) : option (CCoinsViewCache V * Z) :=
  if hasModifier c then None
  else
    let flags := match cacheCoins c !! txid with Some e => e_flags e | None => 0 end in
    let flags := if negb coinbase then FRESH else flags in
    take_modifier (set_cache c (<[txid := mkEntry Clear (Z.lor flags DIRTY)]> (cacheCoins c)) (cachedCoinsUsage c)) 0.
Definition end_modifier c (txid : uint256) (cachedCoinUsage : Z) : option (CCoinsViewCache V) :=
  if negb (hasModifier c) then None
  else
    e ← cacheCoins c !! txid;
    let e := mkEntry (Cleanup (e_coins e)) (e_flags e) in
    let usage := cachedCoinsUsage c - cachedCoinUsage in
    Some (set_modifier
      (if has_flag e FRESH && IsPruned (e_coins e) then set_cache c (delete txid (cacheCoins c)) usage
       else set_cache c (<[txid := e]> (cacheCoins c)) (usage + DynamicMemoryUsage (e_coins e))) false).
(** What the holder of a modifier does: [f] changes the coins, gives a result, or fails an assertion. *)
Definition use_modifier {A} (m : option (CCoinsViewCache V * Z)) (txid : uint256) (f : CCoins → option (CCoins * A)) : option (CCoinsViewCache V * A) :=
  '(c, usage) ← m;
  e ← cacheCoins c !! txid;
  '(coins, a) ← f (e_coins e);
  c ← end_modifier (mkCache (base c) (hasModifier c) (hashBlock c) (<[txid := mkEntry coins (e_flags e)]> (cacheCoins c)) (cachedCoinsUsage c)) txid usage;
  Some (c, a).

(** *** Writing a child's entries *)
Definition write_entry c (ke : uint256 * CCoinsCacheEntry) : CCoinsViewCache V :=
  let '(txid, e) := ke in
  if has_flag e DIRTY then
    match cacheCoins c !! txid with
    | None =>
        if negb (has_flag e FRESH && IsPruned (e_coins e)) then
          set_cache c (<[txid := mkEntry (e_coins e) (Z.lor DIRTY (if has_flag e FRESH then FRESH else 0))]> (cacheCoins c))
            (cachedCoinsUsage c + DynamicMemoryUsage (e_coins e))
        else c
    | Some us =>
        if has_flag us FRESH && IsPruned (e_coins e) then
          set_cache c (delete txid (cacheCoins c)) (cachedCoinsUsage c - DynamicMemoryUsage (e_coins us))
        else
          set_cache c (<[txid := mkEntry (e_coins e) (Z.lor (e_flags us) DIRTY)]> (cacheCoins c))
            (cachedCoinsUsage c - DynamicMemoryUsage (e_coins us) + DynamicMemoryUsage (e_coins e))
    end
  else c.
Definition cache_BatchWrite c (mapCoins : CCoinsMap) (hashBlockIn : uint256) : option (CCoinsViewCache V * bool) :=
  if hasModifier c then None
  else Some (SetBestBlock (foldl write_entry c (map_to_list mapCoins)) hashBlockIn, true).
Definition Flush c : option (CCoinsViewCache V * bool) :=
  '(v, fOk) ← BatchWrite (base c) (cacheCoins c) (hashBlock c);
  Some (mkCache v (hasModifier c) (hashBlock c) ∅ 0, fOk).
Definition Uncache c (txid : uint256) : CCoinsViewCache V :=
  match cacheCoins c !! txid with
  | Some e => if e_flags e =? 0 then set_cache c (delete txid (cacheCoins c)) (cachedCoinsUsage c - DynamicMemoryUsage (e_coins e)) else c
  | None => c
  end.
Definition GetCacheSize c : Z := u32 (Z.of_nat (size (cacheCoins c))).

#[export] Instance CCoinsViewCache_view : CCoinsView (CCoinsViewCache V) := {|
  GetCoins := cache_GetCoins; GetBestBlock := cache_GetBestBlock; BatchWrite := cache_BatchWrite |}.

(** *** The inputs of a transaction *)
Definition no_inputs (tx : CMutableTransaction) : bool := IsCoinBase tx || Transaction.IsZerocoinSpend tx || Transaction.IsSigmaSpend tx.
Definition GetOutputFor c (input : CTxIn) : option (CCoinsViewCache V * CTxOut) :=
  let '(c, coins) := AccessCoins c (ophash (prevout input)) in
  coins ← coins;
  if IsAvailable coins (opn (prevout input)) then o ← c_vout coins !! Z.to_nat (opn (prevout input)); Some (c, o) else None.
Fixpoint value_in_loop c (vin : list CTxIn) (nResult : Z) : option (CCoinsViewCache V * Z) :=
  match vin with
  | [] => Some (c, nResult)
  | i :: vin => '(c, o) ← GetOutputFor c i; value_in_loop c vin (i64 (nResult + nValue o))
  end.
Definition GetValueIn c (tx : CMutableTransaction) : option (CCoinsViewCache V * Z) :=
  if no_inputs tx then Some (c, 0) else value_in_loop c (vin tx) 0.
Fixpoint have_inputs_loop c (vin : list CTxIn) : CCoinsViewCache V * bool :=
  match vin with
  | [] => (c, true)
  | i :: vin =>
      let '(c, coins) := AccessCoins c (ophash (prevout i)) in
      match coins with
      | Some coins => if IsAvailable coins (opn (prevout i)) then have_inputs_loop c vin else (c, false)
      | None => (c, false)
      end
  end.
Definition HaveInputs c (tx : CMutableTransaction) : CCoinsViewCache V * bool :=
  if no_inputs tx then (c, true) else have_inputs_loop c (vin tx).
End cache.

(** ** What a view promises *)
(** Coins without unspent outputs count as absent. *)
Definition norm (o : option CCoins) : option CCoins :=
  match o with Some c => if IsPruned c then None else Some c | None => None end.
(** Coins that can be stored: clean, with a version that is not negative. *)
Definition tidy (c : CCoins) : Prop := wf_coins c ∧ 0 <= c_nVersion c < 2 ^ 31.
(** A child's entries: [FRESH] ones are absent from the view below. *)
Definition entries_ok (u : uint256 → option CCoins) (m : CCoinsMap) : Prop :=
  ∀ t e, m !! t = Some e → tidy (e_coins e) ∧ (has_flag e FRESH = true → u t = None).
(** The effect of writing them. *)
Definition written (m : CCoinsMap) (u : uint256 → option CCoins) (t : uint256) : option CCoins :=
  match m !! t with Some e => if has_flag e DIRTY then norm (Some (e_coins e)) else u t | None => u t end.

Class CoinsSpec (V : Type) `{CCoinsView V} := {
  utxo : V → uint256 → option CCoins;
  best_block : V → uint256;
  view_ok : V → Prop;
  utxo_tidy v t c : view_ok v → utxo v t = Some c → tidy c ∧ IsPruned c = false;
  GetCoins_spec v t : view_ok v → ∃ v' r, GetCoins v t = (v', r) ∧ view_ok v' ∧ (∀ x, utxo v' x = utxo v x) ∧ best_block v' = best_block v ∧
    norm r = utxo v t ∧ ∀ c, r = Some c → tidy c;
  GetBestBlock_spec v : view_ok v → ∃ v', GetBestBlock v = (v', best_block v) ∧ view_ok v' ∧ (∀ x, utxo v' x = utxo v x) ∧ best_block v' = best_block v;
  BatchWrite_spec v m h : view_ok v → entries_ok (utxo v) m → ∃ v', BatchWrite v m h = Some (v', true) ∧ view_ok v' ∧
    (∀ t, utxo v' t = written m (utxo v) t) ∧ (Uint256.IsNull h = false → best_block v' = h) }.

Lemma forallb_same {A} (f g : A → bool) l : (∀ x, f x = g x) → forallb f l = forallb g l.
Proof. intros Hf. induction l as [|x l IH]; cbn [forallb]; [done|]. by rewrite Hf, IH. Qed.

Lemma norm_Some c c' : norm (Some c) = Some c' ↔ c = c' ∧ IsPruned c = false.
Proof. cbn. destruct (IsPruned c); split; [done|by intros []|by intros [= <-]|by intros [-> _]]. Qed.
Lemma norm_pruned c : IsPruned c = true → norm (Some c) = None.
Proof. cbn. by intros ->. Qed.
Lemma norm_live c : IsPruned c = false → norm (Some c) = Some c.
Proof. cbn. by intros ->. Qed.

Lemma has_flag_dirty c f : has_flag (mkEntry c (Z.lor f DIRTY)) DIRTY = true.
Proof. unfold has_flag. cbn [e_flags]. rewrite Z.land_lor_distr_l. apply negb_true_iff, Z.eqb_neq. intros [_ E]%Z.lor_eq_0_iff. done. Qed.
Lemma has_flag_keep c f c' : has_flag (mkEntry c (Z.lor f DIRTY)) FRESH = has_flag (mkEntry c' f) FRESH.
Proof. unfold has_flag. cbn [e_flags]. rewrite Z.land_lor_distr_l. change (Z.land DIRTY FRESH) with 0. by rewrite Z.lor_0_r. Qed.
Lemma has_flag_coins c c' f g : has_flag (mkEntry c f) g = has_flag (mkEntry c' f) g.
Proof. done. Qed.

(** ** The database keeps the promise *)
Section db_spec.
Context `{SL : SecpLaws}.
Definition record_of (s : option (list Z)) : option CCoins :=
  match s with Some s => match Unserialize_CCoins s with inr (c, _) => Some c | inl _ => None end | None => None end.
Definition good_record (s : list Z) : Prop := ∃ c, Unserialize_CCoins s = inr (c, []) ∧ tidy c ∧ IsPruned c = false.
Definition db_ok (m : gmap uint256 (list Z)) : Prop := ∀ t s, m !! t = Some s → good_record s.

Lemma db_write_spec m t e : db_ok m → tidy (e_coins e) → ∃ m', db_write (Some m) (t, e) = Some m' ∧ db_ok m' ∧
  ∀ x, record_of (m' !! x) = if decide (x = t) then if has_flag e DIRTY then norm (Some (e_coins e)) else record_of (m !! x) else record_of (m !! x).
Proof using SL.
  intros Hm [Hwf Hv]. unfold db_write. cbn [fst snd mbind option_bind]. destruct (has_flag e DIRTY).
  2:{ exists m. split_and!; [done|done|]. intros x. by destruct (decide _). }
  destruct (IsPruned (e_coins e)) eqn:Ep.
  - exists (delete t m). split_and!; [done| |].
    + intros x s [_ Hx]%lookup_delete_Some. by apply (Hm x).
    + intros x. destruct (decide (x = t)) as [-> |Hx]; [by rewrite lookup_delete_eq, norm_pruned|by rewrite lookup_delete_ne].
  - destruct (coins_read (e_coins e) [] Hwf Ep Hv) as (out & -> & Hr). rewrite app_nil_r in Hr. cbn [mbind option_bind]. exists (<[t := out]> m). split_and!; [done| |].
    + intros x s [[<- <-]|[_ Hx]]%lookup_insert_Some; [|by apply (Hm x)]. exists (e_coins e). by split_and!.
    + intros x. destruct (decide (x = t)) as [-> |Hx]; [|by rewrite lookup_insert_ne]. rewrite lookup_insert_eq, norm_live by done. cbn. by rewrite Hr.
Qed.
Lemma db_fold_spec l : ∀ m, db_ok m → NoDup l.*1 → (∀ t e, (t, e) ∈ l → tidy (e_coins e)) → ∃ m', foldl db_write (Some m) l = Some m' ∧ db_ok m' ∧
  (∀ x, x ∉ l.*1 → record_of (m' !! x) = record_of (m !! x)) ∧
  ∀ x e, (x, e) ∈ l → record_of (m' !! x) = if has_flag e DIRTY then norm (Some (e_coins e)) else record_of (m !! x).
Proof using SL.
  induction l as [|[t e] l IH]; intros m Hm Hd Ht; cbn [foldl].
  { exists m. split_and!; [done|done|done|]. intros x e Hx. by apply not_elem_of_nil in Hx. }
  cbn [fmap list_fmap fst] in Hd. apply list.NoDup_cons in Hd as [Hnt Hd].
  destruct (db_write_spec m t e Hm (Ht t e ltac:(set_solver))) as (m1 & -> & Hm1 & H1).
  destruct (IH m1 Hm1 Hd) as (m' & -> & Hm' & Hout & Hin); [intros x f Hx; apply (Ht x f); set_solver|].
  exists m'. split_and!; [done|done| |].
  - intros x Hx. cbn [fmap list_fmap fst] in Hx. rewrite Hout by set_solver. rewrite H1. rewrite decide_False by set_solver. done.
  - intros x f [[= -> ->]|Hx]%elem_of_cons.
    + rewrite Hout by done. rewrite H1. by rewrite decide_True.
    + assert (x ≠ t) as Hxt by (intros ->; apply Hnt; apply list_elem_of_fmap; by exists (t, f)).
      rewrite (Hin x f Hx), H1. by rewrite !decide_False.
Qed.

#[export, program] Instance CCoinsViewDB_spec : CoinsSpec CCoinsViewDB := {|
  utxo v t := record_of (db_coins v !! t);
  best_block v := default (Uint256.blob_null 32) (db_best v);
  view_ok v := db_ok (db_coins v) |}.
Next Obligation.
  intros v t c Hv. unfold record_of. destruct (db_coins v !! t) as [s|] eqn:Es; [|done]. destruct (Hv t s Es) as (c' & -> & ? & ?). by intros [= <-].
Qed.
Next Obligation.
  intros v t Hv. eexists v, _. split; [done|]. split_and!; [done|done|done| |].
  - cbn. unfold record_of. destruct (db_coins v !! t) as [s|] eqn:Es; [|done]. destruct (Hv t s Es) as (c' & -> & ? & Hp). by apply norm_live.
  - intros c. cbn. destruct (db_coins v !! t) as [s|] eqn:Es; [|done]. destruct (Hv t s Es) as (c' & -> & ? & Hp). by intros [= <-].
Qed.
Next Obligation. intros v Hv. by exists v. Qed.
Next Obligation.
  intros v m h Hv Hm. cbn. unfold db_BatchWrite.
  destruct (db_fold_spec (map_to_list m) (db_coins v) Hv) as (m' & -> & Hm' & Hout & Hin).
  - apply NoDup_fst_map_to_list.
  - intros t e He%elem_of_map_to_list. by apply (Hm t e).
  - eexists. split; [done|]. split_and!; [done| |by intros ->]. intros t. cbn [db_coins]. unfold written. destruct (m !! t) as [e|] eqn:Et.
    + apply Hin. by apply elem_of_map_to_list.
    + apply Hout. intros ([x e] & Hx & He%elem_of_map_to_list)%list_elem_of_fmap. simpl in Hx. subst x. congruence.
Qed.
End db_spec.

(** ** A cache keeps the promise of the view below it *)
Section cache_spec.
Context {V : Type} {HV : CCoinsView V} {HS : CoinsSpec V} `{MemUsage}.
Implicit Types c : CCoinsViewCache V.

Definition entry_ok (u : uint256 → option CCoins) (t : uint256) (e : CCoinsCacheEntry) : Prop :=
  tidy (e_coins e) ∧ (has_flag e FRESH = true → u t = None) ∧ (has_flag e DIRTY = false → norm (Some (e_coins e)) = u t).
Definition map_ok (u : uint256 → option CCoins) (m : CCoinsMap) : Prop := ∀ t e, m !! t = Some e → entry_ok u t e.
Definition through (m : CCoinsMap) (u : uint256 → option CCoins) (t : uint256) : option CCoins :=
  match m !! t with Some e => norm (Some (e_coins e)) | None => u t end.
Definition cache_utxo c : uint256 → option CCoins := through (cacheCoins c) (utxo (base c)).
Definition cache_best c : uint256 := if Uint256.IsNull (hashBlock c) then best_block (base c) else hashBlock c.
Record cache_ok c : Prop := {
  co_base : view_ok (base c);
  co_map : map_ok (utxo (base c)) (cacheCoins c);
  co_free : hasModifier c = false }.

Lemma map_ok_insert u m t e : map_ok u m → entry_ok u t e → map_ok u (<[t := e]> m).
Proof using Type. intros Hm He x f [[<- <-]|[_ Hx]]%lookup_insert_Some; [done|by apply Hm]. Qed.
Lemma map_ok_delete u m t : map_ok u m → map_ok u (delete t m).
Proof using Type. intros Hm x e [_ Hx]%lookup_delete_Some. by apply Hm. Qed.
Lemma map_ok_ext u u' m : (∀ x, u x = u' x) → map_ok u m → map_ok u' m.
Proof using Type. intros Hu Hm t e He. unfold entry_ok. rewrite <- Hu. by apply (Hm t e). Qed.
Lemma through_insert m u t e x : through (<[t := e]> m) u x = if decide (x = t) then norm (Some (e_coins e)) else through m u x.
Proof using Type. unfold through. destruct (decide (x = t)) as [-> |]; [by rewrite lookup_insert_eq|by rewrite lookup_insert_ne]. Qed.
Lemma through_delete m u t x : through (delete t m) u x = if decide (x = t) then u x else through m u x.
Proof using Type. unfold through. destruct (decide (x = t)) as [-> |]; [by rewrite lookup_delete_eq|by rewrite lookup_delete_ne]. Qed.
Lemma through_ext m u u' x : (∀ x, u x = u' x) → through m u x = through m u' x.
Proof using Type. intros Hu. unfold through. by destruct (m !! x). Qed.

Lemma cache_tidy c t x : cache_ok c → cache_utxo c t = Some x → tidy x ∧ IsPruned x = false.
Proof using Type.
  intros [Hb Hm _]. unfold cache_utxo, through. destruct (cacheCoins c !! t) as [e|] eqn:E; [|by apply utxo_tidy].
  intros [<- Hp]%norm_Some. split; [by apply (Hm t e)|done].
Qed.

Lemma FetchCoins_spec c t : cache_ok c → ∃ c' e, FetchCoins c t = (c', e) ∧ cache_ok c' ∧ (∀ x, cache_utxo c' x = cache_utxo c x) ∧ cache_best c' = cache_best c ∧
  norm (e_coins <$> e) = cache_utxo c t ∧ (∀ e', e = Some e' → tidy (e_coins e')) ∧ (is_Some (cacheCoins c !! t) → c' = c).
Proof using Type.
  intros [Hb Hm Hf]. unfold FetchCoins. destruct (cacheCoins c !! t) as [e|] eqn:E.
  - exists c, (Some e). split_and!; [done|by split|done|done| | |done].
    + unfold cache_utxo, through. by rewrite E.
    + intros e' [= <-]. by apply (Hm t e).
  - destruct (GetCoins_spec (base c) t Hb) as (v & r & -> & Hv & Hu & Hbest & Hr & Htidy).
    assert (cache_utxo c t = utxo (base c) t) as Ht by (unfold cache_utxo, through; by rewrite E).
    assert (map_ok (utxo v) (cacheCoins c)) as Hm' by (eapply map_ok_ext; [|exact Hm]; done).
    destruct r as [x|].
    + eexists _, _. split; [done|]. split_and!; [|intros y| | |by intros e' [= <-]; apply Htidy|by intros []].
      * split; [done| |done]. apply map_ok_insert; [done|]. unfold entry_ok. cbn [e_coins base set_cache set_base]. rewrite Hu.
        destruct (IsPruned x) eqn:Ep; (split_and!; [by apply Htidy| |done]); [|done]. intros _. by rewrite <- Hr, norm_pruned.
      * unfold cache_utxo. cbn [cacheCoins set_cache set_base base]. rewrite through_insert. destruct (decide (y = t)) as [-> |]; [|by apply through_ext].
        fold (cache_utxo c t). by rewrite Ht.
      * unfold cache_best. cbn [hashBlock set_cache set_base base]. by rewrite Hbest.
      * by rewrite Ht.
    + eexists _, None. split; [done|]. split_and!; [by split| | | |done|by intros []].
      * intros y. by apply through_ext.
      * unfold cache_best. cbn [hashBlock set_base base]. by rewrite Hbest.
      * by rewrite Ht.
Qed.

(** *** Writing a child's entries *)
Lemma write_entry_spec c t e : cache_ok c → tidy (e_coins e) → (has_flag e FRESH = true → cache_utxo c t = None) →
  let c' := write_entry c (t, e) in cache_ok c' ∧ base c' = base c ∧ hashBlock c' = hashBlock c ∧
  ∀ x, cache_utxo c' x = if decide (x = t) then if has_flag e DIRTY then norm (Some (e_coins e)) else cache_utxo c x else cache_utxo c x.
Proof using Type.
  intros [Hb Hm Hf] Htidy Hfresh. unfold write_entry. destruct (has_flag e DIRTY).
  2:{ split_and!; [by split|done|done|]. intros x. by destruct (decide _). }
  assert (∀ m u', map_ok (utxo (base c)) m → (∀ x, through m (utxo (base c)) x = if decide (x = t) then norm (Some (e_coins e)) else cache_utxo c x) →
    let c' := set_cache c m u' in cache_ok c' ∧ base c' = base c ∧ hashBlock c' = hashBlock c ∧
    ∀ x, cache_utxo c' x = if decide (x = t) then norm (Some (e_coins e)) else cache_utxo c x) as Hdone by (intros m u' H1 H2; split_and!; [by split|done|done|done]).
  unfold cache_utxo, through in Hfresh. destruct (cacheCoins c !! t) as [us|] eqn:Et.
  - destruct (Hm t us Et) as (_ & Hus & _). destruct (has_flag us FRESH && IsPruned (e_coins e)) eqn:Ef.
    + apply andb_true_iff in Ef as [Ef Ep]. apply Hdone; [by apply map_ok_delete|]. intros x. rewrite through_delete.
      destruct (decide (x = t)) as [-> |]; [|done]. by rewrite norm_pruned, Hus.
    + apply Hdone; [apply map_ok_insert; [done|]|by intros x; rewrite through_insert]. split_and!; [done| |].
      * rewrite (has_flag_keep _ _ (e_coins us)). by destruct us.
      * by rewrite has_flag_dirty.
  - destruct (has_flag e FRESH && IsPruned (e_coins e)) eqn:Ef; cbn [negb].
    + apply andb_true_iff in Ef as [Ef Ep]. split_and!; [by split|done|done|]. intros x. destruct (decide (x = t)) as [-> |]; [|done].
      rewrite norm_pruned by done. unfold cache_utxo, through. by rewrite Et, Hfresh.
    + apply Hdone; [apply map_ok_insert; [done|]|by intros x; rewrite through_insert]. split_and!; [done| |].
      * destruct (has_flag e FRESH); [by intros _; apply Hfresh|done].
      * by destruct (has_flag e FRESH).
Qed.
Lemma write_fold_spec l : ∀ c, cache_ok c → NoDup l.*1 → (∀ t e, (t, e) ∈ l → tidy (e_coins e) ∧ (has_flag e FRESH = true → cache_utxo c t = None)) →
  let c' := foldl write_entry c l in cache_ok c' ∧ (∀ x, x ∉ l.*1 → cache_utxo c' x = cache_utxo c x) ∧
  ∀ x e, (x, e) ∈ l → cache_utxo c' x = if has_flag e DIRTY then norm (Some (e_coins e)) else cache_utxo c x.
Proof using Type.
  induction l as [|[t e] l IH]; intros c Hc Hd Hl; cbn [foldl].
  { split_and!; [done|done|]. intros x e Hx. by apply not_elem_of_nil in Hx. }
  cbn [fmap list_fmap fst] in Hd. apply list.NoDup_cons in Hd as [Hnt Hd]. destruct (Hl t e ltac:(set_solver)) as [Ht Hf].
  destruct (write_entry_spec c t e Hc Ht Hf) as (Hc1 & _ & _ & H1).
  assert (∀ x f, (x, f) ∈ l → x ≠ t) as Hne by (intros x f Hx ->; apply Hnt, list_elem_of_fmap; by exists (t, f)).
  destruct (IH _ Hc1 Hd) as (Hc' & Hout & Hin).
  { intros x f Hx. rewrite H1, decide_False by (by eapply Hne). apply Hl. set_solver. }
  split_and!; [done| |].
  - intros x Hx. cbn [fmap list_fmap fst] in Hx. rewrite Hout by set_solver. rewrite H1. by rewrite decide_False by set_solver.
  - intros x f [[= -> ->]|Hx]%elem_of_cons.
    + rewrite Hout by done. rewrite H1. by rewrite decide_True.
    + rewrite (Hin x f Hx), H1. by rewrite !decide_False by (by eapply Hne).
Qed.

Lemma cache_GetCoins_spec c t : cache_ok c → ∃ c' r, cache_GetCoins c t = (c', r) ∧ cache_ok c' ∧ (∀ x, cache_utxo c' x = cache_utxo c x) ∧
  cache_best c' = cache_best c ∧ norm r = cache_utxo c t ∧ ∀ x, r = Some x → tidy x.
Proof using Type.
  intros Hc. destruct (FetchCoins_spec c t Hc) as (c' & e & E & Hc' & Hu & Hb & Hn & Ht & _). exists c', (e_coins <$> e).
  unfold cache_GetCoins. rewrite E. split_and!; try done. intros x. destruct e as [e|]; [|done]. intros [= <-]. by apply Ht.
Qed.
#[export, program] Instance CCoinsViewCache_spec : CoinsSpec (CCoinsViewCache V) := {|
  utxo := cache_utxo; best_block := cache_best; view_ok := cache_ok |}.
Next Obligation. exact cache_tidy. Qed.
Next Obligation. exact cache_GetCoins_spec. Qed.
Next Obligation.
  intros c [Hb Hm Hf]. cbn. unfold cache_GetBestBlock, cache_best. destruct (Uint256.IsNull (hashBlock c)) eqn:En.
  - destruct (GetBestBlock_spec (base c) Hb) as (v & -> & Hv & Hu & Hbest). eexists. split; [done|]. split_and!.
    + split; [done| |done]. eapply map_ok_ext; [|exact Hm]. done.
    + intros x. by apply through_ext.
    + cbn. rewrite Hbest. destruct (Uint256.IsNull (best_block (base c))); reflexivity.
  - exists c. split_and!; [done|by split|done|by rewrite En].
Qed.
Next Obligation.
  intros c m h Hc Hm. cbn. unfold cache_BatchWrite. rewrite (co_free c Hc).
  destruct (write_fold_spec (map_to_list m) c Hc) as (Hc' & Hout & Hin).
  - apply NoDup_fst_map_to_list.
  - intros t e He%elem_of_map_to_list. by apply (Hm t e).
  - eexists. split; [done|]. split_and!; [by destruct Hc'; split| |by unfold cache_best; cbn; intros ->]. intros t.
    change (cache_utxo (SetBestBlock ?c h) t) with (cache_utxo c t). unfold written. destruct (m !! t) as [e|] eqn:Et.
    + apply Hin. by apply elem_of_map_to_list.
    + apply Hout. intros ([x e] & Hx & He%elem_of_map_to_list)%list_elem_of_fmap. simpl in Hx. subst x. congruence.
Qed.

(** *** Modifiers *)
Lemma tidy_Clear : tidy Clear.
Proof using Type. split; [split; done|done]. Qed.
(** The two ways a modifier ends, for an entry that is dirty. *)
Lemma modifier_map u m t y fl : map_ok u m → tidy (Cleanup y) → (has_flag (mkEntry y fl) FRESH = true → u t = None) → has_flag (mkEntry y fl) DIRTY = true →
  let e := mkEntry (Cleanup y) fl in
  let m' := if has_flag e FRESH && IsPruned (Cleanup y) then delete t m else <[t := e]> m in
  map_ok u m' ∧ ∀ x, through m' u x = if decide (x = t) then norm (Some (Cleanup y)) else through m u x.
Proof using Type.
  intros Hm Hy Hf Hd e m'. unfold m'. destruct (has_flag e FRESH && IsPruned (Cleanup y)) eqn:Ef.
  - apply andb_true_iff in Ef as [Ef Ep]. split; [by apply map_ok_delete|]. intros x. rewrite through_delete. destruct (decide (x = t)) as [-> |]; [|done].
    rewrite norm_pruned by done. by apply Hf.
  - split; [|intros x; by rewrite through_insert]. apply map_ok_insert; [done|]. split_and!; [done|done|]. unfold e. by rewrite (has_flag_coins _ y), Hd.
Qed.

(** A modifier that was taken: the entry it points to, in a cache that is otherwise as before. *)
Record taken c c1 (t : uint256) (x : CCoins) : Prop := {
  tk_base : view_ok (base c1) ∧ (∀ z, utxo (base c1) z = utxo (base c) z) ∧ best_block (base c1) = best_block (base c);
  tk_hash : hashBlock c1 = hashBlock c;
  tk_flag : hasModifier c1 = true;
  tk_entry : ∃ fl m, cacheCoins c1 = <[t := mkEntry x fl]> m ∧ map_ok (utxo (base c)) m ∧ (∀ z, z ≠ t → through m (utxo (base c)) z = cache_utxo c z) ∧
    has_flag (mkEntry x fl) DIRTY = true ∧ (has_flag (mkEntry x fl) FRESH = true → utxo (base c) t = None) }.
Lemma use_taken {A} c c1 usage t x (f : CCoins → option (CCoins * A)) y a : taken c c1 t x → f x = Some (y, a) → tidy (Cleanup y) →
  ∃ c', use_modifier (Some (c1, usage)) t f = Some (c', a) ∧ cache_ok c' ∧ cache_best c' = cache_best c ∧ (∀ z, utxo (base c') z = utxo (base c) z) ∧
    ∀ z, cache_utxo c' z = if decide (z = t) then norm (Some (Cleanup y)) else cache_utxo c z.
Proof using Type.
  intros [(Hb1 & Hb2 & Hb3) Hh Hmod (fl & m & Em & Hm & Hz & Hd & Hf)] Ef Hy. unfold use_modifier. cbn [mbind option_bind].
  rewrite Em, lookup_insert_eq. cbn [mbind option_bind e_coins e_flags]. rewrite Ef. cbn [mbind option_bind]. unfold end_modifier.
  cbn [hasModifier cacheCoins]. rewrite Hmod. cbn [negb]. rewrite lookup_insert_eq. cbn [mbind option_bind e_coins e_flags].
  destruct (modifier_map (utxo (base c)) m t y fl Hm Hy Hf Hd) as [Hm' Ht]. set (e := mkEntry (Cleanup y) fl) in *.
  set (m' := if has_flag e FRESH && IsPruned (Cleanup y) then delete t m else <[t := e]> m) in *.
  eexists. split; [reflexivity|].
  assert (∀ c', base c' = base c1 → hashBlock c' = hashBlock c1 → hasModifier c' = false → cacheCoins c' = m' →
    cache_ok c' ∧ cache_best c' = cache_best c ∧ (∀ z, utxo (base c') z = utxo (base c) z) ∧
    ∀ z, cache_utxo c' z = if decide (z = t) then norm (Some (Cleanup y)) else cache_utxo c z) as Hdone.
  { intros c' E1 E2 E3 E4. split_and!.
    - split; [by rewrite E1| |done]. rewrite E1, E4. by eapply map_ok_ext; [|exact Hm'].
    - unfold cache_best. by rewrite E1, E2, Hh, Hb3.
    - intros z. by rewrite E1.
    - intros z. unfold cache_utxo at 1. rewrite E1, E4, (through_ext m' _ (utxo (base c))) by done. rewrite Ht. destruct (decide (z = t)); [done|by apply Hz]. }
  apply Hdone; unfold m'; destruct (has_flag e FRESH && IsPruned (Cleanup y)); try done; cbn [cacheCoins set_modifier set_cache].
  - by rewrite insert_insert_eq, delete_insert_eq.
  - by rewrite !insert_insert_eq.
Qed.

Lemma use_taken_None {A} c c1 usage t x (f : CCoins → option (CCoins * A)) : taken c c1 t x → f x = None → use_modifier (Some (c1, usage)) t f = None.
Proof using Type.
  intros [_ _ _ (fl & m & Em & _)] Ef. unfold use_modifier. cbn [mbind option_bind]. rewrite Em, lookup_insert_eq. cbn [mbind option_bind e_coins].
  by rewrite Ef.
Qed.
Lemma ModifyCoins_taken c t : cache_ok c → ∃ c1 usage x, ModifyCoins c t = Some (c1, usage) ∧ taken c c1 t x ∧ tidy x ∧ norm (Some x) = cache_utxo c t.
Proof using Type.
  intros [Hb Hm Hfree]. unfold ModifyCoins. rewrite Hfree. destruct (cacheCoins c !! t) as [e|] eqn:Et.
  - unfold take_modifier. cbn [hasModifier set_cache]. rewrite Hfree. eexists _, _, (e_coins e). split; [reflexivity|].
    destruct (Hm t e Et) as (Htidy & Hf & _). split_and!; [|done|unfold cache_utxo, through; by rewrite Et].
    split; [done|done|done|]. exists (Z.lor (e_flags e) DIRTY), (cacheCoins c). split_and!; [done|done|done|apply has_flag_dirty|].
    rewrite (has_flag_keep _ _ (e_coins e)). by destruct e.
  - destruct (GetCoins_spec (base c) t Hb) as (v & r & -> & Hv & Hu & Hbest & Hr & Htidy).
    unfold take_modifier. cbn [hasModifier set_cache set_base]. rewrite Hfree.
    set (e := match r with None => mkEntry Clear FRESH | Some coins => mkEntry coins (if IsPruned coins then FRESH else 0) end).
    eexists _, _, (e_coins e). split; [reflexivity|].
    assert (tidy (e_coins e)) as Hte by (unfold e; destruct r; [by apply Htidy|apply tidy_Clear]).
    assert (norm (Some (e_coins e)) = utxo (base c) t) as Hne by (rewrite <- Hr; unfold e; by destruct r).
    split_and!; [|done|unfold cache_utxo, through; by rewrite Et].
    split; [done|done|done|]. exists (Z.lor (e_flags e) DIRTY), (cacheCoins c). split_and!; [done|done|done|apply has_flag_dirty|].
    rewrite (has_flag_keep _ _ (e_coins e)). intros Hf. rewrite <- Hne. apply norm_pruned. unfold e in *. destruct r as [x|]; [|done].
    cbn [e_coins e_flags] in *. by destruct (IsPruned x).
Qed.
Lemma ModifyNewCoins_taken c t coinbase : cache_ok c → (coinbase = false → utxo (base c) t = None) →
  ∃ c1 usage, ModifyNewCoins c t coinbase = Some (c1, usage) ∧ taken c c1 t Clear.
Proof using Type.
  intros [Hb Hm Hfree] Hnew. unfold ModifyNewCoins, take_modifier. cbn [hasModifier set_cache]. rewrite Hfree. eexists _, _. split; [reflexivity|].
  split; [done|done|done|]. eexists _, (cacheCoins c). split_and!; [reflexivity|done|done|apply has_flag_dirty|]. rewrite (has_flag_keep _ _ Clear).
  destruct coinbase; cbn [negb]; [|by intros _; apply Hnew]. destruct (cacheCoins c !! t) as [e|] eqn:Et; [|done].
  destruct (Hm t e Et) as (_ & Hf & _). by destruct e.
Qed.

Lemma ModifyCoins_spec {A} c t (f : CCoins → option (CCoins * A)) : cache_ok c → ∃ x, tidy x ∧ norm (Some x) = cache_utxo c t ∧
  (f x = None → use_modifier (ModifyCoins c t) t f = None) ∧
  ∀ y a, f x = Some (y, a) → tidy (Cleanup y) → ∃ c', use_modifier (ModifyCoins c t) t f = Some (c', a) ∧ cache_ok c' ∧ cache_best c' = cache_best c ∧
    (∀ z, utxo (base c') z = utxo (base c) z) ∧ ∀ z, cache_utxo c' z = if decide (z = t) then norm (Some (Cleanup y)) else cache_utxo c z.
Proof using Type.
  intros Hc. destruct (ModifyCoins_taken c t Hc) as (c1 & usage & x & -> & Ht & Hx & Hn). exists x. split_and!; [done|done|by eapply use_taken_None|].
  intros y a Hf Hy. by eapply use_taken.
Qed.
Lemma ModifyNewCoins_spec {A} c t coinbase (f : CCoins → option (CCoins * A)) y a : cache_ok c → (coinbase = false → utxo (base c) t = None) →
  f Clear = Some (y, a) → tidy (Cleanup y) → ∃ c', use_modifier (ModifyNewCoins c t coinbase) t f = Some (c', a) ∧ cache_ok c' ∧ cache_best c' = cache_best c ∧
    (∀ z, utxo (base c') z = utxo (base c) z) ∧ ∀ z, cache_utxo c' z = if decide (z = t) then norm (Some (Cleanup y)) else cache_utxo c z.
Proof using Type. intros Hc Hn Hf Hy. destruct (ModifyNewCoins_taken c t coinbase Hc Hn) as (c1 & usage & -> & Ht). by eapply use_taken. Qed.

(** *** The other operations *)
Lemma written_through m u t : map_ok u m → written m u t = through m u t.
Proof using Type.
  intros Hm. unfold written, through. destruct (m !! t) as [e|] eqn:Et; [|done]. destruct (Hm t e Et) as (_ & _ & Hd).
  destruct (has_flag e DIRTY); [done|]. by rewrite Hd.
Qed.
Lemma Flush_spec c : cache_ok c → ∃ c', Flush c = Some (c', true) ∧ cache_ok c' ∧ cacheCoins c' = ∅ ∧
  (∀ t, utxo (base c') t = cache_utxo c t) ∧ (∀ t, cache_utxo c' t = cache_utxo c t) ∧ (Uint256.IsNull (hashBlock c) = false → best_block (base c') = cache_best c).
Proof using Type.
  intros [Hb Hm Hf]. unfold Flush. destruct (BatchWrite_spec (base c) (cacheCoins c) (hashBlock c) Hb) as (v & -> & Hv & Hu & Hbest).
  { intros t e He. destruct (Hm t e He) as (? & ? & _). done. }
  eexists. split; [reflexivity|]. assert (∀ t, utxo v t = cache_utxo c t) as Ht by (intros t; rewrite Hu; by apply written_through).
  split_and!; [split; [done|intros t e He; cbn [cacheCoins] in He; by rewrite lookup_empty in He|done]|done|done|done|]. intros Hn. unfold cache_best. rewrite Hn. by apply Hbest.
Qed.
Lemma Uncache_spec c t : cache_ok c → cache_ok (Uncache c t) ∧ ∀ x, cache_utxo (Uncache c t) x = cache_utxo c x.
Proof using Type.
  intros [Hb Hm Hf]. unfold Uncache. destruct (cacheCoins c !! t) as [e|] eqn:Et; [|by split]. destruct (Z.eqb_spec (e_flags e) 0) as [E|]; [|by split].
  split; [split; [done|by apply map_ok_delete|done]|]. intros x. unfold cache_utxo. cbn [base cacheCoins set_cache]. rewrite through_delete.
  destruct (decide (x = t)) as [-> |]; [|done]. unfold through. rewrite Et. symmetry. destruct (Hm t e Et) as (_ & _ & Hd). apply Hd.
  unfold has_flag. by rewrite E.
Qed.

Lemma tidy_empty x : tidy x → c_vout x = [] ↔ IsPruned x = true.
Proof using Type. intros [[_ Hc _ _] _]. unfold IsPruned. by rewrite trim_all_null, Hc. Qed.
Lemma HaveCoins_spec c t : cache_ok c → ∃ c', HaveCoins c t = (c', bool_decide (is_Some (cache_utxo c t))) ∧ cache_ok c' ∧ (∀ x, cache_utxo c' x = cache_utxo c x).
Proof using Type.
  intros Hc. destruct (FetchCoins_spec c t Hc) as (c' & e & E & Hc' & Hu & _ & Hn & Ht & _). exists c'. unfold HaveCoins. rewrite E. split_and!; [|done|done].
  f_equal. rewrite <- Hn. destruct e as [e|]; cbn [fmap option_fmap option_map]; [|done]. specialize (Ht e eq_refl).
  destruct (c_vout (e_coins e)) as [|o l] eqn:Ev.
  - by rewrite norm_pruned by (by apply tidy_empty).
  - rewrite norm_live; [done|]. apply not_true_iff_false. rewrite <- tidy_empty by done. by rewrite Ev.
Qed.

(** The output an outpoint refers to, if it is unspent. *)
Definition unspent (u : uint256 → option CCoins) (p : COutPoint) : option CTxOut :=
  x ← u (ophash p); if IsAvailable x (opn p) then c_vout x !! Z.to_nat (opn p) else None.
Lemma IsAvailable_output x n : IsAvailable x n = true → ∃ o, c_vout x !! Z.to_nat n = Some o ∧ CTxOut_IsNull o = false.
Proof using Type. unfold IsAvailable, avail. destruct (c_vout x !! Z.to_nat n) as [o|]; [|done]. intros Hn%negb_true_iff. eauto. Qed.
Lemma pruned_unavailable x n : IsPruned x = true → IsAvailable x n = false.
Proof using Type.
  intros Hp. apply not_true_iff_false. intros (o & Eo & Hn)%IsAvailable_output. unfold IsPruned in Hp. rewrite forallb_forall in Hp.
  rewrite Hp in Hn; [done|]. apply list_elem_of_In. by eapply list_elem_of_lookup_2.
Qed.
Lemma unspent_norm (r : option CCoins) p u : norm r = u (ophash p) → unspent u p = x ← r; if IsAvailable x (opn p) then c_vout x !! Z.to_nat (opn p) else None.
Proof using Type.
  intros Hn. unfold unspent. rewrite <- Hn. destruct r as [x|]; [|done]. cbn [norm mbind option_bind]. destruct (IsPruned x) eqn:Ep; [|done].
  cbn [mbind option_bind]. by rewrite pruned_unavailable.
Qed.
Lemma unspent_ext u u' p : (∀ x, u x = u' x) → unspent u p = unspent u' p.
Proof using Type. intros Hu. unfold unspent. by rewrite Hu. Qed.

Lemma GetOutputFor_spec c i : cache_ok c → match unspent (cache_utxo c) (prevout i) with
  | Some o => ∃ c', GetOutputFor c i = Some (c', o) ∧ cache_ok c' ∧ ∀ x, cache_utxo c' x = cache_utxo c x
  | None => GetOutputFor c i = None end.
Proof using Type.
  intros Hc. destruct (cache_GetCoins_spec c (ophash (prevout i)) Hc) as (c' & r & E & Hc' & Hu & _ & Hn & _).
  rewrite (unspent_norm r) by done. unfold GetOutputFor, AccessCoins. rewrite E. destruct r as [x|]; cbn [mbind option_bind]; [|done].
  destruct (IsAvailable x _) eqn:Ea; [|done]. destruct (IsAvailable_output _ _ Ea) as (o & -> & _). cbn [mbind option_bind]. eauto.
Qed.
Lemma have_inputs_spec l : ∀ c, cache_ok c → ∃ c', have_inputs_loop c l = (c', forallb (λ i, bool_decide (is_Some (unspent (cache_utxo c) (prevout i)))) l) ∧
  cache_ok c' ∧ ∀ x, cache_utxo c' x = cache_utxo c x.
Proof using Type.
  induction l as [|i l IH]; intros c Hc; cbn [have_inputs_loop forallb]; [by exists c|].
  destruct (cache_GetCoins_spec c (ophash (prevout i)) Hc) as (c1 & r & E & Hc1 & Hu & _ & Hn & _).
  unfold AccessCoins. rewrite E, (unspent_norm r) by done. destruct r as [x|]; cbn [mbind option_bind]; [|by exists c1].
  destruct (IsAvailable x _) eqn:Ea; [|by exists c1]. destruct (IsAvailable_output _ _ Ea) as (o & -> & _).
  destruct (IH c1 Hc1) as (c' & -> & Hc' & Hu'). exists c'. split_and!; [|done|intros z; by rewrite Hu', Hu].
  f_equal. rewrite bool_decide_true by done. cbn [andb]. apply forallb_same. intros j. by rewrite (unspent_ext _ (cache_utxo c)).
Qed.
Lemma value_in_spec l : ∀ c n, cache_ok c → (∀ i, i ∈ l → is_Some (unspent (cache_utxo c) (prevout i))) →
  ∃ c', value_in_loop c l n = Some (c', foldl (λ s i, i64 (s + default 0 (nValue <$> unspent (cache_utxo c) (prevout i)))) n l) ∧
  cache_ok c' ∧ ∀ x, cache_utxo c' x = cache_utxo c x.
Proof using Type.
  induction l as [|i l IH]; intros c n Hc Hl; cbn [value_in_loop foldl]; [by exists c|].
  destruct (Hl i ltac:(set_solver)) as [o Eo]. pose proof (GetOutputFor_spec c i Hc) as Ho. rewrite Eo in Ho. destruct Ho as (c1 & -> & Hc1 & Hu).
  cbn [mbind option_bind]. destruct (IH c1 (i64 (n + nValue o)) Hc1) as (c' & -> & Hc' & Hu').
  { intros j Hj. rewrite (unspent_ext _ (cache_utxo c)) by done. apply Hl. set_solver. }
  exists c'. split_and!; [|done|intros z; by rewrite Hu', Hu]. rewrite Eo. cbn [fmap option_fmap option_map from_option id]. do 2 f_equal.
  generalize (i64 (n + nValue o)). clear - Hu. induction l as [|j l IH]; intros m; cbn [foldl]; [done|]. rewrite IH. by rewrite (unspent_ext _ (cache_utxo c)).
Qed.
End cache_spec.

(** ** A database with one record, for examples *)
#[local] Existing Instance toy_secp.
#[local] Existing Instance toy_laws.
#[export] Instance no_usage : MemUsage := {| DynamicMemoryUsage _ := 0 |}.
Definition sample_id : uint256 := replicate 32 7.
Definition sample_db : CCoinsViewDB := mkDB {[ sample_id := default [] (Serialize_CCoins sample_coins) ]} (Some (replicate 32 9)).
Lemma sample_tidy : tidy sample_coins.
Proof. split; [apply sample_wf|done]. Qed.
Lemma sample_db_ok : view_ok sample_db.
Proof. intros t s Hs. cbn [db_coins sample_db] in Hs. apply lookup_singleton_Some in Hs as [<- <-]. exists sample_coins. split_and!; [vm_compute; reflexivity|apply sample_tidy|done]. Qed.
Lemma sample_db_utxo t : utxo sample_db t = if decide (t = sample_id) then Some sample_coins else None.
Proof.
  cbn [utxo CCoinsViewDB_spec db_coins sample_db]. destruct (decide (t = sample_id)) as [-> |Hn]; [vm_compute; reflexivity|by rewrite lookup_singleton_ne].
Qed.
End CoinsView.
