(* ===== verification/CoinsRefinement.v ===== *)
(** * CoinsRefinement: a cache implements a map of unspent outputs

    The specification is a machine whose state is two maps from transactions to coins: what the
    cache answers and what the view below answers.  Every sequence of operations of
    [CCoinsViewCache], over a view that keeps [CoinsSpec], is a run of that machine. *)
From S2P Require Import Prelude Serialize Uint256 Amount Script Transaction Compressor Coins CoinsView.

Module CoinsRefinement.
Import Serialize Transaction Compressor Coins CoinsView.

(** ** The specification *)
Record utxo_state := mkUtxo { u_coins : list Z → option CCoins; u_below : list Z → option CCoins }.
#[export] Instance utxo_equiv : Equiv utxo_state := λ s s', (∀ t, u_coins s t = u_coins s' t) ∧ ∀ t, u_below s t = u_below s' t.
#[export] Instance utxo_equivalence : Equivalence (≡@{utxo_state}).
Proof.
  split; [done| |].
  - intros s s' [H1 H2]. by split.
  - intros s1 s2 s3 [H1 H2] [H3 H4]. split; intros t; [by rewrite H1|by rewrite H2].
Qed.
Definition upd (u : list Z → option CCoins) (t : list Z) (o : option CCoins) (z : list Z) : option CCoins := if decide (z = t) then o else u z.

(** The calls a client makes; a modifier lives for one call, [f] is what its holder does. *)
Inductive cache_op :=
| do_access (t : list Z)
| do_have (t : list Z)
| do_have_inputs (tx : CMutableTransaction)
| do_output_for (i : CTxIn)
| do_modify (t : list Z) (f : CCoins → option CCoins)
| do_new (t : list Z) (coinbase : bool) (f : CCoins → option CCoins)
| do_uncache (t : list Z)
| do_flush.
Inductive answer := coins_are (o : option CCoins) | holds (b : bool) | output (o : CTxOut) | finished.

(** What a client must ensure: no assertion of its own fails, modified coins can be stored, and
    new coins that are not a coinbase replace nothing in the view below. *)
Definition spec_ok (s : utxo_state) (op : cache_op) : Prop :=
  match op with
  | do_output_for i => is_Some (unspent (u_coins s) (prevout i))
  | do_modify t f => ∀ x, tidy x → norm (Some x) = u_coins s t → ∃ y, f x = Some y ∧ tidy (Cleanup y)
  | do_new t coinbase f => (coinbase = false → u_below s t = None) ∧ ∃ y, f Clear = Some y ∧ tidy (Cleanup y)
  | _ => True
  end.
Definition spec_step (s : utxo_state) (op : cache_op) (s' : utxo_state) (r : answer) : Prop :=
  match op with
  | do_access t => r = coins_are (u_coins s t) ∧ s' ≡ s
  | do_have t => r = holds (bool_decide (is_Some (u_coins s t))) ∧ s' ≡ s
  | do_have_inputs tx => r = holds (no_inputs tx || forallb (λ i, bool_decide (is_Some (unspent (u_coins s) (prevout i)))) (vin tx)) ∧ s' ≡ s
  | do_output_for i => (∃ o, r = output o ∧ unspent (u_coins s) (prevout i) = Some o) ∧ s' ≡ s
  | do_modify t f => r = finished ∧ ∃ x y, norm (Some x) = u_coins s t ∧ f x = Some y ∧ s' ≡ mkUtxo (upd (u_coins s) t (norm (Some (Cleanup y)))) (u_below s)
  | do_new t _ f => r = finished ∧ ∃ y, f Clear = Some y ∧ s' ≡ mkUtxo (upd (u_coins s) t (norm (Some (Cleanup y)))) (u_below s)
  | do_uncache _ => r = finished ∧ s' ≡ s
  | do_flush => r = finished ∧ s' ≡ mkUtxo (u_coins s) (u_coins s)
  end.
Inductive spec_run : utxo_state → list cache_op → utxo_state → list answer → Prop :=
| run_nil s : spec_run s [] s []
| run_cons s op s1 r ops s' rs : spec_step s op s1 r → spec_run s1 ops s' rs → spec_run s (op :: ops) s' (r :: rs).
(** The client's obligations along every run of the specification. *)
Fixpoint all_ok (s : utxo_state) (ops : list cache_op) : Prop :=
  match ops with
  | [] => True
  | op :: ops => spec_ok s op ∧ ∀ s' r, spec_step s op s' r → all_ok s' ops
  end.

(** The specification does not distinguish maps with the same values. *)
#[export] Instance spec_ok_proper : Proper ((≡) ==> (=) ==> impl) spec_ok.
Proof.
  intros s s' [H1 H2] op _ <-. destruct op as [| | |i|t f|t cb f| |]; cbn [spec_ok]; unfold impl; try done.
  - by rewrite (unspent_ext _ (u_coins s')).
  - by rewrite H1.
  - by rewrite H2.
Qed.
#[export] Instance spec_step_proper : Proper ((≡) ==> (=) ==> (=) ==> (=) ==> impl) spec_step.
Proof.
  intros s s' E op _ <- s1 _ <- r _ <-. pose proof E as [H1 H2]. unfold impl.
  assert (∀ t o, mkUtxo (upd (u_coins s) t o) (u_below s) ≡ mkUtxo (upd (u_coins s') t o) (u_below s')) as Hu.
  { intros t o. split; [|done]. intros z. cbn [u_coins]. unfold upd. by rewrite H1. }
  destruct op as [t|t|tx|i|t f|t cb f|t|]; cbn [spec_step].
  - by rewrite H1, E.
  - by rewrite H1, E.
  - rewrite E. intros [-> Hs]. split; [|done]. do 2 f_equal. apply forallb_same. intros j. by rewrite (unspent_ext _ (u_coins s')).
  - by rewrite (unspent_ext _ (u_coins s')), E.
  - intros [-> (x & y & Hx & Hf & Hs)]. split; [done|]. exists x, y. rewrite <- H1, <- Hu. done.
  - intros [-> (y & Hf & Hs)]. split; [done|]. exists y. by rewrite <- Hu.
  - by rewrite E.
  - intros [-> Hs]. split; [done|]. rewrite Hs. by split.
Qed.
Lemma all_ok_equiv ops s s' : s ≡ s' → all_ok s ops → all_ok s' ops.
Proof.
  intros E. destruct ops as [|op ops]; [done|]. intros [Hok Hrest]. split; [by rewrite <- E|]. intros s1 r Hs. apply (Hrest s1 r). by rewrite E.
Qed.
(** Obligations after one operation, on the state the specification names. *)
Lemma all_ok_same s op ops : spec_ok s op → (∀ s' r, spec_step s op s' r → s' ≡ s) → all_ok s ops → all_ok s (op :: ops).
Proof. intros Hok Hs Hops. split; [done|]. intros s' r Hr. by apply (all_ok_equiv ops s), Hops; symmetry; eapply Hs. Qed.

(** ** The cache *)
Section run.
Context {V : Type} `{CCoinsView V} `{MemUsage}.
Definition modify (f : CCoins → option CCoins) (x : CCoins) : option (CCoins * unit) := y ← f x; Some (y, tt).
Definition run_op (c : CCoinsViewCache V) (op : cache_op) : option (CCoinsViewCache V * answer) :=
  match op with
  | do_access t => let '(c, r) := AccessCoins c t in Some (c, coins_are (norm r))
  | do_have t => let '(c, b) := HaveCoins c t in Some (c, holds b)
  | do_have_inputs tx => let '(c, b) := HaveInputs c tx in Some (c, holds b)
  | do_output_for i => '(c, o) ← GetOutputFor c i; Some (c, output o)
  | do_modify t f => '(c, _) ← use_modifier (ModifyCoins c t) t (modify f); Some (c, finished)
  | do_new t coinbase f => '(c, _) ← use_modifier (ModifyNewCoins c t coinbase) t (modify f); Some (c, finished)
  | do_uncache t => Some (Uncache c t, finished)
  | do_flush => '(c, _) ← Flush c; Some (c, finished)
  end.
Fixpoint run_ops (c : CCoinsViewCache V) (ops : list cache_op) : option (CCoinsViewCache V * list answer) :=
  match ops with
  | [] => Some (c, [])
  | op :: ops => '(c, r) ← run_op c op; '(c, rs) ← run_ops c ops; Some (c, r :: rs)
  end.
End run.

(** ** Refinement *)
Section refinement.
Context {V : Type} {HV : CCoinsView V} {HS : CoinsSpec V} `{MemUsage}.
Implicit Types c : CCoinsViewCache V.
Definition abs c : utxo_state := mkUtxo (cache_utxo c) (utxo (base c)).

Lemma abs_same c c' : (∀ t, cache_utxo c' t = cache_utxo c t) → (∀ t, utxo (base c') t = utxo (base c) t) → abs c' ≡ abs c.
Proof using Type. by split. Qed.
Lemma FetchCoins_below c t : cache_ok c → ∀ z, utxo (base (FetchCoins c t).1) z = utxo (base c) z.
Proof using Type.
  intros [Hb _ _] z. unfold FetchCoins. destruct (cacheCoins c !! t); [done|]. destruct (GetCoins_spec (base c) t Hb) as (v & r & -> & _ & Hu & _).
  by destruct r.
Qed.
Lemma access_below c t c' r : cache_ok c → cache_GetCoins c t = (c', r) → ∀ z, utxo (base c') z = utxo (base c) z.
Proof using Type. intros Hc E z. rewrite <- (FetchCoins_below c t Hc z). unfold cache_GetCoins in E. destruct (FetchCoins c t). by injection E as <- _. Qed.
Lemma have_inputs_below l : ∀ c c' b, cache_ok c → have_inputs_loop c l = (c', b) → ∀ z, utxo (base c') z = utxo (base c) z.
Proof using Type.
  induction l as [|i l IH]; intros c c' b Hc; cbn [have_inputs_loop]; [by intros [= <- _]|].
  destruct (cache_GetCoins_spec c (ophash (prevout i)) Hc) as (c1 & r & E & Hc1 & _). unfold AccessCoins. rewrite E. pose proof (access_below _ _ _ _ Hc E) as Hb.
  destruct r as [x|]; [|by intros [= <- _]]. destruct (IsAvailable x _); [|by intros [= <- _]]. intros Ei z. rewrite (IH c1 c' b Hc1 Ei). apply Hb.
Qed.

(** *** Each operation *)
Lemma read_step c op : cache_ok c → spec_ok (abs c) op → match op with do_access _ | do_have _ | do_have_inputs _ | do_output_for _ | do_uncache _ => True | _ => False end →
  ∃ c' r, run_op c op = Some (c', r) ∧ cache_ok c' ∧ spec_step (abs c) op (abs c') r.
Proof using Type.
  intros Hc Hok Hread. destruct op as [t|t|tx|i| | |t|]; try done; cbn [run_op spec_step].
  - destruct (cache_GetCoins_spec c t Hc) as (c' & r & E & Hc' & Hu & _ & Hn & _). unfold AccessCoins. rewrite E. eexists _, _. split; [done|].
    split_and!; [done|by rewrite Hn|]. apply abs_same; [done|by eapply access_below].
  - destruct (HaveCoins_spec c t Hc) as (c' & E & Hc' & Hu). rewrite E. eexists _, _. split; [done|]. split_and!; [done|done|]. apply abs_same; [done|].
    intros z. rewrite <- (FetchCoins_below c t Hc z). unfold HaveCoins in E. destruct (FetchCoins c t). by injection E as <- _.
  - unfold HaveInputs. destruct (no_inputs tx); [by eexists _, _|]. destruct (have_inputs_spec (vin tx) c Hc) as (c' & E & Hc' & Hu). rewrite E.
    eexists _, _. split; [done|]. split_and!; [done|done|]. apply abs_same; [done|by eapply have_inputs_below].
  - destruct Hok as [o Ho]. cbn [abs u_coins] in *. pose proof (GetOutputFor_spec c i Hc) as Hs. rewrite Ho in Hs. destruct Hs as (c' & E & Hc' & Hu). rewrite E.
    cbn [mbind option_bind]. eexists _, _. split; [done|]. split_and!; [done|by eexists|]. apply abs_same; [done|].
    unfold GetOutputFor, AccessCoins in E. destruct (cache_GetCoins c _) as [c1 r] eqn:Eg. destruct r as [x|]; cbn [mbind option_bind] in E; [|done].
    destruct (IsAvailable x _); [|done]. destruct (c_vout x !! _); [|done]. injection E as <- _. by eapply access_below.
  - destruct (Uncache_spec c t Hc) as [Hc' Hu]. eexists _, _. split; [done|]. split_and!; [done|done|]. apply abs_same; [done|].
    intros z. unfold Uncache. destruct (cacheCoins c !! t) as [e|]; [|done]. by destruct (e_flags e =? 0).
Qed.
Lemma write_step c op : cache_ok c → spec_ok (abs c) op → match op with do_modify _ _ | do_new _ _ _ | do_flush => True | _ => False end →
  ∃ c' r, run_op c op = Some (c', r) ∧ cache_ok c' ∧ spec_step (abs c) op (abs c') r.
Proof using Type.
  intros Hc Hok Hwrite. destruct op as [| | | |t f|t coinbase f| |]; try done; cbn [run_op spec_step].
  - destruct (ModifyCoins_spec c t (modify f) Hc) as (x & Hx & Hn & _ & Hsome). destruct (Hok x Hx Hn) as (y & Ef & Hy).
    destruct (Hsome y tt) as (c' & -> & Hc' & _ & Hb & Hu); [by unfold modify; rewrite Ef|done|]. cbn [mbind option_bind]. eexists _, _. split; [done|].
    split_and!; [done|done|]. exists x, y. by split_and!.
  - destruct Hok as [Hnew (y & Ef & Hy)]. destruct (ModifyNewCoins_spec c t coinbase (modify f) y tt Hc Hnew) as (c' & -> & Hc' & _ & Hb & Hu);
      [by unfold modify; rewrite Ef|done|]. cbn [mbind option_bind]. eexists _, _. split; [done|]. split_and!; [done|done|]. by exists y.
  - destruct (Flush_spec c Hc) as (c' & -> & Hc' & _ & Hb & Hu & _). cbn [mbind option_bind]. eexists _, _. split; [done|]. by split_and!.
Qed.
Lemma cache_step c op : cache_ok c → spec_ok (abs c) op → ∃ c' r, run_op c op = Some (c', r) ∧ cache_ok c' ∧ spec_step (abs c) op (abs c') r.
Proof using Type. intros Hc Hok. destruct op; (by apply read_step) || by apply write_step. Qed.

(** C18. A cache over any view that keeps its promise implements the map of unspent outputs:
    whatever sequence of reads, modifications, additions, evictions and flushes a client makes, as
    long as the client keeps its obligations ([spec_ok]: it asks [GetOutputFor], which asserts it, for unspent outputs only; its modifications succeed and leave coins that can be stored; and it calls
    [ModifyNewCoins] for a transaction that is not a coinbase only if the view below has no coins of it), no assertion fails, the cache stays consistent and
    the answers are those of a run of the specification, in which flushing copies the map to the
    view below and evicting an entry changes nothing. *)
Theorem coins_cache_refines c ops : cache_ok c → all_ok (abs c) ops → ∃ c' rs, run_ops c ops = Some (c', rs) ∧ cache_ok c' ∧ spec_run (abs c) ops (abs c') rs.
Proof using Type.
  revert c. induction ops as [|op ops IH]; intros c Hc Hok; cbn [run_ops].
  { eexists _, _. split_and!; [done|done|constructor]. }
  destruct Hok as [Hop Hrest]. destruct (cache_step c op Hc Hop) as (c1 & r & -> & Hc1 & Hs). cbn [mbind option_bind].
  destruct (IH c1 Hc1 (Hrest _ _ Hs)) as (c' & rs & -> & Hc' & Hr). cbn [mbind option_bind]. eexists _, _. split_and!; [done|done|by econstructor].
Qed.
End refinement.

(** ** A cache over a cache over an empty database *)
Section sample.
#[local] Existing Instance toy_secp.
#[local] Existing Instance toy_laws.
Definition sample_cache : CCoinsViewCache (CCoinsViewCache CCoinsViewDB) := new_cache (new_cache (mkDB ∅ None)).
Definition sample_in (n : Z) : CTxIn := mkTxIn (mkOutPoint sample_id n) [] 0.
(** The coins are added, flushed to the cache below, evicted, read back, spent and flushed again. *)
Definition sample_ops : list cache_op :=
  [do_have sample_id; do_new sample_id false (λ _, Some sample_coins); do_access sample_id; do_flush; do_uncache sample_id;
   do_output_for (sample_in 3); do_modify sample_id (λ x, Spend x 3); do_flush; do_have sample_id].
Lemma sample_cache_ok : cache_ok sample_cache.
Proof. split; [split; [by intros t s [=]|by intros t e [=]|done]|by intros t e [=]|done]. Qed.
Lemma sample_unspent u : u sample_id = Some sample_coins → unspent u (mkOutPoint sample_id 3) = Some sample_out.
Proof. intros Hu. unfold unspent. cbn [ophash opn]. rewrite Hu. vm_compute. reflexivity. Qed.
Lemma sample_ops_ok : all_ok (abs sample_cache) sample_ops.
Proof.
  pose (s0 := abs sample_cache). pose (s1 := mkUtxo (upd (u_coins s0) sample_id (Some sample_coins)) (u_below s0)). pose (s2 := mkUtxo (u_coins s1) (u_coins s1)).
  apply all_ok_same; [done|by intros s' r []|]. split; [split; [done|exists sample_coins; split; [done|split; [apply sample_wf|done]]]|].
  intros s' r [_ (y & [= <-] & Hs)]. apply (all_ok_equiv _ s1); [symmetry; exact Hs|]. clear s' r Hs.
  apply all_ok_same; [done|by intros s' r []|]. split; [done|]. intros s' r [_ Hs]. apply (all_ok_equiv _ s2); [symmetry; exact Hs|]. clear s' r Hs.
  assert (u_coins s2 sample_id = Some sample_coins) as H2 by done.
  apply all_ok_same; [done|by intros s' r []|]. apply all_ok_same; [exists sample_out; by apply sample_unspent|by intros s' r []|].
  split; [|done]. cbn [spec_ok]. intros x _. rewrite H2. intros [-> _]%norm_Some. eexists. split; [reflexivity|].
  split; [|done]. split; [|done|done|done].
  match goal with |- Forall _ ?v => let w := eval vm_compute in v in change (Forall storable_or_null w) end. repeat (constructor; [(by left) || (right; apply sample_storable)|]). constructor.
Qed.
Lemma coins_cache_refines_witness : ∃ c' rs, run_ops sample_cache sample_ops = Some (c', rs) ∧ cache_ok c' ∧ spec_run (abs sample_cache) sample_ops (abs c') rs.
Proof. exact (coins_cache_refines sample_cache sample_ops sample_cache_ok sample_ops_ok). Defined.
(** The answers, and that after the second flush the cache below holds the coins with output 3 spent. *)
Example sample_answers : snd <$> run_ops sample_cache sample_ops =
  Some [holds false; finished; coins_are (Some sample_coins); finished; finished; output sample_out; finished; finished; holds true].
Proof. vm_compute. reflexivity. Qed.

(** The obligation on new coins is needed.  Coins of the database are spent and others added
    under the same identifier; when those are spent, the cache drops the entry, because
    [ModifyNewCoins] marked it fresh, and the coins of the database are back. *)
Example fresh_again : snd <$> run_ops (new_cache sample_db)
    [do_modify sample_id (λ _, Some Clear); do_have sample_id; do_new sample_id false (λ _, Some sample_coins); do_modify sample_id (λ _, Some Clear);
     do_have sample_id] = Some [finished; holds false; finished; finished; holds true].
Proof. vm_compute. reflexivity. Qed.
End sample.
End CoinsRefinement.
