(* ===== verification/BlockCoins.v ===== *)
(** * BlockCoins: connecting and disconnecting the coins of a block (main.cpp)

    [UpdateCoins] spends the inputs of a transaction, records how to undo that and adds its
    outputs; [DisconnectBlock] takes a block back with the undo data.  Both work on a cache over
    any view; disconnecting is shown to be the inverse of connecting.  [CheckTxInputs] compares
    amounts.  The address and spent indexes that [DisconnectBlock] also updates are other
    databases and are not modelled. *)
From S2P Require Import Prelude Serialize Uint256 Amount Script Transaction Compressor Coins CoinsView.

Module BlockCoins.
Import Serialize Transaction Compressor Coins CoinsView.

(** ** One input *)
(** Marking an outpoint spent and constructing undo information; [None] is [assert(false)]. *)
Definition spend_output (nPos : Z) (coins : CCoins) : option (CCoins * CTxInUndo) :=
  if negb (IsAvailable coins nPos) then None
  else
    o ← c_vout coins !! Z.to_nat nPos;
    let undo := mkUndo o false 0 0 in
    let coins := default coins (Spend coins nPos) in
    Some (coins, match c_vout coins with
                 | [] => mkUndo (u_txout undo) (fCoinBase coins) (u32 (c_nHeight coins)) (c_nVersion coins)
                 | _ => undo
                 end).
(** [coins->vout.resize(n)] *)
Definition resize_vout (n : nat) (v : list CTxOut) : list CTxOut := v ++ replicate (n - length v) CTxOut_SetNull.
(** The body of [ApplyTxInUndo] on the coins of the outpoint. *)
Definition restore_output (undo : CTxInUndo) (n : Z) (coins : CCoins) : option (CCoins * bool) :=
  let fClean := if negb (u_nHeight undo =? 0) then IsPruned coins else negb (IsPruned coins) in
  let coins := if negb (u_nHeight undo =? 0) then mkCoins (u_fCoinBase undo) [] (i32 (u_nHeight undo)) (u_nVersion undo) else coins in
  let fClean := (fClean && negb (IsAvailable coins n))%bool in
  let v := if Z.of_nat (length (c_vout coins)) <? u32 (n + 1) then resize_vout (Z.to_nat (u32 (n + 1))) (c_vout coins) else c_vout coins in
  if (Z.to_nat n <? length v)%nat then Some (set_vout coins (<[Z.to_nat n := u_txout undo]> v), fClean) else None.

Section coins.
Context {V : Type} `{CCoinsView V} `{MemUsage} (Hash : list Z → list Z).
Implicit Types c : CCoinsViewCache V.

(** ** Connecting *)
Fixpoint spend_inputs c (vin : list CTxIn) : option (CCoinsViewCache V * list CTxInUndo) :=
  match vin with
  | [] => Some (c, [])
  | i :: vin =>
      '(c, u) ← use_modifier (ModifyCoins c (ophash (prevout i))) (ophash (prevout i)) (spend_output (opn (prevout i)));
      '(c, us) ← spend_inputs c vin;
      Some (c, u :: us)
  end.
Definition UpdateCoins c (tx : CMutableTransaction) (nHeight : Z) : option (CCoinsViewCache V * list CTxInUndo) :=
  '(c, txundo) ← (if negb (no_inputs tx) then spend_inputs c (vin tx) else Some (c, []));
  hash ← GetHash Hash tx;
  '(c, _) ← use_modifier (ModifyNewCoins c hash (IsCoinBase tx)) hash (λ _, Some (FromTx tx nHeight, tt));
  Some (c, txundo).
(** The calls of [UpdateCoins] in [ConnectBlock]; the undo data of the first transaction is a dummy. *)
Fixpoint update_all c (vtx : list CMutableTransaction) (nHeight : Z) : option (CCoinsViewCache V * list (list CTxInUndo)) :=
  match vtx with
  | [] => Some (c, [])
  | tx :: vtx => '(c, u) ← UpdateCoins c tx nHeight; '(c, us) ← update_all c vtx nHeight; Some (c, u :: us)
  end.
Definition connect_coins c (vtx : list CMutableTransaction) (nHeight : Z) : option (CCoinsViewCache V * list (list CTxInUndo)) :=
  '(c, us) ← update_all c vtx nHeight; Some (c, tail us).

(** ** Disconnecting *)
Definition ApplyTxInUndo c (undo : CTxInUndo) (out : COutPoint) : option (CCoinsViewCache V * bool) :=
  use_modifier (ModifyCoins c (ophash out)) (ophash out) (restore_output undo (opn out)).
(** The loop over the inputs, the last one first. *)
Fixpoint restore_inputs c (vin : list CTxIn) (vprevout : list CTxInUndo) : option (CCoinsViewCache V * bool) :=
  match vin, vprevout with
  | i :: vin, u :: us =>
      '(c, fClean) ← restore_inputs c vin us;
      '(c, ok) ← ApplyTxInUndo c u (prevout i);
      Some (c, (fClean && ok)%bool)
  | _, _ => Some (c, true)
  end.
(** Checking and removing the outputs of a transaction. *)
Definition remove_outputs (tx : CMutableTransaction) (nHeight : Z) (outs : CCoins) : option (CCoins * bool) :=
  let outs := ClearUnspendable outs in
  let outsBlock := FromTx tx nHeight in
  let outs := if c_nVersion outsBlock <? 0 then mkCoins (fCoinBase outs) (c_vout outs) (c_nHeight outs) (c_nVersion outsBlock) else outs in
  Some (Clear, CCoins_eqb outs outsBlock).
(** What the function returns: an error on inconsistent data, or the value of [fClean]. *)
Inductive disconnect_result := undo_inconsistent | undone (fClean : bool).
Definition disconnect_tx c (tx : CMutableTransaction) (nHeight : Z) (txundo : option (list CTxInUndo)) : option (CCoinsViewCache V * disconnect_result) :=
  hash ← GetHash Hash tx;
  '(c, ok) ← use_modifier (ModifyCoins c hash) hash (remove_outputs tx nHeight);
  if negb (no_inputs tx) then
    vprevout ← txundo;
    if negb (length vprevout =? length (vin tx))%nat then Some (c, undo_inconsistent)
    else '(c, ok') ← restore_inputs c (vin tx) vprevout; Some (c, undone (ok && ok')%bool)
  else Some (c, undone ok).
(** The loop over the transactions, the last one first; an entry of [vtxundo] for each but the first. *)
Fixpoint disconnect_all c (vtx : list (CMutableTransaction * option (list CTxInUndo))) (nHeight : Z) : option (CCoinsViewCache V * disconnect_result) :=
  match vtx with
  | [] => Some (c, undone true)
  | (tx, u) :: vtx =>
      '(c, r) ← disconnect_all c vtx nHeight;
      match r with
      | undo_inconsistent => Some (c, undo_inconsistent)
      | undone fClean =>
          '(c, r) ← disconnect_tx c tx nHeight u;
          Some (c, match r with undo_inconsistent => undo_inconsistent | undone ok => undone (fClean && ok) end)
      end
  end.
Definition DisconnectBlock c (vtx : list CMutableTransaction) (nHeight : Z) (hash hashPrev : uint256) (vtxundo : list (list CTxInUndo))
    : option (CCoinsViewCache V * disconnect_result) :=
  let '(c, best) := GetBestBlock c in
  if negb (bool_decide (hash = best)) then None
  else if negb (length vtxundo + 1 =? length vtx)%nat then Some (c, undo_inconsistent)
  else
    '(c, r) ← disconnect_all c (zip vtx (None :: map Some vtxundo)) nHeight;
    Some (match r with undone _ => SetBestBlock c hashPrev | undo_inconsistent => c end, r).

(** ** Checking amounts *)
Definition COINBASE_MATURITY : Z := 100.
Inductive input_error := inputs_unavailable | premature_spend | values_out_of_range | in_below_out | fee_negative | fee_out_of_range | value_out_throws.
Fixpoint check_values c (vin : list CTxIn) (nSpendHeight nValueIn : Z) : option (CCoinsViewCache V * (input_error + Z)) :=
  match vin with
  | [] => Some (c, inr nValueIn)
  | i :: vin =>
      let '(c, coins) := AccessCoins c (ophash (prevout i)) in
      coins ← coins;
      if fCoinBase coins && (nSpendHeight - c_nHeight coins <? COINBASE_MATURITY) then Some (c, inl premature_spend)
      else
        o ← c_vout coins !! Z.to_nat (opn (prevout i));
        let nValueIn := i64 (nValueIn + nValue o) in
        if negb (Amount.MoneyRange (nValue o)) || negb (Amount.MoneyRange nValueIn) then Some (c, inl values_out_of_range)
        else check_values c vin nSpendHeight nValueIn
  end.
Definition CheckTxInputs c (tx : CMutableTransaction) (nSpendHeight : Z) : option (CCoinsViewCache V * (input_error + unit)) :=
  let '(c, have) := HaveInputs c tx in
  if negb have then Some (c, inl inputs_unavailable)
  else
    '(c, r) ← check_values c (vin tx) nSpendHeight 0;
    Some (c,
      match r with inl e => inl e | inr nValueIn =>
      if negb (IsCoinStake tx) then
        match GetValueOut tx with
        | None => inl value_out_throws
        | Some out =>
            if nValueIn <? out then inl in_below_out
            else
              let nTxFee := i64 (nValueIn - out) in
              if nTxFee <? 0 then inl fee_negative
              else if negb (Amount.MoneyRange nTxFee) then inl fee_out_of_range else inr tt
        end
      else inr tt
      end).
End coins.

(** ** Lists of outputs up to spent ones at the end *)
Definition at_ (v : list CTxOut) (i : nat) : CTxOut := default CTxOut_SetNull (v !! i).
Lemma at_lookup v i : (i < length v)%nat → v !! i = Some (at_ v i).
Proof. intros Hi. unfold at_. by destruct (lookup_lt_is_Some_2 v i Hi) as [x ->]. Qed.
Lemma at_beyond v i : (length v <= i)%nat → at_ v i = CTxOut_SetNull.
Proof. intros Hi. unfold at_. by rewrite lookup_ge_None_2. Qed.
Lemma trim_ext_le v w : (length v <= length w)%nat → (∀ i, at_ v i = at_ w i) → trim v = trim w.
Proof.
  intros Hl Hat. assert (w = v ++ replicate (length w - length v) CTxOut_SetNull) as ->; [|by rewrite trim_nulls].
  apply list_eq. intros i. destruct (decide (i < length v)%nat) as [Hi|Hi].
  - rewrite lookup_app_l by done. rewrite !at_lookup by lia. by rewrite Hat.
  - rewrite lookup_app_r by lia. destruct (decide (i < length w)%nat) as [Hw|Hw].
    + rewrite lookup_replicate_2 by lia. rewrite at_lookup by done. rewrite <- Hat. by rewrite at_beyond by lia.
    + by rewrite !lookup_ge_None_2 by (rewrite ?length_replicate; lia).
Qed.
Lemma trim_ext v w : (∀ i, at_ v i = at_ w i) → trim v = trim w.
Proof. intros Hat. destruct (decide (length v <= length w)%nat); [by apply trim_ext_le|symmetry; apply trim_ext_le; [lia|done]]. Qed.
Definition canonical (v : list CTxOut) : Prop := ∀ o, o ∈ v → CTxOut_IsNull o = true → o = CTxOut_SetNull.
Lemma at_trim v i : canonical v → at_ (trim v) i = at_ v i.
Proof.
  induction v as [|o v IH] using rev_ind; intros Hc; [done|]. rewrite trim_snoc. destruct (CTxOut_IsNull o) eqn:E; [|done].
  rewrite IH by (intros x Hx; apply Hc, elem_of_app; by left). rewrite (Hc o ltac:(set_solver) E). unfold at_.
  destruct (decide (i < length v)%nat) as [Hi|Hi]; [by rewrite lookup_app_l|]. rewrite lookup_ge_None_2, lookup_app_r by lia.
  by destruct (i - length v)%nat.
Qed.
Lemma at_insert v n o i : (n < length v)%nat → at_ (<[n := o]> v) i = if decide (i = n) then o else at_ v i.
Proof.
  intros Hn. unfold at_. destruct (decide (i = n)) as [-> |]; [by rewrite list_lookup_insert_eq|by rewrite list_lookup_insert_ne].
Qed.
Lemma at_resize v n i : at_ (resize_vout n v) i = at_ v i.
Proof.
  unfold resize_vout. destruct (decide (i < length v)%nat) as [Hi|Hi]; unfold at_; [by rewrite lookup_app_l|].
  rewrite lookup_app_r, (lookup_ge_None_2 v) by lia. destruct (decide (i - length v < n - length v)%nat).
  - by rewrite lookup_replicate_2.
  - by rewrite lookup_ge_None_2 by (rewrite length_replicate; lia).
Qed.
Lemma tidy_canonical x : tidy x → canonical (c_vout x).
Proof.
  intros [[Ho _ _ _] _] o Hin Hn. rewrite Forall_forall in Ho. apply list_elem_of_In in Hin. destruct (Ho o Hin) as [|Hs%storable_not_null]; congruence.
Qed.

Lemma insert_canonical x n : tidy x → canonical (<[n := CTxOut_SetNull]> (c_vout x)).
Proof.
  intros [[Ho _ _ _] _] o Hin Hn. apply (Forall_insert _ _ n CTxOut_SetNull) in Ho; [|by left]. rewrite Forall_forall in Ho.
  apply list_elem_of_In in Hin. destruct (Ho o Hin) as [|Hs%storable_not_null]; congruence.
Qed.

(** ** Spending an output and restoring it *)
Lemma spend_output_inv n x y u : spend_output n x = Some (y, u) → IsAvailable x n = true ∧
  y = Cleanup (set_vout x (<[Z.to_nat n := CTxOut_SetNull]> (c_vout x))) ∧ u_txout u = at_ (c_vout x) (Z.to_nat n) ∧
  (c_vout y = [] → u_fCoinBase u = fCoinBase x ∧ u_nHeight u = u32 (c_nHeight x) ∧ u_nVersion u = c_nVersion x) ∧ (c_vout y ≠ [] → u_nHeight u = 0).
Proof.
  unfold spend_output. destruct (IsAvailable x n) eqn:Ea; [|done]. cbn [negb]. destruct (IsAvailable_output x n Ea) as (o & Eo & _). rewrite Eo.
  cbn [mbind option_bind]. unfold Spend. rewrite Ea. cbn [from_option id]. intros [= <- <-]. unfold at_. rewrite Eo.
  set (y := Cleanup _). change (trim (<[Z.to_nat n := CTxOut_SetNull]> (c_vout x))) with (c_vout y). split_and!; [done|done|by destruct (c_vout y)|by intros ->|]. destruct (c_vout y); [by intros []|done].
Qed.
Lemma storable_or_null_insert v n : Forall storable_or_null v → Forall storable_or_null (<[n := CTxOut_SetNull]> v).
Proof. intros Hv. apply Forall_insert; [done|by left]. Qed.
Lemma tidy_trim x v : tidy x → Forall storable_or_null v → (length v <= length (c_vout x))%nat → tidy (Cleanup (set_vout x v)).
Proof.
  intros [[H1 H2 H3 H4] Hv] Hs Hl. split; [|done]. split; cbn [c_vout c_nHeight Cleanup set_vout]; [|apply trim_idemp|done|].
  - rewrite !Forall_forall in *. intros o Ho. apply Hs. apply list_elem_of_In in Ho. apply list_elem_of_In. by apply trim_incl.
  - assert (length (trim v) <= length v)%nat; [|lia]. clear. induction v as [|o v IH] using rev_ind; [done|]. rewrite trim_snoc, length_app. cbn [length].
    destruct (CTxOut_IsNull o); [lia|rewrite length_app; simpl; lia].
Qed.
Lemma spend_tidy n x y u : tidy x → spend_output n x = Some (y, u) → tidy y ∧ Cleanup y = y.
Proof.
  intros Hx (Ha & -> & _)%spend_output_inv. split.
  - apply tidy_trim; [done|apply storable_or_null_insert, Hx|by rewrite length_insert].
  - unfold Cleanup, set_vout. cbn [c_vout fCoinBase c_nHeight c_nVersion]. by rewrite trim_idemp.
Qed.
Lemma spend_restore n x y u z : 0 <= n → tidy x → 0 < c_nHeight x → spend_output n x = Some (y, u) → tidy z → norm (Some z) = norm (Some y) →
  ∃ w, restore_output u n z = Some (w, true) ∧ Cleanup w = x.
Proof.
  intros Hn Hx Hh Hs Hz Hnorm. pose proof Hx as [[Houts Hclean Hhr Hlen] Hver]. destruct (spend_tidy n x y u Hx Hs) as [Hy Hyc].
  apply spend_output_inv in Hs as (Ha & Ey & Eu & Hlast & Hmore). destruct (IsAvailable_output x n Ha) as (o & Eo & Ho). apply lookup_lt_Some in Eo.
  pose proof (insert_canonical x (Z.to_nat n) Hx) as Hcan.
  assert (∀ i, at_ (c_vout y) i = if decide (i = Z.to_nat n) then CTxOut_SetNull else at_ (c_vout x) i) as Hat
    by (intros i; rewrite Ey; cbn [c_vout Cleanup set_vout]; by rewrite at_trim, at_insert).
  set (w0 := if negb (u_nHeight u =? 0) then mkCoins (u_fCoinBase u) [] (i32 (u_nHeight u)) (u_nVersion u) else z).
  assert (c_vout w0 = c_vout y ∧ fCoinBase w0 = fCoinBase x ∧ c_nHeight w0 = c_nHeight x ∧ c_nVersion w0 = c_nVersion x ∧
    (if negb (u_nHeight u =? 0) then IsPruned z else negb (IsPruned z)) = true) as (Hw0 & Hw1 & Hw2 & Hw3 & Hw4).
  { unfold w0. destruct (decide (c_vout y = [])) as [E|E].
    - destruct (Hlast E) as (-> & Hu & ->). rewrite Hu, u32_small, (proj2 (Z.eqb_neq _ _)) by lia. cbn [negb c_vout fCoinBase c_nHeight c_nVersion].
      rewrite E, i32_small by lia. split_and!; try done. rewrite (norm_pruned y) in Hnorm by (by apply tidy_empty). cbn in Hnorm. by destruct (IsPruned z).
    - rewrite (Hmore E). cbn [negb Z.eqb]. assert (IsPruned y = false) as Hp by (apply not_true_iff_false; intros Hp; by apply (tidy_empty y Hy) in Hp).
      rewrite (norm_live y Hp) in Hnorm. apply norm_Some in Hnorm as [-> Hpz]. rewrite Hpz, Ey. split_and!; done. }
  unfold restore_output. fold w0. rewrite Hw4, Hw0. rewrite u32_small by lia.
  assert (IsAvailable w0 n = false) as ->.
  { unfold IsAvailable, avail. rewrite Hw0. pose proof (Hat (Z.to_nat n)) as Hn0. rewrite decide_True in Hn0 by done. unfold at_ in Hn0.
    destruct (c_vout y !! Z.to_nat n); [by cbn in Hn0; subst|done]. }
  set (v := if Z.of_nat (length (c_vout y)) <? n + 1 then resize_vout (Z.to_nat (n + 1)) (c_vout y) else c_vout y).
  assert ((Z.to_nat n < length v)%nat ∧ ∀ i, at_ v i = at_ (c_vout y) i) as [Hv Hva].
  { unfold v. destruct (Z.ltb_spec (Z.of_nat (length (c_vout y))) (n + 1)); [|split; [lia|done]]. split; [|intros; apply at_resize].
    unfold resize_vout. rewrite length_app, length_replicate. lia. }
  rewrite (proj2 (Nat.ltb_lt _ _) Hv). eexists. split; [reflexivity|]. unfold Cleanup, set_vout. cbn [c_vout fCoinBase c_nHeight c_nVersion].
  rewrite Hw1, Hw2, Hw3. rewrite (trim_ext _ (c_vout x)), Hclean; [by destruct x|]. intros i. rewrite at_insert, Hva, Hat, Eu by done.
  by destruct (decide (i = Z.to_nat n)) as [-> |].
Qed.

(** ** Adding the outputs of a transaction and removing them *)
Definition wipe (o : CTxOut) : CTxOut := if Script.IsUnspendable (scriptPubKey o) then CTxOut_SetNull else o.
Lemma wipe_idemp o : wipe (wipe o) = wipe o.
Proof. unfold wipe. destruct (Script.IsUnspendable (scriptPubKey o)) eqn:E; [done|by rewrite E]. Qed.
Lemma map_wipe_trim v : map wipe (trim (map wipe v)) = trim (map wipe v).
Proof.
  transitivity (map id (trim (map wipe v))); [|apply map_id]. apply map_ext_in. intros o Ho. apply list_elem_of_In, trim_incl, list_elem_of_fmap in Ho as (o' & -> & _).
  apply wipe_idemp.
Qed.
Lemma FromTx_wiped tx h : ClearUnspendable (FromTx tx h) = FromTx tx h ∧ Cleanup (FromTx tx h) = FromTx tx h.
Proof.
  unfold FromTx, ClearUnspendable, Cleanup, set_vout. cbn [c_vout fCoinBase c_nHeight c_nVersion]. fold wipe.
  change (λ o : CTxOut, if Script.IsUnspendable (scriptPubKey o) then CTxOut_SetNull else o) with wipe. by rewrite map_wipe_trim, !trim_idemp.
Qed.
Lemma vout_eqb_refl v : vout_eqb v v = true.
Proof. induction v as [|o v IH]; [done|]. cbn [vout_eqb]. unfold CTxOut_eqb. rewrite Z.eqb_refl, bool_decide_true, IH by done. done. Qed.
Lemma CCoins_eqb_refl x : CCoins_eqb x x = true.
Proof. unfold CCoins_eqb. destruct (IsPruned x && IsPruned x); [done|]. by rewrite eqb_reflx, !Z.eqb_refl, vout_eqb_refl. Qed.
Lemma remove_outputs_spec tx h x : tidy (FromTx tx h) → tidy x → norm (Some x) = norm (Some (FromTx tx h)) → remove_outputs tx h x = Some (Clear, true).
Proof.
  intros Ht Hx Hn. unfold remove_outputs. rewrite (proj2 (Z.ltb_ge _ _)) by apply Ht. do 2 f_equal.
  destruct (IsPruned (FromTx tx h)) eqn:Ep.
  - unfold CCoins_eqb. rewrite Ep. assert (IsPruned (ClearUnspendable x) = true) as ->; [|done].
    rewrite (norm_pruned (FromTx tx h)) in Hn by done. assert (c_vout x = []) as Hv.
    { apply tidy_empty; [done|]. cbn in Hn. by destruct (IsPruned x). }
    unfold ClearUnspendable, IsPruned. cbn [c_vout Cleanup set_vout]. by rewrite Hv.
  - rewrite (norm_live (FromTx tx h)) in Hn by done. apply norm_Some in Hn as [-> _]. rewrite (proj1 (FromTx_wiped tx h)). apply CCoins_eqb_refl.
Qed.

(** ** Connecting and disconnecting *)
Section blocks.
Context {V : Type} {HV : CCoinsView V} {HS : CoinsSpec V} `{MemUsage} (Hash : list Z → list Z).
Implicit Types c d : CCoinsViewCache V.

(** Coins come from blocks above the root. *)
Definition heights (u : uint256 → option CCoins) : Prop := ∀ t x, u t = Some x → 0 < c_nHeight x.
(** Two caches with the same coins; the view below is left alone. *)
Definition same_coins c d : Prop := ∀ z, cache_utxo d z = cache_utxo c z.
Definition same_base c d : Prop := ∀ z, utxo (base d) z = utxo (base c) z.

Lemma spend_input_spec c i c' u : cache_ok c → use_modifier (ModifyCoins c (ophash (prevout i))) (ophash (prevout i)) (spend_output (opn (prevout i))) = Some (c', u) →
  cache_ok c' ∧ same_base c c' ∧ ∃ x y, tidy x ∧ cache_utxo c (ophash (prevout i)) = Some x ∧ spend_output (opn (prevout i)) x = Some (y, u) ∧
    ∀ z, cache_utxo c' z = if decide (z = ophash (prevout i)) then norm (Some y) else cache_utxo c z.
Proof using Type.
  intros Hc Hm. destruct (ModifyCoins_spec c (ophash (prevout i)) (spend_output (opn (prevout i))) Hc) as (x & Hx & Hn & Hnone & Hsome).
  destruct (spend_output (opn (prevout i)) x) as [[y u']|] eqn:Es; [|by rewrite Hnone in Hm]. destruct (spend_tidy _ _ _ _ Hx Es) as [Hy Hyc].
  destruct (Hsome y u' eq_refl) as (c1 & E & Hc1 & _ & Hb & Hu); [by rewrite Hyc|]. rewrite Hm in E. injection E as <- <-. rewrite Hyc in Hu.
  split_and!; [done|done|]. exists x, y. split_and!; [done| |done|done]. rewrite <- Hn. apply norm_live. apply not_true_iff_false. intros Hp.
  apply spend_output_inv in Es as [Ha _]. by rewrite pruned_unavailable in Ha.
Qed.
Lemma undo_input_spec c i c' u d : cache_ok c → heights (cache_utxo c) → 0 <= opn (prevout i) →
  use_modifier (ModifyCoins c (ophash (prevout i))) (ophash (prevout i)) (spend_output (opn (prevout i))) = Some (c', u) → cache_ok d → same_coins c' d →
  ∃ d', ApplyTxInUndo d u (prevout i) = Some (d', true) ∧ cache_ok d' ∧ same_base d d' ∧ same_coins c d'.
Proof using Type.
  intros Hc Hh Hn Hm Hd Hcd. destruct (spend_input_spec c i c' u Hc Hm) as (_ & _ & x & y & Hx & Ex & Es & Hu).
  destruct (ModifyCoins_spec d (ophash (prevout i)) (restore_output u (opn (prevout i))) Hd) as (z & Hz & Hzn & _ & Hsome).
  rewrite Hcd, Hu, decide_True in Hzn by done.
  destruct (spend_restore (opn (prevout i)) x y u z Hn Hx (Hh _ _ Ex) Es Hz Hzn) as (w & Ew & Hw).
  destruct (Hsome w true Ew) as (d' & E & Hd' & _ & Hb & Hu'); [by rewrite Hw|]. exists d'. split_and!; [done|done|done|].
  intros t. rewrite Hu', Hw. destruct (decide (t = ophash (prevout i))) as [-> |Ht].
  - rewrite Ex. apply norm_live. by apply (cache_tidy c (ophash (prevout i))).
  - by rewrite Hcd, Hu, decide_False.
Qed.
Lemma spend_heights c i c' u : cache_ok c → heights (cache_utxo c) →
  use_modifier (ModifyCoins c (ophash (prevout i))) (ophash (prevout i)) (spend_output (opn (prevout i))) = Some (c', u) → heights (cache_utxo c').
Proof using Type.
  intros Hc Hh Hm t x. destruct (spend_input_spec c i c' u Hc Hm) as (_ & _ & x0 & y & _ & Ex & Es & Hu). rewrite Hu.
  destruct (decide _) as [-> |]; [|apply Hh]. intros [<- _]%norm_Some. apply spend_output_inv in Es as (_ & -> & _). cbn. by apply (Hh _ _ Ex).
Qed.

Lemma spend_inputs_spec l : ∀ c c' us, cache_ok c → heights (cache_utxo c) → (∀ i, i ∈ l → 0 <= opn (prevout i)) → spend_inputs c l = Some (c', us) →
  cache_ok c' ∧ same_base c c' ∧ heights (cache_utxo c') ∧ length us = length l ∧ (∀ t, cache_utxo c t = None → cache_utxo c' t = None) ∧
  ∀ d, cache_ok d → same_coins c' d → ∃ d', restore_inputs d l us = Some (d', true) ∧ cache_ok d' ∧ same_base d d' ∧ same_coins c d'.
Proof using Type.
  induction l as [|i l IH]; intros c c' us Hc Hh Hl Hs; cbn [spend_inputs] in Hs.
  { injection Hs as <- <-. split_and!; try done. intros d Hd Hcd. exists d. split_and!; done. }
  destruct (use_modifier _ _ _) as [[c1 u]|] eqn:Em; [|done]. cbn [mbind option_bind] in Hs.
  destruct (spend_inputs c1 l) as [[c2 us']|] eqn:Es; [|done]. cbn [mbind option_bind] in Hs. injection Hs as <- <-.
  destruct (spend_input_spec c i c1 u Hc Em) as (Hc1 & Hb1 & x & y & _ & Ex & _ & Hu1).
  destruct (IH c1 c2 us' Hc1 (spend_heights _ _ _ _ Hc Hh Em) ltac:(intros j Hj; apply Hl; set_solver) Es) as (Hc2 & Hb2 & Hh2 & Hlen & Hnone & Hback).
  split_and!; [done|intros z; by rewrite Hb2, Hb1|done|by cbn; rewrite Hlen| |].
  - intros t Ht. apply Hnone. rewrite Hu1, decide_False; [done|]. intros ->. congruence.
  - intros d Hd Hcd. cbn [restore_inputs]. destruct (Hback d Hd Hcd) as (d1 & -> & Hd1 & Hbd1 & Hcd1). cbn [mbind option_bind].
    destruct (undo_input_spec c i c1 u d1 Hc Hh (Hl i ltac:(set_solver)) Em Hd1 Hcd1) as (d2 & -> & Hd2 & Hbd2 & Hcd2). cbn [mbind option_bind].
    exists d2. split_and!; [done|done|intros z; by rewrite Hbd2, Hbd1|done].
Qed.

(** ** One transaction *)
(** The transaction is neither among the coins of the cache nor among those below. *)
Definition absent c (t : uint256) : Prop := cache_utxo c t = None ∧ utxo (base c) t = None.
Definition tx_ok (tx : CMutableTransaction) (h : Z) : Prop := tidy (FromTx tx h) ∧ ∀ i, i ∈ vin tx → 0 <= opn (prevout i).

Lemma add_outputs_spec c tx h t : cache_ok c → tidy (FromTx tx h) → utxo (base c) t = None →
  ∃ c', use_modifier (ModifyNewCoins c t (IsCoinBase tx)) t (λ _, Some (FromTx tx h, tt)) = Some (c', tt) ∧ cache_ok c' ∧ same_base c c' ∧
    ∀ z, cache_utxo c' z = if decide (z = t) then norm (Some (FromTx tx h)) else cache_utxo c z.
Proof using Type.
  intros Hc Ht Ha. destruct (FromTx_wiped tx h) as [_ Hw].
  destruct (ModifyNewCoins_spec c t (IsCoinBase tx) (λ _, Some (FromTx tx h, tt)) (FromTx tx h) tt Hc) as (c' & E & Hc' & _ & Hb & Hu); [done|done|by rewrite Hw|].
  exists c'. rewrite Hw in Hu. done.
Qed.
Lemma inputs_spec c tx c1 us : cache_ok c → heights (cache_utxo c) → (∀ i, i ∈ vin tx → 0 <= opn (prevout i)) →
  (if negb (no_inputs tx) then spend_inputs c (vin tx) else Some (c, [])) = Some (c1, us) →
  cache_ok c1 ∧ same_base c c1 ∧ heights (cache_utxo c1) ∧ (∀ t, cache_utxo c t = None → cache_utxo c1 t = None) ∧ (no_inputs tx = false → length us = length (vin tx)) ∧
  ∀ d, cache_ok d → same_coins c1 d → if no_inputs tx then same_coins c d else
    ∃ d', restore_inputs d (vin tx) us = Some (d', true) ∧ cache_ok d' ∧ same_base d d' ∧ same_coins c d'.
Proof using Type.
  intros Hc Hh Hin. destruct (no_inputs tx); cbn [negb].
  - intros [= <- <-]. split_and!; done.
  - intros Hs. destruct (spend_inputs_spec (vin tx) c c1 us Hc Hh Hin Hs) as (H1 & H2 & H3 & H4 & H5 & H6). split_and!; done.
Qed.
Lemma UpdateCoins_spec c tx h t c' us : cache_ok c → heights (cache_utxo c) → 0 < h → tx_ok tx h → GetHash Hash tx = Some t → absent c t →
  UpdateCoins Hash c tx h = Some (c', us) →
  cache_ok c' ∧ same_base c c' ∧ heights (cache_utxo c') ∧ (∀ z, z ≠ t → absent c z → absent c' z) ∧
  ∀ d ou, cache_ok d → same_coins c' d → (no_inputs tx = false → ou = Some us) →
    ∃ d', disconnect_tx Hash d tx h ou = Some (d', undone true) ∧ cache_ok d' ∧ same_base d d' ∧ same_coins c d'.
Proof using Type.
  intros Hc Hh Hpos [Htidy Hin] Ht [Ha1 Ha2]. unfold UpdateCoins. destruct (if negb (no_inputs tx) then _ else _) as [[c1 us1]|] eqn:Ei; [|done].
  destruct (inputs_spec c tx c1 us1 Hc Hh Hin Ei) as (Hc1 & Hb1 & Hh1 & Hn1 & Hlen & Hback). rewrite Ht. cbn [mbind option_bind].
  destruct (add_outputs_spec c1 tx h t Hc1 Htidy) as (c2 & -> & Hc2 & Hb2 & Hu2); [by rewrite Hb1|]. cbn [mbind option_bind]. intros [= <- <-].
  assert (same_base c c2) as Hb by (intros z; by rewrite Hb2, Hb1). split_and!; [done|done| | |].
  - intros z x. rewrite Hu2. destruct (decide _); [|apply Hh1]. by intros [<- _]%norm_Some.
  - intros z Hz [Hz1 Hz2]. split; [|by rewrite Hb]. rewrite Hu2, decide_False by done. by apply Hn1.
  - intros d ou Hd Hcd Hou. unfold disconnect_tx. rewrite Ht. cbn [mbind option_bind].
    destruct (ModifyCoins_spec d t (remove_outputs tx h) Hd) as (x & Hx & Hxn & _ & Hsome). rewrite Hcd, Hu2, decide_True in Hxn by done.
    destruct (Hsome Clear true (remove_outputs_spec tx h x Htidy Hx Hxn) tidy_Clear) as (d1 & -> & Hd1 & _ & Hbd1 & Hud1). cbn [mbind option_bind].
    assert (same_coins c1 d1) as Hcd1.
    { intros z. rewrite Hud1. destruct (decide (z = t)) as [-> |Hz]; [by rewrite (Hn1 t Ha1)|]. by rewrite Hcd, Hu2, decide_False. }
    specialize (Hback d1 Hd1 Hcd1). destruct (no_inputs tx); cbn [negb].
    + exists d1. split_and!; done.
    + rewrite Hou by done. cbn [mbind option_bind]. rewrite Hlen by done. rewrite Nat.eqb_refl. cbn [negb].
      destruct Hback as (d2 & -> & Hd2 & Hbd2 & Hcd2). cbn [mbind option_bind]. exists d2. split_and!; [done|done|intros z; by rewrite Hbd2, Hbd1|done].
Qed.

(** ** A block *)
Lemma update_all_spec h vtx : 0 < h → ∀ c c' us hs, cache_ok c → heights (cache_utxo c) → Forall (λ tx, tx_ok tx h) vtx →
  map (GetHash Hash) vtx = map Some hs → NoDup hs → (∀ t, t ∈ hs → absent c t) → update_all Hash c vtx h = Some (c', us) →
  cache_ok c' ∧ same_base c c' ∧ length us = length vtx ∧
  ∀ d, cache_ok d → same_coins c' d → ∃ d', disconnect_all Hash d (zip vtx (map Some us)) h = Some (d', undone true) ∧ cache_ok d' ∧ same_base d d' ∧ same_coins c d'.
Proof using Type.
  intros Hpos. induction vtx as [|tx vtx IH]; intros c c' us hs Hc Hh Hok Hhs Hd Habs; cbn [update_all].
  { intros [= <- <-]. split_and!; try done. intros d Hd' Hcd. exists d. split_and!; done. }
  destruct hs as [|t hs]; [done|]. injection Hhs as Ht Hhs. apply list.NoDup_cons in Hd as [Hnt Hd]. apply Forall_cons_iff in Hok as [Htx Hok].
  destruct (UpdateCoins Hash c tx h) as [[c1 u]|] eqn:Eu; [|done]. cbn [mbind option_bind].
  destruct (UpdateCoins_spec c tx h t c1 u Hc Hh Hpos Htx Ht (Habs t ltac:(set_solver)) Eu) as (Hc1 & Hb1 & Hh1 & Habs1 & Hback1).
  destruct (update_all Hash c1 vtx h) as [[c2 us']|] eqn:Ea; [|done]. cbn [mbind option_bind]. intros [= <- <-].
  destruct (IH c1 c2 us' hs Hc1 Hh1 Hok Hhs Hd) as (Hc2 & Hb2 & Hlen & Hback2); [|done|].
  { intros z Hz. apply Habs1; [by intros ->|]. apply Habs. set_solver. }
  split_and!; [done|intros z; by rewrite Hb2, Hb1|by cbn; rewrite Hlen|]. intros d Hd' Hcd. cbn [map].
  change (zip (tx :: vtx) (Some u :: map Some us')) with ((tx, Some u) :: zip vtx (map Some us')). cbn [disconnect_all].
  destruct (Hback2 d Hd' Hcd) as (d1 & -> & Hd1 & Hbd1 & Hcd1). cbn [mbind option_bind].
  destruct (Hback1 d1 (Some u) Hd1 Hcd1 (λ _, eq_refl)) as (d2 & -> & Hd2 & Hbd2 & Hcd2). cbn [mbind option_bind].
  exists d2. split_and!; [done|done|intros z; by rewrite Hbd2, Hbd1|done].
Qed.
(** The first transaction has no inputs, and its undo data is not stored. *)
Lemma connect_disconnect h tx vtx hs c c' undo : 0 < h → cache_ok c → heights (cache_utxo c) → no_inputs tx = true → Forall (λ tx, tx_ok tx h) (tx :: vtx) →
  map (GetHash Hash) (tx :: vtx) = map Some hs → NoDup hs → (∀ t, t ∈ hs → absent c t) → connect_coins Hash c (tx :: vtx) h = Some (c', undo) →
  length undo = length vtx ∧ cache_ok c' ∧ ∀ d, cache_ok d → same_coins c' d →
    ∃ d', disconnect_all Hash d (zip (tx :: vtx) (None :: map Some undo)) h = Some (d', undone true) ∧ cache_ok d' ∧ same_coins c d'.
Proof using Type.
  intros Hpos Hc Hh Hno Hok Hhs Hd Habs. unfold connect_coins. cbn [update_all].
  destruct hs as [|t hs]; [done|]. injection Hhs as Ht Hhs. apply list.NoDup_cons in Hd as [Hnt Hd]. apply Forall_cons_iff in Hok as [Htx Hok].
  destruct (UpdateCoins Hash c tx h) as [[c1 u]|] eqn:Eu; [|done]. cbn [mbind option_bind].
  destruct (UpdateCoins_spec c tx h t c1 u Hc Hh Hpos Htx Ht (Habs t ltac:(set_solver)) Eu) as (Hc1 & Hb1 & Hh1 & Habs1 & Hback1).
  destruct (update_all Hash c1 vtx h) as [[c2 us']|] eqn:Ea; [|done]. cbn [mbind option_bind tail]. intros [= <- <-].
  destruct (update_all_spec h vtx Hpos c1 c2 us' hs Hc1 Hh1 Hok Hhs Hd) as (Hc2 & Hb2 & Hlen & Hback2); [|done|].
  { intros z Hz. apply Habs1; [by intros ->|]. apply Habs. set_solver. }
  split_and!; [done|done|]. intros d Hd' Hcd.
  change (zip (tx :: vtx) (None :: map Some us')) with ((tx, None) :: zip vtx (map Some us')). cbn [disconnect_all].
  destruct (Hback2 d Hd' Hcd) as (d1 & -> & Hd1 & Hbd1 & Hcd1). cbn [mbind option_bind].
  destruct (Hback1 d1 None Hd1 Hcd1) as (d2 & -> & Hd2 & Hbd2 & Hcd2); [by rewrite Hno|]. cbn [mbind option_bind].
  exists d2. split_and!; done.
Qed.

(** ** The unspent outputs after a transaction *)
Lemma avail_insert v n m : (n < length v)%nat → avail (<[n := CTxOut_SetNull]> v) m = if decide (m = n) then false else avail v m.
Proof using Type.
  intros Hn. unfold avail. destruct (decide (m = n)) as [-> |Hne]; [by rewrite list_lookup_insert_eq|]. by rewrite list_lookup_insert_ne.
Qed.
Lemma unspent_at u p : unspent u p = x ← u (ophash p); if avail (c_vout x) (Z.to_nat (opn p)) then Some (at_ (c_vout x) (Z.to_nat (opn p))) else None.
Proof using Type.
  unfold unspent, IsAvailable. destruct (u (ophash p)) as [x|]; [|done]. cbn [mbind option_bind]. unfold avail, at_. by destruct (c_vout x !! Z.to_nat (opn p)).
Qed.
(** The unspent output of coins that may have none. *)
Lemma unspent_norm_at x n : (y ← norm (Some x); if avail (c_vout y) n then Some (at_ (c_vout y) n) else None) =
  if avail (c_vout x) n then Some (at_ (c_vout x) n) else None.
Proof using Type.
  cbn [norm]. destruct (IsPruned x) eqn:Ep; [|done]. cbn [mbind option_bind]. pose proof (pruned_unavailable x (Z.of_nat n) Ep) as Ha.
  unfold IsAvailable in Ha. by rewrite Nat2Z.id, Ha in *.
Qed.
Lemma spend_unspent c i c' u p : cache_ok c → 0 <= opn (prevout i) → 0 <= opn p →
  use_modifier (ModifyCoins c (ophash (prevout i))) (ophash (prevout i)) (spend_output (opn (prevout i))) = Some (c', u) →
  unspent (cache_utxo c') p = if decide (p = prevout i) then None else unspent (cache_utxo c) p.
Proof using Type.
  intros Hc Hi Hp Hm. destruct (spend_input_spec c i c' u Hc Hm) as (_ & _ & x & y & Hx & Ex & Es & Hu).
  apply spend_output_inv in Es as (Ha & Ey & _). destruct (IsAvailable_output _ _ Ha) as (o & Eo%lookup_lt_Some & _).
  rewrite !unspent_at, Hu. destruct (decide (ophash p = ophash (prevout i))) as [Eh|Eh].
  - rewrite unspent_norm_at, Eh, Ex, Ey. cbn [c_vout Cleanup set_vout mbind option_bind]. rewrite trim_avail, avail_insert by done.
    destruct (decide (Z.to_nat (opn p) = Z.to_nat (opn (prevout i)))) as [En|En].
    + rewrite decide_True; [done|]. destruct p, (prevout i). cbn in *. f_equal; [done|lia].
    + rewrite (decide_False (P := p = prevout i)) by (intros ->; done).
      destruct (avail (c_vout x) (Z.to_nat (opn p))); [|done]. f_equal. rewrite at_trim, at_insert by (done || apply insert_canonical, Hx).
      by rewrite decide_False.
  - by rewrite (decide_False (P := p = prevout i)) by (intros ->; done).
Qed.
Lemma spend_progress c i o : cache_ok c → unspent (cache_utxo c) (prevout i) = Some o → 
  ∃ c' u, use_modifier (ModifyCoins c (ophash (prevout i))) (ophash (prevout i)) (spend_output (opn (prevout i))) = Some (c', u).
Proof using Type.
  intros Hc Ho. destruct (ModifyCoins_spec c (ophash (prevout i)) (spend_output (opn (prevout i))) Hc) as (x & Hx & Hn & _ & Hsome).
  unfold unspent in Ho. rewrite <- Hn in Ho. cbn [norm] in Ho. destruct (IsPruned x); [done|]. cbn [mbind option_bind] in Ho.
  destruct (IsAvailable x (opn (prevout i))) eqn:Ea; [|done]. unfold spend_output in *. rewrite Ea in *. cbn [negb] in *. rewrite Ho in *. cbn [mbind option_bind] in *.
  edestruct Hsome as (c' & E & _); [done| |by eauto].
  match goal with |- tidy (Cleanup ?y) => assert (spend_output (opn (prevout i)) x = Some (y, match c_vout y with [] => mkUndo o (fCoinBase y) (u32 (c_nHeight y)) (c_nVersion y) | _ => mkUndo o false 0 0 end)) as Es end.
  { unfold spend_output. by rewrite Ea, Ho. }
  destruct (spend_tidy _ _ _ _ Hx Es) as [Hy Hyc]. by rewrite Hyc.
Qed.
Lemma spend_inputs_exact l : ∀ c, cache_ok c → heights (cache_utxo c) → (∀ i, i ∈ l → 0 <= opn (prevout i) ∧ is_Some (unspent (cache_utxo c) (prevout i))) → NoDup (map prevout l) →
  ∃ c' us, spend_inputs c l = Some (c', us) ∧ ∀ p, 0 <= opn p → unspent (cache_utxo c') p = if decide (p ∈ map prevout l) then None else unspent (cache_utxo c) p.
Proof using Type.
  induction l as [|i l IH]; intros c Hc Hh Hl Hd; cbn [spend_inputs].
  { exists c, []. split; [done|]. intros p _. by rewrite decide_False by apply not_elem_of_nil. }
  cbn [map] in Hd. apply list.NoDup_cons in Hd as [Hni Hd]. destruct (Hl i ltac:(set_solver)) as [Hi [o Ho]].
  destruct (spend_progress c i o Hc Ho) as (c1 & u & Em). rewrite Em. cbn [mbind option_bind].
  destruct (spend_input_spec c i c1 u Hc Em) as (Hc1 & _ & _). pose proof (spend_heights _ _ _ _ Hc Hh Em) as Hh1.
  destruct (IH c1 Hc1 Hh1) as (c' & us & -> & Hu); [|done|].
  { intros j Hj. destruct (Hl j ltac:(set_solver)) as [Hj0 Hj1]. split; [done|]. rewrite (spend_unspent c i c1 u) by done.
    rewrite decide_False; [done|]. intros E. apply Hni. rewrite <- E. apply list_elem_of_fmap. by exists j. }
  cbn [mbind option_bind]. eexists _, _. split; [done|]. intros p Hp. rewrite Hu, (spend_unspent c i c1 u) by done. cbn [map].
  destruct (decide (p ∈ map prevout l)) as [Hin|Hin]; [by rewrite decide_True by set_solver|].
  destruct (decide (p = prevout i)) as [-> |Hne]; [by rewrite decide_True by set_solver|by rewrite decide_False by set_solver].
Qed.
(** The outputs a transaction leaves: those that can be spent. *)
Definition new_output (tx : CMutableTransaction) (n : Z) : option CTxOut :=
  o ← vout tx !! Z.to_nat n; if Script.IsUnspendable (scriptPubKey o) || CTxOut_IsNull o then None else Some o.
Lemma at_avail_trim v n : avail v n = true → at_ (trim v) n = at_ v n.
Proof using Type.
  induction v as [|o v IH] using rev_ind; [done|]. rewrite trim_snoc. destruct (CTxOut_IsNull o) eqn:E; [|done]. intros Ha.
  assert (avail v n = true) as Hv by (rewrite <- trim_avail, <- Ha, <- (trim_avail (v ++ [o])), trim_snoc, E; done). rewrite IH by done.
  unfold at_, avail in *. destruct (v !! n) eqn:En; [|done]. by rewrite (lookup_app_l_Some _ _ _ _ En).
Qed.
Lemma unspent_FromTx tx h p : unspent (λ _, norm (Some (FromTx tx h))) p = new_output tx (opn p).
Proof using Type.
  rewrite unspent_at, unspent_norm_at. unfold FromTx, ClearUnspendable, Cleanup, set_vout, new_output. cbn [c_vout fCoinBase c_nHeight c_nVersion].
  change (λ o : CTxOut, if Script.IsUnspendable (scriptPubKey o) then CTxOut_SetNull else o) with wipe. rewrite trim_avail.
  destruct (avail (map wipe (vout tx)) (Z.to_nat (opn p))) eqn:Ea; [rewrite at_avail_trim by done|]; unfold avail, at_ in *; rewrite list_lookup_fmap in *;
    destruct (vout tx !! Z.to_nat (opn p)) as [o|]; cbn [fmap option_fmap option_map mbind option_bind from_option id] in *; try done; unfold wipe in *;
    destruct (Script.IsUnspendable (scriptPubKey o)); try done; cbn [orb]; by destruct (CTxOut_IsNull o).
Qed.

(** When every input refers to an unspent output and no two to the same one, [UpdateCoins]
    fails no assertion, and the unspent outputs become exactly the old ones without those spent,
    with the spendable outputs of the transaction under its identifier.  A transaction without
    regular inputs spends nothing. *)
Theorem UpdateCoins_exact c tx h t : cache_ok c → heights (cache_utxo c) → tx_ok tx h → GetHash Hash tx = Some t → utxo (base c) t = None →
  (no_inputs tx = false → NoDup (map prevout (vin tx)) ∧ ∀ i, i ∈ vin tx → is_Some (unspent (cache_utxo c) (prevout i))) →
  ∃ c' us, UpdateCoins Hash c tx h = Some (c', us) ∧ cache_ok c' ∧
    ∀ p, 0 <= opn p → unspent (cache_utxo c') p =
      if decide (ophash p = t) then new_output tx (opn p)
      else if negb (no_inputs tx) && bool_decide (p ∈ map prevout (vin tx)) then None else unspent (cache_utxo c) p.
Proof using Type.
  intros Hc Hh [Htidy Hpos] Ht Hnew Hin.
  assert (∃ c1 us, (if negb (no_inputs tx) then spend_inputs c (vin tx) else Some (c, [])) = Some (c1, us) ∧
    ∀ p, 0 <= opn p → unspent (cache_utxo c1) p = if negb (no_inputs tx) && bool_decide (p ∈ map prevout (vin tx)) then None else unspent (cache_utxo c) p) as (c1 & us & E & Hu).
  { destruct (no_inputs tx) eqn:En; cbn [negb]; [by eexists _, _|]. destruct (Hin eq_refl) as [Hd Hall].
    destruct (spend_inputs_exact (vin tx) c Hc Hh) as (c1 & us & E & Hu); [by auto|done|]. exists c1, us. split; [done|]. intros p Hp. rewrite Hu by done. cbn [andb].
    by destruct (decide (p ∈ map prevout (vin tx))); [rewrite bool_decide_true|rewrite bool_decide_false]. }
  destruct (inputs_spec c tx c1 us Hc Hh Hpos E) as (Hc1 & Hb1 & _). unfold UpdateCoins. rewrite E, Ht. cbn [mbind option_bind].
  destruct (add_outputs_spec c1 tx h t Hc1 Htidy) as (c2 & -> & Hc2 & _ & Hu2); [by rewrite Hb1|]. cbn [mbind option_bind]. exists c2, us. split_and!; [done|done|].
  intros p Hp. rewrite <- Hu by done. destruct (decide (ophash p = t)) as [Et|Et].
  - rewrite <- (unspent_FromTx tx h p). unfold unspent. by rewrite Hu2, decide_True.
  - unfold unspent. by rewrite Hu2, decide_False.
Qed.

(** Disconnecting undoes connecting.  Take a block whose first transaction has no inputs and
    whose transactions are new and different, and connect its coins to a consistent cache.  In any
    cache with the resulting coins whose best block is that block, whatever it keeps in memory,
    [DisconnectBlock] with the undo data restores exactly the coins of before, reports that all was
    clean and sets the best block to the parent. *)
Theorem disconnect_connect h tx vtx hs c c' undo d hash hashPrev : 0 < h → cache_ok c → heights (cache_utxo c) → no_inputs tx = true →
  Forall (λ tx, tx_ok tx h) (tx :: vtx) → map (GetHash Hash) (tx :: vtx) = map Some hs → NoDup hs → (∀ t, t ∈ hs → absent c t) →
  connect_coins Hash c (tx :: vtx) h = Some (c', undo) → cache_ok d → same_coins c' d → cache_best d = hash →
  ∃ d', DisconnectBlock Hash d (tx :: vtx) h hash hashPrev undo = Some (d', undone true) ∧ cache_ok d' ∧ same_coins c d' ∧ hashBlock d' = hashPrev.
Proof using Type.
  intros Hpos Hc Hh Hno Hok Hhs Hnd Habs Hcon Hd Hcd Hbest.
  destruct (connect_disconnect h tx vtx hs c c' undo Hpos Hc Hh Hno Hok Hhs Hnd Habs Hcon) as (Hlen & _ & Hback).
  unfold DisconnectBlock. destruct (@GetBestBlock_spec _ _ CCoinsViewCache_spec d Hd) as (d0 & E0 & Hd0 & Hu0 & _). cbn [best_block CCoinsViewCache_spec] in E0. rewrite E0. rewrite Hbest, bool_decide_true by done. cbn [negb].
  rewrite Hlen. cbn [length]. rewrite Nat.add_1_r, Nat.eqb_refl. cbn [negb].
  destruct (Hback d0 Hd0) as (d1 & -> & [Hd1 Hd2 Hd3] & Hcd1); [intros z; rewrite <- Hcd; apply Hu0|]. cbn [mbind option_bind].
  eexists. split; [reflexivity|]. by split_and!.
Qed.
End blocks.

(** ** A block over the sample database: a coinbase, and a transaction that spends two outputs *)
#[local] Existing Instance toy_secp.
#[local] Existing Instance toy_laws.
Definition sample_hash (l : list Z) : list Z := take 32 (l ++ replicate 32 0).
Definition sample_coinbase : CMutableTransaction := mkTx 1 [mkTxIn COutPoint_SetNull [1; 2] 0xffffffff] [sample_out; mkTxOut 0 [106] (-10)] [] 0.
Definition sample_spend : CMutableTransaction :=
  mkTx 1 [mkTxIn (mkOutPoint sample_id 10) [] 0xffffffff; mkTxIn (mkOutPoint sample_id 3) [] 0xffffffff] [mkTxOut 9000 [81] (-10)] [] 0.
Definition sample_ids : list (list Z) := omap (GetHash sample_hash) [sample_coinbase; sample_spend].
Definition sample_view : CCoinsViewCache CCoinsViewDB := new_cache sample_db.
Lemma sample_view_ok : cache_ok sample_view.
Proof. split; [apply sample_db_ok|by intros t e [=]|done]. Qed.
Lemma sample_heights : heights (cache_utxo sample_view).
Proof. intros t x. change (utxo sample_db t = Some x → 0 < c_nHeight x). rewrite sample_db_utxo. destruct (decide _); [|done]. by intros [= <-]. Qed.
Lemma sample_coinbase_ok h : 0 <= h < 2 ^ 31 → tx_ok sample_coinbase h.
Proof.
  intros Hh. split; [|intros i [-> |[]%not_elem_of_nil]%elem_of_cons; done]. split; [|done]. split; [|done|done|done].
  change (Forall storable_or_null [sample_out]). constructor; [right; apply sample_storable|constructor].
Qed.
Lemma sample_spend_ok h : 0 <= h < 2 ^ 31 → tx_ok sample_spend h.
Proof.
  intros Hh. split; [|intros i [-> |[-> |[]%not_elem_of_nil]%elem_of_cons]%elem_of_cons; done]. split; [|done]. split; [|done|done|done].
  change (Forall storable_or_null [mkTxOut 9000 [81] (-10)]). constructor; [right|constructor]. split_and!; [done|done|repeat constructor; done|done|done].
Qed.
Lemma sample_absent t : t ∈ sample_ids → absent sample_view t.
Proof. intros [-> |[-> |[]%not_elem_of_nil]%elem_of_cons]%elem_of_cons; (split; vm_compute; reflexivity). Qed.
Lemma UpdateCoins_exact_witness : ∃ c' us, UpdateCoins sample_hash sample_view sample_spend 130000 = Some (c', us) ∧ cache_ok c' ∧
  unspent (cache_utxo c') (mkOutPoint sample_id 3) = None ∧ unspent (cache_utxo c') (mkOutPoint sample_id 2) = Some sample_out.
Proof.
  destruct (UpdateCoins_exact sample_hash sample_view sample_spend 130000 (default [] (GetHash sample_hash sample_spend))) as (c' & us & E & Hc & Hu).
  - apply sample_view_ok.
  - apply sample_heights.
  - apply sample_spend_ok. done.
  - vm_compute. reflexivity.
  - vm_compute. reflexivity.
  - intros _. split; [apply (bool_decide_unpack _); vm_compute; exact I|]. intros i [-> |[-> |[]%not_elem_of_nil]%elem_of_cons]%elem_of_cons; exists sample_out; vm_compute; reflexivity.
  - exists c', us. split_and!; [done|done|rewrite Hu by done; vm_compute; reflexivity..].
Defined.
Lemma disconnect_connect_witness : ∃ c' undo d', connect_coins sample_hash sample_view [sample_coinbase; sample_spend] 130000 = Some (c', undo) ∧
  DisconnectBlock sample_hash (SetBestBlock c' (replicate 32 8)) [sample_coinbase; sample_spend] 130000 (replicate 32 8) (replicate 32 9) undo = Some (d', undone true) ∧
  cache_ok d' ∧ same_coins sample_view d' ∧ hashBlock d' = replicate 32 9.
Proof.
  destruct (connect_coins sample_hash sample_view [sample_coinbase; sample_spend] 130000) as [[c' undo]|] eqn:E; [|vm_compute in E; discriminate].
  assert (NoDup sample_ids) as Hd by (apply (bool_decide_unpack _); vm_compute; exact I).
  assert (Forall (λ tx, tx_ok tx 130000) [sample_coinbase; sample_spend]) as Hok
    by (apply Forall_cons_2; [apply sample_coinbase_ok; lia|apply Forall_cons_2; [apply sample_spend_ok; lia|apply Forall_nil_2]]).
  assert (map (GetHash sample_hash) [sample_coinbase; sample_spend] = map Some sample_ids) as Hi by (vm_compute; reflexivity).
  destruct (connect_disconnect sample_hash 130000 sample_coinbase [sample_spend] sample_ids sample_view c' undo ltac:(done) sample_view_ok sample_heights eq_refl Hok Hi Hd sample_absent E)
    as (_ & [H1 H2 H3] & _).
  destruct (disconnect_connect sample_hash 130000 sample_coinbase [sample_spend] sample_ids sample_view c' undo (SetBestBlock c' (replicate 32 8)) (replicate 32 8) (replicate 32 9)
    ltac:(done) sample_view_ok sample_heights eq_refl Hok Hi Hd sample_absent E) as (d' & Hd' & H); [split; assumption|intros z; reflexivity|vm_compute; reflexivity|].
  exists c', undo, d'. exact (conj eq_refl (conj Hd' H)).
Defined.
End BlockCoins.
