(* ===== verification/Interpreter.v ===== *)
(** * Interpreter: the script machine ([script/interpreter.{h,cpp}])

    A stack is a list whose head is its top.  [Err] is a result of [set_error], [Throw] a
    C++ exception (caught by [EvalScript]), [Abort] a failed assertion, [Undefined] an operation whose behaviour C++ leaves undefined
    (an iterator outside a vector, an overflow of a signed integer).  The hash functions,
    the signature check of [CPubKey] and the [BaseSignatureChecker] are parameters. *)
From S2P Require Import Prelude Serialize Uint256 Amount Script Transaction.

Module Interpreter.
Import Script.

Notation valtype := (list Z).
Notation stack_t := (list valtype).

(** ** Errors *)
Inductive ScriptError :=
| SCRIPT_ERR_UNKNOWN_ERROR | SCRIPT_ERR_EVAL_FALSE | SCRIPT_ERR_OP_RETURN
| SCRIPT_ERR_SCRIPT_SIZE | SCRIPT_ERR_PUSH_SIZE | SCRIPT_ERR_OP_COUNT | SCRIPT_ERR_STACK_SIZE
| SCRIPT_ERR_SIG_COUNT | SCRIPT_ERR_PUBKEY_COUNT
| SCRIPT_ERR_VERIFY | SCRIPT_ERR_EQUALVERIFY | SCRIPT_ERR_CHECKMULTISIGVERIFY | SCRIPT_ERR_CHECKSIGVERIFY
| SCRIPT_ERR_NUMEQUALVERIFY
| SCRIPT_ERR_BAD_OPCODE | SCRIPT_ERR_DISABLED_OPCODE | SCRIPT_ERR_INVALID_STACK_OPERATION
| SCRIPT_ERR_INVALID_ALTSTACK_OPERATION | SCRIPT_ERR_UNBALANCED_CONDITIONAL
| SCRIPT_ERR_NEGATIVE_LOCKTIME | SCRIPT_ERR_UNSATISFIED_LOCKTIME
| SCRIPT_ERR_SIG_HASHTYPE | SCRIPT_ERR_SIG_DER | SCRIPT_ERR_MINIMALDATA | SCRIPT_ERR_SIG_PUSHONLY
| SCRIPT_ERR_SIG_HIGH_S | SCRIPT_ERR_SIG_NULLDUMMY | SCRIPT_ERR_PUBKEYTYPE | SCRIPT_ERR_CLEANSTACK
| SCRIPT_ERR_MINIMALIF | SCRIPT_ERR_SIG_NULLFAIL
| SCRIPT_ERR_DISCOURAGE_UPGRADABLE_NOPS | SCRIPT_ERR_DISCOURAGE_UPGRADABLE_WITNESS_PROGRAM
| SCRIPT_ERR_WITNESS_PROGRAM_WRONG_LENGTH | SCRIPT_ERR_WITNESS_PROGRAM_WITNESS_EMPTY
| SCRIPT_ERR_WITNESS_PROGRAM_MISMATCH | SCRIPT_ERR_WITNESS_MALLEATED | SCRIPT_ERR_WITNESS_MALLEATED_P2SH
| SCRIPT_ERR_WITNESS_UNEXPECTED | SCRIPT_ERR_WITNESS_PUBKEYTYPE.

Inductive exn := PopEmpty | OutOfRange | NumError.
Inductive failure := Err (e : ScriptError) | Throw (x : exn) | Abort | Undefined.

Definition Res (A : Type) : Type := failure + A.
#[export] Instance res_ret : MRet Res := λ A a, inr a.
#[export] Instance res_bind : MBind Res := λ A B k m, match m with inl e => inl e | inr a => k a end.
Definition set_error {A} (e : ScriptError) : Res A := inl (Err e).

(** ** Flags *)
Definition SCRIPT_VERIFY_P2SH : Z := 2 ^ 0.
Definition SCRIPT_VERIFY_STRICTENC : Z := 2 ^ 1.
Definition SCRIPT_VERIFY_DERSIG : Z := 2 ^ 2.
Definition SCRIPT_VERIFY_LOW_S : Z := 2 ^ 3.
Definition SCRIPT_VERIFY_NULLDUMMY : Z := 2 ^ 4.
Definition SCRIPT_VERIFY_SIGPUSHONLY : Z := 2 ^ 5.
Definition SCRIPT_VERIFY_MINIMALDATA : Z := 2 ^ 6.
Definition SCRIPT_VERIFY_DISCOURAGE_UPGRADABLE_NOPS : Z := 2 ^ 7.
Definition SCRIPT_VERIFY_CLEANSTACK : Z := 2 ^ 8.
Definition SCRIPT_VERIFY_CHECKLOCKTIMEVERIFY : Z := 2 ^ 9.
Definition SCRIPT_VERIFY_CHECKSEQUENCEVERIFY : Z := 2 ^ 10.
Definition SCRIPT_VERIFY_WITNESS : Z := 2 ^ 11.
Definition SCRIPT_VERIFY_DISCOURAGE_UPGRADABLE_WITNESS_PROGRAM : Z := 2 ^ 12.
Definition SCRIPT_VERIFY_MINIMALIF : Z := 2 ^ 13.
Definition SCRIPT_VERIFY_NULLFAIL : Z := 2 ^ 14.
Definition SCRIPT_VERIFY_WITNESS_PUBKEYTYPE : Z := 2 ^ 15.

(** [flags & f] as a condition. *)
Definition has (flags f : Z) : bool := negb (Z.land flags f =? 0).

Definition SIGHASH_ALL : Z := 1.
Definition SIGHASH_NONE : Z := 2.
Definition SIGHASH_SINGLE : Z := 3.
Definition SIGHASH_ANYONECANPAY : Z := 0x80.

Inductive SigVersion := SIGVERSION_BASE | SIGVERSION_WITNESS_V0.
#[export] Instance SigVersion_eq_dec : EqDecision SigVersion.
Proof. solve_decision. Defined.

(** ** Values *)

(** [CastToBool]: any byte that is not zero, except a negative zero. *)
Fixpoint CastToBool (vch : valtype) : bool :=
  match vch with
  | [] => false
  | b :: rest =>
      if negb (b =? 0) then
        match rest with
        | [] => negb (b =? 0x80)
        | _ => true
        end
      else CastToBool rest
  end.

Definition vchFalse : valtype := [].
Definition vchTrue : valtype := [1].
Definition vchBool (b : bool) : valtype := if b then vchTrue else vchFalse.

(** [stacktop(-i)] and [popstack] *)
Definition stacktop (s : stack_t) (i : nat) : Res valtype :=
  match i with
  | O => inl (Throw OutOfRange)
  | S j => match s !! j with Some v => inr v | None => inl (Throw OutOfRange) end
  end.
Definition popstack (s : stack_t) : Res stack_t :=
  match s with
  | [] => inl (Throw PopEmpty)
  | _ :: s => inr s
  end.

(** A number operand; the exception of the constructor. *)
Definition num (vch : valtype) (fRequireMinimal : bool) (nMaxNumSize : Z) : Res Z :=
  match CScriptNum vch fRequireMinimal nMaxNumSize with
  | inl _ => inl (Throw NumError)
  | inr v => inr v
  end.

(** ** Encoding of keys and signatures *)
Definition IsCompressedOrUncompressedPubKey (vchPubKey : valtype) : bool :=
  if size vchPubKey <? 33 then false
  else if vchPubKey.[0] =? 0x04 then size vchPubKey =? 65
  else if ((vchPubKey.[0] =? 0x02) || (vchPubKey.[0] =? 0x03))%bool then size vchPubKey =? 33
  else false.

Definition IsCompressedPubKey (vchPubKey : valtype) : bool :=
  if negb (size vchPubKey =? 33) then false
  else if (negb (vchPubKey.[0] =? 0x02) && negb (vchPubKey.[0] =? 0x03))%bool then false
  else true.

Definition bit7 (b : Z) : bool := negb (Z.land b 0x80 =? 0).

Definition IsValidSignatureEncoding (sig : valtype) : bool :=
  if size sig <? 9 then false
  else if 73 <? size sig then false
  else if negb (sig.[0] =? 0x30) then false
  else if negb (sig.[1] =? size sig - 3) then false
  else
    let lenR := sig.[3] in
    if size sig <=? 5 + lenR then false
    else
      let lenS := sig.[5 + Z.to_nat lenR] in
      if negb (lenR + lenS + 7 =? size sig) then false
      else if negb (sig.[2] =? 0x02) then false
      else if lenR =? 0 then false
      else if bit7 sig.[4] then false
      else if ((1 <? lenR) && (sig.[4] =? 0x00) && negb (bit7 sig.[5]))%bool then false
      else if negb (sig.[Z.to_nat lenR + 4] =? 0x02) then false
      else if lenS =? 0 then false
      else if bit7 sig.[Z.to_nat lenR + 6] then false
      else if ((1 <? lenS) && (sig.[Z.to_nat lenR + 6] =? 0x00) && negb (bit7 sig.[Z.to_nat lenR + 7]))%bool then false
      else true.

Definition IsDefinedHashtypeSignature (vchSig : valtype) : bool :=
  if size vchSig =? 0 then false
  else
    let nHashType := Z.land (List.last vchSig 0) (u8 (Z.lnot SIGHASH_ANYONECANPAY)) in
    if ((nHashType <? SIGHASH_ALL) || (SIGHASH_SINGLE <? nHashType))%bool then false else true.

Definition CheckMinimalPush (data : valtype) (opcode : opcodetype) : bool :=
  let op := opcode_val opcode in
  if size data =? 0 then op =? opcode_val OP_0
  else if ((size data =? 1) && (1 <=? data.[0]) && (data.[0] <=? 16))%bool then op =? opcode_val OP_1 + (data.[0] - 1)
  else if ((size data =? 1) && (data.[0] =? 0x81))%bool then op =? opcode_val OP_1NEGATE
  else if size data <=? 75 then op =? size data
  else if size data <=? 255 then op =? opcode_val OP_PUSHDATA1
  else if size data <=? 65535 then op =? opcode_val OP_PUSHDATA2
  else true.

(** ** [BaseSignatureChecker] *)
Record BaseSignatureChecker := {
  CheckSig : valtype → valtype → list Z → SigVersion → bool;
  CheckLockTime : Z → bool;
  CheckSequence : Z → bool }.

(** The cryptographic functions the interpreter calls. *)
Class Crypto := {
  ripemd160 : list Z → list Z;
  sha1 : list Z → list Z;
  sha256 : list Z → list Z;
  (** [CPubKey::CheckLowS] and [CPubKey::Verify] *)
  CheckLowS : list Z → bool;
  Verify : list Z → list Z → list Z → bool }.
Definition Hash160 `{Crypto} (l : list Z) : list Z := ripemd160 (sha256 l).
Definition Hash256 `{Crypto} (l : list Z) : list Z := sha256 (sha256 l).

Section encoding.
Context `{Crypto}.

Definition IsLowDERSignature (vchSig : valtype) : Res unit :=
  if negb (IsValidSignatureEncoding vchSig) then set_error SCRIPT_ERR_SIG_DER
  else if negb (CheckLowS (take (length vchSig - 1) vchSig)) then set_error SCRIPT_ERR_SIG_HIGH_S
  else mret tt.

Definition CheckSignatureEncoding (vchSig : valtype) (flags : Z) : Res unit :=
  if size vchSig =? 0 then mret tt
  else if (has flags (Z.lor (Z.lor SCRIPT_VERIFY_DERSIG SCRIPT_VERIFY_LOW_S) SCRIPT_VERIFY_STRICTENC) &&
           negb (IsValidSignatureEncoding vchSig))%bool then set_error SCRIPT_ERR_SIG_DER
  else
    _ ← (if has flags SCRIPT_VERIFY_LOW_S then IsLowDERSignature vchSig else mret tt);
    if (has flags SCRIPT_VERIFY_STRICTENC && negb (IsDefinedHashtypeSignature vchSig))%bool
    then set_error SCRIPT_ERR_SIG_HASHTYPE else mret tt.

Definition CheckPubKeyEncoding (vchPubKey : valtype) (flags : Z) (sigversion : SigVersion) : Res unit :=
  if (has flags SCRIPT_VERIFY_STRICTENC && negb (IsCompressedOrUncompressedPubKey vchPubKey))%bool
  then set_error SCRIPT_ERR_PUBKEYTYPE
  else if (has flags SCRIPT_VERIFY_WITNESS_PUBKEYTYPE && bool_decide (sigversion = SIGVERSION_WITNESS_V0) &&
           negb (IsCompressedPubKey vchPubKey))%bool
  then set_error SCRIPT_ERR_WITNESS_PUBKEYTYPE
  else mret tt.
End encoding.

(** ** Stack operations *)
Definition need (n : Z) (s : stack_t) : Res unit :=
  if size s <? n then set_error SCRIPT_ERR_INVALID_STACK_OPERATION else mret tt.

(** [swap(stacktop(-i), stacktop(-j))] *)
Definition swap_top (s : stack_t) (i j : nat) : Res stack_t :=
  a ← stacktop s i; b ← stacktop s j; mret (<[(j - 1)%nat := a]> (<[(i - 1)%nat := b]> s)).

(** [stack.erase(stack.end()-i)], [stack.erase(stack.end()-i, stack.end()-j)] and [stack.insert(stack.end()-i, vch)]: the iterators have to be in
    the vector, and the one of the first to point to an element. *)
Definition erase (s : stack_t) (i : nat) : Res stack_t :=
  if ((1 <=? i) && (i <=? length s))%nat then mret (take (i - 1) s ++ drop i s) else inl Undefined.
Definition erase_range (s : stack_t) (i j : nat) : Res stack_t :=
  if ((j <=? i) && (i <=? length s))%nat then mret (take j s ++ drop i s) else inl Undefined.
Definition insert_at (s : stack_t) (i : nat) (vch : valtype) : Res stack_t :=
  if (i <=? length s)%nat then mret (take i s ++ vch :: drop i s) else inl Undefined.

Definition do_2DROP (s : stack_t) : Res stack_t := _ ← need 2 s; s ← popstack s; popstack s.
Definition do_2DUP (s : stack_t) : Res stack_t :=
  _ ← need 2 s; vch1 ← stacktop s 2; vch2 ← stacktop s 1; mret (vch2 :: vch1 :: s).
Definition do_3DUP (s : stack_t) : Res stack_t :=
  _ ← need 3 s; vch1 ← stacktop s 3; vch2 ← stacktop s 2; vch3 ← stacktop s 1; mret (vch3 :: vch2 :: vch1 :: s).
Definition do_2OVER (s : stack_t) : Res stack_t :=
  _ ← need 4 s; vch1 ← stacktop s 4; vch2 ← stacktop s 3; mret (vch2 :: vch1 :: s).
Definition do_2ROT (s : stack_t) : Res stack_t :=
  _ ← need 6 s; vch1 ← stacktop s 6; vch2 ← stacktop s 5; s ← erase_range s 6 4; mret (vch2 :: vch1 :: s).
Definition do_2SWAP (s : stack_t) : Res stack_t := _ ← need 4 s; s ← swap_top s 4 2; swap_top s 3 1.
Definition do_IFDUP (s : stack_t) : Res stack_t :=
  _ ← need 1 s; vch ← stacktop s 1; mret (if CastToBool vch then vch :: s else s).
Definition do_DEPTH (s : stack_t) : Res stack_t := mret (serialize (size s) :: s).
Definition do_DROP (s : stack_t) : Res stack_t := _ ← need 1 s; popstack s.
Definition do_DUP (s : stack_t) : Res stack_t := _ ← need 1 s; vch ← stacktop s 1; mret (vch :: s).
Definition do_NIP (s : stack_t) : Res stack_t := _ ← need 2 s; erase s 2.
Definition do_OVER (s : stack_t) : Res stack_t := _ ← need 2 s; vch ← stacktop s 2; mret (vch :: s).
Definition do_PICK_ROLL (roll fRequireMinimal : bool) (s : stack_t) : Res stack_t :=
  _ ← need 2 s;
  top ← stacktop s 1;
  v ← num top fRequireMinimal nDefaultMaxNumSize;
  let n := getint v in
  s ← popstack s;
  if ((n <? 0) || (size s <=? n))%bool then set_error SCRIPT_ERR_INVALID_STACK_OPERATION
  else
    vch ← stacktop s (Z.to_nat n + 1);
    s ← (if roll then erase s (Z.to_nat n + 1) else mret s);
    mret (vch :: s).
Definition do_ROT (s : stack_t) : Res stack_t := _ ← need 3 s; s ← swap_top s 3 2; swap_top s 2 1.
Definition do_SWAP (s : stack_t) : Res stack_t := _ ← need 2 s; swap_top s 2 1.
Definition do_TUCK (s : stack_t) : Res stack_t :=
  _ ← need 2 s; vch ← stacktop s 1; insert_at s 2 vch.
Definition do_SIZE (s : stack_t) : Res stack_t :=
  _ ← need 1 s; vch ← stacktop s 1; mret (serialize (size vch) :: s).
Definition do_EQUAL (verify : bool) (s : stack_t) : Res stack_t :=
  _ ← need 2 s;
  vch1 ← stacktop s 2; vch2 ← stacktop s 1;
  let fEqual := bool_decide (vch1 = vch2) in
  s ← popstack s; s ← popstack s;
  let s := vchBool fEqual :: s in
  if verify then if fEqual then popstack s else set_error SCRIPT_ERR_EQUALVERIFY else mret s.
Definition do_VERIFY (s : stack_t) : Res stack_t :=
  _ ← need 1 s;
  vch ← stacktop s 1;
  if CastToBool vch then popstack s else set_error SCRIPT_ERR_VERIFY.

(** ** Numbers *)
Definition bn_of_bool (b : bool) : Z := if b then 1 else 0.

(** The operators of [CScriptNum]: [+=], [-=] and the unary [-] assert that they do not overflow, [+] and [-] do not. *)
Definition int64_min : Z := - 2 ^ 63.
Definition int64_max : Z := 2 ^ 63 - 1.
Definition num_add_assign (m_value rhs : Z) : Res Z :=
  if ((rhs =? 0) || ((0 <? rhs) && (m_value <=? int64_max - rhs)) || ((rhs <? 0) && (int64_min - rhs <=? m_value)))%bool
  then mret (m_value + rhs) else inl Abort.
Definition num_sub_assign (m_value rhs : Z) : Res Z :=
  if ((rhs =? 0) || ((0 <? rhs) && (int64_min + rhs <=? m_value)) || ((rhs <? 0) && (m_value <=? int64_max + rhs)))%bool
  then mret (m_value - rhs) else inl Abort.
Definition num_neg (m_value : Z) : Res Z := if m_value =? int64_min then inl Abort else mret (- m_value).
Definition in_int64 (v : Z) : Res Z := if ((int64_min <=? v) && (v <=? int64_max))%bool then mret v else inl Undefined.
Definition num_add (m_value rhs : Z) : Res Z := in_int64 (m_value + rhs).
Definition num_sub (m_value rhs : Z) : Res Z := in_int64 (m_value - rhs).

Definition unary_bn (opcode : opcodetype) (bn : Z) : Res Z :=
  match opcode with
  | OP_1ADD => num_add_assign bn 1
  | OP_1SUB => num_sub_assign bn 1
  | OP_NEGATE => num_neg bn
  | OP_ABS => if bn <? 0 then num_neg bn else mret bn
  | OP_NOT => mret (bn_of_bool (bn =? 0))
  | OP_0NOTEQUAL => mret (bn_of_bool (negb (bn =? 0)))
  | _ => inl Abort
  end.
Definition do_unary (opcode : opcodetype) (fRequireMinimal : bool) (s : stack_t) : Res stack_t :=
  _ ← need 1 s;
  vch ← stacktop s 1;
  bn ← num vch fRequireMinimal nDefaultMaxNumSize;
  bn ← unary_bn opcode bn;
  s ← popstack s;
  mret (serialize bn :: s).

Definition binary_bn (opcode : opcodetype) (bn1 bn2 : Z) : Res Z :=
  match opcode with
  | OP_ADD => num_add bn1 bn2
  | OP_SUB => num_sub bn1 bn2
  | OP_BOOLAND => mret (bn_of_bool (negb (bn1 =? 0) && negb (bn2 =? 0)))
  | OP_BOOLOR => mret (bn_of_bool (negb (bn1 =? 0) || negb (bn2 =? 0)))
  | OP_NUMEQUAL | OP_NUMEQUALVERIFY => mret (bn_of_bool (bn1 =? bn2))
  | OP_NUMNOTEQUAL => mret (bn_of_bool (negb (bn1 =? bn2)))
  | OP_LESSTHAN => mret (bn_of_bool (bn1 <? bn2))
  | OP_GREATERTHAN => mret (bn_of_bool (bn2 <? bn1))
  | OP_LESSTHANOREQUAL => mret (bn_of_bool (bn1 <=? bn2))
  | OP_GREATERTHANOREQUAL => mret (bn_of_bool (bn2 <=? bn1))
  | OP_MIN => mret (if bn1 <? bn2 then bn1 else bn2)
  | OP_MAX => mret (if bn2 <? bn1 then bn1 else bn2)
  | _ => inl Abort
  end.
Definition do_binary (opcode : opcodetype) (fRequireMinimal : bool) (s : stack_t) : Res stack_t :=
  _ ← need 2 s;
  vch1 ← stacktop s 2; bn1 ← num vch1 fRequireMinimal nDefaultMaxNumSize;
  vch2 ← stacktop s 1; bn2 ← num vch2 fRequireMinimal nDefaultMaxNumSize;
  bn ← binary_bn opcode bn1 bn2;
  s ← popstack s; s ← popstack s;
  let s := serialize bn :: s in
  if bool_decide (opcode = OP_NUMEQUALVERIFY) then
    top ← stacktop s 1;
    if CastToBool top then popstack s else set_error SCRIPT_ERR_NUMEQUALVERIFY
  else mret s.

Definition do_WITHIN (fRequireMinimal : bool) (s : stack_t) : Res stack_t :=
  _ ← need 3 s;
  vch1 ← stacktop s 3; bn1 ← num vch1 fRequireMinimal nDefaultMaxNumSize;
  vch2 ← stacktop s 2; bn2 ← num vch2 fRequireMinimal nDefaultMaxNumSize;
  vch3 ← stacktop s 1; bn3 ← num vch3 fRequireMinimal nDefaultMaxNumSize;
  let fValue := ((bn2 <=? bn1) && (bn1 <? bn3))%bool in
  s ← popstack s; s ← popstack s; s ← popstack s;
  mret (vchBool fValue :: s).

(** ** Hashes and signatures *)
Section crypto_ops.
Context `{Crypto} (flags : Z) (checker : BaseSignatureChecker) (sigversion : SigVersion).

Definition do_hash (opcode : opcodetype) (s : stack_t) : Res stack_t :=
  _ ← need 1 s;
  vch ← stacktop s 1;
  let vchHash :=
    if bool_decide (opcode = OP_RIPEMD160) then ripemd160 vch
    else if bool_decide (opcode = OP_SHA1) then sha1 vch
    else if bool_decide (opcode = OP_SHA256) then sha256 vch
    else if bool_decide (opcode = OP_HASH160) then Hash160 vch
    else if bool_decide (opcode = OP_HASH256) then Hash256 vch
    else replicate 32 0 in
  s ← popstack s;
  mret (vchHash :: s).

(** [code] is the script from [pbegincodehash]. *)
Definition do_CHECKSIG (verify : bool) (code : list Z) (s : stack_t) : Res stack_t :=
  _ ← need 2 s;
  vchSig ← stacktop s 2;
  vchPubKey ← stacktop s 1;
  let scriptCode := if bool_decide (sigversion = SIGVERSION_BASE)
                    then (FindAndDelete code (push_data [] vchSig)).1 else code in
  _ ← CheckSignatureEncoding vchSig flags;
  _ ← CheckPubKeyEncoding vchPubKey flags sigversion;
  let fSuccess := CheckSig checker vchSig vchPubKey scriptCode sigversion in
  if (negb fSuccess && has flags SCRIPT_VERIFY_NULLFAIL && negb (size vchSig =? 0))%bool
  then set_error SCRIPT_ERR_SIG_NULLFAIL
  else
    s ← popstack s; s ← popstack s;
    let s := vchBool fSuccess :: s in
    if verify then if fSuccess then popstack s else set_error SCRIPT_ERR_CHECKSIGVERIFY else mret s.

(** The loop that removes the signatures from the script code. *)
Fixpoint multisig_code (k : nat) (isig : nat) (s : stack_t) (scriptCode : list Z) : Res (list Z) :=
  match k with
  | O => mret scriptCode
  | S k' =>
      vchSig ← stacktop s isig;
      let scriptCode := if bool_decide (sigversion = SIGVERSION_BASE)
                        then (FindAndDelete scriptCode (push_data [] vchSig)).1 else scriptCode in
      multisig_code k' (S isig) s scriptCode
  end.

(** [while (fSuccess && nSigsCount > 0)]; every round uses up a key, so [nKeysCount] rounds
    are enough. *)
Fixpoint multisig_loop (fuel : nat) (s : stack_t) (scriptCode : list Z)
    (isig ikey : nat) (nSigsCount nKeysCount : Z) : Res bool :=
  if nSigsCount <=? 0 then mret true
  else
    match fuel with
    | O => mret false
    | S fuel' =>
        vchSig ← stacktop s isig;
        vchPubKey ← stacktop s ikey;
        _ ← CheckSignatureEncoding vchSig flags;
        _ ← CheckPubKeyEncoding vchPubKey flags sigversion;
        let fOk := CheckSig checker vchSig vchPubKey scriptCode sigversion in
        let isig := if fOk then S isig else isig in
        let nSigsCount := if fOk then nSigsCount - 1 else nSigsCount in
        let nKeysCount := nKeysCount - 1 in
        if nKeysCount <? nSigsCount then mret false
        else multisig_loop fuel' s scriptCode isig (S ikey) nSigsCount nKeysCount
    end.

(** [while (i-- > 1)]: [n] rounds. *)
Fixpoint multisig_cleanup (n : nat) (fSuccess : bool) (ikey2 : Z) (s : stack_t) : Res stack_t :=
  match n with
  | O => mret s
  | S n' =>
      top ← (if (negb fSuccess && has flags SCRIPT_VERIFY_NULLFAIL && (ikey2 =? 0))%bool
             then stacktop s 1 else mret []);
      if negb (size top =? 0) then set_error SCRIPT_ERR_SIG_NULLFAIL
      else
        let ikey2 := if 0 <? ikey2 then ikey2 - 1 else ikey2 in
        s ← popstack s;
        multisig_cleanup n' fSuccess ikey2 s
  end.

(** [OP_CHECKMULTISIG]: the stack and the operation count it leaves. *)
Definition do_CHECKMULTISIG (verify : bool) (code : list Z) (nOpCount : Z) (s : stack_t) : Res (stack_t * Z) :=
  let fRequireMinimal := has flags SCRIPT_VERIFY_MINIMALDATA in
  _ ← need 1 s;
  top ← stacktop s 1;
  v ← num top fRequireMinimal nDefaultMaxNumSize;
  let nKeysCount := getint v in
  if ((nKeysCount <? 0) || (MAX_PUBKEYS_PER_MULTISIG <? nKeysCount))%bool then set_error SCRIPT_ERR_PUBKEY_COUNT
  else
    let nOpCount := nOpCount + nKeysCount in
    if MAX_OPS_PER_SCRIPT <? nOpCount then set_error SCRIPT_ERR_OP_COUNT
    else
      let ikey := 2%nat in
      let ikey2 := nKeysCount + 2 in
      let i := 2 + nKeysCount in
      _ ← need i s;
      top ← stacktop s (Z.to_nat i);
      v ← num top fRequireMinimal nDefaultMaxNumSize;
      let nSigsCount := getint v in
      if ((nSigsCount <? 0) || (nKeysCount <? nSigsCount))%bool then set_error SCRIPT_ERR_SIG_COUNT
      else
        let isig := Z.to_nat (i + 1) in
        let i := i + 1 + nSigsCount in
        _ ← need i s;
        scriptCode ← multisig_code (Z.to_nat nSigsCount) isig s code;
        fSuccess ← multisig_loop (Z.to_nat nKeysCount) s scriptCode isig ikey nSigsCount nKeysCount;
        s ← multisig_cleanup (Z.to_nat (i - 1)) fSuccess ikey2 s;
        _ ← need 1 s;
        top ← stacktop s 1;
        if (has flags SCRIPT_VERIFY_NULLDUMMY && negb (size top =? 0))%bool then set_error SCRIPT_ERR_SIG_NULLDUMMY
        else
          s ← popstack s;
          let s := vchBool fSuccess :: s in
          s ← (if verify then if fSuccess then popstack s else set_error SCRIPT_ERR_CHECKMULTISIGVERIFY else mret s);
          mret (s, nOpCount).
End crypto_ops.

(** ** The machine

    The local variables of [EvalScript] besides [pc]: the two stacks, the nesting of
    conditionals (innermost first), the operation count and [pbegincodehash]. *)
Record exec := mkExec {
  e_stack : stack_t; e_alt : stack_t; e_vfExec : list bool; e_nOp : Z; e_code : list Z }.

Definition with_stack (st : exec) (s : stack_t) : exec :=
  mkExec s (e_alt st) (e_vfExec st) (e_nOp st) (e_code st).
Definition with_vfExec (st : exec) (v : list bool) : exec :=
  mkExec (e_stack st) (e_alt st) v (e_nOp st) (e_code st).

(** [!count(vfExec.begin(), vfExec.end(), false)] *)
Definition fExec (st : exec) : bool := forallb id (e_vfExec st).

Definition disabled_opcode (opcode : opcodetype) : bool :=
  match opcode with
  | OP_CAT | OP_SUBSTR | OP_LEFT | OP_RIGHT | OP_INVERT | OP_AND | OP_OR | OP_XOR | OP_2MUL | OP_2DIV
  | OP_MUL | OP_DIV | OP_MOD | OP_LSHIFT | OP_RSHIFT => true
  | _ => false
  end.

Section eval.
Context `{Crypto} (flags : Z) (checker : BaseSignatureChecker) (sigversion : SigVersion).

Definition fRequireMinimal : bool := has flags SCRIPT_VERIFY_MINIMALDATA.

Definition do_push_int (opcode : opcodetype) (s : stack_t) : Res stack_t :=
  mret (serialize (opcode_val opcode - (opcode_val OP_1 - 1)) :: s).

Definition discourage_nops : Res unit :=
  if has flags SCRIPT_VERIFY_DISCOURAGE_UPGRADABLE_NOPS then set_error SCRIPT_ERR_DISCOURAGE_UPGRADABLE_NOPS
  else mret tt.

Definition do_CHECKLOCKTIMEVERIFY (s : stack_t) : Res unit :=
  if negb (has flags SCRIPT_VERIFY_CHECKLOCKTIMEVERIFY) then discourage_nops
  else
    _ ← need 1 s;
    vch ← stacktop s 1;
    nLockTime ← num vch fRequireMinimal 5;
    if nLockTime <? 0 then set_error SCRIPT_ERR_NEGATIVE_LOCKTIME
    else if negb (CheckLockTime checker nLockTime) then set_error SCRIPT_ERR_UNSATISFIED_LOCKTIME
    else mret tt.

Definition do_CHECKSEQUENCEVERIFY (s : stack_t) : Res unit :=
  if negb (has flags SCRIPT_VERIFY_CHECKSEQUENCEVERIFY) then discourage_nops
  else
    _ ← need 1 s;
    vch ← stacktop s 1;
    nSequence ← num vch fRequireMinimal 5;
    if nSequence <? 0 then set_error SCRIPT_ERR_NEGATIVE_LOCKTIME
    else if negb (Z.land nSequence Transaction.SEQUENCE_LOCKTIME_DISABLE_FLAG =? 0) then mret tt
    else if negb (CheckSequence checker nSequence) then set_error SCRIPT_ERR_UNSATISFIED_LOCKTIME
    else mret tt.

Definition do_IF (notif : bool) (st : exec) : Res exec :=
  if fExec st then
    let s := e_stack st in
    if size s <? 1 then set_error SCRIPT_ERR_UNBALANCED_CONDITIONAL
    else
      vch ← stacktop s 1;
      if (bool_decide (sigversion = SIGVERSION_WITNESS_V0) && has flags SCRIPT_VERIFY_MINIMALIF &&
          ((1 <? size vch) || ((size vch =? 1) && negb (vch.[0] =? 1))))%bool
      then set_error SCRIPT_ERR_MINIMALIF
      else
        let fValue := if notif then negb (CastToBool vch) else CastToBool vch in
        s ← popstack s;
        mret (with_vfExec (with_stack st s) (fValue :: e_vfExec st))
  else mret (with_vfExec st (false :: e_vfExec st)).

(** [vfExec.back()] and [vfExec.pop_back()] *)
Definition vf_back (v : list bool) : Res bool := match v with [] => inl Undefined | b :: _ => mret b end.
Definition vf_pop_back (v : list bool) : Res (list bool) := match v with [] => inl Undefined | _ :: v => mret v end.
Definition do_ELSE (st : exec) : Res exec :=
  if bool_decide (e_vfExec st = []) then set_error SCRIPT_ERR_UNBALANCED_CONDITIONAL
  else
    b ← vf_back (e_vfExec st);
    mret (with_vfExec st (negb b :: tail (e_vfExec st))).
Definition do_ENDIF (st : exec) : Res exec :=
  if bool_decide (e_vfExec st = []) then set_error SCRIPT_ERR_UNBALANCED_CONDITIONAL
  else v ← vf_pop_back (e_vfExec st); mret (with_vfExec st v).

Definition do_TOALTSTACK (st : exec) : Res exec :=
  _ ← need 1 (e_stack st);
  vch ← stacktop (e_stack st) 1;
  s ← popstack (e_stack st);
  mret (mkExec s (vch :: e_alt st) (e_vfExec st) (e_nOp st) (e_code st)).
Definition do_FROMALTSTACK (st : exec) : Res exec :=
  if size (e_alt st) <? 1 then set_error SCRIPT_ERR_INVALID_ALTSTACK_OPERATION
  else
    vch ← stacktop (e_alt st) 1;
    a ← popstack (e_alt st);
    mret (mkExec (vch :: e_stack st) a (e_vfExec st) (e_nOp st) (e_code st)).

(** Lifting an operation on the main stack. *)
Definition on_stack (f : stack_t → Res stack_t) (st : exec) : Res exec :=
  s ← f (e_stack st); mret (with_stack st s).
Definition check_only (m : Res unit) (st : exec) : Res exec := _ ← m; mret st.

(** The [switch] on the opcode; [pc] is the iterator after it. *)
Definition eval_opcode (opcode : opcodetype) (pc : list Z) (st : exec) : Res exec :=
  match opcode with
  | OP_1NEGATE | OP_1 | OP_2 | OP_3 | OP_4 | OP_5 | OP_6 | OP_7 | OP_8 | OP_9 | OP_10 | OP_11 | OP_12 | OP_13
  | OP_14 | OP_15 | OP_16 => on_stack (do_push_int opcode) st
  | OP_NOP => mret st
  | OP_CHECKLOCKTIMEVERIFY => check_only (do_CHECKLOCKTIMEVERIFY (e_stack st)) st
  | OP_CHECKSEQUENCEVERIFY => check_only (do_CHECKSEQUENCEVERIFY (e_stack st)) st
  | OP_NOP1 | OP_NOP4 | OP_NOP5 | OP_NOP6 | OP_NOP7 | OP_NOP8 | OP_NOP9 | OP_NOP10 => check_only discourage_nops st
  | OP_IF => do_IF false st
  | OP_NOTIF => do_IF true st
  | OP_ELSE => do_ELSE st
  | OP_ENDIF => do_ENDIF st
  | OP_VERIFY => on_stack do_VERIFY st
  | OP_RETURN => set_error SCRIPT_ERR_OP_RETURN
  | OP_TOALTSTACK => do_TOALTSTACK st
  | OP_FROMALTSTACK => do_FROMALTSTACK st
  | OP_2DROP => on_stack do_2DROP st
  | OP_2DUP => on_stack do_2DUP st
  | OP_3DUP => on_stack do_3DUP st
  | OP_2OVER => on_stack do_2OVER st
  | OP_2ROT => on_stack do_2ROT st
  | OP_2SWAP => on_stack do_2SWAP st
  | OP_IFDUP => on_stack do_IFDUP st
  | OP_DEPTH => on_stack do_DEPTH st
  | OP_DROP => on_stack do_DROP st
  | OP_DUP => on_stack do_DUP st
  | OP_NIP => on_stack do_NIP st
  | OP_OVER => on_stack do_OVER st
  | OP_PICK => on_stack (do_PICK_ROLL false fRequireMinimal) st
  | OP_ROLL => on_stack (do_PICK_ROLL true fRequireMinimal) st
  | OP_ROT => on_stack do_ROT st
  | OP_SWAP => on_stack do_SWAP st
  | OP_TUCK => on_stack do_TUCK st
  | OP_SIZE => on_stack do_SIZE st
  | OP_EQUAL => on_stack (do_EQUAL false) st
  | OP_EQUALVERIFY => on_stack (do_EQUAL true) st
  | OP_1ADD | OP_1SUB | OP_NEGATE | OP_ABS | OP_NOT | OP_0NOTEQUAL => on_stack (do_unary opcode fRequireMinimal) st
  | OP_ADD | OP_SUB | OP_BOOLAND | OP_BOOLOR | OP_NUMEQUAL | OP_NUMEQUALVERIFY | OP_NUMNOTEQUAL | OP_LESSTHAN
  | OP_GREATERTHAN | OP_LESSTHANOREQUAL | OP_GREATERTHANOREQUAL | OP_MIN | OP_MAX =>
      on_stack (do_binary opcode fRequireMinimal) st
  | OP_WITHIN => on_stack (do_WITHIN fRequireMinimal) st
  | OP_RIPEMD160 | OP_SHA1 | OP_SHA256 | OP_HASH160 | OP_HASH256 => on_stack (do_hash opcode) st
  | OP_CODESEPARATOR => mret (mkExec (e_stack st) (e_alt st) (e_vfExec st) (e_nOp st) pc)
  | OP_CHECKSIG => on_stack (do_CHECKSIG flags checker sigversion false (e_code st)) st
  | OP_CHECKSIGVERIFY => on_stack (do_CHECKSIG flags checker sigversion true (e_code st)) st
  | OP_CHECKMULTISIG | OP_CHECKMULTISIGVERIFY =>
      '(s, n) ← do_CHECKMULTISIG flags checker sigversion (bool_decide (opcode = OP_CHECKMULTISIGVERIFY))
                  (e_code st) (e_nOp st) (e_stack st);
      mret (mkExec s (e_alt st) (e_vfExec st) n (e_code st))
  | _ => set_error SCRIPT_ERR_BAD_OPCODE
  end.

(** One round of the loop: read an instruction, apply the limits, execute it. *)
Definition eval_step (pc : list Z) (st : exec) : Res (list Z * exec) :=
  match GetOp pc with
  | None => set_error SCRIPT_ERR_BAD_OPCODE
  | Some (opcode, vchPushValue, pc') =>
      let op := opcode_val opcode in
      if MAX_SCRIPT_ELEMENT_SIZE <? size vchPushValue then set_error SCRIPT_ERR_PUSH_SIZE
      else
        let nOp := if opcode_val OP_16 <? op then e_nOp st + 1 else e_nOp st in
        if ((opcode_val OP_16 <? op) && (MAX_OPS_PER_SCRIPT <? nOp))%bool then set_error SCRIPT_ERR_OP_COUNT
        else if disabled_opcode opcode then set_error SCRIPT_ERR_DISABLED_OPCODE
        else
          let st := mkExec (e_stack st) (e_alt st) (e_vfExec st) nOp (e_code st) in
          st ← (if (fExec st && (0 <=? op) && (op <=? opcode_val OP_PUSHDATA4))%bool then
                  if (fRequireMinimal && negb (CheckMinimalPush vchPushValue opcode))%bool
                  then set_error SCRIPT_ERR_MINIMALDATA
                  else mret (with_stack st (vchPushValue :: e_stack st))
                else if (fExec st || ((opcode_val OP_IF <=? op) && (op <=? opcode_val OP_ENDIF)))%bool
                then eval_opcode opcode pc' st
                else mret st);
          if 1000 <? size (e_stack st) + size (e_alt st) then set_error SCRIPT_ERR_STACK_SIZE
          else mret (pc', st)
  end.

(** [while (pc < pend)]; each round advances [pc], so the length of the script is enough. *)
Fixpoint eval_loop (fuel : nat) (pc : list Z) (st : exec) : Res exec :=
  match pc with
  | [] => mret st
  | _ =>
      match fuel with
      | O => mret st
      | S fuel' => '(pc, st) ← eval_step pc st; eval_loop fuel' pc st
      end
  end.

(** [EvalScript] before its [catch] and after it. *)
Definition EvalScript_raw (stack : stack_t) (script : list Z) : Res stack_t :=
  if MAX_SCRIPT_SIZE <? size script then set_error SCRIPT_ERR_SCRIPT_SIZE
  else
    st ← eval_loop (length script) script (mkExec stack [] [] 0 script);
    match e_vfExec st with
    | [] => mret (e_stack st)
    | _ => set_error SCRIPT_ERR_UNBALANCED_CONDITIONAL
    end.

Definition EvalScript (stack : stack_t) (script : list Z) : Res stack_t :=
  match EvalScript_raw stack script with
  | inl (Throw _) => set_error SCRIPT_ERR_UNKNOWN_ERROR
  | r => r
  end.
End eval.

(** ** Signature hashes *)

(** [SerializeScriptCode]: the first pass counts the separators, the second writes the
    pieces between them.  [it] is where reading stops, which on a malformed script is
    before the end. *)
Fixpoint count_separators (fuel : nat) (it : list Z) (n : Z) : Z :=
  match fuel with
  | O => n
  | S fuel' =>
      match GetOp it with
      | Some (opcode, _, it) => count_separators fuel' it (if bool_decide (opcode = OP_CODESEPARATOR) then n + 1 else n)
      | None => n
      end
  end.
Fixpoint write_pieces (fuel : nat) (itBegin it : list Z) : list Z :=
  let last := λ it' : list Z, match itBegin with [] => [] | _ => take (length itBegin - length it') itBegin end in
  match fuel with
  | O => last it
  | S fuel' =>
      match GetOp2 it with
      | (true, opcode, _, it) =>
          if bool_decide (opcode = OP_CODESEPARATOR)
          then take (length itBegin - length it - 1) itBegin ++ write_pieces fuel' it it
          else write_pieces fuel' itBegin it
      | (false, _, _, it) => last it
      end
  end.
Definition SerializeScriptCode (scriptCode : list Z) : list Z :=
  let nCodeSeparators := count_separators (length scriptCode) scriptCode 0 in
  Serialize.WriteCompactSize (size scriptCode - nCodeSeparators) ++
  write_pieces (S (length scriptCode)) scriptCode scriptCode.

Section sighash.
Import Serialize Transaction.
Context (txTo : CMutableTransaction) (scriptCode : list Z) (nIn : nat) (nHashType : Z).

(** [CTransactionSignatureSerializer] *)
Definition fAnyoneCanPay : bool := has nHashType SIGHASH_ANYONECANPAY.
Definition fHashSingle : bool := Z.land nHashType 0x1f =? SIGHASH_SINGLE.
Definition fHashNone : bool := Z.land nHashType 0x1f =? SIGHASH_NONE.

(** [None] is an access out of range. *)
Definition SerializeInput (nInput : nat) : option (list Z) :=
  let nInput := if fAnyoneCanPay then nIn else nInput in
  i ← vin txTo !! nInput;
  Some (Serialize_COutPoint (prevout i) ++
        (if negb (nInput =? nIn)%nat then Serialize_bytes [] else SerializeScriptCode scriptCode) ++
        (if (negb (nInput =? nIn)%nat && (fHashSingle || fHashNone))%bool
         then Serialize_int32 0 else ser_writedata32 (nSequence i))).

Definition SerializeOutput (nOutput : nat) : option (list Z) :=
  if (fHashSingle && negb (nOutput =? nIn)%nat)%bool then Some (Serialize_CTxOut CTxOut_SetNull)
  else o ← vout txTo !! nOutput; Some (Serialize_CTxOut o).

Definition Serialize_sigtx : option (list Z) :=
  let nInputs := if fAnyoneCanPay then 1%nat else length (vin txTo) in
  let nOutputs := if fHashNone then 0%nat else if fHashSingle then S nIn else length (vout txTo) in
  ins ← mapM SerializeInput (seq 0 nInputs);
  outs ← mapM SerializeOutput (seq 0 nOutputs);
  Some (Serialize_int32 (tx_nVersion txTo) ++ WriteCompactSize (Z.of_nat nInputs) ++ concat ins ++
        WriteCompactSize (Z.of_nat nOutputs) ++ concat outs ++ ser_writedata32 (nLockTime txTo)).

Context `{Crypto}.
Definition GetPrevoutHash : list Z := Hash256 (concat (map (λ i, Serialize_COutPoint (prevout i)) (vin txTo))).
Definition GetSequenceHash : list Z := Hash256 (concat (map (λ i, ser_writedata32 (nSequence i)) (vin txTo))).
Definition GetOutputsHash : list Z := Hash256 (concat (map Serialize_CTxOut (vout txTo))).

Record PrecomputedTransactionData := mkPrecomputed { hashPrevouts : list Z; hashSequence : list Z; hashOutputs : list Z }.
Definition PrecomputedTransactionData_of : PrecomputedTransactionData :=
  mkPrecomputed GetPrevoutHash GetSequenceHash GetOutputsHash.

Definition one : list Z := Uint256.SetHex 32 [49].

(** The version 0 witness digest (BIP 143). *)
Definition SignatureHash_witness (amount : Z) (cache : option PrecomputedTransactionData) : option (list Z) :=
  let null := Uint256.blob_null 32 in
  let hashPrevouts :=
    if negb fAnyoneCanPay then match cache with Some c => hashPrevouts c | None => GetPrevoutHash end else null in
  let hashSequence :=
    if (negb fAnyoneCanPay && negb fHashSingle && negb fHashNone)%bool
    then match cache with Some c => hashSequence c | None => GetSequenceHash end else null in
  let hashOutputs :=
    if (negb fHashSingle && negb fHashNone)%bool
    then match cache with Some c => hashOutputs c | None => GetOutputsHash end
    else if (fHashSingle && (nIn <? length (vout txTo))%nat)%bool
    then match vout txTo !! nIn with Some o => Hash256 (Serialize_CTxOut o) | None => null end
    else null in
  i ← vin txTo !! nIn;
  Some (Hash256 (Serialize_int32 (tx_nVersion txTo) ++ hashPrevouts ++ hashSequence ++
                 Serialize_COutPoint (prevout i) ++ Serialize_bytes scriptCode ++ Serialize_int64 amount ++
                 ser_writedata32 (nSequence i) ++ hashOutputs ++ ser_writedata32 (nLockTime txTo) ++
                 Serialize_int32 nHashType)).

Definition SignatureHash (amount : Z) (sigversion : SigVersion) (cache : option PrecomputedTransactionData) : option (list Z) :=
  if bool_decide (sigversion = SIGVERSION_WITNESS_V0) then SignatureHash_witness amount cache
  else if (length (vin txTo) <=? nIn)%nat then Some one
  else if (fHashSingle && (length (vout txTo) <=? nIn)%nat)%bool then Some one
  else s ← Serialize_sigtx; Some (Hash256 (s ++ Serialize_int32 nHashType)).
End sighash.

(** ** [CPubKey] as far as the interpreter uses it *)
Definition CPubKey_GetLen (chHeader : Z) : Z :=
  if ((chHeader =? 2) || (chHeader =? 3))%bool then 33
  else if ((chHeader =? 4) || (chHeader =? 6) || (chHeader =? 7))%bool then 65
  else 0.
(** [Set]; the key is [None] when [IsValid] is false. *)
Definition CPubKey_Set (vch : list Z) : option (list Z) :=
  let len := match vch with [] => 0 | b :: _ => CPubKey_GetLen b end in
  if (negb (len =? 0) && (len =? size vch))%bool then Some vch else None.

(** ** [TransactionSignatureChecker] *)
Section checker.
Import Transaction.
Context `{Crypto} (txTo : CMutableTransaction) (nIn : nat) (amount : Z) (txdata : option PrecomputedTransactionData).

Definition tx_CheckSig (vchSigIn vchPubKey : valtype) (scriptCode : list Z) (sigversion : SigVersion) : bool :=
  match CPubKey_Set vchPubKey with
  | None => false
  | Some pubkey =>
      match vchSigIn with
      | [] => false
      | _ =>
          let nHashType := List.last vchSigIn 0 in
          let vchSig := take (length vchSigIn - 1) vchSigIn in
          match SignatureHash txTo scriptCode nIn nHashType amount sigversion txdata with
          | Some sighash => Verify pubkey sighash vchSig
          | None => false
          end
      end
  end.

Definition tx_CheckLockTime (lockTime : Z) : bool :=
  let T := LOCKTIME_THRESHOLD in
  let n := nLockTime txTo in
  if negb (((n <? T) && (lockTime <? T)) || ((T <=? n) && (T <=? lockTime)))%bool then false
  else if n <? lockTime then false
  else match vin txTo !! nIn with
       | Some i => negb (SEQUENCE_FINAL =? nSequence i)
       | None => false
       end.

Definition tx_CheckSequence (sequence : Z) : bool :=
  match vin txTo !! nIn with
  | None => false
  | Some i =>
      let txToSequence := nSequence i in
      if u32 (tx_nVersion txTo) <? 2 then false
      else if negb (Z.land txToSequence SEQUENCE_LOCKTIME_DISABLE_FLAG =? 0) then false
      else
        let nLockTimeMask := Z.lor SEQUENCE_LOCKTIME_TYPE_FLAG SEQUENCE_LOCKTIME_MASK in
        let txToSequenceMasked := Z.land txToSequence nLockTimeMask in
        let nSequenceMasked := Z.land sequence nLockTimeMask in
        let T := SEQUENCE_LOCKTIME_TYPE_FLAG in
        if negb (((txToSequenceMasked <? T) && (nSequenceMasked <? T)) ||
                 ((T <=? txToSequenceMasked) && (T <=? nSequenceMasked)))%bool then false
        else if txToSequenceMasked <? nSequenceMasked then false
        else true
  end.

Definition TransactionSignatureChecker : BaseSignatureChecker :=
  {| CheckSig := tx_CheckSig; CheckLockTime := tx_CheckLockTime; CheckSequence := tx_CheckSequence |}.
End checker.

(** ** [VerifyScript] *)
Section verify.
Context `{Crypto} (flags : Z) (checker : BaseSignatureChecker).

(** A [CScriptWitness] lists its items from the bottom of the stack. *)
Definition VerifyWitnessProgram (witness : list valtype) (witversion : Z) (program : valtype) : Res unit :=
  r ← (if witversion =? 0 then
         if size program =? 32 then
           match witness with
           | [] => set_error SCRIPT_ERR_WITNESS_PROGRAM_WITNESS_EMPTY
           | _ =>
               let scriptPubKey := List.last witness [] in
               let stack := take (length witness - 1) witness in
               if negb (Uint256.memcmp (sha256 scriptPubKey) program =? 0)
               then set_error SCRIPT_ERR_WITNESS_PROGRAM_MISMATCH
               else mret (Some (scriptPubKey, stack))
           end
         else if size program =? 20 then
           if negb (size witness =? 2) then set_error SCRIPT_ERR_WITNESS_PROGRAM_MISMATCH
           else
             let scriptPubKey :=
               push_opcode (push_opcode (push_data (push_opcode (push_opcode [] OP_DUP) OP_HASH160) program)
                 OP_EQUALVERIFY) OP_CHECKSIG in
             mret (Some (scriptPubKey, witness))
         else set_error SCRIPT_ERR_WITNESS_PROGRAM_WRONG_LENGTH
       else if has flags SCRIPT_VERIFY_DISCOURAGE_UPGRADABLE_WITNESS_PROGRAM
       then set_error SCRIPT_ERR_DISCOURAGE_UPGRADABLE_WITNESS_PROGRAM
       else mret None);
  match r with
  | None => mret tt
  | Some (scriptPubKey, stack) =>
      if existsb (λ v, MAX_SCRIPT_ELEMENT_SIZE <? size v) stack then set_error SCRIPT_ERR_PUSH_SIZE
      else
        stack ← EvalScript flags checker SIGVERSION_WITNESS_V0 (rev stack) scriptPubKey;
        match stack with
        | [top] => if CastToBool top then mret tt else set_error SCRIPT_ERR_EVAL_FALSE
        | _ => set_error SCRIPT_ERR_EVAL_FALSE
        end
  end.

(** [stack.resize(1)]: keeps the bottom element. *)
Definition resize1 (s : stack_t) : stack_t := match s with [] => [[]] | _ => [List.last s []] end.

(** A non-empty stack whose top is true. *)
Definition check_top (s : stack_t) : Res unit :=
  match s with
  | [] => set_error SCRIPT_ERR_EVAL_FALSE
  | top :: _ => if CastToBool top then mret tt else set_error SCRIPT_ERR_EVAL_FALSE
  end.

(** The part for spend-to-script-hash outputs: the stack and [hadWitness]. *)
Definition verify_p2sh (scriptSig : list Z) (witness : list valtype) (stack : stack_t) (hadWitness : bool) : Res (stack_t * bool) :=
  if negb (IsPushOnly scriptSig) then set_error SCRIPT_ERR_SIG_PUSHONLY
  else
    match stack with
    | [] => inl Abort
    | pubKey2 :: stack =>
        stack ← EvalScript flags checker SIGVERSION_BASE stack pubKey2;
        _ ← check_top stack;
        if has flags SCRIPT_VERIFY_WITNESS then
          match IsWitnessProgram pubKey2 with
          | Some (version, program) =>
              if negb (bool_decide (scriptSig = push_data [] pubKey2)) then set_error SCRIPT_ERR_WITNESS_MALLEATED_P2SH
              else _ ← VerifyWitnessProgram witness version program; mret (resize1 stack, true)
          | None => mret (stack, hadWitness)
          end
        else mret (stack, hadWitness)
    end.

(** The part for bare witness programs. *)
Definition verify_witness (scriptSig scriptPubKey : list Z) (witness : list valtype) (stack : stack_t) : Res (stack_t * bool) :=
  if has flags SCRIPT_VERIFY_WITNESS then
    match IsWitnessProgram scriptPubKey with
    | Some (version, program) =>
        if negb (size scriptSig =? 0) then set_error SCRIPT_ERR_WITNESS_MALLEATED
        else _ ← VerifyWitnessProgram witness version program; mret (resize1 stack, true)
    | None => mret (stack, false)
    end
  else mret (stack, false).

Definition VerifyScript (scriptSig scriptPubKey : list Z) (witness : list valtype) : Res unit :=
  if (has flags SCRIPT_VERIFY_SIGPUSHONLY && negb (IsPushOnly scriptSig))%bool then set_error SCRIPT_ERR_SIG_PUSHONLY
  else
    stack ← EvalScript flags checker SIGVERSION_BASE [] scriptSig;
    let stackCopy := if has flags SCRIPT_VERIFY_P2SH then stack else [] in
    stack ← EvalScript flags checker SIGVERSION_BASE stack scriptPubKey;
    _ ← check_top stack;
    '(stack, hadWitness) ← verify_witness scriptSig scriptPubKey witness stack;
    '(stack, hadWitness) ←
      (if (has flags SCRIPT_VERIFY_P2SH && IsPayToScriptHash scriptPubKey)%bool
       then verify_p2sh scriptSig witness stackCopy hadWitness
       else mret (stack, hadWitness));
    _ ← (if has flags SCRIPT_VERIFY_CLEANSTACK then
           if negb (has flags SCRIPT_VERIFY_P2SH && has flags SCRIPT_VERIFY_WITNESS)%bool then inl Abort
           else if negb (size stack =? 1) then set_error SCRIPT_ERR_CLEANSTACK else mret tt
         else mret tt);
    if has flags SCRIPT_VERIFY_WITNESS then
      if negb (has flags SCRIPT_VERIFY_P2SH) then inl Abort
      else if (negb hadWitness && negb (size witness =? 0))%bool then set_error SCRIPT_ERR_WITNESS_UNEXPECTED
      else mret tt
    else mret tt.
End verify.

(** ** Counting witness signature operations *)
Definition WitnessSigOps (witversion : Z) (witprogram : valtype) (witness : list valtype) : Z :=
  if witversion =? 0 then
    if size witprogram =? 20 then 1
    else if ((size witprogram =? 32) && (0 <? size witness))%bool then GetSigOpCount (List.last witness []) true
    else 0
  else 0.

(** The data of the last operation; the loop ignores failures of [GetOp]. *)
Fixpoint last_data (fuel : nat) (pc data : list Z) : list Z :=
  match fuel, pc with
  | O, _ | _, [] => data
  | S fuel', _ => let '(_, _, data, pc) := GetOp2 pc in last_data fuel' pc data
  end.

Definition CountWitnessSigOps (scriptSig scriptPubKey : list Z) (witness : list valtype) (flags : Z) : option Z :=
  if negb (has flags SCRIPT_VERIFY_WITNESS) then Some 0
  else if negb (has flags SCRIPT_VERIFY_P2SH) then None
  else
    match IsWitnessProgram scriptPubKey with
    | Some (version, program) => Some (WitnessSigOps version program witness)
    | None =>
        if (IsPayToScriptHash scriptPubKey && IsPushOnly scriptSig)%bool then
          match IsWitnessProgram (last_data (length scriptSig) scriptSig []) with
          | Some (version, program) => Some (WitnessSigOps version program witness)
          | None => Some 0
          end
        else Some 0
    end.
End Interpreter.
