(* ===== verification/Standard.v ===== *)
(** * Standard: the standard output scripts ([script/standard.cpp])

    [Solver], which recognises the standard forms of an output script and extracts keys and
    hashes, destinations, and the scripts built for them.  [Solver] is compared with a
    description of the standard forms by the operations of the script. *)
From S2P Require Import Prelude Serialize Uint256 Script Transaction Interpreter.
Open Scope Z_scope.
Open Scope list_scope.

Module Standard.
Import Script Interpreter.

Inductive txnouttype :=
| TX_NONSTANDARD | TX_PUBKEY | TX_PUBKEYHASH | TX_SCRIPTHASH | TX_MULTISIG | TX_NULL_DATA
| TX_WITNESS_V0_SCRIPTHASH | TX_WITNESS_V0_KEYHASH | TX_ZEROCOINMINT | TX_SIGMAMINT.
#[export] Instance txnouttype_eq_dec : EqDecision txnouttype.
Proof. solve_decision. Defined.

(** ** [Solver] *)
(** In the order of the keys of the multimap. *)
Definition mTemplates : list (txnouttype * list Z) :=
  [(TX_PUBKEY, foldl push_opcode [] [OP_PUBKEY; OP_CHECKSIG]);
   (TX_PUBKEYHASH, foldl push_opcode [] [OP_DUP; OP_HASH160; OP_PUBKEYHASH; OP_EQUALVERIFY; OP_CHECKSIG]);
   (TX_MULTISIG, foldl push_opcode [] [OP_SMALLINTEGER; OP_PUBKEYS; OP_SMALLINTEGER; OP_CHECKMULTISIG])].
Definition key_size (vch : valtype) : bool := (33 <=? size vch) && (size vch <=? 65).

(** The inner loop on the public keys, which reads on after each of them; each round but the last shortens [pc1]. *)
Fixpoint push_pubkeys (fuel : nat) (pc1 : list Z) (opcode1 : opcodetype) (vch1 : valtype) (vSolutionsRet : list valtype) :
    list Z * opcodetype * valtype * list valtype :=
  match fuel with
  | O => (pc1, opcode1, vch1, vSolutionsRet)
  | S fuel' =>
      if key_size vch1 then
        let vSolutionsRet := vSolutionsRet ++ [vch1] in
        let '(ok, opcode1, vch1, pc1) := GetOp2 pc1 in
        if ok then push_pubkeys fuel' pc1 opcode1 vch1 vSolutionsRet else (pc1, opcode1, vch1, vSolutionsRet)
      else (pc1, opcode1, vch1, vSolutionsRet)
  end.
(** The comparison of an operation with one of the template: what it adds to the solutions; [None] is [break]. *)
Definition match_op (opcode1 : opcodetype) (vch1 : valtype) (opcode2 : opcodetype) (vch2 : valtype) : option (list valtype) :=
  if decide (opcode2 = OP_PUBKEY) then if (size vch1 <? 33) || (65 <? size vch1) then None else Some [vch1]
  else if decide (opcode2 = OP_PUBKEYHASH) then if negb (size vch1 =? 20) then None else Some [vch1]
  else if decide (opcode2 = OP_SMALLINTEGER) then
    if bool_decide (opcode1 = OP_0) || ((opcode_val OP_1 <=? opcode_val opcode1) && (opcode_val opcode1 <=? opcode_val OP_16))
    then n ← DecodeOP_N opcode1; Some [[n]] else None
  else if negb (bool_decide (opcode1 = opcode2)) || negb (bool_decide (vch1 = vch2)) then None else Some [].
(** The loop on one template; each round reads an operation of the template. *)
Fixpoint match_template (fuel : nat) (pc1 pc2 : list Z) (vSolutionsRet : list valtype) : option (list valtype) :=
  match fuel with
  | O => None
  | S fuel' =>
      match pc1, pc2 with
      | [], [] => Some vSolutionsRet
      | _, _ =>
          '(opcode1, vch1, pc1) ← GetOp pc1;
          '(opcode2, vch2, pc2) ← GetOp pc2;
          if decide (opcode2 = OP_PUBKEYS) then
            let '(pc1, opcode1, vch1, vSolutionsRet) := push_pubkeys (S (length pc1)) pc1 opcode1 vch1 vSolutionsRet in
            '(opcode2, vch2, pc2) ← GetOp pc2;
            found ← match_op opcode1 vch1 opcode2 vch2;
            match_template fuel' pc1 pc2 (vSolutionsRet ++ found)
          else
            found ← match_op opcode1 vch1 opcode2 vch2;
            match_template fuel' pc1 pc2 (vSolutionsRet ++ found)
      end
  end.
(** The additional checks of a multisignature: the numbers at the front and at the back of the solutions. *)
Definition multisig_ok (vSolutionsRet : list valtype) : bool :=
  let m := default [] (head vSolutionsRet) in
  let n := List.last vSolutionsRet [] in
  negb ((m.[0] <? 1) || (n.[0] <? 1) || (n.[0] <? m.[0]) || negb (size vSolutionsRet - 2 =? n.[0])).
Fixpoint scan_templates (script1 : list Z) (l : list (txnouttype * list Z)) : bool * txnouttype * list valtype :=
  match l with
  | [] => (false, TX_NONSTANDARD, [])
  | (t, script2) :: l =>
      match match_template (S (length script2)) script1 script2 [] with
      | Some vSolutionsRet =>
          if decide (t = TX_MULTISIG) then (multisig_ok vSolutionsRet, t, vSolutionsRet) else (true, t, vSolutionsRet)
      | None => scan_templates script1 l
      end
  end.
(** The result, [typeRet] and [vSolutionsRet]; some failures leave [typeRet] as the caller had it.  [None] is the exception of
    the vector made from [begin() + 2] to [end()] when the end comes first. *)
Definition Solver (scriptPubKey : list Z) (typeRet : txnouttype) : option (bool * txnouttype * list valtype) :=
  if IsPayToScriptHash scriptPubKey then Some (true, TX_SCRIPTHASH, [take 20 (drop 2 scriptPubKey)])
  else if IsPayToPublicKeyHash scriptPubKey then Some (true, TX_PUBKEYHASH, [take 20 (drop 3 scriptPubKey)])
  else if IsZerocoinMint scriptPubKey then
    if 150 <? size scriptPubKey then Some (false, TX_ZEROCOINMINT, [])
    else if size scriptPubKey <? 2 then None
    else Some (true, TX_ZEROCOINMINT, [drop 2 scriptPubKey])
  else if IsSigmaMint scriptPubKey then
    if 37 <? size scriptPubKey then Some (false, TX_SIGMAMINT, [])
    else Some (true, TX_SIGMAMINT, [drop 1 scriptPubKey])
  else
    match IsWitnessProgram scriptPubKey with
    | Some (witnessversion, witnessprogram) =>
        if (witnessversion =? 0) && (size witnessprogram =? 20) then Some (true, TX_WITNESS_V0_KEYHASH, [witnessprogram])
        else if (witnessversion =? 0) && (size witnessprogram =? 32) then Some (true, TX_WITNESS_V0_SCRIPTHASH, [witnessprogram])
        else Some (false, typeRet, [])
    | None =>
        if (1 <=? size scriptPubKey) && (scriptPubKey.[0] =? opcode_val OP_RETURN) && IsPushOnly (drop 1 scriptPubKey)
        then Some (true, TX_NULL_DATA, [])
        else Some (scan_templates scriptPubKey mTemplates)
    end.

(** ** Destinations *)
Inductive CTxDestination := CNoDestination | CKeyID (h : list Z) | CScriptID (h : list Z).
Section destinations.
Context `{Crypto}.
(** [CPubKey::GetID] of a valid key. *)
Definition GetID (pubKey : list Z) : CTxDestination := CKeyID (Hash160 pubKey).
(** [None] is an exception or a failed assertion; then [None] for [false]. *)
Definition ExtractDestination (scriptPubKey : list Z) : option (option CTxDestination) :=
  '(ok, whichType, vSolutions) ← Solver scriptPubKey TX_NONSTANDARD;
  if negb ok then Some None
  else
    match whichType with
    | TX_PUBKEY => k ← vSolutions !! 0%nat; Some (GetID <$> CPubKey_Set k)
    | TX_PUBKEYHASH => k ← vSolutions !! 0%nat; if size k =? 20 then Some (Some (CKeyID k)) else None
    | TX_SCRIPTHASH => k ← vSolutions !! 0%nat; if size k =? 20 then Some (Some (CScriptID k)) else None
    | _ => Some None
    end.
(** The result, [typeRet] and [addressRet], and [nRequiredRet] where it is assigned. *)
Definition ExtractDestinations (scriptPubKey : list Z) (nRequiredRet : Z) : option (bool * txnouttype * list CTxDestination * Z) :=
  '(ok, typeRet, vSolutions) ← Solver scriptPubKey TX_NONSTANDARD;
  if negb ok then Some (false, typeRet, [], nRequiredRet)
  else if decide (typeRet = TX_NULL_DATA) then Some (false, typeRet, [], nRequiredRet)
  else if decide (typeRet = TX_MULTISIG) then
    m ← head vSolutions; nRequiredRet ← head m;
    let addressRet := map GetID (omap CPubKey_Set (drop 1 (take (length vSolutions - 1) vSolutions))) in
    Some (match addressRet with [] => false | _ => true end, typeRet, addressRet, nRequiredRet)
  else
    address ← ExtractDestination scriptPubKey;
    match address with
    | None => Some (false, typeRet, [], 1)
    | Some address => Some (true, typeRet, [address], 1)
    end.

(** ** Scripts for destinations *)
Definition GetScriptForDestination (dest : CTxDestination) : list Z :=
  match dest with
  | CNoDestination => []
  | CKeyID keyID => foldl append_item [] [IOp OP_DUP; IOp OP_HASH160; IData keyID; IOp OP_EQUALVERIFY; IOp OP_CHECKSIG]
  | CScriptID scriptID => foldl append_item [] [IOp OP_HASH160; IData scriptID; IOp OP_EQUAL]
  end.
Definition GetScriptForRawPubKey (pubKey : list Z) : list Z := foldl append_item [] [IData pubKey; IOp OP_CHECKSIG].
Definition GetScriptForMultisig (nRequired : Z) (keys : list (list Z)) : option (list Z) :=
  m ← EncodeOP_N nRequired;
  n ← EncodeOP_N (size keys);
  Some (foldl append_item [] (IOp m :: map IData keys ++ [IOp n; IOp OP_CHECKMULTISIG])).
Definition GetScriptForWitness (redeemscript : list Z) : option (list Z) :=
  '(ok, typ, vSolutions) ← Solver redeemscript TX_NONSTANDARD;
  let by_hash := Some (foldl append_item [] [IOp OP_0; IData (sha256 redeemscript)]) in
  if negb ok then by_hash
  else
    match typ with
    | TX_PUBKEY => k ← vSolutions !! 0%nat; Some (foldl append_item [] [IOp OP_0; IData (Hash160 k)])
    | TX_PUBKEYHASH => k ← vSolutions !! 0%nat; Some (foldl append_item [] [IOp OP_0; IData k])
    | _ => by_hash
    end.
End destinations.

(** ** The standard forms *)
(** A script whose operations are [l] and which is read to its end. *)
Notation reads s l := (parse s = (l, [])).
Inductive standard : list Z → txnouttype → list valtype → Prop :=
| std_pubkey s op k : reads s [(op, k); (OP_CHECKSIG, [])] → key_size k = true → standard s TX_PUBKEY [k]
| std_pubkeyhash s op h :
    reads s [(OP_DUP, []); (OP_HASH160, []); (op, h); (OP_EQUALVERIFY, []); (OP_CHECKSIG, [])] → size h = 20 →
    standard s TX_PUBKEYHASH [h]
| std_multisig s opm opn m keys :
    reads s ((opm, []) :: keys ++ [(opn, []); (OP_CHECKMULTISIG, [])]) →
    Forall (λ k, key_size k.2 = true) keys → EncodeOP_N m = Some opm → EncodeOP_N (size keys) = Some opn → 1 <= m <= size keys →
    standard s TX_MULTISIG ([m] :: map snd keys ++ [[size keys]])
| std_scripthash s h : s = foldl append_item [] [IOp OP_HASH160; IData h; IOp OP_EQUAL] → size h = 20 → standard s TX_SCRIPTHASH [h]
| std_null_data s r : s = opcode_val OP_RETURN :: r → IsPushOnly r = true → standard s TX_NULL_DATA []
| std_witness_keyhash s h : IsWitnessProgram s = Some (0, h) → size h = 20 → standard s TX_WITNESS_V0_KEYHASH [h]
| std_witness_scripthash s h : IsWitnessProgram s = Some (0, h) → size h = 32 → standard s TX_WITNESS_V0_SCRIPTHASH [h]
| std_zerocoinmint s x p : s = opcode_val OP_ZEROCOINMINT :: x :: p → size s <= 150 → standard s TX_ZEROCOINMINT [p]
| std_sigmamint s p : s = opcode_val OP_SIGMAMINT :: p → size s <= 37 → standard s TX_SIGMAMINT [p].

(** ** Reading operation by operation *)
Lemma reads_nil s : reads s [] ↔ s = [].
Proof.
  split; [|by intros ->]. rewrite parse_unfold. destruct (GetOp s) as [[[op d] r]|]; [|by intros [= ->]].
  destruct (parse r). discriminate.
Qed.
Lemma reads_cons s op d l : reads s ((op, d) :: l) ↔ ∃ r, GetOp s = Some (op, d, r) ∧ reads r l.
Proof.
  rewrite parse_unfold. destruct (GetOp s) as [[[op' d'] r]|]; [|split; [discriminate|by intros (? & ? & _)]].
  destruct (parse r) as [l' r'] eqn:E. split; [intros [= -> -> -> ->]; eauto|].
  intros (r0 & [= -> -> <-] & Er). rewrite E in Er. by injection Er as -> ->.
Qed.
(** The first byte is the first operation. *)
Lemma GetOp_first_byte b s op d r : GetOp (b :: s) = Some (op, d, r) → op = opcode_of b.
Proof.
  unfold GetOp, GetOp2. generalize (opcode_of b) as o. intros o E. repeat case_match; congruence.
Qed.
Lemma GetOp_large b s : opcode_val OP_PUSHDATA4 < b → GetOp (b :: s) = Some (opcode_of b, [], s).
Proof. intros Hb. unfold GetOp, GetOp2. by rewrite (proj2 (Z.leb_gt _ _)) by done. Qed.
Lemma reads_head s op d l : reads s ((op, d) :: l) → ∃ b r, s = b :: r ∧ op = opcode_of b.
Proof.
  intros (r & E & _)%reads_cons. destruct s as [|b s]; [by rewrite GetOp_nil in E|]. exists b, s. split; [done|by eapply GetOp_first_byte].
Qed.
Lemma starts_with_cons op b s : starts_with (b :: s) op = (b =? opcode_val op).
Proof.
  unfold starts_with. rewrite size_cons. pose proof (size_ge0 s). rewrite (proj2 (Z.ltb_lt 0 (1 + size s))) by lia. done.
Qed.
(** A script that begins with another operation is not of the form. *)
Lemma starts_with_reads s op d l op' : reads s ((op, d) :: l) → wf_opcode op' → op ≠ op' → starts_with s op' = false.
Proof.
  intros (b & r & -> & ->)%reads_head Hw Hne. rewrite starts_with_cons. apply Z.eqb_neq. intros ->. apply Hne. by rewrite opcode_of_val.
Qed.
Lemma starts_with_inv s op : starts_with s op = true → ∃ r, s = opcode_val op :: r.
Proof. destruct s as [|b s]; [by lazy|]. rewrite starts_with_cons. intros ->%Z.eqb_eq. eauto. Qed.

Lemma p2sh_reads s : IsPayToScriptHash s = true → ∃ h, size h = 20 ∧ s = foldl append_item [] [IOp OP_HASH160; IData h; IOp OP_EQUAL] ∧
  reads s [(OP_HASH160, []); (push_op h, h); (OP_EQUAL, [])].
Proof.
  rewrite IsPayToScriptHash_form. intros (h & Hh & ->). exists h. split_and!; [done..|].
  apply (parse_build [IOp OP_HASH160; IData h; IOp OP_EQUAL]). repeat constructor; simpl; lia || done.
Qed.
Lemma p2pkh_reads s : IsPayToPublicKeyHash s = true → ∃ h, size h = 20 ∧ take 20 (drop 3 s) = h ∧
  reads s [(OP_DUP, []); (OP_HASH160, []); (push_op h, h); (OP_EQUALVERIFY, []); (OP_CHECKSIG, [])].
Proof.
  rewrite IsPayToPublicKeyHash_form. intros (h & Hh & ->). exists h. split_and!; [done| |].
  - cbn -[push_data take drop]. unfold push_opcode. rewrite push_data_app, push_data_short, Hh by (by rewrite Hh).
    cbn [app opcode_val drop]. rewrite <- app_assoc. apply (list_len_inv _ 20) in Hh. rewrite drop_0. by rewrite take_app_length'.
  - apply (parse_build [IOp OP_DUP; IOp OP_HASH160; IData h; IOp OP_EQUALVERIFY; IOp OP_CHECKSIG]). repeat constructor; simpl; lia || done.
Qed.
Lemma witness_reads s v p : IsWitnessProgram s = Some (v, p) → ∃ a, s = a :: size p :: p ∧ 2 <= size p <= 40 ∧
  reads s [(opcode_of a, []); (push_op p, p)] ∧ DecodeOP_N (opcode_of a) = Some v.
Proof.
  destruct s as [|a [|b s]]; [discriminate..|]. rewrite IsWitnessProgram_cons. intros (Hs & -> & -> & Hv). exists a.
  split_and!; [done|lia..| |done]. apply reads_cons. exists (size s :: s). split.
  - apply DecodeOP_N_of in Hv as [[-> _]|[? _]]; [|apply GetOp_large; change (opcode_val OP_PUSHDATA4) with 0x4e; lia].
    unfold GetOp, GetOp2. cbn -[size]. pose proof (size_ge0 (size s :: s)). by rewrite (proj2 (Z.ltb_ge _ _)) by lia.
  - apply reads_cons. exists []. split; [|done]. rewrite <- (push_data_short s) by (apply Z.ltb_lt; lia).
    rewrite <- (app_nil_r (push_data [] s)). apply GetOp_push_data. lia.
Qed.

(** ** Matching a template *)
Lemma key_size_spec v : key_size v = true ↔ 33 <= size v <= 65.
Proof. unfold key_size. rewrite andb_true_iff, !Z.leb_le. done. Qed.
Lemma match_pubkey op v found : match_op op v OP_PUBKEY [] = Some found ↔ key_size v = true ∧ found = [v].
Proof.
  unfold match_op. rewrite decide_True by done. rewrite key_size_spec.
  destruct (Z.ltb_spec (size v) 33), (Z.ltb_spec 65 (size v)); simpl; split; try discriminate; try lia; [intros [= <-]|intros [_ ->]]; (lia || done || (split; [lia|done])).
Qed.
Lemma match_pubkeyhash op v found : match_op op v OP_PUBKEYHASH [] = Some found ↔ size v = 20 ∧ found = [v].
Proof. unfold match_op. rewrite decide_False, decide_True by done. destruct (Z.eqb_spec (size v) 20); simpl; naive_solver. Qed.
Lemma match_smallint op v found : match_op op v OP_SMALLINTEGER [] = Some found ↔ ∃ n, DecodeOP_N op = Some n ∧ found = [[n]].
Proof.
  unfold match_op. rewrite !decide_False, decide_True by done. unfold DecodeOP_N.
  destruct (decide (op = OP_0)); [rewrite bool_decide_true by done; simpl; naive_solver|]. rewrite bool_decide_false by done. rewrite orb_false_l.
  destruct (_ && _); simpl; naive_solver.
Qed.
Lemma match_exact op v op2 found : op2 ≠ OP_PUBKEY → op2 ≠ OP_PUBKEYHASH → op2 ≠ OP_SMALLINTEGER →
  match_op op v op2 [] = Some found ↔ op = op2 ∧ v = [] ∧ found = [].
Proof.
  intros ? ? ?. unfold match_op. rewrite !decide_False by done.
  case_bool_decide; [|simpl; naive_solver]. case_bool_decide; simpl; naive_solver.
Qed.

(** Small integers carry no data, and are encoded as they are decoded. *)
Lemma smallint_data s op d r n : GetOp s = Some (op, d, r) → DecodeOP_N op = Some n → d = [] ∧ EncodeOP_N n = Some op.
Proof.
  destruct s as [|b s]; [by rewrite GetOp_nil|]. intros E. pose proof (GetOp_first_byte _ _ _ _ _ E) as ->. rewrite DecodeOP_N_of, EncodeOP_N_spec.
  intros [[-> ->]|[Hb ->]]; (split; [|split; [lia|]]).
  - revert E. unfold GetOp, GetOp2. cbn -[size]. destruct (size s <? 0); [discriminate|]. by intros [= <- _].
  - done.
  - rewrite GetOp_large in E by (change (opcode_val OP_PUSHDATA4) with 0x4e; lia). by injection E as <- _.
  - rewrite (proj2 (Z.eqb_neq _ _)) by lia. f_equal. lia.
Qed.
Lemma decode_encode n op : EncodeOP_N n = Some op → DecodeOP_N op = Some n.
Proof. rewrite EncodeOP_N_spec. intros [Hn ->]. apply DecodeOP_N_of. destruct (Z.eqb_spec n 0); lia. Qed.

Lemma match_template_end f s sols r : match_template (S f) s [] sols = Some r ↔ reads s [] ∧ r = sols.
Proof.
  rewrite reads_nil. destruct s as [|b s]; cbn [match_template]; [naive_solver|].
  destruct (GetOp (b :: s)) as [[[? ?] ?]|]; cbn; naive_solver.
Qed.
Lemma match_template_step f s b pc2 sols r : opcode_val OP_PUSHDATA4 < b → opcode_of b ≠ OP_PUBKEYS →
  match_template (S f) s (b :: pc2) sols = Some r ↔
  ∃ op v s' found, GetOp s = Some (op, v, s') ∧ match_op op v (opcode_of b) [] = Some found ∧ match_template f s' pc2 (sols ++ found) = Some r.
Proof.
  intros Hb Hn. assert (match_template (S f) s (b :: pc2) sols =
    '(op, v, s') ← GetOp s; found ← match_op op v (opcode_of b) []; match_template f s' pc2 (sols ++ found)) as ->.
  { cbn [match_template]. rewrite GetOp_large by done. destruct s; (destruct (GetOp _) as [[[? ?] ?]|]; [|done]); cbn; by rewrite decide_False. }
  rewrite bind_Some. split.
  - intros ([[op v] s'] & E1 & (found & E2 & E3)%bind_Some). eauto 10.
  - intros (op & v & s' & found & E1 & E2 & E3). exists (op, v, s'). by rewrite E2.
Qed.
Lemma match_template_keys f s b pc2 sols r : opcode_val OP_PUSHDATA4 < b →
  match_template (S f) s (opcode_val OP_PUBKEYS :: b :: pc2) sols = Some r ↔
  ∃ op v s1 s' op' v' sols' found, GetOp s = Some (op, v, s1) ∧ push_pubkeys (S (length s1)) s1 op v sols = (s', op', v', sols') ∧
    match_op op' v' (opcode_of b) [] = Some found ∧ match_template f s' pc2 (sols' ++ found) = Some r.
Proof.
  intros Hb. assert (match_template (S f) s (opcode_val OP_PUBKEYS :: b :: pc2) sols =
    '(op, v, s1) ← GetOp s; let '(s', op', v', sols') := push_pubkeys (S (length s1)) s1 op v sols in
    found ← match_op op' v' (opcode_of b) []; match_template f s' pc2 (sols' ++ found)) as ->.
  { cbn [match_template]. rewrite GetOp_large by done. destruct s; (destruct (GetOp _) as [[[? ?] ?]|]; [|done]); cbn -[push_pubkeys]; by rewrite GetOp_large. }
  rewrite bind_Some. split.
  - intros ([[op v] s1] & E1 & E). destruct (push_pubkeys _ _ _ _ _) as [[[s' op'] v'] sols'] eqn:E2. apply bind_Some in E as (found & E3 & E4). eauto 15.
  - intros (op & v & s1 & s' & op' & v' & sols' & found & E1 & E2 & E3 & E4). exists (op, v, s1). split; [done|]. cbv beta iota. rewrite E2. by rewrite E3.
Qed.

(** The loop on the keys takes the longest run of operations with the size of a key. *)
Lemma push_pubkeys_sound f : ∀ pc op v sols pc' op' v' sols' l, (length pc < f)%nat → op' ≠ OP_INVALIDOPCODE →
  push_pubkeys f pc op v sols = (pc', op', v', sols') → reads pc' l →
  ∃ keys l0, reads pc l0 ∧ (op, v) :: l0 = keys ++ (op', v') :: l ∧ Forall (λ k, key_size k.2 = true) keys ∧ sols' = sols ++ map snd keys.
Proof.
  induction f as [|f IH]; intros pc op v sols pc' op' v' sols' l Hf Hop; [lia|]. cbn [push_pubkeys].
  destruct (key_size v) eqn:Hk; [|intros [= -> -> -> ->] Hl; exists [], l; split_and!; [done..|by rewrite app_nil_r]].
  destruct (GetOp2 pc) as [[[ok op1] v1] pc1] eqn:E. destruct ok; [|intros [= <- <- <- <-]; exfalso].
  - intros Er Hl. assert (GetOp pc = Some (op1, v1, pc1)) as E1 by (unfold GetOp; by rewrite E).
    pose proof (GetOp_suffix _ _ _ _ E1) as (? & _ & _ & Hlt).
    destruct (IH pc1 op1 v1 _ pc' op' v' sols' l ltac:(lia) Hop Er Hl) as (keys & l0 & R & Eq & Hks & ->).
    exists ((op, v) :: keys), ((op1, v1) :: l0). split_and!; [apply reads_cons; eauto|by rewrite Eq|by constructor|by rewrite <- app_assoc].
  - apply Hop. revert E. unfold GetOp2. generalize opcode_of as o. intros o E. repeat case_match; congruence.
Qed.
Lemma push_pubkeys_complete keys : ∀ f pc op v sols op' v' l l0, (length pc < f)%nat → key_size v' = false → Forall (λ k, key_size k.2 = true) keys →
  reads pc l0 → (op, v) :: l0 = keys ++ (op', v') :: l →
  ∃ pc', push_pubkeys f pc op v sols = (pc', op', v', sols ++ map snd keys) ∧ reads pc' l.
Proof.
  induction keys as [|[opk k] keys IH]; intros f pc op v sols op' v' l l0 Hf Hv Hks R Eq; (destruct f as [|f]; [lia|]); cbn [push_pubkeys].
  { injection Eq as -> -> ->. rewrite Hv, app_nil_r. eauto. }
  pose proof (Forall_inv Hks) as Hk. apply Forall_inv_tail in Hks. injection Eq as -> -> Eq. cbn [snd] in Hk. rewrite Hk.
  destruct l0 as [|[op1 v1] l0]; [by destruct keys|]. apply reads_cons in R as (pc1 & E & R).
  pose proof (GetOp_suffix _ _ _ _ E) as (? & _ & _ & Hlt). unfold GetOp in E. destruct (GetOp2 pc) as [[[[] ?] ?] ?]; [|done]. injection E as -> -> ->.
  destruct (IH f pc1 op1 v1 (sols ++ [k]) op' v' l l0 ltac:(lia) Hv Hks R Eq) as (pc' & -> & R'). exists pc'. split; [|done].
  by rewrite <- app_assoc.
Qed.

Notation tpl_pubkey := [0xfe; 0xac].
Notation tpl_pubkeyhash := [0x76; 0xa9; 0xfd; 0x88; 0xac].
Notation tpl_multisig := [0xfa; 0xfb; 0xfa; 0xae].
Ltac template_step := match goal with E : match_template _ _ (_ :: _) _ = Some _ |- _ =>
  apply match_template_step in E as (? & ? & ? & ? & ? & ? & E); [|done..] end.
Ltac template_goal := apply match_template_step; [done..|]; do 4 eexists; split_and!; [eassumption| |].
Lemma template_pubkey s r : match_template 3 s tpl_pubkey [] = Some r ↔
  ∃ op k, reads s [(op, k); (OP_CHECKSIG, [])] ∧ key_size k = true ∧ r = [k].
Proof.
  split.
  - intros E. template_step. template_step. apply match_template_end in E as [R ->].
    apply match_pubkey in H0 as [Hk ->]. apply match_exact in H2 as (-> & -> & ->); [|discriminate..].
    eexists _, _. split_and!; [|done|done]. apply reads_cons. eexists. split; [eassumption|]. apply reads_cons. eauto.
  - intros (op & k & R & Hk & ->). apply reads_cons in R as (r1 & E1 & R). apply reads_cons in R as (r2 & E2 & R).
    template_goal; [by apply match_pubkey|]. template_goal; [apply match_exact; done|]. by apply match_template_end.
Qed.
Lemma template_pubkeyhash s r : match_template 6 s tpl_pubkeyhash [] = Some r ↔
  ∃ op h, reads s [(OP_DUP, []); (OP_HASH160, []); (op, h); (OP_EQUALVERIFY, []); (OP_CHECKSIG, [])] ∧ size h = 20 ∧ r = [h].
Proof.
  split.
  - intros E. do 5 template_step. apply match_template_end in E as [R ->].
    apply match_exact in H0 as (-> & -> & ->); [|discriminate..]. apply match_exact in H2 as (-> & -> & ->); [|discriminate..].
    apply match_pubkeyhash in H4 as [Hk ->]. apply match_exact in H6 as (-> & -> & ->); [|discriminate..]. apply match_exact in H8 as (-> & -> & ->); [|discriminate..].
    eexists _, _. split_and!; [|done|done]. repeat (apply reads_cons; eexists; split; [eassumption|]). done.
  - intros (op & h & R & Hh & ->). do 5 (apply reads_cons in R as (? & ? & R)).
    do 2 (template_goal; [apply match_exact; done|]). template_goal; [by apply match_pubkeyhash|].
    do 2 (template_goal; [apply match_exact; done|]). by apply match_template_end.
Qed.
Lemma reads_app l1 : ∀ s l2, reads s (l1 ++ l2) → ∃ s', reads s' l2 ∧ (∀ x, reads s' x → reads s (l1 ++ x)).
Proof.
  induction l1 as [|[op d] l1 IH]; intros s l2 R; [exists s; eauto|]. apply reads_cons in R as (r & E & R).
  destruct (IH _ _ R) as (s' & R' & Hx). exists s'. split; [done|]. intros x Rx. apply reads_cons. eauto.
Qed.
Lemma template_multisig s r : match_template 5 s tpl_multisig [] = Some r ↔
  ∃ opm opn m n keys, reads s ((opm, []) :: keys ++ [(opn, []); (OP_CHECKMULTISIG, [])]) ∧ Forall (λ k, key_size k.2 = true) keys ∧
    EncodeOP_N m = Some opm ∧ EncodeOP_N n = Some opn ∧ r = [m] :: map snd keys ++ [[n]].
Proof.
  split.
  - intros E. template_step. apply match_smallint in H0 as (m & Hm & ->). destruct (smallint_data _ _ _ _ _ H Hm) as [-> Em].
    apply match_template_keys in E as (op & v & s1 & s' & opn & v' & sols & found & E1 & E2 & E3 & E); [|done].
    apply match_smallint in E3 as (n & Hn & ->). template_step. apply match_exact in H1 as (-> & -> & ->); [|discriminate..].
    apply match_template_end in E as [R ->].
    assert (reads s' [(OP_CHECKMULTISIG, [])]) as R' by (apply reads_cons; eauto).
    apply push_pubkeys_sound with (l := [(OP_CHECKMULTISIG, [])]) in E2 as (keys & l0 & R0 & Eq & Hk & ->); [|lia|by intros ->|done].
    assert (reads x1 (keys ++ [(opn, v'); (OP_CHECKMULTISIG, [])])) as R1 by (rewrite <- Eq; apply reads_cons; eauto).
    destruct (reads_app _ _ _ R1) as (s2 & R2 & _). apply reads_cons in R2 as (r2 & E4 & _). destruct (smallint_data _ _ _ _ _ E4 Hn) as [-> En].
    exists x, opn, m, n, keys. split_and!; [apply reads_cons; eauto|done..|]. by rewrite app_nil_r.
  - intros (opm & opn & m & n & keys & R & Hk & Em & En & ->). apply reads_cons in R as (r1 & E1 & R).
    template_goal; [apply match_smallint; eauto using decode_encode|]. apply match_template_keys; [done|].
    assert (∃ op v l0, keys ++ [(opn, []); (OP_CHECKMULTISIG, [])] = (op, v) :: l0) as (op & v & l0 & Eq) by (destruct keys as [|[]]; simpl; eauto).
    rewrite Eq in R. apply reads_cons in R as (r2 & E2 & R).
    destruct (push_pubkeys_complete keys (S (length r2)) r2 op v [[m]] opn [] [(OP_CHECKMULTISIG, [])] l0) as (s' & E3 & R'); [lia|done|done|done|done|].
    exists op, v, r2. do 5 eexists. split_and!; [done|exact E3|apply match_smallint; eauto using decode_encode|].
    apply reads_cons in R' as (r3 & E4 & R'). template_goal; [apply match_exact; done|]. apply match_template_end. split; [done|].
    by rewrite app_nil_r.
Qed.

(** ** [Solver] finds exactly the standard forms *)
Lemma multisig_ok_spec m n (keys : list valtype) : multisig_ok ([m] :: keys ++ [[n]]) = true ↔ 1 <= m <= n ∧ n = size keys.
Proof.
  unfold multisig_ok. rewrite app_comm_cons, List.last_last, <- app_comm_cons. cbn [head default].
  replace (size ([m] :: keys ++ [[n]]) - 2) with (size keys) by (unfold size; simpl; rewrite length_app; simpl; lia).
  change ((id [m]).[0]) with m. change ([n].[0]) with n. pose proof (size_ge0 keys).
  rewrite negb_true_iff, !orb_false_iff, !Z.ltb_ge, negb_false_iff, Z.eqb_eq. lia.
Qed.
Lemma size_map {A B} (f : A → B) l : size (map f l) = size l.
Proof. unfold size. by rewrite length_map. Qed.
Lemma scan_exact s t sols : scan_templates s mTemplates = (true, t, sols) ↔ (t = TX_PUBKEY ∨ t = TX_PUBKEYHASH ∨ t = TX_MULTISIG) ∧ standard s t sols.
Proof.
  change mTemplates with [(TX_PUBKEY, tpl_pubkey); (TX_PUBKEYHASH, tpl_pubkeyhash); (TX_MULTISIG, tpl_multisig)].
  cbn [scan_templates length]. pose proof (template_pubkey s) as T1. pose proof (template_pubkeyhash s) as T2. pose proof (template_multisig s) as T3.
  split.
  - destruct (match_template 3 _ _ _) as [r1|]; [|destruct (match_template 6 _ _ _) as [r2|]; [|destruct (match_template 5 _ _ _) as [r3|]]]; cbn.
    + intros [= <- <-]. destruct (proj1 (T1 r1) eq_refl) as (op & k & R & Hk & ->). split; [auto|exact (std_pubkey _ _ _ R Hk)].
    + intros [= <- <-]. destruct (proj1 (T2 r2) eq_refl) as (op & k & R & Hk & ->). split; [auto|exact (std_pubkeyhash _ _ _ R Hk)].
    + intros [= Hok <- <-]. split; [auto|]. destruct (proj1 (T3 r3) eq_refl) as (opm & opn & m & n & keys & R & Hk & Em & En & ->).
      apply multisig_ok_spec in Hok as [Hm ->]. rewrite size_map in *. by apply std_multisig with opm opn.
    + discriminate.
  - intros [Ht Hs]. destruct Hs as [s op k R Hk|s op h R Hh|s opm opn m keys R Hk Em En Hm| | | | | |]; try (destruct Ht as [?|[?|?]]; discriminate).
    + by rewrite (proj2 (T1 [k])) by eauto.
    + destruct (match_template 3 _ _ _) as [r1|].
      { destruct (proj1 (T1 r1) eq_refl) as (? & ? & R' & _). rewrite R in R'. discriminate. }
      by rewrite (proj2 (T2 [h])) by eauto.
    + destruct (match_template 3 _ _ _) as [r1|].
      { destruct (proj1 (T1 r1) eq_refl) as (? & ? & R' & _). rewrite R in R'. destruct keys as [|? [|]]; discriminate. }
      destruct (match_template 6 _ _ _) as [r1|].
      { destruct (proj1 (T2 r1) eq_refl) as (? & ? & R' & _). rewrite R in R'. injection R' as -> _. apply decode_encode in Em. discriminate. }
      rewrite (proj2 (T3 ([m] :: map snd keys ++ [[size keys]]))) by eauto 15. cbn.
      by rewrite (proj2 (multisig_ok_spec _ _ _)) by (rewrite size_map; lia).
Qed.

(** The forms that are recognised by their first byte, and the rest. *)
Lemma p2sh_byte b r : IsPayToScriptHash (b :: r) = true → b = 0xa9.
Proof. unfold IsPayToScriptHash. rewrite !andb_true_iff, !Z.eqb_eq. by intros (((_ & E) & _) & _). Qed.
Lemma p2pkh_byte b r : IsPayToPublicKeyHash (b :: r) = true → b = 0x76.
Proof. unfold IsPayToPublicKeyHash. rewrite !andb_true_iff, !Z.eqb_eq. by intros (((((_ & E) & _) & _) & _) & _). Qed.
Lemma Solver_not_hash b r t0 : b ≠ 0xa9 → b ≠ 0x76 → Solver (b :: r) t0 =
  if b =? 0xc1 then
    if 150 <? size (b :: r) then Some (false, TX_ZEROCOINMINT, []) else if size (b :: r) <? 2 then None else Some (true, TX_ZEROCOINMINT, [drop 2 (b :: r)])
  else if b =? 0xc3 then if 37 <? size (b :: r) then Some (false, TX_SIGMAMINT, []) else Some (true, TX_SIGMAMINT, [r])
  else match IsWitnessProgram (b :: r) with
    | Some (v, p) =>
        if (v =? 0) && (size p =? 20) then Some (true, TX_WITNESS_V0_KEYHASH, [p])
        else if (v =? 0) && (size p =? 32) then Some (true, TX_WITNESS_V0_SCRIPTHASH, [p]) else Some (false, t0, [])
    | None => if (b =? 0x6a) && IsPushOnly r then Some (true, TX_NULL_DATA, []) else Some (scan_templates (b :: r) mTemplates)
    end.
Proof.
  intros H1 H2. unfold Solver. destruct (IsPayToScriptHash (b :: r)) eqn:E1; [by apply p2sh_byte in E1|].
  destruct (IsPayToPublicKeyHash (b :: r)) eqn:E2; [by apply p2pkh_byte in E2|]. unfold IsZerocoinMint, IsSigmaMint. rewrite !starts_with_cons.
  change (opcode_val OP_ZEROCOINMINT) with 0xc1. change (opcode_val OP_SIGMAMINT) with 0xc3. change ((b :: r).[0]) with b. change (drop 1 (b :: r)) with r.
  assert ((1 <=? size (b :: r)) = true) as -> by (apply Z.leb_le; rewrite size_cons; pose proof (size_ge0 r); lia). done.
Qed.
(** A template applies only to scripts that are no witness program. *)
Lemma witness_none s l : reads s l → (∀ a p, 2 <= size p → l ≠ [(opcode_of a, []); (push_op p, p)]) → IsWitnessProgram s = None.
Proof.
  intros R Hl. destruct (IsWitnessProgram s) as [[v p]|] eqn:E; [|done]. apply witness_reads in E as (a & _ & Hp & R' & _).
  rewrite R in R'. injection R' as ->. by destruct (Hl a p ltac:(lia)).
Qed.
Lemma Solver_scan b r t0 : b ≠ 0xa9 → b ≠ 0x76 → b ≠ 0xc1 → b ≠ 0xc3 → b ≠ 0x6a → IsWitnessProgram (b :: r) = None → Solver (b :: r) t0 = Some (scan_templates (b :: r) mTemplates).
Proof.
  intros ? ? ? ? ? Hw. rewrite Solver_not_hash by done. rewrite Hw. by rewrite !(proj2 (Z.eqb_neq b _)) by done.
Qed.
Lemma p2sh_hash h : size h = 20 → take 20 (drop 2 (foldl append_item [] [IOp OP_HASH160; IData h; IOp OP_EQUAL])) = h.
Proof.
  intros Hh. cbn -[push_data take drop]. unfold push_opcode. rewrite push_data_app, push_data_short, Hh by (by rewrite Hh).
  cbn [app opcode_val drop]. rewrite drop_0. apply (list_len_inv _ 20) in Hh. by rewrite take_app_length'.
Qed.
Lemma Solver_sound s t0 t sols : Solver s t0 = Some (true, t, sols) → standard s t sols.
Proof.
  intros E. destruct s as [|b r]; [discriminate|]. destruct (Z.eq_dec b 0xa9) as [->|N1]; [|destruct (Z.eq_dec b 0x76) as [->|N2]].
  - unfold Solver in E. destruct (IsPayToScriptHash (0xa9 :: r)) eqn:Ep.
    { remember (take 20 (drop 2 (0xa9 :: r))) as x eqn:Ex. injection E as <- <-. apply p2sh_reads in Ep as (h & Hh & Es & _).
      rewrite Es, p2sh_hash in Ex by done. subst x. by apply std_scripthash. }
    destruct (IsPayToPublicKeyHash (0xa9 :: r)) eqn:Eq; [by apply p2pkh_byte in Eq|]. unfold IsZerocoinMint, IsSigmaMint in E. rewrite !starts_with_cons in E.
    destruct (IsWitnessProgram (0xa9 :: r)) as [[v p]|] eqn:Ew; [apply witness_reads in Ew as (? & [= <- _] & _ & _ & ?); discriminate|].
    cbn -[scan_templates mTemplates IsPushOnly size] in E. rewrite andb_false_r in E. apply (inj Some) in E. by apply scan_exact in E as [_ ?].
  - unfold Solver in E. destruct (IsPayToScriptHash (0x76 :: r)) eqn:Ep; [by apply p2sh_byte in Ep|].
    destruct (IsPayToPublicKeyHash (0x76 :: r)) eqn:Eq.
    { apply p2pkh_reads in Eq as (h & Hh & Ex & R). rewrite Ex in E. injection E as <- <-. by apply std_pubkeyhash with (push_op h). }
    unfold IsZerocoinMint, IsSigmaMint in E. rewrite !starts_with_cons in E.
    destruct (IsWitnessProgram (0x76 :: r)) as [[v p]|] eqn:Ew; [apply witness_reads in Ew as (? & [= <- _] & _ & _ & ?); discriminate|].
    cbn -[scan_templates mTemplates IsPushOnly size] in E. rewrite andb_false_r in E. apply (inj Some) in E. by apply scan_exact in E as [_ ?].
  - rewrite Solver_not_hash in E by done. destruct (Z.eqb_spec b 0xc1) as [->|N3]; [|destruct (Z.eqb_spec b 0xc3) as [->|N4]].
    + destruct (Z.ltb_spec 150 (size (0xc1 :: r))); [discriminate|]. destruct r as [|x r]; [discriminate|].
      destruct (Z.ltb_spec (size (0xc1 :: x :: r)) 2); [discriminate|]. injection E as <- <-. by apply std_zerocoinmint with x.
    + destruct (Z.ltb_spec 37 (size (0xc3 :: r))); [discriminate|]. injection E as <- <-. by apply std_sigmamint.
    + destruct (IsWitnessProgram (b :: r)) as [[v p]|] eqn:Ew.
      { destruct (Z.eqb_spec v 0) as [->|]; [|discriminate]. cbn [andb] in E. destruct (Z.eqb_spec (size p) 20); [injection E as <- <-; by apply std_witness_keyhash|].
        destruct (Z.eqb_spec (size p) 32); [injection E as <- <-; by apply std_witness_scripthash|discriminate]. }
      destruct (Z.eqb_spec b 0x6a) as [->|]; cbn [andb] in E; [destruct (IsPushOnly r) eqn:Er; [injection E as <- <-; by apply std_null_data with r|]|];
        apply (inj Some) in E; by apply scan_exact in E as [_ ?].
Qed.
Lemma Solver_multisig s t0 opm opn m keys : reads s ((opm, []) :: keys ++ [(opn, []); (OP_CHECKMULTISIG, [])]) → Forall (λ k, key_size k.2 = true) keys →
  EncodeOP_N m = Some opm → EncodeOP_N (size keys) = Some opn → 1 <= m <= size keys → Solver s t0 = Some (true, TX_MULTISIG, [m] :: map snd keys ++ [[size keys]]).
Proof.
  intros R Hk Em En Hm. destruct (reads_head _ _ _ _ R) as (b & r & -> & ->). pose proof Em as Eb. apply decode_encode, DecodeOP_N_of in Eb.
  rewrite Solver_scan; [|lia..|].
  - f_equal. apply scan_exact. split; [auto|]. by apply std_multisig with (opcode_of b) opn.
  - apply (witness_none _ _ R). intros a p _. by destruct keys as [|? [|? [|]]].
Qed.
Lemma Solver_complete s t0 t sols : standard s t sols → Solver s t0 = Some (true, t, sols).
Proof.
  destruct 1 as [s op k R Hk|s op h R Hh|s opm opn m keys R Hk Em En Hm|s h -> Hh|s r -> Hr|s h Hw Hh|s h Hw Hh|s x p -> Hs|s p -> Hs].
  - destruct (reads_head _ _ _ _ R) as (b & r & -> & ->). pose proof R as (r' & E & _)%reads_cons.
    assert (b <= 0x4e).
    { destruct (Z.le_gt_cases b 0x4e) as [|Hb]; [done|]. rewrite GetOp_large in E by done. injection E as <- _. discriminate. }
    rewrite Solver_scan; [|lia..|]; [f_equal; apply scan_exact; split; [auto|exact (std_pubkey _ _ _ R Hk)]|].
    apply (witness_none _ _ R). intros a p Hp [= _ _ _ <-]. done.
  - assert (scan_templates s mTemplates = (true, TX_PUBKEYHASH, [h])) as Es by (apply scan_exact; split; [auto|exact (std_pubkeyhash _ _ _ R Hh)]).
    assert (IsWitnessProgram s = None) as Ew by (by apply (witness_none _ _ R)).
    destruct (reads_head _ _ _ _ R) as (b & r & -> & Hb). apply (f_equal opcode_val) in Hb. rewrite opcode_val_of in Hb. cbn in Hb. subst b.
    unfold Solver. destruct (IsPayToScriptHash (0x76 :: r)) eqn:Ep; [by apply p2sh_byte in Ep|].
    destruct (IsPayToPublicKeyHash (0x76 :: r)) eqn:Eq; [apply p2pkh_reads in Eq as (h' & _ & -> & R'); rewrite R in R'; by injection R' as _ <-|].
    unfold IsZerocoinMint, IsSigmaMint. rewrite !starts_with_cons, Ew, Es. by rewrite andb_false_r.
  - by apply Solver_multisig with opm opn.
  - unfold Solver. by rewrite (proj2 (IsPayToScriptHash_form _)), p2sh_hash by eauto.
  - rewrite Solver_not_hash, Hr by done. change (opcode_val OP_RETURN) with 0x6a. destruct (IsWitnessProgram (0x6a :: r)) as [[v p]|] eqn:Ew; [|done].
    apply witness_reads in Ew as (? & [= <- _] & _ & _ & ?). discriminate.
  - destruct (witness_reads _ _ _ Hw) as (a & Es & _ & _ & Ha). apply DecodeOP_N_of in Ha. assert (a = 0) as -> by lia. rewrite Es in Hw |- *.
    rewrite Solver_not_hash, Hw, Hh by done. done.
  - destruct (witness_reads _ _ _ Hw) as (a & Es & _ & _ & Ha). apply DecodeOP_N_of in Ha. assert (a = 0) as -> by lia. rewrite Es in Hw |- *.
    rewrite Solver_not_hash, Hw, Hh by done. done.
  - rewrite Solver_not_hash by done. cbn -[size Z.ltb]. rewrite !(proj2 (Z.ltb_ge _ _)); [done| |done]. rewrite !size_cons. pose proof (size_ge0 p). lia.
  - rewrite Solver_not_hash by done. cbn -[size Z.ltb]. by rewrite !(proj2 (Z.ltb_ge _ _)).
Qed.
Lemma Solver_throws s t0 : Solver s t0 = None ↔ s = [opcode_val OP_ZEROCOINMINT].
Proof.
  split; [|by intros ->]. unfold Solver. intros E. destruct (IsPayToScriptHash s); [discriminate|]. destruct (IsPayToPublicKeyHash s); [discriminate|].
  destruct (IsZerocoinMint s) eqn:Ez.
  - apply starts_with_inv in Ez as (r & ->). destruct (150 <? _); [discriminate|]. destruct (Z.ltb_spec (size (opcode_val OP_ZEROCOINMINT :: r)) 2) as [Hs|]; [|discriminate].
    destruct r as [|x r]; [done|]. rewrite !size_cons in Hs. pose proof (size_ge0 r). lia.
  - exfalso. revert E. repeat case_match; discriminate.
Qed.
(** C13. [Solver] recognises exactly the standard output scripts, with the keys and hashes that they contain: a key followed by
    [OP_CHECKSIG]; the hash of a key; [m] of [n] keys with [1 <= m <= n <= 16]; the hash of a script; a push-only script after
    [OP_RETURN]; witness programs of version 0 with 20 or 32 bytes; and the mints.  The pattern matching on the templates, with its
    nested loops, finds the reading of the whole script.  It throws exactly on the script that consists of [OP_ZEROCOINMINT]. *)
Theorem Solver_exact s typeRet :
  (∀ t vSolutions, Solver s typeRet = Some (true, t, vSolutions) ↔ standard s t vSolutions) ∧
  (Solver s typeRet = None ↔ s = [opcode_val OP_ZEROCOINMINT]).
Proof. split; [|apply Solver_throws]. intros t sols. split; [apply Solver_sound|apply Solver_complete]. Qed.

(** ** Destinations and their scripts *)
Lemma valid_key_size k : CPubKey_Set k = Some k → key_size k = true.
Proof.
  unfold CPubKey_Set. rewrite key_size_spec. destruct k as [|b k]; [discriminate|].
  destruct (negb (CPubKey_GetLen b =? 0) && (CPubKey_GetLen b =? size (b :: k))) eqn:E; [|discriminate]. intros _.
  apply andb_true_iff in E as [E1 E2]. apply Z.eqb_eq in E2. rewrite <- E2. apply negb_true_iff, Z.eqb_neq in E1.
  revert E1. unfold CPubKey_GetLen. repeat case_match; lia.
Qed.
Lemma omap_valid keys : Forall (λ k, CPubKey_Set k = Some k) keys → omap CPubKey_Set keys = keys.
Proof. induction 1 as [|k keys Hk _ IH]; [done|]. cbn. by rewrite Hk, IH. Qed.
Lemma encode_small n : 1 <= n <= 16 → EncodeOP_N n = Some (opcode_of (n + 0x50)).
Proof. intros Hn. apply EncodeOP_N_spec. split; [lia|]. by rewrite (proj2 (Z.eqb_neq _ _)) by lia. Qed.
Lemma wf_opcode_of b : 0 <= b < 256 → wf_opcode (opcode_of b).
Proof.
  intros Hb. destruct (opcode_of b) as [] eqn:E; try exact I. pose proof (opcode_val_of b) as Ev. rewrite E in Ev. cbn in Ev. subst. split; done.
Qed.
Lemma wf_small n : 1 <= n <= 16 → wf_item (IOp (opcode_of (n + 0x50))).
Proof. intros Hn. split; [apply wf_opcode_of; lia|]. rewrite opcode_val_of. change (opcode_val OP_PUSHDATA4) with 0x4e. lia. Qed.
Lemma multisig_reads m keys : 1 <= m <= 16 → 1 <= size keys <= 16 → Forall (λ k, key_size k = true) keys →
  ∃ s, GetScriptForMultisig m keys = Some s ∧
  reads s ((opcode_of (m + 0x50), []) :: map (λ k, (push_op k, k)) keys ++ [(opcode_of (size keys + 0x50), []); (OP_CHECKMULTISIG, [])]).
Proof.
  intros Hm Hn Hk. unfold GetScriptForMultisig. rewrite !encode_small by done. eexists. split; [reflexivity|]. rewrite parse_build.
  - cbn [map]. rewrite map_app, map_map. done.
  - constructor; [by apply wf_small|]. apply Forall_app. split; [|constructor; [by apply wf_small|repeat constructor]].
    apply Forall_map. eapply Forall_impl; [|exact Hk]. intros k Hks. apply key_size_spec in Hks. cbn. lia.
Qed.
Section roundtrip.
Context `{Crypto}.
Lemma Extract_multisig m keys : 1 <= m <= size keys → size keys <= 16 → Forall (λ k, CPubKey_Set k = Some k) keys →
  ∃ s, GetScriptForMultisig m keys = Some s ∧ ExtractDestinations s 0 = Some (true, TX_MULTISIG, map GetID keys, m).
Proof.
  intros Hm Hn Hk. assert (Forall (λ k, key_size k = true) keys) as Hks by (eapply Forall_impl; [apply valid_key_size|exact Hk]).
  destruct (multisig_reads m keys ltac:(lia) ltac:(lia) Hks) as (s & Es & R). exists s. split; [done|].
  unfold ExtractDestinations. rewrite (Solver_multisig s TX_NONSTANDARD _ _ m _ R).
  - rewrite map_map, map_id. cbn -[size]. rewrite length_app, Nat.add_1_r. cbn -[size].
    rewrite take_app_length by done. rewrite omap_valid by done. destruct keys; [unfold size in Hm; simpl in Hm; lia|done].
  - apply Forall_map. done.
  - by apply encode_small; lia.
  - rewrite size_map. apply encode_small. lia.
  - by rewrite size_map.
Qed.
Lemma witness_script p : 2 <= size p <= 40 → IsWitnessProgram (foldl append_item [] [IOp OP_0; IData p]) = Some (0, p).
Proof. intros Hp. apply IsWitnessProgram_form. split; [done|]. by exists OP_0. Qed.
(** What the scripts built for a destination mean: the destination of a key hash, of a script hash and of a raw key is read
    back from its script; from an [m] of [n] script the [n] keys and [m] are read back; and the script built for a witness is a
    witness program of version 0 with a 20-byte or a 32-byte hash. *)
Theorem destination_roundtrip h k m keys redeem :
  size h = 20 → CPubKey_Set k = Some k → Forall (λ k, CPubKey_Set k = Some k) keys → 1 <= m <= size keys → size keys <= 16 →
  redeem ≠ [opcode_val OP_ZEROCOINMINT] → (∀ x, size (ripemd160 x) = 20) → (∀ x, size (sha256 x) = 32) →
  ExtractDestination (GetScriptForDestination (CKeyID h)) = Some (Some (CKeyID h)) ∧
  ExtractDestination (GetScriptForDestination (CScriptID h)) = Some (Some (CScriptID h)) ∧
  ExtractDestination (GetScriptForRawPubKey k) = Some (Some (GetID k)) ∧
  (∃ s, GetScriptForMultisig m keys = Some s ∧ ExtractDestinations s 0 = Some (true, TX_MULTISIG, map GetID keys, m)) ∧
  (∃ w p, GetScriptForWitness redeem = Some w ∧ IsWitnessProgram w = Some (0, p) ∧ (size p = 20 ∨ size p = 32)).
Proof.
  intros Hh Hk Hks Hm Hn Hr H160 H256. split_and!.
  - unfold ExtractDestination. rewrite (Solver_complete _ _ TX_PUBKEYHASH [h]); [cbn -[size]; by rewrite Hh|].
    apply std_pubkeyhash with (push_op h); [|done]. apply parse_build. repeat constructor; simpl; lia || done.
  - unfold ExtractDestination. rewrite (Solver_complete _ _ TX_SCRIPTHASH [h]); [cbn -[size]; by rewrite Hh|by apply std_scripthash].
  - pose proof (valid_key_size k Hk) as Hs. unfold ExtractDestination. rewrite (Solver_complete _ _ TX_PUBKEY [k]); [cbn; by rewrite Hk|].
    apply std_pubkey with (push_op k); [|done]. apply key_size_spec in Hs. apply (parse_build [IData k; IOp OP_CHECKSIG]). repeat constructor; simpl; lia || done.
  - by apply Extract_multisig.
  - unfold GetScriptForWitness. destruct (Solver redeem TX_NONSTANDARD) as [[[ok t] sols]|] eqn:E; [|by apply Solver_throws in E].
    assert (∀ p, size p = 20 ∨ size p = 32 → ∃ w p', Some (foldl append_item [] [IOp OP_0; IData p]) = Some w ∧ IsWitnessProgram w = Some (0, p') ∧ (size p' = 20 ∨ size p' = 32)) as Hw.
    { intros p Hp. exists (foldl append_item [] [IOp OP_0; IData p]), p. split_and!; [done| |done]. apply witness_script. lia. }
    destruct ok; [|apply Hw; auto]. apply Solver_sound in E.
    destruct E; (apply Hw || (cbn -[foldl append_item]; apply Hw)); unfold Hash160; auto.
Qed.
End roundtrip.
Lemma destination_roundtrip_witness : ∃ s : list Z, GetScriptForMultisig 1 [2 :: replicate 32 7; 3 :: replicate 32 8] = Some s.
Proof.
  pose (c := {| ripemd160 := λ _, replicate 20 0; sha1 := λ _, []; sha256 := λ _, replicate 32 0; CheckLowS := λ _, true; Verify := λ _ _ _, true |}).
  destruct (destination_roundtrip (H := c) (replicate 20 1) (2 :: replicate 32 7) 1 [2 :: replicate 32 7; 3 :: replicate 32 8] [])
    as (_ & _ & _ & (s & E & _) & _); [reflexivity|reflexivity|repeat constructor|done|done|done|reflexivity|reflexivity|].
  exists s. exact E.
Defined.

(** In a standard script that begins with [OP_RETURN] only pushes follow. *)
Lemma return_key s t sols d pc op k r : standard s t sols → t ≠ TX_PUBKEY → GetOp s = Some (OP_RETURN, d, pc) → GetOp pc = Some (op, k, r) →
  ∃ r' op' r'', s = opcode_val OP_RETURN :: r' ∧ IsPushOnly r' = true ∧ GetOp r' = Some (op', k, r'').
Proof.
  intros Hs Ht E1 E2. destruct s as [|b s]; [by rewrite GetOp_nil in E1|]. pose proof (GetOp_first_byte _ _ _ _ _ E1) as Hb.
  apply (f_equal opcode_val) in Hb. rewrite opcode_val_of in Hb. cbn in Hb. subst b. rewrite GetOp_large in E1 by done. injection E1 as _ <-.
  apply (Solver_complete _ TX_NONSTANDARD) in Hs. rewrite Solver_not_hash in Hs by done. cbn -[IsWitnessProgram IsPushOnly scan_templates mTemplates] in Hs.
  destruct (IsWitnessProgram (0x6a :: s)) as [[v p]|] eqn:Ew; [apply witness_reads in Ew as (? & [= <- _] & _ & _ & ?); discriminate|].
  destruct (IsPushOnly s) eqn:Ep; [by eexists _, _, _|]. exfalso. apply (inj Some), scan_exact in Hs as [_ Hs].
  assert (∀ op d l, reads (0x6a :: s) ((op, d) :: l) → op = OP_RETURN) as Hr.
  { intros op' d' l (x & E & _)%reads_cons. rewrite GetOp_large in E by done. by injection E as <-. }
  inversion Hs; subst; try done; try (match goal with R : reads _ _ |- _ => apply Hr in R; subst end).
  all: try discriminate. all: try match goal with E : EncodeOP_N _ = Some OP_RETURN |- _ => apply decode_encode in E; discriminate end.
  all: try congruence.
Qed.
End Standard.
