(* ===== verification/InterpreterSafety.v ===== *)
(** * InterpreterSafety: the script machine stays within its limits

    A small program logic for the interpreter's error monad: [wp r Q] says that [r] is an
    error of the script, a number that does not decode, or a value that satisfies [Q]; in
    particular that it is neither an access outside a stack, nor a failed assertion, nor an operation that C++ leaves undefined. *)
From S2P Require Import Prelude Serialize Uint256 Script Transaction Interpreter.

Module InterpreterSafety.
Import Script Interpreter.

(** ** The logic *)
Definition wp {A} (r : Res A) (Q : A → Prop) : Prop :=
  match r with
  | inr a => Q a
  | inl (Err _) | inl (Throw NumError) => True
  | _ => False
  end.

Lemma wp_ret {A} (a : A) (Q : A → Prop) : Q a → wp (mret a) Q.
Proof. done. Qed.
Lemma wp_err {A} e (Q : A → Prop) : wp (set_error e) Q.
Proof. done. Qed.
Lemma wp_bind {A B} (m : Res A) (k : A → Res B) Q : wp m (λ a, wp (k a) Q) → wp (m ≫= k) Q.
Proof. by destruct m as [[| [| |] | |]|]. Qed.
Lemma wp_mono {A} (r : Res A) (P Q : A → Prop) : wp r P → (∀ a, P a → Q a) → wp r Q.
Proof. destruct r as [[| [| |] | |]|]; simpl; auto. Qed.
Lemma wp_if {A} (b : bool) (r1 r2 : Res A) Q : (b = true → wp r1 Q) → (b = false → wp r2 Q) → wp (if b then r1 else r2) Q.
Proof. destruct b; auto. Qed.

Lemma wp_num v m n (Q : Z → Prop) : (∀ z, CScriptNum v m n = inr z → Q z) → wp (num v m n) Q.
Proof. unfold num. destruct (CScriptNum v m n) as [|z]; [done|]. intros HQ. by apply HQ. Qed.

(** Primitives on stacks whose elements satisfy [P]. *)
Section stacks.
Context (P : valtype → Prop).

Lemma wp_need n s (Q : unit → Prop) : (n <= size s → Q tt) → wp (need n s) Q.
Proof. intros HQ. unfold need. destruct (Z.ltb_spec (size s) n); [done|]. simpl. auto. Qed.
Lemma wp_stacktop s i (Q : valtype → Prop) : Forall P s → (0 < i)%nat → Z.of_nat i <= size s →
  (∀ v, P v → Q v) → wp (stacktop s i) Q.
Proof.
  intros Hs Hi Hsz HQ. unfold stacktop. destruct i as [|i]; [lia|]. destruct (s !! _) as [v|] eqn:E.
  - apply HQ. by eapply Forall_lookup_1.
  - apply lookup_ge_None in E. unfold size in Hsz. lia.
Qed.
Lemma wp_popstack s (Q : stack_t → Prop) : Forall P s → 1 <= size s →
  (∀ s', Forall P s' → size s' = size s - 1 → Q s') → wp (popstack s) Q.
Proof.
  intros Hs Hsz HQ. destruct s as [|v s]; [unfold size in Hsz; simpl in Hsz; lia|]. simpl.
  apply Forall_cons_iff in Hs as [_ Hs]. apply HQ; [done|]. rewrite size_cons. lia.
Qed.
Lemma wp_swap_top s i j (Q : stack_t → Prop) : Forall P s → (0 < i)%nat → (0 < j)%nat → Z.of_nat i <= size s → Z.of_nat j <= size s →
  (∀ s', Forall P s' → size s' = size s → Q s') → wp (swap_top s i j) Q.
Proof.
  intros Hs Hi Hj Hsi Hsj HQ. unfold swap_top. apply wp_bind, wp_stacktop; [done..|]. intros a Ha.
  apply wp_bind, wp_stacktop; [done..|]. intros b Hb. apply HQ; [by repeat apply Forall_insert|].
  unfold size. by rewrite !length_insert.
Qed.
Lemma wp_erase s i (Q : stack_t → Prop) : Forall P s → (0 < i)%nat → Z.of_nat i <= size s → (∀ s', Forall P s' → size s' = size s - 1 → Q s') → wp (erase s i) Q.
Proof.
  intros Hs Hi Hsz HQ. unfold erase, size in *. rewrite (proj2 (Nat.leb_le 1 i)), (proj2 (Nat.leb_le i (length s))) by lia. cbn [andb]. apply HQ.
  - apply Forall_app. split; [by apply Forall_take|by apply Forall_drop].
  - rewrite length_app, length_take, length_drop. lia.
Qed.
Lemma wp_erase_range s i j (Q : stack_t → Prop) : Forall P s → (j <= i)%nat → Z.of_nat i <= size s → (∀ s', Forall P s' → size s' = size s - Z.of_nat (i - j) → Q s') → wp (erase_range s i j) Q.
Proof.
  intros Hs Hj Hsz HQ. unfold erase_range, size in *. rewrite (proj2 (Nat.leb_le j i)), (proj2 (Nat.leb_le i (length s))) by lia. cbn [andb]. apply HQ.
  - apply Forall_app. split; [by apply Forall_take|by apply Forall_drop].
  - rewrite length_app, length_take, length_drop. lia.
Qed.
Lemma wp_insert_at s i v (Q : stack_t → Prop) : Forall P s → P v → Z.of_nat i <= size s → (∀ s', Forall P s' → size s' = size s + 1 → Q s') → wp (insert_at s i v) Q.
Proof.
  intros Hs Hv Hsz HQ. unfold insert_at, size in *. rewrite (proj2 (Nat.leb_le i (length s))) by lia. apply HQ.
  - apply Forall_app. split; [by apply Forall_take|]. apply Forall_cons_iff. split; [done|by apply Forall_drop].
  - rewrite length_app, length_take. cbn [length]. rewrite length_drop. lia.
Qed.
End stacks.

(** ** Elements *)
Definition ok_elem (v : valtype) : Prop := size v <= MAX_SCRIPT_ELEMENT_SIZE ∧ Radix.digits 256 v.

(** What the interpreter relies on: hash functions return bytes, at most 32 of them. *)
Class CryptoBytes (C : Crypto) : Prop := {
  ripemd160_ok l : size (ripemd160 l) <= 32 ∧ Radix.digits 256 (ripemd160 l);
  sha1_ok l : size (sha1 l) <= 32 ∧ Radix.digits 256 (sha1 l);
  sha256_ok l : size (sha256 l) <= 32 ∧ Radix.digits 256 (sha256 l) }.

Lemma serialize_digits v : Radix.digits 256 (serialize v).
Proof.
  unfold serialize. destruct (v =? 0); [constructor|].
  set (a := u64 _). assert (0 <= a < 2 ^ 64) as Ha by apply u64_range.
  destruct (serialize_loop_eval 8 a) as (_ & D & _ & _); [change (256 ^ Z.of_nat 8) with (2 ^ 64); lia|].
  set (r := serialize_loop 8 a) in *. clearbody r. destruct (negb _).
  - apply digits_app. split; [done|]. constructor; [destruct (v <? 0); lia|constructor].
  - destruct (v <? 0); [|done]. apply Forall_insert; [done|].
    destruct (decide (r = [])) as [->|Hr]; [done|]. pose proof (digits_last r 0 D Hr) as Hl.
    apply (lor_range _ _ 8); [lia|exact Hl|lia].
Qed.

Lemma ok_serialize v : ok_elem (serialize v).
Proof. split; [pose proof (serialize_size v); unfold MAX_SCRIPT_ELEMENT_SIZE; lia|apply serialize_digits]. Qed.
Lemma ok_bool b : ok_elem (vchBool b).
Proof. destruct b; split; unfold MAX_SCRIPT_ELEMENT_SIZE, size; simpl; try lia; repeat constructor; lia. Qed.

Create HintDb script.
#[export] Hint Resolve ok_serialize ok_bool : script.

(** ** Every operation is safe and keeps the elements in range *)

Ltac solve_size := rewrite ?size_cons in *; unfold MAX_SCRIPT_ELEMENT_SIZE in *;
  repeat match goal with |- context [size ?l] => lazymatch goal with H : 0 <= size l |- _ => fail | _ => pose proof (size_ge0 l) end end;
  lia.
Ltac solve_stack :=
  repeat first [assumption | apply Forall_cons_iff; split | apply Forall_app; split
               | apply Forall_take | apply Forall_drop | apply Forall_nil_2 | progress eauto with script].
Ltac wp_step :=
  lazymatch goal with
  | |- wp (mret _) _ => apply wp_ret
  | |- wp (inr _) _ => apply (wp_ret _)
  | |- wp (set_error _) _ => apply wp_err
  | |- wp (_ ≫= _) _ => apply wp_bind
  | |- wp (if _ then _ else _) _ => apply wp_if; intros ?
  | |- wp (need _ _) _ => apply wp_need; intros ?
  | |- wp (num _ _ _) _ => apply wp_num; intros ? ?
  | |- wp (stacktop _ _) _ => apply (wp_stacktop ok_elem); [solve_stack|lia|solve_size|intros ? ?]
  | |- wp (popstack _) _ => apply (wp_popstack ok_elem); [solve_stack|solve_size|intros ? ? ?]
  | |- wp (erase _ _) _ => apply (wp_erase ok_elem); [solve_stack|lia|solve_size|intros ? ? ?]
  | |- wp (erase_range _ _ _) _ => apply (wp_erase_range ok_elem); [solve_stack|lia|solve_size|intros ? ? ?]
  | |- wp (insert_at _ _ _) _ => apply (wp_insert_at ok_elem); [solve_stack|assumption|solve_size|intros ? ? ?]
  | |- wp (swap_top _ _ _) _ => apply (wp_swap_top ok_elem); [solve_stack|lia|lia|solve_size|solve_size|intros ? ? ?]
  end.
Ltac wp_go := cbv zeta; repeat (wp_step; cbv zeta beta).

Notation safe_op f := (∀ s, Forall ok_elem s → wp (f s) (Forall ok_elem)).

Lemma safe_2DROP : safe_op do_2DROP. Proof. intros s Hs. unfold do_2DROP. wp_go. solve_stack. Qed.
Lemma safe_2DUP : safe_op do_2DUP. Proof. intros s Hs. unfold do_2DUP. wp_go. solve_stack. Qed.
Lemma safe_3DUP : safe_op do_3DUP. Proof. intros s Hs. unfold do_3DUP. wp_go. solve_stack. Qed.
Lemma safe_2OVER : safe_op do_2OVER. Proof. intros s Hs. unfold do_2OVER. wp_go. solve_stack. Qed.
Lemma safe_2ROT : safe_op do_2ROT. Proof. intros s Hs. unfold do_2ROT. wp_go. solve_stack. Qed.
Lemma safe_2SWAP : safe_op do_2SWAP. Proof. intros s Hs. unfold do_2SWAP. wp_go. solve_stack. Qed.
Lemma safe_IFDUP : safe_op do_IFDUP.
Proof. intros s Hs. unfold do_IFDUP. wp_go. destruct (CastToBool _); solve_stack. Qed.
Lemma safe_DEPTH : safe_op do_DEPTH. Proof. intros s Hs. unfold do_DEPTH. wp_go. solve_stack. Qed.
Lemma safe_DROP : safe_op do_DROP. Proof. intros s Hs. unfold do_DROP. wp_go. solve_stack. Qed.
Lemma safe_DUP : safe_op do_DUP. Proof. intros s Hs. unfold do_DUP. wp_go. solve_stack. Qed.
Lemma safe_NIP : safe_op do_NIP. Proof. intros s Hs. unfold do_NIP. wp_go. solve_stack. Qed.
Lemma safe_OVER : safe_op do_OVER. Proof. intros s Hs. unfold do_OVER. wp_go. solve_stack. Qed.
Lemma safe_PICK_ROLL roll m : safe_op (do_PICK_ROLL roll m).
Proof.
  intros s Hs. unfold do_PICK_ROLL. wp_go.
  match goal with H : (_ || _)%bool = false |- _ => apply orb_false_iff in H as [?%Z.ltb_ge ?%Z.leb_gt] end.
  wp_go. all: solve_stack.
Qed.
Lemma safe_ROT : safe_op do_ROT. Proof. intros s Hs. unfold do_ROT. wp_go. solve_stack. Qed.
Lemma safe_SWAP : safe_op do_SWAP. Proof. intros s Hs. unfold do_SWAP. wp_go. solve_stack. Qed.
Lemma safe_TUCK : safe_op do_TUCK. Proof. intros s Hs. unfold do_TUCK. wp_go. solve_stack. Qed.
Lemma safe_SIZE : safe_op do_SIZE. Proof. intros s Hs. unfold do_SIZE. wp_go. solve_stack. Qed.
Lemma safe_EQUAL v : safe_op (do_EQUAL v).
Proof. intros s Hs. unfold do_EQUAL. wp_go; solve_stack. Qed.
Lemma safe_VERIFY : safe_op do_VERIFY. Proof. intros s Hs. unfold do_VERIFY. wp_go. solve_stack. Qed.

(** The opcodes a numeric operation is called with never reach its assertion. *)
Definition unary_opcode (op : opcodetype) : bool :=
  match op with OP_1ADD | OP_1SUB | OP_NEGATE | OP_ABS | OP_NOT | OP_0NOTEQUAL => true | _ => false end.
Definition binary_opcode (op : opcodetype) : bool :=
  match op with
  | OP_ADD | OP_SUB | OP_BOOLAND | OP_BOOLOR | OP_NUMEQUAL | OP_NUMEQUALVERIFY | OP_NUMNOTEQUAL | OP_LESSTHAN
  | OP_GREATERTHAN | OP_LESSTHANOREQUAL | OP_GREATERTHANOREQUAL | OP_MIN | OP_MAX => true
  | _ => false
  end.
(** Operands of four bytes are far from the bounds that the operators assert. *)
Lemma CScriptNum_small v m z : Radix.digits 256 v → CScriptNum v m nDefaultMaxNumSize = inr z → - 2 ^ 31 <= z <= 2 ^ 31.
Proof.
  intros Hd. unfold CScriptNum, nDefaultMaxNumSize. destruct (Z.ltb_spec 4 (size v)); [done|]. destruct (_ && _)%bool; [done|]. rewrite set_vch_value by (done || lia). intros [= <-].
  destruct (decide (v = [])) as [->|Hne]; [by vm_compute|]. pose proof (vch_value_bound v Hd Hne). assert (2 ^ (8 * size v - 1) <= 2 ^ 31) by (apply Z.pow_le_mono_r; lia). lia.
Qed.
Lemma wp_add_assign a b : - 2 ^ 33 <= a <= 2 ^ 33 → - 2 ^ 33 <= b <= 2 ^ 33 → wp (num_add_assign a b) (λ _, True).
Proof.
  intros Ha Hb. unfold num_add_assign, int64_max, int64_min. destruct (_ || _ || _)%bool eqn:E; [done|]. apply orb_false_iff in E as [[E1%Z.eqb_neq E2]%orb_false_iff E3].
  destruct (Z.ltb_spec 0 b); cbn [andb] in E2; [apply Z.leb_gt in E2; lia|]. destruct (Z.ltb_spec b 0); cbn [andb] in E3; [apply Z.leb_gt in E3; lia|lia].
Qed.
Lemma wp_sub_assign a b : - 2 ^ 33 <= a <= 2 ^ 33 → - 2 ^ 33 <= b <= 2 ^ 33 → wp (num_sub_assign a b) (λ _, True).
Proof.
  intros Ha Hb. unfold num_sub_assign, int64_max, int64_min. destruct (_ || _ || _)%bool eqn:E; [done|]. apply orb_false_iff in E as [[E1%Z.eqb_neq E2]%orb_false_iff E3].
  destruct (Z.ltb_spec 0 b); cbn [andb] in E2; [apply Z.leb_gt in E2; lia|]. destruct (Z.ltb_spec b 0); cbn [andb] in E3; [apply Z.leb_gt in E3; lia|lia].
Qed.
Lemma wp_neg a : - 2 ^ 33 <= a → wp (num_neg a) (λ _, True).
Proof. intros Ha. unfold num_neg, int64_min. destruct (Z.eqb_spec a (- 2 ^ 63)); [lia|done]. Qed.
Lemma wp_in_int64 a : - 2 ^ 34 <= a <= 2 ^ 34 → wp (in_int64 a) (λ _, True).
Proof. intros Ha. unfold in_int64, int64_min, int64_max. rewrite (proj2 (Z.leb_le _ _)), (proj2 (Z.leb_le _ _)) by lia. done. Qed.
Lemma wp_unary_bn op a : unary_opcode op = true → - 2 ^ 31 <= a <= 2 ^ 31 → wp (unary_bn op a) (λ _, True).
Proof.
  intros Hop Ha. destruct op; try done; cbn [unary_bn]; [apply wp_add_assign; lia|apply wp_sub_assign; lia|apply wp_neg; lia|]. apply wp_if; intros _; [apply wp_neg; lia|done].
Qed.
Lemma wp_binary_bn op a b : binary_opcode op = true → - 2 ^ 31 <= a <= 2 ^ 31 → - 2 ^ 31 <= b <= 2 ^ 31 → wp (binary_bn op a b) (λ _, True).
Proof. intros Hop Ha Hb. destruct op; try done; cbn [binary_bn]; apply wp_in_int64; lia. Qed.
Ltac small_operand := match goal with E : CScriptNum ?v _ _ = inr ?z, O : ok_elem ?v |- - 2 ^ 31 <= ?z <= 2 ^ 31 => exact (CScriptNum_small _ _ _ (proj2 O) E) end.

Lemma safe_unary op m : unary_opcode op = true → safe_op (do_unary op m).
Proof.
  intros Hop s Hs. unfold do_unary. wp_go. eapply wp_mono; [apply wp_unary_bn; [done|small_operand]|]. intros bn _. wp_go. solve_stack.
Qed.
Lemma safe_binary op m : binary_opcode op = true → safe_op (do_binary op m).
Proof.
  intros Hop s Hs. unfold do_binary. wp_go. eapply wp_mono; [apply wp_binary_bn; [done|small_operand..]|]. intros bn _. wp_go; solve_stack.
Qed.
Lemma safe_WITHIN m : safe_op (do_WITHIN m).
Proof. intros s Hs. unfold do_WITHIN. wp_go. solve_stack. Qed.

Section crypto_safety.
Context {C : Crypto} {CB : CryptoBytes C} (flags : Z) (checker : BaseSignatureChecker) (sigversion : SigVersion).

Lemma safe_hash op : safe_op (do_hash op).
Proof using CB.
  intros s Hs. unfold do_hash. wp_go. apply Forall_cons_iff. split; [|done].
  unfold Hash160, Hash256. unfold ok_elem, MAX_SCRIPT_ELEMENT_SIZE.
  repeat (destruct (bool_decide _);
    [match goal with
     | |- size (ripemd160 ?x) <= _ ∧ _ => destruct (ripemd160_ok x)
     | |- size (sha1 ?x) <= _ ∧ _ => destruct (sha1_ok x)
     | |- size (sha256 ?x) <= _ ∧ _ => destruct (sha256_ok x)
     end; split; [lia|done]|]).
  split; [by vm_compute|repeat constructor; lia].
Qed.

Lemma safe_sig_encoding v : wp (CheckSignatureEncoding v flags) (λ _, True).
Proof.
  unfold CheckSignatureEncoding, IsLowDERSignature. wp_go; try done.
Qed.
Lemma safe_key_encoding v : wp (CheckPubKeyEncoding v flags sigversion) (λ _, True).
Proof. unfold CheckPubKeyEncoding. wp_go; done. Qed.

Lemma safe_CHECKSIG v code : safe_op (do_CHECKSIG flags checker sigversion v code).
Proof.
  intros s Hs. unfold do_CHECKSIG. wp_go. eapply wp_mono; [apply safe_sig_encoding|]. intros _ _. wp_go.
  eapply wp_mono; [apply safe_key_encoding|]. intros _ _. wp_go; solve_stack.
Qed.

Lemma safe_multisig_code k : ∀ isig s code, Forall ok_elem s → (0 < isig)%nat → Z.of_nat (isig + k) - 1 <= size s →
  wp (multisig_code sigversion k isig s code) (λ _, True).
Proof.
  induction k as [|k IH]; intros isig s code Hs Hi Hsz; [done|]. cbn [multisig_code]. wp_go. apply IH; [done|lia..].
Qed.

Lemma safe_multisig_loop fuel : ∀ s code isig ikey nSigs nKeys, Forall ok_elem s →
  (0 < isig)%nat → (0 < ikey)%nat → nKeys = Z.of_nat fuel → nSigs <= nKeys →
  Z.of_nat isig + nSigs - 1 <= size s → Z.of_nat ikey + nKeys - 1 <= size s →
  wp (multisig_loop flags checker sigversion fuel s code isig ikey nSigs nKeys) (λ _, True).
Proof.
  induction fuel as [|fuel IH]; intros s code isig ikey nSigs nKeys Hs Hi Hk -> Hle Hsi Hsk; cbn [multisig_loop].
  { rewrite (proj2 (Z.leb_le nSigs 0)) by lia. done. }
  destruct (Z.leb_spec nSigs 0); [done|]. wp_go.
  eapply wp_mono; [apply safe_sig_encoding|]. intros _ _. wp_go.
  eapply wp_mono; [apply safe_key_encoding|]. intros _ _. wp_go; [done|].
  match goal with H : (_ <? _) = false |- _ => apply Z.ltb_ge in H end.
  apply IH; try (destruct (CheckSig _ _ _ _ _); lia). done.
Qed.

Lemma safe_multisig_cleanup n : ∀ ok ikey2 s, Forall ok_elem s → Z.of_nat n <= size s →
  wp (multisig_cleanup flags n ok ikey2 s) (λ s', Forall ok_elem s' ∧ size s' = size s - Z.of_nat n).
Proof.
  induction n as [|n IH]; intros ok ikey2 s Hs Hn; cbn [multisig_cleanup]; [simpl; split; [done|lia]|].
  apply wp_bind. apply (wp_mono _ (λ _, True)).
  { wp_go; done. }
  intros top _. wp_go. eapply wp_mono; [apply IH; [done|lia]|]. intros ? [? ?]. split; [done|lia].
Qed.

Lemma safe_CHECKMULTISIG v code nOp s : Forall ok_elem s → 0 <= nOp →
  wp (do_CHECKMULTISIG flags checker sigversion v code nOp s)
    (λ r, Forall ok_elem r.1 ∧ nOp <= r.2 <= MAX_OPS_PER_SCRIPT).
Proof.
  intros Hs Hn. unfold do_CHECKMULTISIG. wp_go.
  match goal with H : (_ || _)%bool = false |- _ => apply orb_false_iff in H as [Hk1%Z.ltb_ge Hk2%Z.ltb_ge] end.
  match goal with H : (MAX_OPS_PER_SCRIPT <? _) = false |- _ => apply Z.ltb_ge in H end.
  wp_go.
  match goal with H : (_ || _)%bool = false |- _ => apply orb_false_iff in H as [Hs1%Z.ltb_ge Hs2%Z.ltb_ge] end.
  wp_go.
  eapply wp_mono; [apply safe_multisig_code; [done|lia..]|]. intros scriptCode _. wp_go.
  eapply wp_mono; [apply safe_multisig_loop; [done|lia..]|]. intros ok _. wp_go.
  eapply wp_mono; [apply safe_multisig_cleanup; [done|lia]|]. intros s' [Hs' Hsz']. wp_go; simpl; (split; [solve_stack|lia]).
Qed.
End crypto_safety.

(** ** The machine *)

(** The type invariant of a machine state. *)
Record inv (st : exec) : Prop := {
  inv_stack : Forall ok_elem (e_stack st);
  inv_alt : Forall ok_elem (e_alt st);
  inv_nOp : 0 <= e_nOp st <= MAX_OPS_PER_SCRIPT }.
(** The limit checked at the end of every round. *)
Definition within_limits (st : exec) : Prop := size (e_stack st) + size (e_alt st) <= 1000.

Section machine.
Context {C : Crypto} {CB : CryptoBytes C} (flags : Z) (checker : BaseSignatureChecker) (sigversion : SigVersion).

Lemma safe_on_stack f st : safe_op f → inv st → wp (on_stack f st) inv.
Proof.
  intros Hf [Hs Ha Hn]. unfold on_stack. apply wp_bind. eapply wp_mono; [by apply Hf|].
  intros s' Hs'. by split.
Qed.
Lemma safe_check_only m st : wp m (λ _, True) → inv st → wp (check_only m st) inv.
Proof. intros Hm Hst. unfold check_only. apply wp_bind. eapply wp_mono; [exact Hm|]. by intros _ _. Qed.

Lemma safe_CLTV s : Forall ok_elem s → wp (do_CHECKLOCKTIMEVERIFY flags checker s) (λ _, True).
Proof. intros Hs. unfold do_CHECKLOCKTIMEVERIFY, discourage_nops. wp_go; done. Qed.
Lemma safe_CSV s : Forall ok_elem s → wp (do_CHECKSEQUENCEVERIFY flags checker s) (λ _, True).
Proof. intros Hs. unfold do_CHECKSEQUENCEVERIFY, discourage_nops. wp_go; done. Qed.
Lemma safe_nops : wp (discourage_nops flags) (λ _, True).
Proof. unfold discourage_nops. by wp_go. Qed.
Lemma safe_push_int op : safe_op (do_push_int op).
Proof. intros s Hs. unfold do_push_int. wp_go. solve_stack. Qed.

Lemma safe_IF n st : inv st → wp (do_IF flags sigversion n st) inv.
Proof.
  intros [Hs Ha Hn]. unfold do_IF. apply wp_if; intros _; [|by split]. apply wp_if; intros E; [done|].
  apply Z.ltb_ge in E. wp_go. by split.
Qed.
Lemma safe_ELSE st : inv st → wp (do_ELSE st) inv.
Proof. intros [Hs Ha Hn]. unfold do_ELSE. wp_go. destruct (e_vfExec st); [done|by split]. Qed.
Lemma safe_ENDIF st : inv st → wp (do_ENDIF st) inv.
Proof. intros [Hs Ha Hn]. unfold do_ENDIF. wp_go. destruct (e_vfExec st); [done|by split]. Qed.
Lemma safe_TOALTSTACK st : inv st → wp (do_TOALTSTACK st) inv.
Proof. intros [Hs Ha Hn]. unfold do_TOALTSTACK. wp_go. split; simpl; [solve_stack..|done]. Qed.
Lemma safe_FROMALTSTACK st : inv st → wp (do_FROMALTSTACK st) inv.
Proof.
  intros [Hs Ha Hn]. unfold do_FROMALTSTACK. apply wp_if; intros E; [done|]. apply Z.ltb_ge in E.
  wp_go. split; simpl; [solve_stack..|done].
Qed.
Lemma safe_MULTISIG v st : inv st →
  wp ('(s, n) ← do_CHECKMULTISIG flags checker sigversion v (e_code st) (e_nOp st) (e_stack st);
      mret (mkExec s (e_alt st) (e_vfExec st) n (e_code st))) inv.
Proof.
  intros [Hs Ha Hn]. apply wp_bind. eapply wp_mono; [apply safe_CHECKMULTISIG; [done|lia]|].
  intros [s n] [Hs' Hn']. simpl in *. split; simpl; [done..|lia].
Qed.

#[local] Hint Resolve safe_2DROP safe_2DUP safe_3DUP safe_2OVER safe_2ROT safe_2SWAP safe_IFDUP safe_DEPTH safe_DROP
  safe_DUP safe_NIP safe_OVER safe_PICK_ROLL safe_ROT safe_SWAP safe_TUCK safe_SIZE safe_EQUAL safe_VERIFY safe_unary
  safe_binary safe_WITHIN safe_hash safe_CHECKSIG safe_CLTV safe_CSV safe_nops safe_push_int safe_IF safe_ELSE safe_ENDIF
  safe_TOALTSTACK safe_FROMALTSTACK safe_MULTISIG inv_stack : script.

Lemma safe_eval_opcode op pc st : inv st → wp (eval_opcode flags checker sigversion op pc st) inv.
Proof using CB.
  intros Hst. destruct op; cbn [eval_opcode]; try exact I; try exact Hst;
    try (apply safe_on_stack; [eauto with script; fail|done]);
    try (apply safe_check_only; [eauto with script; fail|done]);
    eauto with script.
  destruct Hst. by split.
Qed.

Lemma GetOp_digits pc op d pc' : Radix.digits 256 pc → GetOp pc = Some (op, d, pc') →
  Radix.digits 256 d ∧ Radix.digits 256 pc'.
Proof.
  unfold GetOp. destruct (GetOp2 pc) as [[[ok o] v] r] eqn:E. destruct ok; [|done]. intros Hd [= <- <- <-].
  apply GetOp2_suffix in E as (p & -> & _). apply digits_app in Hd as [_ Hd]. by apply digits_app in Hd.
Qed.

Lemma safe_eval_step pc st : Radix.digits 256 pc → inv st →
  wp (eval_step flags checker sigversion pc st) (λ r, Radix.digits 256 r.1 ∧ inv r.2 ∧ within_limits r.2 ∧ (length r.1 < length pc)%nat).
Proof using CB.
  intros Hd Hst. unfold eval_step. destruct (GetOp pc) as [[[op d] pc']|] eqn:G; [|done].
  destruct (GetOp_digits _ _ _ _ Hd G) as [Dd Dpc]. apply GetOp_suffix in G as (_ & _ & _ & Hlen). cbv zeta.
  apply wp_if; intros E1; [done|]. apply Z.ltb_ge in E1. apply wp_if; intros E2; [done|]. apply wp_if; intros E3; [done|].
  set (st1 := mkExec _ _ _ _ _). assert (inv st1) as Hst1.
  { destruct Hst as [Hs Ha Hn]. split; [done..|]. unfold st1. cbn [e_nOp]. destruct (opcode_val OP_16 <? opcode_val op); [|lia].
    cbn [andb] in E2. apply Z.ltb_ge in E2. lia. }
  clearbody st1. apply wp_bind. apply (wp_mono _ inv).
  - apply wp_if; intros _; [apply wp_if; intros _; [done|]|apply wp_if; intros _; [by apply safe_eval_opcode|done]].
    destruct Hst1 as [Hs Ha Hn]. split; simpl; [|done..]. apply Forall_cons_iff. by split.
  - intros st2 Hst2. apply wp_if; intros E4; [done|]. apply Z.ltb_ge in E4. simpl. by split_and!.
Qed.

(** ** The step relation *)
Definition step (c c' : list Z * exec) : Prop := c.1 ≠ [] ∧ eval_step flags checker sigversion c.1 c.2 = inr c'.

Definition conf_inv (c : list Z * exec) : Prop := Radix.digits 256 c.1 ∧ inv c.2 ∧ within_limits c.2.

Lemma step_inv c c' : conf_inv c → step c c' → conf_inv c' ∧ (length c'.1 < length c.1)%nat.
Proof using CB.
  intros (Hd & Hi & _) [_ E]. pose proof (safe_eval_step c.1 c.2 Hd Hi) as W. rewrite E in W. simpl in W.
  destruct W as (? & ? & ? & ?). split; [|done]. split_and!; done.
Qed.

Lemma eval_loop_unfold f pc st : pc ≠ [] →
  eval_loop flags checker sigversion (S f) pc st =
    ('(pc, st) ← eval_step flags checker sigversion pc st; eval_loop flags checker sigversion f pc st).
Proof. by destruct pc. Qed.

Lemma safe_eval_loop f : ∀ pc st, Radix.digits 256 pc → inv st → within_limits st → (length pc <= f)%nat →
  wp (eval_loop flags checker sigversion f pc st) (λ st', inv st' ∧ within_limits st' ∧ rtc step (pc, st) ([], st')).
Proof using CB.
  induction f as [|f IH]; intros pc st Hd Hi Hl Hf.
  { destruct pc; [|simpl in Hf; lia]. simpl. split_and!; [done..|apply rtc_refl]. }
  destruct (decide (pc = [])) as [->|Hne]; [simpl; split_and!; [done..|apply rtc_refl]|].
  rewrite eval_loop_unfold by done. apply wp_bind.
  pose proof (safe_eval_step pc st Hd Hi) as W. destruct (eval_step flags checker sigversion pc st) as [e|[pc' st']] eqn:E.
  { destruct e as [|[]| |]; done. }
  simpl in W. destruct W as (Hd' & Hi' & Hl' & Hlt). simpl. eapply wp_mono; [apply IH; [done..|lia]|].
  intros st2 (? & ? & R). split_and!; [done..|]. by apply rtc_l with (pc', st').
Qed.

Lemma rtc_step_loop c c' : rtc step c c' → c'.1 = [] → conf_inv c → ∀ f, (length c.1 <= f)%nat →
  eval_loop flags checker sigversion f c.1 c.2 = inr c'.2.
Proof using CB.
  induction 1 as [c|c c1 c2 S _ IH]; intros Hend Hc f Hf.
  { rewrite Hend. by destruct f. }
  destruct (step_inv _ _ Hc S) as [Hc1 Hlt]. destruct S as [Hne E]. destruct f as [|f]; [lia|].
  rewrite eval_loop_unfold by done. rewrite E. destruct c1 as [pc1 st1]. simpl in *. apply IH; [done..|lia].
Qed.

Definition init (stack : stack_t) (script : list Z) : list Z * exec := (script, mkExec stack [] [] 0 script).

Lemma init_inv stack script : Radix.digits 256 script → Forall ok_elem stack → size stack <= 1000 →
  conf_inv (init stack script).
Proof.
  intros Hd Hs Hsz. repeat split; simpl; try done; try lia. unfold within_limits. simpl. unfold size at 2. simpl. lia.
Qed.


End machine.

(** ** Branches that are not executed *)
Section skipped.
Context {C : Crypto} (flags : Z) (checker : BaseSignatureChecker) (sigversion : SigVersion).

(** Code in a branch that is not taken has no effect: a step with a false condition on
    the conditional stack leaves both stacks and the start of the signed code unchanged, and
    changes the conditional stack only for the opcodes that delimit conditionals. *)
Theorem skipped_no_effect pc st pc' st' op d :
  fExec st = false → eval_step flags checker sigversion pc st = inr (pc', st') → GetOp pc = Some (op, d, pc') →
  e_stack st' = e_stack st ∧ e_alt st' = e_alt st ∧ e_code st' = e_code st ∧
  (e_vfExec st' ≠ e_vfExec st → op = OP_IF ∨ op = OP_NOTIF ∨ op = OP_ELSE ∨ op = OP_ENDIF).
Proof.
  intros Hf. unfold eval_step. destruct (GetOp pc) as [[[op1 d1] pc1]|]; [|done]. cbv zeta.
  intros E [= -> -> ->]. destruct (_ <? size d); [done|]. destruct (_ && _)%bool; [done|]. destruct (disabled_opcode op); [done|].
  unfold fExec in Hf. revert E. unfold fExec. cbn [e_vfExec]. rewrite Hf. cbn [andb orb].
  destruct ((opcode_val OP_IF <=? opcode_val op) && (opcode_val op <=? opcode_val OP_ENDIF))%bool eqn:R.
  - destruct op; try done; cbn [eval_opcode]; unfold do_IF, do_ELSE, do_ENDIF, fExec; cbn [e_vfExec]; rewrite ?Hf;
      try (destruct (e_vfExec st) as [|c v]; [done|]); rewrite ?bool_decide_false by done; cbn [vf_back vf_pop_back mbind res_bind mret res_ret];
      (destruct (_ <? _); [done|]); intros [= <-]; simpl; split_and!; auto.
  - cbn [mbind res_bind mret res_ret]. destruct (_ <? _); [done|]. intros [= <-]. simpl. by split_and!.
Qed.
End skipped.

(** ** Concrete instances *)

(** Hash functions by their output sizes only, and a checker that accepts everything. *)
Definition toy_crypto : Crypto := {|
  ripemd160 := λ _, replicate 20 0; sha1 := λ _, replicate 20 0; sha256 := λ _, replicate 32 0;
  CheckLowS := λ _, true; Verify := λ _ _ _, true |}.
Definition toy_checker : BaseSignatureChecker :=
  {| CheckSig := λ _ _ _ _, true; CheckLockTime := λ _, true; CheckSequence := λ _, true |}.

Lemma toy_crypto_bytes : CryptoBytes toy_crypto.
Proof. split; intros; (split; [by vm_compute|simpl; repeat constructor; lia]). Qed.

(** [1 IF DUP ENDIF] on a stack with one element. *)
Definition sample_script : list Z := [0x51; 0x63; 0x76; 0x68].



Lemma skipped_no_effect_witness :
  ∃ st', eval_step (H := toy_crypto) 0 toy_checker SIGVERSION_BASE [0x75; 0x68] (mkExec [[7]] [] [false] 0 []) = inr ([0x68], st') ∧
    e_stack st' = [[7]].
Proof.
  exists (mkExec [[7]] [] [false] 1 []). split; [reflexivity|].
  apply (skipped_no_effect (C := toy_crypto) 0 toy_checker SIGVERSION_BASE [0x75; 0x68] (mkExec [[7]] [] [false] 0 [])
    [0x68] (mkExec [[7]] [] [false] 1 []) OP_DROP []); reflexivity.
Defined.
End InterpreterSafety.
