(* ===== verification/SoftFork.v ===== *)
(** * SoftFork: verification flags only restrict

    [le_res r r'] says that a success of the stricter run [r'] is the same success of [r].
    Every operation of the interpreter is monotone in its flags, so a script that is valid
    under a set of flags is valid under every subset, which is what makes activating a flag
    a soft fork. *)
From S2P Require Import Prelude Serialize Uint256 Script Transaction Interpreter InterpreterSafety.

Module SoftFork.
Import Script Interpreter.

Definition le_res {A} (r r' : Res A) : Prop := ∀ a, r' = inr a → r = inr a.

Lemma le_refl {A} (r : Res A) : le_res r r.
Proof. by intros a. Qed.
Lemma le_err {A} (r : Res A) e : le_res r (set_error e).
Proof. by intros a. Qed.
Lemma le_bind {A B} (m m' : Res A) (k k' : A → Res B) :
  le_res m m' → (∀ a, le_res (k a) (k' a)) → le_res (m ≫= k) (m' ≫= k').
Proof.
  intros Hm Hk b. destruct m' as [e|a]; [done|]. rewrite (Hm a eq_refl). simpl. apply Hk.
Qed.
Lemma le_if {A} (b : bool) (r1 r2 r1' r2' : Res A) :
  le_res r1 r1' → le_res r2 r2' → le_res (if b then r1 else r2) (if b then r1' else r2').
Proof. by destruct b. Qed.
(** A check that the stricter run makes at least as often. *)
Lemma le_check {A} (b b' : bool) e (r r' : Res A) : (b = true → b' = true) → le_res r r' →
  le_res (if b then set_error e else r) (if b' then set_error e else r').
Proof. intros Hb Hr. destruct b, b'; [apply le_refl|by specialize (Hb eq_refl)|apply le_err|done]. Qed.

Lemma le_num v (m m' : bool) n : (m = true → m' = true) → le_res (num v m n) (num v m' n).
Proof.
  intros Hm. unfold num, CScriptNum. destruct (_ <? _); [done|]. destruct m, m'; simpl; try by specialize (Hm eq_refl).
  all: try (destruct (_ && _)%bool); by intros ?.
Qed.

Create HintDb softfork.
#[export] Hint Resolve le_refl le_num : softfork.

Section flags.
Context {C : Crypto} (flags flags' : Z) (checker : BaseSignatureChecker) (sigversion : SigVersion).
Hypothesis Hsub : Z.land flags flags' = flags.

Lemma has_sub f : has flags f = true → has flags' f = true.
Proof using Hsub.
  unfold has. rewrite !negb_true_iff, !Z.eqb_neq. intros H E. apply H.
  rewrite <- Hsub, <- Z.land_assoc, E. apply Z.land_0_r.
Qed.
#[local] Hint Resolve has_sub : softfork.

Lemma andb_sub b b' c : (b = true → b' = true) → (b && c)%bool = true → (b' && c)%bool = true.
Proof. destruct b, b', c; simpl; auto. Qed.

(** ** Encodings *)
Lemma le_sig_encoding v : le_res (CheckSignatureEncoding v flags) (CheckSignatureEncoding v flags').
Proof using Hsub.
  unfold CheckSignatureEncoding. apply le_if; [apply le_refl|]. apply le_check; [apply andb_sub, has_sub|].
  apply le_bind; [|intros _; apply le_check; [apply andb_sub, has_sub|apply le_refl]].
  pose proof (has_sub SCRIPT_VERIFY_LOW_S) as H. destruct (has flags _), (has flags' _); try apply le_refl; try by specialize (H eq_refl).
  destruct (IsLowDERSignature v) as [|[]]; by intros ?.
Qed.
Lemma le_key_encoding v : le_res (CheckPubKeyEncoding v flags sigversion) (CheckPubKeyEncoding v flags' sigversion).
Proof using Hsub.
  unfold CheckPubKeyEncoding. apply le_check; [apply andb_sub, has_sub|]. rewrite <- !andb_assoc.
  apply le_check; [apply andb_sub, has_sub|]. apply le_refl.
Qed.

(** ** Operations *)
Lemma le_PICK_ROLL r (m m' : bool) s : (m = true → m' = true) → le_res (do_PICK_ROLL r m s) (do_PICK_ROLL r m' s).
Proof.
  intros Hm. unfold do_PICK_ROLL. apply le_bind; [apply le_refl|]. intros _. apply le_bind; [apply le_refl|]. intros t.
  apply le_bind; [by apply le_num|]. intros v. apply le_refl.
Qed.
Lemma le_unary op (m m' : bool) s : (m = true → m' = true) → le_res (do_unary op m s) (do_unary op m' s).
Proof.
  intros Hm. unfold do_unary. apply le_bind; [apply le_refl|]. intros _. apply le_bind; [apply le_refl|]. intros t.
  apply le_bind; [by apply le_num|]. intros v. apply le_refl.
Qed.
Lemma le_binary op (m m' : bool) s : (m = true → m' = true) → le_res (do_binary op m s) (do_binary op m' s).
Proof.
  intros Hm. unfold do_binary. apply le_bind; [apply le_refl|]. intros _. apply le_bind; [apply le_refl|]. intros t.
  apply le_bind; [by apply le_num|]. intros v. apply le_bind; [apply le_refl|]. intros t'.
  apply le_bind; [by apply le_num|]. intros v'. apply le_refl.
Qed.
Lemma le_WITHIN (m m' : bool) s : (m = true → m' = true) → le_res (do_WITHIN m s) (do_WITHIN m' s).
Proof.
  intros Hm. unfold do_WITHIN. apply le_bind; [apply le_refl|]. intros _.
  do 3 (apply le_bind; [apply le_refl|]; intros ?; apply le_bind; [by apply le_num|]; intros ?). apply le_refl.
Qed.

Lemma le_nops : le_res (discourage_nops flags) (discourage_nops flags').
Proof using Hsub. unfold discourage_nops. apply le_check; [apply has_sub|apply le_refl]. Qed.

(** With [NOP]s discouraged, the lock time operators must be enabled in both runs. *)
Definition nops_ok : Prop :=
  has flags SCRIPT_VERIFY_DISCOURAGE_UPGRADABLE_NOPS = true →
  has flags SCRIPT_VERIFY_CHECKLOCKTIMEVERIFY = has flags' SCRIPT_VERIFY_CHECKLOCKTIMEVERIFY ∧
  has flags SCRIPT_VERIFY_CHECKSEQUENCEVERIFY = has flags' SCRIPT_VERIFY_CHECKSEQUENCEVERIFY.
Hypothesis Hnops : nops_ok.

(** An operator that is a [NOP] without flag [f]. *)
Lemma le_upgraded f (k k' : Res unit) :
  (has flags SCRIPT_VERIFY_DISCOURAGE_UPGRADABLE_NOPS = true → has flags f = has flags' f) →
  le_res k k' →
  le_res (if negb (has flags f) then discourage_nops flags else k)
         (if negb (has flags' f) then discourage_nops flags' else k').
Proof using Hsub.
  intros Hf Hk. pose proof (has_sub f) as H. destruct (has flags f), (has flags' f); simpl; [done|by specialize (H eq_refl)| |].
  - unfold discourage_nops. destruct (has flags _) eqn:E; [by specialize (Hf eq_refl)|]. by intros [].
  - apply le_nops.
Qed.

Lemma le_CLTV s : le_res (do_CHECKLOCKTIMEVERIFY flags checker s) (do_CHECKLOCKTIMEVERIFY flags' checker s).
Proof using Hsub Hnops.
  unfold do_CHECKLOCKTIMEVERIFY. apply le_upgraded; [intros H; by destruct (Hnops H)|].
  apply le_bind; [apply le_refl|]. intros _. apply le_bind; [apply le_refl|]. intros v.
  apply le_bind; [apply le_num, has_sub|]. intros n. apply le_refl.
Qed.
Lemma le_CSV s : le_res (do_CHECKSEQUENCEVERIFY flags checker s) (do_CHECKSEQUENCEVERIFY flags' checker s).
Proof using Hsub Hnops.
  unfold do_CHECKSEQUENCEVERIFY. apply le_upgraded; [intros H; by destruct (Hnops H)|].
  apply le_bind; [apply le_refl|]. intros _. apply le_bind; [apply le_refl|]. intros v.
  apply le_bind; [apply le_num, has_sub|]. intros n. apply le_refl.
Qed.

Lemma le_IF n st : le_res (do_IF flags sigversion n st) (do_IF flags' sigversion n st).
Proof using Hsub.
  unfold do_IF. apply le_if; [|apply le_refl]. apply le_if; [apply le_refl|]. apply le_bind; [apply le_refl|]. intros v.
  apply le_check; [|apply le_refl]. pose proof (has_sub SCRIPT_VERIFY_MINIMALIF) as H.
  destruct (bool_decide _), (has flags _), (has flags' _), (_ || _)%bool; simpl; auto.
Qed.

Lemma le_CHECKSIG v code s : le_res (do_CHECKSIG flags checker sigversion v code s) (do_CHECKSIG flags' checker sigversion v code s).
Proof using Hsub.
  unfold do_CHECKSIG. apply le_bind; [apply le_refl|]. intros _. apply le_bind; [apply le_refl|]. intros sg.
  apply le_bind; [apply le_refl|]. intros key. cbv zeta. apply le_bind; [apply le_sig_encoding|]. intros _.
  apply le_bind; [apply le_key_encoding|]. intros _. apply le_check; [|apply le_refl].
  pose proof (has_sub SCRIPT_VERIFY_NULLFAIL) as H.
  destruct (negb (CheckSig _ _ _ _ _)), (has flags _), (has flags' _), (negb (_ =? _)); simpl; auto.
Qed.

Lemma le_multisig_loop fuel : ∀ s code isig ikey nSigs nKeys,
  le_res (multisig_loop flags checker sigversion fuel s code isig ikey nSigs nKeys)
         (multisig_loop flags' checker sigversion fuel s code isig ikey nSigs nKeys).
Proof using Hsub.
  induction fuel as [|fuel IH]; intros s code isig ikey nSigs nKeys; cbn [multisig_loop]; [apply le_refl|].
  apply le_if; [apply le_refl|]. apply le_bind; [apply le_refl|]. intros sg. apply le_bind; [apply le_refl|]. intros key.
  apply le_bind; [apply le_sig_encoding|]. intros _. apply le_bind; [apply le_key_encoding|]. intros _.
  cbv zeta. apply le_if; [apply le_refl|]. apply IH.
Qed.

Lemma le_multisig_cleanup n : ∀ ok ikey2 s,
  le_res (multisig_cleanup flags n ok ikey2 s) (multisig_cleanup flags' n ok ikey2 s).
Proof using Hsub.
  induction n as [|n IH]; intros ok ikey2 s; cbn [multisig_cleanup]; [apply le_refl|].
  assert (le_res (s ← popstack s; multisig_cleanup flags n ok (if 0 <? ikey2 then ikey2 - 1 else ikey2) s)
    (s ← popstack s; multisig_cleanup flags' n ok (if 0 <? ikey2 then ikey2 - 1 else ikey2) s)) as Hpop.
  { apply le_bind; [apply le_refl|]. intros s'. apply IH. }
  pose proof (has_sub SCRIPT_VERIFY_NULLFAIL) as H. cbv zeta. rewrite !(andb_comm (negb ok)), <- !andb_assoc.
  destruct (negb ok && (ikey2 =? 0))%bool; [|rewrite !andb_false_r; apply Hpop]. rewrite !andb_true_r.
  destruct (has flags _), (has flags' _); [|by specialize (H eq_refl)| |apply Hpop].
  - apply le_bind; [apply le_refl|]. intros top. apply le_if; [apply le_refl|apply Hpop].
  - intros a. destruct (stacktop s 1) as [|top]; [done|]. simpl. destruct (negb (size top =? 0)); [done|]. apply Hpop.
Qed.

Lemma le_CHECKMULTISIG v code nOp s :
  le_res (do_CHECKMULTISIG flags checker sigversion v code nOp s) (do_CHECKMULTISIG flags' checker sigversion v code nOp s).
Proof using Hsub.
  unfold do_CHECKMULTISIG. apply le_bind; [apply le_refl|]. intros _. apply le_bind; [apply le_refl|]. intros t.
  apply le_bind; [apply le_num, has_sub|]. intros v1. cbv zeta. apply le_if; [apply le_refl|]. apply le_if; [apply le_refl|].
  apply le_bind; [apply le_refl|]. intros _. apply le_bind; [apply le_refl|]. intros t2.
  apply le_bind; [apply le_num, has_sub|]. intros v2. apply le_if; [apply le_refl|].
  apply le_bind; [apply le_refl|]. intros _. apply le_bind; [apply le_refl|]. intros sc.
  apply le_bind; [apply le_multisig_loop|]. intros ok. apply le_bind; [apply le_multisig_cleanup|]. intros s'.
  apply le_bind; [apply le_refl|]. intros _. apply le_bind; [apply le_refl|]. intros t3.
  apply le_check; [apply andb_sub, has_sub|apply le_refl].
Qed.

(** ** The machine *)
Lemma le_on_stack f f' st : (∀ s, le_res (f s) (f' s)) → le_res (on_stack f st) (on_stack f' st).
Proof. intros Hf. unfold on_stack. apply le_bind; [apply Hf|]. intros s. apply le_refl. Qed.
Lemma le_check_only m m' st : le_res m m' → le_res (check_only m st) (check_only m' st).
Proof. intros Hm. unfold check_only. apply le_bind; [done|]. intros _. apply le_refl. Qed.

Lemma le_eval_opcode op pc st :
  le_res (eval_opcode flags checker sigversion op pc st) (eval_opcode flags' checker sigversion op pc st).
Proof using Hsub Hnops.
  destruct op; cbn [eval_opcode]; try apply le_refl;
    first [apply le_on_stack; intros s;
             first [apply le_refl | apply le_PICK_ROLL, has_sub | apply le_unary, has_sub | apply le_binary, has_sub
                   | apply le_WITHIN, has_sub | apply le_CHECKSIG]
          | apply le_check_only; first [apply le_CLTV | apply le_CSV | apply le_nops]
          | apply le_IF
          | apply le_bind; [apply le_CHECKMULTISIG|intros [? ?]; apply le_refl]].
Qed.

Lemma le_eval_step pc st : le_res (eval_step flags checker sigversion pc st) (eval_step flags' checker sigversion pc st).
Proof using Hsub Hnops.
  unfold eval_step. destruct (GetOp pc) as [[[op d] pc']|]; [|apply le_refl]. cbv zeta.
  apply le_if; [apply le_refl|]. apply le_if; [apply le_refl|]. apply le_if; [apply le_refl|].
  apply le_bind; [|intros st'; apply le_refl]. apply le_if.
  - apply le_check; [|apply le_refl]. unfold fRequireMinimal. apply andb_sub, has_sub.
  - apply le_if; [apply le_eval_opcode|apply le_refl].
Qed.

Lemma le_eval_loop f : ∀ pc st, le_res (eval_loop flags checker sigversion f pc st) (eval_loop flags' checker sigversion f pc st).
Proof using Hsub Hnops.
  induction f as [|f IH]; intros [|b pc] st; cbn [eval_loop]; try apply le_refl.
  apply le_bind; [apply le_eval_step|]. intros [pc' st']. apply IH.
Qed.

Lemma le_EvalScript stack script :
  le_res (EvalScript flags checker sigversion stack script) (EvalScript flags' checker sigversion stack script).
Proof using Hsub Hnops.
  assert (le_res (EvalScript_raw flags checker sigversion stack script) (EvalScript_raw flags' checker sigversion stack script)) as Hr.
  { unfold EvalScript_raw. apply le_if; [apply le_refl|]. apply le_bind; [apply le_eval_loop|]. intros st. apply le_refl. }
  unfold EvalScript. intros a. destruct (EvalScript_raw flags' _ _ _ _) as [[| | |]|s]; try done. by rewrite (Hr s eq_refl).
Qed.
End flags.

Section verify.
Context {C : Crypto} (flags flags' : Z) (checker : BaseSignatureChecker).
Context (Hsub : Z.land flags flags' = flags) (Hnops : nops_ok flags flags').

Lemma le_VerifyWitnessProgram w v p :
  le_res (VerifyWitnessProgram flags checker w v p) (VerifyWitnessProgram flags' checker w v p).
Proof using Hsub Hnops.
  unfold VerifyWitnessProgram. apply le_bind.
  - apply le_if; [apply le_refl|]. apply le_check; [by apply has_sub|apply le_refl].
  - intros [[sc st]|]; [|apply le_refl]. apply le_if; [apply le_refl|]. apply le_bind; [by apply le_EvalScript|].
    intros s. apply le_refl.
Qed.

Lemma le_verify_witness sg spk w st : has flags SCRIPT_VERIFY_WITNESS = true →
  le_res (verify_witness flags checker sg spk w st) (verify_witness flags' checker sg spk w st).
Proof using Hsub Hnops.
  intros Hw. unfold verify_witness. rewrite Hw, (has_sub flags flags' Hsub _ Hw).
  destruct (IsWitnessProgram spk) as [[v p]|]; [|apply le_refl]. apply le_if; [apply le_refl|].
  apply le_bind; [apply le_VerifyWitnessProgram|]. intros _. apply le_refl.
Qed.

Lemma le_verify_p2sh sg w st hw : has flags SCRIPT_VERIFY_WITNESS = true →
  le_res (verify_p2sh flags checker sg w st hw) (verify_p2sh flags' checker sg w st hw).
Proof using Hsub Hnops.
  intros Hw. unfold verify_p2sh. apply le_if; [apply le_refl|]. destruct st as [|k st]; [apply le_refl|].
  apply le_bind; [by apply le_EvalScript|]. intros st'. apply le_bind; [apply le_refl|]. intros _.
  rewrite Hw, (has_sub flags flags' Hsub _ Hw). destruct (IsWitnessProgram k) as [[v p]|]; [|apply le_refl].
  apply le_if; [apply le_refl|]. apply le_bind; [apply le_VerifyWitnessProgram|]. intros _. apply le_refl.
Qed.

(** Without [WITNESS] the pay-to-script-hash part evaluates a prefix of what it does with it. *)
Lemma verify_p2sh_no_witness sg w st hw hw' r : has flags SCRIPT_VERIFY_WITNESS = false →
  verify_p2sh flags' checker sg w st hw' = inr r → ∃ st', verify_p2sh flags checker sg w st hw = inr (st', hw).
Proof using Hsub Hnops.
  intros Hw. unfold verify_p2sh. destruct (negb _); [done|]. destruct st as [|k st]; [done|].
  destruct (EvalScript flags' _ _ _ _) as [|st1] eqn:E; [done|]. rewrite (le_EvalScript _ _ _ _ Hsub Hnops _ _ _ E).
  cbn [mbind res_bind]. destruct (check_top st1); [done|]. cbn [mbind res_bind]. rewrite Hw. intros _. by exists st1.
Qed.

(** C10. Soft-fork safety of the verification flags. If a spend verifies under [flags'], it
    verifies under every subset [flags] that meets the preconditions the code asserts
    ([WITNESS] needs [P2SH], [CLEANSTACK] needs both) and, where it discourages upgradable
    [NOP]s, enables the same lock time operators. *)
Theorem VerifyScript_softfork scriptSig scriptPubKey witness :
  (has flags SCRIPT_VERIFY_WITNESS = true → has flags SCRIPT_VERIFY_P2SH = true) →
  (has flags SCRIPT_VERIFY_CLEANSTACK = true → has flags SCRIPT_VERIFY_WITNESS = true) →
  VerifyScript flags' checker scriptSig scriptPubKey witness = inr tt →
  VerifyScript flags checker scriptSig scriptPubKey witness = inr tt.
Proof using Hsub Hnops.
  intros Hwp Hcw. pose proof (has_sub flags flags' Hsub) as Hs. unfold VerifyScript.
  destruct (has flags' SCRIPT_VERIFY_SIGPUSHONLY && _)%bool eqn:E1; [done|].
  replace (has flags SCRIPT_VERIFY_SIGPUSHONLY && _)%bool with false.
  2: { symmetry. apply not_true_iff_false. intros H. apply not_true_iff_false in E1. apply E1. by apply (andb_sub _ _ _ (Hs _)). }
  destruct (EvalScript flags' _ _ [] scriptSig) as [|st1] eqn:V1; [done|]. rewrite (le_EvalScript _ _ _ _ Hsub Hnops _ _ _ V1).
  cbn [mbind res_bind]. destruct (EvalScript flags' _ _ st1 _) as [|st2] eqn:V2; [done|].
  rewrite (le_EvalScript _ _ _ _ Hsub Hnops _ _ _ V2). cbn [mbind res_bind].
  destruct (check_top st2); [done|]. cbn [mbind res_bind].
  destruct (has flags SCRIPT_VERIFY_WITNESS) eqn:Ew.
  - rewrite (Hwp eq_refl), (Hs _ Ew), (Hs _ (Hwp eq_refl)).
    assert (∀ m m' : Res unit, le_res m m' → m' = inr tt → m = inr tt) as Hle by auto. apply Hle. clear Hle.
    apply le_bind; [by apply le_verify_witness|]. intros [st3 hw]. apply le_bind.
    { apply le_if; [by apply le_verify_p2sh|apply le_refl]. }
    intros [st4 hw']. apply le_bind; [|intros _; apply le_refl].
    pose proof (Hs SCRIPT_VERIFY_CLEANSTACK) as Hc. simpl andb. cbn [negb].
    destruct (has flags SCRIPT_VERIFY_CLEANSTACK), (has flags' SCRIPT_VERIFY_CLEANSTACK); try apply le_refl;
      [by specialize (Hc eq_refl)|]. intros []. by destruct (negb _).
  - replace (has flags SCRIPT_VERIFY_CLEANSTACK) with false by (destruct (has flags SCRIPT_VERIFY_CLEANSTACK); [by specialize (Hcw eq_refl)|done]).
    unfold verify_witness at 2. rewrite Ew. cbn [mbind res_bind mret res_ret].
    destruct (verify_witness flags' _ _ _ _ _) as [|[st3 hw]]; [done|]. cbn [mbind res_bind].
    destruct (has flags SCRIPT_VERIFY_P2SH && IsPayToScriptHash scriptPubKey)%bool eqn:Ep; [|done].
    apply andb_true_iff in Ep as [Ep1 Ep2]. rewrite (Hs _ Ep1), Ep1, Ep2. cbn [andb].
    destruct (verify_p2sh flags' _ _ _ _ _) as [|r] eqn:V3; [done|]. intros _.
    destruct (verify_p2sh_no_witness _ _ _ false _ _ Ew V3) as (st' & ->). done.
Qed.
End verify.

Lemma VerifyScript_softfork_witness :
  VerifyScript (H := InterpreterSafety.toy_crypto) SCRIPT_VERIFY_P2SH InterpreterSafety.toy_checker [0x51] [0x51; 0x88; 0x51] [] = inr tt.
Proof.
  apply (VerifyScript_softfork (C := InterpreterSafety.toy_crypto) SCRIPT_VERIFY_P2SH
    (SCRIPT_VERIFY_P2SH + SCRIPT_VERIFY_WITNESS + SCRIPT_VERIFY_CLEANSTACK + SCRIPT_VERIFY_MINIMALDATA) InterpreterSafety.toy_checker);
    [reflexivity|intros H; discriminate H|reflexivity|intros H; discriminate H|reflexivity].
Defined.
End SoftFork.
