(* ===== verification/SpendSpec.v ===== *)
(** * SpendSpec: what verifying a spend means

    Functional specifications of the interpreter's users: the standard pay-to-public-key-hash
    spend, the matching of signatures to keys in [OP_CHECKMULTISIG], the script code and the
    cached hashes of signature digests, and the lock time checks. *)
From S2P Require Import Prelude Serialize Uint256 Script Transaction Interpreter InterpreterSafety.

Module SpendSpec.
Import Script Interpreter InterpreterSafety.

(** ** Running a script operation by operation *)
Section run.
Context {C : Crypto} (flags : Z) (checker : BaseSignatureChecker) (sigversion : SigVersion).

Lemma eval_step_shorter pc st pc' st' :
  eval_step flags checker sigversion pc st = inr (pc', st') → (length pc' < length pc)%nat.
Proof.
  unfold eval_step. destruct (GetOp pc) as [[[op d] pc1]|] eqn:G; [|done]. apply GetOp_suffix in G as (_ & _ & _ & L).
  cbv zeta. destruct (_ <? size d); [done|]. destruct (_ && _)%bool; [done|]. destruct (disabled_opcode op); [done|].
  destruct (if (_ && _ && _)%bool then _ else _) as [|st2]; [done|]. cbn [mbind res_bind]. destruct (_ <? _); [done|].
  by intros [= <- <-].
Qed.

Lemma eval_loop_fuel pc : ∀ f g st, (length pc <= f)%nat → (length pc <= g)%nat →
  eval_loop flags checker sigversion f pc st = eval_loop flags checker sigversion g pc st.
Proof.
  induction pc as [pc IH] using (induction_ltof1 _ (@length Z)). intros f g st Hf Hg.
  destruct pc as [|b pc]; [by destruct f, g|]. destruct f as [|f], g as [|g]; simpl in Hf, Hg; try lia. cbn [eval_loop].
  destruct (eval_step _ _ _ _ _) as [|[pc' st']] eqn:E; [done|]. apply eval_step_shorter in E. simpl in E.
  apply IH; [unfold ltof; simpl; lia|lia..].
Qed.

Definition run (pc : list Z) (st : exec) : Res exec := eval_loop flags checker sigversion (length pc) pc st.

Lemma run_unfold pc st : pc ≠ [] → run pc st = ('(pc, st) ← eval_step flags checker sigversion pc st; run pc st).
Proof.
  intros Hne. unfold run at 1. rewrite (eval_loop_fuel pc _ (S (length pc))) by lia.
  destruct pc as [|b pc]; [done|]. cbn [eval_loop]. destruct (eval_step _ _ _ _ _) as [|[pc' st']] eqn:E; [done|].
  cbn [mbind res_bind]. apply eval_step_shorter in E. apply eval_loop_fuel; lia.
Qed.

Definition bump (st : exec) : exec := mkExec (e_stack st) (e_alt st) (e_vfExec st) (e_nOp st + 1) (e_code st).
Definition limit (st : exec) : Res exec :=
  if 1000 <? size (e_stack st) + size (e_alt st) then set_error SCRIPT_ERR_STACK_SIZE else mret st.

(** An opcode that is executed. *)
Lemma run_op op rest st : wf_opcode op → 0x60 < opcode_val op → disabled_opcode op = false → fExec st = true →
  e_nOp st < MAX_OPS_PER_SCRIPT →
  run (opcode_val op :: rest) st =
    (st ← eval_opcode flags checker sigversion op rest (bump st); st ← limit st; run rest st).
Proof.
  intros Hwf Hop Hd Hf Hn. rewrite run_unfold by done. unfold eval_step.
  rewrite GetOp_op by (done || (change (opcode_val OP_PUSHDATA4) with 0x4e; lia)). cbv zeta.
  change (size (@nil Z)) with 0. change (MAX_SCRIPT_ELEMENT_SIZE <? 0) with false.
  change (opcode_val OP_16) with 0x60. rewrite (proj2 (Z.ltb_lt _ _)) by lia. cbn [andb].
  rewrite (proj2 (Z.ltb_ge _ _)) by lia. rewrite Hd. unfold fExec in *. cbn [e_vfExec]. rewrite Hf.
  change (opcode_val OP_PUSHDATA4) with 0x4e. rewrite (proj2 (Z.leb_gt _ 0x4e)), andb_false_r by lia. cbn [orb].
  fold (bump st). destruct (eval_opcode _ _ _ _ _ _) as [|st']; [done|]. cbn [mbind res_bind]. unfold limit.
  by destruct (_ <? _).
Qed.

Lemma push_op_val b : 0 <= opcode_val (push_op b) <= 0x4e ∧ disabled_opcode (push_op b) = false.
Proof.
  unfold push_op. pose proof (size_ge0 b). destruct (Z.ltb_spec (size b) 0x4c).
  - rewrite opcode_val_of. split; [lia|]. pose proof (opcode_val_of (size b)) as E.
    destruct (opcode_of (size b)); try done; simpl in E; lia.
  - destruct (_ <=? _); [done|]. by destruct (_ <=? _).
Qed.

Lemma push_minimal b : 2 <= size b → CheckMinimalPush b (push_op b) = true.
Proof.
  intros Hb. unfold CheckMinimalPush, push_op. rewrite (proj2 (Z.eqb_neq (size b) 0)), (proj2 (Z.eqb_neq (size b) 1)) by lia.
  cbn [andb]. destruct (Z.ltb_spec (size b) 0x4c).
  - rewrite (proj2 (Z.leb_le _ 75)), opcode_val_of by lia. apply Z.eqb_refl.
  - rewrite (proj2 (Z.leb_gt _ 75)) by lia. destruct (Z.leb_spec (size b) 0xff); [done|].
    by destruct (Z.leb_spec (size b) 0xffff).
Qed.

(** A data item that is pushed. *)
Lemma run_push b rest st : 2 <= size b <= MAX_SCRIPT_ELEMENT_SIZE → fExec st = true →
  run (push_data [] b ++ rest) st = (st ← limit (with_stack st (b :: e_stack st)); run rest st).
Proof.
  intros Hb Hf. assert (push_data [] b ++ rest ≠ []) as Hne.
  { intros E. apply (push_data_ne b). by destruct (push_data [] b). }
  rewrite run_unfold by done. unfold eval_step. unfold MAX_SCRIPT_ELEMENT_SIZE in Hb.
  rewrite GetOp_push_data by lia. cbv zeta. unfold MAX_SCRIPT_ELEMENT_SIZE. rewrite (proj2 (Z.ltb_ge _ _)) by lia.
  destruct (push_op_val b) as [Hv Hd]. change (opcode_val OP_16) with 0x60. rewrite (proj2 (Z.ltb_ge 0x60 _)) by lia.
  cbn [andb]. rewrite Hd. unfold fExec in *. cbn [e_vfExec]. rewrite Hf. change (opcode_val OP_PUSHDATA4) with 0x4e.
  rewrite (proj2 (Z.leb_le 0 _)), (proj2 (Z.leb_le _ 0x4e)) by lia. cbn [andb].
  rewrite push_minimal, andb_false_r by lia. cbn [mbind res_bind mret res_ret]. unfold limit. simpl.
  by destruct (_ <? _).
Qed.

Lemma run_push_ok b rest st : 2 <= size b <= MAX_SCRIPT_ELEMENT_SIZE → fExec st = true →
  size (e_stack st) + size (e_alt st) < 1000 →
  run (push_data [] b ++ rest) st = run rest (with_stack st (b :: e_stack st)).
Proof.
  intros Hb Hf Hl. rewrite run_push by done. unfold limit. cbn [with_stack e_stack e_alt].
  by rewrite size_cons, (proj2 (Z.ltb_ge 1000 _)) by lia.
Qed.

Lemma run_op_ok op rest st st' : wf_opcode op → 0x60 < opcode_val op → disabled_opcode op = false → fExec st = true →
  e_nOp st < MAX_OPS_PER_SCRIPT → eval_opcode flags checker sigversion op rest (bump st) = inr st' →
  size (e_stack st') + size (e_alt st') <= 1000 → run (opcode_val op :: rest) st = run rest st'.
Proof.
  intros Hwf Hop Hd Hf Hn E Hl. rewrite run_op by done. rewrite E. cbn [mbind res_bind]. unfold limit.
  by rewrite (proj2 (Z.ltb_ge 1000 _)) by done.
Qed.
End run.

(** ** Pay to public key hash *)
Definition p2pkh_items (h : list Z) : list item :=
  [IOp OP_DUP; IOp OP_HASH160; IData h; IOp OP_EQUALVERIFY; IOp OP_CHECKSIG].
Definition p2pkh (h : list Z) : list Z := foldl append_item [] (p2pkh_items h).
Definition p2pkh_sig (sg key : list Z) : list Z := foldl append_item [] [IData sg; IData key].

Lemma p2pkh_bytes h : p2pkh h =
  opcode_val OP_DUP :: opcode_val OP_HASH160 :: push_data [] h ++ opcode_val OP_EQUALVERIFY :: opcode_val OP_CHECKSIG :: [].
Proof. unfold p2pkh. cbn -[push_data]. unfold push_opcode. rewrite push_data_app, <- !app_assoc. done. Qed.

Lemma p2pkh_sig_bytes sg key : p2pkh_sig sg key = push_data [] sg ++ push_data [] key ++ [].
Proof. unfold p2pkh_sig. cbn -[push_data]. by rewrite push_data_app, app_nil_r. Qed.

Lemma push_data_size b : size (push_data [] b) <= size b + 5.
Proof.
  unfold push_data. rewrite app_nil_l, size_app. destruct (_ <? _); [unfold size at 1; simpl; lia|].
  destruct (_ <=? _); [unfold size at 1; simpl; lia|]. destruct (_ <=? _); rewrite size_cons; unfold size at 1;
    rewrite length_split; lia.
Qed.

(** Deleting the push of another item leaves the script as it is. *)
Lemma p2pkh_code h sg : sg ≠ [] → sg ≠ h → size sg < 2 ^ 32 → size h = 20 →
  (FindAndDelete (p2pkh h) (push_data [] sg)).1 = p2pkh h.
Proof.
  intros Hne Hh Hsz Hh20. rewrite FindAndDelete_ref by apply push_data_ne. unfold p2pkh.
  assert (Forall wf_item (p2pkh_items h)) as Hwf by (repeat constructor; simpl; lia).
  rewrite delete_ref_build by (done || lia). cbn [fst]. f_equal. apply filter_all.
  assert (∀ i, wf_item i → (item_op i).2 ≠ sg → append_item [] i ≠ push_data [] sg) as Hi.
  { intros i Hi Hd E. pose proof (GetOp_item i [] Hi) as G. rewrite E, GetOp_push_data in G by done. congruence. }
  repeat constructor; apply Hi; simpl; (congruence || lia || done).
Qed.

Section p2pkh.
Context {C : Crypto} (flags : Z) (checker : BaseSignatureChecker).
Context (sg key h : list Z).
Context (Hsg : 2 <= size sg <= MAX_SCRIPT_ELEMENT_SIZE) (Hkey : 2 <= size key <= MAX_SCRIPT_ELEMENT_SIZE).
Context (Hh : size h = 20) (Hneq : sg ≠ h).

Lemma eval_p2pkh_sig : EvalScript flags checker SIGVERSION_BASE [] (p2pkh_sig sg key) = inr [key; sg].
Proof using Hsg Hkey.
  unfold EvalScript, EvalScript_raw. rewrite p2pkh_sig_bytes.
  pose proof (push_data_size sg). pose proof (push_data_size key).
  unfold MAX_SCRIPT_SIZE, MAX_SCRIPT_ELEMENT_SIZE in *. rewrite !size_app, (proj2 (Z.ltb_ge _ _)) by (change (size (@nil Z)) with 0; lia).
  set (s0 := push_data [] sg ++ _). fold (run flags checker SIGVERSION_BASE s0 (mkExec [] [] [] 0 s0)).
  generalize s0 at 2 as code. intros code. subst s0.
  rewrite !run_push_ok by done. done.
Qed.

(** The outcome of [OP_CHECKSIG] on the two operands. *)
Definition checksig_outcome (code : list Z) : Res stack_t :=
  _ ← CheckSignatureEncoding sg flags;
  _ ← CheckPubKeyEncoding key flags SIGVERSION_BASE;
  let ok := CheckSig checker sg key code SIGVERSION_BASE in
  if (negb ok && has flags SCRIPT_VERIFY_NULLFAIL)%bool then set_error SCRIPT_ERR_SIG_NULLFAIL
  else mret [vchBool ok].

Lemma do_CHECKSIG_p2pkh : do_CHECKSIG flags checker SIGVERSION_BASE false (p2pkh h) [key; sg] = checksig_outcome (p2pkh h).
Proof using Hsg Hh Hneq.
  unfold do_CHECKSIG, checksig_outcome. cbn [need size length stacktop lookup list_lookup mbind res_bind].
  change (size [key; sg] <? 2) with false. cbn [mbind res_bind mret res_ret Nat.sub]. unfold MAX_SCRIPT_ELEMENT_SIZE in *.
  unfold stacktop. cbn [Nat.sub lookup list_lookup mbind res_bind].
  rewrite bool_decide_true by done. rewrite p2pkh_code; [|intros ->; unfold size in Hsg; simpl in Hsg; lia|done|lia|done].
  rewrite (proj2 (Z.eqb_neq (size sg) 0)), andb_true_r by lia. done.
Qed.

Lemma eval_p2pkh : EvalScript_raw flags checker SIGVERSION_BASE [key; sg] (p2pkh h) =
  if bool_decide (Hash160 key = h) then checksig_outcome (p2pkh h) else set_error SCRIPT_ERR_EQUALVERIFY.
Proof using Hsg Hh Hneq.
  unfold EvalScript_raw. pose proof (push_data_size h). rewrite p2pkh_bytes at 1. rewrite !size_cons, size_app.
  unfold MAX_SCRIPT_SIZE. rewrite (proj2 (Z.ltb_ge _ _)) by (rewrite !size_cons; change (size (@nil Z)) with 0; lia).
  fold (run flags checker SIGVERSION_BASE (p2pkh h) (mkExec [key; sg] [] [] 0 (p2pkh h))).
  rewrite p2pkh_bytes at 1.
  rewrite (run_op_ok _ _ _ OP_DUP _ _ (mkExec [key; key; sg] [] [] 1 (p2pkh h))) by done.
  rewrite (run_op_ok _ _ _ OP_HASH160 _ _ (mkExec [Hash160 key; key; sg] [] [] 2 (p2pkh h))) by done.
  rewrite run_push_ok by (done || (unfold MAX_SCRIPT_ELEMENT_SIZE; lia)). cbn [with_stack e_stack e_alt e_vfExec e_nOp e_code bump].
  assert (do_EQUAL true (h :: Hash160 key :: key :: [sg]) =
    if bool_decide (Hash160 key = h) then mret [key; sg] else set_error SCRIPT_ERR_EQUALVERIFY) as HE by done.
  destruct (bool_decide (Hash160 key = h)).
  2: { rewrite run_op by done. unfold eval_opcode, on_stack, bump, with_stack. cbn [e_stack]. by rewrite HE. }
  rewrite (run_op_ok _ _ _ OP_EQUALVERIFY _ _ (mkExec [key; sg] [] [] 3 (p2pkh h))); [|done..| |done].
  2: { unfold eval_opcode, on_stack, bump, with_stack. cbn [e_stack]. by rewrite HE. }
  rewrite run_op by done. unfold eval_opcode, on_stack, bump. cbn [e_stack e_code e_alt e_vfExec e_nOp].
  rewrite do_CHECKSIG_p2pkh. unfold checksig_outcome.
  destruct (CheckSignatureEncoding sg flags); [done|]. destruct (CheckPubKeyEncoding _ _ _); [done|]. cbn [mbind res_bind].
  by destruct (CheckSig _ _ _ _ _), (has flags _).
Qed.

Lemma p2pkh_sig_push_only : IsPushOnly (p2pkh_sig sg key) = true.
Proof using Hsg Hkey.
  unfold IsPushOnly. rewrite IsPushOnly_loop_parse by done. unfold complete, p2pkh_sig.
  unfold MAX_SCRIPT_ELEMENT_SIZE in *. rewrite parse_build by (repeat constructor; simpl; lia).
  cbn [map item_op fst snd forallb]. unfold push_opcode_b. cbn [fst].
  pose proof (push_op_val sg). pose proof (push_op_val key). change (opcode_val OP_16) with 0x60.
  by rewrite !(proj2 (Z.leb_le _ 0x60)) by lia.
Qed.

Lemma p2pkh_forms : IsWitnessProgram (p2pkh h) = None ∧ IsPayToScriptHash (p2pkh h) = false.
Proof using Hh.
  rewrite p2pkh_bytes, push_data_short by (by rewrite Hh).
  unfold IsWitnessProgram, IsPayToScriptHash. cbn [app]. rewrite !size_cons, size_app, Hh, !size_cons. done.
Qed.

(** C9. Spending a pay-to-public-key-hash output. Verification of the standard input script
    against the standard output script succeeds exactly when the key hashes to the
    output's hash, the signature and the key pass the encoding rules of the flags, and the
    checker accepts the signature for the unmodified output script; a wrong key is reported
    as [SCRIPT_ERR_EQUALVERIFY]. *)
Theorem p2pkh_spend :
  (has flags SCRIPT_VERIFY_WITNESS = true → has flags SCRIPT_VERIFY_P2SH = true) →
  (has flags SCRIPT_VERIFY_CLEANSTACK = true → has flags SCRIPT_VERIFY_WITNESS = true) →
  (VerifyScript flags checker (p2pkh_sig sg key) (p2pkh h) [] = inr tt ↔
     Hash160 key = h ∧ CheckSignatureEncoding sg flags = inr tt ∧
     CheckPubKeyEncoding key flags SIGVERSION_BASE = inr tt ∧
     CheckSig checker sg key (p2pkh h) SIGVERSION_BASE = true) ∧
  (Hash160 key ≠ h → VerifyScript flags checker (p2pkh_sig sg key) (p2pkh h) [] = set_error SCRIPT_ERR_EQUALVERIFY).
Proof using Hsg Hkey Hh Hneq.
  intros Hwp Hcw. unfold VerifyScript. rewrite p2pkh_sig_push_only, andb_false_r, eval_p2pkh_sig. cbn [mbind res_bind].
  destruct p2pkh_forms as [Ew Ep]. unfold EvalScript, verify_witness. rewrite eval_p2pkh, Ew, Ep, andb_false_r.
  destruct (bool_decide (Hash160 key = h)) eqn:Eh; [apply bool_decide_eq_true in Eh|apply bool_decide_eq_false in Eh; split; [|done]].
  2: { split; [done|]. by intros (? & _). }
  split; [|done]. unfold checksig_outcome.
  destruct (CheckSignatureEncoding sg flags) as [e|[]]; [split; [by destruct e|naive_solver]|].
  destruct (CheckPubKeyEncoding key flags SIGVERSION_BASE) as [e|[]]; [split; [by destruct e|naive_solver]|].
  cbn [mbind res_bind]. destruct (CheckSig _ _ _ _ _); cbn [negb andb].
  - split; [done|]. intros _. cbn [vchBool check_top CastToBool vchTrue mbind res_bind mret res_ret].
    destruct (has flags SCRIPT_VERIFY_WITNESS), (has flags SCRIPT_VERIFY_CLEANSTACK), (has flags SCRIPT_VERIFY_P2SH);
      try done; by (specialize (Hwp eq_refl) || specialize (Hcw eq_refl)).
  - split; [by destruct (has flags SCRIPT_VERIFY_NULLFAIL)|naive_solver].
Qed.
End p2pkh.

Lemma p2pkh_spend_witness :
  VerifyScript (H := toy_crypto) SCRIPT_VERIFY_P2SH toy_checker (p2pkh_sig [1; 2] [3; 4]) (p2pkh (replicate 20 0)) [] = inr tt.
Proof.
  destruct (p2pkh_spend (C := toy_crypto) SCRIPT_VERIFY_P2SH toy_checker [1; 2] [3; 4] (replicate 20 0)) as [H _];
    [split; discriminate|split; discriminate|reflexivity|discriminate|intros H; discriminate H|intros H; discriminate H|].
  apply H. repeat split; reflexivity.
Defined.

(** ** Matching signatures to keys *)

(** The order-preserving matching that [OP_CHECKMULTISIG] looks for, greedily. *)
Fixpoint greedy_match (ok : valtype → valtype → bool) (sigs keys : list valtype) : bool :=
  match keys with
  | [] => match sigs with [] => true | _ => false end
  | k :: keys =>
      match sigs with
      | [] => true
      | sg :: sigs' => if ok sg k then greedy_match ok sigs' keys else greedy_match ok sigs keys
      end
  end.

Lemma greedy_nil ok keys : greedy_match ok [] keys = true.
Proof. by destruct keys. Qed.

(** Dropping the last signatures keeps a match. *)
Lemma greedy_tail ok keys : ∀ sg sigs, greedy_match ok (sg :: sigs) keys = true → greedy_match ok sigs keys = true.
Proof.
  induction keys as [|k keys IH]; intros sg sigs H; [done|]. cbn [greedy_match] in H.
  destruct sigs as [|sg' sigs]; [done|]. cbn [greedy_match].
  destruct (ok sg k).
  - destruct (ok sg' k); [by eapply IH|done].
  - apply IH in H. destruct (ok sg' k); [by eapply IH|done].
Qed.

(** Greedy matching finds a matching whenever there is one. *)
Lemma greedy_complete ok sigs keys :
  greedy_match ok sigs keys = true ↔ ∃ ks, ks `sublist_of` keys ∧ Forall2 (λ sg k, ok sg k = true) sigs ks.
Proof.
  split.
  - revert sigs. induction keys as [|k keys IH]; intros sigs H; simpl in H.
    + destruct sigs; [|done]. by exists [].
    + destruct sigs as [|sg sigs]; [exists []; split; [apply sublist_nil_l|constructor]|].
      destruct (ok sg k) eqn:E; apply IH in H as (ks & Hsub & Hf).
      * exists (k :: ks). split; [by constructor|by constructor].
      * exists ks. split; [by constructor|done].
  - intros (ks & Hsub & Hf). revert sigs Hf. induction Hsub as [|k ks keys Hsub IH|k ks keys Hsub IH]; intros sigs Hf.
    + inversion Hf. done.
    + inversion Hf as [|sg ? sigs' ? Hok Hf']; subst. cbn [greedy_match]. rewrite Hok. by apply IH.
    + apply IH in Hf. cbn [greedy_match]. destruct sigs as [|sg sigs]; [done|].
      destruct (ok sg k); [by eapply greedy_tail|done].
Qed.

Lemma greedy_short ok sigs keys : (length keys < length sigs)%nat → greedy_match ok sigs keys = false.
Proof.
  intros Hl. apply not_true_iff_false. intros (ks & Hsub & Hf)%greedy_complete.
  apply Forall2_length in Hf. apply sublist_length in Hsub. lia.
Qed.

Section multisig.
Context {C : Crypto} (flags : Z) (checker : BaseSignatureChecker) (sigversion : SigVersion).
(** Every signature and key passes the encoding rules of the flags. *)
Context (Henc : ∀ v, CheckSignatureEncoding v flags = inr tt) (Hkeyenc : ∀ v, CheckPubKeyEncoding v flags sigversion = inr tt).

Lemma take_drop_cons (s : stack_t) i n v : s !! i = Some v → take (S n) (drop i s) = v :: take n (drop (S i) s).
Proof. intros E. by rewrite (drop_S _ _ _ E). Qed.

Lemma stacktop_lookup (s : stack_t) i : (i < length s)%nat → ∃ v, s !! i = Some v ∧ stacktop s (S i) = inr v.
Proof.
  intros Hi. destruct (lookup_lt_is_Some_2 s i Hi) as [v E]. exists v. split; [done|].
  cbn. by rewrite E.
Qed.

Lemma multisig_loop_greedy nKeys : ∀ s code isig ikey nSigs,
  (nSigs <= nKeys)%nat → (isig + nSigs <= length s)%nat → (ikey + nKeys <= length s)%nat →
  multisig_loop flags checker sigversion nKeys s code (S isig) (S ikey) (Z.of_nat nSigs) (Z.of_nat nKeys) =
    inr (greedy_match (λ sg k, CheckSig checker sg k code sigversion)
           (take nSigs (drop isig s)) (take nKeys (drop ikey s))).
Proof using Henc Hkeyenc.
  induction nKeys as [|nKeys IH]; intros s code isig ikey nSigs Hle Hsi Hsk.
  { assert (nSigs = 0)%nat as -> by lia. done. }
  destruct nSigs as [|nSigs]; [by rewrite take_0, greedy_nil|]. cbn [multisig_loop]. rewrite (proj2 (Z.leb_gt _ 0)) by lia.
  destruct (stacktop_lookup s isig) as (sg & Es & ->); [lia|]. destruct (stacktop_lookup s ikey) as (k & Ek & ->); [lia|].
  cbn [mbind res_bind]. rewrite Henc, Hkeyenc. cbn [mbind res_bind]. cbv zeta.
  rewrite (take_drop_cons s isig nSigs sg Es), (take_drop_cons s ikey nKeys k Ek). cbn [greedy_match].
  replace (Z.of_nat (S nKeys) - 1) with (Z.of_nat nKeys) by lia.
  destruct (CheckSig checker sg k code sigversion).
  - replace (Z.of_nat (S nSigs) - 1) with (Z.of_nat nSigs) by lia. rewrite (proj2 (Z.ltb_ge _ _)) by lia. apply IH; lia.
  - destruct (Z.ltb_spec (Z.of_nat nKeys) (Z.of_nat (S nSigs))).
    + rewrite <- (take_drop_cons s isig nSigs sg Es), greedy_short; [done|]. rewrite !length_take, !length_drop. lia.
    + rewrite IH by lia. by rewrite (take_drop_cons s isig nSigs sg Es).
Qed.

(** [OP_CHECKMULTISIG]. With all encodings accepted, the loop over keys and signatures
    always finishes within the number of keys and succeeds exactly when the signatures can
    be matched, in order, to a subsequence of the keys that validates them. *)
Theorem multisig_matching s code isig ikey nSigs nKeys :
  (nSigs <= nKeys)%nat → (isig + nSigs <= length s)%nat → (ikey + nKeys <= length s)%nat →
  ∃ b, multisig_loop flags checker sigversion nKeys s code (S isig) (S ikey) (Z.of_nat nSigs) (Z.of_nat nKeys) = inr b ∧
  (b = true ↔ ∃ ks, ks `sublist_of` take nKeys (drop ikey s) ∧
                Forall2 (λ sg k, CheckSig checker sg k code sigversion = true) (take nSigs (drop isig s)) ks).
Proof using Henc Hkeyenc.
  intros. eexists. rewrite multisig_loop_greedy by done. split; [done|]. apply greedy_complete.
Qed.
End multisig.

(** A checker that accepts a signature for the key that equals it. *)
Definition eq_checker : BaseSignatureChecker :=
  {| CheckSig := λ sg k _ _, bool_decide (sg = k); CheckLockTime := λ _, true; CheckSequence := λ _, true |}.

Lemma multisig_matching_witness : ∃ b,
  multisig_loop (H := toy_crypto) 0 eq_checker SIGVERSION_BASE 3 [[3]; [2]; [1]; [3]; [1]] [] 4 1 2 3 = inr b ∧
  (b = true ↔ ∃ ks, ks `sublist_of` [[3]; [2]; [1]] ∧ Forall2 (λ sg k, bool_decide (sg = k) = true) [[3]; [1]] ks).
Proof.
  apply (multisig_matching (C := toy_crypto) 0 eq_checker SIGVERSION_BASE) with (isig := 3%nat) (ikey := 0%nat) (nSigs := 2%nat);
    [intros v; unfold CheckSignatureEncoding; destruct (size v =? 0); reflexivity|intros v; reflexivity|simpl; lia..].
Defined.

(** ** The script code of a signature digest *)
Definition separator : list Z := [opcode_val OP_CODESEPARATOR].

Lemma GetOp_head b pc op d pc' : GetOp (b :: pc) = Some (op, d, pc') →
  op = opcode_of b ∧ (b = opcode_val OP_CODESEPARATOR → pc' = pc).
Proof.
  unfold GetOp, GetOp2. destruct (b <=? opcode_val OP_PUSHDATA4) eqn:E.
  - intros H. split; [|intros ->; done]. revert H. destruct (if b <? opcode_val OP_PUSHDATA1 then _ else _) as [|[n pc1]]; [done|].
    destruct (size pc1 <? n); [done|]. by intros [= <- _ _].
  - by intros [= <- _ <-].
Qed.

Lemma starts_separator b pc op d pc' : GetOp (b :: pc) = Some (op, d, pc') →
  bool_decide (take (length separator) (b :: pc) = separator) = bool_decide (op = OP_CODESEPARATOR).
Proof.
  intros G. apply GetOp_head in G as [-> _]. unfold separator. cbn [length take].
  apply bool_decide_ext. split.
  - intros [= ->]. done.
  - intros E. apply (f_equal opcode_val) in E. rewrite opcode_val_of in E. by subst.
Qed.

(** One operation of the reference, on a script that can be read. *)
Lemma delete_separator f b pc op d pc' : GetOp (b :: pc) = Some (op, d, pc') →
  delete_ref (S f) separator (b :: pc) =
    let '(r, n) := delete_ref f separator pc' in
    if bool_decide (op = OP_CODESEPARATOR) then (r, n + 1)
    else (take (length (b :: pc) - length pc') (b :: pc) ++ r, n).
Proof.
  intros G. cbn [delete_ref]. rewrite (starts_separator _ _ _ _ _ G), G.
  destruct (bool_decide (op = OP_CODESEPARATOR)) eqn:E; [|done].
  apply bool_decide_eq_true in E as ->. pose proof (GetOp_head _ _ _ _ _ G) as [E Hpc].
  apply (f_equal opcode_val) in E. rewrite opcode_val_of in E. rewrite Hpc by done. done.
Qed.

Lemma complete_step pc op d pc' : GetOp pc = Some (op, d, pc') → complete pc = complete pc'.
Proof. intros G. unfold complete. rewrite (parse_unfold pc), G. by destruct (parse pc'). Qed.

Lemma complete_stuck pc : GetOp pc = None → complete pc = true → pc = [].
Proof. intros G. unfold complete. rewrite parse_unfold, G. simpl. by intros ?%bool_decide_eq_true. Qed.

Lemma count_separators_ref pc : complete pc = true → ∀ f g n, (length pc <= f)%nat → (length pc < g)%nat →
  count_separators f pc n = n + (delete_ref g separator pc).2.
Proof.
  induction pc as [pc IH] using script_ind. intros Hc f g n Hf Hg. destruct g as [|g]; [lia|].
  destruct pc as [|b pc]; [destruct f; simpl; lia|]. destruct f as [|f]; [simpl in Hf; lia|]. cbn [count_separators].
  destruct (GetOp (b :: pc)) as [[[op d] pc']|] eqn:G; [|by apply complete_stuck in Hc].
  rewrite (delete_separator g _ _ _ _ _ G). pose proof (complete_step _ _ _ _ G) as Hc'. rewrite Hc in Hc'.
  pose proof (GetOp_suffix _ _ _ _ G) as (_ & _ & _ & L). simpl in *.
  rewrite (IH op d pc' eq_refl) with (g := g) by (done || lia).
  destruct (delete_ref g separator pc') as [r m]. destruct (bool_decide (op = OP_CODESEPARATOR)); simpl; lia.
Qed.

Lemma write_pieces_ref it : complete it = true → ∀ q f g, (length it < f)%nat → (length it < g)%nat →
  write_pieces f (q ++ it) it = q ++ (delete_ref g separator it).1.
Proof.
  induction it as [it IH] using script_ind. intros Hc q f g Hf Hg. destruct f as [|f]; [lia|]. destruct g as [|g]; [lia|].
  destruct it as [|b it].
  { cbn. rewrite bool_decide_false by done. cbn [fst]. rewrite app_nil_r.
    destruct q; [done|]. by rewrite Nat.sub_0_r, take_ge by lia. }
  destruct (GetOp (b :: it)) as [[[op d] it']|] eqn:G; [|by apply complete_stuck in Hc].
  rewrite (delete_separator g _ _ _ _ _ G). pose proof (complete_step _ _ _ _ G) as Hc'. rewrite Hc in Hc'.
  pose proof (GetOp_suffix _ _ _ _ G) as (p & _ & Ep & L). cbn [write_pieces].
  assert (GetOp2 (b :: it) = (true, op, d, it')) as G2.
  { unfold GetOp in G. destruct (GetOp2 (b :: it)) as [[[[] ?] ?] ?]; [congruence|done]. }
  rewrite G2. pose proof (IH op d it' eq_refl (eq_sym Hc')) as IH'. simpl in Hf, Hg, L.
  destruct (bool_decide (op = OP_CODESEPARATOR)) eqn:E.
  - apply bool_decide_eq_true in E as ->. pose proof (GetOp_head _ _ _ _ _ G) as [E Hpc].
    apply (f_equal opcode_val) in E. rewrite opcode_val_of in E. rewrite Hpc in * by done.
    pose proof (IH' [] f g ltac:(lia) ltac:(lia)) as W. simpl in W. rewrite W.
    destruct (delete_ref g separator it) as [r m]. simpl. f_equal. rewrite length_app. simpl.
    replace (length q + S (length it) - length it - 1)%nat with (length q) by lia. by rewrite take_app_length.
  - rewrite Ep, app_assoc. rewrite (IH' (q ++ p) f g) by lia. destruct (delete_ref g separator it') as [r m]. simpl.
    by rewrite length_app, Nat.add_sub, take_app_length, <- app_assoc.
Qed.

Lemma script_code_complete s : complete s = true →
  SerializeScriptCode s = Serialize.Serialize_bytes (FindAndDelete s separator).1.
Proof.
  intros Hc. unfold SerializeScriptCode, Serialize.Serialize_bytes. rewrite FindAndDelete_ref by done.
  rewrite (count_separators_ref s Hc (length s) (S (length s))) by lia.
  pose proof (write_pieces_ref s Hc [] (S (length s)) (S (length s)) ltac:(lia) ltac:(lia)) as W. cbn [app] in W. rewrite W.
  f_equal. f_equal.
  destruct (delete_ref_length separator ltac:(done) s (S (length s))) as (_ & E & _). unfold size in *.
  change (Z.of_nat (length separator)) with 1 in E. lia.
Qed.

(** ** What a signature commits to *)
Section scope.
Import Transaction.

(** The parts of the transaction that the hash type selects, for the input [nIn]. *)
Definition same_input (ht : Z) (signed : bool) (i i' : CTxIn) : Prop :=
  prevout i = prevout i' ∧
  ((signed || negb (fHashSingle ht || fHashNone ht))%bool = true → nSequence i = nSequence i').
Record same_scope (ht : Z) (nIn : nat) (tx tx' : CMutableTransaction) : Prop := {
  ss_version : tx_nVersion tx = tx_nVersion tx';
  ss_lock : nLockTime tx = nLockTime tx';
  ss_signed : ∃ i i', vin tx !! nIn = Some i ∧ vin tx' !! nIn = Some i' ∧ same_input ht true i i';
  ss_others : fAnyoneCanPay ht = false → length (vin tx) = length (vin tx') ∧
    ∀ k i i', vin tx !! k = Some i → vin tx' !! k = Some i' → same_input ht (k =? nIn)%nat i i';
  ss_outs : fHashNone ht = false →
    if fHashSingle ht then ∃ o, vout tx !! nIn = Some o ∧ vout tx' !! nIn = Some o else vout tx = vout tx' }.

Lemma mapM_ext_Forall {A B} (f g : A → option B) l : Forall (λ x, f x = g x) l → mapM f l = mapM g l.
Proof. induction 1 as [|x l Hx _ IH]; [done|]. simpl. by rewrite Hx, IH. Qed.

Lemma SerializeInput_scope ht nIn tx tx' code k : same_scope ht nIn tx tx' →
  (fAnyoneCanPay ht = false → (k < length (vin tx))%nat) →
  SerializeInput tx code nIn ht k = SerializeInput tx' code nIn ht k.
Proof.
  intros [_ _ (i & i' & Ei & Ei' & Hp & Hq) Ho _] Hk. unfold SerializeInput. destruct (fAnyoneCanPay ht).
  - rewrite Ei, Ei'. cbn [mbind option_bind]. rewrite Nat.eqb_refl. cbn [negb andb]. by rewrite Hp, Hq.
  - destruct (Ho eq_refl) as [Hl Hin]. specialize (Hk eq_refl).
    destruct (lookup_lt_is_Some_2 (vin tx) k Hk) as [j Ej]. destruct (lookup_lt_is_Some_2 (vin tx') k ltac:(lia)) as [j' Ej'].
    destruct (Hin _ _ _ Ej Ej') as [Hpj Hqj]. rewrite Ej, Ej'. cbn [mbind option_bind]. rewrite Hpj. do 3 f_equal.
    destruct (k =? nIn)%nat; cbn [negb andb orb] in *; [by rewrite Hqj|].
    destruct (fHashSingle ht || fHashNone ht)%bool; [done|]. by rewrite Hqj.
Qed.

Lemma SerializeOutput_scope ht nIn tx tx' k : same_scope ht nIn tx tx' → fHashNone ht = false →
  SerializeOutput tx nIn ht k = SerializeOutput tx' nIn ht k.
Proof.
  intros [_ _ _ _ Ho] Hn. specialize (Ho Hn). unfold SerializeOutput. destruct (fHashSingle ht); simpl.
  - destruct Ho as (o & E & E'). destruct (Nat.eqb_spec k nIn) as [->|]; [|done]. simpl. by rewrite E, E'.
  - by rewrite Ho.
Qed.

Lemma Serialize_sigtx_scope ht nIn tx tx' code : same_scope ht nIn tx tx' →
  Serialize_sigtx tx code nIn ht = Serialize_sigtx tx' code nIn ht.
Proof.
  intros Hss. pose proof Hss as [Hv Hlock (i & i' & Ei & Ei' & _) Hoth Hout]. unfold Serialize_sigtx. cbv zeta.
  rewrite <- Hv, <- Hlock.
  assert ((if fAnyoneCanPay ht then 1 else length (vin tx)) = if fAnyoneCanPay ht then 1 else length (vin tx'))%nat as Ein.
  { destruct (fAnyoneCanPay ht); [done|]. by destruct (Hoth eq_refl). }
  rewrite <- Ein. rewrite (mapM_ext_Forall (SerializeInput tx code nIn ht) (SerializeInput tx' code nIn ht)).
  2: { apply Forall_forall. intros k Hk%in_seq. apply SerializeInput_scope; [done|].
       intros E. rewrite E in Hk. lia. }
  destruct (fHashNone ht) eqn:En; [done|]. specialize (Hout eq_refl).
  rewrite (mapM_ext_Forall (SerializeOutput tx nIn ht) (SerializeOutput tx' nIn ht)).
  2: { apply Forall_forall. intros k _. by apply SerializeOutput_scope. }
  destruct (fHashSingle ht); [done|]. by rewrite Hout.
Qed.

(** Signature digests. The cached hashes of [PrecomputedTransactionData] never change a
    digest. A pre-segwit digest depends only on what its hash type selects: not on the
    scripts of the inputs, not on the other inputs with [ANYONECANPAY], not on their
    sequence numbers with [NONE] or [SINGLE], not on the outputs that [NONE] or [SINGLE]
    leave out. For a script that can be read to its end, the script code that is hashed is
    the script without its code separators, as a byte vector. [SINGLE] without a matching
    output always gives the digest 1. *)
Theorem sighash_scope `{Crypto} tx tx' code nIn ht amount sigversion :
  SignatureHash tx code nIn ht amount sigversion (Some (PrecomputedTransactionData_of tx)) =
    SignatureHash tx code nIn ht amount sigversion None ∧
  (same_scope ht nIn tx tx' →
     SignatureHash tx code nIn ht amount SIGVERSION_BASE None = SignatureHash tx' code nIn ht amount SIGVERSION_BASE None) ∧
  (complete code = true → SerializeScriptCode code = Serialize.Serialize_bytes (FindAndDelete code separator).1) ∧
  (fHashSingle ht = true → (length (vout tx) <= nIn)%nat →
     SignatureHash tx code nIn ht amount SIGVERSION_BASE None = Some one).
Proof.
  split_and!.
  - done.
  - intros Hss. pose proof Hss as [_ _ (i & i' & Ei & Ei' & _) _ Hout]. unfold SignatureHash.
    rewrite bool_decide_false by done. apply lookup_lt_Some in Ei, Ei'.
    rewrite !(proj2 (Nat.leb_gt (length (vin _)) nIn)) by done. rewrite (Serialize_sigtx_scope ht nIn tx tx') by done.
    destruct (fHashSingle ht) eqn:Es; [|done]. assert (fHashNone ht = false) as En.
    { unfold fHashSingle, fHashNone in *. apply Z.eqb_eq in Es. by rewrite Es. }
    destruct (Hout En) as (o & Eo & Eo'). apply lookup_lt_Some in Eo, Eo'.
    by rewrite !(proj2 (Nat.leb_gt (length (vout _)) nIn)) by done.
  - apply script_code_complete.
  - intros Es Hl. unfold SignatureHash. rewrite bool_decide_false, Es by done. destruct (_ <=? _)%nat; [done|].
    by rewrite (proj2 (Nat.leb_le _ _)) by done.
Qed.
End scope.

Definition sample_spend : Transaction.CMutableTransaction :=
  Transaction.mkTx 2 [Transaction.mkTxIn (Transaction.mkOutPoint (replicate 32 7) 1) [0x51] 5] [Transaction.mkTxOut 10 [0x52] 0] [] 100.

Lemma sighash_scope_witness :
  SignatureHash (H := toy_crypto) sample_spend [0x51] 0 SIGHASH_NONE 0 SIGVERSION_BASE None =
  SignatureHash (H := toy_crypto)
    (Transaction.mkTx 2 (Transaction.vin sample_spend) [] [] 100) [0x51] 0 SIGHASH_NONE 0 SIGVERSION_BASE None.
Proof.
  apply (sighash_scope (H := toy_crypto) sample_spend
    (Transaction.mkTx 2 (Transaction.vin sample_spend) [] [] 100) [0x51] 0 SIGHASH_NONE 0 SIGVERSION_BASE).
  split; [reflexivity|reflexivity|eexists _, _; repeat split; reflexivity| |intros H; discriminate H].
  intros _. split; [reflexivity|]. intros k i i' E E'. change (Transaction.vin sample_spend !! k = Some i') in E'. rewrite E in E'. injection E' as <-. repeat split; reflexivity.
Defined.
End SpendSpec.
