(* ===== verification/Merkle.v ===== *)
(** * Merkle trees (consensus/merkle.cpp)

    The constant-space root and branch calculator, its reference definition as a recursive
    tree, and what roots and branches prove: equivalence with the reference, correctness of
    branches, and that an unmutated list is determined by its root and height up to
    collisions. *)
From stdpp Require Import base list numbers option.
From S2P Require Import Prelude Uint256 Transaction Interpreter.
Open Scope Z_scope.

Module Merkle.
Import Interpreter.
Notation uint256 := (list Z).

Section merkle.
Context `{Crypto}.

(** [CHash256().Write(a).Write(b).Finalize()], also [Hash(a, b)] of hash.h. *)
Definition node (a b : uint256) : uint256 := Hash256 (a ++ b).

(** ** The calculator. [pbranch] says whether a branch is asked for. The array [inner] has 32
    entries; [None] is an access outside it. *)
Section computation.
Context (pbranch : bool) (branchpos : Z).

(** What the levels add to the branch, and the new [matchh]. *)
Definition track (matchlevel : Z) (level : nat) (il h : uint256) (matchh : bool) (branch : list uint256) : bool * list uint256 :=
  if pbranch then
    if matchh then (true, branch ++ [il])
    else if matchlevel =? Z.of_nat level then (true, branch ++ [h])
    else (matchh, branch)
  else (matchh, branch).

(** The loop [for (level...; !(count & (1 << level)); level++)] that combines a subtree with the ones
    to its left. The last sweep has the same loop, without looking at [mutated]. *)
Fixpoint combine_loop (fuel : nat) (inner : list uint256) (matchlevel count : Z) (level : nat)
    (h : uint256) (matchh mutated : bool) (branch : list uint256) : option (nat * uint256 * bool * bool * list uint256) :=
  match fuel with
  | O => None
  | S fuel =>
      if Z.testbit count (Z.of_nat level) then Some (level, h, matchh, mutated, branch)
      else
        let il := inner !!! level in
        let '(matchh, branch) := track matchlevel level il h matchh branch in
        combine_loop fuel inner matchlevel count (S level) (node il h) matchh (mutated || bool_decide (il = h)) branch
  end.

Record mstate := mkM { m_inner : list uint256; m_matchlevel : Z; m_mutated : bool; m_branch : list uint256 }.

Definition process_leaf (st : mstate) (count : Z) (leaf : uint256) : option mstate :=
  let matchh := count =? branchpos in
  let count := u32 (count + 1) in
  match combine_loop 32 (m_inner st) (m_matchlevel st) count 0 leaf matchh (m_mutated st) (m_branch st) with
  | None => None
  | Some (level, h, matchh, mutated, branch) =>
      Some (mkM (<[level := h]> (m_inner st)) (if matchh then Z.of_nat level else m_matchlevel st) mutated branch)
  end.

(** [while (count < leaves.size())], for fewer than 2^32 leaves. *)
Fixpoint process_leaves (st : mstate) (count : Z) (leaves : list uint256) : option (mstate * Z) :=
  match leaves with
  | [] => Some (st, count)
  | leaf :: leaves => st ← process_leaf st count leaf; process_leaves st (u32 (count + 1)) leaves
  end.

Fixpoint lowest_level (fuel : nat) (count : Z) (level : nat) : option nat :=
  match fuel with
  | O => None
  | S fuel => if Z.testbit count (Z.of_nat level) then Some level else lowest_level fuel count (S level)
  end.

Fixpoint sweep (fuel : nat) (inner : list uint256) (matchlevel count : Z) (level : nat) (h : uint256) (matchh : bool)
    (branch : list uint256) : option (uint256 * list uint256) :=
  match fuel with
  | O => None
  | S fuel =>
      if count =? Z.shiftl 1 (Z.of_nat level) then Some (h, branch)
      else
        let branch := if (pbranch && matchh)%bool then branch ++ [h] else branch in
        let h := node h h in
        let count := u32 (count + Z.shiftl 1 (Z.of_nat level)) in
        match combine_loop (31 - level) inner matchlevel count (S level) h matchh false branch with
        | None => None
        | Some (level, h, matchh, _, branch) => sweep fuel inner matchlevel count level h matchh branch
        end
  end.

Definition final_sweep (st : mstate) (count : Z) : option (uint256 * list uint256) :=
  level ← lowest_level 32 count 0;
  sweep 32 (m_inner st) (m_matchlevel st) count level (m_inner st !!! level)
    (m_matchlevel st =? Z.of_nat level) (m_branch st).

Definition MerkleComputation (leaves : list uint256) : option (uint256 * bool * list uint256) :=
  match leaves with
  | [] => Some (Uint256.blob_null Uint256.WIDTH, false, [])
  | _ =>
      '(st, count) ← process_leaves (mkM (replicate 32 (Uint256.blob_null Uint256.WIDTH)) (-1) false []) 0 leaves;
      '(h, branch) ← final_sweep st count;
      Some (h, m_mutated st, branch)
  end.
End computation.

Definition ComputeMerkleRoot (leaves : list uint256) : option (uint256 * bool) :=
  '(root, mutated, _) ← MerkleComputation false (u32 (-1)) leaves; Some (root, mutated).
Definition ComputeMerkleBranch (leaves : list uint256) (position : Z) : option (list uint256) :=
  '(_, _, branch) ← MerkleComputation true position leaves; Some branch.

Fixpoint ComputeMerkleRootFromBranch (hash : uint256) (vMerkleBranch : list uint256) (nIndex : Z) : uint256 :=
  match vMerkleBranch with
  | [] => hash
  | b :: l =>
      ComputeMerkleRootFromBranch (if Z.testbit nIndex 0 then node b hash else node hash b) l (Z.shiftr nIndex 1)
  end.

(** The trees over the transactions of a block. *)
Definition BlockMerkleRoot (vtx : list Transaction.CMutableTransaction) : option (uint256 * bool) :=
  leaves ← mapM (Transaction.GetHash Hash256) vtx; ComputeMerkleRoot leaves.
Definition BlockWitnessMerkleRoot (vtx : list Transaction.CMutableTransaction) : option (uint256 * bool) :=
  match vtx with
  | [] => None
  | _ :: vtx =>
      leaves ← mapM (Transaction.GetWitnessHash Hash256) vtx;
      ComputeMerkleRoot (Uint256.blob_null Uint256.WIDTH :: leaves)
  end.
Definition BlockMerkleBranch (vtx : list Transaction.CMutableTransaction) (position : Z) : option (list uint256) :=
  leaves ← mapM (Transaction.GetHash Hash256) vtx; ComputeMerkleBranch leaves position.

(** ** The reference: the tree of height [k] over at most [2 ^ k] leaves *)
Fixpoint tree (k : nat) (l : list uint256) : uint256 :=
  match k with
  | O => hd [] l
  | S k => if (length l <=? 2 ^ k)%nat then node (tree k l) (tree k l)
           else node (tree k (take (2 ^ k) l)) (tree k (drop (2 ^ k) l))
  end.
(** Some two full sibling subtrees are equal. *)
Fixpoint has_twins (k : nat) (l : list uint256) : bool :=
  match k with
  | O => false
  | S k =>
      if (length l <=? 2 ^ k)%nat then has_twins k l
      else let a := take (2 ^ k) l in let b := drop (2 ^ k) l in
           has_twins k a || has_twins k b || ((length b =? 2 ^ k)%nat && bool_decide (tree k a = tree k b))
  end.
(** The siblings on the path from the leaf at [pos] to the root. *)
Fixpoint siblings (k : nat) (l : list uint256) (pos : nat) : list uint256 :=
  match k with
  | O => []
  | S k =>
      if (length l <=? 2 ^ k)%nat then siblings k l pos ++ [tree k l]
      else if (pos <? 2 ^ k)%nat then siblings k (take (2 ^ k) l) pos ++ [tree k (drop (2 ^ k) l)]
      else siblings k (drop (2 ^ k) l) (pos - 2 ^ k) ++ [tree k (take (2 ^ k) l)]
  end.
Definition height (l : list uint256) : nat := Nat.log2_up (length l).

(** ** The reference tree *)
Lemma pow2_pos k : (0 < 2 ^ k)%nat.
Proof. induction k; simpl; lia. Qed.
Lemma pow2_S k : (2 ^ S k = 2 ^ k + 2 ^ k)%nat.
Proof. simpl. lia. Qed.
Lemma pow2_Z k : Z.of_nat (2 ^ k) = 2 ^ Z.of_nat k.
Proof. rewrite Nat2Z.inj_pow. done. Qed.

(** A left part of [2 ^ k] leaves and a right part that is not empty. *)
Section join.
Context (k : nat) (a b : list uint256) (Ha : length a = (2 ^ k)%nat) (Hb : (0 < length b)%nat).
Lemma join_long : (length (a ++ b) <=? 2 ^ k)%nat = false.
Proof using Ha Hb. apply Nat.leb_gt. rewrite length_app. lia. Qed.
Lemma tree_join : tree (S k) (a ++ b) = node (tree k a) (tree k b).
Proof using Ha Hb. cbn [tree]. rewrite join_long, <- Ha. by rewrite take_app_length, drop_app_length. Qed.
Lemma has_twins_join : has_twins (S k) (a ++ b) =
  has_twins k a || has_twins k b || ((length b =? 2 ^ k)%nat && bool_decide (tree k a = tree k b)).
Proof using Ha Hb. cbn [has_twins]. rewrite join_long. cbv zeta. rewrite <- Ha. by rewrite take_app_length, drop_app_length. Qed.
Lemma siblings_left pos : (pos < 2 ^ k)%nat → siblings (S k) (a ++ b) pos = siblings k a pos ++ [tree k b].
Proof using Ha Hb.
  intros Hp. cbn [siblings]. rewrite join_long, (proj2 (Nat.ltb_lt _ _)) by done. rewrite <- Ha.
  by rewrite take_app_length, drop_app_length.
Qed.
Lemma siblings_right pos : siblings (S k) (a ++ b) (2 ^ k + pos) = siblings k b pos ++ [tree k a].
Proof using Ha Hb.
  cbn [siblings]. rewrite join_long, (proj2 (Nat.ltb_ge _ _)) by lia.
  replace (2 ^ k + pos - 2 ^ k)%nat with pos by lia. rewrite <- Ha. by rewrite take_app_length, drop_app_length.
Qed.
End join.

Lemma tree_dup k l : (length l <= 2 ^ k)%nat → tree (S k) l = node (tree k l) (tree k l).
Proof. intros Hl. cbn [tree]. by rewrite (proj2 (Nat.leb_le _ _)). Qed.
Lemma siblings_dup k l pos : (length l <= 2 ^ k)%nat → siblings (S k) l pos = siblings k l pos ++ [tree k l].
Proof. intros Hl. cbn [siblings]. by rewrite (proj2 (Nat.leb_le _ _)). Qed.
Lemma has_twins_dup k l : (length l <= 2 ^ k)%nat → has_twins (S k) l = has_twins k l.
Proof. intros Hl. cbn [has_twins]. by rewrite (proj2 (Nat.leb_le _ _)). Qed.

Lemma split_leaves {A} k (l : list A) : (2 ^ k < length l <= 2 ^ S k)%nat →
  ∃ a b, l = a ++ b ∧ length a = (2 ^ k)%nat ∧ (0 < length b <= 2 ^ k)%nat.
Proof.
  rewrite pow2_S. intros Hl. exists (take (2 ^ k) l), (drop (2 ^ k) l). rewrite take_drop, length_take, length_drop. split; [done|lia].
Qed.

(** Induction on the shape of the tree. *)
Lemma tree_ind (P : nat → list uint256 → Prop) :
  (∀ x, P O [x]) →
  (∀ k l, (0 < length l <= 2 ^ k)%nat → P k l → P (S k) l) →
  (∀ k a b, length a = (2 ^ k)%nat → (0 < length b <= 2 ^ k)%nat → P k a → P k b → P (S k) (a ++ b)) →
  ∀ k l, (0 < length l <= 2 ^ k)%nat → P k l.
Proof.
  intros H0 H1 H2 k. induction k as [|k IH]; intros l Hl.
  - destruct l as [|x [|]]; simpl in Hl; try lia. apply H0.
  - destruct (decide (length l <= 2 ^ k)%nat) as [Hle|Hgt]; [apply H1; [lia|apply IH; lia]|].
    destruct (split_leaves k l) as (a & b & -> & Ha & Hb); [lia|]. pose proof (pow2_pos k).
    apply H2; [done|done|apply IH; lia|apply IH; lia].
Qed.

Lemma siblings_length k l pos : length (siblings k l pos) = k.
Proof.
  revert l pos. induction k as [|k IH]; intros l pos; [done|]. cbn [siblings].
  repeat case_match; rewrite length_app, IH; simpl; lia.
Qed.

(** *** Branches *)
Lemma from_branch_snoc h l x n : 0 <= n →
  ComputeMerkleRootFromBranch h (l ++ [x]) n =
  let r := ComputeMerkleRootFromBranch h l n in if Z.testbit n (Z.of_nat (length l)) then node x r else node r x.
Proof.
  revert h n. induction l as [|y l IH]; intros h n Hn; [done|].
  cbn [app ComputeMerkleRootFromBranch length]. rewrite IH by (apply Z.shiftr_nonneg; lia).
  cbv zeta. rewrite Z.shiftr_spec by lia. by replace (Z.of_nat (length l) + 1) with (Z.of_nat (S (length l))) by lia.
Qed.
Lemma from_branch_ext h l n m : (∀ i, 0 <= i < Z.of_nat (length l) → Z.testbit n i = Z.testbit m i) →
  ComputeMerkleRootFromBranch h l n = ComputeMerkleRootFromBranch h l m.
Proof.
  revert h n m. induction l as [|y l IH]; intros h n m E; [done|]. cbn [ComputeMerkleRootFromBranch]. cbn [length] in E.
  rewrite (E 0) by lia. apply IH. intros i Hi. rewrite !Z.shiftr_spec by lia. apply E. lia.
Qed.

Lemma testbit_level_small k n : 0 <= n < 2 ^ Z.of_nat k → Z.testbit n (Z.of_nat k) = false.
Proof. intros Hn. destruct (decide (n = 0)) as [->|]; [apply Z.bits_0|]. apply Z.bits_above_log2; [lia|]. apply Z.log2_lt_pow2; lia. Qed.
Lemma testbit_add_pow k n i : 0 <= n < 2 ^ Z.of_nat k → 0 <= i <= Z.of_nat k →
  Z.testbit (2 ^ Z.of_nat k + n) i = if decide (i = Z.of_nat k) then true else Z.testbit n i.
Proof.
  intros Hn Hi. destruct (decide (i = Z.of_nat k)) as [->|Hne].
  - rewrite Z.testbit_true by lia. rewrite <- (Z.mul_1_l (2 ^ Z.of_nat k)) at 1.
    rewrite Z.div_add_l, (Z.div_small n) by lia. done.
  - rewrite <- (Z.mod_pow2_bits_low (2 ^ Z.of_nat k + n) (Z.of_nat k) i) by lia.
    rewrite <- (Z.mod_pow2_bits_low n (Z.of_nat k) i) by lia. f_equal.
    rewrite <- (Z.mul_1_l (2 ^ Z.of_nat k)) at 1. by rewrite Z.add_comm, Z.mod_add by lia.
Qed.

Lemma siblings_correct k l : (0 < length l <= 2 ^ k)%nat →
  ∀ pos leaf, l !! pos = Some leaf → ComputeMerkleRootFromBranch leaf (siblings k l pos) (Z.of_nat pos) = tree k l.
Proof.
  revert k l. apply (tree_ind (λ k l, ∀ pos leaf, l !! pos = Some leaf →
    ComputeMerkleRootFromBranch leaf (siblings k l pos) (Z.of_nat pos) = tree k l)).
  - intros x [|pos] leaf E; [|done]. by injection E as ->.
  - intros k l Hl IH pos leaf E. pose proof (lookup_lt_Some _ _ _ E) as Hp.
    rewrite siblings_dup, tree_dup, from_branch_snoc by lia. cbv zeta.
    rewrite siblings_length, testbit_level_small by (rewrite <- pow2_Z; lia). by rewrite IH.
  - intros k a b Ha Hb IHa IHb pos leaf E. pose proof (lookup_lt_Some _ _ _ E) as Hp. rewrite length_app in Hp.
    rewrite tree_join by (done || lia). destruct (decide (pos < 2 ^ k)%nat) as [Hlt|Hge].
    + rewrite lookup_app_l in E by lia. rewrite siblings_left, from_branch_snoc by (done || lia). cbv zeta.
      rewrite siblings_length, testbit_level_small by (rewrite <- pow2_Z; lia). by rewrite IHa.
    + rewrite lookup_app_r in E by lia. set (p := (pos - length a)%nat) in E. replace pos with (2 ^ k + p)%nat by lia.
      rewrite siblings_right, from_branch_snoc by (done || lia). cbv zeta.
      rewrite siblings_length, Nat2Z.inj_add, pow2_Z, testbit_add_pow by (rewrite <- ?pow2_Z; lia).
      rewrite decide_True by done. f_equal. rewrite <- (IHb p leaf E). apply from_branch_ext.
      rewrite siblings_length. intros i Hi. rewrite testbit_add_pow by (rewrite <- ?pow2_Z; lia). by rewrite decide_False by lia.
Qed.

(** *** The root commits to the leaves *)
Definition collision : Prop := ∃ a b, a ≠ b ∧ Hash256 a = Hash256 b.

Section commits.
Context (Hlen : ∀ l, length (sha256 l) = 32%nat).
Notation leaf_ok := (λ x : uint256, length x = 32%nat).

Lemma tree_length k l : (0 < length l <= 2 ^ k)%nat → Forall leaf_ok l → length (tree k l) = 32%nat.
Proof using Hlen.
  revert k l. apply (tree_ind (λ k l, Forall leaf_ok l → length (tree k l) = 32%nat)).
  - intros x Hx. apply Forall_cons_iff in Hx as [Hx _]. exact Hx.
  - intros k l Hl _ _. rewrite tree_dup by lia. apply Hlen.
  - intros k a b Ha Hb _ _ _. rewrite tree_join by (done || lia). apply Hlen.
Qed.

Lemma node_inj a b c d : length a = length c → node a b = node c d → (a = c ∧ b = d) ∨ collision.
Proof.
  intros Hl E. destruct (decide (a ++ b = c ++ d)) as [Hab|Hab]; [left; by apply app_inj_1|].
  right. by exists (a ++ b), (c ++ d).
Qed.

(** A duplicated right part is only told apart from a list without it by the twins test. *)
Lemma dup_twins k l a b : (0 < length l <= 2 ^ k)%nat → length a = (2 ^ k)%nat → (0 < length b <= 2 ^ k)%nat →
  (∀ x y, (0 < length x <= 2 ^ k)%nat → (0 < length y <= 2 ^ k)%nat → Forall leaf_ok x → Forall leaf_ok y →
     has_twins k x = false → has_twins k y = false → tree k x = tree k y → x = y ∨ collision) →
  Forall leaf_ok l → Forall leaf_ok (a ++ b) → has_twins (S k) (a ++ b) = false →
  tree (S k) l = tree (S k) (a ++ b) → collision.
Proof using Hlen.
  intros Hl Ha Hb IH Fl [Fa Fb]%Forall_app Ht E. pose proof (pow2_pos k).
  rewrite tree_dup, tree_join in E by (done || lia).
  rewrite has_twins_join in Ht by (done || lia). apply orb_false_iff in Ht as [[Hta Htb]%orb_false_iff Ht].
  apply node_inj in E as [[E1 E2]|]; [|done|rewrite !tree_length by (done || lia); done].
  destruct (IH a b) as [->|]; [lia|lia|done|done|done|done|congruence| |done].
  exfalso. rewrite (proj2 (Nat.eqb_eq _ _) Ha), bool_decide_true in Ht; done.
Qed.

Lemma tree_unique k : ∀ l l', (0 < length l <= 2 ^ k)%nat → (0 < length l' <= 2 ^ k)%nat →
  Forall leaf_ok l → Forall leaf_ok l' → has_twins k l = false → has_twins k l' = false →
  tree k l = tree k l' → l = l' ∨ collision.
Proof using Hlen.
  induction k as [|k IH]; intros l l' Hl Hl' Fl Fl' Ht Ht' E.
  - destruct l as [|x [|]], l' as [|x' [|]]; simpl in *; try lia. left. by subst.
  - destruct (decide (length l <= 2 ^ k)%nat) as [Hs|Hs], (decide (length l' <= 2 ^ k)%nat) as [Hs'|Hs'].
    + rewrite !tree_dup in E by done. rewrite !has_twins_dup in Ht, Ht' by done.
      apply node_inj in E as [[E _]|]; [|by right|rewrite !tree_length by (done || lia); done].
      apply IH; (done || lia).
    + destruct (split_leaves k l') as (a & b & -> & Ha & Hb); [lia|]. right. by apply (dup_twins k l a b); [lia|..].
    + destruct (split_leaves k l) as (a & b & -> & Ha & Hb); [lia|]. right. by apply (dup_twins k l' a b); [lia|..].
    + destruct (split_leaves k l) as (a & b & -> & Ha & Hb); [lia|].
      destruct (split_leaves k l') as (a' & b' & -> & Ha' & Hb'); [lia|]. pose proof (pow2_pos k).
      rewrite !tree_join in E by (done || lia). rewrite has_twins_join in Ht by (done || lia).
      rewrite has_twins_join in Ht' by (done || lia).
      apply orb_false_iff in Ht as [[Hta Htb]%orb_false_iff _], Ht' as [[Hta' Htb']%orb_false_iff _].
      apply Forall_app in Fl as [Fa Fb], Fl' as [Fa' Fb'].
      apply node_inj in E as [[Ea Eb]|]; [|by right|rewrite !tree_length by (done || lia); done].
      destruct (IH a a') as [->|]; [lia|lia|done|done|done|done|done| |by right].
      destruct (IH b b') as [->|]; [lia|lia|done|done|done|done|done|by left|by right].
Qed.
End commits.

(** ** The calculator computes the reference

    [blocks level d l m]: the entries of [inner] from [level] on, one for each bit of [d],
    are the roots of the full subtrees that [l] consists of; [m] says whether one of them has
    twins. The entry [matchlevel], if any, is the one whose subtree contains the leaf [pos]
    and [branch] holds the siblings of that leaf in it. *)
Section blocks.
Context (pos : nat).
Inductive blocks (inner : list uint256) (ml : Z) (br : list uint256) : nat → Z → list uint256 → bool → Prop :=
| blocks_nil level : ml < Z.of_nat level → blocks inner ml br level 0 [] false
| blocks_even level d l m : 0 < d → ml ≠ Z.of_nat level → blocks inner ml br (S level) d l m →
    blocks inner ml br level (2 * d) l m
| blocks_odd level d l b m :
    blocks inner ml br (S level) d l m → length b = (2 ^ level)%nat → inner !!! level = tree level b →
    (ml = Z.of_nat level ↔ (length l <= pos < length l + length b)%nat) →
    (ml = Z.of_nat level → br = siblings level b (pos - length l)) →
    blocks inner ml br level (2 * d + 1) (l ++ b) (m || has_twins level b).

Lemma blocks_nonneg inner ml br level d l m : blocks inner ml br level d l m → 0 <= d.
Proof. induction 1; lia. Qed.

(** Changes that no remaining block sees. *)
Lemma blocks_mono inner ml br inner' level d l m :
  blocks inner ml br level d l m → (∀ i, (level <= i)%nat → inner' !!! i = inner !!! i) →
  blocks inner' ml br level d l m.
Proof.
  induction 1 as [level Hml|level d l m Hd Hml _ IH|level d l b m _ IH Hb Hi Hm Hs]; intros Heq.
  - by constructor.
  - constructor; [done|done|]. apply IH. intros i Hi'. apply Heq. lia.
  - constructor; [|done|by rewrite Heq|done|done]. apply IH. intros i Hi'. apply Heq. lia.
Qed.
Lemma blocks_done inner ml br inner' ml' br' level d l m :
  blocks inner ml br level d l m → (∀ i, (level <= i)%nat → inner' !!! i = inner !!! i) →
  (length l <= pos)%nat → ml' < Z.of_nat level → blocks inner' ml' br' level d l m.
Proof.
  induction 1 as [level Hml|level d l m Hd Hml _ IH|level d l b m _ IH Hb Hi Hm Hs]; intros Heq Hp Hml'.
  - by constructor.
  - constructor; [done|lia|]. apply IH; [|done|lia]. intros i Hi'. apply Heq. lia.
  - rewrite length_app in Hp. constructor; [|done|by rewrite Heq|split; lia|lia].
    apply IH; [|lia|lia]. intros i Hi'. apply Heq. lia.
Qed.

Lemma blocks_branch inner ml br br' level d l m :
  blocks inner ml br level d l m → (length l <= pos)%nat → blocks inner ml br' level d l m.
Proof.
  induction 1 as [level Hml|level d l m Hd Hml _ IH|level d l b m _ IH Hb Hi Hm Hs]; intros Hp.
  - by constructor.
  - constructor; auto.
  - rewrite length_app in Hp. constructor; [apply IH; lia|done|done|done|lia].
Qed.
Lemma blocks_inv_odd inner ml br level d l m : blocks inner ml br level d l m → Z.odd d = true →
  ∃ d' l' b m', d = 2 * d' + 1 ∧ l = l' ++ b ∧ m = m' || has_twins level b ∧ blocks inner ml br (S level) d' l' m' ∧
    length b = (2 ^ level)%nat ∧ inner !!! level = tree level b ∧
    (ml = Z.of_nat level ↔ (length l' <= pos < length l' + length b)%nat) ∧
    (ml = Z.of_nat level → br = siblings level b (pos - length l')).
Proof.
  intros Hb Ho. destruct Hb as [level Hml|level d l m Hd Hml Hb|level d l b m Hb Hl Hi Hm Hs]; [done| |].
  - rewrite Z.odd_mul in Ho. done.
  - by exists d, l, b, m.
Qed.
Lemma blocks_inv_even inner ml br level d l m : blocks inner ml br level d l m → Z.odd d = false →
  ∃ d', d = 2 * d' ∧ ml ≠ Z.of_nat level ∧ blocks inner ml br (S level) d' l m.
Proof.
  intros Hb Ho. destruct Hb as [level Hml|level d l m Hd Hml Hb|level d l b m Hb Hl Hi Hm Hs].
  - exists 0. split_and!; [done|lia|constructor; lia].
  - by exists d.
  - rewrite Z.odd_add, Z.odd_mul in Ho. done.
Qed.

(** Whether the subtree [b] to the right of [l], of the current hash, contains the leaf. *)
Definition matched (ml : Z) (level : nat) (l b : list uint256) (matchh : bool) (br : list uint256) : Prop :=
  if matchh then (length l <= pos < length l + length b)%nat ∧ br = siblings level b (pos - length l)
  else ¬ (length l <= pos < length l + length b)%nat ∧ (ml < 0 ∨ Z.of_nat level <= ml).

Lemma track_spec pbranch inner ml br level d l b1 b m matchh :
  blocks inner ml br (S level) d l m → length b1 = (2 ^ level)%nat →
  (ml = Z.of_nat level ↔ (length l <= pos < length l + length b1)%nat) →
  (ml = Z.of_nat level → br = siblings level b1 (pos - length l)) →
  (0 < length b <= 2 ^ level)%nat → matched ml level (l ++ b1) b matchh br →
  pbranch = true ∨ (length (l ++ b1 ++ b) <= pos)%nat →
  let '(matchh', br') := track pbranch ml level (tree level b1) (tree level b) matchh br in
  blocks inner ml br' (S level) d l m ∧ matched ml (S level) l (b1 ++ b) matchh' br' ∧
  (matchh' = false → matchh = false ∧ br' = br).
Proof.
  intros Hbl Hb1 Hml Hbr Hb Hm Hp. unfold track, matched in *. rewrite !length_app in *.
  destruct pbranch; [destruct matchh|destruct matchh; [lia|]].
  - destruct Hm as [Hin ->]. split; [eapply blocks_branch; [done|lia]|]. split; [|done]. split; [lia|].
    replace (pos - length l)%nat with (2 ^ level + (pos - (length l + length b1)))%nat by lia.
    by rewrite siblings_right by (done || lia).
  - destruct Hm as [Hin Hl]. destruct (Z.eqb_spec ml (Z.of_nat level)) as [E|E].
    + pose proof (proj1 Hml E). split; [eapply blocks_branch; [done|lia]|]. split; [|done]. split; [lia|].
      rewrite siblings_left by (done || lia). by rewrite Hbr.
    + split; [done|]. split; [|done]. split; [|lia]. intros Hin'. apply E, Hml. lia.
  - destruct Hm as [Hin Hl]. split; [done|]. split; [|done]. split; [lia|].
    assert (ml ≠ Z.of_nat level) by (intros E; apply Hml in E; lia). lia.
Qed.

Lemma testbit_level c level : Z.testbit (c * 2 ^ Z.of_nat level) (Z.of_nat level) = Z.odd c.
Proof. rewrite Z.mul_pow2_bits by lia. by rewrite Z.sub_diag, Z.bit0_odd. Qed.
Lemma level_bound c level : 0 < c → c * 2 ^ Z.of_nat level <= 2 ^ 31 → (level <= 31)%nat.
Proof.
  intros Hc Hle. destruct (decide (level <= 31)%nat) as [|Hn]; [done|]. exfalso.
  assert (2 ^ 32 <= 2 ^ Z.of_nat level) by (apply Z.pow_le_mono_r; lia). change (2 ^ 32) with (2 * 2 ^ 31) in *. nia.
Qed.

Lemma combine_loop_spec pbranch inner ml count fuel :
  0 < count <= 2 ^ 31 →
  ∀ level d l m b matchh mutated br,
  (fuel + level)%nat = 32%nat → count = (d + 1) * 2 ^ Z.of_nat level →
  blocks inner ml br level d l m → (0 < length b <= 2 ^ level)%nat → matched ml level l b matchh br →
  pbranch = true ∨ (length (l ++ b) <= pos)%nat →
  ∃ level' d' l' m' b' matchh' mutated' br',
    combine_loop pbranch fuel inner ml count level (tree level b) matchh mutated br =
      Some (level', tree level' b', matchh', mutated', br') ∧
    l ++ b = l' ++ b' ∧ count = (2 * d' + 1) * 2 ^ Z.of_nat level' ∧
    blocks inner ml br' (S level') d' l' m' ∧ (0 < length b' <= 2 ^ level')%nat ∧
    matched ml level' l' b' matchh' br' ∧ ml ≠ Z.of_nat level' ∧ (level <= level')%nat ∧
    (matchh' = false → matchh = false ∧ br' = br) ∧
    (level' = level ∧ b' = b ∨ (2 ^ (level' - 1) < length b')%nat) ∧
    (length b = (2 ^ level)%nat → mutated = m || has_twins level b →
     length b' = (2 ^ level')%nat ∧ mutated' = m' || has_twins level' b').
Proof.
  intros Hc. induction fuel as [|fuel IH]; intros level d l m b matchh mutated br Hf Ed Hbl Hb Hm Hp;
    pose proof (blocks_nonneg _ _ _ _ _ _ _ Hbl) as Hd.
  { exfalso. pose proof (level_bound (d + 1) level ltac:(lia) ltac:(lia)). lia. }
  cbn [combine_loop]. rewrite Ed, testbit_level, <- Ed, Z.add_1_r, Z.odd_succ, <- Z.negb_odd.
  destruct (Z.odd d) eqn:Eo; cbn [negb].
  - destruct (blocks_inv_odd _ _ _ _ _ _ _ Hbl Eo) as (d' & l' & b1 & m' & -> & -> & -> & Hbl' & Hb1 & Hi & Hml & Hbr).
    rewrite <- app_assoc in Hp |- *.
    pose proof (track_spec pbranch _ _ _ _ _ _ _ b _ matchh Hbl' Hb1 Hml Hbr Hb Hm Hp) as Ht.
    rewrite Hi. destruct (track _ _ _ _ _ _ _) as [matchh' br'] eqn:Et. destruct Ht as (Hbl2 & Hm2 & Hun).
    rewrite <- (tree_join level b1 b) by (done || lia).
    destruct (IH (S level) d' l' m' (b1 ++ b) matchh' (mutated || bool_decide (tree level b1 = tree level b)) br')
      as (lv & d2 & l2 & m2 & b2 & mh2 & mu2 & br2 & E & El & Ec & Hbl3 & Hb2 & Hm3 & Hne & Hlv & Hun2 & Hhalf & Hmut); try done.
    + lia.
    + rewrite Nat2Z.inj_succ, Z.pow_succ_r by lia. lia.
    + rewrite length_app, pow2_S. lia.
    + exists lv, d2, l2, m2, b2, mh2, mu2, br2. split; [done|]. split; [done|]. split; [done|]. split; [done|].
      split; [done|]. split; [done|]. split; [done|]. split; [lia|]. split; [|split].
      * intros E2. destruct (Hun2 E2) as [E3 ->]. auto.
      * right. destruct Hhalf as [[-> ->]|]; [|done]. replace (S level - 1)%nat with level by lia. rewrite length_app. lia.
      * intros Hfull Hmu. apply Hmut; [rewrite length_app, pow2_S; lia|].
        rewrite has_twins_join by (done || lia). rewrite Hmu, (proj2 (Nat.eqb_eq _ _) Hfull). by rewrite !orb_assoc.
  - destruct (blocks_inv_even _ _ _ _ _ _ _ Hbl Eo) as (d' & -> & Hne & Hbl').
    exists level, d', l, m, b, matchh, mutated, br. split_and!; try done; try lia. by left.
Qed.

Lemma blocks_down inner ml br level c l m : 0 < c → (ml < 0 ∨ Z.of_nat level <= ml) →
  blocks inner ml br level c l m → blocks inner ml br 0 (c * 2 ^ Z.of_nat level) l m.
Proof.
  intros Hc. revert c Hc. induction level as [|level IH]; intros c Hc Hml Hb; [by rewrite Z.mul_1_r|].
  rewrite Nat2Z.inj_succ, Z.pow_succ_r, Z.mul_assoc, (Z.mul_comm c 2) by lia.
  apply IH; [lia|lia|]. by constructor; [|lia|].
Qed.

(** The state after the leaves [l]. *)
Definition inv (st : mstate) (l : list uint256) : Prop :=
  blocks (m_inner st) (m_matchlevel st) (m_branch st) 0 (Z.of_nat (length l)) l (m_mutated st) ∧
  length (m_inner st) = 32%nat ∧ ((length l <= pos)%nat → m_branch st = []).

Lemma process_leaf_inv pbranch st l leaf : inv st l → Z.of_nat (length (l ++ [leaf])) <= 2 ^ 31 →
  pbranch = true ∨ (length (l ++ [leaf]) <= pos)%nat →
  ∃ st', process_leaf pbranch (Z.of_nat pos) st (Z.of_nat (length l)) leaf = Some st' ∧ inv st' (l ++ [leaf]).
Proof.
  intros (Hbl & Hin & Hbr) Hlen Hp. rewrite length_app in Hlen. cbn [length] in Hlen. unfold process_leaf. cbv zeta.
  rewrite u32_small by lia.
  assert (matched (m_matchlevel st) 0 l [leaf] (Z.of_nat (length l) =? Z.of_nat pos) (m_branch st)) as Hm.
  { unfold matched. cbn [length]. destruct (Z.eqb_spec (Z.of_nat (length l)) (Z.of_nat pos)); [|lia].
    split; [lia|]. rewrite Hbr by lia. done. }
  destruct (combine_loop_spec pbranch (m_inner st) (m_matchlevel st) (Z.of_nat (length l) + 1) 32 ltac:(lia)
              0 (Z.of_nat (length l)) l (m_mutated st) [leaf] _ (m_mutated st) (m_branch st) eq_refl
              ltac:(rewrite Z.mul_1_r; done) Hbl ltac:(simpl; lia) Hm Hp)
    as (lv & d & l' & m' & b & mh & mu & br & E & El & Ec & Hbl' & Hb & Hm' & Hne & _ & Hun & _ & Hmut).
  cbn [tree hd] in E. rewrite E. eexists. split; [done|].
  destruct (Hmut eq_refl ltac:(by rewrite orb_false_r)) as [Hfull ->].
  assert (lv <= 31)%nat as Hlv.
  { apply (level_bound (2 * d + 1)); [pose proof (blocks_nonneg _ _ _ _ _ _ _ Hbl'); lia|lia]. }
  assert (∀ i, (S lv <= i)%nat → <[lv:=tree lv b]> (m_inner st) !!! i = m_inner st !!! i) as Hins.
  { intros i Hi. apply list_lookup_total_insert_ne. lia. }
  split; [|split]; cbn [m_inner m_matchlevel m_mutated m_branch].
  - replace (Z.of_nat (length (l ++ [leaf]))) with ((2 * d + 1) * 2 ^ Z.of_nat lv) by (rewrite length_app; cbn [length]; lia).
    rewrite El. pose proof (blocks_nonneg _ _ _ _ _ _ _ Hbl').
    apply blocks_down; [lia|destruct mh; [lia|apply Hm']|].
    constructor; [|done|by rewrite list_lookup_total_insert_eq by lia|..].
    + destruct mh; [eapply blocks_done; [done|done|apply Hm'|lia]|by eapply blocks_mono].
    + destruct mh; [split; [intros _; apply Hm'|done]|]. split; [done|]. intros ?. exfalso. by apply Hm'.
    + destruct mh; [intros _; apply Hm'|done].
  - by rewrite length_insert.
  - intros Hle. rewrite El, length_app in Hle. destruct mh; [destruct Hm' as [? _]; lia|].
    destruct (Hun eq_refl) as [_ ->]. apply Hbr. apply (f_equal length) in El. rewrite !length_app in El. lia.
Qed.

Lemma process_leaves_inv pbranch leaves : ∀ st l, inv st l → Z.of_nat (length (l ++ leaves)) <= 2 ^ 31 →
  pbranch = true ∨ (length (l ++ leaves) <= pos)%nat →
  ∃ st', process_leaves pbranch (Z.of_nat pos) st (Z.of_nat (length l)) leaves =
           Some (st', Z.of_nat (length (l ++ leaves))) ∧ inv st' (l ++ leaves).
Proof.
  induction leaves as [|x leaves IH]; intros st l Hi Hlen Hp; cbn [process_leaves].
  - rewrite app_nil_r. by exists st.
  - rewrite !length_app in Hlen, Hp. cbn [length] in *.
    destruct (process_leaf_inv pbranch st l x) as (st' & -> & Hi'); [done|rewrite length_app; simpl; lia| |].
    { rewrite length_app. cbn [length]. destruct Hp; [by left|right; lia]. }
    cbn [mbind option_bind]. rewrite u32_small by lia.
    destruct (IH st' (l ++ [x]) Hi') as (st2 & E & Hi2); [rewrite !length_app; simpl; lia| |].
    { rewrite !length_app. cbn [length]. destruct Hp; [by left|right; lia]. }
    replace (Z.of_nat (length l) + 1) with (Z.of_nat (length (l ++ [x]))) by (rewrite length_app; simpl; lia).
    rewrite E. rewrite <- app_assoc in *. eauto.
Qed.

Lemma lowest_level_spec inner ml br count fuel : 0 < count <= 2 ^ 31 →
  ∀ level c l m, (fuel + level)%nat = 32%nat → count = c * 2 ^ Z.of_nat level → (ml < 0 ∨ Z.of_nat level <= ml) →
  blocks inner ml br level c l m →
  ∃ level' d l' b m', lowest_level fuel count level = Some level' ∧ count = (2 * d + 1) * 2 ^ Z.of_nat level' ∧
    l = l' ++ b ∧ blocks inner ml br (S level') d l' m' ∧ length b = (2 ^ level')%nat ∧
    inner !!! level' = tree level' b ∧ matched ml level' l' b (ml =? Z.of_nat level') br.
Proof.
  intros Hc. induction fuel as [|fuel IH]; intros level c l m Hf Ec Hml Hbl;
    pose proof (blocks_nonneg _ _ _ _ _ _ _ Hbl) as Hd.
  { exfalso. pose proof (level_bound c level ltac:(nia) ltac:(lia)). lia. }
  cbn [lowest_level]. rewrite Ec, testbit_level, <- Ec. destruct (Z.odd c) eqn:Eo.
  - destruct (blocks_inv_odd _ _ _ _ _ _ _ Hbl Eo) as (d & l' & b & m' & -> & -> & -> & Hbl' & Hb & Hi & Hin & Hbr).
    exists level, d, l', b, m'. split_and!; try done. unfold matched. destruct (Z.eqb_spec ml (Z.of_nat level)) as [E|E].
    + split; [by apply Hin|by apply Hbr].
    + split; [|done]. by rewrite <- Hin.
  - destruct (blocks_inv_even _ _ _ _ _ _ _ Hbl Eo) as (d & -> & Hne & Hbl'). apply (IH (S level) d l m); [lia| |lia|done].
    rewrite Nat2Z.inj_succ, Z.pow_succ_r by lia. lia.
Qed.

Lemma round_up d level : 0 < d → (2 * d + 1) * 2 ^ Z.of_nat level <= 2 ^ 31 → (d + 1) * 2 ^ Z.of_nat (S level) <= 2 ^ 31.
Proof.
  intros Hd Hle. assert (level < 31)%nat as Hl.
  { pose proof (level_bound d (S level) Hd). rewrite Nat2Z.inj_succ, Z.pow_succ_r in * by lia. lia. }
  assert (2 ^ 31 = 2 ^ (31 - Z.of_nat (S level)) * (2 * 2 ^ Z.of_nat level)) as E.
  { rewrite <- Z.pow_succ_r, <- Z.pow_add_r by lia. f_equal. lia. }
  rewrite Nat2Z.inj_succ, Z.pow_succ_r by lia. rewrite E in Hle |- *.
  set (q := 2 ^ (31 - _)) in *. set (p := 2 ^ Z.of_nat level) in *. assert (0 < p) by (unfold p; lia). nia.
Qed.

Lemma height_unique l level : (0 < length l <= 2 ^ level)%nat → level = 0%nat ∨ (2 ^ (level - 1) < length l)%nat →
  height l = level.
Proof.
  intros Hl [->|Hh]; unfold height.
  - simpl in Hl. by replace (length l) with 1%nat by lia.
  - destruct level as [|level]; [simpl in *; lia|]. apply Nat.log2_up_unique; [lia|].
    replace (S level - 1)%nat with level in Hh by lia. simpl Nat.pred. lia.
Qed.

Lemma sweep_spec pbranch inner ml fuel : ∀ level count d l m b matchh br,
  (32 <= fuel + level)%nat → 0 < count <= 2 ^ 31 → count = (2 * d + 1) * 2 ^ Z.of_nat level →
  blocks inner ml br (S level) d l m → (0 < length b <= 2 ^ level)%nat → matched ml level l b matchh br →
  (matchh = false → ml ≠ Z.of_nat level) → (d = 0 → level = 0%nat ∨ (2 ^ (level - 1) < length b)%nat) →
  pbranch = true ∨ (length (l ++ b) <= pos)%nat →
  ∃ br', sweep pbranch fuel inner ml count level (tree level b) matchh br = Some (tree (height (l ++ b)) (l ++ b), br') ∧
    ((pos < length (l ++ b))%nat → br' = siblings (height (l ++ b)) (l ++ b) pos).
Proof.
  induction fuel as [|fuel IH]; intros level count d l m b matchh br Hf Hc Ec Hbl Hb Hm Hne Hh Hp;
    pose proof (blocks_nonneg _ _ _ _ _ _ _ Hbl) as Hd;
    pose proof (level_bound (2 * d + 1) level ltac:(lia) ltac:(lia)) as Hl; [lia|].
  cbn [sweep]. rewrite Z.shiftl_mul_pow2, Z.mul_1_l by lia. destruct (Z.eqb_spec count (2 ^ Z.of_nat level)) as [E|E].
  - assert (d = 0) as -> by nia. inversion Hbl; subst; [|lia|lia].
    cbn [app] in *. rewrite (height_unique b level) by auto. eexists. split; [done|]. intros Hpos.
    destruct matchh; destruct Hm as [Hin Hbr]; cbn [length] in *; [|lia]. by rewrite Nat.sub_0_r in Hbr.
  - assert (0 < d) as Hd' by nia. pose proof (round_up d level Hd' ltac:(lia)) as Hru. cbv zeta.
    assert (count + 2 ^ Z.of_nat level = (d + 1) * 2 ^ Z.of_nat (S level)) as Ec'.
    { rewrite Nat2Z.inj_succ, Z.pow_succ_r by lia. lia. }
    rewrite u32_small by lia. rewrite <- tree_dup by lia.
    set (br1 := if (pbranch && matchh)%bool then br ++ [tree level b] else br).
    assert (matched ml (S level) l b matchh br1) as Hm1.
    { unfold matched, br1 in *. rewrite length_app in Hp. destruct matchh; [|destruct Hm; specialize (Hne eq_refl); split; [done|lia]].
      destruct Hm as [Hin ->]. split; [done|]. destruct pbranch; [|lia]. by rewrite siblings_dup by lia. }
    assert (blocks inner ml br1 (S level) d l m) as Hbl1.
    { unfold br1. destruct (pbranch && matchh)%bool eqn:Ep; [|done]. apply andb_true_iff in Ep as [_ ->].
      eapply blocks_branch; [done|apply Hm]. }
    destruct (combine_loop_spec pbranch inner ml (count + 2 ^ Z.of_nat level) (31 - level) ltac:(lia)
                (S level) d l m b matchh false br1 ltac:(lia) Ec' Hbl1 ltac:(rewrite pow2_S; lia) Hm1 Hp)
      as (lv & d' & l' & m' & b' & mh & mu & br' & -> & El & Ec2 & Hbl2 & Hb2 & Hm2 & Hne2 & Hlv & _ & Hhalf & _).
    rewrite El in *. eapply IH; try done; [lia|lia|]. intros ->. right. destruct Hhalf as [[-> ->]|]; [|done]. exfalso. nia.
Qed.

Lemma has_twins_height k l : (0 < length l <= 2 ^ k)%nat → has_twins k l = has_twins (height l) l.
Proof.
  revert k l. apply (tree_ind (λ k l, has_twins k l = has_twins (height l) l)).
  - done.
  - intros k l Hl IH. by rewrite has_twins_dup by lia.
  - intros k a b Ha Hb _ _. pose proof (pow2_pos k). rewrite (height_unique (a ++ b) (S k)); [done|..]; rewrite length_app.
    + rewrite pow2_S. lia.
    + right. replace (S k - 1)%nat with k by lia. lia.
Qed.
Lemma blocks_twins_right inner ml br level d l m : blocks inner ml br level d l m →
  ∀ b, (0 < length b < 2 ^ level)%nat → has_twins (height (l ++ b)) (l ++ b) = m || has_twins level b.
Proof.
  induction 1 as [level Hml|level d l m Hd Hml _ IH|level d l b1 m _ IH Hb1 Hi Hm Hs]; intros b Hb.
  - cbn [app orb]. by rewrite <- (has_twins_height level) by lia.
  - rewrite IH by (rewrite pow2_S; lia). by rewrite has_twins_dup by lia.
  - rewrite <- app_assoc, IH by (rewrite length_app, pow2_S; lia). rewrite has_twins_join by (done || lia).
    rewrite (proj2 (Nat.eqb_neq _ _)) by lia. cbn [andb]. by rewrite orb_false_r, orb_assoc.
Qed.
Lemma blocks_twins inner ml br level d l m : blocks inner ml br level d l m → l ≠ [] → has_twins (height l) l = m.
Proof.
  induction 1 as [level Hml|level d l m Hd Hml _ IH|level d l b m Hb _ Hl Hi Hm Hs]; intros Hne; [done|auto|].
  pose proof (pow2_pos level).
  rewrite (blocks_twins_right _ _ _ _ _ _ _ Hb) by (rewrite pow2_S; lia). by rewrite has_twins_dup by lia.
Qed.

Lemma MerkleComputation_spec pbranch leaves : leaves ≠ [] → Z.of_nat (length leaves) <= 2 ^ 31 →
  pbranch = true ∨ (length leaves <= pos)%nat →
  ∃ br, MerkleComputation pbranch (Z.of_nat pos) leaves =
          Some (tree (height leaves) leaves, has_twins (height leaves) leaves, br) ∧
        ((pos < length leaves)%nat → br = siblings (height leaves) leaves pos).
Proof.
  intros Hne Hlen Hp. unfold MerkleComputation. destruct leaves as [|x leaves]; [done|].
  set (st0 := mkM _ _ _ _). assert (inv st0 []) as Hi0.
  { split; [|split]; [by apply blocks_nil|apply length_replicate|done]. }
  destruct (process_leaves_inv pbranch (x :: leaves) st0 [] Hi0) as (st & E & Hbl & _ & Hbr); [done|done|].
  cbn [app] in *. change 0 with (Z.of_nat (length (@nil uint256))). rewrite E. cbn [mbind option_bind].
  unfold final_sweep. set (leaves' := x :: leaves) in *. assert (0 < length leaves')%nat as Hpos by (simpl; lia).
  destruct (lowest_level_spec (m_inner st) (m_matchlevel st) (m_branch st) (Z.of_nat (length leaves')) 32 ltac:(lia)
              0 (Z.of_nat (length leaves')) leaves' (m_mutated st) eq_refl ltac:(rewrite Z.mul_1_r; done) ltac:(lia) Hbl)
    as (lv & d & l & b & m & -> & Ec & El & Hbl' & Hb & Hi & Hm). cbn [mbind option_bind]. rewrite Hi.
  pose proof (pow2_pos lv).
  destruct (sweep_spec pbranch (m_inner st) (m_matchlevel st) 32 lv (Z.of_nat (length leaves')) d l m b
              (m_matchlevel st =? Z.of_nat lv) (m_branch st)) as (br & -> & Hs); try done.
  - lia.
  - lia.
  - lia.
  - intros _. destruct lv as [|lv]; [by left|right]. replace (S lv - 1)%nat with lv by lia. rewrite Hb, pow2_S.
    pose proof (pow2_pos lv). lia.
  - by rewrite <- El.
  - rewrite <- El in *. exists br. split; [|done]. cbn [mbind option_bind]. by rewrite (blocks_twins _ _ _ _ _ _ _ Hbl).
Qed.
End blocks.

Lemma ComputeMerkleRoot_spec leaves : leaves ≠ [] → Z.of_nat (length leaves) <= 2 ^ 31 →
  ComputeMerkleRoot leaves = Some (tree (height leaves) leaves, has_twins (height leaves) leaves).
Proof.
  intros Hne Hlen. unfold ComputeMerkleRoot.
  assert (∃ pos, u32 (-1) = Z.of_nat pos) as [pos E]; [exists (Z.to_nat (2 ^ 32 - 1)); by rewrite Z2Nat.id by lia|].
  rewrite E. change (u32 (-1)) with (2 ^ 32 - 1) in E.
  destruct (MerkleComputation_spec pos false leaves) as (br & -> & _); [done|done|right; lia|done].
Qed.

(** C32. The merkle root calculator, which keeps one hash per level, computes the root of the
    recursive tree in which an odd last subtree is paired with itself, and reports a
    mutation exactly when two full sibling subtrees are equal, for up to 2^31 leaves. With
    one leaf more, the last sweep runs out of the level array. *)
Theorem ComputeMerkleRoot_tree leaves :
  (leaves ≠ [] → Z.of_nat (length leaves) <= 2 ^ 31 →
   ComputeMerkleRoot leaves = Some (tree (height leaves) leaves, has_twins (height leaves) leaves)) ∧
  ComputeMerkleRoot [] = Some (Uint256.blob_null Uint256.WIDTH, false) ∧
  ∀ st, final_sweep false st (2 ^ 31 + 1) = None.
Proof.
  split; [apply ComputeMerkleRoot_spec|]. split; [done|]. intros [inner ml mu br]. vm_compute. done.
Qed.

(** Merkle branches: for every leaf of a tree of up to 2^31 leaves, the branch that is
    computed leads from the leaf and its position to the root; it has one entry per level. *)
Theorem MerkleBranch_correct leaves pos leaf :
  leaves !! pos = Some leaf → Z.of_nat (length leaves) <= 2 ^ 31 →
  ∃ branch root mutated, ComputeMerkleBranch leaves (Z.of_nat pos) = Some branch ∧
    ComputeMerkleRoot leaves = Some (root, mutated) ∧
    ComputeMerkleRootFromBranch leaf branch (Z.of_nat pos) = root ∧ length branch = height leaves.
Proof.
  intros E Hlen. pose proof (lookup_lt_Some _ _ _ E) as Hp. assert (leaves ≠ []) as Hne by (by intros ->).
  destruct (MerkleComputation_spec pos true leaves) as (br & Em & Hbr); [done|done|by left|].
  exists br, (tree (height leaves) leaves), (has_twins (height leaves) leaves).
  split; [unfold ComputeMerkleBranch; by rewrite Em|]. split; [by apply ComputeMerkleRoot_spec|].
  rewrite Hbr by done. split; [|apply siblings_length]. apply siblings_correct; [|done].
  split; [lia|]. unfold height. destruct (decide (length leaves = 1)%nat) as [->|]; [done|]. apply Nat.log2_up_spec. lia.
Qed.

(** C33. The root commits to the leaves: two lists of 32-byte leaves of the same height, neither of
    them reported as mutated, with the same root are equal, unless they exhibit a
    collision of the double hash. Duplicating subtrees (CVE-2012-2459) is always reported. The heights
    have to be equal: a node alone and the list of its two children have the same root ([merkle_heights] below). *)
Theorem merkle_commits (Hlen : ∀ l, length (sha256 l) = 32%nat) leaves leaves' root :
  leaves ≠ [] → leaves' ≠ [] → Z.of_nat (length leaves) <= 2 ^ 31 → Z.of_nat (length leaves') <= 2 ^ 31 →
  Forall (λ x, length x = 32%nat) leaves → Forall (λ x, length x = 32%nat) leaves' → height leaves = height leaves' →
  ComputeMerkleRoot leaves = Some (root, false) → ComputeMerkleRoot leaves' = Some (root, false) →
  leaves = leaves' ∨ collision.
Proof.
  intros Hne Hne' Hl Hl' F F' Hh. rewrite !ComputeMerkleRoot_spec, <- Hh by done. intros [= E T] [= E' T'].
  assert (∀ l : list uint256, l ≠ [] → (0 < length l <= 2 ^ height l)%nat) as Hb.
  { intros l Hl0. unfold height. destruct l as [|x [|y l]]; [done|simpl; lia|]. split; [simpl; lia|].
    apply Nat.log2_up_spec. simpl. lia. }
  apply (tree_unique Hlen (height leaves)); try done; [by apply Hb|rewrite Hh; by apply Hb|congruence].
Qed.
End merkle.

Definition sample_leaves : list (list Z) := [replicate 32 1; replicate 32 2; replicate 32 3].
(** A function with 32-byte values that tells the inputs below apart. *)
Definition sum_crypto : Crypto := {|
  ripemd160 := λ _, replicate 20 0; sha1 := λ _, replicate 20 0;
  sha256 := λ l, replicate 31 7 ++ [fold_right (λ x a, (x + 3 * a) mod 256) 0 l];
  CheckLowS := λ _, true; Verify := λ _ _ _, true |}.

Lemma ComputeMerkleRoot_tree_witness :
  ComputeMerkleRoot (H := sum_crypto) sample_leaves = Some (tree (H := sum_crypto) 2 sample_leaves, false).
Proof. apply (ComputeMerkleRoot_tree (H := sum_crypto) sample_leaves); discriminate. Defined.
Lemma MerkleBranch_correct_witness : ∃ branch root mutated,
  ComputeMerkleBranch (H := sum_crypto) sample_leaves 1 = Some branch ∧
  ComputeMerkleRoot (H := sum_crypto) sample_leaves = Some (root, mutated) ∧
  ComputeMerkleRootFromBranch (H := sum_crypto) (replicate 32 2) branch 1 = root ∧ length branch = 2%nat.
Proof. apply (MerkleBranch_correct (H := sum_crypto) sample_leaves 1 (replicate 32 2)); [reflexivity|discriminate]. Defined.
(** Two lists of two leaves with the same root: they differ, so they give a collision of the sample function. *)
Definition sample_pair (x y : Z) : list (list Z) := [replicate 32 0; replicate 30 0 ++ [x; y]].
Lemma merkle_commits_witness : sample_pair 0 1 ≠ sample_pair 3 0 ∧ collision (H := sum_crypto).
Proof.
  assert (∀ x y, Forall (λ l, length l = 32%nat) (sample_pair x y)) as Hf by (intros x y; apply Forall_cons_2; [reflexivity|]; apply Forall_cons_2; [reflexivity|]; apply Forall_nil_2).
  assert (sample_pair 0 1 ≠ sample_pair 3 0) as Hne by discriminate. split; [exact Hne|].
  destruct (merkle_commits (H := sum_crypto) (λ _, eq_refl) (sample_pair 0 1) (sample_pair 3 0) (tree (H := sum_crypto) 1 (sample_pair 0 1))) as [E|Hc];
    [discriminate|discriminate|discriminate|discriminate|apply Hf|apply Hf|reflexivity|vm_compute; reflexivity|vm_compute; reflexivity|destruct (Hne E)|exact Hc].
Defined.
(** The heights matter: the leaves and the list of their parent nodes have the same root, for any hash. *)
Example merkle_heights (H : Crypto) a b : a ≠ b → ComputeMerkleRoot [node a b] = ComputeMerkleRoot [a; b].
Proof.
  intros Hab. rewrite !ComputeMerkleRoot_spec by done. change (height [node a b]) with 0%nat. change (height [a; b]) with 1%nat. cbn. by rewrite bool_decide_eq_false_2.
Qed.
End Merkle.
