(* ===== verification/Hashes.v ===== *)
(** * Hash functions (crypto/sha256.cpp, sha512.cpp, sha1.cpp, ripemd160.cpp, hmac_sha256.cpp,
    hmac_sha512.cpp, crypto/common.h)

    The four hash classes share the shape of their streaming interface, which is modelled
    once over the compression function; the compression functions follow the unrolled code,
    with the rotation of the variable names as an index. The theorems show that any
    sequence of writes hashes the concatenation, padded as in FIPS 180-4, and that the
    compression functions of SHA-256 and SHA-512 are the ones of the standard. *)
From S2P Require Import Prelude Interpreter InterpreterSafety.

Module Hashes.

(** ** crypto/common.h *)
Definition be_value (l : list Z) : Z := Radix.eval 256 (rev l).
Definition ReadBE32 (chunk : list Z) (off : nat) : Z := be_value (take 4 (drop off chunk)).
Definition ReadBE64 (chunk : list Z) (off : nat) : Z := be_value (take 8 (drop off chunk)).
Definition ReadLE32 (chunk : list Z) (off : nat) : Z := Radix.eval 256 (take 4 (drop off chunk)).
Definition WriteBE32 (x : Z) : list Z := rev (Radix.split 256 4 x).
Definition WriteBE64 (x : Z) : list Z := rev (Radix.split 256 8 x).
Definition WriteLE32 (x : Z) : list Z := Radix.split 256 4 x.
Definition WriteLE64 (x : Z) : list Z := Radix.split 256 8 x.

(** ** Streaming. [s] is the chaining state, [buf] the buffer of [B] bytes, [bytes] the number
    of bytes written, a 64-bit counter. *)
Record hasher := mkHasher { h_s : list Z; h_buf : list Z; h_bytes : Z }.

Section stream.
Context (B : nat) (Initialize : list Z) (Transform : list Z → list Z → list Z).

Definition new_hasher : hasher := mkHasher Initialize (replicate B 0) 0.

(** [memcpy(buf + off, data, n)] *)
Definition memcpy (buf : list Z) (off : nat) (data : list Z) : list Z :=
  take off buf ++ data ++ drop (off + length data) buf.

(** [while (end >= data + B)] *)
Fixpoint write_chunks (fuel : nat) (s data : list Z) (bytes : Z) : list Z * list Z * Z :=
  match fuel with
  | O => (s, data, bytes)
  | S fuel =>
      if (B <=? length data)%nat
      then write_chunks fuel (Transform s (take B data)) (drop B data) (u64 (bytes + Z.of_nat B))
      else (s, data, bytes)
  end.

Definition Write (h : hasher) (data : list Z) : hasher :=
  let bufsize := Z.to_nat (h_bytes h mod Z.of_nat B) in
  let '(s, buf, bytes, data, bufsize) :=
    if (negb (bufsize =? 0)%nat && (B <=? bufsize + length data)%nat)%bool then
      let buf := memcpy (h_buf h) bufsize (take (B - bufsize) data) in
      (Transform (h_s h) buf, buf, u64 (h_bytes h + Z.of_nat (B - bufsize)), drop (B - bufsize) data, 0%nat)
    else (h_s h, h_buf h, h_bytes h, data, bufsize) in
  let '(s, data, bytes) := write_chunks (length data) s data bytes in
  if (0 <? length data)%nat
  then mkHasher s (memcpy buf bufsize data) (u64 (bytes + Z.of_nat (length data)))
  else mkHasher s buf bytes.

(** [Finalize]: the padding, then the length; [len] is how the length is written, [out] how the
    state is. *)
Context (lenbytes : nat) (len : Z → list Z) (out : list Z → list Z).
Definition pad_byte : list Z := 128 :: replicate (B - 1) 0.
Definition Finalize (h : hasher) : list Z :=
  let sizedesc := len (u64 (Z.shiftl (h_bytes h) 3)) in
  let n := 1 + ((2 * Z.of_nat B - 1 - Z.of_nat lenbytes - h_bytes h mod Z.of_nat B) mod Z.of_nat B) in
  let h := Write h (take (Z.to_nat n) pad_byte) in
  let h := Write h sizedesc in
  out (h_s h).

(** *** The reference: absorb the blocks of the padded message *)
Fixpoint absorb (fuel : nat) (s data : list Z) : list Z :=
  match fuel with
  | O => s
  | S fuel => if (B <=? length data)%nat then absorb fuel (Transform s (take B data)) (drop B data) else s
  end.
Definition padding (n : Z) : list Z :=
  128 :: replicate (Z.to_nat ((Z.of_nat B - 1 - Z.of_nat lenbytes - n) mod Z.of_nat B)) 0 ++ len (8 * n).
Definition hash_spec (m : list Z) : list Z :=
  let p := m ++ padding (Z.of_nat (length m)) in out (absorb (length p) Initialize p).

(** *** Any sequence of writes absorbs the concatenation *)
Context (HB : (0 < B)%nat).

Lemma absorb_fuel fuel : ∀ s data, (length data <= fuel)%nat → absorb fuel s data = absorb (length data) s data.
Proof using HB.
  induction fuel as [fuel IH] using lt_wf_ind. intros s data Hl.
  destruct fuel as [|fuel]; [by replace (length data) with 0%nat by lia|].
  destruct (length data) as [|n] eqn:E; cbn [absorb]; destruct (Nat.leb_spec B (length data)); try lia; [done| |done].
  rewrite (IH fuel), (IH n) by (rewrite ?length_drop; lia). done.
Qed.
Lemma absorb_short s data : (length data < B)%nat → absorb (length data) s data = s.
Proof. intros Hl. destruct (length data) eqn:E; [done|]. cbn [absorb]. by rewrite (proj2 (Nat.leb_gt _ _)) by lia. Qed.
Lemma absorb_block s blk data : length blk = B →
  absorb (length (blk ++ data)) s (blk ++ data) = absorb (length data) (Transform s blk) data.
Proof using HB.
  intros Hb. rewrite <- (absorb_fuel (S (B + length data - 1))) by (rewrite length_app; lia). cbn [absorb].
  rewrite (proj2 (Nat.leb_le _ _)) by (rewrite length_app; lia).
  rewrite take_app_length', drop_app_length' by done. apply absorb_fuel. lia.
Qed.
Lemma absorb_app s full data k : length full = (B * k)%nat →
  absorb (length (full ++ data)) s (full ++ data) = absorb (length data) (absorb (length full) s full) data.
Proof using HB.
  revert s full. induction k as [|k IH]; intros s full Hf.
  - destruct full; [done|]. simpl in Hf. lia.
  - assert (length (take B full) = B) as Ht by (rewrite length_take; lia). rewrite <- (take_drop B full) in Hf |- *.
    set (blk := take B full) in *. set (tl := drop B full) in *. rewrite (absorb_block s blk tl), <- app_assoc, (absorb_block s blk) by done.
    apply IH. rewrite length_app in Hf. lia.
Qed.

Lemma split_blocks (data : list Z) : ∃ full rest k, data = full ++ rest ∧ length full = (B * k)%nat ∧ (length rest < B)%nat.
Proof using HB.
  exists (take (B * (length data / B)) data), (drop (B * (length data / B)) data), (length data / B)%nat.
  pose proof (Nat.div_mod (length data) B ltac:(lia)). pose proof (Nat.mod_upper_bound (length data) B ltac:(lia)).
  rewrite take_drop, length_take, length_drop. split; [done|lia].
Qed.
Lemma write_chunks_spec k : ∀ fuel s full rest bytes, length full = (B * k)%nat → (length rest < B)%nat →
  (length (full ++ rest) <= fuel)%nat → 0 <= bytes → bytes + Z.of_nat (length full) < 2 ^ 64 →
  write_chunks fuel s (full ++ rest) bytes = (absorb (length full) s full, rest, bytes + Z.of_nat (length full)).
Proof using HB.
  induction k as [|k IH]; intros fuel s full rest bytes Hf Hr Hfu Hb Hlt.
  - destruct full; [|simpl in Hf; lia]. cbn [app length absorb]. rewrite Z.add_0_r.
    destruct fuel; [done|]. cbn [write_chunks]. by rewrite (proj2 (Nat.leb_gt _ _)) by lia.
  - assert (length (take B full) = B) as Ht by (rewrite length_take; lia). rewrite <- (take_drop B full) in Hf, Hfu, Hlt |- *.
    set (blk := take B full) in *. set (tl := drop B full) in *. rewrite !length_app in *.
    destruct fuel as [|fuel]; [lia|]. cbn [write_chunks]. rewrite <- app_assoc.
    rewrite (proj2 (Nat.leb_le _ _)) by (rewrite !length_app; lia).
    rewrite take_app_length', drop_app_length' by done. rewrite u64_small by lia.
    rewrite IH; [|lia|done|rewrite length_app; lia|lia|lia]. rewrite <- (length_app blk tl), absorb_block by done.
    f_equal. rewrite length_app. lia.
Qed.

(** The hasher has absorbed the message [m]. *)
Definition absorbed (h : hasher) (m : list Z) : Prop :=
  ∃ full rest k, m = full ++ rest ∧ length full = (B * k)%nat ∧ (length rest < B)%nat ∧
    h_s h = absorb (length full) Initialize full ∧ length (h_buf h) = B ∧ take (length rest) (h_buf h) = rest ∧
    h_bytes h = Z.of_nat (length m).

Lemma memcpy_spec buf off data : length buf = B → (off + length data <= B)%nat →
  length (memcpy buf off data) = B ∧ take (off + length data) (memcpy buf off data) = take off buf ++ data.
Proof.
  intros Hb Ho. unfold memcpy. rewrite !length_app, length_take, length_drop. split; [lia|].
  rewrite app_assoc, take_app_length'; [done|]. rewrite length_app, length_take. lia.
Qed.

(** The last two steps of [Write], from a state whose buffer holds [R]. *)
Lemma write_tail s buf bytes F R data kf :
  length F = (B * kf)%nat → s = absorb (length F) Initialize F → length buf = B → take (length R) buf = R →
  (R = [] ∨ (length R + length data < B)%nat) → (length R < B)%nat →
  bytes = Z.of_nat (length (F ++ R)) → Z.of_nat (length (F ++ R ++ data)) < 2 ^ 64 →
  absorbed (let '(s, data, bytes) := write_chunks (length data) s data bytes in
            if (0 <? length data)%nat
            then mkHasher s (memcpy buf (length R) data) (u64 (bytes + Z.of_nat (length data)))
            else mkHasher s buf bytes) (F ++ R ++ data).
Proof using HB.
  intros HF Hs Hbuf HR Hor HRl Hby Hlt. destruct (split_blocks data) as (full & rest & k & -> & Hfull & Hrest).
  rewrite !length_app in Hlt. rewrite !length_app in Hor. rewrite length_app in Hby. rewrite (write_chunks_spec k) by (done || lia).
  assert (R = [] ∨ full = []) as Hone.
  { destruct Hor as [->|Hsh]; [by left|]. right. destruct full; [done|]. simpl in *. destruct k; lia. }
  assert (F ++ R ++ full ++ rest = (F ++ full) ++ (R ++ rest)) as ->.
  { destruct Hone as [-> | ->]; simpl; by rewrite <- ?app_assoc, ?app_nil_r. }
  assert (length (R ++ rest) < B)%nat as Hlen by (rewrite length_app; destruct Hor as [-> | Hsh]; simpl in *; lia).
  exists (F ++ full), (R ++ rest), (kf + k)%nat. split; [done|]. split; [rewrite length_app; lia|]. split; [done|].
  assert (absorb (length full) s full = absorb (length (F ++ full)) Initialize (F ++ full)) as Ha.
  { by rewrite (absorb_app _ _ _ kf), Hs by done. }
  destruct (Nat.ltb_spec 0 (length rest)) as [Hpos|Hz]; cbn [h_s h_buf h_bytes].
  - rewrite length_app in Hlen. destruct (memcpy_spec buf (length R) rest) as [Hl Ht]; [done|lia|].
    split; [done|]. split; [done|]. split; [by rewrite length_app, Ht, HR|]. rewrite u64_small by lia. rewrite !length_app. lia.
  - destruct rest; [|simpl in Hz; lia]. rewrite !app_nil_r. split; [done|]. split; [done|]. split; [done|].
    rewrite !length_app. lia.
Qed.

Lemma absorbed_new : absorbed new_hasher [].
Proof using HB. exists [], [], 0%nat. repeat split; simpl; rewrite ?length_replicate; lia || done. Qed.
Lemma absorbed_Write h m data : absorbed h m → Z.of_nat (length (m ++ data)) < 2 ^ 64 → absorbed (Write h data) (m ++ data).
Proof using HB.
  intros (F & R & k & -> & HF & HR & Hs & Hbuf & HRb & Hby) Hlt. unfold Write.
  assert (Z.to_nat (h_bytes h mod Z.of_nat B) = length R) as Er.
  { rewrite Hby, length_app, HF, Nat2Z.inj_add, Nat2Z.inj_mul, Z.add_comm, Z.mul_comm, Z.mod_add, Z.mod_small; lia. }
  rewrite Er. cbv zeta. rewrite <- app_assoc in *.
  destruct (negb _ && _)%bool eqn:E.
  - apply andb_true_iff in E as [E1 E2]. apply negb_true_iff, Nat.eqb_neq in E1. apply Nat.leb_le in E2.
    rewrite <- (take_drop (B - length R) data) in Hlt |- *.
    assert (length (take (B - length R) data) = B - length R)%nat as Ht by (rewrite length_take; lia).
    set (d1 := take _ data) in *. set (d2 := drop _ data) in *. rewrite take_app_length', drop_app_length' by done.
    destruct (memcpy_spec (h_buf h) (length R) d1) as [Hl Htk]; [done|lia|].
    rewrite HRb, take_ge in Htk by lia. rewrite Htk in *. rewrite !length_app in Hlt. rewrite length_app in Hby. rewrite u64_small by lia.
    replace (F ++ R ++ d1 ++ d2) with ((F ++ R ++ d1) ++ [] ++ d2) by (by rewrite <- !app_assoc).
    eapply (write_tail _ _ _ (F ++ R ++ d1) [] d2 (S k)); try done.
    + rewrite !length_app. lia.
    + rewrite (absorb_app _ _ _ k) by done. rewrite <- Hs. rewrite <- (app_nil_r (R ++ d1)) at 2 3. by rewrite absorb_block.
    + by left.
    + rewrite !length_app. simpl. lia.
    + rewrite !length_app. simpl. lia.
  - apply (write_tail _ _ _ F R data k); try done. destruct R; [by left|]. right. simpl in *.
    apply Nat.leb_gt in E. lia.
Qed.

Lemma absorbed_writes ds : ∀ h m, absorbed h m → Z.of_nat (length (m ++ concat ds)) < 2 ^ 64 →
  absorbed (fold_left Write ds h) (m ++ concat ds).
Proof using HB.
  induction ds as [|d ds IH]; intros h m Hm Hlt; cbn [fold_left concat]; [by rewrite app_nil_r|].
  cbn [concat] in Hlt. rewrite app_assoc in *. apply IH; [|done]. apply absorbed_Write; [done|].
  rewrite length_app in Hlt. lia.
Qed.

Context (Hlb : (lenbytes < B)%nat) (Hlen : ∀ n, length (len n) = lenbytes) (H2B : Z.of_nat B * 2 < 2 ^ 32).
Lemma Finalize_spec h m : absorbed h m → Z.of_nat (length m) < 2 ^ 61 → Finalize h = hash_spec m.
Proof using HB Hlb Hlen H2B.
  intros Hm Hlt. pose proof Hm as (F0 & R0 & k0 & _ & _ & _ & _ & _ & _ & Hby).
  unfold Finalize, hash_spec. cbv zeta. rewrite Hby. set (n := Z.of_nat (length m)) in *.
  rewrite Z.shiftl_mul_pow2, u64_small, (Z.mul_comm n) by lia. change (2 ^ 3) with 8.
  assert (((2 * Z.of_nat B - 1 - Z.of_nat lenbytes - n mod Z.of_nat B) mod Z.of_nat B) =
          (Z.of_nat B - 1 - Z.of_nat lenbytes - n) mod Z.of_nat B) as ->.
  { rewrite Zminus_mod_idemp_r. rewrite <- (Z.mod_add (Z.of_nat B - 1 - Z.of_nat lenbytes - n) 1) by lia. f_equal. lia. }
  set (z := (_ mod Z.of_nat B)). assert (0 <= z < Z.of_nat B) as Hz by (apply Z.mod_pos_bound; lia).
  assert (take (Z.to_nat (1 + z)) pad_byte = 128 :: replicate (Z.to_nat z) 0) as ->.
  { unfold pad_byte. replace (Z.to_nat (1 + z)) with (S (Z.to_nat z)) by lia. cbn [take]. f_equal.
    rewrite take_replicate. f_equal. lia. }
  assert (absorbed (Write (Write h (128 :: replicate (Z.to_nat z) 0)) (len (8 * n))) (m ++ padding n)) as Ha.
  { unfold padding. fold z. replace (m ++ 128 :: replicate (Z.to_nat z) 0 ++ len (8 * n))
      with ((m ++ 128 :: replicate (Z.to_nat z) 0) ++ len (8 * n)) by (by rewrite <- app_assoc).
    apply absorbed_Write; [apply absorbed_Write|]; [done|..];
      rewrite !length_app; cbn [length]; rewrite length_replicate, ?Hlen; lia. }
  destruct Ha as (F & R & k & E & HF & HR & -> & _). f_equal. rewrite E, (absorb_app _ _ _ k) by done.
  by rewrite (absorb_short _ R).
Qed.
End stream.

(** ** SHA-2: sha256.cpp and sha512.cpp differ in the word size, the functions and the constants *)
Section sha2.
Context (wbits : Z) (wbytes : nat) (Sigma0 Sigma1 sigma0 sigma1 : Z → Z) (R : list (Z * Z)).
Definition wrap (x : Z) : Z := x mod 2 ^ wbits.
Definition Ch (x y z : Z) : Z := Z.lxor z (Z.land x (Z.lxor y z)).
Definition Maj (x y z : Z) : Z := Z.lor (Z.land x y) (Z.land z (Z.lor x y)).
(** [x >> r | x << l] *)
Definition shifts (r l x : Z) : Z := Z.lor (Z.shiftr x r) (wrap (Z.shiftl x l)).

(** The variable at position [j] of the argument list of round [i]: the names rotate. *)
Definition reg (i j : nat) : nat := ((j + 8 - i mod 8) mod 8)%nat.
Definition Round (i : nat) (v : list Z) (k w : Z) : list Z :=
  let a := v.[reg i 0] in let b := v.[reg i 1] in let c := v.[reg i 2] in let d := v.[reg i 3] in
  let e := v.[reg i 4] in let f := v.[reg i 5] in let g := v.[reg i 6] in let h := v.[reg i 7] in
  let t1 := wrap (h + Sigma1 e + Ch e f g + k + w) in
  let t2 := wrap (Sigma0 a + Maj a b c) in
  <[reg i 7 := wrap (t1 + t2)]> (<[reg i 3 := wrap (d + t1)]> v).

(** The words [w0], ..., [w15] are read in the first rounds and updated in place later. *)
Definition read_word (chunk : list Z) (i : nat) : Z := be_value (take wbytes (drop (i * wbytes) chunk)).
Definition next_w (chunk : list Z) (i j : nat) (ws : list Z) : Z :=
  if (i <? 16)%nat then read_word chunk j
  else wrap (ws.[j] + sigma1 ws.[(j + 14) mod 16] + ws.[(j + 9) mod 16] + sigma0 ws.[(j + 1) mod 16]).
Fixpoint rounds (rs : list (Z * Z)) (i : nat) (v ws chunk : list Z) : list Z :=
  match rs with
  | [] => v
  | (k, j) :: rs =>
      let w := next_w chunk i (Z.to_nat j) ws in rounds rs (S i) (Round i v k w) (<[Z.to_nat j := w]> ws) chunk
  end.
Definition sha2_Transform (s chunk : list Z) : list Z :=
  zip_with (λ x y, wrap (x + y)) s (rounds R 0 s (replicate 16 0) chunk).

(** *** FIPS 180-4, sections 3.1, 3.2, 4.1 and 6 *)
Definition ROTR (n x : Z) : Z := Z.lor (Z.shiftr x n) (wrap (Z.shiftl x (wbits - n))).
Definition SHR (n x : Z) : Z := Z.shiftr x n.
Definition big_endian (l : list Z) : Z := fold_left (λ a b, 256 * a + b) l 0.
Definition Ch_fips (x y z : Z) : Z := Z.lxor (Z.land x y) (Z.land (wrap (Z.lnot x)) z).
Definition Maj_fips (x y z : Z) : Z := Z.lxor (Z.lxor (Z.land x y) (Z.land x z)) (Z.land y z).
Definition schedule_next (W : list Z) : Z :=
  let t := length W in
  wrap (sigma1 W.[t - 2] + W.[t - 7] + sigma0 W.[t - 15] + W.[t - 16]).
Fixpoint schedule (n : nat) (W : list Z) : list Z :=
  match n with
  | O => W
  | S n => schedule n (W ++ [schedule_next W])
  end.
Definition message_words (chunk : list Z) : list Z := map (λ t, big_endian (take wbytes (drop (t * wbytes) chunk))) (seq 0 16).
Definition round_fips (v : list Z) (kw : Z * Z) : list Z :=
  match v with
  | [a; b; c; d; e; f; g; h] =>
      let T1 := wrap (h + Sigma1 e + Ch_fips e f g + kw.1 + kw.2) in
      let T2 := wrap (Sigma0 a + Maj_fips a b c) in
      [wrap (T1 + T2); a; b; c; wrap (d + T1); e; f; g]
  | _ => v
  end.
Definition compress_fips (K s chunk : list Z) : list Z :=
  zip_with (λ x y, wrap (x + y)) s
    (fold_left round_fips (zip K (schedule (length K - 16) (message_words chunk))) s).

(** *** The unrolled code is the standard's compression function *)
Context (Hw : 0 < wbits).
Notation words := (Radix.digits (2 ^ wbits)).
Lemma wrap_range x : 0 <= wrap x < 2 ^ wbits.
Proof using Hw. apply Z.mod_pos_bound. lia. Qed.
Lemma Ch_eq x y z : 0 <= z < 2 ^ wbits → Ch x y z = Ch_fips x y z.
Proof using Hw.
  intros Hz. unfold Ch, Ch_fips, wrap. apply bits_ext. intros i Hi. rewrite !Z.lxor_spec, !Z.land_spec, Z.lxor_spec.
  destruct (decide (i < wbits)).
  - rewrite Z.mod_pow2_bits_low, Z.lnot_spec by lia. by destruct (Z.testbit x i), (Z.testbit y i), (Z.testbit z i).
  - rewrite Z.mod_pow2_bits_high, (testbit_small z wbits) by lia. by destruct (Z.testbit x i), (Z.testbit y i).
Qed.
Lemma Maj_eq x y z : Maj x y z = Maj_fips x y z.
Proof.
  unfold Maj, Maj_fips. apply bits_ext. intros i Hi.
  rewrite !Z.lxor_spec, Z.lor_spec, !Z.land_spec, Z.lor_spec. by destruct (Z.testbit x i), (Z.testbit y i), (Z.testbit z i).
Qed.

(** The registers in the order of round [i]. *)
Definition view (i : nat) (v : list Z) : list Z := map (λ j, v.[reg i j]) (seq 0 8).
Lemma reg_S i j : (j < 7)%nat → reg (S i) (S j) = reg i j.
Proof.
  intros Hj. unfold reg. pose proof (Nat.mod_upper_bound i 8 ltac:(lia)).
  replace (S i) with (i + 1)%nat by lia. rewrite (Nat.Div0.add_mod i 1 8). change (1 mod 8)%nat with 1%nat.
  set (r := (i mod 8)%nat) in *. do 8 (destruct r as [|r]; [do 7 (destruct j as [|j]; [done|]); lia|]). lia.
Qed.
Lemma reg_0 i : reg (S i) 0 = reg i 7.
Proof.
  unfold reg. pose proof (Nat.mod_upper_bound i 8 ltac:(lia)).
  replace (S i) with (i + 1)%nat by lia. rewrite (Nat.Div0.add_mod i 1 8). change (1 mod 8)%nat with 1%nat.
  set (r := (i mod 8)%nat) in *. do 8 (destruct r as [|r]; [done|]). lia.
Qed.
Lemma reg_inj i j j' : (j < 8)%nat → (j' < 8)%nat → reg i j = reg i j' → j = j'.
Proof.
  intros Hj Hj'. unfold reg. pose proof (Nat.mod_upper_bound i 8 ltac:(lia)). set (r := (i mod 8)%nat) in *.
  do 8 (destruct r as [|r]; [do 8 (destruct j as [|j]; [do 8 (destruct j' as [|j']; [done|]); lia|]); lia|]). lia.
Qed.
Lemma reg_lt i j : (reg i j < 8)%nat.
Proof. apply Nat.mod_upper_bound. lia. Qed.

Lemma get_reg i j j' x v : length v = 8%nat → (j < 8)%nat → (j' < 8)%nat →
  (<[reg i j := x]> v).[reg i j'] = if (j =? j')%nat then x else v.[reg i j'].
Proof.
  intros Hv Hj Hj'. destruct (Nat.eqb_spec j j') as [->|Hne].
  - apply get_insert_eq. rewrite Hv. apply reg_lt.
  - apply get_insert_ne. intros E. by apply reg_inj in E.
Qed.

Lemma Round_length i v k w : length v = 8%nat → length (Round i v k w) = 8%nat.
Proof. intros Hv. unfold Round. by rewrite !length_insert. Qed.
Lemma Round_words i v k w : words v → words (Round i v k w).
Proof using Hw. intros Hv. unfold Round. cbv zeta. apply digits_insert; [apply digits_insert|]; [done|apply wrap_range..]. Qed.

Lemma Round_view i v k w : length v = 8%nat → words v → view (S i) (Round i v k w) = round_fips (view i v) (k, w).
Proof using Hw.
  intros Hl Hv. unfold view at 1. cbn [seq map]. rewrite reg_0, !reg_S by lia.
  unfold view, round_fips. cbn [seq map fst snd]. unfold Round. cbv zeta.
  rewrite <- Ch_eq, <- Maj_eq by (apply digits_get; [apply Z.pow_gt_1; lia|done]).
  by rewrite !get_reg by (rewrite ?length_insert; done || lia).
Qed.

Lemma schedule_spec n : ∀ W, (16 <= length W)%nat →
  let W' := schedule n W in length W' = (length W + n)%nat ∧ (∀ t, (t < length W)%nat → W'.[t] = W.[t]) ∧
  ∀ t, (length W <= t < length W + n)%nat →
    W'.[t] = wrap (sigma1 W'.[t - 2] + W'.[t - 7] + sigma0 W'.[t - 15] + W'.[t - 16]).
Proof.
  induction n as [|n IH]; intros W HW; cbn [schedule]; cbv zeta; [split; [lia|]; split; [done|lia]|].
  destruct (IH (W ++ [schedule_next W])) as (Hl & Hpre & Hrec); [rewrite length_app; lia|].
  rewrite length_app in *. cbn [length] in *. set (W' := schedule n _) in *.
  assert (∀ t, (t < length W)%nat → W'.[t] = W.[t]) as Hpre'.
  { intros t Ht. rewrite Hpre by lia. unfold get. by rewrite lookup_app_l. }
  split; [lia|]. split; [done|]. intros t Ht. destruct (decide (t = length W)) as [->|]; [|apply Hrec; lia].
  rewrite Hpre, !Hpre' by lia. unfold get at 1. by rewrite lookup_app_r, Nat.sub_diag by lia.
Qed.

(** The in-place schedule holds the last 16 words of the standard's. *)
Lemma next_w_spec chunk i ws W :
  (∀ t, (t < 16)%nat → W.[t] = read_word chunk t) →
  (∀ t, (16 <= t < length W)%nat →
     W.[t] = wrap (sigma1 W.[t - 2] + W.[t - 7] + sigma0 W.[t - 15] + W.[t - 16])) →
  (i < length W)%nat → (∀ t, (t < i <= t + 16)%nat → ws.[t mod 16] = W.[t]) → next_w chunk i (i mod 16) ws = W.[i].
Proof.
  intros H0 Hrec Hi Hws. unfold next_w. destruct (Nat.ltb_spec i 16); [by rewrite H0, Nat.mod_small|]. rewrite (Hrec i) by lia.
  assert (∀ k t, (k < 16)%nat → (i + k = t + 16)%nat → ws.[(i mod 16 + k) mod 16] = W.[t]) as Hk.
  { intros k t Hk E. rewrite Nat.Div0.add_mod_idemp_l, E. rewrite <- (Hws t) by lia. f_equal.
    change (t + 16)%nat with (t + 1 * 16)%nat. by rewrite Nat.Div0.mod_add. }
  rewrite <- (Hk 14%nat (i - 2)%nat), <- (Hk 9%nat (i - 7)%nat), <- (Hk 1%nat (i - 15)%nat), <- (Hk 0%nat (i - 16)%nat) by lia.
  rewrite Nat.add_0_r, Nat.Div0.mod_mod. f_equal. lia.
Qed.

Lemma list_cons_eq_inv {A} (x y : A) l k : x :: l = y :: k → x = y ∧ l = k.
Proof. by intros [= -> ->]. Qed.

(** The calls name the words in turn. *)
Definition in_turn (i : nat) (rs : list (Z * Z)) : Prop :=
  map snd rs = map (λ t, Z.of_nat (t mod 16)) (seq i (length rs)).

Lemma rounds_fips chunk W : (∀ t, (t < 16)%nat → W.[t] = read_word chunk t) →
  (∀ t, (16 <= t < length W)%nat →
     W.[t] = wrap (sigma1 W.[t - 2] + W.[t - 7] + sigma0 W.[t - 15] + W.[t - 16])) →
  ∀ rs i v ws, in_turn i rs → (i + length rs = length W)%nat → length v = 8%nat → words v → length ws = 16%nat →
  (∀ t, (t < i <= t + 16)%nat → ws.[t mod 16] = W.[t]) →
  view (i + length rs) (rounds rs i v ws chunk) = fold_left round_fips (zip (map fst rs) (drop i W)) (view i v) ∧
  length (rounds rs i v ws chunk) = 8%nat.
Proof using Hw.
  intros H0 Hrec. induction rs as [|[k j] rs IH]; intros i v ws Ht Hi Hv Hwv Hlw Hws; cbn [rounds length].
  - by rewrite Nat.add_0_r.
  - cbn [length] in Hi. unfold in_turn in Ht. cbn [map snd length seq] in Ht. apply list_cons_eq_inv in Ht as [-> Ht].
    rewrite Nat2Z.id, (next_w_spec chunk i ws W) by (done || lia).
    rewrite (drop_S W W.[i] i) by (apply get_lookup; lia). cbn [map fst zip zip_with fold_left].
    rewrite <- Round_view by done. replace (i + S (length rs))%nat with (S i + length rs)%nat by lia.
    apply IH; [done|lia|by apply Round_length|by apply Round_words|by rewrite length_insert|].
    intros t Ht'. destruct (decide (t = i)) as [->|Hne].
    + apply get_insert_eq. rewrite Hlw. apply Nat.mod_upper_bound. lia.
    + rewrite get_insert_ne; [apply Hws; lia|]. intros E. pose proof (Nat.div_mod t 16). pose proof (Nat.div_mod i 16). lia.
Qed.

Lemma read_word_fips chunk t : big_endian (take wbytes (drop (t * wbytes) chunk)) = read_word chunk t.
Proof. unfold read_word, be_value, big_endian. induction (take wbytes (drop (t * wbytes) chunk)) as [|x l IH] using rev_ind; [done|]. rewrite fold_left_app, rev_app_distr, IH. cbn. lia. Qed.
Lemma view_id n v : (n mod 8 = 0)%nat → length v = 8%nat → view n v = v.
Proof.
  intros Hn Hv. unfold view, reg. rewrite Hn. do 9 (destruct v as [|? v]; [done|]). done.
Qed.

Lemma sha2_Transform_fips s chunk : (16 <= length R)%nat → (length R mod 8 = 0)%nat → in_turn 0 R → length s = 8%nat → words s →
  sha2_Transform s chunk = compress_fips (map fst R) s chunk.
Proof using Hw.
  intros HK HK8 Hturn Hs Hws. unfold sha2_Transform, compress_fips. f_equal. rewrite length_map.
  destruct (schedule_spec (length R - 16) (message_words chunk)) as (Hl & Hpre & Hrec); [done|].
  set (W := schedule _ _) in *. change (length (message_words chunk)) with 16%nat in *.
  destruct (rounds_fips chunk W) with (rs := R) (i := 0%nat) (v := s) (ws := replicate 16 0) as [E Hlen]; try done.
  - intros t Ht. rewrite Hpre by done. unfold get, message_words. rewrite list_lookup_fmap, lookup_seq_lt by done. apply read_word_fips.
  - intros t Ht. apply Hrec. lia.
  - lia.
  - lia.
  - rewrite view_id in E by done. rewrite E. by rewrite view_id, drop_0.
Qed.
End sha2.

(** ** SHA-256 *)
Definition SHA256_Sigma0 (x : Z) : Z := Z.lxor (Z.lxor (shifts 32 2 30 x) (shifts 32 13 19 x)) (shifts 32 22 10 x).
Definition SHA256_Sigma1 (x : Z) : Z := Z.lxor (Z.lxor (shifts 32 6 26 x) (shifts 32 11 21 x)) (shifts 32 25 7 x).
Definition SHA256_sigma0 (x : Z) : Z := Z.lxor (Z.lxor (shifts 32 7 25 x) (shifts 32 18 14 x)) (Z.shiftr x 3).
Definition SHA256_sigma1 (x : Z) : Z := Z.lxor (Z.lxor (shifts 32 17 15 x) (shifts 32 19 13 x)) (Z.shiftr x 10).
(** The rounds of [Transform]: the constant and the number of the word that the call names. *)
Definition SHA256_rounds : list (Z * Z) :=
  [(0x428a2f98, 0); (0x71374491, 1); (0xb5c0fbcf, 2); (0xe9b5dba5, 3); (0x3956c25b, 4); (0x59f111f1, 5);
   (0x923f82a4, 6); (0xab1c5ed5, 7); (0xd807aa98, 8); (0x12835b01, 9); (0x243185be, 10); (0x550c7dc3, 11);
   (0x72be5d74, 12); (0x80deb1fe, 13); (0x9bdc06a7, 14); (0xc19bf174, 15); (0xe49b69c1, 0); (0xefbe4786, 1);
   (0x0fc19dc6, 2); (0x240ca1cc, 3); (0x2de92c6f, 4); (0x4a7484aa, 5); (0x5cb0a9dc, 6); (0x76f988da, 7);
   (0x983e5152, 8); (0xa831c66d, 9); (0xb00327c8, 10); (0xbf597fc7, 11); (0xc6e00bf3, 12); (0xd5a79147, 13);
   (0x06ca6351, 14); (0x14292967, 15); (0x27b70a85, 0); (0x2e1b2138, 1); (0x4d2c6dfc, 2); (0x53380d13, 3);
   (0x650a7354, 4); (0x766a0abb, 5); (0x81c2c92e, 6); (0x92722c85, 7); (0xa2bfe8a1, 8); (0xa81a664b, 9);
   (0xc24b8b70, 10); (0xc76c51a3, 11); (0xd192e819, 12); (0xd6990624, 13); (0xf40e3585, 14); (0x106aa070, 15);
   (0x19a4c116, 0); (0x1e376c08, 1); (0x2748774c, 2); (0x34b0bcb5, 3); (0x391c0cb3, 4); (0x4ed8aa4a, 5);
   (0x5b9cca4f, 6); (0x682e6ff3, 7); (0x748f82ee, 8); (0x78a5636f, 9); (0x84c87814, 10); (0x8cc70208, 11);
   (0x90befffa, 12); (0xa4506ceb, 13); (0xbef9a3f7, 14); (0xc67178f2, 15)].
Definition SHA256_Initialize : list Z :=
  [0x6a09e667; 0xbb67ae85; 0x3c6ef372; 0xa54ff53a; 0x510e527f; 0x9b05688c; 0x1f83d9ab; 0x5be0cd19].
Definition SHA256_Transform : list Z → list Z → list Z :=
  sha2_Transform 32 4 SHA256_Sigma0 SHA256_Sigma1 SHA256_sigma0 SHA256_sigma1 SHA256_rounds.
Definition CSHA256 : hasher := new_hasher 64 SHA256_Initialize.
Definition CSHA256_Write : hasher → list Z → hasher := Write 64 SHA256_Transform.
Definition CSHA256_Finalize : hasher → list Z := Finalize 64 SHA256_Transform 8 WriteBE64 (λ s, concat (map WriteBE32 s)).

(** ** SHA-512 *)
Definition SHA512_Sigma0 (x : Z) : Z := Z.lxor (Z.lxor (shifts 64 28 36 x) (shifts 64 34 30 x)) (shifts 64 39 25 x).
Definition SHA512_Sigma1 (x : Z) : Z := Z.lxor (Z.lxor (shifts 64 14 50 x) (shifts 64 18 46 x)) (shifts 64 41 23 x).
Definition SHA512_sigma0 (x : Z) : Z := Z.lxor (Z.lxor (shifts 64 1 63 x) (shifts 64 8 56 x)) (Z.shiftr x 7).
Definition SHA512_sigma1 (x : Z) : Z := Z.lxor (Z.lxor (shifts 64 19 45 x) (shifts 64 61 3 x)) (Z.shiftr x 6).
(** The rounds of [Transform]: the constant and the number of the word that the call names. *)
Definition SHA512_rounds : list (Z * Z) :=
  [(0x428a2f98d728ae22, 0); (0x7137449123ef65cd, 1); (0xb5c0fbcfec4d3b2f, 2); (0xe9b5dba58189dbbc, 3);
   (0x3956c25bf348b538, 4); (0x59f111f1b605d019, 5); (0x923f82a4af194f9b, 6); (0xab1c5ed5da6d8118, 7);
   (0xd807aa98a3030242, 8); (0x12835b0145706fbe, 9); (0x243185be4ee4b28c, 10); (0x550c7dc3d5ffb4e2, 11);
   (0x72be5d74f27b896f, 12); (0x80deb1fe3b1696b1, 13); (0x9bdc06a725c71235, 14); (0xc19bf174cf692694, 15);
   (0xe49b69c19ef14ad2, 0); (0xefbe4786384f25e3, 1); (0x0fc19dc68b8cd5b5, 2); (0x240ca1cc77ac9c65, 3);
   (0x2de92c6f592b0275, 4); (0x4a7484aa6ea6e483, 5); (0x5cb0a9dcbd41fbd4, 6); (0x76f988da831153b5, 7);
   (0x983e5152ee66dfab, 8); (0xa831c66d2db43210, 9); (0xb00327c898fb213f, 10); (0xbf597fc7beef0ee4, 11);
   (0xc6e00bf33da88fc2, 12); (0xd5a79147930aa725, 13); (0x06ca6351e003826f, 14); (0x142929670a0e6e70, 15);
   (0x27b70a8546d22ffc, 0); (0x2e1b21385c26c926, 1); (0x4d2c6dfc5ac42aed, 2); (0x53380d139d95b3df, 3);
   (0x650a73548baf63de, 4); (0x766a0abb3c77b2a8, 5); (0x81c2c92e47edaee6, 6); (0x92722c851482353b, 7);
   (0xa2bfe8a14cf10364, 8); (0xa81a664bbc423001, 9); (0xc24b8b70d0f89791, 10); (0xc76c51a30654be30, 11);
   (0xd192e819d6ef5218, 12); (0xd69906245565a910, 13); (0xf40e35855771202a, 14); (0x106aa07032bbd1b8, 15);
   (0x19a4c116b8d2d0c8, 0); (0x1e376c085141ab53, 1); (0x2748774cdf8eeb99, 2); (0x34b0bcb5e19b48a8, 3);
   (0x391c0cb3c5c95a63, 4); (0x4ed8aa4ae3418acb, 5); (0x5b9cca4f7763e373, 6); (0x682e6ff3d6b2b8a3, 7);
   (0x748f82ee5defb2fc, 8); (0x78a5636f43172f60, 9); (0x84c87814a1f0ab72, 10); (0x8cc702081a6439ec, 11);
   (0x90befffa23631e28, 12); (0xa4506cebde82bde9, 13); (0xbef9a3f7b2c67915, 14); (0xc67178f2e372532b, 15);
   (0xca273eceea26619c, 0); (0xd186b8c721c0c207, 1); (0xeada7dd6cde0eb1e, 2); (0xf57d4f7fee6ed178, 3);
   (0x06f067aa72176fba, 4); (0x0a637dc5a2c898a6, 5); (0x113f9804bef90dae, 6); (0x1b710b35131c471b, 7);
   (0x28db77f523047d84, 8); (0x32caab7b40c72493, 9); (0x3c9ebe0a15c9bebc, 10); (0x431d67c49c100d4c, 11);
   (0x4cc5d4becb3e42b6, 12); (0x597f299cfc657e2a, 13); (0x5fcb6fab3ad6faec, 14); (0x6c44198c4a475817, 15)].
Definition SHA512_Initialize : list Z :=
  [0x6a09e667f3bcc908; 0xbb67ae8584caa73b; 0x3c6ef372fe94f82b; 0xa54ff53a5f1d36f1; 0x510e527fade682d1;
   0x9b05688c2b3e6c1f; 0x1f83d9abfb41bd6b; 0x5be0cd19137e2179].
Definition SHA512_Transform : list Z → list Z → list Z :=
  sha2_Transform 64 8 SHA512_Sigma0 SHA512_Sigma1 SHA512_sigma0 SHA512_sigma1 SHA512_rounds.
Definition CSHA512 : hasher := new_hasher 128 SHA512_Initialize.
Definition CSHA512_Write : hasher → list Z → hasher := Write 128 SHA512_Transform.
Definition SHA512_sizedesc (n : Z) : list Z := replicate 8 0 ++ WriteBE64 n.
Definition CSHA512_Finalize : hasher → list Z :=
  Finalize 128 SHA512_Transform 16 SHA512_sizedesc (λ s, concat (map WriteBE64 s)).

(** ** SHA-1 and RIPEMD-160: five registers, whose names rotate likewise *)
Definition reg5 (i j : nat) : nat := ((j + 5 - i mod 5) mod 5)%nat.
Definition rol (x n : Z) : Z := Z.lor (u32 (Z.shiftl x n)) (Z.shiftr x (32 - n)).

Definition SHA1_f (i : nat) (b c d : Z) : Z :=
  match (i / 20)%nat with
  | 0%nat => Z.lxor d (Z.land b (Z.lxor c d))
  | 2%nat => Z.lor (Z.land b c) (Z.land d (Z.lor b c))
  | _ => Z.lxor (Z.lxor b c) d
  end.
Definition SHA1_k (i : nat) : Z := [0x5A827999; 0x6ED9EBA1; 0x8F1BBCDC; 0xCA62C1D6].[i / 20].
Definition SHA1_Round (i : nat) (v : list Z) (w : Z) : list Z :=
  let a := v.[reg5 i 0] in let b := v.[reg5 i 1] in let c := v.[reg5 i 2] in let d := v.[reg5 i 3] in
  let e := v.[reg5 i 4] in
  <[reg5 i 1 := rol b 30]> (<[reg5 i 4 := u32 (e + (rol a 5 + SHA1_f i b c d + SHA1_k i + w))]> v).
Definition SHA1_w (chunk : list Z) (i : nat) (ws : list Z) : Z :=
  if (i <? 16)%nat then ReadBE32 chunk (4 * i)
  else rol (Z.lxor (Z.lxor (Z.lxor ws.[i mod 16] ws.[(i + 13) mod 16]) ws.[(i + 8) mod 16]) ws.[(i + 2) mod 16]) 1.
Fixpoint SHA1_rounds (n i : nat) (v ws chunk : list Z) : list Z :=
  match n with
  | O => v
  | S n => let w := SHA1_w chunk i ws in SHA1_rounds n (S i) (SHA1_Round i v w) (<[i mod 16 := w]> ws) chunk
  end%nat.
Definition MD_Initialize : list Z := [0x67452301; 0xEFCDAB89; 0x98BADCFE; 0x10325476; 0xC3D2E1F0].
Definition SHA1_Transform (s chunk : list Z) : list Z :=
  zip_with (λ x y, u32 (x + y)) s (SHA1_rounds 80 0 s (replicate 16 0) chunk).
Definition CSHA1 : hasher := new_hasher 64 MD_Initialize.
Definition CSHA1_Write : hasher → list Z → hasher := Write 64 SHA1_Transform.
Definition CSHA1_Finalize : hasher → list Z := Finalize 64 SHA1_Transform 8 WriteBE64 (λ s, concat (map WriteBE32 s)).

(** [~] of a 32-bit word *)
Definition compl32 (x : Z) : Z := u32 (Z.lnot x).
Definition RMD_f (n : nat) (x y z : Z) : Z :=
  match n with
  | 1%nat => Z.lxor (Z.lxor x y) z
  | 2%nat => Z.lor (Z.land x y) (Z.land (compl32 x) z)
  | 3%nat => Z.lxor (Z.lor x (compl32 y)) z
  | 4%nat => Z.lor (Z.land x z) (Z.land y (compl32 z))
  | _ => Z.lxor x (Z.lor y (compl32 z))
  end.
(** The words and the rotations of the two lines, and the functions and constants of their parts. *)
Definition RMD_w1 : list nat :=
  [
   0; 1; 2; 3; 4; 5; 6; 7; 8; 9; 10; 11; 12; 13; 14; 15; 7; 4; 13; 1; 10; 6; 15; 3; 12; 0; 9; 5; 2; 14; 11; 8; 3;
   10; 14; 4; 9; 15; 8; 1; 2; 7; 0; 6; 13; 11; 5; 12; 1; 9; 11; 10; 0; 8; 12; 4; 13; 3; 7; 15; 14; 5; 6; 2; 4; 0;
   5; 9; 7; 12; 2; 10; 14; 1; 3; 8; 11; 6; 15; 13]%nat.
Definition RMD_w2 : list nat :=
  [
   5; 14; 7; 0; 9; 2; 11; 4; 13; 6; 15; 8; 1; 10; 3; 12; 6; 11; 3; 7; 0; 13; 5; 10; 14; 15; 8; 12; 4; 9; 1; 2; 15;
   5; 1; 3; 7; 14; 6; 9; 11; 8; 12; 2; 10; 0; 4; 13; 8; 6; 4; 1; 3; 11; 15; 0; 5; 12; 2; 13; 9; 7; 10; 14; 12; 15;
   10; 4; 1; 5; 8; 7; 6; 2; 13; 14; 0; 3; 9; 11]%nat.
Definition RMD_r1 : list Z :=
  [
   11; 14; 15; 12; 5; 8; 7; 9; 11; 13; 14; 15; 6; 7; 9; 8; 7; 6; 8; 13; 11; 9; 7; 15; 7; 12; 15; 9; 11; 7; 13; 12;
   11; 13; 6; 7; 14; 9; 13; 15; 14; 8; 13; 6; 5; 12; 7; 5; 11; 12; 14; 15; 14; 15; 9; 8; 9; 14; 5; 6; 8; 6; 5; 12;
   9; 15; 5; 11; 6; 8; 13; 12; 5; 12; 13; 14; 11; 8; 5; 6].
Definition RMD_r2 : list Z :=
  [
   8; 9; 9; 11; 13; 15; 15; 5; 7; 7; 8; 11; 14; 14; 12; 6; 9; 13; 15; 7; 12; 8; 9; 11; 7; 7; 12; 7; 6; 15; 13; 11;
   9; 7; 15; 11; 8; 6; 6; 14; 12; 13; 5; 14; 13; 13; 7; 5; 15; 5; 8; 11; 14; 14; 6; 14; 6; 9; 12; 9; 12; 5; 15; 8;
   8; 5; 12; 9; 12; 5; 14; 6; 8; 13; 6; 5; 15; 13; 11; 11].
Definition RMD_k1 : list Z := [0; 0x5A827999; 0x6ED9EBA1; 0x8F1BBCDC; 0xA953FD4E].
Definition RMD_k2 : list Z := [0x50A28BE6; 0x5C4DD124; 0x6D703EF3; 0x7A6D76E9; 0].
Definition RMD_Round (i : nat) (v : list Z) (f k x r : Z) : list Z :=
  let a := v.[reg5 i 0] in let c := v.[reg5 i 2] in let e := v.[reg5 i 4] in
  <[reg5 i 2 := rol c 10]> (<[reg5 i 0 := u32 (rol (u32 (a + f + x + k)) r + e)]> v).
Fixpoint RMD_line (fs : nat → nat) (ks : list Z) (chunk : list Z) (ws : list nat) (rs : list Z) (i : nat) (v : list Z) : list Z :=
  match ws, rs with
  | w :: ws, r :: rs =>
      let f := RMD_f (fs (i / 16)%nat) v.[reg5 i 1] v.[reg5 i 2] v.[reg5 i 3] in
      RMD_line fs ks chunk ws rs (S i) (RMD_Round i v f ks.[i / 16] (ReadLE32 chunk (4 * w)) r)
  | _, _ => v
  end.
Definition RMD_Transform (s chunk : list Z) : list Z :=
  let l1 := RMD_line (λ n, S n) RMD_k1 chunk RMD_w1 RMD_r1 0 s in
  let l2 := RMD_line (λ n, 5 - n)%nat RMD_k2 chunk RMD_w2 RMD_r2 0 s in
  [u32 (s.[1] + l1.[2] + l2.[3]); u32 (s.[2] + l1.[3] + l2.[4]); u32 (s.[3] + l1.[4] + l2.[0]);
   u32 (s.[4] + l1.[0] + l2.[1]); u32 (s.[0] + l1.[1] + l2.[2])].
Definition CRIPEMD160 : hasher := new_hasher 64 MD_Initialize.
Definition CRIPEMD160_Write : hasher → list Z → hasher := Write 64 RMD_Transform.
Definition CRIPEMD160_Finalize : hasher → list Z := Finalize 64 RMD_Transform 8 WriteLE64 (λ s, concat (map WriteLE32 s)).

(** ** HMAC. [inner] and [outer] are the two hashers of the class. *)
Section hmac.
Context (B out : nat) (new : hasher) (write : hasher → list Z → hasher) (final : hasher → list Z).
Definition hmac_rkey (key : list Z) : list Z :=
  if (length key <=? B)%nat then key ++ replicate (B - length key) 0
  else final (write new key) ++ replicate (B - out) 0.
Definition hmac_new (key : list Z) : hasher * hasher :=
  let rkey := map (λ x, Z.lxor x 0x5c) (hmac_rkey key) in
  let outer := write new rkey in
  let rkey := map (λ x, Z.lxor x (Z.lxor 0x5c 0x36)) rkey in
  (write new rkey, outer).
Definition hmac_Finalize (inner outer : hasher) : list Z :=
  let temp := final inner in final (write outer temp).
End hmac.
Definition CHMAC_SHA256 : list Z → hasher * hasher := hmac_new 64 32 CSHA256 CSHA256_Write CSHA256_Finalize.
Definition CHMAC_SHA256_Finalize : hasher → hasher → list Z := hmac_Finalize CSHA256_Write CSHA256_Finalize.
Definition CHMAC_SHA512 : list Z → hasher * hasher := hmac_new 128 64 CSHA512 CSHA512_Write CSHA512_Finalize.
Definition CHMAC_SHA512_Finalize : hasher → hasher → list Z := hmac_Finalize CSHA512_Write CSHA512_Finalize.

(** ** The standard's constants: fractional parts of roots of the first primes *)
Fixpoint iroot (k : Z) (n : nat) (acc x : Z) : Z :=
  match n with
  | O => acc
  | S n => let a := acc + 2 ^ Z.of_nat n in iroot k n (if a ^ k <=? x then a else acc) x
  end.
Definition frac_root (k w p : Z) : Z := iroot k (Z.to_nat w + 10) 0 (p * 2 ^ (k * w)) mod 2 ^ w.
Definition is_prime (n : nat) : bool := forallb (λ d, negb (n mod d =? 0)%nat) (seq 2 (n - 2)).
Definition primes (n : nat) : list Z := take n (map Z.of_nat (List.filter is_prime (seq 2 420))).

(** The functions of sections 4.1.2 and 4.1.3, and numbers as bytes, the most significant first. *)
Definition Sigma0_256 (x : Z) : Z := Z.lxor (Z.lxor (ROTR 32 2 x) (ROTR 32 13 x)) (ROTR 32 22 x).
Definition Sigma1_256 (x : Z) : Z := Z.lxor (Z.lxor (ROTR 32 6 x) (ROTR 32 11 x)) (ROTR 32 25 x).
Definition sigma0_256 (x : Z) : Z := Z.lxor (Z.lxor (ROTR 32 7 x) (ROTR 32 18 x)) (SHR 3 x).
Definition sigma1_256 (x : Z) : Z := Z.lxor (Z.lxor (ROTR 32 17 x) (ROTR 32 19 x)) (SHR 10 x).
Definition Sigma0_512 (x : Z) : Z := Z.lxor (Z.lxor (ROTR 64 28 x) (ROTR 64 34 x)) (ROTR 64 39 x).
Definition Sigma1_512 (x : Z) : Z := Z.lxor (Z.lxor (ROTR 64 14 x) (ROTR 64 18 x)) (ROTR 64 41 x).
Definition sigma0_512 (x : Z) : Z := Z.lxor (Z.lxor (ROTR 64 1 x) (ROTR 64 8 x)) (SHR 7 x).
Definition sigma1_512 (x : Z) : Z := Z.lxor (Z.lxor (ROTR 64 19 x) (ROTR 64 61 x)) (SHR 6 x).
Definition to_bytes (n : nat) (x : Z) : list Z := map (λ i, (x / 256 ^ (Z.of_nat n - 1 - Z.of_nat i)) mod 256) (seq 0 n).
(** The digests; the length of the message in bits takes the last 8 or 16 bytes of the padding. *)
Definition SHA256_fips : list Z → list Z :=
  hash_spec 64 (map (frac_root 2 32) (primes 8)) (compress_fips 32 4 Sigma0_256 Sigma1_256 sigma0_256 sigma1_256 (map (frac_root 3 32) (primes 64)))
    8 (to_bytes 8) (λ s, concat (map (to_bytes 4) s)).
Definition SHA512_fips : list Z → list Z :=
  hash_spec 128 (map (frac_root 2 64) (primes 8)) (compress_fips 64 8 Sigma0_512 Sigma1_512 sigma0_512 sigma1_512 (map (frac_root 3 64) (primes 80)))
    16 (to_bytes 16) (λ s, concat (map (to_bytes 8) s)).

Lemma WriteBE32_fips x : WriteBE32 x = to_bytes 4 x.
Proof. unfold WriteBE32, to_bytes. cbn [Radix.split rev app map seq]. rewrite !Z.div_div by lia. by rewrite Z.div_1_r. Qed.
Lemma WriteBE64_fips x : WriteBE64 x = to_bytes 8 x.
Proof. unfold WriteBE64, to_bytes. cbn [Radix.split rev app map seq]. rewrite !Z.div_div by lia. by rewrite Z.div_1_r. Qed.
Lemma sizedesc_fips x : 0 <= x < 2 ^ 64 → SHA512_sizedesc x = to_bytes 16 x.
Proof.
  intros Hx. unfold SHA512_sizedesc. rewrite WriteBE64_fips. unfold to_bytes. cbn [seq map replicate app].
  assert (∀ k, 8 <= k → x / 256 ^ k = 0) as Hz. { intros k Hk. apply Z.div_small. split; [lia|]. assert (256 ^ 8 <= 256 ^ k) by (apply Z.pow_le_mono_r; lia). lia. }
  by rewrite (Hz (Z.of_nat 16 - 1 - Z.of_nat 0)), (Hz (Z.of_nat 16 - 1 - Z.of_nat 1)), (Hz (Z.of_nat 16 - 1 - Z.of_nat 2)), (Hz (Z.of_nat 16 - 1 - Z.of_nat 3)),
    (Hz (Z.of_nat 16 - 1 - Z.of_nat 4)), (Hz (Z.of_nat 16 - 1 - Z.of_nat 5)), (Hz (Z.of_nat 16 - 1 - Z.of_nat 6)), (Hz (Z.of_nat 16 - 1 - Z.of_nat 7)) by lia.
Qed.

Lemma SHA256_constants : map (frac_root 2 32) (primes 8) = SHA256_Initialize ∧ map (frac_root 3 32) (primes 64) = map fst SHA256_rounds.
Proof. by vm_compute. Qed.
Lemma SHA512_constants : map (frac_root 2 64) (primes 8) = SHA512_Initialize ∧ map (frac_root 3 64) (primes 80) = map fst SHA512_rounds.
Proof. by vm_compute. Qed.

Lemma absorb_ext B (T T' : list Z → list Z → list Z) (P : list Z → Prop) :
  (∀ s b, P s → T s b = T' s b ∧ P (T s b)) → ∀ fuel s data, P s → absorb B T fuel s data = absorb B T' fuel s data.
Proof.
  intros HT. induction fuel as [|fuel IH]; intros s data Hs; [done|]. cbn [absorb]. destruct (_ <=? _)%nat; [|done].
  destruct (HT s (take B data) Hs) as [<- HP]. by apply IH.
Qed.

Section sha2_words.
Context (wbits : Z) (wbytes : nat) (Sigma0 Sigma1 sigma0 sigma1 : Z → Z) (R : list (Z * Z)) (Hw : 0 < wbits).
Lemma rounds_length ks : ∀ i v ws chunk, length v = 8%nat →
  length (rounds wbits wbytes Sigma0 Sigma1 sigma0 sigma1 ks i v ws chunk) = 8%nat.
Proof. induction ks as [|[k j] ks IH]; intros i v ws chunk Hv; [done|]. cbn [rounds]. by apply IH, Round_length. Qed.
Definition sha2_state (s : list Z) : Prop := length s = 8%nat ∧ Radix.digits (2 ^ wbits) s.
Lemma zip_wrap_digits a b : Radix.digits (2 ^ wbits) (zip_with (λ x y, wrap wbits (x + y)) a b).
Proof using Hw. revert b. induction a as [|x a IH]; intros [|y b]; constructor; [by apply wrap_range|apply IH]. Qed.
Lemma sha2_Transform_state s chunk : sha2_state s →
  sha2_state (sha2_Transform wbits wbytes Sigma0 Sigma1 sigma0 sigma1 R s chunk).
Proof using Hw.
  intros [Hl _]. split; [|apply zip_wrap_digits]. unfold sha2_Transform. rewrite length_zip_with, rounds_length; lia.
Qed.
End sha2_words.

Lemma stream_spec B Init T lb len out ds : (0 < B)%nat → (lb < B)%nat → (∀ n, length (len n) = lb) → Z.of_nat B * 2 < 2 ^ 32 →
  Z.of_nat (length (concat ds)) < 2 ^ 61 →
  Finalize B T lb len out (fold_left (Write B T) ds (new_hasher B Init)) = hash_spec B Init T lb len out (concat ds).
Proof.
  intros HB Hlb Hlen H2 Hlt. apply Finalize_spec; try done.
  apply (absorbed_writes B Init T HB ds _ []); [by apply absorbed_new|]. cbn [app]. lia.
Qed.

Lemma length_WriteBE64 n : length (WriteBE64 n) = 8%nat.
Proof. done. Qed.
Lemma sha2_absorb wbits wbytes S0 S1 s0 s1 R B fuel s data :
  0 < wbits → (16 <= length R)%nat → (length R mod 8 = 0)%nat → in_turn 0 R → sha2_state wbits s →
  absorb B (sha2_Transform wbits wbytes S0 S1 s0 s1 R) fuel s data =
  absorb B (compress_fips wbits wbytes S0 S1 s0 s1 (map fst R)) fuel s data.
Proof.
  intros Hw HK HK8 Ht Hs. apply (absorb_ext _ _ _ (sha2_state wbits)); [|done]. intros s' b [Hl Hd].
  split; [by apply sha2_Transform_fips|by apply sha2_Transform_state].
Qed.

(** C37. SHA-256 and SHA-512 are the functions of FIPS 180-4. For every message, cut into any
    sequence of writes, of fewer than 2^64 bits, the digest is the one of the standard's
    definition: padding, message schedule, compression with registers that shift, the rotations and shifts of its functions, and constants
    computed from the square and cube roots of the first primes. *)
Theorem sha2_standard ds : Z.of_nat (length (concat ds)) < 2 ^ 61 →
  CSHA256_Finalize (fold_left CSHA256_Write ds CSHA256) = SHA256_fips (concat ds) ∧
  CSHA512_Finalize (fold_left CSHA512_Write ds CSHA512) = SHA512_fips (concat ds).
Proof.
  intros Hlt. unfold SHA256_fips, SHA512_fips. destruct SHA256_constants as [-> ->], SHA512_constants as [-> ->].
  split; unfold CSHA256_Finalize, CSHA256_Write, CSHA256, CSHA512_Finalize, CSHA512_Write, CSHA512; rewrite stream_spec by (done || lia); unfold hash_spec, padding; cbv zeta.
  - rewrite WriteBE64_fips, (map_ext _ _ WriteBE32_fips). do 2 f_equal. apply sha2_absorb; [lia|simpl; lia|done|done|]. split; [done|repeat constructor; lia].
  - rewrite sizedesc_fips, (map_ext _ _ WriteBE64_fips) by lia. do 2 f_equal. apply sha2_absorb; [lia|simpl; lia|done|done|]. split; [done|repeat constructor; lia].
Qed.

Lemma sha2_standard_witness :
  CSHA256_Finalize (fold_left CSHA256_Write [[97]; [98; 99]] CSHA256) = SHA256_fips [97; 98; 99] ∧
  CSHA512_Finalize (fold_left CSHA512_Write [[97]; [98; 99]] CSHA512) = SHA512_fips [97; 98; 99].
Proof. apply (sha2_standard [[97]; [98; 99]]). reflexivity. Defined.

(** ** The interface of the interpreter *)
Definition sha256_of (l : list Z) : list Z := CSHA256_Finalize (CSHA256_Write CSHA256 l).
Definition sha512_of (l : list Z) : list Z := CSHA512_Finalize (CSHA512_Write CSHA512 l).
Definition sha1_of (l : list Z) : list Z := CSHA1_Finalize (CSHA1_Write CSHA1 l).
Definition ripemd160_of (l : list Z) : list Z := CRIPEMD160_Finalize (CRIPEMD160_Write CRIPEMD160 l).
(** The hash functions of the program; the curve operations stay parameters. *)
Definition noir_crypto (lows : list Z → bool) (verify : list Z → list Z → list Z → bool) : Interpreter.Crypto := {|
  Interpreter.ripemd160 := ripemd160_of; Interpreter.sha1 := sha1_of; Interpreter.sha256 := sha256_of;
  Interpreter.CheckLowS := lows; Interpreter.Verify := verify |}.

Section state.
Context (B : nat) (T : list Z → list Z → list Z) (P : list Z → Prop) (HT : ∀ s b, P s → P (T s b)).
Lemma write_chunks_state fuel : ∀ s data bytes, P s → P (write_chunks B T fuel s data bytes).1.1.
Proof using HT. induction fuel as [|fuel IH]; intros s data bytes Hs; [done|]. cbn [write_chunks]. destruct (_ <=? _)%nat; auto. Qed.
Lemma Write_state h data : P (h_s h) → P (h_s (Write B T h data)).
Proof using HT.
  intros Hs. unfold Write. set (bufsize := Z.to_nat _).
  destruct (negb _ && _)%bool; cbv zeta;
    match goal with |- context [write_chunks B T ?n ?s ?d ?b] =>
      pose proof (write_chunks_state n s d b) as Hc; destruct (write_chunks B T n s d b) as [[s' d'] b'] end;
    cbn [fst] in Hc; destruct (0 <? _)%nat; cbn [h_s]; auto.
Qed.
Lemma Finalize_state Init lb len out data : P Init → ∃ s, P s ∧ Finalize B T lb len out (Write B T (new_hasher B Init) data) = out s.
Proof using HT. intros Hi. unfold Finalize. cbv zeta. eexists. split; [|done]. by do 3 apply Write_state. Qed.
End state.

Lemma concat_words (f : Z → list Z) n s : (∀ x, length (f x) = n ∧ Radix.digits 256 (f x)) →
  length (concat (map f s)) = (length s * n)%nat ∧ Radix.digits 256 (concat (map f s)).
Proof.
  intros Hf. induction s as [|x s [IHl IHd]]; [by split; [|constructor]|]. cbn [map concat]. destruct (Hf x) as [Hl Hd].
  rewrite length_app, Hl, IHl. split; [done|]. by apply digits_app.
Qed.
Lemma WriteBE32_ok x : length (WriteBE32 x) = 4%nat ∧ Radix.digits 256 (WriteBE32 x).
Proof. unfold WriteBE32. rewrite length_rev. split; [done|]. apply Forall_rev, digits_split. lia. Qed.
Lemma WriteLE32_ok x : length (WriteLE32 x) = 4%nat ∧ Radix.digits 256 (WriteLE32 x).
Proof. split; [done|]. apply digits_split. lia. Qed.
Lemma SHA1_rounds_length n : ∀ i v ws chunk, length v = 5%nat → length (SHA1_rounds n i v ws chunk) = 5%nat.
Proof. induction n as [|n IH]; intros; [done|]. cbn [SHA1_rounds]. apply IH. unfold SHA1_Round. by rewrite !length_insert. Qed.

Lemma sha256_of_ok l : length (sha256_of l) = 32%nat ∧ Radix.digits 256 (sha256_of l).
Proof.
  destruct (Finalize_state 64 SHA256_Transform (sha2_state 32) (λ s b, sha2_Transform_state 32 _ _ _ _ _ _ ltac:(lia) s b)
              SHA256_Initialize 8 WriteBE64 (λ s, concat (map WriteBE32 s)) l) as (s & [Hs _] & E).
  { split; [done|repeat constructor; lia]. }
  unfold sha256_of, CSHA256_Finalize, CSHA256_Write, CSHA256. rewrite E.
  destruct (concat_words WriteBE32 4 s WriteBE32_ok) as [-> Hd]. by rewrite Hs.
Qed.
Lemma sha1_of_ok l : length (sha1_of l) = 20%nat ∧ Radix.digits 256 (sha1_of l).
Proof.
  destruct (Finalize_state 64 SHA1_Transform (λ s, length s = 5%nat)) with (Init := MD_Initialize) (lb := 8%nat) (len := WriteBE64)
    (out := λ s, concat (map WriteBE32 s)) (data := l) as (s & Hs & E); [|done|].
  { intros s b Hs. unfold SHA1_Transform. rewrite length_zip_with, SHA1_rounds_length; lia. }
  unfold sha1_of, CSHA1_Finalize, CSHA1_Write, CSHA1. rewrite E.
  destruct (concat_words WriteBE32 4 s WriteBE32_ok) as [-> Hd]. by rewrite Hs.
Qed.
Lemma ripemd160_of_ok l : length (ripemd160_of l) = 20%nat ∧ Radix.digits 256 (ripemd160_of l).
Proof.
  destruct (Finalize_state 64 RMD_Transform (λ s, length s = 5%nat)) with (Init := MD_Initialize) (lb := 8%nat) (len := WriteLE64)
    (out := λ s, concat (map WriteLE32 s)) (data := l) as (s & Hs & E); [done|done|].
  unfold ripemd160_of, CRIPEMD160_Finalize, CRIPEMD160_Write, CRIPEMD160. rewrite E.
  destruct (concat_words WriteLE32 4 s WriteLE32_ok) as [-> Hd]. by rewrite Hs.
Qed.

(** The interpreter's requirements on hash functions hold for the program's. *)
#[export] Instance noir_crypto_bytes lows verify : InterpreterSafety.CryptoBytes (noir_crypto lows verify).
Proof.
  split; intros l; cbn [Interpreter.ripemd160 Interpreter.sha1 Interpreter.sha256 noir_crypto]; unfold Script.Script.size.
  - destruct (ripemd160_of_ok l) as [-> ?]. by split.
  - destruct (sha1_of_ok l) as [-> ?]. by split.
  - destruct (sha256_of_ok l) as [-> ?]. by split.
Qed.

Lemma WriteBE64_ok x : length (WriteBE64 x) = 8%nat ∧ Radix.digits 256 (WriteBE64 x).
Proof. unfold WriteBE64. rewrite length_rev. split; [done|]. apply Forall_rev, digits_split. lia. Qed.
Lemma sha512_of_ok l : length (sha512_of l) = 64%nat ∧ Radix.digits 256 (sha512_of l).
Proof.
  destruct (Finalize_state 128 SHA512_Transform (sha2_state 64) (λ s b, sha2_Transform_state 64 _ _ _ _ _ _ ltac:(lia) s b)
              SHA512_Initialize 16 SHA512_sizedesc (λ s, concat (map WriteBE64 s)) l) as (s & [Hs _] & E).
  { split; [done|repeat constructor; lia]. }
  unfold sha512_of, CSHA512_Finalize, CSHA512_Write, CSHA512. rewrite E.
  destruct (concat_words WriteBE64 8 s WriteBE64_ok) as [-> Hd]. by rewrite Hs.
Qed.

Definition be_digest (n : nat) (x : Z) : list Z := rev (Radix.split 256 n x).

(** RFC 2104, with [B]-byte blocks. *)
Definition hmac_rfc (B : nat) (hash : list Z → list Z) (key m : list Z) : list Z :=
  let k0 := if (length key <=? B)%nat then key else hash key in
  let k0 := k0 ++ replicate (B - length k0) 0 in
  hash (map (Z.lxor 0x5c) k0 ++ hash (map (Z.lxor 0x36) k0 ++ m)).

Section hmac_spec.
Context (B out : nat) (new : hasher) (write : hasher → list Z → hasher) (final : hasher → list Z).
Notation hash := (λ l, final (write new l)).
Context (Hstream : ∀ ds, Z.of_nat (length (concat ds)) < 2 ^ 61 → final (fold_left write ds new) = hash (concat ds))
  (Hout : ∀ l, length (hash l) = out) (HoB : (out <= B)%nat) (HB : Z.of_nat B < 2 ^ 32).
Lemma hmac_spec key ds : Z.of_nat (length (concat ds)) < 2 ^ 60 →
  hmac_Finalize write final (fold_left write ds (hmac_new B out new write final key).1) (hmac_new B out new write final key).2 =
  hmac_rfc B hash key (concat ds).
Proof using All.
  intros Hlt. unfold hmac_Finalize, hmac_new, hmac_rfc. cbv zeta. cbn [fst snd].
  set (k0 := (if (length key <=? B)%nat then key else hash key) ++ _).
  assert (hmac_rkey B out new write final key = k0) as ->.
  { unfold hmac_rkey, k0. destruct (_ <=? _)%nat; [done|]. by rewrite Hout. }
  assert (length k0 = B) as Hk0.
  { unfold k0. destruct (Nat.leb_spec (length key) B); rewrite length_app, length_replicate, ?Hout; lia. }
  rewrite map_map.
  assert (map (λ x, Z.lxor (Z.lxor x 92) (Z.lxor 92 54)) k0 = map (Z.lxor 54) k0) as ->.
  { apply map_ext. intros x. rewrite Z.lxor_assoc, <- (Z.lxor_assoc 92 92), Z.lxor_nilpotent, Z.lxor_0_l. apply Z.lxor_comm. }
  assert (map (λ x, Z.lxor x 92) k0 = map (Z.lxor 92) k0) as -> by (apply map_ext; intros; apply Z.lxor_comm).
  set (ik := map (Z.lxor 54) k0). set (ok := map (Z.lxor 92) k0).
  pose proof (Hstream (ik :: ds)) as Ei. cbn [fold_left concat] in Ei. rewrite length_app in Ei. unfold ik at 1 in Ei.
  rewrite length_map, Hk0 in Ei. rewrite Ei by lia.
  pose proof (Hstream [ok; hash (ik ++ concat ds)]) as Eo. cbn [fold_left concat] in Eo.
  rewrite app_nil_r, length_app in Eo. unfold ok at 1 in Eo. rewrite length_map, Hk0, Hout in Eo. rewrite Eo by lia. done.
Qed.
End hmac_spec.

Lemma stream_single B Init T lb len out ds : (0 < B)%nat → (lb < B)%nat → (∀ n, length (len n) = lb) → Z.of_nat B * 2 < 2 ^ 32 →
  Z.of_nat (length (concat ds)) < 2 ^ 61 →
  Finalize B T lb len out (fold_left (Write B T) ds (new_hasher B Init)) =
  Finalize B T lb len out (Write B T (new_hasher B Init) (concat ds)).
Proof.
  intros. rewrite stream_spec by done. change (Write B T (new_hasher B Init) (concat ds))
    with (fold_left (Write B T) [concat ds] (new_hasher B Init)). rewrite stream_spec; try done; cbn [concat]; by rewrite app_nil_r.
Qed.

(** The hash classes behind the interpreter: digests have 32 and 20 bytes; cutting the input of
    SHA-1 and RIPEMD-160 into writes does not matter, and their digest is the
    compression of the padded message; the HMAC classes compute RFC 2104 over SHA-256 and
    SHA-512, for keys of any length and data in any pieces. *)
Theorem hash_classes key ds : Z.of_nat (length (concat ds)) < 2 ^ 60 →
  (∀ l, length (sha256_of l) = 32 ∧ length (sha1_of l) = 20 ∧ length (ripemd160_of l) = 20 ∧ length (sha512_of l) = 64)%nat ∧
  CSHA1_Finalize (fold_left CSHA1_Write ds CSHA1) =
    hash_spec 64 MD_Initialize SHA1_Transform 8 WriteBE64 (λ s, concat (map WriteBE32 s)) (concat ds) ∧
  CRIPEMD160_Finalize (fold_left CRIPEMD160_Write ds CRIPEMD160) =
    hash_spec 64 MD_Initialize RMD_Transform 8 WriteLE64 (λ s, concat (map WriteLE32 s)) (concat ds) ∧
  CHMAC_SHA256_Finalize (fold_left CSHA256_Write ds (CHMAC_SHA256 key).1) (CHMAC_SHA256 key).2 = hmac_rfc 64 sha256_of key (concat ds) ∧
  CHMAC_SHA512_Finalize (fold_left CSHA512_Write ds (CHMAC_SHA512 key).1) (CHMAC_SHA512 key).2 = hmac_rfc 128 sha512_of key (concat ds).
Proof.
  intros Hlt. split; [|split; [|split; [|split]]].
  - intros l. split_and!; [apply sha256_of_ok|apply sha1_of_ok|apply ripemd160_of_ok|apply sha512_of_ok].
  - apply stream_spec; done || lia.
  - apply stream_spec; done || lia.
  - apply hmac_spec; [|intros; apply sha256_of_ok|lia|done|done]. intros ds' Hl. apply stream_single; done || lia.
  - apply hmac_spec; [|intros; apply sha512_of_ok|lia|done|done]. intros ds' Hl. apply stream_single; done || lia.
Qed.

Lemma hash_classes_witness :
  CHMAC_SHA256_Finalize (fold_left CSHA256_Write [[1]; [2]] (CHMAC_SHA256 [9]).1) (CHMAC_SHA256 [9]).2 =
  hmac_rfc 64 sha256_of [9] [1; 2].
Proof. apply (hash_classes [9] [[1]; [2]]). reflexivity. Defined.

(** Known answers, from test/crypto_tests.cpp: the digests of [abc]. *)
Example hash_vectors :
  sha256_of [97; 98; 99] = be_digest 32 0xba7816bf8f01cfea414140de5dae2223b00361a396177a9cb410ff61f20015ad ∧
  sha1_of [97; 98; 99] = be_digest 20 0xa9993e364706816aba3e25717850c26c9cd0d89d ∧
  ripemd160_of [97; 98; 99] = be_digest 20 0x8eb208f7e05d987a9b044a8e98c6b087f15a0bfc.
Proof. by vm_compute. Qed.
End Hashes.
