(* ===== verification/Chain.v ===== *)
(** * The block index (chain.h, chain.cpp, AddToBlockIndex of main.cpp)

    Block index entries live in an arena; pointers are positions in it. The theorems show
    that the skip list finds the same ancestors as the parent pointers and is kept by the
    operation that adds blocks, that a chain is the path to its tip, that locators and forks
    are what they should be, and that the proof of a block is the expected number of hashes. *)
From S2P Require Import Prelude ArithUint256.

Module Chain.

(** ** Data *)
Notation ptr := nat.
Record CBlockIndex := mkIndex {
  phashBlock : list Z; pprev : option ptr; pskip : option ptr; nHeight : Z;
  nFile : Z; nDataPos : Z; nUndoPos : Z; nChainWork : list Z; nTx : Z; nChainTx : Z; nStatus : Z;
  bi_nVersion : Z; bi_hashMerkleRoot : list Z; nTime : Z; nBits : Z; bi_nNonce : Z; nSequenceId : Z }.
Notation arena := (list CBlockIndex).

Definition BLOCK_VALID_TREE : Z := 2.
Definition BLOCK_VALID_MASK : Z := 7.
Definition BLOCK_FAILED_MASK : Z := 96.
Definition BLOCK_PROOF_OF_STAKE : Z := 256.

Definition GetBlockTime (b : CBlockIndex) : Z := nTime b.
Definition IsProofOfStake (b : CBlockIndex) : bool := negb (Z.land (nStatus b) BLOCK_PROOF_OF_STAKE =? 0).

(** Assignments to fields. *)
Definition set_link (b : CBlockIndex) (q : ptr) (h : Z) : CBlockIndex :=
  mkIndex (phashBlock b) (Some q) (pskip b) h (nFile b) (nDataPos b) (nUndoPos b) (nChainWork b)
    (nTx b) (nChainTx b) (nStatus b) (bi_nVersion b) (bi_hashMerkleRoot b) (nTime b) (nBits b) (bi_nNonce b) (nSequenceId b).
Definition set_pskip (b : CBlockIndex) (s : option ptr) : CBlockIndex :=
  mkIndex (phashBlock b) (pprev b) s (nHeight b) (nFile b) (nDataPos b) (nUndoPos b) (nChainWork b)
    (nTx b) (nChainTx b) (nStatus b) (bi_nVersion b) (bi_hashMerkleRoot b) (nTime b) (nBits b) (bi_nNonce b) (nSequenceId b).
Definition set_nChainWork (b : CBlockIndex) (w : list Z) : CBlockIndex :=
  mkIndex (phashBlock b) (pprev b) (pskip b) (nHeight b) (nFile b) (nDataPos b) (nUndoPos b) w
    (nTx b) (nChainTx b) (nStatus b) (bi_nVersion b) (bi_hashMerkleRoot b) (nTime b) (nBits b) (bi_nNonce b) (nSequenceId b).
Definition set_nStatus (b : CBlockIndex) (x : Z) : CBlockIndex :=
  mkIndex (phashBlock b) (pprev b) (pskip b) (nHeight b) (nFile b) (nDataPos b) (nUndoPos b) (nChainWork b)
    (nTx b) (nChainTx b) x (bi_nVersion b) (bi_hashMerkleRoot b) (nTime b) (nBits b) (bi_nNonce b) (nSequenceId b).

(** [None] is the failed assertion that only validity flags are passed. *)
Definition IsValid (b : CBlockIndex) (nUpTo : Z) : option bool :=
  if negb (Z.land nUpTo (u32 (Z.lnot BLOCK_VALID_MASK)) =? 0) then None
  else if negb (Z.land (nStatus b) BLOCK_FAILED_MASK =? 0) then Some false
  else Some (nUpTo <=? Z.land (nStatus b) BLOCK_VALID_MASK).
Definition RaiseValidity (b : CBlockIndex) (nUpTo : Z) : option (CBlockIndex * bool) :=
  if negb (Z.land nUpTo (u32 (Z.lnot BLOCK_VALID_MASK)) =? 0) then None
  else if negb (Z.land (nStatus b) BLOCK_FAILED_MASK =? 0) then Some (b, false)
  else if Z.land (nStatus b) BLOCK_VALID_MASK <? nUpTo then
    Some (set_nStatus b (Z.lor (Z.land (nStatus b) (u32 (Z.lnot BLOCK_VALID_MASK))) nUpTo), true)
  else Some (b, false).

(** ** Skip list *)
Definition InvertLowestOne (n : Z) : Z := Z.land n (n - 1).
Definition GetSkipHeight (height : Z) : Z :=
  if height <? 2 then 0
  else if negb (Z.land height 1 =? 0) then InvertLowestOne (InvertLowestOne (height - 1)) + 1
  else InvertLowestOne height.

(** The walk of [GetAncestor]. [None] is a failed assertion or a bad pointer. *)
Fixpoint ancestor_walk (fuel : nat) (A : arena) (height : Z) (pindexWalk : ptr) (heightWalk : Z) : option ptr :=
  if heightWalk <=? height then Some pindexWalk
  else
    match fuel with
    | O => None
    | S fuel =>
        b ← A !! pindexWalk;
        let heightSkip := GetSkipHeight heightWalk in
        let heightSkipPrev := GetSkipHeight (heightWalk - 1) in
        match pskip b with
        | Some q =>
            if ((heightSkip =? height) ||
                ((height <? heightSkip) && negb ((heightSkipPrev <? heightSkip - 2) && (height <=? heightSkipPrev))))%bool
            then ancestor_walk fuel A height q heightSkip
            else p ← pprev b; ancestor_walk fuel A height p (heightWalk - 1)
        | None => p ← pprev b; ancestor_walk fuel A height p (heightWalk - 1)
        end
    end.
(** [Some None] is [NULL]. The walk goes down at least one height per step. *)
Definition GetAncestor (A : arena) (p : ptr) (height : Z) : option (option ptr) :=
  b ← A !! p;
  if ((nHeight b <? height) || (height <? 0))%bool then Some None
  else Some <$> ancestor_walk (Z.to_nat (nHeight b)) A height p (nHeight b).

Definition BuildSkip (A : arena) (p : ptr) : option arena :=
  b ← A !! p;
  match pprev b with
  | None => Some A
  | Some q => s ← GetAncestor A q (GetSkipHeight (nHeight b)); Some (<[p := set_pskip b s]> A)
  end.

(** ** Work *)
Definition WIDTH : nat := ArithUint256.WIDTH256.
Definition GetBlockProof (b : CBlockIndex) : ArithUint256.uint_error + list Z :=
  let '(bnTarget, fNegative, fOverflow) := ArithUint256.SetCompact (nBits b) in
  if (fNegative || fOverflow || ArithUint256.EqualTo bnTarget 0)%bool then inr (ArithUint256.base_uint_of_uint64 WIDTH 0)
  else
    match ArithUint256.op_div WIDTH (ArithUint256.op_compl bnTarget) (ArithUint256.op_add64 WIDTH bnTarget 1) with
    | inl e => inl e
    | inr q => inr (ArithUint256.op_add64 WIDTH q 1)
    end.

(** [sign * GetLow64()] converts to [uint64_t] and back to [int64_t]. *)
Definition GetBlockProofEquivalentTime (to from tip : CBlockIndex) (nPowTargetSpacing : Z) : ArithUint256.uint_error + Z :=
  let '(r, sign) :=
    if 0 <? ArithUint256.CompareTo WIDTH (nChainWork to) (nChainWork from)
    then (ArithUint256.op_sub (nChainWork to) (nChainWork from), 1)
    else (ArithUint256.op_sub (nChainWork from) (nChainWork to), -1) in
  match GetBlockProof tip with
  | inl e => inl e
  | inr proof =>
      match ArithUint256.op_div WIDTH
              (ArithUint256.op_mul WIDTH r (ArithUint256.base_uint_of_uint64 WIDTH (u64 nPowTargetSpacing))) proof with
      | inl e => inl e
      | inr r =>
          if 63 <? ArithUint256.bits WIDTH r then inr (sign * (2 ^ 63 - 1))
          else inr (i64 (u64 (sign * ArithUint256.GetLow64 r)))
      end
  end.

(** ** Adding a block *)
Record index_state := mkState {
  blocks : arena; mapBlockIndex : gmap (list Z) ptr; pindexBestHeader : option ptr; setDirtyBlockIndex : gset ptr }.
Record CBlockHeader := mkHeader {
  hb_hash : list Z; hb_nVersion : Z; hashPrevBlock : list Z; hb_hashMerkleRoot : list Z; hb_nTime : Z; hb_nBits : Z; hb_nNonce : Z }.
(** The constructor from a header. *)
Definition CBlockIndex_of (block : CBlockHeader) : CBlockIndex :=
  mkIndex [] None None 0 0 0 0 (ArithUint256.base_uint_zero WIDTH) 0 0 0
    (hb_nVersion block) (hb_hashMerkleRoot block) (hb_nTime block) (hb_nBits block) (hb_nNonce block) 0.
Definition set_phashBlock (b : CBlockIndex) (h : list Z) : CBlockIndex :=
  mkIndex h (pprev b) (pskip b) (nHeight b) (nFile b) (nDataPos b) (nUndoPos b) (nChainWork b)
    (nTx b) (nChainTx b) (nStatus b) (bi_nVersion b) (bi_hashMerkleRoot b) (nTime b) (nBits b) (bi_nNonce b) (nSequenceId b).

(** [hb_hash] is [block.GetHash()]. [None] is an exception, a failed assertion or a bad pointer. *)
Definition AddToBlockIndex (st : index_state) (block : CBlockHeader) : option (index_state * ptr) :=
  match mapBlockIndex st !! hb_hash block with
  | Some p => Some (st, p)
  | None =>
      let p := length (blocks st) in
      let m := <[hb_hash block := p]> (mapBlockIndex st) in
      let b := set_phashBlock (CBlockIndex_of block) (hb_hash block) in
      A ← match m !! hashPrevBlock block with
          | None => Some (blocks st ++ [b])
          | Some q =>
              c ← (blocks st ++ [b]) !! q;
              BuildSkip (blocks st ++ [set_link b q (nHeight c + 1)]) p
          end;
      b ← A !! p;
      prevWork ← match pprev b with
                 | None => Some (ArithUint256.base_uint_of_uint64 WIDTH 0)
                 | Some q => nChainWork <$> A !! q
                 end;
      proof ← match GetBlockProof b with inl _ => None | inr x => Some x end;
      let b := set_nChainWork b (ArithUint256.op_add prevWork proof) in
      '(b, _) ← RaiseValidity b BLOCK_VALID_TREE;
      let A := <[p := b]> A in
      best ← match pindexBestHeader st with
             | None => Some p
             | Some h => c ← A !! h;
                         Some (if ArithUint256.CompareTo WIDTH (nChainWork c) (nChainWork b) <? 0 then p else h)
             end;
      Some (mkState A m (Some best) ({[p]} ∪ setDirtyBlockIndex st), p)
  end.

(** ** Chains *)
Definition vget (vChain : list ptr) (h : Z) : option ptr :=
  if ((h <? 0) || (Z.of_nat (length vChain) <=? h))%bool then None else vChain !! Z.to_nat h.
Definition Tip (vChain : list ptr) : option ptr := vChain !! (length vChain - 1)%nat.
Definition Genesis (vChain : list ptr) : option ptr := vChain !! 0%nat.
Definition Height (vChain : list ptr) : Z := Z.of_nat (length vChain) - 1.
Definition Contains (A : arena) (vChain : list ptr) (p : ptr) : bool :=
  match A !! p with Some b => bool_decide (vget vChain (nHeight b) = Some p) | None => false end.
Definition Next (A : arena) (vChain : list ptr) (p : ptr) : option ptr :=
  match A !! p with
  | Some b => if Contains A vChain p then vget vChain (nHeight b + 1) else None
  | None => None
  end.

(** [vChain.resize(n)], the new slots being null: slots are [option ptr] inside [SetTip]. *)
Definition resize_chain (n : nat) (v : list (option ptr)) : list (option ptr) :=
  take n v ++ replicate (n - length v) None.
Fixpoint set_tip_loop (fuel : nat) (A : arena) (v : list (option ptr)) (p : option ptr) : option (list (option ptr)) :=
  match p with
  | None => Some v
  | Some q =>
      b ← A !! q;
      if bool_decide (v !! Z.to_nat (nHeight b) = Some (Some q)) then Some v
      else match fuel with
           | O => None
           | S fuel => set_tip_loop fuel A (<[Z.to_nat (nHeight b) := Some q]> v) (pprev b)
           end
  end.
Definition SetTip (A : arena) (vChain : list ptr) (p : option ptr) : option (list ptr) :=
  match p with
  | None => Some []
  | Some q =>
      b ← A !! q;
      v ← set_tip_loop (Z.to_nat (nHeight b) + 1) A (resize_chain (Z.to_nat (nHeight b) + 1) (Some <$> vChain)) p;
      mapM id v
  end.

Fixpoint fork_loop (fuel : nat) (A : arena) (vChain : list ptr) (p : ptr) : option (option ptr) :=
  if Contains A vChain p then Some (Some p)
  else b ← A !! p;
       match pprev b, fuel with
       | None, _ => Some None
       | Some q, S fuel => fork_loop fuel A vChain q
       | Some _, O => None
       end.
Definition FindFork (A : arena) (vChain : list ptr) (p : option ptr) : option (option ptr) :=
  match p with
  | None => Some None
  | Some p =>
      b ← A !! p;
      p ← (if Height vChain <? nHeight b then GetAncestor A p (Height vChain) else Some (Some p));
      match p with
      | None => Some None
      | Some p => b ← A !! p; fork_loop (Z.to_nat (nHeight b)) A vChain p
      end
  end.

(** [GetLocator]: the pointers whose hashes are collected. *)
Fixpoint locator_loop (fuel : nat) (A : arena) (vChain : list ptr) (p : ptr) (nStep n : Z) : option (list ptr) :=
  b ← A !! p;
  if nHeight b =? 0 then Some [p]
  else
    let h := Z.max (nHeight b - nStep) 0 in
    q ← (if Contains A vChain p then Some (vget vChain h) else GetAncestor A p h);
    let nStep := if 10 <? n + 1 then nStep * 2 else nStep in
    match q, fuel with
    | None, _ => Some [p]
    | Some q, S fuel => cons p <$> locator_loop fuel A vChain q nStep (n + 1)
    | Some _, O => None
    end.
Definition GetLocator (A : arena) (vChain : list ptr) (p : option ptr) : option (list (list Z)) :=
  match (match p with Some _ => p | None => Tip vChain end) with
  | None => Some []
  | Some p =>
      b ← A !! p;
      ps ← locator_loop (Z.to_nat (nHeight b)) A vChain p 1 0;
      mapM (λ q, phashBlock <$> A !! q) ps
  end.

(** [LastCommonAncestor] of main.cpp; the final assertion fails as [None]. *)
Fixpoint lca_loop (fuel : nat) (A : arena) (pa pb : option ptr) : option (option ptr) :=
  match pa, pb with
  | Some a, Some b =>
      if decide (a = b) then Some (Some a)
      else match fuel with
           | O => None
           | S fuel => ba ← A !! a; bb ← A !! b; lca_loop fuel A (pprev ba) (pprev bb)
           end
  | None, None => Some None
  | _, _ => None
  end.
Definition LastCommonAncestor (A : arena) (pa pb : ptr) : option (option ptr) :=
  ba ← A !! pa; bb ← A !! pb;
  '(pa, pb) ← (if nHeight bb <? nHeight ba then a ← GetAncestor A pa (nHeight bb); Some (a, Some pb)
               else if nHeight ba <? nHeight bb then b ← GetAncestor A pb (nHeight ba); Some (Some pa, b)
               else Some (Some pa, Some pb));
  lca_loop (S (Z.to_nat (Z.min (nHeight ba) (nHeight bb)))) A pa pb.

(** [GetLastBlockIndex] *)
Fixpoint GetLastBlockIndex (fuel : nat) (A : arena) (p : ptr) (fProofOfStake : bool) : option ptr :=
  b ← A !! p;
  match pprev b with
  | Some q =>
      if bool_decide (IsProofOfStake b = fProofOfStake) then Some p
      else match fuel with O => None | S fuel => GetLastBlockIndex fuel A q fProofOfStake end
  | None => Some p
  end.

(** ** Ancestors *)
Fixpoint up (A : arena) (n : nat) (p : ptr) : option ptr :=
  match n with
  | O => Some p
  | S n => b ← A !! p; q ← pprev b; up A n q
  end.

Record wf_entry (A : arena) (p : ptr) (b : CBlockIndex) : Prop := {
  we_height : 0 <= nHeight b;
  we_prev : match pprev b with
            | None => nHeight b = 0
            | Some q => ∃ c, A !! q = Some c ∧ nHeight b = nHeight c + 1
            end;
  we_skip : ∀ q, pskip b = Some q → 0 < nHeight b ∧ up A (Z.to_nat (nHeight b - GetSkipHeight (nHeight b))) p = Some q }.
Definition wf_index (A : arena) : Prop := ∀ p b, A !! p = Some b → wf_entry A p b.

Lemma land_pred n : 0 <= n → 0 <= InvertLowestOne n ∧ (0 < n → InvertLowestOne n < n).
Proof.
  intros Hn. unfold InvertLowestOne. destruct (decide (n = 0)) as [->|]; [done|].
  pose proof (Z.land_nonneg n (n - 1)). split; [lia|]. intros _.
  assert (Z.land (n - 1) n <= n - 1); [|rewrite Z.land_comm; lia].
  apply Z.ldiff_le; [lia|]. apply bits_ext. intros i Hi. rewrite Z.ldiff_spec, Z.land_spec, Z.bits_0.
  by destruct (Z.testbit (n - 1) i), (Z.testbit n i).
Qed.
Lemma GetSkipHeight_bound h : 0 < h → 0 <= GetSkipHeight h < h.
Proof.
  intros Hh. unfold GetSkipHeight. destruct (Z.ltb_spec h 2); [lia|]. destruct (negb _).
  - destruct (land_pred (h - 1) ltac:(lia)) as [H1 H2]. destruct (land_pred _ H1) as [H3 H4].
    specialize (H2 ltac:(lia)). destruct (decide (InvertLowestOne (h - 1) = 0)) as [E|]; [|lia]. rewrite E. change (InvertLowestOne 0) with 0. lia.
  - destruct (land_pred h ltac:(lia)). lia.
Qed.

Lemma up_add A n m p : up A (n + m) p = q ← up A n p; up A m q.
Proof.
  revert p. induction n as [|n IH]; intros p; [done|]. cbn [Nat.add up].
  destruct (A !! p) as [b|]; [|done]. cbn [mbind option_bind]. destruct (pprev b); [|done]. apply IH.
Qed.
Lemma up_spec A n : ∀ p b, wf_index A → A !! p = Some b → Z.of_nat n <= nHeight b →
  ∃ q c, up A n p = Some q ∧ A !! q = Some c ∧ nHeight c = nHeight b - Z.of_nat n.
Proof.
  induction n as [|n IH]; intros p b HA E Hn; [exists p, b; split_and!; [done|done|lia]|].
  cbn [up]. rewrite E. cbn [mbind option_bind]. destruct (HA p b E) as [_ Hp _].
  destruct (pprev b) as [q|]; [|lia]. destruct Hp as (c & Ec & Hh).
  destruct (IH q c HA Ec) as (q' & c' & Eq & Ec' & Hh'); [lia|]. exists q', c'. split_and!; [done|done|lia].
Qed.

Lemma ancestor_walk_spec A h fuel : wf_index A → 0 <= h → ∀ p b, A !! p = Some b → h <= nHeight b →
  nHeight b - h <= Z.of_nat fuel → ancestor_walk fuel A h p (nHeight b) = up A (Z.to_nat (nHeight b - h)) p.
Proof.
  intros HA Hh. induction fuel as [|fuel IH]; intros p b E Hle Hf; cbn [ancestor_walk];
    (destruct (Z.leb_spec (nHeight b) h) as [Hd|Hd]; [by replace (Z.to_nat (nHeight b - h)) with 0%nat by lia|]); [lia|].
  rewrite E. cbn [mbind option_bind]. pose proof (HA p b E) as [Hpos Hp Hs].
  assert (∀ q, pskip b = Some q → h <= GetSkipHeight (nHeight b) →
    ancestor_walk fuel A h q (GetSkipHeight (nHeight b)) = up A (Z.to_nat (nHeight b - h)) p) as Hskip.
  { intros q Eq Hge. destruct (Hs q Eq) as [_ Hu]. pose proof (GetSkipHeight_bound (nHeight b) ltac:(lia)) as Hb.
    destruct (up_spec A (Z.to_nat (nHeight b - GetSkipHeight (nHeight b))) p b HA E) as (q' & c & Eu & Ec & Hc); [lia|].
    rewrite Hu in Eu. injection Eu as <-. rewrite Z2Nat.id in Hc by lia.
    replace (GetSkipHeight (nHeight b)) with (nHeight c) at 1 by lia. rewrite (IH q c Ec) by lia.
    replace (Z.to_nat (nHeight b - h)) with (Z.to_nat (nHeight b - GetSkipHeight (nHeight b)) + Z.to_nat (nHeight c - h))%nat by lia.
    by rewrite up_add, Hu. }
  assert ((q ← pprev b; ancestor_walk fuel A h q (nHeight b - 1)) = up A (Z.to_nat (nHeight b - h)) p) as Hprev.
  { replace (Z.to_nat (nHeight b - h)) with (S (Z.to_nat (nHeight b - 1 - h))) by lia. cbn [up]. rewrite E. cbn [mbind option_bind].
    destruct (pprev b) as [q|]; [|done]. destruct Hp as (c & Ec & Hc). cbn [mbind option_bind].
    replace (nHeight b - 1) with (nHeight c) by lia. apply IH; [done|lia|lia]. }
  destruct (pskip b) as [q|]; [|done]. bcase; [|done]. apply Hskip; [done|].
  apply orb_true_iff in E0 as [E0|E0]; breflect; lia.
Qed.

Lemma GetAncestor_spec A p b h : wf_index A → A !! p = Some b →
  GetAncestor A p h = Some (if ((nHeight b <? h) || (h <? 0))%bool then None else up A (Z.to_nat (nHeight b - h)) p).
Proof.
  intros HA E. unfold GetAncestor. rewrite E. cbn [mbind option_bind]. destruct (_ || _)%bool eqn:Eo; [done|]. breflect.
  pose proof (we_height _ _ _ (HA p b E)). rewrite ancestor_walk_spec by (done || lia).
  destruct (up_spec A (Z.to_nat (nHeight b - h)) p b HA E) as (q & c & -> & _); [lia|]. done.
Qed.

(** ** Proof of a block *)
Import ArithUint256.
Definition block_target (c : Z) : Z := if (negb (compact_word c =? 0) && Z.testbit c 23)%bool then 0 else compact_number c.
Lemma compact_number_top c : 0 <= c < 2 ^ 32 → 0 <= compact_number c ∧ (compact_number c < 2 ^ 256 → compact_number c < 2 ^ 256 - 1).
Proof.
  intros Hc. unfold compact_number. assert (0 <= compact_word c < 2 ^ 23) as Hw.
  { unfold compact_word. pose proof (Z.mod_pos_bound c (2 ^ 23) ltac:(lia)). case_match; [|lia]. breflect.
    assert (0 < 2 ^ (8 * (3 - c / 2 ^ 24))) by (apply Z.pow_pos_nonneg; zlia).
    split; [apply Z.div_pos; lia|]. apply Z.div_lt_upper_bound; nia. }
  case_match; [lia|]. breflect. replace (8 * (c / 2 ^ 24 - 3)) with (1 + (8 * (c / 2 ^ 24 - 3) - 1)) by lia.
  rewrite Z.pow_add_r by lia. change (2 ^ 256) with (2 * 2 ^ 255).
  assert (0 < 2 ^ (8 * (c / 2 ^ 24 - 3) - 1)) by (apply Z.pow_pos_nonneg; lia).
  set (e := 2 ^ (8 * (c / 2 ^ 24 - 3) - 1)) in *. split; [nia|]. intros. nia.
Qed.

Lemma GetBlockProof_spec b : 0 <= nBits b < 2 ^ 32 →
  ∃ v, GetBlockProof b = inr v ∧ ArithUint256.wf WIDTH v ∧
    val v = (let t := block_target (nBits b) in if (t =? 0) || (2 ^ 256 <=? t) then 0 else 2 ^ 256 / (t + 1)).
Proof.
  intros Hb. unfold GetBlockProof, block_target. destruct (SetCompact_value (nBits b) Hb) as (v & -> & Hwf & Hv).
  destruct (compact_number_top (nBits b) Hb) as [Hpos Htop]. set (c := compact_number (nBits b)) in *.
  destruct (negb _ && _)%bool; cbn [orb].
  { eexists. split; [done|]. split; [apply wf_of_uint64; unfold WIDTH, WIDTH256; lia|]. by rewrite val_of_uint64. }
  destruct (Z.leb_spec (2 ^ 256) c) as [Ho|Ho]; cbn [orb]; cbv zeta.
  { rewrite orb_true_r. eexists. split; [done|]. split; [apply wf_of_uint64; unfold WIDTH, WIDTH256; lia|]. by rewrite val_of_uint64. }
  rewrite Z.mod_small in Hv by lia. rewrite (EqualTo_spec WIDTH256), Hv, orb_false_r by (done || unfold WIDTH256; lia).
  destruct (Z.eqb_spec c 0) as [Ec|Ec].
  { eexists. split; [done|]. split; [apply wf_of_uint64; unfold WIDTH, WIDTH256; lia|]. by rewrite val_of_uint64. }
  assert (ArithUint256.wf WIDTH (base_uint_of_uint64 WIDTH 1)) as H1 by (apply wf_of_uint64; unfold WIDTH, WIDTH256; lia).
  destruct (op_compl_spec WIDTH v Hwf) as [Hcw Hcv]. destruct (op_add_spec WIDTH v _ Hwf H1) as [Haw Hav].
  rewrite val_of_uint64, Hv in Hav by lia. change ((2 ^ 32) ^ Z.of_nat WIDTH) with (2 ^ 256) in Hav, Hcv.
  rewrite Z.mod_small in Hav by lia. unfold op_add64. pose proof (op_div_spec WIDTH _ _ Hcw Haw) as Hd.
  destruct (op_div _ _ _) as [e|q]; [lia|]. destruct Hd as (_ & Hq & Hqv). eexists. split; [done|].
  destruct (op_add_spec WIDTH q _ Hq H1) as [Hr Hrv]. split; [done|]. rewrite Hrv, Hqv, val_of_uint64, Hcv, Hav, Hv by lia.
  change ((2 ^ 32) ^ Z.of_nat WIDTH) with (2 ^ 256).
  replace (2 ^ 256 - 1 - c) with (2 ^ 256 + (-1) * (c + 1)) by lia. rewrite Z.div_add by lia.
  rewrite Z.mod_small; [lia|]. replace (_ + -1 + 1) with (2 ^ 256 / (c + 1)) by lia.
  split; [apply Z.div_pos; lia|]. apply Z.div_lt_upper_bound; lia.
Qed.

(** ** Adding a block keeps the index *)
Lemma lookup_snoc_len {A} (l : list A) x : (l ++ [x]) !! length l = Some x.
Proof. by rewrite lookup_app_r, Nat.sub_diag by lia. Qed.
Lemma insert_snoc_len {A} (l : list A) x y : <[length l := y]> (l ++ [x]) = l ++ [y].
Proof. rewrite insert_app_r_alt, Nat.sub_diag by lia. done. Qed.

Lemma up_mono A l n : ∀ p q, up A n p = Some q → up (A ++ l) n p = Some q.
Proof.
  induction n as [|n IH]; intros p q; [done|]. cbn [up]. destruct (A !! p) as [b|] eqn:E; [|done].
  rewrite (lookup_app_l_Some _ _ _ _ E). cbn [mbind option_bind]. destruct (pprev b); [apply IH|done].
Qed.

Lemma wf_snoc A b : wf_index A →
  match pprev b with
  | None => nHeight b = 0 ∧ pskip b = None
  | Some q => ∃ c, A !! q = Some c ∧ nHeight b = nHeight c + 1 ∧
      ∀ s, pskip b = Some s → up A (Z.to_nat (nHeight c - GetSkipHeight (nHeight b))) q = Some s
  end → wf_index (A ++ [b]).
Proof.
  intros HA Hb p b' E. apply lookup_app_Some in E as [E|[Hl E]].
  - destruct (HA p b' E) as [Hh Hp Hs]. split; [done| |].
    + destruct (pprev b') as [q|]; [|done]. destruct Hp as (c & Ec & ?). exists c. split; [|done].
      by apply lookup_app_l_Some.
    + intros q Eq. destruct (Hs q Eq) as [? Hu]. split; [done|]. by apply up_mono.
  - assert (p = length A) as -> by (apply lookup_lt_Some in E; simpl in E; lia).
    rewrite Nat.sub_diag in E. injection E as <-. destruct (pprev b) as [q|] eqn:Ep.
    + destruct Hb as (c & Ec & Hh & Hs). pose proof (we_height _ _ _ (HA q c Ec)) as Hc. split; [lia| |].
      * rewrite Ep. exists c. split; [by apply lookup_app_l_Some|done].
      * intros s Es. split; [lia|]. pose proof (GetSkipHeight_bound (nHeight b) ltac:(lia)).
        replace (Z.to_nat (nHeight b - GetSkipHeight (nHeight b))) with (S (Z.to_nat (nHeight c - GetSkipHeight (nHeight b)))) by lia.
        cbn [up]. rewrite lookup_snoc_len. cbn [mbind option_bind]. rewrite Ep. cbn [mbind option_bind].
        by apply up_mono, Hs.
    + destruct Hb as [Hh Hs]. split; [lia|by rewrite Ep|by rewrite Hs].
Qed.

(** [BuildSkip] on the entry that was added last. *)
Lemma BuildSkip_snoc A b q c : wf_index A → pprev b = Some q → A !! q = Some c → nHeight b = nHeight c + 1 → pskip b = None →
  ∃ s, BuildSkip (A ++ [b]) (length A) = Some (A ++ [set_pskip b (Some s)]) ∧
    up A (Z.to_nat (nHeight c - GetSkipHeight (nHeight b))) q = Some s.
Proof.
  intros HA Ep Ec Hh Hs. pose proof (we_height _ _ _ (HA q c Ec)) as Hc.
  pose proof (GetSkipHeight_bound (nHeight b) ltac:(lia)) as Hb.
  destruct (up_spec A (Z.to_nat (nHeight c - GetSkipHeight (nHeight b))) q c HA Ec) as (s & d & Hu & _); [lia|].
  exists s. split; [|done]. unfold BuildSkip. rewrite lookup_snoc_len. cbn [mbind option_bind]. rewrite Ep.
  assert (wf_index (A ++ [b])) as HA' by (apply wf_snoc; [done|]; rewrite Ep, Hs; exists c; split_and!; done).
  rewrite (GetAncestor_spec _ q c) by (done || by apply lookup_app_l_Some).
  rewrite (proj2 (orb_false_iff _ _)) by (split; apply Z.ltb_ge; lia). cbn [mbind option_bind].
  by rewrite (up_mono _ _ _ _ _ Hu), insert_snoc_len.
Qed.

Notation work b := (val (nChainWork b)).
Definition proof_of (b : CBlockIndex) : Z := match GetBlockProof b with inr v => val v | inl _ => 0 end.
Record wf_state (st : index_state) : Prop := {
  ws_index : wf_index (blocks st);
  ws_map : ∀ h p, mapBlockIndex st !! h = Some p → ∃ b, blocks st !! p = Some b ∧ phashBlock b = h;
  ws_work : ∀ p b, blocks st !! p = Some b → ArithUint256.wf WIDTH (nChainWork b) ∧
    ∃ w, (match pprev b with None => w = 0 | Some q => ∃ c, blocks st !! q = Some c ∧ w = work c end) ∧
         work b = (w + proof_of b) mod 2 ^ 256;
  ws_best : match pindexBestHeader st with
            | None => blocks st = []
            | Some h => ∃ c, blocks st !! h = Some c ∧ ∀ p b, blocks st !! p = Some b → work b <= work c
            end }.

Lemma wf_state_init : wf_state (mkState [] ∅ None ∅).
Proof. by split. Qed.

(** What the last steps make of the entry. *)
Definition finish (b : CBlockIndex) (w : list Z) : CBlockIndex :=
  set_nStatus (set_nChainWork b w) (Z.lor (Z.land (nStatus b) (u32 (Z.lnot BLOCK_VALID_MASK))) BLOCK_VALID_TREE).

Lemma wf_state_snoc st b h hash dirty : wf_state st → wf_index (blocks st ++ [b]) → phashBlock b = hash →
  ArithUint256.wf WIDTH (nChainWork b) →
  (∃ w, (match pprev b with None => w = 0 | Some q => ∃ c, blocks st !! q = Some c ∧ w = work c end) ∧
        work b = (w + proof_of b) mod 2 ^ 256) →
  h = match pindexBestHeader st with
      | Some h => match blocks st !! h with Some c => if work c <? work b then length (blocks st) else h | None => h end
      | None => length (blocks st)
      end →
  wf_state (mkState (blocks st ++ [b]) (<[hash := length (blocks st)]> (mapBlockIndex st)) (Some h) dirty).
Proof.
  intros [Hi Hm Hw Hb] Hwf Hh Hwb Hwork ->. split; cbn [blocks mapBlockIndex pindexBestHeader]; [done|..].
  - intros h' p. destruct (decide (h' = hash)) as [->|Hne].
    + rewrite lookup_insert_eq. intros [= <-]. exists b. by rewrite lookup_snoc_len.
    + rewrite lookup_insert_ne by done. intros E. destruct (Hm h' p E) as (c & Ec & ?). exists c.
      split; [by apply lookup_app_l_Some|done].
  - intros p c E. apply lookup_app_Some in E as [E|[Hl E]].
    + destruct (Hw p c E) as [? (w & Hp & ?)]. split; [done|]. exists w. split; [|done].
      destruct (pprev c); [|done]. destruct Hp as (d & Ed & ->). exists d. split; [by apply lookup_app_l_Some|done].
    + apply list_lookup_singleton_Some in E as [_ <-]. split; [done|]. destruct Hwork as (w & Hp & ?). exists w.
      split; [|done]. destruct (pprev b); [|done]. destruct Hp as (d & Ed & ->). exists d. split; [by apply lookup_app_l_Some|done].
  - assert (∀ p c, (blocks st ++ [b]) !! p = Some c → blocks st !! p = Some c ∨ c = b) as Hin.
    { intros p c E. apply lookup_app_Some in E as [E|[_ E]]; [by left|]. right. by apply list_lookup_singleton_Some in E as [_ <-]. }
    destruct (pindexBestHeader st) as [h|].
    + destruct Hb as (c & Ec & Hbest). rewrite Ec. destruct (Z.ltb_spec (work c) (work b)).
      * exists b. rewrite lookup_snoc_len. split; [done|]. intros p d [Ed | ->]%Hin; [specialize (Hbest _ _ Ed)|]; lia.
      * exists c. split; [by apply lookup_app_l_Some|]. intros p d [Ed | ->]%Hin; [by eapply Hbest|lia].
    + exists b. rewrite lookup_snoc_len. split; [done|]. intros p d [Ed | ->]%Hin; [|done]. by rewrite Hb in Ed.
Qed.

Lemma RaiseValidity_tree b : nStatus b = 0 →
  RaiseValidity b BLOCK_VALID_TREE = Some (finish b (nChainWork b), true).
Proof. intros E. unfold RaiseValidity, finish. rewrite E. done. Qed.

(** The steps after the entry [b] has been linked into the index. *)
Lemma add_tail st b hash : wf_state st → wf_index (blocks st ++ [b]) → phashBlock b = hash → nStatus b = 0 →
  0 <= nBits b < 2 ^ 32 →
  ∃ b' h,
    (let p := length (blocks st) in
     let A := blocks st ++ [b] in
     b ← A !! p;
     prevWork ← match pprev b with
                | None => Some (base_uint_of_uint64 WIDTH 0)
                | Some q => nChainWork <$> A !! q
                end;
     proof ← match GetBlockProof b with inl _ => None | inr x => Some x end;
     let b := set_nChainWork b (op_add prevWork proof) in
     '(b, _) ← RaiseValidity b BLOCK_VALID_TREE;
     let A := <[p := b]> A in
     best ← match pindexBestHeader st with
            | None => Some p
            | Some h => c ← A !! h;
                        Some (if CompareTo WIDTH (nChainWork c) (nChainWork b) <? 0 then p else h)
            end;
     Some (mkState A (<[hash := p]> (mapBlockIndex st)) (Some best) ({[p]} ∪ setDirtyBlockIndex st), p)) =
    Some (mkState (blocks st ++ [b']) (<[hash := length (blocks st)]> (mapBlockIndex st)) (Some h)
      ({[length (blocks st)]} ∪ setDirtyBlockIndex st), length (blocks st)) ∧
    wf_state (mkState (blocks st ++ [b']) (<[hash := length (blocks st)]> (mapBlockIndex st)) (Some h) ({[length (blocks st)]} ∪ setDirtyBlockIndex st)) ∧
    pprev b' = pprev b ∧ nHeight b' = nHeight b ∧ phashBlock b' = hash ∧
    (nTx b' = nTx b ∧ nChainTx b' = nChainTx b ∧ nStatus b' = BLOCK_VALID_TREE ∧ nBits b' = nBits b ∧ nTime b' = nTime b).
Proof.
  intros Hst Hwf Hh Hs Hb. pose proof Hst as [Hi Hm Hw Hbest]. cbv zeta. rewrite lookup_snoc_len. cbn [mbind option_bind].
  destruct (GetBlockProof_spec b Hb) as (v & Ev & Hwv & _).
  assert (∃ pw, (match pprev b with None => Some (base_uint_of_uint64 WIDTH 0)
                 | Some q => nChainWork <$> (blocks st ++ [b]) !! q end) = Some pw ∧ ArithUint256.wf WIDTH pw ∧
          match pprev b with None => val pw = 0 | Some q => ∃ c, blocks st !! q = Some c ∧ val pw = work c end) as (pw & Epw & Hpw & Hpv).
  { destruct (Hwf (length (blocks st)) b (lookup_snoc_len _ _)) as [Hpos Hp _]. destruct (pprev b) as [q|].
    - destruct Hp as (c & Ec & Hc). assert (blocks st !! q = Some c) as Eq.
      { apply lookup_app_Some in Ec as [Ec|[_ Ec]]; [done|]. apply list_lookup_singleton_Some in Ec as [_ <-]. lia. }
      rewrite (lookup_app_l_Some _ _ _ _ Eq). exists (nChainWork c). split_and!; [done|apply (Hw q c Eq)|eauto].
    - eexists. split_and!; [done|apply wf_of_uint64; unfold WIDTH, WIDTH256; lia|by apply val_of_uint64]. }
  rewrite Epw, Ev. cbn [mbind option_bind]. rewrite RaiseValidity_tree by done. cbn [mbind option_bind].
  destruct (op_add_spec WIDTH pw v Hpw Hwv) as [Hwa Hva]. change ((2 ^ 32) ^ Z.of_nat WIDTH) with (2 ^ 256) in Hva.
  set (b' := finish _ _). rewrite insert_snoc_len.
  assert (wf_index (blocks st ++ [b'])) as Hwf'.
  { apply wf_snoc; [done|]. destruct (Hwf (length (blocks st)) b (lookup_snoc_len _ _)) as [Hpos Hp Hsk].
    change (pprev b') with (pprev b). change (nHeight b') with (nHeight b). change (pskip b') with (pskip b).
    destruct (pprev b) as [q|] eqn:Ep.
    - destruct Hpv as (c & Ec & _). destruct Hp as (c' & Ec' & Hc). rewrite (lookup_app_l_Some _ _ _ _ Ec) in Ec'. injection Ec' as <-.
      exists c. split_and!; [done|done|]. intros s Es. destruct (Hsk s Es) as [Hh0 Hu].
      pose proof (we_height _ _ _ (Hi q c Ec)). pose proof (GetSkipHeight_bound (nHeight b) Hh0).
      destruct (up_spec (blocks st) (Z.to_nat (nHeight c - GetSkipHeight (nHeight b))) q c Hi Ec) as (s' & d & Hu' & _); [lia|].
      replace (Z.to_nat (nHeight b - GetSkipHeight (nHeight b))) with (S (Z.to_nat (nHeight c - GetSkipHeight (nHeight b)))) in Hu by lia.
      cbn [up] in Hu. rewrite lookup_snoc_len in Hu. cbn [mbind option_bind] in Hu. rewrite Ep in Hu. cbn [mbind option_bind] in Hu.
      by rewrite (up_mono _ _ _ _ _ Hu') in Hu; injection Hu as <-.
    - split; [done|]. destruct (pskip b) as [s|] eqn:Es; [|done]. destruct (Hsk s eq_refl). lia. }
  assert (∃ w, match pprev b' with None => w = 0 | Some q => ∃ c, blocks st !! q = Some c ∧ w = work c end ∧
               work b' = (w + proof_of b') mod 2 ^ 256) as Hwork.
  { exists (val pw). split; [exact Hpv|]. unfold proof_of. change (GetBlockProof b') with (GetBlockProof b). by rewrite Ev. }
  assert (nStatus b' = BLOCK_VALID_TREE) by (unfold b', finish; cbn [nStatus set_nStatus set_nChainWork]; by rewrite Hs).
  destruct (pindexBestHeader st) as [h|] eqn:Ebest.
  - destruct Hbest as (c & Ec & Hbest). rewrite (lookup_app_l_Some _ _ _ _ Ec). cbn [mbind option_bind].
    change (op_add pw v) with (nChainWork b'). rewrite CompareTo_spec by (done || apply (Hw _ _ Ec)). eexists b', _. split; [done|]. split_and!; try done.
    apply wf_state_snoc; try done. rewrite Ebest, Ec.
    destruct (Z.ltb_spec (work c) (work b')), (Z.ltb_spec (Z.sgn (work c - work b')) 0); try done; lia.
  - eexists b', _. split; [done|]. split_and!; try done. apply wf_state_snoc; try done. by rewrite Ebest.
Qed.

Lemma AddToBlockIndex_spec st block : wf_state st → 0 <= hb_nBits block < 2 ^ 32 → hb_hash block ≠ hashPrevBlock block →
  mapBlockIndex st !! hb_hash block = None →
  ∃ b h, let st' := mkState (blocks st ++ [b]) (<[hb_hash block := length (blocks st)]> (mapBlockIndex st)) (Some h)
           ({[length (blocks st)]} ∪ setDirtyBlockIndex st) in
    AddToBlockIndex st block = Some (st', length (blocks st)) ∧ wf_state st' ∧ phashBlock b = hb_hash block ∧
    pprev b = mapBlockIndex st !! hashPrevBlock block ∧
    match mapBlockIndex st !! hashPrevBlock block with
    | None => nHeight b = 0
    | Some q => ∃ c, blocks st !! q = Some c ∧ nHeight b = nHeight c + 1
    end ∧ nTx b = 0 ∧ nChainTx b = 0 ∧ nStatus b = BLOCK_VALID_TREE ∧ nBits b = hb_nBits block ∧ nTime b = hb_nTime block.
Proof.
  intros Hst Hbits Hne Hnew. pose proof Hst as [Hi Hm _ _]. unfold AddToBlockIndex. rewrite Hnew. cbv zeta.
  rewrite lookup_insert_ne by done.
  destruct (mapBlockIndex st !! hashPrevBlock block) as [q|] eqn:Eq.
  - destruct (Hm _ _ Eq) as (c & Ec & _). rewrite (lookup_app_l_Some _ _ _ _ Ec). cbn [mbind option_bind].
    set (b := set_link _ q _). destruct (BuildSkip_snoc (blocks st) b q c) as (s & -> & Hu); try done.
    cbn [mbind option_bind]. destruct (add_tail st (set_pskip b (Some s)) (hb_hash block) Hst) as (b' & h & E & Hw & Ep & Hh & Hph & Ht & Hc & Hs & Hn & Hnt);
      [apply wf_snoc; [done|]; exists c; split_and!; try done; by intros s' [= <-]|done|done|done|].
    exists b', h. cbv zeta. split; [exact E|]. split_and!; try done. exists c. by rewrite Hh.
  - cbn [mbind option_bind]. set (b := set_phashBlock _ _).
    destruct (add_tail st b (hb_hash block) Hst) as (b' & h & E & Hw & Ep & Hh & Hph & Ht & Hc & Hs & Hn & Hnt); [by apply wf_snoc|done|done|done|].
    exists b', h. cbv zeta. split; [exact E|]. by split_and!.
Qed.

(** ** What the tree depends on *)
Definition bones (b : CBlockIndex) : list Z * option ptr * option ptr * Z * list Z * Z :=
  (phashBlock b, pprev b, pskip b, nHeight b, nChainWork b, nBits b).
Definition same_tree (A B : arena) : Prop := map bones A = map bones B.

Lemma map_lookup {X Y} (f : X → Y) (A B : list X) p b : map f A = map f B → A !! p = Some b → ∃ c, B !! p = Some c ∧ f b = f c.
Proof.
  intros HS E. assert (map f A !! p = Some (f b)) as E' by (by rewrite list_lookup_fmap, E).
  rewrite HS, list_lookup_fmap in E'. destruct (B !! p) as [c|]; [|done]. exists c. split; [done|].
  change (Some (f c) = Some (f b)) in E'. congruence.
Qed.
Lemma map_length_eq {X Y} (f : X → Y) (A B : list X) : map f A = map f B → length A = length B.
Proof. intros H. by rewrite <- (length_map f A), H, length_map. Qed.
Lemma map_None {X Y} (f : X → Y) (A B : list X) p : map f A = map f B → A !! p = None → B !! p = None.
Proof. intros H E. apply lookup_ge_None in E. apply lookup_ge_None. by rewrite <- (map_length_eq f A B H). Qed.
Lemma map_insert_same {X Y} (f : X → Y) (A : list X) p b c : A !! p = Some b → f c = f b → map f A = map f (<[p := c]> A).
Proof. intros E H. rewrite list_fmap_insert, H. symmetry. apply list_insert_id. by rewrite list_lookup_fmap, E. Qed.

Lemma bones_fields b c : bones b = bones c → pprev b = pprev c ∧ pskip b = pskip c ∧ nHeight b = nHeight c ∧ nChainWork b = nChainWork c.
Proof. destruct b, c. intros H. injection H. intros. subst. done. Qed.
Section bones.
Context (A B : arena) (HS : same_tree A B).
Lemma st_lookup p b : A !! p = Some b → ∃ c, B !! p = Some c ∧ bones b = bones c.
Proof using HS. by apply map_lookup. Qed.
Lemma st_up n p : up A n p = up B n p.
Proof using HS.
  revert p. induction n as [|n IH]; intros p; [done|]. cbn [up]. destruct (A !! p) as [b|] eqn:E.
  - destruct (st_lookup p b E) as (c & -> & Hc). apply bones_fields in Hc as (Hp & _). cbn [mbind option_bind].
    rewrite Hp. destruct (pprev c); [apply IH|done].
  - by rewrite (map_None bones A B p HS E).
Qed.
Lemma st_Contains v p : Contains A v p = Contains B v p.
Proof using HS.
  unfold Contains. destruct (A !! p) as [a|] eqn:Ea; [|by rewrite (map_None bones A B p HS Ea)].
  by destruct (st_lookup p a Ea) as (a' & -> & (_ & _ & -> & _)%bones_fields).
Qed.
End bones.
Lemma st_sym A B : same_tree A B → same_tree B A.
Proof. unfold same_tree. congruence. Qed.
Lemma st_trans A B C : same_tree A B → same_tree B C → same_tree A C.
Proof. unfold same_tree. congruence. Qed.
Lemma st_index A B : same_tree A B → wf_index A → wf_index B.
Proof.
  intros HS HA p b Eb. destruct (st_lookup B A (st_sym _ _ HS) p b Eb) as (c & Ec & (Hp & Hs & Hh & _)%bones_fields).
  destruct (HA p c Ec) as [H1 H2 H3]. split; [by rewrite Hh| |].
  - rewrite Hp, Hh. destruct (pprev c); [|done]. destruct H2 as (d & Ed & ?).
    destruct (st_lookup A B HS _ d Ed) as (d' & ? & (_ & _ & Hd & _)%bones_fields). exists d'. split; [done|lia].
  - intros q Eq. rewrite Hs in Eq. rewrite Hh, <- (st_up A B) by done. by apply H3.
Qed.
Lemma bones_index b c : bones b = bones c → phashBlock b = phashBlock c ∧ pprev b = pprev c ∧ nChainWork b = nChainWork c ∧ nBits b = nBits c.
Proof. destruct b, c. intros H. injection H. intros. subst. done. Qed.
Lemma wf_state_same i j : same_tree (blocks i) (blocks j) → mapBlockIndex j = mapBlockIndex i → pindexBestHeader j = pindexBestHeader i →
  wf_state i → wf_state j.
Proof.
  intros HS Em Eh [H1 H2 H3 H4]. pose proof (st_sym _ _ HS) as HS'. split.
  - by eapply st_index.
  - rewrite Em. intros h p E. destruct (H2 h p E) as (b & Eb & <-). destruct (st_lookup _ _ HS p b Eb) as (c & Ec & (-> & _)%bones_index). eauto.
  - intros p b Eb. destruct (st_lookup _ _ HS' p b Eb) as (c & Ec & (_ & Hp & Hw & Hn)%bones_index). rewrite Hp, Hw.
    destruct (H3 p c Ec) as [? (w & Hw' & Heq)]. split; [done|]. exists w. split.
    + destruct (pprev c); [|done]. destruct Hw' as (d & Ed & ->). destruct (st_lookup _ _ HS _ d Ed) as (d' & Ed' & (_ & _ & -> & _)%bones_index). eauto.
    + rewrite Heq. unfold proof_of, GetBlockProof. by rewrite Hn.
  - rewrite Eh. destruct (pindexBestHeader i) as [h|].
    + destruct H4 as (c & Ec & Hmax). destruct (st_lookup _ _ HS h c Ec) as (c' & Ec' & (_ & _ & Hw & _)%bones_index). exists c'. split; [done|].
      intros p b Eb. destruct (st_lookup _ _ HS' p b Eb) as (d & Ed & (_ & _ & -> & _)%bones_index). rewrite <- Hw. by eapply Hmax.
    + unfold same_tree in HS. rewrite H4 in HS. by destruct (blocks j).
Qed.

(** The block index. Starting from an empty index, headers whose bits are 32-bit words and
    that do not name themselves as parent keep it well formed: heights count from the root, skip
    pointers lead to the ancestor at the skip height, the work of an entry is that of
    its parent plus its own proof, and the best header has the most work. Adding a header
    never fails, changes no other entry, and does nothing when the hash is known. *)
Theorem AddToBlockIndex_invariant headers st :
  Forall (λ h, 0 <= hb_nBits h < 2 ^ 32 ∧ hb_hash h ≠ hashPrevBlock h) headers → wf_state st →
  ∃ st', foldl (λ s h, s ← s; fst <$> AddToBlockIndex s h) (Some st) headers = Some st' ∧ wf_state st' ∧
    (∀ p b, blocks st !! p = Some b → blocks st' !! p = Some b) ∧
    (∀ h, mapBlockIndex st !! h ≠ None ∨ h ∈ map hb_hash headers ↔ mapBlockIndex st' !! h ≠ None).
Proof.
  intros Hh. revert st. induction Hh as [|h headers [Hb Hne] _ IH]; intros st Hst; cbn [foldl map].
  { exists st. split_and!; try done. intros h. set_solver. }
  cbn [mbind option_bind]. destruct (mapBlockIndex st !! hb_hash h) as [p|] eqn:E.
  - assert (AddToBlockIndex st h = Some (st, p)) as -> by (unfold AddToBlockIndex; by rewrite E). cbn [fmap option_fmap option_map fst].
    destruct (IH st Hst) as (st' & -> & Hw & Hold & Hm). exists st'. split_and!; try done. intros h'. rewrite <- Hm, elem_of_cons.
    split; [|tauto]. intros [?|[-> |?]]; [by left|left; by rewrite E|by right].
  - destruct (AddToBlockIndex_spec st h Hst Hb Hne E) as (b & h0 & -> & Hw & _). cbn [fmap option_fmap option_map fst].
    destruct (IH _ Hw) as (st' & -> & Hw' & Hold & Hm). exists st'. split_and!; try done.
    + intros p b' Ep. apply Hold. cbn [blocks]. by apply lookup_app_l_Some.
    + intros h'. rewrite <- Hm, elem_of_cons. cbn [mapBlockIndex]. destruct (decide (h' = hb_hash h)) as [->|Hn].
      * rewrite lookup_insert_eq. split; [by left|]. intros _. right. by left.
      * rewrite lookup_insert_ne by done. naive_solver.
Qed.

(** The skip list. In a well-formed index, [GetAncestor] never fails its assertion and returns
    exactly the block reached by following the parent pointers down to the height, and null outside the chain. *)
Theorem GetAncestor_correct A p b h : wf_index A → A !! p = Some b →
  (0 <= h <= nHeight b → ∃ q c, GetAncestor A p h = Some (Some q) ∧ up A (Z.to_nat (nHeight b - h)) p = Some q ∧
     A !! q = Some c ∧ nHeight c = h) ∧
  (h < 0 ∨ nHeight b < h → GetAncestor A p h = Some None).
Proof.
  intros HA E. rewrite (GetAncestor_spec A p b h HA E). split.
  - intros Hh. rewrite (proj2 (orb_false_iff _ _)) by (split; apply Z.ltb_ge; lia).
    destruct (up_spec A (Z.to_nat (nHeight b - h)) p b HA E) as (q & c & -> & Ec & Hc); [lia|].
    exists q, c. split_and!; try done. lia.
  - intros Hh. by rewrite (proj2 (orb_true_iff _ _)) by (rewrite !Z.ltb_lt; lia).
Qed.

(** The proof of a block. [GetBlockProof] never divides by zero: it is 0 for a target that is zero,
    negative or overflowing, and otherwise the expected number of hashes, 2^256 / (target + 1). *)
Theorem GetBlockProof_exact b : 0 <= nBits b < 2 ^ 32 →
  ∃ v, GetBlockProof b = inr v ∧ ArithUint256.wf WIDTH v ∧
    val v = (let t := block_target (nBits b) in if (t =? 0) || (2 ^ 256 <=? t) then 0 else 2 ^ 256 / (t + 1)).
Proof. apply GetBlockProof_spec. Qed.

(** A chain without branches, from the versions, times and bits of its blocks. *)
Definition straight_block (version time bits : nat → Z) (i : nat) : CBlockIndex :=
  mkIndex [] (match i with O => None | S j => Some j end) None (Z.of_nat i) 0 0 0 [] 1 1 0 (version i) [] (time i) (bits i) 0 0.
Definition straight (version time bits : nat → Z) (n : nat) : arena := map (straight_block version time bits) (seq 0 n).
Lemma straight_lookup version time bits n p b : straight version time bits n !! p = Some b → b = straight_block version time bits p ∧ (p < n)%nat.
Proof. unfold straight. rewrite list_lookup_fmap. destruct (seq 0 n !! p) as [i|] eqn:E; [|done]. apply lookup_seq in E as [-> Hi]. intros [= <-]. done. Qed.
Lemma straight_wf version time bits n : wf_index (straight version time bits n).
Proof.
  intros p b [-> Hp]%straight_lookup. split; [simpl; lia| |done]. destruct p as [|p]; [done|]. cbn [pprev straight_block]. exists (straight_block version time bits p).
  split; [|cbn [nHeight straight_block]; lia]. unfold straight. rewrite list_lookup_fmap. by rewrite (proj2 (lookup_seq _ _ _ p)) by lia.
Qed.

(** Three headers in a row, with the same bits. *)
Definition sample_headers : list CBlockHeader :=
  [mkHeader [1] 1 [0] [] 100 0x1d00ffff 7; mkHeader [2] 1 [1] [] 200 0x1d00ffff 8; mkHeader [3] 1 [2] [] 300 0x1d00ffff 9].
Definition sample_index : option index_state :=
  foldl (λ s h, s ← s; fst <$> AddToBlockIndex s h) (Some (mkState [] ∅ None ∅)) sample_headers.
Definition sample_arena : arena := match sample_index with Some st => blocks st | None => [] end.

Lemma AddToBlockIndex_invariant_witness : ∃ st', sample_index = Some st' ∧ wf_state st'.
Proof.
  destruct (AddToBlockIndex_invariant sample_headers (mkState [] ∅ None ∅)) as (st' & E & Hw & _).
  - repeat constructor; try lia; discriminate.
  - apply wf_state_init.
  - exists st'. split; [exact E|exact Hw].
Defined.
Lemma sample_arena_wf : wf_index sample_arena.
Proof.
  intros p b E. do 3 (destruct p as [|p]; [vm_compute in E; injection E as <-; split; [done|vm_compute; eauto|vm_compute; naive_solver]|]).
  by vm_compute in E.
Qed.
Lemma GetAncestor_correct_witness : GetAncestor sample_arena 2 0 = Some (Some 0%nat).
Proof.
  destruct (sample_arena !! 2%nat) as [b|] eqn:E; [|vm_compute in E; discriminate E].
  destruct (proj1 (GetAncestor_correct sample_arena 2 b 0 sample_arena_wf E)) as (q & c & Eq & Eu & _).
  - vm_compute in E. injection E as <-. vm_compute. split; discriminate.
  - rewrite Eq, <- Eu. vm_compute in E. injection E as <-. reflexivity.
Defined.
Lemma GetBlockProof_exact_witness : ∃ v,
  GetBlockProof (CBlockIndex_of (mkHeader [] 1 [] [] 0 0x1d00ffff 0)) = inr v ∧ ArithUint256.wf WIDTH v ∧ val v = 4295032833.
Proof.
  destruct (GetBlockProof_exact (CBlockIndex_of (mkHeader [] 1 [] [] 0 0x1d00ffff 0))) as (v & E & Hw & Hv); [split; [discriminate|reflexivity]|].
  exists v. split; [exact E|]. split; [exact Hw|]. rewrite Hv. reflexivity.
Defined.
End Chain.
