(* ===== verification/VersionBits.v ===== *)
(** * VersionBits: median time and deployment states ([chain.h], [versionbits.{h,cpp}], [main.cpp])

    The median of the last eleven block times never decreases along a chain whose blocks are later
    than the median before them, which is what header validation demands.  With that, the state of
    a deployment computed backwards with a cache and an early exit is the state that the rules of
    the deployment give from the root on. *)
From stdpp Require Import sorting.
From S2P Require Import Prelude ArithUint256 Chain.
Open Scope Z_scope.

Module VersionBits.
Import Chain.

(** ** Median time *)
Definition nMedianTimeSpan : nat := 11.
Fixpoint past_times (n : nat) (A : arena) (pindex : option ptr) : option (list Z) :=
  match n, pindex with
  | S n, Some p => b ← A !! p; l ← past_times n A (pprev b); Some (GetBlockTime b :: l)
  | _, _ => Some []
  end.
(** [std::sort] and the element in the middle. *)
Definition median (l : list Z) : option Z := merge_sort Z.le l !! (length l / 2)%nat.
Definition GetMedianTimePast (A : arena) (p : ptr) : option Z := l ← past_times nMedianTimeSpan A (Some p); median (rev l).

(** ** Deployments *)
Inductive ThresholdState := THRESHOLD_DEFINED | THRESHOLD_STARTED | THRESHOLD_LOCKED_IN | THRESHOLD_ACTIVE | THRESHOLD_FAILED.
#[export] Instance ThresholdState_eq_dec : EqDecision ThresholdState.
Proof. solve_decision. Defined.
(** The virtual functions of [AbstractThresholdConditionChecker] for given parameters. *)
Record ThresholdChecker := { Condition : CBlockIndex → bool; BeginTime : Z; EndTime : Z; Period : Z; Threshold : Z }.
Notation ThresholdConditionCache := (gmap (option ptr) ThresholdState).

Section checker.
Context (A : arena) (k : ThresholdChecker).
Implicit Types cache : ThresholdConditionCache.

(** The walk back; [vToCompute] is a stack.  [None] is a bad pointer. *)
Fixpoint walk_back (fuel : nat) cache (pindexPrev : option ptr) (vToCompute : list ptr) : option (ThresholdConditionCache * option ptr * list ptr) :=
  match cache !! pindexPrev with
  | Some _ => Some (cache, pindexPrev, vToCompute)
  | None =>
      match pindexPrev with
      | None => Some (<[None := THRESHOLD_DEFINED]> cache, None, vToCompute)
      | Some p =>
          t ← GetMedianTimePast A p;
          if t <? BeginTime k then Some (<[Some p := THRESHOLD_DEFINED]> cache, Some p, vToCompute)
          else
            match fuel with
            | O => None
            | S fuel => b ← A !! p; q ← GetAncestor A p (nHeight b - Period k); walk_back fuel cache q (p :: vToCompute)
            end
      end
  end.
(** The loop that counts, for [nPeriod] blocks. *)
Fixpoint count_loop (n : nat) (pindexCount : option ptr) (count : Z) : option Z :=
  match n with
  | O => Some count
  | S n => p ← pindexCount; b ← A !! p; count_loop n (pprev b) (if Condition k b then count + 1 else count)
  end.
Definition next_state (state : ThresholdState) (p : ptr) : option ThresholdState :=
  match state with
  | THRESHOLD_DEFINED =>
      t ← GetMedianTimePast A p;
      Some (if EndTime k <=? t then THRESHOLD_FAILED else if BeginTime k <=? t then THRESHOLD_STARTED else THRESHOLD_DEFINED)
  | THRESHOLD_STARTED =>
      t ← GetMedianTimePast A p;
      if EndTime k <=? t then Some THRESHOLD_FAILED
      else count ← count_loop (Z.to_nat (Period k)) (Some p) 0; Some (if Threshold k <=? count then THRESHOLD_LOCKED_IN else THRESHOLD_STARTED)
  | THRESHOLD_LOCKED_IN => Some THRESHOLD_ACTIVE
  | THRESHOLD_FAILED | THRESHOLD_ACTIVE => Some state
  end.
Fixpoint walk_forward cache (state : ThresholdState) (vToCompute : list ptr) : option (ThresholdConditionCache * ThresholdState) :=
  match vToCompute with
  | [] => Some (cache, state)
  | p :: vToCompute => state ← next_state state p; walk_forward (<[Some p := state]> cache) state vToCompute
  end.
(** The walk back goes down at least one height per step. *)
Definition GetStateFor (pindexPrev : option ptr) cache : option (ThresholdConditionCache * ThresholdState) :=
  '(pindexPrev, height) ←
    match pindexPrev with
    | None => Some (None, -1)
    | Some p => b ← A !! p; q ← GetAncestor A p (nHeight b - Z.rem (nHeight b + 1) (Period k)); Some (q, nHeight b)
    end;
  '(cache, p, vToCompute) ← walk_back (S (Z.to_nat (height + 1))) cache pindexPrev [];
  state ← cache !! p;
  walk_forward cache state vToCompute.
End checker.

Definition VERSIONBITS_TOP_BITS : Z := 0x20000000.
Definition VERSIONBITS_TOP_MASK : Z := 0xE0000000.
Inductive DeploymentPos := DEPLOYMENT_TESTDUMMY | DEPLOYMENT_CSV | DEPLOYMENT_SEGWIT.
Record BIP9Deployment := mkDeployment { bit : Z; nStartTime : Z; nTimeout : Z }.
Record Params := mkParams { nRuleChangeActivationThreshold : Z; nMinerConfirmationWindow : Z; vDeployments : DeploymentPos → BIP9Deployment }.
Definition Mask (params : Params) (pos : DeploymentPos) : Z := u32 (Z.shiftl 1 (bit (vDeployments params pos))).
(** [nVersion] is signed; the comparisons are on its 32 bits. *)
Definition VersionBitsConditionChecker (params : Params) (pos : DeploymentPos) : ThresholdChecker := {|
  Condition b := (Z.land (u32 (bi_nVersion b)) VERSIONBITS_TOP_MASK =? VERSIONBITS_TOP_BITS) && negb (Z.land (u32 (bi_nVersion b)) (Mask params pos) =? 0);
  BeginTime := nStartTime (vDeployments params pos);
  EndTime := nTimeout (vDeployments params pos);
  Period := i32 (nMinerConfirmationWindow params);
  Threshold := i32 (nRuleChangeActivationThreshold params) |}.
Record VersionBitsCache := mkVersionBitsCache { testdummy_cache : ThresholdConditionCache; csv_cache : ThresholdConditionCache; segwit_cache : ThresholdConditionCache }.
Definition caches (c : VersionBitsCache) (pos : DeploymentPos) : ThresholdConditionCache :=
  match pos with DEPLOYMENT_TESTDUMMY => testdummy_cache c | DEPLOYMENT_CSV => csv_cache c | DEPLOYMENT_SEGWIT => segwit_cache c end.
Definition set_cache (c : VersionBitsCache) (pos : DeploymentPos) (m : ThresholdConditionCache) : VersionBitsCache :=
  match pos with
  | DEPLOYMENT_TESTDUMMY => mkVersionBitsCache m (csv_cache c) (segwit_cache c)
  | DEPLOYMENT_CSV => mkVersionBitsCache (testdummy_cache c) m (segwit_cache c)
  | DEPLOYMENT_SEGWIT => mkVersionBitsCache (testdummy_cache c) (csv_cache c) m
  end.
Definition Clear (c : VersionBitsCache) : VersionBitsCache := mkVersionBitsCache ∅ ∅ ∅.
Definition VersionBitsState (A : arena) (pindexPrev : option ptr) (params : Params) (pos : DeploymentPos) (cache : VersionBitsCache) : option (VersionBitsCache * ThresholdState) :=
  '(m, state) ← GetStateFor A (VersionBitsConditionChecker params pos) pindexPrev (caches cache pos);
  Some (set_cache cache pos m, state).
Definition IsWitnessEnabled (A : arena) (pindexPrev : option ptr) (params : Params) (cache : VersionBitsCache) : option (VersionBitsCache * bool) :=
  '(cache, state) ← VersionBitsState A pindexPrev params DEPLOYMENT_SEGWIT cache; Some (cache, bool_decide (state = THRESHOLD_ACTIVE)).
Fixpoint block_version_loop (A : arena) (pindexPrev : option ptr) (params : Params) (l : list DeploymentPos) (cache : VersionBitsCache) (nVersion : Z) : option (VersionBitsCache * Z) :=
  match l with
  | [] => Some (cache, nVersion)
  | pos :: l =>
      '(cache, state) ← VersionBitsState A pindexPrev params pos cache;
      block_version_loop A pindexPrev params l cache
        (if bool_decide (state = THRESHOLD_LOCKED_IN) || bool_decide (state = THRESHOLD_STARTED) then i32 (Z.lor (u32 nVersion) (Mask params pos)) else nVersion)
  end.
Definition ComputeBlockVersion (A : arena) (pindexPrev : option ptr) (params : Params) (cache : VersionBitsCache) : option (VersionBitsCache * Z) :=
  block_version_loop A pindexPrev params [DEPLOYMENT_TESTDUMMY; DEPLOYMENT_CSV; DEPLOYMENT_SEGWIT] cache VERSIONBITS_TOP_BITS.

(** ** The median of the times *)
Definition below (m : Z) (l : list Z) : nat := length (base.filter (λ z, z < m) l).
Lemma below_perm m l l' : l ≡ₚ l' → below m l = below m l'.
Proof. intros Hl. unfold below. by rewrite Hl. Qed.
Lemma sorted_le l i j x y : StronglySorted Z.le l → l !! i = Some x → l !! j = Some y → (i <= j)%nat → x <= y.
Proof.
  intros Hs. revert i j. induction Hs as [|a l Hs IH Ha]; intros i j Hi Hj Hij; [done|]. destruct i as [|i], j as [|j]; simpl in *; [|..|].
  - injection Hi as ->. injection Hj as ->. lia.
  - injection Hi as ->. rewrite Forall_forall in Ha. apply Ha. by apply list_elem_of_In, (list_elem_of_lookup_2 _ j).
  - lia.
  - apply (IH i j); [done|done|lia].
Qed.
Lemma merge_sort_sorted l : StronglySorted Z.le (merge_sort Z.le l).
Proof. apply StronglySorted_merge_sort; typeclasses eauto. Qed.
(** A number is at most the median exactly when at most half of the list is below it. *)
Lemma below_app m l1 l2 : below m (l1 ++ l2) = (below m l1 + below m l2)%nat.
Proof. unfold below. by rewrite list.filter_app, length_app. Qed.
Lemma below_all m l : (∀ x, x ∈ l → x < m) → below m l = length l.
Proof.
  induction l as [|x l IH]; intros Hl; [done|]. unfold below. rewrite filter_cons_True by (apply Hl; set_solver). cbn [length]. f_equal. apply IH. set_solver.
Qed.
Lemma below_none m l : (∀ x, x ∈ l → m <= x) → below m l = 0%nat.
Proof.
  induction l as [|x l IH]; intros Hl; [done|]. unfold below. rewrite filter_cons_False by (specialize (Hl x ltac:(set_solver)); lia). apply IH. set_solver.
Qed.
Lemma below_le m l : (below m l <= length l)%nat.
Proof. apply length_filter. Qed.
Lemma median_spec l m x : median l = Some m → x <= m ↔ (below x l <= length l / 2)%nat.
Proof.
  unfold median. set (s := merge_sort Z.le l). assert (s ≡ₚ l) as Hp by apply merge_sort_Permutation. pose proof (merge_sort_sorted l) as Hs. fold s in Hs.
  rewrite <- (below_perm x s l Hp), <- (Permutation_length Hp). set (n := (length s / 2)%nat). intros Hm. pose proof (lookup_lt_Some _ _ _ Hm) as Hlt.
  rewrite <- (take_drop n s) at 1. rewrite below_app. split.
  - intros Hx. rewrite (below_none x (drop n s)); [pose proof (below_le x (take n s)); rewrite length_take in *; lia|].
    intros y (i & Hi)%list_elem_of_lookup. rewrite lookup_drop in Hi. assert (m <= y) by (apply (sorted_le s n (n + i)); [done|done|done|lia]). lia.
  - intros Hb. destruct (decide (x <= m)) as [|Hx]; [done|]. exfalso.
    assert (below x (take (S n) s) = S n) as Ht.
    { rewrite below_all, length_take; [lia|]. intros y (i & Hi)%list_elem_of_lookup. apply lookup_take_Some in Hi as [Hi Hin].
      assert (y <= m) by (apply (sorted_le s i n); [done|done|done|lia]). lia. }
    rewrite (take_S_r s n m Hm), below_app in Ht. rewrite (drop_S s m n Hm) in Hb.
    change (m :: drop (S n) s) with ([m] ++ drop (S n) s) in Hb. rewrite below_app in Hb. lia.
Qed.
Lemma median_Some l : l ≠ [] → ∃ m, median l = Some m.
Proof.
  intros Hl. apply lookup_lt_is_Some. rewrite (Permutation_length (merge_sort_Permutation Z.le l)). destruct l; [done|].
  apply Nat.div_lt; [simpl; lia|lia].
Qed.

(** ** The median time never decreases *)
(** What [ContextualCheckBlockHeader] demands of every block. *)
Definition times_ok (A : arena) : Prop :=
  ∀ p b q m, A !! p = Some b → pprev b = Some q → GetMedianTimePast A q = Some m → m < GetBlockTime b.

Section times.
Context (A : arena) (HA : wf_index A).
Lemma parent_lookup p b q : A !! p = Some b → pprev b = Some q → is_Some (A !! q).
Proof using HA. intros Eb Eq. destruct (HA p b Eb) as [_ Hp _]. rewrite Eq in Hp. destruct Hp as (c & -> & _). by eexists. Qed.
Lemma past_times_S n p b : A !! p = Some b → past_times (S n) A (Some p) = l ← past_times n A (pprev b); Some (GetBlockTime b :: l).
Proof using Type. intros Eb. cbn [past_times]. by rewrite Eb. Qed.
Lemma past_times_total n : ∀ p, (∀ q, p = Some q → is_Some (A !! q)) → ∃ l, past_times n A p = Some l ∧ (length l <= n)%nat.
Proof using HA.
  induction n as [|n IH]; intros p Hp; [by exists []|]. destruct p as [p|]; cbn [past_times]; [|exists []; split; [done|simpl; lia]].
  destruct (Hp p eq_refl) as [b Eb]. rewrite Eb. cbn [mbind option_bind].
  destruct (IH (pprev b)) as (l & -> & Hl); [intros q Hq; by eapply parent_lookup|]. eexists. split; [done|]. simpl. lia.
Qed.
Lemma past_times_take n : ∀ m p l, (n <= m)%nat → past_times m A p = Some l → past_times n A p = Some (take n l).
Proof using Type.
  induction n as [|n IH]; intros m p l Hn; [done|]. destruct m as [|m]; [lia|]. destruct p as [p|]; cbn [past_times]; [|by intros [= <-]].
  destruct (A !! p) as [b|]; [|done]. cbn [mbind option_bind]. destruct (past_times m A (pprev b)) as [l'|] eqn:E; [|done]. cbn [mbind option_bind]. intros [= <-].
  rewrite (IH m (pprev b) l' ltac:(lia) E). done.
Qed.
Lemma median_time_total p b : A !! p = Some b → ∃ m, GetMedianTimePast A p = Some m.
Proof using HA.
  intros Eb. unfold GetMedianTimePast. destruct (past_times_total nMedianTimeSpan (Some p)) as (l & E & _); [intros q [= <-]; by eexists|].
  rewrite E. cbn [mbind option_bind]. apply median_Some. unfold nMedianTimeSpan in E. rewrite (past_times_S 10 p b Eb) in E.
  destruct (past_times 10 A (pprev b)); [|done]. injection E as <-. cbn [rev]. by intros [_ [=]]%app_eq_nil.
Qed.
Lemma median_time_parent p b q m m' : A !! p = Some b → pprev b = Some q → GetMedianTimePast A q = Some m → GetMedianTimePast A p = Some m' → m < GetBlockTime b → m <= m'.
Proof using HA.
  intros Eb Eq Hm Hm' Ht. unfold GetMedianTimePast in *. destruct (past_times_total nMedianTimeSpan (Some q)) as (l & El & Hl); [intros ? [= <-]; by eapply parent_lookup|].
  rewrite El in Hm. cbn [mbind option_bind] in Hm. unfold nMedianTimeSpan in *. rewrite (past_times_S 10 p b Eb), Eq in Hm'.
  pose proof (past_times_take 10 11 (Some q) l ltac:(lia) El) as E10. rewrite E10 in Hm'. cbn [mbind option_bind] in Hm'.
  apply (median_spec _ _ _ Hm'). pose proof (proj1 (median_spec _ _ m Hm) (Z.le_refl m)) as Hb. rewrite length_rev in *.
  rewrite (below_perm _ _ _ (Permutation_sym (Permutation_rev _))) in Hb. rewrite (below_perm _ _ _ (Permutation_sym (Permutation_rev _))).
  change (GetBlockTime b :: take 10 l) with ([GetBlockTime b] ++ take 10 l). rewrite below_app, (below_none _ [_]) by (intros x ->%list_elem_of_singleton; lia).
  assert (below m (take 10 l) <= below m l)%nat by (rewrite <- (take_drop 10 l) at 2; rewrite below_app; lia).
  assert (length l / 2 <= length ([GetBlockTime b] ++ take 10 l) / 2)%nat; [|lia]. apply Nat.Div0.div_le_mono. cbn [app length]. rewrite length_take. lia.
Qed.
Lemma median_time_up n : times_ok A → ∀ p b q m m', A !! p = Some b → up A n p = Some q → GetMedianTimePast A q = Some m → GetMedianTimePast A p = Some m' → m <= m'.
Proof using HA.
  intros Ht. induction n as [|n IH]; intros p b q m m' Eb; cbn [up]; [intros [= <-]; intros; assert (m = m') by congruence; lia|].
  rewrite Eb. cbn [mbind option_bind]. destruct (pprev b) as [r|] eqn:Er; [|done]. cbn [mbind option_bind]. intros Hu Hm Hm'.
  destruct (parent_lookup p b r Eb Er) as [c Ec]. destruct (median_time_total r c Ec) as [mr Hr]. transitivity mr; [by eapply IH|].
  eapply median_time_parent; [exact Eb|exact Er|done|done|]. by eapply Ht.
Qed.
End times.

(** ** The rules of a deployment *)
Section reference.
Context (A : arena) (k : ThresholdChecker).

(** The blocks of the period that ends with a block, and how many of them signal. *)
Definition window (n : nat) (p : ptr) : list CBlockIndex := omap (λ i, q ← up A i p; A !! q) (seq 0 n).
Definition signals (n : nat) (p : ptr) : Z := Z.of_nat (length (List.filter (Condition k) (window n p))).
(** From the state of a period to that of the next one, by the median time and the signals at its last block. *)
Inductive transition : ThresholdState → Z → Z → ThresholdState → Prop :=
| still_defined t n : t < BeginTime k → t < EndTime k → transition THRESHOLD_DEFINED t n THRESHOLD_DEFINED
| starts t n : BeginTime k <= t < EndTime k → transition THRESHOLD_DEFINED t n THRESHOLD_STARTED
| never_starts t n : EndTime k <= t → transition THRESHOLD_DEFINED t n THRESHOLD_FAILED
| still_started t n : t < EndTime k → n < Threshold k → transition THRESHOLD_STARTED t n THRESHOLD_STARTED
| locks_in t n : t < EndTime k → Threshold k <= n → transition THRESHOLD_STARTED t n THRESHOLD_LOCKED_IN
| times_out t n : EndTime k <= t → transition THRESHOLD_STARTED t n THRESHOLD_FAILED
| activates t n : transition THRESHOLD_LOCKED_IN t n THRESHOLD_ACTIVE
| stays_active t n : transition THRESHOLD_ACTIVE t n THRESHOLD_ACTIVE
| stays_failed t n : transition THRESHOLD_FAILED t n THRESHOLD_FAILED.
(** The last block of the period before, and of the last complete period. *)
Definition period_before (p : ptr) (b : CBlockIndex) : option ptr := if nHeight b <? Period k then None else up A (Z.to_nat (Period k)) p.
Definition period_end (p : option ptr) : option ptr :=
  p ← p; b ← A !! p; let r := (nHeight b + 1) mod Period k in if nHeight b - r <? 0 then None else up A (Z.to_nat r) p.
Inductive bip9 : option ptr → ThresholdState → Prop :=
| bip9_root : bip9 None THRESHOLD_DEFINED
| bip9_next p b s t s' : A !! p = Some b → bip9 (period_before p b) s → GetMedianTimePast A p = Some t →
    transition s t (signals (Z.to_nat (Period k)) p) s' → bip9 (Some p) s'.

Lemma transition_fun s t n s1 s2 : transition s t n s1 → transition s t n s2 → s1 = s2.
Proof using Type. intros H1 H2. destruct H1; inversion H2; subst; done || lia. Qed.
Lemma bip9_fun p s1 s2 : bip9 p s1 → bip9 p s2 → s1 = s2.
Proof using Type.
  intros H1. revert s2. induction H1 as [|p b s t s' Eb Hp IH Ht Htr]; intros s2 H2; inversion H2 as [|p' b' s0 t' s0' Eb' Hp' Ht' Htr']; subst; [done|].
  assert (b = b') as <- by congruence. assert (t = t') as <- by congruence. rewrite <- (IH s0 Hp') in Htr'. by eapply transition_fun.
Qed.
End reference.

(** ** The cached computation *)
Section correct.
Context (A : arena) (HA : wf_index A) (Ht : times_ok A) (k : ThresholdChecker).
Context (HP : 0 < Period k) (Hbe : BeginTime k <= EndTime k).
Implicit Types cache : ThresholdConditionCache.

Definition boundary (p : option ptr) : Prop := ∀ q, p = Some q → ∃ b, A !! q = Some b ∧ (nHeight b + 1) mod Period k = 0.
Definition cache_ok cache : Prop := ∀ p s, cache !! p = Some s → boundary p ∧ bip9 A k p s.

Lemma height_pos p b : A !! p = Some b → 0 <= nHeight b.
Proof using HA. intros Eb. apply (HA p b Eb). Qed.
Lemma boundary_height p b : A !! p = Some b → (nHeight b + 1) mod Period k = 0 → Period k <= nHeight b + 1.
Proof using HA HP. intros Eb Hm. pose proof (height_pos p b Eb). apply Z.mod_divide in Hm; [|lia]. apply Z.divide_pos_le; [lia|done]. Qed.
Lemma before_boundary p b : A !! p = Some b → (nHeight b + 1) mod Period k = 0 → boundary (period_before A k p b).
Proof using HA HP.
  intros Eb Hm q. unfold period_before. destruct (Z.ltb_spec (nHeight b) (Period k)) as [|Hge]; [done|]. intros Eq.
  destruct (up_spec A (Z.to_nat (Period k)) p b HA Eb) as (q' & c & Eq' & Ec & Hc); [lia|]. assert (q' = q) as -> by congruence. exists c. split; [done|].
  replace (nHeight c + 1) with (nHeight b + 1 + (-1) * Period k) by lia. by rewrite Z.mod_add by lia.
Qed.
(** [GetAncestor] in steps of a period, and to the end of the last one. *)
Lemma ancestor_before p b : A !! p = Some b → GetAncestor A p (nHeight b - Period k) = Some (period_before A k p b).
Proof using HA HP.
  intros Eb. rewrite (GetAncestor_spec A p b _ HA Eb). unfold period_before. f_equal. rewrite (proj2 (Z.ltb_ge (nHeight b) _)) by lia. cbn [orb].
  destruct (Z.ltb_spec (nHeight b) (Period k)) as [H|H]; [by rewrite (proj2 (Z.ltb_lt _ _)) by lia|]. rewrite (proj2 (Z.ltb_ge _ _)) by lia. do 2 f_equal. lia.
Qed.
Lemma ancestor_end p b : A !! p = Some b → GetAncestor A p (nHeight b - Z.rem (nHeight b + 1) (Period k)) = Some (period_end A k (Some p)).
Proof using HA HP.
  intros Eb. pose proof (height_pos p b Eb). rewrite (GetAncestor_spec A p b _ HA Eb). unfold period_end. cbn [mbind option_bind]. rewrite Eb. cbn [mbind option_bind].
  rewrite Z.rem_mod_nonneg by lia. pose proof (Z.mod_pos_bound (nHeight b + 1) (Period k) HP) as Hr. f_equal. rewrite (proj2 (Z.ltb_ge (nHeight b) _)) by lia. cbn [orb].
  destruct (_ <? 0); [done|]. do 2 f_equal. lia.
Qed.
Lemma end_boundary p : (∀ q, p = Some q → is_Some (A !! q)) → boundary (period_end A k p).
Proof using HA HP.
  intros Hp q. destruct p as [p|]; [|done]. destruct (Hp p eq_refl) as [b Eb]. pose proof (height_pos p b Eb). unfold period_end. cbn [mbind option_bind]. rewrite Eb.
  cbn [mbind option_bind]. pose proof (Z.mod_pos_bound (nHeight b + 1) (Period k) HP) as Hr. destruct (Z.ltb_spec (nHeight b - (nHeight b + 1) mod Period k) 0); [done|]. intros Eq.
  destruct (up_spec A (Z.to_nat ((nHeight b + 1) mod Period k)) p b HA Eb) as (q' & c & Eq' & Ec & Hc); [lia|]. assert (q' = q) as -> by congruence. exists c. split; [done|].
  replace (nHeight c + 1) with (nHeight b + 1 + - ((nHeight b + 1) mod Period k)) by lia.
  rewrite Z.add_opp_r, Zminus_mod_idemp_r, Z.sub_diag. by apply Z.mod_0_l; lia.
Qed.

(** Before the start the state is the initial one: earlier periods end earlier. *)
Lemma early_defined n : ∀ p b t, (Z.to_nat (nHeight b) < n)%nat → A !! p = Some b → (nHeight b + 1) mod Period k = 0 → GetMedianTimePast A p = Some t → t < BeginTime k →
  bip9 A k (Some p) THRESHOLD_DEFINED.
Proof using HA Ht HP Hbe.
  induction n as [|n IH]; intros p b t Hn Eb Hm Hmt Hlt; [lia|]. apply (bip9_next A k p b THRESHOLD_DEFINED t); [done| |done|by apply still_defined; lia].
  pose proof (before_boundary p b Eb Hm) as Hb. destruct (period_before A k p b) as [q|] eqn:Eq; [|constructor]. destruct (Hb q eq_refl) as (c & Ec & Hc).
  unfold period_before in Eq. destruct (Z.ltb_spec (nHeight b) (Period k)); [done|]. destruct (up_spec A (Z.to_nat (Period k)) p b HA Eb) as (q' & c' & Eq' & Ec' & Hh); [lia|].
  assert (q' = q) as -> by congruence. assert (c' = c) as -> by congruence. destruct (median_time_total A HA q c Ec) as [tq Htq].
  apply (IH q c tq); [pose proof (height_pos q c Ec); lia|done|done|done|]. pose proof (median_time_up A HA _ Ht p b q tq t Eb Eq Htq Hmt). lia.
Qed.

(** *** Counting *)
Lemma window_S n p b : A !! p = Some b → window A (S n) p = b :: match pprev b with Some q => window A n q | None => [] end.
Proof using Type.
  intros Eb. unfold window. set (f := λ i, q ← up A i p; A !! q).
  assert (∀ i, f (S i) = r ← pprev b; q ← up A i r; A !! q) as Hf by (intros i; unfold f; cbn [up]; rewrite Eb; cbn [mbind option_bind]; by destruct (pprev b)).
  change (seq 0 (S n)) with (0%nat :: seq 1 n). cbn [omap list_omap]. assert (f 0%nat = Some b) as -> by exact Eb. f_equal. rewrite <- seq_shift.
  induction (seq 0 n) as [|i l IH]; [by destruct (pprev b)|]. cbn [map omap list_omap]. rewrite Hf, IH. by destruct (pprev b).
Qed.
Lemma count_loop_spec n : ∀ p b c, A !! p = Some b → Z.of_nat n <= nHeight b + 1 → count_loop A k n (Some p) c = Some (c + signals A k n p).
Proof using HA.
  induction n as [|n IH]; intros p b c Eb Hn; [cbn; f_equal; unfold signals, window; simpl; lia|]. cbn [count_loop mbind option_bind]. rewrite Eb. cbn [mbind option_bind].
  unfold signals. rewrite (window_S n p b Eb). cbn [List.filter]. destruct (HA p b Eb) as [_ Hp _]. destruct (pprev b) as [q|].
  - destruct Hp as (d & Ed & Hd). rewrite (IH q d) by (done || lia). f_equal. unfold signals. destruct (Condition k b); cbn [length]; lia.
  - destruct n as [|n]; [|lia]. cbn [count_loop]. f_equal. destruct (Condition k b); cbn [length]; simpl; lia.
Qed.
Lemma next_state_spec p b t s : A !! p = Some b → (nHeight b + 1) mod Period k = 0 → GetMedianTimePast A p = Some t →
  ∃ s', next_state A k s p = Some s' ∧ transition k s t (signals A k (Z.to_nat (Period k)) p) s'.
Proof using HA HP Hbe.
  intros Eb Hm Hmt. pose proof (boundary_height p b Eb Hm). unfold next_state. rewrite Hmt. cbn [mbind option_bind].
  destruct s; try (eexists; split; [done|constructor]).
  - destruct (Z.leb_spec (EndTime k) t); [eexists; split; [done|by constructor]|]. destruct (Z.leb_spec (BeginTime k) t); eexists; (split; [done|]); constructor; lia.
  - destruct (Z.leb_spec (EndTime k) t); [eexists; split; [done|by constructor]|]. rewrite (count_loop_spec _ p b) by (done || lia). cbn [mbind option_bind]. rewrite Z.add_0_l.
    destruct (Z.leb_spec (Threshold k) (signals A k (Z.to_nat (Period k)) p)); eexists; (split; [done|]); constructor; lia.
Qed.

(** *** The walks *)
(** The blocks still to be computed lead, period by period, from one block to another. *)
Fixpoint chained (p : option ptr) (l : list ptr) (target : option ptr) : Prop :=
  match l with
  | [] => p = target
  | q :: l => (∃ b, A !! q = Some b ∧ (nHeight b + 1) mod Period k = 0 ∧ period_before A k q b = p) ∧ chained (Some q) l target
  end.
Lemma cache_ok_insert cache p s : cache_ok cache → boundary p → bip9 A k p s → cache_ok (<[p := s]> cache).
Proof using Type. intros Hc Hp Hs q s' [[<- <-]|[_ Hq]]%lookup_insert_Some; [done|by apply Hc]. Qed.
Lemma walk_back_spec fuel : ∀ cache p l target, cache_ok cache → boundary p → (∀ q b, p = Some q → A !! q = Some b → (Z.to_nat (nHeight b + 1) <= fuel)%nat) → chained p l target →
  ∃ cache' p' l' s, walk_back A k fuel cache p l = Some (cache', p', l') ∧ cache_ok cache' ∧ chained p' l' target ∧ cache' !! p' = Some s.
Proof using HA Ht HP Hbe.
  induction fuel as [|fuel IH]; intros cache p l target Hc Hp Hf Hl; cbn [walk_back]; (destruct (cache !! p) as [s|] eqn:Ep; [by exists cache, p, l, s|]);
    (destruct p as [q|]; [|eexists _, _, _, THRESHOLD_DEFINED; split; [done|]; split_and!; [apply cache_ok_insert; [done|done|constructor]|done|by rewrite lookup_insert_eq]]);
    destruct (Hp q eq_refl) as (b & Eb & Hm); pose proof (height_pos q b Eb); specialize (Hf q b eq_refl Eb); [lia|].
  destruct (median_time_total A HA q b Eb) as [t Hmt]. rewrite Hmt. cbn [mbind option_bind]. destruct (Z.ltb_spec t (BeginTime k)).
  - eexists _, _, _, THRESHOLD_DEFINED. split; [done|]. split_and!; [apply cache_ok_insert; [done|done|apply (early_defined (S (Z.to_nat (nHeight b))) q b t); [lia|done..]]|done|by rewrite lookup_insert_eq].
  - rewrite Eb. cbn [mbind option_bind]. rewrite (ancestor_before q b Eb). cbn [mbind option_bind]. apply IH; [done|by apply before_boundary| |].
    + intros q' b' Eq' Eb'. unfold period_before in Eq'. destruct (Z.ltb_spec (nHeight b) (Period k)); [done|].
      destruct (up_spec A (Z.to_nat (Period k)) q b HA Eb) as (q2 & c & E2 & Ec & Hc2); [lia|]. assert (c = b') as -> by congruence. lia.
    + split; [by exists b|done].
Qed.
Lemma walk_forward_spec l : ∀ cache p s target, cache_ok cache → bip9 A k p s → chained p l target →
  ∃ cache' s', walk_forward A k cache s l = Some (cache', s') ∧ cache_ok cache' ∧ bip9 A k target s'.
Proof using HA HP Hbe.
  induction l as [|q l IH]; intros cache p s target Hc Hs Hl; cbn [walk_forward chained] in *; [subst; by exists cache, s|].
  destruct Hl as [(b & Eb & Hm & <-) Hl]. destruct (median_time_total A HA q b Eb) as [t Hmt]. destruct (next_state_spec q b t s Eb Hm Hmt) as (s' & -> & Htr). cbn [mbind option_bind].
  assert (bip9 A k (Some q) s') as Hq by by eapply bip9_next. apply (IH _ (Some q)); [|done|done]. apply cache_ok_insert; [done|intros ? [= <-]; by exists b|done].
Qed.

(** The state of a deployment.  On an index whose blocks obey the median time rule, with a
    positive period and a start not after the timeout, [GetStateFor] terminates without following
    a null pointer, keeps a cache of correct states correct, and returns the one state that the
    rules of the deployment give at the end of the last complete period, although it stops early
    and reuses what the cache knows. *)
Lemma GetStateFor_spec pindexPrev cache : (∀ p, pindexPrev = Some p → is_Some (A !! p)) → cache_ok cache →
  ∃ cache' s, GetStateFor A k pindexPrev cache = Some (cache', s) ∧ cache_ok cache' ∧ ∀ s', bip9 A k (period_end A k pindexPrev) s' ↔ s' = s.
Proof using HA Ht HP Hbe.
  intros Hp Hc. unfold GetStateFor.
  assert (∃ h, match pindexPrev with None => Some (None, -1) | Some p => b ← A !! p; q ← GetAncestor A p (nHeight b - Z.rem (nHeight b + 1) (Period k)); Some (q, nHeight b) end =
    Some (period_end A k pindexPrev, h) ∧ ∀ q b, period_end A k pindexPrev = Some q → A !! q = Some b → nHeight b <= h) as (h & -> & Hh).
  { destruct pindexPrev as [p|]; [|by exists (-1)]. destruct (Hp p eq_refl) as [b Eb]. rewrite Eb. cbn [mbind option_bind]. rewrite (ancestor_end p b Eb). cbn [mbind option_bind]. eexists. split; [done|].
    intros q c Eq Ec. unfold period_end in Eq. cbn [mbind option_bind] in Eq. rewrite Eb in Eq. cbn [mbind option_bind] in Eq. destruct (Z.ltb_spec (nHeight b - (nHeight b + 1) mod Period k) 0); [done|].
    pose proof (Z.mod_pos_bound (nHeight b + 1) (Period k) HP). destruct (up_spec A (Z.to_nat ((nHeight b + 1) mod Period k)) p b HA Eb) as (q2 & c2 & E2 & Ec2 & Hc2); [lia|].
    assert (c2 = c) as -> by congruence. lia. }
  cbn [mbind option_bind]. destruct (walk_back_spec (S (Z.to_nat (h + 1))) cache (period_end A k pindexPrev) [] (period_end A k pindexPrev) Hc (end_boundary pindexPrev Hp)) as (c1 & p1 & l1 & s1 & -> & Hc1 & Hl1 & Hs1); [|done|].
  { intros q b Eq Eb. specialize (Hh q b Eq Eb). lia. }
  cbn [mbind option_bind]. rewrite Hs1. cbn [mbind option_bind]. destruct (walk_forward_spec l1 c1 p1 s1 _ Hc1 (proj2 (Hc1 _ _ Hs1)) Hl1) as (c2 & s2 & -> & Hc2 & Hs2).
  exists c2, s2. split_and!; [done|done|]. intros s'. split; [intros Hs'; by eapply bip9_fun|by intros ->].
Qed.
End correct.

(** ** Growth of the index *)
(** What the states depend on, of an entry. *)
Definition core (b : CBlockIndex) : option ptr * Z * Z * Z := (pprev b, nHeight b, nTime b, bi_nVersion b).
Definition extends (A B : arena) : Prop := ∀ p b, A !! p = Some b → ∃ c, B !! p = Some c ∧ core c = core b.
Lemma extends_trans A B C : extends A B → extends B C → extends A C.
Proof. intros H1 H2 p b Eb. destruct (H1 p b Eb) as (c & Ec & Hc). destruct (H2 p c Ec) as (d & Ed & Hd). exists d. split; [done|congruence]. Qed.
Lemma extends_app A b : extends A (A ++ [b]).
Proof. intros p c Ec. exists c. split; [by apply lookup_app_l_Some|done]. Qed.
Lemma extends_insert A p b c : A !! p = Some b → core c = core b → extends A (<[p := c]> A).
Proof.
  intros Eb Hc q d Ed. destruct (decide (p = q)) as [<-|Hne]; [|exists d; by rewrite list_lookup_insert_ne].
  rewrite list_lookup_insert_eq by (by eapply lookup_lt_Some). exists c. split; [done|congruence].
Qed.

Section growth.
Context (A B : arena) (HA : wf_index A) (HE : extends A B).
Lemma ext_lookup p b : A !! p = Some b → ∃ c, B !! p = Some c ∧ pprev c = pprev b ∧ nHeight c = nHeight b ∧ GetBlockTime c = GetBlockTime b ∧ bi_nVersion c = bi_nVersion b.
Proof using HE. intros Eb. destruct (HE p b Eb) as (c & Ec & Hc). exists c. split; [done|]. injection Hc. auto. Qed.
Lemma ext_up n : ∀ p, is_Some (A !! p) → up B n p = up A n p ∧ (∀ q, up A n p = Some q → is_Some (A !! q)).
Proof using HA HE.
  induction n as [|n IH]; intros p [b Eb]; [split; [done|]; intros q [= <-]; by eexists|]. cbn [up]. destruct (ext_lookup p b Eb) as (c & -> & Hp & _).
  rewrite Eb. cbn [mbind option_bind]. rewrite Hp. destruct (pprev b) as [q|] eqn:Eq; [|done]. cbn [mbind option_bind]. apply IH. by eapply parent_lookup.
Qed.
Lemma ext_past n : ∀ p, (∀ q, p = Some q → is_Some (A !! q)) → past_times n B p = past_times n A p.
Proof using HA HE.
  induction n as [|n IH]; intros p Hp; [done|]. destruct p as [p|]; [|done]. destruct (Hp p eq_refl) as [b Eb]. destruct (ext_lookup p b Eb) as (c & Ec & Hpr & _ & Ht & _).
  rewrite (past_times_S A n p b Eb), (past_times_S B n p c Ec), Hpr, Ht. rewrite IH; [done|]. intros q Eq. by eapply parent_lookup.
Qed.
Lemma ext_median p : is_Some (A !! p) → GetMedianTimePast B p = GetMedianTimePast A p.
Proof using HA HE. intros Hp. unfold GetMedianTimePast. rewrite ext_past; [done|]. by intros q [= <-]. Qed.
Lemma ext_window n p : is_Some (A !! p) → map bi_nVersion (window B n p) = map bi_nVersion (window A n p).
Proof using HA HE.
  intros Hp. unfold window. induction (seq 0 n) as [|i l IH]; [done|]. cbn [omap list_omap]. destruct (ext_up i p Hp) as [-> Hq].
  destruct (up A i p) as [q|]; cbn [mbind option_bind]; [|exact IH]. destruct (Hq q eq_refl) as [b Eb]. destruct (ext_lookup q b Eb) as (c & -> & _ & _ & _ & Hv).
  rewrite Eb. cbn [map]. by rewrite Hv, IH.
Qed.
Section state.
Context (k : ThresholdChecker) (Hk : ∀ b c, bi_nVersion b = bi_nVersion c → Condition k b = Condition k c).
Lemma filter_versions l : ∀ l', map bi_nVersion l = map bi_nVersion l' → length (List.filter (Condition k) l) = length (List.filter (Condition k) l').
Proof using Hk.
  induction l as [|b l IH]; intros [|c l']; [done..|]. cbn [map List.filter]. intros [= Hv Hl]. rewrite (Hk b c Hv). destruct (Condition k c); cbn [length]; by rewrite (IH l').
Qed.
Lemma ext_bip9 p s : bip9 A k p s → bip9 B k p s.
Proof using HA HE Hk.
  induction 1 as [|p b s t s' Eb Hp IH Ht Htr]; [constructor|]. destruct (ext_lookup p b Eb) as (c & Ec & _ & Hh & _).
  apply (bip9_next B k p c s t); [done| |by rewrite ext_median|].
  - unfold period_before in *. rewrite Hh. destruct (nHeight b <? Period k); [done|]. by rewrite (proj1 (ext_up _ p (mk_is_Some _ _ Eb))).
  - unfold signals in *. by rewrite (filter_versions _ _ (ext_window _ p (mk_is_Some _ _ Eb))).
Qed.
Lemma ext_cache_ok cache : cache_ok A k cache → cache_ok B k cache.
Proof using HA HE Hk.
  intros Hc p s Hs. destruct (Hc p s Hs) as [Hb Hi]. split; [|by apply ext_bip9]. intros q Eq. destruct (Hb q Eq) as (b & Eb & Hm). destruct (ext_lookup q b Eb) as (c & Ec & _ & Hh & _).
  exists c. by rewrite Hh.
Qed.
End state.
End growth.
Lemma condition_version params pos b c : bi_nVersion b = bi_nVersion c → Condition (VersionBitsConditionChecker params pos) b = Condition (VersionBitsConditionChecker params pos) c.
Proof. cbn. by intros ->. Qed.

(** ** A chain of nine blocks, of which all but the first three signal, with periods of three *)
Definition sample_chain : arena := straight (λ i, if (i <? 3)%nat then 4 else 0x20000002) (λ i, Z.of_nat i * 10) (λ _, 0) 9.
Definition sample_params : Params := mkParams 2 3 (λ pos, mkDeployment (match pos with DEPLOYMENT_TESTDUMMY => 28 | DEPLOYMENT_CSV => 0 | DEPLOYMENT_SEGWIT => 1 end) 0 1000).
(** Defined, started, locked in and active from one period to the next; the version to mine with in each. *)
Example sample_states : map (λ p, snd <$> VersionBitsState sample_chain p sample_params DEPLOYMENT_SEGWIT (mkVersionBitsCache ∅ ∅ ∅)) [None; Some 1%nat; Some 2%nat; Some 5%nat; Some 8%nat] =
  [Some THRESHOLD_DEFINED; Some THRESHOLD_DEFINED; Some THRESHOLD_STARTED; Some THRESHOLD_LOCKED_IN; Some THRESHOLD_ACTIVE].
Proof. vm_compute. reflexivity. Qed.
Example sample_versions : map (λ p, snd <$> ComputeBlockVersion sample_chain p sample_params (mkVersionBitsCache ∅ ∅ ∅)) [Some 1%nat; Some 2%nat; Some 8%nat] =
  [Some 0x20000000; Some 0x30000003; Some 0x30000001].
Proof. vm_compute. reflexivity. Qed.
End VersionBits.
