(* ===== verification/Bignum.v ===== *)
(** * Bignum: signed big numbers ([libzerocoin/bitcoin_bignum/bignum.h])

    [CBigNum] wraps the big numbers of OpenSSL, which are the interface [OpenSSL] with the
    documented meaning of each function as the class [OpenSSLLaws].  The conversions from machine
    integers and from [arith_uint256] go through a byte format; they denote the numbers they are
    given, and the compact form agrees with that of [arith_uint256]. *)
From S2P Require Import Prelude ArithUint256.

Module Bignum.
Import ArithUint256.

(** ** The library *)
(** [BN_div] fails on a zero divisor. *)
Class OpenSSL := {
  BIGNUM : Type;
  BN_set_word : Z → BIGNUM; BN_get_word : BIGNUM → Z;
  BN_lshift : BIGNUM → Z → BIGNUM; BN_rshift : BIGNUM → Z → BIGNUM;
  BN_set_negative : BIGNUM → bool → BIGNUM; BN_is_negative : BIGNUM → bool;
  BN_num_bytes : BIGNUM → Z;
  BN_mul : BIGNUM → BIGNUM → BIGNUM; BN_div : BIGNUM → BIGNUM → option BIGNUM;
  BN_cmp : BIGNUM → BIGNUM → Z;
  BN_mpi2bn : list Z → BIGNUM }.
(** Big-endian numbers, and the format of [BN_mpi2bn] after its length: the top bit is the sign. *)
Fixpoint be (l : list Z) : Z := match l with [] => 0 | c :: l => c * 256 ^ Z.of_nat (length l) + be l end.
Definition mpi_value (d : list Z) : Z :=
  match d with
  | [] => 0
  | c :: d => let m := be (c mod 128 :: d) in if 128 <=? c then - m else m
  end.
Definition byte_length (x : Z) : Z := ((if x =? 0 then 0 else Z.log2 x + 1) + 7) / 8.
Class OpenSSLLaws `{OpenSSL} := {
  bn_value : BIGNUM → Z;
  set_word_law w : 0 <= w < 2 ^ 64 → bn_value (BN_set_word w) = w;
  get_word_law a : BN_get_word a = Z.min (Z.abs (bn_value a)) (2 ^ 64 - 1);
  lshift_law a n : 0 <= n → bn_value (BN_lshift a n) = bn_value a * 2 ^ n;
  rshift_law a n : 0 <= n → bn_value (BN_rshift a n) = Z.quot (bn_value a) (2 ^ n);
  set_negative_law a b : bn_value (BN_set_negative a b) = if b then - Z.abs (bn_value a) else Z.abs (bn_value a);
  is_negative_law a : BN_is_negative a = (bn_value a <? 0);
  num_bytes_law a : BN_num_bytes a = byte_length (Z.abs (bn_value a));
  mul_law a b : bn_value (BN_mul a b) = bn_value a * bn_value b;
  div_law a b : match BN_div a b with
                | None => bn_value b = 0
                | Some q => bn_value b ≠ 0 ∧ bn_value q = Z.quot (bn_value a) (bn_value b)
                end;
  cmp_law a b : BN_cmp a b = Z.sgn (bn_value a - bn_value b);
  mpi2bn_law d : Radix.digits 256 d → Z.of_nat (length d) < 2 ^ 32 →
    bn_value (BN_mpi2bn (rev (Radix.split 256 4 (Z.of_nat (length d))) ++ d)) = mpi_value d }.

Section CBigNum.
Context `{OpenSSL}.

(** ** Conversions *)
(** The bytes of the number after the leading zeros; the sign goes to the top bit. *)
Fixpoint int64_bytes (i : nat) (n : Z) (fNegative fLeadingZeroes : bool) : list Z :=
  match i with
  | O => []
  | S i =>
      let c := Z.land (Z.shiftr n 56) 0xff in
      let n := u64 (Z.shiftl n 8) in
      if fLeadingZeroes then
        if c =? 0 then int64_bytes i n fNegative true
        else if negb (Z.land c 0x80 =? 0) then (if fNegative then 0x80 else 0) :: c :: int64_bytes i n fNegative false
        else (if fNegative then Z.lor c 0x80 else c) :: int64_bytes i n fNegative false
      else c :: int64_bytes i n fNegative false
  end.
Definition with_size (d : list Z) : list Z :=
  let nSize := Z.of_nat (length d) in
  [Z.land (Z.shiftr nSize 24) 0xff; Z.land (Z.shiftr nSize 16) 0xff; Z.land (Z.shiftr nSize 8) 0xff; Z.land nSize 0xff] ++ d.
Definition setulong (n : Z) : BIGNUM := BN_set_word n.
Definition setint64 (sn : Z) : BIGNUM :=
  let '(n, fNegative) := if sn <? 0 then (u64 (u64 (i64 (- i64 (sn + 1))) + 1), true) else (u64 sn, false) in
  BN_mpi2bn (with_size (int64_bytes 8 n fNegative true)).
(** The bytes of the limbs from the last one down. *)
Fixpoint uint256_bytes (l : list Z) (fLeadingZeroes : bool) : list Z :=
  match l with
  | [] => []
  | c :: l =>
      if fLeadingZeroes then
        if c =? 0 then uint256_bytes l true
        else if negb (Z.land c 0x80 =? 0) then 0 :: c :: uint256_bytes l false else c :: uint256_bytes l false
      else c :: uint256_bytes l false
  end.
Definition setuint256 (n : list Z) : BIGNUM :=
  BN_mpi2bn (with_size (uint256_bytes (rev (flat_map (Radix.split 256 4) n)) true)).
(** [CBigNum(int)] and [CBigNum(int64_t)]. *)
Definition CBigNum_int (n : Z) : BIGNUM := if 0 <=? n then setulong n else setint64 n.
Definition CBigNum_int64 (n : Z) : BIGNUM := setint64 n.

(** ** The compact form *)
Definition SetCompact (nCompact : Z) : BIGNUM :=
  let nSize := Z.shiftr nCompact 24 in
  let fNegative := negb (Z.land nCompact 0x00800000 =? 0) in
  let nWord := Z.land nCompact 0x007fffff in
  let bn :=
    if nSize <=? 3 then BN_set_word (Z.shiftr nWord (8 * (3 - nSize)))
    else BN_lshift (BN_set_word nWord) (8 * (nSize - 3)) in
  BN_set_negative bn fNegative.
Definition GetCompact (bn : BIGNUM) : Z :=
  let nSize := BN_num_bytes bn in
  let nCompact :=
    if nSize <=? 3 then u32 (u64 (Z.shiftl (BN_get_word bn) (8 * (3 - nSize))))
    else u32 (BN_get_word (BN_rshift bn (8 * (nSize - 3)))) in
  let '(nCompact, nSize) :=
    if negb (Z.land nCompact 0x00800000 =? 0) then (Z.shiftr nCompact 8, nSize + 1) else (nCompact, nSize) in
  let nCompact := Z.lor nCompact (u32 (Z.shiftl nSize 24)) in
  Z.lor nCompact (if BN_is_negative bn then 0x00800000 else 0).

(** ** Arithmetic and comparison *)
Definition op_mul (a b : BIGNUM) : BIGNUM := BN_mul a b.
(** [None] is the exception. *)
Definition op_div (a b : BIGNUM) : option BIGNUM := BN_div a b.
Definition op_lt (a b : BIGNUM) : bool := BN_cmp a b <? 0.
Definition op_gt (a b : BIGNUM) : bool := 0 <? BN_cmp a b.
End CBigNum.

(** ** What they denote *)
Lemma be_bound l : Radix.digits 256 l → 0 <= be l < 256 ^ Z.of_nat (length l).
Proof.
  induction l as [|c l IH]; intros Hl; [simpl; lia|]. apply Forall_cons_iff in Hl as [Hc Hl]. specialize (IH Hl).
  cbn [be length]. rewrite Nat2Z.inj_succ, Z.pow_succ_r by lia. nia.
Qed.
Lemma be_rev l : be (rev l) = Radix.eval 256 l.
Proof.
  assert (∀ l1 l2, be (l1 ++ l2) = be l1 * 256 ^ Z.of_nat (length l2) + be l2) as Happ.
  { induction l1 as [|c l1 IH]; intros l2; [done|]. cbn [app be]. rewrite IH, length_app, Nat2Z.inj_add, Z.pow_add_r by lia. ring. }
  induction l as [|c l IH]; [done|]. cbn [rev Radix.eval]. rewrite Happ, IH. cbn [be length]. lia.
Qed.
Definition signed (b : bool) (x : Z) : Z := if b then - x else x.
(** A leading byte with the sign. *)
Lemma mpi_leading c (l : list Z) (neg : bool) : 0 < c < 256 → Radix.digits 256 l →
  let d := if negb (Z.land c 0x80 =? 0) then (if neg then 0x80 else 0) :: c :: l else (if neg then Z.lor c 0x80 else c) :: l in
  Radix.digits 256 d ∧ mpi_value d = signed neg (be (c :: l)) ∧ (length d <= S (S (length l)))%nat.
Proof.
  intros Hc Hl. cbv zeta.
  assert ((Z.land c 0x80 =? 0) = negb (128 <=? c)) as ->.
  { change 0x80 with (Z.shiftl 1 7). by rewrite land_bit_eqb, (testbit_top c 7) by lia. }
  rewrite negb_involutive. destruct (Z.leb_spec 128 c) as [E|E].
  - split_and!; [| |cbn [length]; lia].
    + apply Forall_cons; [destruct neg; lia|]. apply Forall_cons; [lia|done].
    + unfold mpi_value. destruct neg; cbn [signed be length].
      * rewrite (proj2 (Z.leb_le 128 0x80)) by lia. change (0x80 mod 128) with 0. lia.
      * rewrite (proj2 (Z.leb_gt 128 0)) by lia. change (0 mod 128) with 0. lia.
  - assert (Z.lor c 0x80 = c + 128) as ->. { change (Z.lor c 0x80) with (Z.lor c (Z.shiftl 1 7)). rewrite lor_shiftl_add by lia. lia. }
    split_and!; [| |cbn [length]; lia]; [apply Forall_cons; [destruct neg; lia|done]|]. unfold mpi_value. destruct neg; cbn [signed].
    + rewrite (proj2 (Z.leb_le 128 _)) by lia. cbn [be]. replace ((c + 128) mod 128) with c by zlia. done.
    + rewrite (proj2 (Z.leb_gt 128 _)) by lia. by rewrite Z.mod_small by lia.
Qed.
Lemma int64_bytes_spec i : ∀ n x neg, (i <= 8)%nat → n = x * 2 ^ (64 - 8 * Z.of_nat i) → 0 <= x < 2 ^ (8 * Z.of_nat i) →
  (let d := int64_bytes i n neg false in Radix.digits 256 d ∧ be d = x ∧ length d = i) ∧
  (let d := int64_bytes i n neg true in Radix.digits 256 d ∧ mpi_value d = signed neg x ∧ (length d <= S i)%nat).
Proof.
  induction i as [|i IH]; intros n x neg Hi Hn Hx.
  { change (2 ^ (8 * Z.of_nat 0)) with 1 in Hx. assert (x = 0) as -> by lia. split; (split; [constructor|]); [done|]. destruct neg; simpl; split; lia. }
  set (p := 2 ^ (8 * Z.of_nat i)) in *. set (c := x / p). set (y := x mod p). assert (0 < p) by (unfold p; lia).
  assert (x = c * p + y) as Hxy by (unfold c, y; zlia). assert (0 <= y < p) as Hy by (unfold y; zlia).
  replace (8 * Z.of_nat (S i)) with (8 + 8 * Z.of_nat i) in Hx by lia. rewrite Z.pow_add_r in Hx by lia. fold p in Hx. change (2 ^ 8) with 256 in Hx.
  assert (0 <= c < 256) as Hc by nia.
  assert (2 ^ (64 - 8 * Z.of_nat (S i)) * p = 2 ^ 56) as Hq by (unfold p; rewrite <- Z.pow_add_r by lia; f_equal; lia).
  assert (2 ^ (64 - 8 * Z.of_nat i) = 2 ^ (64 - 8 * Z.of_nat (S i)) * 256) as Hq' by (rewrite <- (Z.pow_add_r 2 _ 8) by lia; f_equal; lia).
  set (q := 2 ^ (64 - 8 * Z.of_nat (S i))) in *. assert (0 < q) by (unfold q; lia).
  assert (n = c * 2 ^ 56 + y * q) as Hn' by nia. assert (0 <= y * q < 2 ^ 56) as Hyq by nia.
  assert (Z.land (Z.shiftr n 56) 0xff = c) as Ec.
  { rewrite Z.shiftr_div_pow2 by lia. change 0xff with (2 ^ 8 - 1). rewrite land_mask by lia.
    assert (n / 2 ^ 56 = c) as -> by (symmetry; apply (Z.div_unique_pos n _ c (y * q)); lia). apply Z.mod_small. lia. }
  assert (u64 (Z.shiftl n 8) = y * 2 ^ (64 - 8 * Z.of_nat i)) as En.
  { unfold u64. rewrite Z.shiftl_mul_pow2 by lia. symmetry. apply (Z.mod_unique_pos _ _ c); rewrite ?Hq'; lia. }
  destruct (IH _ y neg ltac:(lia) En Hy) as [(D1 & B1 & L1) (D2 & B2 & L2)]. cbn [int64_bytes]. rewrite Ec. split; cbv zeta.
  - split_and!; [by apply Forall_cons|cbn [be]; rewrite B1, L1, pow256 by lia; fold p; lia|simpl; lia].
  - destruct (Z.eqb_spec c 0) as [E0|E0].
    + split_and!; [done|rewrite B2; f_equal; lia|lia].
    + destruct (mpi_leading c _ neg ltac:(lia) D1) as (D3 & B3 & L3). split_and!; [done| |lia].
      rewrite B3. f_equal. cbn [be]. rewrite B1, L1, pow256 by lia. fold p. lia.
Qed.
Lemma uint256_bytes_spec l : Radix.digits 256 l →
  uint256_bytes l false = l ∧
  (let d := uint256_bytes l true in Radix.digits 256 d ∧ mpi_value d = be l ∧ (length d <= S (length l))%nat).
Proof.
  induction l as [|c l IH]; intros Hl; [split; [done|]; split; [constructor|simpl; lia]|]. apply Forall_cons_iff in Hl as [Hc Hl].
  destruct (IH Hl) as [E1 (D & B & L)]. cbn [uint256_bytes]. split; [by rewrite E1|]. cbv zeta. destruct (Z.eqb_spec c 0) as [->|E0].
  - split_and!; [done|rewrite B; cbn [be]; lia|cbn [length]; lia].
  - rewrite E1. exact (mpi_leading c l false ltac:(lia) Hl).
Qed.
Lemma size_bytes n : 0 <= n < 2 ^ 32 →
  [Z.land (Z.shiftr n 24) 0xff; Z.land (Z.shiftr n 16) 0xff; Z.land (Z.shiftr n 8) 0xff; Z.land n 0xff] = rev (Radix.split 256 4 n).
Proof.
  intros Hn. change 0xff with (2 ^ 8 - 1). rewrite !land_mask, !Z.shiftr_div_pow2 by lia. cbn [Radix.split rev app].
  rewrite !Z.div_div by lia. done.
Qed.
Lemma eval_limbs l : Radix.digits B l → be (rev (flat_map (Radix.split 256 4) l)) = val l ∧ Radix.digits 256 (flat_map (Radix.split 256 4) l).
Proof.
  rewrite be_rev. induction l as [|x l IH]; intros Hl; [split; [done|constructor]|]. apply Forall_cons_iff in Hl as [Hx Hl]. destruct (IH Hl) as [E D].
  cbn [flat_map]. split; [|apply digits_app; split; [by apply digits_split|done]].
  rewrite eval_app, length_split, eval_split by lia. rewrite E. change (256 ^ Z.of_nat 4) with B. rewrite Z.mod_small by done. done.
Qed.

Section laws.
Context `{OpenSSLLaws}.

Lemma mpi2bn_with_size d : Radix.digits 256 d → Z.of_nat (length d) < 2 ^ 32 → bn_value (BN_mpi2bn (with_size d)) = mpi_value d.
Proof using Type. intros Hd Hl. unfold with_size. rewrite size_bytes by lia. by apply mpi2bn_law. Qed.
Lemma setint64_value sn : - 2 ^ 63 <= sn < 2 ^ 63 → bn_value (setint64 sn) = sn.
Proof using Type.
  intros Hs. unfold setint64. set (x := Z.abs sn).
  assert ((if sn <? 0 then (u64 (u64 (i64 (- i64 (sn + 1))) + 1), true) else (u64 sn, false)) = (x, sn <? 0)) as ->.
  { unfold x. destruct (Z.ltb_spec sn 0); [|rewrite u64_small by lia; f_equal; lia].
    rewrite (i64_small (sn + 1)), i64_small by lia. rewrite (u64_small (- _)), u64_small by lia. f_equal. lia. }
  destruct (int64_bytes_spec 8 x x (sn <? 0)) as [_ (D & V & L)]; [lia|change (64 - 8 * Z.of_nat 8) with 0; lia|change (8 * Z.of_nat 8) with 64; lia|].
  rewrite mpi2bn_with_size by (done || lia). rewrite V. unfold x. destruct (Z.ltb_spec sn 0); cbn [signed]; lia.
Qed.
Lemma setuint256_value n : wf WIDTH256 n → bn_value (setuint256 n) = val n.
Proof using Type.
  intros [Hl Hd]. destruct (eval_limbs n Hd) as [E D]. unfold setuint256. set (l := flat_map _ _) in *.
  assert (length l = 32)%nat as Hlen. { unfold l. clear -Hl. do 8 (destruct n as [|? n]; [done|]). by destruct n. }
  destruct (uint256_bytes_spec (rev l)) as [_ (D' & V & L)]; [by apply Forall_rev|]. rewrite length_rev in L.
  rewrite mpi2bn_with_size by (done || lia). by rewrite V.
Qed.
Lemma CBigNum_int_value n : - 2 ^ 31 <= n < 2 ^ 31 → bn_value (CBigNum_int n) = n.
Proof using Type. intros Hn. unfold CBigNum_int, setulong. destruct (Z.leb_spec 0 n); [apply set_word_law|apply setint64_value]; lia. Qed.

Lemma SetCompact_bn_value c : 0 <= c < 2 ^ 32 → bn_value (SetCompact c) = signed (Z.testbit c 23) (compact_number c).
Proof using Type.
  intros Hc. unfold SetCompact, compact_number, compact_word. rewrite set_negative_law.
  change 0x00800000 with (Z.shiftl 1 23). rewrite land_bit_eqb, negb_involutive by lia.
  rewrite Z.shiftr_div_pow2 by lia. change 0x007fffff with (2 ^ 23 - 1). rewrite land_mask by lia.
  set (s := c / 2 ^ 24). set (m := c mod 2 ^ 23). assert (0 <= s < 256) as Hs by (unfold s; zlia). assert (0 <= m < 2 ^ 23) as Hm by (unfold m; zlia).
  clearbody s m. destruct (Z.leb_spec s 3) as [E|E].
  - rewrite Z.shiftr_div_pow2 by lia. assert (0 <= m / 2 ^ (8 * (3 - s)) < 2 ^ 64) as Hw.
    { split; [apply Z.div_pos; lia|]. apply Z.le_lt_trans with m; [|lia]. apply Z.div_le_upper_bound; [lia|]. nia. }
    rewrite set_word_law by done. destruct (Z.testbit c 23); cbn [signed]; lia.
  - rewrite lshift_law, set_word_law by lia. assert (0 <= m * 2 ^ (8 * (s - 3))) by nia. destruct (Z.testbit c 23); cbn [signed]; lia.
Qed.
Lemma GetCompact_bn_value a : Z.abs (bn_value a) < 2 ^ 256 →
  let '(m, n) := compact_parts (Z.abs (bn_value a)) in
  GetCompact a = m + n * 2 ^ 24 + (if bn_value a <? 0 then 2 ^ 23 else 0) ∧ 0 <= m < 2 ^ 23 ∧ 0 <= n < 256.
Proof using Type.
  intros Hx. set (x := Z.abs (bn_value a)) in *. assert (0 <= x < 2 ^ 256) as Hx' by (unfold x in *; lia). unfold GetCompact, compact_parts.
  rewrite num_bytes_law, is_negative_law. fold x. destruct (compact_bytes x Hx') as (Hn & Hu & Hc & Hz). unfold byte_length.
  set (n := (_ + 7) / 8) in *. clearbody n.
  assert ((if n <=? 3 then u32 (u64 (Z.shiftl (BN_get_word a) (8 * (3 - n)))) else u32 (BN_get_word (BN_rshift a (8 * (n - 3))))) =
          (if n <=? 3 then x * 2 ^ (8 * (3 - n)) else x / 2 ^ (8 * (n - 3)))) as ->.
  { rewrite !get_word_law. fold x. destruct (Z.leb_spec n 3).
    - assert (2 ^ (8 * n) <= 2 ^ 24) by (apply Z.pow_le_mono_r; lia). rewrite Z.min_l, Z.shiftl_mul_pow2 by lia.
      rewrite u64_small, u32_small by lia. done.
    - rewrite rshift_law by lia. rewrite <- Z.quot_abs, (Z.abs_eq (2 ^ _)) by lia. fold x. rewrite Z.quot_div_nonneg by lia.
      rewrite Z.min_l, u32_small by lia. done. }
  set (c := if n <=? 3 then _ else _) in *. clearbody c.
  replace (negb (Z.land c 0x00800000 =? 0)) with (2 ^ 23 <=? c).
  2: { change 0x00800000 with (Z.shiftl 1 23). by rewrite land_bit_eqb, testbit_top, negb_involutive by lia. }
  destruct (if 2 ^ 23 <=? c then (c / 256, n + 1) else (c, n)) as [m k] eqn:Emk.
  replace (if 2 ^ 23 <=? c then (Z.shiftr c 8, n + 1) else (c, n)) with (m, k) by (rewrite <- Emk; by rewrite Z.shiftr_div_pow2 by lia).
  assert (0 <= m < 2 ^ 23 ∧ 0 <= k < 256) as [Hm Hk] by (destruct (Z.leb_spec (2 ^ 23) c); simplify_eq; zlia).
  split; [|done]. rewrite u32_small by (rewrite Z.shiftl_mul_pow2 by lia; lia). rewrite lor_shiftl_add by lia.
  destruct (bn_value a <? 0); [|by rewrite Z.lor_0_r, Z.add_0_r]. change 8388608 with (Z.shiftl 1 23). symmetry. apply Z.add_nocarry_lor, Z.eqb_eq.
  rewrite land_bit_eqb by lia. apply negb_true_iff, Z.testbit_false; [lia|]. zlia.
Qed.
(** Writing a number and reading it back keeps its leading bytes. *)
Lemma compact_bn_roundtrip a : 0 <= bn_value a < 2 ^ 256 →
  let v := compact_number (GetCompact a) in
  0 <= GetCompact a < 2 ^ 32 ∧ Z.testbit (GetCompact a) 23 = false ∧ 0 <= v <= bn_value a ∧ (bn_value a - v) * 2 ^ 15 <= v.
Proof using Type.
  intros Ha. pose proof (GetCompact_bn_value a ltac:(lia)) as HG. rewrite Z.abs_eq in HG by lia. pose proof (compact_parts_number _ Ha) as HP.
  destruct (compact_parts (bn_value a)) as [m n]. destruct HG as (E & Hm & Hn). destruct HP as (Hv & He & _).
  assert ((bn_value a <? 0) = false) as El by (apply Z.ltb_ge; lia). rewrite El in E.
  destruct (compact_word_parts m n false Hm Hn) as (_ & E2 & E3 & Hc). cbv zeta in *. rewrite <- E in E2, E3, Hc. rewrite E2. split_and!; try lia. exact E3.
Qed.
End laws.
Lemma compact_number_range c : 0 <= c < 2 ^ 32 → 0 <= compact_number c ∧ (compact_word c = 0 → compact_number c = 0).
Proof.
  intros Hc. unfold compact_number, compact_word. assert (0 <= c mod 2 ^ 23) by (apply Z.mod_pos_bound; lia).
  destruct (Z.leb_spec (c / 2 ^ 24) 3).
  - split; [apply Z.div_pos; lia|done].
  - split; [apply Z.mul_nonneg_nonneg; lia|]. intros ->. done.
Qed.

(** ** The two compact forms *)
(** [CBigNum] and [arith_uint256] have the same compact form.  A 256-bit number goes through the
    byte format of the conversion unchanged and has the same compact word in both; a compact word
    without sign and overflow is the same number in both, and a signed one its negation; a
    positive number that is written and read back keeps its leading bytes. *)
Theorem compact_agrees `{OpenSSLLaws} pn c a :
  wf WIDTH256 pn → 0 <= c < 2 ^ 32 → 0 < bn_value a < 2 ^ 256 →
  bn_value (setuint256 pn) = val pn ∧
  ArithUint256.GetCompact pn false = Some (GetCompact (setuint256 pn)) ∧
  (let '(v, fNegative, fOverflow) := ArithUint256.SetCompact c in
   fOverflow = false → bn_value (SetCompact c) = if fNegative : bool then - val v else val v) ∧
  0 < bn_value (SetCompact (GetCompact a)) <= bn_value a ∧
  (bn_value a - bn_value (SetCompact (GetCompact a))) * 2 ^ 15 <= bn_value (SetCompact (GetCompact a)).
Proof.
  intros Hpn Hc Ha. pose proof (setuint256_value pn Hpn) as Hv. pose proof (wf_bound _ _ Hpn) as Hb. change (B ^ Z.of_nat WIDTH256) with (2 ^ 256) in Hb.
  assert (Z.abs (bn_value (setuint256 pn)) = val pn) as Habs by (rewrite Hv; lia). split; [done|]. split; [|split].
  - pose proof (GetCompact_value pn false Hpn) as H1. pose proof (GetCompact_bn_value (setuint256 pn) ltac:(rewrite Habs; lia)) as H2. rewrite Habs, Hv in H2.
    destruct (compact_parts (val pn)) as [m n]. destruct H1 as (-> & _). destruct H2 as (-> & _). f_equal. by rewrite (proj2 (Z.ltb_ge (val pn) 0)) by lia.
  - destruct (SetCompact_value c Hc) as (v & -> & _ & Vv). intros Ho%Z.leb_gt. rewrite (SetCompact_bn_value c Hc).
    destruct (compact_number_range c Hc) as [Hr Hz]. rewrite Z.mod_small in Vv by lia. rewrite Vv.
    destruct (Z.testbit c 23); [|by rewrite andb_false_r]. destruct (Z.eqb_spec (compact_word c) 0) as [E|E]; [|done]. rewrite Hz by done. done.
  - destruct (compact_bn_roundtrip a) as (Hr & Ht & Hp & He); [lia|]. rewrite (SetCompact_bn_value _ Hr), Ht. cbn [signed]. split; [lia|exact He].
Qed.

(** The numbers themselves meet the laws. *)
#[export] Instance OpenSSL_Z : OpenSSL := {|
  BIGNUM := Z; BN_set_word w := w; BN_get_word a := Z.min (Z.abs a) (2 ^ 64 - 1); BN_lshift a n := a * 2 ^ n; BN_rshift a n := Z.quot a (2 ^ n);
  BN_set_negative a b := if b then - Z.abs a else Z.abs a; BN_is_negative a := a <? 0; BN_num_bytes a := byte_length (Z.abs a);
  BN_mul := Z.mul; BN_div a b := if b =? 0 then None else Some (Z.quot a b); BN_cmp a b := Z.sgn (a - b);
  BN_mpi2bn l := mpi_value (drop 4 l) |}.
#[export] Instance OpenSSLLaws_Z : OpenSSLLaws.
Proof.
  refine {| bn_value := λ a, a |}; try done. intros a b. unfold BN_div. simpl. by destruct (Z.eqb_spec b 0).
Defined.
Lemma compact_agrees_witness :
  ArithUint256.GetCompact (base_uint_of_uint64 WIDTH256 0x12345600) false = Some (GetCompact (setuint256 (base_uint_of_uint64 WIDTH256 0x12345600))) ∧
  0 < bn_value (SetCompact (GetCompact (0x123456789 : @BIGNUM OpenSSL_Z))) <= 0x123456789.
Proof.
  assert (wf WIDTH256 (base_uint_of_uint64 WIDTH256 0x12345600)) as Hw by (apply wf_of_uint64; unfold WIDTH256; lia).
  assert (0 <= 0x1d00ffff < 2 ^ 32) as Hc by lia. assert (0 < bn_value (0x123456789 : @BIGNUM OpenSSL_Z) < 2 ^ 256) as Ha by (change (0 < 0x123456789 < 2 ^ 256); lia).
  destruct (compact_agrees _ _ _ Hw Hc Ha) as (_ & E & _ & Hr & _). split; [exact E|exact Hr].
Defined.
End Bignum.
