(* ===== verification/Pow.v ===== *)
(** * Pow: required work ([pow.cpp], [ComputeMinWork] of [main.cpp])

    The retarget rules over the block index, with the static limit that test networks overwrite,
    the proof-of-stake target in 256-bit arithmetic, and the check of a hash against its target.
    The theorems bound one adjustment and count the doublings of the minimal work. *)
From S2P Require Import Prelude ArithUint256 Chain Bignum.

Module Pow.
Import ArithUint256 Chain Bignum.

Inductive Network := MAIN | TESTNET | REGTEST.
#[export] Instance Network_eq_dec : EqDecision Network.
Proof. solve_decision. Defined.
Record Params := mkParams {
  NetworkIDString : Network; hashGenesisBlock : list Z; nMajorityRejectBlockOutdated : Z; nMajorityWindow : Z;
  powLimit : list Z; posLimit : list Z; nPowTargetSpacing : Z; nPowTargetTimespan : Z; nLastPOWBlock : Z }.
Definition fTestNet (params : Params) : bool := bool_decide (NetworkIDString params = TESTNET).

Definition nTargetSpacing : Z := 180.
Definition nRetargetInterval : Z := 3.
Definition nLookbackInterval : Z := 6.
Definition nLookbackTimespan : Z := nLookbackInterval * nTargetSpacing.
Definition LimUp : Z := nLookbackTimespan * 100 / 106.
Definition LimDown : Z := nLookbackTimespan * 106 / 100.

(** [pindexFirst] after the lookback. *)
Fixpoint lookback (n : nat) (A : arena) (pindexFirst : option ptr) : option (option ptr) :=
  match n, pindexFirst with
  | S n, Some p => b ← A !! p; lookback n A (pprev b)
  | _, _ => Some pindexFirst
  end.

Section pow.
Context `{OpenSSL} (params : Params).

(** [CBigNum(~arith_uint256(0) >> n)] *)
Definition shifted_ones (n : Z) : BIGNUM := setuint256 (op_shr WIDTH256 (op_compl (base_uint_of_uint64 WIDTH256 0)) n).
(** The static of the file, before any call. *)
Definition bnProofOfWorkLimit : BIGNUM := shifted_ones 16.

(** The limit is passed in and out.  [None] is a bad pointer or an exception. *)
Definition GetNextWorkRequired (A : arena) (limit : BIGNUM) (pindexLast : option ptr) : option (BIGNUM * Z) :=
  let nProofOfWorkLimit := GetCompact limit in
  match pindexLast with
  | None => Some (limit, nProofOfWorkLimit)
  | Some p =>
      let limit := if fTestNet params then shifted_ones 8 else limit in
      last ← A !! p;
      if negb (Z.rem (nHeight last + 1) nRetargetInterval =? 0) then Some (limit, nBits last)
      else
        pindexFirst ← lookback (Z.to_nat nLookbackInterval) A (Some p);
        match pindexFirst with
        | None => Some (limit, nBits last)
        | Some q =>
            first ← A !! q;
            let nActualTimespan := GetBlockTime last - GetBlockTime first in
            let nActualTimespan := if nActualTimespan <? LimUp then LimUp else nActualTimespan in
            let nActualTimespan := if LimDown <? nActualTimespan then LimDown else nActualTimespan in
            let bnNew := Bignum.SetCompact (nBits last) in
            let bnNew := Bignum.op_mul bnNew (CBigNum_int64 nActualTimespan) in
            bnNew ← Bignum.op_div bnNew (CBigNum_int64 nLookbackTimespan);
            let bnNew := if op_gt bnNew limit then limit else bnNew in
            Some (limit, GetCompact bnNew)
        end
  end.

(** [bnNew *= ...] with an [int64_t] is the multiplication by a [uint32_t]. *)
Definition CalculateNextTargetRequired (last : CBlockIndex) (nFirstBlockTime : Z) : uint_error + option Z :=
  let nTargetSpacing := nPowTargetSpacing params in
  let nActualSpacing := GetBlockTime last - nFirstBlockTime in
  let bnTargetLimit := UintToArith256 (posLimit params) in
  let '(bnNew, _, _) := ArithUint256.SetCompact (nBits last) in
  let nInterval := Z.quot (nPowTargetTimespan params) nTargetSpacing in
  let bnNew := op_mul32 bnNew (u32 ((nInterval - 1) * nTargetSpacing + nActualSpacing + nActualSpacing)) in
  match ArithUint256.op_div WIDTH256 bnNew (base_uint_of_uint64 WIDTH256 (u64 ((nInterval + 1) * nTargetSpacing))) with
  | inl e => inl e
  | inr bnNew =>
      let bnNew :=
        if (CompareTo WIDTH256 bnNew (base_uint_of_uint64 WIDTH256 0) <=? 0) || (0 <? CompareTo WIDTH256 bnNew bnTargetLimit)
        then bnTargetLimit else bnNew in
      inr (ArithUint256.GetCompact bnNew false)
  end.
(** [None] is a bad pointer, [Some (inl _)] an exception. *)
Definition GetNextTargetRequired (A : arena) (pindexLast : option ptr) (fProofOfStake : bool) : option (uint_error + option Z) :=
  let nTargetLimit := ArithUint256.GetCompact (UintToArith256 (posLimit params)) false in
  match pindexLast with
  | None => Some (inr nTargetLimit)
  | Some p =>
      last ← A !! p;
      if nHeight last =? nLastPOWBlock params then Some (inr nTargetLimit)
      else
        pindexPrev ← GetLastBlockIndex (Z.to_nat (nHeight last + 1)) A p fProofOfStake;
        prev ← A !! pindexPrev;
        match pprev prev with
        | None => Some (inr nTargetLimit)
        | Some q =>
            pindexPrevPrev ← GetLastBlockIndex (Z.to_nat (nHeight prev + 1)) A q fProofOfStake;
            prevPrev ← A !! pindexPrevPrev;
            match pprev prevPrev with
            | None => Some (inr nTargetLimit)
            | Some _ => Some (CalculateNextTargetRequired prev (GetBlockTime prevPrev))
            end
        end
  end.

(** [fNegative] and [fOverflow] are never assigned: they are arguments. *)
Definition CheckProofOfWork (fNegative fOverflow : bool) (limit : BIGNUM) (hash : list Z) (nBits : Z) (nHeight : Z) : BIGNUM * bool :=
  let '(bnTarget, _, _) := ArithUint256.SetCompact nBits in
  let limit := if fTestNet params then shifted_ones 8 else limit in
  if fNegative || EqualTo bnTarget 0 || fOverflow || (0 <? CompareTo WIDTH256 bnTarget (UintToArith256 (powLimit params))) then (limit, false)
  else if (nHeight =? 2 ^ 31 - 1) || (nHeight <? 233000) then (limit, true)
  else if 0 <? CompareTo WIDTH256 (UintToArith256 hash) bnTarget then (limit, false)
  else (limit, true).

(** The loop takes one step per [150*3*4] seconds at most. *)
Fixpoint min_work_loop (fuel : nat) (limit bnResult : BIGNUM) (nTime : Z) : option BIGNUM :=
  if (0 <? nTime) && op_lt bnResult limit then
    match fuel with
    | O => None
    | S fuel => min_work_loop fuel limit (Bignum.op_mul bnResult (CBigNum_int 2)) (nTime - 150 * 3 * 4)
    end
  else Some bnResult.
(** The limit is the static of [main.cpp]. *)
Definition ComputeMinWork (limit : BIGNUM) (nBase nTime : Z) : option (BIGNUM * Z) :=
  if fTestNet params then let limit := shifted_ones 8 in Some (limit, GetCompact limit)
  else if bool_decide (NetworkIDString params = REGTEST) then Some (limit, GetCompact (setuint256 (op_compl (base_uint_of_uint64 WIDTH256 0))))
  else
    bnResult ← min_work_loop (Z.to_nat (nTime / (150 * 3 * 4) + 1)) limit (Bignum.SetCompact nBase) nTime;
    let bnResult := if op_gt bnResult limit then limit else bnResult in
    Some (limit, GetCompact bnResult).
End pow.

(** ** One adjustment *)
Section bounds.
Context `{OpenSSLLaws} (params : Params).

Lemma shifted_ones_value n : 0 <= n → bn_value (shifted_ones n) = (2 ^ 256 - 1) / 2 ^ n.
Proof using Type.
  intros Hn. unfold shifted_ones. destruct (op_compl_spec WIDTH256 (base_uint_of_uint64 WIDTH256 0)) as [Hw Hv]; [apply wf_of_uint64; unfold WIDTH256; lia|].
  destruct (op_shr_spec WIDTH256 _ n Hw Hn) as [Hw' Hv']. rewrite setuint256_value by done. rewrite Hv', Hv, val_of_uint64 by lia. f_equal.
Qed.
Lemma lookback_total n A : wf_index A → ∀ p, (∀ q, p = Some q → is_Some (A !! q)) →
  ∃ r, lookback n A p = Some r ∧ ∀ q, r = Some q → is_Some (A !! q).
Proof using Type.
  intros HA. induction n as [|n IH]; intros p Hp; [by exists p|]. destruct p as [p|]; [|by exists None]. cbn [lookback].
  destruct (Hp p eq_refl) as [b Eb]. rewrite Eb. cbn [mbind option_bind]. apply IH. intros q Hq. destruct (HA p b Eb) as [_ Hpar _]. rewrite Hq in Hpar.
  destruct Hpar as (c & -> & _). by eexists.
Qed.
(** The scaled target, as the code computes it. *)
Lemma retarget_value c k : 0 <= c < 2 ^ 32 → Z.testbit c 23 = false → 0 <= k < 2 ^ 31 →
  ∃ bn, Bignum.op_div (Bignum.op_mul (Bignum.SetCompact c) (CBigNum_int64 k)) (CBigNum_int64 nLookbackTimespan) = Some bn ∧
        bn_value bn = compact_number c * k / 1080.
Proof using Type.
  intros Hc Hs Hk. unfold Bignum.op_div, Bignum.op_mul, CBigNum_int64.
  pose proof (div_law (BN_mul (Bignum.SetCompact c) (setint64 k)) (setint64 nLookbackTimespan)) as Hd.
  rewrite mul_law, SetCompact_bn_value, Hs in Hd by done. rewrite (setint64_value k), (setint64_value nLookbackTimespan) in Hd by (unfold nLookbackTimespan, nLookbackInterval, nTargetSpacing; lia).
  change nLookbackTimespan with 1080 in *. destruct (BN_div _ _) as [bn|]; [|lia]. exists bn. split; [done|]. destruct Hd as [_ ->]. cbn [signed].
  destruct (compact_number_range c Hc) as [Hn _]. rewrite Z.quot_div_nonneg by nia. done.
Qed.

Lemma lookback_up n A : wf_index A → ∀ p, is_Some (A !! p) → lookback n A (Some p) = Some (up A n p).
Proof using Type.
  intros HA. induction n as [|n IH]; intros p [b Eb]; [done|]. cbn [lookback up]. rewrite Eb. cbn [mbind option_bind]. destruct (HA p b Eb) as [_ Hp _].
  destruct (pprev b) as [q|]; [|by destruct n]. destruct Hp as (c & Ec & _). cbn [mbind option_bind]. apply IH. by eexists.
Qed.
(** Six blocks back in time, between the two bounds. *)
Definition timespan (last first : CBlockIndex) : Z := Z.max 1018 (Z.min 1144 (GetBlockTime last - GetBlockTime first)).
Lemma GetNextWorkRequired_spec A limit p last : wf_index A → A !! p = Some last → 0 <= nBits last < 2 ^ 32 →
  ∃ c, let limit' := if fTestNet params then shifted_ones 8 else limit in
    GetNextWorkRequired params A limit (Some p) = Some (limit', c) ∧
    ((nHeight last + 1) mod 3 ≠ 0 ∨ up A 6 p = None → c = nBits last) ∧
    ∀ q first, (nHeight last + 1) mod 3 = 0 → up A 6 p = Some q → A !! q = Some first → Z.testbit (nBits last) 23 = false →
      ∃ bn, c = GetCompact bn ∧ bn_value bn = Z.min (compact_number (nBits last) * timespan last first / 1080) (bn_value limit').
Proof using Type.
  intros HA Ep Hc. unfold GetNextWorkRequired. rewrite Ep. cbn [mbind option_bind]. set (limit' := if fTestNet params then _ else limit).
  pose proof (HA p last Ep) as [Hh _ _]. unfold nRetargetInterval. rewrite Z.rem_mod_nonneg by lia.
  destruct (Z.eqb_spec ((nHeight last + 1) mod 3) 0) as [E|E]; cbn [negb]; [|eexists; split_and!; [done|done|by intros]].
  destruct (lookback_total (Z.to_nat nLookbackInterval) A HA (Some p)) as (r & Er & Hr); [intros ? [= <-]; by eexists|].
  rewrite (lookback_up _ A HA p) in Er |- * by (by eexists). injection Er as <-. change (Z.to_nat nLookbackInterval) with 6%nat in *. cbn [mbind option_bind].
  destruct (up A 6 p) as [q|] eqn:Eq; [|eexists; split_and!; [done|done|by intros]].
  destruct (Hr q Eq) as [first Ef]. rewrite Ef. cbn [mbind option_bind].
  set (t := GetBlockTime last - GetBlockTime first). set (k := if LimDown <? _ then LimDown else _).
  assert (k = timespan last first) as Hk.
  { unfold k, timespan. fold t. change LimUp with 1018. change LimDown with 1144. destruct (Z.ltb_spec t 1018); [destruct (Z.ltb_spec 1144 1018)|destruct (Z.ltb_spec 1144 t)]; lia. }
  assert (1018 <= k <= 1144) as Hk' by (rewrite Hk; unfold timespan; lia). clearbody k.
  unfold Bignum.op_div. match goal with |- context [BN_div ?a ?b] => pose proof (div_law a b) as Hd; destruct (BN_div a b) as [bn|] eqn:Ebn end.
  2: { unfold CBigNum_int64 in Hd. rewrite setint64_value in Hd by (unfold nLookbackTimespan, nLookbackInterval, nTargetSpacing; lia). done. }
  cbn [mbind option_bind]. eexists. split; [done|]. split; [by intros [?|?]|]. intros q' first' _ Eq' Ef' Hs. assert (q' = q) as -> by congruence. rewrite Ef in Ef'. injection Ef' as <-. rewrite <- Hk.
  destruct (retarget_value (nBits last) k Hc Hs) as (bn' & Ebn' & Hv); [lia|]. unfold Bignum.op_div in Ebn'. rewrite Ebn in Ebn'. injection Ebn' as <-.
  eexists. split; [done|]. unfold op_gt. rewrite cmp_law, Hv. destruct (Z.ltb_spec 0 (Z.sgn (compact_number (nBits last) * k / 1080 - bn_value limit'))); [|rewrite Hv]; lia.
Qed.
End bounds.

(** C22. One retarget.  The function never fails and leaves the limit of the network.  Unless the next height is a multiple of three and there is a block six below, it returns the bits
    of the block as they are, checked against nothing.  Otherwise, if the target [T] of the block is not negative, let [w] be [T] times the timespan of the six blocks (kept between 1018 and
    1144 seconds) over 1080, cut at the limit: the result is the compact form of [w], so it is not negative, it is at most [w], it is below it
    by the precision of the form only, and it is within the limit whatever the old target was.  So one step multiplies the target by 1144/1080 at most, and, if the old target was within the limit, by
    1018/1080 at least, up to that precision. *)
Theorem GetNextWorkRequired_bounds `{OpenSSLLaws} params A limit p last :
  wf_index A → A !! p = Some last → 0 <= nBits last < 2 ^ 32 →
  let limit' := if fTestNet params then shifted_ones 8 else limit in
  let T := compact_number (nBits last) in
  0 <= bn_value limit' < 2 ^ 256 →
  ∃ c, GetNextWorkRequired params A limit (Some p) = Some (limit', c) ∧
    ((nHeight last + 1) mod 3 ≠ 0 ∨ up A 6 p = None → c = nBits last) ∧
    ∀ q first, (nHeight last + 1) mod 3 = 0 → up A 6 p = Some q → A !! q = Some first → Z.testbit (nBits last) 23 = false →
      let w := Z.min (T * timespan last first / 1080) (bn_value limit') in
      let v := compact_number c in
      0 <= c < 2 ^ 32 ∧ Z.testbit c 23 = false ∧ 0 <= v <= w ∧ w - v <= v / 2 ^ 15 ∧
      v <= bn_value limit' ∧ v * 1080 <= T * 1144 ∧ (T <= bn_value limit' → T * 1018 / 1080 <= v + v / 2 ^ 15).
Proof.
  intros HA Ep Hc limit' T HL. destruct (GetNextWorkRequired_spec params A limit p last HA Ep Hc) as (c & E & Hkeep & Hcase). fold limit' in E, Hcase. fold T in Hcase.
  destruct (compact_number_range _ Hc) as [HT0 _]. fold T in HT0. exists c. split_and!; [exact E|exact Hkeep|]. intros q first Hh Eq Ef Hs. cbv zeta.
  destruct (Hcase q first Hh Eq Ef Hs) as (bn & -> & Hv). set (k := timespan last first) in *. assert (1018 <= k <= 1144) as Hk by (unfold k, timespan; lia). clearbody k.
  assert (0 <= T * k / 1080) as Hn by (apply Z.div_pos; nia). assert (T * 1018 / 1080 <= T * k / 1080) as Hm by (apply Z.div_le_mono; nia).
  assert (T * 1018 / 1080 <= T) as Hm' by (apply Z.div_le_upper_bound; lia). assert (T * k / 1080 * 1080 <= T * k) as Hm'' by (pose proof (Z.mul_div_le (T * k) 1080); lia).
  destruct (compact_bn_roundtrip bn) as (Hr & Ht & Hb & Hd); [lia|]. set (v := compact_number (GetCompact bn)) in *.
  assert (bn_value bn - v <= v / 2 ^ 15) by (apply Z.div_le_lower_bound; lia). split_and!; try lia; [exact Ht|nia].
Qed.
(** Nine blocks that are a minute apart: the next target is 1018/1080 of the last. *)
Definition fast_chain : arena := straight (λ _, 2) (λ i, Z.of_nat i * 60) (λ _, 0x1d00ffff) 9.
Definition sample_pow_params : Params := mkParams MAIN [] 950 1000 [] [] 150 450 551000.
Lemma GetNextWorkRequired_bounds_witness : ∃ c,
  GetNextWorkRequired sample_pow_params fast_chain bnProofOfWorkLimit (Some 8%nat) = Some (bnProofOfWorkLimit, c) ∧ compact_number c * 1080 <= compact_number 0x1d00ffff * 1144.
Proof.
  destruct (GetNextWorkRequired_bounds sample_pow_params fast_chain bnProofOfWorkLimit 8 (straight_block (λ _, 2) (λ i, Z.of_nat i * 60) (λ _, 0x1d00ffff) 8)) as (c & E & _ & Hv).
  - apply straight_wf.
  - reflexivity.
  - vm_compute. split; discriminate || reflexivity.
  - split; [vm_compute; discriminate|vm_compute; reflexivity].
  - exists c. split; [exact E|].
    destruct (Hv 2%nat (straight_block (λ _, 2) (λ i, Z.of_nat i * 60) (λ _, 0x1d00ffff) 2) eq_refl eq_refl eq_refl eq_refl) as (_ & _ & _ & _ & _ & H1 & _). exact H1.
Defined.
Example sample_retarget : snd <$> GetNextWorkRequired sample_pow_params fast_chain bnProofOfWorkLimit (Some 8%nat) = Some 0x1d00f14c.
Proof. vm_compute. reflexivity. Qed.

(** ** The minimal work *)
Section min_work.
Context `{OpenSSLLaws}.

(** The number of doublings: up to the limit or the end of the time, whichever comes first. *)
Lemma min_work_loop_spec limit fuel : ∀ bn nTime, nTime <= 1800 * Z.of_nat fuel →
  ∃ r k, min_work_loop fuel limit bn nTime = Some r ∧ 0 <= k ∧ bn_value r = bn_value bn * 2 ^ k ∧
    (∀ j, 0 <= j < k → 0 < nTime - 1800 * j ∧ bn_value bn * 2 ^ j < bn_value limit) ∧
    (nTime - 1800 * k <= 0 ∨ bn_value limit <= bn_value bn * 2 ^ k).
Proof using Type.
  induction fuel as [|fuel IH]; intros bn nTime Hf; cbn [min_work_loop]; unfold op_lt; rewrite cmp_law.
  { rewrite (proj2 (Z.ltb_ge 0 nTime)) by lia. exists bn, 0. cbn [andb]. split_and!; [done|lia|lia|intros; lia|lia]. }
  destruct (Z.ltb_spec 0 nTime) as [Ht|Ht]; cbn [andb]; [|exists bn, 0; split_and!; [done|lia|lia|intros; lia|lia]].
  destruct (Z.ltb_spec (Z.sgn (bn_value bn - bn_value limit)) 0) as [Hl|Hl]; [|exists bn, 0; split_and!; [done|lia|lia|intros; lia|lia]].
  destruct (IH (Bignum.op_mul bn (CBigNum_int 2)) (nTime - 150 * 3 * 4)) as (r & k & E & Hk & Hr & Hlt & Hend); [lia|].
  unfold Bignum.op_mul in *. rewrite mul_law, CBigNum_int_value in Hr, Hlt, Hend by lia. exists r, (k + 1). rewrite Z.pow_add_r by lia. change (2 ^ 1) with 2.
  split_and!; [exact E|lia|lia| |lia]. intros j Hj. destruct (decide (j = 0)) as [->|]; [change (2 ^ 0) with 1; lia|].
  destruct (Hlt (j - 1)) as [H1 H2]; [lia|]. replace j with (j - 1 + 1) at 2 by lia. rewrite Z.pow_add_r by lia. change (2 ^ 1) with 2. lia.
Qed.
End min_work.

(** C25. The loop of [ComputeMinWork] ends after at most one step per 1800 seconds of the time it is given.
    A positive target is doubled at most 256 times; but a target that is not positive
    is doubled once for each of these periods, [nTime / 1800] rounded up, and
    [ContextualCheckBlockHeader] passes the time since the epoch. *)
Theorem ComputeMinWork_doublings `{OpenSSLLaws} params limit nBase nTime :
  NetworkIDString params = MAIN → 0 <= nBase < 2 ^ 32 → 0 < bn_value limit < 2 ^ 256 →
  ∃ bn k, min_work_loop (Z.to_nat (nTime / 1800 + 1)) limit (Bignum.SetCompact nBase) nTime = Some bn ∧
    ComputeMinWork params limit nBase nTime = Some (limit, GetCompact (if op_gt bn limit then limit else bn)) ∧
    0 <= k ∧ bn_value bn = bn_value (Bignum.SetCompact nBase) * 2 ^ k ∧
    (0 < bn_value (Bignum.SetCompact nBase) → k <= 256) ∧
    (bn_value (Bignum.SetCompact nBase) <= 0 → 0 < nTime → k = (nTime + 1799) / 1800).
Proof.
  intros Hnet Hb HL. destruct (min_work_loop_spec limit (Z.to_nat (nTime / 1800 + 1)) (Bignum.SetCompact nBase) nTime) as (bn & k & E & Hk & Hv & Hlt & Hend); [zlia|].
  exists bn, k. split; [exact E|]. split_and!; [|done|done| |].
  - unfold ComputeMinWork, fTestNet. rewrite Hnet. rewrite !bool_decide_eq_false_2 by done. change (150 * 3 * 4) with 1800. by rewrite E.
  - intros Hp. destruct (decide (k <= 256)) as [|Hgt]; [done|]. destruct (Hlt 256) as [_ Hj]; [lia|]. nia.
  - intros Hn Ht. assert (0 < k) as Hk0 by (destruct (decide (k = 0)) as [->|]; [|lia]; destruct Hend as [|He]; [lia|]; change (2 ^ 0) with 1 in He; lia).
    destruct (Hlt (k - 1)) as [Hj _]; [lia|]. assert (0 < 2 ^ k) by lia. destruct Hend as [He|He]; [|nia].
    apply Z.div_unique_pos with (nTime + 1799 - 1800 * k); lia.
Qed.
(** A parent whose target is -1, in November 2017: 839000 doublings. *)
Lemma ComputeMinWork_doublings_witness : ∃ bn,
  min_work_loop (Z.to_nat (1510200000 / 1800 + 1)) bnProofOfWorkLimit (Bignum.SetCompact 0x01810000) 1510200000 = Some bn ∧ bn_value bn = -1 * 2 ^ 839000.
Proof.
  destruct (ComputeMinWork_doublings sample_pow_params bnProofOfWorkLimit 0x01810000 1510200000) as (bn & k & E & _ & _ & Hv & _ & Hk).
  - reflexivity.
  - lia.
  - split; vm_compute; reflexivity.
  - exists bn. split; [exact E|]. rewrite Hv, (Hk ltac:(vm_compute; discriminate) ltac:(lia)).
    change (bn_value (Bignum.SetCompact 0x01810000)) with (-1). change ((1510200000 + 1799) / 1800) with 839000. exact (eq_refl _).
Defined.
End Pow.
