(* ===== verification/HeaderCheck.v ===== *)
(** * HeaderCheck: the acceptance of a header ([main.cpp], [checkpoints.cpp], [pos.cpp], [consensus/validation.h])

    [AcceptBlockHeader] with every check it makes, over the block index, the verdict of the
    validation state and the two static limits of the work.  The theorems give its verdict
    exactly, and show what the accepted headers have in common: the index stays well formed and the
    times of its blocks stay above their medians, which the states of the deployments rely on. *)
From Stdlib Require Import String.
From stdpp Require Import sorting.
From S2P Require Import Prelude ArithUint256 Chain VersionBits Bignum Pow.
Open Scope Z_scope.
Open Scope list_scope.

Module HeaderCheck.
Import Chain VersionBits Bignum Pow.

(** ** The validation state *)
Definition REJECT_INVALID : Z := 0x10.
Definition REJECT_OBSOLETE : Z := 0x11.
Inductive mode_state := MODE_VALID | MODE_INVALID | MODE_ERROR.
(** The message for the log is left out. *)
Record CValidationState := mkValidation { mode : mode_state; nDoS : Z; strRejectReason : string; chRejectCode : Z; corruptionPossible : bool }.
Definition DoS (level : Z) (ret : bool) (code : Z) (reason : string) (corruptionIn : bool) (state : CValidationState) : CValidationState * bool :=
  match mode state with
  | MODE_ERROR => (mkValidation MODE_ERROR (nDoS state) reason code corruptionIn, ret)
  | _ => (mkValidation MODE_INVALID (nDoS state + level) reason code corruptionIn, ret)
  end.
Definition Invalid (ret : bool) (code : Z) (reason : string) (state : CValidationState) : CValidationState * bool := DoS 0 ret code reason false state.

(** ** Rules on the index *)
Definition ZerocoinGetNHeight (st : index_state) (block : CBlockHeader) : option Z :=
  match mapBlockIndex st !! hashPrevBlock block with
  | Some p => b ← blocks st !! p; Some (nHeight b + 1)
  | None => Some 0
  end.
(** The last checkpoint of the map whose block is known; the map is in the order of the heights. *)
Definition GetLastCheckpoint (mapCheckpoints : list (Z * list Z)) (st : index_state) : option ptr :=
  foldr (λ i r, match mapBlockIndex st !! i.2 with Some t => Some t | None => r end) None (rev mapCheckpoints).
Definition CheckCoinStakeTimestamp (nTimeBlock nTimeTx : Z) : bool := nTimeBlock =? nTimeTx.
Definition CheckStakeBlockTimestamp (nTimeBlock : Z) : bool := CheckCoinStakeTimestamp nTimeBlock nTimeBlock.
(** One step per block of the window. *)
Fixpoint majority_loop (n : nat) (A : arena) (minVersion : Z) (pstart : option ptr) (nRequired nFound : Z) : option Z :=
  match n, pstart with
  | S n, Some p =>
      if nFound <? nRequired then
        b ← A !! p; majority_loop n A minVersion (pprev b) nRequired (if minVersion <=? bi_nVersion b then u32 (nFound + 1) else nFound)
      else Some nFound
  | _, _ => Some nFound
  end.
Definition IsSuperMajority (params : Params) (A : arena) (minVersion : Z) (pstart : option ptr) (nRequired : Z) : option bool :=
  nFound ← majority_loop (Z.to_nat (nMajorityWindow params)) A minVersion pstart nRequired 0; Some (nRequired <=? nFound).
(** [strprintf] with [%08x] of one digit. *)
Definition bad_version (version : Z) : string :=
  ("bad-version(0x0000000" ++ (if (version - 1 =? 1)%Z then "1" else if (version - 1 =? 2)%Z then "2" else "3") ++ ")")%string.
Fixpoint version_loop (params : Params) (A : arena) (pindexPrev : ptr) (block : CBlockHeader) (versions : list Z) (state : CValidationState) : option (CValidationState * bool) :=
  match versions with
  | [] => Some (state, true)
  | version :: versions =>
      outdated ← if hb_nVersion block <? version then IsSuperMajority params A version (Some pindexPrev) (u32 (nMajorityRejectBlockOutdated params)) else Some false;
      if outdated : bool then Some (Invalid false REJECT_OBSOLETE (bad_version version) state) else version_loop params A pindexPrev block versions state
  end.

Section header.
Context `{OpenSSL} (params : Params) (mapCheckpoints : list (Z * list Z)) (fCheckpointsEnabled : bool).
Context (GetPoWHash : CBlockHeader → Z → list Z).
(** The statics [bnProofOfWorkLimit] of [pow.cpp] and of [main.cpp]. *)
Record limits := mkLimits { pow_limit : BIGNUM; main_limit : BIGNUM }.
(** What the uninitialised flags of [CheckProofOfWork] hold. *)
Context (junk : bool * bool).

Definition CheckBlockHeader (st : index_state) (g : limits) (state : CValidationState) (block : CBlockHeader) (fCheckPOW : bool) : option (limits * (CValidationState * bool)) :=
  nHeight ← ZerocoinGetNHeight st block;
  if bool_decide (NetworkIDString params = REGTEST) then Some (g, (state, true))
  else if (nHeight <=? nLastPOWBlock params) && fCheckPOW then
    let '(limit, ok) := CheckProofOfWork params junk.1 junk.2 (pow_limit g) (GetPoWHash block nHeight) (hb_nBits block) nHeight in
    let g := mkLimits limit (main_limit g) in
    if negb ok && ((233000 <? nHeight) || (nHeight =? 2 ^ 31 - 1)) then Some (g, DoS 50 false REJECT_INVALID "high-hash" false state)
    else Some (g, (state, true))
  else Some (g, (state, true)).

Definition CheckIndexAgainstCheckpoint (st : index_state) (pindexPrev : ptr) (state : CValidationState) : option (CValidationState * bool) :=
  b ← blocks st !! pindexPrev;
  if bool_decide (phashBlock b = hashGenesisBlock params) then Some (state, true)
  else
    let height := nHeight b + 1 in
    match GetLastCheckpoint mapCheckpoints st with
    | Some p => c ← blocks st !! p; Some (if height <? nHeight c then DoS 100 false 0 "" false state else (state, true))
    | None => Some (state, true)
    end.

(** The comparisons of the bits with the required ones decide nothing: their consequences are commented out. *)
Definition ContextualCheckBlockHeader (A : arena) (g : limits) (state : CValidationState) (block : CBlockHeader) (pindexPrev : ptr) (nAdjustedTime : Z) : option (limits * (CValidationState * bool)) :=
  prev ← A !! pindexPrev;
  '(limit, _) ← ComputeMinWork params (main_limit g) (nBits prev) nAdjustedTime;
  let g := mkLimits (pow_limit g) limit in
  g ← (if 230181 <? nHeight prev then '(limit, _) ← GetNextWorkRequired params A (pow_limit g) (Some pindexPrev); Some (mkLimits limit (main_limit g)) else Some g);
  let height := nHeight prev + 1 in
  if (nLastPOWBlock params <? height) && negb (CheckStakeBlockTimestamp (hb_nTime block)) then Some (g, DoS 50 false REJECT_INVALID "bad-pos-time" false state)
  else
    median ← GetMedianTimePast A pindexPrev;
    if hb_nTime block <=? median then Some (g, Invalid false REJECT_INVALID "time-too-old" state)
    else if nAdjustedTime + 2 * 60 * 60 <? hb_nTime block then Some (g, Invalid false REJECT_INVALID "time-too-new" state)
    else r ← version_loop params A pindexPrev block [2; 3; 4] state; Some (g, r).

Definition SetProofOfStake (b : CBlockIndex) : CBlockIndex := set_nStatus b (Z.lor (nStatus b) BLOCK_PROOF_OF_STAKE).
(** The end of the function, for a header that is new or that of the first block. *)
Definition store_header (st : index_state) (block : CBlockHeader) : option (index_state * ptr) :=
  '(st, p) ← AddToBlockIndex st block;
  b ← blocks st !! p;
  if nLastPOWBlock params <? nHeight b
  then Some (mkState (<[p := SetProofOfStake b]> (blocks st)) (mapBlockIndex st) (pindexBestHeader st) (setDirtyBlockIndex st), p)
  else Some (st, p).
(** The result, the pointer that is passed back, and everything that changes. *)
Record header_result := mkResult { r_st : index_state; r_limits : limits; r_state : CValidationState; r_pindex : option ptr; r_ok : bool }.
Definition AcceptBlockHeader (st : index_state) (g : limits) (state : CValidationState) (block : CBlockHeader) (nAdjustedTime : Z) (fProofOfStake : bool) : option header_result :=
  if bool_decide (hb_hash block = hashGenesisBlock params) then
    '(st, p) ← store_header st block; Some (mkResult st g state (Some p) true)
  else
    match mapBlockIndex st !! hb_hash block with
    | Some pindex =>
        b ← blocks st !! pindex;
        if negb (Z.land (nStatus b) BLOCK_FAILED_MASK =? 0) then let '(state, ok) := Invalid false 0 "duplicate" state in Some (mkResult st g state (Some pindex) ok)
        else Some (mkResult st g state (Some pindex) true)
    | None =>
        '(g, (state, ok)) ← CheckBlockHeader st g state block (negb fProofOfStake);
        if negb ok then Some (mkResult st g state None false)
        else
          match mapBlockIndex st !! hashPrevBlock block with
          | None => let '(state, ok) := DoS 10 false 0 "bad-prevblk" false state in Some (mkResult st g state None ok)
          | Some pindexPrev =>
              prev ← blocks st !! pindexPrev;
              if negb (Z.land (nStatus prev) BLOCK_FAILED_MASK =? 0)
              then let '(state, ok) := DoS 100 false REJECT_INVALID "bad-prevblk" false state in Some (mkResult st g state None ok)
              else
                '(state, ok) ← if fCheckpointsEnabled then CheckIndexAgainstCheckpoint st pindexPrev state else Some (state, true);
                if negb ok then Some (mkResult st g state None false)
                else
                  '(g, (state, ok)) ← ContextualCheckBlockHeader (blocks st) g state block pindexPrev nAdjustedTime;
                  if negb ok then Some (mkResult st g state None false)
                  else '(st, p) ← store_header st block; Some (mkResult st g state (Some p) true)
          end
    end.
End header.

(** ** The verdict *)
(** How many of the last blocks have the version. *)
Definition upgraded (A : arena) (n : nat) (p : option ptr) (v : Z) : Z :=
  match p with
  | Some p => Z.of_nat (List.length (List.filter (λ b, v <=? bi_nVersion b) (window A n p)))
  | None => 0
  end.
Definition outdated (params : Params) (A : arena) (p : ptr) (block : CBlockHeader) (v : Z) : bool :=
  (hb_nVersion block <? v) && (u32 (nMajorityRejectBlockOutdated params) <=? upgraded A (Z.to_nat (nMajorityWindow params)) (Some p) v).
(** The reason to reject a header whose parent has the median time [m]; nothing of the difficulty. *)
Definition header_verdict (params : Params) (A : arena) (p : ptr) (m : Z) (block : CBlockHeader) (nAdjustedTime : Z) : option (Z * string) :=
  if hb_nTime block <=? m then Some (REJECT_INVALID, "time-too-old"%string)
  else if nAdjustedTime + 7200 <? hb_nTime block then Some (REJECT_INVALID, "time-too-new"%string)
  else (λ v, (REJECT_OBSOLETE, bad_version v)) <$> List.find (outdated params A p block) [2; 3; 4].
Definition reject (r : option (Z * string)) (state : CValidationState) : CValidationState * bool :=
  match r with None => (state, true) | Some (code, reason) => Invalid false code reason state end.

Lemma omap_length {X Y} (f : X → option Y) l : (List.length (omap f l) <= List.length l)%nat.
Proof. induction l as [|x l IH]; [done|]. cbn. destruct (f x); cbn; lia. Qed.
Section majority.
Context (A : arena) (HA : wf_index A) (params : Params).
Lemma upgraded_bound n p v : 0 <= upgraded A n p v <= Z.of_nat n.
Proof using Type.
  destruct p as [p|]; unfold upgraded; [|lia]. split; [lia|]. pose proof (List.filter_length_le (λ b, v <=? bi_nVersion b) (window A n p)).
  unfold window in *. pose proof (omap_length (λ i, q ← up A i p; A !! q) (seq 0 n)) as Hl. rewrite length_seq in Hl. lia.
Qed.
Lemma majority_loop_spec v nRequired n : ∀ p nFound, (∀ q, p = Some q → is_Some (A !! q)) → 0 <= nFound → nFound + Z.of_nat n < 2 ^ 32 →
  ∃ r, majority_loop n A v p nRequired nFound = Some r ∧ (nRequired <=? r) = (nRequired <=? nFound + upgraded A n p v).
Proof using HA.
  induction n as [|n IH]; intros p nFound Hp H0 Hn.
  { exists nFound. split; [done|]. pose proof (upgraded_bound 0 p v). f_equal. lia. }
  destruct p as [p|]; [|exists nFound; split; [done|f_equal; cbn [upgraded]; lia]]. cbn [majority_loop]. destruct (Hp p eq_refl) as [b Eb].
  pose proof (upgraded_bound (S n) (Some p) v). destruct (Z.ltb_spec nFound nRequired) as [Hlt|Hge].
  2: { exists nFound. split; [done|]. rewrite !(proj2 (Z.leb_le nRequired _)) by lia. done. }
  rewrite Eb. cbn [mbind option_bind]. assert (upgraded A (S n) (Some p) v = (if v <=? bi_nVersion b then 1 else 0) + upgraded A n (pprev b) v) as ->.
  { unfold upgraded. rewrite (window_S A n p b Eb). cbn [List.filter]. destruct (pprev b); destruct (v <=? bi_nVersion b); cbn [List.length List.filter]; lia. }
  set (f := if v <=? bi_nVersion b then u32 (nFound + 1) else nFound). assert (f = nFound + (if v <=? bi_nVersion b then 1 else 0)) as Ef by (unfold f; destruct (v <=? bi_nVersion b); [rewrite u32_small|]; lia).
  destruct (IH (pprev b) f) as (r & Er & Hr).
  - intros q Eq. by eapply parent_lookup.
  - destruct (v <=? bi_nVersion b); lia.
  - destruct (v <=? bi_nVersion b); lia.
  - exists r. split; [done|]. rewrite Hr, Ef. f_equal. lia.
Qed.
Lemma IsSuperMajority_spec v p nRequired : is_Some (A !! p) → nMajorityWindow params < 2 ^ 31 →
  IsSuperMajority params A v (Some p) nRequired = Some (nRequired <=? upgraded A (Z.to_nat (nMajorityWindow params)) (Some p) v).
Proof using HA.
  intros Hp Hw. unfold IsSuperMajority. destruct (majority_loop_spec v nRequired (Z.to_nat (nMajorityWindow params)) (Some p) 0) as (r & -> & Hr); [by intros q [= <-]|lia|lia|].
  cbn [mbind option_bind]. by rewrite Hr.
Qed.
Lemma version_loop_spec p block versions state : is_Some (A !! p) → nMajorityWindow params < 2 ^ 31 →
  version_loop params A p block versions state = Some (reject ((λ v, (REJECT_OBSOLETE, bad_version v)) <$> List.find (outdated params A p block) versions) state).
Proof using HA.
  intros Hp Hw. induction versions as [|v versions IH]; [done|]. cbn [version_loop List.find]. unfold outdated at 1.
  destruct (hb_nVersion block <? v); [|cbn [mbind option_bind andb]; exact IH].
  rewrite IsSuperMajority_spec by done. cbn [mbind option_bind andb]. by destruct (_ <=? upgraded _ _ _ _).
Qed.
End majority.

Section contextual.
Context `{OpenSSLLaws} (params : Params).
Lemma GetNextWorkRequired_total A limit p last : wf_index A → A !! p = Some last → ∃ r, GetNextWorkRequired params A limit (Some p) = Some r.
Proof using All.
  intros HA Ep. unfold GetNextWorkRequired. rewrite Ep. cbn [mbind option_bind]. destruct (negb _); [by eexists|].
  destruct (lookback_total (Z.to_nat nLookbackInterval) A HA (Some p)) as (r & -> & Hr); [intros ? [= <-]; by eexists|]. cbn [mbind option_bind].
  destruct r as [q|]; [|by eexists]. destruct (Hr q eq_refl) as [first Eq]. rewrite Eq. cbn [mbind option_bind]. unfold Bignum.op_div.
  match goal with |- context [BN_div ?a ?b] => pose proof (div_law a b) as Hd; destruct (BN_div a b); [by eexists|] end.
  unfold CBigNum_int64 in Hd. rewrite setint64_value in Hd by (unfold nLookbackTimespan, nLookbackInterval, nTargetSpacing; lia). done.
Qed.
Lemma ComputeMinWork_total limit nBase nTime : ∃ r, ComputeMinWork params limit nBase nTime = Some r.
Proof using All.
  unfold ComputeMinWork. destruct (fTestNet params); [by eexists|]. destruct (bool_decide _); [by eexists|].
  destruct (min_work_loop_spec limit (Z.to_nat (nTime / (150 * 3 * 4) + 1)) (Bignum.SetCompact nBase) nTime) as (bn & k & -> & _); [zlia|]. by eexists.
Qed.
Lemma ContextualCheckBlockHeader_spec A g state block p prev m nAdjustedTime : wf_index A → A !! p = Some prev → nMajorityWindow params < 2 ^ 31 → GetMedianTimePast A p = Some m →
  ∃ g', ContextualCheckBlockHeader params A g state block p nAdjustedTime = Some (g', reject (header_verdict params A p m block nAdjustedTime) state).
Proof using All.
  intros HA Ep Hw Em. unfold ContextualCheckBlockHeader. rewrite Ep. cbn [mbind option_bind].
  destruct (ComputeMinWork_total (main_limit g) (nBits prev) nAdjustedTime) as ([l1 c1] & ->). cbn [mbind option_bind pow_limit main_limit].
  set (g1 := if 230181 <? nHeight prev then _ else _). assert (∃ g', g1 = Some g') as (g' & ->).
  { unfold g1. destruct (230181 <? nHeight prev); [|by eexists]. destruct (GetNextWorkRequired_total A (pow_limit g) p prev HA Ep) as ([l2 c2] & ->). by eexists. }
  cbn [mbind option_bind]. unfold CheckStakeBlockTimestamp, CheckCoinStakeTimestamp. rewrite Z.eqb_refl. cbn [negb]. rewrite andb_false_r. rewrite Em. cbn [mbind option_bind].
  exists g'. unfold header_verdict. destruct (hb_nTime block <=? m); [done|]. change (2 * 60 * 60) with 7200. destruct (nAdjustedTime + 7200 <? hb_nTime block); [done|].
  rewrite version_loop_spec by (done || by eexists). done.
Qed.
End contextual.

(** ** What every index of accepted headers has *)
Definition null_hash : list Z := replicate 32 0.
Record header_inv (st : index_state) : Prop := {
  hi_wf : wf_state st;
  hi_times : times_ok (blocks st);
  hi_null : mapBlockIndex st !! null_hash = None }.
(** A header whose hash is not that of its parent nor zero, and only the first block has no parent. *)
Definition header_ok (params : Params) (block : CBlockHeader) : Prop :=
  0 <= hb_nBits block < 2 ^ 32 ∧ hb_hash block ≠ hashPrevBlock block ∧ hb_hash block ≠ null_hash ∧
  (hb_hash block = hashGenesisBlock params → hashPrevBlock block = null_hash).
Lemma header_inv_init : header_inv (mkState [] ∅ None ∅).
Proof. split; [apply wf_state_init|intros p b q m Eb; by destruct p|apply lookup_empty]. Qed.

Lemma times_snoc A b : wf_index A → times_ok A → (∀ q, pprev b = Some q → is_Some (A !! q) ∧ ∀ m, GetMedianTimePast A q = Some m → m < GetBlockTime b) → times_ok (A ++ [b]).
Proof.
  intros HA Ht Hb p c q m Ec Eq Em. apply lookup_app_Some in Ec as [Ec|[Hl Ec]].
  - rewrite (ext_median A _ HA (extends_app A b)) in Em by (by eapply parent_lookup). by eapply Ht.
  - apply list_lookup_singleton_Some in Ec as [_ <-]. destruct (Hb q Eq) as [Hq Hm]. rewrite (ext_median A _ HA (extends_app A b)) in Em by done. by apply Hm.
Qed.
(** Entries that keep their links and times. *)
Lemma times_same A B : wf_index A → extends A B → List.length A = List.length B → times_ok A → times_ok B.
Proof.
  intros HA HE Hl Ht p c q m Ec Eq Em. destruct (lookup_lt_is_Some_2 A p) as [b Eb]; [rewrite Hl; by eapply lookup_lt_Some|].
  destruct (ext_lookup A B HE p b Eb) as (c' & Ec' & Hp & _ & Htm & _). assert (c' = c) as -> by congruence. rewrite Hp in Eq.
  rewrite (ext_median A B HA HE) in Em by (by eapply parent_lookup). rewrite Htm. by eapply Ht.
Qed.
Lemma stake_inv st p b : header_inv st → blocks st !! p = Some b →
  header_inv (mkState (<[p := SetProofOfStake b]> (blocks st)) (mapBlockIndex st) (pindexBestHeader st) (setDirtyBlockIndex st)).
Proof.
  intros [Hw Ht Hn] Eb. split; [| |done].
  - apply (wf_state_same st); [|done|done|exact Hw]. cbn [blocks]. by apply (map_insert_same bones _ p b).
  - eapply (times_same (blocks st)); [apply Hw|by apply (extends_insert _ p b)|cbn [blocks]; by rewrite length_insert|done].
Qed.

Section add.
Context (params : Params).
(** Adding a header that is later than the median time of its parent, or one that is known. *)
Lemma store_header_spec st block : header_inv st → header_ok params block →
  (mapBlockIndex st !! hb_hash block = None → ∀ q m, mapBlockIndex st !! hashPrevBlock block = Some q → GetMedianTimePast (blocks st) q = Some m → m < hb_nTime block) →
  ∃ st' p b, store_header params st block = Some (st', p) ∧ header_inv st' ∧ extends (blocks st) (blocks st') ∧ blocks st' !! p = Some b ∧ phashBlock b = hb_hash block ∧
    mapBlockIndex st' = <[hb_hash block := p]> (mapBlockIndex st).
Proof using Type.
  intros HI (Hbits & Hne & Hnn & _) Hm. pose proof HI as [Hw Ht Hnull].
  assert (∃ st' p b, AddToBlockIndex st block = Some (st', p) ∧ header_inv st' ∧ extends (blocks st) (blocks st') ∧ blocks st' !! p = Some b ∧ phashBlock b = hb_hash block ∧
    mapBlockIndex st' = <[hb_hash block := p]> (mapBlockIndex st)) as (st1 & p & b & E & HI1 & HE & Eb & Hph & Hmap).
  { destruct (mapBlockIndex st !! hb_hash block) as [p|] eqn:Enew.
    - destruct (ws_map st Hw _ _ Enew) as (b & Eb & Hb). exists st, p, b. unfold AddToBlockIndex. rewrite Enew. split_and!; try done; [|by rewrite insert_id]. intros q c Ec. by exists c.
    - destruct (AddToBlockIndex_spec st block Hw Hbits Hne Enew) as (b & h & E & Hw' & Hph & Hp & _ & _ & _ & _ & _ & Htime).
      eexists _, _, b. split; [exact E|]. cbn [blocks mapBlockIndex]. split_and!; [|apply extends_app|apply lookup_snoc_len|done|done]. split; [done| |].
      + cbn [blocks]. apply times_snoc; [apply Hw|done|]. intros q Eq. rewrite Hp in Eq. destruct (ws_map st Hw _ _ Eq) as (c & Ec & _). split; [by eexists|].
        intros m Em. unfold GetBlockTime. rewrite Htime. by eapply Hm.
      + cbn [mapBlockIndex]. by rewrite lookup_insert_ne. }
  unfold store_header. rewrite E. cbn [mbind option_bind]. rewrite Eb. cbn [mbind option_bind].
  destruct (nLastPOWBlock params <? nHeight b); [|by exists st1, p, b].
  eexists _, p, (SetProofOfStake b). split; [done|]. cbn [blocks mapBlockIndex]. split_and!; [by apply stake_inv| | |done|done].
  - eapply extends_trans; [exact HE|]. by apply (extends_insert _ p b).
  - by rewrite list_lookup_insert_eq by (by eapply lookup_lt_Some).
Qed.
End add.

Section accept.
Context `{OpenSSLLaws} (params : Params) (mapCheckpoints : list (Z * list Z)) (fCheckpointsEnabled : bool).
Context (GetPoWHash : CBlockHeader → Z → list Z) (junk : bool * bool).
Notation accept := (AcceptBlockHeader params mapCheckpoints fCheckpointsEnabled GetPoWHash junk).

(** A check passes and leaves the state, or fails and makes it invalid. *)
Definition verdict_ok (state : CValidationState) (r : CValidationState * bool) : Prop :=
  r = (state, true) ∨ r.2 = false ∧ (mode state = MODE_VALID → mode r.1 = MODE_INVALID).
Lemma DoS_verdict level code reason c state : verdict_ok state (DoS level false code reason c state).
Proof using Type. right. unfold DoS. destruct (mode state) eqn:E; done. Qed.
Lemma DoS_false level code reason c state : (DoS level false code reason c state).2 = false.
Proof using Type. unfold DoS. by destruct (mode state). Qed.

(** *** The rules *)
(** The target of the bits is positive and within the limit, and the hash is at most the target, except at the
    height that stands for an unknown one and below 233000.  The flags that are never assigned must happen to be
    false. *)
Definition work_rule (hash : list Z) (bits height : Z) : Prop :=
  let target := ArithUint256.compact_number bits mod 2 ^ 256 in
  junk = (false, false) ∧ 0 < target <= Radix.eval 256 (powLimit params) ∧
  (height = 2 ^ 31 - 1 ∨ height < 233000 ∨ Radix.eval 256 hash <= target).
(** The block of the last checkpoint that is known, by its place in the list. *)
Definition last_checkpoint (st : index_state) (t : ptr) : Prop :=
  ∃ l1 i l2, mapCheckpoints = l1 ++ i :: l2 ∧ mapBlockIndex st !! i.2 = Some t ∧ Forall (λ j, mapBlockIndex st !! j.2 = None) l2.
(** Every rule on a header that is neither known nor that of the first block.  Its parent is known and has not failed;
    in the phase of the work, and above height 233000, it has the work; it is not below the last known checkpoint, and its time
    and its version are right. *)
Definition header_passes (st : index_state) (block : CBlockHeader) (nAdjustedTime : Z) (fProofOfStake : bool) : Prop :=
  ∃ q prev m, mapBlockIndex st !! hashPrevBlock block = Some q ∧ blocks st !! q = Some prev ∧
    let height := nHeight prev + 1 in
    Z.land (nStatus prev) BLOCK_FAILED_MASK = 0 ∧
    (NetworkIDString params ≠ REGTEST → fProofOfStake = false → height <= nLastPOWBlock params → 233000 < height ∨ height = 2 ^ 31 - 1 →
       work_rule (GetPoWHash block height) (hb_nBits block) height) ∧
    (fCheckpointsEnabled = true → phashBlock prev ≠ hashGenesisBlock params →
       ∀ t c, last_checkpoint st t → blocks st !! t = Some c → nHeight c <= height) ∧
    GetMedianTimePast (blocks st) q = Some m ∧ header_verdict params (blocks st) q m block nAdjustedTime = None.
(** The sizes of the two numbers of 256 bits. *)
Definition sizes_ok : Prop :=
  (List.length (powLimit params) = 32%nat ∧ Radix.digits 256 (powLimit params)) ∧
  ∀ b h, List.length (GetPoWHash b h) = 32%nat ∧ Radix.digits 256 (GetPoWHash b h).

Lemma CheckProofOfWork_rule limit b h bits height : sizes_ok → 0 <= bits < 2 ^ 32 →
  (CheckProofOfWork params junk.1 junk.2 limit (GetPoWHash b h) bits height).2 = true ↔ work_rule (GetPoWHash b h) bits height.
Proof using Type.
  intros [[Hl Hd] Hs] Hb. unfold CheckProofOfWork, work_rule. destruct (ArithUint256.SetCompact_value bits Hb) as (v & -> & Hv & Vv).
  destruct (ArithUint256.UintToArith256_spec _ Hl Hd) as [Wl Vl]. destruct (Hs b h) as [Hl' Hd']. destruct (ArithUint256.UintToArith256_spec _ Hl' Hd') as [Wh Vh].
  rewrite (ArithUint256.EqualTo_spec ArithUint256.WIDTH256) by (done || unfold ArithUint256.WIDTH256; lia). rewrite !ArithUint256.CompareTo_spec by done. rewrite Vl, Vh, Vv. cbv zeta.
  set (T := _ mod 2 ^ 256). assert (0 <= T) as HT by (apply Z.mod_pos_bound; lia). set (L := Radix.eval 256 (powLimit params)). set (N := Radix.eval 256 (GetPoWHash b h)).
  assert (∀ x, (0 <? Z.sgn x) = (0 <? x)) as Hsgn by (intros x; destruct x; done). rewrite !Hsgn.
  destruct junk as [[] []]; cbn [fst snd orb]; try (split; [done|intros [[=] _]]).
  - rewrite orb_true_r. cbn [orb]. split; [done|intros [[=] _]].
  - rewrite orb_false_r. destruct (Z.eqb_spec T 0); cbn [orb]; [split; [done|lia]|]. destruct (Z.ltb_spec 0 (T - L)); [split; [done|lia]|].
    destruct (Z.eqb_spec height (2 ^ 31 - 1)); cbn [orb]; [split; [|done]; intros _; split; [done|lia]|].
    destruct (Z.ltb_spec height 233000); [split; [|done]; intros _; split; [done|lia]|]. destruct (Z.ltb_spec 0 (N - T)); cbn [snd]; (split; [|lia || done]); [done|]. intros _. split; [done|lia].
Qed.
(** The check fails with the reason [high-hash] or passes, by the rule. *)
Lemma CheckBlockHeader_total st g state block pos : wf_state st → ∃ g' r, CheckBlockHeader params GetPoWHash junk st g state block (negb pos) = Some (g', r) ∧ verdict_ok state r ∧
  (sizes_ok → 0 <= hb_nBits block < 2 ^ 32 → ∀ q prev, mapBlockIndex st !! hashPrevBlock block = Some q → blocks st !! q = Some prev →
   let height := nHeight prev + 1 in
   r.2 = true ↔ (NetworkIDString params ≠ REGTEST → pos = false → height <= nLastPOWBlock params → 233000 < height ∨ height = 2 ^ 31 - 1 → work_rule (GetPoWHash block height) (hb_nBits block) height)).
Proof using Type.
  intros Hw. unfold CheckBlockHeader. destruct (ZerocoinGetNHeight st block) as [n|] eqn:En.
  2: { unfold ZerocoinGetNHeight in En. destruct (mapBlockIndex st !! hashPrevBlock block) as [p|] eqn:E; [|done]. destruct (ws_map st Hw _ _ E) as (b & Eb & _). by rewrite Eb in En. }
  assert (∀ q prev, mapBlockIndex st !! hashPrevBlock block = Some q → blocks st !! q = Some prev → n = nHeight prev + 1) as Hn.
  { intros q prev Eq Ep. unfold ZerocoinGetNHeight in En. rewrite Eq, Ep in En. by injection En. }
  cbn [mbind option_bind]. destruct (bool_decide (NetworkIDString params = REGTEST)) eqn:Er.
  { apply bool_decide_eq_true in Er. do 2 eexists. split_and!; [done|by left|done]. }
  destruct (Z.leb_spec n (nLastPOWBlock params)) as [Hle|Hgt]; cbn [andb].
  2: { do 2 eexists. split_and!; [done|by left|]. intros _ _ q prev Eq Ep. rewrite <- (Hn q prev Eq Ep). cbn. split; [lia|done]. }
  destruct pos; cbn [negb]. { do 2 eexists. split_and!; [done|by left|]. intros _ _ q prev Eq Ep. by split. }
  pose proof (λ Hs Hb, CheckProofOfWork_rule (pow_limit g) block n (hb_nBits block) n Hs Hb) as Hrule.
  apply bool_decide_eq_false in Er. destruct (CheckProofOfWork _ _ _ _ _ _ _) as [l ok]. cbn [snd] in Hrule.
  assert ((233000 <? n) || (n =? 2 ^ 31 - 1) = true ↔ 233000 < n ∨ n = 2 ^ 31 - 1) as Hh by (rewrite orb_true_iff, Z.ltb_lt, Z.eqb_eq; done).
  destruct (negb ok && _) eqn:Ec; do 2 eexists; (split; [done|]); (split; [apply DoS_verdict || by left|]); intros Hs Hb q prev Eq Ep; rewrite <- (Hn q prev Eq Ep); cbn zeta.
  - rewrite DoS_false. apply andb_true_iff in Ec as [Eo Ec%Hh]. split; [done|]. intros Hr. apply Hrule in Hr; [by rewrite Hr in Eo|done..].
  - cbn [snd]. split; [|done]. intros _ _ _ _ Hc%Hh. apply Hrule; [done..|]. rewrite Hc, andb_true_r in Ec. by destruct ok.
Qed.
Lemma GetLastCheckpoint_spec st t : GetLastCheckpoint mapCheckpoints st = Some t ↔ last_checkpoint st t.
Proof using Type.
  unfold GetLastCheckpoint, last_checkpoint. induction mapCheckpoints as [|i l IH] using rev_ind.
  { split; [done|]. intros (l1 & i & l2 & E & _). by destruct l1. }
  rewrite rev_unit. cbn [foldr]. destruct (mapBlockIndex st !! i.2) as [t'|] eqn:Ei.
  - split; [intros [= ->]; by exists l, i, []|]. intros (l1 & j & l2 & E & Ej & Hf). destruct l2 as [|z l2 _] using rev_ind.
    + apply app_inj_tail in E as [_ ->]. congruence.
    + rewrite app_comm_cons, app_assoc in E. apply app_inj_tail in E as [_ ->]. rewrite Forall_app, Forall_singleton in Hf. destruct Hf as [_ Hf]. congruence.
  - rewrite IH. split; intros (l1 & j & l2 & E & Ej & Hf).
    + exists l1, j, (l2 ++ [i]). rewrite E, <- app_assoc. split_and!; [done|done|]. by rewrite Forall_app, Forall_singleton.
    + destruct l2 as [|z l2 _] using rev_ind; [apply app_inj_tail in E as [_ ->]; congruence|]. rewrite app_comm_cons, app_assoc in E. apply app_inj_tail in E as [-> ->].
      rewrite Forall_app in Hf. destruct Hf as [Hf _]. by exists l1, j, l2.
Qed.
Lemma checkpoint_entry st p : wf_state st → last_checkpoint st p → is_Some (blocks st !! p).
Proof using Type. intros Hw (l1 & i & l2 & _ & E & _). destruct (ws_map st Hw _ _ E) as (b & -> & _). by eexists. Qed.
Lemma CheckIndexAgainstCheckpoint_total st p prev state : wf_state st → blocks st !! p = Some prev →
  ∃ r, CheckIndexAgainstCheckpoint params mapCheckpoints st p state = Some r ∧ verdict_ok state r ∧
    (r.2 = true ↔ (phashBlock prev ≠ hashGenesisBlock params → ∀ t c, last_checkpoint st t → blocks st !! t = Some c → nHeight c <= nHeight prev + 1)).
Proof using Type.
  intros Hw Eb. unfold CheckIndexAgainstCheckpoint. rewrite Eb. cbn [mbind option_bind]. destruct (bool_decide (phashBlock prev = _)) eqn:Eg.
  { apply bool_decide_eq_true in Eg. eexists. split; [done|]. split; [by left|done]. }
  apply bool_decide_eq_false in Eg. destruct (GetLastCheckpoint mapCheckpoints st) as [q|] eqn:Eq.
  - apply GetLastCheckpoint_spec in Eq as Hq. destruct (checkpoint_entry st q Hw Hq) as [c Ec]. rewrite Ec. cbn [mbind option_bind].
    eexists. split; [done|]. destruct (Z.ltb_spec (nHeight prev + 1) (nHeight c)); (split; [apply DoS_verdict || by left|]).
    + rewrite DoS_false. split; [done|]. intros Hr. specialize (Hr Eg q c Hq Ec). lia.
    + split; [|done]. intros _ _ t c' Ht Ec'. apply GetLastCheckpoint_spec in Ht. assert (c' = c) as -> by congruence. done.
  - eexists. split; [done|]. split; [by left|]. split; [|done]. intros _ _ t c Ht. apply GetLastCheckpoint_spec in Ht. congruence.
Qed.

(** *** The outcome *)
(** What an accepted header gives: its entry; a known one had not failed, and a new one passes every rule. *)
Definition accepted (st : index_state) (state : CValidationState) (block : CBlockHeader) (nAdjustedTime : Z) (fProofOfStake : bool) (r : header_result) : Prop :=
  r_state r = state ∧ (∃ p b, r_pindex r = Some p ∧ blocks (r_st r) !! p = Some b ∧ phashBlock b = hb_hash block ∧ mapBlockIndex (r_st r) = <[hb_hash block := p]> (mapBlockIndex st)) ∧
  (hb_hash block ≠ hashGenesisBlock params →
   match mapBlockIndex st !! hb_hash block with
   | Some p => ∃ b, blocks st !! p = Some b ∧ Z.land (nStatus b) BLOCK_FAILED_MASK = 0
   | None => sizes_ok → header_passes st block nAdjustedTime fProofOfStake
   end).
(** A rejected header leaves the index; a known one had failed, and a new one breaks a rule. *)
Definition rejected (st : index_state) (state : CValidationState) (block : CBlockHeader) (nAdjustedTime : Z) (fProofOfStake : bool) (r : header_result) : Prop :=
  r_st r = st ∧ (mode state = MODE_VALID → mode (r_state r) = MODE_INVALID) ∧ hb_hash block ≠ hashGenesisBlock params ∧
  match mapBlockIndex st !! hb_hash block with
  | Some p => ∃ b, blocks st !! p = Some b ∧ Z.land (nStatus b) BLOCK_FAILED_MASK ≠ 0
  | None => sizes_ok → ¬ header_passes st block nAdjustedTime fProofOfStake
  end.
Definition outcome (st : index_state) (state : CValidationState) (block : CBlockHeader) (nAdjustedTime : Z) (fProofOfStake : bool) (r : header_result) : Prop :=
  header_inv (r_st r) ∧ extends (blocks st) (blocks (r_st r)) ∧
  if r_ok r then accepted st state block nAdjustedTime fProofOfStake r else rejected st state block nAdjustedTime fProofOfStake r.
Lemma extends_refl A : extends A A.
Proof using Type. intros p b Eb. by exists b. Qed.
Lemma rejects st g state block t pos q (v : CValidationState * bool) : header_inv st → verdict_ok state v → v.2 = false → hb_hash block ≠ hashGenesisBlock params →
  mapBlockIndex st !! hb_hash block = None → (sizes_ok → ¬ header_passes st block t pos) →
  ∃ r, (let '(s, ok) := v in Some (mkResult st g s q ok)) = Some r ∧ outcome st state block t pos r.
Proof using Type.
  intros HI Hv E Hg Hnew Hn. destruct v as [s ok]. cbn [snd] in E. subst ok. destruct Hv as [[=]|[_ Hv]]. eexists. split; [done|]. split; [done|]. split; [apply extends_refl|].
  split_and!; [done|done|done|]. by rewrite Hnew.
Qed.
(** A new header whose parent is at hand: what decides whether it passes. *)
Lemma header_passes_parent st block t pos q prev m : mapBlockIndex st !! hashPrevBlock block = Some q → blocks st !! q = Some prev → GetMedianTimePast (blocks st) q = Some m →
  header_passes st block t pos ↔
  let height := nHeight prev + 1 in
  Z.land (nStatus prev) BLOCK_FAILED_MASK = 0 ∧
  (NetworkIDString params ≠ REGTEST → pos = false → height <= nLastPOWBlock params → 233000 < height ∨ height = 2 ^ 31 - 1 → work_rule (GetPoWHash block height) (hb_nBits block) height) ∧
  (fCheckpointsEnabled = true → phashBlock prev ≠ hashGenesisBlock params → ∀ t c, last_checkpoint st t → blocks st !! t = Some c → nHeight c <= height) ∧
  header_verdict params (blocks st) q m block t = None.
Proof using Type.
  intros Eq Ep Em. split.
  - intros (q' & prev' & m' & Eq' & Ep' & H1 & H2 & H3 & Em' & H4). assert (q' = q) as -> by congruence. assert (prev' = prev) as -> by congruence. assert (m' = m) as -> by congruence. done.
  - intros (H1 & H2 & H3 & H4). by exists q, prev, m.
Qed.
Lemma header_verdict_time A q m block t : header_verdict params A q m block t = None → m < hb_nTime block ∧ hb_nTime block <= t + 7200.
Proof using Type. unfold header_verdict. destruct (Z.leb_spec (hb_nTime block) m); [done|]. destruct (Z.ltb_spec (t + 7200) (hb_nTime block)); [done|]. lia. Qed.

Lemma AcceptBlockHeader_new st g state block t pos : header_inv st → header_ok params block → nMajorityWindow params < 2 ^ 31 →
  hb_hash block ≠ hashGenesisBlock params → mapBlockIndex st !! hb_hash block = None →
  ∃ r, accept st g state block t pos = Some r ∧ outcome st state block t pos r.
Proof using All.
  intros HI Hok Hwin Eg Enew. pose proof HI as [Hw Ht Hnull]. pose proof Hok as (Hbits & _). unfold AcceptBlockHeader. rewrite bool_decide_eq_false_2, Enew by done.
  destruct (CheckBlockHeader_total st g state block pos Hw) as (g1 & [s1 ok1] & -> & Hv1 & Hr1). cbn [mbind option_bind snd] in *.
  destruct (mapBlockIndex st !! hashPrevBlock block) as [q|] eqn:Eq.
  2: { assert (sizes_ok → ¬ header_passes st block t pos) as Hn by (intros _ (q & prev & m & Eq' & _); congruence).
    destruct ok1; cbn [negb]; [|by apply (rejects st g1 state block t pos None (s1, false))]. destruct Hv1 as [[= ->]|[[=] _]]. apply rejects; [done|apply DoS_verdict|apply DoS_false|done..]. }
  destruct (ws_map st Hw _ _ Eq) as (prev & Ep & _). destruct (median_time_total (blocks st) (ws_index st Hw) q prev Ep) as [m Em].
  pose proof (header_passes_parent st block t pos q prev m Eq Ep Em) as Hp. cbv zeta in Hp.
  assert (sizes_ok → ok1 = true ↔ _) as Hr1' by (intros Hs; exact (Hr1 Hs Hbits q prev eq_refl Ep)). clear Hr1.
  destruct ok1; cbn [negb]; [|apply (rejects st g1 state block t pos None (s1, false)); try done; intros Hs (_ & Hwork & _)%Hp; by apply Hr1' in Hwork].
  destruct Hv1 as [[= ->]|[[=] _]]. rewrite Ep. cbn [mbind option_bind]. destruct (Z.eqb_spec (Z.land (nStatus prev) BLOCK_FAILED_MASK) 0) as [Ef|Ef]; cbn [negb].
  2: { apply rejects; [done|apply DoS_verdict|apply DoS_false|done..|]. by intros _ (? & _)%Hp. }
  set (cp := if fCheckpointsEnabled then _ else _). assert (∃ v, cp = Some v ∧ verdict_ok state v ∧
    (v.2 = true ↔ (fCheckpointsEnabled = true → phashBlock prev ≠ hashGenesisBlock params → ∀ t c, last_checkpoint st t → blocks st !! t = Some c → nHeight c <= nHeight prev + 1))) as ([s2 ok2] & -> & Hv2 & Hr2).
  { unfold cp. destruct fCheckpointsEnabled; [|eexists; split; [done|]; split; [by left|done]].
    destruct (CheckIndexAgainstCheckpoint_total st q prev state Hw Ep) as (v & -> & Hv & Hr). exists v. split_and!; [done|done|]. rewrite Hr. naive_solver. }
  cbn [mbind option_bind snd] in *. destruct ok2; cbn [negb]; [|apply (rejects st g1 state block t pos None (s2, false)); try done; intros _ (_ & _ & Hc & _)%Hp; by apply Hr2 in Hc].
  destruct Hv2 as [[= ->]|[[=] _]].
  destruct (ContextualCheckBlockHeader_spec params (blocks st) g1 state block q prev m t (ws_index st Hw) Ep Hwin Em) as (g2 & ->). cbn [mbind option_bind].
  destruct (header_verdict params (blocks st) q m block t) as [[code reason]|] eqn:Ev; cbn [reject].
  - pose proof (DoS_verdict 0 code reason false state) as Hv3. pose proof (DoS_false 0 code reason false state) as Hf3. unfold Invalid.
    destruct (DoS 0 false code reason false state) as [s3 ok3]. cbn [snd] in Hf3. subst ok3. apply (rejects st g2 state block t pos None (s3, false)); try done. by intros _ (_ & _ & _ & [=])%Hp.
  - cbn [negb]. destruct (header_verdict_time _ _ _ _ _ Ev) as [Hmt _]. destruct (store_header_spec params st block HI Hok) as (st' & p & b & -> & HI' & HE & Eb & Hph & Hm).
    { intros _ q' m' Eq' Em'. assert (q' = q) as -> by congruence. assert (m' = m) as -> by congruence. done. }
    cbn [mbind option_bind]. eexists. split; [done|]. split; [done|]. split; [done|]. split; [done|]. split; [by exists p, b|]. intros _. rewrite Enew. intros Hs. apply Hp. split_and!; [done| | |done].
    + by apply Hr1'.
    + by apply Hr2.
Qed.
Lemma AcceptBlockHeader_spec st g state block t pos : header_inv st → header_ok params block → nMajorityWindow params < 2 ^ 31 →
  ∃ r, accept st g state block t pos = Some r ∧ outcome st state block t pos r.
Proof using All.
  intros HI Hok Hwin. pose proof HI as [Hw Ht Hnull]. destruct (decide (hb_hash block = hashGenesisBlock params)) as [Eg|Eg].
  { unfold AcceptBlockHeader. rewrite bool_decide_eq_true_2 by done. destruct (store_header_spec params st block HI Hok) as (st' & p & b & -> & HI' & HE & Eb & Hph & Hm).
    { destruct Hok as (_ & _ & _ & Hgen). intros _ q m Eq. by rewrite (Hgen Eg), Hnull in Eq. }
    cbn [mbind option_bind]. eexists. split; [done|]. split; [done|]. split; [done|]. cbn [r_ok]. split; [done|]. split; [by exists p, b|done]. }
  destruct (mapBlockIndex st !! hb_hash block) as [p|] eqn:Enew; [|by apply AcceptBlockHeader_new].
  destruct (ws_map st Hw _ _ Enew) as (b & Eb & Hb). unfold AcceptBlockHeader. rewrite bool_decide_eq_false_2, Enew, Eb by done. cbn [mbind option_bind].
  destruct (Z.eqb_spec (Z.land (nStatus b) BLOCK_FAILED_MASK) 0) as [Ef|Ef]; cbn [negb].
  - eexists. split; [done|]. split; [done|]. split; [apply extends_refl|]. split; [done|]. split; [exists p, b; cbn [r_st r_pindex]; by rewrite insert_id|]. intros _. rewrite Enew. by exists b.
  - unfold Invalid. pose proof (DoS_verdict 0 0 "duplicate"%string false state) as Hv. pose proof (DoS_false 0 0 "duplicate"%string false state) as Hf.
    destruct (DoS 0 false 0 "duplicate"%string false state) as [s3 ok3]. cbn [snd] in Hf. subst ok3. destruct Hv as [[=]|[_ Hv]].
    eexists. split; [done|]. split; [done|]. split; [apply extends_refl|]. split_and!; [done|done|done|]. rewrite Enew. by exists b.
Qed.
End accept.

(** ** The machine *)
(** Headers that arrive and deployments that are asked for, in any order, over one index and one cache. *)
Section machine.
Context `{OpenSSLLaws} (params : Params) (mapCheckpoints : list (Z * list Z)) (fCheckpointsEnabled : bool).
Context (GetPoWHash : CBlockHeader → Z → list Z) (junk : bool * bool) (deployments : VersionBits.Params).
Record header_node := mkNode { nd_index : index_state; nd_limits : limits; nd_cache : VersionBitsCache }.
Definition node_init : header_node := mkNode (mkState [] ∅ None ∅) (mkLimits bnProofOfWorkLimit bnProofOfWorkLimit) (mkVersionBitsCache ∅ ∅ ∅).
Definition known (st : index_state) (p : option ptr) : Prop := ∀ q, p = Some q → is_Some (blocks st !! q).
Inductive node_step : header_node → header_node → Prop :=
| step_header n state block t pos r : header_ok params block →
    AcceptBlockHeader params mapCheckpoints fCheckpointsEnabled GetPoWHash junk (nd_index n) (nd_limits n) state block t pos = Some r →
    node_step n (mkNode (r_st r) (r_limits r) (nd_cache n))
| step_query n p pos cache s : known (nd_index n) p → VersionBitsState (blocks (nd_index n)) p deployments pos (nd_cache n) = Some (cache, s) →
    node_step n (mkNode (nd_index n) (nd_limits n) cache)
| step_clear n : node_step n (mkNode (nd_index n) (nd_limits n) (Clear (nd_cache n))).
(** A window for the majority that fits an [int]; positive periods, and no start after the timeout. *)
Definition params_ok : Prop := nMajorityWindow params < 2 ^ 31 ∧
  0 < i32 (nMinerConfirmationWindow deployments) ∧ ∀ pos, nStartTime (vDeployments deployments pos) <= nTimeout (vDeployments deployments pos).
Notation checker pos := (VersionBitsConditionChecker deployments pos).
Definition caches_ok (n : header_node) : Prop := ∀ pos, cache_ok (blocks (nd_index n)) (checker pos) (caches (nd_cache n) pos).

Lemma empty_cache_ok A k : cache_ok A k ∅.
Proof using Type. intros p s Hs. by rewrite lookup_empty in Hs. Qed.
Lemma query_spec st c p pos : params_ok → header_inv st → known st p → (∀ pos, cache_ok (blocks st) (checker pos) (caches c pos)) →
  ∃ m s, VersionBitsState (blocks st) p deployments pos c = Some (set_cache c pos m, s) ∧ cache_ok (blocks st) (checker pos) m ∧
    ∀ s', bip9 (blocks st) (checker pos) (period_end (blocks st) (checker pos) p) s' ↔ s' = s.
Proof using Type.
  intros (_ & HP & Hse) [Hw Ht _] Hp Hc. unfold VersionBitsState.
  destruct (GetStateFor_spec (blocks st) (ws_index st Hw) Ht (checker pos) HP (Hse pos) p (caches c pos) Hp (Hc pos)) as (m & s & -> & Hm & Hs). by exists m, s.
Qed.
Lemma node_step_inv n n' : params_ok → header_inv (nd_index n) ∧ caches_ok n → node_step n n' → header_inv (nd_index n') ∧ caches_ok n'.
Proof using H0.
  intros Hpar Hn Hs. destruct Hs as [n1 state block t pos r Hok E|n1 p pos cache s Hp E|n1]; destruct Hn as [HI Hc].
  - destruct (AcceptBlockHeader_spec params mapCheckpoints fCheckpointsEnabled GetPoWHash junk (nd_index n1) (nd_limits n1) state block t pos HI Hok (proj1 Hpar)) as (r' & E' & HI' & HE & _).
    assert (r' = r) as -> by congruence. split; [done|]. intros pos'. apply (ext_cache_ok (blocks (nd_index n1))); [apply HI|done|apply condition_version|apply Hc].
  - destruct (query_spec (nd_index n1) (nd_cache n1) p pos Hpar HI Hp Hc) as (m & s' & E' & Hm & _). rewrite E' in E. injection E as <- <-. split; [done|].
    intros pos'. cbn [nd_cache nd_index]. specialize (Hc pos'). by destruct pos, pos'.
  - split; [done|]. intros pos'. destruct pos'; apply empty_cache_ok.
Qed.
Lemma node_inv n : params_ok → rtc node_step node_init n → header_inv (nd_index n) ∧ caches_ok n.
Proof using H0.
  intros Hpar Hr. remember node_init as n0 eqn:E0. assert (header_inv (nd_index n0) ∧ caches_ok n0) as Hn0.
  { subst n0. split; [apply header_inv_init|]. intros pos. destruct pos; apply empty_cache_ok. }
  clear E0. induction Hr as [n|n0 n1 n2 Hs _ IH]; [done|]. apply IH. by eapply node_step_inv.
Qed.
End machine.

(** ** Properties *)
(** C26. The verdict on a header with a known parent.  [ContextualCheckBlockHeader] never fails, and
    rejects with [time-too-old] up to the median time of the parent, with [time-too-new] beyond two
    hours after the network time, and with [bad-version] for the least of the versions 2, 3 and
    4 that the header is below and that enough of the last blocks have; it accepts every other header
    and leaves the state.  The bits play no part: headers that differ only there get the same verdict. *)
Theorem ContextualCheckBlockHeader_verdict `{OpenSSLLaws} params A g state block p prev m nAdjustedTime :
  wf_index A → A !! p = Some prev → nMajorityWindow params < 2 ^ 31 → GetMedianTimePast A p = Some m →
  (∃ g', ContextualCheckBlockHeader params A g state block p nAdjustedTime = Some (g', reject (header_verdict params A p m block nAdjustedTime) state)) ∧
  (∀ bits, header_verdict params A p m (mkHeader (hb_hash block) (hb_nVersion block) (hashPrevBlock block) (hb_hashMerkleRoot block) (hb_nTime block) bits (hb_nNonce block)) nAdjustedTime =
           header_verdict params A p m block nAdjustedTime) ∧
  (header_verdict params A p m block nAdjustedTime = None ↔
   m < hb_nTime block <= nAdjustedTime + 7200 ∧
   ∀ v, v ∈ [2; 3; 4] → v <= hb_nVersion block ∨ upgraded A (Z.to_nat (nMajorityWindow params)) (Some p) v < u32 (nMajorityRejectBlockOutdated params)).
Proof.
  intros HA Ep Hw Em. split; [by eapply ContextualCheckBlockHeader_spec|]. split; [done|]. unfold header_verdict.
  destruct (Z.leb_spec (hb_nTime block) m); [split; [done|lia]|]. destruct (Z.ltb_spec (nAdjustedTime + 7200) (hb_nTime block)); [split; [done|lia]|].
  destruct (List.find (outdated params A p block) [2; 3; 4]) as [v|] eqn:Ef; cbn [fmap option_fmap option_map].
  - apply List.find_some in Ef as [Hin Ho]. split; [done|]. intros [_ Hall]. unfold outdated in Ho. apply andb_true_iff in Ho as [Ho1%Z.ltb_lt Ho2%Z.leb_le].
    destruct (Hall v); [by apply list_elem_of_In|lia|lia].
  - split; [|done]. intros _. split; [lia|]. intros v Hv. pose proof (List.find_none _ _ Ef v (proj1 (list_elem_of_In _ _) Hv)) as Ho. unfold outdated in Ho.
    apply andb_false_iff in Ho as [Ho%Z.ltb_ge|Ho%Z.leb_gt]; [by left|by right].
Qed.


(** C21. Deployments on the header chain.  On every node reached by accepting headers and asking for
    deployments, the state of a deployment at any block is the one that the rules give
    from the first block on: the early stop, the cache shared by all the branches and its reuse after
    the index has grown change nothing. *)
Theorem deployments_correct `{OpenSSLLaws} params mapCheckpoints fCheckpointsEnabled GetPoWHash junk deployments n p pos :
  params_ok params deployments → rtc (node_step params mapCheckpoints fCheckpointsEnabled GetPoWHash junk deployments) node_init n → known (nd_index n) p →
  let A := blocks (nd_index n) in
  let k := VersionBitsConditionChecker deployments pos in
  ∃ cache s, VersionBitsState A p deployments pos (nd_cache n) = Some (cache, s) ∧ ∀ s', bip9 A k (period_end A k p) s' ↔ s' = s.
Proof.
  intros Hpar Hr Hp A k. destruct (node_inv _ _ _ _ _ _ n Hpar Hr) as [HI Hc]. destruct (query_spec params deployments (nd_index n) (nd_cache n) p pos Hpar HI Hp Hc) as (m & s & E & _ & Hs).
  by exists (set_cache (nd_cache n) pos m), s.
Qed.

(** ** A node with two blocks *)
Definition sample_header_params : Params := mkParams MAIN [9] 950 1000 (replicate 32 255) (replicate 32 255) 150 450 551000.
Definition sample_deployments : VersionBits.Params := VersionBits.mkParams 2 3 (λ _, mkDeployment 1 0 1000).
Definition sample_genesis : CBlockHeader := mkHeader [9] 4 null_hash [] 100 0x1d00ffff 0.
Definition sample_child : CBlockHeader := mkHeader [8] 4 [9] [] 200 0x1d00ffff 0.
Definition sample_valid : CValidationState := mkValidation MODE_VALID 0 EmptyString 0 false.
Definition sample_pow (_ : CBlockHeader) (_ : Z) : list Z := replicate 32 7.
Notation sample_accept n block := (AcceptBlockHeader sample_header_params [] true sample_pow (false, false) (nd_index n) (nd_limits n) sample_valid block 1000 false).
Definition after (n : header_node) (r : option header_result) : header_node := match r with Some r => mkNode (r_st r) (r_limits r) (nd_cache n) | None => n end.
Definition sample_node : header_node := after node_init (sample_accept node_init sample_genesis).
Lemma sample_params_ok : params_ok sample_header_params sample_deployments.
Proof. split_and!; [cbn; lia|reflexivity|]. intros pos. cbn. lia. Qed.
Lemma sample_genesis_ok : header_ok sample_header_params sample_genesis.
Proof. split_and!; [cbn; lia..|done|done|done]. Qed.
Lemma sample_child_ok : header_ok sample_header_params sample_child.
Proof. split_and!; [cbn; lia..|done|done|done]. Qed.
Lemma sample_result : is_Some (sample_accept node_init sample_genesis).
Proof. apply (bool_decide_unpack _). vm_compute. exact I. Qed.
Lemma sample_node_reached : rtc (node_step sample_header_params [] true sample_pow (false, false) sample_deployments) node_init sample_node.
Proof.
  destruct sample_result as [r E]. apply rtc_once. assert (sample_node = mkNode (r_st r) (r_limits r) (nd_cache node_init)) as -> by (unfold sample_node; rewrite E; exact eq_refl).
  eapply step_header; [apply sample_genesis_ok|exact E].
Qed.
Lemma sample_sizes : sizes_ok sample_header_params sample_pow.
Proof. split; [|intros b h]; (split; [done|]); apply Forall_replicate; lia. Qed.
Lemma deployments_correct_witness : ∃ cache s, VersionBitsState (blocks (nd_index sample_node)) (Some 0%nat) sample_deployments DEPLOYMENT_CSV (nd_cache sample_node) = Some (cache, s).
Proof.
  destruct (deployments_correct sample_header_params [] true sample_pow (false, false) sample_deployments sample_node (Some 0%nat) DEPLOYMENT_CSV sample_params_ok sample_node_reached) as (c & s & E & _).
  - intros q [= <-]. vm_compute. eauto.
  - exists c, s. exact E.
Defined.
Definition sample_headers_chain : arena := straight (λ _, 4) (λ i, Z.of_nat i * 10) (λ _, 0x1d00ffff) 5.
Lemma ContextualCheckBlockHeader_verdict_witness : ∃ g,
  ContextualCheckBlockHeader sample_header_params sample_headers_chain (mkLimits bnProofOfWorkLimit bnProofOfWorkLimit) sample_valid sample_child 4 1000 = Some (g, (sample_valid, true)).
Proof.
  destruct (ContextualCheckBlockHeader_verdict sample_header_params sample_headers_chain (mkLimits bnProofOfWorkLimit bnProofOfWorkLimit) sample_valid sample_child 4
    (straight_block (λ _, 4) (λ i, Z.of_nat i * 10) (λ _, 0x1d00ffff) 4) 20 1000) as [(g & E) _].
  - apply straight_wf.
  - reflexivity.
  - cbn. lia.
  - vm_compute. reflexivity.
  - exists g. rewrite E. assert (header_verdict sample_header_params sample_headers_chain 4 20 sample_child 1000 = None) as -> by (vm_compute; reflexivity). exact eq_refl.
Defined.
(** The child is accepted, a header at the median time is not, and the difficulty of either is not looked at. *)
Example sample_verdicts : map (λ h, (λ r, (r_ok r, strRejectReason (r_state r))) <$> sample_accept sample_node h)
    [sample_child; mkHeader [8] 4 [9] [] 200 0 0; mkHeader [8] 4 [9] [] 100 0x1d00ffff 0; mkHeader [8] 4 [9] [] 9000 0x1d00ffff 0; mkHeader [8] 4 [7] [] 200 0x1d00ffff 0] =
  [Some (true, EmptyString); Some (true, EmptyString); Some (false, "time-too-old"%string); Some (false, "time-too-new"%string); Some (false, "bad-prevblk"%string)].
Proof. vm_compute. reflexivity. Qed.
(** Above height 233000 the work is asked for, and a fork below the last known checkpoint is refused. *)
Definition sample_block (hash : list Z) (height : Z) : CBlockIndex := mkIndex hash None None height 0 0 0 [] 0 0 0 4 [] 100 0x1d00ffff 0 0.
Definition sample_index (height : Z) : index_state := mkState [sample_block [9] height; sample_block [6] 300000] {[ [9] := 0%nat; [6] := 1%nat ]} None ∅.
Definition sample_work (hash : Z) (height : Z) : option (bool * string) :=
  (λ r, (r.2.2, strRejectReason r.2.1)) <$> CheckBlockHeader sample_header_params (λ _ _, replicate 32 hash) (false, false)
    (sample_index height) (mkLimits bnProofOfWorkLimit bnProofOfWorkLimit) sample_valid sample_child true.
Definition sample_fork (checkpoint : list Z) (height : Z) : option bool :=
  snd <$> CheckIndexAgainstCheckpoint (mkParams MAIN [1] 950 1000 (replicate 32 255) (replicate 32 255) 150 450 551000) [(300000, checkpoint)] (sample_index height) 0 sample_valid.
Example sample_work_verdicts :
  [sample_work 255 233000; sample_work 0 233000; sample_work 255 232999] = [Some (false, "high-hash"%string); Some (true, EmptyString); Some (true, EmptyString)] ∧
  [sample_fork [6] 299999; sample_fork [6] 299998; sample_fork [5] 299998] = [Some true; Some false; Some true].
Proof. split; vm_compute; reflexivity. Qed.
End HeaderCheck.
