(* ===== verification/CheckInputs.v ===== *)
(** * CheckInputs: may a transaction spend its inputs ([main.cpp])

    [CheckInputs] puts the coins, the amounts and the script interpreter together: the inputs
    are unspent and mature, their values cover the outputs, and every input script verifies
    against the output it spends.  Script checks can be run at once or collected for the
    check queue.  The signature cache ([script/sigcache.cpp]) is modelled at the end. *)
From S2P Require Import Prelude Serialize Uint256 Amount Script Transaction Interpreter InterpreterSafety Compressor Coins CoinsView Chain BlockCoins.

Module CheckInputs.
Import Transaction Interpreter Compressor Coins CoinsView BlockCoins.

(** ** Script checks *)
Record CScriptCheck := mkCheck { k_scriptPubKey : list Z; k_amount : Z; k_nIn : nat; k_nFlags : Z }.
(** [CScriptCheck::operator()].  The checker verifies every signature itself: the signature cache of [CachingTransactionSignatureChecker] is
    left out here, since [sigcache_transparent] below shows that it answers what the verification would. *)
Definition run_check `{Crypto} (tx : CMutableTransaction) (txdata : option PrecomputedTransactionData) (k : CScriptCheck) : Res unit :=
  VerifyScript (k_nFlags k) (TransactionSignatureChecker tx (k_nIn k) (k_amount k) txdata)
    (match vin tx !! k_nIn k with Some i => scriptSig i | None => [] end) (k_scriptPubKey k) (default [] (wit tx !! k_nIn k)).

Inductive check_result :=
| inputs_ok | inputs_error (e : input_error) | script_nonstandard (e : ScriptError) | script_invalid (e : ScriptError)
| sigma_mixed | sigma_throws | sigma_outputs_larger.

Section check.
Context {V : Type} `{CCoinsView V} `{MemUsage} `{Crypto}.
(** [sigma::CoinSpend] and [getIntDenomination] on the script of an input; [None] is an exception. *)
Context (sigma_denomination : list Z → option Z) (index : Chain.index_state) (tx : CMutableTransaction) (txdata : option PrecomputedTransactionData).
Implicit Types c : CCoinsViewCache V.

Definition GetSpendHeight c : option (CCoinsViewCache V * Z) :=
  let '(c, best) := cache_GetBestBlock c in
  p ← Chain.mapBlockIndex index !! best;
  b ← Chain.blocks index !! p;
  Some (c, Chain.nHeight b + 1).

(** The loop over the inputs; with [pvChecks] the checks are handed back. *)
Fixpoint check_scripts c (flags : Z) (pvChecks : bool) (i : nat) (vin : list CTxIn) : option (CCoinsViewCache V * check_result * list CScriptCheck) :=
  match vin with
  | [] => Some (c, inputs_ok, [])
  | txin :: vin =>
      let '(c, coins) := AccessCoins c (ophash (prevout txin)) in
      coins ← coins;
      o ← c_vout coins !! Z.to_nat (opn (prevout txin));
      let check := mkCheck (scriptPubKey o) (nValue o) i flags in
      if pvChecks then
        '(c, r, ks) ← check_scripts c flags pvChecks (S i) vin; Some (c, r, check :: ks)
      else
        match run_check tx txdata check with
        | inr _ => check_scripts c flags pvChecks (S i) vin
        | inl (Err e) =>
            if has flags SCRIPT_VERIFY_STRICTENC then
              match run_check tx txdata (mkCheck (scriptPubKey o) (nValue o) i (Z.ldiff flags SCRIPT_VERIFY_STRICTENC)) with
              | inr _ => Some (c, script_nonstandard e, [])
              | inl (Err _) => Some (c, script_invalid e, [])
              | inl _ => None
              end
            else Some (c, script_invalid e, [])
        | inl _ => None
        end
  end.
(** The total of the sigma spends; the first problem ends the loop. *)
Fixpoint sigma_total (vin : list CTxIn) (totalInputValue : Z) : check_result + Z :=
  match vin with
  | [] => inr totalInputValue
  | txin :: vin =>
      if negb (Script.IsSigmaSpend (scriptSig txin)) then inl sigma_mixed
      else match sigma_denomination (tail (scriptSig txin)) with
           | None => inl sigma_throws
           | Some denom => sigma_total vin (i64 (totalInputValue + denom))
           end
  end.
Definition CheckInputs c (fScriptChecks : bool) (flags : Z) (pvChecks : bool) : option (CCoinsViewCache V * check_result * list CScriptCheck) :=
  if negb (no_inputs tx) then
    '(c, nSpendHeight) ← GetSpendHeight c;
    '(c, r) ← CheckTxInputs c tx nSpendHeight;
    match r with
    | inl e => Some (c, inputs_error e, [])
    | inr _ => if fScriptChecks then check_scripts c flags pvChecks 0 (vin tx) else Some (c, inputs_ok, [])
    end
  else if IsSigmaSpend tx then
    match sigma_total (vin tx) 0 with
    | inl r => Some (c, r, [])
    | inr total =>
        match GetValueOut tx with
        | None => Some (c, inputs_error value_out_throws, [])
        | Some out => if total <? out then Some (c, sigma_outputs_larger, []) else Some (c, inputs_ok, [])
        end
    end
  else Some (c, inputs_ok, []).
End check.

(** ** What the inputs have to satisfy *)
Definition matured (u : list Z → option CCoins) (h : Z) (i : CTxIn) : bool :=
  match u (ophash (prevout i)) with Some x => negb (fCoinBase x && (h - c_nHeight x <? COINBASE_MATURITY)) | None => true end.
Definition value_of (u : list Z → option CCoins) (i : CTxIn) : Z := default 0 (nValue <$> unspent u (prevout i)).
Definition values_of (u : list Z → option CCoins) (l : list CTxIn) : Z := foldr (λ i s, value_of u i + s) 0 l.
Record inputs_valid (u : list Z → option CCoins) (tx : CMutableTransaction) (h : Z) : Prop := {
  iv_unspent : ∀ i, i ∈ vin tx → is_Some (unspent u (prevout i));
  iv_mature : ∀ i, i ∈ vin tx → matured u h i = true;
  iv_range : values_of u (vin tx) <= Amount.MAX_MONEY;
  iv_covers : IsCoinStake tx = false → ∃ out, GetValueOut tx = Some out ∧ out <= values_of u (vin tx) }.
Definition scripts_valid `{Crypto} (u : list Z → option CCoins) (tx : CMutableTransaction) txdata (flags : Z) : Prop :=
  ∀ n i o, vin tx !! n = Some i → unspent u (prevout i) = Some o → run_check tx txdata (mkCheck (scriptPubKey o) (nValue o) n flags) = inr tt.

Lemma GetValueOut_range l : ∀ acc v, 0 <= acc <= Amount.MAX_MONEY → GetValueOut_loop l acc = Some v → 0 <= v <= Amount.MAX_MONEY.
Proof.
  induction l as [|o l IH]; intros acc v Hacc; cbn [GetValueOut_loop]; [by intros [= <-]|].
  case_if E; [done|]. apply orb_false_iff in E as [_ E%negb_false_iff%MoneyRange_spec]. by apply IH.
Qed.

Section values.
Context {V : Type} {HV : CCoinsView V} {HS : CoinsSpec V} `{MemUsage}.
Implicit Types c d : CCoinsViewCache V.

Lemma unspent_value c i o : cache_ok c → unspent (cache_utxo c) (prevout i) = Some o → 0 <= nValue o <= Amount.MAX_MONEY.
Proof using Type.
  intros Hc. unfold unspent. destruct (cache_utxo c (ophash (prevout i))) as [x|] eqn:Ex; [|done]. cbn [mbind option_bind].
  destruct (IsAvailable x _) eqn:Ea; [|done]. intros Eo. destruct (cache_tidy c _ x Hc Ex) as [[[Houts _ _ _] _] _].
  rewrite Forall_forall in Houts. destruct (Houts o) as [-> |Hs].
  - by apply list_elem_of_In, (list_elem_of_lookup_2 _ (Z.to_nat (opn (prevout i)))).
  - destruct (IsAvailable_output _ _ Ea) as (o' & Eo' & Hn). rewrite Eo in Eo'. injection Eo' as <-. done.
  - apply Hs.
Qed.
Lemma access_input c i o : cache_ok c → unspent (cache_utxo c) (prevout i) = Some o →
  ∃ c' x, AccessCoins c (ophash (prevout i)) = (c', Some x) ∧ cache_ok c' ∧ same_coins c c' ∧ cache_utxo c (ophash (prevout i)) = Some x ∧
    c_vout x !! Z.to_nat (opn (prevout i)) = Some o.
Proof using Type.
  intros Hc Ho. destruct (cache_GetCoins_spec c (ophash (prevout i)) Hc) as (c' & r & E & Hc' & Hu & _ & Hn & _). unfold AccessCoins. rewrite E.
  unfold unspent in Ho. rewrite <- Hn in *. destruct r as [x|]; [|done]. cbn [norm] in *. destruct (IsPruned x); [done|]. cbn [mbind option_bind] in Ho.
  destruct (IsAvailable x _); [|done]. exists c', x. by split_and!.
Qed.
Lemma values_of_ext u u' l : (∀ t, u t = u' t) → values_of u l = values_of u' l.
Proof using Type. intros Hu. induction l as [|i l IH]; [done|]. cbn [values_of foldr]. fold (values_of u l) (values_of u' l). unfold value_of. by rewrite IH, (unspent_ext u u'). Qed.
Lemma inputs_valid_ext u u' tx h : (∀ t, u t = u' t) → inputs_valid u tx h → inputs_valid u' tx h.
Proof using Type.
  intros Hu [H1 H2 H3 H4]. split; [|unfold matured in *|..].
  - intros i Hi. rewrite <- (unspent_ext u u') by done. by apply H1.
  - intros i Hi. rewrite <- Hu. by apply H2.
  - by rewrite <- (values_of_ext u u').
  - by rewrite <- (values_of_ext u u').
Qed.
Lemma values_of_pos c l : cache_ok c → 0 <= values_of (cache_utxo c) l.
Proof using Type.
  intros Hc. induction l as [|i l IH]; [done|]. cbn [values_of foldr]. fold (values_of (cache_utxo c) l). unfold value_of.
  destruct (unspent _ _) as [o|] eqn:Eo; [|simpl; lia]. apply unspent_value in Eo; [simpl; lia|done].
Qed.

(** The running additions neither wrap nor reject a sum in the range. *)
Lemma check_values_spec h l : ∀ c n, cache_ok c → 0 <= n <= Amount.MAX_MONEY → (∀ i, i ∈ l → is_Some (unspent (cache_utxo c) (prevout i))) →
  ∃ c' r, check_values c l h n = Some (c', r) ∧ cache_ok c' ∧ same_coins c c' ∧
    if forallb (matured (cache_utxo c) h) l && (n + values_of (cache_utxo c) l <=? Amount.MAX_MONEY) then r = inr (n + values_of (cache_utxo c) l)
    else ∃ e, r = inl e.
Proof using Type.
  induction l as [|i l IH]; intros c n Hc Hn Hl; cbn [check_values forallb values_of foldr].
  { exists c, (inr n). rewrite Z.add_0_r, (proj2 (Z.leb_le _ _)) by lia. by split_and!. }
  fold (values_of (cache_utxo c) l). destruct (Hl i ltac:(set_solver)) as [o Ho]. pose proof (unspent_value c i o Hc Ho) as Hv.
  destruct (access_input c i o Hc Ho) as (c1 & x & -> & Hc1 & Hu & Ex & Eo). cbn [mbind option_bind]. unfold matured at 1. rewrite Ex.
  destruct (fCoinBase x && _) eqn:Em; cbn [negb andb]; [exists c1; eexists; by split_and!; [..|eexists]|].
  rewrite Eo. cbn [mbind option_bind]. assert (Amount.MAX_MONEY < 2 ^ 62) by done. rewrite i64_small by lia.
  rewrite (proj2 (MoneyRange_spec (nValue o)) Hv). cbn [negb orb]. unfold value_of. rewrite Ho. cbn [fmap option_fmap option_map from_option id].
  pose proof (values_of_pos c l Hc) as Hpos. destruct (Amount.MoneyRange (n + nValue o)) eqn:Er; cbn [negb].
  - apply MoneyRange_spec in Er. destruct (IH c1 (n + nValue o) Hc1 Er) as (c' & r & -> & Hc' & Hu' & Hr).
    { intros j Hj. rewrite (unspent_ext _ (cache_utxo c)) by done. apply Hl. set_solver. }
    exists c', r. split_and!; [done|done|intros z; by rewrite Hu', Hu|]. rewrite (values_of_ext _ (cache_utxo c)) in Hr by done. rewrite Z.add_assoc.
    replace (forallb (matured (cache_utxo c) h) l) with (forallb (matured (cache_utxo c1) h) l); [done|].
    apply forallb_same. intros j. unfold matured. by rewrite Hu.
  - exists c1. eexists. split_and!; [done|done|done|]. rewrite (proj2 (Z.leb_gt _ _)), andb_false_r; [by eexists|].
    apply not_true_iff_false in Er. rewrite MoneyRange_spec in Er. lia.
Qed.
Lemma CheckTxInputs_spec c tx h : cache_ok c → no_inputs tx = false →
  ∃ c' r, CheckTxInputs c tx h = Some (c', r) ∧ cache_ok c' ∧ same_coins c c' ∧ (r = inr tt ↔ inputs_valid (cache_utxo c) tx h).
Proof using Type.
  intros Hc Hno. unfold CheckTxInputs, HaveInputs. rewrite Hno. destruct (have_inputs_spec (vin tx) c Hc) as (c1 & -> & Hc1 & Hu1).
  destruct (forallb _ (vin tx)) eqn:Ef; cbn [negb].
  2:{ exists c1. eexists. split_and!; [done|done|done|]. split; [done|]. intros [Hall _ _ _]. apply not_true_iff_false in Ef. destruct Ef.
      apply forallb_forall. intros i Hi%list_elem_of_In. apply bool_decide_true. by apply Hall. }
  assert (∀ i, i ∈ vin tx → is_Some (unspent (cache_utxo c) (prevout i))) as Hall.
  { intros i Hi%list_elem_of_In. rewrite forallb_forall in Ef. by apply (bool_decide_eq_true_1 _ (Ef i Hi)). }
  destruct (check_values_spec h (vin tx) c1 0 Hc1) as (c2 & r & -> & Hc2 & Hu2 & Hr); [done|intros i Hi; rewrite (unspent_ext _ (cache_utxo c)) by done; by apply Hall|].
  cbn [mbind option_bind]. eexists _, _. split; [reflexivity|]. split_and!; [done|intros z; by rewrite Hu2, Hu1|].
  rewrite Z.add_0_l, (values_of_ext _ (cache_utxo c)) in Hr by done.
  replace (forallb (matured (cache_utxo c1) h) (vin tx)) with (forallb (matured (cache_utxo c) h) (vin tx)) in Hr
    by (apply forallb_same; intros j; unfold matured; by rewrite Hu1).
  destruct (forallb (matured _ _) _ && _) eqn:Ec.
  2:{ destruct Hr as [e ->]. split; [done|]. intros [_ Hm Hs _]. apply andb_false_iff in Ec as [Ec|Ec%Z.leb_gt]; [|lia].
      apply not_true_iff_false in Ec. destruct Ec. apply forallb_forall. intros i Hi%list_elem_of_In. by apply Hm. }
  apply andb_true_iff in Ec as [Em Ev%Z.leb_le]. rewrite forallb_forall in Em. subst r. pose proof (values_of_pos c (vin tx) Hc) as Hpos.
  assert (∀ i, i ∈ vin tx → matured (cache_utxo c) h i = true) as Hm by (intros i Hi%list_elem_of_In; by apply Em).
  destruct (IsCoinStake tx) eqn:Es; cbn [negb]; [split; [intros _; split; [done|done|done|by rewrite Es]|done]|].
  destruct (GetValueOut tx) as [out|] eqn:Eo; [|split; [done|]; intros [_ _ _ Hcov]; destruct (Hcov Es) as (? & ? & _); congruence].
  assert (0 <= out <= Amount.MAX_MONEY) as Hout by (apply (GetValueOut_range (vout tx) 0); [done|exact Eo]). assert (Amount.MAX_MONEY < 2 ^ 62) by done.
  destruct (Z.ltb_spec (values_of (cache_utxo c) (vin tx)) out) as [Hlt|Hge].
  - split; [done|]. intros [_ _ _ Hcov]. destruct (Hcov Es) as (out' & E' & Hle). assert (out' = out) by congruence. lia.
  - rewrite i64_small, (proj2 (Z.ltb_ge _ _)) by lia. rewrite (proj2 (MoneyRange_spec _)) by lia. split; [|done]. intros _. split; [done|done|done|]. by exists out.
Qed.
End values.

(** ** The script checks *)
Section scripts.
Context {V : Type} {HV : CCoinsView V} {HS : CoinsSpec V} `{MemUsage} `{Crypto}.
Context (sigma_denomination : list Z → option Z) (index : Chain.index_state) (tx : CMutableTransaction) (txdata : option PrecomputedTransactionData) (flags : Z).
Implicit Types c d : CCoinsViewCache V.

(** The checks for inputs from position [i] on. *)
Fixpoint checks_from (u : list Z → option CCoins) (i : nat) (l : list CTxIn) : list CScriptCheck :=
  match l with
  | [] => []
  | txin :: l => match unspent u (prevout txin) with Some o => [mkCheck (scriptPubKey o) (nValue o) i flags] | None => [] end ++ checks_from u (S i) l
  end.
Definition passes (k : CScriptCheck) : Prop := run_check tx txdata k = inr tt.
Lemma checks_from_ext u u' l : (∀ t, u t = u' t) → ∀ i, checks_from u i l = checks_from u' i l.
Proof using Type. intros Hu. induction l as [|x l IH]; intros i; [done|]. cbn [checks_from]. by rewrite IH, (unspent_ext u u'). Qed.
Lemma checks_valid u : (∀ i, i ∈ vin tx → is_Some (unspent u (prevout i))) → Forall passes (checks_from u 0 (vin tx)) ↔ scripts_valid u tx txdata flags.
Proof using Type.
  intros Hall. unfold scripts_valid. transitivity (∀ n i o, vin tx !! n = Some i → unspent u (prevout i) = Some o → passes (mkCheck (scriptPubKey o) (nValue o) (0 + n) flags)); [|done].
  generalize 0%nat. revert Hall. generalize (vin tx). induction l as [|x l IH]; intros Hall k; cbn [checks_from].
  { split; [by intros _ n i o|]. intros _. constructor. }
  destruct (Hall x ltac:(set_solver)) as [o Eo]. rewrite Eo. cbn [app]. rewrite Forall_cons_iff, (IH ltac:(intros i Hi; apply Hall; set_solver) (S k)). split.
  - intros [Hx Hl] [|n] i o'; [intros [= <-]; rewrite Eo; intros [= <-]; by rewrite Nat.add_0_r|]. intros Hi Ho. rewrite <- Nat.add_succ_comm. by apply (Hl n i).
  - intros Hl. split; [specialize (Hl 0%nat x o eq_refl Eo); by rewrite Nat.add_0_r in Hl|]. intros n i o' Hi Ho. rewrite Nat.add_succ_comm. by apply (Hl (S n) i).
Qed.
(** Collected, the checks are those of the inputs; run at once, they pass exactly when all do. *)
Lemma collect_spec l : ∀ c n, cache_ok c → (∀ i, i ∈ l → is_Some (unspent (cache_utxo c) (prevout i))) →
  ∃ c', check_scripts tx txdata c flags true n l = Some (c', inputs_ok, checks_from (cache_utxo c) n l) ∧ cache_ok c' ∧ same_coins c c'.
Proof using Type.
  induction l as [|i l IH]; intros c n Hc Hl; cbn [check_scripts checks_from]; [by exists c|]. destruct (Hl i ltac:(set_solver)) as [o Ho]. rewrite Ho.
  destruct (access_input c i o Hc Ho) as (c1 & x & -> & Hc1 & Hu & _ & Eo). cbn [mbind option_bind]. rewrite Eo. cbn [mbind option_bind].
  destruct (IH c1 (S n) Hc1) as (c' & -> & Hc' & Hu'); [intros j Hj; rewrite (unspent_ext _ (cache_utxo c)) by done; apply Hl; set_solver|].
  cbn [mbind option_bind app]. exists c'. rewrite (checks_from_ext _ (cache_utxo c)) by done. split_and!; [done|done|intros z; by rewrite Hu', Hu].
Qed.
Lemma run_spec l : ∀ c n, cache_ok c → (∀ i, i ∈ l → is_Some (unspent (cache_utxo c) (prevout i))) →
  (∃ c', check_scripts tx txdata c flags false n l = Some (c', inputs_ok, [])) ↔ Forall passes (checks_from (cache_utxo c) n l).
Proof using Type.
  induction l as [|i l IH]; intros c n Hc Hl; cbn [check_scripts checks_from]; [split; [by constructor|by exists c]|].
  destruct (Hl i ltac:(set_solver)) as [o Ho]. rewrite Ho. cbn [app].
  destruct (access_input c i o Hc Ho) as (c1 & x & -> & Hc1 & Hu & _ & Eo). cbn [mbind option_bind]. rewrite Eo. cbn [mbind option_bind]. rewrite Forall_cons_iff. unfold passes at 1.
  destruct (run_check tx txdata _) as [[e|x'| |]|[]]; [|by split; [intros [? [=]]|intros [[=] _]]..|].
  - split; [|by intros [[=] _]]. destruct (has flags _); [destruct (run_check _ _ _) as [[]|]|]; by intros [? [=]].
  - rewrite IH; [|done|intros j Hj; rewrite (unspent_ext _ (cache_utxo c)) by done; apply Hl; set_solver].
    rewrite (checks_from_ext _ (cache_utxo c)) by done. naive_solver.
Qed.
Lemma spend_height_spec c p b : cache_ok c → Chain.mapBlockIndex index !! cache_best c = Some p → Chain.blocks index !! p = Some b →
  ∃ c', GetSpendHeight index c = Some (c', Chain.nHeight b + 1) ∧ cache_ok c' ∧ same_coins c c'.
Proof using H.
  intros Hc Hp Hb. destruct (@GetBestBlock_spec _ _ CCoinsViewCache_spec c Hc) as (c' & E & Hc' & Hu & _). unfold GetSpendHeight.
  cbn [GetBestBlock CCoinsViewCache_view best_block CCoinsViewCache_spec] in E. rewrite E, Hp. cbn [mbind option_bind]. rewrite Hb. by exists c'.
Qed.

(** C17. A transaction with regular inputs passes [CheckInputs] exactly when each input spends an
    unspent output, no coinbase among them is younger than the maturity, the values sum up within
    the money range to at least the outputs (coinstakes excepted), and each input's script verifies
    against the script and the amount of the output it spends.  With [pvChecks] it passes exactly
    under the conditions on the coins, and the checks it hands back all pass exactly when the
    scripts verify.  The coins are left as they were. *)
Theorem CheckInputs_correct c p b : cache_ok c → no_inputs tx = false → Chain.mapBlockIndex index !! cache_best c = Some p → Chain.blocks index !! p = Some b →
  let h := Chain.nHeight b + 1 in
  ((∃ c', CheckInputs sigma_denomination index tx txdata c true flags false = Some (c', inputs_ok, [])) ↔
     inputs_valid (cache_utxo c) tx h ∧ scripts_valid (cache_utxo c) tx txdata flags) ∧
  ∃ c' r ks, CheckInputs sigma_denomination index tx txdata c true flags true = Some (c', r, ks) ∧ cache_ok c' ∧ same_coins c c' ∧
    (r = inputs_ok ↔ inputs_valid (cache_utxo c) tx h) ∧ (r = inputs_ok → Forall passes ks ↔ scripts_valid (cache_utxo c) tx txdata flags).
Proof using Type.
  intros Hc Hno Hp Hb h. unfold CheckInputs. rewrite Hno. cbn [negb]. destruct (spend_height_spec c p b Hc Hp Hb) as (c1 & -> & Hc1 & Hu1). cbn [mbind option_bind]. fold h.
  destruct (CheckTxInputs_spec c1 tx h Hc1 Hno) as (c2 & r & -> & Hc2 & Hu2 & Hr). cbn [mbind option_bind].
  assert (∀ i, i ∈ vin tx → r = inr tt → is_Some (unspent (cache_utxo c2) (prevout i))) as Hin.
  { intros i Hi Er. rewrite (unspent_ext _ (cache_utxo c1)) by done. by apply Hr. }
  assert (r = inr tt ↔ inputs_valid (cache_utxo c) tx h) as Hiv by (rewrite Hr; split; apply inputs_valid_ext; [done|intros t; by rewrite Hu1]).
  assert (∀ t, cache_utxo c2 t = cache_utxo c t) as Hu by (intros t; by rewrite Hu2, Hu1).
  assert (r = inr tt → Forall passes (checks_from (cache_utxo c) 0 (vin tx)) ↔ scripts_valid (cache_utxo c) tx txdata flags) as Hks
    by (intros Er; apply checks_valid, Hiv, Er).
  destruct r as [e|[]].
  - split; [split; [by intros [? [=]]|by intros [[=]%Hiv _]]|]. exists c2. eexists _, _. split; [reflexivity|]. split_and!; [done|done| |done].
    split; [done|by intros [=]%Hiv].
  - split; [rewrite run_spec by auto; rewrite (checks_from_ext _ (cache_utxo c)), Hks by done; naive_solver|].
    destruct (collect_spec (vin tx) c2 0 Hc2) as (c3 & -> & Hc3 & Hu3); [by auto|]. exists c3. eexists _, _. split; [reflexivity|].
    rewrite (checks_from_ext _ (cache_utxo c)) by done. split_and!; [done|intros z; by rewrite Hu3|naive_solver|by auto].
Qed.
End scripts.

(** ** The sample transaction spends two outputs anyone can spend, of a coinbase that is old enough *)
#[local] Existing Instance toy_secp.
#[local] Existing Instance toy_laws.
#[local] Existing Instance InterpreterSafety.toy_crypto.
Definition sample_index (h : Z) : Chain.index_state :=
  Chain.mkState [Chain.mkIndex (replicate 32 9) None None h 0 0 0 [] 1 1 0 1 [] 0 0 0 0] {[ replicate 32 9 := 0%nat ]} (Some 0%nat) ∅.
Lemma CheckInputs_correct_witness :
  (∃ c', CheckInputs (λ _, None) (sample_index 129999) sample_spend None sample_view true SCRIPT_VERIFY_P2SH false = Some (c', inputs_ok, [])) ∧
  inputs_valid (cache_utxo sample_view) sample_spend 130000 ∧ scripts_valid (cache_utxo sample_view) sample_spend None SCRIPT_VERIFY_P2SH.
Proof.
  assert (∃ c', CheckInputs (λ _, None) (sample_index 129999) sample_spend None sample_view true SCRIPT_VERIFY_P2SH false = Some (c', inputs_ok, [])) as H
    by (eexists; vm_compute; reflexivity).
  split; [exact H|].
  apply (CheckInputs_correct (λ _, None) (sample_index 129999) sample_spend None SCRIPT_VERIFY_P2SH sample_view 0%nat (Chain.mkIndex (replicate 32 9) None None 129999 0 0 0 [] 1 1 0 1 [] 0 0 0 0)
    sample_view_ok); [vm_compute; reflexivity..|exact H].
Defined.
(** One block earlier the coinbase may not be spent. *)
Example sample_premature : snd <$> (fst <$> CheckInputs (λ _, None) (sample_index 120989) sample_spend None sample_view true SCRIPT_VERIFY_P2SH false) =
  Some (inputs_error premature_spend).
Proof. vm_compute. reflexivity. Qed.

(** ** The signature cache *)
Section sigcache.
Context `{Crypto}.
Record CSignatureCache := mkSigCache { nonce : list Z; setValid : gset (list Z) }.
Definition ComputeEntry (k : CSignatureCache) (hash vchSig pubkey : list Z) : list Z := sha256 (nonce k ++ hash ++ pubkey ++ vchSig).
(** [Set]: entries picked at random are removed while the set uses too much memory. *)
Definition cache_Set (k : CSignatureCache) (evicted : gset (list Z)) (entry : list Z) : CSignatureCache :=
  mkSigCache (nonce k) ({[entry]} ∪ (setValid k ∖ evicted)).
Definition cache_Erase (k : CSignatureCache) (entry : list Z) : CSignatureCache := mkSigCache (nonce k) (setValid k ∖ {[entry]}).
(** [CachingTransactionSignatureChecker::VerifySignature]; [room] is what [Set] evicts, or nothing
    when the configured size leaves no room for the entry. *)
Definition caching_VerifySignature (k : CSignatureCache) (store : bool) (room : option (gset (list Z))) (vchSig pubkey sighash : list Z) : CSignatureCache * bool :=
  let entry := ComputeEntry k sighash vchSig pubkey in
  if bool_decide (entry ∈ setValid k) then (if negb store then cache_Erase k entry else k, true)
  else if negb (Verify pubkey sighash vchSig) then (k, false)
  else (if store then match room with Some evicted => cache_Set k evicted entry | None => k end else k, true).

(** What is asked of the cache: a key that is valid, a hash of 32 bytes. *)
Definition well_formed_query (pubkey sighash : list Z) : Prop := CPubKey_Set pubkey = Some pubkey ∧ length sighash = 32%nat.
(** Every entry is that of a signature that verifies. *)
Definition cache_sound (k : CSignatureCache) : Prop :=
  ∀ e, e ∈ setValid k → ∃ sg pk h, well_formed_query pk h ∧ e = ComputeEntry k h sg pk ∧ Verify pk h sg = true.
(** The preimage of an entry determines hash, key and signature: the first byte of a key gives its length. *)
Lemma entry_preimage n pk pk' h h' sg sg' : well_formed_query pk h → well_formed_query pk' h' → n ++ h ++ pk ++ sg = n ++ h' ++ pk' ++ sg' → h = h' ∧ pk = pk' ∧ sg = sg'.
Proof using Type.
  intros [Hk Hh] [Hk' Hh'] E%app_inv_head. apply app_inj_1 in E as [-> E]; [|congruence]. split; [done|].
  assert (length pk = length pk') as Hl; [|by apply app_inj_1 in E]. revert Hk Hk' E. unfold CPubKey_Set. destruct pk as [|b pk]; [done|]. destruct pk' as [|b' pk']; [done|].
  intros Hk Hk' [= -> _]. revert Hk Hk'. case_if E1; [|done]. case_if E2; [|done]. intros _ _. breflect. unfold Script.size in *. lia.
Qed.
Lemma cache_Set_sound k evicted sg pk h : cache_sound k → well_formed_query pk h → Verify pk h sg = true → cache_sound (cache_Set k evicted (ComputeEntry k h sg pk)).
Proof using Type. intros Hk Hq Hv e [->%elem_of_singleton|[He _]%elem_of_difference]%elem_of_union; [by exists sg, pk, h|by apply Hk]. Qed.
Lemma cache_Erase_sound k entry : cache_sound k → cache_sound (cache_Erase k entry).
Proof using Type. intros Hk e [He _]%elem_of_difference. by apply Hk. Qed.

(** The signature cache is transparent: started from a sound cache, whatever is stored, erased
    or evicted, the cache stays sound, and the answer is that of the verification itself unless
    SHA-256 has a collision, which the query then exhibits. *)
Theorem sigcache_transparent k store room sg pk h : cache_sound k → well_formed_query pk h →
  cache_sound (caching_VerifySignature k store room sg pk h).1 ∧
  ((caching_VerifySignature k store room sg pk h).2 = Verify pk h sg ∨ ∃ x y, x ≠ y ∧ sha256 x = sha256 y).
Proof using Type.
  intros Hk Hq. unfold caching_VerifySignature. case_if E.
  - split; [destruct store; [done|by apply cache_Erase_sound]|]. apply bool_decide_eq_true_1 in E. destruct (Hk _ E) as (sg' & pk' & h' & Hq' & Ee & Hv). unfold ComputeEntry in Ee.
    destruct (decide (nonce k ++ h ++ pk ++ sg = nonce k ++ h' ++ pk' ++ sg')) as [Hp|Hp]; [left|right; eauto].
    by destruct (entry_preimage _ _ _ _ _ _ _ Hq Hq' Hp) as (-> & -> & ->).
  - destruct (Verify pk h sg) eqn:Hv; cbn [negb]; [|by split; [|left]]. split; [|by left]. destruct store; [|done]. destruct room; [by apply cache_Set_sound|done].
Qed.
End sigcache.
Lemma sigcache_transparent_witness : let k := mkSigCache (replicate 32 1) ∅ in let pk := 2 :: replicate 32 5 in
  (caching_VerifySignature k true (Some ∅) [1; 2] pk (replicate 32 3)).2 = Verify pk (replicate 32 3) [1; 2] ∨ ∃ x y, x ≠ y ∧ sha256 x = sha256 y.
Proof.
  intros k pk. apply (sigcache_transparent k true (Some ∅) [1; 2] pk (replicate 32 3)).
  - intros e He. by apply not_elem_of_empty in He.
  - split; vm_compute; reflexivity.
Defined.
End CheckInputs.
