(* ===== verification/ActiveChain.v ===== *)
(** * The active chain (CChain of chain.h and chain.cpp)

    A chain is the path from the root to its tip; setting a tip, finding forks and building locators
    are proved against that description. *)
From S2P Require Import Prelude Chain.

Module ActiveChain.
Import Chain.

(** The chain [v] is the path to [p]. *)
Definition chain_to (A : arena) (v : list ptr) (p : ptr) : Prop :=
  ∃ b, A !! p = Some b ∧ length v = S (Z.to_nat (nHeight b)) ∧
    ∀ i, (i < length v)%nat → v !! i = up A (length v - 1 - i) p.
(** No block, or the path to some block. *)
Definition is_chain (A : arena) (v : list ptr) : Prop := v = [] ∨ ∃ p, chain_to A v p.

Section chain.
Context (A : arena) (HA : wf_index A).

Lemma up_lookup n : ∀ p q b, up A n p = Some q → A !! p = Some b →
  ∃ c, A !! q = Some c ∧ nHeight c = nHeight b - Z.of_nat n.
Proof using HA.
  induction n as [|n IH]; intros p q b Hu Eb; cbn [up] in Hu; [simplify_eq; exists b; split; [done|lia]|].
  rewrite Eb in Hu. cbn [mbind option_bind] in Hu. pose proof (we_prev _ _ _ (HA p b Eb)) as Hp.
  destruct (pprev b) as [r|]; [|done]. destruct Hp as (d & Ed & ?). destruct (IH r q d Hu Ed) as (c & ? & ?).
  exists c. split; [done|lia].
Qed.

Lemma chain_lookup v t i q : chain_to A v t → v !! i = Some q →
  ∃ c, A !! q = Some c ∧ nHeight c = Z.of_nat i ∧ ∀ j, (j <= i)%nat → v !! j = up A (i - j) q.
Proof using HA.
  intros (b & Eb & Hl & Hv) E. pose proof (lookup_lt_Some _ _ _ E) as Hi. pose proof (we_height _ _ _ (HA t b Eb)).
  rewrite Hv in E by done. destruct (up_spec A (length v - 1 - i) t b HA Eb) as (q' & c & Eu & Ec & Hc); [lia|].
  rewrite E in Eu. injection Eu as <-. exists c. split_and!; [done|lia|]. intros j Hj. rewrite Hv by lia.
  replace (length v - 1 - j)%nat with ((length v - 1 - i) + (i - j))%nat by lia. by rewrite up_add, E.
Qed.

(** ** Setting the tip *)

(** The slots up to [k] come from a chain: a slot that holds a block has its ancestors below. *)
Definition below (v : list (option ptr)) (k : nat) : Prop :=
  ∀ i r, (i <= k)%nat → v !! i = Some (Some r) → ∀ j, (j <= i)%nat → v !! j = Some (up A (i - j) r).

Lemma set_tip_loop_spec t b : A !! t = Some b → ∀ fuel v k q,
  length v = S (Z.to_nat (nHeight b)) → (k <= Z.to_nat (nHeight b))%nat → (k < fuel)%nat →
  up A (Z.to_nat (nHeight b) - k) t = Some q → below v k →
  (∀ i, (k < i <= Z.to_nat (nHeight b))%nat → v !! i = Some (up A (Z.to_nat (nHeight b) - i) t)) →
  ∃ v', set_tip_loop fuel A v (Some q) = Some v' ∧ length v' = length v ∧
    ∀ i, (i <= Z.to_nat (nHeight b))%nat → v' !! i = Some (up A (Z.to_nat (nHeight b) - i) t).
Proof using HA.
  intros Eb. pose proof (we_height _ _ _ (HA t b Eb)) as Hpos. set (h := Z.to_nat (nHeight b)).
  induction fuel as [|fuel IH]; intros v k q Hl Hk Hf Hu Hbelow Habove; [lia|].
  destruct (up_spec A (h - k) t b HA Eb) as (q' & c & Eu & Ec & Hc); [lia|]. rewrite Hu in Eu. injection Eu as <-.
  assert (Z.to_nat (nHeight c) = k) as Hck by lia. cbn [set_tip_loop]. rewrite Ec. cbn [mbind option_bind]. rewrite Hck.
  case_bool_decide as E.
  - exists v. split_and!; [done|done|]. intros i Hi. destruct (decide (i <= k)%nat); [|apply Habove; lia].
    rewrite (Hbelow k q) by (done || lia). f_equal. replace (h - i)%nat with ((h - k) + (k - i))%nat by lia. by rewrite up_add, Hu.
  - assert (∀ i, (k - 1 < i <= h)%nat → (i = 0 → k = 0)%nat → <[k:=Some q]> v !! i = Some (up A (h - i) t)) as Habove'.
    { intros i Hi Hz. destruct (decide (i = k)) as [->|]; [by rewrite list_lookup_insert_eq, Hu by lia|].
      rewrite list_lookup_insert_ne by done. apply Habove. lia. }
    destruct k as [|k].
    + destruct (HA q c Ec) as [_ Hp _]. destruct (pprev c) as [r|].
      { destruct Hp as (d & Ed & ?). pose proof (we_height _ _ _ (HA r d Ed)). lia. }
      exists (<[0%nat:=Some q]> v). split_and!; [by destruct fuel|apply length_insert|].
      intros i Hi. destruct i; [by rewrite list_lookup_insert_eq, Hu by lia|]. apply Habove'; lia.
    + destruct (HA q c Ec) as [_ Hp _]. destruct (pprev c) as [r|] eqn:Epr; [|lia].
      destruct (IH (<[S k:=Some q]> v) k r) as (v' & -> & Hl' & Hv'); rewrite ?length_insert; try done; try lia.
      * replace (h - k)%nat with ((h - S k) + 1)%nat by lia. rewrite up_add, Hu. cbn [mbind option_bind up]. rewrite Ec.
        cbn [mbind option_bind]. by rewrite Epr.
      * intros i r' Hi Ei j Hj. rewrite list_lookup_insert_ne in Ei |- * by lia. apply Hbelow; [lia|done|done].
      * intros i Hi. apply Habove'; lia.
      * exists v'. rewrite length_insert in Hl'. by split_and!.
Qed.

Lemma below_resize v k : is_chain A v → below (resize_chain (S k) (Some <$> v)) k.
Proof using HA.
  intros Hv i r Hi E j Hj. unfold resize_chain in *. rewrite length_fmap in *.
  assert (v !! i = Some r) as Ei.
  { apply lookup_app_Some in E as [E|[_ E]]; [|by apply lookup_replicate in E as [? _]].
    rewrite lookup_take_lt in E by lia. apply list_lookup_fmap_Some in E as (x & [= <-] & ?). done. }
  destruct Hv as [-> |[t Ht]]; [done|]. destruct (chain_lookup v t i r Ht Ei) as (c & _ & _ & Hup).
  pose proof (lookup_lt_Some _ _ _ Ei). rewrite lookup_app_l by (rewrite length_take, length_fmap; lia).
  rewrite lookup_take_lt by lia. rewrite list_lookup_fmap, (Hup j Hj). destruct (up A (i - j) r) eqn:Eu; [done|].
  exfalso. rewrite <- (Hup j Hj) in Eu. apply lookup_ge_None in Eu. lia.
Qed.

Lemma mapM_id_Some {B} (l : list (option B)) k : length k = length l →
  (∀ i, (i < length l)%nat → l !! i = Some (k !! i)) → mapM id l = Some k.
Proof.
  revert k. induction l as [|x l IH]; intros [|y k] Hl Hi; try done. cbn [mapM]. 
  pose proof (Hi 0%nat ltac:(simpl; lia)) as H0. injection H0 as ->. cbn [id mbind option_bind].
  rewrite (IH k); [done|simpl in Hl; lia|]. intros i Hlt. apply (Hi (S i)). simpl. lia.
Qed.

Lemma SetTip_spec v p b : is_chain A v → A !! p = Some b → ∃ v', SetTip A v (Some p) = Some v' ∧ chain_to A v' p.
Proof using HA.
  intros Hv Eb. pose proof (we_height _ _ _ (HA p b Eb)) as Hpos. unfold SetTip. rewrite Eb. cbn [mbind option_bind].
  set (h := Z.to_nat (nHeight b)). replace (h + 1)%nat with (S h) by lia.
  assert (length (resize_chain (S h) (Some <$> v)) = S h) as Hlen.
  { unfold resize_chain. rewrite length_app, length_take, length_replicate. lia. }
  destruct (set_tip_loop_spec p b Eb (S h) (resize_chain (S h) (Some <$> v)) h p) as (w & -> & Hl & Hw); try done; try lia.
  - by rewrite Nat.sub_diag.
  - by apply below_resize.
  - cbn [mbind option_bind]. assert (∃ v', length v' = S h ∧ ∀ i, (i < S h)%nat → v' !! i = up A (h - i) p) as (v' & Hl' & Hv').
    { exists (map (λ i, default 0%nat (up A (h - i) p)) (seq 0 (S h))). split; [by rewrite length_map, length_seq|].
      intros i Hi. rewrite list_lookup_fmap, lookup_seq_lt by done. cbn [fmap option_fmap option_map].
      destruct (up_spec A (h - i) p b HA Eb) as (q & c & Eu & _); [lia|]. by rewrite Nat.add_0_l, Eu. }
    exists v'. split.
    + apply mapM_id_Some; [lia|]. intros i Hi. rewrite Hw, Hv' by lia. done.
    + exists b. split_and!; [done|lia|]. intros i Hi. rewrite Hv' by lia. f_equal. lia.
Qed.

(** ** Membership *)
Lemma Contains_iff v t q : chain_to A v t → Contains A v q = true ↔ ∃ n, up A n t = Some q.
Proof using HA.
  intros (b & Eb & Hl & Hv). pose proof (we_height _ _ _ (HA t b Eb)). unfold Contains, vget. split.
  - destruct (A !! q) as [c|]; [|done]. rewrite bool_decide_eq_true. destruct (_ || _)%bool eqn:Eg; [done|].
    apply orb_false_iff in Eg as [? ?]. intros E. rewrite Hv in E by lia. eauto.
  - intros [n Hu]. destruct (up_lookup n t q b Hu Eb) as (c & Ec & Hc). rewrite Ec.
    pose proof (we_height _ _ _ (HA q c Ec)). apply bool_decide_eq_true. rewrite (proj2 (orb_false_iff _ _)) by lia.
    rewrite Hv by lia. rewrite <- Hu. f_equal. lia.
Qed.

Lemma vget_ancestor v q c h : is_chain A v → Contains A v q = true → A !! q = Some c → 0 <= h <= nHeight c →
  vget v h = up A (Z.to_nat (nHeight c - h)) q.
Proof using HA.
  intros Hv Hq Ec Hh. unfold Contains in Hq. rewrite Ec, bool_decide_eq_true in Hq. unfold vget in *.
  destruct (_ || _)%bool eqn:Eg in Hq; [done|]. apply orb_false_iff in Eg as [? ?].
  rewrite (proj2 (orb_false_iff _ _)) by lia. destruct Hv as [-> |[t Ht]]; [done|].
  destruct (chain_lookup v t _ q Ht Hq) as (? & ? & ? & ->); [|lia]. f_equal. lia.
Qed.

Lemma chain_Tip v t b : chain_to A v t → A !! t = Some b → Tip v = Some t ∧ Height v = nHeight b.
Proof using HA.
  intros (b' & Eb & Hl & Hv) E. rewrite Eb in E. injection E as ->. pose proof (we_height _ _ _ (HA t b Eb)). unfold Tip, Height.
  rewrite Hv by lia. rewrite Nat.sub_diag. split; [done|lia].
Qed.

Lemma Next_spec v t n q : chain_to A v t → up A (S n) t = Some q → Next A v q = up A n t.
Proof using HA.
  intros Ht Hu. pose proof Ht as (b & Eb & Hl & Hv). destruct (up_lookup _ _ _ _ Hu Eb) as (c & Ec & Hc).
  pose proof (we_height _ _ _ (HA t b Eb)). pose proof (we_height _ _ _ (HA q c Ec)).
  unfold Next. rewrite Ec, (proj2 (Contains_iff v t q Ht)) by eauto. unfold vget.
  rewrite (proj2 (orb_false_iff _ _)) by lia. rewrite Hv by lia. f_equal. lia.
Qed.

(** ** Forks *)
Definition last_in (v : list ptr) (p : ptr) (r : option ptr) : Prop :=
  match r with
  | Some q => ∃ n, up A n p = Some q ∧ Contains A v q = true ∧
      ∀ m q', (m < n)%nat → up A m p = Some q' → Contains A v q' = false
  | None => ∀ n q, up A n p = Some q → Contains A v q = false
  end.

Lemma last_in_up v p q k r : up A k p = Some q → (∀ m q', (m < k)%nat → up A m p = Some q' → Contains A v q' = false) →
  last_in v q r → last_in v p r.
Proof.
  intros Hu Hk. destruct r as [r|]; simpl.
  - intros (n & Hn & Hr & Hm). exists (k + n)%nat. rewrite up_add, Hu. split_and!; [done|done|].
    intros m q' Hlt E. destruct (decide (m < k)%nat); [eauto|]. apply (Hm (m - k)%nat); [lia|].
    replace m with (k + (m - k))%nat in E by lia. by rewrite up_add, Hu in E.
  - intros Hn m q' E. destruct (decide (m < k)%nat); [eauto|]. apply (Hn (m - k)%nat).
    replace m with (k + (m - k))%nat in E by lia. by rewrite up_add, Hu in E.
Qed.

Lemma fork_loop_spec v fuel : ∀ p b, A !! p = Some b → nHeight b <= Z.of_nat fuel →
  ∃ r, fork_loop fuel A v p = Some r ∧ last_in v p r.
Proof using HA.
  induction fuel as [|fuel IH]; intros p b Eb Hf; cbn [fork_loop]; destruct (Contains A v p) eqn:Ec;
    try (exists (Some p); split; [done|]; exists 0%nat; split_and!; [done|done|lia]);
    rewrite Eb; cbn [mbind option_bind]; pose proof (we_height _ _ _ (HA p b Eb)); pose proof (we_prev _ _ _ (HA p b Eb)) as Hp;
    destruct (pprev b) as [q|] eqn:Epr.
  - destruct Hp as (c & Ecq & ?). pose proof (we_height _ _ _ (HA q c Ecq)). lia.
  - exists None. split; [done|]. intros [|n] q; cbn [up]; [by intros [= <-]|]. by rewrite Eb; cbn [mbind option_bind]; rewrite Epr.
  - destruct Hp as (c & Ecq & ?). destruct (IH q c Ecq) as (r & -> & Hr); [lia|]. exists r. split; [done|].
    apply (last_in_up v p q 1); [|intros [|m] q' ?; [by intros [= <-]|lia]|done]. cbn [up]. rewrite Eb. cbn [mbind option_bind]. by rewrite Epr.
  - exists None. split; [done|]. intros [|n] q; cbn [up]; [by intros [= <-]|]. by rewrite Eb; cbn [mbind option_bind]; rewrite Epr.
Qed.

Lemma Contains_above v q c : A !! q = Some c → Height v < nHeight c → Contains A v q = false.
Proof.
  intros Ec Hh. unfold Contains, vget, Height in *. rewrite Ec. rewrite (proj2 (orb_true_iff _ _)) by lia. by apply bool_decide_eq_false.
Qed.

Lemma FindFork_spec v p b : A !! p = Some b → ∃ r, FindFork A v (Some p) = Some r ∧ last_in v p r.
Proof using HA.
  intros Eb. unfold FindFork. rewrite Eb. cbn [mbind option_bind]. case_match eqn:Eh.
  - pose proof (GetAncestor_spec A p b (Height v) HA Eb) as Hga. destruct (decide (0 <= Height v)) as [Hp|Hn].
    + destruct (up_spec A (Z.to_nat (nHeight b - Height v)) p b HA Eb) as (q & c & Eu & Ec & Hc); [lia|].
      assert (GetAncestor A p (Height v) = Some (Some q)) as ->.
      { rewrite Hga, <- Eu. by rewrite (proj2 (orb_false_iff _ _)) by lia. }
      cbn [mbind option_bind]. rewrite Ec. cbn [mbind option_bind]. destruct (fork_loop_spec v (Z.to_nat (nHeight c)) q c Ec) as (r & -> & Hr); [lia|].
      exists r. split; [done|]. apply (last_in_up v p q _ r Eu); [|done]. intros m q' Hm Em.
      destruct (up_lookup m p q' b Em Eb) as (d & Ed & ?). apply (Contains_above v q' d Ed). lia.
    + assert (GetAncestor A p (Height v) = Some None) as ->.
      { rewrite Hga. by rewrite (proj2 (orb_true_iff _ _)) by lia. }
      exists None. split; [done|]. intros n q Hu. destruct (up_lookup n p q b Hu Eb) as (d & Ed & ?).
      apply (Contains_above v q d Ed). pose proof (we_height _ _ _ (HA q d Ed)). lia.
  - cbn [mbind option_bind]. rewrite Eb. cbn [mbind option_bind]. apply (fork_loop_spec _ _ _ _ Eb). pose proof (we_height _ _ _ (HA p b Eb)). lia.
Qed.

(** ** Locators *)
(** The heights a locator of a block at height [h] lists. *)
Fixpoint locator_heights (fuel : nat) (h nStep n : Z) : list Z :=
  h :: (if h =? 0 then []
        else match fuel with
             | O => []
             | S fuel => locator_heights fuel (Z.max (h - nStep) 0) (if 10 <? n + 1 then nStep * 2 else nStep) (n + 1)
             end).
Definition at_height (p : ptr) (b : CBlockIndex) (h : Z) : option ptr := up A (Z.to_nat (nHeight b - h)) p.

Lemma locator_heights_range fuel : ∀ h nStep n, 0 <= h → 0 < nStep →
  Forall (λ x, 0 <= x <= h) (locator_heights fuel h nStep n).
Proof.
  induction fuel as [|fuel IH]; intros h nStep n Hh Hs; cbn [locator_heights]; constructor; try lia; case_match; try constructor.
  eapply Forall_impl; [|apply IH; [lia|case_match; lia]]. simpl. lia.
Qed.
Lemma Forall2_impl_l {B D} (P : B → Prop) (R Q : B → D → Prop) l k : Forall P l → (∀ x y, P x → R x y → Q x y) →
  Forall2 R l k → Forall2 Q l k.
Proof. intros HP HQ. induction 1; inversion HP; subst; constructor; auto. Qed.
Lemma locator_heights_cons fuel h nStep n : ∃ l, locator_heights fuel h nStep n = h :: l.
Proof. destruct fuel; cbn [locator_heights]; eauto. Qed.
Lemma locator_heights_last fuel : ∀ h nStep n, 0 <= h <= Z.of_nat fuel → 0 < nStep → ∃ l, locator_heights fuel h nStep n = l ++ [0].
Proof.
  induction fuel as [|fuel IH]; intros h nStep n Hh Hs; cbn [locator_heights]; destruct (Z.eqb_spec h 0) as [->|]; try (by exists []); [lia|].
  destruct (IH (Z.max (h - nStep) 0) (if 10 <? n + 1 then nStep * 2 else nStep) (n + 1)) as [l ->]; [lia|case_match; lia|].
  by exists (h :: l).
Qed.
(** Past the tenth entry the steps double, so the number of entries is logarithmic. *)
Lemma locator_doubling fuel : ∀ k h nStep n, 0 <= h <= nStep * (2 ^ Z.of_nat k - 1) → 0 < nStep → 10 <= n →
  (length (locator_heights fuel h nStep n) <= S k)%nat.
Proof.
  induction fuel as [|fuel IH]; intros k h nStep n Hh Hs Hn; cbn [locator_heights length];
    destruct (Z.eqb_spec h 0); simpl; try lia.
  destruct k as [|k]; [lia|]. apply le_n_S. apply IH; [|case_match; lia|lia].
  replace (10 <? n + 1) with true by (symmetry; apply Z.ltb_lt; lia).
  replace (Z.of_nat (S k)) with (Z.succ (Z.of_nat k)) in Hh by lia. rewrite Z.pow_succ_r in Hh by lia.
  pose proof (Z.pow_pos_nonneg 2 (Z.of_nat k)). nia.
Qed.
Lemma locator_linear j : ∀ fuel k h n, 0 <= h <= Z.of_nat j + 1 + 2 * (2 ^ Z.of_nat k - 1) → n + Z.of_nat j = 10 →
  (length (locator_heights fuel h 1 n) <= j + k + 2)%nat.
Proof.
  induction j as [|j IH]; intros fuel k h n Hh Hn; pose proof (Z.pow_pos_nonneg 2 (Z.of_nat k)); destruct fuel as [|fuel]; cbn [locator_heights length];
    destruct (Z.eqb_spec h 0); simpl; try lia.
  - replace (10 <? n + 1) with true by (symmetry; apply Z.ltb_lt; lia).
    pose proof (locator_doubling fuel k (Z.max (h - 1) 0) (1 * 2) (n + 1)). lia.
  - replace (10 <? n + 1) with false by (symmetry; apply Z.ltb_ge; lia).
    pose proof (IH fuel k (Z.max (h - 1) 0) (n + 1)). lia.
Qed.
Lemma locator_length fuel h : 0 < h → (length (locator_heights fuel h 1 0) <= 12 + Z.to_nat (Z.log2 h))%nat.
Proof.
  intros Hh. pose proof (locator_linear 10 fuel (Z.to_nat (Z.log2 h)) h 0) as H. pose proof (Z.log2_nonneg h).
  pose proof (Z.log2_spec h Hh) as [_ Hlt]. rewrite Z.pow_succ_r in Hlt by done. rewrite Z2Nat.id in H by done. lia.
Qed.

Lemma locator_loop_spec v fuel : is_chain A v → ∀ p b nStep n, A !! p = Some b → nHeight b <= Z.of_nat fuel → 0 < nStep →
  ∃ ps, locator_loop fuel A v p nStep n = Some ps ∧
    Forall2 (λ h q, at_height p b h = Some q) (locator_heights fuel (nHeight b) nStep n) ps.
Proof using HA.
  intros Hv. induction fuel as [|fuel IH]; intros p b nStep n Eb Hf Hs; cbn [locator_loop locator_heights]; rewrite Eb;
    cbn [mbind option_bind]; pose proof (we_height _ _ _ (HA p b Eb)); destruct (Z.eqb_spec (nHeight b) 0);
    try (exists [p]; split; [done|]; constructor; [|done]; unfold at_height; by rewrite Z.sub_diag); [lia|].
  set (h := Z.max (nHeight b - nStep) 0).
  destruct (up_spec A (Z.to_nat (nHeight b - h)) p b HA Eb) as (q & c & Eu & Ec & Hc); [lia|].
  assert ((if Contains A v p then Some (vget v h) else GetAncestor A p h) = Some (Some q)) as ->.
  { case_match eqn:Ecn; [by rewrite (vget_ancestor v p b h Hv Ecn Eb), Eu by lia|].
    rewrite (GetAncestor_spec A p b h HA Eb), <- Eu. by rewrite (proj2 (orb_false_iff _ _)) by lia. }
  cbn [mbind option_bind]. set (s' := if 10 <? n + 1 then nStep * 2 else nStep).
  assert (0 < s') by (unfold s'; case_match; lia).
  destruct (IH q c s' (n + 1) Ec) as (ps & -> & Hps); [lia|done|].
  exists (p :: ps). split; [done|]. constructor; [unfold at_height; by rewrite Z.sub_diag|].
  replace (nHeight c) with h in Hps by lia.
  revert Hps. apply (Forall2_impl_l _ _ _ _ _ (locator_heights_range fuel h s' (n + 1) ltac:(lia) ltac:(done))).
  intros x y Hx. unfold at_height. intros E. replace (Z.to_nat (nHeight b - x)) with (Z.to_nat (nHeight b - h) + Z.to_nat (nHeight c - x))%nat by lia.
  by rewrite up_add, Eu.
Qed.

(** ** Common ancestors *)
Definition common (a b r : ptr) : Prop := (∃ n, up A n a = Some r) ∧ ∃ m, up A m b = Some r.
Definition is_lca (a b q : ptr) : Prop := common a b q ∧ ∀ r, common a b r → ∃ k, up A k q = Some r.

Lemma up_parent p b q : A !! p = Some b → pprev b = Some q → up A 1 p = Some q.
Proof. intros Eb Eq. cbn [up]. rewrite Eb. cbn [mbind option_bind]. by rewrite Eq. Qed.
Lemma up_through k p q n r b c : up A k p = Some q → A !! p = Some b → A !! q = Some c →
  up A n p = Some r → (∃ d, A !! r = Some d ∧ nHeight d <= nHeight c) → up A (n - k) q = Some r.
Proof using HA.
  intros Hk Eb Ec Hn (d & Ed & Hd). destruct (up_lookup k p q b Hk Eb) as (c' & Ec' & ?).
  destruct (up_lookup n p r b Hn Eb) as (d' & Ed' & ?). simplify_eq.
  replace n with (k + (n - k))%nat in Hn by lia. by rewrite up_add, Hk in Hn.
Qed.

(** Going up one or both sides keeps the common ancestors, when none of them is passed over. *)
Lemma is_lca_up i j a b a' b' q : up A i a = Some a' → up A j b = Some b' →
  (∀ r, common a b r → common a' b' r) → is_lca a' b' q → is_lca a b q.
Proof.
  intros Hi Hj Hc [[[n Hn] [m Hm]] Hq]. split; [|intros r Hr; apply Hq, Hc, Hr].
  split; [exists (i + n)%nat|exists (j + m)%nat]; rewrite up_add; [by rewrite Hi|by rewrite Hj].
Qed.

Lemma lca_loop_spec fuel : ∀ a b ba bb r, A !! a = Some ba → A !! b = Some bb → nHeight ba = nHeight bb →
  nHeight ba < Z.of_nat fuel → common a b r → ∃ q, lca_loop fuel A (Some a) (Some b) = Some (Some q) ∧ is_lca a b q.
Proof using HA.
  induction fuel as [|fuel IH]; intros a b ba bb r Ea Eb Hh Hf Hr; pose proof (we_height _ _ _ (HA a ba Ea)); [lia|].
  cbn [lca_loop]. destruct (decide (a = b)) as [->|Hne].
  { exists b. split; [done|]. split; [split; by exists 0%nat|]. by intros r' [? _]. }
  rewrite Ea, Eb. cbn [mbind option_bind].
  assert (∀ r, common a b r → ∃ n, up A (S n) a = Some r ∧ up A (S n) b = Some r) as Hcom.
  { intros r' [[n Hn] [m Hm]]. destruct (up_lookup n a r' ba Hn Ea) as (c & Ec & ?). destruct (up_lookup m b r' bb Hm Eb) as (c' & Ec' & ?).
    simplify_eq. assert (n = m) as <- by lia. destruct n; [by cbn [up] in *; simplify_eq|eauto]. }
  destruct (Hcom r Hr) as (n & Hna & Hnb). cbn [up] in Hna, Hnb. rewrite Ea in Hna. rewrite Eb in Hnb. cbn [mbind option_bind] in Hna, Hnb.
  pose proof (we_prev _ _ _ (HA a ba Ea)) as Hpa. pose proof (we_prev _ _ _ (HA b bb Eb)) as Hpb.
  destruct (pprev ba) as [a'|] eqn:Epa; [|done]. destruct (pprev bb) as [b'|] eqn:Epb; [|done].
  destruct Hpa as (ba' & Ea' & ?), Hpb as (bb' & Eb' & ?).
  destruct (IH a' b' ba' bb' r Ea' Eb') as (q & -> & Hq); [lia|lia|by split; exists n|].
  exists q. split; [done|]. apply (is_lca_up 1 1 a b a' b'); [by eapply up_parent|by eapply up_parent| |done].
  intros r' (m & Hma & Hmb)%Hcom. cbn [up] in Hma, Hmb. rewrite Ea in Hma. rewrite Eb in Hmb. cbn [mbind option_bind] in Hma, Hmb.
  rewrite Epa in Hma. rewrite Epb in Hmb. by split; exists m.
Qed.

Lemma common_sym a b r : common a b r ↔ common b a r.
Proof. unfold common. tauto. Qed.
Lemma common_level a b ba bb a' ca r : A !! a = Some ba → A !! b = Some bb → nHeight bb <= nHeight ba →
  up A (Z.to_nat (nHeight ba - nHeight bb)) a = Some a' → A !! a' = Some ca → nHeight ca = nHeight bb → common a b r → common a' b r.
Proof using HA.
  intros Ea Eb Hle Ha' Ec Hc [[n Hn] [m Hm]]. destruct (up_lookup m b r bb Hm Eb) as (d & Ed & ?).
  split; [|by exists m]. eexists. apply (up_through _ a a' n r ba ca Ha' Ea Ec Hn). exists d. split; [done|lia].
Qed.

Lemma LastCommonAncestor_spec a b ba bb r : A !! a = Some ba → A !! b = Some bb → common a b r →
  ∃ q, LastCommonAncestor A a b = Some (Some q) ∧ is_lca a b q.
Proof using HA.
  intros Ea Eb Hr. pose proof (we_height _ _ _ (HA a ba Ea)). pose proof (we_height _ _ _ (HA b bb Eb)).
  unfold LastCommonAncestor. rewrite Ea, Eb. cbn [mbind option_bind].
  destruct (Z.ltb_spec (nHeight bb) (nHeight ba)); [|destruct (Z.ltb_spec (nHeight ba) (nHeight bb))].
  - destruct (up_spec A (Z.to_nat (nHeight ba - nHeight bb)) a ba HA Ea) as (a' & ca & Eu & Ec & Hc); [lia|].
    rewrite (GetAncestor_spec A a ba _ HA Ea), (proj2 (orb_false_iff _ _)), Eu by lia. cbn [mbind option_bind].
    destruct (lca_loop_spec (S (Z.to_nat (Z.min (nHeight ba) (nHeight bb)))) a' b ca bb r) as (q & -> & Hq);
      [done|done|lia|lia|apply (common_level a b ba bb a' ca r); [done|done|lia|done|done|lia|done]|].
    exists q. split; [done|]. apply (is_lca_up _ 0 a b a' b q Eu); [done| |done]. intros r' Hr'. by apply (common_level a b ba bb a' ca r'); [done|done|lia|done|done|lia|].
  - destruct (up_spec A (Z.to_nat (nHeight bb - nHeight ba)) b bb HA Eb) as (b' & cb & Eu & Ec & Hc); [lia|].
    rewrite (GetAncestor_spec A b bb _ HA Eb), (proj2 (orb_false_iff _ _)), Eu by lia. cbn [mbind option_bind].
    assert (∀ r, common a b r → common a b' r) as Hcom.
    { intros r' Hr'. apply common_sym. apply (common_level b a bb ba b' cb r'); [done|done|lia|done|done|lia|by apply common_sym]. }
    destruct (lca_loop_spec (S (Z.to_nat (Z.min (nHeight ba) (nHeight bb)))) a b' ba cb r) as (q & -> & Hq);
      [done|done|lia|lia|auto|].
    exists q. split; [done|]. eapply (is_lca_up 0 _ a b a b' q); [done|exact Eu|done|done].
  - apply (lca_loop_spec _ a b ba bb r); [done|done|lia|lia|done].
Qed.

Lemma GetLocator_spec v p b : is_chain A v → A !! p = Some b →
  ∃ ps hs, GetLocator A v (Some p) = Some hs ∧
    Forall2 (λ h q, at_height p b h = Some q) (locator_heights (Z.to_nat (nHeight b)) (nHeight b) 1 0) ps ∧
    Forall2 (λ q h, phashBlock <$> A !! q = Some h) ps hs.
Proof using HA.
  intros Hv Eb. pose proof (we_height _ _ _ (HA p b Eb)). unfold GetLocator. rewrite Eb. cbn [mbind option_bind].
  destruct (locator_loop_spec v (Z.to_nat (nHeight b)) Hv p b 1 0 Eb) as (ps & -> & Hps); [lia|lia|]. cbn [mbind option_bind].
  assert (Forall (λ q, ∃ h, phashBlock <$> A !! q = Some h) ps) as Hhs.
  { revert Hps. clear -HA Eb. induction 1 as [|h q hs ps Hq _ IH]; constructor; [|done].
    destruct (up_lookup _ p q b Hq Eb) as (c & -> & _). by eexists. }
  destruct (mapM (λ q, phashBlock <$> A !! q) ps) as [hs|] eqn:Em.
  - exists ps, hs. split_and!; [done|done|]. by apply mapM_Some in Em.
  - apply mapM_None in Em. apply Exists_exists in Em as (q & Hin & Hq). rewrite Forall_forall in Hhs. destruct (Hhs q Hin). congruence.
Qed.
End chain.

(** Setting the tip makes the active chain the path to the new tip.  From any earlier active
    chain (or none), [SetTip] succeeds; the new chain's tip is the given block, its height the
    block's height, and it contains exactly the block's ancestors, each followed by its child on the
    path.  The early stop of the loop at a slot that already agrees is what this rests on: the blocks
    below such a slot are those the new path needs. *)
Theorem SetTip_correct A v p b : wf_index A → is_chain A v → A !! p = Some b →
  SetTip A v None = Some [] ∧
  ∃ v', SetTip A v (Some p) = Some v' ∧ is_chain A v' ∧ Tip v' = Some p ∧ Height v' = nHeight b ∧
    (∀ q, Contains A v' q = true ↔ ∃ n, up A n p = Some q) ∧
    (∀ n q, up A (S n) p = Some q → Next A v' q = up A n p) ∧ Next A v' p = None.
Proof.
  intros HA Hv Eb. split; [done|]. destruct (SetTip_spec A HA v p b Hv Eb) as (v' & E & Hc).
  destruct (chain_Tip A HA v' p b Hc Eb) as [Ht Hh]. exists v'. split_and!; [done|by right; exists p|done|done| | |].
  - intros q. by apply Contains_iff.
  - intros n q. by apply Next_spec.
  - unfold Next. rewrite Eb. case_match; [|done]. unfold vget, Height in *. by rewrite (proj2 (orb_true_iff _ _)) by lia.
Qed.

(** Forks and locators.  [FindFork] returns the highest block of the given block's ancestry that
    the active chain contains, and null exactly when there is none, although it skips the blocks
    above the chain's height; [LastCommonAncestor] of two blocks that have a common ancestor passes
    its assertion and returns the common ancestor all others are ancestors of; [GetLocator] lists the
    hashes of the block's ancestors at the locator heights, whether it follows the chain's index or
    the skip list, from the block itself down to the root, and has at most 12 + log2(height) of
    them. *)
Theorem fork_points_correct A v p b : wf_index A → is_chain A v → A !! p = Some b →
  (∃ r, FindFork A v (Some p) = Some r ∧ last_in A v p r) ∧
  (∀ q c r, A !! q = Some c → common A p q r → ∃ a, LastCommonAncestor A p q = Some (Some a) ∧ is_lca A p q a) ∧
  ∃ heights ps hashes, GetLocator A v (Some p) = Some hashes ∧
    Forall2 (λ h q, at_height A p b h = Some q) heights ps ∧ Forall2 (λ q h, phashBlock <$> A !! q = Some h) ps hashes ∧
    heights !! 0%nat = Some (nHeight b) ∧ (∃ l, heights = l ++ [0]) ∧ Forall (λ h, 0 <= h <= nHeight b) heights ∧
    (0 < nHeight b → Z.of_nat (length hashes) <= 12 + Z.log2 (nHeight b)).
Proof.
  intros HA Hv Eb. pose proof (we_height _ _ _ (HA p b Eb)). split_and!; [by eapply FindFork_spec|intros; by eapply LastCommonAncestor_spec|].
  destruct (GetLocator_spec A HA v p b Hv Eb) as (ps & hs & E & Hps & Hhs). eexists _, ps, hs. split_and!; [done|exact Hps|done| | | |].
  - by destruct (locator_heights_cons (Z.to_nat (nHeight b)) (nHeight b) 1 0) as [l ->].
  - apply locator_heights_last; lia.
  - apply locator_heights_range; lia.
  - intros Hp. apply Forall2_length in Hps, Hhs. pose proof (locator_length (Z.to_nat (nHeight b)) (nHeight b) Hp).
    pose proof (Z.log2_nonneg (nHeight b)). lia.
Qed.

Lemma SetTip_correct_witness : ∃ v', SetTip sample_arena [] (Some 2%nat) = Some v' ∧ Tip v' = Some 2%nat.
Proof.
  destruct (sample_arena !! 2%nat) as [b|] eqn:Eb; [|vm_compute in Eb; discriminate Eb].
  destruct (SetTip_correct sample_arena [] 2%nat b sample_arena_wf (or_introl eq_refl) Eb) as (_ & v' & E & _ & Ht & _).
  exists v'. exact (conj E Ht).
Defined.
Lemma fork_points_correct_witness : ∃ r, FindFork sample_arena [0%nat] (Some 2%nat) = Some r ∧ last_in sample_arena [0%nat] 2 r.
Proof.
  destruct (sample_arena !! 2%nat) as [b|] eqn:Eb; [|vm_compute in Eb; discriminate Eb].
  assert (is_chain sample_arena [0%nat]) as Hv.
  { right. exists 0%nat. destruct (sample_arena !! 0%nat) as [g|] eqn:Eg; [|vm_compute in Eg; discriminate Eg].
    exists g. split; [exact Eg|]. split; [|intros [|i] Hi; [reflexivity|simpl in Hi; lia]]. vm_compute in Eg. injection Eg as <-. reflexivity. }
  apply (fork_points_correct sample_arena [0%nat] 2%nat b sample_arena_wf Hv Eb).
Defined.
End ActiveChain.
