(* ===== verification/ChainState.v ===== *)
(** * Choosing the active chain (main.cpp)

    The global state around the block index and the operations that change it: receiving the
    transactions of a block, choosing and activating the chain of most work, invalidating and
    reconsidering blocks.  What validating a block against the coins says is an interface. *)
From S2P Require Import Prelude ArithUint256 Chain.

Module ChainState.
Import Chain.

(** A run fails an assertion (or follows a null pointer), runs out of fuel, or gives a result. *)
Inductive fault := AssertFail | OutOfFuel.
Definition R (A : Type) : Type := (fault + A)%type.
#[export] Instance R_ret : MRet R := λ A x, inr x.
#[export] Instance R_bind : MBind R := λ A B f m, match m with inl e => inl e | inr x => f x end.
Definition deref {A} (o : option A) : R A := match o with Some x => inr x | None => inl AssertFail end.
Definition assert (b : bool) : R unit := if b then inr tt else inl AssertFail.

(** ** State *)
Definition BLOCK_VALID_TRANSACTIONS : Z := 3.
Definition BLOCK_HAVE_DATA : Z := 8.
Definition BLOCK_FAILED_VALID : Z := 32.
Definition BLOCK_FAILED_CHILD : Z := 64.
Definition BLOCK_OPT_WITNESS : Z := 128.

Record main_state := mkMain {
  ms_index : index_state; chainActive : list ptr; pindexBestInvalid : option ptr;
  setBlockIndexCandidates : gset ptr; mapBlocksUnlinked : list (ptr * ptr); nBlockSequenceId : Z }.
Notation arena_of st := (blocks (ms_index st)).

Definition set_index (st : main_state) (i : index_state) : main_state :=
  mkMain i (chainActive st) (pindexBestInvalid st) (setBlockIndexCandidates st) (mapBlocksUnlinked st) (nBlockSequenceId st).
Definition set_chain (st : main_state) (c : list ptr) : main_state :=
  mkMain (ms_index st) c (pindexBestInvalid st) (setBlockIndexCandidates st) (mapBlocksUnlinked st) (nBlockSequenceId st).
Definition set_invalid (st : main_state) (p : option ptr) : main_state :=
  mkMain (ms_index st) (chainActive st) p (setBlockIndexCandidates st) (mapBlocksUnlinked st) (nBlockSequenceId st).
Definition set_candidates (st : main_state) (c : gset ptr) : main_state :=
  mkMain (ms_index st) (chainActive st) (pindexBestInvalid st) c (mapBlocksUnlinked st) (nBlockSequenceId st).
Definition set_unlinked (st : main_state) (u : list (ptr * ptr)) : main_state :=
  mkMain (ms_index st) (chainActive st) (pindexBestInvalid st) (setBlockIndexCandidates st) u (nBlockSequenceId st).
Definition erase_candidate (st : main_state) (p : ptr) : main_state :=
  set_candidates st (setBlockIndexCandidates st ∖ {[p]}).

(** Writing through a block index pointer. *)
Definition set_block (st : main_state) (p : ptr) (b : CBlockIndex) : main_state :=
  let i := ms_index st in
  set_index st (mkState (<[p := b]> (blocks i)) (mapBlockIndex i) (pindexBestHeader i) (setDirtyBlockIndex i)).
Definition mark_dirty (st : main_state) (p : ptr) : main_state :=
  let i := ms_index st in
  set_index st (mkState (blocks i) (mapBlockIndex i) (pindexBestHeader i) ({[p]} ∪ setDirtyBlockIndex i)).
(** [p->nStatus |= flag] *)
Definition or_status (st : main_state) (p : ptr) (flag : Z) : R main_state :=
  b ← deref (arena_of st !! p); mret (set_block st p (set_nStatus b (Z.lor (nStatus b) flag))).

(** ** The order of candidates; addresses are positions in the arena. *)
Definition CBlockIndexWorkComparator (A : arena) (pa pb : ptr) : bool :=
  match A !! pa, A !! pb with
  | Some a, Some b =>
      let c := ArithUint256.CompareTo WIDTH (nChainWork a) (nChainWork b) in
      if 0 <? c then false else if c <? 0 then true
      else if nSequenceId a <? nSequenceId b then false else if nSequenceId b <? nSequenceId a then true
      else if (pa <? pb)%nat then false else (pb <? pa)%nat
  | _, _ => false
  end.

(** The last element of the ordered set. *)
Definition rbegin (A : arena) (s : gset ptr) : option ptr :=
  foldr (λ p acc, match acc with
                  | None => Some p
                  | Some q => Some (if CBlockIndexWorkComparator A q p then p else q)
                  end) None (elements s).

Definition is_failed (b : CBlockIndex) : bool := negb (Z.land (nStatus b) BLOCK_FAILED_MASK =? 0).
Definition have_data (b : CBlockIndex) : bool := negb (Z.land (nStatus b) BLOCK_HAVE_DATA =? 0).
(** [pa->nChainWork > pb->nChainWork] *)
Definition more_work (a b : CBlockIndex) : bool := 0 <? ArithUint256.CompareTo WIDTH (nChainWork a) (nChainWork b).

(** ** Receiving transactions *)
Definition set_data (b : CBlockIndex) (n file pos : Z) : CBlockIndex :=
  mkIndex (phashBlock b) (pprev b) (pskip b) (nHeight b) file pos 0 (nChainWork b) n 0 (nStatus b)
    (bi_nVersion b) (bi_hashMerkleRoot b) (nTime b) (nBits b) (bi_nNonce b) (nSequenceId b).
Definition set_chain_tx (b : CBlockIndex) (n seq : Z) : CBlockIndex :=
  mkIndex (phashBlock b) (pprev b) (pskip b) (nHeight b) (nFile b) (nDataPos b) (nUndoPos b) (nChainWork b) (nTx b) n (nStatus b)
    (bi_nVersion b) (bi_hashMerkleRoot b) (nTime b) (nBits b) (bi_nNonce b) seq.

(** One turn of the loop on the queue: the block becomes part of a complete chain, and its waiting children are queued. *)
Definition link_block (st : main_state) (p : ptr) : R (main_state * list ptr) :=
  b ← deref (arena_of st !! p);
  prevTx ← match pprev b with None => mret 0 | Some q => c ← deref (arena_of st !! q); mret (nChainTx c) end;
  let st := set_block st p (set_chain_tx b (u32 (prevTx + nTx b)) (nBlockSequenceId st)) in
  let st := mkMain (ms_index st) (chainActive st) (pindexBestInvalid st) (setBlockIndexCandidates st) (mapBlocksUnlinked st)
              (u32 (nBlockSequenceId st + 1)) in
  let st := match Tip (chainActive st) with
            | Some t => if CBlockIndexWorkComparator (arena_of st) p t then st
                        else set_candidates st ({[p]} ∪ setBlockIndexCandidates st)
            | None => set_candidates st ({[p]} ∪ setBlockIndexCandidates st)
            end in
  let waiting := filter (λ e : ptr * ptr, e.1 = p) (mapBlocksUnlinked st) in
  mret (set_unlinked st (filter (λ e : ptr * ptr, e.1 ≠ p) (mapBlocksUnlinked st)), waiting.*2).
Fixpoint link_loop (fuel : nat) (st : main_state) (queue : list ptr) : R main_state :=
  match queue with
  | [] => mret st
  | p :: queue =>
      match fuel with
      | O => inl OutOfFuel
      | S fuel => '(st, more) ← link_block st p; link_loop fuel st (queue ++ more)
      end
  end.

(** [fWitness] is [IsWitnessEnabled(pindexNew->pprev)], [fStake] is [block.IsProofOfStake()], [n] is [block.vtx.size()];
    every turn of the loop removes the queued children from [mapBlocksUnlinked]. *)
Definition ReceivedBlockTransactions (st : main_state) (fStake fWitness : bool) (n file pos : Z) (pindexNew : ptr) : R main_state :=
  b ← deref (arena_of st !! pindexNew);
  let b := if fStake then set_nStatus b (Z.lor (nStatus b) BLOCK_PROOF_OF_STAKE) else b in
  let b := set_data b (u32 n) file pos in
  let b := set_nStatus b (Z.lor (nStatus b) BLOCK_HAVE_DATA) in
  let b := if fWitness then set_nStatus b (Z.lor (nStatus b) BLOCK_OPT_WITNESS) else b in
  '(b, _) ← deref (RaiseValidity b BLOCK_VALID_TRANSACTIONS);
  let st := mark_dirty (set_block st pindexNew b) pindexNew in
  match pprev b with
  | None => link_loop (S (length (mapBlocksUnlinked st))) st [pindexNew]
  | Some q =>
      c ← deref (arena_of st !! q);
      if negb (nChainTx c =? 0) then link_loop (S (length (mapBlocksUnlinked st))) st [pindexNew]
      else v ← deref (IsValid c BLOCK_VALID_TREE);
           mret (if v : bool then set_unlinked st (mapBlocksUnlinked st ++ [(q, pindexNew)]) else st)
  end.

(** ** Invalid chains *)
(** The warnings about large forks and the bookkeeping about the sender are not modelled. *)
Definition InvalidChainFound (st : main_state) (pindexNew : ptr) : R main_state :=
  b ← deref (arena_of st !! pindexNew);
  better ← match pindexBestInvalid st with
           | None => mret true
           | Some i => c ← deref (arena_of st !! i); mret (more_work b c)
           end;
  _ ← deref (Tip (chainActive st));
  mret (if better : bool then set_invalid st (Some pindexNew) else st).
Definition InvalidBlockFound (st : main_state) (pindex : ptr) (corruption : bool) : R main_state :=
  if corruption then mret st
  else st ← or_status st pindex BLOCK_FAILED_VALID;
       InvalidChainFound (erase_candidate (mark_dirty st pindex) pindex) pindex.

(** ** The candidate of most work *)
(** The walk from the candidate to the active chain; [Some q] is the first block that cannot be used. *)
Fixpoint test_walk (fuel : nat) (st : main_state) (pindexTest : option ptr) : R (option ptr) :=
  match pindexTest with
  | None => mret None
  | Some q =>
      if Contains (arena_of st) (chainActive st) q then mret None
      else match fuel with
           | O => inl OutOfFuel
           | S fuel =>
               b ← deref (arena_of st !! q);
               _ ← assert (negb (nChainTx b =? 0) || (nHeight b =? 0));
               if (is_failed b || negb (have_data b))%bool then mret (Some q) else test_walk fuel st (pprev b)
           end
  end.
(** Removing the chain above the block that cannot be used. *)
Fixpoint remove_chain (fuel : nat) (st : main_state) (fFailedChain : bool) (pindexTest pindexFailed : ptr) : R main_state :=
  if decide (pindexTest = pindexFailed) then mret st
  else match fuel with
       | O => inl OutOfFuel
       | S fuel =>
           b ← deref (arena_of st !! pindexFailed);
           q ← deref (pprev b);
           st ← (if fFailedChain then or_status st pindexFailed BLOCK_FAILED_CHILD
                 else mret (set_unlinked st (mapBlocksUnlinked st ++ [(q, pindexFailed)])));
           remove_chain fuel (erase_candidate st pindexFailed) fFailedChain pindexTest q
       end.
Fixpoint find_loop (fuel : nat) (st : main_state) : R (main_state * option ptr) :=
  match rbegin (arena_of st) (setBlockIndexCandidates st) with
  | None => mret (st, None)
  | Some pindexNew =>
      match fuel with
      | O => inl OutOfFuel
      | S fuel =>
          n ← deref (arena_of st !! pindexNew);
          r ← test_walk (S (Z.to_nat (nHeight n))) st (Some pindexNew);
          match r with
          | None => mret (st, Some pindexNew)
          | Some pindexTest =>
              t ← deref (arena_of st !! pindexTest);
              better ← (if is_failed t then
                          match pindexBestInvalid st with
                          | None => mret true
                          | Some i => c ← deref (arena_of st !! i); mret (more_work n c)
                          end
                        else mret false);
              let st := if better : bool then set_invalid st (Some pindexNew) else st in
              st ← remove_chain (Z.to_nat (nHeight n)) st (is_failed t) pindexTest pindexNew;
              find_loop fuel (erase_candidate st pindexTest)
          end
      end
  end.
(** Every turn that does not return erases the candidate it looked at. *)
Definition FindMostWorkChain (st : main_state) : R (main_state * option ptr) :=
  find_loop (size (setBlockIndexCandidates st)) st.

Definition PruneBlockIndexCandidates (st : main_state) : R main_state :=
  t ← deref (Tip (chainActive st));
  let c := filter (λ p, CBlockIndexWorkComparator (arena_of st) p t = false) (setBlockIndexCandidates st) in
  _ ← assert (bool_decide (c ≠ ∅)); mret (set_candidates st c).

(** ** Connecting and disconnecting *)
(** What reading and connecting a block gives: it is connected, it violates a rule (or its data may be corrupt), or the
    system fails.  Validation of transactions is an interface here, and stands for the functions modelled in [ConnectBlock.v] and [Tip.v]: a block is only ever connected on top of its own parent, so
    the answer is taken to depend on the block alone.  That is an assumption: the time, the options and the disk can make
    it change between two attempts, which these theorems do not cover. *)
Inductive connect_result := connected | invalid (corruption : bool) | system_error.
(** What else the loop asks: whether a shutdown was requested (the turns are counted from the end), and whether the state could be written
    to disk at the end. *)
Class Validation := { ConnectBlock : ptr → connect_result; DisconnectBlock : ptr → bool; ShutdownRequested : nat → bool; flush_ok : bool }.

Section activate.
Context {V : Validation}.

Definition UpdateTip (st : main_state) (p : option ptr) : R main_state :=
  c ← deref (SetTip (arena_of st) (chainActive st) p); mret (set_chain st c).
Definition DisconnectTip (st : main_state) : R (main_state * bool) :=
  pindexDelete ← deref (Tip (chainActive st));
  b ← deref (arena_of st !! pindexDelete);
  if DisconnectBlock pindexDelete then st ← UpdateTip st (pprev b); mret (st, true) else mret (st, false).
Definition ConnectTip (st : main_state) (pindexNew : ptr) : R (main_state * connect_result) :=
  b ← deref (arena_of st !! pindexNew);
  _ ← assert (bool_decide (pprev b = Tip (chainActive st)));
  match ConnectBlock pindexNew with
  | connected => st ← UpdateTip st (Some pindexNew); mret (st, connected)
  | invalid corruption => st ← InvalidBlockFound st pindexNew corruption; mret (st, invalid corruption)
  | system_error => mret (st, system_error)
  end.

(** ** One step towards the best chain *)
Fixpoint disconnect_loop (fuel : nat) (st : main_state) (pindexFork : option ptr) (fBlocksDisconnected : bool)
    : R (main_state * bool * bool) :=
  match Tip (chainActive st) with
  | None => mret (st, true, fBlocksDisconnected)
  | Some t =>
      if decide (Some t = pindexFork) then mret (st, true, fBlocksDisconnected)
      else match fuel with
           | O => inl OutOfFuel
           | S fuel =>
               '(st, ok) ← DisconnectTip st;
               if ok : bool then disconnect_loop fuel st pindexFork true else mret (st, false, fBlocksDisconnected)
           end
  end.
(** The blocks to connect, the highest first. *)
Fixpoint to_connect (fuel : nat) (A : arena) (pindexIter : option ptr) (nHeight' : Z) : R (list ptr) :=
  match pindexIter with
  | None => mret []
  | Some p =>
      b ← deref (A !! p);
      if nHeight b =? nHeight' then mret []
      else match fuel with
           | O => inl OutOfFuel
           | S fuel => l ← to_connect fuel A (pprev b) nHeight'; mret (p :: l)
           end
  end.

(** How connecting a batch ended: all connected, a better position than before, an invalid block, a system error. *)
Inductive batch_end := all_connected | better_position | invalid_found | batch_error.
(** [back] is [vpindexToConnect.back()]. *)
Fixpoint connect_batch (st : main_state) (pindexOldTip : option ptr) (back : ptr) (l : list ptr) : R (main_state * batch_end) :=
  match l with
  | [] => mret (st, all_connected)
  | p :: l =>
      '(st, r) ← ConnectTip st p;
      match r with
      | invalid corruption =>
          st ← (if corruption : bool then mret st else InvalidChainFound st back); mret (st, invalid_found)
      | system_error => mret (st, batch_error)
      | connected =>
          st ← PruneBlockIndexCandidates st;
          better ← match pindexOldTip with
                   | None => mret true
                   | Some o => t ← deref (Tip (chainActive st)); a ← deref (arena_of st !! t); b ← deref (arena_of st !! o);
                               mret (more_work a b)
                   end;
          if better : bool then mret (st, better_position) else connect_batch st pindexOldTip back l
      end
  end.
Fixpoint connect_loop (fuel : nat) (st : main_state) (pindexOldTip : option ptr) (pindexMostWork : ptr) (nHeight' : Z)
    : R (main_state * batch_end) :=
  m ← deref (arena_of st !! pindexMostWork);
  if nHeight' =? nHeight m then mret (st, all_connected)
  else match fuel with
       | O => inl OutOfFuel
       | S fuel =>
           let nTargetHeight := Z.min (nHeight' + 32) (nHeight m) in
           pindexIter ← deref (GetAncestor (arena_of st) pindexMostWork nTargetHeight);
           l ← to_connect (Z.to_nat (nTargetHeight + 1)) (arena_of st) pindexIter nHeight';
           '(st, r) ← connect_batch st pindexOldTip (default 0%nat (rev l !! 0%nat)) (rev l);
           match r with
           | all_connected => connect_loop fuel st pindexOldTip pindexMostWork nTargetHeight
           | r => mret (st, r)
           end
       end.

(** The result of a step: the state, whether it succeeded and whether an invalid block was found. *)
Definition ActivateBestChainStep (st : main_state) (pindexMostWork : ptr) : R (main_state * bool * bool) :=
  let pindexOldTip := Tip (chainActive st) in
  pindexFork ← deref (FindFork (arena_of st) (chainActive st) (Some pindexMostWork));
  '(st, ok, fBlocksDisconnected) ← disconnect_loop (length (chainActive st)) st pindexFork false;
  if negb ok then mret (st, false, false)
  else
    nHeight' ← match pindexFork with None => mret (-1) | Some f => b ← deref (arena_of st !! f); mret (nHeight b) end;
    m ← deref (arena_of st !! pindexMostWork);
    '(st, r) ← connect_loop (Z.to_nat (nHeight m + 1)) st pindexOldTip pindexMostWork nHeight';
    match r with
    | batch_error => mret (st, false, false)
    | _ =>
        _ ← assert (negb fBlocksDisconnected || bool_decide (is_Some (Tip (chainActive st))));
        mret (st, true, match r with invalid_found => true | _ => false end)
    end.

Fixpoint activate_loop (fuel : nat) (st : main_state) (pindexMostWork : option ptr) : R (main_state * bool) :=
  match fuel with
  | O => inl OutOfFuel
  | S fuel =>
      if ShutdownRequested fuel then mret (st, flush_ok)
      else
        '(st, pindexMostWork) ← match pindexMostWork with None => FindMostWorkChain st | Some _ => mret (st, pindexMostWork) end;
        match pindexMostWork with
        | None => mret (st, true)
        | Some m =>
            if decide (Some m = Tip (chainActive st)) then mret (st, true)
            else
              '(st, ok, fInvalidFound) ← ActivateBestChainStep st m;
              if negb ok then mret (st, false)
              else
                let pindexMostWork := if fInvalidFound : bool then None else Some m in
                if decide (Tip (chainActive st) = pindexMostWork) then mret (st, flush_ok) else activate_loop fuel st pindexMostWork
        end
  end.
(** Each invalid block is found once, and between two of them every step connects at least one block.  Left out are the notifications, [CheckBlockIndex],
    which does nothing unless the debugging option is set, and the sigma transactions that leave the memory pool. *)
Definition ActivateBestChain (st : main_state) : R (main_state * bool) :=
  let n := S (length (arena_of st)) in activate_loop (n * S n) st None.

(** ** Invalidating and reconsidering *)
Fixpoint invalidate_loop (fuel : nat) (st : main_state) (pindex : ptr) : R (main_state * bool) :=
  if Contains (arena_of st) (chainActive st) pindex then
    match fuel with
    | O => inl OutOfFuel
    | S fuel =>
        pindexWalk ← deref (Tip (chainActive st));
        st ← or_status st pindexWalk BLOCK_FAILED_CHILD;
        '(st, ok) ← DisconnectTip (erase_candidate (mark_dirty st pindexWalk) pindexWalk);
        if ok : bool then invalidate_loop fuel st pindex else _ ← deref (Tip (chainActive st)); mret (st, false)
    end
  else mret (st, true).
(** The blocks of [mapBlockIndex] that are as good as the tip become candidates again. *)
Definition readd_candidate (p : ptr) (st : main_state) : R main_state :=
  b ← deref (arena_of st !! p);
  v ← deref (IsValid b BLOCK_VALID_TRANSACTIONS);
  if (v && negb (nChainTx b =? 0))%bool then
    t ← deref (Tip (chainActive st));
    mret (if CBlockIndexWorkComparator (arena_of st) p t then st else set_candidates st ({[p]} ∪ setBlockIndexCandidates st))
  else mret st.
Fixpoint foldR {B} (f : B → main_state → R main_state) (l : list B) (st : main_state) : R main_state :=
  match l with [] => mret st | x :: l => st ← f x st; foldR f l st end.
Definition InvalidateBlock (st : main_state) (pindex : ptr) : R (main_state * bool) :=
  st ← or_status st pindex BLOCK_FAILED_VALID;
  '(st, ok) ← invalidate_loop (length (chainActive st)) (erase_candidate (mark_dirty st pindex) pindex) pindex;
  if negb ok then mret (st, false)
  else
    st ← foldR readd_candidate (map_to_list (mapBlockIndex (ms_index st))).*2 st;
    st ← InvalidChainFound st pindex;
    _ ← deref (Tip (chainActive st));
    mret (st, true).

(** [p->nStatus &= ~BLOCK_FAILED_MASK] *)
Definition clear_failed (st : main_state) (p : ptr) (b : CBlockIndex) : main_state :=
  mark_dirty (set_block st p (set_nStatus b (Z.land (nStatus b) (u32 (Z.lnot BLOCK_FAILED_MASK))))) p.
Definition reconsider_one (pindex : ptr) (height : Z) (p : ptr) (st : main_state) : R main_state :=
  b ← deref (arena_of st !! p);
  v ← deref (IsValid b BLOCK_VALID_TRANSACTIONS);
  if v : bool then mret st
  else
    a ← deref (GetAncestor (arena_of st) p height);
    if decide (a = Some pindex) then
      let st := clear_failed st p b in
      b ← deref (arena_of st !! p);
      v ← deref (IsValid b BLOCK_VALID_TRANSACTIONS);
      st ← (if (v && negb (nChainTx b =? 0))%bool then
              t ← deref (Tip (chainActive st));
              mret (if CBlockIndexWorkComparator (arena_of st) t p then set_candidates st ({[p]} ∪ setBlockIndexCandidates st) else st)
            else mret st);
      mret (if decide (Some p = pindexBestInvalid st) then set_invalid st None else st)
    else mret st.
Fixpoint clear_ancestors (fuel : nat) (st : main_state) (pindex : option ptr) : R main_state :=
  match pindex with
  | None => mret st
  | Some p =>
      match fuel with
      | O => inl OutOfFuel
      | S fuel =>
          b ← deref (arena_of st !! p);
          clear_ancestors fuel (if is_failed b then clear_failed st p b else st) (pprev b)
      end
  end.
Definition ReconsiderBlock (st : main_state) (pindex : ptr) : R main_state :=
  b ← deref (arena_of st !! pindex);
  st ← foldR (reconsider_one pindex (nHeight b)) (map_to_list (mapBlockIndex (ms_index st))).*2 st;
  clear_ancestors (S (Z.to_nat (nHeight b))) st (Some pindex).
(** The same statements without a validation state. *)
Definition ResetBlockFailureFlags (st : main_state) (pindex : ptr) : R main_state :=
  b ← deref (arena_of st !! pindex);
  st ← foldR (reconsider_one pindex (nHeight b)) (map_to_list (mapBlockIndex (ms_index st))).*2 st;
  clear_ancestors (S (Z.to_nat (nHeight b))) st (Some pindex).
End activate.
End ChainState.
