(* ===== verification/BestChain.v ===== *)
(** * The active chain is the chain of most work

    The order of candidates, the candidate walk, one activation step and the activation loop of
    ChainState: activation ends, and ends with the best block among those that are complete and valid. *)
From S2P Require Import Prelude ArithUint256 Chain ActiveChain ChainState.

Module BestChain.
Import Chain ActiveChain ChainState.
Notation less := CBlockIndexWorkComparator.
Notation work b := (ArithUint256.val (nChainWork b)).

(** ** The tree of blocks *)
Record tree (A : arena) : Prop := {
  tr_index : wf_index A;
  tr_width : ∀ p b, A !! p = Some b → ArithUint256.wf WIDTH (nChainWork b);
  tr_work : ∀ p b q c, A !! p = Some b → pprev b = Some q → A !! q = Some c → work c < work b }.

(** ** The order of candidates *)
Definition before (a b : CBlockIndex) (p q : ptr) : Prop :=
  work a < work b ∨ work a = work b ∧ (nSequenceId b < nSequenceId a ∨ nSequenceId a = nSequenceId b ∧ (q < p)%nat).

Section order.
Context (A : arena) (HA : tree A).

Lemma less_iff p q a b : A !! p = Some a → A !! q = Some b → less A p q = true ↔ before a b p q.
Proof using HA.
  intros Ea Eb. unfold CBlockIndexWorkComparator, before. rewrite Ea, Eb.
  rewrite ArithUint256.CompareTo_spec by (by eapply tr_width).
  destruct (Z.ltb_spec 0 (Z.sgn (work a - work b))); [split; [done|lia]|].
  destruct (Z.ltb_spec (Z.sgn (work a - work b)) 0); [split; [lia|done]|].
  destruct (Z.ltb_spec (nSequenceId a) (nSequenceId b)); [split; [done|lia]|].
  destruct (Z.ltb_spec (nSequenceId b) (nSequenceId a)); [split; [lia|done]|].
  destruct (Nat.ltb_spec p q); [split; [done|lia]|]. rewrite Nat.ltb_lt. lia.
Qed.
Lemma less_lookup p q : less A p q = true → ∃ a b, A !! p = Some a ∧ A !! q = Some b.
Proof. unfold CBlockIndexWorkComparator. destruct (A !! p), (A !! q); naive_solver. Qed.
Lemma less_irrefl p : less A p p = false.
Proof using HA.
  destruct (less A p p) eqn:E; [|done]. destruct (less_lookup _ _ E) as (a & _ & Ea & _). apply (less_iff p p a a Ea Ea) in E.
  unfold before in E. lia.
Qed.
Lemma less_trans p q r : less A p q = true → less A q r = true → less A p r = true.
Proof using HA.
  intros H1 H2. destruct (less_lookup _ _ H1) as (a & b & Ea & Eb), (less_lookup _ _ H2) as (_ & c & _ & Ec).
  rewrite less_iff in H1, H2 |- * by done. unfold before in *. lia.
Qed.
Lemma less_total p q a b : A !! p = Some a → A !! q = Some b → p = q ∨ less A p q = true ∨ less A q p = true.
Proof using HA. intros Ea Eb. rewrite !less_iff by done. unfold before. lia. Qed.
Lemma less_asym p q : less A p q = true → less A q p = false.
Proof using HA. intros H. destruct (less A q p) eqn:E; [|done]. by rewrite <- (less_irrefl p), (less_trans p q p). Qed.

(** [p] is as good as [q] *)
Definition geq (p q : ptr) : Prop := p = q ∨ less A q p = true.
Lemma geq_trans p q r : geq p q → geq q r → geq p r.
Proof using HA. intros [-> |H1] [-> |H2]; [by left|by right|by right|right; by eapply less_trans]. Qed.
Lemma geq_not_less p q : geq p q → less A p q = false.
Proof using HA. intros [-> |H]; [apply less_irrefl|by apply less_asym]. Qed.
Lemma not_less_geq p q a b : A !! p = Some a → A !! q = Some b → less A p q = false → geq p q.
Proof using HA. intros Ea Eb H. destruct (less_total p q a b Ea Eb) as [|[?|?]]; [by left|congruence|by right]. Qed.

Lemma rbegin_spec s : (∀ p, p ∈ s → is_Some (A !! p)) →
  match rbegin A s with None => s = ∅ | Some m => m ∈ s ∧ ∀ p, p ∈ s → geq m p end.
Proof using HA.
  intros Hs. unfold rbegin.
  assert (∀ l, (∀ p, p ∈ l → is_Some (A !! p)) →
    match foldr (λ p acc, match acc with None => Some p | Some q => Some (if less A q p then p else q) end) None l with
    | None => l = [] | Some m => m ∈ l ∧ ∀ p, p ∈ l → geq m p end) as H.
  { induction l as [|p l IH]; intros Hl; [done|]. cbn [foldr]. specialize (IH ltac:(set_solver)).
    destruct (foldr _ None l) as [m|].
    - destruct IH as [Hm Hmax]. destruct (Hl p ltac:(set_solver)) as [b Eb], (Hl m ltac:(set_solver)) as [c Ec].
      destruct (less A m p) eqn:E.
      + split; [set_solver|]. intros q [-> |Hq]%elem_of_cons; [by left|]. eapply geq_trans; [by right|by apply Hmax].
      + split; [set_solver|]. intros q [-> |Hq]%elem_of_cons; [by eapply not_less_geq|by apply Hmax].
    - subst l. split; [set_solver|]. intros q Hq. left. set_solver. }
  specialize (H (elements s) ltac:(set_solver)). destruct (foldr _ None (elements s)) as [m|].
  - destruct H as [? Hmax]. split; [set_solver|]. intros p Hp. apply Hmax. set_solver.
  - apply elements_empty_iff in H. by apply leibniz_equiv in H.
Qed.

(** A block is better than its ancestors. *)
Lemma up_work n : ∀ p q b c, up A n p = Some q → A !! p = Some b → A !! q = Some c → n ≠ 0%nat → work c < work b.
Proof using HA.
  induction n as [|n IH]; intros p q b c Hu Eb Ec Hn; [done|]. cbn [up] in Hu. rewrite Eb in Hu. cbn [mbind option_bind] in Hu.
  destruct (pprev b) as [r|] eqn:Er; [|done]. cbn [mbind option_bind] in Hu. pose proof (we_prev _ _ _ (tr_index A HA p b Eb)) as Hp.
  rewrite Er in Hp. destruct Hp as (d & Ed & _). pose proof (tr_work A HA p b r d Eb Er Ed). destruct n as [|n].
  - cbn [up] in Hu. simplify_eq. lia.
  - pose proof (IH r q d c Hu Ed Ec). lia.
Qed.
Lemma up_geq n p q : up A n p = Some q → is_Some (A !! p) → geq p q.
Proof using HA.
  intros Hu [b Eb]. destruct (up_lookup A (tr_index A HA) n p q b Hu Eb) as (c & Ec & _). destruct n as [|n].
  - cbn [up] in Hu. left. by simplify_eq.
  - right. apply (less_iff q p c b Ec Eb). left. by eapply (up_work (S n)).
Qed.
End order.

(** ** What the tree depends on *)
Lemma st_chain_to A B (HS : same_tree A B) v p : chain_to A v p → chain_to B v p.
Proof.
  intros (b & Eb & Hl & Hv). destruct (st_lookup A B HS p b Eb) as (c & Ec & (_ & _ & Hh & _)%bones_fields).
  exists c. rewrite <- Hh. split_and!; [done|done|]. intros i Hi. by rewrite Hv, (st_up A B HS).
Qed.
Lemma st_tree A B : same_tree A B → tree A → tree B.
Proof.
  intros HS HA. pose proof (st_sym _ _ HS) as HS'. split.
  - by eapply st_index, HA.
  - intros p b Eb. destruct (st_lookup B A HS' p b Eb) as (c & Ec & (_ & _ & _ & ->)%bones_fields). by eapply tr_width.
  - intros p b q c Eb Eq Ec. destruct (st_lookup B A HS' p b Eb) as (b' & Eb' & (Hp & _ & _ & Hw)%bones_fields).
    destruct (st_lookup B A HS' q c Ec) as (c' & Ec' & (_ & _ & _ & Hw')%bones_fields). rewrite Hw, Hw'.
    apply (tr_work A HA p b' q c'); [done|congruence|done].
Qed.

(** ** Status flags change neither the tree nor the order *)
Definition shape (b : CBlockIndex) : CBlockIndex := set_nStatus b 0.
Definition same (A B : arena) : Prop := map shape A = map shape B.
Lemma shape_bones b c : shape b = shape c → bones b = bones c ∧ nHeight b = nHeight c ∧ nTx b = nTx c ∧ nChainTx b = nChainTx c ∧
  nSequenceId b = nSequenceId c.
Proof. destruct b, c. intros H. injection H. intros. subst. done. Qed.
Lemma same_lookup A B p b : same A B → A !! p = Some b → ∃ c, B !! p = Some c ∧ shape b = shape c.
Proof. by apply map_lookup. Qed.
Lemma same_same_tree A B : same A B → same_tree A B.
Proof.
  intros HS. unfold same_tree. change (map (λ b, bones (shape b)) A = map (λ b, bones (shape b)) B).
  transitivity (map bones (map shape A)); [symmetry; apply map_map|rewrite HS; apply map_map].
Qed.
Lemma same_sym A B : same A B → same B A.
Proof. unfold same. congruence. Qed.
Lemma same_length A B : same A B → length A = length B.
Proof. apply map_length_eq. Qed.
Lemma same_up A B n p : same A B → up A n p = up B n p.
Proof. intros H. by apply st_up, same_same_tree. Qed.
Lemma same_less A B p q : same A B → less A p q = less B p q.
Proof.
  intros HS. unfold CBlockIndexWorkComparator. destruct (A !! p) as [a|] eqn:Ea; [|by rewrite (map_None shape A B p HS Ea)].
  destruct (same_lookup A B p a HS Ea) as (a' & -> & ((_ & _ & _ & ->)%bones_fields & _ & _ & _ & ->)%shape_bones).
  destruct (A !! q) as [b|] eqn:Eb; [|by rewrite (map_None shape A B q HS Eb)].
  by destruct (same_lookup A B q b HS Eb) as (b' & -> & ((_ & _ & _ & ->)%bones_fields & _ & _ & _ & ->)%shape_bones).
Qed.
Lemma same_geq A B p q : same A B → geq A p q ↔ geq B p q.
Proof. intros HS. unfold geq. by rewrite (same_less A B q p HS). Qed.
Lemma same_insert A p b c : A !! p = Some b → shape c = shape b → same A (<[p := c]> A).
Proof. apply map_insert_same. Qed.
Lemma same_trans A B C : same A B → same B C → same A C.
Proof. unfold same. congruence. Qed.

Section good.
Context {V : Validation}.

(** ** Usable and valid blocks *)
Definition linked_block (A : arena) (p : ptr) : Prop := ∃ b, A !! p = Some b ∧ nChainTx b ≠ 0.
Definition usable_block (A : arena) (p : ptr) : Prop :=
  ∃ b, A !! p = Some b ∧ nChainTx b ≠ 0 ∧ is_failed b = false ∧ have_data b = true.
(** A property of a block and all its ancestors. *)
Definition all_up (A : arena) (P : ptr → Prop) (p : ptr) : Prop := ∀ n q, up A n p = Some q → P q.
Definition linked (A : arena) : ptr → Prop := all_up A (linked_block A).
Definition usable (A : arena) : ptr → Prop := all_up A (usable_block A).
Definition good (A : arena) : ptr → Prop := all_up A (λ q, usable_block A q ∧ ConnectBlock q = connected).

Lemma all_up_up A P n p q : all_up A P p → up A n p = Some q → all_up A P q.
Proof. intros H Hu m r Hr. apply (H (n + m)%nat). by rewrite up_add, Hu. Qed.
Lemma all_up_self A P p : all_up A P p → P p.
Proof. intros H. by apply (H 0%nat). Qed.
Lemma good_block A p : good A p → usable_block A p ∧ ConnectBlock p = connected.
Proof. apply all_up_self. Qed.
Lemma good_usable A p : good A p → usable A p.
Proof. intros H n q Hu. by apply (H n q). Qed.
Lemma usable_linked A p : usable A p → linked A p.
Proof. intros H n q Hu. destruct (H n q Hu) as (b & ? & ? & _). by exists b. Qed.
Lemma linked_lookup A p : linked A p → is_Some (A !! p).
Proof. intros (b & ? & _)%all_up_self. eauto. Qed.
Lemma same_linked A B p : same A B → linked A p → linked B p.
Proof.
  intros HS H n q Hu. rewrite <- (same_up A B) in Hu by done. destruct (H n q Hu) as (b & Eb & Hb).
  destruct (same_lookup A B q b HS Eb) as (c & Ec & (_ & _ & _ & Hc & _)%shape_bones). exists c. by rewrite <- Hc.
Qed.

(** ** Marking a block as failed *)
Lemma failed_or b f : Z.land f BLOCK_FAILED_MASK ≠ 0 → is_failed (set_nStatus b (Z.lor (nStatus b) f)) = true.
Proof.
  intros Hf. unfold is_failed. apply negb_true_iff, Z.eqb_neq. cbn [nStatus set_nStatus].
  rewrite Z.land_lor_distr_l. intros [_ H]%Z.lor_eq_0_iff. done.
Qed.
Definition marked (b : CBlockIndex) (f : Z) : CBlockIndex := set_nStatus b (Z.lor (nStatus b) f).

Lemma mark_good A p b f : A !! p = Some b → Z.land f BLOCK_FAILED_MASK ≠ 0 → ¬ good A p →
  ∀ q, good (<[p := marked b f]> A) q ↔ good A q.
Proof.
  intros Eb Hf Hbad q. pose proof (same_insert A p b (marked b f) Eb eq_refl) as HS.
  pose proof (lookup_lt_Some _ _ _ Eb) as Hlt. split; intros H n r Hu.
  - rewrite (same_up _ _ _ _ HS) in Hu. destruct (H n r Hu) as [(c & Ec & H1 & H2 & H3) ?]. split; [|done].
    destruct (decide (r = p)) as [->|]; [|rewrite list_lookup_insert_ne in Ec by done; by exists c].
    rewrite list_lookup_insert_eq in Ec by done. injection Ec as <-. unfold marked in H2. by rewrite failed_or in H2.
  - rewrite <- (same_up _ _ _ _ HS) in Hu. destruct (H n r Hu) as [(c & Ec & H1 & H2 & H3) ?]. split; [|done]. exists c.
    split_and!; try done. rewrite list_lookup_insert_ne; [done|]. intros ->. apply Hbad. by eapply all_up_up.
Qed.

(** ** What a search and an activation may change *)
Definition no_missing (A : arena) : Prop := ∀ p b, A !! p = Some b → nChainTx b ≠ 0 → have_data b = true.
Definition flags_kept (A B : arena) : Prop := ∀ p b, A !! p = Some b →
  ∃ c, B !! p = Some c ∧ have_data c = have_data b ∧ Z.land (nStatus c) BLOCK_VALID_MASK = Z.land (nStatus b) BLOCK_VALID_MASK.
Record quiet (st st' : main_state) : Prop := {
  qu_flags : flags_kept (arena_of st) (arena_of st');
  qu_unlinked : no_missing (arena_of st) → mapBlocksUnlinked st' = mapBlocksUnlinked st;
  qu_map : mapBlockIndex (ms_index st') = mapBlockIndex (ms_index st);
  qu_header : pindexBestHeader (ms_index st') = pindexBestHeader (ms_index st) }.
Lemma flags_kept_refl A : flags_kept A A.
Proof. intros p b Eb. by exists b. Qed.
Lemma same_no_missing A B : same A B → flags_kept A B → no_missing A → no_missing B.
Proof.
  intros HS HF HN p c Ec Htx. destruct (same_lookup B A p c (same_sym _ _ HS) Ec) as (b & Eb & (_ & _ & _ & Hb & _)%shape_bones).
  destruct (HF p b Eb) as (c' & Ec' & Hd & _). rewrite Ec in Ec'. injection Ec' as <-. rewrite Hd. apply (HN p b Eb). by rewrite <- Hb.
Qed.
Lemma quiet_untouched st st' : ms_index st' = ms_index st → mapBlocksUnlinked st' = mapBlocksUnlinked st → quiet st st'.
Proof. intros E1 E2. split; rewrite ?E1; try done. apply flags_kept_refl. Qed.
Lemma quiet_trans st st' st'' : same (arena_of st) (arena_of st') → quiet st st' → quiet st' st'' → quiet st st''.
Proof.
  intros HS [A1 B1 C1 D1] [A2 B2 C2 D2]. split; [|intros HN; rewrite B2, B1; [done..|by eapply same_no_missing]|congruence|congruence].
  intros p b Eb. destruct (A1 p b Eb) as (c & Ec & H1 & H2). destruct (A2 p c Ec) as (d & Ed & H3 & H4). exists d. split_and!; congruence.
Qed.
Lemma mark_flags A p b f : A !! p = Some b → Z.land f (Z.lor BLOCK_HAVE_DATA BLOCK_VALID_MASK) = 0 → flags_kept A (<[p := marked b f]> A).
Proof.
  intros Eb Hf q c Ec. assert (Z.land f BLOCK_HAVE_DATA = 0 ∧ Z.land f BLOCK_VALID_MASK = 0) as [H1 H2].
  { rewrite Z.land_lor_distr_r in Hf. by apply Z.lor_eq_0_iff in Hf. }
  destruct (decide (q = p)) as [->|]; [|rewrite list_lookup_insert_ne by done; eauto]. rewrite Eb in Ec. injection Ec as <-.
  rewrite list_lookup_insert_eq by (by eapply lookup_lt_Some). eexists. split; [done|]. unfold have_data, marked. cbn [nStatus set_nStatus].
  rewrite !Z.land_lor_distr_l, H1, H2, !Z.lor_0_r. done.
Qed.
Record shrunk (st st' : main_state) : Prop := {
  sh_same : same (arena_of st) (arena_of st');
  sh_good : ∀ p, good (arena_of st') p ↔ good (arena_of st) p;
  sh_failed : ∀ p b, arena_of st !! p = Some b → is_failed b = true →
    ∃ c, arena_of st' !! p = Some c ∧ is_failed c = true;
  sh_cand : setBlockIndexCandidates st' ⊆ setBlockIndexCandidates st;
  sh_keep : ∀ p, p ∈ setBlockIndexCandidates st → good (arena_of st) p → p ∈ setBlockIndexCandidates st';
  sh_chain : chainActive st' = chainActive st;
  sh_invalid : (∀ i, pindexBestInvalid st = Some i → is_Some (arena_of st !! i)) →
    ∀ i, pindexBestInvalid st' = Some i → is_Some (arena_of st' !! i);
  sh_quiet : quiet st st' }.

Lemma shrunk_refl st : shrunk st st.
Proof. split; try done; [intros p b Eb Hb; by exists b|by apply quiet_untouched]. Qed.
Lemma shrunk_trans st st' st'' : shrunk st st' → shrunk st' st'' → shrunk st st''.
Proof.
  intros [A1 B1 C1 D1 E1 F1 G1 I1] [A2 B2 C2 D2 E2 F2 G2 I2]. split.
  - by eapply same_trans.
  - intros p. by rewrite B2, B1.
  - intros p b Eb Hb. destruct (C1 p b Eb Hb) as (c & Ec & Hc). by apply (C2 p c).
  - set_solver.
  - intros p Hp Hg. apply E2; [by apply E1|by apply B1].
  - congruence.
  - auto.
  - by eapply quiet_trans.
Qed.

Lemma shrunk_erase st p : ¬ good (arena_of st) p → shrunk st (erase_candidate st p).
Proof.
  intros Hp. split; cbn; try done; [by eauto|set_solver| |by apply quiet_untouched]. intros q Hq Hg. apply elem_of_difference.
  split; [done|]. intros ->%elem_of_singleton. done.
Qed.
Lemma shrunk_mark st p b f : arena_of st !! p = Some b → Z.land f BLOCK_FAILED_MASK ≠ 0 →
  Z.land f (Z.lor BLOCK_HAVE_DATA BLOCK_VALID_MASK) = 0 → ¬ good (arena_of st) p →
  shrunk st (set_block st p (marked b f)).
Proof.
  intros Eb Hf Hf' Hp. pose proof (lookup_lt_Some _ _ _ Eb) as Hlt. split; cbn; try done.
  - by apply (same_insert _ p b).
  - by apply mark_good.
  - intros q c Ec Hc. destruct (decide (q = p)) as [->|].
    + rewrite list_lookup_insert_eq by done. eexists. split; [done|]. by apply failed_or.
    + rewrite list_lookup_insert_ne by done. eauto.
  - intros Hi i Ei. destruct (decide (i = p)) as [->|]; [by rewrite list_lookup_insert_eq by done|].
    rewrite list_lookup_insert_ne by done. auto.
  - split; try done. by apply mark_flags.
Qed.
Lemma shrunk_invalid st p : is_Some (arena_of st !! p) → shrunk st (set_invalid st (Some p)).
Proof. intros Hp. split; cbn; try done; [by eauto|by intros _ i [= <-]|by apply quiet_untouched]. Qed.
Lemma shrunk_unlinked st u : ¬ no_missing (arena_of st) → shrunk st (set_unlinked st u).
Proof. intros Hn. split; cbn; try done; [by eauto|]. split; try done. apply flags_kept_refl. Qed.
Lemma shrunk_dirty st p : shrunk st (mark_dirty st p).
Proof. split; cbn; try done; [by eauto|]. split; try done. apply flags_kept_refl. Qed.

(** ** The state between operations *)
Record base (st : main_state) : Prop := {
  ba_tree : tree (arena_of st);
  ba_chain : ∃ t, chain_to (arena_of st) (chainActive st) t ∧ good (arena_of st) t;
  ba_root : ∀ p b, arena_of st !! p = Some b → nHeight b = 0 → Genesis (chainActive st) = Some p;
  ba_cand : ∀ p, p ∈ setBlockIndexCandidates st → linked (arena_of st) p;
  ba_invalid : ∀ i, pindexBestInvalid st = Some i → is_Some (arena_of st !! i) }.

Lemma shrunk_base st st' : base st → shrunk st st' → base st'.
Proof.
  intros [H1 H2 H3 H4 H5] [A1 B1 C1 D1 E1 F1 G1 _]. split.
  - eapply st_tree; [by apply same_same_tree|done].
  - rewrite F1. destruct H2 as (t & Ht & Hg). exists t. split; [eapply st_chain_to; [by apply same_same_tree|done]|by apply B1].
  - rewrite F1. intros p b Eb Hb. apply same_sym in A1. destruct (same_lookup _ _ p b A1 Eb) as (c & Ec & (_ & Hh & _)%shape_bones).
    apply (H3 p c Ec). lia.
  - intros p Hp. eapply same_linked; [exact A1|]. auto.
  - auto.
Qed.

Lemma all_up_step A P p b : A !! p = Some b → P p → (∀ q, pprev b = Some q → all_up A P q) → all_up A P p.
Proof.
  intros Eb Hp Hq [|n] r Hu; cbn [up] in Hu; [by simplify_eq|]. rewrite Eb in Hu. cbn [mbind option_bind] in Hu.
  destruct (pprev b) as [q|]; [|done]. by apply (Hq q eq_refl n).
Qed.
Lemma chain_good st q : base st → Contains (arena_of st) (chainActive st) q = true → good (arena_of st) q.
Proof.
  intros Hst Hc. destruct (ba_chain st Hst) as (t & Ht & Hg). destruct (proj1 (Contains_iff _ (tr_index _ (ba_tree st Hst)) _ t q Ht) Hc) as [n Hn].
  by eapply all_up_up.
Qed.
Lemma root_contained st p b : base st → arena_of st !! p = Some b → pprev b = None → Contains (arena_of st) (chainActive st) p = true.
Proof.
  intros Hst Eb Hp. pose proof (we_prev _ _ _ (tr_index _ (ba_tree st Hst) p b Eb)) as Hh. rewrite Hp in Hh.
  pose proof (ba_root st Hst p b Eb Hh) as Hg. unfold Genesis in Hg. unfold Contains, vget. rewrite Eb, Hh.
  pose proof (lookup_lt_Some _ _ _ Hg). apply bool_decide_eq_true. rewrite (proj2 (orb_false_iff _ _)) by lia. done.
Qed.

(** ** The walk from a candidate to the active chain *)
Lemma test_walk_spec st fuel : base st → ∀ p b, arena_of st !! p = Some b → linked (arena_of st) p → nHeight b < Z.of_nat fuel →
  ∃ r, test_walk fuel st (Some p) = inr r ∧
    match r with
    | None => usable (arena_of st) p
    | Some q => ∃ n c, up (arena_of st) n p = Some q ∧ arena_of st !! q = Some c ∧ (is_failed c || negb (have_data c) = true)%bool
    end.
Proof.
  intros Hst. pose proof (tr_index _ (ba_tree st Hst)) as HA. induction fuel as [|fuel IH]; intros p b Eb Hl Hf;
    pose proof (we_height _ _ _ (HA p b Eb)); [lia|]. cbn [test_walk].
  destruct (Contains _ _ p) eqn:Ec; [exists None; split; [done|]; by apply good_usable, chain_good|].
  rewrite Eb. cbn [deref mbind R_bind]. pose proof (all_up_self _ _ _ Hl) as (b' & Eb' & Htx). rewrite Eb in Eb'. injection Eb' as <-.
  replace (negb (nChainTx b =? 0) || _)%bool with true by (symmetry; apply orb_true_iff; left; apply negb_true_iff, Z.eqb_neq; done).
  cbn [assert mbind R_bind]. destruct (is_failed b || negb (have_data b))%bool eqn:Eu.
  - exists (Some p). split; [done|]. exists 0%nat, b. done.
  - destruct (pprev b) as [q|] eqn:Ep.
    + pose proof (we_prev _ _ _ (HA p b Eb)) as Hp. rewrite Ep in Hp. destruct Hp as (c & Eq & Hc).
      pose proof (up_parent _ _ _ _ Eb Ep) as Hup.
      destruct (IH q c Eq) as (r & Hr & Hspec); [by eapply all_up_up|lia|]. exists r. split; [done|]. destruct r as [x|].
      * destruct Hspec as (n & d & Hn & Ed & Hd). exists (1 + n)%nat, d. rewrite up_add, Hup. done.
      * apply orb_false_iff in Eu as [? ?%negb_false_iff]. eapply all_up_step; [done|by exists b|]. intros q' E'. by simplify_eq.
    + by rewrite (root_contained st p b Hst Eb Ep) in Ec.
Qed.

(** ** Removing an unusable chain *)
Lemma remove_chain_spec q flag n : ∀ st p fuel, tree (arena_of st) → is_Some (arena_of st !! p) → up (arena_of st) n p = Some q →
  ¬ good (arena_of st) q → (flag = false → ¬ no_missing (arena_of st)) → (n <= fuel)%nat →
  ∃ st', remove_chain fuel st flag q p = inr st' ∧ shrunk st st' ∧ (p ≠ q → p ∉ setBlockIndexCandidates st').
Proof.
  induction n as [|n IH]; intros st p fuel HA Hp Hu Hq Hflag Hf.
  { cbn [up] in Hu. injection Hu as ->. exists st. split_and!; [|apply shrunk_refl|done]. destruct fuel; cbn [remove_chain]; by rewrite decide_True. }
  destruct (decide (q = p)) as [->|Hne]; [exists st; split_and!; [|apply shrunk_refl|done]; destruct fuel; cbn [remove_chain]; by rewrite decide_True|].
  destruct fuel as [|fuel]; [lia|]. cbn [remove_chain]. rewrite decide_False by done. destruct Hp as [b Eb]. rewrite Eb.
  cbn [deref mbind R_bind]. cbn [up] in Hu. rewrite Eb in Hu. cbn [mbind option_bind] in Hu.
  destruct (pprev b) as [r|] eqn:Er; [|done]. cbn [mbind option_bind] in Hu. cbn [deref mbind R_bind].
  assert (¬ good (arena_of st) p) as Hpg.
  { intros Hg. apply Hq. eapply (all_up_up _ _ (S n)); [exact Hg|]. cbn [up]. rewrite Eb. cbn [mbind option_bind]. by rewrite Er. }
  assert (∃ st1, (if flag then or_status st p BLOCK_FAILED_CHILD
                  else mret (set_unlinked st (mapBlocksUnlinked st ++ [(r, p)]))) = inr st1 ∧ shrunk st st1) as (st1 & -> & H1).
  { destruct flag; [|eexists; split; [done|by apply shrunk_unlinked, Hflag]]. unfold or_status. rewrite Eb. cbn [deref mbind R_bind].
    eexists. split; [done|]. by apply shrunk_mark. }
  cbn [mbind R_bind]. assert (shrunk st (erase_candidate st1 p)) as H2.
  { eapply shrunk_trans; [exact H1|]. apply shrunk_erase. by rewrite (sh_good _ _ H1). }
  destruct (IH (erase_candidate st1 p) r fuel) as (st' & E & H3 & _).
  - eapply st_tree; [apply same_same_tree, H2|done].
  - pose proof (we_prev _ _ _ (tr_index _ HA p b Eb)) as Hp. rewrite Er in Hp. destruct Hp as (c & Ec & _).
    destruct (same_lookup _ _ r c (sh_same _ _ H2) Ec) as (c' & -> & _). done.
  - by rewrite <- (same_up _ _ _ _ (sh_same _ _ H2)).
  - by rewrite (sh_good _ _ H2).
  - intros Hfl Hn. apply (Hflag Hfl). eapply same_no_missing; [apply same_sym, H2| |exact Hn].
    intros x c Ec. destruct (same_lookup _ _ x c (same_sym _ _ (sh_same _ _ H2)) Ec) as (b' & Eb' & _).
    destruct (qu_flags _ _ (sh_quiet _ _ H2) x b' Eb') as (c' & Ec' & ? & ?). rewrite Ec in Ec'. injection Ec' as <-. by exists b'.
  - lia.
  - exists st'. split_and!; [done|by eapply shrunk_trans|]. intros _ Hin. apply (sh_cand _ _ H3) in Hin. cbn in Hin. set_solver.
Qed.

(** ** The candidate of most work *)
Definition best_candidate (st : main_state) (m : ptr) : Prop :=
  m ∈ setBlockIndexCandidates st ∧ usable (arena_of st) m ∧ ∀ p, p ∈ setBlockIndexCandidates st → geq (arena_of st) m p.

Lemma up_to_height A n p q b : wf_index A → up A n p = Some q → A !! p = Some b → (n <= Z.to_nat (nHeight b))%nat.
Proof.
  intros HA Hu Eb. destruct (up_lookup A HA n p q b Hu Eb) as (c & Ec & Hc). pose proof (we_height _ _ _ (HA q c Ec)). lia.
Qed.
Lemma not_good_unusable A q c : A !! q = Some c → (is_failed c || negb (have_data c) = true)%bool → ¬ good A q.
Proof.
  intros Ec Hc Hg. apply good_block in Hg as [(c' & Ec' & _ & Hf & Hd) _]. rewrite Ec in Ec'. injection Ec' as <-.
  by rewrite Hf, Hd in Hc.
Qed.

Lemma find_loop_spec fuel : ∀ st, base st → (size (setBlockIndexCandidates st) <= fuel)%nat →
  ∃ st' r, find_loop fuel st = inr (st', r) ∧ shrunk st st' ∧
    match r with None => setBlockIndexCandidates st' = ∅ | Some m => best_candidate st' m end.
Proof.
  induction fuel as [|fuel IH]; intros st Hst Hf;
    pose proof (rbegin_spec _ (ba_tree st Hst) (setBlockIndexCandidates st) (λ p Hp, linked_lookup _ _ (ba_cand st Hst p Hp))) as Hr;
    cbn [find_loop]; destruct (rbegin _ _) as [p|];
    try (exists st, None; split_and!; [done|apply shrunk_refl|done]); destruct Hr as [Hp Hmax].
  { exfalso. assert (size (setBlockIndexCandidates st) = 0%nat) as Hz by lia. apply size_empty_inv in Hz. set_solver. }
  pose proof (ba_cand st Hst p Hp) as Hl. destruct (linked_lookup _ _ Hl) as [b Eb]. rewrite Eb. cbn [deref mbind R_bind].
  pose proof (tr_index _ (ba_tree st Hst)) as HA. pose proof (we_height _ _ _ (HA p b Eb)) as Hh.
  destruct (test_walk_spec st (S (Z.to_nat (nHeight b))) Hst p b Eb Hl) as (r & -> & Hr); [lia|]. cbn [mbind R_bind].
  destruct r as [q|]; [|exists st, (Some p); split_and!; [done|apply shrunk_refl|done]].
  destruct Hr as (n & c & Hu & Ec & Hc). rewrite Ec. cbn [deref mbind R_bind].
  assert (∃ f : bool, (if is_failed c then match pindexBestInvalid st with
            | None => mret true | Some i => c0 ← deref (arena_of st !! i); mret (more_work b c0) end else mret false) = inr f) as (f & ->).
  { destruct (is_failed c); [|by eexists]. destruct (pindexBestInvalid st) as [i|] eqn:Ei; [|by eexists].
    destruct (ba_invalid st Hst i Ei) as [x ->]. by eexists. }
  cbn [mbind R_bind]. set (st1 := if f then set_invalid st (Some p) else st).
  assert (shrunk st st1) as H1 by (unfold st1; destruct f; [by apply shrunk_invalid|apply shrunk_refl]).
  pose proof (not_good_unusable _ _ _ Ec Hc) as Hbad. assert (arena_of st1 = arena_of st) as Harena by (unfold st1; by destruct f).
  assert (is_failed c = false → ¬ no_missing (arena_of st)) as Hfl.
  { intros E HN. destruct (Hl n q Hu) as (c' & Ec' & Htx). rewrite Ec in Ec'. injection Ec' as <-. by rewrite E, (HN q c Ec Htx) in Hc. }
  destruct (remove_chain_spec q (is_failed c) n st1 p (Z.to_nat (nHeight b))) as (st2 & -> & H2 & Hout);
    rewrite ?Harena; [apply Hst|done|done|done|done|by eapply up_to_height|]. cbn [mbind R_bind].
  assert (shrunk st (erase_candidate st2 q)) as H3.
  { eapply shrunk_trans; [exact H1|]. eapply shrunk_trans; [exact H2|]. apply shrunk_erase. by rewrite (sh_good _ _ H2), Harena. }
  destruct (IH (erase_candidate st2 q)) as (st' & r & -> & H4 & Hfin).
  - by eapply shrunk_base.
  - assert (size (setBlockIndexCandidates (erase_candidate st2 q)) < size (setBlockIndexCandidates st))%nat; [|lia].
    apply subset_size. split; [apply H3|]. intros Hsub. specialize (Hsub p Hp). cbn in Hsub.
    apply elem_of_difference in Hsub as [Hin Hne]. apply Hout; [|done]. set_solver.
  - exists st', r. split_and!; [done|by eapply shrunk_trans|done].
Qed.

(** ** Disconnecting down to the fork *)
Lemma UpdateTip_spec st p : tree (arena_of st) → is_chain (arena_of st) (chainActive st) → is_Some (arena_of st !! p) →
  ∃ v, UpdateTip st (Some p) = inr (set_chain st v) ∧ chain_to (arena_of st) v p.
Proof.
  intros HA Hc [b Eb]. destruct (SetTip_spec _ (tr_index _ HA) (chainActive st) p b Hc Eb) as (v & E & Hv). exists v.
  unfold UpdateTip. rewrite E. done.
Qed.

(** ** The invariant of activation *)
(** Some valid block is at least as good as the tip, and every valid block as good as it is a candidate. *)
Definition act (st : main_state) : Prop :=
  base st ∧ ∃ t m, Tip (chainActive st) = Some t ∧ good (arena_of st) m ∧ geq (arena_of st) m t ∧
    ∀ p, good (arena_of st) p → geq (arena_of st) p m → p ∈ setBlockIndexCandidates st.

Lemma shrunk_act st st' : act st → shrunk st st' → act st'.
Proof.
  intros [Hst (t & m & Ht & Hm & Hg & Hc)] H. split; [by eapply shrunk_base|]. exists t, m. rewrite (sh_chain _ _ H), (sh_good _ _ H).
  rewrite <- (same_geq _ _ m t (sh_same _ _ H)). split_and!; [done..|]. intros p Hp Hpm. rewrite (sh_good _ _ H) in Hp.
  rewrite <- (same_geq _ _ p m (sh_same _ _ H)) in Hpm. apply (sh_keep _ _ H); auto.
Qed.
Lemma base_tip st : base st → ∃ t b, Tip (chainActive st) = Some t ∧ arena_of st !! t = Some b ∧
  chain_to (arena_of st) (chainActive st) t ∧ good (arena_of st) t.
Proof.
  intros Hst. destruct (ba_chain st Hst) as (t & Ht & Hg). pose proof Ht as (b & Eb & _). exists t, b.
  destruct (chain_Tip _ (tr_index _ (ba_tree st Hst)) _ t b Ht Eb) as [? _]. done.
Qed.

(** Another valid tip. *)
Lemma base_chain st v f : base st → chain_to (arena_of st) v f → good (arena_of st) f → base (set_chain st v).
Proof.
  intros Hst Hv Hf. pose proof (tr_index _ (ba_tree st Hst)) as HA. destruct Hst as [H1 H2 H3 H4 H5]. split; cbn; try done; [by exists f|].
  intros p b Eb Hb. unfold Genesis. pose proof Hv as (c & Ec & Hl & _). destruct (v !! 0%nat) as [g|] eqn:Eg.
  - destruct (chain_lookup _ HA v f 0 g Hv Eg) as (d & Ed & Hd & _). pose proof (H3 p b Eb Hb). pose proof (H3 g d Ed ltac:(lia)). congruence.
  - apply lookup_ge_None in Eg. lia.
Qed.
Lemma act_down st v t f n : act st → Tip (chainActive st) = Some t → up (arena_of st) n t = Some f → chain_to (arena_of st) v f →
  act (set_chain st v).
Proof.
  intros [Hst (t' & m & Ht & Hm & Hg & Hc)] Ht' Hu Hv. rewrite Ht in Ht'. injection Ht' as ->.
  destruct (base_tip st Hst) as (t' & b & Et & Eb & _ & Htg). rewrite Ht in Et. injection Et as <-.
  pose proof (ba_tree st Hst) as HA. pose proof Hv as (c & Ec & _). split.
  - apply (base_chain st v f); [done|done|]. by eapply all_up_up.
  - exists f, m. cbn. destruct (chain_Tip _ (tr_index _ HA) v f c Hv Ec) as [-> _]. split_and!; [done|done| |done].
    eapply geq_trans; [done|exact Hg|]. eapply up_geq; [done|done|by rewrite Eb].
Qed.

(** Connecting a valid block on top of the tip, and dropping the candidates that became worse than the tip. *)
Lemma connect_ok st t x b n M : act st → chain_to (arena_of st) (chainActive st) t → arena_of st !! x = Some b → pprev b = Some t →
  ConnectBlock x = connected → usable_block (arena_of st) x → M ∈ setBlockIndexCandidates st → up (arena_of st) n M = Some x →
  ∃ st1 st', ConnectTip st x = inr (st1, connected) ∧ PruneBlockIndexCandidates st1 = inr st' ∧ act st' ∧
    ms_index st' = ms_index st ∧ mapBlocksUnlinked st' = mapBlocksUnlinked st ∧ chain_to (arena_of st) (chainActive st') x ∧
    M ∈ setBlockIndexCandidates st' ∧ setBlockIndexCandidates st' ⊆ setBlockIndexCandidates st.
Proof.
  intros [Hst (t' & m & Ht' & Hm & Hgm & Hc)] Ht Eb Ep Hok Hux HM Hu. pose proof (ba_tree st Hst) as HA.
  destruct (base_tip st Hst) as (t'' & bt & Et & Ebt & Htc & Htg). rewrite Ht' in Et. injection Et as <-.
  assert (t' = t) as ->. { pose proof Ht as (c & Ec & _). destruct (chain_Tip _ (tr_index _ HA) _ t c Ht Ec) as [E _]. congruence. }
  assert (good (arena_of st) x) as Hgx by (eapply all_up_step; [exact Eb|done|]; intros q Eq; rewrite Ep in Eq; injection Eq as <-; exact Htg).
  unfold ConnectTip. rewrite Eb. cbn [deref mbind R_bind]. rewrite Ep, Ht', bool_decide_eq_true_2 by done. cbn [assert mbind R_bind]. rewrite Hok.
  destruct (UpdateTip_spec st x HA (or_intror (ex_intro _ t Ht)) ltac:(by rewrite Eb)) as (v & -> & Hv). cbn [mbind R_bind].
  eexists _, _. split; [done|]. unfold PruneBlockIndexCandidates.
  destruct (chain_Tip _ (tr_index _ HA) v x b Hv Eb) as [Htip _]. cbn [chainActive set_chain]. rewrite Htip. cbn [deref mbind R_bind].
  set (C := filter _ _). assert (∀ p, p ∈ C ↔ p ∈ setBlockIndexCandidates st ∧ less (arena_of st) p x = false) as HC.
  { intros p. unfold C. rewrite elem_of_filter. cbn. tauto. }
  destruct (linked_lookup _ _ (ba_cand st Hst M HM)) as [bM EM].
  assert (M ∈ C) as HMC. { apply HC. split; [done|]. apply geq_not_less; [done|]. eapply up_geq; [done|done|by rewrite EM]. }
  rewrite bool_decide_eq_true_2 by set_solver. split; [done|]. split_and!; [|done|done|done|done|intros p Hp%HC; tauto].
  assert (base (set_candidates (set_chain st v) C)) as Hb.
  { destruct (base_chain st v x Hst Hv Hgx) as [B1 B2 B3 B4 B5]. split; cbn; try done. intros p [Hp _]%HC. by apply B4. }
  split; [exact Hb|]. destruct (good_block _ _ Hm) as [(bm & Em & _) _].
  destruct (less (arena_of st) m x) eqn:Elt.
  - exists x, x. split_and!; [done|done|by left|]. intros p Hp Hpx. apply HC. split; [|by apply geq_not_less].
    apply Hc; [done|]. eapply geq_trans; [done|exact Hpx|by right].
  - exists x, m. split_and!; [done|done|by eapply not_less_geq|]. intros p Hp Hpm. apply HC. split; [by apply Hc|].
    apply geq_not_less; [done|]. eapply geq_trans; [done|exact Hpm|by eapply not_less_geq].
Qed.

(** ** Connecting a batch of blocks *)
(** [l] leads from [t], not included, up to [u]. *)
Fixpoint path (A : arena) (t : ptr) (l : list ptr) (u : ptr) : Prop :=
  match l with
  | [] => t = u
  | x :: l => (∃ b, A !! x = Some b ∧ pprev b = Some t) ∧ path A x l u
  end.
Lemma path_up A t l u : path A t l u → up A (length l) u = Some t.
Proof.
  revert t. induction l as [|x l IH]; intros t; cbn [length path]; [by intros ->|]. intros [(b & Eb & Ep) Hp].
  replace (S (length l)) with (length l + 1)%nat by lia. rewrite up_add, (IH x Hp). cbn [mbind option_bind]. by eapply up_parent.
Qed.
Lemma path_snoc A t l u p b : path A t l u → A !! p = Some b → pprev b = Some u → path A t (l ++ [p]) p.
Proof. intros Hp Eb Eu. revert t Hp. induction l as [|x l IH]; intros t; simpl; [intros ->; eauto|]. intros [? ?]. eauto. Qed.

Record moved (st st' : main_state) : Prop := {
  mv_same : same (arena_of st) (arena_of st');
  mv_good : ∀ p, good (arena_of st') p ↔ good (arena_of st) p;
  mv_failed : ∀ p b, arena_of st !! p = Some b → is_failed b = true → ∃ c, arena_of st' !! p = Some c ∧ is_failed c = true;
  mv_cand : setBlockIndexCandidates st' ⊆ setBlockIndexCandidates st;
  mv_quiet : quiet st st' }.
Lemma shrunk_moved st st' : shrunk st st' → moved st st'.
Proof. by intros []. Qed.
Lemma moved_index st st' : ms_index st' = ms_index st → mapBlocksUnlinked st' = mapBlocksUnlinked st →
  setBlockIndexCandidates st' ⊆ setBlockIndexCandidates st → moved st st'.
Proof. intros E H Hs. split; rewrite ?E; try done; [eauto|by apply quiet_untouched]. Qed.
Lemma moved_refl st : moved st st.
Proof. by apply moved_index. Qed.
Lemma moved_trans st st' st'' : moved st st' → moved st' st'' → moved st st''.
Proof.
  intros [A1 B1 C1 D1 E1] [A2 B2 C2 D2 E2]. split; [by eapply same_trans| | |set_solver|by eapply quiet_trans].
  - intros p. by rewrite B2, B1.
  - intros p b Eb Hb. destruct (C1 p b Eb Hb) as (c & Ec & Hc). by apply (C2 p c).
Qed.
(** A block that was not known to be invalid now is. *)
Definition found_invalid (st st' : main_state) : Prop :=
  ∃ x b c, arena_of st !! x = Some b ∧ is_failed b = false ∧ arena_of st' !! x = Some c ∧ is_failed c = true.

Lemma InvalidChainFound_spec st p : base st → is_Some (arena_of st !! p) → ∃ st', InvalidChainFound st p = inr st' ∧ shrunk st st'.
Proof.
  intros Hst [b Eb]. destruct (base_tip st Hst) as (t & _ & Et & _). unfold InvalidChainFound. rewrite Eb, Et. cbn [deref mbind R_bind].
  assert (∃ f, match pindexBestInvalid st with None => mret true | Some i => c ← deref (arena_of st !! i); mret (more_work b c) end = inr f)
    as (f & ->).
  { destruct (pindexBestInvalid st) as [i|] eqn:Ei; [|by eexists]. destruct (ba_invalid st Hst i Ei) as [x ->]. by eexists. }
  cbn [mbind R_bind]. eexists. split; [done|]. destruct f; [by apply shrunk_invalid|apply shrunk_refl].
Qed.
Lemma connect_invalid st t x b : base st → chain_to (arena_of st) (chainActive st) t → arena_of st !! x = Some b → pprev b = Some t →
  ConnectBlock x = invalid false → is_failed b = false →
  ∃ st', ConnectTip st x = inr (st', invalid false) ∧ shrunk st st' ∧ found_invalid st st'.
Proof.
  intros Hst Ht Eb Ep Hok Hfb. pose proof (ba_tree st Hst) as HA.
  assert (Tip (chainActive st) = Some t) as Etip. { pose proof Ht as (c & Ec & _). by destruct (chain_Tip _ (tr_index _ HA) _ t c Ht Ec). }
  assert (¬ good (arena_of st) x) as Hbad. { intros [_ E]%good_block. congruence. }
  unfold ConnectTip. rewrite Eb. cbn [deref mbind R_bind]. rewrite Ep, Etip, bool_decide_eq_true_2 by done. cbn [assert mbind R_bind]. rewrite Hok.
  unfold InvalidBlockFound, or_status. rewrite Eb. cbn [deref mbind R_bind mret R_ret].
  change (set_nStatus b (Z.lor (nStatus b) BLOCK_FAILED_VALID)) with (marked b BLOCK_FAILED_VALID).
  assert (shrunk st (erase_candidate (mark_dirty (set_block st x (marked b BLOCK_FAILED_VALID)) x) x)) as H1.
  { pose proof (shrunk_mark st x b BLOCK_FAILED_VALID Eb ltac:(done) ltac:(done) Hbad) as H.
    eapply shrunk_trans; [exact H|]. eapply shrunk_trans; [apply shrunk_dirty|]. apply shrunk_erase. cbn. by rewrite (sh_good _ _ H x). }
  pose proof (lookup_lt_Some _ _ _ Eb) as Hlt.
  destruct (InvalidChainFound_spec _ x (shrunk_base _ _ Hst H1)) as (st' & -> & H2); [cbn; by rewrite list_lookup_insert_eq|].
  cbn [mbind R_bind]. exists st'. split; [done|]. split; [by eapply shrunk_trans|].
  destruct (sh_failed _ _ H2 x (marked b BLOCK_FAILED_VALID)) as (c & Ec & Hc); [cbn; by rewrite list_lookup_insert_eq|by apply failed_or|].
  by exists x, b, c.
Qed.

Context (Hval : ∀ p, ConnectBlock p = connected ∨ ConnectBlock p = invalid false).

Lemma connect_batch_spec o back M u k l : ∀ st t, act st → chain_to (arena_of st) (chainActive st) t → path (arena_of st) t l u →
  up (arena_of st) k M = Some u → usable (arena_of st) M → M ∈ setBlockIndexCandidates st →
  is_Some (arena_of st !! o) → is_Some (arena_of st !! back) →
  ∃ st' r, connect_batch st (Some o) back l = inr (st', r) ∧ act st' ∧ moved st st' ∧
    match r with
    | all_connected => arena_of st' = arena_of st ∧ chain_to (arena_of st) (chainActive st') u ∧ M ∈ setBlockIndexCandidates st'
    | better_position => arena_of st' = arena_of st ∧ M ∈ setBlockIndexCandidates st' ∧
        ∃ x j, chain_to (arena_of st) (chainActive st') x ∧ up (arena_of st) j u = Some x ∧ (j < length l)%nat
    | invalid_found => found_invalid st st'
    | batch_error => False
    end.
Proof using Hval.
  induction l as [|x l IH]; intros st t Hst Ht Hp Hu HM HMc Ho Hback; cbn [connect_batch].
  { simpl in Hp. subst u. exists st, all_connected. split_and!; try done. apply moved_refl. }
  destruct Hp as [(b & Eb & Ep) Hp]. pose proof (path_up _ _ _ _ Hp) as Hx.
  assert (up (arena_of st) (k + length l) M = Some x) as HuM by (by rewrite up_add, Hu).
  pose proof (HM _ _ HuM) as Hux. destruct (Hval x) as [Hok|Hinv].
  - destruct (connect_ok st t x b _ M Hst Ht Eb Ep Hok Hux HMc HuM) as (st1 & st2 & -> & E2 & Hst2 & EI & EU & Hx2 & HM2 & Hsub).
    pose proof (moved_index st st2 EI EU Hsub) as Hmv2. assert (arena_of st2 = arena_of st) as EA by (by rewrite EI).
    cbn [mbind R_bind]. rewrite E2. cbn [mbind R_bind]. destruct (chain_Tip _ (tr_index _ (ba_tree _ (proj1 Hst))) _ x b Hx2 Eb) as [-> _].
    cbn [deref mbind R_bind]. rewrite EA, Eb. destruct Ho as [bo Eo]. rewrite Eo. cbn [deref mbind R_bind mret R_ret].
    destruct (more_work b bo).
    + exists st2, better_position. split_and!; try done. exists x, (length l). simpl. split_and!; [done|done|lia].
    + destruct (IH st2 x Hst2) as (st' & r & -> & Hact & Hmv & Hr); rewrite ?EA; try done.
      exists st', r. split_and!; [done|done|by eapply moved_trans|]. rewrite EA in Hr. destruct r; try done.
      * destruct Hr as (? & ? & y & j & ? & ? & ?). split_and!; try done. exists y, j. simpl. split_and!; [done|done|lia].
      * unfold found_invalid in *. by rewrite EA in Hr.
  - destruct Hux as (b' & Eb' & _ & Hfb & _). rewrite Eb in Eb'. injection Eb' as <-.
    destruct (connect_invalid st t x b (proj1 Hst) Ht Eb Ep Hinv Hfb) as (st1 & -> & H1 & Hfound). cbn [mbind R_bind].
    assert (is_Some (arena_of st1 !! back)) as Hb1.
    { destruct Hback as [c Ec]. by destruct (same_lookup _ _ back c (sh_same _ _ H1) Ec) as (? & -> & _). }
    destruct (InvalidChainFound_spec st1 back (shrunk_base _ _ (proj1 Hst) H1) Hb1) as (st2 & -> & H2). cbn [mbind R_bind].
    pose proof (shrunk_trans _ _ _ H1 H2) as H3. exists st2, invalid_found. split_and!; [done|by eapply shrunk_act|by apply shrunk_moved|].
    destruct Hfound as (y & by_ & cy & ? & ? & Ecy & Hcy). destruct (sh_failed _ _ H2 y cy Ecy Hcy) as (d & ? & ?). by exists y, by_, d.
Qed.

Context (Hdis : ∀ p, DisconnectBlock p = true).

Lemma disconnect_loop_spec A f n : tree A → ∀ fuel st t d, arena_of st = A → chain_to A (chainActive st) t → up A n t = Some f → (n <= fuel)%nat →
  ∃ v d', disconnect_loop fuel st (Some f) d = inr (set_chain st v, true, d') ∧ chain_to A v f.
Proof using Hdis.
  intros HA. induction n as [|n IH]; intros fuel st t d EA Ht Hu Hf; pose proof Ht as (b & Eb & _);
    destruct (chain_Tip A (tr_index A HA) (chainActive st) t b Ht Eb) as [Etip _].
  { cbn [up] in Hu. injection Hu as ->. exists (chainActive st), d. split; [|done].
    destruct fuel, st; cbn [disconnect_loop]; cbn in Etip |- *; rewrite Etip; by rewrite decide_True. }
  assert (f ≠ t) as Hne. { intros ->. destruct (up_lookup A (tr_index A HA) _ _ _ _ Hu Eb) as (b' & Eb' & ?). simplify_eq. lia. }
  destruct fuel as [|fuel]; [lia|]. cbn [disconnect_loop]. rewrite Etip, decide_False by congruence.
  unfold DisconnectTip. rewrite Etip. cbn [deref mbind R_bind]. rewrite EA, Eb. cbn [deref mbind R_bind]. rewrite Hdis.
  cbn [up] in Hu. rewrite Eb in Hu. cbn [mbind option_bind] in Hu. destruct (pprev b) as [q|] eqn:Eq; [|done]. cbn [mbind option_bind] in Hu.
  pose proof (we_prev _ _ _ (tr_index A HA t b Eb)) as Hp. rewrite Eq in Hp. destruct Hp as (c & Ec & _).
  destruct (UpdateTip_spec st q) as (v & -> & Hv); [by rewrite EA|rewrite EA; right; by eexists|by rewrite EA, Ec|].
  cbn [mbind R_bind mret R_ret]. rewrite EA in Hv.
  destruct (IH fuel (set_chain st v) q true) as (v' & d' & -> & Hv'); [done|done|done|lia|]. by exists v', d'.
Qed.

(** ** One step *)
Lemma to_connect_spec A t c n : tree A → A !! t = Some c → ∀ fuel p b, A !! p = Some b → up A n p = Some t → (n <= fuel)%nat →
  ∃ l, to_connect fuel A (Some p) (nHeight c) = inr l ∧ path A t (rev l) p ∧ length l = n.
Proof.
  intros HA Ec. induction n as [|n IH]; intros fuel p b Eb Hu Hf.
  { cbn [up] in Hu. injection Hu as ->. rewrite Ec in Eb. injection Eb as <-. exists []. split_and!; [|done|done].
    destruct fuel; cbn [to_connect]; rewrite Ec; cbn [deref mbind R_bind]; by rewrite Z.eqb_refl. }
  destruct (up_lookup A (tr_index A HA) _ _ _ _ Hu Eb) as (c' & Ec' & Hh). rewrite Ec in Ec'. injection Ec' as <-.
  cbn [up] in Hu. rewrite Eb in Hu. cbn [mbind option_bind] in Hu. destruct (pprev b) as [q|] eqn:Eq; [|done]. cbn [mbind option_bind] in Hu.
  pose proof (we_prev _ _ _ (tr_index A HA p b Eb)) as Hp. rewrite Eq in Hp. destruct Hp as (d & Ed & _).
  destruct fuel as [|fuel]; [lia|]. cbn [to_connect]. rewrite Eb. cbn [deref mbind R_bind].
  destruct (Z.eqb_spec (nHeight b) (nHeight c)); [lia|]. rewrite Eq. destruct (IH fuel q d Ed Hu) as (l & -> & Hl & Hn); [lia|].
  cbn [mbind R_bind mret R_ret]. exists (p :: l). split_and!; [done| |simpl; lia]. cbn [rev]. by eapply path_snoc.
Qed.

Lemma connect_loop_spec A M bM o : tree A → A !! M = Some bM → usable A M → is_Some (A !! o) →
  ∀ fuel st t bt n, arena_of st = A → act st → chain_to A (chainActive st) t → A !! t = Some bt → up A n M = Some t → (n <= fuel)%nat →
  M ∈ setBlockIndexCandidates st →
  ∃ st' r, connect_loop fuel st (Some o) M (nHeight bt) = inr (st', r) ∧ act st' ∧ moved st st' ∧
    match r with
    | all_connected => arena_of st' = A ∧ chain_to A (chainActive st') M ∧ M ∈ setBlockIndexCandidates st'
    | better_position => arena_of st' = A ∧ M ∈ setBlockIndexCandidates st' ∧
        ∃ x j, chain_to A (chainActive st') x ∧ up A j M = Some x ∧ (j < n)%nat
    | invalid_found => found_invalid st st'
    | batch_error => False
    end.
Proof using Hval.
  intros HA EM HM Ho. induction fuel as [|fuel IH]; intros st t bt n EA Hst Ht Et Hu Hf HMc;
    destruct (up_lookup A (tr_index A HA) n M t bM Hu EM) as (bt' & Et' & Hh); rewrite Et in Et'; injection Et' as <-;
    pose proof (we_height _ _ _ (tr_index A HA t bt Et)); cbn [connect_loop]; rewrite EA, EM; cbn [deref mbind R_bind];
    destruct (Z.eqb_spec (nHeight bt) (nHeight bM)) as [Heq|Hne];
    try (assert (n = 0%nat) as -> by lia; cbn [up] in Hu; injection Hu as <-; exists st, all_connected;
         split_and!; [done|done|apply moved_refl|done|done|done]); [lia|].
  set (T := Z.min (nHeight bt + 32) (nHeight bM)).
  destruct (up_spec A (Z.to_nat (nHeight bM - T)) M bM (tr_index A HA) EM) as (u & bu & Hu' & Eu & Hhu); [lia|].
  rewrite (GetAncestor_spec A M bM T (tr_index A HA) EM), (proj2 (orb_false_iff _ _)), Hu' by lia. cbn [deref mbind R_bind].
  assert (up A (Z.to_nat (T - nHeight bt)) u = Some t) as Hut.
  { replace n with (Z.to_nat (nHeight bM - T) + Z.to_nat (T - nHeight bt))%nat in Hu by lia. by rewrite up_add, Hu' in Hu. }
  destruct (to_connect_spec A t bt _ HA Et (Z.to_nat (T + 1)) u bu Eu Hut) as (l & -> & Hl & Hlen); [lia|]. cbn [mbind R_bind].
  assert (is_Some (A !! default 0%nat (rev l !! 0%nat))) as Hback.
  { destruct (rev l) as [|x r] eqn:Er; [|simpl in Hl |- *; destruct Hl as [(b & -> & _) _]; done].
    apply (f_equal length) in Er. rewrite length_rev in Er. simpl in Er. lia. }
  destruct (connect_batch_spec o (default 0%nat (rev l !! 0%nat)) M u (Z.to_nat (nHeight bM - T)) (rev l) st t) as (st' & r & -> & Hact & Hmv & Hr);
    rewrite ?EA; try done. cbn [mbind R_bind]. rewrite EA in Hr. destruct r.
  - destruct Hr as (EA' & Hc & HM'). replace T with (nHeight bu) by lia.
    destruct (IH st' u bu (Z.to_nat (nHeight bM - T))) as (st2 & r2 & -> & Hact2 & Hmv2 & Hr2); try done; [lia|].
    exists st2, r2. split_and!; [done|done|by eapply moved_trans|]. destruct r2; try done.
    + destruct Hr2 as (? & ? & x & j & ? & ? & ?). split_and!; try done. exists x, j. split_and!; [done|done|lia].
    + unfold found_invalid in *. by rewrite EA' in Hr2; rewrite EA.
  - destruct Hr as (? & ? & x & j & ? & Hj & Hlt). exists st', better_position. split_and!; [done|done|done|done|done|].
    exists x, (Z.to_nat (nHeight bM - T) + j)%nat. rewrite up_add, Hu'. rewrite length_rev in Hlt. split_and!; [done|done|lia].
  - exists st', invalid_found. unfold found_invalid in *. by rewrite EA in *.
  - done.
Qed.

Lemma ActivateBestChainStep_spec st M t0 : act st → Tip (chainActive st) = Some t0 → M ∈ setBlockIndexCandidates st → usable (arena_of st) M →
  ∃ st' inv, ActivateBestChainStep st M = inr (st', true, inv) ∧ act st' ∧ moved st st' ∧
    if inv : bool then found_invalid st st'
    else arena_of st' = arena_of st ∧ M ∈ setBlockIndexCandidates st' ∧
      ∃ x j, chain_to (arena_of st) (chainActive st') x ∧ up (arena_of st) j M = Some x ∧
        (j = 0%nat ∨ ∀ d, up (arena_of st) d M = Some t0 → (j < d)%nat).
Proof using Hval Hdis.
  intros Hst Et0 HMc HM. pose proof (proj1 Hst) as Hb. pose proof (ba_tree st Hb) as HA. pose proof (tr_index _ HA) as HI.
  destruct (base_tip st Hb) as (t & bt & Et & Ebt & Htc & _). rewrite Et0 in Et. injection Et as <-.
  destruct (linked_lookup _ _ (usable_linked _ _ HM)) as [bM EM]. unfold ActivateBestChainStep. rewrite Et0.
  destruct (FindFork_spec _ HI (chainActive st) M bM EM) as (r & -> & Hr). cbn [deref mbind R_bind].
  destruct r as [f|].
  2: { exfalso. pose proof (we_height _ _ _ (HI M bM EM)). destruct (up_spec _ (Z.to_nat (nHeight bM)) M bM HI EM) as (g & bg & Hg & Eg & Hhg); [lia|].
       pose proof (Hr _ _ Hg) as Hn. pose proof (we_prev _ _ _ (HI g bg Eg)) as Hp. destruct (pprev bg) as [q|] eqn:Eq.
       - destruct Hp as (c & Ec & ?). pose proof (we_height _ _ _ (HI q c Ec)). lia.
       - by rewrite (root_contained st g bg Hb Eg Eq) in Hn. }
  destruct Hr as (n & Hn & Hcon & Hfirst). destruct (proj1 (Contains_iff _ HI _ t0 f Htc) Hcon) as [k Hk].
  destruct (up_lookup _ HI k t0 f bt Hk Ebt) as (bf & Ef & Hhf). pose proof (we_height _ _ _ (HI f bf Ef)).
  pose proof Htc as (bt' & Ebt' & Hlen & _). rewrite Ebt in Ebt'. injection Ebt' as <-.
  destruct (disconnect_loop_spec (arena_of st) f k HA (length (chainActive st)) st t0 false) as (v & d & -> & Hv); [done|done|done|lia|].
  cbn [mbind R_bind negb arena_of ms_index set_chain]. rewrite Ef. cbn [deref mbind R_bind mret R_ret]. rewrite EM. cbn [deref mbind R_bind].
  pose proof (act_down st v t0 f k Hst Et0 Hk Hv) as Hact. destruct (up_lookup _ HI n M f bM Hn EM) as (bf' & Ef' & Hhf').
  rewrite Ef in Ef'. injection Ef' as <-.
  destruct (connect_loop_spec (arena_of st) M bM t0 HA EM HM ltac:(by rewrite Ebt) (Z.to_nat (nHeight bM + 1)) (set_chain st v) f bf n)
    as (st' & r & -> & Hact' & Hmv & Hr); try done; [lia|]. cbn [mbind R_bind].
  assert (moved st st') as Hmv' by (eapply moved_trans; [by apply (moved_index st (set_chain st v))|done]).
  destruct (base_tip st' (proj1 Hact')) as (t' & _ & Et' & _). rewrite Et', bool_decide_eq_true_2, orb_true_r by done.
  assert (∀ dd, up (arena_of st) dd M = Some t0 → n = dd) as Hdist.
  { intros dd Hd. destruct (up_lookup _ HI dd M t0 bM Hd EM) as (c & Ec & ?). rewrite Ebt in Ec. injection Ec as <-.
    destruct (decide (dd < n)%nat); [|lia]. specialize (Hfirst dd t0 ltac:(done) Hd).
    by rewrite (proj2 (Contains_iff _ HI _ t0 t0 Htc)) in Hfirst by by exists 0%nat. }
  destruct r; cbn [assert mbind R_bind].
  - destruct Hr as (? & ? & ?). exists st', false. split_and!; try done. exists M, 0%nat. by split_and!; [| |left].
  - destruct Hr as (? & ? & x & j & ? & ? & ?). exists st', false. split_and!; try done. exists x, j. split_and!; [done|done|].
    right. intros dd Hd. by rewrite <- (Hdist dd Hd).
  - by exists st', true.
  - done.
Qed.

(** ** The loop *)
Definition unfailed (A : arena) : nat := length (List.filter (λ b, negb (is_failed b)) A).

Lemma unfailed_mono A : ∀ B, length A = length B →
  (∀ p b, A !! p = Some b → is_failed b = true → ∃ c, B !! p = Some c ∧ is_failed c = true) →
  (unfailed B <= unfailed A)%nat ∧
  ∀ x b c, A !! x = Some b → is_failed b = false → B !! x = Some c → is_failed c = true → (unfailed B < unfailed A)%nat.
Proof.
  unfold unfailed. induction A as [|a A IH]; intros [|c B] Hl Hm; try done. injection Hl as Hl.
  destruct (IH B Hl (λ p, Hm (S p))) as [IH1 IH2]. cbn [List.filter].
  assert (is_failed a = true → is_failed c = true) as Hac. { intros Ha. destruct (Hm 0%nat a eq_refl Ha) as (c' & [= <-] & ?). done. }
  split.
  - destruct (is_failed a), (is_failed c); cbn [negb length]; try lia; by specialize (Hac eq_refl).
  - intros [|x] b d Eb Hb Ed Hd; cbn in Eb, Ed.
    + simplify_eq. rewrite Hb, Hd. cbn [negb length]. lia.
    + specialize (IH2 x b d Eb Hb Ed Hd). destruct (is_failed a), (is_failed c); cbn [negb length]; try lia; by specialize (Hac eq_refl).
Qed.
Lemma moved_unfailed st st' : moved st st' → (unfailed (arena_of st') <= unfailed (arena_of st))%nat ∧
  (found_invalid st st' → unfailed (arena_of st') < unfailed (arena_of st))%nat.
Proof.
  intros [H1 _ H3 _ _]. destruct (unfailed_mono _ _ (same_length _ _ H1) H3) as [Ha Hb]. split; [done|].
  intros (x & b & c & ? & ? & ? & ?). by apply (Hb x b c).
Qed.

Lemma height_bound A p b : wf_index A → A !! p = Some b → nHeight b < Z.of_nat (length A).
Proof.
  intros HA Eb. pose proof (we_height _ _ _ (HA p b Eb)). destruct (SetTip_spec A HA [] p b (or_introl eq_refl) Eb) as (v & _ & Hv).
  pose proof Hv as (b' & Eb' & Hl & _). rewrite Eb in Eb'. injection Eb' as <-.
  assert (NoDup v) as Hnd.
  { apply NoDup_alt. intros i j x Ei Ej. destruct (chain_lookup A HA v p i x Hv Ei) as (c & Ec & ? & _).
    destruct (chain_lookup A HA v p j x Hv Ej) as (c' & Ec' & ? & _). rewrite Ec in Ec'. injection Ec' as <-. lia. }
  assert (length v <= length (seq 0 (length A)))%nat as Hle.
  { apply NoDup_incl_length; [by apply NoDup_ListNoDup|]. intros x Hx. apply list_elem_of_In, list_elem_of_lookup in Hx as [i Ei].
    destruct (chain_lookup A HA v p i x Hv Ei) as (c & Ec & _). apply in_seq. apply lookup_lt_Some in Ec. lia. }
  rewrite length_seq in Hle. lia.
Qed.

Definition best_tip (st : main_state) : Prop :=
  ∃ t, Tip (chainActive st) = Some t ∧ good (arena_of st) t ∧ ∀ p, good (arena_of st) p → geq (arena_of st) t p.
Lemma best_final st M : act st → Tip (chainActive st) = Some M → (∀ p, p ∈ setBlockIndexCandidates st → geq (arena_of st) M p) → best_tip st.
Proof.
  intros [Hb (t & m & Et & Hm & Hg & Hc)] HM Hmax. pose proof (ba_tree st Hb) as HA. destruct (base_tip st Hb) as (t' & _ & Et' & _ & _ & Htg).
  rewrite HM in Et'. injection Et' as <-. exists M. split_and!; [done|done|]. intros p Hp.
  destruct (good_block _ _ Hp) as [(bp & Ep & _) _], (good_block _ _ Hm) as [(bm & Em & _) _].
  destruct (less (arena_of st) p m) eqn:El.
  - eapply geq_trans; [done| |right; exact El]. apply Hmax, Hc; [done|by left].
  - apply Hmax, Hc; [done|]. by eapply not_less_geq.
Qed.

(** The number of turns that are enough: [u] failures, each after at most [n] steps, and the steps that remain. *)
Definition turns (A : arena) (d : nat) : nat := (unfailed A * (length A + 2) + d)%nat.
Definition enough (fuel : nat) (st : main_state) (mw : option ptr) : Prop :=
  match mw with
  | None => (turns (arena_of st) (length (arena_of st) + 2) <= fuel)%nat
  | Some M => best_candidate st M ∧ ∃ t d, Tip (chainActive st) = Some t ∧ up (arena_of st) d M = Some t ∧ d ≠ 0%nat ∧
      (turns (arena_of st) d <= fuel)%nat
  end.
Definition activated (st : main_state) (r : R (main_state * bool)) : Prop :=
  ∃ st' ok, r = inr (st', ok) ∧ act st' ∧ moved st st' ∧ ((∀ n, ShutdownRequested n = false) → best_tip st') ∧ (ok = true ∨ ok = flush_ok).
Lemma activated_moved st st' r : moved st st' → activated st' r → activated st r.
Proof. intros Hmv (s & ok & ? & ? & ? & ? & ?). exists s, ok. split_and!; try done. by eapply moved_trans. Qed.

(** A turn of the loop towards the candidate [M]. *)
Definition turn (fuel : nat) (s : main_state) (M : ptr) : R (main_state * bool) :=
  '(st, ok, fInvalidFound) ← ActivateBestChainStep s M;
  if negb ok then mret (st, false)
  else let mw := if fInvalidFound : bool then None else Some M in
       if decide (Tip (chainActive st) = mw) then mret (st, flush_ok) else activate_loop fuel st mw.
Lemma activate_turn fuel s M t : (∀ st mw, act st → enough fuel st mw → activated st (activate_loop fuel st mw)) →
  act s → best_candidate s M → Tip (chainActive s) = Some t → (turns (arena_of s) 0 <= fuel)%nat →
  (∀ j, (j <= length (arena_of s))%nat → (∀ d, up (arena_of s) d M = Some t → (j < d)%nat) → (turns (arena_of s) j <= fuel)%nat) →
  activated s (turn fuel s M).
Proof using Hval Hdis.
  intros IH Hs (HMc & HMu & Hmax) Et Hu0 Hj'. pose proof (tr_index _ (ba_tree _ (proj1 Hs))) as HI. unfold turn, turns in *.
  destruct (ActivateBestChainStep_spec s M t Hs Et HMc HMu) as (s1 & inv & -> & Hs1 & Hmv & Hr). cbn [mbind R_bind negb].
  destruct (moved_unfailed _ _ Hmv) as [Hle Hlt]. pose proof (same_length _ _ (mv_same _ _ Hmv)) as Hlen.
  destruct (base_tip s1 (proj1 Hs1)) as (t1 & bt1 & Et1 & Ebt1 & Ht1 & _). apply (activated_moved s s1 _ Hmv). destruct inv.
  - specialize (Hlt Hr). rewrite decide_False by congruence. apply IH; [done|]. unfold enough, turns. rewrite <- Hlen. nia.
  - destruct Hr as (EA & HMc' & x & j & Hx & Hj & Hjd). pose proof Hx as (bx & Ebx & _).
    assert (t1 = x) as ->. { destruct (chain_Tip _ HI _ x bx Hx Ebx) as [E _]. congruence. }
    assert (best_candidate s1 M) as HM1.
    { split_and!; [done|by rewrite EA|intros p Hp; rewrite EA; apply Hmax, (mv_cand _ _ Hmv), Hp]. }
    destruct (decide (Tip (chainActive s1) = Some M)) as [EM|HneM].
    + exists s1, flush_ok. split_and!; [done|done|apply moved_refl| |by right]. intros _. apply (best_final s1 M); [done|done|apply HM1].
    + destruct (linked_lookup _ _ (usable_linked _ _ HMu)) as [bM EM].
      pose proof (up_to_height _ _ _ _ _ HI Hj EM) as Hjh. pose proof (height_bound _ M bM HI EM) as Hhb.
      assert (j ≠ 0%nat) as Hj0. { intros ->. cbn [up] in Hj. apply HneM. congruence. }
      destruct Hjd as [?|Hjd]; [done|]. apply IH; [done|]. split; [done|]. exists x, j. rewrite EA. split_and!; try done.
      apply Hj'; [lia|done].
Qed.
Lemma activate_loop_spec fuel : ∀ st mw, act st → enough fuel st mw → activated st (activate_loop fuel st mw).
Proof using Hval Hdis.
  induction fuel as [|fuel IH]; intros st mw Hst Hneed;
    [destruct mw; [destruct Hneed as (_ & t & d & _ & _ & ? & ?)|]; unfold enough, turns in *; lia|].
  cbn [activate_loop]. destruct (ShutdownRequested fuel) eqn:Eshut.
  { exists st, flush_ok. split_and!; [done|done|apply moved_refl| |by right]. intros Hno. by rewrite Hno in Eshut. }
  destruct mw as [M|].
  - destruct Hneed as (HM & t & d & Et & Hu & Hd0 & Hf). cbn [mbind R_bind mret R_ret]. pose proof HM as (_ & HMu & _).
    destruct (linked_lookup _ _ (usable_linked _ _ HMu)) as [bM EM]. pose proof (tr_index _ (ba_tree _ (proj1 Hst))) as HI.
    destruct (up_lookup _ HI d M t bM Hu EM) as (c & Ec & Hh). unfold turns in Hf.
    assert (Tip (chainActive st) ≠ Some M) as Hne. { rewrite Et. intros E. injection E as ->. rewrite EM in Ec. injection Ec as <-. lia. }
    rewrite decide_False by congruence. apply (activate_turn fuel st M t); unfold turns; [done|done|done|done|lia|].
    intros j _ Hj. specialize (Hj d Hu). lia.
  - destruct (find_loop_spec (size (setBlockIndexCandidates st)) st (proj1 Hst) (le_n _)) as (s & r & Es & Hsh & Hr).
    unfold FindMostWorkChain. rewrite Es. cbn [mbind R_bind]. pose proof (shrunk_act _ _ Hst Hsh) as Hs.
    pose proof (shrunk_moved _ _ Hsh) as Hmv. destruct (moved_unfailed _ _ Hmv) as [Hle _]. pose proof (same_length _ _ (mv_same _ _ Hmv)) as Hlen.
    apply (activated_moved st s _ Hmv). unfold enough, turns in Hneed. destruct r as [M|].
    + destruct (decide (Some M = Tip (chainActive s))) as [EM|Hne].
      * exists s, true. split_and!; [done|done|apply moved_refl| |by left]. intros _. apply (best_final s M); [done|done|apply Hr].
      * destruct (base_tip s (proj1 Hs)) as (t & _ & Et & _). apply (activate_turn fuel s M t); unfold turns; [done|done|done|done|nia|].
        intros j Hj _. nia.
    + exfalso. destruct Hs as [_ (t & m & _ & Hm & _ & Hc)]. specialize (Hc m Hm (or_introl eq_refl)). rewrite Hr in Hc. set_solver.
Qed.

Lemma ActivateBestChain_spec st : act st → activated st (ActivateBestChain st).
Proof using Hval Hdis.
  intros Hst. apply activate_loop_spec; [done|]. unfold enough, turns, unfailed.
  pose proof (List.filter_length_le (λ b, negb (is_failed b)) (arena_of st)). nia.
Qed.
End good.
End BestChain.
