(* ===== verification/ChainMachine.v ===== *)
(** * The block index as a machine

    Headers arrive, blocks arrive in any order, chains are activated, blocks are invalidated: the
    consistency of the global state that CheckBlockIndex of main.cpp asks for is an invariant, and
    after every activation the active chain is the best complete valid one. *)
From S2P Require Import Prelude ArithUint256 Chain ActiveChain ChainState BestChain.

Module ChainMachine.
Import Chain ActiveChain ChainState BestChain.

(** ** Transactions along a chain *)
Fixpoint path_tx (A : arena) (n : nat) (p : ptr) : Z :=
  match A !! p with
  | None => 0
  | Some b => nTx b + match n, pprev b with S n, Some q => path_tx A n q | _, _ => 0 end
  end.
(** The number of transactions of every chain fits the 32 bits of [nChainTx]. *)
Definition txs_fit (A : arena) : Prop := ∀ p b, A !! p = Some b → path_tx A (Z.to_nat (nHeight b)) p < 2 ^ 32.

Lemma path_tx_eq A B n p : map (λ b, (nTx b, pprev b)) A = map (λ b, (nTx b, pprev b)) B → path_tx A n p = path_tx B n p.
Proof.
  intros HS. revert p. induction n as [|n IH]; intros p; cbn [path_tx]; destruct (A !! p) as [b|] eqn:E;
    try (destruct (map_lookup _ A B p b HS E) as (c & -> & [= H1 H2]); rewrite ?H1, ?H2); try by rewrite (map_None _ A B p HS E).
  - done.
  - destruct (pprev c); [by rewrite IH|done].
Qed.

(** ** Which blocks are linked, and which wait *)
(** [Q] are the blocks that are queued to be linked. *)
Record links (A : arena) (U : list (ptr * ptr)) (Q : list ptr) : Prop := {
  lk_tx : ∀ p b, A !! p = Some b → 0 <= nTx b ∧ (nTx b ≠ 0 → have_data b = true) ∧
    (nTx b ≠ 0 → is_failed b = false → BLOCK_VALID_TRANSACTIONS <= Z.land (nStatus b) BLOCK_VALID_MASK) ∧
    BLOCK_VALID_TREE <= Z.land (nStatus b) BLOCK_VALID_MASK;
  lk_sound : ∀ p b, A !! p = Some b → nChainTx b ≠ 0 → nTx b ≠ 0 ∧
    match pprev b with
    | None => nChainTx b = nTx b
    | Some q => ∃ c, A !! q = Some c ∧ nChainTx c ≠ 0 ∧ nChainTx b = nChainTx c + nTx b
    end;
  lk_complete : ∀ p b, A !! p = Some b → nTx b ≠ 0 →
    match pprev b with None => True | Some q => ∃ c, A !! q = Some c ∧ nChainTx c ≠ 0 ∧ is_failed c = false end →
    nChainTx b ≠ 0 ∨ p ∈ Q;
  lk_queue : NoDup Q ∧ ∀ p, p ∈ Q → ∃ b, A !! p = Some b ∧ nTx b ≠ 0 ∧ nChainTx b = 0 ∧
    ∀ q, pprev b = Some q → linked_block A q;
  lk_unlinked : NoDup U ∧ ∀ q p, (q, p) ∈ U → ∃ b, A !! p = Some b ∧ pprev b = Some q ∧ nTx b ≠ 0 ∧ ¬ linked_block A q;
  lk_waiting : ∀ p b q c, A !! p = Some b → pprev b = Some q → nTx b ≠ 0 → A !! q = Some c → nChainTx c = 0 →
    is_failed c = false → (q, p) ∈ U }.

Section links.
Context (A : arena) (U : list (ptr * ptr)) (Q : list ptr) (HI : wf_index A) (HL : links A U Q).

Lemma linked_of_block p : linked_block A p → linked A p.
Proof using HL.
  intros Hp n. revert p Hp. induction n as [|n IH]; intros p (b & Eb & Hb) q Hu; cbn [up] in Hu; [simplify_eq; by exists b|].
  rewrite Eb in Hu. cbn [mbind option_bind] in Hu. destruct (lk_sound _ _ _ HL p b Eb Hb) as [_ Hp].
  destruct (pprev b) as [r|]; [|done]. destruct Hp as (c & Ec & Hc & _). apply (IH r); [by exists c|done].
Qed.
Lemma chain_tx_path n : ∀ p b, A !! p = Some b → nChainTx b ≠ 0 → Z.to_nat (nHeight b) = n → nChainTx b = path_tx A n p.
Proof using HL HI.
  induction n as [|n IH]; intros p b Eb Hb Hh; pose proof (we_height _ _ _ (HI p b Eb)); pose proof (we_prev _ _ _ (HI p b Eb)) as Hp;
    destruct (lk_sound _ _ _ HL p b Eb Hb) as [_ Hs]; cbn [path_tx]; rewrite Eb; destruct (pprev b) as [q|].
  - destruct Hp as (c & Ec & ?). pose proof (we_height _ _ _ (HI q c Ec)). lia.
  - lia.
  - destruct Hp as (c & Ec & ?), Hs as (c' & Ec' & Hc & ->). rewrite Ec in Ec'. injection Ec' as <-.
    rewrite (IH q c Ec Hc) by lia. lia.
  - lia.
Qed.
Lemma child_unlinked p b c bc : A !! p = Some b → nChainTx b = 0 → A !! c = Some bc → pprev bc = Some p → nChainTx bc = 0.
Proof using HL.
  intros Eb Hb Ec Hp. destruct (decide (nChainTx bc = 0)) as [|Hne]; [done|]. destruct (lk_sound _ _ _ HL c bc Ec Hne) as [_ Hs].
  rewrite Hp in Hs. destruct Hs as (b' & Eb' & ? & _). rewrite Eb in Eb'. by injection Eb' as <-.
Qed.
Lemma path_tx_nonneg n p : 0 <= path_tx A n p.
Proof using HL.
  revert p. induction n as [|n IH]; intros p; cbn [path_tx]; destruct (A !! p) as [b|] eqn:E; try done; pose proof (lk_tx _ _ _ HL p b E) as [? _].
  - lia.
  - destruct (pprev b) as [q|]; [specialize (IH q)|]; lia.
Qed.
End links.
Lemma no_missing_links A U Q : links A U Q → no_missing A.
Proof. intros HL p b Eb Hb. destruct (lk_sound _ _ _ HL p b Eb Hb) as [? _]. by apply (lk_tx _ _ _ HL p b Eb). Qed.

Section insert.
(** Writing a block that is not linked, without changing its place in the tree. *)
Context {V : Validation} (A : arena) (U : list (ptr * ptr)) (Q : list ptr) (HT : tree A) (HL : links A U Q).
Context (p : ptr) (b b' : CBlockIndex) (Eb : A !! p = Some b) (Hb : nChainTx b = 0) (Hbones : bones b' = bones b).
Notation B := (<[p := b']> A).

Lemma ins_tree : same_tree A B.
Proof using Eb Hbones. by apply (map_insert_same bones A p b). Qed.
Lemma ins_p : B !! p = Some b'.
Proof using Eb. apply list_lookup_insert_eq. by eapply lookup_lt_Some. Qed.
Lemma ins_ne q : q ≠ p → B !! q = A !! q.
Proof. intros. by apply list_lookup_insert_ne. Qed.
Lemma ins_linked_ne q : linked_block A q → q ≠ p.
Proof using Eb Hb. intros (c & Ec & Hc) ->. rewrite Eb in Ec. injection Ec as <-. done. Qed.
Lemma ins_linked_block q : linked_block A q → linked_block B q.
Proof using Eb Hb. intros Hq. pose proof (ins_linked_ne q Hq). destruct Hq as (c & Ec & Hc). exists c. by rewrite ins_ne. Qed.
Lemma ins_linked q : linked A q → linked B q.
Proof using Eb Hb Hbones. intros Hq n r Hu. rewrite <- (st_up _ _ ins_tree) in Hu. by apply ins_linked_block, (Hq n). Qed.
Lemma ins_less q r : q ≠ p → r ≠ p → less B q r = less A q r.
Proof. intros Hq Hr. unfold CBlockIndexWorkComparator. by rewrite !ins_ne. Qed.
Lemma ins_geq q r : q ≠ p → r ≠ p → geq B q r ↔ geq A q r.
Proof. intros Hq Hr. unfold geq. by rewrite ins_less. Qed.
Lemma good_ne q : good A q → q ≠ p.
Proof using Eb Hb. intros Hq. apply ins_linked_ne. exact (all_up_self _ _ _ (usable_linked _ _ (good_usable _ _ Hq))). Qed.
Lemma ins_good q : good A q → good B q.
Proof using Eb Hb Hbones.
  intros Hq n r Hu. rewrite <- (st_up _ _ ins_tree) in Hu. destruct (Hq n r Hu) as [(c & Ec & H1 & H2 & H3) ?]. split; [|done].
  exists c. rewrite ins_ne; [done|]. apply ins_linked_ne. by exists c.
Qed.
(** Only the block itself can become valid: its children are not linked. *)
Lemma ins_good_inv q : good B q → q = p ∨ good A q.
Proof using All.
  intros Hq. destruct (decide (q = p)) as [|Hne]; [by left|]. right. intros n r Hu.
  assert (∀ m, up A m q ≠ Some p) as Hnot.
  { intros m Hm. destruct m as [|m]; [by cbn [up] in Hm; injection Hm|].
    assert (∃ c bc, up A m q = Some c ∧ A !! c = Some bc ∧ pprev bc = Some p) as (c & bc & Hc & Ec & Hp).
    { replace (S m) with (m + 1)%nat in Hm by lia. rewrite up_add in Hm. destruct (up A m q) as [c|]; [|done]. cbn [mbind option_bind up] in Hm.
      destruct (A !! c) as [bc|] eqn:Ec; [|done]. cbn [mbind option_bind] in Hm. destruct (pprev bc) as [x|] eqn:Ex; [|done].
      exists c, bc. cbn in Hm. split_and!; congruence. }
    pose proof (child_unlinked _ _ _ HL p b c bc Eb Hb Ec Hp) as Hz. rewrite (st_up _ _ ins_tree) in Hc.
    destruct (Hq m c Hc) as [(bc' & Ec' & Hn & _) _]. rewrite ins_ne in Ec'; [rewrite Ec in Ec'; by injection Ec' as <-|].
    intros ->. pose proof (we_prev _ _ _ (tr_index A HT p bc Ec)) as Hpp. rewrite Hp in Hpp. destruct Hpp as (d & Ed & ?).
    rewrite Ec in Ed. injection Ed as <-. lia. }
  pose proof Hu as Hu'. rewrite (st_up _ _ ins_tree) in Hu'. destruct (Hq n r Hu') as [(c & Ec & H1 & H2 & H3) ?]. split; [|done].
  exists c. rewrite ins_ne in Ec; [done|]. intros ->. by apply (Hnot n).
Qed.
End insert.

(** ** The invariant *)
Section machine.
Context {V : Validation}.

Record rest_q (st : main_state) (Q : list ptr) : Prop := {
  rq_base : base st;
  rq_index : wf_state (ms_index st);
  rq_mapped : ∀ p b, arena_of st !! p = Some b → mapBlockIndex (ms_index st) !! phashBlock b = Some p;
  rq_best : ∀ t p, Tip (chainActive st) = Some t → good (arena_of st) p → geq (arena_of st) p t → p ∈ setBlockIndexCandidates st;
  rq_links : links (arena_of st) (mapBlocksUnlinked st) Q }.
Notation rest st := (rest_q st []).

Lemma rest_act st Q : rest_q st Q → act st.
Proof.
  intros [Hb _ _ Hbest _]. split; [done|]. destruct (base_tip st Hb) as (t & b & Et & _ & _ & Hg). exists t, t. split_and!; [done|done|by left|].
  intros p Hp Hpt. by apply (Hbest t).
Qed.

(** ** Linking one block *)
Lemma links_link A U Q p b q' N seq : tree A → links A U (p :: Q) → A !! p = Some b →
  q' = match pprev b with None => 0 | Some q => match A !! q with Some c => nChainTx c | None => 0 end end → N = q' + nTx b → N ≠ 0 →
  links (<[p := set_chain_tx b N seq]> A) (filter (λ e : ptr * ptr, e.1 ≠ p) U) (Q ++ (filter (λ e : ptr * ptr, e.1 = p) U).*2).
Proof.
  intros HT HL Eb Hq' HN Hnz. set (b' := set_chain_tx b N seq). destruct (lk_queue _ _ _ HL) as [Hnd HQ].
  apply list.NoDup_cons in Hnd as [HpQ Hnd].
  destruct (HQ p) as (b0 & Eb0 & Htx & Hz & Hpar); [set_solver|]. rewrite Eb in Eb0. injection Eb0 as <-.
  destruct (lk_unlinked _ _ _ HL) as [HUnd HU].
  pose proof (ins_p A p b b' Eb) as Ep. pose proof (ins_ne A p b') as Ene.
  assert (∀ x c, <[p := b']> A !! x = Some c → ∃ d, A !! x = Some d ∧ (x = p ∧ d = b ∧ c = b' ∨ x ≠ p ∧ d = c)) as Hinv.
  { intros x c Ec. destruct (decide (x = p)) as [->|Hne]; [rewrite Ep in Ec; injection Ec as <-; exists b; tauto|].
    rewrite Ene in Ec by done. exists c. tauto. }
  assert (∀ x, linked_block (<[p := b']> A) x ↔ linked_block A x ∨ x = p) as Hlb.
  { intros x. split.
    - intros (c & Ec & Hc). destruct (Hinv x c Ec) as (d & Ed & [(-> & _)|(? & ->)]); [by right|left; by exists c].
    - intros [H | ->]; [by eapply ins_linked_block|by exists b']. }
  assert (∀ x, x ∈ (filter (λ e : ptr * ptr, e.1 = p) U).*2 ↔ (p, x) ∈ U) as Hmore.
  { intros x. rewrite list_elem_of_fmap. split.
    - intros ([y z] & -> & Hin). apply list_elem_of_filter in Hin as [Hy Hin]. cbn in *. by subst.
    - intros Hin. exists (p, x). split; [done|]. by apply list_elem_of_filter. }
  assert (∀ x, (p, x) ∈ U → x ≠ p ∧ x ∉ Q ∧ ∃ c, A !! x = Some c ∧ nTx c ≠ 0 ∧ nChainTx c = 0 ∧ pprev c = Some p) as Hchild.
  { intros x Hin. destruct (HU p x Hin) as (c & Ec & Hpc & Hc & Hnl). split_and!.
    - intros ->. pose proof (we_prev _ _ _ (tr_index A HT p c Ec)) as Hpp. rewrite Hpc in Hpp. destruct Hpp as (d & Ed & ?).
      rewrite Ec in Ed. injection Ed as <-. lia.
    - intros HxQ. destruct (HQ x) as (c' & Ec' & _ & _ & Hl); [set_solver|]. rewrite Ec in Ec'. injection Ec' as <-. by apply Hnl, Hl.
    - exists c. split_and!; try done. exact (child_unlinked _ _ _ HL p b x c Eb Hz Ec Hpc). }
  split.
  - intros x c Ec. destruct (Hinv x c Ec) as (d & Ed & [(-> & -> & ->)|(_ & ->)]); by apply (lk_tx _ _ _ HL _ _ Ed).
  - intros x c Ec Hc. destruct (Hinv x c Ec) as (d & Ed & [(-> & -> & ->)|(Hne & ->)]).
    + split; [done|]. change (pprev b') with (pprev b). change (nTx b') with (nTx b). change (nChainTx b') with N. subst N q'.
      destruct (pprev b) as [q|]; [|lia]. destruct (Hpar q eq_refl) as (d & Ed' & Hd). rewrite Ed'. exists d. split_and!; [|done|done].
      rewrite Ene; [done|]. intros ->. rewrite Eb in Ed'. injection Ed' as <-. done.
    + destruct (lk_sound _ _ _ HL x c Ed Hc) as [? Hs]. split; [done|]. destruct (pprev c) as [q|]; [|done].
      destruct Hs as (d & Ed' & Hd & ?). exists d. split_and!; [|done|done]. rewrite Ene; [done|]. intros ->.
      rewrite Eb in Ed'. by injection Ed' as <-.
  - intros x c Ec Hc Hp. destruct (Hinv x c Ec) as (d & Ed & [(-> & -> & ->)|(Hne & ->)]); [by left|].
    destruct (pprev c) as [q|] eqn:Epc.
    + destruct Hp as (e & Ee & He & Hfe). destruct (decide (q = p)) as [->|Hqp].
      * right. rewrite Ep in Ee. injection Ee as <-. apply elem_of_app. right. apply Hmore. by eapply (lk_waiting _ _ _ HL x c p b).
      * rewrite Ene in Ee by done. destruct (lk_complete _ _ _ HL x c Ed Hc) as [|Hin]; [rewrite Epc; eauto|by left|]. right. set_solver.
    + destruct (lk_complete _ _ _ HL x c Ed Hc) as [|Hin]; [by rewrite Epc|by left|]. right. set_solver.
  - split.
    + apply list.NoDup_app. split_and!; [done|intros x Hx Hm; apply Hmore in Hm; by apply (Hchild x Hm)|].
      apply NoDup_fmap_2_strong; [|by apply list.NoDup_filter]. intros [y z] [y' z'] Hin Hin' E. cbn in E.
      apply list_elem_of_filter in Hin as [? _], Hin' as [? _]. cbn in *. by subst.
    + intros x [Hx|Hx]%elem_of_app.
      * destruct (HQ x) as (c & Ec & ? & ? & Hl); [set_solver|]. exists c. rewrite Ene by (intros ->; done). split_and!; try done.
        intros q Eq. apply Hlb. left. by apply Hl.
      * apply Hmore in Hx. destruct (Hchild x Hx) as (Hne & _ & c & Ec & ? & ? & Hpc). exists c. rewrite Ene by done. split_and!; try done.
        intros q Eq. apply Hlb. right. congruence.
  - split; [by apply list.NoDup_filter|]. intros q x Hin. apply list_elem_of_filter in Hin as [Hqp Hin]. cbn in Hqp.
    destruct (HU q x Hin) as (c & Ec & ? & ? & Hnl). assert (¬ linked_block (<[p := b']> A) q) by (rewrite Hlb; tauto).
    destruct (decide (x = p)) as [->|]; [|exists c; by rewrite Ene]. rewrite Eb in Ec. injection Ec as <-. by exists b'.
  - intros x c q e Ec Hpc Hc Ee He Hfe. destruct (decide (q = p)) as [->|Hqp]; [rewrite Ep in Ee; by injection Ee as <-|].
    rewrite Ene in Ee by done. apply list_elem_of_filter. split; [done|]. destruct (Hinv x c Ec) as (d & Ed & [(-> & -> & ->)|(_ & ->)]);
    by eapply (lk_waiting _ _ _ HL).
Qed.

Definition tx_shape (b : CBlockIndex) : Z * option ptr := (nTx b, pprev b).
Lemma txs_fit_same A B : map tx_shape A = map tx_shape B → same_tree A B → txs_fit A → txs_fit B.
Proof.
  intros Hs HS H p c Ec. destruct (st_lookup _ _ (st_sym _ _ HS) p c Ec) as (b & Eb & (_ & _ & -> & _)%bones_fields).
  rewrite <- (path_tx_eq A B) by done. by apply H.
Qed.

(** What follows from writing an unlinked block; [C] are the candidates afterwards. *)
Lemma base_insert st Q p b b' i C U' : rest_q st Q → arena_of st !! p = Some b → nChainTx b = 0 → bones b' = bones b →
  blocks i = <[p := b']> (arena_of st) → mapBlockIndex i = mapBlockIndex (ms_index st) → pindexBestHeader i = pindexBestHeader (ms_index st) →
  (∀ x, x ∈ C ↔ x ∈ setBlockIndexCandidates st ∨ x = p ∧ p ∈ C) → (p ∈ C → linked (blocks i) p) →
  (∀ t, Tip (chainActive st) = Some t → good (blocks i) p → geq (blocks i) p t → p ∈ C) →
  ∀ Q' seq, links (blocks i) U' Q' →
  rest_q (mkMain i (chainActive st) (pindexBestInvalid st) C U' seq) Q'.
Proof.
  intros Hst Eb Hb Hbones Ei Em Eh HC Hlp Hgp Q' seq HL'. destruct Hst as [[B1 B2 B3 B4 B5] Hidx Hmap Hbest HL].
  pose proof (ins_tree _ p b b' Eb Hbones) as HS. pose proof (st_tree _ _ HS B1) as HT'. rewrite <- Ei in HS, HT'.
  assert (base st) as Hbase by done. split; cbn.
  - split; cbn; [done| | | |].
    + destruct B2 as (t & Ht & Hg). exists t. split; [by eapply st_chain_to|]. rewrite Ei. by eapply ins_good.
    + intros x c Ec Hc. destruct (st_lookup _ _ (st_sym _ _ HS) x c Ec) as (d & Ed & (_ & _ & Hh & _)%bones_fields). apply (B3 x d Ed). lia.
    + intros x [Hx|[-> Hx]]%HC; [|by apply Hlp]. rewrite Ei. eapply ins_linked; [done..|]. by apply B4.
    + intros x Ex. destruct (B5 x Ex) as [c Ec]. by destruct (st_lookup _ _ HS x c Ec) as (? & -> & _).
  - by eapply wf_state_same.
  - intros x c Ec. rewrite Em. destruct (st_lookup _ _ (st_sym _ _ HS) x c Ec) as (d & Ed & (-> & _)%bones_index). by apply Hmap.
  - intros t x Et Hx Hxt. rewrite Ei in Hx. destruct (ins_good_inv _ _ _ B1 HL p b b' Eb Hb Hbones x Hx) as [->|Hg].
    { apply (Hgp t Et); [by rewrite Ei|done]. }
    apply HC. left. apply (Hbest t x Et Hg). rewrite Ei in Hxt.
    destruct (base_tip st Hbase) as (t' & _ & Et' & _ & _ & Htg). rewrite Et in Et'. injection Et' as <-.
    rewrite ins_geq in Hxt; [done|by eapply good_ne|by eapply good_ne].
  - done.
Qed.

Lemma link_block_spec st Q p : rest_q st (p :: Q) → txs_fit (arena_of st) →
  ∃ st' more, link_block st p = inr (st', more) ∧ rest_q st' (Q ++ more) ∧ txs_fit (arena_of st') ∧ same_tree (arena_of st) (arena_of st') ∧
    (length (mapBlocksUnlinked st') + length more = length (mapBlocksUnlinked st))%nat ∧ chainActive st' = chainActive st.
Proof.
  intros Hst Hfit. pose proof Hst as [Hbase _ _ _ HL]. pose proof (ba_tree st Hbase) as HT.
  destruct (lk_queue _ _ _ HL) as [_ HQ]. destruct (HQ p) as (b & Eb & Htx & Hz & Hpar); [set_solver|].
  pose proof (lk_tx _ _ _ HL p b Eb) as [Hpos _]. set (A := arena_of st) in *.
  set (q' := match pprev b with None => 0 | Some q => match A !! q with Some c => nChainTx c | None => 0 end end).
  assert (match pprev b with None => mret 0 | Some q => c ← deref (A !! q); mret (nChainTx c) end = (inr q' : R Z)) as Eq'.
  { unfold q'. destruct (pprev b) as [q|]; [|done]. destruct (Hpar q eq_refl) as (c & Ec & _). by rewrite Ec. }
  assert (0 <= q' ∧ q' + nTx b = path_tx A (Z.to_nat (nHeight b)) p) as [Hq0 Hsum].
  { unfold q'. pose proof (we_height _ _ _ (tr_index A HT p b Eb)). pose proof (we_prev _ _ _ (tr_index A HT p b Eb)) as Hp.
    destruct (pprev b) as [q|] eqn:Epb.
    - destruct (Hpar q eq_refl) as (c & Ec & Hc). rewrite Ec. destruct Hp as (c' & Ec' & Hh). rewrite Ec in Ec'. injection Ec' as <-.
      pose proof (we_height _ _ _ (tr_index A HT q c Ec)).
      replace (Z.to_nat (nHeight b)) with (S (Z.to_nat (nHeight c))) by lia. cbn [path_tx]. rewrite Eb, Epb.
      rewrite (chain_tx_path _ _ _ (tr_index A HT) HL (Z.to_nat (nHeight c)) q c Ec Hc eq_refl). split; [by eapply path_tx_nonneg|lia].
    - rewrite Hp. change (Z.to_nat 0) with 0%nat. cbn [path_tx]. rewrite Eb. split; [done|lia]. }
  pose proof (Hfit p b Eb) as Hlt. rewrite <- Hsum in Hlt. assert (u32 (q' + nTx b) = q' + nTx b) as Hu by (apply Z.mod_small; lia).
  unfold link_block. fold A. rewrite Eb. cbn [deref mbind R_bind]. rewrite Eq'. cbn [mbind R_bind]. rewrite Hu.
  set (b' := set_chain_tx b (q' + nTx b) (nBlockSequenceId st)). cbn [ms_index set_block set_index chainActive setBlockIndexCandidates blocks]. fold A.
  destruct (base_tip st Hbase) as (t & bt & Et & Ebt & Htc & Htg). rewrite Et.
  pose proof (links_link A _ Q p b q' (q' + nTx b) (nBlockSequenceId st) HT HL Eb eq_refl eq_refl ltac:(lia)) as HL'.
  assert (linked (<[p := b']> A) p) as Hlp.
  { eapply linked_of_block; [exact HL'|]. exists b'. rewrite (ins_p A p b b' Eb). split; [done|]. change (nChainTx b') with (q' + nTx b). lia. }
  set (i := mkState (<[p := b']> A) (mapBlockIndex (ms_index st)) (pindexBestHeader (ms_index st)) (setDirtyBlockIndex (ms_index st))). set (U' := filter (λ e : ptr * ptr, e.1 ≠ p) (mapBlocksUnlinked st)).
  assert (∀ C, (C = setBlockIndexCandidates st ∧ less (<[p := b']> A) p t = true ∨ C = {[p]} ∪ setBlockIndexCandidates st) →
    rest_q (mkMain i (chainActive st) (pindexBestInvalid st) C U' (u32 (nBlockSequenceId st + 1))) (Q ++ (filter (λ e : ptr * ptr, e.1 = p) (mapBlocksUnlinked st)).*2))
    as Hrest.
  { intros C HC. eapply (base_insert st (p :: Q) p b b' i C U'); try done.
    - destruct HC as [[-> _]| ->]; intros x; set_solver.
    - intros t' Et' Hg Hge. rewrite Et in Et'. injection Et' as <-. destruct HC as [[_ Hless]| ->]; [|set_solver].
      rewrite geq_not_less in Hless; [done| |done]. eapply st_tree; [by apply (ins_tree A p b b' Eb)|done]. }
  pose proof (ins_tree A p b b' Eb eq_refl) as HS.
  assert (txs_fit (<[p := b']> A)) as Hfit' by (eapply txs_fit_same; [by apply (map_insert_same tx_shape A p b)|done|done]).
  assert (length U' + length ((filter (λ e : ptr * ptr, e.1 = p) (mapBlocksUnlinked st)).*2) = length (mapBlocksUnlinked st))%nat as Hlen.
  { unfold U'. rewrite length_fmap. clear. induction (mapBlocksUnlinked st) as [|e U IH]; [done|]. rewrite !filter_cons.
    destruct (decide (e.1 = p)), (decide (e.1 ≠ p)); try done; simpl; lia. }
  destruct (less (<[p := b']> A) p t) eqn:Eless; eexists _, _; (split; [done|]);
    (split; [apply Hrest; tauto|]); by split_and!.
Qed.

Lemma link_loop_spec fuel : ∀ st Q, rest_q st Q → txs_fit (arena_of st) → (length Q + length (mapBlocksUnlinked st) <= fuel)%nat →
  ∃ st', link_loop fuel st Q = inr st' ∧ rest st' ∧ same_tree (arena_of st) (arena_of st') ∧ chainActive st' = chainActive st.
Proof.
  induction fuel as [|fuel IH]; intros st [|p Q] Hst Hfit Hf; cbn [link_loop]; try (exists st; by split_and!); simpl in Hf; [lia|].
  destruct (link_block_spec st Q p Hst Hfit) as (st1 & more & -> & H1 & Hfit1 & HS & Hlen & Hc). cbn [mbind R_bind].
  destruct (IH st1 (Q ++ more) H1 Hfit1) as (st' & -> & H2 & HS2 & Hc2); [rewrite length_app; lia|].
  exists st'. split_and!; [done|done|by eapply st_trans|congruence].
Qed.

(** ** Receiving a block *)
(** The entry of a block whose transactions have just been stored. *)
Definition stored (b : CBlockIndex) (fStake fWitness : bool) (n file pos : Z) : CBlockIndex :=
  let b := if fStake then set_nStatus b (Z.lor (nStatus b) BLOCK_PROOF_OF_STAKE) else b in
  let b := set_data b (u32 n) file pos in
  let b := set_nStatus b (Z.lor (nStatus b) BLOCK_HAVE_DATA) in
  let b := if fWitness then set_nStatus b (Z.lor (nStatus b) BLOCK_OPT_WITNESS) else b in
  if is_failed b then b
  else if Z.land (nStatus b) BLOCK_VALID_MASK <? BLOCK_VALID_TRANSACTIONS
  then set_nStatus b (Z.lor (Z.land (nStatus b) (u32 (Z.lnot BLOCK_VALID_MASK))) BLOCK_VALID_TRANSACTIONS) else b.

Lemma land_lor_disjoint x f m : Z.land f m = 0 → Z.land (Z.lor x f) m = Z.land x m.
Proof. intros H. by rewrite Z.land_lor_distr_l, H, Z.lor_0_r. Qed.
Lemma land_lor_inside x f m : Z.land f m ≠ 0 → Z.land (Z.lor x f) m ≠ 0.
Proof. intros H. rewrite Z.land_lor_distr_l. by intros [_ ?]%Z.lor_eq_0_iff. Qed.
Lemma is_failed_mask b x : Z.land x BLOCK_FAILED_MASK = Z.land (nStatus b) BLOCK_FAILED_MASK → is_failed (set_nStatus b x) = is_failed b.
Proof. intros H. unfold is_failed. cbn [nStatus set_nStatus]. by rewrite H. Qed.

Lemma stored_spec b fStake fWitness n file pos : 0 < n < 2 ^ 32 → BLOCK_VALID_TREE <= Z.land (nStatus b) BLOCK_VALID_MASK →
  let b' := stored b fStake fWitness n file pos in
  bones b' = bones b ∧ nTx b' = n ∧ nChainTx b' = 0 ∧ nSequenceId b' = nSequenceId b ∧ is_failed b' = is_failed b ∧ have_data b' = true ∧
  (is_failed b' = false → BLOCK_VALID_TRANSACTIONS <= Z.land (nStatus b') BLOCK_VALID_MASK) ∧
  BLOCK_VALID_TREE <= Z.land (nStatus b') BLOCK_VALID_MASK.
Proof.
  intros Hn Hv. unfold stored. set (b1 := if fStake then _ else b).
  assert (is_failed b1 = is_failed b ∧ bones b1 = bones b ∧ nSequenceId b1 = nSequenceId b ∧
    Z.land (nStatus b1) BLOCK_VALID_MASK = Z.land (nStatus b) BLOCK_VALID_MASK) as (F1 & B1 & S1 & V1).
  { unfold b1. destruct fStake; [|done]. split_and!; [|done|done|by apply land_lor_disjoint]. apply is_failed_mask. by apply land_lor_disjoint. }
  set (b2 := set_data b1 _ _ _). assert (is_failed b2 = is_failed b ∧ bones b2 = bones b) as [F2 B2] by (split; [exact F1|exact B1]).
  set (b3 := set_nStatus b2 _). assert (is_failed b3 = is_failed b) as F3.
  { rewrite <- F2. apply is_failed_mask. by apply land_lor_disjoint. }
  assert (Z.land (nStatus b3) BLOCK_VALID_MASK = Z.land (nStatus b) BLOCK_VALID_MASK) as V3.
  { rewrite <- V1. by apply land_lor_disjoint. }
  assert (have_data b3 = true) as D3. { unfold have_data. apply negb_true_iff, Z.eqb_neq. by apply land_lor_inside. }
  set (b4 := if fWitness then _ else b3).
  assert (is_failed b4 = is_failed b ∧ have_data b4 = true ∧ bones b4 = bones b ∧ nTx b4 = u32 n ∧ nChainTx b4 = 0 ∧ nSequenceId b4 = nSequenceId b ∧
    Z.land (nStatus b4) BLOCK_VALID_MASK = Z.land (nStatus b) BLOCK_VALID_MASK) as (F4 & D4 & B4 & T4 & C4 & S4 & V4).
  { unfold b4. destruct fWitness; [|by split_and!]. split_and!; try done.
    - rewrite <- F3. apply is_failed_mask. by apply land_lor_disjoint.
    - unfold have_data. cbn [nStatus set_nStatus]. by rewrite land_lor_disjoint.
    - rewrite <- V3. by apply land_lor_disjoint. }
  assert (u32 n = n) as Hu by (apply Z.mod_small; lia). rewrite Hu in T4. cbv zeta.
  destruct (is_failed b4) eqn:E4; [by rewrite V4; split_and!; try done; congruence|]. destruct (Z.ltb_spec (Z.land (nStatus b4) BLOCK_VALID_MASK) BLOCK_VALID_TRANSACTIONS) as [Hlt|Hge].
  - assert (∀ m, Z.land (u32 (Z.lnot BLOCK_VALID_MASK)) m = m → Z.land BLOCK_VALID_TRANSACTIONS m = 0 →
      Z.land (Z.lor (Z.land (nStatus b4) (u32 (Z.lnot BLOCK_VALID_MASK))) BLOCK_VALID_TRANSACTIONS) m = Z.land (nStatus b4) m) as Hm.
    { intros m H1 H2. rewrite land_lor_disjoint by done. by rewrite <- Z.land_assoc, H1. }
    split_and!; try done.
    + transitivity (is_failed b4); [|congruence]. apply is_failed_mask. by apply Hm.
    + unfold have_data. cbn [nStatus set_nStatus]. by rewrite Hm.
    + intros _. cbn [nStatus set_nStatus]. rewrite Z.land_lor_distr_l, <- Z.land_assoc, Z.land_0_r. done.
    + cbn [nStatus set_nStatus]. rewrite Z.land_lor_distr_l, <- Z.land_assoc, Z.land_0_r. done.
  - split_and!; try done; [congruence|]. unfold BLOCK_VALID_TREE, BLOCK_VALID_TRANSACTIONS in *. lia.
Qed.

(** Storing the transactions of a block: it is linked next, or it waits for its parent. *)
Section store.
Context (A : arena) (U : list (ptr * ptr)) (HT : tree A) (HL : links A U []).
Context (p : ptr) (b b' : CBlockIndex) (Eb : A !! p = Some b) (Hz : nTx b = 0).
Context (Hbones : bones b' = bones b) (Htx : 0 < nTx b') (Hc' : nChainTx b' = 0) (Hf : is_failed b' = is_failed b) (Hd : have_data b' = true).
Context (Hv : is_failed b' = false → BLOCK_VALID_TRANSACTIONS <= Z.land (nStatus b') BLOCK_VALID_MASK).
Context (Hv' : BLOCK_VALID_TREE <= Z.land (nStatus b') BLOCK_VALID_MASK).
Notation B := (<[p := b']> A).

Lemma store_unlinked : nChainTx b = 0.
Proof using HL Eb Hz. destruct (decide (nChainTx b = 0)) as [|Hne]; [done|]. by destruct (lk_sound _ _ _ HL p b Eb Hne). Qed.
Lemma store_prev : pprev b' = pprev b.
Proof using Hbones. by destruct (bones_fields _ _ Hbones). Qed.
Lemma store_inv x c : B !! x = Some c → ∃ d, A !! x = Some d ∧ (x = p ∧ d = b ∧ c = b' ∨ x ≠ p ∧ d = c).
Proof using Eb.
  intros Ec. destruct (decide (x = p)) as [->|Hne]; [rewrite (ins_p A p b b' Eb) in Ec; injection Ec as <-; exists b; tauto|].
  rewrite ins_ne in Ec by done. exists c. tauto.
Qed.
Lemma store_linked x : linked_block B x ↔ linked_block A x.
Proof using HL Eb Hz Hc'.
  split; intros (c & Ec & Hc).
  - destruct (store_inv x c Ec) as (d & Ed & [(-> & -> & ->)|(_ & ->)]); [done|by exists c].
  - exists c. split; [|done]. rewrite ins_ne; [done|]. intros ->. rewrite Eb in Ec. injection Ec as <-. by rewrite store_unlinked in Hc.
Qed.
Lemma store_parent q c : B !! q = Some c → ∃ d, A !! q = Some d ∧ nChainTx d = nChainTx c ∧ is_failed d = is_failed c.
Proof using HL Eb Hz Hc' Hf.
  intros Ec. destruct (store_inv q c Ec) as (d & Ed & [(-> & -> & ->)|(_ & ->)]); [|by exists c]. exists b. split_and!; [done| |done].
  by rewrite Hc', store_unlinked.
Qed.

(** The clauses that do not depend on where the block goes. *)
Lemma links_store U' Q' :
  (NoDup Q' ∧ ∀ x, x ∈ Q' → x = p ∧ ∀ q, pprev b = Some q → linked_block A q) →
  (NoDup U' ∧ ∀ q x, (q, x) ∈ U' → (q, x) ∈ U ∨ x = p ∧ pprev b = Some q ∧ ¬ linked_block A q) →
  (∀ e, e ∈ U → e ∈ U') →
  (match pprev b with None => True | Some q => ∃ c, A !! q = Some c ∧ nChainTx c ≠ 0 ∧ is_failed c = false end → p ∈ Q') →
  (∀ q c, pprev b = Some q → A !! q = Some c → nChainTx c = 0 → is_failed c = false → (q, p) ∈ U') →
  links B U' Q'.
Proof using All.
  intros [HQnd HQ] [HUnd HU] Hsub Hcomp Hwait. pose proof (ins_p A p b b' Eb) as Ep. split.
  - intros x c Ec. destruct (store_inv x c Ec) as (d & Ed & [(-> & -> & ->)|(_ & ->)]); [split_and!; [lia|done|done|done]|by apply (lk_tx _ _ _ HL _ _ Ed)].
  - intros x c Ec Hc. destruct (store_inv x c Ec) as (d & Ed & [(-> & -> & ->)|(Hne & ->)]); [done|].
    destruct (lk_sound _ _ _ HL x c Ed Hc) as [? Hs]. split; [done|]. destruct (pprev c) as [q|]; [|done].
    destruct Hs as (d & Ed' & Hd' & ?). exists d. split_and!; [|done|done]. rewrite ins_ne; [done|]. intros ->.
    rewrite Eb in Ed'. injection Ed' as <-. by rewrite store_unlinked in Hd'.
  - intros x c Ec Hc Hp. destruct (store_inv x c Ec) as (d & Ed & [(-> & -> & ->)|(Hne & ->)]).
    + right. apply Hcomp. rewrite store_prev in Hp. destruct (pprev b) as [q|]; [|done]. destruct Hp as (c & Ecq & H1 & H2).
      destruct (store_parent q c Ecq) as (d & Edq & Hd1 & Hd2). exists d. rewrite Hd1, Hd2. done.
    + destruct (lk_complete _ _ _ HL x c Ed Hc) as [|Hin]; [|by left|by apply not_elem_of_nil in Hin].
      destruct (pprev c) as [q|]; [|done]. destruct Hp as (e & Ee & H1 & H2). destruct (store_parent q e Ee) as (d & Edq & Hd1 & Hd2).
      exists d. rewrite Hd1, Hd2. done.
  - split; [done|]. intros x Hx. destruct (HQ x Hx) as [-> Hl]. exists b'. rewrite store_prev. split_and!; [done|lia|done|].
    intros q Eq. apply store_linked. by apply Hl.
  - split; [done|]. intros q x Hin. pose proof (store_linked q) as Hlq. destruct (HU q x Hin) as [Hin'|(-> & Hpq & Hnl)].
    + destruct (lk_unlinked _ _ _ HL) as [_ HU']. destruct (HU' q x Hin') as (c & Ec & ? & ? & ?). exists c. rewrite ins_ne; [tauto|].
      intros ->. rewrite Eb in Ec. by injection Ec as <-.
    + exists b'. rewrite store_prev. split_and!; [done|done|lia|tauto].
  - intros x c q e Ec Hpc Hc Ee He Hfe. destruct (store_parent q e Ee) as (d & Edq & Hd1 & Hd2). rewrite <- Hd1 in He. rewrite <- Hd2 in Hfe.
    destruct (store_inv x c Ec) as (d' & Ed & [(-> & -> & ->)|(_ & ->)]); [rewrite store_prev in Hpc; by eapply Hwait|].
    apply Hsub. by eapply (lk_waiting _ _ _ HL).
Qed.
End store.

(** [p]'s entry with [n] transactions. *)
Definition with_txs (A : arena) (p : ptr) (n : Z) : arena :=
  match A !! p with Some b => <[p := set_data b n 0 0]> A | None => A end.

Lemma raise_transactions b : ∃ f, RaiseValidity b BLOCK_VALID_TRANSACTIONS = Some (if is_failed b then b
  else if Z.land (nStatus b) BLOCK_VALID_MASK <? BLOCK_VALID_TRANSACTIONS
  then set_nStatus b (Z.lor (Z.land (nStatus b) (u32 (Z.lnot BLOCK_VALID_MASK))) BLOCK_VALID_TRANSACTIONS) else b, f).
Proof. unfold RaiseValidity, is_failed. simpl. repeat case_match; by eexists. Qed.
Lemma IsValid_tree b : BLOCK_VALID_TREE <= Z.land (nStatus b) BLOCK_VALID_MASK → IsValid b BLOCK_VALID_TREE = Some (negb (is_failed b)).
Proof.
  intros H. unfold IsValid, is_failed. simpl. destruct (Z.land (nStatus b) BLOCK_FAILED_MASK =? 0); [|done]. by rewrite (proj2 (Z.leb_le _ _)).
Qed.

Lemma ReceivedBlockTransactions_spec st fStake fWitness n file pos p b : rest st → arena_of st !! p = Some b → nTx b = 0 → 0 < n < 2 ^ 32 →
  txs_fit (with_txs (arena_of st) p n) →
  ∃ st', ReceivedBlockTransactions st fStake fWitness n file pos p = inr st' ∧ rest st' ∧ same_tree (arena_of st) (arena_of st') ∧
    chainActive st' = chainActive st.
Proof.
  intros Hst Eb Hz Hn Hfit. pose proof Hst as [Hbase _ _ _ HL]. pose proof (ba_tree st Hbase) as HT. pose proof (lk_tx _ _ _ HL p b Eb) as (_ & _ & _ & Htree).
  destruct (stored_spec b fStake fWitness n file pos Hn Htree) as (Hbones & Htx & Hc & _ & Hf & Hd & Hv & Hv').
  set (b' := stored b fStake fWitness n file pos) in *. set (A := arena_of st) in *.
  pose proof (store_unlinked A _ HL p b Eb Hz) as Hbz. pose proof (ins_tree A p b b' Eb Hbones) as HS.
  assert (txs_fit (<[p := b']> A)) as Hfit'.
  { unfold with_txs in Hfit. rewrite Eb in Hfit. eapply txs_fit_same; [| |exact Hfit].
    - rewrite <- (list_insert_insert_eq A p b' (set_data b n 0 0)). apply (map_insert_same tx_shape _ p (set_data b n 0 0)).
      + apply (ins_p A p b _ Eb).
      + unfold tx_shape. by rewrite Htx, (store_prev b b' Hbones).
    - eapply st_trans; [apply st_sym, (ins_tree A p b (set_data b n 0 0) Eb eq_refl)|done]. }
  unfold ReceivedBlockTransactions. fold A. rewrite Eb. cbn [deref mbind R_bind].
  match goal with |- context [RaiseValidity ?x _] => destruct (raise_transactions x) as (f & ->) end. cbn [deref mbind R_bind].
  match goal with |- context [mark_dirty (set_block st p ?x) p] => change x with b' end.
  set (i := mkState (<[p := b']> A) (mapBlockIndex (ms_index st)) (pindexBestHeader (ms_index st)) ({[p]} ∪ setDirtyBlockIndex (ms_index st))).
  assert (∀ U' Q', links (<[p := b']> A) U' Q' →
    rest_q (mkMain i (chainActive st) (pindexBestInvalid st) (setBlockIndexCandidates st) U' (nBlockSequenceId st)) Q') as Hrest.
  { intros U' Q' HL'. assert (p ∉ setBlockIndexCandidates st) as HpC.
    { intros Hin. destruct (all_up_self _ _ _ (ba_cand st Hbase p Hin)) as (c & Ec & Hcc). fold A in Ec. rewrite Eb in Ec. injection Ec as <-. done. }
    apply (base_insert st [] p b b' i); try done; [intros x; naive_solver|].
    intros t _ Hg _. apply good_block in Hg as [(c & Ec & Hcc & _) _]. cbn in Ec. rewrite (ins_p A p b b' Eb) in Ec. injection Ec as <-. done. }
  pose proof (links_store A _ HT HL p b b' Eb Hz Hbones ltac:(lia) Hc Hf Hd Hv Hv') as Hstore. destruct (lk_unlinked _ _ _ HL) as [HUnd HU].
  assert ((∀ q, pprev b = Some q → linked_block A q) → ∃ st', link_loop (S (length (mapBlocksUnlinked st)))
      (mkMain i (chainActive st) (pindexBestInvalid st) (setBlockIndexCandidates st) (mapBlocksUnlinked st) (nBlockSequenceId st)) [p] = inr st' ∧
      rest st' ∧ same_tree A (arena_of st') ∧ chainActive st' = chainActive st) as Hlink.
  { intros Hpar. eassert (rest_q _ [p]) as H1.
    { apply (Hrest (mapBlocksUnlinked st) [p]), Hstore.
      - split; [apply NoDup_singleton|]. intros x ->%list_elem_of_singleton. done.
      - split; [done|]. intros q x Hin. by left.
      - done.
      - intros _. set_solver.
      - intros q c Eq Ec Hcz _. destruct (Hpar q Eq) as (c' & Ec' & ?). rewrite Ec in Ec'. by injection Ec' as <-. }
    destruct (link_loop_spec (S (length (mapBlocksUnlinked st))) _ [p] H1 Hfit') as (st' & E & H2 & HS2 & Hc2); [done|].
    exists st'. split_and!; [exact E|done|by eapply st_trans|done]. }
  rewrite (store_prev b b' Hbones). pose proof (we_prev _ _ _ (tr_index A HT p b Eb)) as Hp. destruct (pprev b) as [q|] eqn:Epb; [|by apply Hlink].
  destruct Hp as (c & Ec & Hh). assert (q ≠ p) as Hqp by (intros ->; rewrite Eb in Ec; injection Ec as <-; lia).
  cbn [ms_index mark_dirty set_block set_index blocks]. fold A. rewrite ins_ne, Ec by done. cbn [deref mbind R_bind].
  destruct (Z.eqb_spec (nChainTx c) 0) as [Hcz|Hcz]; cbn [negb].
  2: { apply Hlink. intros q' [= <-]. by exists c. }
  rewrite IsValid_tree by apply (lk_tx _ _ _ HL q c Ec). cbn [deref mbind R_bind].
  assert (¬ linked_block A q) as Hnl. { intros (c' & Ec' & ?). rewrite Ec in Ec'. by injection Ec' as <-. }
  eexists. split; [done|]. destruct (is_failed c) eqn:Efc; cbn [negb]; (split; [apply Hrest, Hstore|by split]); rewrite ?Epb; try done.
  - split; [apply NoDup_nil_2|]. set_solver.
  - split; [done|]. intros q' x Hin. by left.
  - intros (c' & Ec' & ? & Hfc). rewrite Ec in Ec'. injection Ec' as <-. congruence.
  - intros q' c' [= <-] Ec' _ Hfc. rewrite Ec in Ec'. injection Ec' as <-. congruence.
  - split; [apply NoDup_nil_2|]. set_solver.
  - split.
    + apply list.NoDup_app. split_and!; [done| |apply NoDup_singleton]. intros e Hin ->%list_elem_of_singleton.
      destruct (HU q p Hin) as (c' & Ec' & _ & Hne & _). rewrite Eb in Ec'. by injection Ec' as <-.
    + intros q' x [Hin|[= -> ->]%list_elem_of_singleton]%elem_of_app; [by left|by right].
  - set_solver.
  - intros (c' & Ec' & ? & Hfc). rewrite Ec in Ec'. injection Ec' as <-. done.
  - intros q' c' [= <-] _ _ _. set_solver.
Qed.

(** ** Flags that only get worse keep the links *)
Lemma links_flags A B U Q : same A B → flags_kept A B →
  (∀ p b, A !! p = Some b → is_failed b = true → ∃ c, B !! p = Some c ∧ is_failed c = true) → links A U Q → links B U Q.
Proof.
  intros HS HF HM HL.
  assert (∀ x c, B !! x = Some c → ∃ b, A !! x = Some b ∧ pprev b = pprev c ∧ nTx b = nTx c ∧ nChainTx b = nChainTx c ∧
    have_data b = have_data c ∧ Z.land (nStatus b) BLOCK_VALID_MASK = Z.land (nStatus c) BLOCK_VALID_MASK ∧
    (is_failed c = false → is_failed b = false)) as Hback.
  { intros x c Ec. destruct (same_lookup B A x c (same_sym _ _ HS) Ec) as (b & Eb & ((? & _)%bones_fields & _ & ? & ? & _)%shape_bones).
    destruct (HF x b Eb) as (c' & Ec' & Hd & Hv). rewrite Ec in Ec'. injection Ec' as <-. exists b. split_and!; try done.
    destruct (is_failed b) eqn:Ef; [|done]. destruct (HM x b Eb Ef) as (c' & Ec' & ?). rewrite Ec in Ec'. injection Ec' as <-. congruence. }
  assert (∀ x b, A !! x = Some b → ∃ c, B !! x = Some c ∧ pprev b = pprev c ∧ nTx b = nTx c ∧ nChainTx b = nChainTx c) as Hforth.
  { intros x b Eb. destruct (same_lookup A B x b HS Eb) as (c & Ec & ((? & _)%bones_fields & _ & ? & ? & _)%shape_bones). by exists c. }
  assert (∀ x, linked_block B x ↔ linked_block A x) as Hlb.
  { intros x. split; intros (c & Ec & Hc).
    - destruct (Hback x c Ec) as (b & Eb & _ & _ & Hb & _). exists b. by rewrite Hb.
    - destruct (Hforth x c Ec) as (b & Eb & _ & _ & Hb). exists b. by rewrite <- Hb. }
  split.
  - intros x c Ec. destruct (Hback x c Ec) as (b & Eb & _ & <- & _ & <- & <- & Hf). destruct (lk_tx _ _ _ HL x b Eb) as (? & ? & ? & ?).
    split_and!; [done|done|intros ? ?; auto|done].
  - intros x c Ec Hc. destruct (Hback x c Ec) as (b & Eb & Hp & Ht & Hn & _). rewrite <- Hp, <- Ht, <- Hn in *.
    destruct (lk_sound _ _ _ HL x b Eb Hc) as [? Hs]. split; [done|]. destruct (pprev b); [|done].
    destruct Hs as (d & Ed & ? & ?). destruct (Hforth _ d Ed) as (e & Ee & _ & _ & He). exists e. by rewrite <- He.
  - intros x c Ec Hc Hp. destruct (Hback x c Ec) as (b & Eb & Hpb & Ht & Hn & _). rewrite <- Hpb, <- Ht, <- Hn in *.
    apply (lk_complete _ _ _ HL x b Eb Hc). destruct (pprev b); [|done]. destruct Hp as (d & Ed & ? & ?).
    destruct (Hback _ d Ed) as (e & Ee & _ & _ & He & _ & _ & Hfe). exists e. rewrite He. split_and!; auto.
  - destruct (lk_queue _ _ _ HL) as [? HQ]. split; [done|]. intros x Hx. destruct (HQ x Hx) as (b & Eb & ? & ? & Hl).
    destruct (Hforth x b Eb) as (c & Ec & Hp & Ht & Hn). exists c. rewrite <- Hp, <- Ht, <- Hn. split_and!; try done. intros q Eq. by apply Hlb, Hl.
  - destruct (lk_unlinked _ _ _ HL) as [? HU]. split; [done|]. intros q x Hx. destruct (HU q x Hx) as (b & Eb & ? & ? & Hl).
    destruct (Hforth x b Eb) as (c & Ec & Hp & Ht & Hn). exists c. rewrite <- Hp, <- Ht. split_and!; try done. by rewrite Hlb.
  - intros x c q e Ec Hpc Hc Ee He Hfe. destruct (Hback x c Ec) as (b & Eb & Hp & Ht & _), (Hback q e Ee) as (d & Ed & _ & _ & Hd & _ & _ & Hfd).
    rewrite <- Hp in Hpc. rewrite <- Ht in Hc. rewrite <- Hd in He. apply (lk_waiting _ _ _ HL x b q d); auto.
Qed.

(** ** Activation keeps the invariant *)
Lemma rest_intro st st' : rest st → same (arena_of st) (arena_of st') → quiet st st' →
  (∀ p b, arena_of st !! p = Some b → is_failed b = true → ∃ c, arena_of st' !! p = Some c ∧ is_failed c = true) → base st' →
  (∀ t p, Tip (chainActive st') = Some t → good (arena_of st') p → geq (arena_of st') p t → p ∈ setBlockIndexCandidates st') → rest st'.
Proof.
  intros [Hbase Hidx Hmap _ HL] Hsame [Hfl Hun Hm Hh] Hmono Hbase' Hbest. pose proof (same_same_tree _ _ Hsame) as HS. split; [done| | |done|].
  - eapply wf_state_same; [exact HS|done|done|done].
  - intros p b Eb. rewrite Hm. destruct (st_lookup _ _ (st_sym _ _ HS) p b Eb) as (c & Ec & (-> & _)%bones_index). by apply Hmap.
  - rewrite Hun by (by eapply no_missing_links). by eapply links_flags.
Qed.
Lemma rest_activated st st' : rest st → act st' → moved st st' → best_tip st' → rest st'.
Proof.
  intros Hst Hact Hmv (t & Et & Htg & Hmax). apply (rest_intro st); [done|apply Hmv|apply Hmv|apply Hmv|apply Hact|].
  intros t' p Et' Hp Hge. rewrite Et in Et'. injection Et' as <-. destruct Hact as [Hb (t' & m & Et' & Hm' & Hmt & Hc)].
  rewrite Et in Et'. injection Et' as <-. apply Hc; [done|]. eapply geq_trans; [apply Hb|exact Hge|by apply Hmax].
Qed.

(** ** A new header *)
Section append.
Context (A : arena) (b : CBlockIndex) (HT : tree (A ++ [b])) (HA : tree A) (Hb : nChainTx b = 0) (Hb' : nTx b = 0).
Context (Hs : nStatus b = BLOCK_VALID_TREE).
Lemma app_old p c : A !! p = Some c → (A ++ [b]) !! p = Some c.
Proof. apply lookup_app_l_Some. Qed.
Lemma app_inv p c : (A ++ [b]) !! p = Some c → A !! p = Some c ∨ p = length A ∧ c = b.
Proof.
  intros E. apply lookup_app_Some in E as [E|[Hl E]]; [by left|]. right. apply list_lookup_singleton_Some in E as [? <-]. split; [lia|done].
Qed.
Lemma app_up n : ∀ p, is_Some (A !! p) → up (A ++ [b]) n p = up A n p.
Proof using HA.
  induction n as [|n IH]; intros p [c Ec]; [done|]. cbn [up]. rewrite (app_old p c Ec), Ec. cbn [mbind option_bind].
  pose proof (we_prev _ _ _ (tr_index A HA p c Ec)) as Hp. destruct (pprev c) as [q|]; [|done]. destruct Hp as (d & Ed & _).
  cbn [mbind option_bind]. apply IH. by rewrite Ed.
Qed.
Lemma app_less p q : is_Some (A !! p) → is_Some (A !! q) → less (A ++ [b]) p q = less A p q.
Proof. intros [c Ec] [d Ed]. unfold CBlockIndexWorkComparator. by rewrite (app_old p c Ec), (app_old q d Ed), Ec, Ed. Qed.
Lemma app_linked_block p : linked_block (A ++ [b]) p ↔ linked_block A p.
Proof using Hb.
  split; intros (c & Ec & Hc); [|exists c; by rewrite (app_old p c Ec)]. apply app_inv in Ec as [Ec|[_ ->]]; [by exists c|done].
Qed.
Lemma app_linked p : linked A p → linked (A ++ [b]) p.
Proof using HA Hb. intros H n q Hu. rewrite app_up in Hu by (by apply linked_lookup). by apply app_linked_block, (H n). Qed.
Lemma app_good p : good (A ++ [b]) p ↔ good A p.
Proof using HA Hb.
  split; intros H.
  - destruct (good_block _ _ H) as [(c & Ec & Hc & _) _]. apply app_inv in Ec as [Ec|[_ ->]]; [|done]. intros n q Hu.
    rewrite <- (app_up n p) in Hu by (by rewrite Ec). destruct (H n q Hu) as [(d & Ed & Hd & ?) ?]. split; [|done].
    apply app_inv in Ed as [Ed|[_ ->]]; [by exists d|done].
  - destruct (good_block _ _ H) as [(c & Ec & _) _]. intros n q Hu. rewrite app_up in Hu by (by rewrite Ec).
    destruct (H n q Hu) as [(d & Ed & ?) ?]. split; [|done]. exists d. by rewrite (app_old q d Ed).
Qed.
Lemma app_chain_to v p : chain_to A v p → chain_to (A ++ [b]) v p.
Proof using HA.
  intros (c & Ec & Hl & Hv). exists c. split_and!; [by apply app_old|done|]. intros i Hi. rewrite Hv, app_up by (done || by rewrite Ec). done.
Qed.
Lemma app_links U : links A U [] → links (A ++ [b]) U [].
Proof using HA Hb Hb' Hs.
  intros HL. split.
  - intros p c [Ec|[_ ->]]%app_inv; [by apply (lk_tx _ _ _ HL p)|]. rewrite Hb', Hs. split_and!; done.
  - intros p c [Ec|[_ ->]]%app_inv Hc; [|done]. destruct (lk_sound _ _ _ HL p c Ec Hc) as [? Hp]. split; [done|]. destruct (pprev c); [|done].
    destruct Hp as (d & Ed & ?). exists d. by rewrite (app_old _ d Ed).
  - intros p c [Ec|[_ ->]]%app_inv Hc Hp; [|done]. apply (lk_complete _ _ _ HL p c Ec Hc). destruct (pprev c); [|done].
    destruct Hp as (d & [Ed|[_ ->]]%app_inv & Hd & ?); [by exists d|done].
  - split; [apply NoDup_nil_2|]. intros p Hp. by apply not_elem_of_nil in Hp.
  - destruct (lk_unlinked _ _ _ HL) as [? HU]. split; [done|]. intros q p Hin. destruct (HU q p Hin) as (c & Ec & ? & ? & Hn). exists c.
    rewrite (app_old p c Ec). split_and!; try done. by rewrite app_linked_block.
  - intros p c q d [Ec|[_ ->]]%app_inv Hp Hc Ed Hd Hf; [|done]. pose proof (we_prev _ _ _ (tr_index A HA p c Ec)) as Hpp. rewrite Hp in Hpp.
    destruct Hpp as (d' & Ed' & _). rewrite (app_old q d' Ed') in Ed. injection Ed as <-. by eapply (lk_waiting _ _ _ HL).
Qed.
End append.

Definition add_header (st : main_state) (block : CBlockHeader) : R main_state :=
  '(i, _) ← deref (AddToBlockIndex (ms_index st) block); mret (set_index st i).
(** A header that builds on a known block, with work that does not wrap around. *)
Definition header_ok (st : main_state) (block : CBlockHeader) : Prop :=
  0 <= hb_nBits block < 2 ^ 32 ∧ hb_hash block ≠ hashPrevBlock block ∧
  ∃ q c, mapBlockIndex (ms_index st) !! hashPrevBlock block = Some q ∧ arena_of st !! q = Some c ∧
    ∀ b, nBits b = hb_nBits block → 0 < proof_of b ∧ work c + proof_of b < 2 ^ 256.

Lemma add_header_spec st block : rest st → header_ok st block → ∃ st', add_header st block = inr st' ∧ rest st' ∧ chainActive st' = chainActive st.
Proof.
  intros Hst (Hbits & Hne & q & c & Eq & Ec & Hwork). pose proof Hst as [Hbase Hidx Hmap Hbest HL]. pose proof (ba_tree st Hbase) as HT.
  unfold add_header. destruct (mapBlockIndex (ms_index st) !! hb_hash block) as [p|] eqn:Enew.
  { unfold AddToBlockIndex. rewrite Enew. cbn [deref mbind R_bind]. exists st. by destruct st. }
  destruct (AddToBlockIndex_spec _ _ Hidx Hbits Hne Enew) as (b & h & E & Hidx' & Hph & Hp & Hh & Htx & Hc & Hs & Hn & _). rewrite E. cbn [deref mbind R_bind].
  rewrite Eq in Hp, Hh. destruct Hh as (c' & Ec' & Hh). rewrite Ec in Ec'. injection Ec' as <-. eexists. split; [done|]. split; [|done].
  set (A := arena_of st) in *. assert (tree (A ++ [b])) as HT'.
  { split; [apply Hidx'|by apply Hidx'|]. intros p d r e Ed Er Ee. apply app_inv in Ed as [Ed|[-> ->]].
    - pose proof (we_prev _ _ _ (tr_index A HT p d Ed)) as Hpp. rewrite Er in Hpp. destruct Hpp as (e' & Ee' & _).
      rewrite (app_old A b r e' Ee') in Ee. injection Ee as <-. by eapply (tr_work A HT).
    - rewrite Hp in Er. injection Er as <-. rewrite (app_old A b q c Ec) in Ee. injection Ee as <-.
      destruct (ws_work _ Hidx' (length A) b (lookup_snoc_len A b)) as [_ (w & Hw & ->)]. rewrite Hp in Hw. destruct Hw as (e & Ee & ->). cbn in Ee.
      rewrite (app_old A b q c Ec) in Ee. injection Ee as <-. destruct (Hwork b Hn) as [? ?].
      pose proof (ArithUint256.wf_bound WIDTH (nChainWork c) (tr_width A HT q c Ec)). rewrite Z.mod_small by lia. lia. }
  assert (∀ p, good A p → is_Some (A !! p)) as Hgs by (intros p ((x & Ex & _) & _)%good_block; by rewrite Ex).
  destruct Hbase as [B1 B2 B3 B4 B5]. split; cbn.
  - split; cbn.
    + done.
    + destruct B2 as (t & Ht & Hg). exists t. split; [by apply app_chain_to|by apply app_good].
    + intros p d [Ed|[_ ->]]%app_inv Hd; [by eapply B3|]. pose proof (we_height _ _ _ (tr_index A HT q c Ec)). lia.
    + intros p Hpc. apply app_linked; auto.
    + intros i Ei. destruct (B5 i Ei) as [x Ex]. by rewrite (app_old A b i x Ex).
  - exact Hidx'.
  - intros p d [Ed|[-> ->]]%app_inv; [|by rewrite Hph, lookup_insert_eq]. rewrite lookup_insert_ne; [by apply Hmap|].
    intros Hx. rewrite Hx, (Hmap p d Ed) in Enew. done.
  - intros t p Et Hg Hge. apply app_good in Hg; [|done|done]. apply (Hbest t p Et Hg). destruct Hge as [->|Hless]; [by left|right].
    destruct (base_tip st (rq_base _ _ Hst)) as (t' & bt & Et' & Ebt & _). rewrite Et in Et'. injection Et' as <-.
    rewrite <- (app_less A b); [done|by exists bt|by apply Hgs].
  - by apply app_links.
Qed.

(** ** Invalidating a block *)
Lemma mark_descendants A p b f : A !! p = Some b → Z.land f BLOCK_FAILED_MASK ≠ 0 →
  ∀ x, good (<[p := marked b f]> A) x ↔ good A x ∧ ∀ n, up A n x ≠ Some p.
Proof.
  intros Eb Hf x. pose proof (same_insert A p b (marked b f) Eb eq_refl) as HS. pose proof (lookup_lt_Some _ _ _ Eb) as Hlt. split.
  - intros Hx. assert (∀ n, up A n x ≠ Some p) as Hnot.
    { intros n Hu. rewrite (same_up _ _ _ _ HS) in Hu. destruct (Hx n p Hu) as [(c & Ec & _ & Hc & _) _]. rewrite list_lookup_insert_eq in Ec by done.
      injection Ec as <-. unfold marked in Hc. by rewrite failed_or in Hc. }
    split; [|done]. intros n r Hu. pose proof Hu as Hu'. rewrite (same_up _ _ _ _ HS) in Hu'. destruct (Hx n r Hu') as [(c & Ec & ?) ?].
    split; [|done]. exists c. rewrite list_lookup_insert_ne in Ec; [done|]. intros <-. by apply (Hnot n).
  - intros [Hx Hnot] n r Hu. rewrite <- (same_up _ _ _ _ HS) in Hu. destruct (Hx n r Hu) as [(c & Ec & ?) ?]. split; [|done].
    exists c. rewrite list_lookup_insert_ne; [done|]. intros <-. by apply (Hnot n).
Qed.
Lemma shrunk_rechain st st' v w : shrunk (set_chain st v) (set_chain st' v) → shrunk (set_chain st w) (set_chain st' w).
Proof. intros [A1 B1 C1 D1 E1 F1 G1 [I1 I2 I3 I4]]. split; cbn in *; try done; by split. Qed.

Context (Hdis : ∀ p, DisconnectBlock p = true).

Lemma invalidate_loop_spec p q n : ∀ fuel st t, tree (arena_of st) → chain_to (arena_of st) (chainActive st) t →
  up (arena_of st) n t = Some p → (∃ c, arena_of st !! p = Some c ∧ pprev c = Some q) → ¬ good (arena_of st) p → (n < fuel)%nat →
  ∃ st', invalidate_loop fuel st p = inr (st', true) ∧ shrunk st (set_chain st' (chainActive st)) ∧ chain_to (arena_of st') (chainActive st') q.
Proof using Hdis.
  induction n as [|n IH]; intros [|fuel] st t HT Ht Hu (c & Ec & Hc) Hbad Hf; try lia;
    pose proof (tr_index _ HT) as HI; pose proof Ht as (bt & Ebt & _); destruct (chain_Tip _ HI _ t bt Ht Ebt) as [Etip _];
    cbn [invalidate_loop]; rewrite (proj2 (Contains_iff _ HI _ t p Ht)) by eauto; rewrite Etip; cbn [deref mbind R_bind];
    unfold or_status; rewrite Ebt; cbn [deref mbind R_bind mret R_ret];
    assert (¬ good (arena_of st) t) as Hbt by (intros Hg; apply Hbad; by eapply all_up_up);
    change (set_nStatus bt (Z.lor (nStatus bt) BLOCK_FAILED_CHILD)) with (marked bt BLOCK_FAILED_CHILD);
    pose proof (shrunk_mark st t bt BLOCK_FAILED_CHILD Ebt ltac:(done) ltac:(done) Hbt) as H1;
    set (st1 := erase_candidate (mark_dirty (set_block st t (marked bt BLOCK_FAILED_CHILD)) t) t);
    assert (shrunk st st1) as H2 by (eapply shrunk_trans; [exact H1|]; eapply shrunk_trans; [apply shrunk_dirty|];
      apply shrunk_erase; cbn; by rewrite (sh_good _ _ H1 t));
    pose proof (same_same_tree _ _ (sh_same _ _ H2)) as HS; pose proof (st_tree _ _ HS HT) as HT1;
    unfold DisconnectTip; change (chainActive st1) with (chainActive st); rewrite Etip; cbn [deref mbind R_bind];
    destruct (st_lookup _ _ HS t bt Ebt) as (bt1 & Ebt1 & (Hp1 & _)%bones_fields); rewrite Ebt1; cbn [deref mbind R_bind]; rewrite Hdis, <- Hp1.
  - cbn [up] in Hu. injection Hu as ->. rewrite Ebt in Ec. injection Ec as <-. rewrite Hc.
    pose proof (we_prev _ _ _ (HI p bt Ebt)) as Hpp. rewrite Hc in Hpp. destruct Hpp as (d & Ed & Hd). destruct (st_lookup _ _ HS q d Ed) as (d1 & Ed1 & _).
    destruct (UpdateTip_spec st1 q HT1 (or_intror (ex_intro _ p (st_chain_to _ _ HS _ _ Ht))) ltac:(by rewrite Ed1)) as (v & -> & Hv).
    cbn [mbind R_bind mret R_ret]. exists (set_chain st1 v). split_and!; [|exact H2|exact Hv].
    destruct fuel; cbn [invalidate_loop]; cbn [chainActive set_chain ms_index]; case_match eqn:Econ; try done;
      destruct (proj1 (Contains_iff _ (tr_index _ HT1) v q p Hv) Econ) as [k Hk];
      destruct (up_lookup _ (tr_index _ HT1) k q p d1 Hk Ed1) as (e & Ee & He);
      destruct (st_lookup _ _ (st_sym _ _ HS) p e Ee) as (e' & Ee' & (_ & _ & Hh & _)%bones_fields);
      destruct (st_lookup _ _ (st_sym _ _ HS) q d1 Ed1) as (d' & Ed' & (_ & _ & Hh' & _)%bones_fields); simplify_eq; lia.
  - cbn [up] in Hu. rewrite Ebt in Hu. cbn [mbind option_bind] in Hu. destruct (pprev bt) as [r|] eqn:Er; [|done]. cbn [mbind option_bind] in Hu.
    pose proof (we_prev _ _ _ (HI t bt Ebt)) as Hpp. rewrite Er in Hpp. destruct Hpp as (d & Ed & _). destruct (st_lookup _ _ HS r d Ed) as (d1 & Ed1 & _).
    destruct (UpdateTip_spec st1 r HT1 (or_intror (ex_intro _ t (st_chain_to _ _ HS _ _ Ht))) ltac:(by rewrite Ed1)) as (v & -> & Hv).
    cbn [mbind R_bind mret R_ret]. destruct (IH fuel (set_chain st1 v) r) as (st' & E & H3 & H4); cbn [ms_index set_chain chainActive]; try done.
    + by rewrite <- (st_up _ _ HS).
    + destruct (st_lookup _ _ HS p c Ec) as (c1 & Ec1 & (Hc1 & _)%bones_fields). exists c1. split; [done|congruence].
    + by rewrite (sh_good _ _ H2).
    + lia.
    + exists st'. split_and!; [done| |done]. eapply shrunk_trans; [exact H2|]. cbn [chainActive set_chain] in H3.
      exact (shrunk_rechain st1 st' v (chainActive st) H3).
Qed.

Lemma IsValid_transactions b : IsValid b BLOCK_VALID_TRANSACTIONS =
  Some (negb (is_failed b) && (BLOCK_VALID_TRANSACTIONS <=? Z.land (nStatus b) BLOCK_VALID_MASK))%bool.
Proof. unfold IsValid, is_failed. simpl. by destruct (Z.land (nStatus b) BLOCK_FAILED_MASK =? 0). Qed.
Lemma foldR_readd l : ∀ st t, Tip (chainActive st) = Some t → (∀ x, x ∈ l → is_Some (arena_of st !! x)) →
  ∃ C, foldR readd_candidate l st = inr (set_candidates st C) ∧ setBlockIndexCandidates st ⊆ C ∧
    (∀ x, x ∈ C → x ∈ setBlockIndexCandidates st ∨ linked_block (arena_of st) x) ∧
    (∀ x b, x ∈ l → arena_of st !! x = Some b → is_failed b = false → BLOCK_VALID_TRANSACTIONS <= Z.land (nStatus b) BLOCK_VALID_MASK →
      nChainTx b ≠ 0 → less (arena_of st) x t = false → x ∈ C).
Proof.
  induction l as [|x l IH]; intros st t Et Hl; cbn [foldR].
  { exists (setBlockIndexCandidates st). split_and!; [by destruct st|done|by left|]. intros x b Hx. by apply not_elem_of_nil in Hx. }
  destruct (Hl x) as [b Eb]; [set_solver|].
  set (cond := (negb (is_failed b) && (BLOCK_VALID_TRANSACTIONS <=? Z.land (nStatus b) BLOCK_VALID_MASK) && negb (nChainTx b =? 0))%bool).
  set (C1 := if (cond && negb (less (arena_of st) x t))%bool then {[x]} ∪ setBlockIndexCandidates st else setBlockIndexCandidates st).
  assert (readd_candidate x st = inr (set_candidates st C1)) as ->.
  { unfold readd_candidate. rewrite Eb. cbn [deref mbind R_bind]. rewrite IsValid_transactions, Et. cbn [deref mbind R_bind]. fold cond.
    unfold C1. destruct cond; [|by destruct st]. by destruct (less (arena_of st) x t); [destruct st|]. }
  cbn [mbind R_bind]. destruct (IH (set_candidates st C1) t Et) as (C & -> & Hsub & Hin & Hall); [intros y Hy; apply Hl; set_solver|]. cbn in Hsub, Hin, Hall.
  assert (setBlockIndexCandidates st ⊆ C1 ∧ (∀ y, y ∈ C1 → y ∈ setBlockIndexCandidates st ∨ y = x ∧ cond = true)) as [Hs1 Hs2].
  { unfold C1. destruct cond; cbn [andb]; [|by split; [|by left]]. destruct (negb _); [|by split; [|by left]]. set_solver. }
  exists C. split_and!; [done|set_solver| |].
  - intros y [Hy|?]%Hin; [|by right]. apply Hs2 in Hy as [|[-> Hc]]; [by left|]. right. exists b. split; [done|]. unfold cond in Hc.
    apply andb_true_iff in Hc as [_ Hc]. by apply negb_true_iff, Z.eqb_neq in Hc.
  - intros y b' [->|Hy]%elem_of_cons Eb' Hf Hv Hc Hless; [|by eapply Hall]. rewrite Eb in Eb'. injection Eb' as <-. apply Hsub. unfold C1, cond.
    rewrite Hf, (proj2 (Z.leb_le _ _) Hv), (proj2 (Z.eqb_neq _ _) Hc), Hless. cbn. set_solver.
Qed.

Lemma InvalidateBlock_spec st p b q : rest st → arena_of st !! p = Some b → pprev b = Some q →
  ∃ st', InvalidateBlock st p = inr (st', true) ∧ rest st' ∧ same (arena_of st) (arena_of st') ∧
    (∀ x, good (arena_of st') x ↔ good (arena_of st) x ∧ ∀ n, up (arena_of st) n x ≠ Some p).
Proof using Hdis.
  intros Hst Eb Hq. pose proof Hst as [Hbase Hidx Hmap _ HL]. pose proof (ba_tree st Hbase) as HT. set (A := arena_of st) in *.
  pose proof (tr_index A HT) as HI. pose proof (lookup_lt_Some _ _ _ Eb) as Hlt. unfold InvalidateBlock, or_status. fold A. rewrite Eb. cbn [deref mbind R_bind mret R_ret].
  change (set_nStatus b (Z.lor (nStatus b) BLOCK_FAILED_VALID)) with (marked b BLOCK_FAILED_VALID).
  set (s1 := erase_candidate (mark_dirty (set_block st p (marked b BLOCK_FAILED_VALID)) p) p).
  pose proof (same_insert A p b (marked b BLOCK_FAILED_VALID) Eb eq_refl) as HS1. change (<[p := marked b BLOCK_FAILED_VALID]> A) with (arena_of s1) in HS1.
  pose proof (same_same_tree _ _ HS1) as HT1'. pose proof (st_tree _ _ HT1' HT) as HT1.
  assert (∀ x, good (arena_of s1) x ↔ good A x ∧ ∀ n, up A n x ≠ Some p) as Hg1 by (by apply mark_descendants).
  destruct (base_tip st Hbase) as (t & bt & Et & Ebt & Htc & Htg). fold A in Ebt, Htc, Htg.
  pose proof (st_chain_to _ _ HT1' _ _ Htc) as Htc1.
  assert (∃ s2 t2, invalidate_loop (length (chainActive st)) s1 p = inr (s2, true) ∧ shrunk s1 (set_chain s2 (chainActive st)) ∧
    chain_to (arena_of s2) (chainActive s2) t2 ∧ good A t2 ∧ ∀ n, up A n t2 ≠ Some p) as (s2 & t2 & E2 & H2 & Hc2 & Hg2 & Hn2).
  { destruct (Contains (arena_of s1) (chainActive s1) p) eqn:Econ.
    - destruct (proj1 (Contains_iff _ (tr_index _ HT1) _ t p Htc1) Econ) as [n Hn]. rewrite <- (st_up _ _ HT1') in Hn.
      destruct Htc as (bt' & Ebt' & Hlen & _). rewrite Ebt in Ebt'. injection Ebt' as <-. pose proof (up_to_height _ _ _ _ _ HI Hn Ebt).
      destruct (invalidate_loop_spec p q n (length (chainActive st)) s1 t) as (s2 & E & Hsh & Hc); [done|done|by rewrite <- (st_up _ _ HT1')| | |lia|].
      + exists (marked b BLOCK_FAILED_VALID). split; [cbn; by rewrite list_lookup_insert_eq|done].
      + rewrite Hg1. intros [_ Hno]. by apply (Hno 0%nat).
      + exists s2, q. split_and!; [done|done|done| |].
        * eapply (all_up_up _ _ (n + 1)); [exact Htg|]. rewrite up_add, Hn. cbn [mbind option_bind]. by eapply up_parent.
        * intros m Hm. pose proof (we_prev _ _ _ (HI p b Eb)) as Hp. rewrite Hq in Hp. destruct Hp as (c & Ec & Hh).
          destruct (up_lookup A HI m q p c Hm Ec) as (b' & Eb' & ?). rewrite Eb in Eb'. injection Eb' as <-. lia.
    - exists s1, t. split_and!; [|exact (shrunk_refl s1)|done|done|].
      + destruct (chainActive st) eqn:Ech; [done|]. cbn [length invalidate_loop]. by rewrite Econ.
      + intros n Hn. change (chainActive s1) with (chainActive st) in Econ. rewrite (proj2 (Contains_iff _ (tr_index _ HT1) _ t p Htc1)) in Econ; [done|]. exists n. by rewrite <- (st_up _ _ HT1'). }
  match goal with |- context [invalidate_loop ?n s1 p] => change n with (length (chainActive st)) end. rewrite E2. cbn [mbind R_bind negb].
  assert (quiet s1 s2) as Hq2 by (destruct (sh_quiet _ _ H2); by split). pose proof (sh_same _ _ H2) as HS2. cbn [ms_index set_chain] in HS2.
  assert (quiet st s1) as Hq1 by (split; try done; by apply mark_flags). pose proof (quiet_trans st s1 s2 HS1 Hq1 Hq2) as Hq12.
  pose proof (same_trans _ _ _ HS1 HS2) as HS12. fold A in HS12. pose proof (same_same_tree _ _ HS12) as HT12. pose proof (st_tree _ _ HT12 HT) as HT2.
  assert (∀ x, good (arena_of s2) x ↔ good A x ∧ ∀ n, up A n x ≠ Some p) as Hg12 by (intros x; rewrite <- Hg1; apply (sh_good _ _ H2)).
  pose proof Hc2 as (bt2 & Ebt2 & _). destruct (chain_Tip _ (tr_index _ HT2) _ t2 bt2 Hc2 Ebt2) as [Etip2 _].
  assert (∀ x y, A !! x = Some y → is_failed y = true → ∃ c, arena_of s2 !! x = Some c ∧ is_failed c = true) as Hmono.
  { intros x y Ey Hy. destruct (decide (x = p)) as [->|Hne].
    - rewrite Eb in Ey. injection Ey as <-. apply (sh_failed _ _ H2 p (marked b BLOCK_FAILED_VALID)); [cbn; by rewrite list_lookup_insert_eq|by apply failed_or].
    - apply (sh_failed _ _ H2 x y); [cbn; by rewrite list_lookup_insert_ne|done]. }
  destruct (foldR_readd (map_to_list (mapBlockIndex (ms_index s2))).*2 s2 t2 Etip2) as (C & -> & Hsub & Hin & Hall).
  { intros x Hx. apply list_elem_of_fmap in Hx as ([h y] & -> & Hx). apply elem_of_map_to_list in Hx. rewrite (qu_map _ _ Hq12) in Hx.
    destruct (ws_map _ Hidx h y Hx) as (c & Ec & _). destruct (st_lookup _ _ HT12 y c Ec) as (c' & Ec' & _). by exists c'. }
  cbn [mbind R_bind]. set (s3 := set_candidates s2 C). pose proof (links_flags A (arena_of s2) _ _ HS12 (qu_flags _ _ Hq12) Hmono HL) as HL2.
  assert (base s3) as Hb3.
  { split; cbn.
    - done.
    - exists t2. split; [done|]. by apply Hg12.
    - intros x c Ec Hh. destruct (st_lookup _ _ (st_sym _ _ HT12) x c Ec) as (d & Ed & (_ & _ & Hhd & _)%bones_fields).
      pose proof (ba_root st Hbase x d Ed ltac:(lia)) as Hgen. unfold Genesis in Hgen |- *. destruct (chainActive s2 !! 0%nat) as [g|] eqn:Eg.
      + destruct (chain_lookup _ (tr_index _ HT2) _ t2 0 g Hc2 Eg) as (e & Ee & He & _).
        destruct (st_lookup _ _ (st_sym _ _ HT12) g e Ee) as (e' & Ee' & (_ & _ & Hhe & _)%bones_fields).
        pose proof (ba_root st Hbase g e' Ee' ltac:(lia)) as Hgen'. unfold Genesis in Hgen'. congruence.
      + apply lookup_ge_None in Eg. destruct Hc2 as (? & _ & Hl & _). lia.
    - intros x [Hx|Hx]%Hin; [|by eapply linked_of_block]. apply (same_linked (arena_of s1)); [done|]. apply (same_linked A); [done|].
      apply (ba_cand st Hbase). apply (sh_cand _ _ H2) in Hx. cbn in Hx. set_solver.
    - intros i Ei. apply (sh_invalid _ _ H2); [|done]. intros j Ej. destruct (ba_invalid st Hbase j Ej) as [c Ec].
      by destruct (st_lookup _ _ HT1' j c Ec) as (? & -> & _). }
  destruct (st_lookup _ _ HT12 p b Eb) as (b2 & Eb2 & _).
  destruct (InvalidChainFound_spec s3 p Hb3 (ex_intro _ b2 Eb2)) as (s4 & -> & H4). cbn [mbind R_bind].
  destruct (base_tip s4 (shrunk_base _ _ Hb3 H4)) as (t4 & _ & Et4 & _). rewrite Et4. cbn [deref mbind R_bind mret R_ret].
  assert (quiet st s3) as Hq3 by (destruct Hq12; by split). exists s4. split; [done|].
  assert (same A (arena_of s4)) as HS4 by (eapply same_trans; [exact HS12|apply H4]).
  split_and!; [|done|intros x; rewrite (sh_good _ _ H4 x); apply Hg12].
  apply (rest_intro st); [done|done|by eapply (quiet_trans st s3), H4| |by eapply shrunk_base|].
  - intros x y Ey Hy. destruct (Hmono x y Ey Hy) as (c & Ec & Hc). by apply (sh_failed _ _ H4 x c).
  - intros t' x Et' Hx Hge. rewrite (sh_chain _ _ H4) in Et'. cbn in Et'. rewrite Etip2 in Et'. injection Et' as <-.
    rewrite (sh_good _ _ H4 x) in Hx. rewrite <- (same_geq _ _ x t2 (sh_same _ _ H4)) in Hge. apply (sh_keep _ _ H4); [|done]. cbn in Hx, Hge |- *.
    destruct (good_block _ _ Hx) as [(c & Ec & Hctx & Hcf & _) _]. apply (Hall x c); try done.
    + destruct (st_lookup _ _ (st_sym _ _ HT12) x c Ec) as (d & Ed & (_ & _)%bones_index). apply list_elem_of_fmap. exists (phashBlock d, x). split; [done|].
      apply elem_of_map_to_list. rewrite (qu_map _ _ Hq12). by apply Hmap.
    + apply (lk_tx _ _ _ HL2 x c Ec); [|done]. by apply (lk_sound _ _ _ HL2 x c Ec).
    + by apply geq_not_less.
Qed.
End machine.
Notation rest st := (rest_q st []).

(** ** A block whose data may be corrupt *)
Section corrupt.
Context {V : Validation} (st : main_state) (M t : ptr) (bM bt : CBlockIndex).
Context (Hst : base st) (HM : best_candidate st M) (EM : arena_of st !! M = Some bM) (Hp : pprev bM = Some t).
Context (Et : Tip (chainActive st) = Some t) (Ebt : arena_of st !! t = Some bt) (Hcor : ConnectBlock M = invalid true) (Hrun : ∀ n, ShutdownRequested n = false).

Lemma corrupt_chain : chain_to (arena_of st) (chainActive st) t ∧ nHeight bM = nHeight bt + 1 ∧ 0 <= nHeight bt ∧ t ≠ M.
Proof using All.
  destruct (base_tip st Hst) as (t' & b' & Et' & _ & Hc & _). rewrite Et in Et'. injection Et' as <-.
  pose proof (tr_index _ (ba_tree st Hst)) as HI. pose proof (we_prev _ _ _ (HI M bM EM)) as Hh. rewrite Hp in Hh. destruct Hh as (c & Ec & Hh).
  rewrite Ebt in Ec. injection Ec as <-. split_and!; [done|done|by apply (we_height _ _ _ (HI t bt Ebt))|]. intros ->. rewrite EM in Ebt. injection Ebt as <-. lia.
Qed.
Lemma corrupt_find : FindMostWorkChain st = inr (st, Some M).
Proof using All.
  destruct HM as (HMc & HMu & Hmax). pose proof (ba_tree st Hst) as HT. unfold FindMostWorkChain.
  assert (size (setBlockIndexCandidates st) ≠ 0%nat) as Hsz by (intros ?%size_empty_inv; set_solver).
  pose proof (rbegin_spec _ HT (setBlockIndexCandidates st) (λ p Hp, linked_lookup _ _ (ba_cand st Hst p Hp))) as Hr.
  destruct (size _) as [|n]; [done|]. cbn [find_loop]. destruct (rbegin _ _) as [m|]; [|set_solver]. destruct Hr as [Hm Hmm].
  assert (m = M) as ->.
  { destruct (Hmax m Hm) as [|Hl]; [done|]. destruct (Hmm M HMc) as [|Hl']; [done|]. by rewrite (less_asym _ HT _ _ Hl) in Hl'. }
  rewrite EM. cbn [deref mbind R_bind]. destruct (test_walk_spec st (S (Z.to_nat (nHeight bM))) Hst M bM EM) as (r & -> & Hr); [by apply (ba_cand st Hst)|lia|].
  cbn [mbind R_bind]. destruct r as [x|]; [|done]. destruct Hr as (k & c & Hk & Ec & Hbad). destruct (HMu k x Hk) as (c' & Ec' & _ & Hf & Hd).
  rewrite Ec in Ec'. injection Ec' as <-. by rewrite Hf, Hd in Hbad.
Qed.
Lemma corrupt_fork : FindFork (arena_of st) (chainActive st) (Some M) = Some (Some t).
Proof using All.
  destruct corrupt_chain as (Htc & Hh & H0 & Hne). pose proof (tr_index _ (ba_tree st Hst)) as HI. pose proof (up_parent _ _ _ _ EM Hp) as H1.
  assert (Contains (arena_of st) (chainActive st) t = true) as Hct by (apply (Contains_iff _ HI _ t t Htc); by exists 0%nat).
  destruct (FindFork_spec _ HI (chainActive st) M bM EM) as (r & -> & Hr). destruct r as [f|]; [|by rewrite (Hr 1%nat t H1) in Hct].
  destruct Hr as (n & Hn & Hcf & Hfirst). destruct n as [|[|n]].
  - cbn [up] in Hn. injection Hn as <-. destruct (chain_Tip _ HI _ t bt Htc Ebt) as [_ Hht].
    rewrite (Contains_above _ _ M bM EM) in Hcf; [done|lia].
  - rewrite H1 in Hn. injection Hn as ->. done.
  - rewrite (Hfirst 1%nat t ltac:(lia) H1) in Hct. done.
Qed.
Lemma corrupt_step : ActivateBestChainStep st M = inr (st, true, true).
Proof using All.
  destruct corrupt_chain as (Htc & Hh & H0 & Hne). pose proof (ba_tree st Hst) as HT. pose proof (tr_index _ HT) as HI.
  unfold ActivateBestChainStep. rewrite corrupt_fork, Et. cbn [deref mbind R_bind].
  assert (∀ n, disconnect_loop n st (Some t) false = inr (st, true, false)) as Hd.
  { intros n. destruct n; cbn [disconnect_loop]; rewrite Et; by rewrite decide_True. }
  rewrite Hd. cbn [mbind R_bind negb]. rewrite Ebt. cbn [deref mbind R_bind mret R_ret]. rewrite EM. cbn [deref mbind R_bind].
  replace (Z.to_nat (nHeight bM + 1)) with (S (S (Z.to_nat (nHeight bt)))) by lia. cbn [connect_loop]. rewrite EM. cbn [deref mbind R_bind].
  destruct (Z.eqb_spec (nHeight bt) (nHeight bM)); [lia|]. replace (Z.min (nHeight bt + 32) (nHeight bM)) with (nHeight bM) by lia.
  rewrite (GetAncestor_spec _ M bM (nHeight bM) HI EM), (proj2 (orb_false_iff _ _)), Z.sub_diag by lia.
  change (Z.to_nat 0) with 0%nat. cbn [up deref mbind R_bind].
  destruct (to_connect_spec _ t bt 1 HT Ebt (Z.to_nat (nHeight bM + 1)) M bM EM (up_parent _ _ _ _ EM Hp)) as (l & -> & Hl & Hn); [lia|].
  destruct l as [|x [|y l]]; try done. cbn in Hl. destruct Hl as [_ ->]. cbn [mbind R_bind rev app connect_batch].
  unfold ConnectTip. rewrite EM. cbn [deref mbind R_bind]. rewrite Hp, Et, bool_decide_eq_true_2 by done. cbn [assert mbind R_bind]. rewrite Hcor. done.
Qed.
Lemma corrupt_loop fuel : activate_loop fuel st None = inl OutOfFuel.
Proof using All.
  induction fuel as [|fuel IH]; [done|]. destruct corrupt_chain as (_ & _ & _ & Hne). cbn [activate_loop]. rewrite Hrun, corrupt_find. cbn [mbind R_bind].
  rewrite decide_False by congruence. rewrite corrupt_step. cbn [mbind R_bind negb]. rewrite decide_False by congruence. exact IH.
Qed.
End corrupt.

(** ** The machine *)
Inductive event :=
  | header (block : CBlockHeader)
  | block (fStake fWitness : bool) (n file pos : Z) (p : ptr)
  | activate
  | invalidate (p : ptr).
Definition run_event {V : Validation} (st : main_state) (e : event) : R main_state :=
  match e with
  | header b => add_header st b
  | block fStake fWitness n file pos p => ReceivedBlockTransactions st fStake fWitness n file pos p
  | activate => '(st, _) ← ActivateBestChain st; mret st
  | invalidate p => '(st, _) ← InvalidateBlock st p; mret st
  end.
(** Headers build on known blocks; a block is stored once and its transactions can be counted; the root stays. *)
Definition event_ok (st : main_state) (e : event) : Prop :=
  match e with
  | header b => header_ok st b
  | block _ _ n _ _ p => ∃ b, arena_of st !! p = Some b ∧ nTx b = 0 ∧ 0 < n < 2 ^ 32 ∧ txs_fit (with_txs (arena_of st) p n)
  | activate => True
  | invalidate p => ∃ b q, arena_of st !! p = Some b ∧ pprev b = Some q
  end.
Inductive reachable {V : Validation} (st0 : main_state) : main_state → Prop :=
  | reach_start : reachable st0 st0
  | reach_event st e st' : reachable st0 st → event_ok st e → run_event st e = inr st' → reachable st0 st'.
Class Valid (V : Validation) : Prop := {
  no_corruption : ∀ p, ConnectBlock p = connected ∨ ConnectBlock p = invalid false;
  can_disconnect : ∀ p, DisconnectBlock p = true;
  keeps_running : ∀ n, ShutdownRequested n = false }.

Lemma run_event_spec {V : Validation} {HV : Valid V} st e : rest st → event_ok st e → ∃ st', run_event st e = inr st' ∧ rest st'.
Proof.
  intros Hst He. destruct e as [b|fs fw n file pos p| |p]; cbn [run_event event_ok] in *.
  - destruct (add_header_spec st b Hst He) as (st' & ? & ? & _). eauto.
  - destruct He as (b & Eb & Hz & Hn & Hfit). destruct (ReceivedBlockTransactions_spec st fs fw n file pos p b Hst Eb Hz Hn Hfit) as (st' & ? & ? & _). eauto.
  - destruct (ActivateBestChain_spec no_corruption can_disconnect st (rest_act _ _ Hst)) as (st' & ok & -> & Ha & Hm & Hb & _). exists st'. split; [done|].
    eapply rest_activated; [done..|]. apply Hb, keeps_running.
  - destruct He as (b & q & Eb & Hq). destruct (InvalidateBlock_spec can_disconnect st p b q Hst Eb Hq) as (st' & -> & ? & _). by exists st'.
Qed.
Lemma reachable_rest {V : Validation} {HV : Valid V} st0 st : rest st0 → reachable st0 st → rest st.
Proof.
  intros H0. induction 1 as [|st e st' _ IH He E]; [done|]. destruct (run_event_spec st e IH He) as (s & E' & Hs). rewrite E in E'. by injection E' as <-.
Qed.
End ChainMachine.
