(* ===== verification/ChainProperties.v ===== *)
(** * Properties of the choice of the active chain

    Activation is live and ends with the best valid chain; the consistency of the block index is an
    invariant of every sequence of events; blocks that arrive in any order are linked exactly when
    their ancestors are there; a block that may be corrupt keeps activation from ending. *)
From S2P Require Import Prelude ArithUint256 Chain ActiveChain ChainState BestChain ChainMachine.

Module ChainProperties.
Import Chain ActiveChain ChainState BestChain ChainMachine.

(** All transactions of the chain up to [p] are stored. *)
Definition complete (A : arena) (p : ptr) : Prop := all_up A (λ q, ∃ b, A !! q = Some b ∧ nTx b ≠ 0) p.
Definition unfailed_chain (A : arena) (p : ptr) : Prop := all_up A (λ q, ∃ b, A !! q = Some b ∧ is_failed b = false) p.

Lemma complete_linked A U p b : wf_index A → links A U [] → A !! p = Some b → complete A p → unfailed_chain A p → nChainTx b ≠ 0.
Proof.
  intros HI HL Eb. remember (Z.to_nat (nHeight b)) as h eqn:Hh. revert p b Eb Hh. induction h as [|h IH]; intros p b Eb Hh Hc Hf;
    destruct (all_up_self _ _ _ Hc) as (b' & Eb' & Htx); rewrite Eb in Eb'; injection Eb' as <-;
    pose proof (we_height _ _ _ (HI p b Eb)); pose proof (we_prev _ _ _ (HI p b Eb)) as Hp;
    (destruct (lk_complete _ _ _ HL p b Eb Htx) as [|Hin]; [|done|by apply not_elem_of_nil in Hin]);
    destruct (pprev b) as [q|] eqn:Eq; try done; destruct Hp as (c & Ec & Hhc); pose proof (we_height _ _ _ (HI q c Ec)); [lia|].
  pose proof (up_parent _ _ _ _ Eb Eq) as Hup. exists c. split; [done|]. split.
  - apply (IH q c Ec); [lia|by eapply all_up_up|by eapply all_up_up].
  - destruct (Hf 1%nat q Hup) as (c' & Ec' & ?). rewrite Ec in Ec'. by injection Ec' as <-.
Qed.
Lemma linked_complete A U p b : wf_index A → links A U [] → A !! p = Some b → nChainTx b ≠ 0 →
  complete A p ∧ nChainTx b = path_tx A (Z.to_nat (nHeight b)) p.
Proof.
  intros HI HL Eb Hb. split; [|by eapply chain_tx_path]. intros n q Hu.
  destruct (linked_of_block _ _ _ HL p ltac:(by exists b) n q Hu) as (c & Ec & Hc). exists c. split; [done|]. by apply (lk_sound _ _ _ HL q c Ec).
Qed.

(** C5. The best chain becomes active.  From a consistent state, when blocks can be disconnected,
    validation either connects a block or finds it invalid and no shutdown is requested, [ActivateBestChain] returns within its
    fuel, through any number of reorganisations and invalid blocks: the state is consistent again, the
    set of valid blocks (stored with all ancestors, not marked as failed, accepted by validation) is
    what it was, and the tip of the active chain is the best valid block in the candidate order, more
    work first, then received first.  It returns true if the state could be written to disk at the end. *)
Theorem ActivateBestChain_best (V : Validation) st : Valid V → rest_q st [] →
  ∃ st' ok, ActivateBestChain st = inr (st', ok) ∧ (flush_ok = true → ok = true) ∧ rest_q st' [] ∧
    (∀ p, good (arena_of st') p ↔ good (arena_of st) p) ∧
    ∃ t, Tip (chainActive st') = Some t ∧ good (arena_of st') t ∧
      ∀ p, good (arena_of st) p → p = t ∨ CBlockIndexWorkComparator (arena_of st') p t = true.
Proof.
  intros HV Hst. destruct (ActivateBestChain_spec no_corruption can_disconnect st (rest_act _ _ Hst)) as (st' & ok & E & Ha & Hm & Hb & Hok). specialize (Hb keeps_running).
  exists st', ok. split_and!; [done|intros Hf; destruct Hok; congruence|by eapply rest_activated|apply Hm|]. destruct Hb as (t & Et & Hg & Hmax). exists t. split_and!; [done|done|].
  intros p Hp. apply (mv_good _ _ Hm) in Hp. destruct (Hmax p Hp) as [->|]; [by left|by right].
Qed.

(** C6. The block index is a safe machine, as long as validation either connects a block or finds it invalid (it never reports corrupt
    data or a system error), blocks can be disconnected and no shutdown is requested.  In every state reachable from a consistent one by new
    headers, arriving blocks, activations and invalidations, in any order, the state is consistent (skip
    list, total work, best header, links, waiting blocks, candidates and active chain) and no next event
    fails an assertion, follows a null pointer or runs out of fuel.  The events are well-formed ones: a header builds on a known block and its
    work is positive and does not make the total wrap; a block is stored once and its transactions can be counted; the root is not invalidated. *)
Theorem chain_machine_safe (V : Validation) st0 st : Valid V → rest_q st0 [] → reachable st0 st →
  rest_q st [] ∧ ∀ e, event_ok st e → ∃ st', run_event st e = inr st'.
Proof.
  intros HV H0 Hr. pose proof (reachable_rest st0 st H0 Hr) as Hst. split; [done|]. intros e He.
  destruct (run_event_spec st e Hst He) as (st' & ? & _). eauto.
Qed.

(** Blocks that arrive in any order are linked exactly.  [ReceivedBlockTransactions] ends; afterwards
    [nChainTx] of a block is not zero only if all transactions up to it are stored, is then their number,
    and it is not zero whenever they are all stored and no block up to it has failed; every valid block
    that is not worse than the tip is a candidate. *)
Theorem ReceivedBlockTransactions_links (V : Validation) st fStake fWitness n file pos p b :
  rest_q st [] → arena_of st !! p = Some b → nTx b = 0 → 0 < n < 2 ^ 32 → txs_fit (with_txs (arena_of st) p n) →
  ∃ st', ReceivedBlockTransactions st fStake fWitness n file pos p = inr st' ∧ chainActive st' = chainActive st ∧
    (∀ x c, arena_of st' !! x = Some c →
      (nChainTx c ≠ 0 → complete (arena_of st') x ∧ nChainTx c = path_tx (arena_of st') (Z.to_nat (nHeight c)) x) ∧
      (complete (arena_of st') x → unfailed_chain (arena_of st') x → nChainTx c ≠ 0)) ∧
    ∀ t x, Tip (chainActive st') = Some t → good (arena_of st') x →
      CBlockIndexWorkComparator (arena_of st') x t = false → x ∈ setBlockIndexCandidates st'.
Proof.
  intros Hst Eb Hz Hn Hfit. destruct (ReceivedBlockTransactions_spec st fStake fWitness n file pos p b Hst Eb Hz Hn Hfit) as (st' & E & Hst' & _ & Hc).
  pose proof Hst' as [Hbase _ _ Hbest HL]. pose proof (ba_tree st' Hbase) as HT. exists st'. split_and!; [done|done| |].
  - intros x c Ec. split; [by apply (linked_complete _ _ x c (tr_index _ HT) HL)|by apply (complete_linked _ _ x c (tr_index _ HT) HL)].
  - intros t x Et Hg Hless. apply (Hbest t x Et Hg). destruct (base_tip st' Hbase) as (t' & bt & Et' & Ebt & _). rewrite Et in Et'. injection Et' as <-.
    destruct (good_block _ _ Hg) as [(c & Ec & _) _]. by eapply (not_less_geq _ HT).
Qed.

(** C38. When every [DisconnectBlock] succeeds, invalidating a block that is not the root disconnects the active chain down to below it and
    leaves a consistent state, in which the valid blocks are those of before that do not descend from
    the block; the block itself is not on the active chain. *)
Theorem InvalidateBlock_correct (V : Validation) st p b q : (∀ x, DisconnectBlock x = true) → rest_q st [] → arena_of st !! p = Some b → pprev b = Some q →
  ∃ st', InvalidateBlock st p = inr (st', true) ∧ rest_q st' [] ∧
    (∀ x, good (arena_of st') x ↔ good (arena_of st) x ∧ ∀ n, up (arena_of st) n x ≠ Some p) ∧
    Contains (arena_of st') (chainActive st') p = false.
Proof.
  intros HV Hst Eb Hq. destruct (InvalidateBlock_spec HV st p b q Hst Eb Hq) as (st' & E & Hst' & _ & Hg). exists st'.
  split_and!; [done|done|done|]. destruct (Contains _ _ p) eqn:Ec; [|done]. apply (chain_good st' p (rq_base _ _ Hst')) in Ec.
  apply Hg in Ec as [_ Hno]. by destruct (Hno 0%nat).
Qed.

(** C40. Activation does not end on a block that may be corrupt.  When validation says of the best
    candidate, a child of the tip, that it is invalid but that its data may be corrupt, the candidate is
    not marked and the loop chooses it again: without a request for a shutdown, no number of turns is enough. *)
Theorem activation_corruption_loops (V : Validation) st M t bM bt : base st → best_candidate st M → arena_of st !! M = Some bM →
  pprev bM = Some t → Tip (chainActive st) = Some t → arena_of st !! t = Some bt → ConnectBlock M = invalid true → (∀ n, ShutdownRequested n = false) →
  ∀ fuel, activate_loop fuel st None = inl OutOfFuel.
Proof. intros. by eapply corrupt_loop. Qed.

(** ** A concrete run *)
(** Two branches on the root; the third block of the longer one is invalid. *)
#[local] Instance sample_validation : Validation :=
  {| ConnectBlock p := if (p =? 4)%nat then invalid false else connected; DisconnectBlock _ := true; ShutdownRequested _ := false; flush_ok := true |}.
#[local] Instance sample_valid : Valid sample_validation.
Proof. split; [|done|done]. intros p. cbn. destruct (p =? 4)%nat; auto. Qed.

Definition hdr (h prev : Z) : CBlockHeader := mkHeader [h] 1 [prev] [] (1000 + h) 0x1d00ffff h.
Definition genesis_index : index_state := default (mkState [] ∅ None ∅) (fst <$> AddToBlockIndex (mkState [] ∅ None ∅) (hdr 1 0)).
Definition genesis_state : main_state :=
  match ('(st) ← ReceivedBlockTransactions (mkMain genesis_index [] None ∅ [] 1) false false 1 0 8 0%nat; ActivateBestChain st) with
  | inr (st, _) => st
  | inl _ => mkMain genesis_index [] None ∅ [] 1
  end.
Definition sample_events : list event :=
  [header (hdr 2 1); header (hdr 3 2); header (hdr 4 1); header (hdr 5 4); header (hdr 6 5);
   block false false 1 0 8 5%nat; block false false 1 0 8 4%nat; block false false 1 0 8 2%nat; block false false 1 0 8 1%nat;
   activate; block false false 1 0 8 3%nat; activate].
Fixpoint run {V : Validation} (st : main_state) (l : list event) : R main_state :=
  match l with [] => mret st | e :: l => st ← run_event st e; run st l end.
Definition sample_final : main_state := match run genesis_state sample_events with inr st => st | inl _ => genesis_state end.
Example sample_run : chainActive genesis_state = [0%nat] ∧ elements (setBlockIndexCandidates genesis_state) = [0%nat] ∧
  chainActive sample_final = [0%nat; 1%nat; 2%nat] ∧ elements (setBlockIndexCandidates sample_final) = [2%nat] ∧
  map is_failed (arena_of sample_final) = [false; false; false; false; true; true].
Proof. vm_compute. repeat split. Qed.

(** The root alone is a consistent state. *)
Definition genesis_block : CBlockIndex := default (CBlockIndex_of (hdr 0 0)) (arena_of genesis_state !! 0%nat).
Lemma genesis_arena : arena_of genesis_state = [genesis_block].
Proof. vm_compute. reflexivity. Qed.
Lemma genesis_lookup p b : arena_of genesis_state !! p = Some b → p = 0%nat ∧ b = genesis_block.
Proof. rewrite genesis_arena. intros [? <-]%list_lookup_singleton_Some. done. Qed.
Lemma genesis_up n q : up (arena_of genesis_state) n 0 = Some q → q = 0%nat.
Proof. rewrite genesis_arena. destruct n as [|n]; cbn [up]; [by intros [= <-]|]. vm_compute. done. Qed.
Lemma genesis_good {V : Validation} : ConnectBlock 0 = connected → good (arena_of genesis_state) 0.
Proof.
  intros H0 n q ->%genesis_up. split; [|exact H0]. rewrite genesis_arena. exists genesis_block. split; [reflexivity|].
  split_and!; vm_compute; [discriminate|reflexivity|reflexivity].
Qed.
Lemma genesis_index_wf : wf_state genesis_index.
Proof.
  destruct (AddToBlockIndex_spec (mkState [] ∅ None ∅) (hdr 1 0) wf_state_init) as (b & h & E & Hw & _); [cbn; lia|discriminate|reflexivity|].
  unfold genesis_index. rewrite E. exact Hw.
Qed.
Lemma genesis_bones : map bones (blocks genesis_index) = map bones (arena_of genesis_state).
Proof. vm_compute. reflexivity. Qed.
Lemma genesis_tree : tree (arena_of genesis_state).
Proof.
  apply (st_tree (blocks genesis_index)); [exact genesis_bones|]. split; [apply genesis_index_wf|intros p b E; by apply (ws_work _ genesis_index_wf p b E)|].
  intros p b q c E Hp. destruct p; [|by vm_compute in E]. vm_compute in E. injection E as <-. vm_compute in Hp. discriminate Hp.
Qed.
Lemma genesis_rest {V : Validation} : ConnectBlock 0 = connected → rest_q genesis_state [].
Proof.
  intros H0. pose proof genesis_tree as HT. split.
  - split.
    + done.
    + exists 0%nat. split; [|exact (genesis_good H0)]. exists genesis_block. rewrite genesis_arena. split; [reflexivity|]. split; [vm_compute; reflexivity|].
      intros i Hi. destruct i; [vm_compute; reflexivity|]. vm_compute in Hi. lia.
    + intros p b [-> ->]%genesis_lookup _. vm_compute. reflexivity.
    + intros p Hp. assert (p = 0%nat) as -> by (apply elem_of_elements in Hp; vm_compute in Hp; set_solver). exact (usable_linked _ _ (good_usable _ _ (genesis_good H0))).
    + intros i Hi. vm_compute in Hi. discriminate Hi.
  - eapply wf_state_same; [exact genesis_bones|vm_compute; reflexivity|vm_compute; reflexivity|exact genesis_index_wf].
  - intros p b [-> ->]%genesis_lookup. vm_compute. reflexivity.
  - intros t p _ Hg _. destruct (good_block _ _ Hg) as [(b & Eb & _) _]. apply genesis_lookup in Eb as [-> _]. apply elem_of_elements. vm_compute. left.
  - split.
    + intros p b [-> ->]%genesis_lookup. vm_compute. split_and!; intros; discriminate || reflexivity.
    + intros p b [-> ->]%genesis_lookup _. vm_compute. split; [discriminate|reflexivity].
    + intros p b [-> ->]%genesis_lookup _ _. left. vm_compute. discriminate.
    + split; [apply NoDup_nil_2|]. intros p Hp. by apply not_elem_of_nil in Hp.
    + split; [vm_compute; apply NoDup_nil_2|]. intros q p Hp. vm_compute in Hp. by apply not_elem_of_nil in Hp.
    + intros p b q c [-> ->]%genesis_lookup Hp. vm_compute in Hp. discriminate Hp.
Qed.

(** The conditions on events, decided. *)
Definition txs_fitb (A : arena) : bool :=
  forallb (λ p, match A !! p with Some b => path_tx A (Z.to_nat (nHeight b)) p <? 2 ^ 32 | None => true end) (seq 0 (length A)).
Definition event_okb (st : main_state) (e : event) : bool :=
  match e with
  | header b =>
      (0 <=? hb_nBits b) && (hb_nBits b <? 2 ^ 32) && bool_decide (hb_hash b ≠ hashPrevBlock b) &&
      match q ← mapBlockIndex (ms_index st) !! hashPrevBlock b; arena_of st !! q with
      | Some c => (0 <? proof_of (CBlockIndex_of b)) && (work c + proof_of (CBlockIndex_of b) <? 2 ^ 256)
      | None => false
      end
  | block _ _ n _ _ p =>
      match arena_of st !! p with
      | Some b => (nTx b =? 0) && (0 <? n) && (n <? 2 ^ 32) && txs_fitb (with_txs (arena_of st) p n)
      | None => false
      end
  | activate => true
  | invalidate p => match arena_of st !! p with Some b => bool_decide (pprev b ≠ None) | None => false end
  end%bool.
Lemma txs_fitb_sound A : txs_fitb A = true → txs_fit A.
Proof.
  unfold txs_fitb. rewrite forallb_forall. intros H p b Eb. specialize (H p). rewrite Eb in H. apply Z.ltb_lt, H, in_seq.
  apply lookup_lt_Some in Eb. lia.
Qed.
Lemma event_okb_sound st e : event_okb st e = true → event_ok st e.
Proof.
  destruct e as [b|fs fw n file pos p| |p]; cbn [event_okb event_ok].
  - rewrite !andb_true_iff, bool_decide_eq_true. intros [[[? ?] ?] Hm]. split; [lia|]. split; [done|].
    destruct (mapBlockIndex _ !! _) as [q|] eqn:Eq; [|done]. cbn [mbind option_bind] in Hm. destruct (arena_of st !! q) as [c|] eqn:Ec; [|done].
    exists q, c. split_and!; [done|done|]. intros b' Hb'. apply andb_true_iff in Hm as [? ?].
    assert (proof_of b' = proof_of (CBlockIndex_of b)) as -> by (unfold proof_of, GetBlockProof; by rewrite Hb'). lia.
  - destruct (arena_of st !! p) as [b|] eqn:Eb; [|done]. rewrite !andb_true_iff. intros [[[? ?] ?] ?]. exists b.
    split_and!; [done|lia|lia|lia|by apply txs_fitb_sound].
  - done.
  - destruct (arena_of st !! p) as [b|] eqn:Eb; [|done]. rewrite bool_decide_eq_true. destruct (pprev b) as [q|] eqn:Eq; [|done]. eauto.
Qed.
Fixpoint events_okb {V : Validation} (st : main_state) (l : list event) : bool :=
  match l with
  | [] => true
  | e :: l => (event_okb st e && match run_event st e with inr st' => events_okb st' l | inl _ => false end)%bool
  end.
Lemma run_reachable {V : Validation} st0 l : ∀ st st', reachable st0 st → events_okb st l = true → run st l = inr st' → reachable st0 st'.
Proof.
  induction l as [|e l IH]; intros st st' Hr Hok Hrun; cbn [run events_okb] in *; [by injection Hrun as <-|].
  apply andb_true_iff in Hok as [He Hok]. destruct (run_event st e) as [|s] eqn:Es; [done|]. cbn [mbind R_bind] in Hrun.
  eapply IH; [|exact Hok|exact Hrun]. eapply reach_event; [exact Hr|by apply event_okb_sound|exact Es].
Qed.
(** The state after [n] events of the run. *)
Definition after (n : nat) : main_state := match run genesis_state (take n sample_events) with inr st => st | inl _ => genesis_state end.
Lemma after_reachable n : events_okb genesis_state (take n sample_events) = true → reachable genesis_state (after n).
Proof.
  intros H. unfold after. destruct (run genesis_state (take n sample_events)) as [|st] eqn:E; [constructor|].
  eapply run_reachable; [constructor|exact H|exact E].
Qed.
Lemma after_rest n : events_okb genesis_state (take n sample_events) = true → rest_q (after n) [].
Proof. intros H. exact (reachable_rest genesis_state (after n) (genesis_rest eq_refl) (after_reachable n H)). Qed.
Lemma sample_ok : events_okb genesis_state sample_events = true.
Proof. vm_compute. reflexivity. Qed.

Lemma ActivateBestChain_best_witness : ∃ st', ActivateBestChain (after 11) = inr (st', true) ∧ rest_q st' [] ∧ ∃ t, Tip (chainActive st') = Some t.
Proof.
  destruct (ActivateBestChain_best sample_validation (after 11) sample_valid) as (st' & ok & E & Hok & Hr & _ & t & Et & _).
  - apply after_rest. vm_compute. reflexivity.
  - specialize (Hok eq_refl). subst ok. exists st'. exact (conj E (conj Hr (ex_intro _ t Et))).
Defined.
Lemma chain_machine_safe_witness : rest_q (after 12) [] ∧ ∃ st', run_event (after 12) (invalidate 1) = inr st'.
Proof.
  destruct (chain_machine_safe sample_validation genesis_state (after 12) sample_valid (@genesis_rest sample_validation eq_refl)) as [H1 H2].
  - apply after_reachable. exact sample_ok.
  - split; [exact H1|]. apply H2. apply event_okb_sound. vm_compute. reflexivity.
Defined.
Lemma ReceivedBlockTransactions_links_witness : ∃ st', ReceivedBlockTransactions (after 10) false false 1 0 8 3 = inr st'.
Proof.
  destruct (arena_of (after 10) !! 3%nat) as [b|] eqn:E; [|vm_compute in E; discriminate E].
  destruct (ReceivedBlockTransactions_links sample_validation (after 10) false false 1 0 8 3%nat b) as (st' & Es & _).
  - apply after_rest. vm_compute. reflexivity.
  - exact E.
  - vm_compute in E. injection E as <-. reflexivity.
  - lia.
  - apply txs_fitb_sound. vm_compute. reflexivity.
  - exists st'. exact Es.
Defined.
Lemma InvalidateBlock_correct_witness : ∃ st', InvalidateBlock (after 12) 1 = inr (st', true) ∧
  Contains (arena_of st') (chainActive st') 1 = false.
Proof.
  destruct (arena_of (after 12) !! 1%nat) as [b|] eqn:E; [|vm_compute in E; discriminate E].
  destruct (InvalidateBlock_correct sample_validation (after 12) 1%nat b 0%nat (λ _, eq_refl)) as (st' & Es & _ & _ & Hc).
  - apply after_rest. exact sample_ok.
  - exact E.
  - vm_compute in E. injection E as <-. reflexivity.
  - exists st'. exact (conj Es Hc).
Defined.

(** A child of the root whose data may be corrupt. *)
Definition corrupt_validation : Validation :=
  {| ConnectBlock p := if (p =? 0)%nat then connected else invalid true; DisconnectBlock _ := true; ShutdownRequested _ := false; flush_ok := true |}.
Definition child_state : main_state :=
  match ('(st) ← add_header genesis_state (hdr 2 1); ReceivedBlockTransactions st false false 1 0 8 1%nat) with inr st => st | inl _ => genesis_state end.
Lemma child_rest : @rest_q corrupt_validation child_state [].
Proof.
  destruct (@add_header_spec corrupt_validation genesis_state (hdr 2 1) (@genesis_rest corrupt_validation eq_refl)) as (s1 & E1 & H1 & _).
  { apply (event_okb_sound genesis_state (header (hdr 2 1))). vm_compute. reflexivity. }
  unfold child_state. rewrite E1. cbn [mbind R_bind].
  assert (txs_fitb (with_txs (arena_of s1) 1 1) = true ∧ nTx <$> arena_of s1 !! 1%nat = Some 0) as [Hf Hz]
    by (vm_compute in E1; injection E1 as <-; vm_compute; done).
  destruct (arena_of s1 !! 1%nat) as [b|] eqn:Eb; [|done]. injection Hz as Hz.
  by destruct (@ReceivedBlockTransactions_spec corrupt_validation s1 false false 1 0 8 1%nat b H1 Eb Hz ltac:(lia) (txs_fitb_sound _ Hf)) as (st' & -> & H2 & _).
Qed.
Lemma activation_corruption_loops_witness : @activate_loop corrupt_validation 1000 child_state None = inl OutOfFuel.
Proof.
  destruct (arena_of child_state !! 1%nat) as [bM|] eqn:EM; [|vm_compute in EM; discriminate EM].
  destruct (arena_of child_state !! 0%nat) as [bt|] eqn:Et; [|vm_compute in Et; discriminate Et].
  refine (activation_corruption_loops corrupt_validation child_state 1%nat 0%nat bM bt _ _ _ _ _ _ _ (λ _, eq_refl) 1000%nat).
  - exact (rq_base _ _ child_rest).
  - split; [apply elem_of_elements; vm_compute; left|]. split.
    + intros n q Hu. destruct n as [|[|n]].
      * vm_compute in Hu. injection Hu as <-. exists bM. split; [exact EM|]. vm_compute in EM. injection EM as <-. vm_compute. split_and!; done.
      * vm_compute in Hu. injection Hu as <-. exists bt. split; [exact Et|]. vm_compute in Et. injection Et as <-. vm_compute. split_and!; done.
      * vm_compute in Hu. discriminate Hu.
    + intros p Hp. assert (p = 1%nat ∨ p = 0%nat) as [-> | ->]; [|by left|right; vm_compute; reflexivity].
      clear - Hp. apply elem_of_elements in Hp. vm_compute in Hp. set_solver.
  - exact EM.
  - vm_compute in EM. injection EM as <-. reflexivity.
  - vm_compute. reflexivity.
  - exact Et.
  - reflexivity.
Defined.
End ChainProperties.
