(* ===== verification/Reconsider.v ===== *)
(** * Reconsidering a failed block

    What [ReconsiderBlock] changes, exactly: the failure flags of the block, of its descendants and of
    its ancestors, and the candidates, which gain descendants only. *)
From S2P Require Import Prelude Chain ActiveChain ChainState BestChain ChainMachine ChainProperties.

Module Reconsider.
Import Chain ActiveChain ChainState BestChain ChainMachine ChainProperties.
Notation less := CBlockIndexWorkComparator.

Definition cleared (b : CBlockIndex) : CBlockIndex := set_nStatus b (Z.land (nStatus b) (u32 (Z.lnot BLOCK_FAILED_MASK))).
(** The block has all its transactions on disk and does not count as failed. *)
Definition is_valid (b : CBlockIndex) : bool :=
  (negb (is_failed b) && (BLOCK_VALID_TRANSACTIONS <=? Z.land (nStatus b) BLOCK_VALID_MASK))%bool.

Lemma cleared_failed b : is_failed (cleared b) = false.
Proof. unfold is_failed, cleared. cbn [nStatus set_nStatus]. by rewrite <- Z.land_assoc, Z.land_0_r. Qed.
Lemma cleared_shape b : shape (cleared b) = shape b.
Proof. done. Qed.

Lemma same_GetAncestor A B x h : tree A → same A B → is_Some (A !! x) → GetAncestor B x h = GetAncestor A x h.
Proof.
  intros HA HS [c Ec]. destruct (same_lookup A B x c HS Ec) as (c' & Ec' & (_ & Hh & _)%shape_bones).
  pose proof (st_tree A B (same_same_tree _ _ HS) HA) as HB.
  by rewrite (GetAncestor_spec A x c), (GetAncestor_spec B x c'), Hh, (same_up A B) by (done || apply tr_index; done).
Qed.

(** ** The walk over the block map *)
Section walk.
Context (p : ptr) (h : Z) (t : ptr).
(** The blocks the walk changes, and those that it makes candidates. *)
Definition hit (A : arena) (x : ptr) (c : CBlockIndex) : bool := negb (is_valid c) && bool_decide (GetAncestor A x h = Some (Some p)).
Definition revived (A : arena) (x : ptr) (c : CBlockIndex) : bool :=
  hit A x c && is_valid (cleared c) && negb (nChainTx c =? 0) && less A t x.

Record walked (l : list ptr) (st st' : main_state) : Prop := {
  wk_same : same (arena_of st) (arena_of st');
  wk_chain : chainActive st' = chainActive st;
  wk_blocks : ∀ x c, arena_of st !! x = Some c →
    arena_of st' !! x = Some (if decide (x ∈ l) then if hit (arena_of st) x c then cleared c else c else c);
  wk_cands : ∀ x, x ∈ setBlockIndexCandidates st' ↔ x ∈ setBlockIndexCandidates st ∨
    x ∈ l ∧ ∃ c, arena_of st !! x = Some c ∧ revived (arena_of st) x c = true }.

Lemma walked_miss x c st : arena_of st !! x = Some c → hit (arena_of st) x c = false → walked [x] st st.
Proof.
  intros Ec Hh. split; [done|done| |].
  - intros y d Ed. destruct (decide _) as [->%list_elem_of_singleton|]; [|done]. rewrite Ec in Ed. injection Ed as <-. by rewrite Hh.
  - intros y. split; [by left|]. intros [?|[->%list_elem_of_singleton (d & Ed & Hr)]]; [done|]. rewrite Ec in Ed. injection Ed as <-.
    unfold revived in Hr. by rewrite Hh in Hr.
Qed.
Lemma walked_hit x c st st' : arena_of st !! x = Some c → hit (arena_of st) x c = true →
  arena_of st' = <[x := cleared c]> (arena_of st) → chainActive st' = chainActive st →
  setBlockIndexCandidates st' = (if revived (arena_of st) x c then {[x]} ∪ setBlockIndexCandidates st else setBlockIndexCandidates st) →
  walked [x] st st'.
Proof.
  intros Ec Hh H1 H2 H3. split; [rewrite H1; by apply (same_insert _ x c)|done| |].
  - intros y d Ed. rewrite H1. destruct (decide _) as [->%list_elem_of_singleton|Hy].
    + rewrite Ec in Ed. injection Ed as <-. rewrite Hh. apply list_lookup_insert_eq. by eapply lookup_lt_Some.
    + rewrite list_lookup_insert_ne; [done|]. intros ->. apply Hy. by apply list_elem_of_singleton.
  - intros y. rewrite H3. split.
    + destruct (revived _ x c) eqn:Er; [|by left]. intros [->%elem_of_singleton|]%elem_of_union; [|by left]. right.
      split; [by apply list_elem_of_singleton|eauto].
    + intros [Hy|[->%list_elem_of_singleton (d & Ed & Hr)]]; [destruct (revived _ x c); set_solver|].
      rewrite Ec in Ed. injection Ed as <-. rewrite Hr. set_solver.
Qed.

(** Forgetting the best invalid block. *)
Definition forget (x : ptr) (st : main_state) : main_state := if decide (Some x = pindexBestInvalid st) then set_invalid st None else st.
Lemma forget_kept x st : ms_index (forget x st) = ms_index st ∧ chainActive (forget x st) = chainActive st ∧
  setBlockIndexCandidates (forget x st) = setBlockIndexCandidates st.
Proof. unfold forget. by destruct (decide _). Qed.

Lemma reconsider_one_spec x c st : tree (arena_of st) → arena_of st !! x = Some c → Tip (chainActive st) = Some t →
  ∃ st', reconsider_one p h x st = inr st' ∧ walked [x] st st'.
Proof.
  intros HT Ec Et. unfold reconsider_one. rewrite Ec. cbn [deref mbind R_bind]. rewrite IsValid_transactions. cbn [deref mbind R_bind].
  fold (is_valid c). assert (∃ a, GetAncestor (arena_of st) x h = Some a) as [a Ea]
    by (rewrite (GetAncestor_spec _ x c) by (done || by apply tr_index); eauto).
  destruct (is_valid c) eqn:Ev; [exists st; split; [done|apply (walked_miss x c); [done|]; unfold hit; by rewrite Ev]|].
  rewrite Ea. cbn [deref mbind R_bind]. destruct (decide (a = Some p)) as [->|Ha].
  2:{ exists st. split; [done|apply (walked_miss x c); [done|]]. unfold hit. rewrite Ea, bool_decide_eq_false_2 by congruence. by rewrite andb_false_r. }
  assert (hit (arena_of st) x c = true) as Hh by (unfold hit; by rewrite Ev, Ea, bool_decide_eq_true_2).
  set (st1 := clear_failed st x c). assert (arena_of st1 = <[x := cleared c]> (arena_of st)) as E1 by done.
  assert (arena_of st1 !! x = Some (cleared c)) as Ex by (rewrite E1; apply list_lookup_insert_eq; by eapply lookup_lt_Some).
  rewrite Ex. cbn [deref mbind R_bind]. rewrite IsValid_transactions. cbn [deref mbind R_bind]. fold (is_valid (cleared c)).
  assert (same (arena_of st) (arena_of st1)) as HS by (rewrite E1; by apply (same_insert _ x c)).
  set (st2 := if revived (arena_of st) x c then set_candidates st1 ({[x]} ∪ setBlockIndexCandidates st1) else st1).
  exists (forget x st2). destruct (forget_kept x st2) as (F1 & F2 & F3). split.
  - change (nChainTx (cleared c)) with (nChainTx c). unfold st2, revived. rewrite Hh. cbn [andb].
    destruct (is_valid (cleared c) && negb (nChainTx c =? 0))%bool; [|done].
    change (chainActive st1) with (chainActive st). rewrite Et. cbn [deref mbind R_bind mret R_ret andb]. by rewrite <- (same_less _ _ t x HS).
  - apply (walked_hit x c); rewrite ?F1, ?F2, ?F3; unfold st2; by destruct (revived _ x c).
Qed.

Lemma walked_cons x l st st1 st2 : x ∉ l → tree (arena_of st) → is_Some (arena_of st !! x) → (∀ y, y ∈ l → is_Some (arena_of st !! y)) →
  walked [x] st st1 → walked l st1 st2 → walked (x :: l) st st2.
Proof.
  intros Hx HT Hsx Hl [S1 C1 B1 K1] [S2 C2 B2 K2].
  assert (∀ y c, y ≠ x → arena_of st !! y = Some c → arena_of st1 !! y = Some c) as Hne.
  { intros y c Hy Ec. rewrite (B1 y c Ec). rewrite decide_False; [done|]. intros Hin. by apply list_elem_of_singleton in Hin. }
  assert (∀ y c, arena_of st !! y = Some c → hit (arena_of st1) y c = hit (arena_of st) y c ∧ revived (arena_of st1) y c = revived (arena_of st) y c) as Hhit.
  { intros y c Ec. assert (hit (arena_of st1) y c = hit (arena_of st) y c) as E
      by (unfold hit; by rewrite (same_GetAncestor (arena_of st) (arena_of st1) y h) by (done || eauto)).
    split; [done|]. unfold revived. by rewrite E, (same_less _ _ t y S1). }
  split; [by eapply same_trans|congruence| |].
  - intros y c Ec. destruct (decide (y = x)) as [->|Hy].
    + rewrite decide_True by set_solver. rewrite (B2 x _ (B1 x c Ec)). by rewrite decide_False, decide_True by set_solver.
    + rewrite (B2 y c (Hne y c Hy Ec)). rewrite (proj1 (Hhit y c Ec)).
      destruct (decide (y ∈ l)); [rewrite decide_True by set_solver|rewrite decide_False by set_solver]; done.
  - intros y. rewrite K2, K1, list_elem_of_singleton, elem_of_cons. split.
    + intros [[?|[-> ?]]|[Hy (c & Ec & Hr)]]; [by left|by right; split; [left|]|]. right. split; [by right|].
      destruct (Hl y Hy) as [d Ed]. assert (y ≠ x) as Hyx by (by intros ->). rewrite (Hne y d Hyx Ed) in Ec. injection Ec as <-.
      exists d. split; [done|]. by rewrite <- (proj2 (Hhit y d Ed)).
    + intros [?|[[->|Hy] (c & Ec & Hr)]]; [by left; left|left; right; eauto|]. right. split; [done|]. assert (y ≠ x) as Hyx by (by intros ->).
      exists c. split; [by apply Hne|]. by rewrite (proj2 (Hhit y c Ec)).
Qed.
Lemma walk_spec l : ∀ st, tree (arena_of st) → NoDup l → (∀ x, x ∈ l → is_Some (arena_of st !! x)) → Tip (chainActive st) = Some t →
  ∃ st', foldR (reconsider_one p h) l st = inr st' ∧ walked l st st'.
Proof.
  induction l as [|x l IH]; intros st HT Hd Hl Et; cbn [foldR].
  { exists st. split; [done|]. split; [done|done| |].
    - intros x c Ec. by rewrite decide_False by apply not_elem_of_nil.
    - intros x. split; [by left|]. intros [?|[Hx _]]; [done|by apply not_elem_of_nil in Hx]. }
  apply list.NoDup_cons in Hd as [Hx Hd]. destruct (Hl x) as [c Ec]; [set_solver|].
  destruct (reconsider_one_spec x c st HT Ec Et) as (st1 & -> & W1). cbn [mbind R_bind]. pose proof W1 as [S1 C1 B1 _].
  destruct (IH st1) as (st2 & -> & W2).
  - by eapply st_tree; [apply same_same_tree|].
  - done.
  - intros y Hy. destruct (Hl y) as [d Ed]; [set_solver|]. rewrite (B1 y d Ed). eauto.
  - by rewrite C1.
  - exists st2. split; [done|]. eapply walked_cons; [done|done|eauto| |done|done]. intros y Hy. apply Hl. set_solver.
Qed.
End walk.

(** ** The walk down to the root *)
Lemma clear_ancestors_spec fuel : ∀ st q, tree (arena_of st) → (∀ p, q = Some p → ∃ b, arena_of st !! p = Some b ∧ (Z.to_nat (nHeight b) < fuel)%nat) →
  ∃ st', clear_ancestors fuel st q = inr st' ∧ same (arena_of st) (arena_of st') ∧ chainActive st' = chainActive st ∧
    setBlockIndexCandidates st' = setBlockIndexCandidates st ∧
    ∀ x c, arena_of st !! x = Some c → ∃ c', arena_of st' !! x = Some c' ∧
      (is_failed c' = true ↔ is_failed c = true ∧ ∀ p n, q = Some p → up (arena_of st) n p ≠ Some x).
Proof.
  induction fuel as [|fuel IH]; intros st [p|] HT Hp; cbn [clear_ancestors].
  1: { by destruct (Hp p eq_refl) as (b & _ & ?); lia. }
  1, 3: exists st; split_and!; try done; intros x c Ec; exists c; split; [done|]; split; [by split|by intros [? _]].
  destruct (Hp p eq_refl) as (b & Eb & Hh). rewrite Eb. cbn [deref mbind R_bind].
  set (st1 := if is_failed b then clear_failed st p b else st).
  assert (same (arena_of st) (arena_of st1)) as HS by (unfold st1; destruct (is_failed b); [by apply (same_insert _ p b)|done]).
  assert (∀ x c, arena_of st !! x = Some c → ∃ c', arena_of st1 !! x = Some c' ∧ (is_failed c' = true ↔ is_failed c = true ∧ x ≠ p)) as H1.
  { intros x c Ec. unfold st1. destruct (is_failed b) eqn:Ef; [|exists c; split; [done|]].
    2:{ split; [|by intros [? _]]. intros Hc. split; [done|]. intros ->. rewrite Eb in Ec. injection Ec as <-. congruence. }
    destruct (decide (x = p)) as [->|Hx].
    - exists (cleared b). split; [apply list_lookup_insert_eq; by eapply lookup_lt_Some|]. rewrite cleared_failed. split; [done|by intros [_ ?]].
    - exists c. split; [rewrite <- Ec; apply list_lookup_insert_ne; congruence|]. split; [by split|by intros [? _]]. }
  destruct (IH st1 (pprev b)) as (st' & -> & HS' & Hc & Hk & Hb).
  - by eapply st_tree; [apply same_same_tree|].
  - intros q Hq. pose proof (we_prev _ _ _ (tr_index _ HT p b Eb)) as Hw. rewrite Hq in Hw. destruct Hw as (c & Ec & Hhc).
    destruct (same_lookup _ _ q c HS Ec) as (c' & Ec' & (_ & Hh' & _)%shape_bones). exists c'. split; [done|].
    pose proof (we_height _ _ _ (tr_index _ HT q c Ec)). lia.
  - exists st'. split_and!; [done|by eapply same_trans|rewrite Hc; unfold st1; by destruct (is_failed b)|rewrite Hk; unfold st1; by destruct (is_failed b)|].
    intros x c Ec. destruct (H1 x c Ec) as (c1 & Ec1 & Hf1). destruct (Hb x c1 Ec1) as (c' & Ec' & Hf'). exists c'. split; [done|].
    rewrite Hf', Hf1. split.
    + intros [[? Hx] Hu]. split; [done|]. intros p' [|n] [= <-]; [cbn [up]; congruence|]. cbn [up]. rewrite Eb. cbn [mbind option_bind].
      destruct (pprev b) as [q|] eqn:Eq; [|done]. cbn [mbind option_bind]. rewrite (same_up _ _ n q HS). by apply Hu.
    + intros [? Hu]. split_and!; [done|intros ->; by apply (Hu p 0%nat)|]. intros q n Hq Hup. apply (Hu p (S n) eq_refl). cbn [up]. rewrite Eb.
      cbn [mbind option_bind]. rewrite Hq. cbn [mbind option_bind]. by rewrite (same_up _ _ n q HS).
Qed.

(** ** The block itself, its descendants and its ancestors *)
Lemma GetAncestor_descendant A x c p b : tree A → A !! x = Some c → A !! p = Some b →
  GetAncestor A x (nHeight b) = Some (Some p) ↔ ∃ n, up A n x = Some p.
Proof.
  intros HT Ec Eb. pose proof (tr_index _ HT) as HI. pose proof (we_height _ _ _ (HI p b Eb)). rewrite (GetAncestor_spec A x c) by done. split.
  - destruct (_ || _)%bool; [done|]. intros [= ?]. eauto.
  - intros [n Hn]. destruct (up_lookup A HI n x p c Hn Ec) as (b' & Eb' & Hh). rewrite Eb in Eb'. injection Eb' as <-.
    assert (((nHeight c <? nHeight b) || (nHeight b <? 0))%bool = false) as -> by lia. f_equal. rewrite <- Hn. f_equal. lia.
Qed.
Lemma mapped_blocks {V : Validation} st : rest_q st [] → ∀ x, x ∈ (map_to_list (mapBlockIndex (ms_index st))).*2 ↔ is_Some (arena_of st !! x).
Proof.
  intros Hst x. rewrite list_elem_of_fmap. split.
  - intros ([k y] & -> & Hy%elem_of_map_to_list). destruct (ws_map _ (rq_index _ _ Hst) k y Hy) as (b & Eb & _). eauto.
  - intros [b Eb]. exists (phashBlock b, x). split; [done|]. by apply elem_of_map_to_list, (rq_mapped _ _ Hst).
Qed.
Lemma mapped_NoDup {V : Validation} st : rest_q st [] → NoDup (map_to_list (mapBlockIndex (ms_index st))).*2.
Proof.
  intros Hst. apply NoDup_fmap_2_strong; [|apply NoDup_map_to_list]. intros [k x] [k' y] Hx%elem_of_map_to_list Hy%elem_of_map_to_list [= <-].
  destruct (ws_map _ (rq_index _ _ Hst) k x Hx) as (b & Eb & <-), (ws_map _ (rq_index _ _ Hst) k' x Hy) as (b' & Eb' & <-). congruence.
Qed.

(** C39. Reconsidering a block.  From a consistent state [ReconsiderBlock] and [ResetBlockFailureFlags] end,
    with the same result, without touching the active chain.  It clears the failure flags of the block, of its descendants and of its ancestors, and of no
    other block.  The candidates gain exactly the descendants that did not count as valid, that do once
    their flags are cleared, that have all their ancestors' transactions and that beat the tip; an
    ancestor whose flags are cleared never becomes a candidate again. *)
Theorem ReconsiderBlock_effect (V : Validation) st p b : rest_q st [] → arena_of st !! p = Some b →
  ∃ st' t, ReconsiderBlock st p = inr st' ∧ ResetBlockFailureFlags st p = inr st' ∧ chainActive st' = chainActive st ∧ Tip (chainActive st) = Some t ∧
    (∀ x c, arena_of st !! x = Some c → ∃ c', arena_of st' !! x = Some c' ∧ shape c' = shape c ∧
      (is_failed c' = true ↔ is_failed c = true ∧ ∀ n, up (arena_of st) n x ≠ Some p ∧ up (arena_of st) n p ≠ Some x)) ∧
    ∀ x, x ∈ setBlockIndexCandidates st' ↔ x ∈ setBlockIndexCandidates st ∨
      ∃ c n, arena_of st !! x = Some c ∧ up (arena_of st) n x = Some p ∧ is_valid c = false ∧ is_valid (cleared c) = true ∧
        nChainTx c ≠ 0 ∧ CBlockIndexWorkComparator (arena_of st) t x = true.
Proof.
  intros Hst Eb. pose proof (rq_base _ _ Hst) as Hbase. pose proof (ba_tree _ Hbase) as HT. destruct (base_tip st Hbase) as (t & bt & Et & _).
  set (A := arena_of st) in *. unfold ResetBlockFailureFlags, ReconsiderBlock. fold A. rewrite Eb. cbn [deref mbind R_bind].
  destruct (walk_spec p (nHeight b) t _ st HT (mapped_NoDup st Hst) (λ x, proj1 (mapped_blocks st Hst x)) Et) as (st1 & -> & [S1 C1 B1 K1]). cbn [mbind R_bind].
  destruct (clear_ancestors_spec (S (Z.to_nat (nHeight b))) st1 (Some p)) as (st' & -> & S2 & C2 & K2 & B2).
  - by eapply st_tree; [apply same_same_tree|].
  - intros q [= <-]. destruct (same_lookup _ _ p b S1 Eb) as (b' & Eb' & (_ & Hh & _)%shape_bones). exists b'. split; [done|lia].
  - exists st', t. split_and!; [done|done|congruence|done| |].
    + intros x c Ec. pose proof (B1 x c Ec) as E1. rewrite decide_True in E1 by (apply (mapped_blocks st Hst); by exists c).
      destruct (B2 x _ E1) as (c' & Ec' & Hf). exists c'. split_and!; [done| |].
      * destruct (same_lookup _ _ x c (same_trans _ _ _ S1 S2) Ec) as (d & Ed & ->). rewrite Ec' in Ed. by injection Ed as ->.
      * rewrite Hf. fold A. pose proof (GetAncestor_descendant A x c p b HT Ec Eb) as Hd. unfold hit. fold A. split.
        -- intros [Hc Hu]. destruct (negb (is_valid c) && _)%bool eqn:Eh; [by rewrite cleared_failed in Hc|]. split; [done|].
           intros n. split; [|rewrite (same_up A (arena_of st1) n p S1); by apply Hu]. intros Hn.
           rewrite bool_decide_eq_true_2 in Eh by (apply Hd; eauto). unfold is_valid in Eh. by rewrite Hc in Eh.
        -- intros [Hc Hu]. rewrite bool_decide_eq_false_2, andb_false_r by (rewrite Hd; intros [n Hn]; by destruct (Hu n)). split; [done|].
           intros q n [= <-]. rewrite <- (same_up A (arena_of st1) n p S1). apply Hu.
    + intros x. rewrite K2, K1. f_equiv. unfold revived, hit. fold A. split.
      * intros (_ & c & Ec & Hr). rewrite !andb_true_iff, !negb_true_iff, bool_decide_eq_true in Hr. destruct Hr as [[[[H1 Ha] H2] H3] H4].
        apply (GetAncestor_descendant A x c p b HT Ec Eb) in Ha as [n Hn]. exists c, n. split_and!; try done. by apply Z.eqb_neq.
      * intros (c & n & Ec & Hn & H1 & H2 & H3%Z.eqb_neq & H4). split; [apply (mapped_blocks st Hst); by exists c|]. exists c. split; [done|].
        rewrite H1, H2, H3, H4, bool_decide_eq_true_2; [done|]. apply (GetAncestor_descendant A x c p b HT Ec Eb). eauto.
Qed.

(** ** A block that is lost *)
(** Block 1 is invalidated and its child, of which only the header is known, reconsidered: block 1 does
    not count as failed any more and has more work than the root, but the root stays the tip. *)
#[local] Instance all_connect : Validation := {| ConnectBlock _ := connected; DisconnectBlock _ := true; ShutdownRequested _ := false; flush_ok := true |}.
#[local] Instance all_valid : Valid all_connect.
Proof. split; [|done|done]. intros p. by left. Qed.
Definition lost_events : list event :=
  [header (hdr 2 1); header (hdr 3 2); block false false 1 0 8 1%nat; activate; invalidate 1%nat].
Definition before_reconsider : main_state := match run genesis_state lost_events with inr st => st | inl _ => genesis_state end.
Definition outcome (p : ptr) : R (list ptr * list bool * bool) :=
  st ← ReconsiderBlock before_reconsider p; '(st, _) ← ActivateBestChain st;
  mret (chainActive st, map is_failed (arena_of st), CBlockIndexWorkComparator (arena_of st) 0 1).
Example reconsider_header : outcome 2 = inr ([0%nat], [false; false; false], true).
Proof. vm_compute. reflexivity. Qed.
Example reconsider_block : outcome 1 = inr ([0%nat; 1%nat], [false; false; false], true).
Proof. vm_compute. reflexivity. Qed.

Lemma before_rest : rest_q before_reconsider [].
Proof.
  apply (reachable_rest genesis_state); [by apply genesis_rest|]. unfold before_reconsider.
  destruct (run genesis_state lost_events) as [|st] eqn:E; [constructor|].
  eapply run_reachable; [constructor| |exact E]. vm_compute. reflexivity.
Qed.
Lemma ReconsiderBlock_effect_witness : ∃ st', ReconsiderBlock before_reconsider 2 = inr st' ∧ chainActive st' = [0%nat].
Proof.
  destruct (arena_of before_reconsider !! 2%nat) as [b|] eqn:E; [|vm_compute in E; discriminate E].
  destruct (ReconsiderBlock_effect all_connect before_reconsider 2 b before_rest E) as (st' & t & Es & _ & Hc & _).
  exists st'. split; [exact Es|]. rewrite Hc. vm_compute. reflexivity.
Defined.
End Reconsider.
