(* ===== verification/CheckQueue.v ===== *)
(** * CheckQueue: parallel verification ([checkqueue.h])

    The queue of checks with its mutex and two condition variables, as a machine of interleaved
    threads: a critical section is one step, every check is one step, and a wait can also end
    without a notification.  Thread 0 is the master, which adds checks and waits for the
    result; the others are workers.  The theorems show that the result is the conjunction of all
    the checks whatever the interleaving, that no wakeup is lost and that the wait ends. *)
From S2P Require Import Prelude.

Module CheckQueue.

Section queue.
Context {T : Type} (run : T → bool).

(** ** The shared state *)
(** [queue] ends with its back. *)
Record CCheckQueue := mkQueue { queue : list T; nIdle : Z; nTotal : Z; fAllOk : bool; nTodo : Z; fQuit : bool; nBatchSize : Z }.
Definition CCheckQueue_new (nBatchSizeIn : Z) : CCheckQueue := mkQueue [] 0 0 true 0 false nBatchSizeIn.
Definition Add (q : CCheckQueue) (vChecks : list T) : CCheckQueue :=
  mkQueue (queue q ++ vChecks) (nIdle q) (nTotal q) (fAllOk q) (u32 (nTodo q + Z.of_nat (length vChecks))) (fQuit q) (nBatchSize q).
Definition IsIdle (q : CCheckQueue) : bool := (nTotal q =? nIdle q) && (nTodo q =? 0) && fAllOk q.

(** ** The loop *)
(** Where a thread is: not in the loop; before the critical section; in [cond.wait]; woken, before it has the mutex
    again; executing what is left of its batch; and done, with the result. *)
Inductive local := Outside | Lock (nNow : Z) (fOk : bool) | Waiting | Notified | Work (nNow : Z) (vChecks : list T) (fOk : bool) | Returned (fRet : bool).
(** The batch size, and the batch from the back of the queue. *)
Definition batch_size (q : CCheckQueue) : Z :=
  Z.max 1 (Z.min (nBatchSize q) (u32 (Z.of_nat (length (queue q))) / u32 (nTotal q + nIdle q + 1))).
Definition take_batch (q : CCheckQueue) : CCheckQueue * local :=
  let nNow := batch_size q in
  let n := (length (queue q) - Z.to_nat nNow)%nat in
  (mkQueue (take n (queue q)) (nIdle q) (nTotal q) (fAllOk q) (nTodo q) (fQuit q) (nBatchSize q), Work nNow (rev (drop n (queue q))) (fAllOk q)).
(** From [while (queue.empty())] to the end of the critical section. *)
Definition inner_loop (fMaster : bool) (q : CCheckQueue) : CCheckQueue * local :=
  match queue q with
  | [] =>
      if (fMaster || fQuit q) && (nTodo q =? 0)
      then (mkQueue [] (nIdle q) (nTotal q - 1) (if fMaster then true else fAllOk q) (nTodo q) (fQuit q) (nBatchSize q), Returned (fAllOk q))
      else (mkQueue [] (nIdle q + 1) (nTotal q) (fAllOk q) (nTodo q) (fQuit q) (nBatchSize q), Waiting)
  | _ => take_batch q
  end.
(** The clean-up of the previous run; the flag is the notification of the master. *)
Definition clean_up (fMaster : bool) (nNow : Z) (fOk : bool) (q : CCheckQueue) : CCheckQueue * bool :=
  if negb (nNow =? 0) then
    let todo := u32 (nTodo q - nNow) in
    (mkQueue (queue q) (nIdle q) (nTotal q) (fAllOk q && fOk) todo (fQuit q) (nBatchSize q), (todo =? 0) && negb fMaster)
  else (mkQueue (queue q) (nIdle q) (nTotal q + 1) (fAllOk q) (nTodo q) (fQuit q) (nBatchSize q), false).
Definition wake_up (q : CCheckQueue) : CCheckQueue :=
  mkQueue (queue q) (nIdle q - 1) (nTotal q) (fAllOk q) (nTodo q) (fQuit q) (nBatchSize q).
(** One step of a thread in the loop. *)
Definition thread_step (fMaster : bool) (q : CCheckQueue) (l : local) : option (CCheckQueue * local * bool) :=
  match l with
  | Lock nNow fOk => let '(q, notify) := clean_up fMaster nNow fOk q in let '(q, l) := inner_loop fMaster q in Some (q, l, notify)
  | Notified => let '(q, l) := inner_loop fMaster (wake_up q) in Some (q, l, false)
  | Work nNow (check :: vChecks) fOk => Some (q, Work nNow vChecks (if fOk then run check else fOk), false)
  | Work nNow [] fOk => Some (q, Lock nNow fOk, false)
  | Outside | Waiting | Returned _ => None
  end.

(** ** The machine *)
(** [added] are the checks since the last result, [finished] those of the result that the master has. *)
Record machine := mkMachine { shared : CCheckQueue; threads : list local; added : list T; finished : list T }.
Definition notify (l : local) : local := match l with Waiting => Notified | _ => l end.
Definition notify_master (ls : list local) : list local := match ls with [] => [] | l :: ls => notify l :: ls end.
Definition notify_workers (ls : list local) : list local := match ls with [] => [] | l :: ls => l :: map notify ls end.
(** What the threads do in the loop by themselves. *)
Definition internal (i : nat) (m : machine) : option machine :=
  l ← threads m !! i;
  '(q, l', note) ← thread_step (i =? 0)%nat (shared m) l;
  let ls := <[i := l']> (threads m) in
  let ls := if note : bool then notify_master ls else ls in
  match i, l' with
  | O, Returned _ => Some (mkMachine q ls [] (added m))
  | _, _ => Some (mkMachine q ls (added m) (finished m))
  end.
(** The steps of the system: a check batch is added, with a notification of one or of all the workers; the master
    calls [Wait] and takes its result; a worker starts; a thread goes on; a wait ends without a notification. *)
Inductive step : machine → machine → Prop :=
| step_add m vChecks ls : threads m !! 0%nat = Some Outside → Z.of_nat (length (added m ++ vChecks)) < 2 ^ 32 →
    (length vChecks = 1%nat → ls = threads m ∧ Forall (λ l, l ≠ Waiting) (drop 1 (threads m)) ∨
       ∃ i, (0 < i)%nat ∧ threads m !! i = Some Waiting ∧ ls = <[i := Notified]> (threads m)) →
    (length vChecks ≠ 1%nat → ls = if (1 <? length vChecks)%nat then notify_workers (threads m) else threads m) →
    step m (mkMachine (Add (shared m) vChecks) ls (added m ++ vChecks) (finished m))
| step_wait m : threads m !! 0%nat = Some Outside → step m (mkMachine (shared m) (<[0%nat := Lock 0 true]> (threads m)) (added m) (finished m))
| step_result m fRet : threads m !! 0%nat = Some (Returned fRet) → step m (mkMachine (shared m) (<[0%nat := Outside]> (threads m)) (added m) (finished m))
| step_start m : Z.of_nat (length (threads m)) < 2 ^ 30 → step m (mkMachine (shared m) (threads m ++ [Lock 0 true]) (added m) (finished m))
| step_internal i m m' : internal i m = Some m' → step m m'
| step_spurious i m : threads m !! i = Some Waiting → step m (mkMachine (shared m) (<[i := Notified]> (threads m)) (added m) (finished m)).
Definition machine_init (nBatchSizeIn : Z) : machine := mkMachine (CCheckQueue_new nBatchSizeIn) [Outside] [] [].

(** ** The controller *)
(** [None] is the failed assertion that the queue is idle. *)
Definition CCheckQueueControl (pqueue : option CCheckQueue) : option bool :=
  match pqueue with Some q => if IsIdle q then Some false else None | None => Some false end.

(** ** The invariant *)
(** What a thread contributes: the checks it has taken and those it has not executed, whether it is idle, whether it is
    counted in the total, and its own result. *)
Record sig := mkSig { s_now : Z; s_idle : Z; s_active : Z; s_rest : list T; s_ok : bool }.
Definition sig_of (l : local) : sig :=
  match l with
  | Outside | Returned _ => mkSig 0 0 0 [] true
  | Lock nNow fOk => mkSig nNow 0 (if nNow =? 0 then 0 else 1) [] fOk
  | Waiting | Notified => mkSig 0 1 1 [] true
  | Work nNow vChecks fOk => mkSig nNow 0 1 vChecks fOk
  end.
(** In the critical section, after the clean-up. *)
Definition at_head : sig := mkSig 0 0 1 [] true.
Definition good (s : sig) : Prop :=
  0 <= s_now s ∧ 0 <= s_idle s <= 1 ∧ 0 <= s_active s <= 1 ∧ Z.of_nat (length (s_rest s)) <= s_now s ∧ (s_now s = 0 → s_ok s = true).
Definition counted (s : sig) : Prop := s_active s = s_idle s + (if s_now s =? 0 then 0 else 1).
Definition total (f : sig → Z) (S : list sig) : Z := foldr (λ s n, f s + n) 0 S.
Record base (q : CCheckQueue) (S : list sig) (A : list T) : Prop := {
  b_todo : nTodo q = Z.of_nat (length (queue q)) + total s_now S;
  b_idle : nIdle q = total s_idle S;
  b_total : nTotal q = total s_active S;
  b_good : Forall good S;
  b_bound : nTodo q <= Z.of_nat (length A) < 2 ^ 32;
  b_len : Z.of_nat (length S) <= 2 ^ 30;
  b_quit : fQuit q = false;
  b_checked : ∃ checked, A ≡ₚ queue q ++ concat (map s_rest S) ++ checked ∧
    (fAllOk q = true → Forall (λ s, s_ok s = true) S → Forall (λ c, run c = true) checked);
  b_false : fAllOk q = false ∨ Exists (λ s, s_ok s = false) S → Exists (λ c, run c = false) A }.

Lemma Exists_at {X} (P : X → Prop) (l : list X) : Exists P l ↔ ∃ i x, l !! i = Some x ∧ P x.
Proof using Type.
  split.
  - induction 1 as [x l Hx|x l _ (i & y & E & Hy)]; [by exists 0%nat, x|by exists (S i), y].
  - intros (i & x & E & Hx). apply (list_elem_of_lookup_2 l i x), list_elem_of_In in E. apply List.Exists_exists. by exists x.
Qed.
Lemma total_insert f S i s s' : S !! i = Some s → total f (<[i := s']> S) = total f S - f s + f s'.
Proof using Type. 
  revert i. induction S as [|x S IH]; intros [|i] E; [done|done|injection E as ->; cbn; lia|].
  change (<[Datatypes.S i := s']> (x :: S)) with (x :: <[i := s']> S). unfold total in *. cbn [foldr]. rewrite (IH i E). lia.
Qed.
Lemma total_app f S S' : total f (S ++ S') = total f S + total f S'.
Proof using Type. unfold total. induction S as [|x S IH]; [done|]. cbn. rewrite IH. lia. Qed.
Lemma total_bounds f S lo hi : lo <= 0 → 0 <= hi → Forall (λ s, lo <= f s <= hi) S → lo * Z.of_nat (length S) <= total f S <= hi * Z.of_nat (length S).
Proof using Type. intros Hlo Hhi. induction 1 as [|x S Hx _ IH]; cbn [total foldr length] in *; [lia|]. fold (total f S) in *. nia. Qed.
Lemma total_zero f S : Forall (λ s, 0 <= f s) S → total f S = 0 → Forall (λ s, f s = 0) S.
Proof using Type.
  induction 1 as [|x S Hx HS IH]; cbn; [constructor|]. fold (total f S). intros E. assert (0 <= total f S) by (clear -HS; unfold total; induction HS; cbn; lia).
  constructor; [lia|]. apply IH. lia.
Qed.
Lemma rest_insert S i s : S !! i = Some s → ∃ R, concat (map s_rest S) ≡ₚ s_rest s ++ R ∧ ∀ s', concat (map s_rest (<[i := s']> S)) ≡ₚ s_rest s' ++ R.
Proof using Type.
  revert i. induction S as [|x S IH]; intros [|i] E; [done|done|injection E as ->; by exists (concat (map s_rest S))|].
  destruct (IH i E) as (R & H1 & H2). exists (s_rest x ++ R). cbn [map concat]. rewrite H1. split; [solve_Permutation|].
  intros s'. change (<[Datatypes.S i := s']> (x :: S)) with (x :: <[i := s']> S). cbn [map concat]. rewrite H2. solve_Permutation.
Qed.

(** One thread changes. *)
Lemma base_replace q S A i s q' s' new : base q S A → S !! i = Some s → good s' →
  nTodo q' - Z.of_nat (length (queue q')) - s_now s' = nTodo q - Z.of_nat (length (queue q)) - s_now s →
  nIdle q' - s_idle s' = nIdle q - s_idle s → nTotal q' - s_active s' = nTotal q - s_active s → fQuit q' = fQuit q → nTodo q' <= nTodo q →
  queue q ++ s_rest s ≡ₚ queue q' ++ s_rest s' ++ new →
  (fAllOk q' = true → s_ok s' = true → fAllOk q = true ∧ s_ok s = true ∧ Forall (λ c, run c = true) new) →
  (fAllOk q' = false ∨ s_ok s' = false → fAllOk q = false ∨ s_ok s = false ∨ Exists (λ c, run c = false) new) →
  base q' (<[i := s']> S) A.
Proof using Type.
  intros [H1 H2 H3 H4 H5 H6 H7 (checked & Hp & Hc) Hf] Es Hg Etodo Eidle Etot Equit Hle Hq Htrue Hfalse.
  destruct (rest_insert S i s Es) as (R & HR & HR'). assert (A ≡ₚ queue q' ++ concat (map s_rest (<[i := s']> S)) ++ new ++ checked) as HA.
  { rewrite Hp, HR, HR'. transitivity ((queue q ++ s_rest s) ++ R ++ checked); [solve_Permutation|]. rewrite Hq. solve_Permutation. }
  split.
  - rewrite (total_insert _ _ _ s) by done. lia.
  - rewrite (total_insert _ _ _ s) by done. lia.
  - rewrite (total_insert _ _ _ s) by done. lia.
  - by apply Forall_insert.
  - lia.
  - by rewrite length_insert.
  - congruence.
  - exists (new ++ checked). split; [done|]. intros Ha Hall. rewrite Forall_lookup in Hall. assert (s_ok s' = true) as Hs'.
    { apply (Hall i). rewrite list_lookup_insert_eq; [done|]. by eapply lookup_lt_Some. }
    destruct (Htrue Ha Hs') as (Ha0 & Hs0 & Hn). apply Forall_app. split; [done|]. apply Hc; [done|]. apply Forall_lookup. intros j x Ej. destruct (decide (i = j)) as [<-|Hne]; [congruence|].
    apply (Hall j). by rewrite list_lookup_insert_ne.
  - intros Hbad. assert (fAllOk q = false ∨ Exists (λ s, s_ok s = false) S ∨ Exists (λ c, run c = false) new) as [?|[?|He]]; [|by apply Hf; left|by apply Hf; right|].
    + destruct Hbad as [Hb|Hb].
      * destruct (Hfalse (or_introl Hb)) as [?|[?|?]]; [by left| |by right; right]. right. left. apply Exists_at. by exists i, s.
      * apply Exists_at in Hb as (j & x & Ej & Hx). destruct (decide (i = j)) as [<-|Hne].
        -- rewrite list_lookup_insert_eq in Ej by (by eapply lookup_lt_Some). injection Ej as <-. destruct (Hfalse (or_intror Hx)) as [?|[?|?]]; [by left| |by right; right].
           right. left. apply Exists_at. by exists i, s.
        -- rewrite list_lookup_insert_ne in Ej by done. right. left. apply Exists_at. by exists j, x.
    + rewrite HA. apply Exists_app. right. apply Exists_app. right. apply Exists_app. by left.
Qed.

(** ** Steps keep the invariant *)
Lemma thread_bounds q S A : base q S A → 0 <= nTotal q < 2 ^ 31 ∧ 0 <= nIdle q <= 2 ^ 30 ∧ 0 <= nTodo q - Z.of_nat (length (queue q)).
Proof using Type.
  intros [H1 H2 H3 H4 H5 H6 _ _ _]. pose proof (total_bounds s_idle S 0 1) as Hi. pose proof (total_bounds s_active S 0 1) as Ha.
  assert (0 <= total s_now S) as Hn by (clear -H4; unfold total; induction H4 as [|x l (Hx & _) _ IH]; cbn; lia).
  specialize (Hi ltac:(lia) ltac:(lia)). specialize (Ha ltac:(lia) ltac:(lia)).
  destruct Hi as [Hi1 Hi2]; [eapply Forall_impl; [|exact H4]; intros x Hx; apply Hx|]. destruct Ha as [Ha1 Ha2]; [eapply Forall_impl; [|exact H4]; intros x Hx; apply Hx|]. lia.
Qed.
Lemma batch_bounds q S A : base q S A → queue q ≠ [] → 1 <= batch_size q <= Z.of_nat (length (queue q)).
Proof using Type.
  intros HB Hne. destruct (thread_bounds q S A HB) as (Ht & Hi & Hl). destruct HB as [_ _ _ _ H5 _ _ _ _]. unfold batch_size. assert (0 < length (queue q))%nat by (destruct (queue q); [done|cbn; lia]).
  rewrite !u32_small by lia. set (n := Z.of_nat (length (queue q))) in *. assert (n / (nTotal q + nIdle q + 1) <= n) by (apply Z.div_le_upper_bound; nia). lia.
Qed.
Lemma wake_base q S A i : base q S A → S !! i = Some (sig_of Waiting) → base (wake_up q) (<[i := at_head]> S) A.
Proof using Type. intros HB Ei. apply (base_replace q S A i (sig_of Waiting) (wake_up q) at_head []); try done; cbn; try lia; naive_solver. Qed.
Lemma clean_base q S A i nNow fOk m : base q S A → S !! i = Some (sig_of (Lock nNow fOk)) → let '(q', note) := clean_up m nNow fOk q in
  base q' (<[i := at_head]> S) A ∧ queue q' = queue q ∧ nTodo q' = nTodo q - nNow ∧ note = negb (nNow =? 0) && (nTodo q' =? 0) && negb m.
Proof using Type.
  intros HB Ei. destruct (thread_bounds q S A HB) as (Ht & Hi & Hl). pose proof HB as [H1 _ _ H4 H5 _ _ _ _].
  assert (good (sig_of (Lock nNow fOk))) as (Hn & _ & _ & _ & Hok) by (rewrite Forall_lookup in H4; by eapply H4). cbn in Hn, Hok.
  assert (nNow <= nTodo q) as Hle.
  { pose proof (total_insert s_now S i _ (mkSig 0 0 0 [] true) Ei) as E. cbn in E. assert (0 <= total s_now (<[i := mkSig 0 0 0 [] true]> S)); [|lia].
    assert (Forall good (<[i := mkSig 0 0 0 [] true]> S)) as HG by (apply Forall_insert; [done|unfold good; cbn; repeat split; lia]).
    clear -HG. unfold total. induction HG as [|x l (Hx & _) _ IH]; cbn; lia. }
  unfold clean_up. destruct (Z.eqb_spec nNow 0) as [->|Hne]; cbn [negb andb].
  - split_and!; [|done|cbn; lia|done]. apply (base_replace q S A i (sig_of (Lock 0 fOk)) _ at_head []); try done; cbn; try lia; try naive_solver.
  - rewrite u32_small by lia. split_and!; [|done|done|done].
    apply (base_replace q S A i (sig_of (Lock nNow fOk)) _ at_head []); try done; cbn; try lia; rewrite ?(proj2 (Z.eqb_neq nNow 0)) by done; cbn; try lia.
    + intros [? ?]%andb_true_iff. done.
    + intros [Hf%andb_false_iff|[=]]. naive_solver.
Qed.
Lemma take_base q S A i : base q S A → S !! i = Some at_head → queue q ≠ [] → let '(q', l) := take_batch q in
  base q' (<[i := sig_of l]> S) A ∧ nTodo q' = nTodo q ∧ ∃ n cs ok, l = Work n cs ok ∧ 0 < n ∧ (Z.of_nat (length (queue q')) + n = Z.of_nat (length (queue q)))%Z ∧ Z.of_nat (length cs) = n.
Proof using Type.
  intros HB Ei Hne. pose proof (batch_bounds q S A HB Hne) as Hn. unfold take_batch. set (n := batch_size q) in *. set (k := (length (queue q) - Z.to_nat n)%nat).
  assert (length (rev (drop k (queue q))) = Z.to_nat n) as Hl by (rewrite length_rev, length_drop; lia). assert (length (take k (queue q)) = k) as Hk by (rewrite length_take; lia).
  split; [|split; [done|]; exists n, (rev (drop k (queue q))), (fAllOk q); cbn [queue]; split_and!; lia || done].
  apply (base_replace q S A i at_head _ _ []); try done; cbn [nTodo queue sig_of s_now s_idle s_active s_rest s_ok nIdle nTotal fQuit fAllOk at_head]; try lia.
  - repeat split; cbn; lia.
  - rewrite !app_nil_r, <- Permutation_rev. by rewrite take_drop.
  - naive_solver.
Qed.
(** Nothing is left when the master returns: the result is the conjunction. *)
Lemma nothing_left q S A : base q S A → queue q = [] → nTodo q = 0 → Forall (λ s, s_now s = 0 ∧ s_ok s = true ∧ s_rest s = []) S ∧ fAllOk q = forallb run A.
Proof using Type.
  intros [H1 _ _ H4 _ _ _ (checked & Hp & Hc) Hf] Hq Ht. rewrite Hq in *. cbn in H1. assert (total s_now S = 0) as Hz by lia. apply total_zero in Hz.
  2: { eapply Forall_impl; [|exact H4]. intros x Hx. apply Hx. }
  assert (Forall (λ s, s_now s = 0 ∧ s_ok s = true ∧ s_rest s = []) S) as HS.
  { rewrite Forall_lookup in *. intros j x Ej. specialize (Hz j x Ej). destruct (H4 j x Ej) as (_ & _ & _ & Hr & Hok). split_and!; [done|auto|]. destruct (s_rest x); [done|cbn in Hr; lia]. }
  split; [done|]. assert (concat (map s_rest S) = []) as Hcat by (clear -HS; induction HS as [|x l (_ & _ & Hx) _ IH]; [done|]; cbn; by rewrite Hx, IH). rewrite Hcat in Hp. cbn in Hp.
  symmetry. destruct (fAllOk q) eqn:Ea.
  - apply forallb_forall. intros c Hin. assert (Forall (λ c, run c = true) checked) as Hall by (apply Hc; [done|]; eapply Forall_impl; [|exact HS]; intros x Hx; apply Hx).
    rewrite List.Forall_forall in Hall. apply Hall. eapply Permutation_in; [exact Hp|done].
  - destruct (forallb run A) eqn:E; [|done]. rewrite forallb_forall in E. assert (Exists (λ c, run c = false) A) as He by (apply Hf; by left).
    apply List.Exists_exists in He as (c & Hin & Hr). rewrite (E c Hin) in Hr. done.
Qed.
Lemma inner_base q S A i m : base q S A → S !! i = Some at_head → let '(q', l) := inner_loop m q in
  nTodo q' = nTodo q ∧ counted (sig_of l) ∧
  ((m = true ∧ l = Returned (forallb run A) ∧ base q' (<[i := sig_of l]> S) []) ∨
   base q' (<[i := sig_of l]> S) A ∧ (queue q = [] → queue q' = []) ∧
   (l = Waiting ∧ queue q' = [] ∧ (m = true → nTodo q ≠ 0) ∨ ∃ n cs ok, l = Work n cs ok)).
Proof using Type.
  intros HB Ei. unfold inner_loop. destruct (queue q) as [|c0 cs0] eqn:Eq.
  2: { pose proof (take_base q S A i HB Ei ltac:(by rewrite Eq)) as HT. destruct (take_batch q) as [q' l]. destruct HT as (HB' & Ht & n & cs & ok & -> & Hn & _).
       split_and!; [done|unfold counted; cbn; by rewrite (proj2 (Z.eqb_neq n 0)) by lia|]. right. split_and!; [done|done|]. right. eauto. }
  pose proof HB as [_ _ _ _ _ _ Hq _ _]. rewrite Hq, orb_false_r. destruct (m && (nTodo q =? 0)) eqn:Em.
  - apply andb_true_iff in Em as [-> Ht%Z.eqb_eq]. destruct (nothing_left q S A HB Eq Ht) as [HS Hall]. cbn [sig_of]. split_and!; [done|done|]. left. split_and!; [done|by rewrite Hall|].
    destruct HB as [H1 H2 H3 H4 H5 H6 H7 _ _]. set (S' := <[i := _]> S).
    assert (Forall (λ s, s_now s = 0 ∧ s_ok s = true ∧ s_rest s = []) S') as HS' by (by apply Forall_insert).
    assert (concat (map s_rest S') = []) as Hcat by (clear -HS'; induction HS' as [|x l (_ & _ & Hx) _ IH]; [done|]; cbn; by rewrite Hx, IH).
    split; cbn [nTodo queue nIdle nTotal fQuit fAllOk].
    + unfold S'. rewrite (total_insert _ _ _ at_head) by done. rewrite Eq in H1. cbn in *. lia.
    + unfold S'. rewrite (total_insert _ _ _ at_head) by done. cbn. lia.
    + unfold S'. rewrite (total_insert _ _ _ at_head) by done. cbn. lia.
    + unfold S'. apply Forall_insert; [done|]. unfold good. cbn. repeat split; lia.
    + rewrite Ht. cbn. lia.
    + unfold S'. by rewrite length_insert.
    + done.
    + exists []. by rewrite Hcat.
    + intros [[=]|(j & x & Ej & Hx)%Exists_at]. rewrite Forall_lookup in HS'. destruct (HS' j x Ej) as (_ & Hok & _). congruence.
  - split_and!; [done|done|]. right. split_and!; [|done|left; split_and!; [done|done|intros ->; by apply Z.eqb_neq]].
    apply (base_replace q S A i at_head _ (sig_of Waiting) []); try done; cbn; rewrite ?Eq; cbn; try lia; naive_solver.
Qed.

(** What the threads of the machine do. *)
Lemma thread_step_base q S A i m l q' l' note : base q S A → S !! i = Some (sig_of l) → counted (sig_of l) → thread_step m q l = Some (q', l', note) →
  counted (sig_of l') ∧ (m = true → note = false) ∧
  ((m = true ∧ l' = Returned (forallb run A) ∧ base q' (<[i := sig_of l']> S) []) ∨
   (∀ r, l' ≠ Returned r) ∧ base q' (<[i := sig_of l']> S) A ∧ (queue q = [] → queue q' = []) ∧ (l' = Waiting → m = true → queue q' = [] ∧ nTodo q' ≠ 0) ∧
   (note = true ∨ nTodo q' = nTodo q ∨ m = true ∨ nTodo q' ≠ 0)).
Proof using Type.
  intros HB Ei Hcnt E. assert (i < length S)%nat as Hlt by (by eapply lookup_lt_Some). destruct l as [|n ok| | |n [|c cs] ok|r]; cbn [thread_step] in E; try done.
  - pose proof (clean_base q S A i n ok m HB Ei) as HC. destruct (clean_up m n ok q) as [q1 note1]. destruct HC as (HB1 & Hq1 & Ht1 & Hn1).
    pose proof (inner_base q1 _ A i m HB1 ltac:(by rewrite list_lookup_insert_eq)) as HI. destruct (inner_loop m q1) as [q2 l2]. injection E as <- <- <-. rewrite !list_insert_insert_eq in HI.
    destruct HI as (Ht2 & Hc2 & HI). split_and!; [done|intros ->; by rewrite Hn1, andb_false_r|]. destruct HI as [HI|(HB2 & Hq2 & HI)]; [by left|right]. split_and!.
    + destruct HI as [(-> & _)|(? & ? & ? & ->)]; done.
    + done.
    + rewrite <- Hq1. done.
    + intros ->. destruct HI as [(_ & Hq & Hm)|(? & ? & ? & [=])]. intros ->. rewrite Ht2. auto.
    + rewrite Hn1, Ht2. destruct (Z.eqb_spec n 0) as [->|]; [right; left; lia|]. destruct (Z.eqb_spec (nTodo q1) 0); [|auto]. destruct m; auto.
  - pose proof (inner_base (wake_up q) _ A i m (wake_base q S A i HB Ei) ltac:(by rewrite list_lookup_insert_eq)) as HI. destruct (inner_loop m (wake_up q)) as [q2 l2]. injection E as <- <- <-.
    rewrite !list_insert_insert_eq in HI. destruct HI as (Ht2 & Hc2 & HI). split_and!; [done|done|]. destruct HI as [HI|(HB2 & Hq2 & HI)]; [by left|right]. split_and!.
    + destruct HI as [(-> & _)|(? & ? & ? & ->)]; done.
    + done.
    + done.
    + intros ->. destruct HI as [(_ & Hq & Hm)|(? & ? & ? & [=])]. intros ->. rewrite Ht2. auto.
    + right. left. done.
  - injection E as <- <- <-. assert (sig_of (Lock n ok) = sig_of (Work n [] ok)) as Hs.
    { unfold counted in Hcnt. cbn in *. destruct (n =? 0); [done|]. done. }
    rewrite Hs. split_and!; [done|done|]. right. rewrite list_insert_id by done. split_and!; try done; auto.
  - injection E as <- <- <-. split_and!; [done|done|]. right. split_and!; try done; [|auto].
    assert (good (sig_of (Work n (c :: cs) ok))) as (Hn & _ & _ & Hr & Hok) by (destruct HB as [_ _ _ H4 _ _ _ _ _]; rewrite Forall_lookup in H4; by eapply H4). cbn in Hn, Hr, Hok.
    apply (base_replace q S A i (sig_of (Work n (c :: cs) ok)) q _ [c]); try done; cbn.
    + repeat split; cbn; lia.
    + rewrite (Permutation_app_comm cs [c]). done.
    + intros Ha. destruct ok; [|done]. intros Hr'. split_and!; [done|done|by repeat constructor].
    + intros [?|?]; [by left|]. destruct ok; [|auto]. right. right. by constructor.
Qed.

Definition master_ok (q : CCheckQueue) (l : local) (F : list T) : Prop :=
  match l with Waiting => queue q = [] ∧ 0 < nTodo q | Returned r => r = forallb run F | _ => True end.
Record inv (m : machine) : Prop := {
  iv_base : base (shared m) (map sig_of (threads m)) (added m);
  iv_counted : Forall counted (map sig_of (threads m));
  iv_master : ∃ l, threads m !! 0%nat = Some l ∧ master_ok (shared m) l (finished m) }.
Lemma sig_notify l : sig_of (notify l) = sig_of l.
Proof using Type. by destruct l. Qed.
Lemma sigs_notify_master ls : map sig_of (notify_master ls) = map sig_of ls.
Proof using Type. destruct ls as [|l ls]; [done|]. cbn. by rewrite sig_notify. Qed.
Lemma sigs_notify_workers ls : map sig_of (notify_workers ls) = map sig_of ls.
Proof using Type. destruct ls as [|l ls]; [done|]. cbn. f_equal. rewrite map_map. apply map_ext. apply sig_notify. Qed.
Lemma sigs_insert ls i l l' : ls !! i = Some l → sig_of l' = sig_of l → map sig_of (<[i := l']> ls) = map sig_of ls.
Proof using Type. intros E H. rewrite list_fmap_insert, H. apply list_insert_id. by rewrite list_lookup_fmap, E. Qed.
Lemma master_insert i (l' : local) (ls : list local) (l0 : local) : i ≠ 0%nat → ls !! 0%nat = Some l0 → <[i := l']> ls !! 0%nat = Some l0.
Proof using Type. intros Hi E. by rewrite list_lookup_insert_ne. Qed.
Lemma internal_inv i m m' : inv m → internal i m = Some m' → inv m'.
Proof using Type.
  intros [HB HC (l0 & E0 & H0)] E. unfold internal in E. destruct (threads m !! i) as [l|] eqn:El; [|done]. cbn [mbind option_bind] in E.
  destruct (thread_step (i =? 0)%nat (shared m) l) as [[[q l'] note]|] eqn:Et; [|done]. cbn [mbind option_bind] in E.
  assert (map sig_of (threads m) !! i = Some (sig_of l)) as Es by (by rewrite list_lookup_fmap, El). assert (counted (sig_of l)) as Hcl by (rewrite Forall_lookup in HC; by eapply HC).
  destruct (thread_step_base _ _ _ i _ l q l' note HB Es Hcl Et) as (Hc' & Hn & Hcase). set (ls := if note then _ else _) in E.
  assert (map sig_of ls = <[i := sig_of l']> (map sig_of (threads m))) as Hls by (unfold ls; destruct note; rewrite ?sigs_notify_master; apply list_fmap_insert).
  assert (Forall counted (map sig_of ls)) as HC' by (rewrite Hls; by apply Forall_insert). assert (i < length (threads m))%nat as Hlt by (by eapply lookup_lt_Some). destruct i as [|i].
  - assert (l0 = l) as -> by congruence. cbn [Nat.eqb] in *. assert (note = false) as -> by (by apply Hn). unfold ls in *. assert (<[0%nat := l']> (threads m) !! 0%nat = Some l') as E0' by (by rewrite list_lookup_insert_eq).
    destruct Hcase as [(_ & -> & HB')|(Hr & HB' & _ & Hw & _)].
    + injection E as <-. split; cbn [shared threads added finished]; [by rewrite Hls|done|]. eexists. split; [exact E0'|done].
    + assert (m' = mkMachine q (<[0%nat := l']> (threads m)) (added m) (finished m)) as -> by (destruct l'; try (by injection E); by destruct (Hr fRet)).
      split; cbn [shared threads added finished]; [by rewrite Hls|done|]. exists l'. split; [done|]. destruct l'; try done; [|by destruct (Hr fRet)]. destruct (Hw eq_refl eq_refl) as [Hq Ht].
      split; [done|]. destruct (thread_bounds _ _ _ HB') as (_ & _ & Hb). rewrite Hq in Hb. cbn in Hb. lia.
  - destruct Hcase as [([=] & _)|(Hr & HB' & Hq & _ & Hnt)]. injection E as <-. split; cbn [shared threads added finished]; [by rewrite Hls|done|].
    exists (if note then notify l0 else l0). split.
    { unfold ls. pose proof (master_insert (S i) l' _ _ ltac:(done) E0) as Em. destruct note; [|done]. destruct (<[S i := l']> (threads m)) as [|x ls']; [done|]. cbn in *. by injection Em as ->. }
    destruct l0; destruct note; try done. destruct H0 as [Hq0 Ht0]. cbn. specialize (Hq Hq0). split; [done|]. destruct (thread_bounds _ _ _ HB') as (_ & _ & Hb). rewrite Hq in Hb. cbn in Hb.
    destruct Hnt as [[=]|[?|[[=]|?]]]; lia.
Qed.

Lemma inv_sigs m ls : inv m → map sig_of ls = map sig_of (threads m) → (∃ l, ls !! 0%nat = Some l ∧ master_ok (shared m) l (finished m)) →
  inv (mkMachine (shared m) ls (added m) (finished m)).
Proof using Type. intros [HB HC _] Hs Hm. split; cbn [shared threads added finished]; rewrite ?Hs; done. Qed.
Lemma Add_base q S A l : base q S A → Z.of_nat (length (A ++ l)) < 2 ^ 32 → base (Add q l) S (A ++ l).
Proof using Type.
  intros HB Hl. destruct (thread_bounds q S A HB) as (_ & _ & Hb). destruct HB as [H1 H2 H3 H4 H5 H6 H7 (checked & Hp & Hc) Hf]. rewrite length_app in Hl.
  assert (u32 (nTodo q + Z.of_nat (length l)) = nTodo q + Z.of_nat (length l)) as Hu by (apply u32_small; lia).
  split; cbn [Add nTodo queue nIdle nTotal fQuit fAllOk]; rewrite ?Hu, ?length_app; try done; try lia.
  - exists checked. split; [|done]. rewrite Hp. solve_Permutation.
  - intros Hbad. apply Exists_app. left. by apply Hf.
Qed.
Lemma start_base q S A : base q S A → Z.of_nat (length S) < 2 ^ 30 → base q (S ++ [mkSig 0 0 0 [] true]) A.
Proof using Type.
  intros [H1 H2 H3 H4 H5 H6 H7 (checked & Hp & Hc) Hf] Hl. split; try done; rewrite ?total_app, ?length_app; cbn; try lia.
  - apply Forall_app. split; [done|]. constructor; [|done]. repeat split; cbn; lia.
  - exists checked. rewrite map_app, concat_app. cbn. rewrite app_nil_r. split; [done|]. intros Ha [HS _]%Forall_app. by apply Hc.
  - intros [?|[?|He]%Exists_app]; [apply Hf; by left|apply Hf; by right|]. apply Exists_cons in He as [[=]|He]. by apply Exists_nil in He.
Qed.
Lemma queue_step_inv m m' : inv m → step m m' → inv m'.
Proof using Type.
  intros HI Hs. pose proof HI as [HB HC (l0 & E0 & H0)]. destruct Hs as [m vChecks ls Em Hlen H1 Hn|m Em|m fRet Em|m Hl|i m m' E|i m Em].
  - assert (map sig_of ls = map sig_of (threads m) ∧ ls !! 0%nat = Some Outside) as [Hls Hm].
    { destruct (decide (length vChecks = 1%nat)) as [He|He].
      - destruct (H1 He) as [[-> _]|(i & Hi & Ei & ->)]; [done|]. split; [by apply (sigs_insert _ _ _ _ Ei)|]. apply master_insert; [lia|done].
      - rewrite (Hn He). destruct (1 <? _)%nat; [|done]. split; [apply sigs_notify_workers|]. by destruct (threads m). }
    split; cbn [shared threads added finished]; rewrite ?Hls; [by apply Add_base|done|]. by exists Outside.
  - apply inv_sigs; [done|by apply (sigs_insert _ _ _ _ Em)|]. exists (Lock 0 true). by rewrite list_lookup_insert_eq by (by eapply lookup_lt_Some).
  - apply inv_sigs; [done|by apply (sigs_insert _ _ _ _ Em)|]. exists Outside. by rewrite list_lookup_insert_eq by (by eapply lookup_lt_Some).
  - split; cbn [shared threads added finished]; rewrite ?map_app; [apply start_base; [done|by rewrite length_map]|apply Forall_app; split; [done|by repeat constructor]|].
    exists l0. split; [by apply lookup_app_l_Some|done].
  - by eapply internal_inv.
  - apply inv_sigs; [done|by apply (sigs_insert _ _ _ _ Em)|]. destruct i as [|i].
    + exists Notified. by rewrite list_lookup_insert_eq by (by eapply lookup_lt_Some).
    + exists l0. split; [by apply master_insert|done].
Qed.
Lemma queue_init_inv b : inv (machine_init b).
Proof using Type.
  split; [|by repeat constructor|by exists Outside]. split; cbn; try done; [constructor; [repeat split; cbn; lia|constructor]|by exists []|].
  intros [[=]|He]. apply Exists_cons in He as [[=]|He]. by apply Exists_nil in He.
Qed.
Lemma reach_inv b m : rtc step (machine_init b) m → inv m.
Proof using Type.
  intros Hr. remember (machine_init b) as m0 eqn:E. assert (inv m0) as Hi by (subst; apply queue_init_inv). clear E. induction Hr as [m|m0 m1 m2 Hs _ IH]; [done|]. apply IH. by eapply queue_step_inv.
Qed.

(** ** The end of the wait *)
Definition weight (l : local) : nat :=
  match l with Outside | Waiting | Returned _ => 0 | Notified => 2 | Lock _ _ => 3 | Work _ vChecks _ => 4 + length vChecks end.
Definition weights (ls : list local) : nat := foldr (λ l n, weight l + n)%nat 0%nat ls.
Definition potential (m : machine) : nat := (8 * length (queue (shared m)) + weights (threads m))%nat.
Lemma weights_insert ls i l l' : ls !! i = Some l → (weights (<[i := l']> ls) + weight l = weights ls + weight l')%nat.
Proof using Type.
  revert i. induction ls as [|x ls IH]; intros [|i] E; [done|done|injection E as ->; cbn; lia|].
  change (<[S i := l']> (x :: ls)) with (x :: <[i := l']> ls). specialize (IH i E). unfold weights in *. cbn [foldr]. lia.
Qed.
Lemma weights_notify ls : (weights (notify_master ls) <= weights ls + 2)%nat.
Proof using Type. destruct ls as [|l ls]; [cbn; lia|]. cbn. destruct l; cbn; lia. Qed.
Lemma inner_weight q S A i m : base q S A → S !! i = Some at_head → let '(q', l) := inner_loop m q in
  (8 * length (queue q') + weight l <= 8 * length (queue q))%nat.
Proof using Type.
  intros HB Ei. unfold inner_loop. destruct (queue q) as [|c cs] eqn:Eq; [destruct (_ && _); cbn; lia|]. pose proof (take_base q S A i HB Ei ltac:(by rewrite Eq)) as HT.
  destruct (take_batch q) as [q' l]. destruct HT as (_ & _ & n & cs' & ok & -> & Hn & Hl & Hcs). rewrite Eq in Hl. cbn [weight length] in *. lia.
Qed.
Lemma thread_step_weight q S A i m l q' l' note : base q S A → S !! i = Some (sig_of l) → thread_step m q l = Some (q', l', note) →
  (8 * length (queue q') + weight l' + (if note then 2 else 0) < 8 * length (queue q) + weight l)%nat.
Proof using Type.
  intros HB Ei E. assert (i < length S)%nat as Hlt by (by eapply lookup_lt_Some). destruct l as [|n ok| | |n [|c cs] ok|r]; cbn [thread_step] in E; try done.
  - pose proof (clean_base q S A i n ok m HB Ei) as HC. destruct (clean_up m n ok q) as [q1 note1]. destruct HC as (HB1 & Hq1 & _).
    pose proof (inner_weight q1 _ A i m HB1 ltac:(by rewrite list_lookup_insert_eq)) as HI. destruct (inner_loop m q1) as [q2 l2]. injection E as <- <- <-. rewrite Hq1 in HI.
    destruct note1; cbn [weight]; lia.
  - pose proof (inner_weight (wake_up q) _ A i m (wake_base q S A i HB Ei) ltac:(by rewrite list_lookup_insert_eq)) as HI. destruct (inner_loop m (wake_up q)) as [q2 l2]. injection E as <- <- <-.
    cbn [weight queue wake_up] in *. lia.
  - injection E as <- <- <-. cbn [weight length]. lia.
  - injection E as <- <- <-. cbn [weight length]. lia.
Qed.
Lemma internal_decreases i m m' : inv m → internal i m = Some m' → (potential m' < potential m)%nat.
Proof using Type.
  intros [HB _ _] E. unfold internal in E. destruct (threads m !! i) as [l|] eqn:El; [|done]. cbn [mbind option_bind] in E.
  destruct (thread_step (i =? 0)%nat (shared m) l) as [[[q l'] note]|] eqn:Et; [|done]. cbn [mbind option_bind] in E.
  assert (map sig_of (threads m) !! i = Some (sig_of l)) as Es by (by rewrite list_lookup_fmap, El). pose proof (thread_step_weight _ _ _ i _ l q l' note HB Es Et) as Hw.
  pose proof (weights_insert (threads m) i l l' El) as Hi. set (ls := if note then _ else _) in E. assert (weights ls <= weights (<[i := l']> (threads m)) + (if note then 2 else 0))%nat as Hls
    by (unfold ls; destruct note; [apply weights_notify|lia]).
  assert (shared m' = q ∧ threads m' = ls) as [Hq Ht] by (destruct i as [|i], l'; by injection E as <-). unfold potential. rewrite Hq, Ht. lia.
Qed.
(** Somebody can go on while the master is in the loop. *)
Lemma internal_progress m l : inv m → threads m !! 0%nat = Some l → l ≠ Outside → (∀ r, l ≠ Returned r) → ∃ i m', internal i m = Some m'.
Proof using Type.
  intros [HB _ (l0 & E0 & H0)] El Ho Hr. assert (l0 = l) as -> by congruence.
  assert (∃ i x, threads m !! i = Some x ∧ thread_step (i =? 0)%nat (shared m) x ≠ None) as (i & x & Ex & Hx).
  { destruct l as [|n ok| | |n cs ok|r]; [done| | | | |by destruct (Hr r)].
    - exists 0%nat, (Lock n ok). split; [done|]. cbn [thread_step]. destruct (clean_up _ _ _ _). by destruct (inner_loop _ _).
    - destruct H0 as [Hq Ht]. destruct HB as [H1 _ _ H4 _ _ _ _ _]. rewrite Hq in H1. cbn in H1.
      assert (∃ i s, map sig_of (threads m) !! i = Some s ∧ 0 < s_now s) as (i & s & Ei & Hn).
      { assert (0 < total s_now (map sig_of (threads m))) as Hpos by lia. clear -Hpos. induction (map sig_of (threads m)) as [|s S IH]; [done|]. unfold total in *. cbn [foldr] in Hpos.
        destruct (decide (0 < s_now s)); [by exists 0%nat, s|]. destruct IH as (i & x & Ei & Hx); [lia|]. by exists (Datatypes.S i), x. }
      rewrite list_lookup_fmap in Ei. destruct (threads m !! i) as [x|] eqn:Ex; [|done]. injection Ei as <-. exists i, x. split; [done|].
      destruct x as [|n ok| | |n [|c cs] ok|r]; cbn in Hn; try lia; cbn [thread_step]; [|done|done]. destruct (clean_up _ _ _ _). by destruct (inner_loop _ _).
    - exists 0%nat, Notified. split; [done|]. cbn [thread_step]. by destruct (inner_loop _ _).
    - exists 0%nat, (Work n cs ok). split; [done|]. by destruct cs. }
  exists i. unfold internal. rewrite Ex. cbn [mbind option_bind]. destruct (thread_step _ _ _) as [[[q l'] note]|]; [|done]. cbn [mbind option_bind]. destruct i, l'; by eexists.
Qed.

(** From the call of [Wait] on: the same checks until the result for them is there. *)
Definition waits_for (A : list T) (m : machine) : Prop :=
  ∃ l, threads m !! 0%nat = Some l ∧ (added m = A ∧ l ≠ Outside ∧ (∀ r, l ≠ Returned r) ∨ finished m = A ∧ ∃ r, l = Returned r).
Lemma inner_loop_local m q q' l : inner_loop m q = (q', l) → l ≠ Outside.
Proof using Type. unfold inner_loop, take_batch. destruct (queue q); [destruct (_ && _)|]; by intros [= _ <-]. Qed.
Lemma thread_step_local m q l q' l' note : thread_step m q l = Some (q', l', note) → l' ≠ Outside ∧ ∀ r, l ≠ Returned r.
Proof using Type.
  destruct l as [|n ok| | |n [|c cs] ok|r]; cbn [thread_step]; try done.
  - destruct (clean_up m n ok q) as [q1 n1]. destruct (inner_loop m q1) as [q2 l2] eqn:E. intros [= _ <- _]. split; [by eapply inner_loop_local|done].
  - destruct (inner_loop m (wake_up q)) as [q2 l2] eqn:E. intros [= _ <- _]. split; [by eapply inner_loop_local|done].
  - by intros [= _ <- _].
  - by intros [= _ <- _].
Qed.
Lemma internal_waits A i m m' : waits_for A m → internal i m = Some m' → waits_for A m'.
Proof using Type.
  intros (l0 & E0 & Hw) E. unfold internal in E. destruct (threads m !! i) as [l|] eqn:El; [|done]. cbn [mbind option_bind] in E.
  destruct (thread_step (i =? 0)%nat (shared m) l) as [[[q l'] note]|] eqn:Et; [|done]. cbn [mbind option_bind] in E. destruct (thread_step_local _ _ _ _ _ _ Et) as [Ho Hr].
  set (ls := if note then _ else _) in E. destruct i as [|i].
  - assert (l0 = l) as -> by congruence. destruct Hw as [(HA & _ & _)|(_ & r & Hl)]; [|by destruct (Hr r)].
    assert (∃ x, ls !! 0%nat = Some x ∧ (x = l' ∨ x = notify l')) as (x & Ex & Hx).
    { unfold ls. destruct (threads m) as [|y ys]; [done|]. change (<[0%nat := l']> (y :: ys)) with (l' :: ys). destruct note; eexists; (split; [done|]); auto. }
    exists x. assert (threads m' = ls) as -> by (destruct l'; by injection E as <-). split; [done|].
    destruct l'; injection E as <-; cbn [added finished]; destruct Hx as [-> | ->]; cbn [notify]; solve [done|left; split_and!; done|right; eauto].
  - assert (m' = mkMachine q ls (added m) (finished m)) as -> by (destruct l'; by injection E as <-). exists (if note then notify l0 else l0). cbn [threads added finished]. split.
    { unfold ls. pose proof (master_insert (S i) l' _ _ ltac:(done) E0) as Em. destruct note; [|done]. destruct (<[S i := l']> (threads m)) as [|x ls']; [done|]. cbn in *. by injection Em as ->. }
    destruct Hw as [(HA & H1 & H2)|(HF & r & ->)]; [left|right; split; [done|]; exists r; by destruct note]. split_and!; [done|by destruct note, l0|]. intros r. destruct note; [|done]. by destruct l0.
Qed.
Lemma internal_run n m m' : inv m → nsteps (λ a c, ∃ i, internal i a = Some c) n m m' → inv m' ∧ (n + potential m' <= potential m)%nat ∧ ∀ A, waits_for A m → waits_for A m'.
Proof using Type.
  intros HI Hn. induction Hn as [m|n m m1 m2 (i & E) _ IH]; [split_and!; [done|lia|done]|].
  destruct IH as (HI2 & Hp & Hw); [by eapply internal_inv|]. pose proof (internal_decreases i m m1 HI E). split_and!; [done|lia|]. intros A HA. apply Hw. by eapply internal_waits.
Qed.

(** ** The answer for a list of checks *)
(** Some run of the machine ends with the result [r] for the checks [A]. *)
Definition answered (A : list T) (r : bool) : Prop := ∃ b m, rtc step (machine_init b) m ∧ threads m !! 0%nat = Some (Returned r) ∧ finished m = A.
Lemma answered_unique A r : answered A r → r = forallb run A.
Proof using Type. intros (b & m & Hr & El & <-). destruct (reach_inv b m Hr) as [_ _ (l & El' & Hm)]. assert (l = Returned r) as -> by congruence. exact Hm. Qed.
Lemma wait_ends k : ∀ m A, (potential m <= k)%nat → inv m → waits_for A m → ∃ m' r, rtc step m m' ∧ threads m' !! 0%nat = Some (Returned r) ∧ finished m' = A.
Proof using Type.
  induction k as [|k IH]; intros m A Hk HI HW; pose proof HW as (l & El & [(HA & Ho & Hr)|(HF & r & ->)]).
  1, 3: destruct (internal_progress m l HI El Ho Hr) as (i & m1 & E); pose proof (internal_decreases i m m1 HI E).
  - lia.
  - destruct (IH m1 A) as (m' & r & Hs & H1 & H2); [lia|by eapply internal_inv|by eapply internal_waits|]. exists m', r. split_and!; [|done|done]. eapply rtc_l; [|exact Hs]. by eapply step_internal.
  - exists m, r. split_and!; [apply rtc_refl|done|done].
  - exists m, r. split_and!; [apply rtc_refl|done|done].
Qed.
Lemma answered_exists A : Z.of_nat (length A) < 2 ^ 32 → answered A (forallb run A).
Proof using Type.
  intros HA. set (m0 := machine_init 1). set (m1 := mkMachine (Add (shared m0) A) [Outside] A []). set (m2 := mkMachine (shared m1) [Lock 0 true] A []).
  assert (step m0 m1) as H1 by (apply (step_add m0 A [Outside]); [done|done|intros _; left; split; [done|exact (List.Forall_nil _)]|intros _; change (threads m0) with [Outside]; by destruct (1 <? length A)%nat]).
  assert (step m1 m2) as H2 by (by apply (step_wait m1)). assert (rtc step m0 m2) as Hr by (eapply rtc_l; [exact H1|by eapply rtc_once]).
  destruct (wait_ends (potential m2) m2 A) as (m' & r & Hs & El & HF); [done|by apply (reach_inv 1)|exists (Lock 0 true); split; [done|]; left; done|].
  assert (answered A r) as Ha by (exists 1, m'; split_and!; [by etransitivity|done|done]). by rewrite <- (answered_unique A r Ha).
Qed.
End queue.

(** ** Properties *)
(** C8. The result of parallel verification.  However the critical sections and the checks of the master and
    of any number of workers interleave, with waits that end by themselves too: when [Wait] returns, its
    result is the conjunction of all the checks that were added since the last one; and a controller made
    for a queue without pending checks finds it idle, so that its assertion holds. *)
Theorem check_queue_correct {T} (run : T → bool) nBatchSizeIn m : rtc (step run) (machine_init nBatchSizeIn) m →
  (∀ r, threads m !! 0%nat = Some (Returned r) → r = forallb run (finished m)) ∧
  (added m = [] → CCheckQueueControl (Some (shared m)) = Some false) ∧
  nTodo (shared m) = Z.of_nat (length (queue (shared m))) + total s_now (map sig_of (threads m)).
Proof.
  intros Hr. pose proof (reach_inv run nBatchSizeIn m Hr) as [HB HC (l & El & Hm)]. split_and!.
  - intros r Er. assert (l = Returned r) as -> by congruence. exact Hm.
  - intros Ha. cbn. destruct (thread_bounds run _ _ _ HB) as (_ & _ & Hb). pose proof HB as [_ H2 H3 _ H5 _ _ _ _]. rewrite Ha in H5. cbn in H5.
    assert (nTodo (shared m) = 0) as Ht by lia. assert (queue (shared m) = []) as Hq by (destruct (queue (shared m)); [done|cbn in Hb; lia]).
    destruct (nothing_left run _ _ _ HB Hq Ht) as [HS Hok]. rewrite Ha in Hok. unfold IsIdle. rewrite Hok, Ht, H2, H3. cbn [forallb andb].
    assert (total s_active (map sig_of (threads m)) = total s_idle (map sig_of (threads m))) as ->; [|by rewrite Z.eqb_refl].
    clear -HS HC. induction HC as [|s S Hs _ IH]; [done|]. apply Forall_cons_iff in HS as [(Hn & _) HS]. unfold total in *. cbn [foldr]. unfold counted in Hs. rewrite Hn in Hs. cbn in Hs. rewrite IH by done. lia.
  - apply HB.
Qed.

(** C7. The wait ends.  In every reachable state in which the master is in [Wait], the threads can only take a bounded
    number of steps by themselves, in any order and without waits that end by themselves; and when
    none can take another one, the master has the result, which is the conjunction of the checks: no
    notification is lost, and no thread waits for one that never comes. *)
Theorem check_queue_live {T} (run : T → bool) nBatchSizeIn m l n m' : rtc (step run) (machine_init nBatchSizeIn) m →
  threads m !! 0%nat = Some l → l ≠ Outside → (∀ r, l ≠ Returned r) → nsteps (λ a c, ∃ i, internal run i a = Some c) n m m' →
  (n <= potential m)%nat ∧ ((∀ i, internal run i m' = None) → threads m' !! 0%nat = Some (Returned (forallb run (added m)))).
Proof.
  intros Hr El Ho Hret Hn. pose proof (reach_inv run nBatchSizeIn m Hr) as HI. destruct (internal_run run n m m' HI Hn) as (HI' & Hp & Hw).
  split; [lia|]. intros Hstuck. destruct (Hw (added m)) as (l' & El' & Hl'); [exists l; split; [done|by left]|]. destruct Hl' as [(_ & Ho' & Hr')|(HF & r & ->)].
  - destruct (internal_progress run m' l' HI' El' Ho' Hr') as (i & m2 & E). by rewrite (Hstuck i) in E.
  - destruct HI' as [_ _ (l2 & E2 & Hm)]. assert (l2 = Returned r) as -> by congruence. cbn in Hm. by rewrite El', Hm, HF.
Qed.

(** ** Two workers, four checks of which one fails *)
Definition run_schedule {T} (run : T → bool) (js : list nat) (m : machine) : option machine := foldl (λ m i, m ← m; internal run i m) (Some m) js.
Lemma run_schedule_steps {T} (run : T → bool) js : ∀ m m', run_schedule run js m = Some m' → nsteps (λ a c, ∃ i, internal run i a = Some c) (length js) m m'.
Proof.
  unfold run_schedule. induction js as [|i js IH]; intros m m'; cbn [foldl length]; [intros [= ->]; constructor|]. cbn [mbind option_bind].
  destruct (internal run i m) as [m1|] eqn:E; [|intros Hn; exfalso; revert Hn; clear; induction js as [|j js IH]; [done|exact IH]].
  intros Hr. econstructor; [by exists i|by apply IH].
Qed.
Lemma internal_steps {T} (run : T → bool) n m m' : nsteps (λ a c, ∃ i, internal run i a = Some c) n m m' → rtc (step run) m m'.
Proof. induction 1 as [m|n m m1 m2 (i & E) _ IH]; [constructor|]. econstructor; [by eapply step_internal|done]. Qed.
Definition nonzero (z : Z) : bool := negb (z =? 0).
Definition started : @machine Z := mkMachine (CCheckQueue_new 128) [Outside; Lock 0 true; Lock 0 true] [] [].
Definition idle : @machine Z := default started (run_schedule nonzero [1; 2]%nat started).
Definition filled : @machine Z := mkMachine (Add (shared idle) [1; 2; 0; 3]) (notify_workers (threads idle)) [1; 2; 0; 3] [].
Definition waiting : @machine Z := mkMachine (shared filled) (<[0%nat := Lock 0 true]> (threads filled)) [1; 2; 0; 3] [].
Definition sample_schedule : list nat := [2; 1; 0; 2; 1; 0; 2; 1; 0; 2; 1; 0; 2; 2; 2; 0]%nat.
Definition answered_machine : @machine Z := default waiting (run_schedule nonzero sample_schedule waiting).
Lemma idle_reached : rtc (step nonzero) (machine_init 128) idle.
Proof.
  eapply rtc_l; [apply step_start; cbn; lia|]. eapply rtc_l; [apply step_start; cbn; lia|].
  eapply internal_steps, (run_schedule_steps nonzero [1; 2]%nat). vm_compute. reflexivity.
Qed.
Lemma waiting_reached : rtc (step nonzero) (machine_init 128) waiting.
Proof.
  etransitivity; [exact idle_reached|]. eapply rtc_l; [|apply rtc_once; exact (step_wait nonzero filled eq_refl)].
  exact (step_add nonzero idle [1; 2; 0; 3] (notify_workers (threads idle)) eq_refl eq_refl ltac:(discriminate) (λ _, eq_refl)).
Qed.
Lemma answered_steps : nsteps (λ a c, ∃ i, internal nonzero i a = Some c) 16 waiting answered_machine.
Proof. apply (run_schedule_steps nonzero sample_schedule). vm_compute. reflexivity. Qed.
Lemma check_queue_correct_witness : rtc (step nonzero) (machine_init 128) answered_machine ∧ forallb nonzero [1; 2; 0; 3] = false.
Proof.
  assert (rtc (step nonzero) (machine_init 128) answered_machine) as Hr by (etransitivity; [exact waiting_reached|exact (internal_steps _ _ _ _ answered_steps)]).
  split; [exact Hr|]. symmetry. exact (proj1 (check_queue_correct nonzero 128 answered_machine Hr) false ltac:(vm_compute; reflexivity)).
Defined.
Lemma check_queue_live_witness : (16 <= potential waiting)%nat.
Proof.
  exact (proj1 (check_queue_live nonzero 128 waiting (Lock 0 true) 16 answered_machine waiting_reached eq_refl ltac:(discriminate) ltac:(discriminate) answered_steps)).
Defined.
End CheckQueue.
