(* ===== verification/Stake.v ===== *)
(** * Stake: the kernel of a proof of stake ([pos.cpp])

    The stake modifier, the test of a kernel hash against the weighted target, the check of a
    coinstake by the validator and the search for a kernel by the staker with its cache.  Where a
    transaction was found ([GetTransaction] of [main.cpp], which reads the memory pool and the
    disk) is a parameter.  The theorems give the meaning of the kernel test and show that the
    validator accepts exactly what the staker finds, once the signature is right. *)
From Stdlib Require Import String.
From S2P Require Import Prelude ArithUint256 Serialize Uint256 Script Transaction Interpreter InterpreterSafety Compressor Coins CoinsView BlockCoins Chain VersionBits Bignum Pow HeaderCheck.
Open Scope Z_scope.
Open Scope list_scope.

Module Stake.
Import Serialize Transaction Interpreter Compressor Coins BlockCoins Chain Pow HeaderCheck.
Notation WIDTH256 := ArithUint256.WIDTH256.
Notation val := ArithUint256.val.

#[export] Program Instance COutPoint_countable : Countable COutPoint := inj_countable' (λ p, (ophash p, opn p)) (λ p, mkOutPoint p.1 p.2) _.
Next Obligation. by intros []. Qed.

Definition SCRIPT_VERIFY_NONE : Z := 0.

Section stake.
Context `{Crypto} (params : Params).

Definition ComputeStakeModifier (pindexPrev : option (list Z)) (kernel : list Z) : list Z :=
  match pindexPrev with
  | None => Uint256.blob_null 32
  | Some nStakeModifier => Hash256 (Serialize_uint256 kernel ++ Serialize_uint256 nStakeModifier)
  end.

(** What is hashed for a kernel. *)
Definition kernel_bytes (nStakeModifier : list Z) (nBlockTime : Z) (prevout : COutPoint) (nTimeTx : Z) : list Z :=
  Serialize_uint256 nStakeModifier ++ ser_writedata32 nBlockTime ++ Serialize_uint256 (ophash prevout) ++ ser_writedata32 (opn prevout) ++ ser_writedata32 nTimeTx.
(** [None] is an output that does not exist. *)
Definition CheckStakeKernelHash (nStakeModifier : list Z) (nBits nBlockTime : Z) (txPrev : CCoins) (prevout : COutPoint) (nTimeTx : Z) : option bool :=
  if (nTimeTx <? nBlockTime) && negb (c_nHeight txPrev <=? nLastPOWBlock params) then Some false
  else
    let '(bnTarget, _, _) := ArithUint256.SetCompact nBits in
    o ← c_vout txPrev !! Z.to_nat (opn prevout);
    let nValueIn := nValue o in
    if nValueIn =? 0 then Some false
    else
      let bnWeight := ArithUint256.base_uint_of_uint64 WIDTH256 (u64 nValueIn) in
      let bnTarget := ArithUint256.op_mul WIDTH256 bnTarget bnWeight in
      let hashProofOfStake := Hash256 (kernel_bytes nStakeModifier nBlockTime prevout nTimeTx) in
      Some (negb (0 <? ArithUint256.CompareTo WIDTH256 (ArithUint256.UintToArith256 hashProofOfStake) bnTarget)).

(** The witness is that of the input, which nothing sets. [None] is an exception or the failed assertion. *)
Definition VerifySignature (txFrom txTo : CMutableTransaction) (nIn : nat) (flags : Z) : option bool :=
  txin ← vin txTo !! nIn;
  match vout txFrom !! Z.to_nat (opn (prevout txin)) with
  | None => Some false
  | Some txout =>
      h ← GetHash Hash256 txFrom;
      if negb (bool_decide (ophash (prevout txin) = h)) then Some false
      else match VerifyScript flags (TransactionSignatureChecker txTo nIn 0 None) (scriptSig txin) (scriptPubKey txout) [] with
           | inr _ => Some true
           | inl (Err _) => Some false
           | inl _ => None
           end
  end.

(** What [GetTransaction] of [main.cpp] finds at the moment, in the memory pool or in the blocks on disk: a transaction with the hash of its block. *)
Context (GetTransaction : list Z → option (CMutableTransaction * list Z)).
(** The block index with the modifier of each entry. *)
Context (st : index_state) (nStakeModifier : ptr → list Z) (fDebug : bool).

(** The block of a transaction lies deep enough below the next block; [inl] is a transaction that was not found in a block. *)
Definition prev_depth (prev : CBlockIndex) (hashBlock : list Z) : option (option Z) :=
  match mapBlockIndex st !! hashBlock with
  | None => Some None
  | Some p => b ← blocks st !! p; Some (Some (nHeight prev + 1 - nHeight b))
  end.
Definition CheckProofOfStake (pindexPrev : ptr) (tx : CMutableTransaction) (nBlockTime nBits : Z) (state : CValidationState) : option (CValidationState * bool) :=
  if negb (IsCoinStake tx) then Some (state, false)
  else
    txin ← vin tx !! 0%nat;
    match GetTransaction (ophash (prevout txin)) with
    | None => Some (DoS 100 false 0 "" false state)
    | Some (txPrev, hashBlock) =>
        prev ← blocks st !! pindexPrev;
        depth ← prev_depth prev hashBlock;
        match depth with
        | None => Some (if fDebug then DoS 100 false 0 "" false state else (state, false))
        | Some depth =>
            h ← GetHash Hash256 txPrev;
            if negb (bool_decide (ophash (prevout txin) = h)) then Some (DoS 100 false 0 "" false state)
            else
              ok ← VerifySignature txPrev tx 0 SCRIPT_VERIFY_NONE;
              if negb ok then Some (DoS 100 false 0 "" false state)
              else if depth <? COINBASE_MATURITY then Some (DoS 100 false 0 "" false state)
              else
                ok ← CheckStakeKernelHash (nStakeModifier pindexPrev) nBits (GetBlockTime prev) (FromTx txPrev (nHeight prev)) (prevout txin) nBlockTime;
                Some (if negb ok then DoS 1 false 0 "" false state else (state, true))
        end
    end.

(** ** The staker *)
Record CStakeCache := mkStakeCache { sc_hashBlock : list Z; sc_txPrev : CMutableTransaction }.
Notation stake_cache := (gmap COutPoint CStakeCache).
Definition CheckKernel (pindexPrev : ptr) (nBits nTime : Z) (prevout : COutPoint) (cache : stake_cache) : option bool :=
  prev ← blocks st !! pindexPrev;
  match cache !! prevout with
  | None =>
      match GetTransaction (ophash prevout) with
      | None => Some false
      | Some (txPrev, hashBlock) =>
          depth ← prev_depth prev hashBlock;
          match depth with
          | None => Some false
          | Some depth =>
              if depth <? COINBASE_MATURITY then Some false
              else CheckStakeKernelHash (nStakeModifier pindexPrev) nBits (GetBlockTime prev) (FromTx txPrev (nHeight prev)) prevout nTime
          end
      end
  | Some stake => CheckStakeKernelHash (nStakeModifier pindexPrev) nBits (GetBlockTime prev) (FromTx (sc_txPrev stake) (nHeight prev)) prevout nTime
  end.
Definition CacheKernel (cache : stake_cache) (prevout : COutPoint) (pindexPrev : ptr) : option stake_cache :=
  match cache !! prevout with
  | Some _ => Some cache
  | None =>
      match GetTransaction (ophash prevout) with
      | None => Some cache
      | Some (txPrev, hashBlock) =>
          prev ← blocks st !! pindexPrev;
          depth ← prev_depth prev hashBlock;
          match depth with
          | None => Some cache
          | Some depth => if depth <? COINBASE_MATURITY then Some cache else Some (<[prevout := mkStakeCache hashBlock txPrev]> cache)
          end
      end
  end.
End stake.

(** ** The kernel test *)
Section kernel.
Context `{Crypto} (Hsha : ∀ l, List.length (sha256 l) = 32%nat ∧ Radix.digits 256 (sha256 l)) (params : Params).
(** The weighted target of an output: a product of 256 bits. *)
Definition weighted_target (nBits nValueIn : Z) : Z := (ArithUint256.compact_number nBits * nValueIn) mod 2 ^ 256.
Lemma CheckStakeKernelHash_spec m nBits t x p o nTimeTx : 0 <= nBits < 2 ^ 32 → c_vout x !! Z.to_nat (opn p) = Some o → 0 <= nValue o < 2 ^ 63 →
  CheckStakeKernelHash params m nBits t x p nTimeTx =
    Some (negb ((nTimeTx <? t) && (nLastPOWBlock params <? c_nHeight x)) && negb (nValue o =? 0) &&
          (Radix.eval 256 (Hash256 (kernel_bytes m t p nTimeTx)) <=? weighted_target nBits (nValue o))).
Proof using Hsha.
  intros Hb Eo Hv. unfold CheckStakeKernelHash. rewrite Z.leb_antisym, negb_involutive. destruct ((nTimeTx <? t) && _); [done|]. cbn [negb andb].
  destruct (ArithUint256.SetCompact_value nBits Hb) as (v & -> & Hw & Vv). rewrite Eo. cbn [mbind option_bind]. destruct (nValue o =? 0); [done|]. cbn [negb andb]. f_equal.
  destruct (ArithUint256.UintToArith256_spec (Hash256 (kernel_bytes m t p nTimeTx))) as [Hh Vh]; [apply Hsha..|].
  rewrite u64_small by lia. destruct (ArithUint256.op_mul_spec WIDTH256 v (ArithUint256.base_uint_of_uint64 WIDTH256 (nValue o)) Hw) as [Hm Vm]; [apply ArithUint256.wf_of_uint64; unfold WIDTH256; lia|].
  rewrite ArithUint256.CompareTo_spec by done. rewrite Vh, Vm, Vv, ArithUint256.val_of_uint64 by lia. change ((2 ^ 32) ^ Z.of_nat WIDTH256) with (2 ^ 256).
  unfold weighted_target. rewrite Z.mul_mod_idemp_l by lia. rewrite Z.leb_antisym. f_equal. destruct (Z.sgn_spec (Radix.eval 256 (Hash256 (kernel_bytes m t p nTimeTx)) - (ArithUint256.compact_number nBits * nValue o) mod 2 ^ 256)) as [[? ->]|[[? ->]|[? ->]]]; lia.
Qed.

(** C24. The kernel test.  For an output of a value below 2^63 it accepts exactly when the time is not
    below that of the parent (above the last block of the work phase), the value is not zero and the
    hash is at most the weighted target.  While target times value stays below 2^256 the number of
    hashes accepted is proportional to the value, as intended; beyond, the product wraps around: a target
    of 2^240 accepts only the hash zero for an output of 2^16, and none of the larger hashes it
    accepts for an output of one unit. *)
Theorem kernel_weight m nBits t x p o nTimeTx : 0 <= nBits < 2 ^ 32 → c_vout x !! Z.to_nat (opn p) = Some o → 0 <= nValue o < 2 ^ 63 →
  let h := Radix.eval 256 (Hash256 (kernel_bytes m t p nTimeTx)) in
  (CheckStakeKernelHash params m nBits t x p nTimeTx = Some true ↔
     (t <= nTimeTx ∨ c_nHeight x <= nLastPOWBlock params) ∧ nValue o ≠ 0 ∧ h <= weighted_target nBits (nValue o)) ∧
  (CheckStakeKernelHash params m nBits t x p nTimeTx ≠ None) ∧
  (ArithUint256.compact_number nBits * nValue o < 2 ^ 256 → weighted_target nBits (nValue o) = ArithUint256.compact_number nBits * nValue o) ∧
  weighted_target 0x1f010000 1 = 2 ^ 240 ∧ weighted_target 0x1f010000 (2 ^ 16) = 0.
Proof using Hsha.
  intros Hb Eo Hv h. rewrite (CheckStakeKernelHash_spec m nBits t x p o nTimeTx Hb Eo Hv). fold h. split_and!; [|done| |done|done].
  - split.
    + intros [= E]. apply andb_true_iff in E as [[E1%negb_true_iff E2%negb_true_iff]%andb_true_iff E3%Z.leb_le].
      apply andb_false_iff in E1 as [E1%Z.ltb_ge|E1%Z.ltb_ge]; (split_and!; [by auto|lia|done]).
    + intros (Ht & Hz & Hh). f_equal. apply andb_true_iff. split; [|lia]. apply andb_true_iff. split; [|lia]. apply negb_true_iff, andb_false_iff.
      destruct Ht; [left|right]; lia.
  - intros Hs. unfold weighted_target. apply Z.mod_small. split; [|done]. apply Z.mul_nonneg_nonneg; [|lia].
    destruct (Bignum.compact_number_range nBits Hb) as [? _]. lia.
Qed.
End kernel.

(** ** The validator and the staker *)
Section agree.
Context `{Crypto} (params : Params) (GetTransaction : list Z → option (CMutableTransaction * list Z)) (st : index_state) (nStakeModifier : ptr → list Z) (fDebug : bool).
Notation check := (CheckProofOfStake params GetTransaction st nStakeModifier fDebug).
Notation kernel := (CheckKernel params GetTransaction st nStakeModifier).
Notation stake_cache := (gmap COutPoint CStakeCache).

(** What the cache holds was found at the time, deep enough below a block of height [h]. *)
Definition stake_ok (cache : stake_cache) (h : Z) : Prop := ∀ k s, cache !! k = Some s →
  GetTransaction (ophash k) = Some (sc_txPrev s, sc_hashBlock s) ∧
  ∃ p b, mapBlockIndex st !! sc_hashBlock s = Some p ∧ blocks st !! p = Some b ∧ COINBASE_MATURITY <= h + 1 - nHeight b.
Lemma stake_ok_mono cache h h' : stake_ok cache h → h <= h' → stake_ok cache h'.
Proof using Type. intros Hc Hh k s Es. destruct (Hc k s Es) as (Hg & p & b & Ep & Eb & Hd). split; [done|]. exists p, b. split_and!; [done|done|lia]. Qed.
(** A call of [CacheKernel]: the outpoint and the block, and what [GetTransaction] and the index were at the time. *)
Record cache_call := mkCall { call_prevout : COutPoint; call_prev : ptr; call_source : list Z → option (CMutableTransaction * list Z); call_index : index_state }.
Fixpoint cache_kernels (l : list cache_call) (cache : stake_cache) : option stake_cache :=
  match l with [] => Some cache | m :: l => cache ← CacheKernel (call_source m) (call_index m) cache (call_prevout m) (call_prev m); cache_kernels l cache end.
(** The call was made at a block not above height [h]; since then the index has lost no block, and the transaction it found is still found, in the same block. *)
Record call_ok (h : Z) (m : cache_call) : Prop := {
  co_height : ∃ b, blocks (call_index m) !! call_prev m = Some b ∧ nHeight b <= h;
  co_found : call_source m (ophash (call_prevout m)) = GetTransaction (ophash (call_prevout m));
  co_index : ∀ hash q b, mapBlockIndex (call_index m) !! hash = Some q → blocks (call_index m) !! q = Some b →
    ∃ q' b', mapBlockIndex st !! hash = Some q' ∧ blocks st !! q' = Some b' ∧ nHeight b' = nHeight b }.
Lemma CacheKernel_ok cache cache' m h : stake_ok cache h → call_ok h m →
  CacheKernel (call_source m) (call_index m) cache (call_prevout m) (call_prev m) = Some cache' → stake_ok cache' h.
Proof using Type.
  intros Hc [(prev & Ep & Hh) Hg Hi]. unfold CacheKernel. destruct (cache !! _) eqn:Ek; [by intros [= <-]|]. rewrite Hg. destruct (GetTransaction _) as [[tx hb]|] eqn:Eg; [|by intros [= <-]].
  rewrite Ep. cbn [mbind option_bind]. unfold prev_depth. destruct (mapBlockIndex (call_index m) !! hb) as [q|] eqn:Eq; [|by intros [= <-]].
  destruct (blocks (call_index m) !! q) as [b|] eqn:Eb; [|done]. cbn [mbind option_bind]. case_if E; intros [= <-]; [done|].
  intros k' s. rewrite lookup_insert_Some. intros [[<- <-]|[_ Es]]; [|by apply Hc]. split; [done|]. destruct (Hi hb q b Eq Eb) as (q' & b' & Eq' & Eb' & Hb). exists q', b'. cbn [sc_hashBlock]. split_and!; [done|done|lia].
Qed.
Lemma cache_kernels_ok l h : ∀ cache cache', stake_ok cache h → Forall (call_ok h) l → cache_kernels l cache = Some cache' → stake_ok cache' h.
Proof using Type.
  induction l as [|m l IH]; intros cache cache' Hc Hl; cbn [cache_kernels]; [by intros [= <-]|]. apply Forall_cons_iff in Hl as [Hm Hl].
  destruct (CacheKernel _ _ _ _ _) as [c1|] eqn:E; [|done]. cbn [mbind option_bind]. apply IH; [by eapply CacheKernel_ok|done].
Qed.
Lemma CheckKernel_cached cache p prev nBits nTime k : stake_ok cache (nHeight prev) → blocks st !! p = Some prev →
  kernel p nBits nTime k cache = kernel p nBits nTime k ∅.
Proof using Type.
  intros Hc Ep. unfold CheckKernel. rewrite Ep, lookup_empty. cbn [mbind option_bind]. destruct (cache !! k) as [s|] eqn:Es; [|done].
  destruct (Hc k s Es) as (-> & q & b & Eq & Eb & Hd). unfold prev_depth. rewrite Eq, Eb. cbn [mbind option_bind]. by rewrite (proj2 (Z.ltb_ge _ _)) by lia.
Qed.

(** C23. Validator and staker agree.  [CheckProofOfStake] accepts a coinstake exactly when the staker's
    [CheckKernel] accepts its first outpoint, the transaction found has the hash of
    the outpoint and the input is signed for it; it then leaves the validation state alone.  This holds with any cache of the staker that was
    filled by calls of [CacheKernel], at earlier moments and at blocks not above the parent, as long as the transactions found
    then are still found in the same blocks and the index has lost no block since: the cache is transparent then.  Without that it is not, since the code
    does not look again (a reorganisation may move the transaction or lower the parent). *)
Theorem stake_agreement p prev tx txin nTime nBits state l cache : blocks st !! p = Some prev → IsCoinStake tx = true → vin tx !! 0%nat = Some txin →
  Forall (call_ok (nHeight prev)) l → cache_kernels l ∅ = Some cache →
  ((∃ state', check p tx nTime nBits state = Some (state', true)) ↔
     kernel p nBits nTime (prevout txin) cache = Some true ∧
     ∃ txPrev hb, GetTransaction (ophash (prevout txin)) = Some (txPrev, hb) ∧ GetHash Hash256 txPrev = Some (ophash (prevout txin)) ∧
       VerifySignature txPrev tx 0 SCRIPT_VERIFY_NONE = Some true) ∧
  (∀ state', check p tx nTime nBits state = Some (state', true) → state' = state).
Proof using Type.
  intros Ep Hs Ei Hl Hcache. rewrite (CheckKernel_cached cache p prev); [|eapply cache_kernels_ok; [|exact Hl|exact Hcache]; intros k s Ek; by rewrite lookup_empty in Ek|done].
  unfold CheckProofOfStake, CheckKernel. rewrite Hs, Ei, Ep, lookup_empty. cbn [negb mbind option_bind].
  assert (∀ lvl s s', Some (DoS lvl false 0 "" false s) ≠ Some (s', true)) as HD by (intros lvl s s' E; unfold DoS in E; by destruct (mode s)).
  assert (∀ (r : option (CValidationState * bool)) (P : Prop), (∀ s', r ≠ Some (s', true)) → ¬ P →
    ((∃ s', r = Some (s', true)) ↔ P) ∧ ∀ s', r = Some (s', true) → s' = state) as HR by (intros r P Hr HP; split; [split; [intros [s' E]; by destruct (Hr s')|done]|intros s' E; by destruct (Hr s')]).
  destruct (GetTransaction (ophash (prevout txin))) as [[txPrev hb]|]; [|apply HR; [done|by intros [[=] _]]].
  destruct (prev_depth st prev hb) as [[depth|]|]; cbn [mbind option_bind]; [|apply HR; [by destruct fDebug|by intros [[=] _]]..].
  destruct (GetHash Hash256 txPrev) as [h|] eqn:Eh; cbn [mbind option_bind]; [|apply HR; [done|intros (_ & ? & ? & [= <- <-] & E & _); congruence]].
  case_bool_decide as Ehash; cbn [negb]; [|apply HR; [done|intros (_ & ? & ? & [= <- <-] & E & _); congruence]].
  destruct (VerifySignature txPrev tx 0 SCRIPT_VERIFY_NONE) as [[]|] eqn:Ev; cbn [mbind option_bind negb];
    [|apply HR; [done|intros (_ & ? & ? & [= <- <-] & _ & E); congruence]..].
  destruct (depth <? COINBASE_MATURITY); [apply HR; [done|by intros [[=] _]]|].
  destruct (CheckStakeKernelHash _ _ _ _ _ _ _) as [[]|]; cbn [mbind option_bind negb]; [|apply HR; [done|by intros [[=] _]]..].
  split; [|by intros s' [= <-]]. split; [intros _; split; [done|]; exists txPrev, hb; by subst h|by eexists].
Qed.
End agree.

(** ** A stake of an output of block 0 on a parent at height 150 *)
#[local] Existing Instance InterpreterSafety.toy_crypto.
Definition staked_tx : CMutableTransaction := mkTx 1 [mkTxIn COutPoint_SetNull [1; 2] 0xffffffff] [mkTxOut 5 [81] (-10)] [] 0.
Definition sample_stake : CMutableTransaction := mkTx 1 [mkTxIn (mkOutPoint (replicate 32 0) 0) [] 0xffffffff] [mkTxOut 0 [] (-10); mkTxOut 6 [81] (-10)] [] 0.
Definition stake_index : index_state :=
  mkState [mkIndex [5] None None 0 0 0 0 [] 1 1 0 1 [] 0 0 0 0; mkIndex [6] (Some 0%nat) None 150 0 0 0 [] 1 1 0 1 [] 40 0 0 0] {[ [5] := 0%nat ]} None ∅.
Definition stake_source (h : list Z) : option (CMutableTransaction * list Z) := if bool_decide (h = replicate 32 0) then Some (staked_tx, [5]) else None.
Lemma kernel_weight_witness : CheckStakeKernelHash sample_pow_params [] 0x1d00ffff 40 (FromTx staked_tx 7) (mkOutPoint (replicate 32 0) 0) 50 = Some true ∧
  weighted_target 0x1d00ffff 5 = 5 * ArithUint256.compact_number 0x1d00ffff.
Proof.
  assert (∀ l, List.length (sha256 l) = 32%nat ∧ Radix.digits 256 (sha256 l)) as Hs by (intros l; split; [done|simpl; repeat constructor; lia]).
  destruct (kernel_weight Hs sample_pow_params [] 0x1d00ffff 40 (FromTx staked_tx 7) (mkOutPoint (replicate 32 0) 0) (mkTxOut 5 [81] (-10)) 50) as (Hk & _ & Hw & _); [lia|done|cbn; lia|].
  split; [apply Hk; split_and!; [left; lia|done|vm_compute; discriminate]|]. cbn [nValue] in Hw. rewrite Hw by (vm_compute; reflexivity). vm_compute. reflexivity.
Defined.
(** The kernel is cached when only the first two blocks are known; then a third one comes. *)
Definition grown_index : index_state := mkState (blocks stake_index ++ [mkIndex [7] (Some 1%nat) None 151 0 0 0 [] 1 1 0 1 [] 50 0 0 0]) (<[ [7] := 2%nat ]> (mapBlockIndex stake_index)) None ∅.
Definition earlier_call : cache_call := mkCall (mkOutPoint (replicate 32 0) 0) 1 stake_source stake_index.
Lemma stake_agreement_witness : ∃ cache, cache_kernels [earlier_call] ∅ = Some cache ∧
  CheckKernel sample_pow_params stake_source grown_index (λ _, []) 2 0x1d00ffff 50 (mkOutPoint (replicate 32 0) 0) cache = Some true.
Proof.
  destruct (cache_kernels [earlier_call] ∅) as [cache|] eqn:E; [|vm_compute in E; discriminate]. exists cache. split; [done|].
  destruct (stake_agreement sample_pow_params stake_source grown_index (λ _, []) false 2 (mkIndex [7] (Some 1%nat) None 151 0 0 0 [] 1 1 0 1 [] 50 0 0 0) sample_stake
    (mkTxIn (mkOutPoint (replicate 32 0) 0) [] 0xffffffff) 50 0x1d00ffff sample_valid [earlier_call] cache) as [Hk _]; [done|vm_compute; reflexivity|done| |done|].
  - apply Forall_singleton. split; [eexists; split; [reflexivity|cbn; lia]|done|]. intros hash q b Eq Eb. exists q, b. split_and!; [|by apply lookup_app_l_Some|done].
    cbn in Eq |- *. apply lookup_singleton_Some in Eq as [<- <-]. vm_compute. reflexivity.
  - apply Hk. eexists. vm_compute. reflexivity.
Defined.
(** The cache is not looked at again: after a reorganisation to a lower parent, a kernel that is no longer deep enough is still found. *)
Example cached_kernel_premature :
  let st := mkState (blocks stake_index ++ [mkIndex [7] (Some 0%nat) None 60 0 0 0 [] 1 1 0 1 [] 40 0 0 0]) (mapBlockIndex stake_index) None ∅ in
  let k := mkOutPoint (replicate 32 0) 0 in
  (cache ← CacheKernel stake_source st ∅ k 1; CheckKernel sample_pow_params stake_source st (λ _, []) 2 0x1d00ffff 50 k cache) = Some true ∧
  CheckKernel sample_pow_params stake_source st (λ _, []) 2 0x1d00ffff 50 k ∅ = Some false.
Proof. vm_compute. done. Qed.
End Stake.
