(* ===== verification/BlockCheck.v ===== *)
(** * BlockCheck: the rules on transactions and blocks ([main.cpp], [primitives/block.cpp])

    Effects of the validation functions as a small monad: the state they change, an early
    [return] of a boolean, exceptions, and failed assertions.  On it, the rules that do not depend on the
    coins: [CheckTransaction], [CheckBlock], the lock times and sequence locks, the counts of
    signature operations and the block subsidy. *)
From Stdlib Require Import String.
From S2P Require Import Prelude Serialize Uint256 Amount Script Transaction Interpreter Standard InterpreterSafety Merkle Compressor Coins CoinsView BlockCoins CheckInputs Chain VersionBits Bignum Pow HeaderCheck.
Open Scope Z_scope.
Open Scope list_scope.

Module BlockCheck.
Import Transaction Interpreter Standard Compressor Coins CoinsView BlockCoins CheckInputs Chain VersionBits Bignum Pow HeaderCheck.

Record CBlock := mkBlock { GetBlockHeader : CBlockHeader; vtx : list CMutableTransaction; vchBlockSig : list Z }.
Definition block_IsProofOfStake (block : CBlock) : bool :=
  match vtx block !! 1%nat with Some tx => IsCoinStake tx | None => false end.

(** ** The parts of the system that are not modelled *)
(** Zerocoin and sigma, with what they note about the block ([CZerocoinTxInfo], [CSigmaTxInfo]); the payments to noirnodes,
    transaction locks.  [None] for a result is an exception. *)
Class Subsystems := {
  Info : Type;
  make_info : Info;
  Complete : Info → Info;
  CheckSigmaTransaction : CMutableTransaction → bool → Z → bool → Info * CValidationState → Info * CValidationState * option bool;
  CheckZerocoinTransaction : CMutableTransaction → bool → Z → bool → Info * CValidationState → Info * CValidationState * option bool;
  CheckSigmaBlock : CBlock → CValidationState → CValidationState * option bool;
  CheckZerocoinFoundersInputs : CMutableTransaction → Z → bool → CValidationState → CValidationState * option bool;
  ConnectBlockZC : CBlock → ptr → bool → CValidationState → CValidationState * option bool;
  ConnectBlockSigma : CBlock → ptr → bool → CValidationState → CValidationState * option bool;
  GetSigmaSpendInput : CMutableTransaction → option Z;
  (** [SPORK_3_INSTANTSEND_BLOCK_FILTERING], and the transaction that locked an outpoint. *)
  fInstantSend : bool;
  GetLockedOutPointTxHash : COutPoint → option (list Z);
  IsBlockPayeeValid : CMutableTransaction → Z → Z → bool }.

(** ** Effects *)
(** A computation goes on with a value, returns from the function, or throws; [None] is a failed assertion or a bad access. *)
Inductive outcome (A : Type) := go (a : A) | ret (b : bool) | throw.
Arguments go {A} a.
Arguments ret {A} b.
Arguments throw {A}.
(** A script check with what its pointers refer to. *)
Definition job : Type := CMutableTransaction * PrecomputedTransactionData * CScriptCheck.
Section world.
Context {V : Type} `{OpenSSL} `{Subsystems}.
(** The block index with the stake modifiers; the static limits; the deployment caches; the coins; what is noted about the block and whether
    it was checked; the checks handed to the queue; the undo data on disk; and the verdict. *)
Record world := mkWorld {
  w_index : index_state; w_modifiers : gmap ptr (list Z); w_limits : limits; w_deployments : VersionBitsCache; w_view : CCoinsViewCache V;
  w_info : option Info; w_fChecked : bool; w_checks : list job; w_undo : gmap ptr (list (list CTxInUndo)); w_state : CValidationState }.
Definition set_index (w : world) (x : index_state) : world := mkWorld x (w_modifiers w) (w_limits w) (w_deployments w) (w_view w) (w_info w) (w_fChecked w) (w_checks w) (w_undo w) (w_state w).
Definition set_modifier (w : world) (p : ptr) (x : list Z) : world := mkWorld (w_index w) (<[p := x]> (w_modifiers w)) (w_limits w) (w_deployments w) (w_view w) (w_info w) (w_fChecked w) (w_checks w) (w_undo w) (w_state w).
Definition set_limits (w : world) (x : limits) : world := mkWorld (w_index w) (w_modifiers w) x (w_deployments w) (w_view w) (w_info w) (w_fChecked w) (w_checks w) (w_undo w) (w_state w).
Definition set_deployments (w : world) (x : VersionBitsCache) : world := mkWorld (w_index w) (w_modifiers w) (w_limits w) x (w_view w) (w_info w) (w_fChecked w) (w_checks w) (w_undo w) (w_state w).
Definition set_view (w : world) (x : CCoinsViewCache V) : world := mkWorld (w_index w) (w_modifiers w) (w_limits w) (w_deployments w) x (w_info w) (w_fChecked w) (w_checks w) (w_undo w) (w_state w).
Definition set_info (w : world) (x : option Info) : world := mkWorld (w_index w) (w_modifiers w) (w_limits w) (w_deployments w) (w_view w) x (w_fChecked w) (w_checks w) (w_undo w) (w_state w).
Definition set_fChecked (w : world) (x : bool) : world := mkWorld (w_index w) (w_modifiers w) (w_limits w) (w_deployments w) (w_view w) (w_info w) x (w_checks w) (w_undo w) (w_state w).
Definition set_checks (w : world) (x : list job) : world := mkWorld (w_index w) (w_modifiers w) (w_limits w) (w_deployments w) (w_view w) (w_info w) (w_fChecked w) x (w_undo w) (w_state w).
Definition set_undo (w : world) (p : ptr) (x : list (list CTxInUndo)) : world := mkWorld (w_index w) (w_modifiers w) (w_limits w) (w_deployments w) (w_view w) (w_info w) (w_fChecked w) (w_checks w) (<[p := x]> (w_undo w)) (w_state w).
Definition set_state (w : world) (x : CValidationState) : world := mkWorld (w_index w) (w_modifiers w) (w_limits w) (w_deployments w) (w_view w) (w_info w) (w_fChecked w) (w_checks w) (w_undo w) x.

Definition M (A : Type) : Type := world → option (world * outcome A).
#[export] Instance M_ret : MRet M := λ A a w, Some (w, go a).
#[export] Instance M_bind : MBind M := λ A B f m w,
  match m w with
  | Some (w, go a) => f a w
  | Some (w, ret b) => Some (w, ret b)
  | Some (w, throw) => Some (w, throw)
  | None => None
  end.
Definition returns {A} (b : bool) : M A := λ w, Some (w, ret b).
Definition throws {A} : M A := λ w, Some (w, throw).
Definition crash {A} : M A := λ _, None.
(** [return state.DoS(level, false, code, reason, corruption)] *)
Definition fails {A} (level code : Z) (reason : string) (corruption : bool) : M A := λ w,
  let '(s, b) := DoS level false code reason corruption (w_state w) in Some (set_state w s, ret b).
Definition when (c : bool) (m : M unit) : M unit := if c then m else mret tt.
Definition asks {A} (f : world → A) : M A := λ w, Some (w, go (f w)).
Definition or_throw {A} (o : option A) : M A := match o with Some a => mret a | None => throws end.
Definition or_crash {A} (o : option A) : M A := match o with Some a => mret a | None => crash end.
(** The call of a function that ends with a boolean. *)
Definition call (m : M bool) : M bool := λ w, match m w with Some (w, ret b) => Some (w, go b) | r => r end.
(** [catch (...)] followed by [return true]. *)
Definition catch_true (m : M bool) : M bool := λ w, match m w with Some (w, throw) => Some (w, ret true) | r => r end.
(** Operations on parts of the state. *)
Definition on_view {A} (f : CCoinsViewCache V → option (CCoinsViewCache V * A)) : M A := λ w, '(c, a) ← f (w_view w); Some (set_view w c, go a).
Definition on_state (f : CValidationState → CValidationState * option bool) : M bool := λ w,
  let '(s, r) := f (w_state w) in Some (set_state w s, match r with Some b => go b | None => throw end).
Definition on_info (f : Info * CValidationState → Info * CValidationState * option bool) : M bool := λ w,
  let '(i, s, r) := f (default make_info (w_info w), w_state w) in Some (set_state (set_info w (Some i)) s, match r with Some b => go b | None => throw end).
Definition update (f : world → world) : M unit := λ w, Some (f w, go tt).
End world.
Arguments world V {_ _}.
Arguments M V {_ _} A.

(** ** Lock times *)
Definition LOCKTIME_VERIFY_SEQUENCE : Z := 2 ^ 0.
Definition LOCKTIME_MEDIAN_TIME_PAST : Z := 2 ^ 1.
Definition IsFinalTx (tx : CMutableTransaction) (nBlockHeight nBlockTime : Z) : bool :=
  if nLockTime tx =? 0 then true
  else if nLockTime tx <? (if nLockTime tx <? Script.LOCKTIME_THRESHOLD then nBlockHeight else nBlockTime) then true
  else forallb (λ txin, negb (negb (nSequence txin =? SEQUENCE_FINAL))) (vin tx).
(** The loop of [CalculateSequenceLocks]; the heights of inputs without a lock are cleared in the caller's vector, which nobody reads again.
    [None] is a null ancestor. *)
Fixpoint sequence_locks (A : arena) (block : ptr) (vin : list CTxIn) (prevHeights : list Z) (nMinHeight nMinTime : Z) : option (Z * Z) :=
  match vin, prevHeights with
  | txin :: vin, nCoinHeight :: prevHeights =>
      if negb (Z.land (nSequence txin) SEQUENCE_LOCKTIME_DISABLE_FLAG =? 0) then sequence_locks A block vin prevHeights nMinHeight nMinTime
      else
        let lock := Z.land (nSequence txin) SEQUENCE_LOCKTIME_MASK in
        if negb (Z.land (nSequence txin) SEQUENCE_LOCKTIME_TYPE_FLAG =? 0) then
          p ← GetAncestor A block (Z.max (nCoinHeight - 1) 0);
          p ← p;
          nCoinTime ← GetMedianTimePast A p;
          sequence_locks A block vin prevHeights nMinHeight (Z.max nMinTime (nCoinTime + Z.shiftl lock SEQUENCE_LOCKTIME_GRANULARITY - 1))
        else sequence_locks A block vin prevHeights (Z.max nMinHeight (nCoinHeight + lock - 1)) nMinTime
  | _, _ => Some (nMinHeight, nMinTime)
  end.
Definition CalculateSequenceLocks (A : arena) (tx : CMutableTransaction) (flags : Z) (prevHeights : list Z) (block : ptr) : option (Z * Z) :=
  if negb (List.length prevHeights =? List.length (vin tx))%nat then None
  else if negb ((2 <=? u32 (tx_nVersion tx)) && negb (Z.land flags LOCKTIME_VERIFY_SEQUENCE =? 0)) then Some (-1, -1)
  else sequence_locks A block (vin tx) prevHeights (-1) (-1).
Definition EvaluateSequenceLocks (A : arena) (block : ptr) (lockPair : Z * Z) : option bool :=
  b ← A !! block;
  q ← pprev b;
  nBlockTime ← GetMedianTimePast A q;
  Some (negb ((nHeight b <=? lockPair.1) || (nBlockTime <=? lockPair.2))).
Definition SequenceLocks (A : arena) (tx : CMutableTransaction) (flags : Z) (prevHeights : list Z) (block : ptr) : option bool :=
  lockPair ← CalculateSequenceLocks A tx flags prevHeights block; EvaluateSequenceLocks A block lockPair.

(** ** Signature operations *)
Definition GetLegacySigOpCount (tx : CMutableTransaction) : Z :=
  let n := foldl (λ n txin, u32 (n + Script.GetSigOpCount (scriptSig txin) false)) 0 (vin tx) in
  foldl (λ n txout, u32 (n + Script.GetSigOpCount (scriptPubKey txout) false)) n (vout tx).
Section sigops.
Context {V : Type} `{CCoinsView V} `{MemUsage}.
Fixpoint p2sh_sigops (c : CCoinsViewCache V) (vin : list CTxIn) (nSigOps : Z) : option (CCoinsViewCache V * Z) :=
  match vin with
  | [] => Some (c, nSigOps)
  | txin :: vin =>
      '(c, o) ← GetOutputFor c txin;
      p2sh_sigops c vin (if Script.IsPayToScriptHash (scriptPubKey o) then u32 (nSigOps + Script.GetSigOpCount_P2SH (scriptPubKey o) (scriptSig txin)) else nSigOps)
  end.
Definition GetP2SHSigOpCount (c : CCoinsViewCache V) (tx : CMutableTransaction) : option (CCoinsViewCache V * Z) :=
  if no_inputs tx then Some (c, 0) else p2sh_sigops c (vin tx) 0.
Fixpoint witness_sigops (c : CCoinsViewCache V) (flags : Z) (vin : list CTxIn) (wit : CTxWitness) (nSigOps : Z) : option (CCoinsViewCache V * Z) :=
  match vin with
  | [] => Some (c, nSigOps)
  | txin :: vin =>
      '(c, o) ← GetOutputFor c txin;
      n ← CountWitnessSigOps (scriptSig txin) (scriptPubKey o) (default [] (head wit)) flags;
      witness_sigops c flags vin (tail wit) (i64 (nSigOps + n))
  end.
Definition GetTransactionSigOpCost (c : CCoinsViewCache V) (tx : CMutableTransaction) (flags : Z) : option (CCoinsViewCache V * Z) :=
  let nSigOps := u32 (GetLegacySigOpCount tx * WITNESS_SCALE_FACTOR) in
  if no_inputs tx then Some (c, nSigOps)
  else
    '(c, nSigOps) ← (if has flags SCRIPT_VERIFY_P2SH
                     then '(c, n) ← GetP2SHSigOpCount c tx; Some (c, i64 (nSigOps + u32 (n * WITNESS_SCALE_FACTOR)))
                     else Some (c, nSigOps));
    witness_sigops c flags (vin tx) (wit tx) nSigOps.
End sigops.

(** ** The subsidy *)
Definition DevRewardStartBlock : Z := 230250.
Definition DevRewardStopBlock : Z := 255250.
Definition newRewardStartBlock : Z := 435005.
Definition oneTimeDevRewardStartBlock : Z := 480000.
Definition oneTimeDevRewardStopBlock : Z := 480005.
Definition StartSubsidy : Z := 100 * Amount.COIN.
Definition SubsidyHalvingInterval : Z := 105000.
Definition SubsidyHalvingIntervalAfterFork : Z := 210000.
Definition SubsidyHalvingValueConstant : Z := 3.
Definition SubsidyHalvingForDev : Z := 1.
Definition oneTimeDevRewardSubsidy : Z := 10000220000000.
Definition newSubsidy : Z := 220000000.
Definition GetBlockSubsidy (params : Params) (nHeight : Z) : Z :=
  if nHeight =? 0 then 0
  else
    let halvings := Z.quot nHeight SubsidyHalvingInterval in
    let halvings := if SubsidyHalvingIntervalAfterFork <=? nHeight
                    then SubsidyHalvingValueConstant + Z.quot (nHeight - SubsidyHalvingIntervalAfterFork) SubsidyHalvingIntervalAfterFork else halvings in
    let halvings := if (DevRewardStartBlock <=? nHeight) && (nHeight <=? DevRewardStopBlock) then SubsidyHalvingForDev else halvings in
    let nSubsidy := if nHeight <=? newRewardStartBlock then Z.shiftr StartSubsidy halvings else 0 in
    if fTestNet params then
      if (700 <? nHeight) && negb ((750 <=? nHeight) && (nHeight <=? 755)) then newSubsidy
      else if (750 <=? nHeight) && (nHeight <=? 755) then oneTimeDevRewardSubsidy else nSubsidy
    else
      if (newRewardStartBlock <? nHeight) && negb ((oneTimeDevRewardStartBlock <=? nHeight) && (nHeight <=? oneTimeDevRewardStopBlock)) then newSubsidy
      else if (oneTimeDevRewardStartBlock <=? nHeight) && (nHeight <=? oneTimeDevRewardStopBlock) then oneTimeDevRewardSubsidy else nSubsidy.

(** ** Transactions and blocks *)
Definition MAX_BLOCK_BASE_SIZE : Z := 2000000.
Definition MAX_BLOCK_SIGOPS_COST : Z := 400000.
(** The size of a block: the header, the transactions, and the signature of a proof of stake. *)
Fixpoint sizes (l : list CMutableTransaction) : option Z :=
  match l with [] => Some 0 | tx :: l => n ← GetSerializeSize_tx tx PROTOCOL_VERSION; m ← sizes l; Some (n + m) end.
Definition GetSerializeSize_block (block : CBlock) : option Z :=
  n ← sizes (vtx block);
  Some (80 + Serialize.GetSizeOfCompactSize (Z.of_nat (List.length (vtx block))) + n +
        if block_IsProofOfStake block then Serialize.GetSizeOfCompactSize (Script.size (vchBlockSig block)) + Script.size (vchBlockSig block) else 0).

Section rules.
Context {V : Type} `{OpenSSL} `{Subsystems} `{Crypto} (params : Params) (GetPoWHash : CBlockHeader → Z → list Z) (junk : bool * bool).
Notation M := (M V).

Fixpoint check_outputs (tx : CMutableTransaction) (vout : list CTxOut) (nValueOut : Z) : M unit :=
  match vout with
  | [] => mret tt
  | txout :: vout =>
      when (CTxOut_IsEmpty txout && negb (IsCoinBase tx) && negb (IsCoinStake tx)) (fails 100 0 "" false);;
      when (nValue txout <? 0) (fails 100 REJECT_INVALID "bad-txns-vout-negative" false);;
      when (Amount.MAX_MONEY <? nValue txout) (fails 100 REJECT_INVALID "bad-txns-vout-toolarge" false);;
      let nValueOut := i64 (nValueOut + nValue txout) in
      when (negb (Amount.MoneyRange nValueOut)) (fails 100 REJECT_INVALID "bad-txns-txouttotal-toolarge" false);;
      check_outputs tx vout nValueOut
  end.
(** The three sets of the source: the scripts of zerocoin and of sigma spends, and the outpoints. *)
Fixpoint check_duplicates (tx : CMutableTransaction) (vin : list CTxIn) (spendScripts spendV3Scripts : gset (list Z)) (vInOutPoints : list COutPoint) : M unit :=
  match vin with
  | [] => mret tt
  | txin :: vin =>
      if IsZerocoinSpend tx then
        when (bool_decide (scriptSig txin ∈ spendScripts)) (fails 100 REJECT_INVALID "bad-txns-spend-inputs-duplicate" false);;
        check_duplicates tx vin ({[scriptSig txin]} ∪ spendScripts) spendV3Scripts vInOutPoints
      else if IsSigmaSpend tx then
        when (bool_decide (scriptSig txin ∈ spendV3Scripts)) (fails 100 REJECT_INVALID "bad-txns-inputs-duplicate" false);;
        check_duplicates tx vin spendScripts ({[scriptSig txin]} ∪ spendV3Scripts) vInOutPoints
      else
        when (bool_decide (prevout txin ∈ vInOutPoints)) (fails 100 REJECT_INVALID "bad-txns-inputs-duplicate" false);;
        check_duplicates tx vin spendScripts spendV3Scripts (prevout txin :: vInOutPoints)
  end.
Definition CheckTransaction (tx : CMutableTransaction) (isVerifyDB : bool) (nHeight : Z) (isCheckWallet : bool) : M bool :=
  when (Script.size (vin tx) =? 0) (fails 10 REJECT_INVALID "bad-txns-vin-empty" false);;
  when (Script.size (vout tx) =? 0) (fails 10 REJECT_INVALID "bad-txns-vout-empty" false);;
  size ← or_throw (GetSerializeSize_tx tx (Z.lor PROTOCOL_VERSION SERIALIZE_TRANSACTION_NO_WITNESS));
  when (MAX_BLOCK_BASE_SIZE <? size) (fails 100 REJECT_INVALID "bad-txns-oversize" false);;
  check_outputs tx (vout tx) 0;;
  check_duplicates tx (vin tx) ∅ ∅ [];;
  (if IsCoinBase tx then
     txin ← or_crash (vin tx !! 0%nat);
     when ((Script.size (scriptSig txin) <? 2) || (100 <? Script.size (scriptSig txin))) (fails 100 REJECT_INVALID "bad-cb-length" false)
   else
     when (existsb (λ txin, COutPoint_IsNull (prevout txin) && negb (Script.IsZerocoinSpend (scriptSig txin))) (vin tx))
       (fails 10 REJECT_INVALID "bad-txns-prevout-null" false));;
  (if IsZerocoinV3SigmaTransaction tx then
     ok ← on_info (CheckSigmaTransaction tx isVerifyDB nHeight isCheckWallet); when (negb ok) (returns false)
   else mret tt);;
  ok ← on_info (CheckZerocoinTransaction tx isVerifyDB nHeight isCheckWallet);
  when (negb ok) (returns false);;
  mret true.

(** A failed rule of the same function, said again in the name of the block. *)
Definition invalid_again {A} : M A := λ w, let '(s, b) := Invalid false (chRejectCode (w_state w)) (strRejectReason (w_state w)) (w_state w) in Some (set_state w s, ret b).
Fixpoint check_locked (txs : list CMutableTransaction) : M unit :=
  match txs with
  | [] => mret tt
  | tx :: txs =>
      (if IsCoinBase tx then mret tt
       else
         hash ← or_throw (GetHash Hash256 tx);
         when (existsb (λ txin, match GetLockedOutPointTxHash (prevout txin) with Some hashLocked => negb (bool_decide (hashLocked = hash)) | None => false end) (vin tx))
           (fails 0 REJECT_INVALID "conflict-tx-lock" false));;
      check_locked txs
  end.
Fixpoint check_transactions (txs : list CMutableTransaction) (isVerifyDB : bool) (nHeight : Z) : M unit :=
  match txs with
  | [] => mret tt
  | tx :: txs =>
      ok ← call (CheckTransaction tx isVerifyDB nHeight false);
      when (negb ok) invalid_again;;
      check_transactions txs isVerifyDB nHeight
  end.
#[local] Existing Instance Script.opcodetype_eq_dec.
(** [CPubKey(vchPubKey).Verify(hash, vchSig)] *)
Definition pubkey_Verify (vchPubKey hash vchSig : list Z) : bool := match CPubKey_Set vchPubKey with Some pubkey => Verify pubkey hash vchSig | None => false end.
(** [None] is a bad access, [Some None] the exception of [Solver]. *)
Definition CheckBlockSignature (block : CBlock) : option (option bool) :=
  if negb (block_IsProofOfStake block) then Some (Some (bool_decide (vchBlockSig block = [])))
  else if bool_decide (vchBlockSig block = []) then Some (Some false)
  else
    coinstake ← vtx block !! 1%nat;
    txout ← vout coinstake !! 1%nat;
    let script := scriptPubKey txout in
    let hash := hb_hash (GetBlockHeader block) in
    match Solver script TX_NONSTANDARD with
    | None => Some None
    | Some (ok, whichType, vSolutions) =>
        if negb ok then Some (Some false)
        else if decide (whichType = TX_PUBKEY) then
          vchPubKey ← vSolutions !! 0%nat;
          Some (Some (pubkey_Verify vchPubKey hash (vchBlockSig block)))
        else
          match Script.GetOp script with
          | None => Some (Some false)
          | Some (opcode, _, pc) =>
              if negb (bool_decide (opcode = Script.OP_RETURN)) then Some (Some false)
              else
                match Script.GetOp pc with
                | None => Some (Some false)
                | Some (_, vchPushValue, _) =>
                    if negb (IsCompressedOrUncompressedPubKey vchPushValue) then Some (Some false)
                    else Some (Some (pubkey_Verify vchPushValue hash (vchBlockSig block)))
                end
          end
    end.
Definition check_signature (block : CBlock) : M unit :=
  result ← or_crash (CheckBlockSignature block);
  ok ← or_throw result;
  when (negb ok) (fails 100 REJECT_INVALID "bad-block-signature" false).
Definition check_header (block : CBlock) (fCheckPOW : bool) : M bool := λ w,
  '(g, (s, ok)) ← CheckBlockHeader params GetPoWHash junk (w_index w) (w_limits w) (w_state w) (GetBlockHeader block) fCheckPOW;
  Some (set_state (set_limits w g) s, go ok).
(** The [try] block of [CheckBlock]. *)
Definition check_rules (block : CBlock) (fCheckPOW fCheckMerkleRoot : bool) (nHeight : Z) (isVerifyDB fCheckSig : bool) : M bool :=
  fChecked ← asks w_fChecked;
  when fChecked (returns true);;
  ok ← check_header block fCheckPOW;
  when (negb ok) (returns false);;
  (if fCheckMerkleRoot then
     '(hashMerkleRoot2, mutated) ← or_throw (Merkle.BlockMerkleRoot (vtx block));
     when (negb (bool_decide (hb_hashMerkleRoot (GetBlockHeader block) = hashMerkleRoot2))) (fails 100 REJECT_INVALID "bad-txnmrklroot" true);;
     when mutated (fails 100 REJECT_INVALID "bad-txns-duplicate" true)
   else mret tt);;
  when ((Script.size (vtx block) =? 0) || (MAX_BLOCK_BASE_SIZE <? Script.size (vtx block))) (fails 100 REJECT_INVALID "bad-blk-length" false);;
  size ← or_throw (GetSerializeSize_block block);
  when (MAX_BLOCK_BASE_SIZE <? size) (fails 100 REJECT_INVALID "bad-blk-length" false);;
  coinbase ← or_crash (vtx block !! 0%nat);
  when (negb (IsCoinBase coinbase)) (fails 100 REJECT_INVALID "bad-cb-missing" false);;
  when (existsb IsCoinBase (drop 1 (vtx block))) (fails 100 REJECT_INVALID "bad-cb-multiple" false);;
  (if block_IsProofOfStake block then
     o ← or_crash (vout coinbase !! 0%nat);
     when (negb (CTxOut_IsEmpty o)) (fails 100 REJECT_INVALID "bad-cb-not-empty" false);;
     when (negb (block_IsProofOfStake block)) (fails 100 REJECT_INVALID "bad-cs-missing" false);;
     when (existsb IsCoinStake (drop 2 (vtx block))) (fails 100 REJECT_INVALID "bad-cs-multiple" false)
   else mret tt);;
  when ((nLastPOWBlock params <? nHeight) && fCheckSig) (check_signature block);;
  (if fInstantSend then check_locked (vtx block) else mret tt);;
  nHeight ← (if nHeight =? 2 ^ 31 - 1 then st ← asks w_index; or_crash (ZerocoinGetNHeight st (GetBlockHeader block)) else mret nHeight);
  ok ← on_state (CheckZerocoinFoundersInputs coinbase nHeight (fTestNet params));
  when (negb ok) invalid_again;;
  update (λ w, set_info w (Some (default make_info (w_info w))));;
  check_transactions (vtx block) isVerifyDB nHeight;;
  update (λ w, set_info w (Complete <$> w_info w));;
  let nSigOps := foldl (λ n tx, u32 (n + GetLegacySigOpCount tx)) 0 (vtx block) in
  when (MAX_BLOCK_SIGOPS_COST <? u32 (nSigOps * WITNESS_SCALE_FACTOR)) (fails 100 REJECT_INVALID "bad-blk-sigops" false);;
  update (λ w, if fCheckPOW && fCheckMerkleRoot then set_fChecked w true else w);;
  ok ← on_state (CheckSigmaBlock block);
  when (negb ok) (returns false);;
  mret true.
Definition CheckBlock (block : CBlock) (fCheckPOW fCheckMerkleRoot : bool) (nHeight : Z) (isVerifyDB fCheckSig : bool) : M bool :=
  catch_true (check_rules block fCheckPOW fCheckMerkleRoot nHeight isVerifyDB fCheckSig).

(** ** In the context of the parent *)
Context (nMajorityEnforceBlockUpgrade : Z) (deployments : VersionBits.Params).
Definition MAX_BLOCK_WEIGHT : Z := 2000000.
Definition GetBlockWeight (block : CBlock) : option Z := GetSerializeSize_block block.
Definition is_commitment (o : CTxOut) : bool :=
  (38 <=? Script.size (scriptPubKey o)) && bool_decide (take 6 (scriptPubKey o) = [Script.opcode_val Script.OP_RETURN; 0x24; 0xaa; 0x21; 0xa9; 0xed]).
(** The last output that has the form of a commitment. *)
Definition GetWitnessCommitmentIndex (coinbase : CMutableTransaction) : Z :=
  foldl (λ commitpos '(i, o), if is_commitment o then Z.of_nat i else commitpos) (-1) (zip (seq 0 (List.length (vout coinbase))) (vout coinbase)).
Definition version_bits (pindexPrev : option ptr) (pos : DeploymentPos) : M bool := λ w,
  '(c, s) ← VersionBitsState (blocks (w_index w)) pindexPrev deployments pos (w_deployments w); Some (set_deployments w c, go (bool_decide (s = THRESHOLD_ACTIVE))).
Definition super_majority (minVersion : Z) (pindexPrev : option ptr) : M bool :=
  A ← asks (blocks ∘ w_index); or_crash (IsSuperMajority params A minVersion pindexPrev (u32 nMajorityEnforceBlockUpgrade)).
Definition check_commitment (block : CBlock) (coinbase : CMutableTransaction) (commitpos : Z) : M unit :=
  '(hashWitness, _) ← or_throw (Merkle.BlockWitnessMerkleRoot (vtx block));
  match wit coinbase with
  | [[nonce]] =>
      when (negb (Script.size nonce =? 32)) (fails 100 REJECT_INVALID "bad-witness-nonce-size" true);;
      o ← or_crash (vout coinbase !! Z.to_nat commitpos);
      when (negb (bool_decide (Hash256 (hashWitness ++ nonce) = take 32 (drop 6 (scriptPubKey o))))) (fails 100 REJECT_INVALID "bad-witness-merkle-match" true)
  | _ => fails 100 REJECT_INVALID "bad-witness-nonce-size" true
  end.
Definition ContextualCheckBlock (block : CBlock) (pindexPrev : option ptr) : M bool :=
  A ← asks (blocks ∘ w_index);
  height ← (match pindexPrev with None => mret 0 | Some p => b ← or_crash (A !! p); mret (nHeight b + 1) end);
  csv ← version_bits pindexPrev DEPLOYMENT_CSV;
  nLockTimeCutoff ← (if csv : bool then p ← or_crash pindexPrev; or_crash (GetMedianTimePast A p) else mret (hb_nTime (GetBlockHeader block)));
  when (negb (forallb (λ tx, IsFinalTx tx height nLockTimeCutoff) (vtx block))) (fails 10 REJECT_INVALID "bad-txns-nonfinal" false);;
  coinbase ← or_crash (vtx block !! 0%nat);
  (if 2 <=? Z.land (hb_nVersion (GetBlockHeader block)) 0xff then
     upgraded ← super_majority 2 pindexPrev;
     if upgraded : bool then
       txin ← or_crash (vin coinbase !! 0%nat);
       let expect := Script.push_int64 [] height in
       when (negb (bool_decide (take (List.length expect) (scriptSig txin) = expect))) (fails 100 REJECT_INVALID "bad-cb-height" false)
     else mret tt
   else mret tt);;
  witness ← version_bits pindexPrev DEPLOYMENT_SEGWIT;
  fHaveWitness ← (if witness : bool then
                    let commitpos := GetWitnessCommitmentIndex coinbase in
                    if negb (commitpos =? -1) then check_commitment block coinbase commitpos;; mret true else mret false
                  else mret false);
  when (negb fHaveWitness && existsb (λ tx, negb (CTxWitness_IsNull (wit tx))) (vtx block)) (fails 100 REJECT_INVALID "unexpected-witness" true);;
  weight ← or_throw (GetBlockWeight block);
  when (MAX_BLOCK_WEIGHT <? weight) (fails 100 REJECT_INVALID "bad-blk-weight" false);;
  mret true.
End rules.
End BlockCheck.
