(* ===== verification/ConnectBlock.v ===== *)
(** * ConnectBlock: a block meets the coins ([main.cpp], [noirnode-payments.cpp])

    [ConnectBlock] as a whole: the rules on the block again, the proof of stake, the flags for the
    scripts, for each transaction its inputs, locks, signature operations, amounts and scripts and
    the update of the coins, then the rewards, the result of the check queue and the undo data.
    The address, spent and timestamp indexes, the signals and the clean-up of the memory pool
    afterwards are not modelled. *)
From Stdlib Require Import String.
From S2P Require Import Prelude Serialize Uint256 Amount Script Transaction Interpreter InterpreterSafety Merkle Compressor Coins CoinsView BlockCoins CheckInputs Chain VersionBits Bignum Pow HeaderCheck Stake BlockCheck CheckQueue.
Open Scope Z_scope.
Open Scope list_scope.

Module ConnectBlock.
Import Transaction Interpreter Compressor Coins CoinsView BlockCoins CheckInputs Chain VersionBits Bignum Pow HeaderCheck Stake BlockCheck.

Definition REJECT_MALFORMED : Z := 0x01.
Definition REJECT_NONSTANDARD : Z := 0x40.
Definition HF_NOIRNODE_HEIGHT : Z := 261500.
Definition BLOCK_VALID_SCRIPTS : Z := 5.
Definition BLOCK_HAVE_UNDO : Z := 16.

(** [CValidationState::Error] *)
Definition Error (reason : string) (state : CValidationState) : CValidationState :=
  mkValidation MODE_ERROR (nDoS state) (match mode state with MODE_VALID => reason | _ => strRejectReason state end) (chRejectCode state) (corruptionPossible state).
(** What [CheckTxInputs] and [CheckInputs] do to the state; the names of script errors are left out. *)
Definition input_verdict (e : input_error) (state : CValidationState) : CValidationState * option bool :=
  match e with
  | inputs_unavailable => prod_map id Some (Invalid false 0 "" state)
  | premature_spend => prod_map id Some (Invalid false REJECT_INVALID "bad-txns-premature-spend-of-coinbase" state)
  | values_out_of_range => prod_map id Some (DoS 100 false REJECT_INVALID "bad-txns-inputvalues-outofrange" false state)
  | in_below_out => prod_map id Some (DoS 100 false REJECT_INVALID "bad-txns-in-belowout" false state)
  | fee_negative => prod_map id Some (DoS 100 false REJECT_INVALID "bad-txns-fee-negative" false state)
  | fee_out_of_range => prod_map id Some (DoS 100 false REJECT_INVALID "bad-txns-fee-outofrange" false state)
  | value_out_throws => (state, None)
  end.
Definition check_verdict (r : check_result) (state : CValidationState) : CValidationState * option bool :=
  match r with
  | inputs_ok => (state, Some true)
  | inputs_error e => input_verdict e state
  | script_nonstandard _ => prod_map id Some (Invalid false REJECT_NONSTANDARD "non-mandatory-script-verify-flag" state)
  | script_invalid _ => prod_map id Some (DoS 100 false REJECT_INVALID "mandatory-script-verify-flag-failed" false state)
  | sigma_mixed => prod_map id Some (DoS 100 false REJECT_MALFORMED "CheckSpendZcoinTransaction: can't mix zerocoin spend input with regular ones" false state)
  | sigma_throws => (state, None)
  | sigma_outputs_larger => prod_map id Some (DoS 100 false 0 "" false state)
  end.
(** A job of the check queue. *)
Definition run_job `{Crypto} (j : job) : bool := match run_check j.1.1 (Some j.1.2) j.2 with inr _ => true | inl _ => false end.

Section connect.
Context {V : Type} `{CCoinsView V} `{MemUsage} `{OpenSSL} `{Subsystems} `{Crypto}.
Context (params : Params) (mapCheckpoints : list (Z * list Z)) (fCheckpointsEnabled : bool) (GetPoWHash : CBlockHeader → Z → list Z) (junk : bool * bool).
Context (nMajorityEnforceBlockUpgrade : Z) (deployments : VersionBits.Params) (sigma_denomination : list Z → option Z).
Context (GetTransaction : list Z → option (CMutableTransaction * list Z)) (fDebug : bool).
(** [chainActive.Height()]; whether there are script check threads, and what the queue answers for the checks it was given. *)
Context (chainHeight : Z) (nScriptCheckThreads : bool) (queue_answer : list job → bool).
(** Where the undo data goes, if there is room, whether it can be written, and whether the other indexes can be. *)
Context (FindUndoPos : Z → list (list CTxInUndo) → CValidationState → CValidationState * option Z) (UndoWriteToDisk : list (list CTxInUndo) → Z → option Z) (write_indexes : CBlock → option string).
Notation M := (M V).

(** ** One transaction *)
(** What the loop over the transactions accumulates. *)
Record totals := mkTotals { nFees : Z; nActualStakeReward : Z; nSigOpsCost : Z; txIds : gset (list Z); vtxundo : list (list CTxInUndo) }.
Definition access_coins (txid : list Z) : M (option CCoins) := on_view (λ c, Some (AccessCoins c txid)).
Fixpoint prev_heights (vin : list CTxIn) : M (list Z) :=
  match vin with
  | [] => mret []
  | txin :: vin => coins ← access_coins (ophash (prevout txin)); coins ← or_crash coins; l ← prev_heights vin; mret (c_nHeight coins :: l)
  end.
(** The inputs are there and their relative locks have passed. *)
Definition check_locks (tx : CMutableTransaction) (pindex : ptr) (nLockTimeFlags : Z) : M unit :=
  if no_inputs tx then mret tt
  else
    have ← on_view (λ c, Some (HaveInputs c tx));
    when (negb have) (fails 100 REJECT_INVALID "bad-txns-inputs-missingorspent" false);;
    prevheights ← prev_heights (vin tx);
    A ← asks (blocks ∘ w_index);
    ok ← or_crash (SequenceLocks A tx nLockTimeFlags prevheights pindex);
    when (negb ok) (fails 100 REJECT_INVALID "bad-txns-nonfinal" false).
(** Zerocoin and sigma; the fees of a sigma spend. *)
Definition check_privacy (tx : CMutableTransaction) (height : Z) (fees : Z) : M Z :=
  if IsZerocoinSpend tx || IsZerocoinMint tx || IsSigmaSpend tx || IsSigmaMint tx then
    fees ← (if IsSigmaSpend tx
            then vin ← or_throw (GetSigmaSpendInput tx); vout ← or_throw (GetValueOut tx); mret (i64 (fees + i64 (vin - vout)))
            else mret fees);
    ok ← call (CheckTransaction tx false height false);
    when (negb ok) (fails 100 REJECT_INVALID "bad-txns-zerocoin" false);;
    mret fees
  else mret fees.
(** [CheckInputs], and the checks it hands to the queue. *)
Definition check_inputs (tx : CMutableTransaction) (fScriptChecks : bool) (flags : Z) : M unit := λ w,
  let txdata := PrecomputedTransactionData_of tx in
  '(c, r, ks) ← CheckInputs sigma_denomination (w_index w) tx (Some txdata) (w_view w) fScriptChecks flags nScriptCheckThreads;
  let '(s, b) := check_verdict r (w_state w) in
  Some (set_state (set_view (set_checks w (w_checks w ++ map (λ k, (tx, txdata, k)) ks)) c) s,
        match b with None => throw | Some true => go tt | Some false => ret false end).
(** The amounts of a transaction with inputs: a stake reward, or a fee. *)
Definition check_amounts (tx : CMutableTransaction) (fScriptChecks : bool) (flags : Z) (t : Z * Z) : M (Z * Z) :=
  if no_inputs tx then mret t
  else
    vout ← or_throw (GetValueOut tx);
    vin ← on_view (λ c, GetValueIn c tx);
    check_inputs tx fScriptChecks flags;;
    mret (if IsCoinStake tx then (t.1, i64 (vout - vin)) else (i64 (t.1 + i64 (vin - vout)), t.2)).
Definition connect_tx (pindex : ptr) (height : Z) (fScriptChecks : bool) (flags nLockTimeFlags : Z) (first : bool) (tx : CMutableTransaction) (t : totals) : M totals :=
  txHash ← or_throw (GetHash Hash256 tx);
  when (bool_decide (txHash ∈ txIds t) && (fTestNet params || (HF_NOIRNODE_HEIGHT <=? height))) (fails 100 REJECT_INVALID "bad-txns-duplicatetxid" false);;
  check_locks tx pindex nLockTimeFlags;;
  fees ← check_privacy tx height (nFees t);
  when (IsZerocoinMint tx && (446000 <=? chainHeight)) (returns false);;
  cost ← on_view (λ c, GetTransactionSigOpCost c tx flags);
  let cost := i64 (nSigOpsCost t + cost) in
  when (MAX_BLOCK_SIGOPS_COST <? cost) (fails 100 REJECT_INVALID "bad-blk-sigops" false);;
  '(fees, stake) ← check_amounts tx fScriptChecks flags (fees, nActualStakeReward t);
  undo ← on_view (λ c, UpdateCoins Hash256 c tx height);
  mret (mkTotals fees stake cost ({[txHash]} ∪ txIds t) (if first then vtxundo t else vtxundo t ++ [undo])).
Fixpoint connect_txs (pindex : ptr) (height : Z) (fScriptChecks : bool) (flags nLockTimeFlags : Z) (first : bool) (txs : list CMutableTransaction) (t : totals) : M totals :=
  match txs with
  | [] => mret t
  | tx :: txs => t ← connect_tx pindex height fScriptChecks flags nLockTimeFlags first tx t; connect_txs pindex height fScriptChecks flags nLockTimeFlags false txs t
  end.

(** ** The block *)
(** The kernel of a proof of stake. *)
Definition check_stake (block : CBlock) (pindex : ptr) (b : CBlockIndex) : M unit :=
  if block_IsProofOfStake block then
    stake ← or_crash (vtx block !! 1%nat);
    txin ← or_crash (vin stake !! 0%nat);
    coins ← access_coins (ophash (prevout txin));
    match coins with
    | None => fails 100 REJECT_INVALID "bad-cs-kernel" false
    | Some coins =>
        when (nHeight b - c_nHeight coins <? COINBASE_MATURITY) (fails 100 REJECT_INVALID "bad-cs-premature" false);;
        when (negb (CheckStakeBlockTimestamp (hb_nTime (GetBlockHeader block)))) (fails 100 REJECT_INVALID "bad-cs-timecheck" false);;
        if 609000 <=? nHeight b then
          ok ← (λ w, q ← pprev b;
                     '(s, ok) ← CheckProofOfStake params GetTransaction (w_index w) (λ p, default (Uint256.blob_null 32) (w_modifiers w !! p)) fDebug
                                 q stake (hb_nTime (GetBlockHeader block)) (hb_nBits (GetBlockHeader block)) (w_state w);
                     Some (set_state w s, go ok));
          when (negb ok) (fails 100 REJECT_INVALID "bad-cs-proofhash" false)
        else mret tt
    end
  else mret tt.
Definition set_stake_modifier (block : CBlock) (pindex : ptr) (b : CBlockIndex) : M unit :=
  if negb (nHeight b <=? nLastPOWBlock params) then
    kernel ← (if block_IsProofOfStake block
              then stake ← or_crash (vtx block !! 1%nat); txin ← or_crash (vin stake !! 0%nat); mret (ophash (prevout txin))
              else mret (hb_hash (GetBlockHeader block)));
    update (λ w, set_modifier w pindex (ComputeStakeModifier (q ← pprev b; Some (default (Uint256.blob_null 32) (w_modifiers w !! q))) kernel))
  else mret tt.
(** No block below the last checkpoint has its scripts checked. *)
Definition script_checks (pindex : ptr) (b : CBlockIndex) : M bool :=
  if fCheckpointsEnabled then
    st ← asks w_index;
    match GetLastCheckpoint mapCheckpoints st with
    | Some q => a ← or_crash (GetAncestor (blocks st) q (nHeight b)); mret (negb (bool_decide (a = Some pindex)))
    | None => mret true
    end
  else mret true.
(** BIP30 *)
Fixpoint check_overwrite (txs : list CMutableTransaction) : M unit :=
  match txs with
  | [] => mret tt
  | tx :: txs =>
      hash ← or_throw (GetHash Hash256 tx);
      coins ← access_coins hash;
      when (match coins with Some coins => negb (IsPruned coins) | None => false end) (fails 100 REJECT_INVALID "bad-txns-BIP30" false);;
      check_overwrite txs
  end.
(** The flags for the scripts and for the locks. *)
Definition script_flags (block : CBlock) (b : CBlockIndex) : M (Z * Z) :=
  let flags := if 1349049600 <=? GetBlockTime b then SCRIPT_VERIFY_P2SH else SCRIPT_VERIFY_NONE in
  let version := hb_nVersion (GetBlockHeader block) in
  dersig ← (if 3 <=? version then super_majority params nMajorityEnforceBlockUpgrade 3 (pprev b) else mret false);
  let flags := if dersig : bool then Z.lor flags SCRIPT_VERIFY_DERSIG else flags in
  cltv ← (if 4 <=? version then super_majority params nMajorityEnforceBlockUpgrade 4 (pprev b) else mret false);
  let flags := if cltv : bool then Z.lor flags SCRIPT_VERIFY_CHECKLOCKTIMEVERIFY else flags in
  csv ← version_bits deployments (pprev b) DEPLOYMENT_CSV;
  let flags := if csv : bool then Z.lor flags SCRIPT_VERIFY_CHECKSEQUENCEVERIFY else flags in
  let nLockTimeFlags := if csv : bool then LOCKTIME_VERIFY_SEQUENCE else 0 in
  witness ← version_bits deployments (pprev b) DEPLOYMENT_SEGWIT;
  mret (if witness : bool then Z.lor (Z.lor flags SCRIPT_VERIFY_WITNESS) SCRIPT_VERIFY_NULLDUMMY else flags, nLockTimeFlags).
(** Superblocks are commented out: in every mode the coinbase may not pay more than the reward. *)
Definition IsBlockValueValid (coinbaseValue blockReward : Z) : bool := coinbaseValue <=? blockReward.
Definition check_rewards (block : CBlock) (b : CBlockIndex) (t : totals) : M unit :=
  let blockReward := i64 (nFees t + GetBlockSubsidy params (nHeight b)) in
  coinbase ← or_crash (vtx block !! 0%nat);
  value ← or_throw (GetValueOut coinbase);
  when (negb (block_IsProofOfStake block) && (blockReward <? value)) (fails 100 REJECT_INVALID "bad-cb-amount" false);;
  when (block_IsProofOfStake block && (blockReward <? nActualStakeReward t)) (fails 100 REJECT_INVALID "bad-cs-amount" false);;
  when (negb (IsBlockValueValid value blockReward)) (fails 0 REJECT_INVALID "bad-cb-amount" false);;
  txNew ← or_crash (vtx block !! (if (nLastPOWBlock params <? nHeight b) then 1%nat else 0%nat));
  when (negb (IsBlockPayeeValid txNew (nHeight b) blockReward)) (fails 0 REJECT_INVALID "bad-cb-payee" false).
(** [control.Wait()]; without threads there is nothing to wait for. *)
Definition Wait (fScriptChecks : bool) : M unit := λ w,
  if (fScriptChecks && nScriptCheckThreads) && negb (queue_answer (w_checks w)) then fails 100 0 "" false (set_checks w []) else Some (set_checks w [], go tt).
Definition AbortNode {A} (msg : string) : M A := λ w, Some (set_state w (Error msg (w_state w)), ret false).
Definition has_undo (b : CBlockIndex) : bool := negb (Z.land (nStatus b) BLOCK_HAVE_UNDO =? 0) && negb (nFile b =? -1).
Definition set_undo_pos (b : CBlockIndex) (pos : Z) : CBlockIndex :=
  mkIndex (phashBlock b) (pprev b) (pskip b) (nHeight b) (nFile b) (nDataPos b) pos (nChainWork b)
    (nTx b) (nChainTx b) (Z.lor (nStatus b) BLOCK_HAVE_UNDO) (bi_nVersion b) (bi_hashMerkleRoot b) (nTime b) (nBits b) (bi_nNonce b) (nSequenceId b).
Definition set_entry (pindex : ptr) (b : CBlockIndex) (w : world V) : world V :=
  set_index w (mkState (<[pindex := b]> (blocks (w_index w))) (mapBlockIndex (w_index w)) (pindexBestHeader (w_index w)) ({[pindex]} ∪ setDirtyBlockIndex (w_index w))).
Definition write_undo (pindex : ptr) (blockundo : list (list CTxInUndo)) : M unit :=
  A ← asks (blocks ∘ w_index);
  b ← or_crash (A !! pindex);
  valid ← or_crash (IsValid b BLOCK_VALID_SCRIPTS);
  if negb (has_undo b) || negb valid then
    b ← (if negb (has_undo b) then
           pos ← (λ w, let '(s, r) := FindUndoPos (nFile b) blockundo (w_state w) in Some (set_state w s, match r with Some p => go p | None => ret false end));
           _ ← or_crash (pprev b);
           match UndoWriteToDisk blockundo pos with
           | None => AbortNode "Failed to write undo data"
           | Some pos => update (λ w, set_undo w pindex blockundo);; mret (set_undo_pos b pos)
           end
         else mret b);
    '(b, _) ← or_crash (RaiseValidity b BLOCK_VALID_SCRIPTS);
    update (set_entry pindex b)
  else mret tt.
Definition totals_init : totals := mkTotals 0 0 0 ∅ [].
(** What follows the result of the queue. *)
Definition store_block (block : CBlock) (pindex : ptr) (b : CBlockIndex) (fJustCheck : bool) (blockundo : list (list CTxInUndo)) : M bool :=
  ok ← on_state (ConnectBlockZC block pindex fJustCheck);
  when (negb ok) (returns false);;
  ok ← on_state (ConnectBlockSigma block pindex fJustCheck);
  when (negb ok) (returns false);;
  when fJustCheck (returns true);;
  write_undo pindex blockundo;;
  match write_indexes block with Some msg => AbortNode msg | None => mret tt end;;
  update (λ w, set_view w (SetBestBlock (w_view w) (phashBlock b)));;
  mret true.
(** Everything after the check of the block; the queue has no checks when the controller is created. *)
Definition connect_body (block : CBlock) (pindex : ptr) (b : CBlockIndex) (fJustCheck : bool) : M bool :=
  set_stake_modifier block pindex b;;
  check_stake block pindex b;;
  fScriptChecks ← script_checks pindex b;
  check_overwrite (vtx block);;
  '(flags, nLockTimeFlags) ← script_flags block b;
  update (λ w, set_info (set_checks w []) (Some make_info));;
  t ← connect_txs pindex (nHeight b) fScriptChecks flags nLockTimeFlags true (vtx block) totals_init;
  update (λ w, set_info w (Complete <$> w_info w));;
  check_rewards block b t;;
  Wait fScriptChecks;;
  store_block block pindex b fJustCheck (vtxundo t).
Definition ConnectBlock (block : CBlock) (pindex : ptr) (fJustCheck : bool) : M bool :=
  A ← asks (blocks ∘ w_index);
  b ← or_crash (A !! pindex);
  ok ← call (CheckBlock params GetPoWHash junk block (negb fJustCheck) (negb fJustCheck) (nHeight b) false (negb fJustCheck));
  when (negb ok) (returns false);;
  hashPrevBlock ← (match pprev b with None => mret (Uint256.blob_null 32) | Some q => prev ← or_crash (A !! q); mret (phashBlock prev) end);
  best ← on_view (λ c, Some (cache_GetBestBlock c));
  (if bool_decide (hashPrevBlock = best) then mret tt else crash);;
  if bool_decide (hb_hash (GetBlockHeader block) = hashGenesisBlock params) then
    when (negb fJustCheck) (update (λ w, set_view w (SetBestBlock (w_view w) (phashBlock b))));; mret true
  else connect_body block pindex b fJustCheck.
End connect.
End ConnectBlock.
