(* ===== verification/ConnectSample.v ===== *)
(** * ConnectSample: blocks on which [ConnectBlock] is run

    A block at height 300000 on the sample coins, with a coinbase and a transaction that spends two
    outputs, and the state it is connected in; what is not modelled accepts everything.  Three more
    blocks show what the rules on rewards let through. *)
From Stdlib Require Import String.
From S2P Require Import Prelude Serialize Uint256 Amount Script Transaction Interpreter InterpreterSafety Merkle Compressor Coins CoinsView BlockCoins CheckInputs Chain VersionBits Bignum Pow HeaderCheck Stake BlockCheck CheckQueue ConnectBlock.
Open Scope Z_scope.
Open Scope list_scope.

Module ConnectSample.
Import Transaction Interpreter Compressor Coins CoinsView BlockCoins CheckInputs Chain Bignum Pow HeaderCheck Stake BlockCheck ConnectBlock.
#[export] Existing Instance toy_secp.
#[export] Existing Instance toy_laws.

(** Hash functions that keep the first bytes, so that the sample transactions have different hashes. *)
#[export] Instance prefix_crypto : Crypto := {|
  ripemd160 := λ l, take 20 (l ++ replicate 20 0); sha1 := λ l, take 20 (l ++ replicate 20 0); sha256 := sample_hash;
  CheckLowS := λ _, true; Verify := λ _ _ _, true |}.
#[export] Instance no_subsystems : Subsystems := {|
  Info := unit; make_info := tt; Complete := id;
  CheckSigmaTransaction := λ _ _ _ _ s, (s, Some true); CheckZerocoinTransaction := λ _ _ _ _ s, (s, Some true);
  CheckSigmaBlock := λ _ s, (s, Some true); CheckZerocoinFoundersInputs := λ _ _ _ s, (s, Some true);
  ConnectBlockZC := λ _ _ _ s, (s, Some true); ConnectBlockSigma := λ _ _ _ s, (s, Some true);
  GetSigmaSpendInput := λ _, Some 0;
  fInstantSend := false; GetLockedOutPointTxHash := λ _, None; IsBlockPayeeValid := λ _ _ _, true |}.
Definition regtest_params : Params := mkParams REGTEST [9] 950 1000 (replicate 32 255) (replicate 32 255) 150 450 551000.
Definition future_deployments : VersionBits.Params := VersionBits.mkParams 2 3 (λ _, VersionBits.mkDeployment 1 (2 ^ 40) (2 ^ 41)).
Definition parent_entry (h : Z) : CBlockIndex := mkIndex (replicate 32 9) None None (h - 1) 0 0 0 [] 1 1 0 1 [] 1600000000 0 0 0.
Definition block_entry (h : Z) : CBlockIndex := mkIndex (replicate 32 8) (Some 0%nat) None h 0 0 0 [] 1 2 0 1 [] 1600000100 0 0 0.
Definition connect_index (h : Z) : index_state := mkState [parent_entry h; block_entry h] (<[replicate 32 8 := 1%nat]> {[ replicate 32 9 := 0%nat ]}) (Some 1%nat) ∅.
Definition connect_world (h : Z) : world CCoinsViewDB :=
  mkWorld (connect_index h) ∅ (mkLimits bnProofOfWorkLimit bnProofOfWorkLimit) (VersionBits.mkVersionBitsCache ∅ ∅ ∅) sample_view None false [] ∅ sample_valid.
(** A proof of stake has a signature. *)
Definition sample_signature (txs : list CMutableTransaction) : list Z := match txs !! 1%nat with Some tx => if IsCoinStake tx then [48] else [] | None => [] end.
Definition block_of (txs : list CMutableTransaction) : CBlock :=
  mkBlock (mkHeader (replicate 32 8) 1 (replicate 32 9) (default [] (fst <$> Merkle.BlockMerkleRoot txs)) 1600000100 0 0) txs (sample_signature txs).
(** A compressed key and [OP_CHECKSIG]. *)
Definition stake_script : list Z := 33 :: 2 :: replicate 32 7 ++ [0xac].
Notation connect_block threads h txs fJustCheck := (ConnectBlock (V := CCoinsViewDB) regtest_params [] true (λ _ _, []) (false, false) 750 future_deployments (λ _, None) (λ _, None) false (h - 1)
  threads (forallb run_job) (λ _ _ s, (s, Some 0)) (λ _ p, Some p) (λ _, None) (block_of txs) 1%nat fJustCheck).
Notation connect_sample threads h txs fJustCheck := (connect_block threads h txs fJustCheck (connect_world h)).
(** What is left of the run of a block, and the reason if it is not accepted. *)
Definition final_view (r : option (world CCoinsViewDB * outcome bool)) : option (CCoinsViewCache CCoinsViewDB) := match r with Some (w, go true) => Some (w_view w) | _ => None end.
Definition reason (r : option (world CCoinsViewDB * outcome bool)) : option string := match r with Some (w, go true) => Some EmptyString | Some (w, ret b) => Some (strRejectReason (w_state w)) | _ => None end.
Definition sample_txs : list CMutableTransaction := [sample_coinbase; sample_spend].
Lemma sample_accepted : ∃ w, connect_sample true 300000 sample_txs false = Some (w, go true).
Proof.
  assert (bool_decide (is_Some (final_view (connect_sample true 300000 sample_txs false))) = true) as H by (vm_compute; reflexivity).
  revert H. generalize (connect_sample true 300000 sample_txs false) as r. intros [[w [[]|b|]]|]; [by exists w|discriminate..].
Qed.
Lemma sample_not_genesis txs : hb_hash (GetBlockHeader (block_of txs)) ≠ hashGenesisBlock regtest_params.
Proof. discriminate. Qed.
(** The rules on rewards stop a coinbase that pays too much, and a coinstake of a proof of stake that does. *)
Definition empty_out : CTxOut := mkTxOut 0 [] (-10).
Definition paying_coinbase (o : CTxOut) (n : Z) : CMutableTransaction := mkTx 1 [mkTxIn COutPoint_SetNull [1; 2] 0xffffffff] [o; mkTxOut n [81] (-10)] [] 0.
Definition paying_stake (n : Z) : CMutableTransaction := mkTx 1 [mkTxIn (mkOutPoint sample_id 2) [] 0xffffffff] [empty_out; mkTxOut n stake_script (-10)] [] 0.
Example reward_reasons :
  map reason [connect_sample true 600000 [paying_coinbase sample_out 220000000; sample_spend] false;
              connect_sample true 600000 [paying_coinbase empty_out 1; paying_stake 220005001] false;
              connect_sample false 600000 [paying_coinbase sample_out 220000000; paying_stake 5000] false;
              connect_sample true 300000 sample_txs false] =
  [Some "bad-cb-amount"; Some "bad-cs-amount"; Some "bad-cb-not-empty"; Some EmptyString]%string.
Proof. vm_compute. reflexivity. Qed.
End ConnectSample.
