(* ===== verification/ConnectParallel.v ===== *)
(** * ConnectParallel: script checks at once or on the queue

    [ConnectBlock] runs the script checks as it meets them when there are no script check threads,
    and otherwise hands them to the check queue and asks for the result at the end.  Both accept
    the same blocks with the same outcome, whatever the threads of the queue do. *)
From Stdlib Require Import String.
From S2P Require Import Prelude Serialize Uint256 Amount Script Transaction Interpreter InterpreterSafety Merkle Compressor Coins CoinsView BlockCoins CheckInputs Chain VersionBits Bignum Pow HeaderCheck Stake BlockCheck CheckQueue ConnectBlock ConnectSample.
Open Scope Z_scope.
Open Scope list_scope.

Module ConnectParallel.
Import Transaction Interpreter Compressor Coins CoinsView BlockCoins CheckInputs Chain VersionBits Bignum Pow HeaderCheck Stake BlockCheck ConnectBlock ConnectSample.
Create HintDb frame.

(** ** Computations that leave the queue alone *)
Section frame.
Context {V : Type} `{CCoinsView V} `{MemUsage} `{OpenSSL} `{Subsystems} `{Crypto}.
Notation M := (M V).
Definition with_checks {A} (l : list job) (r : option (world V * outcome A)) : option (world V * outcome A) :=
  match r with Some (w, o) => Some (set_checks w l, o) | None => None end.
Definition frame {A} (m : M A) : Prop := ∀ w l, m (set_checks w l) = with_checks l (m w).
Lemma frame_ret {A} (a : A) : frame (mret a).
Proof using Type. done. Qed.
Lemma frame_bind {A B} (m : M A) (f : A → M B) : frame m → (∀ a, frame (f a)) → frame (m ≫= f).
Proof using Type. intros Hm Hf w l. unfold mbind, M_bind. rewrite Hm. destruct (m w) as [[w1 [a|b|]]|]; cbn; [apply Hf|done..]. Qed.
Lemma frame_when c (m : M unit) : frame m → frame (when c m).
Proof using Type. intros Hm. by destruct c. Qed.
Lemma frame_fails {A} level code reason corruption : frame (fails (A := A) level code reason corruption).
Proof using Type. intros w l. unfold fails. cbn. by destruct (DoS _ _ _ _ _ _). Qed.
Lemma frame_returns {A} b : frame (returns (A := A) b).
Proof using Type. done. Qed.
Lemma frame_throws {A} : frame (throws (A := A)).
Proof using Type. done. Qed.
Lemma frame_crash {A} : frame (crash (A := A)).
Proof using Type. done. Qed.
Lemma frame_or_throw {A} (o : option A) : frame (or_throw o).
Proof using Type. by destruct o. Qed.
Lemma frame_or_crash {A} (o : option A) : frame (or_crash o).
Proof using Type. by destruct o. Qed.
Lemma frame_asks {A} (f : world V → A) : (∀ w l, f (set_checks w l) = f w) → frame (asks f).
Proof using Type. intros Hf w l. unfold asks. cbn. by rewrite Hf. Qed.
Lemma frame_asks_blocks : frame (asks (blocks ∘ w_index)).
Proof using Type. done. Qed.
Lemma frame_on_view {A} f : frame (on_view (A := A) f).
Proof using Type. intros w l. unfold on_view. cbn. by destruct (f (w_view w)) as [[c a]|]. Qed.
Lemma frame_on_info f : frame (on_info f).
Proof using Type. intros w l. unfold on_info. cbn. by destruct (f _) as [[i s] r]. Qed.
Lemma frame_call m : frame m → frame (call m).
Proof using Type. intros Hm w l. unfold call. rewrite Hm. by destruct (m w) as [[w1 []]|]. Qed.
Lemma frame_update f : (∀ w l, f (set_checks w l) = set_checks (f w) l) → frame (update f).
Proof using Type. intros Hf w l. unfold update. cbn. by rewrite Hf. Qed.
End frame.
#[export] Hint Resolve frame_ret frame_when frame_fails frame_returns frame_throws frame_crash frame_or_throw frame_or_crash frame_asks_blocks frame_on_view frame_on_info frame_call : frame.
Ltac frames := repeat first
  [ match goal with |- ∀ _, _ => intro end | solve [auto with frame] | apply frame_bind | apply frame_when | apply frame_call
  | match goal with |- frame (if ?c then _ else _) => destruct c | |- frame (match ?c with _ => _ end) => destruct c end ].

Section steps.
Context {V : Type} `{CCoinsView V} `{MemUsage} `{OpenSSL} `{Subsystems} `{Crypto}.
Notation M := (M V).
Lemma frame_check_outputs tx l : ∀ n, frame (V := V) (check_outputs tx l n).
Proof using Type. induction l as [|o l IH]; intros n; cbn [check_outputs]; frames. Qed.
Lemma frame_check_duplicates tx l : ∀ a b c, frame (V := V) (check_duplicates tx l a b c).
Proof using Type. induction l as [|i l IH]; intros a b c; cbn [check_duplicates]; frames. Qed.
#[local] Hint Resolve frame_check_outputs frame_check_duplicates : frame.
Lemma frame_CheckTransaction tx v h c : frame (V := V) (CheckTransaction tx v h c).
Proof using Type. unfold CheckTransaction. frames. Qed.
#[local] Hint Resolve frame_CheckTransaction : frame.
Lemma frame_prev_heights l : frame (V := V) (prev_heights l).
Proof using Type. induction l as [|i l IH]; cbn [prev_heights]; unfold access_coins; frames. Qed.
#[local] Hint Resolve frame_prev_heights : frame.
Lemma frame_check_locks tx p f : frame (V := V) (check_locks tx p f).
Proof using Type. unfold check_locks. frames. Qed.
Lemma frame_check_privacy tx h f : frame (V := V) (check_privacy tx h f).
Proof using Type. unfold check_privacy. frames. Qed.
Lemma frame_check_rewards params block b t : frame (V := V) (check_rewards params block b t).
Proof using Type. unfold check_rewards. frames. Qed.
End steps.
#[export] Hint Resolve frame_check_locks frame_check_privacy frame_check_rewards : frame.

(** ** The inputs of a transaction in both modes *)
Section inputs.
Context {V : Type} `{CCoinsView V} `{MemUsage} `{Crypto} (sigma_denomination : list Z → option Z) (index : index_state).
Context (tx : CMutableTransaction) (txdata : option PrecomputedTransactionData) (flags : Z).
Notation scripts := (check_scripts (V := V) tx txdata).
Notation inputs := (CheckInputs (V := V) sigma_denomination index tx txdata).
Notation pass := (passes tx txdata).
Lemma scripts_sequential l : ∀ c n c' r ks, scripts c flags false n l = Some (c', r, ks) → ks = [].
Proof using Type.
  induction l as [|i l IH]; intros c n c' r ks; cbn [check_scripts]; [by intros [= _ _ <-]|]. destruct (AccessCoins _ _) as [c1 [x|]]; [|done]. cbn [mbind option_bind].
  destruct (c_vout x !! _); [|done]. cbn [mbind option_bind]. destruct (run_check tx txdata _) as [[e|y| |]|]; [|done..|apply IH].
  destruct (has _ _); [destruct (run_check tx txdata _) as [[]|]|]; by intros [= _ _ <-].
Qed.
Lemma scripts_collected l : ∀ c n c' r ks, scripts c flags true n l = Some (c', r, ks) → r = inputs_ok ∧ List.length ks = List.length l ∧
  (Forall pass ks → scripts c flags false n l = Some (c', inputs_ok, [])).
Proof using Type.
  induction l as [|i l IH]; intros c n c' r ks; cbn [check_scripts]; [by intros [= <- <- <-]|]. destruct (AccessCoins _ _) as [c1 [x|]]; [|done]. cbn [mbind option_bind].
  destruct (c_vout x !! _) as [o|]; [|done]. cbn [mbind option_bind]. destruct (scripts c1 flags true (S n) l) as [[[c2 r2] ks2]|] eqn:E; [|done]. cbn [mbind option_bind].
  intros [= <- <- <-]. destruct (IH _ _ _ _ _ E) as (-> & Hl & Hp). split_and!; [done|by cbn; rewrite Hl|]. intros [Hk Hks]%Forall_cons_iff.
  unfold passes in Hk. rewrite Hk. by apply Hp.
Qed.
Lemma scripts_passed l : ∀ c n c', scripts c flags false n l = Some (c', inputs_ok, []) → ∃ ks, scripts c flags true n l = Some (c', inputs_ok, ks) ∧ Forall pass ks.
Proof using Type.
  induction l as [|i l IH]; intros c n c'; cbn [check_scripts]; [intros [= <-]; by exists []|]. destruct (AccessCoins _ _) as [c1 [x|]]; [|done]. cbn [mbind option_bind].
  destruct (c_vout x !! _) as [o|]; [|done]. cbn [mbind option_bind]. destruct (run_check tx txdata _) as [[e|y| |]|[]] eqn:Ek; [|done..|].
  { clear Ek. destruct (has _ _); [destruct (run_check tx txdata _) as [[]|]|]; by intros [=]. }
  intros E. destruct (IH _ _ _ E) as (ks & -> & Hks). cbn [mbind option_bind]. eexists. split; [done|]. by constructor.
Qed.
Definition few (fsc : bool) (ks : list CScriptCheck) : Prop := (List.length ks <= List.length (vin tx))%nat ∧ (fsc = false → ks = []).
Lemma CheckInputs_passed c fsc c' ks : inputs c fsc flags false = Some (c', inputs_ok, ks) → ks = [] ∧ ∃ ks, inputs c fsc flags true = Some (c', inputs_ok, ks) ∧ Forall pass ks ∧ few fsc ks.
Proof using Type.
  unfold CheckInputs, few. destruct (no_inputs tx); cbn [negb].
  - destruct (IsSigmaSpend tx); [|intros [= <- <-]; split; [done|]; exists []; split_and!; [done|by constructor|cbn; lia|done]].
    destruct (sigma_total _ _ _) as [r|total]; [by intros [= <- -> <-]; split; [done|]; exists []; split_and!; [done|by constructor|cbn; lia|done]|].
    destruct (GetValueOut tx); [|done]. destruct (_ <? _); [done|]. intros [= <- <-]. split; [done|]; exists []; split_and!; [done|by constructor|cbn; lia|done].
  - destruct (GetSpendHeight index c) as [[c1 h]|]; [|done]. cbn [mbind option_bind]. destruct (CheckTxInputs c1 tx h) as [[c2 [e|[]]]|]; [done| |done]. cbn [mbind option_bind].
    destruct fsc; [|intros [= <- <-]; split; [done|]; exists []; split_and!; [done|by constructor|cbn; lia|done]]. intros E. pose proof (scripts_sequential _ _ _ _ _ _ E) as ->. split; [done|].
    destruct (scripts_passed _ _ _ _ E) as (ks & Ek & Hks). exists ks. destruct (scripts_collected _ _ _ _ _ _ Ek) as (_ & Hl & _). split_and!; [done|done|lia|done].
Qed.
Lemma CheckInputs_collected c fsc c' ks : inputs c fsc flags true = Some (c', inputs_ok, ks) → few fsc ks ∧ (Forall pass ks → inputs c fsc flags false = Some (c', inputs_ok, [])).
Proof using Type.
  unfold CheckInputs, few. destruct (no_inputs tx); cbn [negb].
  - destruct (IsSigmaSpend tx); [|intros [= <- <-]; split_and!; [cbn; lia|done|done]].
    destruct (sigma_total _ _ _) as [r|total]; [by intros [= <- -> <-]; split_and!; [cbn; lia|done|done]|].
    destruct (GetValueOut tx); [|done]. destruct (_ <? _); [done|]. intros [= <- <-]. split_and!; [cbn; lia|done|done].
  - destruct (GetSpendHeight index c) as [[c1 h]|]; [|done]. cbn [mbind option_bind]. destruct (CheckTxInputs c1 tx h) as [[c2 [e|[]]]|]; [done| |done]. cbn [mbind option_bind].
    destruct fsc; [|intros [= <- <-]; split_and!; [cbn; lia|done|done]]. intros E. destruct (scripts_collected _ _ _ _ _ _ E) as (_ & Hl & Hp). split_and!; [lia|done|done].
Qed.
End inputs.
Lemma verdict_true r s s' : check_verdict r s = (s', Some true) → r = inputs_ok ∧ s' = s.
Proof. unfold check_verdict, input_verdict, Invalid, DoS. destruct r as [|[]|?|?| | |]; try done; [by intros [= <-]|..]; destruct (mode s); done. Qed.

(** ** Two modes of a computation *)
(** [m0] runs the checks and [m1] collects them: a run of one to the end is a run of the other, if the collected checks pass. *)
Section modes.
Context {V : Type} `{CCoinsView V} `{MemUsage} `{OpenSSL} `{Subsystems} `{Crypto} (fsc : bool).
Notation M := (M V).
Definition collected (n : nat) (ks : list job) : Prop := (List.length ks <= n)%nat ∧ (fsc = false → ks = []).
Definition modes {A} (n : nat) (m0 m1 : M A) : Prop := ∀ w l,
  (∀ w1 a, m0 w = Some (w1, go a) → w_checks w1 = w_checks w ∧
     ∃ ks, collected n ks ∧ forallb run_job ks = true ∧ m1 (set_checks w l) = Some (set_checks w1 (l ++ ks), go a)) ∧
  (∀ w2 a, m1 (set_checks w l) = Some (w2, go a) → ∃ ks w1, collected n ks ∧ w2 = set_checks w1 (l ++ ks) ∧ w_checks w1 = w_checks w ∧
     (forallb run_job ks = true → m0 w = Some (w1, go a))).
Lemma set_checks_id (w : world V) : set_checks w (w_checks w) = w.
Proof using Type. by destruct w. Qed.
Lemma frame_keeps {A} (m : M A) w w1 o : frame m → m w = Some (w1, o) → w_checks w1 = w_checks w.
Proof using Type. intros Hm E. specialize (Hm w (w_checks w)). rewrite set_checks_id, E in Hm. injection Hm as Hm. by rewrite Hm. Qed.
Lemma modes_frame {A} (m : M A) : frame m → modes 0 m m.
Proof using Type.
  intros Hm w l. split.
  - intros w1 a E. split; [by eapply frame_keeps|]. exists []. rewrite app_nil_r, Hm, E. done.
  - intros w2 a. rewrite Hm. destruct (m w) as [[w1 o]|] eqn:E; [|done]. intros [= <- ->]. exists [], w1. rewrite app_nil_r. split_and!; [done|done|by eapply frame_keeps|done].
Qed.
Lemma modes_bind {A B} n k (m0 m1 : M A) (f0 f1 : A → M B) : modes n m0 m1 → (∀ a, modes k (f0 a) (f1 a)) → modes (n + k) (m0 ≫= f0) (m1 ≫= f1).
Proof using Type.
  intros Hm Hf w l. destruct (Hm w l) as [Hm1 Hm2]. unfold mbind, M_bind. split.
  - intros w2 b. destruct (m0 w) as [[w1 [a| |]]|]; [|done..]. intros E. destruct (Hm1 w1 a eq_refl) as (Hc1 & ks1 & [Hl1 Hn1] & Hr1 & ->).
    destruct (Hf a w1 (l ++ ks1)) as [Hf1 _]. destruct (Hf1 w2 b E) as (Hc2 & ks2 & [Hl2 Hn2] & Hr2 & ->). split; [congruence|].
    exists (ks1 ++ ks2). rewrite forallb_app, Hr1, Hr2, app_assoc. split_and!; [|done|done]. split; [rewrite length_app; lia|]. intros Hfsc. by rewrite Hn1, Hn2.
  - intros w2 b. destruct (m1 (set_checks w l)) as [[w1' [a| |]]|]; [|done..]. intros E. destruct (Hm2 w1' a eq_refl) as (ks1 & w1 & [Hl1 Hn1] & -> & Hc1 & Hr1).
    destruct (Hf a w1 (l ++ ks1)) as [_ Hf2]. destruct (Hf2 w2 b E) as (ks2 & w2' & [Hl2 Hn2] & -> & Hc2 & Hr2). exists (ks1 ++ ks2), w2'. rewrite app_assoc. split_and!; [|done|congruence|].
    + split; [rewrite length_app; lia|]. intros Hfsc. by rewrite Hn1, Hn2.
    + rewrite forallb_app. intros [Hk1 Hk2]%andb_true_iff. rewrite Hr1 by done. by apply Hr2.
Qed.
Lemma modes_mono {A} n k (m0 m1 : M A) : (n <= k)%nat → modes n m0 m1 → modes k m0 m1.
Proof using Type.
  intros Hn Hm w l. destruct (Hm w l) as [Hm1 Hm2]. split.
  - intros w1 a E. destruct (Hm1 w1 a E) as (Hc & ks & [Hl Hk] & ?). split; [done|]. exists ks. split; [split; [lia|done]|done].
  - intros w2 a E. destruct (Hm2 w2 a E) as (ks & w1 & [Hl Hk] & ?). exists ks, w1. split; [split; [lia|done]|done].
Qed.
(** A step in front that is the same in both modes. *)
Lemma modes_frame_bind {A B} n (m : M A) (f0 f1 : A → M B) : frame m → (∀ a, modes n (f0 a) (f1 a)) → modes n (m ≫= f0) (m ≫= f1).
Proof using Type. intros Hm Hf. change n with (0 + n)%nat. apply modes_bind; [by apply modes_frame|done]. Qed.
Lemma modes_bind_frame {A B} n (m0 m1 : M A) (f : A → M B) : modes n m0 m1 → (∀ a, frame (f a)) → modes n (m0 ≫= f) (m1 ≫= f).
Proof using Type. intros Hm Hf. rewrite <- (Nat.add_0_r n). apply modes_bind; [done|]. intros a. by apply modes_frame. Qed.

Context (params : Params) (sigma_denomination : list Z → option Z) (chainHeight : Z).
Lemma jobs_pass tx ks : forallb run_job (map (λ k, (tx, PrecomputedTransactionData_of tx, k)) ks) = true ↔ Forall (passes tx (Some (PrecomputedTransactionData_of tx))) ks.
Proof using Type.
  induction ks as [|k ks IH]; cbn [map forallb]; [split; [constructor|done]|]. rewrite andb_true_iff, IH, Forall_cons_iff. set (P := passes tx _) at 1 3. unfold run_job, passes. cbn [fst snd].
  destruct (run_check _ _ k) as [e|[]]; split; intros [Hk ?]; first [discriminate Hk | by split].
Qed.
Lemma check_inputs_modes tx flags : modes (List.length (vin tx)) (check_inputs sigma_denomination false tx fsc flags) (check_inputs sigma_denomination true tx fsc flags).
Proof using Type.
  intros w l. unfold check_inputs. set (td := PrecomputedTransactionData_of tx). cbn [w_index w_view w_state w_checks set_checks]. split.
  - intros w1 a. destruct (CheckInputs _ _ _ _ _ _ _ _) as [[[c r] ks]|] eqn:E; [|done]. cbn [mbind option_bind].
    destruct (check_verdict r (w_state w)) as [s [[]|]] eqn:Ev; [|done..]. destruct (verdict_true _ _ _ Ev) as [-> ->].
    destruct (CheckInputs_passed _ _ _ _ _ _ _ _ _ E) as (-> & ks1 & -> & Hks & Hl & Hn). intros [= <- _]. cbn [mbind option_bind map]. rewrite app_nil_r. split; [done|].
    exists (map (λ k, (tx, td, k)) ks1). unfold td; rewrite jobs_pass. destruct a. split_and!; [|done|done]. split; [by rewrite length_map|]. intros Hf. by rewrite Hn.
  - intros w2 a. destruct (CheckInputs _ _ _ _ _ _ _ _) as [[[c r] ks]|] eqn:E; [|done]. cbn [mbind option_bind].
    destruct (check_verdict r (w_state w)) as [s [[]|]] eqn:Ev; [|done..]. destruct (verdict_true _ _ _ Ev) as [-> ->].
    destruct (CheckInputs_collected _ _ _ _ _ _ _ _ _ E) as ([Hl Hn] & Hp). intros [= <- _]. destruct a. exists (map (λ k, (tx, td, k)) ks), (set_view w c). unfold td; rewrite jobs_pass. split_and!.
    + split; [by rewrite length_map|]. intros Hf. by rewrite Hn.
    + done.
    + done.
    + intros Hks. fold td. rewrite Hp by done. cbn [mbind option_bind map]. rewrite Ev, app_nil_r. by destruct w.
Qed.
Lemma connect_tx_modes pindex height flags lt first tx t :
  modes (List.length (vin tx)) (connect_tx params sigma_denomination chainHeight false pindex height fsc flags lt first tx t) (connect_tx params sigma_denomination chainHeight true pindex height fsc flags lt first tx t).
Proof using Type.
  unfold connect_tx. do 7 (apply modes_frame_bind; [solve [auto with frame]|intros ?]). apply modes_bind_frame; [|intros [fees stake]; frames].
  unfold check_amounts. destruct (no_inputs tx); [apply (modes_mono 0); [lia|]; apply modes_frame; auto with frame|].
  do 2 (apply modes_frame_bind; [solve [auto with frame]|intros ?]). apply modes_bind_frame; [apply check_inputs_modes|intros _; auto with frame].
Qed.
Definition total_inputs (txs : list CMutableTransaction) : nat := sum_list (map (λ tx, List.length (vin tx)) txs).
Lemma connect_txs_modes pindex height flags lt txs : ∀ first t,
  modes (total_inputs txs) (connect_txs params sigma_denomination chainHeight false pindex height fsc flags lt first txs t) (connect_txs params sigma_denomination chainHeight true pindex height fsc flags lt first txs t).
Proof using Type.
  induction txs as [|tx txs IH]; intros first t; cbn [connect_txs]; [apply modes_frame; auto with frame|]. cbn [total_inputs sum_list map]. apply modes_bind; [apply connect_tx_modes|]. intros a. apply IH.
Qed.
End modes.

(** ** Computations that return early only with [false] *)
Section declines.
Context {V : Type} `{CCoinsView V} `{MemUsage} `{OpenSSL} `{Subsystems} `{Crypto}.
Notation M := (M V).
Definition declines {A} (m : M A) : Prop := ∀ w w' b, m w = Some (w', ret b) → b = false.
Lemma declines_bind {A B} (m : M A) (f : A → M B) : declines m → (∀ a, declines (f a)) → declines (m ≫= f).
Proof using Type. intros Hm Hf w w' b. unfold mbind, M_bind. destruct (m w) as [[w1 [a|b1|]]|] eqn:E; [apply Hf|by intros [= <- <-]; apply Hm in E|done..]. Qed.
Lemma declines_ret {A} (a : A) : declines (mret a).
Proof using Type. by intros w w' b [=]. Qed.
Lemma declines_fails {A} level code reason corruption : declines (fails (A := A) level code reason corruption).
Proof using Type. intros w w' b. unfold fails, DoS. by destruct (mode (w_state w)); intros [= _ <-]. Qed.
Lemma declines_returns {A} : declines (returns (A := A) false).
Proof using Type. by intros w w' b [= _ <-]. Qed.
Lemma declines_or_throw {A} (o : option A) : declines (or_throw o).
Proof using Type. intros w w' b. by destruct o. Qed.
Lemma declines_or_crash {A} (o : option A) : declines (or_crash o).
Proof using Type. intros w w' b. by destruct o. Qed.
Lemma declines_asks {A} (f : world V → A) : declines (asks f).
Proof using Type. by intros w w' b [=]. Qed.
Lemma declines_on_view {A} f : declines (on_view (A := A) f).
Proof using Type. intros w w' b. unfold on_view. by destruct (f (w_view w)) as [[c a]|]. Qed.
Lemma declines_call m : declines (call m).
Proof using Type. intros w w' b. unfold call. by destruct (m w) as [[w1 []]|]. Qed.
Lemma declines_update f : declines (update f).
Proof using Type. by intros w w' b [=]. Qed.
Lemma declines_check_inputs sd th tx fsc flags : declines (check_inputs sd th tx fsc flags).
Proof using Type. intros w w' b. unfold check_inputs. destruct (CheckInputs _ _ _ _ _ _ _ _) as [[[c r] ks]|]; [|done]. cbn [mbind option_bind]. destruct (check_verdict r _) as [s [[]|]]; [done| |done]. by intros [= _ <-]. Qed.
End declines.
#[export] Hint Resolve declines_ret declines_fails declines_returns declines_or_throw declines_or_crash declines_asks declines_on_view declines_call declines_update declines_check_inputs : frame.
Ltac declining := unfold when; repeat first
  [ match goal with |- ∀ _, _ => intro end | solve [auto with frame] | apply declines_bind
  | match goal with |- declines (if ?c then _ else _) => destruct c | |- declines (match ?c with _ => _ end) => destruct c end ].
Section declining.
Context {V : Type} `{CCoinsView V} `{MemUsage} `{OpenSSL} `{Subsystems} `{Crypto}.
Lemma declines_prev_heights l : declines (V := V) (prev_heights l).
Proof using Type. induction l as [|i l IH]; cbn [prev_heights]; unfold access_coins; declining. Qed.
#[local] Hint Resolve declines_prev_heights : frame.
Lemma declines_connect_tx params sd ch th pindex height fsc flags lt first tx t : declines (V := V) (connect_tx params sd ch th pindex height fsc flags lt first tx t).
Proof using Type. unfold connect_tx, check_locks, check_privacy, check_amounts. declining. Qed.
#[local] Hint Resolve declines_connect_tx : frame.
Lemma declines_connect_txs params sd ch th pindex height fsc flags lt txs : ∀ first t, declines (V := V) (connect_txs params sd ch th pindex height fsc flags lt first txs t).
Proof using Type. induction txs as [|tx txs IH]; intros first t; cbn [connect_txs]; declining. Qed.
Lemma declines_check_rewards params block b t : declines (V := V) (check_rewards params block b t).
Proof using Type. unfold check_rewards. declining. Qed.
Lemma declines_Wait th answer fsc : declines (V := V) (Wait th answer fsc).
Proof using Type. intros w w' b. unfold Wait. destruct (_ && _); [apply declines_fails|by intros [=]]. Qed.
End declining.
#[export] Hint Resolve declines_prev_heights declines_connect_txs declines_check_rewards declines_Wait : frame.

(** ** Acceptance *)
Section accept.
Context {V : Type} `{CCoinsView V} `{MemUsage} `{OpenSSL} `{Subsystems} `{Crypto}.
Notation M := (M V).
Definition accepts (m : M bool) (w w' : world V) : Prop := call m w = Some (w', go true).
Lemma accepts_bind {A} (m : M A) (f : A → M bool) w w' : declines m → accepts (m ≫= f) w w' ↔ ∃ w1 a, m w = Some (w1, go a) ∧ accepts (f a) w1 w'.
Proof using Type.
  intros Hm. unfold accepts, call, mbind, M_bind. split.
  - destruct (m w) as [[w1 [a|b|]]|] eqn:E; [by eauto| |done..]. intros [= <- ->]. by apply Hm in E.
  - intros (w1 & a & -> & Hf). exact Hf.
Qed.
Lemma accepts_same {A} (m : M A) (f g : A → M bool) w w' : (∀ w1 a, m w = Some (w1, go a) → accepts (f a) w1 w' ↔ accepts (g a) w1 w') → accepts (m ≫= f) w w' ↔ accepts (m ≫= g) w w'.
Proof using Type. intros Hfg. unfold accepts, call, mbind, M_bind in *. destruct (m w) as [[w1 [a|b|]]|]; [by apply Hfg|done..]. Qed.
Lemma accepts_assoc {A B} (m : M A) (f : A → M B) (g : B → M bool) w w' : accepts ((m ≫= f) ≫= g) w w' ↔ accepts (m ≫= λ a, f a ≫= g) w w'.
Proof using Type. unfold accepts, call, mbind, M_bind. by destruct (m w) as [[w1 [a|b|]]|]. Qed.
End accept.

Section theorem.
Context {V : Type} `{CCoinsView V} `{MemUsage} `{OpenSSL} `{Subsystems} `{Crypto}.
Context (params : Params) (mapCheckpoints : list (Z * list Z)) (fCheckpointsEnabled : bool) (GetPoWHash : CBlockHeader → Z → list Z) (junk : bool * bool).
Context (nMajorityEnforceBlockUpgrade : Z) (deployments : VersionBits.Params) (sigma_denomination : list Z → option Z).
Context (GetTransaction : list Z → option (CMutableTransaction * list Z)) (fDebug : bool) (chainHeight : Z) (queue_answer : list job → bool).
Context (FindUndoPos : Z → list (list CTxInUndo) → CValidationState → CValidationState * option Z) (UndoWriteToDisk : list (list CTxInUndo) → Z → option Z) (write_indexes : CBlock → option string).
Notation connect threads := (ConnectBlock (V := V) params mapCheckpoints fCheckpointsEnabled GetPoWHash junk nMajorityEnforceBlockUpgrade deployments
  sigma_denomination GetTransaction fDebug chainHeight threads queue_answer FindUndoPos UndoWriteToDisk write_indexes).
Notation body threads := (connect_body (V := V) params mapCheckpoints fCheckpointsEnabled nMajorityEnforceBlockUpgrade deployments
  sigma_denomination GetTransaction fDebug chainHeight threads queue_answer FindUndoPos UndoWriteToDisk write_indexes).
(** What the queue answers is what some run of its threads gives. *)
Context (Hqueue : ∀ ks, Z.of_nat (List.length ks) < 2 ^ 32 → CheckQueue.answered run_job ks (queue_answer ks)).

Lemma Wait_passed w fsc ks : Z.of_nat (List.length ks) < 2 ^ 32 → (fsc = false → ks = []) →
  (∃ w1, Wait (V := V) true queue_answer fsc (set_checks w ks) = Some (w1, go tt)) ↔ forallb run_job ks = true.
Proof using Hqueue.
  intros Hl Hf. pose proof (CheckQueue.answered_unique _ _ _ (Hqueue ks Hl)) as E. unfold Wait. cbn [w_checks set_checks]. rewrite E. destruct fsc; cbn [andb].
  - destruct (forallb run_job ks); cbn [negb]; [split; [done|by eexists]|]. split; [|done]. intros [w1 E1]. unfold fails in E1. by destruct (DoS _ _ _ _ _ _).
  - rewrite Hf by done. split; [done|by eexists].
Qed.
(** The controller: from its creation with no checks to its result. *)
Lemma control_modes {A} n (m0 m1 : M V A) (K : A → M V bool) fsc w w' : modes fsc n m0 m1 → declines m0 → declines m1 → Z.of_nat n < 2 ^ 32 → w_checks w = [] →
  accepts (m0 ≫= λ a, Wait false queue_answer fsc;; K a) w w' ↔ accepts (m1 ≫= λ a, Wait true queue_answer fsc;; K a) w w'.
Proof using Hqueue.
  intros Hm Hd0 Hd1 Hn Hw. rewrite !accepts_bind by done. destruct (Hm w []) as [Hm1 Hm2]. replace (set_checks w []) with w in * by (rewrite <- Hw; by rewrite set_checks_id). split.
  - intros (w1 & a & E & Ha). destruct (Hm1 w1 a E) as (Hc & ks & [Hl Hk] & Hr & E1). exists (set_checks w1 ks), a. split; [exact E1|].
    rewrite accepts_bind in * by auto with frame. destruct Ha as (w2 & [] & Ew & Ha). unfold Wait in Ew. rewrite andb_false_r in Ew. injection Ew as <-. exists (set_checks w1 []), tt. split; [|done].
    destruct (proj2 (Wait_passed w1 fsc ks ltac:(lia) Hk) Hr) as [w2 Ew]. rewrite Ew. unfold Wait in Ew. destruct (_ && _); [unfold fails in Ew; by destruct (DoS _ _ _ _ _ _)|by injection Ew as <-].
  - intros (w1' & a & E & Ha). destruct (Hm2 w1' a E) as (ks & w1 & [Hl Hk] & -> & Hc & Hr). cbn [app] in *. rewrite accepts_bind in Ha by auto with frame. destruct Ha as (w2 & [] & Ew & Ha).
    exists w1, a. split; [apply Hr, (Wait_passed w1 fsc); [lia|done|by eexists]|]. rewrite accepts_bind by auto with frame. exists (set_checks w1 []), tt. unfold Wait. rewrite andb_false_r. split; [done|].
    unfold Wait in Ew. destruct (_ && _); [unfold fails in Ew; by destruct (DoS _ _ _ _ _ _)|]. injection Ew as <-. exact Ha.
Qed.
Lemma connect_body_modes block pindex b fJustCheck w w' : Z.of_nat (total_inputs (vtx block)) < 2 ^ 32 → accepts (body false block pindex b fJustCheck) w w' ↔ accepts (body true block pindex b fJustCheck) w w'.
Proof using Hqueue.
  intros Hn. unfold connect_body. do 2 (apply accepts_same; intros ? [] _). apply accepts_same; intros ? fsc _. apply accepts_same; intros ? [] _. apply accepts_same; intros ? [flags lt] _.
  assert (∀ f (k : M V bool) x, accepts (update f;; k) x w' ↔ accepts k (f x) w') as Hu by done. rewrite !Hu. clear Hu.
  match goal with |- context [set_info (set_checks ?x []) (Some make_info)] => set (y := set_info (set_checks x []) (Some make_info)) end.
  set (K := λ t : totals, store_block (V := V) FindUndoPos UndoWriteToDisk write_indexes block pindex b fJustCheck (vtxundo t)). 
  set (Y th := (t ← connect_txs params sigma_denomination chainHeight th pindex (nHeight b) fsc flags lt true (vtx block) totals_init;
    update (λ w, set_info w (Complete <$> w_info w));; check_rewards params block b t;; mret t) : M V totals).
  assert (∀ th, accepts (Y th ≫= λ t, Wait th queue_answer fsc;; K t) y w' ↔
    accepts (t ← connect_txs params sigma_denomination chainHeight th pindex (nHeight b) fsc flags lt true (vtx block) totals_init;
      update (λ w, set_info w (Complete <$> w_info w));; check_rewards params block b t;; Wait th queue_answer fsc;; K t) y w') as HY.
  { intros th. unfold Y. rewrite accepts_assoc. apply accepts_same. intros x t _. rewrite accepts_assoc. apply accepts_same. intros x' [] _. rewrite accepts_assoc. by apply accepts_same. }
  transitivity (accepts (Y false ≫= λ t, Wait false queue_answer fsc;; K t) y w'); [symmetry; exact (HY false)|]. transitivity (accepts (Y true ≫= λ t, Wait true queue_answer fsc;; K t) y w'); [|exact (HY true)].
  apply (control_modes (total_inputs (vtx block))); [|unfold Y; declining|unfold Y; declining|done|done].
  apply modes_bind_frame; [apply connect_txs_modes|]. intros t. frames. by apply frame_update.
Qed.

(** C4. Parallel script checks change nothing.  Let the check queue answer, for any list of checks, what some
    interleaving of its threads gives.  Then [ConnectBlock] accepts a block with script check
    threads exactly when it accepts it without, and in the same final state: the coins, the index, the undo
    data and the verdict are the same. *)
Theorem ConnectBlock_parallel block pindex fJustCheck w w' : Z.of_nat (total_inputs (vtx block)) < 2 ^ 32 →
  accepts (connect false block pindex fJustCheck) w w' ↔ accepts (connect true block pindex fJustCheck) w w'.
Proof using Hqueue.
  intros Hn. unfold ConnectBlock. do 3 (apply accepts_same; intros ? ? _). apply accepts_same; intros ? [] _. do 2 (apply accepts_same; intros ? ? _). apply accepts_same; intros ? [] _.
  destruct (bool_decide _); [done|]. by apply connect_body_modes.
Qed.
End theorem.
Lemma ConnectBlock_parallel_witness : ∃ w', accepts (connect_block false 300000 sample_txs false) (connect_world 300000) w' ∧ accepts (connect_block true 300000 sample_txs false) (connect_world 300000) w'.
Proof.
  destruct sample_accepted as (w' & E). exists w'.
  assert (accepts (connect_block true 300000 sample_txs false) (connect_world 300000) w') as Ha by (unfold accepts, call; by rewrite E).
  split; [|exact Ha]. apply (ConnectBlock_parallel regtest_params [] true (λ _ _, []) (false, false) 750 future_deployments (λ _, None) (λ _, None) false (300000 - 1) (forallb run_job)
    (λ _ _ s, (s, Some 0)) (λ _ p, Some p) (λ _, None) (λ ks Hk, CheckQueue.answered_exists run_job ks Hk)); [cbn; lia|exact Ha].
Defined.
End ConnectParallel.
