(* ===== verification/ConnectCoins.v ===== *)
(** * ConnectCoins: what a connected block does to the coins

    [ConnectBlock] reads the coins in many places and changes them with [UpdateCoins].  The
    lemmas here follow the coins, the index and the undo data through a whole block, whether it is accepted or not: which steps only
    read ([quiet]), what every step leaves below the view ([calm]), and what a block went through
    that was accepted ([checked_block]). *)
From Stdlib Require Import String.
From S2P Require Import Prelude Serialize Uint256 Amount Script Transaction Interpreter InterpreterSafety Merkle Compressor Coins CoinsView BlockCoins CheckInputs Chain VersionBits Bignum Pow HeaderCheck Stake BlockCheck CheckQueue ConnectBlock ConnectParallel.
Open Scope Z_scope.
Open Scope list_scope.

Module ConnectCoins.
Import Transaction Interpreter Compressor Coins CoinsView BlockCoins CheckInputs Chain Bignum Pow HeaderCheck Stake BlockCheck ConnectBlock ConnectParallel.

(** ** Reading the coins *)
Section reads.
Context {V : Type} {HV : CCoinsView V} `{MemUsage}.
Implicit Types c d : CCoinsViewCache V.
(** Nothing but the two ways to read a cache. *)
Inductive read : CCoinsViewCache V → CCoinsViewCache V → Prop :=
| read_coins c t c' r : cache_GetCoins c t = (c', r) → read c c'
| read_best c c' h : cache_GetBestBlock c = (c', h) → read c c'.
Definition reads : CCoinsViewCache V → CCoinsViewCache V → Prop := rtc read.
Lemma reads_AccessCoins c t : reads c (AccessCoins c t).1.
Proof using Type. apply rtc_once. eapply read_coins, surjective_pairing. Qed.
Lemma AccessCoins_reads c t c' r : AccessCoins c t = (c', r) → reads c c'.
Proof using Type. intros E. pose proof (reads_AccessCoins c t) as Hr. by rewrite E in Hr. Qed.
Lemma GetOutputFor_reads c i c' o : GetOutputFor c i = Some (c', o) → reads c c'.
Proof using Type.
  unfold GetOutputFor. destruct (AccessCoins c _) as [c1 [x|]] eqn:E; [|done]. cbn [mbind option_bind]. destruct (IsAvailable _ _); [|done].
  destruct (c_vout x !! _); [|done]. cbn [mbind option_bind]. intros [= <- _]. by eapply AccessCoins_reads.
Qed.
Lemma have_inputs_reads l : ∀ c c' b, have_inputs_loop c l = (c', b) → reads c c'.
Proof using Type.
  induction l as [|i l IH]; intros c c' b; cbn [have_inputs_loop]; [by intros [= <- _]; constructor|]. destruct (AccessCoins c _) as [c1 [x|]] eqn:E; [destruct (IsAvailable _ _)|].
  - intros Hl. etransitivity; [by eapply AccessCoins_reads|by eapply IH].
  - intros [= <- _]. by eapply AccessCoins_reads.
  - intros [= <- _]. by eapply AccessCoins_reads.
Qed.
Lemma HaveInputs_reads c tx c' b : HaveInputs c tx = (c', b) → reads c c'.
Proof using Type. unfold HaveInputs. destruct (no_inputs tx); [intros [= <- _]; constructor|apply have_inputs_reads]. Qed.
Lemma value_in_reads l : ∀ c n c' v, value_in_loop c l n = Some (c', v) → reads c c'.
Proof using Type.
  induction l as [|i l IH]; intros c n c' v; cbn [value_in_loop]; [intros [= <- _]; constructor|]. destruct (GetOutputFor c i) as [[c1 o]|] eqn:E; [|done]. cbn [mbind option_bind].
  intros Hl. etransitivity; [by eapply GetOutputFor_reads|by eapply IH].
Qed.
Lemma GetValueIn_reads c tx c' v : GetValueIn c tx = Some (c', v) → reads c c'.
Proof using Type. unfold GetValueIn. destruct (no_inputs tx); [intros [= <- _]; constructor|apply value_in_reads]. Qed.
Lemma p2sh_sigops_reads l : ∀ c n c' v, p2sh_sigops c l n = Some (c', v) → reads c c'.
Proof using Type.
  induction l as [|i l IH]; intros c n c' v; cbn [p2sh_sigops]; [intros [= <- _]; constructor|]. destruct (GetOutputFor c i) as [[c1 o]|] eqn:E; [|done]. cbn [mbind option_bind].
  intros Hl. etransitivity; [by eapply GetOutputFor_reads|by eapply IH].
Qed.
Lemma witness_sigops_reads flags l : ∀ c w n c' v, witness_sigops c flags l w n = Some (c', v) → reads c c'.
Proof using Type.
  induction l as [|i l IH]; intros c w n c' v; cbn [witness_sigops]; [intros [= <- _]; constructor|]. destruct (GetOutputFor c i) as [[c1 o]|] eqn:E; [|done]. cbn [mbind option_bind].
  destruct (CountWitnessSigOps _ _ _ _); [|done]. cbn [mbind option_bind]. intros Hl. etransitivity; [by eapply GetOutputFor_reads|by eapply IH].
Qed.
Lemma GetTransactionSigOpCost_reads c tx flags c' v : GetTransactionSigOpCost c tx flags = Some (c', v) → reads c c'.
Proof using Type.
  unfold GetTransactionSigOpCost, GetP2SHSigOpCount. destruct (no_inputs tx); [intros [= <- _]; constructor|]. destruct (has flags _); [|by apply witness_sigops_reads].
  destruct (p2sh_sigops c (vin tx) 0) as [[c1 n]|] eqn:E; [|done]. cbn [mbind option_bind]. intros Hl. etransitivity; [by eapply p2sh_sigops_reads|by eapply witness_sigops_reads].
Qed.
Lemma check_values_reads h l : ∀ c n c' v, check_values c l h n = Some (c', v) → reads c c'.
Proof using Type.
  induction l as [|i l IH]; intros c n c' v; cbn [check_values]; [intros [= <- _]; constructor|]. destruct (AccessCoins c _) as [c1 [x|]] eqn:E; [|done]. cbn [mbind option_bind].
  apply AccessCoins_reads in E. destruct (_ && _); [by intros [= <- _]|]. destruct (c_vout x !! _); [|done]. cbn [mbind option_bind]. destruct (_ || _); [by intros [= <- _]|].
  intros Hl. etransitivity; [exact E|by eapply IH].
Qed.
Lemma check_scripts_reads `{Crypto} tx td flags th l : ∀ c n c' r ks, check_scripts tx td c flags th n l = Some (c', r, ks) → reads c c'.
Proof using Type.
  induction l as [|i l IH]; intros c n c' r ks; cbn [check_scripts]; [intros [= <- _]; constructor|]. destruct (AccessCoins c _) as [c1 [x|]] eqn:E; [|done]. cbn [mbind option_bind].
  apply AccessCoins_reads in E. destruct (c_vout x !! _) as [o|]; [|done]. cbn [mbind option_bind]. destruct th.
  - destruct (check_scripts _ _ _ _ _ _ _) as [[[c2 r2] ks2]|] eqn:E2; [|done]. cbn [mbind option_bind]. intros [= <- _ _]. etransitivity; [exact E|by eapply IH].
  - destruct (run_check tx td _) as [[e|y| |]|]; [|done..|intros Hl; etransitivity; [exact E|by eapply IH]].
    destruct (has _ _); [destruct (run_check tx td _) as [[]|]|]; intros [= <- _ _]; exact E.
Qed.
Lemma CheckTxInputs_reads tx h c c' r : CheckTxInputs c tx h = Some (c', r) → reads c c'.
Proof using Type.
  unfold CheckTxInputs. destruct (HaveInputs c tx) as [c1 b] eqn:E. apply HaveInputs_reads in E. destruct b; cbn [negb]; [|by intros [= <- _]].
  destruct (check_values c1 _ _ _) as [[c2 v]|] eqn:E2; [|done]. cbn [mbind option_bind]. intros [= <- _]. etransitivity; [exact E|by eapply check_values_reads].
Qed.
Lemma CheckInputs_reads `{Crypto} sd st tx td c fsc flags th c' r ks : CheckInputs sd st tx td c fsc flags th = Some (c', r, ks) → reads c c'.
Proof using Type.
  unfold CheckInputs, GetSpendHeight. destruct (negb (no_inputs tx)).
  - destruct (cache_GetBestBlock c) as [c1 best] eqn:E. assert (reads c c1) as Hr by (apply rtc_once; by eapply read_best). destruct (mapBlockIndex st !! best); [|done]. cbn [mbind option_bind].
    destruct (blocks st !! _); [|done]. cbn [mbind option_bind]. destruct (CheckTxInputs c1 tx _) as [[c2 r2]|] eqn:E2; [|done]. cbn [mbind option_bind]. apply CheckTxInputs_reads in E2.
    destruct r2; [intros [= <- _ _]; by etransitivity|]. destruct fsc; [|intros [= <- _ _]; by etransitivity]. intros E3%check_scripts_reads. etransitivity; [exact Hr|by etransitivity].
  - destruct (IsSigmaSpend tx); [|intros [= <- _ _]; constructor]. destruct (sigma_total _ _ _); [intros [= <- _ _]; constructor|]. destruct (GetValueOut tx); [|intros [= <- _ _]; constructor].
    destruct (_ <? _); intros [= <- _ _]; constructor.
Qed.

Context {HS : CoinsSpec V}.
(** What reading leaves as it is. *)
Definition unchanged c c' : Prop := same_coins c c' ∧ same_base c c' ∧ cache_best c' = cache_best c.
Lemma read_unchanged c c' : cache_ok c → read c c' → cache_ok c' ∧ unchanged c c'.
Proof using Type.
  intros Hc Hr. destruct Hr as [c t c' r E|c c' h E].
  - destruct (cache_GetCoins_spec c t Hc) as (c2 & r2 & E2 & Hc2 & Hu & Hb & _). rewrite E in E2. injection E2 as <- <-. split; [done|]. split_and!; [done| |done].
    unfold cache_GetCoins, FetchCoins in E. destruct (cacheCoins c !! t); [by injection E as <- _|]. destruct (GetCoins_spec (base c) t (co_base c Hc)) as (v & x & Ev & _ & Hv & _).
    rewrite Ev in E. destruct x; injection E as <- _; exact Hv.
  - destruct (@GetBestBlock_spec _ _ CCoinsViewCache_spec c Hc) as (c2 & E2 & Hc2 & Hu & Hb). cbn [GetBestBlock CCoinsViewCache_view] in E2. rewrite E in E2. injection E2 as <- _. split; [done|]. split_and!; [done| |done].
    unfold cache_GetBestBlock in E. destruct (Uint256.IsNull (hashBlock c)); [|by injection E as <- _]. destruct (GetBestBlock_spec (base c) (co_base c Hc)) as (v & Ev & _ & Hv & _).
    rewrite Ev in E. injection E as <- _. exact Hv.
Qed.
Lemma reads_unchanged c c' : cache_ok c → reads c c' → cache_ok c' ∧ unchanged c c'.
Proof using Type.
  intros Hc Hr. revert Hc. induction Hr as [c|c c1 c' H1 _ IH]; intros Hc; [by split_and!|]. destruct (read_unchanged c c1 Hc H1) as (Hc1 & Hu1 & Hb1 & Hbest1).
  destruct (IH Hc1) as (Hc' & Hu & Hb & Hbest). split; [done|]. split_and!; [intros z; by rewrite Hu, Hu1|intros z; by rewrite Hb, Hb1|congruence].
Qed.
End reads.

(** ** The view below, which is only read *)
Section lower.
Context {V : Type} {HV : CCoinsView V} `{MemUsage}.
Implicit Types c : CCoinsViewCache V.
Inductive base_read : V → V → Prop :=
| base_coins v t v' r : GetCoins v t = (v', r) → base_read v v'
| base_best v v' h : GetBestBlock v = (v', h) → base_read v v'.
Definition lower c c' : Prop := rtc base_read (base c) (base c').
Lemma lower_same c c' : base c' = base c → lower c c'.
Proof using Type. unfold lower. intros ->. constructor. Qed.
Lemma lower_trans c1 c2 c3 : lower c1 c2 → lower c2 c3 → lower c1 c3.
Proof using Type. unfold lower. intros H12 H23. by etransitivity. Qed.
Lemma reads_lower c c' : reads c c' → lower c c'.
Proof using Type.
  induction 1 as [c|c c1 c' Hr _ IH]; [by apply lower_same|]. eapply lower_trans; [|exact IH]. clear IH. destruct Hr as [c t c1 r E|c c1 h E].
  - unfold cache_GetCoins, FetchCoins in E. destruct (cacheCoins c !! t); [injection E as <- _; by apply lower_same|]. destruct (GetCoins (base c) t) as [v x] eqn:Ev.
    apply rtc_once. destruct x; injection E as <- _; by eapply base_coins.
  - unfold cache_GetBestBlock in E. destruct (Uint256.IsNull _); [|injection E as <- _; by apply lower_same]. destruct (GetBestBlock (base c)) as [v x] eqn:Ev. injection E as <- _.
    apply rtc_once. by eapply base_best.
Qed.
Lemma use_modifier_base {A} c usage t (f : CCoins → option (CCoins * A)) c' a : use_modifier (Some (c, usage)) t f = Some (c', a) → base c' = base c.
Proof using Type.
  unfold use_modifier. cbn [mbind option_bind]. destruct (cacheCoins c !! t) as [e|]; [|done]. cbn [mbind option_bind]. destruct (f _) as [[y b]|]; [|done]. cbn [mbind option_bind].
  unfold end_modifier. destruct (negb _); [done|]. destruct (_ !! t); [|done]. cbn [mbind option_bind]. intros [= <- _]. by destruct (_ && _).
Qed.
Lemma modify_lower {A} c t (f : CCoins → option (CCoins * A)) c' a : use_modifier (ModifyCoins c t) t f = Some (c', a) → lower c c'.
Proof using Type.
  unfold ModifyCoins, take_modifier. destruct (hasModifier c); [done|]. destruct (cacheCoins c !! t).
  - destruct (hasModifier _); [done|]. intros E%use_modifier_base. by apply lower_same.
  - destruct (GetCoins (base c) t) as [v r] eqn:Ev. destruct (hasModifier _); [done|]. intros E%use_modifier_base. unfold lower. rewrite E. apply rtc_once. by eapply base_coins.
Qed.
Lemma UpdateCoins_lower Hash c tx h c' us : UpdateCoins Hash c tx h = Some (c', us) → lower c c'.
Proof using Type.
  assert (∀ l c c' us, spend_inputs c l = Some (c', us) → lower c c') as Hs.
  { clear. induction l as [|i l IH]; intros c c' us; cbn [spend_inputs]; [intros [= <- _]; by apply lower_same|]. destruct (use_modifier _ _ _) as [[c1 u]|] eqn:E; [|done]. cbn [mbind option_bind].
    destruct (spend_inputs c1 l) as [[c2 us']|] eqn:E2; [|done]. cbn [mbind option_bind]. intros [= <- _]. eapply lower_trans; [by eapply modify_lower|by eapply IH]. }
  unfold UpdateCoins. destruct (if negb (no_inputs tx) then _ else _) as [[c1 us1]|] eqn:E1; [|done]. cbn [mbind option_bind]. destruct (GetHash Hash tx) as [t|]; [|done]. cbn [mbind option_bind].
  destruct (use_modifier _ t _) as [[c2 []]|] eqn:E2; [|done]. cbn [mbind option_bind]. intros [= <- _]. eapply lower_trans.
  - destruct (negb (no_inputs tx)); [by eapply Hs|injection E1 as <- _; by apply lower_same].
  - apply lower_same. unfold ModifyNewCoins, take_modifier in E2. destruct (hasModifier c1); [done|]. destruct (hasModifier _); [done|]. by apply use_modifier_base in E2.
Qed.
Context {HS : CoinsSpec V}.
Lemma lower_ok c c' : view_ok (base c) → lower c c' → view_ok (base c') ∧ (∀ z, utxo (base c') z = utxo (base c) z) ∧ best_block (base c') = best_block (base c).
Proof using Type.
  unfold lower. intros Hv Hr. revert Hv. induction Hr as [v|v v1 v' Hr _ IH]; intros Hv; [done|].
  assert (view_ok v1 ∧ (∀ z, utxo v1 z = utxo v z) ∧ best_block v1 = best_block v) as (Hv1 & Hu1 & Hb1).
  { clear IH. destruct Hr as [v t v1 r E|v v1 h E].
    - destruct (GetCoins_spec v t Hv) as (v2 & r2 & E2 & ? & ? & ? & _). rewrite E in E2. by injection E2 as <- _.
    - destruct (GetBestBlock_spec v Hv) as (v2 & E2 & ? & ? & ?). rewrite E in E2. by injection E2 as <- _. }
  destruct (IH Hv1) as (Hv' & Hu & Hb). split_and!; [done|intros z; by rewrite Hu, Hu1|congruence].
Qed.
End lower.

(** ** Steps that only read the coins *)
Section quiet.
Context {V : Type} `{CCoinsView V} `{MemUsage} `{OpenSSL} `{Subsystems} `{Crypto}.
Notation M := (M V).
(** The block index and the undo data. *)
Definition disk (w : world V) : index_state * gmap ptr (list (list CTxInUndo)) := (w_index w, w_undo w).
Lemma disk_index w w' : disk w' = disk w → w_index w' = w_index w.
Proof using Type. by intros [=]. Qed.
Lemma disk_undo w w' : disk w' = disk w → w_undo w' = w_undo w.
Proof using Type. by intros [=]. Qed.
Definition quiet {A} (m : M A) : Prop := ∀ w w' o, m w = Some (w', o) → reads (w_view w) (w_view w') ∧ disk w' = disk w.
Lemma bind_go {A B} (m : M A) (f : A → M B) w w' b : (m ≫= f) w = Some (w', go b) ↔ ∃ w1 a, m w = Some (w1, go a) ∧ f a w1 = Some (w', go b).
Proof using Type. unfold mbind, M_bind. split; [destruct (m w) as [[w1 [a| |]]|]; [by eauto|done..]|by intros (w1 & a & -> & Hf)]. Qed.
(** How a step that is not the end of the function can end it. *)
Definition stopped {A} (o : outcome A) : Prop := match o with ret false | throw => True | _ => False end.
Lemma bind_any {A B} (m : M A) (f : A → M B) w w' o : declines m → (m ≫= f) w = Some (w', o) →
  (stopped o ∧ ∃ o1, m w = Some (w', o1)) ∨ ∃ w1 a, m w = Some (w1, go a) ∧ f a w1 = Some (w', o).
Proof using Type.
  intros Hm. unfold mbind, M_bind. destruct (m w) as [[w1 [a|b|]]|] eqn:E; [by right; eauto|..|done]; intros [= <- <-]; left.
  - pose proof (Hm _ _ _ E) as ->. split; [done|by eexists].
  - split; [done|by eexists].
Qed.
Lemma when_go c (m : M unit) w w' a : when c m w = Some (w', go a) → (∀ w1 w1' a1, m w1 ≠ Some (w1', go a1)) → c = false ∧ w' = w.
Proof using Type. destruct c; cbn [when]; [intros E Hm; by destruct (Hm _ _ _ E)|by intros [= <- _]]. Qed.
Lemma fails_go {A} level code reason corruption w w' a : fails (V := V) (A := A) level code reason corruption w ≠ Some (w', go a).
Proof using Type. unfold fails. by destruct (DoS _ _ _ _ _ _). Qed.
Lemma quiet_bind {A B} (m : M A) (f : A → M B) : quiet m → (∀ a, quiet (f a)) → quiet (m ≫= f).
Proof using Type.
  intros Hm Hf w w' o. unfold mbind, M_bind. destruct (m w) as [[w1 [a|b|]]|] eqn:E; [|by intros [= <- _]; apply Hm in E..|done]. apply Hm in E as [Hr Hi].
  intros [Hr' Hi']%Hf. split; [by etransitivity|congruence].
Qed.
Lemma quiet_same {A} (m : M A) : (∀ w w' o, m w = Some (w', o) → w_view w' = w_view w ∧ disk w' = disk w) → quiet m.
Proof using Type. intros Hm w w' o E. destruct (Hm w w' o E) as [-> ->]. split; [constructor|done]. Qed.
Lemma quiet_ret {A} (a : A) : quiet (mret a).
Proof using Type. apply quiet_same. by intros w w' o [= <- _]. Qed.
Lemma quiet_fails {A} level code reason corruption : quiet (fails (A := A) level code reason corruption).
Proof using Type. apply quiet_same. intros w w' o. unfold fails. destruct (DoS _ _ _ _ _ _). by intros [= <- _]. Qed.
Lemma quiet_returns {A} b : quiet (returns (A := A) b).
Proof using Type. apply quiet_same. by intros w w' o [= <- _]. Qed.
Lemma quiet_or_throw {A} (o : option A) : quiet (or_throw o).
Proof using Type. apply quiet_same. destruct o; by intros w w' o [= <- _]. Qed.
Lemma quiet_or_crash {A} (o : option A) : quiet (or_crash o).
Proof using Type. apply quiet_same. destruct o; by intros w w' o [= <- _]. Qed.
Lemma quiet_asks {A} (f : world V → A) : quiet (asks f).
Proof using Type. apply quiet_same. by intros w w' o [= <- _]. Qed.
Lemma quiet_on_view {A} f : (∀ c c' a, f c = Some (c', a) → reads c c') → quiet (on_view (A := A) f).
Proof using Type. intros Hf w w' o. unfold on_view. destruct (f (w_view w)) as [[c a]|] eqn:E; [|done]. cbn [mbind option_bind]. intros [= <- _]. split; [by eapply Hf|done]. Qed.
Lemma quiet_on_info f : quiet (on_info f).
Proof using Type. apply quiet_same. intros w w' o. unfold on_info. destruct (f _) as [[i s] r]. by intros [= <- _]. Qed.
Lemma quiet_on_state f : quiet (on_state f).
Proof using Type. apply quiet_same. intros w w' o. unfold on_state. destruct (f _) as [s r]. by intros [= <- _]. Qed.
Lemma quiet_call m : quiet m → quiet (call m).
Proof using Type. intros Hm w w' o. unfold call. destruct (m w) as [[w1 [a|b|]]|] eqn:E; [..|done]; intros [= <- _]; by apply Hm in E. Qed.
Lemma quiet_catch m : quiet m → quiet (catch_true m).
Proof using Type. intros Hm w w' o. unfold catch_true. destruct (m w) as [[w1 [a|b|]]|] eqn:E; [..|done]; intros [= <- _]; by apply Hm in E. Qed.
Lemma quiet_update f : (∀ w, w_view (f w) = w_view w ∧ disk (f w) = disk w) → quiet (update f).
Proof using Type. intros Hf. apply quiet_same. by intros w w' o [= <- _]. Qed.
Lemma quiet_access t : quiet (access_coins (V := V) t).
Proof using Type. apply quiet_on_view. intros c c' a [= E]. by eapply AccessCoins_reads. Qed.
Lemma quiet_have tx : quiet (on_view (λ c : CCoinsViewCache V, Some (HaveInputs c tx))).
Proof using Type. apply quiet_on_view. intros c c' a [= E]. by eapply HaveInputs_reads. Qed.
Lemma quiet_cost tx flags : quiet (on_view (λ c : CCoinsViewCache V, GetTransactionSigOpCost c tx flags)).
Proof using Type. apply quiet_on_view. intros c c' a E. by eapply GetTransactionSigOpCost_reads. Qed.
Lemma quiet_best : quiet (on_view (λ c : CCoinsViewCache V, Some (cache_GetBestBlock c))).
Proof using Type. apply quiet_on_view. intros c c' a [= E]. apply rtc_once. by eapply read_best. Qed.
(** Steps that read the view below and leave the disk alone. *)
Definition calm {A} (m : M A) : Prop := ∀ w w' o, m w = Some (w', o) → lower (w_view w) (w_view w') ∧ disk w' = disk w.
Lemma quiet_calm {A} (m : M A) : quiet m → calm m.
Proof using Type. intros Hm w w' o [Hr Hd]%Hm. split; [by apply reads_lower|done]. Qed.
Lemma calm_bind {A B} (m : M A) (f : A → M B) : calm m → (∀ a, calm (f a)) → calm (m ≫= f).
Proof using Type.
  intros Hm Hf w w' o. unfold mbind, M_bind. destruct (m w) as [[w1 [a|b|]]|] eqn:E; [|by intros [= <- _]; apply Hm in E..|done]. apply Hm in E as [Hr Hi].
  intros [Hr' Hi']%Hf. split; [by eapply lower_trans|congruence].
Qed.
(** A step in a run that has read the coins so far: it ends the run, or the run goes on. *)
Definition near (w w' : world V) : Prop := reads (w_view w) (w_view w') ∧ disk w' = disk w.
Lemma near_trans w1 w2 w3 : near w1 w2 → near w2 w3 → near w1 w3.
Proof using Type. intros [? ?] [? ?]. split; [by etransitivity|congruence]. Qed.
Lemma quiet_next {A B} (m : M A) (f : A → M B) w0 w w' o : quiet m → declines m → near w0 w → (m ≫= f) w = Some (w', o) →
  (stopped o ∧ near w0 w') ∨ ∃ w1 a, m w = Some (w1, go a) ∧ near w0 w1 ∧ f a w1 = Some (w', o).
Proof using Type.
  intros Hq Hm Hn E. apply bind_any in E as [(Hst & o1 & E)|(w1 & a & E1 & E)]; [..|done]; [left|right].
  - split; [done|]. eapply near_trans; [exact Hn|by eapply Hq].
  - exists w1, a. split_and!; [done| |done]. eapply near_trans; [exact Hn|by eapply Hq].
Qed.
Lemma near_calm w w' : near w w' → lower (w_view w) (w_view w') ∧ disk w' = disk w.
Proof using Type. intros [? ?]. split; [by apply reads_lower|done]. Qed.
Lemma quiet_crash {A} : quiet (crash (A := A)).
Proof using Type. by intros w w' o. Qed.
End quiet.
#[export] Hint Resolve quiet_ret quiet_fails quiet_returns quiet_or_throw quiet_or_crash quiet_asks quiet_on_info quiet_on_state quiet_access quiet_have quiet_cost quiet_best quiet_crash : frame.
Ltac quieting := unfold when; repeat first
  [ match goal with |- ∀ _, _ => intro end | solve [auto with frame] | apply quiet_bind | apply quiet_call | apply quiet_catch | apply quiet_update; done
  | match goal with |- quiet (if ?c then _ else _) => destruct c | |- quiet (match ?c with _ => _ end) => destruct c end ].
Section quieting.
Context {V : Type} `{CCoinsView V} `{MemUsage} `{OpenSSL} `{Subsystems} `{Crypto}.
Lemma quiet_check_outputs tx l : ∀ n, quiet (V := V) (check_outputs tx l n).
Proof using Type. induction l as [|o l IH]; intros n; cbn [check_outputs]; quieting. Qed.
Lemma quiet_check_duplicates tx l : ∀ a b c, quiet (V := V) (check_duplicates tx l a b c).
Proof using Type. induction l as [|i l IH]; intros a b c; cbn [check_duplicates]; quieting. Qed.
#[local] Hint Resolve quiet_check_outputs quiet_check_duplicates : frame.
Lemma quiet_CheckTransaction tx v h c : quiet (V := V) (CheckTransaction tx v h c).
Proof using Type. unfold CheckTransaction. quieting. Qed.
#[local] Hint Resolve quiet_CheckTransaction : frame.
Lemma quiet_check_transactions l v h : quiet (V := V) (check_transactions l v h).
Proof using Type.
  induction l as [|tx l IH]; cbn [check_transactions]; quieting. apply quiet_same. intros w w' o. unfold invalid_again. destruct (Invalid _ _ _ _). by intros [= <- _].
Qed.
Lemma quiet_check_locked l : quiet (V := V) (check_locked l).
Proof using Type. induction l as [|tx l IH]; cbn [check_locked]; quieting. Qed.
Lemma quiet_check_signature block : quiet (V := V) (check_signature block).
Proof using Type. unfold check_signature. quieting. Qed.
#[local] Hint Resolve quiet_check_transactions quiet_check_locked quiet_check_signature : frame.
Lemma quiet_CheckBlock params GetPoWHash junk block p m h v s : quiet (V := V) (CheckBlock params GetPoWHash junk block p m h v s).
Proof using Type.
  assert (quiet (V := V) (check_header params GetPoWHash junk block p)) as Hh.
  { apply quiet_same. intros w w' o. unfold check_header. destruct (CheckBlockHeader _ _ _ _ _ _ _ _) as [[g [s1 ok]]|]; [|done]. cbn [mbind option_bind]. by intros [= <- _]. }
  assert (∀ A, quiet (V := V) (invalid_again (A := A))) as Hi.
  { intros A. apply quiet_same. intros w w' o. unfold invalid_again. destruct (Invalid _ _ _ _). by intros [= <- _]. }
  unfold CheckBlock, check_rules. quieting. apply quiet_update. intros w. by destruct p, m.
Qed.
Lemma quiet_prev_heights l : quiet (V := V) (prev_heights l).
Proof using Type. induction l as [|i l IH]; cbn [prev_heights]; quieting. Qed.
#[local] Hint Resolve quiet_prev_heights : frame.
Lemma quiet_check_locks tx p f : quiet (V := V) (check_locks tx p f).
Proof using Type. unfold check_locks. quieting. Qed.
Lemma quiet_check_inputs sd th tx fsc flags : quiet (V := V) (check_inputs sd th tx fsc flags).
Proof using Type.
  intros w w' o. unfold check_inputs. destruct (CheckInputs _ _ _ _ _ _ _ _) as [[[c r] ks]|] eqn:E; [|done]. cbn [mbind option_bind]. destruct (check_verdict r _) as [s b].
  intros [= <- _]. split; [by eapply CheckInputs_reads|done].
Qed.
Lemma quiet_check_overwrite l : quiet (V := V) (check_overwrite l).
Proof using Type. induction l as [|tx l IH]; cbn [check_overwrite]; quieting. Qed.
Lemma quiet_check_privacy tx h f : quiet (V := V) (check_privacy tx h f).
Proof using Type. unfold check_privacy. quieting. Qed.
Lemma quiet_check_amounts sd th tx fsc flags t : quiet (V := V) (check_amounts sd th tx fsc flags t).
Proof using Type.
  pose proof (quiet_check_inputs sd th tx fsc flags) as Hi. unfold check_amounts. quieting. apply quiet_on_view. intros ? ? ? E. by eapply GetValueIn_reads.
Qed.
#[local] Hint Resolve quiet_check_locks quiet_check_privacy quiet_check_amounts : frame.
Lemma calm_connect_tx params sd ch th p h fsc flags lt first tx t : calm (V := V) (connect_tx params sd ch th p h fsc flags lt first tx t).
Proof using Type.
  unfold connect_tx. do 7 (apply calm_bind; [apply quiet_calm; quieting|intros ?]). apply calm_bind; [apply quiet_calm; quieting|intros [fees stake]]. apply calm_bind; [|intros ?; apply quiet_calm; quieting].
  intros w w' o. unfold on_view. destruct (UpdateCoins _ _ _ _) as [[c us]|] eqn:E; [|done]. cbn [mbind option_bind]. intros [= <- _]. split; [by eapply UpdateCoins_lower|done].
Qed.
Lemma calm_connect_txs params sd ch th p h fsc flags lt txs : ∀ first t, calm (V := V) (connect_txs params sd ch th p h fsc flags lt first txs t).
Proof using Type. induction txs as [|tx txs IH]; intros first t; cbn [connect_txs]; [apply quiet_calm; quieting|]. apply calm_bind; [apply calm_connect_tx|intros ?; apply IH]. Qed.
Lemma quiet_check_rewards params block b t : quiet (V := V) (check_rewards params block b t).
Proof using Type. unfold check_rewards. quieting. Qed.
Lemma quiet_Wait th answer fsc : quiet (V := V) (Wait th answer fsc).
Proof using Type. apply quiet_same. intros w w' o. unfold Wait, fails. destruct (_ && _); [destruct (DoS _ _ _ _ _ _)|]; by intros [= <- _]. Qed.
End quieting.
#[export] Hint Resolve quiet_CheckBlock quiet_check_locks quiet_check_inputs quiet_check_overwrite quiet_check_rewards quiet_Wait : frame.

(** ** One transaction *)
(** Neither zerocoin nor sigma. *)
Definition plain (tx : CMutableTransaction) : bool := negb (IsZerocoinSpend tx || IsZerocoinMint tx || IsSigmaSpend tx || IsSigmaMint tx).
Section transaction.
Context {V : Type} `{CCoinsView V} `{MemUsage} `{OpenSSL} `{Subsystems} `{Crypto}.
Context (params : Params) (sd : list Z → option Z) (ch : Z) (th : bool) (pindex : ptr) (height : Z) (fsc : bool) (flags lt : Z).
Implicit Types w : world V.
(** What a run of [connect_tx] to its end went through: the inputs and the amounts at some moment, then the update of the coins. *)
Record connected (first : bool) (tx : CMutableTransaction) (t t' : totals) w w' (id : list Z) (c1 : CCoinsViewCache V) (us : list CTxInUndo) : Prop := {
  cn_id : GetHash Hash256 tx = Some id;
  cn_new : bool_decide (id ∈ txIds t) && (fTestNet params || (HF_NOIRNODE_HEIGHT <=? height)) = false;
  cn_ids : txIds t' = {[id]} ∪ txIds t;
  cn_undo : vtxundo t' = if first then vtxundo t else vtxundo t ++ [us];
  cn_reads : reads (w_view w) c1;
  cn_update : UpdateCoins Hash256 c1 tx height = Some (w_view w', us);
  cn_disk : disk w' = disk w;
  cn_none : no_inputs tx = true → nFees t' = nFees t ∧ nActualStakeReward t' = nActualStakeReward t;
  cn_amounts : no_inputs tx = false → ∃ ca cb cc out vin ks, reads (w_view w) ca ∧ GetValueOut tx = Some out ∧ GetValueIn ca tx = Some (cb, vin) ∧
    CheckInputs sd (w_index w) tx (Some (PrecomputedTransactionData_of tx)) cb fsc flags th = Some (cc, inputs_ok, ks) ∧
    (nFees t', nActualStakeReward t') = if IsCoinStake tx then (nFees t, i64 (out - vin)) else (i64 (nFees t + i64 (vin - out)), nActualStakeReward t) }.
Lemma check_inputs_go tx w w' a : check_inputs sd th tx fsc flags w = Some (w', go a) → ∃ cc ks,
  CheckInputs sd (w_index w) tx (Some (PrecomputedTransactionData_of tx)) (w_view w) fsc flags th = Some (cc, inputs_ok, ks).
Proof using Type.
  unfold check_inputs. destruct (CheckInputs _ _ _ _ _ _ _ _) as [[[c r] ks]|]; [|done]. cbn [mbind option_bind]. destruct (check_verdict r _) as [s [[]|]] eqn:Ev; [|done..].
  intros _. destruct (verdict_true _ _ _ Ev) as [-> _]. by eexists _, _.
Qed.
Lemma check_amounts_go tx t t' w w' : check_amounts sd th tx fsc flags t w = Some (w', go t') → reads (w_view w) (w_view w') ∧ disk w' = disk w ∧
  (no_inputs tx = true → t' = t) ∧
  (no_inputs tx = false → ∃ cb cc out vin ks, GetValueOut tx = Some out ∧ GetValueIn (w_view w) tx = Some (cb, vin) ∧
    CheckInputs sd (w_index w) tx (Some (PrecomputedTransactionData_of tx)) cb fsc flags th = Some (cc, inputs_ok, ks) ∧
    t' = if IsCoinStake tx then (t.1, i64 (out - vin)) else (i64 (t.1 + i64 (vin - out)), t.2)).
Proof using Type.
  unfold check_amounts. destruct (no_inputs tx) eqn:En; [intros [= <- <-]; split_and!; [constructor|done..]|].
  rewrite bind_go. intros (w1 & out & Eo & E). destruct (GetValueOut tx) as [o|]; [|done]. injection Eo as <- <-. apply bind_go in E as (w2 & vi & Ev & E). unfold on_view in Ev.
  destruct (GetValueIn (w_view w) tx) as [[cb v]|] eqn:Ei; [|done]. injection Ev as <- <-. apply bind_go in E as (w3 & [] & Ec & E). injection E as <- <-.
  pose proof (quiet_check_inputs _ _ _ _ _ _ _ _ Ec) as [Hr Hi]. destruct (check_inputs_go _ _ _ _ Ec) as (cc & ks & Ek). split_and!; [|done|done|].
  - etransitivity; [by eapply GetValueIn_reads|exact Hr].
  - intros _. by exists cb, cc, o, v, ks.
Qed.
Lemma connect_tx_go first tx t t' w w' : plain tx = true → connect_tx params sd ch th pindex height fsc flags lt first tx t w = Some (w', go t') →
  ∃ id c1 us, connected first tx t t' w w' id c1 us.
Proof using Type.
  intros Hp%negb_true_iff. unfold connect_tx. rewrite bind_go. intros (w0 & id & Ei & E). destruct (GetHash Hash256 tx) as [h|] eqn:Eh; [|done]. injection Ei as <- <-.
  apply bind_go in E as (w1 & [] & E1 & E). apply when_go in E1 as [Hnew ->]; [|apply fails_go]. apply bind_go in E as (w2 & [] & E2 & E). apply quiet_check_locks in E2 as [Hr2 Hi2].
  apply bind_go in E as (w3 & fees & E3 & E). unfold check_privacy in E3. rewrite Hp in E3. injection E3 as <- <-.
  apply bind_go in E as (w4 & [] & E4 & E). apply when_go in E4 as [_ ->]; [|done]. apply bind_go in E as (w5 & cost & E5 & E). apply quiet_cost in E5 as [Hr5 Hi5].
  apply bind_go in E as (w6 & [] & E6 & E). apply when_go in E6 as [_ ->]; [|apply fails_go]. apply bind_go in E as (w7 & [fees stake] & E7 & E).
  apply check_amounts_go in E7 as (Hr7 & Hi7 & Hno & Ha). apply bind_go in E as (w8 & us & E8 & E). unfold on_view in E8. destruct (UpdateCoins Hash256 (w_view w7) tx height) as [[c2 u]|] eqn:Eu; [|done].
  injection E8 as <- <-. injection E as <- <-. assert (reads (w_view w) (w_view w5)) as Hr by (by etransitivity). exists h, (w_view w7), u. split; try done; cbn [nFees nActualStakeReward w_view set_view w_index].
  - by etransitivity.
  - change (disk w7 = disk w). congruence.
  - intros En. by injection (Hno En) as -> ->.
  - intros En. destruct (Ha En) as (cb & cc & out & vi & ks & Eo & Ev & Ek & ->). exists (w_view w5), cb, cc, out, vi, ks. rewrite <- (disk_index _ _ Hi2), <- (disk_index _ _ Hi5). by split_and!.
Qed.
End transaction.

(** ** The block *)
Section more_steps.
Context {V : Type} `{CCoinsView V} `{MemUsage} `{OpenSSL} `{Subsystems} `{Crypto}.
Context (params : Params) (mapCheckpoints : list (Z * list Z)) (fCheckpointsEnabled : bool) (n : Z) (deployments : VersionBits.Params) (GetTransaction : list Z → option (CMutableTransaction * list Z)) (fDebug : bool).
Lemma quiet_set_stake_modifier block p b : quiet (V := V) (set_stake_modifier params block p b).
Proof using Type. unfold set_stake_modifier. quieting. Qed.
Lemma declines_set_stake_modifier block p b : declines (V := V) (set_stake_modifier params block p b).
Proof using Type. unfold set_stake_modifier. declining. Qed.
Lemma proof_of_stake_steps block b (stake : CMutableTransaction) : let m : M V bool := λ w, q ← pprev b;
  '(s, ok) ← CheckProofOfStake params GetTransaction (w_index w) (λ p, default (Uint256.blob_null 32) (w_modifiers w !! p)) fDebug q stake (hb_nTime (GetBlockHeader block)) (hb_nBits (GetBlockHeader block)) (w_state w);
  Some (set_state w s, go ok) in quiet m ∧ declines m.
Proof using Type.
  intros m. unfold m. split; [apply quiet_same|]; intros w w' o; destruct (pprev b) as [q|]; [|done| |done]; cbn [mbind option_bind];
    destruct (CheckProofOfStake _ _ _ _ _ _ _ _ _ _) as [[s ok]|]; [|done| |done]; cbn [mbind option_bind]; [by intros [= <- _]|done].
Qed.
Lemma quiet_check_stake block p b : quiet (V := V) (check_stake params GetTransaction fDebug block p b).
Proof using Type. unfold check_stake. quieting. apply proof_of_stake_steps. Qed.
Lemma declines_check_stake block p b : declines (V := V) (check_stake params GetTransaction fDebug block p b).
Proof using Type. unfold check_stake, access_coins. declining. apply proof_of_stake_steps. Qed.
Lemma quiet_script_checks p b : quiet (V := V) (script_checks mapCheckpoints fCheckpointsEnabled p b).
Proof using Type. unfold script_checks. quieting. Qed.
Lemma declines_script_checks p b : declines (V := V) (script_checks mapCheckpoints fCheckpointsEnabled p b).
Proof using Type. unfold script_checks. declining. Qed.
Lemma declines_check_overwrite l : declines (V := V) (check_overwrite l).
Proof using Type. induction l as [|tx l IH]; cbn [check_overwrite]; unfold access_coins; declining. Qed.
Lemma quiet_version_bits q pos : quiet (version_bits (V := V) deployments q pos).
Proof using Type. apply quiet_same. intros w w' o. unfold version_bits. destruct (VersionBits.VersionBitsState _ _ _ _ _) as [[c s]|]; [|done]. cbn [mbind option_bind]. by intros [= <- _]. Qed.
Lemma declines_version_bits q pos : declines (version_bits (V := V) deployments q pos).
Proof using Type. intros w w' o. unfold version_bits. destruct (VersionBits.VersionBitsState _ _ _ _ _) as [[c s]|]; [|done]. cbn [mbind option_bind]. by intros [=]. Qed.
Lemma quiet_script_flags block b : quiet (V := V) (script_flags params n deployments block b).
Proof using Type. unfold script_flags, super_majority. quieting; apply quiet_version_bits. Qed.
Lemma declines_script_flags block b : declines (V := V) (script_flags params n deployments block b).
Proof using Type. unfold script_flags, super_majority. declining; apply declines_version_bits. Qed.
End more_steps.
#[export] Hint Resolve quiet_set_stake_modifier declines_set_stake_modifier quiet_check_stake declines_check_stake quiet_script_checks declines_script_checks declines_check_overwrite quiet_script_flags declines_script_flags : frame.

Section whole.
Context {V : Type} {HV : CCoinsView V} {HS : CoinsSpec V} `{MemUsage} `{OpenSSL} `{Subsystems} `{Crypto}.
Context (params : Params) (mapCheckpoints : list (Z * list Z)) (fCheckpointsEnabled : bool) (GetPoWHash : CBlockHeader → Z → list Z) (junk : bool * bool).
Context (nMajorityEnforceBlockUpgrade : Z) (deployments : VersionBits.Params) (sigma_denomination : list Z → option Z).
Context (GetTransaction : list Z → option (CMutableTransaction * list Z)) (fDebug : bool) (chainHeight : Z) (threads : bool) (queue_answer : list job → bool).
Context (FindUndoPos : Z → list (list CTxInUndo) → CValidationState → CValidationState * option Z) (UndoWriteToDisk : list (list CTxInUndo) → Z → option Z) (write_indexes : CBlock → option string).
Notation connect := (ConnectBlock (V := V) params mapCheckpoints fCheckpointsEnabled GetPoWHash junk nMajorityEnforceBlockUpgrade deployments
  sigma_denomination GetTransaction fDebug chainHeight threads queue_answer FindUndoPos UndoWriteToDisk write_indexes).
Notation body := (connect_body (V := V) params mapCheckpoints fCheckpointsEnabled nMajorityEnforceBlockUpgrade deployments
  sigma_denomination GetTransaction fDebug chainHeight threads queue_answer FindUndoPos UndoWriteToDisk write_indexes).
Notation store := (store_block (V := V) FindUndoPos UndoWriteToDisk write_indexes).
Implicit Types w : world V.

Lemma check_overwrite_go l : ∀ w w', cache_ok (w_view w) → check_overwrite l w = Some (w', go tt) → ∀ tx, tx ∈ l → ∃ id, GetHash Hash256 tx = Some id ∧ cache_utxo (w_view w) id = None.
Proof using Type.
  induction l as [|tx l IH]; intros w w' Hc; cbn [check_overwrite]; [by intros _ tx []%not_elem_of_nil|]. rewrite bind_go. intros (w1 & id & E1 & E). destruct (GetHash Hash256 tx) as [h|] eqn:Eh; [|done]. injection E1 as <- <-.
  apply bind_go in E as (w2 & coins & E2 & E). unfold access_coins, on_view in E2. destruct (cache_GetCoins_spec (w_view w) h Hc) as (c & r & Er & Hc' & Hu & _ & Hn & _). unfold AccessCoins in E2. rewrite Er in E2. injection E2 as <- <-.
  apply bind_go in E as (w3 & [] & E3 & E). apply when_go in E3 as [Hp ->]; [|apply fails_go]. intros tx' [-> |Hin]%elem_of_cons.
  - exists h. split; [done|]. rewrite <- Hn. destruct r as [x|]; [|done]. apply negb_false_iff in Hp. by apply norm_pruned.
  - destruct (IH (set_view w c) w' Hc' E tx' Hin) as (id & Eid & Hid). exists id. split; [done|]. cbn [w_view set_view] in Hid. by rewrite <- Hu.
Qed.
Lemma check_rewards_go block b t w w' : check_rewards params block b t w = Some (w', go tt) → ∃ cb value, vtx block !! 0%nat = Some cb ∧ GetValueOut cb = Some value ∧
  value <= i64 (nFees t + GetBlockSubsidy params (nHeight b)) ∧ (block_IsProofOfStake block = true → nActualStakeReward t <= i64 (nFees t + GetBlockSubsidy params (nHeight b))).
Proof using Type.
  unfold check_rewards. rewrite bind_go. intros (w1 & cb & E1 & E). destruct (vtx block !! 0%nat) as [x|]; [|done]. injection E1 as <- <-. apply bind_go in E as (w2 & value & E2 & E).
  destruct (GetValueOut x) as [v|] eqn:Ev; [|done]. injection E2 as <- <-. apply bind_go in E as (w3 & [] & E3 & E). apply when_go in E3 as [_ ->]; [|apply fails_go].
  apply bind_go in E as (w4 & [] & E4 & E). apply when_go in E4 as [Hs ->]; [|apply fails_go]. apply bind_go in E as (w5 & [] & E5 & E). apply when_go in E5 as [Hv ->]; [|apply fails_go].
  exists x, v. apply negb_false_iff, Z.leb_le in Hv. split_and!; [done|done|done|]. intros Hp. rewrite Hp in Hs. cbn in Hs. lia.
Qed.
Lemma declines_on_state f : declines (on_state (V := V) f).
Proof using Type. intros w w' b. unfold on_state. by destruct (f _) as [s [[]|]]. Qed.
Lemma declines_AbortNode {A} msg : declines (AbortNode (V := V) (A := A) msg).
Proof using Type. by intros w w' b [= _ <-]. Qed.
Lemma declines_FindUndoPos file undo : declines (λ w, let '(s, r) := FindUndoPos file undo (w_state w) in Some (set_state w s, match r with Some p => go p | None => ret false end)).
Proof using Type. intros w w' b. destruct (FindUndoPos _ _ _) as [s [p|]]; [done|]. by intros [= _ <-]. Qed.
#[local] Hint Resolve declines_on_state declines_AbortNode declines_FindUndoPos : frame.
Lemma declines_write_undo pindex undo : declines (write_undo (V := V) FindUndoPos UndoWriteToDisk pindex undo).
Proof using Type. unfold write_undo. declining. Qed.
#[local] Hint Resolve declines_write_undo : frame.
(** What writing the undo data leaves of an entry. *)
Definition kept (b : CBlockIndex) := (bones b, nFile b).
Lemma RaiseValidity_kept b b' r : RaiseValidity b BLOCK_VALID_SCRIPTS = Some (b', r) → kept b' = kept b ∧ has_undo b' = has_undo b.
Proof using Type.
  unfold RaiseValidity. destruct (negb _); [done|]. destruct (negb _); [by intros [= <- _]|]. destruct (_ <? _); [|by intros [= <- _]]. intros [= <- _]. split; [done|].
  unfold has_undo. cbn [nStatus set_nStatus nFile]. rewrite Z.land_lor_distr_l, <- Z.land_assoc. change (Z.land (u32 (Z.lnot BLOCK_VALID_MASK)) BLOCK_HAVE_UNDO) with BLOCK_HAVE_UNDO.
  change (Z.land BLOCK_VALID_SCRIPTS BLOCK_HAVE_UNDO) with 0. by rewrite Z.lor_0_r.
Qed.
Lemma set_undo_pos_kept b pos : kept (set_undo_pos b pos) = kept b ∧ (nFile b ≠ -1 → has_undo (set_undo_pos b pos) = true).
Proof using Type.
  split; [done|]. intros Hf. unfold has_undo. cbn [nStatus set_undo_pos nFile]. rewrite Z.land_lor_distr_l. change (Z.land BLOCK_HAVE_UNDO BLOCK_HAVE_UNDO) with 16.
  apply andb_true_iff. rewrite !negb_true_iff, !Z.eqb_neq. split; [|done]. rewrite Z.lor_eq_0_iff. by intros [_ ?].
Qed.
(** The entry has undo data afterwards, and the data is new if the entry had none. *)
Definition stored (pindex : ptr) (undo : list (list CTxInUndo)) w w' : Prop := ∃ b b', blocks (w_index w) !! pindex = Some b ∧ blocks (w_index w') = <[pindex := b']> (blocks (w_index w)) ∧
  kept b' = kept b ∧ (nFile b ≠ -1 → has_undo b' = true) ∧ w_undo w' = if has_undo b then w_undo w else <[pindex := undo]> (w_undo w).
Lemma write_undo_any pindex undo w w' o : write_undo FindUndoPos UndoWriteToDisk pindex undo w = Some (w', o) → w_view w' = w_view w ∧
  ((stopped o ∧ disk w' = disk w) ∨ (o = go tt ∧ stored pindex undo w w')).
Proof using Type.
  unfold write_undo, mbind, M_bind, asks, mret, M_ret, AbortNode, update. cbn [compose]. destruct (blocks (w_index w) !! pindex) as [x|] eqn:Ex; [|done]. cbn [or_crash mret M_ret].
  destruct (IsValid x _) as [v|]; [|done]. cbn [or_crash mret M_ret]. unfold mret, M_ret. destruct (has_undo x) eqn:Eu; cbn [negb orb].
  - assert (∀ y, kept y = kept x → has_undo y = true → ∀ w1, blocks (w_index w1) = <[pindex := y]> (blocks (w_index w)) → w_undo w1 = w_undo w → stored pindex undo w w1) as Hs
      by (intros y Hk Hy w1 Hw1 Hu1; exists x, y; rewrite Eu; by split_and!).
    destruct (negb v); [|intros [= <- <-]; split; [done|right; split; [done|]; apply (Hs x); [done|done|by rewrite list_insert_id|done]]].
    destruct (RaiseValidity x _) as [[y r]|] eqn:Er; [|done]. intros [= <- <-]. apply RaiseValidity_kept in Er as [Hk Hy].
    split; [done|right; split; [done|]]. apply (Hs y); [done|congruence|done|done].
  - destruct (FindUndoPos _ _ _) as [s [q|]]; [|intros [= <- <-]; by split; [|left]]. destruct (pprev x); [|done]. cbn [or_crash mret M_ret]. unfold mret, M_ret.
    destruct (UndoWriteToDisk undo q) as [pos|]; [|intros [= <- <-]; by split; [|left]]. destruct (set_undo_pos_kept x pos) as [Hk Hy].
    destruct (RaiseValidity _ _) as [[y r]|] eqn:Er; [|done]. intros [= <- <-]. apply RaiseValidity_kept in Er as [Hk' Hy']. split; [done|right; split; [done|]].
    exists x, y. rewrite Eu. split_and!; [done|done|congruence|intros Hf; rewrite Hy'; by apply Hy|done].
Qed.
(** After the result of the queue the coins stay; the undo data is stored unless the block is only checked. *)
Lemma store_any block pindex b fJustCheck undo w w' o : store block pindex b fJustCheck undo w = Some (w', o) →
  (w_view w' = w_view w ∧ disk w' = disk w ∧ (stopped o ∨ fJustCheck = true)) ∨
  (stored pindex undo w w' ∧ fJustCheck = false ∧ ((stopped o ∧ w_view w' = w_view w) ∨ (o = go true ∧ w_view w' = SetBestBlock (w_view w) (phashBlock b)))).
Proof using Type.
  unfold store_block, on_state. unfold mbind at 1, M_bind at 1. destruct (ConnectBlockZC _ _ _ _) as [s [[]|]]; cbn [negb when]; [|intros [= <- <-]; left; by split_and!; [..|left]..].
  unfold mbind at 1, M_bind at 1, mret at 1, M_ret at 1. unfold mbind at 1, M_bind at 1. cbn [w_state set_state]. destruct (ConnectBlockSigma _ _ _ _) as [s2 [[]|]]; cbn [negb when]; [|intros [= <- <-]; left; by split_and!; [..|left]..].
  unfold mbind at 1, M_bind at 1, mret at 1, M_ret at 1. destruct fJustCheck; cbn [when]; [intros [= <- <-]; left; by split_and!; [..|right]|].
  unfold mbind at 1, M_bind at 1, mret at 1, M_ret at 1. unfold mbind at 1, M_bind at 1. destruct (write_undo _ _ _ _ _) as [[w1 o1]|] eqn:E; [|done]. apply write_undo_any in E as [Hv [[Hst Hd]|[-> Hs]]].
  - destruct o1 as [[]|[]|]; [done|done|..]; intros [= <- <-]; left; split_and!; [exact Hv|exact Hd|by left|exact Hv|exact Hd|by left].
  - destruct (write_indexes block); intros [= <- <-]; right; (split; [exact Hs|split; [done|]]); [left; split; [done|exact Hv]|right; split; [done|]].
    change (SetBestBlock (w_view w1) (phashBlock b) = SetBestBlock (w_view w) (phashBlock b)). by rewrite Hv.
Qed.

(** What a block went through whose undo data may have been stored, if it is not the first one. *)
Record checked_block (block : CBlock) (pindex : ptr) w (b : CBlockIndex) w1 w2 w3 (t : totals) (fsc : bool) (flags lt : Z) : Prop := {
  cb_entry : blocks (w_index w) !! pindex = Some b;
  cb_before : reads (w_view w) (w_view w1) ∧ disk w1 = disk w;
  cb_new : ∀ tx, tx ∈ vtx block → ∃ id, GetHash Hash256 tx = Some id ∧ cache_utxo (w_view w) id = None;
  cb_txs : connect_txs params sigma_denomination chainHeight threads pindex (nHeight b) fsc flags lt true (vtx block) totals_init w1 = Some (w2, go t);
  cb_rewards : ∃ cb value, vtx block !! 0%nat = Some cb ∧ GetValueOut cb = Some value ∧ value <= i64 (nFees t + GetBlockSubsidy params (nHeight b)) ∧
    (block_IsProofOfStake block = true → nActualStakeReward t <= i64 (nFees t + GetBlockSubsidy params (nHeight b)));
  cb_after : reads (w_view w2) (w_view w3) ∧ disk w3 = disk w2 }.
Lemma body_any block pindex b fJustCheck w w' o : cache_ok (w_view w) → blocks (w_index w) !! pindex = Some b → body block pindex b fJustCheck w = Some (w', o) →
  (stopped o ∧ lower (w_view w) (w_view w') ∧ disk w' = disk w) ∨
  ∃ w1 w2 w3 t fsc flags lt, checked_block block pindex w b w1 w2 w3 t fsc flags lt ∧ lower (w_view w) (w_view w3) ∧ disk w3 = disk w ∧ store block pindex b fJustCheck (vtxundo t) w3 = Some (w', o).
Proof using Type.
  intros Hc Eb. unfold connect_body. intros E. assert (∀ w1, near w w1 → lower (w_view w) (w_view w1) ∧ disk w1 = disk w) as Hn by apply near_calm.
  apply (quiet_next _ _ w) in E as [[Hst E]|(w1 & [] & _ & N1 & E)]; [left; by auto| |auto with frame..|split; [constructor|done]].
  apply (quiet_next _ _ w) in E as [[Hst E]|(w2 & [] & _ & N2 & E)]; [left; by auto| |auto with frame..|done].
  apply (quiet_next _ _ w) in E as [[Hst E]|(w3 & fsc & _ & N3 & E)]; [left; by auto| |auto with frame..|done].
  apply (quiet_next _ _ w) in E as [[Hst E]|(w4 & [] & E4 & N4 & E)]; [left; by auto| |auto with frame..|done].
  destruct (reads_unchanged _ _ Hc (proj1 N3)) as (Hc3 & Hu3 & _). pose proof (check_overwrite_go _ _ _ Hc3 E4) as Hnew.
  apply (quiet_next _ _ w) in E as [[Hst E]|(w5 & [flags lt] & _ & N5 & E)]; [left; by auto| |auto with frame..|done].
  set (w6 := set_info (set_checks w5 []) (Some make_info)). change ((t ← connect_txs params sigma_denomination chainHeight threads pindex (nHeight b) fsc flags lt true (vtx block) totals_init;
    update (λ w, set_info w (Complete <$> w_info w));; check_rewards params block b t;; Wait threads queue_answer fsc;; store block pindex b fJustCheck (vtxundo t)) w6 = Some (w', o)) in E.
  apply bind_any in E as [(Hst & o1 & E)|(w7 & t & E7 & E)]; [| |auto with frame].
  { left. apply calm_connect_txs in E as [Hl Hd]. destruct (near_calm _ _ N5) as [Hl5 Hd5]. split_and!; [done|by eapply lower_trans|exact (eq_trans Hd Hd5)]. }
  pose proof (calm_connect_txs _ _ _ _ _ _ _ _ _ _ _ _ _ _ _ E7) as [Hl7 Hd7]. set (w8 := set_info w7 (Complete <$> w_info w7)).
  assert (∀ w9, near w8 w9 → lower (w_view w) (w_view w9) ∧ disk w9 = disk w) as Hn'.
  { intros w9 N9. destruct (near_calm _ _ N5) as [Hl5 Hd5]. destruct (near_calm _ _ N9) as [Hl9 Hd9]. split; [eapply lower_trans; [exact Hl5|]; eapply lower_trans; [exact Hl7|exact Hl9]|].
    exact (eq_trans Hd9 (eq_trans Hd7 Hd5)). }
  change ((check_rewards params block b t;; Wait threads queue_answer fsc;; store block pindex b fJustCheck (vtxundo t)) w8 = Some (w', o)) in E.
  apply (quiet_next _ _ w8) in E as [[Hst E]|(w9 & [] & E9 & N9 & E)]; [left; by auto| |auto with frame..|split; [constructor|done]].
  apply (quiet_next _ _ w8) in E as [[Hst E]|(w10 & [] & _ & N10 & E)]; [left; by auto| |auto with frame..|done].
  right. destruct (Hn' w10 N10). exists w6, w7, w10, t, fsc, flags, lt. split_and!; [|done|done|done]. split; [done|exact N5| |done|by eapply check_rewards_go|exact N10].
  intros tx Htx. destruct (Hnew tx Htx) as (id & Hid & Hn0). exists id. split; [done|]. by rewrite <- Hu3.
Qed.
Lemma ConnectBlock_any block pindex fJustCheck w w' o : cache_ok (w_view w) → hb_hash (GetBlockHeader block) ≠ hashGenesisBlock params → connect block pindex fJustCheck w = Some (w', o) →
  (stopped o ∧ lower (w_view w) (w_view w') ∧ disk w' = disk w) ∨
  ∃ b w1 w2 w3 t fsc flags lt, checked_block block pindex w b w1 w2 w3 t fsc flags lt ∧ lower (w_view w) (w_view w3) ∧ disk w3 = disk w ∧ store block pindex b fJustCheck (vtxundo t) w3 = Some (w', o).
Proof using Type.
  intros Hc Hg. unfold ConnectBlock. intros E. assert (near w w) as N by (split; [constructor|done]). assert (∀ w1, near w w1 → lower (w_view w) (w_view w1) ∧ disk w1 = disk w) as Hn by apply near_calm.
  apply (quiet_next _ _ w) in E as [[Hst E]|(w0 & A & [= <- <-] & _ & E)]; [left; by auto| |auto with frame..|done]. cbn [compose] in E.
  apply (quiet_next _ _ w) in E as [[Hst E]|(w1 & x & E1 & N1 & E)]; [left; by auto| |auto with frame..|done]. destruct (blocks (w_index w) !! pindex) as [y|] eqn:Eb; [|done]. injection E1 as <- <-.
  apply (quiet_next _ _ w) in E as [[Hst E]|(w2 & ok & _ & N2 & E)]; [left; by auto| |apply quiet_call; auto with frame|auto with frame|done].
  apply (quiet_next _ _ w) in E as [[Hst E]|(w3 & [] & _ & N3 & E)]; [left; by auto| |quieting|declining|done].
  apply (quiet_next _ _ w) in E as [[Hst E]|(w4 & hp & _ & N4 & E)]; [left; by auto| |quieting|declining|done].
  apply (quiet_next _ _ w) in E as [[Hst E]|(w5 & best & _ & N5 & E)]; [left; by auto| |auto with frame..|done].
  destruct (bool_decide (hp = best)); [|done]. change ((if bool_decide (hb_hash (GetBlockHeader block) = hashGenesisBlock params)
    then when (negb fJustCheck) (update (λ w, set_view w (SetBestBlock (w_view w) (phashBlock y))));; mret true else body block pindex y fJustCheck) w5 = Some (w', o)) in E.
  rewrite bool_decide_false in E by done. destruct (reads_unchanged _ _ Hc (proj1 N5)) as (Hc5 & Hu5 & _). destruct (Hn w5 N5) as [Hl5 Hd5].
  apply body_any in E as [(Hst & Hl & Hd)|(w6 & w7 & w8 & t & fsc & flags & lt & [G1 G2 G3 G4 G5 G6] & Hl & Hd & E)]; [..|done|by rewrite (disk_index _ _ Hd5)].
  - left. split_and!; [done|by eapply lower_trans|congruence].
  - right. exists y, w6, w7, w8, t, fsc, flags, lt. split_and!; [|by eapply lower_trans|congruence|done]. split; [done|exact (near_trans _ _ _ N5 G2)| |done|done|done].
    intros tx Htx. destruct (G3 tx Htx) as (id & Hid & Hn0). exists id. split; [done|]. by rewrite <- Hu5.
Qed.
Lemma ConnectBlock_go block pindex fJustCheck w w' : cache_ok (w_view w) → hb_hash (GetBlockHeader block) ≠ hashGenesisBlock params → accepts (connect block pindex fJustCheck) w w' →
  ∃ b w1 w2 w3 t fsc flags lt, checked_block block pindex w b w1 w2 w3 t fsc flags lt ∧ lower (w_view w) (w_view w3) ∧ disk w3 = disk w ∧
    if fJustCheck then w_view w' = w_view w3 else w_view w' = SetBestBlock (w_view w3) (phashBlock b) ∧ stored pindex (vtxundo t) w3 w'.
Proof using Type.
  intros Hc Hg. unfold accepts, call. destruct (connect block pindex fJustCheck w) as [[w1 o]|] eqn:E; [|done]. intros Ho. assert (w1 = w' ∧ ¬ stopped o) as [-> Hst] by (destruct o as [[]|[]|]; first [discriminate Ho | injection Ho as <-; split; [done|intros []]]).
  apply ConnectBlock_any in E as [[? _]|(b & w2 & w3 & w4 & t & fsc & flags & lt & Hb & Hl & Hd & E)]; [done| |done|done]. exists b, w2, w3, w4, t, fsc, flags, lt. split_and!; [done..|].
  apply store_any in E as [(Hv & _ & [?| ->])|(Hs & -> & [[? _]|[_ Hv]])]; done.
Qed.
End whole.
End ConnectCoins.
