(* ===== verification/BlockRules.v ===== *)
(** * BlockRules: what an accepted block obeys

    The rules on transactions and blocks as predicates, and that [CheckTransaction] and [CheckBlock] enforce them: which ones
    hold of a block that [CheckBlock] accepts, and in which two cases none of them was looked at. *)
From Stdlib Require Import String.
From S2P Require Import Prelude Serialize Uint256 Amount Script Transaction Interpreter Standard InterpreterSafety Merkle Compressor Coins CoinsView BlockCoins CheckInputs Chain VersionBits Bignum Pow HeaderCheck Stake BlockCheck CheckQueue ConnectBlock ConnectSample ConnectParallel ConnectCoins.
Open Scope Z_scope.
Open Scope list_scope.

Module BlockRules.
Import Transaction Interpreter Standard Compressor Coins CoinsView BlockCoins CheckInputs Chain Bignum Pow HeaderCheck Stake BlockCheck ConnectBlock ConnectParallel ConnectCoins.

(** ** The rules *)
Definition spends_privately (tx : CMutableTransaction) : bool := IsZerocoinSpend tx || IsSigmaSpend tx.
Record tx_rules (tx : CMutableTransaction) : Prop := {
  tr_vin : vin tx ≠ [];
  tr_vout : vout tx ≠ [];
  tr_size : ∃ n, GetSerializeSize_tx tx (Z.lor PROTOCOL_VERSION SERIALIZE_TRANSACTION_NO_WITNESS) = Some n ∧ n <= MAX_BLOCK_BASE_SIZE;
  tr_values : Forall (λ o, 0 <= nValue o <= Amount.MAX_MONEY) (vout tx) ∧ sum_values (vout tx) <= Amount.MAX_MONEY;
  tr_empty : IsCoinBase tx = false → IsCoinStake tx = false → Forall (λ o, CTxOut_IsEmpty o = false) (vout tx);
  tr_distinct : spends_privately tx = false → NoDup (map prevout (vin tx));
  tr_serials : spends_privately tx = true → NoDup (map scriptSig (vin tx));
  tr_coinbase : IsCoinBase tx = true → ∃ i, vin tx !! 0%nat = Some i ∧ 2 <= Script.size (scriptSig i) <= 100;
  tr_null : IsCoinBase tx = false → Forall (λ i, COutPoint_IsNull (prevout i) = true → Script.IsZerocoinSpend (scriptSig i) = true) (vin tx) }.
Section block.
Context `{OpenSSL} `{Subsystems} `{Crypto} (params : Params) (GetPoWHash : CBlockHeader → Z → list Z) (junk : bool * bool).
(** A proof of stake is signed with a key that the second output of its coinstake contains: as the key that the output pays to,
    or pushed after an [OP_RETURN].  Other blocks have no signature. *)
Definition signed (block : CBlock) : Prop :=
  if block_IsProofOfStake block then
    ∃ coinstake txout key, vtx block !! 1%nat = Some coinstake ∧ vout coinstake !! 1%nat = Some txout ∧
      CPubKey_Set key = Some key ∧ Verify key (hb_hash (GetBlockHeader block)) (vchBlockSig block) = true ∧
      (standard (scriptPubKey txout) TX_PUBKEY [key] ∨
       ∃ r op r', scriptPubKey txout = Script.opcode_val Script.OP_RETURN :: r ∧ Script.IsPushOnly r = true ∧ Script.GetOp r = Some (op, key, r'))
  else vchBlockSig block = [].
Record block_rules (st : index_state) (g : limits) (block : CBlock) (fCheckPOW fCheckMerkleRoot : bool) (nHeight : Z) (fCheckSig : bool) : Prop := {
  br_header : ∃ g' state state', CheckBlockHeader params GetPoWHash junk st g state (GetBlockHeader block) fCheckPOW = Some (g', (state', true));
  br_merkle : fCheckMerkleRoot = true → Merkle.BlockMerkleRoot (vtx block) = Some (hb_hashMerkleRoot (GetBlockHeader block), false);
  br_size : ∃ n, GetSerializeSize_block block = Some n ∧ n <= MAX_BLOCK_BASE_SIZE;
  br_coinbase : ∃ cb rest, vtx block = cb :: rest ∧ IsCoinBase cb = true ∧ Forall (λ tx, IsCoinBase tx = false) rest ∧
    (block_IsProofOfStake block = true → (∃ o, vout cb !! 0%nat = Some o ∧ CTxOut_IsEmpty o = true) ∧ Forall (λ tx, IsCoinStake tx = false) (drop 2 (vtx block)));
  br_signature : nLastPOWBlock params < nHeight → fCheckSig = true → signed block;
  br_txs : Forall tx_rules (vtx block);
  br_sigops : u32 (foldl (λ n tx, u32 (n + GetLegacySigOpCount tx)) 0 (vtx block) * WITNESS_SCALE_FACTOR) <= MAX_BLOCK_SIGOPS_COST }.
End block.

Section transaction.
Context {V : Type} `{OpenSSL} `{Subsystems} `{Crypto}.
Implicit Types w : world V.
Lemma check_outputs_go tx l : ∀ n w w', 0 <= n <= Amount.MAX_MONEY → check_outputs tx l n w = Some (w', go tt) →
  Forall (λ o, 0 <= nValue o <= Amount.MAX_MONEY) l ∧ n + sum_values l <= Amount.MAX_MONEY ∧ (IsCoinBase tx = false → IsCoinStake tx = false → Forall (λ o, CTxOut_IsEmpty o = false) l).
Proof using Type.
  induction l as [|o l IH]; intros n w w' Hn; cbn [check_outputs]; [intros _; split_and!; [constructor|cbn; lia|constructor]|].
  rewrite bind_go. intros (w1 & [] & E1 & E). apply when_go in E1 as [He ->]; [|apply fails_go]. apply bind_go in E as (w2 & [] & E2 & E). apply when_go in E2 as [H3 ->]; [|apply fails_go].
  apply bind_go in E as (w3 & [] & E3 & E). apply when_go in E3 as [H4 ->]; [|apply fails_go]. apply bind_go in E as (w4 & [] & E4 & E). apply when_go in E4 as [H5 ->]; [|apply fails_go].
  assert (0 < Amount.MAX_MONEY < 2 ^ 60) by done. rewrite i64_small in E, H5 by lia. apply negb_false_iff in H5. unfold Amount.MoneyRange in H5. apply andb_true_iff in H5 as [? ?].
  destruct (IH (n + nValue o) w w' ltac:(lia) E) as (I1 & I2 & I3). change (sum_values (o :: l)) with (nValue o + sum_values l). split_and!; [constructor; [lia|done]|lia|].
  intros Hb Hs. constructor; [|by apply I3]. rewrite Hb, Hs in He. by rewrite !andb_true_r in He.
Qed.
Lemma check_duplicates_go tx l : ∀ a b c w w', check_duplicates tx l a b c w = Some (w', go tt) →
  (spends_privately tx = false → NoDup (map prevout l) ∧ ∀ x, x ∈ map prevout l → x ∉ c) ∧
  (IsZerocoinSpend tx = true → NoDup (map scriptSig l) ∧ ∀ x, x ∈ map scriptSig l → x ∉ a) ∧
  (IsZerocoinSpend tx = false → IsSigmaSpend tx = true → NoDup (map scriptSig l) ∧ ∀ x, x ∈ map scriptSig l → x ∉ b).
Proof using Type.
  unfold spends_privately. induction l as [|i l IH]; intros a b c w w'; cbn [check_duplicates map]; [intros _; split_and!; intros; split; try constructor; by intros x []%not_elem_of_nil|].
  destruct (IsZerocoinSpend tx) eqn:Ez; [|destruct (IsSigmaSpend tx) eqn:Es]; rewrite bind_go; intros (w1 & [] & E1 & E); (apply when_go in E1 as [Hd ->]; [|apply fails_go]); apply bool_decide_eq_false in Hd;
    destruct (IH _ _ _ _ _ E) as (I1 & I2 & I3); split_and!; try done.
  - intros _. destruct (I2 eq_refl) as [Hn Hx]. split; [constructor; [|done]; intros Hi%Hx; set_solver|]. intros x [-> |Hxl]%elem_of_cons; [done|]. specialize (Hx x Hxl). set_solver.
  - intros _ _. destruct (I3 eq_refl eq_refl) as [Hn Hx]. split; [constructor; [|done]; intros Hi%Hx; set_solver|]. intros x [-> |Hxl]%elem_of_cons; [done|]. specialize (Hx x Hxl). set_solver.
  - intros _. destruct (I1 eq_refl) as [Hn Hx]. split; [constructor; [|done]; intros Hi%Hx; set_solver|]. intros x [-> |Hxl]%elem_of_cons; [done|]. specialize (Hx x Hxl). set_solver.
Qed.
Lemma CheckTransaction_go tx v h c w w' : CheckTransaction tx v h c w = Some (w', go true) → tx_rules tx.
Proof using Type.
  unfold CheckTransaction. rewrite bind_go. intros (w1 & [] & E1 & E). apply when_go in E1 as [Hi ->]; [|apply fails_go]. apply bind_go in E as (w2 & [] & E2 & E). apply when_go in E2 as [Ho ->]; [|apply fails_go].
  apply bind_go in E as (w3 & n & E3 & E). destruct (GetSerializeSize_tx tx _) as [sz|] eqn:Esz; [|done]. injection E3 as <- <-. apply bind_go in E as (w4 & [] & E4 & E). apply when_go in E4 as [Hsz ->]; [|apply fails_go].
  apply bind_go in E as (w5 & [] & E5 & E). apply check_outputs_go in E5 as (O1 & O2 & O3); [|done]. apply bind_go in E as (w6 & [] & E6 & E). apply check_duplicates_go in E6 as (D1 & D2 & D3).
  apply bind_go in E as (w7 & [] & E7 & E). clear E.
  assert ((IsCoinBase tx = true → ∃ i, vin tx !! 0%nat = Some i ∧ 2 <= Script.size (scriptSig i) <= 100) ∧
    (IsCoinBase tx = false → Forall (λ i, COutPoint_IsNull (prevout i) = true → Script.IsZerocoinSpend (scriptSig i) = true) (vin tx))) as [B1 B2].
  { destruct (IsCoinBase tx); split; try done; intros _.
    - apply bind_go in E7 as (w8 & i & E8 & E7). destruct (vin tx !! 0%nat) as [x|]; [|done]. injection E8 as <- <-. apply when_go in E7 as [Hb ->]; [|apply fails_go]. exists x. split; [done|]. apply orb_false_iff in Hb. lia.
    - apply when_go in E7 as [Hb ->]; [|apply fails_go]. apply List.Forall_forall. intros i Hin Hnull. destruct (Script.IsZerocoinSpend (scriptSig i)) eqn:Ez; [done|].
      assert (existsb (λ txin, COutPoint_IsNull (prevout txin) && negb (Script.IsZerocoinSpend (scriptSig txin))) (vin tx) = true) by (apply existsb_exists; exists i; by rewrite Hnull, Ez). congruence. }
  split; try done.
  - intros Ev. rewrite Ev in Hi. done.
  - intros Ev. rewrite Ev in Ho. done.
  - exists sz. split; [done|lia].
  - intros Hp. by apply D1.
  - intros Hp. unfold spends_privately in Hp. destruct (IsZerocoinSpend tx) eqn:Ez; [by apply D2|by apply D3].
Qed.
Lemma declines_check_outputs tx l : ∀ n, declines (V := V) (check_outputs tx l n).
Proof using Type. induction l as [|o l IH]; intros n; cbn [check_outputs]; declining. Qed.
Lemma declines_check_duplicates tx l : ∀ a b c, declines (V := V) (check_duplicates tx l a b c).
Proof using Type. induction l as [|i l IH]; intros a b c; cbn [check_duplicates]; declining. Qed.
Lemma declines_on_info f : declines (on_info (V := V) f).
Proof using Type. intros w w' b. unfold on_info. by destruct (f _) as [[i s] [[]|]]. Qed.
#[local] Hint Resolve declines_check_outputs declines_check_duplicates declines_on_info : frame.
Lemma declines_CheckTransaction tx v h c : declines (V := V) (CheckTransaction tx v h c).
Proof using Type. unfold CheckTransaction. declining. Qed.
Lemma invalid_again_go {A} w w' (a : A) : invalid_again (V := V) w ≠ Some (w', go a).
Proof using Type. unfold invalid_again. by destruct (Invalid _ _ _ _). Qed.
Lemma check_transactions_go l v h : ∀ w w', check_transactions l v h w = Some (w', go tt) → Forall tx_rules l.
Proof using Type.
  induction l as [|tx l IH]; intros w w'; cbn [check_transactions]; [intros _; constructor|]. rewrite bind_go. intros (w1 & ok & E1 & E). apply bind_go in E as (w2 & [] & E2 & E).
  apply when_go in E2 as [Hok ->]; [|apply invalid_again_go]. apply negb_false_iff in Hok. subst ok. constructor; [|by eapply IH]. unfold call in E1.
  destruct (CheckTransaction tx v h false w) as [[w3 [a|b|]]|] eqn:Ec; [|..|done]; injection E1 as <- Ho; [subst a; by eapply CheckTransaction_go| |done]. apply declines_CheckTransaction in Ec. congruence.
Qed.
End transaction.

(** ** The block *)
Section check.
Context {V : Type} `{OpenSSL} `{Subsystems} `{Crypto} (params : Params) (GetPoWHash : CBlockHeader → Z → list Z) (junk : bool * bool).
Implicit Types w : world V.
Lemma check_coinbase (coinbase : CMutableTransaction) (txs : list CMutableTransaction) : txs !! 0%nat = Some coinbase → IsCoinBase coinbase = true → existsb IsCoinBase (drop 1 txs) = false →
  ∃ rest, txs = coinbase :: rest ∧ Forall (λ tx, IsCoinBase tx = false) rest.
Proof using Type.
  destruct txs as [|x rest]; [done|]. intros [= ->] _ Hr. exists rest. split; [done|]. change (existsb IsCoinBase rest = false) in Hr. apply List.Forall_forall. intros tx Hin. destruct (IsCoinBase tx) eqn:E; [|done].
  assert (existsb IsCoinBase rest = true) by (apply existsb_exists; eauto). congruence.
Qed.
Lemma pubkey_Verify_true k hash sig : pubkey_Verify k hash sig = true → CPubKey_Set k = Some k ∧ Verify k hash sig = true.
Proof using Type.
  unfold pubkey_Verify. destruct (CPubKey_Set k) as [k'|] eqn:E; [|done]. assert (k' = k) as ->; [|done]. unfold CPubKey_Set in E. by destruct (_ && _); [injection E as <-|].
Qed.
Lemma CheckBlockSignature_true block : CheckBlockSignature block = Some (Some true) → signed block.
Proof using Type.
  unfold CheckBlockSignature, signed. destruct (block_IsProofOfStake block); cbn [negb]; [|intros [= Hs]; by apply bool_decide_eq_true in Hs].
  case_bool_decide; [done|]. destruct (vtx block !! 1%nat) as [cs|]; [|done]. cbn [mbind option_bind]. destruct (vout cs !! 1%nat) as [o|] eqn:Eo; [|done]. cbn [mbind option_bind].
  destruct (Solver (scriptPubKey o) TX_NONSTANDARD) as [[[[] t] sols]|] eqn:Es; [cbn [negb]|done..]. apply Solver_sound in Es. intros E. exists cs, o.
  destruct (decide (t = TX_PUBKEY)) as [->|Ht].
  - destruct (sols !! 0%nat) as [k|] eqn:Ek; [|done]. injection E as E. apply pubkey_Verify_true in E as [Hk Hv]. exists k. split_and!; [done..|]. left.
    inversion Es; subst. injection Ek as <-. done.
  - destruct (Script.GetOp (scriptPubKey o)) as [[[op d] pc]|] eqn:E1; [|done]. case_bool_decide as Hop; cbn [negb] in E; [|done]. subst op.
    destruct (Script.GetOp pc) as [[[op k] r]|] eqn:E2; [|done]. destruct (IsCompressedOrUncompressedPubKey k); [cbn [negb] in E|done]. injection E as E.
    apply pubkey_Verify_true in E as [Hk Hv]. exists k. split_and!; [done..|]. right. exact (return_key _ _ _ _ _ _ _ _ Es Ht E1 E2).
Qed.
Lemma check_signature_go block w w' : check_signature block w = Some (w', go tt) → signed block.
Proof using Type.
  unfold check_signature. rewrite bind_go. intros (w1 & o & E1 & E). apply bind_go in E as (w2 & ok & E2 & E). apply when_go in E as [Hok ->]; [|apply fails_go]. apply negb_false_iff in Hok. subst ok.
  apply CheckBlockSignature_true. destruct (CheckBlockSignature block) as [x|]; [|done]. injection E1 as <- <-. destruct x as [[]|]; by injection E2.
Qed.
Lemma check_rules_go block fCheckPOW fCheckMerkleRoot h v fCheckSig w w' : check_rules params GetPoWHash junk block fCheckPOW fCheckMerkleRoot h v fCheckSig w = Some (w', go true) →
  block_rules params GetPoWHash junk (w_index w) (w_limits w) block fCheckPOW fCheckMerkleRoot h fCheckSig.
Proof using Type.
  unfold check_rules. rewrite bind_go. intros (w1 & f & [= <- <-] & E). apply bind_go in E as (w1 & [] & E1 & E). apply when_go in E1 as [_ ->]; [|done].
  apply bind_go in E as (w2 & ok & E2 & E). unfold check_header in E2. destruct (CheckBlockHeader _ _ _ _ _ _ _ _) as [[g' [s' okh]]|] eqn:Eh; [|done]. injection E2 as <- ->.
  apply bind_go in E as (w3 & [] & E3 & E). apply when_go in E3 as [Hok ->]; [|done]. apply negb_false_iff in Hok. subst ok.
  apply bind_go in E as (w4 & [] & E4 & E). assert (fCheckMerkleRoot = true → Merkle.BlockMerkleRoot (vtx block) = Some (hb_hashMerkleRoot (GetBlockHeader block), false)) as Hmk.
  { intros ->. apply bind_go in E4 as (w5 & [root mut] & E5 & E4). destruct (Merkle.BlockMerkleRoot (vtx block)) as [[r m]|]; [|done]. injection E5 as <- <- <-. apply bind_go in E4 as (w6 & [] & E6 & E4).
    apply when_go in E6 as [Hr ->]; [|apply fails_go]. apply when_go in E4 as [-> _]; [|apply fails_go]. apply negb_false_iff, bool_decide_eq_true in Hr. by rewrite Hr. }
  clear E4. apply bind_go in E as (w5 & [] & E5 & E). apply when_go in E5 as [_ ->]; [|apply fails_go]. apply bind_go in E as (w6 & n & E6 & E). destruct (GetSerializeSize_block block) as [sz|] eqn:Esz; [|done]. injection E6 as <- <-.
  apply bind_go in E as (w7 & [] & E7 & E). apply when_go in E7 as [Hsz ->]; [|apply fails_go]. apply bind_go in E as (w8 & cb & E8 & E). destruct (vtx block !! 0%nat) as [x|] eqn:Ex; [|done]. injection E8 as <- <-.
  apply bind_go in E as (w9 & [] & E9 & E). apply when_go in E9 as [Hcb ->]; [|apply fails_go]. apply bind_go in E as (w10 & [] & E10 & E). apply when_go in E10 as [Hrest ->]; [|apply fails_go].
  apply bind_go in E as (w11 & [] & E11 & E).
  assert (block_IsProofOfStake block = true → (∃ o, vout x !! 0%nat = Some o ∧ CTxOut_IsEmpty o = true) ∧ Forall (λ tx, IsCoinStake tx = false) (drop 2 (vtx block))) as Hst.
  { intros Hp. rewrite Hp in E11. apply bind_go in E11 as (w12 & o & E12 & E11). destruct (vout x !! 0%nat) as [o'|]; [|done]. injection E12 as <- <-. apply bind_go in E11 as (w13 & [] & E13 & E11).
    apply when_go in E13 as [He ->]; [|apply fails_go]. apply bind_go in E11 as (w14 & [] & E14 & E11). apply when_go in E14 as [_ ->]; [|apply fails_go]. apply when_go in E11 as [Hm _]; [|apply fails_go].
    split; [exists o'; split; [done|by apply negb_false_iff in He]|]. apply List.Forall_forall. intros tx Hin. destruct (IsCoinStake tx) eqn:Ec; [|done].
    assert (existsb IsCoinStake (drop 2 (vtx block)) = true) by (apply existsb_exists; eauto). congruence. }
  clear E11. apply bind_go in E as (w12 & [] & E12 & E). apply bind_go in E as (w13 & [] & _ & E). apply bind_go in E as (w14 & h' & _ & E).
  apply bind_go in E as (w15 & okf & _ & E). apply bind_go in E as (w16 & [] & _ & E). apply bind_go in E as (w17 & [] & _ & E). apply bind_go in E as (w18 & [] & E18 & E). apply check_transactions_go in E18.
  apply bind_go in E as (w19 & [] & _ & E). apply bind_go in E as (w20 & [] & E20 & E). apply when_go in E20 as [Hops _]; [|apply fails_go]. clear E.
  apply negb_false_iff in Hcb. destruct (check_coinbase x (vtx block) Ex Hcb Hrest) as (rest & Ev & Hr). split.
  - by eexists _, _, _.
  - exact Hmk.
  - exists sz. split; [done|lia].
  - by exists x, rest.
  - intros Hh Hf. rewrite Hf in E12. rewrite (proj2 (Z.ltb_lt _ _) Hh) in E12. by apply check_signature_go in E12.
  - exact E18.
  - lia.
Qed.
Lemma declines_check_header block f : declines (V := V) (check_header params GetPoWHash junk block f).
Proof using Type. intros w w' b. unfold check_header. destruct (CheckBlockHeader _ _ _ _ _ _ _ _) as [[g [s ok]]|]; [|done]. cbn [mbind option_bind]. done. Qed.
Lemma declines_invalid_again {A} : declines (V := V) (A := A) invalid_again.
Proof using Type. intros w w' b. unfold invalid_again, Invalid, DoS. by destruct (mode (w_state w)); intros [= _ <-]. Qed.
Lemma declines_state f : declines (on_state (V := V) f).
Proof using Type. intros w w' b. unfold on_state. by destruct (f _) as [s [[]|]]. Qed.
#[local] Hint Resolve declines_check_header declines_invalid_again declines_state declines_CheckTransaction : frame.
Lemma declines_check_transactions l v h : declines (V := V) (check_transactions l v h).
Proof using Type. induction l as [|tx l IH]; cbn [check_transactions]; declining. Qed.
Lemma declines_check_locked l : declines (V := V) (check_locked l).
Proof using Type. induction l as [|tx l IH]; cbn [check_locked]; declining. Qed.
Lemma declines_check_signature block : declines (V := V) (check_signature block).
Proof using Type. unfold check_signature. declining. Qed.
#[local] Hint Resolve declines_check_transactions declines_check_locked declines_check_signature : frame.
(** Only a block that was checked before is accepted early. *)
Lemma check_rules_ret block fCheckPOW fCheckMerkleRoot h v fCheckSig w w' : w_fChecked w = false →
  check_rules params GetPoWHash junk block fCheckPOW fCheckMerkleRoot h v fCheckSig w ≠ Some (w', ret true).
Proof using Type.
  intros Hf. unfold check_rules. unfold mbind at 1, M_bind at 1, asks at 1. rewrite Hf. unfold mbind at 1, M_bind at 1. cbn [when]. unfold mret at 1, M_ret at 1. intros E.
  match type of E with ?m _ = _ => assert (declines m) as Hd end; [|by apply Hd in E]. declining.
Qed.
Lemma CheckBlock_spec block fCheckPOW fCheckMerkleRoot h v fCheckSig w w' : accepts (CheckBlock params GetPoWHash junk block fCheckPOW fCheckMerkleRoot h v fCheckSig) w w' →
  w_fChecked w = true ∨ (∃ w1, check_rules params GetPoWHash junk block fCheckPOW fCheckMerkleRoot h v fCheckSig w = Some (w1, throw)) ∨
  block_rules params GetPoWHash junk (w_index w) (w_limits w) block fCheckPOW fCheckMerkleRoot h fCheckSig.
Proof using Type.
  unfold accepts, call, CheckBlock, catch_true. destruct (check_rules params GetPoWHash junk block fCheckPOW fCheckMerkleRoot h v fCheckSig w) as [[w1 [a|b|]]|] eqn:E; [| | |done].
  - intros [= -> ->]. right; right. by eapply check_rules_go.
  - intros [= -> ->]. destruct (w_fChecked w) eqn:Ef; [by left|]. by apply check_rules_ret in E.
  - intros _. right; left. eauto.
Qed.
(** C11. What [CheckBlock] enforces.  If it accepts a block then the block was marked as checked before, or an exception was
    thrown on the way, which [CheckBlock] catches and takes for success, or all rules hold: the header passes its check, the merkle root is that of the transactions and no transaction is there twice, the size is
    bounded, the first transaction and no other is a coinbase, a proof of stake has an empty first output there and no second
    coinstake, the signature is valid above the last block of proof of work, the signature operations are bounded, and every transaction has inputs and outputs, amounts that are in range
    and whose exact sum is, no outpoint or serial twice, and a null outpoint only where it may be. *)
Theorem CheckBlock_enforces block fCheckPOW fCheckMerkleRoot h v fCheckSig w w' : accepts (CheckBlock params GetPoWHash junk block fCheckPOW fCheckMerkleRoot h v fCheckSig) w w' →
  w_fChecked w = true ∨ (∃ w1, check_rules params GetPoWHash junk block fCheckPOW fCheckMerkleRoot h v fCheckSig w = Some (w1, throw)) ∨
  block_rules params GetPoWHash junk (w_index w) (w_limits w) block fCheckPOW fCheckMerkleRoot h fCheckSig.
Proof using Type. apply CheckBlock_spec. Qed.
End check.

(** ** The sample block, and an exception *)
Import ConnectSample.
Notation check_sample txs := (CheckBlock (V := CCoinsViewDB) regtest_params (λ _ _, []) (false, false) (block_of txs) true true 300000 false true).
Lemma CheckBlock_enforces_witness : ∃ w', accepts (check_sample sample_txs) (connect_world 300000) w' ∧
  block_rules regtest_params (λ _ _, []) (false, false) (connect_index 300000) (w_limits (connect_world 300000)) (block_of sample_txs) true true 300000 true.
Proof.
  assert (match check_sample sample_txs (connect_world 300000), check_rules (V := CCoinsViewDB) regtest_params (λ _ _, []) (false, false) (block_of sample_txs) true true 300000 false true (connect_world 300000)
    with Some (w, go true), Some (_, go _) => true | _, _ => false end = true) as H by (vm_compute; reflexivity).
  destruct (check_sample sample_txs (connect_world 300000)) as [[w' [[]| |]]|] eqn:E; try discriminate H. exists w'.
  assert (accepts (check_sample sample_txs) (connect_world 300000) w') as Ha by (unfold accepts, call; by rewrite E). split; [exact Ha|].
  destruct (CheckBlock_enforces regtest_params (λ _ _, []) (false, false) (block_of sample_txs) true true 300000 false true (connect_world 300000) w' Ha) as [[=]|[[w1 E1]|Hr]]; [|exact Hr].
  rewrite E1 in H. discriminate H.
Defined.
(** With a zerocoin check that throws, a block with a negative amount is accepted. *)
Definition throwing : Subsystems := {|
  Info := unit; make_info := tt; Complete := id;
  CheckSigmaTransaction := λ _ _ _ _ s, (s, Some true); CheckZerocoinTransaction := λ _ _ _ _ s, (s, None);
  CheckSigmaBlock := λ _ s, (s, Some true); CheckZerocoinFoundersInputs := λ _ _ _ s, (s, Some true);
  ConnectBlockZC := λ _ _ _ s, (s, Some true); ConnectBlockSigma := λ _ _ _ s, (s, Some true);
  GetSigmaSpendInput := λ _, Some 0;
  fInstantSend := false; GetLockedOutPointTxHash := λ _, None; IsBlockPayeeValid := λ _ _ _, true |}.
Definition negative_tx : CMutableTransaction := mkTx 1 [mkTxIn (mkOutPoint sample_id 2) [] 0xffffffff] [mkTxOut (-1) [81] (-10)] [] 0.
Definition verdict `{OpenSSL} `{Subsystems} (r : option (world CCoinsViewDB * outcome bool)) : option bool := match r with Some (_, go b) => Some b | Some (_, ret b) => Some b | _ => None end.
Example swallowed_exception :
  let block := block_of [sample_coinbase; negative_tx] in
  let w (S : Subsystems) : world (H0 := S) CCoinsViewDB :=
    mkWorld (connect_index 300000) ∅ (mkLimits bnProofOfWorkLimit bnProofOfWorkLimit) (VersionBits.mkVersionBitsCache ∅ ∅ ∅) sample_view None false [] ∅ sample_valid in
  verdict (CheckBlock regtest_params (λ _ _, []) (false, false) block true true 300000 false true (w no_subsystems)) = Some false ∧
  verdict (CheckBlock regtest_params (λ _ _, []) (false, false) block true true 300000 false true (w throwing)) = Some true.
Proof. vm_compute. done. Qed.
(** A coinstake that pays to the script [OP_ZEROCOINMINT] makes [Solver] throw, so that a block with a negative amount and a
    signature that does not verify is accepted; with a key in the output it is not. *)
Definition no_signature : Crypto := {| ripemd160 := ripemd160; sha1 := sha1; sha256 := sha256; CheckLowS := λ _, true; Verify := λ _ _ _, false |}.
Definition stake_to (script : list Z) : CMutableTransaction := mkTx 1 [mkTxIn (mkOutPoint sample_id 2) [] 0xffffffff] [empty_out; mkTxOut 5000 script (-10)] [] 0.
Example unsigned_block :
  let check script := verdict (CheckBlock (H1 := no_signature) regtest_params (λ _ _, []) (false, false)
    (block_of [paying_coinbase empty_out 1; stake_to script; negative_tx]) true true 600000 false true (connect_world 600000)) in
  check stake_script = Some false ∧ check [Script.opcode_val Script.OP_ZEROCOINMINT] = Some true.
Proof. vm_compute. done. Qed.
End BlockRules.
