(* ===== verification/Issuance.v ===== *)
(** * Issuance: how much money a block can create

    The value of the unspent outputs before and after [ConnectBlock].  A block of proof of work
    without a coinstake adds at most the subsidy of its height.  In a proof of stake the reward of the
    coinstake is bounded, but the coinbase may pay the same amount once more; and a coinstake in a
    block that is not a proof of stake is not bounded at all. *)
From Stdlib Require Import String.
From S2P Require Import Prelude Serialize Uint256 Amount Script Transaction Interpreter InterpreterSafety Merkle Compressor Coins CoinsView BlockCoins CheckInputs Chain VersionBits Bignum Pow HeaderCheck Stake BlockCheck CheckQueue ConnectBlock ConnectSample ConnectParallel ConnectCoins.
Open Scope Z_scope.
Open Scope list_scope.

Module Issuance.
Import Transaction Interpreter Compressor Coins CoinsView BlockCoins CheckInputs Chain Bignum Pow HeaderCheck Stake BlockCheck ConnectBlock ConnectSample ConnectParallel ConnectCoins.

(** ** The value of coins *)
Definition out_value (o : CTxOut) : Z := if CTxOut_IsNull o then 0 else nValue o.
Definition vout_value (v : list CTxOut) : Z := foldr (λ o s, out_value o + s) 0 v.
Definition coins_value (o : option CCoins) : Z := match o with Some x => vout_value (c_vout x) | None => 0 end.
(** The value of the outputs of some transactions. *)
Definition supply (ids : list uint256) (u : uint256 → option CCoins) : Z := foldr (λ t s, coins_value (u t) + s) 0 ids.

Lemma vout_value_app v w : vout_value (v ++ w) = vout_value v + vout_value w.
Proof. unfold vout_value. induction v as [|o v IH]; [done|]. cbn. rewrite IH. lia. Qed.
Lemma vout_value_trim v : vout_value (trim v) = vout_value v.
Proof.
  induction v as [|o v IH] using rev_ind; [done|]. rewrite trim_snoc. destruct (CTxOut_IsNull o) eqn:E; [|done]. rewrite vout_value_app, IH. cbn. unfold out_value. rewrite E. lia.
Qed.
Lemma vout_value_insert v n o : v !! n = Some o → vout_value (<[n := CTxOut_SetNull]> v) = vout_value v - out_value o.
Proof.
  revert n. induction v as [|x v IH]; intros [|n]; [done|done|intros [= ->]|intros E].
  - change (<[0%nat := CTxOut_SetNull]> (o :: v)) with (CTxOut_SetNull :: v). unfold vout_value. cbn [foldr]. change (out_value CTxOut_SetNull) with 0. lia.
  - change (<[S n := CTxOut_SetNull]> (x :: v)) with (x :: <[n := CTxOut_SetNull]> v). specialize (IH n E). unfold vout_value in *. cbn [foldr]. lia.
Qed.
Lemma coins_value_norm x : coins_value (norm (Some x)) = vout_value (c_vout x).
Proof.
  cbn [norm]. destruct (IsPruned x) eqn:Ep; [|done]. cbn [coins_value]. unfold IsPruned in Ep. induction (c_vout x) as [|o v IH]; [done|]. cbn in Ep. apply andb_true_iff in Ep as [Eo Ev].
  change (vout_value (o :: v)) with (out_value o + vout_value v). unfold out_value. rewrite Eo. specialize (IH Ev). lia.
Qed.
Lemma vout_value_pos v : Forall storable_or_null v → 0 <= vout_value v.
Proof.
  induction 1 as [|o v Ho _ IH]; [done|]. change (vout_value (o :: v)) with (out_value o + vout_value v). unfold out_value. destruct Ho as [-> |[Ho _]]; [cbn; lia|]. destruct (CTxOut_IsNull o); lia.
Qed.
(** The outputs a transaction adds are worth at most its value. *)
Lemma FromTx_value tx h : Forall (λ o, 0 <= nValue o) (vout tx) → coins_value (norm (Some (FromTx tx h))) <= sum_values (vout tx).
Proof.
  intros Hv. rewrite coins_value_norm. unfold FromTx, ClearUnspendable, Cleanup, set_vout. cbn [c_vout]. rewrite vout_value_trim.
  induction Hv as [|o v Ho _ IH]; [done|]. change (sum_values (o :: v)) with (nValue o + sum_values v). cbn [map].
  match goal with |- vout_value (?a :: ?l) <= _ => change (vout_value (a :: l)) with (out_value a + vout_value l) end.
  destruct (Script.IsUnspendable _); [change (out_value CTxOut_SetNull) with 0; lia|]. unfold out_value at 1. destruct (CTxOut_IsNull o); lia.
Qed.
Lemma supply_update ids u u' t o : NoDup ids → t ∈ ids → (∀ z, u' z = if decide (z = t) then o else u z) → supply ids u' = supply ids u - coins_value (u t) + coins_value o.
Proof.
  intros Hd Ht Hu. assert (∀ l, t ∉ l → supply l u' = supply l u) as Hne.
  { induction l as [|z l IH]; [done|]. intros Hz%not_elem_of_cons. destruct Hz as [Hz Hl]. unfold supply in *. cbn [foldr]. rewrite IH, Hu, decide_False by done. done. }
  induction Hd as [|z ids Hz Hd IH]; [by apply not_elem_of_nil in Ht|]. unfold supply in *. cbn [foldr]. destruct (decide (z = t)) as [-> |Hzt].
  - rewrite Hne by done. rewrite Hu, decide_True by done. lia.
  - rewrite IH by set_solver. rewrite Hu, decide_False by done. lia.
Qed.
Lemma supply_ext ids u u' : (∀ z, u z = u' z) → supply ids u = supply ids u'.
Proof. intros Hu. unfold supply. induction ids as [|z ids IH]; [done|]. cbn. by rewrite Hu, IH. Qed.

Section coins.
Context {V : Type} {HV : CCoinsView V} {HS : CoinsSpec V} `{MemUsage} (Hash : list Z → list Z).
Implicit Types c d : CCoinsViewCache V.
Lemma coins_value_pos c t : cache_ok c → 0 <= coins_value (cache_utxo c t).
Proof using Type. intros Hc. destruct (cache_utxo c t) as [x|] eqn:E; [|done]. destruct (cache_tidy c t x Hc E) as [[[Ho _ _ _] _] _]. by apply vout_value_pos. Qed.
Lemma supply_pos ids c : cache_ok c → 0 <= supply ids (cache_utxo c).
Proof using Type. intros Hc. unfold supply. induction ids as [|t ids IH]; [done|]. cbn. pose proof (coins_value_pos c t Hc). lia. Qed.
(** Spending an input takes its value away. *)
Lemma spend_supply ids c i c' u : NoDup ids → cache_ok c → 0 <= opn (prevout i) → ophash (prevout i) ∈ ids →
  use_modifier (ModifyCoins c (ophash (prevout i))) (ophash (prevout i)) (spend_output (opn (prevout i))) = Some (c', u) →
  is_Some (unspent (cache_utxo c) (prevout i)) ∧ supply ids (cache_utxo c') = supply ids (cache_utxo c) - value_of (cache_utxo c) i.
Proof using Type.
  intros Hd Hc Hn Hi Hm. destruct (spend_input_spec c i c' u Hc Hm) as (_ & _ & x & y & Hx & Ex & Es & Hu). rewrite (supply_update ids _ _ _ _ Hd Hi Hu). rewrite Ex, coins_value_norm.
  apply spend_output_inv in Es as (Ha & -> & _). destruct (IsAvailable_output _ _ Ha) as (o & Eo & Hnull). unfold value_of, unspent. rewrite Ex. cbn [mbind option_bind]. rewrite Ha, Eo. split; [by eexists|].
  cbn [fmap option_fmap option_map from_option id Cleanup set_vout c_vout coins_value]. rewrite vout_value_trim, (vout_value_insert _ _ o Eo). unfold out_value. rewrite Hnull. cbn [default]. lia.
Qed.
Lemma spend_inputs_supply ids l : NoDup ids → ∀ c c' us, cache_ok c → (∀ i, i ∈ l → 0 <= opn (prevout i) ∧ ophash (prevout i) ∈ ids) → spend_inputs c l = Some (c', us) →
  cache_ok c' ∧ same_base c c' ∧ (∀ i, i ∈ l → is_Some (unspent (cache_utxo c) (prevout i))) ∧ supply ids (cache_utxo c') = supply ids (cache_utxo c) - values_of (cache_utxo c) l.
Proof using Type.
  intros Hd. induction l as [|i l IH]; intros c c' us Hc Hl; cbn [spend_inputs].
  { intros [= <- <-]. split_and!; [done|done|by intros i []%not_elem_of_nil|cbn; lia]. }
  destruct (use_modifier _ _ _) as [[c1 u]|] eqn:Em; [|done]. cbn [mbind option_bind]. destruct (spend_inputs c1 l) as [[c2 us']|] eqn:Es; [|done]. cbn [mbind option_bind]. intros [= <- _].
  destruct (Hl i ltac:(set_solver)) as [Hi0 Hi1]. destruct (spend_input_spec c i c1 u Hc Em) as (Hc1 & Hb1 & _). destruct (spend_supply ids c i c1 u Hd Hc Hi0 Hi1 Em) as [Hsome Hs1].
  destruct (IH c1 c2 us' Hc1 ltac:(intros j Hj; apply Hl; set_solver) Es) as (Hc2 & Hb2 & Hsome2 & Hs2).
  assert (∀ j, j ∈ l → unspent (cache_utxo c1) (prevout j) = unspent (cache_utxo c) (prevout j)) as Hj.
  { intros j Hj. destruct (Hl j ltac:(set_solver)) as [Hj0 _]. pose proof (spend_unspent c i c1 u (prevout j) Hc Hi0 Hj0 Em) as E. destruct (decide (prevout j = prevout i)); [|done].
    destruct (Hsome2 j Hj) as [o Eo]. by rewrite E in Eo. }
  split_and!; [done|intros z; by rewrite Hb2, Hb1| |].
  - intros j [-> |Hin]%elem_of_cons; [done|]. rewrite <- Hj by done. by apply Hsome2.
  - rewrite Hs2, Hs1. cbn [values_of foldr]. fold (values_of (cache_utxo c) l). assert (values_of (cache_utxo c1) l = values_of (cache_utxo c) l) as ->; [|lia].
    clear -Hj. induction l as [|j l IH]; [done|]. cbn [values_of foldr]. fold (values_of (cache_utxo c1) l) (values_of (cache_utxo c) l). unfold value_of. rewrite (Hj j) by set_solver.
    rewrite IH; [done|]. intros k Hk. apply Hj. set_solver.
Qed.
Definition spent (u : uint256 → option CCoins) (tx : CMutableTransaction) : Z := if no_inputs tx then 0 else values_of u (vin tx).
Lemma UpdateCoins_supply ids c tx h t c' us : NoDup ids → cache_ok c → tx_ok tx h → Forall (λ o, 0 <= nValue o) (vout tx) → GetHash Hash tx = Some t → utxo (base c) t = None → t ∈ ids →
  (∀ i, i ∈ vin tx → no_inputs tx = false → ophash (prevout i) ∈ ids) → UpdateCoins Hash c tx h = Some (c', us) →
  cache_ok c' ∧ same_base c c' ∧ supply ids (cache_utxo c') <= supply ids (cache_utxo c) - spent (cache_utxo c) tx + sum_values (vout tx).
Proof using Type.
  intros Hd Hc [Ht Hpos] Hv Hh Hb Hin Hids. unfold UpdateCoins. destruct (if negb (no_inputs tx) then _ else _) as [[c1 us1]|] eqn:Ei; [|done]. cbn [mbind option_bind]. rewrite Hh. cbn [mbind option_bind].
  assert (cache_ok c1 ∧ same_base c c1 ∧ supply ids (cache_utxo c1) = supply ids (cache_utxo c) - spent (cache_utxo c) tx) as (Hc1 & Hb1 & Hs1).
  { unfold spent. destruct (no_inputs tx) eqn:En; cbn [negb] in Ei; [injection Ei as <- _; split_and!; [done|done|lia]|].
    destruct (spend_inputs_supply ids (vin tx) Hd c c1 us1 Hc ltac:(intros i Hi; split; [by apply Hpos|by apply Hids]) Ei) as (? & ? & _ & ?). done. }
  destruct (add_outputs_spec c1 tx h t Hc1 Ht) as (c2 & -> & Hc2 & Hb2 & Hu2); [by rewrite Hb1|]. cbn [mbind option_bind]. intros [= <- _].
  split_and!; [done|intros z; by rewrite Hb2, Hb1|]. rewrite (supply_update ids _ _ t _ Hd Hin Hu2). pose proof (FromTx_value tx h Hv). pose proof (coins_value_pos c1 t Hc1). lia.
Qed.

(** ** The amounts [ConnectBlock] computes *)
Lemma values_fold u l : ∀ n, 0 <= n → (∀ i, i ∈ l → 0 <= value_of u i) → n + values_of u l < 2 ^ 63 → foldl (λ s i, i64 (s + default 0 (nValue <$> unspent u (prevout i)))) n l = n + values_of u l.
Proof using Type.
  induction l as [|i l IH]; intros n Hn Hl Hs; cbn [foldl values_of foldr] in *; [lia|]. fold (values_of u l) in *. change (default 0 (nValue <$> unspent u (prevout i))) with (value_of u i).
  pose proof (Hl i ltac:(set_solver)) as Hi. assert (0 <= values_of u l) as Hpos.
  { clear -Hl. induction l as [|j l IH]; [done|]. cbn [values_of foldr]. fold (values_of u l). pose proof (Hl j ltac:(set_solver)). assert (0 <= values_of u l); [|lia]. apply IH. intros k Hk. apply Hl. set_solver. }
  rewrite i64_small by lia. rewrite IH; [lia|lia| |lia]. intros j Hj. apply Hl. set_solver.
Qed.
Lemma value_of_pos c i : cache_ok c → 0 <= value_of (cache_utxo c) i.
Proof using Type. intros Hc. unfold value_of. destruct (unspent _ _) as [o|] eqn:E; [|done]. apply unspent_value in E; [|done]. cbn. lia. Qed.
Lemma GetValueIn_values c tx h c' v : cache_ok c → no_inputs tx = false → inputs_valid (cache_utxo c) tx h → GetValueIn c tx = Some (c', v) → v = values_of (cache_utxo c) (vin tx).
Proof using Type.
  intros Hc Hn [Hu _ Hr _]. unfold GetValueIn. rewrite Hn. destruct (value_in_spec (vin tx) c 0 Hc Hu) as (c1 & -> & _). intros [= _ <-]. assert (Amount.MAX_MONEY < 2 ^ 62) by done.
  rewrite values_fold; [lia|lia|intros i _; by apply value_of_pos|lia].
Qed.
Lemma CheckInputs_valid `{Crypto} sd st tx td c fsc flags th c' ks : cache_ok c → no_inputs tx = false → CheckInputs sd st tx td c fsc flags th = Some (c', inputs_ok, ks) → ∃ h, inputs_valid (cache_utxo c) tx h.
Proof using Type.
  intros Hc Hn. unfold CheckInputs. rewrite Hn. cbn [negb]. unfold GetSpendHeight. destruct (cache_GetBestBlock c) as [c1 best] eqn:E. destruct (read_unchanged c c1 Hc (read_best c c1 best E)) as (Hc1 & Hu & _).
  destruct (mapBlockIndex st !! best); [|done]. cbn [mbind option_bind]. destruct (blocks st !! _) as [b|]; [|done]. cbn [mbind option_bind].
  destruct (CheckTxInputs_spec c1 tx (nHeight b + 1) Hc1 Hn) as (c2 & r & -> & _ & _ & Hr). cbn [mbind option_bind]. destruct r as [e|[]]; [done|]. intros _. exists (nHeight b + 1).
  eapply inputs_valid_ext; [|by apply Hr]. exact Hu.
Qed.
Lemma GetValueOut_sum l : ∀ acc v, 0 <= acc <= Amount.MAX_MONEY → GetValueOut_loop l acc = Some v → Forall (λ o, 0 <= nValue o) l ∧ v = acc + sum_values l ∧ v <= Amount.MAX_MONEY.
Proof using Type.
  induction l as [|o l IH]; intros acc v Hacc; cbn [GetValueOut_loop]; [intros [= <-]; split_and!; [constructor|cbn; lia|lia]|]. case_if E; [done|].
  apply orb_false_iff in E as [E1%negb_false_iff%MoneyRange_spec E2%negb_false_iff%MoneyRange_spec]. assert (Amount.MAX_MONEY < 2 ^ 62) by done. rewrite i64_small in * by lia.
  intros (Hl & -> & Hm)%IH; [|done]. change (sum_values (o :: l)) with (nValue o + sum_values l). split_and!; [constructor; [lia|done]|lia|done].
Qed.
End coins.

(** ** The transactions of a block *)
Section block.
Context {V : Type} {HV : CCoinsView V} {HS : CoinsSpec V} `{MemUsage} `{OpenSSL} `{Subsystems} `{Crypto}.
Context (params : Params) (sd : list Z → option Z) (ch : Z) (th : bool) (pindex : ptr) (height : Z) (fsc : bool) (flags lt : Z) (ids : list uint256) (Hids : NoDup ids).
Implicit Types w : world V.
(** A transaction whose coins can be stored, new to the view below, with its identifier and those it spends among [ids]. *)
Record usual w (tx : CMutableTransaction) : Prop := {
  us_ok : tx_ok tx height;
  us_plain : plain tx = true;
  us_id : ∀ id, GetHash Hash256 tx = Some id → utxo (base (w_view w)) id = None ∧ id ∈ ids;
  us_inputs : ∀ i, i ∈ vin tx → no_inputs tx = false → ophash (prevout i) ∈ ids }.
Lemma usual_base w w' tx : same_base (w_view w) (w_view w') → usual w tx → usual w' tx.
Proof using Type. intros Hb [H1' H2' H3' H4']. split; [done|done| |done]. intros id Hid. rewrite Hb. by apply H3'. Qed.
(** One transaction: what it leaves, and the fee or the reward that is noted. *)
Lemma connect_tx_supply first tx t t' w w' : cache_ok (w_view w) → usual w tx → (no_inputs tx = true → ∃ out, GetValueOut tx = Some out) →
  connect_tx params sd ch th pindex height fsc flags lt first tx t w = Some (w', go t') →
  cache_ok (w_view w') ∧ same_base (w_view w) (w_view w') ∧ ∃ out vin, GetValueOut tx = Some out ∧ 0 <= out <= Amount.MAX_MONEY ∧ 0 <= vin <= Amount.MAX_MONEY ∧
    supply ids (cache_utxo (w_view w')) <= supply ids (cache_utxo (w_view w)) - vin + out ∧
    if no_inputs tx then vin = 0 ∧ nFees t' = nFees t ∧ nActualStakeReward t' = nActualStakeReward t
    else if IsCoinStake tx then nFees t' = nFees t ∧ nActualStakeReward t' = out - vin
    else out <= vin ∧ nFees t' = i64 (nFees t + (vin - out)) ∧ nActualStakeReward t' = nActualStakeReward t.
Proof using Hids.
  intros Hc Hus Hout E. pose proof Hus as [Hok Hp Hid Hin]. destruct (connect_tx_go _ _ _ _ _ _ _ _ _ _ _ _ _ _ _ Hp E) as (id & c1 & us & [C1 _ _ _ C5 C6 _ C8 C9]).
  destruct (reads_unchanged _ _ Hc C5) as (Hc1 & Hu1 & Hb1 & _). destruct (Hid id C1) as [Hbase Hmem]. assert (0 < Amount.MAX_MONEY < 2 ^ 60) by done.
  assert (∃ out vin, GetValueOut tx = Some out ∧ 0 <= vin <= Amount.MAX_MONEY ∧ vin = spent (cache_utxo (w_view w)) tx ∧ if no_inputs tx then vin = 0 ∧ nFees t' = nFees t ∧ nActualStakeReward t' = nActualStakeReward t
    else if IsCoinStake tx then nFees t' = nFees t ∧ nActualStakeReward t' = i64 (out - vin)
    else out <= vin ∧ nFees t' = i64 (nFees t + i64 (vin - out)) ∧ nActualStakeReward t' = nActualStakeReward t) as (out & vi & Eo & Hvi & Hvs & Hcase).
  { unfold spent. destruct (no_inputs tx) eqn:En.
    - destruct (Hout eq_refl) as [out Eo]. exists out, 0. destruct (C8 eq_refl). split_and!; [done|lia|lia|done..].
    - destruct (C9 eq_refl) as (ca & cb & cc & out & vi & ks & Ra & Eo & Ev & Ek & Ef). destruct (reads_unchanged _ _ Hc Ra) as (Hca & Hua & _).
      destruct (reads_unchanged _ _ Hca (GetValueIn_reads _ _ _ _ Ev)) as (Hcb & Hub & _). destruct (CheckInputs_valid _ _ _ _ _ _ _ _ _ _ Hcb En Ek) as [h Hv].
      pose proof (inputs_valid_ext _ (cache_utxo ca) _ _ (λ z, Hub z) Hv) as Hva. pose proof (GetValueIn_values ca tx h cb vi Hca En Hva Ev) as Evi. rewrite (values_of_ext _ (cache_utxo (w_view w))) in Evi by done.
      pose proof (inputs_valid_ext _ (cache_utxo (w_view w)) _ _ (λ z, Hua z) Hva) as [_ _ Hr Hcov]. pose proof (values_of_pos (w_view w) (vin tx) Hc). exists out, vi. rewrite Evi. split_and!; [done|lia|lia|done|].
      rewrite <- Evi. destruct (IsCoinStake tx) eqn:Es; injection Ef as -> ->; [done|]. destruct (Hcov eq_refl) as (out' & Eo' & Hle). assert (out' = out) as -> by congruence. rewrite <- Evi in Hle. done. }
  destruct (GetValueOut_sum (vout tx) 0 out) as (Hpos & Esum & Hmax); [done|exact Eo|]. assert (0 <= sum_values (vout tx)) as Hsp.
  { clear -Hpos. induction Hpos as [|o l Ho _ IH]; [done|]. change (sum_values (o :: l)) with (nValue o + sum_values l). lia. }
  destruct (UpdateCoins_supply Hash256 ids c1 tx height id (w_view w') us Hids Hc1 Hok Hpos C1) as (Hc' & Hb' & Hs); [by rewrite Hb1|done|done|exact C6|].
  split_and!; [done|intros z; by rewrite Hb', Hb1|]. exists out, vi. split_and!; [done|lia|lia|lia|lia| |].
  - rewrite (supply_ext ids (cache_utxo c1) (cache_utxo (w_view w))) in Hs by done. assert (spent (cache_utxo c1) tx = vi) as Esp; [|lia]. rewrite Hvs. unfold spent. destruct (no_inputs tx); [done|]. by apply values_of_ext.
  - destruct (no_inputs tx); [done|]. destruct (IsCoinStake tx); [|rewrite (i64_small (vi - out)) in Hcase by lia; done]. rewrite (i64_small (out - vi)) in Hcase by lia. done.
Qed.
(** The transactions after the coinbase and the coinstake: their fees come out of the coins. *)
Lemma rest_supply txs K : K < 2 ^ 63 → ∀ t t' w w', cache_ok (w_view w) → Forall (usual w) txs → Forall (λ tx, no_inputs tx = false ∧ IsCoinStake tx = false) txs →
  0 <= nFees t → supply ids (cache_utxo (w_view w)) + nFees t <= K → connect_txs params sd ch th pindex height fsc flags lt false txs t w = Some (w', go t') →
  cache_ok (w_view w') ∧ 0 <= nFees t' ∧ supply ids (cache_utxo (w_view w')) + nFees t' <= K ∧ nActualStakeReward t' = nActualStakeReward t.
Proof using Hids.
  intros HK. induction txs as [|tx txs IH]; intros t t' w w' Hc Hus Hno Hf HSu; cbn [connect_txs]; [by intros [= <- <-]|]. rewrite bind_go. intros (w1 & t1 & E1 & E).
  apply Forall_cons_iff in Hus as [Hu Hus]. apply Forall_cons_iff in Hno as [[Hn Hs] Hno].
  destruct (connect_tx_supply false tx t t1 w w1 Hc Hu ltac:(congruence) E1) as (Hc1 & Hb1 & out & vi & _ & _ & _ & Hle & Hcase). rewrite Hn, Hs in Hcase. destruct Hcase as (Hov & Ef & Es).
  pose proof (supply_pos ids (w_view w1) Hc1). rewrite i64_small in Ef by lia. rewrite <- Es. apply (IH t1 t' w1 w' Hc1); [|done|lia|lia|done].
  eapply Forall_impl; [|exact Hus]. intros x Hx. by eapply usual_base.
Qed.
Definition staked (rest : list CMutableTransaction) : bool := match rest with tx :: _ => IsCoinStake tx | [] => false end.
Lemma connect_txs_supply cb rest t' w w' value : cache_ok (w_view w) → Forall (usual w) (cb :: rest) → no_inputs cb = true → GetValueOut cb = Some value →
  Forall (λ tx, no_inputs tx = false) rest → Forall (λ tx, IsCoinStake tx = false) (drop 1 rest) → supply ids (cache_utxo (w_view w)) <= 2 ^ 62 →
  connect_txs params sd ch th pindex height fsc flags lt true (cb :: rest) totals_init w = Some (w', go t') →
  cache_ok (w_view w') ∧ 0 <= value <= Amount.MAX_MONEY ∧ 0 <= nFees t' <= 2 ^ 62 + 2 * Amount.MAX_MONEY ∧
  supply ids (cache_utxo (w_view w')) + nFees t' <= supply ids (cache_utxo (w_view w)) + value + (if staked rest then nActualStakeReward t' else 0).
Proof using Hids.
  intros Hc Hus Hcb Ev Hno Hst HSu. cbn [connect_txs]. rewrite bind_go. intros (w1 & t1 & E1 & E). apply Forall_cons_iff in Hus as [Hu Hus]. assert (0 < Amount.MAX_MONEY < 2 ^ 60) by done.
  destruct (connect_tx_supply true cb totals_init t1 w w1 Hc Hu ltac:(by eauto) E1) as (Hc1 & Hb1 & out & vi & Eo & Ho & _ & Hle & Hcase). rewrite Hcb in Hcase. destruct Hcase as (-> & Ef1 & Es1).
  assert (out = value) as -> by congruence. cbn [totals_init nFees nActualStakeReward] in Ef1, Es1. assert (Forall (usual w1) rest) as Hus1 by (eapply Forall_impl; [|exact Hus]; intros x Hx; by eapply usual_base).
  destruct rest as [|tx rest]; cbn [drop] in Hst.
  { injection E as <- <-. cbn [staked]; try rewrite Est. split_and!; [done|lia..]. }
  apply Forall_cons_iff in Hno as [Hn Hno]. destruct (IsCoinStake tx) eqn:Est.
  - cbn [connect_txs] in E. apply bind_go in E as (w2 & t2 & E2 & E). apply Forall_cons_iff in Hus1 as [Hu1 Hus1].
    destruct (connect_tx_supply false tx t1 t2 w1 w2 Hc1 Hu1 ltac:(congruence) E2) as (Hc2 & Hb2 & out & vi & _ & Ho2 & Hi2 & Hle2 & Hcase). rewrite Hn, Est in Hcase. destruct Hcase as [Ef2 Es2].
    assert (supply ids (cache_utxo (w_view w)) + value + (out - vi) < 2 ^ 63) as HK by lia.
    destruct (rest_supply rest (supply ids (cache_utxo (w_view w)) + value + (out - vi)) HK t2 t' w2 w' Hc2) as (Hc' & Hf' & HSu' & Hs'); [|by apply Forall_and|lia|lia|done|].
    { eapply Forall_impl; [|exact Hus1]. intros x Hx. by eapply usual_base. }
    pose proof (supply_pos ids (w_view w') Hc'). cbn [staked]; try rewrite Est. split_and!; [done|lia..].
  - assert (supply ids (cache_utxo (w_view w)) + value < 2 ^ 63) as HK by lia.
    destruct (rest_supply (tx :: rest) (supply ids (cache_utxo (w_view w)) + value) HK t1 t' w1 w' Hc1 Hus1) as (Hc' & Hf' & HSu' & Hs'); [|lia|lia|done|].
    { constructor; [done|]. by apply Forall_and. }
    pose proof (supply_pos ids (w_view w') Hc'). cbn [staked]; try rewrite Est. split_and!; [done|lia..].
Qed.
End block.
Lemma GetBlockSubsidy_bounds params h : 0 <= h → 0 <= GetBlockSubsidy params h <= 10000220000000.
Proof.
  intros Hh. unfold GetBlockSubsidy. destruct (h =? 0); [lia|]. set (hv := if _ && _ then SubsidyHalvingForDev else _).
  assert (0 <= hv) as Hv. { unfold hv, SubsidyHalvingForDev, SubsidyHalvingValueConstant, SubsidyHalvingIntervalAfterFork, SubsidyHalvingInterval. destruct (_ && _); [lia|]. destruct (Z.leb_spec 210000 h); [|apply Z.quot_pos; lia]. pose proof (Z.quot_pos (h - 210000) 210000 ltac:(lia) ltac:(lia)). lia. }
  assert (0 <= Z.shiftr StartSubsidy hv <= StartSubsidy) as Hs. { rewrite Z.shiftr_div_pow2 by done. assert (0 < 2 ^ hv) by (apply Z.pow_pos_nonneg; lia). unfold StartSubsidy, Amount.COIN. split; [apply Z.div_pos; lia|]. apply Z.div_le_upper_bound; [done|]. nia. }
  assert (0 <= (if h <=? newRewardStartBlock then Z.shiftr StartSubsidy hv else 0) <= StartSubsidy) as Hn by (destruct (h <=? newRewardStartBlock); [done|]; unfold StartSubsidy, Amount.COIN; lia).
  unfold StartSubsidy, Amount.COIN, newSubsidy, oneTimeDevRewardSubsidy in *. destruct (fTestNet params); repeat (destruct (_ && _)); lia.
Qed.

(** ** The theorem *)
Definition coinbase_value (block : CBlock) : Z := default 0 (cb ← vtx block !! 0%nat; GetValueOut cb).
Section issuance.
Context {V : Type} {HV : CCoinsView V} {HS : CoinsSpec V} `{MemUsage} `{OpenSSL} `{Subsystems} `{Crypto}.
Implicit Types w : world V.
(** A block of coins and transactions as they occur: a new view, transactions that are neither zerocoin nor sigma and
    whose outputs can be stored, the first and no other a coinbase, and no coinstake but the second. *)
Record regular_block w (block : CBlock) (h : Z) (ids : list uint256) : Prop := {
  rb_view : cache_ok (w_view w);
  rb_fresh : ∀ t, cache_utxo (w_view w) t = utxo (base (w_view w)) t;
  rb_ids : NoDup ids;
  rb_txs : Forall (λ tx, tx_ok tx h ∧ plain tx = true ∧ (∀ id, GetHash Hash256 tx = Some id → id ∈ ids) ∧ ∀ i, i ∈ vin tx → ophash (prevout i) ∈ ids) (vtx block);
  rb_coinbase : ∃ cb rest, vtx block = cb :: rest ∧ IsCoinBase cb = true ∧ Forall (λ tx, IsCoinBase tx = false) rest;
  rb_stakes : Forall (λ tx, IsCoinStake tx = false) (drop 2 (vtx block));
  rb_supply : supply ids (cache_utxo (w_view w)) <= 2 ^ 62 }.
Lemma plain_inputs tx : plain tx = true → no_inputs tx = IsCoinBase tx.
Proof using Type. unfold plain, no_inputs. intros Hp%negb_true_iff. repeat (apply orb_false_iff in Hp as [Hp ?]). rewrite Hp, H4. by rewrite !orb_false_r. Qed.

Context (params : Params) (mapCheckpoints : list (Z * list Z)) (fCheckpointsEnabled : bool) (GetPoWHash : CBlockHeader → Z → list Z) (junk : bool * bool).
Context (nMajorityEnforceBlockUpgrade : Z) (deployments : VersionBits.Params) (sigma_denomination : list Z → option Z).
Context (GetTransaction : list Z → option (CMutableTransaction * list Z)) (fDebug : bool) (chainHeight : Z) (threads : bool) (queue_answer : list job → bool).
Context (FindUndoPos : Z → list (list CTxInUndo) → CValidationState → CValidationState * option Z) (UndoWriteToDisk : list (list CTxInUndo) → Z → option Z) (write_indexes : CBlock → option string).
Notation connect := (ConnectBlock (V := V) params mapCheckpoints fCheckpointsEnabled GetPoWHash junk nMajorityEnforceBlockUpgrade deployments
  sigma_denomination GetTransaction fDebug chainHeight threads queue_answer FindUndoPos UndoWriteToDisk write_indexes).
(** C3. How much money a block creates.  Let [ConnectBlock] accept a regular block above the first one, with a new view on coins whose
    value fits.  Then the value of the unspent outputs grows by at most the subsidy of the height, all fees
    included, if the block is not a proof of stake.  If it is, the reward of the coinstake is
    bounded in the same way, but what the coinbase pays comes on top. *)
Theorem ConnectBlock_issuance block pindex fJustCheck w w' b ids : blocks (w_index w) !! pindex = Some b → 0 < nHeight b → regular_block w block (nHeight b) ids →
  hb_hash (GetBlockHeader block) ≠ hashGenesisBlock params → accepts (connect block pindex fJustCheck) w w' →
  supply ids (cache_utxo (w_view w')) <= supply ids (cache_utxo (w_view w)) + GetBlockSubsidy params (nHeight b) + if block_IsProofOfStake block then coinbase_value block else 0.
Proof using Type.
  intros Eb Hh [Hc Hfresh Hids Htxs (cb & rest & Ev & Hcb & Hrest) Hst Hsup] Hg Hacc.
  destruct (ConnectBlock_go _ _ _ _ _ _ _ _ _ _ _ _ _ _ _ _ _ _ _ _ _ Hc Hg Hacc) as (b' & w1 & w2 & w3 & t & fsc & flags & lt & [G1 [G2 _] G3 G4 (cb' & value & G5 & G6 & G7 & G8) [G9 _]] & _ & _ & G10).
  assert (b' = b) as -> by congruence. assert (cb' = cb) as -> by (rewrite Ev in G5; by injection G5). rewrite Ev in G3, G4, Htxs, Hst. destruct (reads_unchanged _ _ Hc G2) as (Hc1 & Hu1 & Hb1 & _).
  assert (Forall (usual (nHeight b) ids w1) (cb :: rest)) as Hus.
  { apply List.Forall_forall. intros tx Hin. rewrite List.Forall_forall in Htxs. destruct (Htxs tx Hin) as (Hok & Hp & Hid & Hi). split; [done|done| |by auto]. intros id Eid. split; [|by apply Hid].
    destruct (G3 tx) as (id' & Eid' & Hn); [by apply list_elem_of_In|]. assert (id' = id) as -> by congruence. by rewrite Hb1, <- Hfresh. }
  assert (Forall (λ tx, no_inputs tx = false) rest) as Hno.
  { apply List.Forall_forall. intros tx Hin. rewrite List.Forall_forall in Hrest, Htxs. destruct (Htxs tx) as (_ & Hp & _); [by right|]. rewrite plain_inputs by done. by apply Hrest. }
  assert (no_inputs cb = true) as Hcbn by (unfold no_inputs; by rewrite Hcb).
  destruct (connect_txs_supply params sigma_denomination chainHeight threads pindex (nHeight b) fsc flags lt ids Hids cb rest t w1 w2 value Hc1 Hus Hcbn G6 Hno Hst) as (Hc2 & Hval & Hfees & Hs);
    [by rewrite (supply_ext ids _ (cache_utxo (w_view w))) by done|exact G4|].
  rewrite (supply_ext ids (cache_utxo (w_view w1)) (cache_utxo (w_view w))) in Hs by done. destruct (reads_unchanged _ _ Hc2 G9) as (_ & Hu3 & _).
  assert (supply ids (cache_utxo (w_view w')) = supply ids (cache_utxo (w_view w2))) as ->.
  { apply supply_ext. intros z. rewrite <- (Hu3 z). destruct fJustCheck; [by rewrite G10|]. by rewrite (proj1 G10). }
  pose proof (GetBlockSubsidy_bounds params (nHeight b) ltac:(lia)) as Hsub. assert (0 < Amount.MAX_MONEY < 2 ^ 60) by done. rewrite i64_small in G7, G8 by lia.
  assert (block_IsProofOfStake block = staked rest) as Ep by (unfold block_IsProofOfStake; rewrite Ev; by destruct rest).
  unfold coinbase_value. rewrite Ev. cbn [lookup list_lookup mbind option_bind]. rewrite G6. cbn [from_option id default]. rewrite <- Ep in Hs. destruct (block_IsProofOfStake block); [specialize (G8 eq_refl)|]; lia.
Qed.
End issuance.

(** ** The sample block, and what the rules on rewards let through *)
Definition all_ids : list uint256 := replicate 32 0 :: sample_id :: sample_ids.
Lemma sample_regular : regular_block (connect_world 300000) (block_of sample_txs) 300000 all_ids.
Proof.
  split; [apply sample_view_ok|done|apply (bool_decide_unpack _); vm_compute; exact I| | |done|].
  - apply Forall_cons; [|apply Forall_cons; [|apply Forall_nil]].
    + split_and!; [by apply sample_coinbase_ok|done|intros id [= <-]; apply (bool_decide_unpack _); vm_compute; exact I|intros i [-> |[]%not_elem_of_nil]%elem_of_cons; apply (bool_decide_unpack _); vm_compute; exact I].
    + split_and!; [by apply sample_spend_ok|done|intros id [= <-]; apply (bool_decide_unpack _); vm_compute; exact I|].
      intros i [-> |[-> |[]%not_elem_of_nil]%elem_of_cons]%elem_of_cons; apply (bool_decide_unpack _); vm_compute; exact I.
  - exists sample_coinbase, [sample_spend]. split_and!; [done|done|]. apply Forall_cons; [done|apply Forall_nil].
  - vm_compute. discriminate.
Qed.
Lemma ConnectBlock_issuance_witness : ∃ w', accepts (connect_block true 300000 sample_txs false) (connect_world 300000) w' ∧
  supply all_ids (cache_utxo (w_view w')) <= supply all_ids (cache_utxo sample_view) + 1250000000.
Proof.
  destruct sample_accepted as (w' & E). exists w'.
  assert (accepts (connect_block true 300000 sample_txs false) (connect_world 300000) w') as Ha by (unfold accepts, call; by rewrite E). split; [exact Ha|].
  pose proof (ConnectBlock_issuance regtest_params [] true (λ _ _, []) (false, false) 750 future_deployments (λ _, None) (λ _, None) false (300000 - 1) true (forallb run_job)
    (λ _ _ s, (s, Some 0)) (λ _ p, Some p) (λ _, None) (block_of sample_txs) 1%nat false (connect_world 300000) w' (block_entry 300000) all_ids eq_refl eq_refl sample_regular (sample_not_genesis _) Ha) as H.
  by rewrite Z.add_0_r in H.
Defined.
(** The unspent value after a block less the value before; the subsidy is 220000000 at both heights below. *)
Definition created (ids : list uint256) (r : option (world CCoinsViewDB * outcome bool)) : option Z :=
  c ← final_view r; Some (supply ids (cache_utxo c) - supply ids (cache_utxo sample_view)).
Definition ids_of (txs : list CMutableTransaction) : list uint256 := sample_id :: omap (GetHash Hash256) txs.
(** A proof of stake in which the coinbase pays the whole subsidy and the coinstake as much again. *)
Example stake_pays_twice : let txs := [paying_coinbase empty_out 220000000; paying_stake 220005000] in
  GetBlockSubsidy regtest_params 600000 = 220000000 ∧ created (ids_of txs) (connect_sample true 600000 txs false) = Some 440000000.
Proof. vm_compute. done. Qed.
(** A coinstake after the second transaction: the block is no proof of stake, and nothing bounds what it pays.  Above
    [nLastPOWBlock] such a block is not accepted in the first place. *)
Example stray_coinstake : let txs := [sample_coinbase; sample_spend; paying_stake (1000000 * Amount.COIN)] in
  created (ids_of txs) (connect_sample true 450000 txs false) = Some (1000000 * Amount.COIN - 1000).
Proof. vm_compute. reflexivity. Qed.
End Issuance.
