(* ===== verification/Replay.v ===== *)
(** * Replay: the coins as a function of the blocks

    What a block does to the set of unspent outputs, on functions instead of caches: the reference
    that [UpdateCoins] and [ConnectBlock] are compared with. *)
From Stdlib Require Import String.
From S2P Require Import Prelude Serialize Uint256 Amount Script Transaction Interpreter InterpreterSafety Merkle Compressor Coins CoinsView BlockCoins CheckInputs Chain VersionBits Bignum Pow HeaderCheck Stake BlockCheck CheckQueue ConnectBlock ConnectSample ConnectParallel ConnectCoins.
Open Scope Z_scope.
Open Scope list_scope.

Module Replay.
Import Transaction Interpreter Compressor Coins CoinsView BlockCoins CheckInputs Chain Bignum Pow HeaderCheck Stake BlockCheck ConnectBlock ConnectParallel ConnectCoins.

(** ** The reference *)
Notation utxos := (uint256 → option CCoins).
Definition coins_set (u : utxos) (t : uint256) (o : option CCoins) : utxos := λ z, if decide (z = t) then o else u z.
Section reference.
Context (Hash : list Z → list Z).
Fixpoint spend_all (u : utxos) (vin : list CTxIn) : option utxos :=
  match vin with
  | [] => Some u
  | i :: vin => x ← u (ophash (prevout i)); '(y, _) ← spend_output (opn (prevout i)) x; spend_all (coins_set u (ophash (prevout i)) (norm (Some y))) vin
  end.
Definition apply_tx (u : utxos) (tx : CMutableTransaction) (h : Z) : option utxos :=
  u ← (if no_inputs tx then Some u else spend_all u (vin tx)); t ← GetHash Hash tx; Some (coins_set u t (norm (Some (FromTx tx h)))).
Fixpoint apply_block (u : utxos) (txs : list CMutableTransaction) (h : Z) : option utxos :=
  match txs with [] => Some u | tx :: txs => u ← apply_tx u tx h; apply_block u txs h end.
(** The blocks of a chain one after the other; [txs_of] is what is on disk for a block. *)
Fixpoint replay (txs_of : ptr → option (list CMutableTransaction)) (u : utxos) (h : Z) (l : list ptr) : option utxos :=
  match l with [] => Some u | p :: l => txs ← txs_of p; u ← apply_block u txs h; replay txs_of u (h + 1) l end.

(** ** Coins that are the same everywhere *)
Definition agree : relation utxos := pointwise_relation _ eq.
Definition agree_opt : relation (option utxos) := option_relation agree (λ _, False) (λ _, False).
#[export] Instance agree_equiv : Equivalence agree.
Proof using Type. unfold agree. apply _. Qed.
#[export] Instance coins_set_proper : Proper (agree ==> eq ==> eq ==> agree) coins_set.
Proof using Type. intros u v Huv t _ <- o _ <- z. unfold coins_set. destruct (decide _); [done|]. apply Huv. Qed.
Lemma agree_opt_bind (a b : option utxos) (f g : utxos → option utxos) : agree_opt a b → (∀ u v, agree u v → agree_opt (f u) (g v)) → agree_opt (a ≫= f) (b ≫= g).
Proof using Type. destruct a, b; try done. intros Hab Hf. by apply Hf. Qed.
Lemma spend_all_proper l : ∀ u v, agree u v → agree_opt (spend_all u l) (spend_all v l).
Proof using Type.
  induction l as [|i l IH]; intros u v Huv; [done|]. cbn [spend_all]. rewrite (Huv (ophash (prevout i))). destruct (v _) as [x|]; [|done]. cbn [mbind option_bind].
  destruct (spend_output _ x) as [[y ?]|]; [|done]. cbn [mbind option_bind]. apply IH. by apply coins_set_proper.
Qed.
Lemma apply_tx_proper u v tx h : agree u v → agree_opt (apply_tx u tx h) (apply_tx v tx h).
Proof using Type.
  intros Huv. unfold apply_tx. apply agree_opt_bind; [by destruct (no_inputs tx); [|apply spend_all_proper]|]. intros u' v' Huv'. destruct (GetHash Hash tx); [|done]. by apply coins_set_proper.
Qed.
Lemma apply_block_proper txs h : ∀ u v, agree u v → agree_opt (apply_block u txs h) (apply_block v txs h).
Proof using Type. induction txs as [|tx txs IH]; intros u v Huv; [done|]. cbn [apply_block]. apply agree_opt_bind; [by apply apply_tx_proper|done]. Qed.
Lemma agree_opt_Some a b u : agree_opt a b → b = Some u → ∃ v, a = Some v ∧ agree v u.
Proof using Type. intros Hab ->. destruct a as [v|]; [by exists v|done]. Qed.
Lemma replay_snoc txs_of l p : ∀ u h, replay txs_of u h (l ++ [p]) = u ← replay txs_of u h l; txs ← txs_of p; apply_block u txs (h + Z.of_nat (List.length l)).
Proof using Type.
  induction l as [|q l IH]; intros u h; cbn [app replay List.length].
  - cbn [mbind option_bind]. destruct (txs_of p) as [txs|]; [|done]. cbn [mbind option_bind]. rewrite Z.add_0_r. by destruct (apply_block u txs h).
  - destruct (txs_of q) as [txs|]; [|done]. cbn [mbind option_bind]. destruct (apply_block u txs h) as [u1|]; [|done]. cbn [mbind option_bind]. rewrite IH.
    replace (h + 1 + Z.of_nat (List.length l)) with (h + Z.of_nat (S (List.length l))) by lia. done.
Qed.
End reference.

(** ** The caches implement it *)
Section implements.
Context {V : Type} {HV : CCoinsView V} {HS : CoinsSpec V} `{MemUsage} (Hash : list Z → list Z).
Implicit Types c : CCoinsViewCache V.
Lemma spend_inputs_apply l : ∀ c c' us, cache_ok c → spend_inputs c l = Some (c', us) → ∃ u, spend_all (cache_utxo c) l = Some u ∧ agree u (cache_utxo c') ∧ cache_ok c' ∧ same_base c c'.
Proof using Type.
  induction l as [|i l IH]; intros c c' us Hc; cbn [spend_inputs]; [intros [= <- _]; by eexists|]. destruct (use_modifier _ _ _) as [[c1 un]|] eqn:E; [|done]. cbn [mbind option_bind].
  destruct (spend_inputs c1 l) as [[c2 us']|] eqn:E2; [|done]. cbn [mbind option_bind]. intros [= <- _]. destruct (spend_input_spec c i c1 un Hc E) as (Hc1 & Hb1 & x & y & _ & Ex & Es & Hu1).
  destruct (IH c1 c2 us' Hc1 E2) as (u & Eu & Hu & Hc2 & Hb2). cbn [spend_all]. rewrite Ex. cbn [mbind option_bind]. rewrite Es. cbn [mbind option_bind].
  assert (agree (coins_set (cache_utxo c) (ophash (prevout i)) (norm (Some y))) (cache_utxo c1)) as Ha by (intros z; by rewrite Hu1).
  destruct (agree_opt_Some _ _ _ (spend_all_proper l _ _ Ha) Eu) as (v & -> & Hv). exists v. split_and!; [done|by etransitivity|done|intros z; by rewrite Hb2].
Qed.
(** [UpdateCoins] on a cache in which the transaction is new, or at least not in the view below. *)
Lemma UpdateCoins_apply c tx h t c' us : cache_ok c → tidy (FromTx tx h) → GetHash Hash tx = Some t → utxo (base c) t = None → UpdateCoins Hash c tx h = Some (c', us) →
  ∃ u, apply_tx Hash (cache_utxo c) tx h = Some u ∧ agree u (cache_utxo c').
Proof using Type.
  intros Hc Ht Et Hb. unfold UpdateCoins, apply_tx. rewrite Et.
  assert (∀ c1 us1, (if negb (no_inputs tx) then spend_inputs c (vin tx) else Some (c, [])) = Some (c1, us1) →
    ∃ u, (if no_inputs tx then Some (cache_utxo c) else spend_all (cache_utxo c) (vin tx)) = Some u ∧ agree u (cache_utxo c1) ∧ cache_ok c1 ∧ same_base c c1) as Hin.
  { intros c1 us1. destruct (no_inputs tx); cbn [negb]; [intros [= <- _]; by eexists|apply spend_inputs_apply, Hc]. }
  destruct (if negb (no_inputs tx) then _ else _) as [[c1 us1]|] eqn:E1; [|done]. cbn [mbind option_bind]. destruct (Hin c1 us1 eq_refl) as (u & -> & Hu & Hc1 & Hb1). cbn [mbind option_bind].
  destruct (add_outputs_spec c1 tx h t Hc1 Ht) as (c2 & -> & _ & _ & Hu2); [by rewrite Hb1|]. cbn [mbind option_bind]. intros [= <- _]. eexists. split; [done|]. intros z. rewrite Hu2. unfold coins_set.
  destruct (decide _); [done|]. apply Hu.
Qed.
End implements.
End Replay.
