(* ===== verification/ConnectUndo.v ===== *)
(** * ConnectUndo: a connected block can be taken back

    The undo data [ConnectBlock] writes to disk and [DisconnectBlock] reads: after any accepted block
    the coins of before come back, whatever was read in between. *)
From Stdlib Require Import String.
From S2P Require Import Prelude Serialize Uint256 Amount Script Transaction Interpreter InterpreterSafety Merkle Compressor Coins CoinsView BlockCoins CheckInputs Chain VersionBits Bignum Pow HeaderCheck Stake BlockCheck CheckQueue ConnectBlock ConnectSample ConnectParallel ConnectCoins Replay.
Open Scope Z_scope.
Open Scope list_scope.

Module ConnectUndo.
Import Transaction Interpreter Compressor Coins CoinsView BlockCoins CheckInputs Chain Bignum Pow HeaderCheck Stake BlockCheck ConnectBlock ConnectSample ConnectParallel ConnectCoins Replay.

Section undo.
Context {V : Type} {HV : CCoinsView V} {HS : CoinsSpec V} `{MemUsage} `{OpenSSL} `{Subsystems} `{Crypto}.
Implicit Types (w : world V) (c d : CCoinsViewCache V).
Section transactions.
Context (params : Params) (sd : list Z → option Z) (ch : Z) (th : bool) (pindex : ptr) (height : Z) (fsc : bool) (flags lt : Z).
Notation connect_txs := (connect_txs params sd ch th pindex height fsc flags lt).
Notation connect_tx := (connect_tx params sd ch th pindex height fsc flags lt).
(** Where duplicates are looked for there are none. *)
Lemma connected_ids txs : fTestNet params || (HF_NOIRNODE_HEIGHT <=? height) = true → ∀ first t t' w w', Forall (λ tx, plain tx = true) txs → connect_txs first txs t w = Some (w', go t') →
  ∃ hs, map (GetHash Hash256) txs = map Some hs ∧ NoDup hs ∧ ∀ id, id ∈ hs → id ∉ txIds t.
Proof using Type.
  intros Hd. induction txs as [|tx txs IH]; intros first t t' w w' Hp; cbn [ConnectBlock.connect_txs]; [intros _; exists []; split_and!; [done|constructor|by intros id []%not_elem_of_nil]|].
  apply Forall_cons_iff in Hp as [Hp Hps]. rewrite bind_go. intros (w1 & t1 & E1 & E). destruct (connect_tx_go _ _ _ _ _ _ _ _ _ _ _ _ _ _ _ Hp E1) as (id & c1 & us & [C1 C2 C3 _ _ _ _ _ _]).
  destruct (IH false t1 t' w1 w' Hps E) as (hs & Hm & Hnd & Hni). rewrite Hd, andb_true_r in C2. apply bool_decide_eq_false in C2. rewrite C3 in Hni. exists (id :: hs). cbn [map]. rewrite C1, Hm. split_and!; [done| |].
  - constructor; [|done]. intros Hin%Hni. apply Hin, elem_of_union_l, elem_of_singleton. done.
  - intros x [-> |Hx]%elem_of_cons; [done|]. specialize (Hni x Hx). by apply not_elem_of_union in Hni as [_ ?].
Qed.
Lemma absent_unchanged c c' t : unchanged c c' → absent c t → absent c' t.
Proof using Type. intros (Hu & Hb & _) [? ?]. split; [by rewrite Hu|by rewrite Hb]. Qed.
Lemma connected_tx_back first tx t t' w w' : 0 < height → cache_ok (w_view w) → heights (cache_utxo (w_view w)) → tx_ok tx height → plain tx = true → (∀ id, GetHash Hash256 tx = Some id → absent (w_view w) id) →
  connect_tx first tx t w = Some (w', go t') → ∃ id us, GetHash Hash256 tx = Some id ∧ vtxundo t' = (if first then vtxundo t else vtxundo t ++ [us]) ∧
    cache_ok (w_view w') ∧ heights (cache_utxo (w_view w')) ∧ (∀ z, z ≠ id → absent (w_view w) z → absent (w_view w') z) ∧
    (∃ u, apply_tx Hash256 (cache_utxo (w_view w)) tx height = Some u ∧ agree u (cache_utxo (w_view w'))) ∧
    ∀ d ou, cache_ok d → same_coins (w_view w') d → (no_inputs tx = false → ou = Some us) →
      ∃ d', disconnect_tx Hash256 d tx height ou = Some (d', undone true) ∧ cache_ok d' ∧ same_coins (w_view w) d'.
Proof using Type.
  intros Hh Hc Hhs Hok Hp Ha E. destruct (connect_tx_go _ _ _ _ _ _ _ _ _ _ _ _ _ _ _ Hp E) as (id & c1 & us & [C1 _ _ C4 C5 C6 _ _ _]). destruct (reads_unchanged _ _ Hc C5) as (Hc1 & Hun). pose proof Hun as (Hu1 & _).
  assert (heights (cache_utxo c1)) as Hh1 by (intros z x; rewrite Hu1; apply Hhs). pose proof (absent_unchanged _ _ _ Hun (Ha id C1)) as Ha1.
  destruct (UpdateCoins_spec Hash256 c1 tx height id (w_view w') us Hc1 Hh1 Hh Hok C1 Ha1 C6) as (Hc' & _ & Hh' & Habs & Hback). exists id, us. split_and!; try done.
  - intros z Hz Haz. apply Habs; [done|]. by eapply absent_unchanged.
  - destruct (UpdateCoins_apply Hash256 c1 tx height id (w_view w') us Hc1 (proj1 Hok) C1 (proj2 Ha1) C6) as (u & Eu & Hu).
    destruct (agree_opt_Some _ _ _ (apply_tx_proper Hash256 (cache_utxo (w_view w)) _ tx height (λ z, eq_sym (Hu1 z))) Eu) as (v & Ev & Hv). exists v. split; [done|by etransitivity].
  - intros d ou Hd Hcd Hou. destruct (Hback d ou Hd Hcd Hou) as (d' & Ed & Hd' & _ & Hs). exists d'. split_and!; [done|done|]. intros z. by rewrite Hs, Hu1.
Qed.
Lemma apply_cons w w1 w' tx txs : (∃ u, apply_tx Hash256 (cache_utxo (w_view w)) tx height = Some u ∧ agree u (cache_utxo (w_view w1))) →
  (∃ u, apply_block Hash256 (cache_utxo (w_view w1)) txs height = Some u ∧ agree u (cache_utxo (w_view w'))) →
  ∃ u, apply_block Hash256 (cache_utxo (w_view w)) (tx :: txs) height = Some u ∧ agree u (cache_utxo (w_view w')).
Proof using Type.
  intros (u & Eu & Hu) (v & Ev & Hv). cbn [apply_block]. rewrite Eu. cbn [mbind option_bind]. destruct (agree_opt_Some _ _ _ (apply_block_proper Hash256 txs height _ _ Hu) Ev) as (x & Ex & Hx).
  exists x. split; [done|by etransitivity].
Qed.
Lemma connected_txs_back txs : 0 < height → ∀ t t' w w' hs, cache_ok (w_view w) → heights (cache_utxo (w_view w)) → Forall (λ tx, tx_ok tx height ∧ plain tx = true) txs →
  map (GetHash Hash256) txs = map Some hs → NoDup hs → (∀ id, id ∈ hs → absent (w_view w) id) → connect_txs false txs t w = Some (w', go t') →
  ∃ us, vtxundo t' = vtxundo t ++ us ∧ List.length us = List.length txs ∧ cache_ok (w_view w') ∧ heights (cache_utxo (w_view w')) ∧
    (∃ u, apply_block Hash256 (cache_utxo (w_view w)) txs height = Some u ∧ agree u (cache_utxo (w_view w'))) ∧
    ∀ d, cache_ok d → same_coins (w_view w') d → ∃ d', disconnect_all Hash256 d (zip txs (map Some us)) height = Some (d', undone true) ∧ cache_ok d' ∧ same_coins (w_view w) d'.
Proof using Type.
  intros Hh. induction txs as [|tx txs IH]; intros t t' w w' hs Hc Hhs Hok Hm Hnd Ha; cbn [ConnectBlock.connect_txs].
  { intros [= <- <-]. exists []. rewrite app_nil_r. split_and!; [done|done|done|done|by eexists|]. intros d Hd Hcd. by exists d. }
  destruct hs as [|id hs]; [done|]. injection Hm as Hid Hm. apply list.NoDup_cons in Hnd as [Hni Hnd]. apply Forall_cons_iff in Hok as [[Hok Hp] Hoks]. rewrite bind_go. intros (w1 & t1 & E1 & E).
  destruct (connected_tx_back false tx t t1 w w1 Hh Hc Hhs Hok Hp) as (id' & u & Hid' & Hu & Hc1 & Hh1 & Habs & Happ & Hback); [intros x Hx; apply Ha; assert (x = id) as -> by congruence; set_solver|done|].
  assert (id' = id) as -> by congruence. destruct (IH t1 t' w1 w' hs Hc1 Hh1 Hoks Hm Hnd) as (us & Hus & Hl & Hc' & Hh' & Happ' & Hback'); [|done|].
  { intros z Hz. apply Habs; [by intros ->|]. apply Ha. set_solver. }
  exists (u :: us). rewrite Hus, Hu, <- app_assoc. split_and!; [done|by cbn; rewrite Hl|done|done|by eapply apply_cons|]. intros d Hd Hcd. cbn [map].
  change (zip (tx :: txs) (Some u :: map Some us)) with ((tx, Some u) :: zip txs (map Some us)). cbn [disconnect_all]. destruct (Hback' d Hd Hcd) as (d1 & -> & Hd1 & Hs1). cbn [mbind option_bind].
  destruct (Hback d1 (Some u) Hd1 Hs1 (λ _, eq_refl)) as (d2 & -> & Hd2 & Hs2). cbn [mbind option_bind]. by exists d2.
Qed.
(** The whole block: the first transaction has no inputs, and its undo data is not stored. *)
Lemma connected_block_back tx rest t w w' hs : 0 < height → cache_ok (w_view w) → heights (cache_utxo (w_view w)) → no_inputs tx = true → Forall (λ tx, tx_ok tx height ∧ plain tx = true) (tx :: rest) →
  map (GetHash Hash256) (tx :: rest) = map Some hs → NoDup hs → (∀ id, id ∈ hs → absent (w_view w) id) → connect_txs true (tx :: rest) totals_init w = Some (w', go t) →
  List.length (vtxundo t) = List.length rest ∧ cache_ok (w_view w') ∧ heights (cache_utxo (w_view w')) ∧
    (∃ u, apply_block Hash256 (cache_utxo (w_view w)) (tx :: rest) height = Some u ∧ agree u (cache_utxo (w_view w'))) ∧
    ∀ d, cache_ok d → same_coins (w_view w') d → ∃ d', disconnect_all Hash256 d (zip (tx :: rest) (None :: map Some (vtxundo t))) height = Some (d', undone true) ∧ cache_ok d' ∧ same_coins (w_view w) d'.
Proof using Type.
  intros Hh Hc Hhs Hno Hok Hm Hnd Ha. destruct hs as [|id hs]; [done|]. injection Hm as Hid Hm. apply list.NoDup_cons in Hnd as [Hni Hnd]. apply Forall_cons_iff in Hok as [[Hok Hp] Hoks].
  cbn [ConnectBlock.connect_txs]. rewrite bind_go. intros (w1 & t1 & E1 & E).
  destruct (connected_tx_back true tx totals_init t1 w w1 Hh Hc Hhs Hok Hp) as (id' & u & Hid' & Hu & Hc1 & Hh1 & Habs & Happ & Hback); [intros x Hx; apply Ha; assert (x = id) as -> by congruence; set_solver|done|].
  assert (id' = id) as -> by congruence. destruct (connected_txs_back rest Hh t1 t w1 w' hs Hc1 Hh1 Hoks Hm Hnd) as (us & Hus & Hl & Hc' & Hh' & Happ' & Hback'); [|done|].
  { intros z Hz. apply Habs; [by intros ->|]. apply Ha. set_solver. }
  rewrite Hu in Hus. cbn [totals_init vtxundo app] in Hus. rewrite Hus. split_and!; [done|done|done|by eapply apply_cons|]. intros d Hd Hcd.
  change (zip (tx :: rest) (None :: map Some us)) with ((tx, None : option (list CTxInUndo)) :: zip rest (map Some us)). cbn [disconnect_all]. destruct (Hback' d Hd Hcd) as (d1 & -> & Hd1 & Hs1). cbn [mbind option_bind].
  destruct (Hback d1 None Hd1 Hs1) as (d2 & -> & Hd2 & Hs2); [by rewrite Hno|]. cbn [mbind option_bind]. by exists d2.
Qed.
End transactions.

Context (params : Params) (mapCheckpoints : list (Z * list Z)) (fCheckpointsEnabled : bool) (GetPoWHash : CBlockHeader → Z → list Z) (junk : bool * bool).
Context (nMajorityEnforceBlockUpgrade : Z) (deployments : VersionBits.Params) (sigma_denomination : list Z → option Z).
Context (GetTransaction : list Z → option (CMutableTransaction * list Z)) (fDebug : bool) (chainHeight : Z) (threads : bool) (queue_answer : list job → bool).
Context (FindUndoPos : Z → list (list CTxInUndo) → CValidationState → CValidationState * option Z) (UndoWriteToDisk : list (list CTxInUndo) → Z → option Z) (write_indexes : CBlock → option string).
Notation connect := (ConnectBlock (V := V) params mapCheckpoints fCheckpointsEnabled GetPoWHash junk nMajorityEnforceBlockUpgrade deployments
  sigma_denomination GetTransaction fDebug chainHeight threads queue_answer FindUndoPos UndoWriteToDisk write_indexes).
(** A new view on coins from blocks above the first one. *)
Record new_view c : Prop := {
  nv_ok : cache_ok c;
  nv_fresh : ∀ t, cache_utxo c t = utxo (base c) t;
  nv_heights : heights (cache_utxo c) }.
(** What is left of a block after its checks: the coins are those of the reference, and its undo data takes them back. *)
Lemma checked_back block pindex w b w1 w2 w3 t fsc flags lt tx rest : checked_block params sigma_denomination chainHeight threads block pindex w b w1 w2 w3 t fsc flags lt →
  0 < nHeight b → new_view (w_view w) → fTestNet params || (HF_NOIRNODE_HEIGHT <=? nHeight b) = true → vtx block = tx :: rest → no_inputs tx = true →
  Forall (λ tx, tx_ok tx (nHeight b) ∧ plain tx = true) (vtx block) →
  cache_ok (w_view w3) ∧ heights (cache_utxo (w_view w3)) ∧ (∃ u, apply_block Hash256 (cache_utxo (w_view w)) (vtx block) (nHeight b) = Some u ∧ agree u (cache_utxo (w_view w3))) ∧
  ∀ d hashPrev, cache_ok d → same_coins (w_view w3) d → cache_best d = phashBlock b →
    ∃ d', DisconnectBlock Hash256 d (vtx block) (nHeight b) (phashBlock b) hashPrev (vtxundo t) = Some (d', undone true) ∧ cache_ok d' ∧ same_coins (w_view w) d' ∧ hashBlock d' = hashPrev.
Proof using Type.
  intros [_ [G2 G2'] G3 G4 _ [G9 G9']] Hh [Hc Hfresh Hhs] Hdup Ev Hno Hok. destruct (reads_unchanged _ _ Hc G2) as (Hc1 & Hun1). pose proof Hun1 as (Hu1 & _).
  assert (Forall (λ tx, plain tx = true) (vtx block)) as Hp by (eapply Forall_impl; [|exact Hok]; by intros ? []).
  destruct (connected_ids _ _ _ _ _ _ _ _ _ _ Hdup _ _ _ _ _ Hp G4) as (hs & Hm & Hnd & _).
  assert (∀ id, id ∈ hs → absent (w_view w1) id) as Ha.
  { intros id Hin. eapply absent_unchanged; [exact Hun1|]. assert (Some id ∈ map (GetHash Hash256) (vtx block)) as Hs by (rewrite Hm; apply list_elem_of_fmap; by exists id).
    apply list_elem_of_fmap in Hs as (x & Hx & Hxin). destruct (G3 x Hxin) as (id' & Eid & Hn). assert (id' = id) as -> by congruence. split; [done|]. by rewrite <- Hfresh. }
  rewrite Ev in *. assert (heights (cache_utxo (w_view w1))) as Hh1 by (intros z x; rewrite Hu1; apply Hhs).
  destruct (connected_block_back _ _ _ _ _ _ _ _ _ tx rest t w1 w2 hs Hh Hc1 Hh1 Hno Hok Hm Hnd Ha G4) as (Hl & Hc2 & Hh2 & (u & Eu & Hu) & Hback). destruct (reads_unchanged _ _ Hc2 G9) as (Hc3 & Hu3 & _).
  split; [done|]. split; [intros z x; rewrite Hu3; apply Hh2|]. split.
  { destruct (agree_opt_Some _ _ _ (apply_block_proper Hash256 (tx :: rest) (nHeight b) (cache_utxo (w_view w)) _ (λ z, eq_sym (Hu1 z))) Eu) as (v & Ex & Hv). exists v. split; [done|].
    intros z. by rewrite Hu3, <- Hu, Hv. }
  intros d hashPrev Hd Hcd Hbest.
  unfold DisconnectBlock. destruct (@GetBestBlock_spec _ _ CCoinsViewCache_spec d Hd) as (d0 & E0 & Hd0 & Hu0 & _). cbn [best_block CCoinsViewCache_spec] in E0. rewrite E0. rewrite Hbest, bool_decide_true by done. cbn [negb].
  rewrite Hl. cbn [List.length]. rewrite Nat.add_1_r, Nat.eqb_refl. cbn [negb].
  destruct (Hback d0 Hd0) as (d1 & -> & [D1 D2 D3] & Hs1); [intros z; transitivity (cache_utxo d z); [apply Hu0|]; rewrite (Hcd z); exact (Hu3 z)|]. cbn [mbind option_bind].
  eexists. split; [reflexivity|]. split_and!; [by split|intros z; rewrite <- (Hu1 z); exact (Hs1 z)|done].
Qed.
(** C16. A connected block can be disconnected.  Let [ConnectBlock] accept a block that is not the first one, at a height where duplicate
    transactions are rejected (from 261500 on, or anywhere on the test network), on a new view, where the index has no undo data for the block yet; the first transaction has no inputs, none
    is a zerocoin or sigma transaction, and none has a negative version.  The coins are then those of the reference [apply_block], and the undo data it stores for a block without any takes
    the block back: [DisconnectBlock] on any cache with the coins [ConnectBlock] left and with the
    block as its best one, such as the one it left, restores exactly the coins of before, reports that all was clean and sets the best
    block to the one it is given as parent.  That the transactions are new and different, which the inverse
    needs, is what the checks of [ConnectBlock] made sure. *)
Theorem ConnectBlock_reversible block pindex w w' b tx rest : blocks (w_index w) !! pindex = Some b → 0 < nHeight b → has_undo b = false → new_view (w_view w) →
  fTestNet params || (HF_NOIRNODE_HEIGHT <=? nHeight b) = true → vtx block = tx :: rest → no_inputs tx = true → Forall (λ tx, tx_ok tx (nHeight b) ∧ plain tx = true) (vtx block) →
  hb_hash (GetBlockHeader block) ≠ hashGenesisBlock params → accepts (connect block pindex false) w w' →
  cache_ok (w_view w') ∧ hashBlock (w_view w') = phashBlock b ∧
  (∃ u, apply_block Hash256 (cache_utxo (w_view w)) (vtx block) (nHeight b) = Some u ∧ agree u (cache_utxo (w_view w'))) ∧
  ∃ undo, w_undo w' !! pindex = Some undo ∧ ∀ d hashPrev, cache_ok d → same_coins (w_view w') d → cache_best d = phashBlock b →
    ∃ d', DisconnectBlock Hash256 d (vtx block) (nHeight b) (phashBlock b) hashPrev undo = Some (d', undone true) ∧ cache_ok d' ∧ same_coins (w_view w) d' ∧ hashBlock d' = hashPrev.
Proof using Type.
  intros Eb Hh Hun Hv Hdup Ev Hno Hok Hg Hacc.
  destruct (ConnectBlock_go _ _ _ _ _ _ _ _ _ _ _ _ _ _ _ _ _ _ _ _ _ (nv_ok _ Hv) Hg Hacc) as (b' & w1 & w2 & w3 & t & fsc & flags & lt & Hb & _ & Hd & Hvw & x & y & Ex & _ & _ & _ & Hu).
  assert (b' = b) as -> by (pose proof (cb_entry _ _ _ _ _ _ _ _ _ _ _ _ _ _ _ Hb); congruence). rewrite (disk_index _ _ Hd), Eb in Ex. injection Ex as <-. rewrite Hun in Hu.
  destruct (checked_back _ _ _ _ _ _ _ _ _ _ _ tx rest Hb Hh Hv Hdup Ev Hno Hok) as ([C1 C2 C3] & _ & Happ & Hback). rewrite Hvw. split; [by split|]. split_and!; [done|exact Happ|].
  exists (vtxundo t). split; [rewrite Hu; apply lookup_insert_eq|exact Hback].
Qed.
End undo.
Lemma ConnectBlock_reversible_witness : ∃ w' undo d', accepts (connect_block true 300000 sample_txs false) (connect_world 300000) w' ∧ w_undo w' !! 1%nat = Some undo ∧
  DisconnectBlock Hash256 (w_view w') sample_txs 300000 (replicate 32 8) (replicate 32 9) undo = Some (d', undone true) ∧ same_coins sample_view d'.
Proof.
  destruct sample_accepted as (w' & E). exists w'.
  assert (accepts (connect_block true 300000 sample_txs false) (connect_world 300000) w') as Ha by (unfold accepts, call; by rewrite E).
  assert (new_view sample_view) as Hv by (split; [apply sample_view_ok|reflexivity|apply sample_heights]).
  assert (Forall (λ tx, tx_ok tx 300000 ∧ plain tx = true) [sample_coinbase; sample_spend]) as Hok.
  { apply Forall_cons_2; [split; [apply sample_coinbase_ok; lia|vm_compute; reflexivity]|]. apply Forall_cons_2; [split; [apply sample_spend_ok; lia|vm_compute; reflexivity]|apply Forall_nil_2]. }
  destruct (ConnectBlock_reversible regtest_params [] true (λ _ _, []) (false, false) 750 future_deployments (λ _, None) (λ _, None) false (300000 - 1) true (forallb run_job)
    (λ _ _ s, (s, Some 0)) (λ _ p, Some p) (λ _, None) (block_of sample_txs) 1%nat (connect_world 300000) w' (block_entry 300000) sample_coinbase [sample_spend]
    eq_refl eq_refl eq_refl Hv eq_refl eq_refl eq_refl Hok (sample_not_genesis _) Ha) as (Hc & Hb & _ & undo & Hu & Hd).
  assert (cache_best (w_view w') = replicate 32 8) as Hbest by (unfold cache_best; rewrite Hb; reflexivity).
  destruct (Hd (w_view w') (replicate 32 9) Hc (λ _, eq_refl) Hbest) as (d' & Ed & _ & Hs & _). exists undo, d'. exact (conj Ha (conj Hu (conj Ed Hs))).
Defined.
End ConnectUndo.
