(* ===== verification/Tip.v ===== *)
(** * Tip: connecting and disconnecting the tip of the chain, with the coins ([main.cpp])

    [ConnectTip] and [DisconnectTip] as a whole: the block is read from disk, applied to a view on
    [pcoinsTip], the view is flushed into it, the state is written to disk if the cache is too large, and the
    active chain gets its new tip.  The memory pool, the wallet and the zerocoin state that follow
    the tip are not modelled, nor is pruning. *)
From Stdlib Require Import String.
From S2P Require Import Prelude ArithUint256 Serialize Uint256 Amount Script Transaction Interpreter InterpreterSafety Merkle Compressor Coins CoinsView BlockCoins CheckInputs Chain VersionBits Bignum Pow HeaderCheck ActiveChain ChainState Stake BlockCheck CheckQueue ConnectBlock.
Open Scope Z_scope.
Open Scope list_scope.

Module Tip.
Import Transaction Interpreter Compressor Coins CoinsView BlockCoins CheckInputs Chain Bignum Pow HeaderCheck Stake BlockCheck.
Import (notations) ChainState.
Notation main_state := ChainState.main_state.
Notation arena_of st := (blocks (ChainState.ms_index st)).

Inductive FlushStateMode := FLUSH_STATE_NONE | FLUSH_STATE_IF_NEEDED | FLUSH_STATE_PERIODIC | FLUSH_STATE_ALWAYS.
#[export] Instance FlushStateMode_eq_dec : EqDecision FlushStateMode.
Proof. solve_decision. Defined.
Definition DATABASE_WRITE_INTERVAL : Z := 60 * 60.
Definition DATABASE_FLUSH_INTERVAL : Z := 24 * 60 * 60.
Definition nMinDiskSpace : Z := 52428800.
Definition IsInvalid (state : CValidationState) : bool := match mode state with MODE_INVALID => true | _ => false end.
Definition IsError (state : CValidationState) : bool := match mode state with MODE_ERROR => true | _ => false end.
(** The static times of [FlushStateToDisk]. *)
Record flush_times := mkTimes { nLastWrite : Z; nLastFlush : Z; nLastSetChain : Z }.

Section tip.
Context {V : Type} `{CCoinsView V} `{MemUsage} `{OpenSSL} `{Subsystems} `{Crypto}.
Context (params : Params) (mapCheckpoints : list (Z * list Z)) (fCheckpointsEnabled : bool) (GetPoWHash : CBlockHeader → Z → list Z) (junk : bool * bool).
Context (nMajorityEnforceBlockUpgrade : Z) (deployments : VersionBits.Params) (sigma_denomination : list Z → option Z).
Context (GetTransaction : list Z → option (CMutableTransaction * list Z)) (fDebug : bool) (nScriptCheckThreads : bool) (queue_answer : list job → bool).
Context (FindUndoPos : Z → list (list CTxInUndo) → CValidationState → CValidationState * option Z) (UndoWriteToDisk : list (list CTxInUndo) → Z → option Z) (write_indexes : CBlock → option string).
(** What the block files hold at a position; the memory a map takes and how much the cache may take; at a time, the free space on disk and
    whether the databases of the index and of the coins can be written, and whether the undo data of a block can be read. *)
Context (block_file : Z → Z → option CBlock) (DynamicUsage : CCoinsMap → Z) (nCoinCacheUsage : Z) (free_space : Z → Z) (WriteBatchSync WriteBatch : Z → bool).
Context (undo_readable : Z → ptr → bool).

(** The state of the node around the tip. *)
Record chainstate := mkChainstate {
  cs_main : main_state; cs_modifiers : gmap ptr (list Z); cs_limits : limits; cs_deployments : VersionBits.VersionBitsCache;
  pcoinsTip : CCoinsViewCache V; cs_undo : gmap ptr (list (list CTxInUndo)); cs_times : flush_times }.
Definition cs_set_main (s : chainstate) (m : main_state) : chainstate := mkChainstate m (cs_modifiers s) (cs_limits s) (cs_deployments s) (pcoinsTip s) (cs_undo s) (cs_times s).
Definition cs_set_limits (s : chainstate) (g : limits) : chainstate := mkChainstate (cs_main s) (cs_modifiers s) g (cs_deployments s) (pcoinsTip s) (cs_undo s) (cs_times s).
Definition cs_set_coins (s : chainstate) (c : CCoinsViewCache V) : chainstate := mkChainstate (cs_main s) (cs_modifiers s) (cs_limits s) (cs_deployments s) c (cs_undo s) (cs_times s).
Definition cs_set_times (s : chainstate) (t : flush_times) : chainstate := mkChainstate (cs_main s) (cs_modifiers s) (cs_limits s) (cs_deployments s) (pcoinsTip s) (cs_undo s) t.
Definition from_R {A} (r : ChainState.R A) : option A := match r with inr a => Some a | inl _ => None end.

(** ** The disk *)
Definition CheckDiskSpace (now nAdditionalBytes : Z) : bool := negb (free_space now <? u64 (nMinDiskSpace + nAdditionalBytes)).
(** The second function of the name calls the first. *)
Definition ReadBlockFromDisk (g : limits) (pindex : CBlockIndex) : limits * option CBlock :=
  match (if ChainState.have_data pindex then block_file (nFile pindex) (nDataPos pindex) else None) with
  | None => (g, None)
  | Some block =>
      let '(g, ok) :=
        if negb (block_IsProofOfStake block) then
          let '(limit, ok) := CheckProofOfWork params junk.1 junk.2 (pow_limit g) (GetPoWHash (GetBlockHeader block) (nHeight pindex)) (hb_nBits (GetBlockHeader block)) (nHeight pindex) in
          (mkLimits limit (main_limit g), ok || negb ((233000 <? nHeight pindex) || (nHeight pindex =? 2 ^ 31 - 1)))
        else (g, true) in
      if negb ok then (g, None)
      else if negb (bool_decide (hb_hash (GetBlockHeader block) = phashBlock pindex)) then (g, None)
      else (g, Some block)
  end.
(** [Flush] when the database throws: [BatchWrite] has taken every entry out of the map by then, and the rest is left as it was. *)
Definition Flush_thrown (c : CCoinsViewCache V) : CCoinsViewCache V := mkCache (base c) (hasModifier c) (hashBlock c) ∅ (cachedCoinsUsage c).
(** Without pruning.  The product with [10.0 / 9] is taken as exact; [SetBestChain] is a signal to the wallet.  A database that cannot be written
    throws; the function catches that, and the text of the exception is left out. *)
Definition FlushStateToDisk (now : Z) (s : chainstate) (state : CValidationState) (mode : FlushStateMode) : option (chainstate * CValidationState * bool) :=
  let t := cs_times s in
  let t := mkTimes (if nLastWrite t =? 0 then now else nLastWrite t) (if nLastFlush t =? 0 then now else nLastFlush t) (if nLastSetChain t =? 0 then now else nLastSetChain t) in
  let cacheSize := u64 (DynamicUsage (cacheCoins (pcoinsTip s)) + cachedCoinsUsage (pcoinsTip s)) in
  let fCacheLarge := bool_decide (mode = FLUSH_STATE_PERIODIC) && (9 * nCoinCacheUsage <? 10 * cacheSize) in
  let fCacheCritical := bool_decide (mode = FLUSH_STATE_IF_NEEDED) && (nCoinCacheUsage <? cacheSize) in
  let fPeriodicWrite := bool_decide (mode = FLUSH_STATE_PERIODIC) && (nLastWrite t + DATABASE_WRITE_INTERVAL * 1000000 <? now) in
  let fPeriodicFlush := bool_decide (mode = FLUSH_STATE_PERIODIC) && (nLastFlush t + DATABASE_FLUSH_INTERVAL * 1000000 <? now) in
  let fDoFullFlush := bool_decide (mode = FLUSH_STATE_ALWAYS) || fCacheLarge || fCacheCritical || fPeriodicFlush in
  let fWrite := fDoFullFlush || fPeriodicWrite in
  if fWrite && negb (CheckDiskSpace now 0) then Some (cs_set_times s t, ConnectBlock.Error "out of disk space" state, false)
  else
    let i := ChainState.ms_index (cs_main s) in
    let s := if fWrite then cs_set_main s (ChainState.set_index (cs_main s) (mkState (blocks i) (mapBlockIndex i) (pindexBestHeader i) ∅)) else s in
    if fWrite && negb (WriteBatchSync now) then Some (cs_set_times s t, ConnectBlock.Error "System error while flushing: " state, false)
    else
      let t := mkTimes (if fWrite then now else nLastWrite t) (nLastFlush t) (nLastSetChain t) in
      if fDoFullFlush && negb (CheckDiskSpace now (u64 (128 * 2 * 2 * GetCacheSize (pcoinsTip s)))) then Some (cs_set_times s t, ConnectBlock.Error "out of disk space" state, false)
      else if fDoFullFlush && negb (WriteBatch now) then Some (cs_set_times (cs_set_coins s (Flush_thrown (pcoinsTip s))) t, ConnectBlock.Error "System error while flushing: " state, false)
      else
        '(c, ok) ← (if fDoFullFlush then Flush (pcoinsTip s) else Some (pcoinsTip s, true));
        let s := cs_set_coins s c in
        if negb ok then Some (cs_set_times s t, ConnectBlock.Error "Failed to write to coin database" state, false)
        else
          let setChain := fDoFullFlush || ((bool_decide (mode = FLUSH_STATE_ALWAYS) || bool_decide (mode = FLUSH_STATE_PERIODIC)) && (nLastSetChain t + DATABASE_WRITE_INTERVAL * 1000000 <? now)) in
          Some (cs_set_times s (mkTimes (nLastWrite t) (if fDoFullFlush then now else nLastFlush t) (if setChain then now else nLastSetChain t)), state, true).

(** ** The tip *)
(** What [ConnectBlock] works on, with a new view, and what is left when the view is gone. *)
Definition enter (s : chainstate) (state : CValidationState) (fChecked : bool) : world (CCoinsViewCache V) :=
  mkWorld (ChainState.ms_index (cs_main s)) (cs_modifiers s) (cs_limits s) (cs_deployments s) (new_cache (pcoinsTip s)) None fChecked [] (cs_undo s) state.
Definition leave (s : chainstate) (w : world (CCoinsViewCache V)) : chainstate :=
  mkChainstate (ChainState.set_index (cs_main s) (w_index w)) (w_modifiers w) (w_limits w) (w_deployments w) (base (w_view w)) (w_undo w) (cs_times s).
(** After the block was applied to the view: [assert(view.Flush())], the state to disk, and the new tip. *)
Definition new_tip (now : Z) (s : chainstate) (state : CValidationState) (view : CCoinsViewCache (CCoinsViewCache V)) (tip : option ptr) : option (chainstate * CValidationState * bool) :=
  '(view, ok) ← Flush view;
  if negb ok then None
  else
    '(s, state, ok) ← FlushStateToDisk now (cs_set_coins s (base view)) state FLUSH_STATE_IF_NEEDED;
    if negb ok then Some (s, state, false)
    else m ← from_R (ChainState.UpdateTip (cs_main s) tip); Some (cs_set_main s m, state, true).
(** [pblock] comes with its flag [fChecked]; [None] is a null pointer.  The outcome [throw] is an exception nobody on the way catches. *)
Definition ConnectTip (now : Z) (s : chainstate) (state : CValidationState) (pindexNew : ptr) (pblock : option (CBlock * bool)) : option (chainstate * CValidationState * outcome bool) :=
  b ← arena_of (cs_main s) !! pindexNew;
  if negb (bool_decide (pprev b = Tip (ChainState.chainActive (cs_main s)))) then None
  else
    let '(g, block) := match pblock with Some p => (cs_limits s, Some p) | None => let '(g, r) := ReadBlockFromDisk (cs_limits s) b in (g, (λ block, (block, false)) <$> r) end in
    let s := cs_set_limits s g in
    match block with
    | None => Some (s, ConnectBlock.Error "Failed to read block" state, ret false)
    | Some (block, fChecked) =>
        '(w, r) ← call (ConnectBlock.ConnectBlock params mapCheckpoints fCheckpointsEnabled GetPoWHash junk nMajorityEnforceBlockUpgrade deployments sigma_denomination GetTransaction fDebug
          (Height (ChainState.chainActive (cs_main s))) nScriptCheckThreads queue_answer FindUndoPos UndoWriteToDisk write_indexes block pindexNew false) (enter s state fChecked);
        let s := leave s w in
        match r with
        | go true => '(s, state, ok) ← new_tip now s (w_state w) (w_view w) (Some pindexNew); Some (s, state, ret ok)
        | go false | ret _ =>
            m ← (if IsInvalid (w_state w) then from_R (ChainState.InvalidBlockFound (cs_main s) pindexNew (corruptionPossible (w_state w))) else Some (cs_main s));
            Some (cs_set_main s m, w_state w, ret false)
        | throw => Some (s, w_state w, throw)
        end
    end.
(** The undo data as it was written, or nothing: the file cannot be opened or read, or its checksum is wrong. *)
Definition UndoReadFromDisk (now : Z) (s : chainstate) (pindex : ptr) : option (list (list CTxInUndo)) := if undo_readable now pindex then cs_undo s !! pindex else None.
Definition DisconnectTip (now : Z) (s : chainstate) (state : CValidationState) : option (chainstate * CValidationState * bool) :=
  pindexDelete ← Tip (ChainState.chainActive (cs_main s));
  b ← arena_of (cs_main s) !! pindexDelete;
  let '(g, block) := ReadBlockFromDisk (cs_limits s) b in
  let s := cs_set_limits s g in
  match block with
  | None => Some (s, ConnectBlock.Error "Failed to read block" state, false)
  | Some block =>
      match (if ConnectBlock.has_undo b then UndoReadFromDisk now s pindexDelete else None) with
      | None =>
          let '(view, best) := cache_GetBestBlock (new_cache (pcoinsTip s)) in
          if negb (bool_decide (phashBlock b = best)) then None else Some (cs_set_coins s (base view), state, false)
      | Some undo =>
          q ← pprev b;
          prev ← arena_of (cs_main s) !! q;
          '(view, r) ← DisconnectBlock Hash256 (new_cache (pcoinsTip s)) (vtx block) (nHeight b) (phashBlock b) (phashBlock prev) undo;
          match r with
          | undone true => new_tip now s state view (Some q)
          | _ => Some (cs_set_coins s (base view), state, false)
          end
      end
  end.
(** The state of the validation is checked after each block. *)
Fixpoint DisconnectBlocks (blocks : nat) (times : list Z) (s : chainstate) (state : CValidationState) : option (chainstate * bool) :=
  match blocks with
  | O => Some (s, true)
  | S blocks =>
      '(s, state, ok) ← DisconnectTip (default 0 (head times)) s state;
      if negb ok || match mode state with MODE_VALID => false | _ => true end then Some (s, false) else DisconnectBlocks blocks (tail times) s state
  end.
End tip.
Arguments chainstate V {_}.
End Tip.
