(* ===== verification/CoinsFollow.v ===== *)
(** * CoinsFollow: the coins follow the active chain

    Any sequence of [ConnectTip] and [DisconnectTip], on any branches, in any order, keeps the coins
    of [pcoinsTip] equal to the replay of the blocks of the active chain.  They depend on the chain only, and not on
    the way to it; and the tip can be disconnected whenever the disk works. *)
From Stdlib Require Import String.
From S2P Require Import Prelude ArithUint256 Serialize Uint256 Amount Script Transaction Interpreter InterpreterSafety Merkle Compressor Coins CoinsView BlockCoins CheckInputs Chain VersionBits Bignum Pow HeaderCheck ActiveChain ChainState BestChain Stake BlockCheck CheckQueue ConnectBlock ConnectSample ConnectParallel ConnectCoins Replay ConnectUndo Tip.
Open Scope Z_scope.
Open Scope list_scope.

Module CoinsFollow.
Import Transaction Interpreter Compressor Coins CoinsView BlockCoins CheckInputs Chain ActiveChain Bignum Pow HeaderCheck Stake BlockCheck ConnectBlock ConnectParallel ConnectCoins Replay ConnectUndo Tip.

(** ** Paths in the tree *)
Section paths.
Context (A : arena) (HA : wf_index A).
Lemma chain_to_unique v v' p : chain_to A v p → chain_to A v' p → v = v'.
Proof using Type.
  intros (b & Eb & Hl & Hv) (b' & Eb' & Hl' & Hv'). assert (b' = b) as -> by congruence. assert (length v = length v') as Hlen by congruence. apply list_eq. intros i.
  destruct (decide (i < length v)%nat) as [Hi|Hi]; [rewrite Hv, Hv' by lia; by rewrite Hlen|]. rewrite !lookup_ge_None_2 by lia. done.
Qed.
Lemma chain_to_snoc v q p b : chain_to A v q → A !! p = Some b → pprev b = Some q → chain_to A (v ++ [p]) p.
Proof using HA.
  intros (c & Ec & Hl & Hv) Eb Ep. pose proof (we_prev _ _ _ (HA p b Eb)) as Hp. rewrite Ep in Hp. destruct Hp as (c' & Ec' & Hh). assert (c' = c) as -> by congruence.
  pose proof (we_height _ _ _ (HA q c Ec)). exists b. rewrite length_app. cbn [length]. split_and!; [done|lia|]. intros i Hi. destruct (decide (i < length v)%nat) as [Hlt|].
  - rewrite lookup_app_l by done. rewrite Hv by done. replace (length v + 1 - 1 - i)%nat with (S (length v - 1 - i)) by lia. cbn [up]. rewrite Eb. cbn [mbind option_bind]. rewrite Ep. done.
  - rewrite lookup_app_r by lia. replace (i - length v)%nat with 0%nat by lia. replace (length v + 1 - 1 - i)%nat with 0%nat by lia. done.
Qed.
Lemma Tip_snoc v p : Tip (v ++ [p]) = Some p.
Proof using Type. unfold Tip. rewrite length_app. cbn [length]. rewrite lookup_app_r by lia. by replace (length v + 1 - 1 - length v)%nat with 0%nat by lia. Qed.
Lemma chain_to_fresh v l p : chain_to A (v ++ l ++ [p]) p → p ∉ v.
Proof using HA.
  intros Hp Hin. destruct (list_elem_of_lookup_1 _ _ Hin) as [i Ei]. pose proof (lookup_lt_Some _ _ _ Ei) as Hi. destruct (chain_lookup _ HA _ p i p Hp) as (b & Eb & Hb & _); [by apply lookup_app_l_Some|].
  destruct Hp as (b' & Eb' & Hl & _). rewrite !length_app in Hl. cbn [length] in Hl. assert (b' = b) as -> by congruence. lia.
Qed.
Lemma chain_to_last v p t : chain_to A (v ++ [p]) t → t = p.
Proof using Type.
  intros (b & _ & _ & Hv). specialize (Hv (length v)). rewrite length_app, lookup_app_r, Nat.sub_diag in Hv by lia. cbn [length] in Hv. replace (length v + 1 - 1 - length v)%nat with 0%nat in Hv by lia.
  specialize (Hv ltac:(lia)). cbn in Hv. congruence.
Qed.
Lemma chain_to_init v p q b : chain_to A (v ++ [q] ++ [p]) p → A !! p = Some b → pprev b = Some q ∧ chain_to A (v ++ [q]) q.
Proof using HA.
  intros (b' & Eb' & Hl & Hv) Eb. assert (b' = b) as -> by congruence. rewrite !length_app in Hl. cbn [length] in Hl.
  assert (up A 1 p = Some q) as Hu.
  { specialize (Hv (length v)). rewrite !length_app in Hv. cbn [length] in Hv. replace (length v + (1 + 1) - 1 - length v)%nat with 1%nat in Hv by lia. rewrite <- Hv by lia. by rewrite lookup_app_r, Nat.sub_diag by lia. }
  cbn [up] in Hu. rewrite Eb in Hu. cbn [mbind option_bind] in Hu. destruct (pprev b) as [r|] eqn:Ep; [|done]. injection Hu as ->. split; [done|].
  pose proof (we_prev _ _ _ (HA p b Eb)) as Hp. rewrite Ep in Hp. destruct Hp as (c & Ec & Hh). exists c. rewrite length_app. cbn [length]. split_and!; [done|lia|]. intros i Hi.
  specialize (Hv i). rewrite app_assoc, lookup_app_l in Hv by (rewrite length_app; cbn [length]; lia). rewrite Hv by (rewrite !length_app; cbn [length]; lia). rewrite !length_app. cbn [length].
  replace (length v + 1 + 1 - 1 - i)%nat with (S (length v + 1 - 1 - i)) by lia. cbn [up]. rewrite Eb. cbn [mbind option_bind]. rewrite Ep. done.
Qed.
End paths.

(** ** What stays of the index *)
Definition lasting (b : CBlockIndex) := (kept b, has_undo b).
Lemma lasting_fields b b' : lasting b = lasting b' → kept b = kept b' ∧ has_undo b = has_undo b'.
Proof. intros E. exact (conj (f_equal fst E) (f_equal snd E)). Qed.
Lemma lasting_tree A B : map lasting A = map lasting B → map kept A = map kept B.
Proof. intros E. assert (map kept A = map fst (map lasting A)) as -> by (rewrite map_map; done). rewrite E, map_map. done. Qed.
Lemma kept_tree A B : map kept A = map kept B → same_tree A B.
Proof. intros E. unfold same_tree. assert (map bones A = map fst (map kept A)) as -> by (rewrite map_map; done). rewrite E, map_map. done. Qed.
Lemma failed_lasting b : lasting (set_nStatus b (Z.lor (nStatus b) ChainState.BLOCK_FAILED_VALID)) = lasting b.
Proof.
  unfold lasting, has_undo. cbn [nStatus set_nStatus nFile]. rewrite Z.land_lor_distr_l. change (Z.land ChainState.BLOCK_FAILED_VALID BLOCK_HAVE_UNDO) with 0. by rewrite Z.lor_0_r.
Qed.
Lemma InvalidBlockFound_lasting st p c st' : ChainState.InvalidBlockFound st p c = inr st' →
  map lasting (arena_of st) = map lasting (arena_of st') ∧ ChainState.chainActive st' = ChainState.chainActive st.
Proof.
  unfold ChainState.InvalidBlockFound, ChainState.or_status. destruct c; [by intros [= <-]|]. destruct (arena_of st !! p) as [b|] eqn:Eb; [|done]. cbn.
  unfold ChainState.InvalidChainFound. cbn. rewrite list_lookup_insert_eq by (by eapply lookup_lt_Some). cbn.
  assert (map lasting (arena_of st) = map lasting (<[p:=set_nStatus b (Z.lor (nStatus b) ChainState.BLOCK_FAILED_VALID)]> (arena_of st))) as Hl by (apply (map_insert_same lasting _ p b); [done|apply failed_lasting]).
  destruct (ChainState.pindexBestInvalid st) as [i|]; cbn.
  - destruct (<[p:=_]> _ !! i); [|done]. cbn. destruct (Tip _); [|done]. cbn. intros [= <-]. by destruct (ChainState.more_work _ _).
  - destruct (Tip _); [|done]. cbn. by intros [= <-].
Qed.

(** ** To disk, and the new tip *)
Section flush.
Context {V : Type} {HV : CCoinsView V} {HS : CoinsSpec V} `{MemUsage} `{OpenSSL}.
Context (DynamicUsage : CCoinsMap → Z) (nCoinCacheUsage : Z) (free_space : Z → Z) (WriteBatchSync WriteBatch : Z → bool).
Notation flush := (FlushStateToDisk (V := V) DynamicUsage nCoinCacheUsage free_space WriteBatchSync WriteBatch).
Notation tip := (new_tip (V := V) DynamicUsage nCoinCacheUsage free_space WriteBatchSync WriteBatch).
Implicit Types s : chainstate V.
(** The same blocks, chain and undo data. *)
Definition beside s s' : Prop := arena_of (cs_main s') = arena_of (cs_main s) ∧ ChainState.chainActive (cs_main s') = ChainState.chainActive (cs_main s) ∧ cs_undo s' = cs_undo s.
Lemma Flush_settled c : cache_ok c → Uint256.IsNull (hashBlock c) = false → ∃ c', Flush c = Some (c', true) ∧ cache_ok c' ∧ agree (cache_utxo c') (cache_utxo c) ∧ hashBlock c' = hashBlock c.
Proof using Type.
  intros Hc Hn. destruct (Flush_spec c Hc) as (c' & E & Hc' & _ & _ & Hu & _). exists c'. split_and!; [done|done|done|]. unfold Flush in E. destruct (BatchWrite _ _ _) as [[v ok]|]; [|done]. by injection E as <- _.
Qed.
Lemma FlushStateToDisk_spec now s state m : cache_ok (pcoinsTip s) → Uint256.IsNull (hashBlock (pcoinsTip s)) = false → ∃ s' state' ok, flush now s state m = Some (s', state', ok) ∧
  beside s s' ∧ if ok then cache_ok (pcoinsTip s') ∧ agree (cache_utxo (pcoinsTip s')) (cache_utxo (pcoinsTip s)) ∧ hashBlock (pcoinsTip s') = hashBlock (pcoinsTip s) ∧ state' = state else IsError state' = true.
Proof using Type.
  intros Hc Hn. destruct (Flush_settled _ Hc Hn) as (c & E & Hc' & Hu & Hh). unfold FlushStateToDisk.
  match goal with |- context [if ?a && negb (CheckDiskSpace _ _ 0) then _ else _] => destruct a eqn:Ew end; cbn [andb].
  - destruct (CheckDiskSpace _ _ 0); cbn [negb]; [|eexists _, _, false; by split_and!]. destruct (WriteBatchSync now); cbn [negb]; [|eexists _, _, false; by split_and!].
    match goal with |- context [if ?a && negb _ then _ else _] => destruct a eqn:Ef end; cbn [andb].
    + destruct (CheckDiskSpace _ _ _); cbn [negb]; [|eexists _, _, false; by split_and!]. destruct (WriteBatch now); cbn [negb]; [|eexists _, _, false; by split_and!]. cbn [pcoinsTip cs_set_main]. rewrite E. cbn [mbind option_bind negb]. eexists _, _, true. by split_and!.
    + cbn [mbind option_bind negb]. eexists _, _, true. by split_and!.
  - apply orb_false_iff in Ew as [-> _]. cbn [andb mbind option_bind negb]. eexists _, _, true. by split_and!.
Qed.
Lemma new_tip_spec now s state view p b : cache_ok view → Uint256.IsNull (hashBlock view) = false → wf_index (arena_of (cs_main s)) → is_chain (arena_of (cs_main s)) (ChainState.chainActive (cs_main s)) →
  arena_of (cs_main s) !! p = Some b → ∃ s' state' ok, tip now s state view (Some p) = Some (s', state', ok) ∧
  if ok then state' = state ∧ arena_of (cs_main s') = arena_of (cs_main s) ∧ cs_undo s' = cs_undo s ∧ chain_to (arena_of (cs_main s')) (ChainState.chainActive (cs_main s')) p ∧
    cache_ok (pcoinsTip s') ∧ agree (cache_utxo (pcoinsTip s')) (cache_utxo view) ∧ cache_best (pcoinsTip s') = hashBlock view
  else IsError state' = true.
Proof using Type.
  intros Hc Hn HA Hch Eb. unfold new_tip. destruct (Flush_spec view Hc) as (view' & E & [Hv' _ _] & _ & Hu & _). assert (hashBlock (base view') = hashBlock view) as Hh.
  { unfold Flush in E. cbn [BatchWrite CCoinsViewCache_view] in E. unfold cache_BatchWrite in E. destruct (hasModifier (base view)); [done|]. by injection E as <-. }
  rewrite E. cbn [mbind option_bind negb]. destruct (FlushStateToDisk_spec now (cs_set_coins s (base view')) state FLUSH_STATE_IF_NEEDED) as (s1 & state1 & ok & -> & (B1 & B2 & B3) & Hok);
    [exact Hv'|by rewrite <- Hn, <- Hh|]. cbn [mbind option_bind]. cbn [cs_main pcoinsTip cs_set_coins cs_undo] in *.
  destruct ok; cbn [negb]; [|by eexists _, _, false]. destruct Hok as (Hc1 & Hu1 & Hh1 & ->). unfold ChainState.UpdateTip. rewrite B1, B2. destruct (SetTip_spec _ HA _ p b Hch Eb) as (v' & -> & Hv). cbn. eexists _, _, true. split; [done|].
  cbn. rewrite B1. split_and!; [done|done|done|done|done| |].
  - intros z. rewrite (Hu1 z). apply (Hu z).
  - unfold cache_best. rewrite Hh1, Hh, Hn. done.
Qed.
End flush.

(** ** Runs of the node *)
Section follow.
Context {V : Type} {HV : CCoinsView V} {HS : CoinsSpec V} `{MemUsage} `{OpenSSL} `{Subsystems} `{Crypto}.
Context (params : Params) (mapCheckpoints : list (Z * list Z)) (fCheckpointsEnabled : bool) (GetPoWHash : CBlockHeader → Z → list Z) (junk : bool * bool).
Context (nMajorityEnforceBlockUpgrade : Z) (deployments : VersionBits.Params) (sigma_denomination : list Z → option Z).
Context (GetTransaction : list Z → option (CMutableTransaction * list Z)) (fDebug : bool) (threads : bool) (queue_answer : list job → bool).
Context (FindUndoPos : Z → list (list CTxInUndo) → CValidationState → CValidationState * option Z) (UndoWriteToDisk : list (list CTxInUndo) → Z → option Z) (write_indexes : CBlock → option string).
Context (block_file : Z → Z → option CBlock) (DynamicUsage : CCoinsMap → Z) (nCoinCacheUsage : Z) (free_space : Z → Z) (WriteBatchSync WriteBatch : Z → bool).
Context (undo_readable : Z → ptr → bool).
Notation read := (ReadBlockFromDisk params GetPoWHash junk block_file).
Notation connect := (ConnectTip (V := V) params mapCheckpoints fCheckpointsEnabled GetPoWHash junk nMajorityEnforceBlockUpgrade deployments sigma_denomination GetTransaction fDebug threads queue_answer
  FindUndoPos UndoWriteToDisk write_indexes block_file DynamicUsage nCoinCacheUsage free_space WriteBatchSync WriteBatch).
Notation disconnect := (DisconnectTip (V := V) params GetPoWHash junk block_file DynamicUsage nCoinCacheUsage free_space WriteBatchSync WriteBatch undo_readable).
Notation arena s := (arena_of (cs_main s)).
Notation chain s := (ChainState.chainActive (cs_main s)).
Notation coins s := (cache_utxo (pcoinsTip s)).
Implicit Types s : chainstate V.
(** The transactions a block hash stands for. *)
Context (txs_of : list Z → list CMutableTransaction).

(** A block for an entry of the index: it has the transactions of its hash, is above the height from which duplicate transactions are rejected, starts
    with a coinbase, and its transactions can be stored and are neither zerocoin nor sigma. *)
Record good_block (block : CBlock) (b : CBlockIndex) : Prop := {
  gb_txs : vtx block = txs_of (phashBlock b);
  gb_height : 0 < nHeight b ∧ fTestNet params || (HF_NOIRNODE_HEIGHT <=? nHeight b) = true;
  gb_first : ∃ tx rest, vtx block = tx :: rest ∧ no_inputs tx = true;
  gb_ok : Forall (λ tx, tx_ok tx (nHeight b) ∧ plain tx = true) (vtx block);
  gb_genesis : hb_hash (GetBlockHeader block) ≠ hashGenesisBlock params }.
Definition supplied s (b : CBlockIndex) (pblock : option (CBlock * bool)) : option CBlock := match pblock with Some p => Some p.1 | None => (read (cs_limits s) b).2 end.
(** Connecting a block and disconnecting one above the first [n0], by code that stops at a system error; and whatever else changes neither the tree nor the undo data
    nor the coins. *)
Inductive tip_step (n0 : nat) : chainstate V → chainstate V → Prop :=
| tip_connect now s state p pblock s' state' o : (∀ b block, arena s !! p = Some b → supplied s b pblock = Some block → good_block block b) →
    connect now s state p pblock = Some (s', state', o) → IsError state' = false → tip_step n0 s s'
| tip_disconnect now s state s' state' ok : (n0 < length (chain s))%nat → (∀ p b block, arena s !! p = Some b → (read (cs_limits s) b).2 = Some block → good_block block b) →
    disconnect now s state = Some (s', state', ok) → IsError state' = false → tip_step n0 s s'
| tip_other s s' : map lasting (arena s) = map lasting (arena s') → chain s' = chain s → cs_undo s' = cs_undo s →
    cache_ok (pcoinsTip s') → agree (coins s') (coins s) → cache_best (pcoinsTip s') = cache_best (pcoinsTip s) → tip_step n0 s s'.
(** Where a run starts: a chain, its coins, and no undo data for other blocks. *)
Record start s : Prop := {
  st_index : wf_index (arena s);
  st_entries : ∀ p b, arena s !! p = Some b → nFile b ≠ -1 ∧ Uint256.IsNull (phashBlock b) = false ∧ (has_undo b = true → p ∈ chain s);
  st_chain : ∃ t b, chain_to (arena s) (chain s) t ∧ arena s !! t = Some b ∧ cache_best (pcoinsTip s) = phashBlock b;
  st_coins : cache_ok (pcoinsTip s) ∧ heights (coins s) }.

(** ** The invariant *)
Context (s0 : chainstate V).
Notation n0 := (length (chain s0)).
Definition txs_at (p : ptr) : option (list CMutableTransaction) := b ← arena s0 !! p; Some (txs_of (phashBlock b)).
Notation play := (replay Hash256 txs_at (coins s0) (Z.of_nat n0)).
Definition takes_back (b : CBlockIndex) (u u' : utxos) (undo : list (list CTxInUndo)) : Prop := ∀ (d : CCoinsViewCache (CCoinsViewCache V)) hashPrev,
  cache_ok d → agree (cache_utxo d) u' → cache_best d = phashBlock b →
  ∃ d', DisconnectBlock Hash256 d (txs_of (phashBlock b)) (nHeight b) (phashBlock b) hashPrev undo = Some (d', undone true) ∧ cache_ok d' ∧ agree (cache_utxo d') u ∧ hashBlock d' = hashPrev.
Definition undoable s (p : ptr) (b : CBlockIndex) : Prop := ∃ l u u' undo, chain_to (arena s) (chain s0 ++ l ++ [p]) p ∧ play l = Some u ∧ heights u ∧
  apply_block Hash256 u (txs_of (phashBlock b)) (nHeight b) = Some u' ∧ cs_undo s !! p = Some undo ∧ takes_back b u u' undo.
Record follows s (l : list ptr) : Prop := {
  fo_tree : map kept (arena s0) = map kept (arena s);
  fo_chain : chain s = chain s0 ++ l;
  fo_tip : ∃ t b, chain_to (arena s) (chain s) t ∧ arena s !! t = Some b ∧ cache_best (pcoinsTip s) = phashBlock b;
  fo_ok : cache_ok (pcoinsTip s) ∧ heights (coins s);
  fo_coins : ∃ u, play l = Some u ∧ agree u (coins s);
  fo_undo : ∀ p b, arena s !! p = Some b → has_undo b = true → p ∈ chain s0 ∨ undoable s p b;
  fo_active : ∀ p b, p ∈ l → arena s !! p = Some b → has_undo b = true }.
Lemma kept_fields b b' : kept b = kept b' → phashBlock b = phashBlock b' ∧ nHeight b = nHeight b' ∧ nFile b = nFile b' ∧ pprev b = pprev b'.
Proof using Type. destruct b, b'. intros E. injection E. intros. subst. done. Qed.
Lemma undoable_transfer s s' p b b' : map kept (arena s) = map kept (arena s') → kept b = kept b' → cs_undo s' !! p = cs_undo s !! p → undoable s p b → undoable s' p b'.
Proof using Type.
  intros Ht (Hp & Hh & _)%kept_fields Hu (l & u & u' & undo & Hc & Hl & Hhu & Ha & Eu & Hb). exists l, u, u', undo. unfold takes_back. rewrite <- Hp, <- Hh, Hu. split_and!; try done.
  eapply BestChain.st_chain_to; [by apply kept_tree|done].
Qed.
Lemma follows_other s s' l : follows s l → map lasting (arena s) = map lasting (arena s') → chain s' = chain s → cs_undo s' = cs_undo s →
  cache_ok (pcoinsTip s') → agree (coins s') (coins s) → cache_best (pcoinsTip s') = cache_best (pcoinsTip s) → follows s' l.
Proof using Type.
  intros [F1 F2 F3 [F4 F4'] F5 F6 F7] Hl Hc Hu Hok Ha Hb. pose proof (lasting_tree _ _ Hl) as Ht. split.
  - congruence.
  - congruence.
  - destruct F3 as (t & b & Hto & Eb & Hbest). destruct (map_lookup kept _ _ t b Ht Eb) as (b' & Eb' & (Hp & _)%kept_fields). exists t, b'. rewrite Hc, Hb, <- Hp. split_and!; [|done|done].
    eapply BestChain.st_chain_to; [by apply kept_tree|done].
  - split; [done|]. intros z x. rewrite (Ha z). apply F4'.
  - destruct F5 as (u & Eu & Hu'). exists u. split; [done|]. by rewrite Ha.
  - intros p b' Eb' Hb'. destruct (map_lookup lasting _ _ p b' (eq_sym Hl) Eb') as (b & Eb & [Hk1 Hk3]%lasting_fields). destruct (F6 p b Eb) as [?|Hun]; [congruence|by left|right].
    eapply undoable_transfer; [exact Ht|by symmetry|by rewrite Hu|exact Hun].
  - intros p b' Hp Eb'. destruct (map_lookup lasting _ _ p b' (eq_sym Hl) Eb') as (b & Eb & [_ Hk3]%lasting_fields). rewrite Hk3. by eapply F7.
Qed.
Lemma follows_start : start s0 → follows s0 [].
Proof using Type.
  intros [S1 S2 S3 S4]. split; [done|by rewrite app_nil_r|done|done|by eexists| |by intros p b []%not_elem_of_nil]. intros p b Eb Hb. left. by apply (S2 p b Eb).
Qed.
Lemma follows_tip s l : follows s l → start s0 → wf_index (arena s) ∧ is_chain (arena s) (chain s) ∧
  ∃ t, chain_to (arena s) (chain s) t ∧ Tip (chain s) = Some t ∧ ∀ p b, arena s !! p = Some b → nFile b ≠ -1 ∧ Uint256.IsNull (phashBlock b) = false.
Proof using Type.
  intros [F1 _ (t & b & Ht & Eb & _) _ _ _ _] [S1 S2 _ _]. pose proof (kept_tree _ _ F1) as HT. pose proof (Chain.st_index _ _ HT S1) as HA. split_and!; [done|by right; exists t|].
  exists t. split_and!; [done|by apply (chain_Tip _ HA _ t b)|]. intros p x Ex. destruct (map_lookup kept _ _ p x (eq_sym F1) Ex) as (y & Ey & (Hp & _ & Hf & _)%kept_fields). rewrite Hp, Hf.
  destruct (S2 p y Ey) as (? & ? & _). done.
Qed.
(** The index after undo data may have been stored. *)
Record indexed s s' : Prop := {
  ix_tree : map kept (arena s0) = map kept (arena s');
  ix_undo : ∀ q b, arena s' !! q = Some b → has_undo b = true → q ∈ chain s0 ∨ undoable s' q b;
  ix_active : ∀ q b b', arena s !! q = Some b → arena s' !! q = Some b' → has_undo b = true → has_undo b' = true }.
Lemma stored_indexed s l p b t s' w w' u' undo : start s0 → follows s l → arena s !! p = Some b → pprev b = Some t → Tip (chain s) = Some t →
  stored p undo w w' → w_index (V := CCoinsViewCache V) w = ChainState.ms_index (cs_main s) → w_undo w = cs_undo s →
  apply_block Hash256 (coins s) (txs_of (phashBlock b)) (nHeight b) = Some u' → takes_back b (coins s) u' undo →
  arena s' = blocks (w_index w') → cs_undo s' = w_undo w' → indexed s s' ∧ ∃ b', arena s' !! p = Some b' ∧ has_undo b' = true.
Proof using Type.
  intros HS0 HF Eb Ep Et (x & b' & Ex & EA & Hk & Hhas & EU) Hi Hu Ha Hb HA' HU'. destruct (follows_tip s l HF HS0) as (HA & _ & t' & Ht & Et' & Hent). assert (t' = t) as -> by congruence.
  rewrite Hi, Eb in Ex. injection Ex as <-. rewrite Hi in EA. rewrite EA in HA'. specialize (Hhas (proj1 (Hent p b Eb))). destruct HF as [F1 F2 _ [_ F4] (u & Eu & Hcu) F6 _].
  assert (map kept (arena s) = map kept (arena s')) as Hm by (rewrite HA'; by apply (map_insert_same kept _ p b)). assert (p < length (arena s))%nat as Hp by (by eapply lookup_lt_Some).
  assert (undoable s' p b') as Hund.
  { rewrite EU, Hu in HU'. destruct (has_undo b) eqn:Eh.
    - destruct (F6 p b Eb Eh) as [Hin|Hun]; [|by eapply undoable_transfer; [done| |by rewrite HU'|done]]. exfalso.
      assert (chain_to (arena s) (chain s0 ++ l ++ [p]) p) as Hto by (rewrite app_assoc, <- F2; by eapply chain_to_snoc). by apply chain_to_fresh in Hto.
    - destruct (agree_opt_Some _ _ _ (apply_block_proper Hash256 (txs_of (phashBlock b)) (nHeight b) u _ Hcu) Ha) as (v & Ev & Hv).
      assert (phashBlock b' = phashBlock b ∧ nHeight b' = nHeight b) as [Hpb Hhb] by (destruct (kept_fields b' b Hk) as (? & ? & _); done).
      exists l, u, v, undo. unfold takes_back. rewrite Hpb, Hhb. split_and!; [|done|intros z y; rewrite (Hcu z); apply F4|done|by rewrite HU', lookup_insert_eq|].
      + rewrite app_assoc, <- F2. eapply BestChain.st_chain_to; [by apply kept_tree|]. by eapply chain_to_snoc.
      + intros d hp Hd Hdu Hdb. destruct (Hb d hp Hd) as (d' & ? & ? & Hd' & ?); [by rewrite Hdu|done|]. exists d'. split_and!; [done|done|by rewrite Hd'|done]. }
  assert (arena s' !! p = Some b') as Ep' by (rewrite HA'; by apply list_lookup_insert_eq). split; [|by exists b']. split; [congruence| |].
  - intros q y Ey Hy. destruct (decide (q = p)) as [-> |Hq]; [assert (y = b') as -> by congruence; by right|]. rewrite HA', list_lookup_insert_ne in Ey by done. destruct (F6 q y Ey Hy) as [?|Hun]; [by left|right].
    eapply undoable_transfer; [done|done| |done]. rewrite HU', EU, Hu. destruct (has_undo b); [done|]. by rewrite lookup_insert_ne.
  - intros q y y' Ey Ey' Hy. destruct (decide (q = p)) as [-> |Hq]; [congruence|]. rewrite HA', list_lookup_insert_ne in Ey' by done. congruence.
Qed.
(** A run of [ConnectBlock] that is stopped leaves a state that follows; one that is not leaves a view with the coins of the block. *)
Notation connect_block s := (ConnectBlock (V := CCoinsViewCache V) params mapCheckpoints fCheckpointsEnabled GetPoWHash junk nMajorityEnforceBlockUpgrade deployments sigma_denomination GetTransaction fDebug
  (Height (chain s)) threads queue_answer FindUndoPos UndoWriteToDisk write_indexes).
Definition reached s (b : CBlockIndex) (p : ptr) (w : world (CCoinsViewCache V)) : Prop := cache_ok (w_view w) ∧ heights (cache_utxo (w_view w)) ∧ hashBlock (w_view w) = phashBlock b ∧
  (∃ u, apply_block Hash256 (coins s) (txs_of (phashBlock b)) (nHeight b) = Some u ∧ agree u (cache_utxo (w_view w))) ∧ indexed s (leave s w) ∧ ∃ b', arena (leave s w) !! p = Some b' ∧ has_undo b' = true.
Lemma leave_follows s l w : follows s l → lower (new_cache (pcoinsTip s)) (w_view w) → indexed s (leave s w) → follows (leave s w) l.
Proof using Type.
  intros [F1 F2 F3 [F4 F4'] F5 F6 F7] Hl [I1 I2 I3]. destruct (lower_ok (HS := CCoinsViewCache_spec) (new_cache (pcoinsTip s)) (w_view w) F4 Hl) as (Hv & Hu & Hb). split.
  - done.
  - done.
  - destruct F3 as (t & b & Ht & Eb & Hbest). assert (map kept (arena s) = map kept (arena (leave s w))) as Hm by congruence.
    destruct (map_lookup kept _ _ t b Hm Eb) as (b' & Eb' & (Hp & _)%kept_fields). exists t, b'. split_and!; [|done|rewrite <- Hp; exact (eq_trans Hb Hbest)]. eapply BestChain.st_chain_to; [by apply kept_tree|done].
  - split; [exact Hv|]. intros z x. change (utxo (base (w_view w)) z = Some x → 0 < c_nHeight x). rewrite (Hu z). apply F4'.
  - destruct F5 as (u & Eu & Hu'). exists u. split; [done|]. intros z. transitivity (coins s z); [apply Hu'|]. symmetry. exact (Hu z).
  - done.
  - intros p b' Hp Eb'. assert (map kept (arena s) = map kept (arena (leave s w))) as Hm by congruence. destruct (map_lookup kept _ _ p b' (eq_sym Hm) Eb') as (b & Eb & _). by eapply I3, F7.
Qed.
Lemma same_indexed s s' l : follows s l → arena s' = arena s → cs_undo s' = cs_undo s → indexed s s'.
Proof using Type.
  intros [F1 _ _ _ _ F6 _] HA HU. split; [congruence| |rewrite HA; congruence]. intros q b Eb Hb. rewrite HA in Eb. destruct (F6 q b Eb Hb) as [?|Hun]; [by left|right].
  apply (undoable_transfer s s' q b b); [by rewrite HA|done|by rewrite HU|done].
Qed.
Lemma connect_effect s l state fChecked block p b t w o : start s0 → follows s l → arena s !! p = Some b → pprev b = Some t → Tip (chain s) = Some t → good_block block b →
  connect_block s block p false (enter s state fChecked) = Some (w, o) → (stopped o ∧ follows (leave s w) l) ∨ (o = go true ∧ reached s b p w).
Proof using Type.
  intros HS0 HF Eb Ep Et [Htxs [Hh Hdup] (tx & rest & Ev & Hno) Hok Hg] E. pose proof HF as [_ _ _ [F4 F4'] _ _ _].
  assert (new_view (new_cache (pcoinsTip s))) as Hnv by (split; [split; [exact F4|intros ? ? E1; cbn [cacheCoins new_cache] in E1; by rewrite lookup_empty in E1|done]|done|exact F4']).
  apply ConnectBlock_any in E as [(Hst & Hl & Hd)|(b2 & w1 & w2 & w3 & tt & fsc & flags & lt & Hb & Hl & Hd & E)]; [|..|exact (nv_ok _ Hnv)|done].
  { left. split; [done|]. apply leave_follows; [done|exact Hl|]. apply (same_indexed _ _ l); [done|exact (f_equal blocks (disk_index _ _ Hd))|exact (disk_undo _ _ Hd)]. }
  assert (b2 = b) as -> by (pose proof (cb_entry _ _ _ _ _ _ _ _ _ _ _ _ _ _ _ Hb) as Hx; cbn in Hx; congruence).
  destruct (checked_back _ _ _ _ _ _ _ _ _ _ _ _ _ _ _ tx rest Hb Hh Hnv Hdup Ev Hno Hok) as (Hc3 & Hh3 & (u & Eu & Hu) & Hback).
  assert (takes_back b (coins s) u (vtxundo tt)) as Htb.
  { intros d hp Hd1 Hdu Hdb. rewrite <- Htxs. destruct (Hback d hp Hd1) as (d' & ? & ? & Hd' & ?); [intros z; rewrite (Hdu z); apply Hu|done|]. exists d'. split_and!; [done|done|exact Hd'|done]. }
  assert (∀ w', stored p (vtxundo tt) w3 w' → indexed s (leave s w') ∧ ∃ b', arena (leave s w') !! p = Some b' ∧ has_undo b' = true) as Hst.
  { intros w' Hs. eapply (stored_indexed s l p b t (leave s w') w3 w' u (vtxundo tt)); try done; [exact (disk_index _ _ Hd)|exact (disk_undo _ _ Hd)|by rewrite <- Htxs]. }
  apply store_any in E as [(Hv & Hd' & [Hstop|[=]])|(Hs & _ & [[Hstop Hv]|[-> Hv]])].
  - left. split; [done|]. apply leave_follows; [done|by rewrite Hv|]. apply (same_indexed _ _ l); [done|..]; [exact (f_equal blocks (disk_index _ _ (eq_trans Hd' Hd)))|exact (disk_undo _ _ (eq_trans Hd' Hd))].
  - left. split; [done|]. apply leave_follows; [done|by rewrite Hv|]. by apply Hst.
  - right. split; [done|]. destruct (Hst w Hs) as [Hi Hx]. unfold reached. rewrite Hv. split_and!; [by destruct Hc3; split|exact Hh3|done|rewrite <- Htxs; by exists u|done|done].
Qed.
Lemma follows_limits s l g : follows s l → follows (cs_set_limits s g) l.
Proof using Type. intros HF. pose proof HF as [_ _ _ [F4 _] _ _ _]. by eapply follows_other. Qed.
(** The best block is read, and nothing else happens. *)
Lemma follows_unread s l : follows s l → ∃ view, cache_GetBestBlock (new_cache (pcoinsTip s)) = (view, cache_best (pcoinsTip s)) ∧ follows (cs_set_coins s (base view)) l.
Proof using Type.
  intros HF. pose proof HF as [_ _ _ [F4 _] _ _ _]. destruct (@GetBestBlock_spec _ _ CCoinsViewCache_spec (pcoinsTip s) F4) as (v & E & Hv & Hu & Hb).
  unfold cache_GetBestBlock at 1. cbn [hashBlock new_cache base]. change (Uint256.IsNull _) with true. cbn iota. rewrite E. eexists. split; [done|]. by eapply follows_other.
Qed.
Lemma Error_mode reason state : IsError (Error reason state) = true.
Proof using Type. done. Qed.
(** The coins of a block on top of the chain. *)
Lemma play_snoc s l p b : map kept (arena s0) = map kept (arena s) → wf_index (arena s) → chain_to (arena s) (chain s0 ++ l ++ [p]) p → arena s !! p = Some b →
  play (l ++ [p]) = u ← play l; apply_block Hash256 u (txs_of (phashBlock b)) (nHeight b).
Proof using Type.
  intros F1 HA (b2 & Eb2 & Hl & _) Eb. assert (b2 = b) as -> by congruence. rewrite replay_snoc. destruct (map_lookup kept _ _ p b (eq_sym F1) Eb) as (b0 & Eb0 & (Hp & _)%kept_fields).
  destruct (play l) as [u|]; [|done]. cbn [mbind option_bind]. unfold txs_at. rewrite Eb0. cbn [mbind option_bind]. rewrite Hp. f_equal. pose proof (we_height _ _ _ (HA p b Eb)).
  rewrite !length_app in Hl. cbn [length] in Hl. lia.
Qed.
Lemma follows_connect now s state p pblock s' state' o l : start s0 → follows s l → (∀ b block, arena s !! p = Some b → supplied s b pblock = Some block → good_block block b) →
  connect now s state p pblock = Some (s', state', o) → IsError state' = false → follows s' l ∨ follows s' (l ++ [p]).
Proof using Type.
  intros HS0 HF Hgood E He. unfold ConnectTip in E. destruct (arena s !! p) as [b|] eqn:Eb; [|done]. cbn [mbind option_bind] in E. destruct (follows_tip s l HF HS0) as (HA & Hch & t & Ht & Et & Hent).
  rewrite Et in E. case_bool_decide as Ep; [|done]. cbn [negb] in E. destruct (match pblock with Some _ => _ | None => _ end) as [g blk] eqn:Eblk.
  destruct blk as [[block fc]|]; [|injection E as <- <- <-; by rewrite Error_mode in He].
  assert (good_block block b) as Hg. { apply Hgood; [done|]. unfold supplied. destruct pblock as [[? ?]|]; [by injection Eblk as _ -> _|]. destruct (read _ _) as [? [?|]]; [|done]. by injection Eblk as _ -> _. }
  clear Hgood Eblk. set (s1 := cs_set_limits s g) in *. assert (follows s1 l) as HF1 by (by apply follows_limits).
  destruct (call _ _) as [[w r]|] eqn:Ec; [|done]. cbn [mbind option_bind] in E. unfold call in Ec. destruct (ConnectBlock _ _ _ _ _ _ _ _ _ _ _ _ _ _ _ _ _ _ _ _) as [[w1 o1]|] eqn:Erun; [|done].
  destruct (connect_effect s1 l state fc block p b t w1 o1 HS0 HF1 Eb Ep Et Hg Erun) as [[Hst HFw]|[-> Hr]].
  - assert (w1 = w ∧ (r = go false ∨ r = throw)) as [-> Hr] by (destruct o1 as [[]|[]|]; try done; injection Ec as <- <-; eauto). left.
    destruct Hr as [-> | ->]; [|by injection E as <- <- <-]. destruct (IsInvalid _); [|by injection E as <- <- <-].
    destruct (ChainState.InvalidBlockFound _ _ _) as [?|m] eqn:Em; [done|]. cbn [from_R mbind option_bind] in E. injection E as <- <- <-. apply InvalidBlockFound_lasting in Em as [Hm1 Hm2].
    pose proof HFw as [_ _ _ [W4 _] _ _ _]. eapply follows_other; [exact HFw|exact Hm1|exact Hm2|done|exact W4|done|done].
  - injection Ec as <- <-. cbn iota in E. destruct Hr as (Hcv & Hhv & Hhash & (u' & Eu' & Hu') & [I1 I2 I3] & b' & Eb' & Hb'). pose proof HF as [F1 F2 _ _ (u & Eu & Hu) _ F7].
    destruct (new_tip_spec DynamicUsage nCoinCacheUsage free_space WriteBatchSync WriteBatch now (leave s1 w1) (w_state w1) (w_view w1) p b') as (s2 & state2 & ok & En & Hok);
      [done|rewrite Hhash; by apply (Hent p)|eapply Chain.st_index; [apply kept_tree; exact I1|apply HS0]| |done|].
    { right. exists t. eapply BestChain.st_chain_to; [|exact Ht]. apply kept_tree. exact (eq_trans (eq_sym F1) I1). }
    rewrite En in E. cbn [mbind option_bind] in E. injection E as <- <- <-. destruct ok; [|congruence]. destruct Hok as (-> & HA2 & HU2 & Hto & Hc2 & Hu2 & Hb2). right.
    assert (chain s2 = chain s ++ [p]) as Hchain.
    { eapply (chain_to_unique (arena s2)); [exact Hto|]. rewrite HA2. eapply BestChain.st_chain_to; [apply kept_tree; exact (eq_trans (eq_sym F1) I1)|]. by eapply chain_to_snoc. }
    assert (map kept (arena s) = map kept (arena (leave s1 w1))) as Hm by exact (eq_trans (eq_sym F1) I1). rewrite HA2 in Hto. split; rewrite ?HA2.
    + exact I1.
    + by rewrite Hchain, F2, app_assoc.
    + exists p, b'. split_and!; [exact Hto|exact Eb'|]. rewrite Hb2, Hhash. destruct (map_lookup kept _ _ p b Hm Eb) as (x & Ex & (Hp & _)%kept_fields). congruence.
    + split; [done|]. intros z x. rewrite (Hu2 z). apply Hhv.
    + rewrite (play_snoc s l p b) by (done || (rewrite app_assoc, <- F2; by eapply chain_to_snoc)). rewrite Eu. cbn [mbind option_bind]. destruct (agree_opt_Some _ _ _ (apply_block_proper Hash256 (txs_of (phashBlock b)) (nHeight b) u _ Hu) Eu') as (v & Ev & Hv).
      exists v. split; [done|]. rewrite Hv, Hu', Hu2. done.
    + intros q x Ex Hx. destruct (I2 q x Ex Hx) as [?|Hun]; [by left|right]. apply (undoable_transfer (leave s1 w1) s2 q x x); [by rewrite HA2|done|by rewrite HU2|done].
    + intros q x [Hq| ->%list_elem_of_singleton]%elem_of_app Ex; [|congruence]. destruct (map_lookup kept _ _ q x (eq_sym Hm) Ex) as (y & Ey & _). by apply (I3 q y x Ey Ex), (F7 q y).
Qed.
Lemma follows_disconnect now s state p l : start s0 → follows s (l ++ [p]) → (∀ p b block, arena s !! p = Some b → (read (cs_limits s) b).2 = Some block → good_block block b) →
  ∃ s' state' ok, disconnect now s state = Some (s', state', ok) ∧ (IsError state' = true ∨ ok = true ∧ follows s' l ∨ ok = false ∧ undo_readable now p = false ∧ state' = state ∧ follows s' (l ++ [p])).
Proof using Type.
  intros HS0 HF Hgood. destruct (follows_tip s _ HF HS0) as (HA & Hch & t & Ht & Et & Hent). pose proof HF as [F1 F2 (t' & b & Ht' & Eb & Hbest) [F4 F4'] (x & Ex & Hx) F6 F7].
  rewrite F2, app_assoc in Ht, Ht'. apply chain_to_last in Ht' as Hlast. apply chain_to_last in Ht as Hlast'. subst t t'. unfold DisconnectTip. rewrite Et. cbn [mbind option_bind]. rewrite Eb. cbn [mbind option_bind].
  destruct (read (cs_limits s) b) as [g [block|]] eqn:Er; [|eexists _, _, false; split; [done|by left]]. destruct (Hgood p b block Eb) as [Htxs _ _ _ _]; [by rewrite Er|].
  assert (p ∈ l ++ [p]) as Hin by (apply elem_of_app; right; by apply list_elem_of_singleton). rewrite (F7 p b Hin Eb). unfold UndoReadFromDisk. cbn [cs_undo cs_set_limits].
  destruct (undo_readable now p) eqn:Eread.
  2: { destruct (follows_unread (cs_set_limits s g) (l ++ [p]) (follows_limits s _ g HF)) as (view & -> & HF'). cbn [pcoinsTip cs_set_limits]. rewrite Hbest, bool_decide_true by done. cbn [negb].
    eexists _, _, false. split; [done|]. right. right. by split_and!. }
  rewrite <- app_assoc in Ht. destruct (F6 p b Eb (F7 p b Hin Eb)) as [Hold|(l1 & u & u' & undo & Hto & Eu & Hhu & Ea & Eun & Hback)]; [by apply (chain_to_fresh _ HA) in Ht|]. rewrite Eun.
  assert (l1 = l) as ->. { pose proof (chain_to_unique _ _ _ _ Hto Ht) as E. by apply app_inv_head, app_inv_tail in E. }
  rewrite (play_snoc s l p b F1 HA Ht Eb), Eu in Ex. cbn [mbind option_bind] in Ex. assert (x = u') as -> by congruence.
  assert (∃ v q, chain s0 ++ l = v ++ [q]) as (v & q & Evq).
  { destruct (HS0.(st_chain _)) as (t0 & c0 & (? & _ & Hl0 & _) & _). destruct (chain s0 ++ l) as [|y ys] eqn:E using rev_ind; [|by eexists _, _]. apply app_eq_nil in E as [E _]. rewrite E in Hl0. done. }
  rewrite app_assoc, Evq, <- app_assoc in Ht. destruct (chain_to_init _ HA v p q b Ht Eb) as [Ep Htq]. rewrite Ep. cbn [mbind option_bind]. destruct Htq as (c & Ec & Htq). cbn [cs_main cs_set_limits]. rewrite Ec. cbn [mbind option_bind].
  destruct (Hback (new_cache (pcoinsTip s)) (phashBlock c)) as (d & Ed & Hd & Hdu & Hdb); [split; [exact F4|intros ? ? E1; cbn [cacheCoins new_cache] in E1; by rewrite lookup_empty in E1|done]|intros z; symmetry; apply Hx|exact Hbest|].
  rewrite Htxs. cbn [pcoinsTip cs_set_limits]. rewrite Ed. cbn [mbind option_bind].
  destruct (new_tip_spec DynamicUsage nCoinCacheUsage free_space WriteBatchSync WriteBatch now (cs_set_limits s g) state d q c) as (s2 & state2 & ok & En & Hok); [done|rewrite Hdb; by apply (Hent q)|exact HA|exact Hch|exact Ec|].
  exists s2, state2, ok. split; [done|]. destruct ok; [right; left|by left]. split; [done|]. destruct Hok as (-> & HA2 & HU2 & Hto2 & Hc2 & Hu2 & Hb2). cbn [cs_main cs_set_limits cs_undo] in HA2, HU2. rewrite HA2 in Hto2.
  assert (chain s2 = chain s0 ++ l) as Hchain by (rewrite Evq; eapply chain_to_unique; [exact Hto2|by exists c]). split; rewrite ?HA2.
  - exact F1.
  - exact Hchain.
  - exists q, c. split_and!; [exact Hto2|exact Ec|congruence].
  - split; [done|]. intros z y. rewrite (Hu2 z), (Hdu z). apply Hhu.
  - exists u. split; [done|]. intros z. by rewrite (Hu2 z), (Hdu z).
  - intros r y Ey Hy. destruct (F6 r y Ey Hy) as [?|Hun]; [by left|right]. apply (undoable_transfer s s2 r y y); [by rewrite HA2|done|by rewrite HU2|done].
  - intros r y Hr Ey. apply (F7 r y); [|done]. apply elem_of_app. by left.
Qed.
Lemma follows_step s s' l : start s0 → follows s l → tip_step n0 s s' → ∃ l', follows s' l'.
Proof using Type.
  intros HS0 HF Hst. destruct Hst as [now s state p pblock s' state' o Hgood E He|now s state s' state' ok Hlen Hgood E He|s s' H3 H4 H5 H6 H7 H8].
  - destruct (follows_connect now s state p pblock s' state' o l HS0 HF Hgood E He) as [?|?]; eauto.
  - pose proof HF as [_ F2 _ _ _ _ _]. rewrite F2, length_app in Hlen. destruct l as [|p l _] using rev_ind; [cbn in Hlen; lia|].
    destruct (follows_disconnect now s state p l HS0 HF Hgood) as (s2 & state2 & ok2 & E2 & [?|[[_ ?]|(_ & _ & _ & ?)]]); rewrite E in E2; injection E2 as <- <- <-; [congruence|eauto..].
  - exists l. by eapply follows_other.
Qed.
Lemma follows_run s : start s0 → rtc (tip_step n0) s0 s → ∃ l, follows s l.
Proof using Type.
  intros HS0. apply (rtc_ind_r (λ s, ∃ l, follows s l)); [exists []; by apply follows_start|]. intros s1 s2 _ Hst (l & HF). by eapply follows_step.
Qed.
(** C1. The coins follow the active chain.  Start from a chain with its coins, and let the node connect and disconnect blocks in any order
    and on any branches, with [ConnectTip] and [DisconnectTip], successfully or not, up to a system error.  The blocks are good ones: the transactions of
    a block are those that its hash stands for, it is above the height from which duplicate transactions are rejected (or on the test network), its first transaction has no inputs, and
    none is a zerocoin or sigma transaction or has a negative version.  At every moment the active chain
    extends the first one, the coins are exactly the replay of the blocks above it on the first coins, and the best block of the coins is the tip.  So
    two runs that end with the same chain have the same coins, whatever they went through.  And [DisconnectTip] fails no assertion above the first chain:
    it takes the tip back, unless the disk fails, which is a system error, or the undo data cannot be read, which leaves the chain and the coins as they are. *)
Theorem coins_follow_chain s : start s0 → rtc (tip_step n0) s0 s →
  (∃ l u, chain s = chain s0 ++ l ∧ play l = Some u ∧ agree (coins s) u ∧
    (l ≠ [] → (∀ p b block, arena s !! p = Some b → (read (cs_limits s) b).2 = Some block → good_block block b) →
      ∀ now state, ∃ p s' state' ok, Tip (chain s) = Some p ∧ disconnect now s state = Some (s', state', ok) ∧
        (IsError state' = true ∨ (ok = true ∧ chain s = chain s' ++ [p]) ∨ (ok = false ∧ undo_readable now p = false ∧ state' = state ∧ chain s' = chain s ∧ agree (coins s') (coins s))))) ∧
  (∃ t b, Tip (chain s) = Some t ∧ arena s !! t = Some b ∧ cache_best (pcoinsTip s) = phashBlock b) ∧
  ∀ s', rtc (tip_step n0) s0 s' → chain s' = chain s → agree (coins s') (coins s).
Proof using Type.
  intros HS0 Hr. destruct (follows_run s HS0 Hr) as (l & HF). pose proof HF as [F1 F2 (t & b & Ht & Eb & Hb) _ (u & Eu & Hu) _ _]. split_and!.
  - exists l, u. split_and!; [done|done|by symmetry|]. intros Hl Hgood now state. destruct l as [|p l _] using rev_ind; [done|].
    destruct (follows_disconnect now s state p l HS0 HF Hgood) as (s' & state' & ok & E & Hok). exists p, s', state', ok. split; [rewrite F2, app_assoc; by apply Tip_snoc|]. split; [done|].
    destruct Hok as [?|[[? [_ F2' _ _ _ _ _]]|(? & ? & ? & [_ F2' _ _ (u2 & Eu2 & Hu2) _ _])]]; [by left|right; left; split; [done|by rewrite F2, F2', app_assoc]|right; right].
    split_and!; [done|done|done|congruence|]. assert (u2 = u) as -> by congruence. by rewrite <- Hu2, <- Hu.
  - destruct (follows_tip s l HF HS0) as (HA & _). exists t, b. split_and!; [by apply (chain_Tip _ HA _ t b)|done|done].
  - intros s' Hr' Hc. destruct (follows_run s' HS0 Hr') as (l' & [_ F2' _ _ (u' & Eu' & Hu') _ _]). assert (l' = l) as -> by (apply (app_inv_head (chain s0)); congruence).
    assert (u' = u) as -> by congruence. by rewrite <- Hu', <- Hu.
Qed.
End follow.

(** ** A block is connected to the root and disconnected again *)
Import ConnectSample.
Definition tip_params : Params := mkParams TESTNET [9] 950 1000 (replicate 32 255) (replicate 32 255) 150 450 1000.
Definition tip_arena : arena :=
  [mkIndex (replicate 32 9) None None 0 0 0 0 [] 1 1 8 1 [] 1600000000 0 0 0; mkIndex (replicate 32 8) (Some 0%nat) None 1 0 0 0 [] 1 2 8 1 [] 1600000100 0 0 0].
Definition tip_main : main_state := ChainState.mkMain (mkState tip_arena (<[replicate 32 8 := 1%nat]> {[ replicate 32 9 := 0%nat ]}) (Some 1%nat) ∅) [0%nat] None ∅ [] 1.
Definition tip_start : chainstate CCoinsViewDB :=
  mkChainstate tip_main ∅ (mkLimits bnProofOfWorkLimit bnProofOfWorkLimit) (VersionBits.mkVersionBitsCache ∅ ∅ ∅) sample_view ∅ (mkTimes 0 0 0).
Definition tip_file (f pos : Z) : option CBlock := Some (block_of [sample_coinbase]).
Notation connect_sample_tip cs i := (ConnectTip tip_params [] true (λ _ _, []) (false, false) 750 future_deployments (λ _, None) (λ _, None) false true (forallb run_job)
  (λ _ _ s, (s, Some 0)) (λ _ p, Some p) (λ _, None) tip_file (λ _, 0) (2 ^ 30) (λ _, 2 ^ 40) (λ _, true) (λ _, true) 1600000200 cs sample_valid i None).
Notation disconnect_sample_tip s := (DisconnectTip tip_params (λ _ _, []) (false, false) tip_file (λ _, 0) (2 ^ 30) (λ _, 2 ^ 40) (λ _, true) (λ _, true) (λ _ _, true) 1600000300 s sample_valid).
Definition tip_txs (h : list Z) : list CMutableTransaction := if bool_decide (h = replicate 32 8) then [sample_coinbase] else [].
Definition connected_arena : arena :=
  [mkIndex (replicate 32 9) None None 0 0 0 0 [] 1 1 8 1 [] 1600000000 0 0 0; mkIndex (replicate 32 8) (Some 0%nat) None 1 0 0 0 [] 1 2 29 1 [] 1600000100 0 0 0].
Lemma tip_connected : ∃ s state, connect_sample_tip tip_start 1%nat = Some (s, state, ret true) ∧ IsError state = false ∧ arena_of (cs_main s) = connected_arena ∧ ChainState.chainActive (cs_main s) = [0; 1]%nat ∧
  ∃ s' state', disconnect_sample_tip s = Some (s', state', true) ∧ IsError state' = false ∧ ChainState.chainActive (cs_main s') = [0]%nat.
Proof.
  assert ((λ r, (r.2, IsError r.1.2, arena_of (cs_main r.1.1), ChainState.chainActive (cs_main r.1.1))) <$> connect_sample_tip tip_start 1%nat = Some (ret true, false, connected_arena, [0; 1]%nat)) as H1 by (vm_compute; reflexivity).
  assert ((λ r, (r.2, IsError r.1.2, ChainState.chainActive (cs_main r.1.1))) <$> ('(s, _, _) ← connect_sample_tip tip_start 1%nat; disconnect_sample_tip s) = Some (true, false, [0]%nat)) as H2 by (vm_compute; reflexivity).
  revert H1 H2. destruct (connect_sample_tip tip_start 1%nat) as [[[s state] o]|]; [|discriminate]. cbn [fmap option_fmap option_map fst snd mbind option_bind]. intros [= -> He HA Hc] H2. exists s, state. split_and!; try done.
  destruct (disconnect_sample_tip s) as [[[s' state'] ok]|]; [|discriminate]. cbn [fmap option_fmap option_map fst snd] in H2. injection H2 as -> He' Hc'. by exists s', state'.
Qed.
Lemma tip_good A g p b block : A = tip_arena ∨ A = connected_arena → A !! p = Some b → (ReadBlockFromDisk tip_params (λ _ _, []) (false, false) tip_file g b).2 = Some block → good_block tip_params tip_txs block b.
Proof.
  intros HA Eb Er. assert (block = block_of [sample_coinbase] ∧ phashBlock b = replicate 32 8) as [-> Hp].
  { unfold ReadBlockFromDisk in Er. destruct (ChainState.have_data b); [|done]. cbn [tip_file] in Er. destruct (if negb _ then _ else _) as [g' ok]. destruct ok; [|done]. cbn [negb] in Er.
    case_bool_decide as Eh; [|done]. cbn [negb snd] in Er. injection Er as <-. done. }
  assert (nHeight b = 1) as Hh by (destruct HA as [-> | ->]; (destruct p as [|[|p]]; [injection Eb as <-; discriminate Hp|injection Eb as <-; done|done])).
  split; [unfold tip_txs; by rewrite Hp, bool_decide_true|rewrite Hh; done|by exists sample_coinbase, []|rewrite Hh|discriminate].
  apply Forall_cons_2; [|apply Forall_nil_2]. split; [apply sample_coinbase_ok; lia|vm_compute; reflexivity].
Qed.
Lemma tip_start_ok : start tip_start.
Proof.
  split.
  - intros [|[|p]] b Eb; [injection Eb as <-; split; [done|done|by intros q [=]]|injection Eb as <-; split; [done|by eexists|by intros q [=]]|done].
  - intros [|[|p]] b Eb; [injection Eb as <-; split_and!; done..|done].
  - exists 0%nat, (mkIndex (replicate 32 9) None None 0 0 0 0 [] 1 1 8 1 [] 1600000000 0 0 0). split_and!; [|done|vm_compute; reflexivity]. eexists. split_and!; [done|done|]. intros [|i] Hi; [done|cbn in Hi; lia].
  - split; [apply sample_view_ok|apply sample_heights].
Qed.
Lemma coins_follow_chain_witness : ∃ s, ChainState.chainActive (cs_main s) = [0%nat] ∧ agree (cache_utxo sample_view) (cache_utxo (pcoinsTip s)) ∧
  ∃ s1 state, connect_sample_tip tip_start 1%nat = Some (s1, state, ret true) ∧ ∃ state1, disconnect_sample_tip s1 = Some (s, state1, true).
Proof.
  destruct tip_connected as (s1 & state1 & E1 & He1 & HA1 & Hc1 & s2 & state2 & E2 & He2 & Hc2). exists s2.
  assert (tip_step tip_params [] true (λ _ _, []) (false, false) 750 future_deployments (λ _, None) (λ _, None) false true (forallb run_job)
    (λ _ _ s, (s, Some 0)) (λ _ p, Some p) (λ _, None) tip_file (λ _, 0) (2 ^ 30) (λ _, 2 ^ 40) (λ _, true) (λ _, true) (λ _ _, true) tip_txs 1 tip_start s1) as T1.
  { eapply tip_connect; [|exact E1|exact He1]. intros b block Eb Es. eapply (tip_good tip_arena); [by left|exact Eb|exact Es]. }
  assert (tip_step tip_params [] true (λ _ _, []) (false, false) 750 future_deployments (λ _, None) (λ _, None) false true (forallb run_job)
    (λ _ _ s, (s, Some 0)) (λ _ p, Some p) (λ _, None) tip_file (λ _, 0) (2 ^ 30) (λ _, 2 ^ 40) (λ _, true) (λ _, true) (λ _ _, true) tip_txs 1 s1 s2) as T2.
  { eapply tip_disconnect; [rewrite Hc1; cbn; lia| |exact E2|exact He2]. intros p b block Eb Es. eapply (tip_good connected_arena); [by right|by rewrite <- HA1|exact Es]. }
  assert (agree (cache_utxo sample_view) (cache_utxo (pcoinsTip s2))) as Ha.
  { apply (proj2 (proj2 (coins_follow_chain tip_params [] true (λ _ _, []) (false, false) 750 future_deployments (λ _, None) (λ _, None) false true (forallb run_job)
      (λ _ _ s, (s, Some 0)) (λ _ p, Some p) (λ _, None) tip_file (λ _, 0) (2 ^ 30) (λ _, 2 ^ 40) (λ _, true) (λ _, true) (λ _ _, true) tip_txs tip_start s2 tip_start_ok
      (rtc_l _ _ _ _ T1 (rtc_once _ _ T2)))) tip_start (rtc_refl _ _)). exact (eq_sym Hc2). }
  exact (conj Hc2 (conj Ha (ex_intro _ s1 (ex_intro _ state1 (conj E1 (ex_intro _ state2 E2)))))).
Defined.
End CoinsFollow.
