(* ===== verification/AcceptBlock.v ===== *)
(** * AcceptBlock: a block arrives, or is tried out ([main.cpp])

    [AcceptBlock] composes the checks of the header, of the block and of the block in its context, and stores what passes them
    in the index; [TestBlockValidity] runs the same checks and [ConnectBlock] on a copy of the state.
    Where a block goes on disk is a parameter; pruning is not modelled. *)
From Stdlib Require Import String.
From S2P Require Import Prelude ArithUint256 Serialize Uint256 Amount Script Transaction Interpreter InterpreterSafety Merkle Compressor Coins CoinsView BlockCoins CheckInputs Chain VersionBits Bignum Pow HeaderCheck ActiveChain ChainState BestChain Stake BlockCheck CheckQueue ConnectBlock ConnectSample ConnectParallel ConnectCoins BlockRules Replay Tip CoinsFollow.
Open Scope Z_scope.
Open Scope list_scope.

Module AcceptBlock.
Import Transaction Interpreter Compressor Coins CoinsView BlockCoins CheckInputs Chain ActiveChain Bignum Pow HeaderCheck Stake BlockCheck ConnectBlock ConnectParallel ConnectCoins BlockRules Replay Tip.

Definition MIN_BLOCKS_TO_KEEP : Z := 288.
Section accept.
Context {V : Type} `{CCoinsView V} `{MemUsage} `{OpenSSL} `{Subsystems} `{Crypto}.
Context (params : Params) (mapCheckpoints : list (Z * list Z)) (fCheckpointsEnabled : bool) (GetPoWHash : CBlockHeader → Z → list Z) (junk : bool * bool).
Context (nMajorityEnforceBlockUpgrade : Z) (deployments : VersionBits.Params) (sigma_denomination : list Z → option Z).
Context (GetTransaction : list Z → option (CMutableTransaction * list Z)) (fDebug : bool) (nScriptCheckThreads : bool) (queue_answer : list job → bool).
Context (FindUndoPos : Z → list (list CTxInUndo) → CValidationState → CValidationState * option Z) (UndoWriteToDisk : list (list CTxInUndo) → Z → option Z) (write_indexes : CBlock → option string).
(** Where a block of a size, height and time goes, if it is not known where it is; and whether it can be written there. *)
Context (FindBlockPos : CValidationState → option (Z * Z) → Z → Z → Z → CValidationState * option (Z * Z)) (WriteBlockToDisk : CBlock → Z * Z → bool).

Record accept_result := mkAccept { ar_state : chainstate V; ar_validation : CValidationState; ar_pindex : option ptr; ar_fNewBlock : bool; ar_outcome : outcome bool }.
(** [CheckBlock || ContextualCheckBlock]; the time is passed where a flag is expected. *)
Definition check_block (block : CBlock) (nAdjustedTime nHeight : Z) (pprev : option ptr) : M (CCoinsViewCache V) bool :=
  ok ← call (CheckBlock params GetPoWHash junk block (negb (nAdjustedTime =? 0)) true nHeight false true);
  if negb ok then mret false else call (ContextualCheckBlock params nMajorityEnforceBlockUpgrade deployments block pprev).
(** Writing the block to its file and its entry. *)
Definition store_data (s : chainstate V) (state : CValidationState) (block : CBlock) (dbp : option (Z * Z)) (p : ptr) (b : CBlockIndex) : option (chainstate V * CValidationState * bool) :=
  match GetSerializeSize_block block with
  | None => Some (s, Error "System error: " state, false)
  | Some nBlockSize =>
      let '(state, r) := FindBlockPos state dbp (u32 (nBlockSize + 8)) (nHeight b) (hb_nTime (GetBlockHeader block)) in
      match r with
      | None => Some (s, state, false)
      | Some (file, pos) =>
          let state := if bool_decide (dbp = None) && negb (WriteBlockToDisk block (file, pos)) then Error "Failed to write block" state else state in
          '(w, fWitness) ← version_bits deployments (pprev b) VersionBits.DEPLOYMENT_SEGWIT (enter s state false);
          match fWitness with
          | go fWitness =>
              let s := leave s w in
              m ← from_R (ChainState.ReceivedBlockTransactions (cs_main s) (block_IsProofOfStake block) fWitness (Z.of_nat (List.length (vtx block))) file pos p);
              Some (cs_set_main s m, state, true)
          | _ => None
          end
      end
  end.
Definition AcceptBlock (s : chainstate V) (state : CValidationState) (block : CBlock) (fChecked fRequested : bool) (dbp : option (Z * Z)) (nAdjustedTime : Z) : option accept_result :=
  r ← AcceptBlockHeader params mapCheckpoints fCheckpointsEnabled GetPoWHash junk (ChainState.ms_index (cs_main s)) (cs_limits s) state (GetBlockHeader block) nAdjustedTime (block_IsProofOfStake block);
  let s := cs_set_limits (cs_set_main s (ChainState.set_index (cs_main s) (r_st r))) (r_limits r) in
  let state := r_state r in
  if negb (r_ok r) then Some (mkAccept s state (r_pindex r) false (ret false))
  else
    p ← r_pindex r;
    b ← arena_of (cs_main s) !! p;
    fHasMoreWork ← (match Tip (ChainState.chainActive (cs_main s)) with Some t => tip ← arena_of (cs_main s) !! t; Some (ChainState.more_work b tip) | None => Some true end);
    let fTooFarAhead := i32 (Height (ChainState.chainActive (cs_main s)) + MIN_BLOCKS_TO_KEEP) <? nHeight b in
    if ChainState.have_data b || (negb fRequested && (negb (nTx b =? 0) || negb fHasMoreWork || fTooFarAhead)) then Some (mkAccept s state (Some p) false (ret true))
    else
      '(w, r) ← check_block block nAdjustedTime (nHeight b) (pprev b) (enter s state fChecked);
      let s := leave s w in
      let state := w_state w in
      match r with
      | throw => Some (mkAccept s state (Some p) true throw)
      | go false | ret _ =>
          m ← (if IsInvalid state && negb (corruptionPossible state) then st ← from_R (ChainState.or_status (cs_main s) p ChainState.BLOCK_FAILED_VALID); Some (ChainState.mark_dirty st p) else Some (cs_main s));
          Some (mkAccept (cs_set_main s m) state (Some p) true (ret false))
      | go true =>
          if negb (block_IsProofOfStake block) && (nLastPOWBlock params <? nHeight b)
          then let '(state, ok) := DoS 100 false REJECT_INVALID "bad-pow-height" false state in Some (mkAccept s state (Some p) true (ret ok))
          else '(s, state, ok) ← store_data s state block dbp p b; Some (mkAccept s state (Some p) true (ret ok))
      end.

(** The block as a child of the tip, under an entry of its own that nothing else refers to. *)
Definition dummy_index (block : CBlock) (pindexPrev : ptr) (h : Z) : CBlockIndex :=
  let b := CBlockIndex_of (GetBlockHeader block) in
  mkIndex (phashBlock b) (Some pindexPrev) (pskip b) h (nFile b) (nDataPos b) (nUndoPos b) (nChainWork b) (nTx b) (nChainTx b) (nStatus b) (bi_nVersion b) (bi_hashMerkleRoot b) (nTime b) (nBits b) (bi_nNonce b) (nSequenceId b).
Definition with_dummy (i : index_state) (b : CBlockIndex) : index_state := mkState (blocks i ++ [b]) (mapBlockIndex i) (pindexBestHeader i) (setDirtyBlockIndex i).
Definition without_dummy (i : index_state) (n : nat) : index_state := mkState (take n (blocks i)) (mapBlockIndex i) (pindexBestHeader i) (setDirtyBlockIndex i).
(** [CheckBlock], [ContextualCheckBlock] and [ConnectBlock] with [fJustCheck]. *)
Definition connect_checked (block : CBlock) (fCheckPOW fCheckMerkleRoot : bool) (nHeight : Z) (pindexPrev : ptr) (chainHeight : Z) (indexDummy : ptr) : M (CCoinsViewCache V) bool :=
  ok ← call (CheckBlock params GetPoWHash junk block fCheckPOW fCheckMerkleRoot nHeight false true);
  if negb ok then mret false
  else
    ok ← call (ContextualCheckBlock params nMajorityEnforceBlockUpgrade deployments block (Some pindexPrev));
    if negb ok then mret false
    else call (ConnectBlock.ConnectBlock params mapCheckpoints fCheckpointsEnabled GetPoWHash junk nMajorityEnforceBlockUpgrade deployments sigma_denomination GetTransaction fDebug
           chainHeight nScriptCheckThreads queue_answer FindUndoPos UndoWriteToDisk write_indexes block indexDummy true).
Definition TestBlockValidity (s : chainstate V) (state : CValidationState) (block : CBlock) (fChecked : bool) (pindexPrev : ptr) (fCheckPOW fCheckMerkleRoot : bool) (nAdjustedTime : Z)
    : option (chainstate V * CValidationState * outcome bool) :=
  let i := ChainState.ms_index (cs_main s) in
  let n := List.length (blocks i) in
  if negb (bool_decide (Tip (ChainState.chainActive (cs_main s)) = Some pindexPrev)) then None
  else
    prev ← blocks i !! pindexPrev;
    '(state, ok) ← (if fCheckpointsEnabled then CheckIndexAgainstCheckpoint params mapCheckpoints i pindexPrev state else Some (state, true));
    if negb ok then Some (s, state, ret false)
    else
      '(g, (state, ok)) ← ContextualCheckBlockHeader params (blocks i) (cs_limits s) state (GetBlockHeader block) pindexPrev nAdjustedTime;
      let s := cs_set_limits s g in
      if negb ok then Some (s, state, ret false)
      else
        let s1 := cs_set_main s (ChainState.set_index (cs_main s) (with_dummy i (dummy_index block pindexPrev (nHeight prev + 1)))) in
        '(w, r) ← connect_checked block fCheckPOW fCheckMerkleRoot (nHeight prev + 1) pindexPrev (Height (ChainState.chainActive (cs_main s))) n (enter s1 state fChecked);
        if match r with go true => negb match mode (w_state w) with MODE_VALID => true | _ => false end | _ => false end then None
        else
          let s := leave s w in
          Some (mkChainstate (ChainState.set_index (cs_main s) (without_dummy (ChainState.ms_index (cs_main s)) n)) (delete n (cs_modifiers s)) (cs_limits s) (cs_deployments s) (pcoinsTip s) (cs_undo s) (cs_times s), w_state w,
                match r with go ok => ret ok | r => r end).
End accept.

(** ** The rules in context *)
Record contextual_rules (A : arena) (block : CBlock) (pindexPrev : option ptr) : Prop := {
  cr_final : ∃ height cutoff, match pindexPrev with None => height = 0 | Some p => ∃ prev, A !! p = Some prev ∧ height = nHeight prev + 1 end ∧
    (cutoff = hb_nTime (GetBlockHeader block) ∨ ∃ p, pindexPrev = Some p ∧ VersionBits.GetMedianTimePast A p = Some cutoff) ∧ Forall (λ tx, IsFinalTx tx height cutoff = true) (vtx block);
  cr_weight : ∃ n, GetBlockWeight block = Some n ∧ n <= MAX_BLOCK_WEIGHT }.
Section context.
Context {V : Type} `{CCoinsView V} `{MemUsage} `{OpenSSL} `{Subsystems} `{Crypto} (params : Params) (n : Z) (deployments : VersionBits.Params).
Notation contextual := (ContextualCheckBlock (V := V) params n deployments).
Lemma quiet_contextual block q : quiet (contextual block q).
Proof using Type. unfold ContextualCheckBlock, super_majority, check_commitment. quieting; apply quiet_version_bits. Qed.
Lemma declines_contextual block q : declines (contextual block q).
Proof using Type. unfold ContextualCheckBlock, super_majority, check_commitment. declining; apply declines_version_bits. Qed.
Lemma contextual_go block q w w' : contextual block q w = Some (w', go true) → contextual_rules (blocks (w_index w)) block q.
Proof using Type.
  unfold ContextualCheckBlock. rewrite bind_go. intros (w1 & A & [= <- <-] & E). cbn [compose] in E. apply bind_go in E as (w2 & height & E2 & E).
  assert (w2 = w ∧ match q with None => height = 0 | Some p => ∃ prev, blocks (w_index w) !! p = Some prev ∧ height = nHeight prev + 1 end) as [-> Hh].
  { destruct q as [p|]; [|by injection E2 as <- <-]. apply bind_go in E2 as (w3 & b & E3 & E2). destruct (blocks (w_index w) !! p) as [x|]; [|done]. injection E3 as <- <-. injection E2 as <- <-. by eauto. }
  apply bind_go in E as (w3 & csv & E3 & E). apply bind_go in E as (w4 & cutoff & E4 & E).
  assert (cutoff = hb_nTime (GetBlockHeader block) ∨ ∃ p, q = Some p ∧ VersionBits.GetMedianTimePast (blocks (w_index w)) p = Some cutoff) as Hc.
  { destruct csv; [|injection E4 as <- <-; by left]. right. apply bind_go in E4 as (w5 & p & E5 & E4). destruct q as [x|]; [|done]. injection E5 as <- <-. exists x. split; [done|].
    destruct (VersionBits.GetMedianTimePast _ x); [|done]. by injection E4 as <- <-. }
  apply bind_go in E as (w5 & [] & E5 & E). apply when_go in E5 as [Hf ->]; [|apply fails_go]. apply bind_go in E as (w6 & cb & _ & E). apply bind_go in E as (w7 & [] & _ & E). apply bind_go in E as (w8 & wt & _ & E).
  apply bind_go in E as (w9 & hv & _ & E). apply bind_go in E as (w10 & [] & _ & E). apply bind_go in E as (w11 & sz & E11 & E). destruct (GetBlockWeight block) as [z|] eqn:Ez; [|done]. injection E11 as <- <-.
  apply bind_go in E as (w12 & [] & E12 & _). apply when_go in E12 as [Hz _]; [|apply fails_go]. apply negb_false_iff in Hf. rewrite forallb_forall in Hf. split.
  - exists height, cutoff. split_and!; [done|done|]. apply List.Forall_forall. exact Hf.
  - exists z. split; [done|lia].
Qed.
End context.

(** ** What is stored *)
Section stores.
Context {V : Type} `{CCoinsView V} `{MemUsage} `{OpenSSL} `{Subsystems} `{Crypto}.
Context (params : Params) (mapCheckpoints : list (Z * list Z)) (fCheckpointsEnabled : bool) (GetPoWHash : CBlockHeader → Z → list Z) (junk : bool * bool) (nMajorityEnforceBlockUpgrade : Z) (deployments : VersionBits.Params).
Context (FindBlockPos : CValidationState → option (Z * Z) → Z → Z → Z → CValidationState * option (Z * Z)) (WriteBlockToDisk : CBlock → Z * Z → bool).
Notation accept := (AcceptBlock (V := V) params mapCheckpoints fCheckpointsEnabled GetPoWHash junk nMajorityEnforceBlockUpgrade deployments FindBlockPos WriteBlockToDisk).
Notation check := (check_block (V := V) params GetPoWHash junk nMajorityEnforceBlockUpgrade deployments).
Implicit Types s : chainstate V.
Lemma quiet_check_block block t h q : quiet (check block t h q).
Proof using Type.
  unfold check_block. apply quiet_bind; [apply quiet_call, quiet_CheckBlock|]. intros []; cbn [negb]; [apply quiet_call, quiet_contextual|quieting].
Qed.
(** The checks are passed: by the rules, or around them. *)
Lemma check_block_go block t h q w w' : check block t h q w = Some (w', go true) →
  (w_fChecked w = true ∨ (∃ w1, check_rules params GetPoWHash junk block (negb (t =? 0)) true h false true w = Some (w1, throw)) ∨
    block_rules params GetPoWHash junk (w_index w) (w_limits w) block (negb (t =? 0)) true h true) ∧ contextual_rules (blocks (w_index w)) block q.
Proof using All.
  unfold check_block. rewrite bind_go. intros (w1 & ok & E1 & E). destruct ok; [|done]. cbn [negb] in E. pose proof (quiet_call _ (quiet_CheckBlock _ _ _ _ _ _ _ _ _) _ _ _ E1) as [_ Hd].
  split; [by eapply CheckBlock_spec|]. unfold call in E. destruct (ContextualCheckBlock _ _ _ _ _ _) as [[w2 [a|b|]]|] eqn:Ec; [|..|done]; injection E as <- Ho; [|by apply declines_contextual in Ec; congruence|done].
  subst a. apply contextual_go in Ec. by rewrite (disk_index _ _ Hd) in Ec.
Qed.
Lemma failed_data st p st' b : ChainState.or_status st p ChainState.BLOCK_FAILED_VALID = inr st' → arena_of st !! p = Some b → ∃ b', arena_of st' !! p = Some b' ∧ ChainState.have_data b' = ChainState.have_data b.
Proof using Type.
  unfold ChainState.or_status. intros E Eb. rewrite Eb in E. injection E as <-. eexists. split; [cbn; apply list_lookup_insert_eq; by eapply lookup_lt_Some|]. unfold ChainState.have_data. cbn [nStatus set_nStatus].
  rewrite Z.land_lor_distr_l. change (Z.land ChainState.BLOCK_FAILED_VALID ChainState.BLOCK_HAVE_DATA) with 0. by rewrite Z.lor_0_r.
Qed.
(** C12. Only blocks that pass the checks are stored.  Let [AcceptBlock] be called, and the entry of the block have no data when its header has been accepted.  If it has data
    afterwards then the block passed [CheckBlock], so that it obeys the rules of a block unless it was marked as checked or an exception was swallowed; and all its
    transactions are final at its height, its weight is bounded, it is not a proof of work above the last height for one, and it was requested or builds a chain of more
    work than the active one that is not far ahead. *)
Theorem AcceptBlock_stores s state block fChecked fRequested dbp t r hr p b b' :
  AcceptBlockHeader params mapCheckpoints fCheckpointsEnabled GetPoWHash junk (ChainState.ms_index (cs_main s)) (cs_limits s) state (GetBlockHeader block) t (block_IsProofOfStake block) = Some hr →
  r_pindex hr = Some p → blocks (r_st hr) !! p = Some b → ChainState.have_data b = false → accept s state block fChecked fRequested dbp t = Some r →
  arena_of (cs_main (ar_state r)) !! p = Some b' → ChainState.have_data b' = true →
  (fChecked = true ∨ (∃ w w1, check_rules (V := CCoinsViewCache V) params GetPoWHash junk block (negb (t =? 0)) true (nHeight b) false true w = Some (w1, throw)) ∨
    block_rules params GetPoWHash junk (r_st hr) (r_limits hr) block (negb (t =? 0)) true (nHeight b) true) ∧
  contextual_rules (blocks (r_st hr)) block (pprev b) ∧ (block_IsProofOfStake block = false → nHeight b <= nLastPOWBlock params) ∧
  (fRequested = true ∨ nTx b = 0 ∧ nHeight b <= i32 (Height (ChainState.chainActive (cs_main s)) + MIN_BLOCKS_TO_KEEP) ∧
    ∀ q c, Tip (ChainState.chainActive (cs_main s)) = Some q → blocks (r_st hr) !! q = Some c → ChainState.more_work b c = true).
Proof using All.
  intros Eh Ep Eb Hno E Eb' Hdata. unfold AcceptBlock in E. rewrite Eh in E. cbn [mbind option_bind] in E. destruct (r_ok hr); cbn [negb] in E; [|injection E as <-; cbn in Eb'; congruence].
  rewrite Ep in E. cbn [mbind option_bind] in E. set (s1 := cs_set_limits _ _) in E. assert (arena_of (cs_main s1) !! p = Some b) as Eb1 by exact Eb. rewrite Eb1 in E. cbn [mbind option_bind] in E.
  destruct (match Tip _ with Some _ => _ | None => _ end) as [more|] eqn:Em; [|done]. cbn [mbind option_bind] in E. rewrite Hno in E. cbn [orb] in E.
  destruct (negb fRequested && _) eqn:Ereq; [injection E as <-; cbn in Eb'; congruence|].
  destruct (check_block _ _ _ _ _ _ _ _ _ _) as [[w o]|] eqn:Ec; [|done]. cbn [mbind option_bind] in E. pose proof (quiet_check_block _ _ _ _ _ _ _ Ec) as [_ Hd]. apply disk_index in Hd. change (w_index w = r_st hr) in Hd.
  assert (arena_of (cs_main (leave s1 w)) !! p = Some b) as Ew by (cbn; by rewrite Hd).
  assert (o = go true) as ->.
  { destruct o as [[]|o|]; [done|..]; exfalso; [..|injection E as <-; cbn in Eb'; rewrite Hd in Eb'; congruence];
    (destruct (IsInvalid _ && _); [|injection E as <-; cbn in Eb'; rewrite Hd in Eb'; congruence]; destruct (ChainState.or_status _ _ _) as [?|m] eqn:Eo; [done|]; injection E as <-;
     destruct (failed_data _ _ _ _ Eo Ew) as (x & Ex & Hx); change (arena_of m !! p = Some b') in Eb'; congruence). }
  apply check_block_go in Ec as [Hr Hc]. change (w_index (enter s1 (r_state hr) fChecked)) with (r_st hr) in Hr, Hc. change (w_limits (enter s1 (r_state hr) fChecked)) with (r_limits hr) in Hr. split_and!.
  - destruct Hr as [?|[[w1 ?]|?]]; [by left|right; left; by eexists _, _|by right; right].
  - exact Hc.
  - intros Hs. rewrite Hs in E. cbn [negb andb] in E. destruct (Z.ltb_spec (nLastPOWBlock params) (nHeight b)) as [Hlt|]; [|lia]. exfalso.
    destruct (DoS _ _ _ _ _ _) as [s2 ok]. injection E as <-. change (arena_of (cs_main (leave s1 w)) !! p = Some b') in Eb'. congruence.
  - destruct fRequested; [by left|right]. cbn [negb andb] in Ereq. apply orb_false_iff in Ereq as [[Hn Hm]%orb_false_iff Hf]. apply negb_false_iff in Hn, Hm. apply Z.eqb_eq in Hn. apply Z.ltb_ge in Hf. subst more.
    split_and!; [done|exact Hf|]. intros q c Eq Ecq. change (ChainState.chainActive (cs_main s1)) with (ChainState.chainActive (cs_main s)) in Em. rewrite Eq in Em.
    change (arena_of (cs_main s1)) with (blocks (r_st hr)) in Em. rewrite Ecq in Em. by injection Em.
Qed.
End stores.

(** ** Trying out a block *)
Section dry.
Context {V : Type} {HV : CCoinsView V} {HS : CoinsSpec V} `{MemUsage} `{OpenSSL} `{Subsystems} `{Crypto}.
Context (params : Params) (mapCheckpoints : list (Z * list Z)) (fCheckpointsEnabled : bool) (GetPoWHash : CBlockHeader → Z → list Z) (junk : bool * bool).
Context (nMajorityEnforceBlockUpgrade : Z) (deployments : VersionBits.Params) (sigma_denomination : list Z → option Z).
Context (GetTransaction : list Z → option (CMutableTransaction * list Z)) (fDebug : bool) (threads : bool) (queue_answer : list job → bool).
Context (FindUndoPos : Z → list (list CTxInUndo) → CValidationState → CValidationState * option Z) (UndoWriteToDisk : list (list CTxInUndo) → Z → option Z) (write_indexes : CBlock → option string).
Notation checked := (connect_checked (V := V) params mapCheckpoints fCheckpointsEnabled GetPoWHash junk nMajorityEnforceBlockUpgrade deployments sigma_denomination GetTransaction fDebug threads queue_answer
  FindUndoPos UndoWriteToDisk write_indexes).
Notation test := (TestBlockValidity (V := V) params mapCheckpoints fCheckpointsEnabled GetPoWHash junk nMajorityEnforceBlockUpgrade deployments sigma_denomination GetTransaction fDebug threads queue_answer
  FindUndoPos UndoWriteToDisk write_indexes).
Implicit Types s : chainstate V.
Lemma cache_ok_new (c : CCoinsViewCache V) : cache_ok c → cache_ok (new_cache c).
Proof using Type. intros Hc. split; [exact Hc|intros ? ? E; cbn [cacheCoins new_cache] in E; by rewrite lookup_empty in E|done]. Qed.
Lemma connect_checked_ret block pow merkle h q ch n : declines (checked block pow merkle h q ch n).
Proof using Type.
  unfold connect_checked. apply declines_bind; [apply declines_call|]. intros []; cbn [negb]; [|declining]. apply declines_bind; [apply declines_call|]. intros []; cbn [negb]; [apply declines_call|declining].
Qed.
Lemma connect_just_check block pindex h w w' o : cache_ok (w_view w) → hb_hash (GetBlockHeader block) ≠ hashGenesisBlock params →
  call (ConnectBlock.ConnectBlock (V := CCoinsViewCache V) params mapCheckpoints fCheckpointsEnabled GetPoWHash junk nMajorityEnforceBlockUpgrade deployments sigma_denomination GetTransaction fDebug
    h threads queue_answer FindUndoPos UndoWriteToDisk write_indexes block pindex true) w = Some (w', o) → lower (w_view w) (w_view w') ∧ disk w' = disk w.
Proof using Type.
  intros Hc Hg E. unfold call in E. destruct (ConnectBlock.ConnectBlock _ _ _ _ _ _ _ _ _ _ _ _ _ _ _ _ _ _ _ _) as [[w1 o1]|] eqn:Erun; [|done]. assert (w1 = w') as -> by (by destruct o1; injection E as -> _).
  apply ConnectBlock_any in Erun as [(_ & Hl & Hd)|(b & x1 & x2 & x3 & t & fsc & flags & lt & _ & Hl & Hd & Es)]; [done| |done|done].
  apply store_any in Es as [(Hv & Hd' & _)|(_ & [=] & _)]. rewrite Hv. split; [done|congruence].
Qed.
Lemma connect_checked_any block pow merkle h q ch n w w' o : cache_ok (w_view w) → hb_hash (GetBlockHeader block) ≠ hashGenesisBlock params →
  checked block pow merkle h q ch n w = Some (w', o) → lower (w_view w) (w_view w') ∧ disk w' = disk w.
Proof using Type.
  intros Hc Hg E. unfold connect_checked in E. assert (near w w) as N by (split; [constructor|done]).
  apply (quiet_next _ _ w) in E as [[_ E]|(w1 & ok & _ & N1 & E)]; [by apply near_calm| |apply quiet_call, quiet_CheckBlock|apply declines_call|done].
  destruct ok; cbn [negb] in E; [|injection E as <- _; by apply near_calm].
  apply (quiet_next _ _ w) in E as [[_ E]|(w2 & ok & _ & N2 & E)]; [by apply near_calm| |apply quiet_call, quiet_contextual|apply declines_call|done].
  destruct ok; cbn [negb] in E; [|injection E as <- _; by apply near_calm]. destruct (near_calm _ _ N2) as [Hl2 Hd2].
  apply connect_just_check in E as [Hl Hd]; [split; [by eapply lower_trans|congruence]| |done]. by destruct (reads_unchanged (HS := CCoinsViewCache_spec) _ _ Hc (proj1 N2)).
Qed.
(** What passed when the block is found valid. *)
Lemma connect_checked_go block pow merkle h q ch n w w' : checked block pow merkle h q ch n w = Some (w', go true) →
  (w_fChecked w = true ∨ (∃ w1, check_rules params GetPoWHash junk block pow merkle h false true w = Some (w1, throw)) ∨
    block_rules params GetPoWHash junk (w_index w) (w_limits w) block pow merkle h true) ∧ contextual_rules (blocks (w_index w)) block (Some q).
Proof using Type.
  unfold connect_checked. rewrite bind_go. intros (w1 & ok & E1 & E). destruct ok; [|done]. cbn [negb] in E. pose proof (quiet_call _ (quiet_CheckBlock _ _ _ _ _ _ _ _ _) _ _ _ E1) as [_ Hd].
  split; [by eapply CheckBlock_spec|]. apply bind_go in E as (w2 & ok & E2 & E). destruct ok; [|done]. unfold call in E2.
  destruct (ContextualCheckBlock _ _ _ _ _ _) as [[w3 [a|b|]]|] eqn:Ec; [|..|done]; injection E2 as <- Ho; [|by apply declines_contextual in Ec; congruence|done].
  subst a. apply contextual_go in Ec. by rewrite (disk_index _ _ Hd) in Ec.
Qed.
(** Trying out a block is a dry run.  Whatever the block and whatever the verdict, [TestBlockValidity] leaves the block index, the chain and the undo data exactly as they were, and the
    coins with the same contents and best block.  And if it finds the block valid then the block passed [CheckBlock] at the height above the tip, in the index with the
    entry it made for it, its transactions are final there, and the state of the validation is still valid. *)
Theorem TestBlockValidity_dry s state block fChecked p fCheckPOW fCheckMerkleRoot t s' state' o : cache_ok (pcoinsTip s) → hb_hash (GetBlockHeader block) ≠ hashGenesisBlock params →
  test s state block fChecked p fCheckPOW fCheckMerkleRoot t = Some (s', state', o) →
  cs_main s' = cs_main s ∧ cs_undo s' = cs_undo s ∧ cache_ok (pcoinsTip s') ∧ agree (cache_utxo (pcoinsTip s)) (cache_utxo (pcoinsTip s')) ∧ cache_best (pcoinsTip s') = cache_best (pcoinsTip s) ∧
  (o = ret true → mode state' = MODE_VALID ∧ ∃ b i w w1, arena_of (cs_main s) !! p = Some b ∧ blocks i = arena_of (cs_main s) ++ [dummy_index block p (nHeight b + 1)] ∧ w_index (V := CCoinsViewCache V) w = i ∧
    (fChecked = true ∨ check_rules params GetPoWHash junk block fCheckPOW fCheckMerkleRoot (nHeight b + 1) false true w = Some (w1, throw) ∨
      block_rules params GetPoWHash junk i (w_limits w) block fCheckPOW fCheckMerkleRoot (nHeight b + 1) true) ∧ contextual_rules (blocks i) block (Some p)).
Proof using Type.
  intros Hc Hg E. unfold TestBlockValidity in E. destruct (negb (bool_decide _)); [done|]. destruct (blocks _ !! p) as [b|] eqn:Eb; [|done]. cbn [mbind option_bind] in E.
  destruct (if fCheckpointsEnabled then _ else _) as [[state1 ok1]|]; [|done]. cbn [mbind option_bind] in E. destruct ok1; cbn [negb] in E; [|by injection E as <- <- <-].
  destruct (ContextualCheckBlockHeader _ _ _ _ _ _ _) as [[g [state2 ok2]]|]; [|done]. cbn [mbind option_bind] in E. destruct ok2; cbn [negb] in E; [|by injection E as <- <- <-].
  set (s1 := cs_set_main _ _) in E. destruct (connect_checked _ _ _ _ _ _ _ _ _ _ _ _ _ _ _ _ _ _ _ _ _ _ _) as [[w r]|] eqn:Er; [|done]. cbn [mbind option_bind] in E.
  destruct (match r with go true => _ | _ => _ end) eqn:Emode; [done|]. injection E as <- <- <-.
  pose proof (connect_checked_any _ _ _ _ _ _ _ (enter s1 state2 fChecked) _ _ (cache_ok_new _ Hc) Hg Er) as [Hl Hd].
  destruct (lower_ok (HS := CCoinsViewCache_spec) (new_cache (pcoinsTip s)) (w_view w) Hc Hl) as (Hv & Hu & Hb). split_and!.
  - cbn. rewrite (disk_index _ _ Hd). cbn. destruct (cs_main s) as [i ? ? ? ? ?]. cbn. f_equal. destruct i. unfold without_dummy, with_dummy. cbn. by rewrite take_app_length.
  - exact (disk_undo _ _ Hd).
  - exact Hv.
  - intros z. symmetry. apply Hu.
  - exact Hb.
  - intros Ho. assert (r = go true) as ->. { destruct r as [[]|[]|]; try done. exfalso. by apply connect_checked_ret in Er. }
    split; [by destruct (mode (w_state w))|]. destruct (connect_checked_go _ _ _ _ _ _ _ _ _ Er) as [Hr Hcx]. exists b, (w_index (enter s1 state2 fChecked)), (enter s1 state2 fChecked).
    destruct Hr as [?|[[w1 ?]|?]]; [exists (enter s1 state2 fChecked)|exists w1|exists (enter s1 state2 fChecked)]; (split_and!; [done|done|done| |exact Hcx]); auto.
Qed.
End dry.

(** ** A block arrives whose header is known, and one is tried out on top of the root *)
Import ConnectSample CoinsFollow.
Definition new_arena : arena :=
  [mkIndex (replicate 32 9) None None 0 0 0 0 [] 1 1 8 1 [] 1600000000 0 0 0; mkIndex (replicate 32 8) (Some 0%nat) None 1 0 0 0 [] 0 0 2 1 [] 1600000100 0 0 0].
Definition new_main : main_state := ChainState.mkMain (mkState new_arena (<[replicate 32 8 := 1%nat]> {[ replicate 32 9 := 0%nat ]}) (Some 1%nat) ∅) [0%nat] None ∅ [] 1.
Definition new_start : chainstate CCoinsViewDB :=
  mkChainstate new_main ∅ (mkLimits bnProofOfWorkLimit bnProofOfWorkLimit) (VersionBits.mkVersionBitsCache ∅ ∅ ∅) sample_view ∅ (mkTimes 0 0 0).
Definition new_block : CBlock := block_of [sample_coinbase].
Notation accept_header := (AcceptBlockHeader tip_params [] true (λ _ _, []) (false, false) (ChainState.ms_index new_main) (cs_limits new_start) sample_valid (GetBlockHeader new_block) 1600000200 (block_IsProofOfStake new_block)).
Notation accept_sample := (AcceptBlock (V := CCoinsViewDB) tip_params [] true (λ _ _, []) (false, false) 750 future_deployments (λ s _ _ _ _, (s, Some (0, 8))) (λ _ _, true) new_start sample_valid new_block false true None 1600000200).
Notation test_sample := (TestBlockValidity (V := CCoinsViewDB) tip_params [] true (λ _ _, []) (false, false) 750 future_deployments (λ _, None) (λ _, None) false true (forallb run_job)
  (λ _ _ s, (s, Some 0)) (λ _ p, Some p) (λ _, None) new_start sample_valid new_block false 0%nat true true 1600000200).
Definition show (o : outcome bool) : option bool := match o with go b | ret b => Some b | throw => None end.
Definition stored_arena : arena :=
  [mkIndex (replicate 32 9) None None 0 0 0 0 [] 1 1 8 1 [] 1600000000 0 0 0; mkIndex (replicate 32 8) (Some 0%nat) None 1 0 8 0 [] 1 2 11 1 [] 1600000100 0 0 1].
Lemma AcceptBlock_stores_witness : ∃ r, accept_sample = Some r ∧ show (ar_outcome r) = Some true ∧ contextual_rules new_arena new_block (Some 0%nat).
Proof.
  assert ((λ r, (r_pindex r, blocks (r_st r))) <$> accept_header = Some (Some 1%nat, new_arena)) as H1 by (vm_compute; reflexivity).
  assert ((λ r, (show (ar_outcome r), arena_of (cs_main (ar_state r)))) <$> accept_sample = Some (Some true, stored_arena)) as H2 by (vm_compute; reflexivity).
  destruct accept_header as [hr|] eqn:Eh; [|discriminate H1]. cbn [fmap option_fmap option_map] in H1. injection H1 as Hp HA.
  destruct accept_sample as [r|] eqn:Er; [|discriminate H2]. cbn [fmap option_fmap option_map] in H2. injection H2 as Ho HB. exists r. split; [reflexivity|]. split; [exact Ho|].
  assert (blocks (r_st hr) !! 1%nat = new_arena !! 1%nat) as E1 by (by rewrite HA). assert (arena_of (cs_main (ar_state r)) !! 1%nat = stored_arena !! 1%nat) as E2 by (by rewrite HB).
  pose proof (AcceptBlock_stores tip_params [] true (λ _ _, []) (false, false) 750 future_deployments (λ s _ _ _ _, (s, Some (0, 8))) (λ _ _, true) new_start sample_valid new_block false true None 1600000200 r hr 1%nat _ _
    Eh Hp E1 eq_refl Er E2 eq_refl) as (_ & Hc & _). rewrite HA in Hc. exact Hc.
Defined.
Lemma TestBlockValidity_dry_witness : ∃ s' state', test_sample = Some (s', state', ret true) ∧ cs_main s' = new_main ∧ agree (cache_utxo sample_view) (cache_utxo (pcoinsTip s')).
Proof.
  assert ((λ r, match r.2 with ret b => b | _ => false end) <$> test_sample = Some true) as Ht by (vm_compute; reflexivity).
  destruct test_sample as [[[s' state'] o]|] eqn:E; [|discriminate Ht]. cbn [fmap option_fmap option_map snd] in Ht. destruct o as [b|[]|]; try discriminate Ht. exists s', state'. split; [reflexivity|].
  pose proof (TestBlockValidity_dry tip_params [] true (λ _ _, []) (false, false) 750 future_deployments (λ _, None) (λ _, None) false true (forallb run_job)
    (λ _ _ s, (s, Some 0)) (λ _ p, Some p) (λ _, None) new_start sample_valid new_block false 0%nat true true 1600000200 s' state' (ret true) sample_view_ok ltac:(discriminate) E) as (Hm & _ & _ & Ha & _).
  exact (conj Hm Ha).
Defined.
End AcceptBlock.
