(* ===== verification/MerkleBlock.v ===== *)
(** * MerkleBlock: partial Merkle trees ([merkleblock.{h,cpp}])

    A block reduced to some of its transactions: the tree of their identifiers, traversed in depth
    first order, as one bit per visited node and one hash per node that is not descended into.
    The theorems show that what is built can be extracted again, after the transport as bytes too,
    and that whatever is extracted belongs to the block with the same root and number of transactions. *)
From S2P Require Import Prelude Serialize Uint256 Transaction Interpreter Merkle Chain BlockCheck.
Open Scope Z_scope.
Open Scope list_scope.

Module MerkleBlock.
Import Serialize Transaction Interpreter Merkle BlockCheck.
Notation uint256 := (list Z).
Notation null := (Uint256.blob_null Uint256.WIDTH).

Record CPartialMerkleTree := mkPartial { nTransactions : Z; vBits : list bool; vHash : list uint256; fBad : bool }.
Definition CalcTreeWidth (nTransactions : Z) (height : nat) : Z := Z.shiftr (u32 (nTransactions + Z.shiftl 1 (Z.of_nat height) - 1)) (Z.of_nat height).
(** [while (CalcTreeWidth(nHeight) > 1) nHeight++] *)
Fixpoint tree_height (fuel : nat) (nTransactions : Z) (nHeight : nat) : option nat :=
  if 1 <? CalcTreeWidth nTransactions nHeight then match fuel with O => None | S fuel => tree_height fuel nTransactions (S nHeight) end else Some nHeight.

(** ** Serialization: eight bits to a byte *)
Fixpoint pack_loop (p : nat) (bits : list bool) (vBytes : list Z) : list Z :=
  match bits with
  | [] => vBytes
  | b :: bits => pack_loop (S p) bits (alter (λ x, u8 (Z.lor x (Z.shiftl (Z.b2z b) (Z.of_nat (p mod 8))))) (p / 8)%nat vBytes)
  end.
Definition pack_bits (bits : list bool) : list Z := pack_loop 0 bits (replicate ((length bits + 7) / 8) 0).
Definition unpack_bits (vBytes : list Z) : list bool :=
  map (λ p, negb (Z.land (vBytes.[p / 8]) (Z.shiftl 1 (Z.of_nat (p mod 8))) =? 0)) (seq 0 (length vBytes * 8)).
Definition Serialize_partial (t : CPartialMerkleTree) : list Z :=
  ser_writedata32 (nTransactions t) ++ Serialize_vector Serialize_uint256 (vHash t) ++ Serialize_bytes (pack_bits (vBits t)).
Definition Unserialize_partial : Reader CPartialMerkleTree :=
  n ← ser_readdata32; h ← Unserialize_vector Unserialize_uint256 32; vBytes ← Unserialize_bytes; mret (mkPartial n (unpack_bits vBytes) h false).

Section partial.
Context `{Crypto}.
(** ** Building; [None] is a read outside a vector *)
Fixpoint CalcHash (n : Z) (vTxid : list uint256) (height : nat) (pos : Z) : option uint256 :=
  match height with
  | O => vTxid !! Z.to_nat pos
  | S height =>
      hleft ← CalcHash n vTxid height (u32 (pos * 2));
      hright ← (if u32 (pos * 2 + 1) <? CalcTreeWidth n height then CalcHash n vTxid height (u32 (pos * 2 + 1)) else Some hleft);
      Some (node hleft hright)
  end.
(** The loop over the transactions from [p], [k] times. *)
Fixpoint match_loop (vMatch : list bool) (k : nat) (p : Z) (fParentOfMatch : bool) : option bool :=
  match k with O => Some fParentOfMatch | S k => b ← vMatch !! Z.to_nat p; match_loop vMatch k (p + 1) (fParentOfMatch || b) end.
Definition parent_of_match (n : Z) (vMatch : list bool) (height : nat) (pos : Z) : option bool :=
  let first := u32 (Z.shiftl pos (Z.of_nat height)) in
  match_loop vMatch (Z.to_nat (Z.min (u32 (Z.shiftl (u32 (pos + 1)) (Z.of_nat height))) n - first)) first false.
(** What the traversal appends to [vBits] and [vHash]. *)
Fixpoint TraverseAndBuild (n : Z) (vTxid : list uint256) (vMatch : list bool) (height : nat) (pos : Z) : option (list bool * list uint256) :=
  fParentOfMatch ← parent_of_match n vMatch height pos;
  match height with
  | S h =>
      if fParentOfMatch : bool then
        '(b1, h1) ← TraverseAndBuild n vTxid vMatch h (u32 (pos * 2));
        '(b2, h2) ← (if u32 (pos * 2 + 1) <? CalcTreeWidth n h then TraverseAndBuild n vTxid vMatch h (u32 (pos * 2 + 1)) else Some ([], []));
        Some (fParentOfMatch :: b1 ++ b2, h1 ++ h2)
      else hash ← CalcHash n vTxid height pos; Some ([fParentOfMatch], [hash])
  | O => hash ← CalcHash n vTxid height pos; Some ([fParentOfMatch], [hash])
  end.
Definition CPartialMerkleTree_of (vTxid : list uint256) (vMatch : list bool) : option CPartialMerkleTree :=
  let n := u32 (Z.of_nat (length vTxid)) in
  nHeight ← tree_height 32 n 0;
  '(b, h) ← TraverseAndBuild n vTxid vMatch nHeight 0;
  Some (mkPartial n b h false).

(** ** Extracting *)
Record cursor := mkCursor { nBitsUsed : nat; nHashUsed : nat; vMatch : list uint256; vnIndex : list Z; bad : bool }.
Definition set_bad (c : cursor) : cursor := mkCursor (nBitsUsed c) (nHashUsed c) (vMatch c) (vnIndex c) true.
Definition next_bit (c : cursor) : cursor := mkCursor (S (nBitsUsed c)) (nHashUsed c) (vMatch c) (vnIndex c) (bad c).
Definition use_hash (t : CPartialMerkleTree) (fMatched : bool) (pos : Z) (c : cursor) : cursor * uint256 :=
  match vHash t !! nHashUsed c with
  | None => (set_bad c, null)
  | Some hash =>
      let c := mkCursor (nBitsUsed c) (S (nHashUsed c)) (vMatch c) (vnIndex c) (bad c) in
      (if fMatched then mkCursor (nBitsUsed c) (nHashUsed c) (vMatch c ++ [hash]) (vnIndex c ++ [pos]) (bad c) else c, hash)
  end.
Fixpoint TraverseAndExtract (t : CPartialMerkleTree) (height : nat) (pos : Z) (c : cursor) : cursor * uint256 :=
  match vBits t !! nBitsUsed c with
  | None => (set_bad c, null)
  | Some fParentOfMatch =>
      let c := next_bit c in
      match height with
      | O => use_hash t fParentOfMatch pos c
      | S h =>
          if fParentOfMatch : bool then
            let '(c, hleft) := TraverseAndExtract t h (u32 (pos * 2)) c in
            if u32 (pos * 2 + 1) <? CalcTreeWidth (nTransactions t) h then
              let '(c, hright) := TraverseAndExtract t h (u32 (pos * 2 + 1)) c in
              (if bool_decide (hright = hleft) then set_bad c else c, node hleft hright)
            else (c, node hleft hleft)
          else use_hash t false pos c
      end
  end.
(** The root or the null hash; the matches and the positions, which are appended to what the caller has in [vnIndex]. *)
Definition ExtractMatches (t : CPartialMerkleTree) (vnIndex0 : list Z) : option (uint256 * list uint256 * list Z) :=
  let fail v i := Some (null, v, i) in
  if (nTransactions t =? 0) || (MAX_BLOCK_BASE_SIZE / 60 <? nTransactions t) then fail [] vnIndex0
  else if nTransactions t <? Z.of_nat (length (vHash t)) then fail [] vnIndex0
  else if (length (vBits t) <? length (vHash t))%nat then fail [] vnIndex0
  else
    nHeight ← tree_height 32 (nTransactions t) 0;
    let '(c, hashMerkleRoot) := TraverseAndExtract t nHeight 0 (mkCursor 0 0 [] vnIndex0 (fBad t)) in
    if bad c || negb ((nBitsUsed c + 7) / 8 =? (length (vBits t) + 7) / 8)%nat || negb (nHashUsed c =? length (vHash t))%nat then fail (vMatch c) (vnIndex c)
    else Some (hashMerkleRoot, vMatch c, vnIndex c).

(** ** Nodes as segments of the leaves *)
Definition at_node {A} (l : list A) (h : nat) (pos : Z) (seg : list A) : Prop := 0 <= pos ∧ ∃ pre post, l = pre ++ seg ++ post ∧ Z.of_nat (length pre) = pos * 2 ^ Z.of_nat h ∧
  (0 < length seg <= 2 ^ h)%nat ∧ ((length seg < 2 ^ h)%nat → post = []).
Lemma width_spec n h w : 0 < n <= 2 ^ 30 → (h <= 30)%nat → 0 <= w → (w <? CalcTreeWidth n h) = (w * 2 ^ Z.of_nat h <? n).
Proof using Type.
  intros Hn Hh Hw. unfold CalcTreeWidth. rewrite Z.shiftl_1_l, Z.shiftr_div_pow2 by lia. assert (0 < 2 ^ Z.of_nat h <= 2 ^ 30) as Hp by (split; [apply Z.pow_pos_nonneg; lia|apply Z.pow_le_mono_r; lia]).
  unfold u32. rewrite Z.mod_small by lia. apply eq_true_iff_eq. rewrite !Z.ltb_lt. set (k := 2 ^ Z.of_nat h) in *. split; intros Hlt.
  - pose proof (Z.mul_div_le (n + k - 1) k). nia.
  - apply Z.lt_le_trans with (w + 1); [lia|]. apply Z.div_le_lower_bound; [lia|]. nia.
Qed.
(** The children of a node. *)
Lemma node_cases {A} (l : list A) h pos seg : at_node l (S h) pos seg →
  ((length seg <= 2 ^ h)%nat ∧ at_node l h (pos * 2) seg ∧ Z.of_nat (length l) <= (pos * 2 + 1) * 2 ^ Z.of_nat h) ∨
  (∃ a b, seg = a ++ b ∧ length a = (2 ^ h)%nat ∧ (0 < length b <= 2 ^ h)%nat ∧ at_node l h (pos * 2) a ∧ at_node l h (pos * 2 + 1) b ∧ (pos * 2 + 1) * 2 ^ Z.of_nat h < Z.of_nat (length l)).
Proof using Type.
  intros (Hp & pre & post & -> & Hpre & Hseg & Hpost). rewrite Nat2Z.inj_succ, Z.pow_succ_r in Hpre by lia. pose proof (pow2_pos h). pose proof (pow2_Z h) as Hz.
  destruct (decide (length seg <= 2 ^ h)%nat) as [Hle|Hgt]; [left|right].
  - assert (post = []) as -> by (apply Hpost; rewrite pow2_S; lia). split; [done|]. split; [|rewrite !length_app; cbn [length]; nia]. split; [lia|]. exists pre, []. split_and!; [done|lia|lia|lia|done].
  - destruct (split_leaves h seg) as (a & b & -> & Ha & Hb); [lia|]. rewrite length_app, pow2_S in Hpost. exists a, b. split_and!; [done|done|lia|lia|split; [lia|]|split; [lia|]|rewrite !length_app; nia].
    + exists pre, (b ++ post). rewrite <- !app_assoc. split_and!; [done|lia|lia|lia|lia].
    + exists (pre ++ a), post. rewrite <- !app_assoc. split_and!; [done|rewrite length_app; nia|lia|lia|]. intros Hlt. apply Hpost. lia.
Qed.
Lemma at_root {A} (l : list A) h : (0 < length l <= 2 ^ h)%nat → at_node l h 0 l.
Proof using Type. intros Hl. split; [done|]. exists [], []. by rewrite app_nil_r. Qed.
Lemma at_pos {A} (l : list A) h pos seg : at_node l h pos seg → 0 <= pos ∧ pos * 2 ^ Z.of_nat h < Z.of_nat (length l).
Proof using Type. intros (Hp & pre & post & -> & Hpre & Hseg & _). rewrite !length_app. lia. Qed.
Lemma at_fmap {A B} (f : A → B) l h pos seg : at_node l h pos seg → at_node (f <$> l) h pos (f <$> seg).
Proof using Type. intros (Hp & pre & post & -> & Hpre & Hseg & Hpost). split; [done|]. exists (f <$> pre), (f <$> post). rewrite !fmap_app, !length_fmap. split_and!; [done|done|lia|lia|]. intros Hlt. by rewrite Hpost. Qed.
Lemma child_pos n h pos : 0 <= pos → pos * 2 ^ Z.of_nat h < n → n <= 2 ^ 30 → u32 (pos * 2) = pos * 2 ∧ u32 (pos * 2 + 1) = pos * 2 + 1.
Proof using Type. intros Hp Hn Hb. assert (0 < 2 ^ Z.of_nat h) by (apply Z.pow_pos_nonneg; lia). assert (pos < 2 ^ 30) by nia. unfold u32. split; apply Z.mod_small; lia. Qed.
(** How the code sees the children of a node. *)
Lemma node_step {A} (l : list A) h pos seg : Z.of_nat (length l) <= 2 ^ 30 → (h < 30)%nat → at_node l (S h) pos seg → u32 (pos * 2) = pos * 2 ∧ u32 (pos * 2 + 1) = pos * 2 + 1 ∧
  (((pos * 2 + 1 <? CalcTreeWidth (Z.of_nat (length l)) h) = false ∧ (length seg <= 2 ^ h)%nat ∧ at_node l h (pos * 2) seg) ∨
   ((pos * 2 + 1 <? CalcTreeWidth (Z.of_nat (length l)) h) = true ∧ ∃ a b, seg = a ++ b ∧ length a = (2 ^ h)%nat ∧ (0 < length b <= 2 ^ h)%nat ∧ at_node l h (pos * 2) a ∧ at_node l h (pos * 2 + 1) b)).
Proof using Type.
  intros Hn Hh Hat. destruct (at_pos _ _ _ _ Hat) as [Hp Hlt]. destruct (child_pos _ _ _ Hp Hlt Hn) as [-> ->]. split_and!; [done..|]. assert (0 < 2 ^ Z.of_nat (S h)) by (apply Z.pow_pos_nonneg; lia).
  rewrite width_spec by (lia || nia). destruct (node_cases _ _ _ _ Hat) as [(? & ? & ?)|(a & b & -> & Ha & Hb & Hla & Hlb & Hw)]; [left|right].
  - split; [by apply Z.ltb_ge|done].
  - split; [by apply Z.ltb_lt|]. by exists a, b.
Qed.

(** ** What is built *)
Lemma CalcHash_spec (l : list uint256) h : Z.of_nat (length l) <= 2 ^ 30 → (h <= 30)%nat → ∀ pos seg, at_node l h pos seg → CalcHash (Z.of_nat (length l)) l h pos = Some (tree h seg).
Proof using Type.
  intros Hn. induction h as [|h IH]; intros Hh pos seg Hat.
  - destruct Hat as (Hp & pre & post & -> & Hpre & Hseg & _). destruct seg as [|x [|]]; cbn in Hseg; try lia. cbn [CalcHash]. replace (Z.to_nat pos) with (length pre) by lia.
    rewrite lookup_app_r, Nat.sub_diag by lia. done.
  - cbn [CalcHash]. destruct (node_step l h pos seg Hn ltac:(lia) Hat) as (-> & -> & [(-> & Hle & Ha)|(-> & a & b & -> & Hla & Hlb & Ha & Hb)]).
    + rewrite (IH ltac:(lia) _ _ Ha). cbn [mbind option_bind]. by rewrite tree_dup.
    + rewrite (IH ltac:(lia) _ _ Ha), (IH ltac:(lia) _ _ Hb). cbn [mbind option_bind]. by rewrite tree_join by (done || lia).
Qed.
Lemma match_loop_spec pre seg post : ∀ acc, match_loop (pre ++ seg ++ post) (length seg) (Z.of_nat (length pre)) acc = Some (acc || existsb id seg).
Proof using Type.
  revert pre. induction seg as [|b seg IH]; intros pre acc; [cbn; by rewrite orb_false_r|]. cbn [length match_loop app]. rewrite Nat2Z.id, lookup_app_r, Nat.sub_diag by lia. cbn [lookup list_lookup mbind option_bind].
  replace (Z.of_nat (length pre) + 1) with (Z.of_nat (length (pre ++ [b]))) by (rewrite length_app; cbn; lia). replace (pre ++ b :: seg ++ post) with ((pre ++ [b]) ++ seg ++ post) by (by rewrite <- app_assoc).
  rewrite IH. cbn [existsb id]. by rewrite orb_assoc.
Qed.
Lemma parent_of_match_spec (l : list bool) h pos seg : Z.of_nat (length l) <= 2 ^ 30 → (h <= 30)%nat → at_node l h pos seg → parent_of_match (Z.of_nat (length l)) l h pos = Some (existsb id seg).
Proof using Type.
  intros Hn Hh Hat. destruct (at_pos _ _ _ _ Hat) as [Hp Hlt]. destruct Hat as (_ & pre & post & -> & Hpre & Hseg & Hpost). unfold parent_of_match. rewrite !Z.shiftl_mul_pow2 by lia.
  assert (0 < 2 ^ Z.of_nat h <= 2 ^ 30) as Hk by (split; [apply Z.pow_pos_nonneg; lia|apply Z.pow_le_mono_r; lia]). pose proof (pow2_Z h) as Hz. assert (pos < 2 ^ 30) by nia.
  unfold u32. rewrite (Z.mod_small (pos + 1)), !Z.mod_small by nia. rewrite <- Hpre.
  assert (Z.to_nat (Z.min ((pos + 1) * 2 ^ Z.of_nat h) (Z.of_nat (length (pre ++ seg ++ post))) - Z.of_nat (length pre)) = length seg) as ->; [|apply match_loop_spec].
  rewrite !length_app. destruct (decide (length seg < 2 ^ h)%nat) as [Hs|Hs]; [rewrite Hpost by done; cbn [length]; nia|nia].
Qed.
(** The bits and hashes of a segment. *)
Fixpoint partial (h : nat) (seg : list (uint256 * bool)) : list bool * list uint256 :=
  match h with
  | O => ([existsb id seg.*2], [tree 0 seg.*1])
  | S k => if existsb id seg.*2 then
             if (length seg <=? 2 ^ k)%nat then (true :: (partial k seg).1, (partial k seg).2)
             else (true :: (partial k (take (2 ^ k) seg)).1 ++ (partial k (drop (2 ^ k) seg)).1, (partial k (take (2 ^ k) seg)).2 ++ (partial k (drop (2 ^ k) seg)).2)
           else ([false], [tree (S k) seg.*1])
  end.
Lemma partial_dup k seg : existsb id seg.*2 = true → (length seg <= 2 ^ k)%nat → partial (S k) seg = (true :: (partial k seg).1, (partial k seg).2).
Proof using Type. intros E Hl. cbn [partial]. by rewrite E, (proj2 (Nat.leb_le _ _)). Qed.
Lemma partial_join k a b : existsb id (a ++ b).*2 = true → length a = (2 ^ k)%nat → (0 < length b)%nat →
  partial (S k) (a ++ b) = (true :: (partial k a).1 ++ (partial k b).1, (partial k a).2 ++ (partial k b).2).
Proof using Type. intros E Ha Hb. cbn [partial]. rewrite E, (proj2 (Nat.leb_gt _ _)) by (rewrite length_app; lia). rewrite <- Ha. by rewrite take_app_length, drop_app_length. Qed.
Lemma TraverseAndBuild_spec (l : list (uint256 * bool)) h : Z.of_nat (length l) <= 2 ^ 30 → (h <= 30)%nat → ∀ pos seg, at_node l h pos seg →
  TraverseAndBuild (Z.of_nat (length l)) l.*1 l.*2 h pos = Some (partial h seg).
Proof using Type.
  intros Hn. assert (Z.of_nat (length l.*1) <= 2 ^ 30) as Hn1 by (rewrite length_fmap; lia). assert (Z.of_nat (length l.*2) <= 2 ^ 30) as Hn2 by (rewrite length_fmap; lia).
  induction h as [|h IH]; intros Hh pos seg Hat; cbn [TraverseAndBuild]; pose proof (at_fmap snd _ _ _ _ Hat) as H2; pose proof (at_fmap fst _ _ _ _ Hat) as H1;
    rewrite <- (length_fmap snd l), (parent_of_match_spec _ _ _ _ Hn2 Hh H2); cbn [mbind option_bind]; rewrite length_fmap, <- (length_fmap fst l).
  - rewrite (CalcHash_spec _ 0 Hn1 Hh _ _ H1). done.
  - destruct (existsb id seg.*2) eqn:Ee; [|rewrite (CalcHash_spec _ (S h) Hn1 Hh _ _ H1); cbn [mbind option_bind partial]; by rewrite Ee].
    rewrite length_fmap. destruct (node_step l h pos seg Hn ltac:(lia) Hat) as (-> & -> & [(-> & Hle & Ha)|(-> & a & b & -> & Hla & Hlb & Ha & Hb)]).
    + rewrite (IH ltac:(lia) _ _ Ha). destruct (partial h seg) as [b1 h1] eqn:Ep. cbn [mbind option_bind]. rewrite partial_dup by done. rewrite Ep. cbn. by rewrite !app_nil_r.
    + rewrite (IH ltac:(lia) _ _ Ha), (IH ltac:(lia) _ _ Hb). destruct (partial h a) as [b1 h1] eqn:E1, (partial h b) as [b2 h2] eqn:E2. cbn [mbind option_bind]. rewrite partial_join by (done || lia). by rewrite E1, E2.
Qed.

(** ** What is extracted from it *)
Fixpoint marks (i : Z) (seg : list (uint256 * bool)) : list (uint256 * Z) := match seg with [] => [] | (x, m) :: seg => (if m : bool then [(x, i)] else []) ++ marks (i + 1) seg end.
Lemma marks_app a b : ∀ i, marks i (a ++ b) = marks i a ++ marks (i + Z.of_nat (length a)) b.
Proof using Type.
  induction a as [|[x m] a IH]; intros i; cbn [app marks length]; [by rewrite Z.add_0_r|]. rewrite IH, <- app_assoc. by replace (i + Z.of_nat (S (length a))) with (i + 1 + Z.of_nat (length a)) by lia.
Qed.
Lemma marks_none seg : ∀ i, existsb id seg.*2 = false → marks i seg = [].
Proof using Type. induction seg as [|[x m] seg IH]; intros i E; [done|]. cbn in E. apply orb_false_iff in E as [-> E]. cbn. by apply IH. Qed.
Notation leaf_ok := (λ x : uint256, length x = 32%nat).
Definition advanced (c : cursor) (nb nh : nat) (new : list (uint256 * Z)) : cursor := mkCursor (nBitsUsed c + nb) (nHashUsed c + nh) (vMatch c ++ new.*1) (vnIndex c ++ new.*2) (bad c).
Lemma advanced_twice c nb nh new nb' nh' new' : advanced (advanced c nb nh new) nb' nh' new' = advanced c (nb + nb') (nh + nh') (new ++ new').
Proof using Type. unfold advanced. cbn. by rewrite !fmap_app, !app_assoc, !Nat.add_assoc. Qed.
Lemma next_bit_advanced c : next_bit c = advanced c 1 0 [].
Proof using Type. unfold advanced, next_bit. cbn. by rewrite !app_nil_r, Nat.add_0_r, Nat.add_1_r. Qed.
Lemma use_hash_spec t m pos c x : vHash t !! nHashUsed c = Some x → use_hash t m pos c = (advanced c 0 1 (if m then [(x, pos)] else []), x).
Proof using Type. intros E. unfold use_hash. rewrite E. unfold advanced. destruct m; cbn; by rewrite ?app_nil_r, Nat.add_0_r, Nat.add_1_r. Qed.
(** The arrays from the cursor on. *)
Definition ahead (t : CPartialMerkleTree) (c : cursor) (bits : list bool) (hashes : list uint256) : Prop :=
  (∃ B0 B1, vBits t = B0 ++ bits ++ B1 ∧ length B0 = nBitsUsed c) ∧ ∃ H0 H1, vHash t = H0 ++ hashes ++ H1 ∧ length H0 = nHashUsed c.
Lemma ahead_bit t c b bits hashes : ahead t c (b :: bits) hashes → vBits t !! nBitsUsed c = Some b ∧ ahead t (next_bit c) bits hashes.
Proof using Type.
  intros [(B0 & B1 & E & Hl) Hh]. split; [rewrite E, <- Hl, lookup_app_r, Nat.sub_diag by lia; done|]. split; [|exact Hh]. exists (B0 ++ [b]), B1. rewrite <- !app_assoc. split; [done|]. rewrite length_app. cbn. lia.
Qed.
Lemma ahead_app t c b1 b2 h1 h2 new : ahead t c (b1 ++ b2) (h1 ++ h2) → ahead t c b1 h1 ∧ ahead t (advanced c (length b1) (length h1) new) b2 h2.
Proof using Type.
  intros [(B0 & B1 & E & Hl) (H0 & H1 & E' & Hl')]. split; split.
  - exists B0, (b2 ++ B1). by rewrite <- !app_assoc in *.
  - exists H0, (h2 ++ H1). by rewrite <- !app_assoc in *.
  - exists (B0 ++ b1), B1. rewrite <- !app_assoc in *. split; [done|]. rewrite length_app. cbn. lia.
  - exists (H0 ++ h1), H1. rewrite <- !app_assoc in *. split; [done|]. rewrite length_app. cbn. lia.
Qed.
Lemma ahead_hash t c bits x : ahead t c bits [x] → vHash t !! nHashUsed c = Some x.
Proof using Type. intros [_ (H0 & H1 & E & Hl)]. rewrite E, <- Hl, lookup_app_r, Nat.sub_diag by lia. done. Qed.
Section extract.
Context (Hlen : ∀ l, length (sha256 l) = 32%nat).
Lemma twins_differ h (a b : list uint256) : length a = (2 ^ h)%nat → (0 < length b <= 2 ^ h)%nat → Forall leaf_ok a → Forall leaf_ok b → has_twins (S h) (a ++ b) = false →
  has_twins h a = false ∧ has_twins h b = false ∧ (tree h a = tree h b → collision).
Proof using Hlen.
  intros Ha Hb Fa Fb Ht. pose proof (pow2_pos h). rewrite has_twins_join in Ht by (done || lia). apply orb_false_iff in Ht as [[H1 H2]%orb_false_iff H3]. split_and!; [done..|].
  intros E. destruct (tree_unique Hlen h a b) as [-> |]; [lia|lia|done|done|done|done|done| |done]. rewrite (proj2 (Nat.eqb_eq _ _) Ha), bool_decide_true in H3 by done. done.
Qed.
Lemma TraverseAndExtract_built (l : list (uint256 * bool)) t h : Z.of_nat (length l) <= 2 ^ 30 → nTransactions t = Z.of_nat (length l) → (h <= 30)%nat → ∀ pos seg c, at_node l h pos seg →
  has_twins h seg.*1 = false → Forall leaf_ok seg.*1 → ahead t c (partial h seg).1 (partial h seg).2 →
  TraverseAndExtract t h pos c = (advanced c (length (partial h seg).1) (length (partial h seg).2) (marks (pos * 2 ^ Z.of_nat h) seg), tree h seg.*1) ∨ collision.
Proof using Hlen.
  intros Hn Ht. induction h as [|h IH]; intros Hh pos seg c Hat Htw Hok Ha; cbn [TraverseAndExtract].
  - left. destruct Hat as (_ & pre & post & -> & _ & Hseg & _). destruct seg as [|[x m] [|]]; cbn in Hseg; try lia. cbn [partial fst snd fmap list_fmap existsb id tree hd] in Ha |- *. rewrite orb_false_r in *.
    apply ahead_bit in Ha as [-> Ha]. rewrite (use_hash_spec _ _ _ _ _ (ahead_hash _ _ _ _ Ha)), next_bit_advanced, advanced_twice. cbn. rewrite app_nil_r, Z.mul_1_r. done.
  - destruct (existsb id seg.*2) eqn:Ee.
    2: { left. cbn [partial] in Ha |- *. rewrite Ee in *. cbn [fst snd] in *. apply ahead_bit in Ha as [-> Ha]. rewrite (use_hash_spec _ _ _ _ _ (ahead_hash _ _ _ _ Ha)), next_bit_advanced, advanced_twice. by rewrite marks_none. }
    assert (h < 30)%nat as Hh' by lia. destruct (node_step l h pos seg Hn Hh' Hat) as (-> & -> & [(Hw & Hle & Hl)|(Hw & a & b & -> & Hla & Hlb & Hl & Hr)]).
    + rewrite partial_dup in Ha |- * by done. cbn [fst snd] in *. apply ahead_bit in Ha as [-> Ha]. rewrite has_twins_dup in Htw by (rewrite length_fmap; lia).
      destruct (IH ltac:(lia) _ _ _ Hl Htw Hok Ha) as [E|]; [left|by right]. rewrite E, Ht, Hw, next_bit_advanced, advanced_twice, tree_dup by (rewrite length_fmap; lia). cbn [length app].
      replace (pos * 2 * 2 ^ Z.of_nat h) with (pos * 2 ^ Z.of_nat (S h)) by (rewrite Nat2Z.inj_succ, Z.pow_succ_r; lia). done.
    + rewrite partial_join in Ha |- * by (done || lia). cbn [fst snd] in *. apply ahead_bit in Ha as [-> Ha]. rewrite fmap_app in Htw, Hok. apply Forall_app in Hok as [Fa Fb].
      destruct (twins_differ h a.*1 b.*1) as (Ta & Tb & Hd); [by rewrite length_fmap|by rewrite length_fmap|done|done|done|].
      destruct (ahead_app _ _ _ _ _ _ (marks (pos * 2 * 2 ^ Z.of_nat h) a) Ha) as [A1 A2]. destruct (IH ltac:(lia) _ _ _ Hl Ta Fa A1) as [E1|]; [|by right].
      destruct (IH ltac:(lia) _ _ _ Hr Tb Fb A2) as [E2|]; [|by right]. rewrite E1, Ht, Hw, E2.
      destruct (decide (tree h b.*1 = tree h a.*1)) as [He|He]; [right; by apply Hd|left]. rewrite bool_decide_false by done.
      rewrite next_bit_advanced, !advanced_twice, fmap_app, tree_join by (rewrite length_fmap; lia). rewrite marks_app, Hla, pow2_Z, !length_app. cbn [length app]. rewrite length_app. cbn [Nat.add].
      replace (pos * 2 * 2 ^ Z.of_nat h) with (pos * 2 ^ Z.of_nat (S h)) by (rewrite Nat2Z.inj_succ, Z.pow_succ_r; lia).
      replace ((pos * 2 + 1) * 2 ^ Z.of_nat h) with (pos * 2 ^ Z.of_nat (S h) + 2 ^ Z.of_nat h) by (rewrite Nat2Z.inj_succ, Z.pow_succ_r; lia). done.
Qed.

(** ** What is extracted from anything *)
Lemma use_hash_any t m pos c : Forall leaf_ok (vHash t) → length (use_hash t m pos c).2 = 32%nat ∧ (bad c = true → bad (use_hash t m pos c).1 = true).
Proof using Type.
  intros Hv. unfold use_hash. destruct (vHash t !! nHashUsed c) as [x|] eqn:E; [|done]. split; [by eapply (Forall_lookup_1 _ _ _ _ Hv)|by destruct m].
Qed.
Lemma TraverseAndExtract_any t h : Forall leaf_ok (vHash t) → ∀ pos c, length (TraverseAndExtract t h pos c).2 = 32%nat ∧ (bad c = true → bad (TraverseAndExtract t h pos c).1 = true).
Proof using Hlen.
  intros Hv. induction h as [|h IH]; intros pos c; cbn [TraverseAndExtract]; (destruct (vBits t !! nBitsUsed c) as [m|]; [|done]); [exact (use_hash_any t m pos (next_bit c) Hv)|].
  destruct m; [|exact (use_hash_any t false pos (next_bit c) Hv)]. pose proof (IH (u32 (pos * 2)) (next_bit c)) as [_ B1]. destruct (TraverseAndExtract t h (u32 (pos * 2)) (next_bit c)) as [c1 l1].
  pose proof (IH (u32 (pos * 2 + 1)) c1) as [_ B2]. destruct (TraverseAndExtract t h (u32 (pos * 2 + 1)) c1) as [c2 r2]. cbn [fst snd] in *.
  destruct (_ <? _); cbn [fst snd]; (split; [apply Hlen|]); [|done]. intros Hb. destruct (bool_decide (r2 = l1)); [done|auto].
Qed.
Definition from_block (l : list uint256) (new : list (uint256 * Z)) : Prop := Forall (λ xi, 0 <= xi.2 ∧ l !! Z.to_nat xi.2 = Some xi.1) new.
Definition sound (l : list uint256) (c c' : cursor) : Prop := ∃ new, vMatch c' = vMatch c ++ new.*1 ∧ vnIndex c' = vnIndex c ++ new.*2 ∧ from_block l new.
Lemma sound_same l c c' : vMatch c' = vMatch c → vnIndex c' = vnIndex c → sound l c c'.
Proof using Type. intros E1 E2. exists []. cbn. rewrite !app_nil_r. split_and!; [done..|constructor]. Qed.
Lemma sound_trans l c1 c2 c3 : sound l c1 c2 → sound l c2 c3 → sound l c1 c3.
Proof using Type.
  intros (n1 & E1 & E1' & F1) (n2 & E2 & E2' & F2). exists (n1 ++ n2). rewrite E2, E2', E1, E1', !fmap_app, !app_assoc. split_and!; [done..|]. by apply Forall_app.
Qed.
Lemma TraverseAndExtract_sound (l : list uint256) t h : Z.of_nat (length l) <= 2 ^ 30 → nTransactions t = Z.of_nat (length l) → Forall leaf_ok (vHash t) → Forall leaf_ok l → (h <= 30)%nat →
  ∀ pos seg c c', at_node l h pos seg → TraverseAndExtract t h pos c = (c', tree h seg) → bad c' = false → sound l c c' ∨ collision.
Proof using Hlen.
  intros Hn Ht Hv Hok. induction h as [|h IH]; intros Hh pos seg c c' Hat E Hb; cbn [TraverseAndExtract] in E; (destruct (vBits t !! nBitsUsed c) as [m|]; [|by injection E as <- _]).
  - left. unfold use_hash in E. destruct (vHash t !! nHashUsed (next_bit c)) as [x|]; [|by injection E as <- _]. injection E as <- ->. destruct m; [|by apply sound_same].
    destruct Hat as (Hp & pre & post & -> & Hpre & Hseg & _). destruct seg as [|y [|]]; cbn in Hseg; try lia. exists [(y, pos)]. split_and!; [done..|]. apply Forall_singleton. cbn. split; [done|].
    replace (Z.to_nat pos) with (length pre) by lia. by rewrite lookup_app_r, Nat.sub_diag by lia.
  - destruct m.
    2: { left. unfold use_hash in E. destruct (vHash t !! nHashUsed (next_bit c)); injection E as <- _; by apply sound_same. }
    assert (h < 30)%nat as Hh' by lia. assert (∀ h pos seg, at_node l h pos seg → length (tree h seg) = 32%nat) as Htl.
    { intros h1 pos1 s1 (_ & pre & post & -> & _ & Hs & _). apply tree_length; [done|done|]. by apply Forall_app in Hok as [_ [? _]%Forall_app]. }
    pose proof (TraverseAndExtract_any t h Hv (pos * 2) (next_bit c)) as [L1 _].
    destruct (node_step l h pos seg Hn Hh' Hat) as (Eu1 & Eu2 & [(Hw & Hle & Hl)|(Hw & a & b & -> & Hla & Hlb & Hl & Hr)]); rewrite Eu1, Ht, ?Eu2, Hw in E;
      destruct (TraverseAndExtract t h (pos * 2) (next_bit c)) as [c1 l1] eqn:E1; cbn [snd] in L1.
    + apply pair_equal_spec in E as [<- E]. rewrite tree_dup in E by done. apply node_inj in E as [[-> _]|]; [|by right|rewrite L1; by rewrite (Htl _ _ _ Hl)]. exact (IH ltac:(lia) _ _ _ _ Hl E1 Hb).
    + destruct (TraverseAndExtract t h (pos * 2 + 1) c1) as [c2 r2] eqn:E2. apply pair_equal_spec in E as [<- E]. rewrite tree_join in E by (done || lia).
      assert (bad c2 = false) as Hb2 by (by destruct (bool_decide (r2 = l1))). assert (bad c1 = false) as Hb1.
      { destruct (bad c1) eqn:Eb; [|done]. pose proof (proj2 (TraverseAndExtract_any t h Hv (pos * 2 + 1) c1) Eb) as Hx. rewrite E2 in Hx. cbn in Hx. congruence. }
      apply node_inj in E as [[-> ->]|]; [|by right|rewrite L1; by rewrite (Htl _ _ _ Hl)]. destruct (bool_decide (tree h b = tree h a)); [done|].
      destruct (IH ltac:(lia) _ _ _ _ Hl E1 Hb1) as [S1|]; [|by right]. destruct (IH ltac:(lia) _ _ _ _ Hr E2 Hb2) as [S2|]; [left|by right]. exact (sound_trans _ _ _ _ S1 S2).
Qed.

(** ** Height and sizes *)
Lemma below_30 n h : n <= 2 ^ 30 → (∀ j, (j < h)%nat → 2 ^ Z.of_nat j < n) → (h <= 30)%nat.
Proof using Type. intros Hn Hj. destruct (Nat.le_gt_cases h 30) as [|Hh]; [done|]. specialize (Hj 30%nat Hh). change (2 ^ Z.of_nat 30) with (2 ^ 30) in Hj. lia. Qed.
Lemma tree_height_spec n fuel : 0 < n <= 2 ^ 30 → ∀ h, (∀ j, (j < h)%nat → 2 ^ Z.of_nat j < n) → (30 <= fuel + h)%nat →
  ∃ k, tree_height fuel n h = Some k ∧ n <= 2 ^ Z.of_nat k ∧ ∀ j, (j < k)%nat → 2 ^ Z.of_nat j < n.
Proof using Type.
  intros Hn. induction fuel as [|fuel IH]; intros h Hj Hf; cbn [tree_height].
  - assert (h <= 30)%nat by (eapply below_30; [apply Hn|done]).
    assert (h = 30%nat) as -> by lia. rewrite width_spec by lia. change (1 * 2 ^ Z.of_nat 30) with (2 ^ 30). rewrite (proj2 (Z.ltb_ge _ _)) by lia. exists 30%nat. split; [done|]. split; [exact (proj2 Hn)|done].
  - assert (h <= 30)%nat by (eapply below_30; [apply Hn|done]).
    rewrite width_spec by lia. rewrite Z.mul_1_l. destruct (Z.ltb_spec (2 ^ Z.of_nat h) n); [|by exists h]. apply IH; [|lia]. intros j Hlt. destruct (decide (j = h)) as [-> |]; [done|]. apply Hj. lia.
Qed.
Lemma tree_height_leaves (l : list uint256) : l ≠ [] → Z.of_nat (length l) <= 2 ^ 30 → tree_height 32 (Z.of_nat (length l)) 0 = Some (height l) ∧ (0 < length l <= 2 ^ height l)%nat ∧ (height l <= 30)%nat.
Proof using Type.
  intros Hne Hl. assert (0 < length l)%nat by (destruct l; [done|cbn; lia]). destruct (tree_height_spec (Z.of_nat (length l)) 32 ltac:(lia) 0) as (k & E & Hk & Hj); [lia|lia|].
  assert (length l <= 2 ^ k)%nat as Hk' by (apply Nat2Z.inj_le; by rewrite pow2_Z). assert (height l = k) as Eh.
  { apply height_unique; [lia|]. destruct k as [|k]; [by left|right]. apply Nat2Z.inj_lt. rewrite pow2_Z. replace (S k - 1)%nat with k by lia. apply Hj. lia. }
  rewrite Eh. split_and!; [done|lia|done|]. eapply below_30; [apply Hl|done].
Qed.
Lemma partial_sizes h : ∀ seg, (0 < length seg)%nat → (0 < length (partial h seg).2 <= length seg)%nat ∧ (length (partial h seg).2 <= length (partial h seg).1)%nat.
Proof using Type.
  induction h as [|h IH]; intros seg Hs; cbn [partial]; [cbn; lia|]. destruct (existsb id seg.*2); [|cbn; lia]. destruct (Nat.leb_spec (length seg) (2 ^ h)) as [Hle|Hgt].
  - pose proof (IH seg Hs). cbn [fst snd length]. lia.
  - pose proof (pow2_pos h). pose proof (IH (take (2 ^ h) seg)) as H1. pose proof (IH (drop (2 ^ h) seg)) as H2. rewrite length_take in H1. rewrite length_drop in H2. cbn [fst snd length]. rewrite !length_app. lia.
Qed.
Lemma partial_valid h : (∀ l, Radix.digits 256 (sha256 l)) → ∀ seg, (0 < length seg <= 2 ^ h)%nat → Forall (λ x, length x = 32%nat ∧ Radix.digits 256 x) seg.*1 →
  Forall (λ x, length x = 32%nat ∧ Radix.digits 256 x) (partial h seg).2.
Proof using Hlen.
  intros Hdig. induction h as [|h IH]; intros seg Hs Hok; cbn [partial].
  - destruct seg as [|[x m] [|]]; cbn in Hs; try lia. exact Hok.
  - destruct (existsb id seg.*2); [|apply Forall_singleton; cbn [tree]; case_match; (split; [apply Hlen|apply Hdig])]. destruct (Nat.leb_spec (length seg) (2 ^ h)) as [Hle|Hgt]; cbn [fst snd]; [apply IH; [lia|done]|].
    pose proof (pow2_pos h). pose proof (pow2_S h). rewrite <- (take_drop (2 ^ h) seg), fmap_app in Hok. apply Forall_app in Hok as [Q1 Q2]. apply Forall_app. split; apply IH; rewrite ?length_take, ?length_drop; (lia || done).
Qed.
End extract.

(** ** Bits as bytes *)
Definition bit_of (v : list Z) (q : nat) : bool := Z.testbit (v.[q / 8]) (Z.of_nat (q mod 8)).
Lemma unpack_bit x k : 0 <= k → negb (Z.land x (Z.shiftl 1 k) =? 0) = Z.testbit x k.
Proof using Type.
  intros Hk. rewrite Z.shiftl_1_l. destruct (Z.testbit x k) eqn:E.
  - destruct (Z.eqb_spec (Z.land x (2 ^ k)) 0) as [E0|]; [|done]. pose proof (f_equal (λ z, Z.testbit z k) E0) as Hb. cbn in Hb. by rewrite Z.land_spec, E, Z.pow2_bits_true, Z.bits_0 in Hb by lia.
  - apply negb_false_iff, Z.eqb_eq. apply Z.bits_inj'. intros j Hj. rewrite Z.land_spec, Z.bits_0. destruct (decide (j = k)) as [-> |]; [by rewrite E|]. by rewrite Z.pow2_bits_false, andb_false_r by done.
Qed.
Lemma set_bit x b k j : 0 <= x < 256 → 0 <= k < 8 → 0 <= j → Z.testbit (u8 (Z.lor x (Z.shiftl (Z.b2z b) k))) j = Z.testbit x j || (b && (j =? k)).
Proof using Type.
  intros Hx Hk Hj. unfold u8. destruct (Z.ltb_spec j 8) as [Hlt|Hge].
  - rewrite Z.mod_pow2_bits_low, Z.lor_spec, Z.shiftl_spec by lia. f_equal. destruct b; cbn [Z.b2z andb]; [|apply Z.bits_0]. destruct (Z.eqb_spec j k) as [-> |]; [by rewrite Z.sub_diag|].
    destruct (decide (j < k)); [by rewrite Z.testbit_neg_r by lia|]. apply Z.bits_above_log2; [lia|]. cbn. lia.
  - rewrite Z.mod_pow2_bits_high by lia. destruct (Z.eqb_spec j k); [lia|]. rewrite andb_false_r, orb_false_r. symmetry. destruct (decide (x = 0)) as [-> |]; [apply Z.bits_0|]. apply Z.bits_above_log2; [lia|].
    apply Z.lt_le_trans with 8; [|lia]. apply Z.log2_lt_pow2; lia.
Qed.
Lemma pack_loop_spec bits : ∀ p v, (p + length bits <= 8 * length v)%nat → Radix.digits 256 v → (∀ q, (p <= q)%nat → bit_of v q = false) →
  length (pack_loop p bits v) = length v ∧ Radix.digits 256 (pack_loop p bits v) ∧ ∀ q, bit_of (pack_loop p bits v) q = if (q <? p)%nat then bit_of v q else default false (bits !! (q - p)%nat).
Proof using Type.
  induction bits as [|b bits IH]; intros p v Hl Hd Hz; cbn [pack_loop length] in *.
  { split_and!; [done..|]. intros q. destruct (Nat.ltb_spec q p); [done|]. rewrite lookup_nil. by apply Hz. }
  set (f := λ x, u8 (Z.lor x (Z.shiftl (Z.b2z b) (Z.of_nat (p mod 8))))). set (v' := alter f (p / 8)%nat v). pose proof (Nat.mod_upper_bound p 8 ltac:(lia)) as Hm. pose proof (Nat.div_mod_eq p 8) as Hdm.
  assert (∃ x, v !! (p / 8)%nat = Some x ∧ 0 <= x < 256) as (x & Ex & Hx). { destruct (lookup_lt_is_Some_2 v (p / 8)) as [x Ex]; [lia|]. exists x. split; [done|]. by eapply (Forall_lookup_1 _ _ _ _ Hd). }
  assert (∀ q, bit_of v' q = if (q =? p)%nat then b else bit_of v q) as Hv'.
  { intros q. unfold bit_of, get, v'. destruct (decide (q / 8 = p / 8)%nat) as [E|E].
    - rewrite E, list_lookup_alter_eq, Ex. change (default 0 (f <$> Some x)) with (f x). change (default 0 (Some x)) with x. unfold f. rewrite set_bit by lia. destruct (Nat.eqb_spec q p) as [-> |Hne].
      + rewrite Z.eqb_refl, andb_true_r. specialize (Hz p ltac:(lia)). unfold bit_of, get in Hz. rewrite Ex in Hz. change (default 0 (Some x)) with x in Hz. by rewrite Hz.
      + pose proof (Nat.div_mod_eq q 8). destruct (Z.eqb_spec (Z.of_nat (q mod 8)) (Z.of_nat (p mod 8))); [lia|]. by rewrite andb_false_r, orb_false_r.
    - rewrite list_lookup_alter_ne by done. destruct (Nat.eqb_spec q p) as [-> |]; done. }
  destruct (IH (S p) v') as (L & D & HB).
  - unfold v'. rewrite length_alter. lia.
  - unfold v'. apply Forall_alter; [done|]. intros y Ey _. unfold f, u8. apply Z.mod_pos_bound. lia.
  - intros q Hq. rewrite Hv'. destruct (Nat.eqb_spec q p); [lia|]. apply Hz. lia.
  - split_and!; [by rewrite L; unfold v'; rewrite length_alter|done|]. intros q. rewrite HB, Hv'. destruct (Nat.ltb_spec q (S p)), (Nat.ltb_spec q p), (Nat.eqb_spec q p); try lia; subst; try done.
    + by rewrite Nat.sub_diag.
    + replace (q - p)%nat with (S (q - S p)) by lia. done.
Qed.
Lemma unpack_pack bits : ∃ pad, unpack_bits (pack_bits bits) = bits ++ pad ∧ (length (bits ++ pad) = 8 * ((length bits + 7) / 8))%nat ∧ Radix.digits 256 (pack_bits bits) ∧ length (pack_bits bits) = ((length bits + 7) / 8)%nat.
Proof using Type.
  set (k := ((length bits + 7) / 8)%nat). pose proof (Nat.div_mod_eq (length bits + 7) 8) as Hdm. pose proof (Nat.mod_upper_bound (length bits + 7) 8 ltac:(lia)).
  destruct (pack_loop_spec bits 0 (replicate k 0)) as (L & D & HB); [rewrite length_replicate; lia|apply digits_replicate_0; lia| |].
  { intros q _. unfold bit_of, get. destruct (replicate k 0 !! (q / 8)%nat) as [z|] eqn:E; [apply lookup_replicate in E as [-> _]|]; apply Z.bits_0. }
  rewrite length_replicate in L. change (pack_loop 0 bits (replicate k 0)) with (pack_bits bits) in L, D, HB. exists (replicate (8 * k - length bits) false). rewrite length_app, length_replicate. split_and!; [|lia|done|done].
  apply list_eq. intros q. unfold unpack_bits. rewrite list_lookup_fmap, L. destruct (decide (q < k * 8)%nat) as [Hq|Hq].
  - rewrite lookup_seq_lt by lia. cbn [fmap option_fmap option_map Nat.add]. rewrite unpack_bit by lia. fold (bit_of (pack_bits bits) q). rewrite HB. cbn [Nat.ltb Nat.leb]. rewrite Nat.sub_0_r.
    destruct (decide (q < length bits)%nat) as [Hlt|Hge]; [rewrite lookup_app_l by done; by destruct (lookup_lt_is_Some_2 bits q Hlt) as [y ->]|].
    rewrite lookup_app_r, lookup_replicate_2, (lookup_ge_None_2 bits) by lia. done.
  - rewrite lookup_seq_ge, lookup_ge_None_2 by (rewrite ?length_app, ?length_replicate; lia). done.
Qed.
Lemma partial_bits h : ∀ seg, (length (partial h seg).1 < 2 ^ S h)%nat.
Proof using Type.
  induction h as [|h IH]; intros seg; cbn [partial]; [cbn; lia|]. pose proof (pow2_S (S h)). pose proof (pow2_pos (S h)). destruct (existsb id seg.*2); [|cbn [fst length]; lia].
  destruct (_ <=? _)%nat; cbn [fst length]; [pose proof (IH seg); lia|]. rewrite length_app. pose proof (IH (take (2 ^ h) seg)). pose proof (IH (drop (2 ^ h) seg)). lia.
Qed.

(** ** Properties *)
Lemma ExtractMatches_built (Hlen : ∀ l, length (sha256 l) = 32%nat) (l : list (uint256 * bool)) t pad idx : l ≠ [] → Z.of_nat (length l) <= MAX_BLOCK_BASE_SIZE / 60 → Forall leaf_ok l.*1 →
  has_twins (height l.*1) l.*1 = false → nTransactions t = Z.of_nat (length l) → vBits t = (partial (height l.*1) l).1 ++ pad → vHash t = (partial (height l.*1) l).2 → fBad t = false →
  ((length (partial (height l.*1) l).1 + 7) / 8 = (length (vBits t) + 7) / 8)%nat →
  ExtractMatches t idx = Some (tree (height l.*1) l.*1, (marks 0 l).*1, idx ++ (marks 0 l).*2) ∨ collision.
Proof using Type.
  intros Hne Hn Hok Htw Et Eb Eh Ef Hpad. change (MAX_BLOCK_BASE_SIZE / 60) with 33333 in *. assert (l.*1 ≠ []) as Hne1 by (by destruct l).
  destruct (tree_height_leaves l.*1 Hne1) as (Eth & Hl & H30); [rewrite length_fmap; lia|]. rewrite length_fmap in Eth, Hl. assert (Z.of_nat (length l) <= 2 ^ 30) as Hn30 by lia.
  destruct (partial_sizes (height l.*1) l) as [S1 S2]; [lia|].
  destruct (TraverseAndExtract_built Hlen l t (height l.*1) Hn30 Et H30 0 l (mkCursor 0 0 [] idx (fBad t)) (at_root _ _ Hl) Htw Hok) as [E|]; [|left|by right].
  { split; [exists [], pad; by rewrite Eb|exists [], []; by rewrite Eh, app_nil_r]. }
  unfold ExtractMatches. change (MAX_BLOCK_BASE_SIZE / 60) with 33333. rewrite Et, (proj2 (Z.eqb_neq _ _)), !(proj2 (Z.ltb_ge _ _)) by (rewrite ?Eh; lia). cbn [orb].
  rewrite (proj2 (Nat.ltb_ge _ _)) by (rewrite Eb, Eh, length_app; lia). rewrite Eth. cbn [mbind option_bind]. rewrite E. cbn [advanced bad nBitsUsed nHashUsed vMatch vnIndex Nat.add].
  rewrite Ef, <- Hpad, Eh, !Nat.eqb_refl. done.
Qed.
Lemma partial_built (l : list (uint256 * bool)) : l ≠ [] → Z.of_nat (length l) <= 2 ^ 30 →
  CPartialMerkleTree_of l.*1 l.*2 = Some (mkPartial (Z.of_nat (length l)) (partial (height l.*1) l).1 (partial (height l.*1) l).2 false).
Proof using Type.
  intros Hne Hn. assert (l.*1 ≠ []) as Hne1 by (by destruct l). destruct (tree_height_leaves l.*1 Hne1) as (Eth & Hl & H30); [by rewrite length_fmap|]. rewrite length_fmap in Eth, Hl.
  pose proof (TraverseAndBuild_spec l (height l.*1) Hn H30 0 l (at_root _ _ Hl)) as Eb.
  unfold CPartialMerkleTree_of. rewrite length_fmap. unfold u32. rewrite Z.mod_small by lia. rewrite Eth. cbn [mbind option_bind]. rewrite Eb. by destruct (partial _ _).
Qed.
Lemma partial_extracts (Hlen : ∀ l, length (sha256 l) = 32%nat) (l : list (uint256 * bool)) root idx : l ≠ [] → Z.of_nat (length l) <= MAX_BLOCK_BASE_SIZE / 60 →
  Forall leaf_ok l.*1 → ComputeMerkleRoot l.*1 = Some (root, false) →
  ∃ t, CPartialMerkleTree_of l.*1 l.*2 = Some t ∧ (ExtractMatches t idx = Some (root, (marks 0 l).*1, idx ++ (marks 0 l).*2) ∨ collision).
Proof using Type.
  intros Hne Hn Hok Hroot. pose proof Hn as Hn'. change (MAX_BLOCK_BASE_SIZE / 60) with 33333 in Hn'. assert (l.*1 ≠ []) as Hne1 by (by destruct l).
  assert (Z.of_nat (length l.*1) <= 2 ^ 30) as Hn1 by (rewrite length_fmap; lia). rewrite ComputeMerkleRoot_spec in Hroot by (done || lia). injection Hroot as <- Htw.
  eexists. split; [apply partial_built; [done|lia]|]. apply (ExtractMatches_built Hlen l _ []); try done. cbn [vBits]. by rewrite app_nil_r.
Qed.
(** C34. A partial tree shows what it was built for.  From the identifiers of the transactions of a block that is not
    mutated and a mask of them the constructor builds a tree; extracting gives the root of the block and exactly the
    masked identifiers with their positions, in order, unless two nodes collide.  So it does after the tree was written to a stream and read back, although
    the bits are then padded to whole bytes. *)
Theorem partial_roundtrip (Hlen : ∀ l, length (sha256 l) = 32%nat) (l : list (uint256 * bool)) root idx rest : l ≠ [] → Z.of_nat (length l) <= MAX_BLOCK_BASE_SIZE / 60 →
  Forall (λ x, length x = 32%nat ∧ Radix.digits 256 x) l.*1 → (∀ l, Radix.digits 256 (sha256 l)) → ComputeMerkleRoot l.*1 = Some (root, false) →
  ∃ t t', CPartialMerkleTree_of l.*1 l.*2 = Some t ∧ Unserialize_partial (Serialize_partial t ++ rest) = inr (t', rest) ∧
    ((ExtractMatches t idx = Some (root, (marks 0 l).*1, idx ++ (marks 0 l).*2) ∧ ExtractMatches t' idx = Some (root, (marks 0 l).*1, idx ++ (marks 0 l).*2)) ∨ collision).
Proof using Type.
  intros Hne Hn Hok Hdig Hroot. assert (l.*1 ≠ []) as Hne1 by (by destruct l). pose proof Hn as Hn'. change (MAX_BLOCK_BASE_SIZE / 60) with 33333 in Hn'.
  assert (Z.of_nat (length l.*1) <= 2 ^ 30) as Hn1 by (rewrite length_fmap; lia). rewrite ComputeMerkleRoot_spec in Hroot by (done || lia). injection Hroot as <- Htw.
  destruct (tree_height_leaves l.*1 Hne1 Hn1) as (Eth & Hl & H30). rewrite length_fmap in Eth, Hl. assert (Z.of_nat (length l) <= 2 ^ 30) as Hn30 by lia.
  set (h := height l.*1) in *. set (P := partial h l) in *.
  set (t := mkPartial (Z.of_nat (length l)) P.1 P.2 false). destruct (unpack_pack P.1) as (pad & Eu & Hpl & Hpd & Hpn). set (t' := mkPartial (Z.of_nat (length l)) (P.1 ++ pad) P.2 false).
  assert (Forall leaf_ok l.*1) as Hok1 by (eapply Forall_impl; [|exact Hok]; by intros ? []). pose proof (partial_sizes h l) as Hsz. fold P in Hsz.
  exists t, t'. split_and!.
  - by apply partial_built.
  - assert (Forall (λ x, length x = 32%nat ∧ Radix.digits 256 x) P.2) as Hv. { unfold P. by apply partial_valid. }
    assert (length P.1 < 2 ^ 17)%nat as Hb17. { pose proof (partial_bits h l) as Hpb. fold P in Hpb. assert (h <= 16)%nat; [|eapply Nat.lt_le_trans; [exact Hpb|apply Nat.pow_le_mono_r; lia]].
      unfold h, height. rewrite length_fmap. transitivity (Nat.log2_up (2 ^ 16)); [apply Nat.log2_up_le_mono; apply Nat2Z.inj_le; rewrite pow2_Z; change (2 ^ Z.of_nat 16) with 65536; lia|by rewrite Nat.log2_up_pow2 by lia]. }
    apply Nat2Z.inj_lt in Hb17. rewrite pow2_Z in Hb17. change (2 ^ Z.of_nat 17) with 131072 in Hb17. pose proof (Nat.div_mod_eq (length P.1 + 7) 8).
    unfold Serialize_partial, Unserialize_partial, t. cbn [nTransactions vBits vHash]. rewrite <- !app_assoc.
    erewrite bind_run; [|apply codec_uint32; lia]. erewrite bind_run; [|eapply (dec_enc (Codec := codec_vector 32 ltac:(lia))); split; [unfold MAX_SIZE; lia|exact Hv]].
    erewrite bind_run; [|apply codec_bytes; split; [rewrite Hpn; unfold MAX_SIZE; lia|done]]. by rewrite Eu.
  - destruct (ExtractMatches_built Hlen l t [] idx) as [E|]; [done|done|done|done|done|by rewrite app_nil_r|done|done|done| |by right].
    destruct (ExtractMatches_built Hlen l t' pad idx) as [E'|]; [done|done|done|done|done|done|done|done| |by left|by right].
    cbn [vBits t']. fold h P. rewrite Hpl. set (q := ((length P.1 + 7) / 8)%nat). replace (8 * q + 7)%nat with (7 + q * 8)%nat by lia. rewrite Nat.div_add by lia. done.
Qed.
(** C35. A partial tree cannot lie.  Whatever tree was received, if extracting gives the root of a block, which is not the
    null hash that stands for a failure, and the tree claims the number of transactions of the block, then every extracted identifier is that of
    the transaction of the block at the extracted position, unless two nodes collide. *)
Theorem partial_sound (Hlen : ∀ l, length (sha256 l) = 32%nat) (leaves : list uint256) t root mutated vm idx vi : Z.of_nat (length leaves) = nTransactions t →
  Forall (λ x, length x = 32%nat) leaves → Forall (λ x, length x = 32%nat) (vHash t) → ComputeMerkleRoot leaves = Some (root, mutated) → root ≠ null → ExtractMatches t idx = Some (root, vm, vi) →
  (∃ found, vm = found.*1 ∧ vi = idx ++ found.*2 ∧ Forall (λ xi, 0 <= xi.2 ∧ leaves !! Z.to_nat xi.2 = Some xi.1) found) ∨ collision.
Proof using Type.
  intros Hn Hok Hv Hroot Hnull E. unfold ExtractMatches in E. change (MAX_BLOCK_BASE_SIZE / 60) with 33333 in E. destruct (Z.eqb_spec (nTransactions t) 0); [exfalso; apply Hnull; by injection E|].
  destruct (Z.ltb_spec 33333 (nTransactions t)); [exfalso; apply Hnull; by injection E|]. cbn [orb] in E. destruct (nTransactions t <? _); [exfalso; apply Hnull; by injection E|]. destruct (_ <? _)%nat; [exfalso; apply Hnull; by injection E|].
  assert (leaves ≠ []) as Hne by (intros ->; cbn in Hn; lia). rewrite ComputeMerkleRoot_spec in Hroot by (done || lia). destruct (tree_height_leaves leaves Hne) as (Eth & Hl & H30); [lia|].
  rewrite <- Hn, Eth in E. cbn [mbind option_bind] in E. destruct (TraverseAndExtract t (height leaves) 0 _) as [c r] eqn:Er. destruct (bad c) eqn:Eb; [exfalso; apply Hnull; by injection E|]. cbn [orb] in E.
  destruct (_ || _); [exfalso; apply Hnull; by injection E|]. assert (r = tree (height leaves) leaves) as -> by (injection E as -> _ _; by injection Hroot).
  destruct (TraverseAndExtract_sound Hlen leaves t (height leaves)) with (pos := 0) (seg := leaves) (c := mkCursor 0 0 [] idx (fBad t)) (c' := c) as [(new & E1 & E2 & HF)|]; [lia|done|done|done|done|by apply at_root|done|done|left|by right].
  exists new. injection E as _ <- <-. done.
Qed.
End partial.

(** ** A block reduced to some of its transactions *)
Record CMerkleBlock := mkMerkleBlock { mb_header : Chain.CBlockHeader; txn : CPartialMerkleTree; vMatchedTxn : list (Z * uint256) }.
Definition CMerkleBlock_txids `{Crypto} (block : CBlock) (txids : gset uint256) : option CMerkleBlock :=
  vHashes ← mapM (GetHash Hash256) (vtx block);
  txn ← CPartialMerkleTree_of vHashes (map (λ h, bool_decide (h ∈ txids)) vHashes);
  Some (mkMerkleBlock (GetBlockHeader block) txn []).

(** ** Three leaves *)
Definition sample_marked : list (uint256 * bool) := [(replicate 32 1, false); (replicate 32 2, true); (replicate 32 3, true)].
Lemma sum_digits l : Radix.digits 256 (sha256 (Crypto := sum_crypto) l).
Proof.
  apply Forall_app. split; [apply Forall_replicate; lia|]. apply Forall_singleton. destruct l; cbn; [lia|]. apply Z.mod_pos_bound. lia.
Qed.
Lemma sample_leaves_ok : Forall (λ x, length x = 32%nat ∧ Radix.digits 256 x) sample_leaves.
Proof. repeat (apply Forall_cons_2; [split; [done|apply Forall_replicate; lia]|]). constructor. Qed.
Lemma partial_roundtrip_witness : ∃ t t', CPartialMerkleTree_of (H := sum_crypto) sample_leaves [false; true; true] = Some t ∧ Unserialize_partial (Serialize_partial t ++ [7]) = inr (t', [7]) ∧
  vBits t = [true; true; false; true; true; true] ∧ vBits t' = [true; true; false; true; true; true; false; false].
Proof.
  destruct (partial_roundtrip (H := sum_crypto) ltac:(reflexivity) sample_marked (tree (H := sum_crypto) 2 sample_leaves) [] [7]) as (t & t' & E & E' & _);
    [discriminate|vm_compute; discriminate|exact sample_leaves_ok|exact sum_digits|vm_compute; reflexivity|]. exists t, t'. split; [exact E|]. split; [exact E'|].
  vm_compute in E. injection E as <-. split; [reflexivity|]. vm_compute in E'. injection E' as <-. reflexivity.
Defined.
Definition sample_partial : CPartialMerkleTree := mkPartial 3 [true; true; false; true; true; true; false; false] [replicate 32 1; replicate 32 2; replicate 32 3] false.
Lemma partial_sound_witness : (∃ found, [replicate 32 2; replicate 32 3] = found.*1 ∧ [1; 2] = found.*2 ∧ Forall (λ xi, 0 <= xi.2 ∧ sample_leaves !! Z.to_nat xi.2 = Some xi.1) found) ∨ collision (H := sum_crypto).
Proof.
  apply (partial_sound (H := sum_crypto) ltac:(reflexivity) sample_leaves sample_partial (tree (H := sum_crypto) 2 sample_leaves) false [replicate 32 2; replicate 32 3] [] [1; 2]);
    [reflexivity|repeat constructor|repeat constructor|vm_compute; reflexivity|vm_compute; discriminate|vm_compute; reflexivity].
Defined.
(** The header of a block does not commit to the number of transactions: with another number, an inner node passes for a transaction. *)
Example wrong_count : let root := tree (H := sum_crypto) 2 sample_leaves in
  ExtractMatches (H := sum_crypto) (mkPartial 1 [true] [root] false) [] = Some (root, [root], [0]).
Proof. vm_compute. reflexivity. Qed.
End MerkleBlock.
