(* ===== verification/Bloom.v ===== *)
(** * Bloom: filters for transactions ([bloom.cpp], [hash.cpp])

    [MurmurHash3]; the filter that a light client gives to a node, which marks the transactions
    of a block that concern the client; and the rolling filter, which remembers the last
    insertions.  The sizes that the constructors compute with floating point numbers are
    arguments.  [None] is a division by zero, an access out of range or an exception. *)
From S2P Require Import Prelude Serialize Uint256 Script Transaction Interpreter Standard Merkle Chain BlockCheck MerkleBlock.
Open Scope Z_scope.
Open Scope list_scope.

Module Bloom.
Import Transaction Interpreter Standard Merkle BlockCheck MerkleBlock.

(** ** [MurmurHash3] *)
Definition ROTL32 (x r : Z) : Z := Z.lor (u32 (Z.shiftl x r)) (Z.shiftr x (32 - r)).
Definition c1 : Z := 0xcc9e2d51.
Definition c2 : Z := 0x1b873593.
Definition mix (k1 : Z) : Z := u32 (ROTL32 (u32 (k1 * c1)) 15 * c2).
(** The body on whole words, then the tail of up to three bytes. *)
Fixpoint murmur_blocks (h1 : Z) (l : list Z) : Z * list Z :=
  match l with
  | b0 :: b1 :: b2 :: b3 :: l =>
      let h1 := Z.lxor h1 (mix (Radix.eval 256 [b0; b1; b2; b3])) in
      murmur_blocks (u32 (ROTL32 h1 13 * 5 + 0xe6546b64)) l
  | _ => (h1, l)
  end.
Definition murmur_tail (h1 : Z) (tail : list Z) : Z :=
  match tail with
  | [b0; b1; b2] => Z.lxor h1 (mix (Z.lxor (Z.lxor (Z.shiftl b2 16) (Z.shiftl b1 8)) b0))
  | [b0; b1] => Z.lxor h1 (mix (Z.lxor (Z.shiftl b1 8) b0))
  | [b0] => Z.lxor h1 (mix b0)
  | _ => h1
  end.
Definition MurmurHash3 (nHashSeed : Z) (vDataToHash : list Z) : Z :=
  let '(h1, tail) := murmur_blocks nHashSeed vDataToHash in
  let h1 := murmur_tail h1 tail in
  let h1 := u32 (Z.lxor h1 (Script.size vDataToHash)) in
  let h1 := Z.lxor h1 (Z.shiftr h1 16) in
  let h1 := u32 (h1 * 0x85ebca6b) in
  let h1 := Z.lxor h1 (Z.shiftr h1 13) in
  let h1 := u32 (h1 * 0xc2b2ae35) in
  Z.lxor h1 (Z.shiftr h1 16).
(** The values of the tests of the repository. *)
Example murmur_values :
  map (λ '(seed, d), MurmurHash3 seed d)
    [(0, []); (0xFBA4C795, []); (0xffffffff, []); (0, [0]); (0xFBA4C795, [0]); (0, [0xff]); (0, [0; 0x11]); (0, [0; 0x11; 0x22]); (0, [0; 0x11; 0x22; 0x33]);
     (0, [0; 0x11; 0x22; 0x33; 0x44]); (0, [0; 0x11; 0x22; 0x33; 0x44; 0x55]); (0, [0; 0x11; 0x22; 0x33; 0x44; 0x55; 0x66; 0x77; 0x88])] =
  [0; 0x6a396f08; 0x81f16f39; 0x514e28b7; 0xea3f0b17; 0xfd6cf10d; 0x16c6b7ab; 0x8eb51c3d; 0xb4471bf8; 0xe2301fa8; 0xfc2e4a15; 0xb4698def].
Proof. vm_compute. reflexivity. Qed.

(** ** The filter of a client *)
Definition MAX_BLOOM_FILTER_SIZE : Z := 36000.
Definition MAX_HASH_FUNCS : Z := 50.
Definition BLOOM_UPDATE_NONE : Z := 0.
Definition BLOOM_UPDATE_ALL : Z := 1.
Definition BLOOM_UPDATE_P2PUBKEY_ONLY : Z := 2.
Definition BLOOM_UPDATE_MASK : Z := 3.
Record CBloomFilter := mkBloom { vData : list Z; isFull : bool; isEmpty : bool; nHashFuncs : Z; nTweak : Z; nFlags : Z }.
(** The default constructor, and the one with a size in bits and a number of functions computed from the wanted rate. *)
Definition CBloomFilter_default : CBloomFilter := mkBloom [] true false 0 0 0.
Definition CBloomFilter_of (bits funcs nTweakIn nFlagsIn : Z) : CBloomFilter :=
  mkBloom (replicate (Z.to_nat (Z.min bits (MAX_BLOOM_FILTER_SIZE * 8) / 8)) 0) false false (Z.min funcs MAX_HASH_FUNCS) nTweakIn nFlagsIn.
Definition set_filter (f : CBloomFilter) (x : list Z) (e : bool) : CBloomFilter := mkBloom x (isFull f) e (nHashFuncs f) (nTweak f) (nFlags f).

Definition Hash (f : CBloomFilter) (nHashNum : Z) (vDataToHash : list Z) : option Z :=
  if Script.size (vData f) =? 0 then None
  else Some (MurmurHash3 (u32 (nHashNum * 0xFBA4C795 + nTweak f)) vDataToHash mod (Script.size (vData f) * 8)).
Definition set_bit (v : list Z) (nIndex : Z) : option (list Z) :=
  x ← v !! Z.to_nat (Z.shiftr nIndex 3);
  Some (<[Z.to_nat (Z.shiftr nIndex 3) := u8 (Z.lor x (Z.shiftl 1 (Z.land 7 nIndex)))]> v).
Definition get_bit (v : list Z) (nIndex : Z) : option bool :=
  x ← v !! Z.to_nat (Z.shiftr nIndex 3);
  Some (negb (Z.land x (Z.shiftl 1 (Z.land 7 nIndex)) =? 0)).
Fixpoint insert_loop (n : nat) (i : Z) (f : CBloomFilter) (vKey : list Z) : option CBloomFilter :=
  match n with
  | O => Some f
  | S n =>
      nIndex ← Hash f i vKey;
      v ← set_bit (vData f) nIndex;
      insert_loop n (i + 1) (set_filter f v (isEmpty f)) vKey
  end.
Definition insert (f : CBloomFilter) (vKey : list Z) : option CBloomFilter :=
  if isFull f then Some f
  else f ← insert_loop (Z.to_nat (nHashFuncs f)) 0 f vKey; Some (set_filter f (vData f) false).
Fixpoint contains_loop (n : nat) (i : Z) (f : CBloomFilter) (vKey : list Z) : option bool :=
  match n with
  | O => Some true
  | S n =>
      nIndex ← Hash f i vKey;
      b ← get_bit (vData f) nIndex;
      if negb b then Some false else contains_loop n (i + 1) f vKey
  end.
Definition contains (f : CBloomFilter) (vKey : list Z) : option bool :=
  if isFull f then Some true
  else if isEmpty f then Some false
  else contains_loop (Z.to_nat (nHashFuncs f)) 0 f vKey.
Definition insert_outpoint (f : CBloomFilter) (outpoint : COutPoint) : option CBloomFilter := insert f (Serialize_COutPoint outpoint).
Definition contains_outpoint (f : CBloomFilter) (outpoint : COutPoint) : option bool := contains f (Serialize_COutPoint outpoint).
Definition clear (f : CBloomFilter) : CBloomFilter := mkBloom (replicate (length (vData f)) 0) false true (nHashFuncs f) (nTweak f) (nFlags f).
Definition reset (f : CBloomFilter) (nNewTweak : Z) : CBloomFilter := let f := clear f in mkBloom (vData f) (isFull f) (isEmpty f) (nHashFuncs f) nNewTweak (nFlags f).
Definition IsWithinSizeConstraints (f : CBloomFilter) : bool := (Script.size (vData f) <=? MAX_BLOOM_FILTER_SIZE) && (nHashFuncs f <=? MAX_HASH_FUNCS).
Definition UpdateEmptyFull (f : CBloomFilter) : CBloomFilter :=
  mkBloom (vData f) (forallb (λ x, x =? 0xff) (vData f)) (forallb (λ x, x =? 0) (vData f)) (nHashFuncs f) (nTweak f) (nFlags f).

(** The loop on the elements of a script: whether the filter contains one. *)
Fixpoint find_element (fuel : nat) (f : CBloomFilter) (pc : list Z) : option bool :=
  match fuel, pc with
  | O, _ | _, [] => Some false
  | S fuel', _ =>
      match Script.GetOp pc with
      | None => Some false
      | Some (_, data, pc) =>
          b ← (if negb (Script.size data =? 0) then contains f data else Some false);
          if (b : bool) then Some true else find_element fuel' f pc
      end
  end.
Definition has_element (f : CBloomFilter) (script : list Z) : option bool := find_element (length script) f script.
(** What is added for an output that matched. *)
Definition add_output (f : CBloomFilter) (outpoint : COutPoint) (script : list Z) : option CBloomFilter :=
  if Z.land (nFlags f) BLOOM_UPDATE_MASK =? BLOOM_UPDATE_ALL then insert_outpoint f outpoint
  else if Z.land (nFlags f) BLOOM_UPDATE_MASK =? BLOOM_UPDATE_P2PUBKEY_ONLY then
    '(ok, type, _) ← Solver script TX_NONSTANDARD;
    if ok && (bool_decide (type = TX_PUBKEY) || bool_decide (type = TX_MULTISIG)) then insert_outpoint f outpoint else Some f
  else Some f.
Fixpoint match_outputs (f : CBloomFilter) (hash : list Z) (i : Z) (vout : list CTxOut) (fFound : bool) : option (CBloomFilter * bool) :=
  match vout with
  | [] => Some (f, fFound)
  | txout :: vout =>
      b ← has_element f (scriptPubKey txout);
      if (b : bool) then f ← add_output f (mkOutPoint hash i) (scriptPubKey txout); match_outputs f hash (i + 1) vout true
      else match_outputs f hash (i + 1) vout fFound
  end.
Fixpoint match_inputs (f : CBloomFilter) (vin : list CTxIn) : option bool :=
  match vin with
  | [] => Some false
  | txin :: vin =>
      b ← contains_outpoint f (prevout txin);
      if (b : bool) then Some true
      else b ← has_element f (scriptSig txin); if (b : bool) then Some true else match_inputs f vin
  end.
Section relevant.
Context `{Crypto}.
Definition IsRelevantAndUpdate (f : CBloomFilter) (tx : CMutableTransaction) : option (CBloomFilter * bool) :=
  if isFull f then Some (f, true)
  else if isEmpty f then Some (f, false)
  else
    hash ← GetHash Hash256 tx;
    fFound ← contains f hash;
    '(f, fFound) ← match_outputs f hash 0 (vout tx) fFound;
    if (fFound : bool) then Some (f, true) else b ← match_inputs f (vin tx); Some (f, b).

(** [CMerkleBlock(block, filter)]: the masks, the matched transactions and all identifiers, with the filter as it is updated. *)
Fixpoint match_transactions (f : CBloomFilter) (i : Z) (txs : list CMutableTransaction) : option (CBloomFilter * list bool * list (Z * uint256) * list uint256) :=
  match txs with
  | [] => Some (f, [], [], [])
  | tx :: txs =>
      hash ← GetHash Hash256 tx;
      '(f, b) ← IsRelevantAndUpdate f tx;
      '(f, vMatch, matched, vHashes) ← match_transactions f (i + 1) txs;
      Some (f, (b : bool) :: vMatch, (if b then [(i, hash)] else []) ++ matched, hash :: vHashes)
  end.
Definition CMerkleBlock_filter (block : CBlock) (filter : CBloomFilter) : option (CBloomFilter * CMerkleBlock) :=
  '(filter, vMatch, matched, vHashes) ← match_transactions filter 0 (vtx block);
  txn ← CPartialMerkleTree_of vHashes vMatch;
  Some (filter, mkMerkleBlock (GetBlockHeader block) txn matched).
End relevant.

(** ** The rolling filter *)
Record CRollingBloomFilter := mkRolling {
  nEntriesPerGeneration : Z; nEntriesThisGeneration : Z; nGeneration : Z; data : list Z; r_nTweak : Z; r_nHashFuncs : Z }.
(** [rand] is the random tweak. *)
Definition rolling_reset (f : CRollingBloomFilter) (rand : Z) : CRollingBloomFilter :=
  mkRolling (nEntriesPerGeneration f) 0 1 (map (λ _, 0) (data f)) rand (r_nHashFuncs f).
(** [funcs] is [log(fpRate) / log(0.5)], rounded, and [nFilterBits] the size in bits. *)
Definition CRollingBloomFilter_of (nElements funcs nFilterBits rand : Z) : CRollingBloomFilter :=
  rolling_reset (mkRolling (u32 (nElements + 1) / 2) 0 0 (replicate (Z.to_nat (u32 (Z.shiftl (u32 (nFilterBits + 63) / 64) 1))) 0) 0 (Z.max 1 (Z.min funcs 50))) rand.
Definition RollingBloomHash (nHashNum nTweak : Z) (vDataToHash : list Z) : Z := MurmurHash3 (u32 (nHashNum * 0xFBA4C795 + nTweak)) vDataToHash.
(** The loop that wipes the entries with the generation of the masks. *)
Fixpoint wipe_generation (nGenerationMask1 nGenerationMask2 : Z) (data : list Z) : option (list Z) :=
  match data with
  | [] => Some []
  | [_] => None
  | p1 :: p2 :: data =>
      let mask := Z.lor (Z.lxor p1 nGenerationMask1) (Z.lxor p2 nGenerationMask2) in
      data ← wipe_generation nGenerationMask1 nGenerationMask2 data;
      Some (Z.land p1 mask :: Z.land p2 mask :: data)
  end.
Definition next_generation (f : CRollingBloomFilter) : option CRollingBloomFilter :=
  if nEntriesThisGeneration f =? nEntriesPerGeneration f then
    let g := nGeneration f + 1 in
    let g := if g =? 4 then 1 else g in
    data ← wipe_generation (u64 (- Z.land g 1)) (u64 (- Z.shiftr g 1)) (data f);
    Some (mkRolling (nEntriesPerGeneration f) 0 g data (r_nTweak f) (r_nHashFuncs f))
  else Some f.
Definition put_bit (data : list Z) (i : Z) (bit x : Z) : option (list Z) :=
  w ← data !! Z.to_nat i;
  Some (<[Z.to_nat i := u64 (Z.lor (Z.land w (u64 (Z.lnot (Z.shiftl 1 bit)))) (Z.shiftl x bit))]> data).
Definition put_cell (data : list Z) (h g : Z) : option (list Z) :=
  if Script.size data =? 0 then None
  else
    let bit := Z.land h 0x3F in
    let pos := Z.shiftr h 6 mod Script.size data in
    data ← put_bit data (Z.land pos (u32 (-2))) bit (Z.land g 1);
    put_bit data (Z.lor pos 1) bit (Z.shiftr g 1).
Fixpoint rolling_insert_loop (k : nat) (n : Z) (f : CRollingBloomFilter) (vKey : list Z) : option CRollingBloomFilter :=
  match k with
  | O => Some f
  | S k =>
      data ← put_cell (data f) (RollingBloomHash n (r_nTweak f) vKey) (nGeneration f);
      rolling_insert_loop k (n + 1) (mkRolling (nEntriesPerGeneration f) (nEntriesThisGeneration f) (nGeneration f) data (r_nTweak f) (r_nHashFuncs f)) vKey
  end.
Definition rolling_insert (f : CRollingBloomFilter) (vKey : list Z) : option CRollingBloomFilter :=
  f ← next_generation f;
  let f := mkRolling (nEntriesPerGeneration f) (nEntriesThisGeneration f + 1) (nGeneration f) (data f) (r_nTweak f) (r_nHashFuncs f) in
  rolling_insert_loop (Z.to_nat (r_nHashFuncs f)) 0 f vKey.
Definition get_cell (data : list Z) (h : Z) : option bool :=
  if Script.size data =? 0 then None
  else
    let bit := Z.land h 0x3F in
    let pos := Z.shiftr h 6 mod Script.size data in
    a ← data !! Z.to_nat (Z.land pos (u32 (-2)));
    b ← data !! Z.to_nat (Z.lor pos 1);
    Some (negb (Z.land (Z.shiftr (Z.lor a b) bit) 1 =? 0)).
Fixpoint rolling_contains_loop (k : nat) (n : Z) (f : CRollingBloomFilter) (vKey : list Z) : option bool :=
  match k with
  | O => Some true
  | S k =>
      b ← get_cell (data f) (RollingBloomHash n (r_nTweak f) vKey);
      if negb b then Some false else rolling_contains_loop k (n + 1) f vKey
  end.
Definition rolling_contains (f : CRollingBloomFilter) (vKey : list Z) : option bool := rolling_contains_loop (Z.to_nat (r_nHashFuncs f)) 0 f vKey.

(** ** The filter of a peer, as the messages change it *)
Section peer.
Context `{Crypto}.
Import Serialize.
Definition Unserialize_filter (f : CBloomFilter) : Reader CBloomFilter :=
  v ← Unserialize_bytes; h ← ser_readdata32; t ← ser_readdata32; g ← ser_readdata8; mret (mkBloom v (isFull f) (isEmpty f) h t g).
(** [pfilter], [fRelayTxes] and the misbehaviour of the peer; a node starts with the default filter. *)
Record peer := mkPeer { pfilter : option CBloomFilter; fRelayTxes : bool; nMisbehavior : Z }.
Definition peer_init (relay : bool) : peer := mkPeer (Some CBloomFilter_default) relay 0.
Definition Misbehaving (p : peer) (howmuch : Z) : peer := mkPeer (pfilter p) (fRelayTxes p) (nMisbehavior p + howmuch).
(** The messages of the peer, and what the node does with the filter: it announces a transaction or sends a filtered block. *)
Inductive message := FILTERLOAD (vRecv : list Z) | FILTERADD (vRecv : list Z) | FILTERCLEAR | announce (tx : CMutableTransaction) | filtered (block : CBlock).
(** An exception of the stream is caught by the caller and changes nothing. *)
Definition handle (p : peer) (m : message) : option peer :=
  match m with
  | FILTERLOAD vRecv =>
      match Unserialize_filter CBloomFilter_default vRecv with
      | inl _ => Some p
      | inr (filter, _) =>
          if negb (IsWithinSizeConstraints filter) then Some (Misbehaving p 100)
          else Some (mkPeer (Some (UpdateEmptyFull filter)) true (nMisbehavior p))
      end
  | FILTERADD vRecv =>
      match Unserialize_bytes vRecv with
      | inl _ => Some p
      | inr (vData, _) =>
          if Script.MAX_SCRIPT_ELEMENT_SIZE <? Script.size vData then Some (Misbehaving p 100)
          else match pfilter p with
               | Some f => f ← insert f vData; Some (mkPeer (Some f) (fRelayTxes p) (nMisbehavior p))
               | None => Some (Misbehaving p 100)
               end
      end
  | FILTERCLEAR => Some (mkPeer (Some CBloomFilter_default) true (nMisbehavior p))
  | announce tx =>
      match pfilter p with
      | Some f => '(f, _) ← IsRelevantAndUpdate f tx; Some (mkPeer (Some f) (fRelayTxes p) (nMisbehavior p))
      | None => Some p
      end
  | filtered block =>
      match pfilter p with
      | Some f => '(f, _) ← CMerkleBlock_filter block f; Some (mkPeer (Some f) (fRelayTxes p) (nMisbehavior p))
      | None => Some p
      end
  end.
Fixpoint handle_all (p : peer) (l : list message) : option peer :=
  match l with
  | [] => Some p
  | m :: l => p ← handle p m; handle_all p l
  end.
End peer.

(** ** The bits of a filter *)
Definition bit (v : list Z) (j : Z) : bool := Z.testbit v.[Z.to_nat (j / 8)] (j mod 8).
Lemma index_split j : 0 <= j → Z.shiftr j 3 = j / 8 ∧ Z.land 7 j = j mod 8.
Proof.
  intros Hj. split; [by rewrite Z.shiftr_div_pow2 by done|]. rewrite Z.land_comm. change 7 with (Z.ones 3). by rewrite Z.land_ones by done.
Qed.
Lemma index_range (v : list Z) j : 0 <= j < Script.size v * 8 → (Z.to_nat (j / 8) < length v)%nat.
Proof. unfold Script.size. intros Hj. assert (0 <= j / 8) by (apply Z.div_pos; lia). apply Nat2Z.inj_lt. rewrite Z2Nat.id by done. apply Z.div_lt_upper_bound; lia. Qed.
Lemma get_bit_spec v j : 0 <= j < Script.size v * 8 → get_bit v j = Some (bit v j).
Proof.
  intros Hj. unfold get_bit, bit. destruct (index_split j ltac:(lia)) as [-> ->]. pose proof (index_range v j Hj) as Hi.
  unfold get. destruct (lookup_lt_is_Some_2 v _ Hi) as [x Ex]. rewrite Ex. cbn [mbind option_bind].
  rewrite land_bit_eqb by (apply Z.mod_pos_bound; lia). by rewrite negb_involutive.
Qed.
Lemma set_bit_spec v j : 0 <= j < Script.size v * 8 →
  ∃ v', set_bit v j = Some v' ∧ length v' = length v ∧ ∀ k, 0 <= k < Script.size v * 8 → bit v' k = (k =? j) || bit v k.
Proof.
  intros Hj. unfold set_bit. destruct (index_split j ltac:(lia)) as [-> ->]. pose proof (index_range v j Hj) as Hi.
  destruct (lookup_lt_is_Some_2 v _ Hi) as [x Ex]. rewrite Ex. cbn [mbind option_bind]. eexists. split; [reflexivity|]. split; [by rewrite length_insert|].
  intros k Hk. unfold bit, get. pose proof (Z.mod_pos_bound k 8 ltac:(lia)). pose proof (Z.mod_pos_bound j 8 ltac:(lia)).
  pose proof (Z.div_mod k 8 ltac:(lia)). pose proof (Z.div_mod j 8 ltac:(lia)).
  assert (0 <= k / 8) by (apply Z.div_pos; lia). assert (0 <= j / 8) by (apply Z.div_pos; lia).
  destruct (Z.eq_dec (k / 8) (j / 8)) as [E|E].
  - rewrite E, list_lookup_insert_eq by done. rewrite Ex. change (default 0 (Some ?y)) with y. unfold u8. rewrite Z.mod_pow2_bits_low by lia.
    rewrite Z.lor_spec, Z.shiftl_1_l, Z.pow2_bits_eqb by lia. rewrite orb_comm. f_equal.
    destruct (Z.eqb_spec (j mod 8) (k mod 8)), (Z.eqb_spec k j); lia || done.
  - rewrite list_lookup_insert_ne by lia. by rewrite (proj2 (Z.eqb_neq k j)) by (intros ->; done).
Qed.

(** The position of a key for one of the functions. *)
Definition position (f : CBloomFilter) (i : Z) (vKey : list Z) : Z :=
  MurmurHash3 (u32 (i * 0xFBA4C795 + nTweak f)) vKey mod (Script.size (vData f) * 8).
(** Filters with the same size and functions. *)
Definition same (f f' : CBloomFilter) : Prop :=
  length (vData f') = length (vData f) ∧ nHashFuncs f' = nHashFuncs f ∧ nTweak f' = nTweak f ∧ nFlags f' = nFlags f ∧ isFull f' = isFull f.
Lemma same_filter_refl f : same f f.
Proof. done. Qed.
Lemma same_filter_trans f f' f'' : same f f' → same f' f'' → same f f''.
Proof. unfold same. naive_solver congruence. Qed.
Lemma same_position f f' i k : same f f' → position f' i k = position f i k.
Proof. intros (El & _ & Et & _ & _). unfold position, Script.size. by rewrite El, Et. Qed.
Lemma same_ne f f' : same f f' → vData f ≠ [] → vData f' ≠ [].
Proof. intros (El & _) Hf E. rewrite E in El. by destruct (vData f). Qed.
Lemma size_pos (v : list Z) : v ≠ [] → 0 < Script.size v.
Proof. destruct v; [done|]. rewrite Script.size_cons. pose proof (Script.size_ge0 v). lia. Qed.
Lemma position_range f i k : vData f ≠ [] → 0 <= position f i k < Script.size (vData f) * 8.
Proof. intros Hf%size_pos. apply Z.mod_pos_bound. lia. Qed.
Lemma Hash_spec f i k : vData f ≠ [] → Hash f i k = Some (position f i k).
Proof. intros Hf%size_pos. unfold Hash. by rewrite (proj2 (Z.eqb_neq _ _)) by lia. Qed.

Notation in_range f j := (0 <= j < Script.size (vData f) * 8).
Lemma insert_loop_spec n : ∀ i f k, vData f ≠ [] → ∃ f', insert_loop n i f k = Some f' ∧ same f f' ∧
  ∀ j, in_range f j → bit (vData f') j = true ↔ bit (vData f) j = true ∨ ∃ m, i <= m < i + Z.of_nat n ∧ j = position f m k.
Proof.
  induction n as [|n IH]; intros i f k Hf; cbn [insert_loop].
  { exists f. split_and!; [done..|]. intros j _. split; [by left|]. intros [?|(m & ? & _)]; [done|lia]. }
  rewrite Hash_spec by done. cbn [mbind option_bind]. destruct (set_bit_spec (vData f) (position f i k) (position_range f i k Hf)) as (v & -> & Hl & Hb). cbn [mbind option_bind].
  set (f1 := set_filter f v (isEmpty f)). assert (same f f1) as S1 by (unfold same; cbn; auto). destruct (IH (i + 1) f1 k (same_ne _ _ S1 Hf)) as (f' & -> & S' & Hb').
  exists f'. split; [done|]. split; [by eapply same_filter_trans|]. intros j Hj. assert (in_range f1 j) as Hj1 by (unfold f1, Script.size; cbn [set_filter vData]; by rewrite Hl).
  rewrite Hb' by done. cbn [f1 set_filter vData]. rewrite Hb by done. rewrite orb_true_iff, Z.eqb_eq. setoid_rewrite (same_position f f1); [|done].
  split.
  - intros [[->|?]|(m & ? & ->)]; [right; exists i; lia|by left|right; exists m; lia].
  - intros [?|(m & ? & ->)]; [by left; right|]. destruct (Z.eq_dec m i) as [->|]; [by left; left|]. right. exists m. lia.
Qed.
Lemma contains_loop_spec n : ∀ i f k, vData f ≠ [] → ∃ b, contains_loop n i f k = Some b ∧
  (b = true ↔ ∀ m, i <= m < i + Z.of_nat n → bit (vData f) (position f m k) = true).
Proof.
  induction n as [|n IH]; intros i f k Hf; cbn [contains_loop].
  { exists true. split; [done|]. split; [lia|done]. }
  rewrite Hash_spec by done. cbn [mbind option_bind]. rewrite get_bit_spec by (by apply position_range). cbn [mbind option_bind].
  destruct (bit (vData f) (position f i k)) eqn:Eb; cbn [negb].
  - destruct (IH (i + 1) f k Hf) as (b & -> & Hb). exists b. split; [done|]. rewrite Hb. split; [|intros Hm m ?; apply Hm; lia].
    intros Hm m ?. destruct (Z.eq_dec m i) as [->|]; [done|]. apply Hm. lia.
  - exists false. split; [done|]. split; [done|]. intros Hm. rewrite Hm in Eb by lia. done.
Qed.

(** A filter on which no operation divides by zero; and what it contains. *)
Definition safe (f : CBloomFilter) : Prop := isFull f = true ∨ vData f ≠ [].
Definition has (f : CBloomFilter) (vKey : list Z) : Prop := contains f vKey = Some true.
Lemma contains_total f k : safe f → ∃ b, contains f k = Some b.
Proof.
  unfold contains, safe. intros Hf. destruct (isFull f); [eauto|]. destruct (isEmpty f); [eauto|]. destruct Hf as [|Hf]; [done|].
  destruct (contains_loop_spec (Z.to_nat (nHashFuncs f)) 0 f k Hf) as (b & -> & _). eauto.
Qed.
Lemma has_spec f k : safe f → has f k ↔ isFull f = true ∨
  isFull f = false ∧ isEmpty f = false ∧ ∀ i, 0 <= i < nHashFuncs f → bit (vData f) (position f i k) = true.
Proof.
  unfold has, contains, safe. intros Hf. destruct (isFull f); [naive_solver|]. destruct (isEmpty f); [naive_solver|]. destruct Hf as [|Hf]; [done|].
  destruct (contains_loop_spec (Z.to_nat (nHashFuncs f)) 0 f k Hf) as (b & -> & Hb).
  assert (Some b = Some true ↔ b = true) as -> by naive_solver. rewrite Hb. split; [|intros [?|(_ & _ & Hi)]; [done|]; intros m ?; apply Hi; lia].
  intros Hi. right. split_and!; [done..|]. intros i ?. apply Hi. lia.
Qed.
(** An insertion sets the bits of the key and no others. *)
Lemma insert_spec f k : safe f → ∃ f', insert f k = Some f' ∧ same f f' ∧ (isFull f = true → f' = f) ∧ (isFull f = false → isEmpty f' = false ∧
  ∀ j, in_range f j → bit (vData f') j = true ↔ bit (vData f) j = true ∨ ∃ i, 0 <= i < nHashFuncs f ∧ j = position f i k).
Proof.
  unfold insert, safe. intros Hf. destruct (isFull f) eqn:Ef; [exists f; split_and!; done|]. destruct Hf as [|Hf]; [done|].
  destruct (insert_loop_spec (Z.to_nat (nHashFuncs f)) 0 f k Hf) as (f' & -> & Hs & Hb). cbn [mbind option_bind]. eexists. split; [reflexivity|]. split; [exact Hs|]. split; [done|].
  intros _. split; [done|]. intros j Hj. cbn [set_filter vData]. rewrite Hb by done. split; (intros [?|(m & ? & ->)]; [by left|right; exists m; split; [lia|done]]).
Qed.
Lemma same_safe f f' : same f f' → safe f → safe f'.
Proof. intros Hs [E|E]; [left; by destruct Hs as (_ & _ & _ & _ & ->)|right; by eapply same_ne]. Qed.
(** What a filter contains it still contains after an insertion, and the key as well. *)
Lemma insert_has f k : safe f → ∃ f', insert f k = Some f' ∧ same f f' ∧ has f' k ∧ ∀ x, has f x → has f' x.
Proof.
  intros Hf. destruct (insert_spec f k Hf) as (f' & E & Hs & Hfull & Hb). exists f'. split; [done|]. split; [done|]. pose proof (same_safe _ _ Hs Hf) as Hf'.
  setoid_rewrite (has_spec f' _ Hf'). setoid_rewrite (has_spec f _ Hf). destruct (isFull f) eqn:Ef; [rewrite Hfull by done; auto|].
  destruct Hf as [?|Hne]; [congruence|]. destruct (Hb eq_refl) as [He Hbits]. pose proof Hs as (_ & Eh & _ & _ & Ef'). rewrite Ef', Ef, Eh.
  split; [|intros x [?|(_ & _ & Hx)]; [done|]]; right; (split_and!; [done..|]); intros i Hi; rewrite (same_position f f') by done; rewrite Hbits by (by apply position_range).
  - right. eauto.
  - left. by apply Hx.
Qed.

(** ** Relevant transactions *)
(** The filter contains one of the data elements of the script. *)
Definition matches (f : CBloomFilter) (script : list Z) : Prop := ∃ d, d ∈ (Script.parse script).1.*2 ∧ d ≠ [] ∧ has f d.
Lemma find_element_spec f : safe f → ∀ pc n, (length pc <= n)%nat → ∃ b, find_element n f pc = Some b ∧ (b = true ↔ matches f pc).
Proof.
  intros Hf. unfold matches. induction pc as [pc IH] using Script.script_ind. intros n Hn. rewrite Script.parse_unfold. destruct pc as [|x pc].
  { exists false. split; [by destruct n|]. split; [done|]. intros (d & Hd & _). by apply elem_of_nil in Hd. }
  destruct n as [|n]; [cbn in Hn; lia|]. cbn [find_element]. destruct (Script.GetOp (x :: pc)) as [[[op d] r]|] eqn:E.
  2: { exists false. split; [done|]. split; [done|]. intros (d & Hd & _). by apply elem_of_nil in Hd. }
  pose proof (Script.GetOp_suffix _ _ _ _ E) as (? & _ & _ & Hlt). destruct (IH op d r eq_refl n ltac:(cbn in *; lia)) as (b & Eb & Hb).
  destruct (Script.parse r) as [l r']. cbn [fst snd fmap list_fmap] in Hb |- *. setoid_rewrite elem_of_cons.
  assert (∃ c, (if negb (Script.size d =? 0) then contains f d else Some false) = Some c ∧ (c = true ↔ d ≠ [] ∧ has f d)) as (c & -> & Hc).
  { destruct d as [|y d]; [exists false; split; [done|naive_solver]|]. pose proof (Script.size_ge0 d). rewrite Script.size_cons. rewrite (proj2 (Z.eqb_neq _ _)) by lia. cbn [negb].
    destruct (contains_total f (y :: d) Hf) as [c Ec]. exists c. split; [done|]. unfold has. rewrite Ec. split; [naive_solver|]. by intros [_ [= ->]]. }
  cbn [mbind option_bind]. destruct c.
  - exists true. split; [done|]. split; [|done]. intros _. exists d. naive_solver.
  - exists b. split; [done|]. rewrite Hb. split; [naive_solver|]. intros (y & [->|Hy] & Hne & Hh); [|eauto]. naive_solver.
Qed.
Lemma has_element_spec f s : safe f → ∃ b, has_element f s = Some b ∧ (b = true ↔ matches f s).
Proof. intros Hf. by apply find_element_spec. Qed.
(** The outputs that are added to the filter when they match. *)
Definition updates (f : CBloomFilter) (script : list Z) : Prop :=
  Z.land (nFlags f) BLOOM_UPDATE_MASK = BLOOM_UPDATE_ALL ∨
  Z.land (nFlags f) BLOOM_UPDATE_MASK = BLOOM_UPDATE_P2PUBKEY_ONLY ∧ ∃ sols, standard script TX_PUBKEY sols ∨ standard script TX_MULTISIG sols.
Definition grows (f f' : CBloomFilter) : Prop := same f f' ∧ ∀ x, has f x → has f' x.
Lemma grows_refl f : grows f f.
Proof. split; auto using same_filter_refl. Qed.
Lemma grows_trans f f' f'' : grows f f' → grows f' f'' → grows f f''.
Proof. intros [? ?] [? ?]. split; [by eapply same_filter_trans|auto]. Qed.
Lemma grows_matches f f' s : grows f f' → matches f s → matches f' s.
Proof. intros [_ Hg] (d & ? & ? & ?). exists d. auto. Qed.
Lemma grows_updates f f' s : grows f f' → updates f s ↔ updates f' s.
Proof. intros [(_ & _ & _ & E & _) _]. unfold updates. by rewrite E. Qed.
(** The script on which [Solver] throws has no data element. *)
Lemma add_output_spec f o s : safe f → matches f s → ∃ f', add_output f o s = Some f' ∧ grows f f' ∧ (updates f s → has f' (Serialize_COutPoint o)).
Proof.
  intros Hf Hm. destruct (insert_has f (Serialize_COutPoint o) Hf) as (f' & E & Hs & Hk & Hg). unfold add_output, insert_outpoint, updates.
  change BLOOM_UPDATE_ALL with 1. change BLOOM_UPDATE_P2PUBKEY_ONLY with 2. destruct (Z.eqb_spec (Z.land (nFlags f) BLOOM_UPDATE_MASK) 1) as [Ea|Na]; [exists f'; by split_and!|].
  destruct (Z.eqb_spec (Z.land (nFlags f) BLOOM_UPDATE_MASK) 2) as [Ep|Np]; [|exists f; split_and!; [done|apply grows_refl|naive_solver]].
  destruct (Solver s TX_NONSTANDARD) as [[[ok t] sols]|] eqn:Es.
  2: { apply Solver_throws in Es as ->. destruct Hm as (d & Hd & Hne & _). exfalso. assert ((Script.parse [Script.opcode_val Script.OP_ZEROCOINMINT]).1.*2 = [[]]) as Ep1 by (vm_compute; reflexivity). rewrite Ep1 in Hd. apply Hne. set_solver. }
  cbn [mbind option_bind]. destruct (ok && (bool_decide (t = TX_PUBKEY) || bool_decide (t = TX_MULTISIG))) eqn:Eb; [exists f'; by split_and!|].
  exists f. split_and!; [done|apply grows_refl|]. intros [?|(_ & sols' & Hst)]; [done|]. exfalso.
  destruct Hst as [Hst|Hst]; apply (Solver_complete _ TX_NONSTANDARD) in Hst; rewrite Es in Hst; injection Hst as -> -> ->; discriminate.
Qed.
Lemma match_outputs_spec hash l : ∀ f i b, safe f → ∃ f' b', match_outputs f hash i l b = Some (f', b') ∧ grows f f' ∧
  (b = true ∨ (∃ o, o ∈ l ∧ matches f (scriptPubKey o)) → b' = true) ∧ (b' = true → b = true ∨ ∃ o, o ∈ l ∧ matches f' (scriptPubKey o)) ∧
  ∀ n o, l !! n = Some o → matches f (scriptPubKey o) → updates f (scriptPubKey o) → has f' (Serialize_COutPoint (mkOutPoint hash (i + Z.of_nat n))).
Proof.
  induction l as [|o l IH]; intros f i b Hf; cbn [match_outputs].
  { exists f, b. split_and!; [done|apply grows_refl| |by left|done]. intros [?|(o & Ho & _)]; [done|by apply elem_of_nil in Ho]. }
  destruct (has_element_spec f (scriptPubKey o) Hf) as (c & -> & Hc). cbn [mbind option_bind].
  assert (∃ f1, (if c then add_output f (mkOutPoint hash i) (scriptPubKey o) else Some f) = Some f1 ∧ grows f f1 ∧
    (matches f (scriptPubKey o) → updates f (scriptPubKey o) → has f1 (Serialize_COutPoint (mkOutPoint hash i)))) as (f1 & E1 & G1 & H1).
  { destruct c; [|exists f; split_and!; [done|apply grows_refl|naive_solver]].
    destruct (add_output_spec f (mkOutPoint hash i) (scriptPubKey o) Hf ltac:(by apply Hc)) as (f1 & E & G & Hu). exists f1. auto. }
  assert (safe f1) as Hf1 by (eapply same_safe; [apply G1|done]). destruct (IH f1 (i + 1) (c || b) Hf1) as (f' & b' & E' & G' & Hb & Hb' & Hu).
  exists f', b'. split; [|split; [by eapply grows_trans|split_and!]].
  - destruct c; [rewrite E1|injection E1 as ->]; done.
  - intros Hor. apply Hb. destruct c; [by left|]. destruct Hor as [?|(o' & [->|Ho]%elem_of_cons & Hm)]; [by left| |right; eauto using grows_matches]. naive_solver.
  - intros Ht. apply Hb' in Ht as [Hcb|(o' & Ho & Hm)]; [|right; exists o'; rewrite elem_of_cons; auto]. destruct c; [|by left]. right. exists o. rewrite elem_of_cons. split; [by left|].
    apply (grows_matches f f'); [by eapply grows_trans|]. by apply Hc.
  - intros [|n] o' Hn Hm Hup; cbn in Hn.
    + injection Hn as <-. rewrite Z.add_0_r. apply G'. auto.
    + replace (i + Z.of_nat (S n)) with (i + 1 + Z.of_nat n) by lia. eapply Hu; [done|by eapply grows_matches|by apply (grows_updates f f1)].
Qed.
Definition matches_input (f : CBloomFilter) (i : CTxIn) : Prop := has f (Serialize_COutPoint (prevout i)) ∨ matches f (scriptSig i).
Lemma match_inputs_spec f l : safe f → ∃ b, match_inputs f l = Some b ∧ (b = true ↔ ∃ i, i ∈ l ∧ matches_input f i).
Proof.
  intros Hf. unfold matches_input. induction l as [|x l IH]; cbn [match_inputs]; [exists false; split; [done|]; setoid_rewrite elem_of_nil; naive_solver|].
  setoid_rewrite elem_of_cons. destruct IH as (b & -> & Hb). unfold contains_outpoint, has in *. destruct (contains_total f (Serialize_COutPoint (prevout x)) Hf) as [c Ec].
  rewrite Ec. cbn [mbind option_bind]. destruct c; [exists true; split; [done|]; naive_solver|].
  destruct (has_element_spec f (scriptSig x) Hf) as (e & -> & He). cbn [mbind option_bind]. destruct e; [exists true; split; [done|]; naive_solver|].
  exists b. split; [done|]. rewrite Hb. split; [naive_solver|]. intros (i & [->|Hi] & Hm); [|eauto]. naive_solver.
Qed.
Section filtering.
Context `{Crypto}.
(** The transaction concerns the owner of the filter. *)
Definition concerns (f : CBloomFilter) (tx : CMutableTransaction) (hash : list Z) : Prop :=
  has f hash ∨ (∃ o, o ∈ vout tx ∧ matches f (scriptPubKey o)) ∨ (∃ i, i ∈ vin tx ∧ matches_input f i).
Lemma grows_concerns f f' tx hash : grows f f' → concerns f tx hash → concerns f' tx hash.
Proof using Type.
  intros Hg [?|[(o & ? & ?)|(i & ? & [?|?])]]; [left; by apply Hg|right; left; eauto using grows_matches|right; right; exists i; split; [done|left; by apply Hg]|].
  right; right. exists i. split; [done|]. right. by eapply grows_matches.
Qed.
Lemma IsRelevant_spec f tx hash : safe f → GetHash Hash256 tx = Some hash → ∃ f' b, IsRelevantAndUpdate f tx = Some (f', b) ∧ grows f f' ∧
  (concerns f tx hash → b = true) ∧ (b = true → concerns f' tx hash) ∧
  ∀ n o, vout tx !! n = Some o → matches f (scriptPubKey o) → updates f (scriptPubKey o) → has f' (Serialize_COutPoint (mkOutPoint hash (Z.of_nat n))).
Proof using Type.
  intros Hf Hh. unfold IsRelevantAndUpdate. destruct (isFull f) eqn:Ef.
  { assert (∀ k, has f k) as Ha by (intros k; unfold has, contains; by rewrite Ef). exists f, true. split_and!; [done|apply grows_refl|done|intros _; by left|auto]. }
  destruct (isEmpty f) eqn:Ee.
  { assert (∀ k, ¬ has f k) as Ha by (intros k; unfold has, contains; by rewrite Ef, Ee). exists f, false. unfold concerns, matches_input, matches.
    split_and!; [done|apply grows_refl|naive_solver|done|]. intros n o _ (d & _ & _ & Hd) _. by apply Ha in Hd. }
  rewrite Hh. cbn [mbind option_bind]. destruct (contains_total f hash Hf) as [c Ec]. rewrite Ec. cbn [mbind option_bind].
  destruct (match_outputs_spec hash (vout tx) f 0 c Hf) as (f1 & b1 & -> & G & Hb & Hb' & Hu). cbn [mbind option_bind].
  assert (safe f1) as Hf1 by (eapply same_safe; [apply G|done]). destruct b1.
  - exists f1, true. split_and!; [done|done|done| |exact Hu]. intros _. destruct (Hb' eq_refl) as [->|?]; [left; by apply G|right; by left].
  - destruct (match_inputs_spec f1 (vin tx) Hf1) as (b & -> & Hi). exists f1, b. cbn [mbind option_bind]. split_and!; [done|done| | |exact Hu].
    + intros Hc. apply Hi. destruct Hc as [Hx|[Hx|(i & ? & [Hx|Hx])]].
      * unfold has in Hx. rewrite Ec in Hx. injection Hx as ->. discriminate (Hb (or_introl eq_refl)).
      * discriminate (Hb (or_intror Hx)).
      * exists i. split; [done|]. left. by apply G.
      * exists i. split; [done|]. right. by eapply grows_matches.
    + intros ->. right; right. by apply Hi.
Qed.
(** The outpoints of the outputs that match are in the filter afterwards, if its flags ask for it. *)
Definition remembers (f f' : CBloomFilter) (tx : CMutableTransaction) : Prop := ∀ hash n o, GetHash Hash256 tx = Some hash → vout tx !! n = Some o → matches f (scriptPubKey o) → updates f (scriptPubKey o) →
  has f' (Serialize_COutPoint (mkOutPoint hash (Z.of_nat n))).
Lemma match_transactions_spec txs : ∀ f i hashes, safe f → mapM (GetHash Hash256) txs = Some hashes → ∃ f' l,
  match_transactions f i txs = Some (f', l.*2, map (λ x, (x.2, x.1)) (marks i l), l.*1) ∧ grows f f' ∧ l.*1 = hashes ∧
  (∀ n tx h, txs !! n = Some tx → hashes !! n = Some h → concerns f tx h → (h, i + Z.of_nat n) ∈ marks i l) ∧ ∀ tx, tx ∈ txs → remembers f f' tx.
Proof using Type.
  induction txs as [|tx txs IH]; intros f i hashes Hf Eh; cbn [match_transactions].
  { injection Eh as <-. exists f, []. split_and!; [done|apply grows_refl|done|done|by intros tx []%not_elem_of_nil]. }
  apply mapM_Some in Eh. inversion Eh as [|tx' h txs' hs Eh1 Eh2]; subst. apply mapM_Some in Eh2. rewrite Eh1. cbn [mbind option_bind].
  destruct (IsRelevant_spec f tx h Hf Eh1) as (f1 & b & -> & G1 & Hb & _ & Hu1). cbn [mbind option_bind].
  assert (safe f1) as Hf1 by (eapply same_safe; [apply G1|done]). destruct (IH f1 (i + 1) hs Hf1 Eh2) as (f' & l & -> & G & El & Hc & Hu). cbn [mbind option_bind].
  exists f', ((h, b) :: l). split; [|split; [by eapply grows_trans|split; [|split]]].
  - cbn [marks]. rewrite map_app. by destruct b.
  - by rewrite <- El.
  - cbn [marks]. intros [|n] tx' h' Ht Hh Hcon; cbn in Ht, Hh.
    + injection Ht as <-. injection Hh as <-. rewrite Hb by done. rewrite Z.add_0_r. apply elem_of_app. left. by apply elem_of_cons; left.
    + apply elem_of_app. right. replace (i + Z.of_nat (S n)) with (i + 1 + Z.of_nat n) by lia. eapply Hc; [done|done|by eapply grows_concerns].
  - intros tx' [-> |Hin]%elem_of_cons hash n o Eh0 Ho Hm Hup.
    + assert (hash = h) as -> by congruence. by eapply G, Hu1.
    + eapply Hu; [done|done|done|by eapply grows_matches|by apply (grows_updates f f1)].
Qed.
End filtering.

(** ** What the filters promise *)
Fixpoint insert_all (f : CBloomFilter) (keys : list (list Z)) : option CBloomFilter :=
  match keys with
  | [] => Some f
  | k :: keys => f ← insert f k; insert_all f keys
  end.
Definition hit (f : CBloomFilter) (keys : list (list Z)) (j : Z) : Prop := ∃ k, k ∈ keys ∧ ∃ i, 0 <= i < nHashFuncs f ∧ j = position f i k.
Lemma insert_all_spec keys : ∀ f, isFull f = false → vData f ≠ [] → ∃ f', insert_all f keys = Some f' ∧ same f f' ∧ (isEmpty f = false ∨ keys ≠ [] → isEmpty f' = false) ∧
  ∀ j, in_range f j → bit (vData f') j = true ↔ bit (vData f) j = true ∨ hit f keys j.
Proof.
  induction keys as [|k keys IH]; intros f Ef Hf; cbn [insert_all].
  { exists f. split_and!; [done..|naive_solver|]. intros j _. unfold hit. setoid_rewrite elem_of_nil. naive_solver. }
  destruct (insert_spec f k ltac:(by right)) as (f1 & -> & S1 & _ & Hb). destruct (Hb Ef) as [He Hb1]. cbn [mbind option_bind].
  assert (isFull f1 = false) as Ef1 by (destruct S1 as (_ & _ & _ & _ & ->); done). destruct (IH f1 Ef1 (same_ne _ _ S1 Hf)) as (f' & -> & S' & He' & Hb'). exists f'.
  split; [done|]. split; [by eapply same_filter_trans|]. split; [auto|]. intros j Hj. assert (in_range f1 j) as Hj1 by (unfold Script.size; destruct S1 as [-> _]; done).
  rewrite Hb', Hb1 by done. unfold hit. setoid_rewrite elem_of_cons. setoid_rewrite (same_position f f1 _ _ S1). destruct S1 as (_ & -> & _). split.
  - intros [[?|(i & ? & ->)]|(y & ? & i & ? & ->)]; [by left|right; exists k; eauto|right; exists y; eauto].
  - intros [?|(y & [->|?] & i & ? & ->)]; [by left; left|left; right; eauto|right; exists y; eauto].
Qed.
Lemma bit_zero n j : bit (replicate n 0) j = false.
Proof. unfold bit, get. destruct (replicate n 0 !! _) as [x|] eqn:E; [apply lookup_replicate in E as [-> _]|]; apply Z.bits_0. Qed.
(** A client filter is a set with collisions of hashes and nothing else.  From a cleared filter insert any keys: the filter then
    contains a key exactly if each of its positions is a position of one of the inserted keys, so that it contains every inserted key;
    and no bit is read or written out of range. *)
Theorem bloom_exact f keys k : vData f ≠ [] → keys ≠ [] → ∃ f' b, insert_all (clear f) keys = Some f' ∧ contains f' k = Some b ∧
  (b = true ↔ ∀ i, 0 <= i < nHashFuncs f → hit f keys (position f i k)) ∧ (k ∈ keys → b = true).
Proof.
  intros Hf Hk. assert (vData (clear f) ≠ []) as Hc by (cbn; by destruct (vData f)). destruct (insert_all_spec keys (clear f) eq_refl Hc) as (f' & E & S' & He & Hb).
  assert (safe f') as Hs by (eapply same_safe; [done|by right]). destruct (contains_total f' k Hs) as [b Eb]. exists f', b.
  assert (∀ i x, position (clear f) i x = position f i x) as Hp by (intros; unfold position, Script.size; cbn; by rewrite length_replicate).
  assert (b = true ↔ ∀ i, 0 <= i < nHashFuncs f → hit f keys (position f i k)) as Hiff.
  { transitivity (has f' k); [unfold has; rewrite Eb; naive_solver|]. rewrite has_spec by done. pose proof S' as (_ & Eh & _ & _ & Ef). rewrite Ef, Eh, He by auto. cbn [clear isFull nHashFuncs].
    split.
    - intros [?|(_ & _ & Hi)]; [done|]. intros i Hi'. specialize (Hi i Hi'). rewrite (same_position _ _ _ _ S'), Hp in Hi. apply Hb in Hi as [Hi|(y & Hy & j & Hj & Ey)].
      + cbn in Hi. by rewrite bit_zero in Hi.
      + exists y. split; [done|]. exists j. by rewrite Hp in Ey.
      + rewrite <- Hp. by apply position_range.
    - intros Hi. right. split_and!; [done..|]. intros i Hi'. rewrite (same_position _ _ _ _ S'), Hp. destruct (Hi i Hi') as (y & Hy & j & Hj & Ey). apply Hb.
      + rewrite <- Hp. by apply position_range.
      + right. exists y. split; [done|]. exists j. by rewrite Hp. }
  split_and!; [done..|exact Hiff|]. intros Hin. apply Hiff. intros i Hi. exists k. eauto.
Qed.
Lemma bloom_exact_witness : ∃ f', insert_all (clear (CBloomFilter_of 64 3 5 0)) [[1; 2]] = Some f' ∧ contains f' [1; 2] = Some true.
Proof.
  destruct (bloom_exact (CBloomFilter_of 64 3 5 0) [[1; 2]] [1; 2]) as (f' & b & E & Eb & _ & Hb); [discriminate|discriminate|]. exists f'. split; [exact E|].
  rewrite Eb, Hb by (apply elem_of_cons; left; reflexivity). reflexivity.
Defined.

(** ** The filter of a peer is safe and remembers *)
Section peers.
Context `{Crypto}.
Import Serialize.
(** The transactions and blocks that a node has can be serialized. *)
Definition sendable (m : message) : Prop :=
  match m with
  | announce tx => is_Some (GetHash Hash256 tx)
  | filtered block => vtx block ≠ [] ∧ Z.of_nat (length (vtx block)) <= 2 ^ 30 ∧ is_Some (mapM (GetHash Hash256) (vtx block))
  | _ => True
  end.
Definition is_load (m : message) : bool := match m with FILTERLOAD _ => true | _ => false end.
Definition filter_ok (f : CBloomFilter) : Prop := safe f ∧ IsWithinSizeConstraints f = true.
Lemma grows_ok f f' : grows f f' → filter_ok f → filter_ok f'.
Proof using Type.
  intros [Hs _] [Hf Hc]. split; [by eapply same_safe|]. destruct Hs as (El & Eh & _). unfold IsWithinSizeConstraints, Script.size in *. by rewrite El, Eh.
Qed.
Lemma default_has k : has CBloomFilter_default k.
Proof using Type. done. Qed.
Lemma update_ok f : IsWithinSizeConstraints f = true → filter_ok (UpdateEmptyFull f).
Proof using Type. intros Hc. split; [|done]. unfold safe. cbn. destruct (vData f); [by left|by right]. Qed.
Lemma CMerkleBlock_filter_spec block f hashes : safe f → vtx block ≠ [] → Z.of_nat (length (vtx block)) <= 2 ^ 30 → mapM (GetHash Hash256) (vtx block) = Some hashes →
  ∃ f' l t, CMerkleBlock_filter block f = Some (f', mkMerkleBlock (GetBlockHeader block) t (map (λ x, (x.2, x.1)) (marks 0 l))) ∧ grows f f' ∧ l.*1 = hashes ∧
    CPartialMerkleTree_of l.*1 l.*2 = Some t ∧ (∀ n tx h, vtx block !! n = Some tx → hashes !! n = Some h → concerns f tx h → (h, Z.of_nat n) ∈ marks 0 l) ∧ ∀ tx, tx ∈ vtx block → remembers f f' tx.
Proof using Type.
  intros Hf Hne Hn Eh. unfold CMerkleBlock_filter. destruct (match_transactions_spec (vtx block) f 0 hashes Hf Eh) as (f' & l & -> & G & El & Hc & Hu). cbn [mbind option_bind].
  assert (length l = length (vtx block)) as Hl by (apply length_mapM in Eh; rewrite <- El, length_fmap in Eh; done).
  assert (l ≠ []) as Hl0 by (intros ->; by destruct (vtx block)). assert (Z.of_nat (length l) <= 2 ^ 30) as Hl1 by (by rewrite Hl).
  pose proof (partial_built l Hl0 Hl1) as Et. rewrite Et. cbn [mbind option_bind]. eexists f', l, _. split_and!; [reflexivity|done|done|exact Et|exact Hc|exact Hu].
Qed.
(** A message keeps the filter safe; unless it is replaced it grows. *)
Lemma handle_spec p f m : pfilter p = Some f → filter_ok f → sendable m → ∃ p' f', handle p m = Some p' ∧ pfilter p' = Some f' ∧ filter_ok f' ∧
  (is_load m = false → ∀ k, has f k → has f' k) ∧ match m with FILTERADD vRecv => ∀ k rest, Unserialize_bytes vRecv = inr (k, rest) → Script.size k <= Script.MAX_SCRIPT_ELEMENT_SIZE → has f' k | _ => True end.
Proof using Type.
  intros Ef Hf Hm. destruct m as [v|v| |tx|block]; cbn [handle is_load].
  - destruct (Unserialize_filter _ _) as [e|[g r]]; [by exists p, f|]. destruct (IsWithinSizeConstraints g) eqn:Eg; cbn [negb]; [|by exists (Misbehaving p 100), f].
    eexists _, _. split_and!; [reflexivity|reflexivity|by apply update_ok|done|done].
  - destruct (Unserialize_bytes v) as [e|[k r]]; [by exists p, f|]. destruct (Z.ltb_spec Script.MAX_SCRIPT_ELEMENT_SIZE (Script.size k)).
    + exists (Misbehaving p 100), f. split_and!; [done|done|done|done|]. intros k' r' [= <- <-] ?. lia.
    + rewrite Ef. destruct (insert_has f k (proj1 Hf)) as (f' & -> & Hs & Hk & Hg). cbn [mbind option_bind]. eexists _, f'. split_and!; [reflexivity|done|by apply (grows_ok f)|auto|]. by intros k' r' [= <- <-] _.
  - eexists _, _. split_and!; [reflexivity|reflexivity|split; [by left|done]|intros _ k _; apply default_has|done].
  - rewrite Ef. destruct Hm as [hash Eh]. destruct (IsRelevant_spec f tx hash (proj1 Hf) Eh) as (f' & b & -> & G & _). cbn [mbind option_bind]. eexists _, f'. split_and!; [reflexivity|done|by eapply grows_ok|intros _; apply G|done].
  - rewrite Ef. destruct Hm as (Hne & Hn & [hs Eh]). destruct (CMerkleBlock_filter_spec block f hs (proj1 Hf) Hne Hn Eh) as (f' & l & t & -> & G & _). cbn [mbind option_bind].
    eexists _, f'. split_and!; [reflexivity|done|by eapply grows_ok|intros _; apply G|done].
Qed.
(** The message matches the transaction against the filter. *)
Definition shows (m : message) (tx : CMutableTransaction) : Prop := match m with announce tx' => tx' = tx | filtered block => tx ∈ vtx block | _ => False end.
Lemma handle_shows p f m p' f' tx : pfilter p = Some f → filter_ok f → sendable m → shows m tx → handle p m = Some p' → pfilter p' = Some f' → remembers f f' tx.
Proof using Type.
  intros Ef Hf Hm Hs E Ef'. destruct m as [v|v| |tx'|block]; cbn [shows] in Hs; try done; cbn [handle] in E; rewrite Ef in E.
  - subst tx'. intros hash n o Eh. destruct (IsRelevant_spec f tx hash (proj1 Hf) Eh) as (f2 & b & E2 & _ & _ & _ & Hup). rewrite E2 in E. cbn [mbind option_bind] in E. injection E as <-. cbn in Ef'. injection Ef' as <-. apply Hup.
  - destruct Hm as (Hne & Hn & [hs Eh]). destruct (CMerkleBlock_filter_spec block f hs (proj1 Hf) Hne Hn Eh) as (f2 & l & t & E2 & _ & _ & _ & _ & Hu). rewrite E2 in E. cbn [mbind option_bind] in E. injection E as <-.
    cbn in Ef'. injection Ef' as <-. by apply Hu.
Qed.
Lemma handle_all_spec l : ∀ p f, pfilter p = Some f → filter_ok f → Forall sendable l → ∃ p' f', handle_all p l = Some p' ∧ pfilter p' = Some f' ∧ filter_ok f' ∧
  (forallb (negb ∘ is_load) l = true → ∀ k, has f k → has f' k).
Proof using Type.
  induction l as [|m l IH]; intros p f Ef Hf Hs; cbn [handle_all]; [by exists p, f|]. destruct (handle_spec p f m Ef Hf (Forall_inv Hs)) as (p1 & f1 & -> & Ef1 & Hf1 & Hk & _). cbn [mbind option_bind].
  destruct (IH p1 f1 Ef1 Hf1 (Forall_inv_tail Hs)) as (p' & f' & -> & Ef' & Hf' & Hk'). exists p', f'. split_and!; [done..|]. cbn [forallb]. intros [Hm Hl]%andb_true_iff k Hh. apply Hk'; [done|]. apply Hk; [|done].
  unfold compose in Hm. by apply negb_true_iff in Hm.
Qed.
Lemma handle_all_app l1 l2 p : handle_all p (l1 ++ l2) = p' ← handle_all p l1; handle_all p' l2.
Proof using Type. revert p. induction l1 as [|m l1 IH]; intros p; [done|]. cbn [app handle_all]. destruct (handle p m) as [p1|]; [apply IH|done]. Qed.
(** C14. The filter of a peer, under any sequence of its messages and of transactions and blocks that are matched against it: no
    handler divides by zero, reads or writes out of range or throws; the filter stays within the limits of the protocol; what
    the peer added it still contains until another filter is loaded; and, until then, so it does the outpoint of every output that
    matched when its transaction was announced or its block was filtered, provided that the update flags of the filter ask for it (all outputs, or those that pay to keys), so that the transaction that spends it is relevant. *)
Theorem peer_filter_safe relay l : Forall sendable l → ∃ p f, handle_all (peer_init relay) l = Some p ∧ pfilter p = Some f ∧ filter_ok f ∧
  (∀ l1 vRecv k rest l2, l = l1 ++ FILTERADD vRecv :: l2 → Unserialize_bytes vRecv = inr (k, rest) → Script.size k <= Script.MAX_SCRIPT_ELEMENT_SIZE →
     forallb (negb ∘ is_load) l2 = true → has f k) ∧
  (∀ l1 m tx hash l2 p1 f1 n o tx', l = l1 ++ m :: l2 → shows m tx → forallb (negb ∘ is_load) l2 = true → GetHash Hash256 tx = Some hash →
     handle_all (peer_init relay) l1 = Some p1 → pfilter p1 = Some f1 → vout tx !! n = Some o → matches f1 (scriptPubKey o) → updates f1 (scriptPubKey o) →
     is_Some (GetHash Hash256 tx') → (∃ i, i ∈ vin tx' ∧ prevout i = mkOutPoint hash (Z.of_nat n)) → ∃ f', IsRelevantAndUpdate f tx' = Some (f', true)).
Proof using Type.
  intros Hs. assert (filter_ok CBloomFilter_default) as H0 by (split; [by left|done]).
  destruct (handle_all_spec l (peer_init relay) _ eq_refl H0 Hs) as (p & f & E & Ef & Hf & _). exists p, f. split_and!; [done..| |].
  - intros l1 v k rest l2 -> Eu Hk Hl. apply Forall_app in Hs as [Hs1 Hs2]. destruct (handle_all_spec l1 (peer_init relay) _ eq_refl H0 Hs1) as (p1 & f1 & E1 & Ef1 & Hf1 & _).
    rewrite handle_all_app, E1 in E. cbn [mbind option_bind handle_all] in E. destruct (handle_spec p1 f1 _ Ef1 Hf1 (Forall_inv Hs2)) as (p2 & f2 & E2 & Ef2 & Hf2 & _ & Hadd). rewrite E2 in E. cbn [mbind option_bind] in E.
    destruct (handle_all_spec l2 p2 f2 Ef2 Hf2 (Forall_inv_tail Hs2)) as (p3 & f3 & E3 & Ef3 & _ & Hk3). rewrite E in E3. injection E3 as <-. rewrite Ef in Ef3. injection Ef3 as <-.
    apply Hk3; [done|]. by eapply Hadd.
  - intros l1 m tx hash l2 p1 f1 n o tx' -> Hsh Hl Eh E1 Ef1 Ho Hm Hu [hash' Eh'] (i & Hi & Ep). apply Forall_app in Hs as [Hs1 Hs2].
    destruct (handle_all_spec l1 (peer_init relay) _ eq_refl H0 Hs1) as (p1' & f1' & E1' & Ef1' & Hf1 & _). rewrite E1 in E1'. injection E1' as <-. rewrite Ef1 in Ef1'. injection Ef1' as <-.
    rewrite handle_all_app, E1 in E. cbn [mbind option_bind handle_all] in E. destruct (handle_spec p1 f1 m Ef1 Hf1 (Forall_inv Hs2)) as (p2 & f2 & E2 & Ef2 & Hf2 & _). rewrite E2 in E. cbn [mbind option_bind] in E.
    destruct (handle_all_spec l2 p2 f2 Ef2 Hf2 (Forall_inv_tail Hs2)) as (p3 & f3 & E3 & Ef3 & _ & Hk3). rewrite E in E3. injection E3 as <-. rewrite Ef in Ef3. injection Ef3 as <-.
    destruct (IsRelevant_spec f tx' hash' (proj1 Hf) Eh') as (f4 & b4 & E4 & _ & Hc & _). exists f4. rewrite E4, Hc; [done|]. right; right. exists i. split; [done|]. left. rewrite Ep. apply Hk3; [done|].
    by eapply (handle_shows p1 f1 m p2 f2 tx Ef1 Hf1 (Forall_inv Hs2) Hsh E2 Ef2).
Qed.
(** C15. A filtered block shows a client every transaction that concerns it.  From a block with an unmutated Merkle tree and a filter that cannot
    divide by zero the node builds a reduced block, and extracting its matches gives the Merkle root of the block and the identifiers and positions of
    the matched transactions; every transaction that contains something that the filter contains is among them, unless two nodes collide. *)
Theorem filtered_block (Hlen : ∀ l, length (sha256 l) = 32%nat) block f hashes root : safe f → vtx block ≠ [] → Z.of_nat (length (vtx block)) <= MAX_BLOCK_BASE_SIZE / 60 →
  mapM (GetHash Hash256) (vtx block) = Some hashes → ComputeMerkleRoot hashes = Some (root, false) →
  ∃ f' mb, CMerkleBlock_filter block f = Some (f', mb) ∧ mb_header mb = GetBlockHeader block ∧
    (∀ n tx h, vtx block !! n = Some tx → hashes !! n = Some h → concerns f tx h → (Z.of_nat n, h) ∈ vMatchedTxn mb) ∧
    (ExtractMatches (txn mb) [] = Some (root, (vMatchedTxn mb).*2, (vMatchedTxn mb).*1) ∨ collision).
Proof using Type.
  intros Hf Hne Hn Eh Hroot. pose proof Hn as Hn'. change (MAX_BLOCK_BASE_SIZE / 60) with 33333 in Hn'.
  destruct (CMerkleBlock_filter_spec block f hashes Hf Hne ltac:(lia) Eh) as (f' & l & t & E & _ & El & Et & Hc & _).
  exists f', (mkMerkleBlock (GetBlockHeader block) t (map (λ x, (x.2, x.1)) (marks 0 l))). cbn [mb_header vMatchedTxn txn]. split_and!; [done|done| |].
  - intros n tx h Htx Hh Hcon. apply list_elem_of_fmap. exists (h, Z.of_nat n). split; [done|]. by eapply Hc.
  - assert (length l = length (vtx block)) as Hl by (apply length_mapM in Eh; rewrite <- El, length_fmap in Eh; done).
    assert (Forall (λ x : uint256, length x = 32%nat) l.*1) as Hok.
    { rewrite El. apply mapM_Some in Eh. clear -Eh Hlen. induction Eh as [|tx h txs hs E _ IH]; [constructor|]. constructor; [|done]. unfold GetHash in E. destruct (SerializeTransaction _ _) as [|[s ?]]; [done|]. injection E as <-. apply Hlen. }
    destruct (partial_extracts Hlen l root []) as (t' & Et' & Hx); [intros ->; by destruct (vtx block)|by rewrite Hl|done|by rewrite El|]. rewrite Et in Et'. injection Et' as <-.
    destruct Hx as [Hx|]; [left|by right]. rewrite Hx. f_equal. by rewrite <- !list_fmap_compose.
Qed.
End peers.

(** ** A loaded filter and a block of one transaction *)
Definition sample_messages : list message := [FILTERLOAD ([8] ++ replicate 8 0 ++ [3; 0; 0; 0] ++ [5; 0; 0; 0] ++ [1]); FILTERADD [2; 9; 9]; announce sample_tx].
Definition sample_filtered : CBlock := mkBlock (Chain.mkHeader (replicate 32 8) 1 (replicate 32 9) [] 1600000100 0 0) [sample_tx] [].
Lemma sample_sendable : Forall (sendable (H := sum_crypto)) sample_messages.
Proof. repeat constructor. eexists. vm_compute. reflexivity. Qed.
Lemma peer_filter_safe_witness : ∃ p f, handle_all (H := sum_crypto) (peer_init true) sample_messages = Some p ∧ pfilter p = Some f ∧ has f [9; 9].
Proof.
  destruct (peer_filter_safe (H := sum_crypto) true sample_messages sample_sendable) as (p & f & E & Ef & _ & Hadd & _). exists p, f. split; [exact E|]. split; [exact Ef|].
  eapply (Hadd (take 1 sample_messages) [2; 9; 9] [9; 9] [] (drop 2 sample_messages)); [reflexivity|vm_compute; reflexivity|vm_compute; discriminate|reflexivity].
Defined.
Lemma sum_length l : length (sha256 (Crypto := sum_crypto) l) = 32%nat.
Proof. reflexivity. Qed.
Lemma filtered_block_witness : ∃ f' mb, CMerkleBlock_filter (H := sum_crypto) sample_filtered (CBloomFilter_of 64 3 5 0) = Some (f', mb).
Proof.
  destruct (mapM (GetHash (Hash256 (H := sum_crypto))) (vtx sample_filtered)) as [hs|] eqn:E; [|vm_compute in E; discriminate E].
  destruct (filtered_block (H := sum_crypto) sum_length sample_filtered (CBloomFilter_of 64 3 5 0) hs (default [] (hs !! 0%nat))) as (f' & mb & Eb & _).
  - right. discriminate.
  - discriminate.
  - vm_compute. discriminate.
  - exact E.
  - vm_compute in E. injection E as <-. vm_compute. reflexivity.
  - exists f', mb. exact Eb.
Defined.

(** ** The rolling filter remembers the last insertions *)
(** The generation stored in a cell, 0 for none: two bits in neighbouring words. *)
Definition cell (d : list Z) (q : nat) (b : Z) : Z := Z.b2z (Z.testbit d.[2 * q] b) + 2 * Z.b2z (Z.testbit d.[2 * q + 1] b).
(** The cell of a hash. *)
Definition cell_word (d : list Z) (h : Z) : nat := Z.to_nat ((Z.shiftr h 6 mod Script.size d) / 2).
Definition cell_bit (h : Z) : Z := Z.land h 0x3F.
Definition wf_data (d : list Z) : Prop := d ≠ [] ∧ (∃ w, length d = 2 * w)%nat ∧ Script.size d <= 2 ^ 32.
Lemma cell_bit_range h : 0 <= cell_bit h < 64.
Proof. unfold cell_bit. change 0x3F with (Z.ones 6). rewrite Z.land_ones by done. apply Z.mod_pos_bound. done. Qed.
Lemma word_even pos : 0 <= pos < 2 ^ 32 → Z.land pos (u32 (-2)) = 2 * (pos / 2).
Proof.
  intros Hp. apply bits_ext. intros i Hi. rewrite Z.land_spec. change (u32 (-2)) with (Z.shiftl (Z.ones 31) 1). rewrite Z.shiftl_spec by done.
  rewrite (Z.mul_comm 2), <- (Z.shiftl_mul_pow2 _ 1), Z.shiftl_spec, <- (Z.div2_div pos), Z.div2_spec by done. destruct (Z.eq_dec i 0) as [->|]; [by rewrite andb_false_r|].
  rewrite Z.shiftr_spec by lia. replace (i - 1 + 1) with i by lia. rewrite Z.testbit_ones_nonneg by lia.
  destruct (Z.ltb_spec (i - 1) 31); [by rewrite andb_true_r|]. by rewrite (testbit_small pos 32) by lia.
Qed.
Lemma word_odd pos : 0 <= pos → Z.lor pos 1 = 2 * (pos / 2) + 1.
Proof.
  intros Hp. apply bits_ext. intros i Hi. rewrite Z.lor_spec. destruct (Z.eq_dec i 0) as [->|].
  - rewrite Z.testbit_odd_0. by rewrite orb_true_r.
  - replace i with (Z.succ (i - 1)) by lia. rewrite (Z.testbit_odd_succ (pos / 2)) by lia. rewrite <- (Z.div2_div pos), Z.div2_spec, Z.shiftr_spec by lia.
    replace (i - 1 + 1) with (Z.succ (i - 1)) by lia. rewrite (testbit_small 1 1) by lia. apply orb_false_r.
Qed.
(** The addresses of a hash are in range. *)
Lemma cell_address d h : wf_data d → let pos := Z.shiftr h 6 mod Script.size d in
  Z.to_nat (Z.land pos (u32 (-2))) = (2 * cell_word d h)%nat ∧ Z.to_nat (Z.lor pos 1) = (2 * cell_word d h + 1)%nat ∧ (2 * cell_word d h + 1 < length d)%nat.
Proof.
  intros (Hne & (w & Hw) & Hs) pos. pose proof (size_pos d Hne) as Hsz. assert (0 <= pos < Script.size d) as Hp by (apply Z.mod_pos_bound; done).
  assert (0 <= pos / 2) by (apply Z.div_pos; lia). rewrite word_even, word_odd by lia. unfold cell_word. fold pos. unfold Script.size in Hp. rewrite Hw in Hp.
  assert (pos / 2 < Z.of_nat w) by (apply Z.div_lt_upper_bound; lia). lia.
Qed.
Lemma put_bit_spec d i bit x : (Z.to_nat i < length d)%nat → 0 <= bit < 64 → x = 0 ∨ x = 1 → ∃ d', put_bit d i bit x = Some d' ∧ length d' = length d ∧
  ∀ j b, 0 <= b < 64 → Z.testbit d'.[j] b = if decide (j = Z.to_nat i ∧ b = bit) then x =? 1 else Z.testbit d.[j] b.
Proof.
  intros Hi Hb Hx. unfold put_bit. destruct (lookup_lt_is_Some_2 d _ Hi) as [w Ew]. rewrite Ew. cbn [mbind option_bind]. eexists. split; [reflexivity|]. split; [by rewrite length_insert|].
  intros j b Hb'. unfold get. destruct (decide (j = Z.to_nat i)) as [->|Hj]; [|rewrite list_lookup_insert_ne by done; by rewrite decide_False by tauto].
  rewrite list_lookup_insert_eq, Ew by done. change (default 0 (Some ?y)) with y. unfold u64. rewrite Z.mod_pow2_bits_low by lia.
  rewrite Z.lor_spec, Z.land_spec, Z.mod_pow2_bits_low, Z.lnot_spec, Z.shiftl_1_l, Z.pow2_bits_eqb, Z.shiftl_spec by lia.
  destruct (decide (Z.to_nat i = Z.to_nat i ∧ b = bit)) as [[_ ->]|Hn].
  - rewrite Z.eqb_refl, andb_false_r, Z.sub_diag. by destruct Hx as [-> | ->].
  - assert (b ≠ bit) by tauto. rewrite (proj2 (Z.eqb_neq bit b)) by done. rewrite andb_true_r.
    assert (Z.testbit x (b - bit) = false) as ->; [|apply orb_false_r]. destruct Hx as [-> | ->]; [apply Z.bits_0|].
    destruct (Z.lt_ge_cases b bit); [by apply Z.testbit_neg_r; lia|]. apply (testbit_small 1 1); lia.
Qed.
Lemma generation_bits g : 1 <= g <= 3 → (Z.land g 1 = 0 ∨ Z.land g 1 = 1) ∧ (Z.shiftr g 1 = 0 ∨ Z.shiftr g 1 = 1) ∧ Z.land g 1 + 2 * Z.shiftr g 1 = g.
Proof. intros Hg. assert (g = 1 ∨ g = 2 ∨ g = 3) as [-> | [-> | ->]] by lia; cbn; auto. Qed.
Lemma put_cell_spec d h g : wf_data d → 1 <= g <= 3 → ∃ d', put_cell d h g = Some d' ∧ length d' = length d ∧
  ∀ q b, 0 <= b < 64 → cell d' q b = if decide (q = cell_word d h ∧ b = cell_bit h) then g else cell d q b.
Proof.
  intros Hd Hg. destruct (cell_address d h Hd) as (A1 & A2 & A3). destruct (generation_bits g Hg) as (G1 & G2 & G3). pose proof (cell_bit_range h) as Hb.
  unfold put_cell. rewrite (proj2 (Z.eqb_neq _ _)) by (pose proof (size_pos d (proj1 Hd)); lia). fold (cell_bit h).
  destruct (put_bit_spec d _ _ _ ltac:(rewrite A1; lia) Hb G1) as (d1 & -> & L1 & T1). cbn [mbind option_bind].
  destruct (put_bit_spec d1 _ _ _ ltac:(rewrite A2, L1; lia) Hb G2) as (d2 & -> & L2 & T2). exists d2. split; [done|]. split; [congruence|].
  intros q b Hqb. unfold cell. rewrite !T2, !T1, A1, A2 by done. destruct (decide (q = cell_word d h ∧ b = cell_bit h)) as [[-> ->]|Hn].
  - rewrite !(decide_False (P := _ = (2 * cell_word d h + 1)%nat ∧ _)), !decide_True by (lia || (split; [lia|done])). destruct G1 as [E1|E1], G2 as [E2|E2]; rewrite E1, E2 in *; cbn; lia.
  - rewrite !decide_False; [done|..]; intros [? ->]; apply Hn; (split; [lia|done]).
Qed.
Lemma mask_bit x b : x = 0 ∨ x = 1 → 0 <= b < 64 → Z.testbit (u64 (- x)) b = (x =? 1).
Proof.
  intros Hx Hb. destruct Hx as [-> | ->]; [apply Z.bits_0|]. change (u64 (Z.opp 1)) with (Z.ones 64). rewrite Z.testbit_ones_nonneg by lia. by rewrite (proj2 (Z.ltb_lt b 64)) by lia.
Qed.
(** A wipe empties the cells of one generation. *)
Lemma wipe_generation_spec g : 1 <= g <= 3 → ∀ w d, length d = (2 * w)%nat → ∃ d', wipe_generation (u64 (- Z.land g 1)) (u64 (- Z.shiftr g 1)) d = Some d' ∧ length d' = length d ∧
  ∀ q b, 0 <= b < 64 → cell d' q b = if decide (cell d q b = g) then 0 else cell d q b.
Proof.
  intros Hg. destruct (generation_bits g Hg) as (G1 & G2 & G3). induction w as [|w IH]; intros d Hd.
  { destruct d; [|discriminate]. exists []. split_and!; [done..|]. intros q b _. assert (cell [] q b = 0) as -> by (unfold cell, get; rewrite !lookup_nil; change (default 0 None) with 0; by rewrite !Z.bits_0). by destruct (decide _). }
  destruct d as [|p1 [|p2 d]]; [cbn in Hd; lia..|]. destruct (IH d ltac:(cbn in Hd; lia)) as (d' & Ed & Hl & Hc). cbn [wipe_generation]. rewrite Ed. cbn [mbind option_bind]. eexists. split; [reflexivity|]. split; [cbn; by rewrite Hl|].
  intros q b Hb. destruct q as [|q].
  - unfold cell. change (2 * 0)%nat with 0%nat. change (0 + 1)%nat with 1%nat. unfold get. cbn -[Z.land Z.lor Z.lxor Z.testbit u64 Z.add Z.mul Z.b2z]. change (default 0 (Some ?y)) with y.
    rewrite !Z.land_spec, !Z.lor_spec, !Z.lxor_spec, !mask_bit by done. rewrite <- G3.
    destruct (Z.testbit p1 b), (Z.testbit p2 b), G1 as [-> | ->], G2 as [-> | ->]; reflexivity.
  - specialize (Hc q b Hb). unfold cell, get in *. replace (2 * S q)%nat with (S (S (2 * q))) by lia. replace (S (S (2 * q)) + 1)%nat with (S (S (2 * q + 1))) by lia. exact Hc.
Qed.

Definition wf_rolling (f : CRollingBloomFilter) : Prop :=
  wf_data (data f) ∧ 1 <= nGeneration f <= 3 ∧ 1 <= nEntriesPerGeneration f ∧ 0 <= nEntriesThisGeneration f <= nEntriesPerGeneration f.
(** The cell of a key for one of the functions. *)
Definition at_key (f : CRollingBloomFilter) (d : list Z) (n : Z) (k : list Z) : Z :=
  let h := RollingBloomHash n (r_nTweak f) k in cell d (cell_word (data f) h) (cell_bit h).
Definition with_data (f : CRollingBloomFilter) (d : list Z) : CRollingBloomFilter :=
  mkRolling (nEntriesPerGeneration f) (nEntriesThisGeneration f) (nGeneration f) d (r_nTweak f) (r_nHashFuncs f).
Lemma wf_length d d' : length d' = length d → wf_data d → wf_data d'.
Proof. intros El (Hne & Hw & Hs). unfold wf_data, Script.size in *. rewrite El. split_and!; [|done|done]. intros ->. by destruct d. Qed.
Lemma cell_word_length d d' h : length d' = length d → cell_word d' h = cell_word d h.
Proof. intros El. unfold cell_word, Script.size. by rewrite El. Qed.
(** An insertion writes the generation to the cells of the key and leaves the others as they are. *)
Lemma rolling_loop_spec m : ∀ n f k, wf_data (data f) → 1 <= nGeneration f <= 3 → ∃ d', rolling_insert_loop m n f k = Some (with_data f d') ∧ length d' = length (data f) ∧
  (∀ i, n <= i < n + Z.of_nat m → at_key f d' i k = nGeneration f) ∧ ∀ q b, 0 <= b < 64 → cell d' q b = cell (data f) q b ∨ cell d' q b = nGeneration f.
Proof.
  induction m as [|m IH]; intros n f k Hd Hg; cbn [rolling_insert_loop].
  { exists (data f). split_and!; [by destruct f|done|lia|auto]. }
  destruct (put_cell_spec (data f) (RollingBloomHash n (r_nTweak f) k) (nGeneration f) Hd Hg) as (d1 & -> & L1 & C1). cbn [mbind option_bind]. fold (with_data f d1).
  destruct (IH (n + 1) (with_data f d1) k (wf_length _ _ L1 Hd) Hg) as (d' & -> & L' & C' & D'). cbn [with_data data nGeneration] in L', D'. exists d'. split_and!; [done|congruence| |].
  - intros i Hi. destruct (Z.eq_dec i n) as [->|].
    + unfold at_key. pose proof (cell_bit_range (RollingBloomHash n (r_nTweak f) k)) as Hb. destruct (D' (cell_word (data f) (RollingBloomHash n (r_nTweak f) k)) _ Hb) as [-> | ->]; [|done]. rewrite C1, decide_True by done. done.
    + specialize (C' i ltac:(lia)). unfold at_key in *. cbn [with_data data r_nTweak nGeneration] in C'. by rewrite (cell_word_length (data f)) in C'.
  - intros q b Hb. destruct (D' q b Hb) as [-> | ->]; [|by right]. rewrite C1 by done. destruct (decide _); auto.
Qed.
Lemma rolling_contains_spec m : ∀ n f k, wf_data (data f) → ∃ b, rolling_contains_loop m n f k = Some b ∧ (b = true ↔ ∀ i, n <= i < n + Z.of_nat m → at_key f (data f) i k ≠ 0).
Proof.
  induction m as [|m IH]; intros n f k Hd; cbn [rolling_contains_loop]; [exists true; split; [done|]; split; [lia|done]|].
  assert (∃ c, get_cell (data f) (RollingBloomHash n (r_nTweak f) k) = Some c ∧ (c = true ↔ at_key f (data f) n k ≠ 0)) as (c & -> & Hc).
  { set (h := RollingBloomHash n (r_nTweak f) k). destruct (cell_address (data f) h Hd) as (A1 & A2 & A3). unfold get_cell. rewrite (proj2 (Z.eqb_neq _ _)) by (pose proof (size_pos _ (proj1 Hd)); lia).
    rewrite A1, A2. destruct (lookup_lt_is_Some_2 (data f) (2 * cell_word (data f) h)%nat) as [x Ex]; [lia|]. destruct (lookup_lt_is_Some_2 (data f) (2 * cell_word (data f) h + 1)%nat A3) as [y Ey].
    rewrite Ex, Ey. cbn [mbind option_bind]. eexists. split; [reflexivity|]. unfold at_key, cell, get. fold h. rewrite Ex, Ey. change (default 0 (Some ?z)) with z. fold (cell_bit h).
    pose proof (cell_bit_range h). rewrite (Z.land_ones _ 1), <- Z.bit0_mod, Z.shiftr_spec, Z.lor_spec by lia. rewrite Z.add_0_l. destruct (Z.testbit x _), (Z.testbit y _); cbn; split; try done; lia. }
  cbn [mbind option_bind]. destruct c; cbn [negb].
  - destruct (IH (n + 1) f k Hd) as (b & -> & Hb). exists b. split; [done|]. rewrite Hb. split; [|intros Hi i ?; apply Hi; lia]. intros Hi i ?. destruct (Z.eq_dec i n) as [->|]; [by apply Hc|]. apply Hi. lia.
  - exists false. split; [done|]. split; [done|]. intros Hi. apply Hc. apply Hi. lia.
Qed.
(** Filters with the same size, functions and generation length. *)
Definition alike (f f' : CRollingBloomFilter) : Prop :=
  length (data f') = length (data f) ∧ r_nTweak f' = r_nTweak f ∧ r_nHashFuncs f' = r_nHashFuncs f ∧ nEntriesPerGeneration f' = nEntriesPerGeneration f.
Lemma alike_at_key f f' d n k : alike f f' → at_key f' d n k = at_key f d n k.
Proof. intros (El & Et & _). unfold at_key. rewrite Et. by rewrite (cell_word_length (data f)). Qed.
(** Each cell of the key holds a generation that began at most [d] generations ago. *)
Definition alive (f : CRollingBloomFilter) (k : list Z) (d : Z) : Prop :=
  ∀ i, 0 <= i < r_nHashFuncs f → 1 <= at_key f (data f) i k <= 3 ∧ (nGeneration f - at_key f (data f) i k) mod 3 <= d.
Lemma next_generation_spec f : wf_rolling f → ∃ f', next_generation f = Some f' ∧ wf_rolling f' ∧ alike f f' ∧ nEntriesThisGeneration f' < nEntriesPerGeneration f' ∧
  (f' = f ∨ nEntriesThisGeneration f = nEntriesPerGeneration f ∧ nEntriesThisGeneration f' = 0 ∧ nGeneration f' = nGeneration f mod 3 + 1 ∧
   ∀ q b, 0 <= b < 64 → cell (data f) q b ≠ nGeneration f' → cell (data f') q b = cell (data f) q b).
Proof.
  intros Hf. pose proof Hf as (Hd & Hg & HE & Ht). unfold next_generation. destruct (Z.eqb_spec (nEntriesThisGeneration f) (nEntriesPerGeneration f)) as [E|E]; [|exists f; split_and!; [done|exact Hf|done|lia|by left]].
  set (g := if nGeneration f + 1 =? 4 then 1 else nGeneration f + 1). assert (g = nGeneration f mod 3 + 1 ∧ 1 <= g <= 3) as [Eg Hg'].
  { unfold g. assert (nGeneration f = 1 ∨ nGeneration f = 2 ∨ nGeneration f = 3) as [-> | [-> | ->]] by lia; (split; [reflexivity|split; discriminate]). }
  destruct Hd as (Hne & (w & Hw) & Hs). destruct (wipe_generation_spec g Hg' w (data f) Hw) as (d' & -> & Hl & Hc). cbn [mbind option_bind]. eexists. split; [reflexivity|]. unfold wf_rolling, alike. cbn [data nGeneration nEntriesPerGeneration nEntriesThisGeneration r_nTweak r_nHashFuncs].
  split_and!; try (done || lia); [apply (wf_length (data f)); [done|split_and!; eauto]|]. right. split_and!; [done..|]. intros q b Hb Hn. rewrite Hc by done. by rewrite decide_False.
Qed.
Lemma rolling_insert_spec f k : wf_rolling f → ∃ f', rolling_insert f k = Some f' ∧ wf_rolling f' ∧ alike f f' ∧ 1 <= nEntriesThisGeneration f' ∧ alive f' k 0 ∧
  ∀ x d, 0 <= d → alive f x d → (nEntriesThisGeneration f' = nEntriesThisGeneration f + 1 ∧ alive f' x d) ∨
    nEntriesThisGeneration f = nEntriesPerGeneration f ∧ nEntriesThisGeneration f' = 1 ∧ (d <= 1 → alive f' x (d + 1)).
Proof.
  intros Hf. unfold rolling_insert. destruct (next_generation_spec f Hf) as (f1 & -> & (Hd & Hg & HE & Ht) & A1 & Hlt & Hn). cbn [mbind option_bind].
  set (f2 := mkRolling _ _ _ _ _ _). destruct (rolling_loop_spec (Z.to_nat (r_nHashFuncs f2)) 0 f2 k Hd Hg) as (d' & -> & Hl & Hk & Hc). exists (with_data f2 d').
  assert (alike f (with_data f2 d')) as A2 by (destruct A1 as (? & ? & ? & ?); unfold alike; cbn in *; split_and!; congruence). cbn [f2 data nGeneration] in Hl, Hc.
  assert (∀ n x, at_key (with_data f2 d') d' n x = at_key f d' n x) as Ha by (intros; by apply alike_at_key).
  split; [done|]. split; [split_and!; cbn; [by apply (wf_length (data f1))|lia..]|]. split; [done|]. split; [cbn; lia|]. split.
  - intros i Hi. cbn [with_data data nGeneration r_nHashFuncs] in *. rewrite Ha. rewrite <- (alike_at_key f f2) by (unfold alike in *; cbn in *; done). rewrite Hk by (cbn in *; lia). cbn [f2 nGeneration]. rewrite Z.sub_diag, Zmod_0_l. lia.
  - intros x d Hd0 Hx. destruct A1 as (_ & _ & Ef & _). destruct Hn as [-> |(E & E0 & Eg & Hcell)]; [left|right]; (split; [cbn; lia|]).
    + intros i Hi. cbn [with_data data nGeneration r_nHashFuncs f2] in *. rewrite Ha. destruct (Hx i Hi) as [H1 H2]. unfold at_key in *. pose proof (cell_bit_range (RollingBloomHash i (r_nTweak f) x)) as Hb.
      destruct (Hc (cell_word (data f) (RollingBloomHash i (r_nTweak f) x)) _ Hb) as [-> | ->]; [done|]. rewrite Z.sub_diag, Zmod_0_l. lia.
    + split; [cbn; lia|]. intros Hd1 i Hi. cbn [with_data data nGeneration r_nHashFuncs f2] in *. rewrite Ha. destruct (Hx i ltac:(lia)) as [H1 H2]. unfold at_key in *. pose proof (cell_bit_range (RollingBloomHash i (r_nTweak f) x)) as Hb.
      set (q := cell_word (data f) (RollingBloomHash i (r_nTweak f) x)) in *. set (b := cell_bit (RollingBloomHash i (r_nTweak f) x)) in *.
      destruct (Hc q b Hb) as [-> | ->]; [|rewrite Z.sub_diag, Zmod_0_l; lia]. destruct Hf as (_ & Hgf & _).
      assert (cell (data f) q b ≠ nGeneration f1) as Hne by (rewrite Eg; Z.div_mod_to_equations; lia).
      rewrite Hcell by done. split; [done|]. rewrite Eg. Z.div_mod_to_equations; lia.
Qed.
Fixpoint rolling_insert_all (f : CRollingBloomFilter) (keys : list (list Z)) : option CRollingBloomFilter :=
  match keys with
  | [] => Some f
  | k :: keys => f ← rolling_insert f k; rolling_insert_all f keys
  end.
Lemma rolling_all_wf keys : ∀ f, wf_rolling f → ∃ f', rolling_insert_all f keys = Some f' ∧ wf_rolling f' ∧ alike f f'.
Proof.
  induction keys as [|k keys IH]; intros f Hf; cbn [rolling_insert_all]; [by exists f|]. destruct (rolling_insert_spec f k Hf) as (f1 & -> & Hf1 & A1 & _). cbn [mbind option_bind].
  destruct (IH f1 Hf1) as (f' & -> & Hf' & A'). exists f'. split_and!; [done..|]. unfold alike in *. naive_solver congruence.
Qed.
(** While the third generation after that of a key has not begun, its cells are not empty. *)
Lemma rolling_all_alive keys : ∀ f k d, wf_rolling f → alive f k d → 0 <= d <= 2 → 1 <= nEntriesThisGeneration f →
  Z.of_nat (length keys) <= (nEntriesPerGeneration f - nEntriesThisGeneration f) + (2 - d) * nEntriesPerGeneration f →
  ∃ f' d', rolling_insert_all f keys = Some f' ∧ wf_rolling f' ∧ alive f' k d'.
Proof.
  induction keys as [|x keys IH]; intros f k d Hf Ha Hd Ht Hk; cbn [rolling_insert_all]; [by exists f, d|].
  destruct (rolling_insert_spec f x Hf) as (f1 & -> & Hf1 & A1 & Ht1 & _ & Hn). cbn [mbind option_bind]. destruct A1 as (_ & _ & _ & EE).
  pose proof Hf as (_ & _ & HE & HtE). cbn [length] in Hk. destruct (Hn k d ltac:(lia) Ha) as [[E1 Ha1]|(E0 & E1 & Ha1)].
  - apply (IH f1 k d); try done. rewrite EE, E1. lia.
  - assert (d <= 1) as Hd1 by nia. apply (IH f1 k (d + 1)); [done|by apply Ha1|lia|lia|]. rewrite EE, E1. nia.
Qed.
Lemma rolling_of_wf nElements funcs bits rand : 1 <= nElements < 2 ^ 31 → 0 < bits < 2 ^ 32 - 63 → let f := CRollingBloomFilter_of nElements funcs bits rand in
  wf_rolling f ∧ nElements <= 2 * nEntriesPerGeneration f ∧ 1 <= r_nHashFuncs f.
Proof.
  intros Hn Hb. cbv zeta. unfold CRollingBloomFilter_of. rewrite (u32_small (nElements + 1)), (u32_small (bits + 63)) by lia. rewrite Z.shiftl_mul_pow2 by done. change (2 ^ 1) with 2.
  pose proof (Z.div_mod (nElements + 1) 2 ltac:(lia)). pose proof (Z.mod_pos_bound (nElements + 1) 2 ltac:(lia)).
  assert (1 <= (bits + 63) / 64) by (apply Z.div_le_lower_bound; lia). assert ((bits + 63) / 64 < 2 ^ 26) by (apply Z.div_lt_upper_bound; lia). rewrite u32_small by lia.
  cbn [rolling_reset nEntriesPerGeneration r_nHashFuncs]. split; [|lia]. split; [|cbn [rolling_reset nEntriesPerGeneration nEntriesThisGeneration nGeneration]; lia]. unfold wf_data, Script.size. cbn [rolling_reset data]. rewrite length_map, length_replicate. split_and!.
  - intros E. apply (f_equal length) in E. rewrite length_map, length_replicate in E. cbn in E. lia.
  - exists (Z.to_nat ((bits + 63) / 64)). lia.
  - lia.
Qed.
(** C36. The rolling filter contains the last insertions.  However many keys were inserted before, a key is contained after it is inserted and for
    the next [nElements] insertions, although the filter forgets: the wiping of old generations and the writing over of cells never lose it, and nothing is read or written out of range.
    After a reset it contains nothing. *)
Theorem rolling_recent nElements funcs bits rand older k newer : 1 <= nElements < 2 ^ 31 → 0 < bits < 2 ^ 32 - 63 → Z.of_nat (length newer) <= nElements →
  ∃ f, rolling_insert_all (CRollingBloomFilter_of nElements funcs bits rand) (older ++ k :: newer) = Some f ∧ rolling_contains f k = Some true ∧
    ∀ x r, rolling_contains (rolling_reset f r) x = Some false.
Proof.
  intros Hn Hb Hk. destruct (rolling_of_wf nElements funcs bits rand Hn Hb) as (Hf & H2 & Hh). set (f0 := CRollingBloomFilter_of nElements funcs bits rand) in *.
  assert (∀ a b f, rolling_insert_all f (a ++ b) = f' ← rolling_insert_all f a; rolling_insert_all f' b) as Happ.
  { intros a b. induction a as [|y a IHa]; intros f; [done|]. cbn [app rolling_insert_all]. destruct (rolling_insert f y); [apply IHa|done]. }
  destruct (rolling_all_wf older f0 Hf) as (f1 & E1 & Hf1 & A1). destruct (rolling_insert_spec f1 k Hf1) as (f2 & E2 & Hf2 & A2 & Ht2 & Ha2 & _).
  pose proof Hf2 as (_ & _ & _ & Ht2'). assert (nEntriesPerGeneration f2 = nEntriesPerGeneration f0) as EE by (unfold alike in *; destruct A1 as (_ & _ & _ & <-), A2 as (_ & _ & _ & ?); done).
  destruct (rolling_all_alive newer f2 k 0 Hf2 Ha2 ltac:(lia) Ht2) as (f3 & d & E3 & Hf3 & Ha3); [rewrite EE in *; lia|].
  exists f3. destruct (rolling_all_wf newer f2 Hf2) as (f3' & E3' & _ & A3). rewrite E3 in E3'. injection E3' as <-.
  assert (1 <= r_nHashFuncs f3) as Hh3 by (unfold alike in *; destruct A1 as (_ & _ & Ea & _), A2 as (_ & _ & Eb & _), A3 as (_ & _ & Ec & _); congruence). split_and!.
  - rewrite Happ, E1. cbn [mbind option_bind rolling_insert_all]. rewrite E2. exact E3.
  - destruct (rolling_contains_spec (Z.to_nat (r_nHashFuncs f3)) 0 f3 k (proj1 Hf3)) as (b & Eb & Hc). unfold rolling_contains. rewrite Eb. f_equal. apply Hc. intros i Hi. destruct (Ha3 i ltac:(lia)). lia.
  - intros x r. assert (wf_data (data (rolling_reset f3 r))) as Hd by (apply (wf_length (data f3)); [cbn; by rewrite length_map|apply Hf3]).
    destruct (rolling_contains_spec (Z.to_nat (r_nHashFuncs f3)) 0 (rolling_reset f3 r) x Hd) as (b & Eb & Hc). unfold rolling_contains. cbn [rolling_reset r_nHashFuncs] in *. rewrite Eb. f_equal. apply not_true_iff_false. intros Ht.
    apply (proj1 Hc Ht 0 ltac:(lia)). unfold at_key, cell. cbn [rolling_reset data]. assert (∀ j b, Z.testbit (get (map (λ _, 0) (data f3)) j) b = false) as Hz; [|by rewrite !Hz].
    intros j b'. unfold get. change (map (λ _ : Z, 0) (data f3)) with ((λ _ : Z, 0) <$> data f3). rewrite list_lookup_fmap. destruct (data f3 !! j); apply Z.bits_0.
Qed.
Lemma rolling_recent_witness : ∃ f, rolling_insert_all (CRollingBloomFilter_of 2 3 100 7) [[1]; [2]; [3]; [4]] = Some f ∧ rolling_contains f [2] = Some true.
Proof.
  destruct (rolling_recent 2 3 100 7 [[1]] [2] [[3]; [4]]) as (f & E & Hc & _); [lia|lia|cbn; lia|]. exists f. split; [exact E|exact Hc].
Defined.
(** A key that is older is forgotten. *)
Example rolling_forgets :
  (f ← rolling_insert_all (CRollingBloomFilter_of 2 3 1000 7) [[1]; [2]; [3]; [4]; [5]; [6]]; rolling_contains f [1]) = Some false.
Proof. vm_compute. reflexivity. Qed.
End Bloom.
