(* ===== verification/MemPool.v ===== *)
(** * MemPool: the pool of unconfirmed transactions ([txmempool.h], [txmempool.cpp])

    The entries with the statistics of their ancestors and descendants, the links between
    parents and children, the index of spent outputs and the vector of witness hashes, and
    the operations that add and remove transactions, when they arrive, are confirmed,
    conflict, expire or come back from a disconnected block.

    An iterator into the pool and a pointer to one of its transactions are the hash of the transaction; sets of iterators are finite sets,
    and no result depends on the order in which they are walked.  [None] is a failed assertion or an
    iterator that does not exist. *)
From S2P Require Import Prelude Serialize Uint256 Script Transaction Interpreter Stake.
Open Scope Z_scope.
Open Scope list_scope.

Module MemPool.
Import Transaction Stake.
Notation txid := (list Z).
Notation setEntries := (gset txid).

(** ** Entries *)
(** The hashes that a transaction caches are kept with it.  [entryPriority], [entryHeight] and what else only serves the priority is left out. *)
Record CTxMemPoolEntry := mkEntry {
  tx : CMutableTransaction; hash : txid; wtxid : list Z;
  nFee : Z; nTxWeight : Z; nUsageSize : Z; nTime : Z; spendsCoinbase : bool; sigOpCost : Z; feeDelta : Z;
  nCountWithDescendants : Z; nSizeWithDescendants : Z; nModFeesWithDescendants : Z;
  nCountWithAncestors : Z; nSizeWithAncestors : Z; nModFeesWithAncestors : Z; nSigOpCostWithAncestors : Z;
  vTxHashesIdx : nat }.
(** Zerocoin and sigma spends have no inputs that other transactions could spend. *)
Definition is_private (e : CTxMemPoolEntry) : bool := IsZerocoinSpend (tx e) || IsSigmaSpend (tx e).

Section pool.
(** [nBytesPerSigOp], and [IncrementalDynamicUsage] of a set of entries. *)
Context (nBytesPerSigOp usage : Z).

Definition GetVirtualTransactionSize (nWeight nSigOpCost : Z) : Z :=
  Z.quot (i64 (Z.max nWeight (i64 (nSigOpCost * nBytesPerSigOp)) + WITNESS_SCALE_FACTOR - 1)) WITNESS_SCALE_FACTOR.
Definition GetTxSize (e : CTxMemPoolEntry) : Z := u64 (GetVirtualTransactionSize (nTxWeight e) (sigOpCost e)).
Definition GetModifiedFee (e : CTxMemPoolEntry) : Z := i64 (nFee e + feeDelta e).
(** The constructor; [usageSize] is the memory of the transaction. *)
Definition CTxMemPoolEntry_of (t : CMutableTransaction) (h w : list Z) (fee time inChainInputValue : Z) (coinbase : bool) (sigops usageSize : Z) : option CTxMemPoolEntry :=
  weight ← GetTransactionWeight t;
  out ← GetValueOut t;
  let nValueIn := i64 (out + fee) in
  if negb (IsZerocoinSpend t) && negb (IsSigmaSpend t) && (nValueIn <? inChainInputValue) then None
  else
    let size := u64 (GetVirtualTransactionSize weight sigops) in
    Some (mkEntry t h w fee weight usageSize time coinbase sigops 0 1 size fee 1 size fee sigops 0).
Definition UpdateDescendantState (e : CTxMemPoolEntry) (modifySize modifyFee modifyCount : Z) : CTxMemPoolEntry :=
  mkEntry (tx e) (hash e) (wtxid e) (nFee e) (nTxWeight e) (nUsageSize e) (nTime e) (spendsCoinbase e) (sigOpCost e) (feeDelta e)
    (u64 (nCountWithDescendants e + modifyCount)) (u64 (nSizeWithDescendants e + modifySize)) (i64 (nModFeesWithDescendants e + modifyFee))
    (nCountWithAncestors e) (nSizeWithAncestors e) (nModFeesWithAncestors e) (nSigOpCostWithAncestors e) (vTxHashesIdx e).
(** [modifySigOps] is an [int]. *)
Definition UpdateAncestorState (e : CTxMemPoolEntry) (modifySize modifyFee modifyCount modifySigOps : Z) : CTxMemPoolEntry :=
  mkEntry (tx e) (hash e) (wtxid e) (nFee e) (nTxWeight e) (nUsageSize e) (nTime e) (spendsCoinbase e) (sigOpCost e) (feeDelta e)
    (nCountWithDescendants e) (nSizeWithDescendants e) (nModFeesWithDescendants e)
    (u64 (nCountWithAncestors e + modifyCount)) (u64 (nSizeWithAncestors e + modifySize)) (i64 (nModFeesWithAncestors e + modifyFee))
    (i64 (nSigOpCostWithAncestors e + i32 modifySigOps)) (vTxHashesIdx e).
Definition UpdateFeeDelta (e : CTxMemPoolEntry) (newFeeDelta : Z) : CTxMemPoolEntry :=
  mkEntry (tx e) (hash e) (wtxid e) (nFee e) (nTxWeight e) (nUsageSize e) (nTime e) (spendsCoinbase e) (sigOpCost e) newFeeDelta
    (nCountWithDescendants e) (nSizeWithDescendants e) (i64 (nModFeesWithDescendants e + i64 (newFeeDelta - feeDelta e)))
    (nCountWithAncestors e) (nSizeWithAncestors e) (i64 (nModFeesWithAncestors e + i64 (newFeeDelta - feeDelta e))) (nSigOpCostWithAncestors e) (vTxHashesIdx e).
Definition set_idx (e : CTxMemPoolEntry) (i : nat) : CTxMemPoolEntry :=
  mkEntry (tx e) (hash e) (wtxid e) (nFee e) (nTxWeight e) (nUsageSize e) (nTime e) (spendsCoinbase e) (sigOpCost e) (feeDelta e)
    (nCountWithDescendants e) (nSizeWithDescendants e) (nModFeesWithDescendants e) (nCountWithAncestors e) (nSizeWithAncestors e) (nModFeesWithAncestors e) (nSigOpCostWithAncestors e) i.

(** ** The pool *)
Record TxLinks := mkLinks { parents : setEntries; children : setEntries }.
Definition no_links : TxLinks := mkLinks ∅ ∅.
(** Of the two parts of [mapDeltas] the fee. *)
Record CTxMemPool := mkPool {
  mapTx : gmap txid CTxMemPoolEntry; mapLinks : gmap txid TxLinks; mapNextTx : gmap COutPoint txid; mapDeltas : gmap txid Z;
  vTxHashes : list (list Z * txid); totalTxSize : Z; cachedInnerUsage : Z; nTransactionsUpdated : Z }.
Definition set_mapTx (p : CTxMemPool) (x : gmap txid CTxMemPoolEntry) : CTxMemPool := mkPool x (mapLinks p) (mapNextTx p) (mapDeltas p) (vTxHashes p) (totalTxSize p) (cachedInnerUsage p) (nTransactionsUpdated p).
Definition set_links (p : CTxMemPool) (x : gmap txid TxLinks) (u : Z) : CTxMemPool := mkPool (mapTx p) x (mapNextTx p) (mapDeltas p) (vTxHashes p) (totalTxSize p) u (nTransactionsUpdated p).
Definition set_deltas (p : CTxMemPool) (x : gmap txid Z) : CTxMemPool := mkPool (mapTx p) (mapLinks p) (mapNextTx p) x (vTxHashes p) (totalTxSize p) (cachedInnerUsage p) (nTransactionsUpdated p).
(** [_clear]: the vector of hashes and the deltas are kept. *)
Definition clear (p : CTxMemPool) : CTxMemPool := mkPool ∅ ∅ ∅ (mapDeltas p) (vTxHashes p) 0 0 (u32 (nTransactionsUpdated p + 1)).
Definition exists_tx (p : CTxMemPool) (h : txid) : bool := bool_decide (is_Some (mapTx p !! h)).
Definition HasNoInputsOf (p : CTxMemPool) (t : CMutableTransaction) : bool := forallb (λ i, negb (exists_tx p (ophash (prevout i)))) (vin t).
Definition modify (p : CTxMemPool) (it : txid) (f : CTxMemPoolEntry → CTxMemPoolEntry) : option CTxMemPool :=
  e ← mapTx p !! it; Some (set_mapTx p (<[it := f e]> (mapTx p))).
Fixpoint modify_all (p : CTxMemPool) (l : list txid) (f : CTxMemPoolEntry → CTxMemPoolEntry) : option CTxMemPool :=
  match l with
  | [] => Some p
  | it :: l => p ← modify p it f; modify_all p l f
  end.

Definition GetMemPoolParents (p : CTxMemPool) (entry : txid) : option setEntries := _ ← mapTx p !! entry; l ← mapLinks p !! entry; Some (parents l).
Definition GetMemPoolChildren (p : CTxMemPool) (entry : txid) : option setEntries := _ ← mapTx p !! entry; l ← mapLinks p !! entry; Some (children l).
Definition UpdateChild (p : CTxMemPool) (entry child : txid) (add : bool) : CTxMemPool :=
  let l := default no_links (mapLinks p !! entry) in
  if add then
    set_links p (<[entry := mkLinks (parents l) ({[child]} ∪ children l)]> (mapLinks p)) (if decide (child ∈ children l) then cachedInnerUsage p else u64 (cachedInnerUsage p + usage))
  else
    set_links p (<[entry := mkLinks (parents l) (children l ∖ {[child]})]> (mapLinks p)) (if decide (child ∈ children l) then u64 (cachedInnerUsage p - usage) else cachedInnerUsage p).
Definition UpdateParent (p : CTxMemPool) (entry parent : txid) (add : bool) : CTxMemPool :=
  let l := default no_links (mapLinks p !! entry) in
  if add then
    set_links p (<[entry := mkLinks ({[parent]} ∪ parents l) (children l)]> (mapLinks p)) (if decide (parent ∈ parents l) then cachedInnerUsage p else u64 (cachedInnerUsage p + usage))
  else
    set_links p (<[entry := mkLinks (parents l ∖ {[parent]}) (children l)]> (mapLinks p)) (if decide (parent ∈ parents l) then u64 (cachedInnerUsage p - usage) else cachedInnerUsage p).

(** ** Ancestors and descendants *)
(** Every round of the loop adds an entry, so that the fuel is the number of entries and one round that ends it. *)
Fixpoint descendants_loop (fuel : nat) (p : CTxMemPool) (stage setDescendants : setEntries) : option setEntries :=
  match fuel with
  | O => None
  | S fuel' =>
      match elements stage with
      | [] => Some setDescendants
      | it :: _ =>
          let setDescendants := {[it]} ∪ setDescendants in
          setChildren ← GetMemPoolChildren p it;
          descendants_loop fuel' p (stage ∖ {[it]} ∪ setChildren ∖ setDescendants) setDescendants
      end
  end.
Definition CalculateDescendants (p : CTxMemPool) (entryit : txid) (setDescendants : setEntries) : option setEntries :=
  descendants_loop (S (size (mapTx p))) p (if decide (entryit ∈ setDescendants) then ∅ else {[entryit]}) setDescendants.

Inductive limit_error := too_many_parents | descendant_size (h : txid) | descendant_count (h : txid) | ancestor_size | too_many_ancestors.
Record limits := mkLimits { limitAncestorCount : Z; limitAncestorSize : Z; limitDescendantCount : Z; limitDescendantSize : Z }.
Definition nNoLimit : Z := 2 ^ 64 - 1.
Definition no_limits : limits := mkLimits nNoLimit nNoLimit nNoLimit nNoLimit.
Fixpoint find_parents (p : CTxMemPool) (lim : limits) (l : list CTxIn) (parentHashes : setEntries) : limit_error + setEntries :=
  match l with
  | [] => inr parentHashes
  | txin :: l =>
      if exists_tx p (ophash (prevout txin)) then
        let parentHashes := {[ophash (prevout txin)]} ∪ parentHashes in
        if limitAncestorCount lim <? u64 (Z.of_nat (size parentHashes) + 1) then inl too_many_parents else find_parents p lim l parentHashes
      else find_parents p lim l parentHashes
  end.
(** The loop on the parents of an ancestor, with the limit looked at after each of them. *)
Fixpoint add_parents (lim : limits) (l : list txid) (parentHashes setAncestors : setEntries) : limit_error + setEntries :=
  match l with
  | [] => inr parentHashes
  | phash :: l =>
      let parentHashes := if decide (phash ∈ setAncestors) then parentHashes else {[phash]} ∪ parentHashes in
      if limitAncestorCount lim <? u64 (Z.of_nat (size parentHashes) + Z.of_nat (size setAncestors) + 1) then inl too_many_ancestors else add_parents lim l parentHashes setAncestors
  end.
Fixpoint ancestors_loop (fuel : nat) (p : CTxMemPool) (lim : limits) (entrySize totalSizeWithAncestors : Z) (parentHashes setAncestors : setEntries) : option (setEntries * option limit_error) :=
  match fuel with
  | O => None
  | S fuel' =>
      match elements parentHashes with
      | [] => Some (setAncestors, None)
      | stageit :: _ =>
          let setAncestors := {[stageit]} ∪ setAncestors in
          let parentHashes := parentHashes ∖ {[stageit]} in
          e ← mapTx p !! stageit;
          let total := u64 (totalSizeWithAncestors + GetTxSize e) in
          if limitDescendantSize lim <? u64 (nSizeWithDescendants e + entrySize) then Some (setAncestors, Some (descendant_size stageit))
          else if limitDescendantCount lim <? u64 (nCountWithDescendants e + 1) then Some (setAncestors, Some (descendant_count stageit))
          else if limitAncestorSize lim <? total then Some (setAncestors, Some ancestor_size)
          else
            setMemPoolParents ← GetMemPoolParents p stageit;
            match add_parents lim (elements setMemPoolParents) parentHashes setAncestors with
            | inl err => Some (setAncestors, Some err)
            | inr parentHashes => ancestors_loop fuel' p lim entrySize total parentHashes setAncestors
            end
      end
  end.
(** The set of ancestors, which is incomplete if there is an error. *)
Definition CalculateMemPoolAncestors (p : CTxMemPool) (entry : CTxMemPoolEntry) (lim : limits) (fSearchForParents : bool) : option (setEntries * option limit_error) :=
  let go := ancestors_loop (S (size (mapTx p))) p lim (GetTxSize entry) (GetTxSize entry) in
  if fSearchForParents then
    match find_parents p lim (vin (tx entry)) ∅ with
    | inl err => Some (∅, Some err)
    | inr parentHashes => go parentHashes ∅
    end
  else parentHashes ← GetMemPoolParents p (hash entry); go parentHashes ∅.

(** ** Adding *)
Definition UpdateAncestorsOf (p : CTxMemPool) (add : bool) (it : txid) (setAncestors : setEntries) : option CTxMemPool :=
  parentIters ← GetMemPoolParents p it;
  let p := foldl (λ p piter, UpdateChild p piter it add) p (elements parentIters) in
  e ← mapTx p !! it;
  let updateCount := if add then 1 else -1 in
  let updateSize := i64 (updateCount * GetTxSize e) in
  let updateFee := i64 (updateCount * GetModifiedFee e) in
  modify_all p (elements setAncestors) (λ a, UpdateDescendantState a updateSize updateFee updateCount).
Fixpoint sum_entries (p : CTxMemPool) (l : list txid) (sums : Z * Z * Z) : option (Z * Z * Z) :=
  match l with
  | [] => Some sums
  | it :: l =>
      e ← mapTx p !! it;
      let '(updateSize, updateFee, updateSigOpsCost) := sums in
      sum_entries p l (i64 (updateSize + GetTxSize e), i64 (updateFee + GetModifiedFee e), i64 (updateSigOpsCost + sigOpCost e))
  end.
Definition UpdateEntryForAncestors (p : CTxMemPool) (it : txid) (setAncestors : setEntries) : option CTxMemPool :=
  '(updateSize, updateFee, updateSigOpsCost) ← sum_entries p (elements setAncestors) (0, 0, 0);
  modify p it (λ e, UpdateAncestorState e updateSize updateFee (Z.of_nat (size setAncestors)) updateSigOpsCost).
(** [insert] of a map keeps an entry that is there. *)
Definition insert_new `{Countable K} {A} (m : gmap K A) (k : K) (a : A) : gmap K A := match m !! k with Some _ => m | None => <[k := a]> m end.
Definition add_spends (p : CTxMemPool) (e : CTxMemPoolEntry) : CTxMemPool :=
  mkPool (mapTx p) (mapLinks p) (foldl (λ m i, insert_new m (prevout i) (hash e)) (mapNextTx p) (vin (tx e))) (mapDeltas p) (vTxHashes p) (totalTxSize p) (cachedInnerUsage p) (nTransactionsUpdated p).
(** The part of [addUnchecked] that is skipped for a private spend. *)
Definition link_entry (p : CTxMemPool) (e : CTxMemPoolEntry) (setAncestors : setEntries) : option CTxMemPool :=
  let p := add_spends p e in
  let setParentTransactions : setEntries := list_to_set (map (λ i, ophash (prevout i)) (vin (tx e))) in
  let p := foldl (λ p phash, if exists_tx p phash then UpdateParent p (hash e) phash true else p) p (elements setParentTransactions) in
  p ← UpdateAncestorsOf p true (hash e) setAncestors;
  p ← UpdateEntryForAncestors p (hash e) setAncestors;
  modify (mkPool (mapTx p) (mapLinks p) (mapNextTx p) (mapDeltas p) (vTxHashes p ++ [(wtxid e, hash e)]) (totalTxSize p) (cachedInnerUsage p) (nTransactionsUpdated p))
    (hash e) (λ x, set_idx x (length (vTxHashes p))).
Definition addUnchecked (p : CTxMemPool) (h : txid) (entry : CTxMemPoolEntry) (setAncestors : setEntries) : option CTxMemPool :=
  let it := hash entry in
  let p := set_mapTx p (insert_new (mapTx p) it entry) in
  let p := set_links p (insert_new (mapLinks p) it no_links) (cachedInnerUsage p) in
  p ← (match mapDeltas p !! h with
       | Some delta => if negb (delta =? 0) then modify p it (λ e, UpdateFeeDelta e delta) else Some p
       | None => Some p
       end);
  let p := set_links p (mapLinks p) (u64 (cachedInnerUsage p + nUsageSize entry)) in
  p ← (if negb (is_private entry) then link_entry p entry setAncestors else Some p);
  Some (mkPool (mapTx p) (mapLinks p) (mapNextTx p) (mapDeltas p) (vTxHashes p) (u64 (totalTxSize p + GetTxSize entry)) (cachedInnerUsage p) (u32 (nTransactionsUpdated p + 1))).
(** [addUnchecked] that looks for the ancestors itself. *)
Definition addUnchecked_search (p : CTxMemPool) (h : txid) (entry : CTxMemPoolEntry) : option CTxMemPool :=
  '(setAncestors, _) ← CalculateMemPoolAncestors p entry no_limits true;
  addUnchecked p h entry setAncestors.

(** ** Removing *)
Definition UpdateChildrenForRemoval (p : CTxMemPool) (it : txid) : option CTxMemPool :=
  setMemPoolChildren ← GetMemPoolChildren p it;
  Some (foldl (λ p updateIt, UpdateParent p updateIt it false) p (elements setMemPoolChildren)).
Fixpoint fold_pool (f : CTxMemPool → txid → option CTxMemPool) (p : CTxMemPool) (l : list txid) : option CTxMemPool :=
  match l with
  | [] => Some p
  | it :: l => p ← f p it; fold_pool f p l
  end.
Definition update_descendants (p : CTxMemPool) (removeIt : txid) : option CTxMemPool :=
  setDescendants ← CalculateDescendants p removeIt ∅;
  e ← mapTx p !! removeIt;
  let modifySize := i64 (- GetTxSize e) in
  let modifyFee := i64 (- GetModifiedFee e) in
  let modifySigOps := i32 (- sigOpCost e) in
  modify_all p (elements (setDescendants ∖ {[removeIt]})) (λ d, UpdateAncestorState d modifySize modifyFee (-1) modifySigOps).
Definition update_ancestors (p : CTxMemPool) (removeIt : txid) : option CTxMemPool :=
  e ← mapTx p !! removeIt;
  '(setAncestors, _) ← CalculateMemPoolAncestors p e no_limits false;
  UpdateAncestorsOf p false removeIt setAncestors.
Definition UpdateForRemoveFromMempool (p : CTxMemPool) (entriesToRemove : setEntries) (updateDescendants : bool) : option CTxMemPool :=
  p ← (if updateDescendants then fold_pool update_descendants p (elements entriesToRemove) else Some p);
  p ← fold_pool update_ancestors p (elements entriesToRemove);
  fold_pool UpdateChildrenForRemoval p (elements entriesToRemove).
(** The entry leaves the vector of hashes: the last element takes its place. *)
Definition remove_hash (p : CTxMemPool) (e : CTxMemPoolEntry) : option CTxMemPool :=
  let m := foldl (λ m i, delete (prevout i) m) (mapNextTx p) (vin (tx e)) in
  if (1 <? length (vTxHashes p))%nat then
    match vTxHashes p !! (length (vTxHashes p) - 1)%nat, vTxHashes p !! vTxHashesIdx e with
    | Some (w, h), Some _ =>
        let v := <[vTxHashesIdx e := (w, h)]> (vTxHashes p) in
        modify (mkPool (mapTx p) (mapLinks p) m (mapDeltas p) (take (length v - 1) v) (totalTxSize p) (cachedInnerUsage p) (nTransactionsUpdated p)) h (λ x, set_idx x (vTxHashesIdx e))
    | _, _ => None
    end
  else Some (mkPool (mapTx p) (mapLinks p) m (mapDeltas p) [] (totalTxSize p) (cachedInnerUsage p) (nTransactionsUpdated p)).
Definition removeUnchecked (p : CTxMemPool) (it : txid) : option CTxMemPool :=
  e ← mapTx p !! it;
  p ← (if negb (is_private e) then remove_hash p e else Some p);
  let l := default no_links (mapLinks p !! it) in
  Some (mkPool (delete it (mapTx p)) (delete it (mapLinks p)) (mapNextTx p) (mapDeltas p) (vTxHashes p) (u64 (totalTxSize p - GetTxSize e))
    (u64 (u64 (cachedInnerUsage p - nUsageSize e) - (usage * Z.of_nat (size (parents l)) + usage * Z.of_nat (size (children l))))) (u32 (nTransactionsUpdated p + 1))).
Definition RemoveStaged (p : CTxMemPool) (stage : setEntries) (updateDescendants : bool) : option CTxMemPool :=
  p ← UpdateForRemoveFromMempool p stage updateDescendants;
  fold_pool removeUnchecked p (elements stage).
Fixpoint all_descendants (p : CTxMemPool) (l : list txid) (setAllRemoves : setEntries) : option setEntries :=
  match l with
  | [] => Some setAllRemoves
  | it :: l => setAllRemoves ← CalculateDescendants p it setAllRemoves; all_descendants p l setAllRemoves
  end.
(** The entries that spend the outputs of a transaction that is not in the pool. *)
Fixpoint spenders (p : CTxMemPool) (h : txid) (i : Z) (n : nat) (txToRemove : setEntries) : option setEntries :=
  match n with
  | O => Some txToRemove
  | S n =>
      match mapNextTx p !! mkOutPoint h i with
      | None => spenders p h (i + 1) n txToRemove
      | Some nextit => _ ← mapTx p !! nextit; spenders p h (i + 1) n ({[nextit]} ∪ txToRemove)
      end
  end.
(** The pool and the removed entries; [h] is the hash of the transaction. *)
Definition removeRecursive (p : CTxMemPool) (h : txid) (origTx : CMutableTransaction) : option (CTxMemPool * setEntries) :=
  txToRemove ← (if exists_tx p h then Some {[h]} else spenders p h 0 (length (vout origTx)) ∅);
  setAllRemoves ← all_descendants p (elements txToRemove) ∅;
  p ← RemoveStaged p setAllRemoves false;
  Some (p, setAllRemoves).
Definition ClearPrioritisation (p : CTxMemPool) (h : txid) : CTxMemPool := set_deltas p (delete h (mapDeltas p)).
Fixpoint removeConflicts (p : CTxMemPool) (h : txid) (l : list CTxIn) : option CTxMemPool :=
  match l with
  | [] => Some p
  | txin :: l =>
      p ← (match mapNextTx p !! prevout txin with
           | Some txConflict =>
               if negb (bool_decide (txConflict = h)) then
                 e ← mapTx p !! txConflict;
                 '(p, _) ← removeRecursive p txConflict (tx e);
                 Some (ClearPrioritisation p txConflict)
               else Some p
           | None => Some p
           end);
      removeConflicts p h l
  end.
(** The transactions of the block with their hashes.  The fee estimator and the rolling minimum fee are left out. *)
Fixpoint removeForBlock (p : CTxMemPool) (vtx : list (txid * CMutableTransaction)) : option CTxMemPool :=
  match vtx with
  | [] => Some p
  | (h, t) :: vtx =>
      p ← (if exists_tx p h then RemoveStaged p {[h]} true else Some p);
      p ← removeConflicts p h (vin t);
      removeForBlock (ClearPrioritisation p h) vtx
  end.
Definition Expire (p : CTxMemPool) (time : Z) : option (CTxMemPool * nat) :=
  let toremove := dom (filter (λ x, nTime x.2 < time) (mapTx p)) in
  stage ← all_descendants p (elements toremove) ∅;
  p ← RemoveStaged p stage false;
  Some (p, size stage).
Definition PrioritiseTransaction (p : CTxMemPool) (h : txid) (nFeeDelta : Z) : option CTxMemPool :=
  let deltas := i64 (default 0 (mapDeltas p !! h) + nFeeDelta) in
  let p := set_deltas p (<[h := deltas]> (mapDeltas p)) in
  match mapTx p !! h with
  | None => Some p
  | Some _ =>
      p ← modify p h (λ e, UpdateFeeDelta e deltas);
      e ← mapTx p !! h;
      '(setAncestors, _) ← CalculateMemPoolAncestors p e no_limits false;
      modify_all p (elements setAncestors) (λ a, UpdateDescendantState a 0 nFeeDelta 0)
  end.
(** [TrimToSize]: [worst] is the entry with the lowest descendant score and [memory] the memory in use; the minimum fee that results and the outpoints without spends that are reported are left out. *)
Fixpoint trim_loop (fuel : nat) (memory : CTxMemPool → Z) (worst : CTxMemPool → option txid) (p : CTxMemPool) (sizelimit : Z) : option CTxMemPool :=
  if bool_decide (mapTx p = ∅) || (memory p <=? sizelimit) then Some p
  else
    match fuel with
    | O => None
    | S fuel =>
        it ← worst p;
        stage ← CalculateDescendants p it ∅;
        p ← RemoveStaged p stage false;
        trim_loop fuel memory worst p sizelimit
    end.
Definition TrimToSize (memory : CTxMemPool → Z) (worst : CTxMemPool → option txid) (p : CTxMemPool) (sizelimit : Z) : option CTxMemPool :=
  trim_loop (size (mapTx p)) memory worst p sizelimit.

(** ** Transactions of a disconnected block *)
Notation cacheMap := (gmap txid setEntries).
(** The loop that collects the descendants. *)
Fixpoint stage_child (cachedDescendants : cacheMap) (l : list txid) (stageEntries setAllDescendants : setEntries) : setEntries * setEntries :=
  match l with
  | [] => (stageEntries, setAllDescendants)
  | childEntry :: l =>
      match cachedDescendants !! childEntry with
      | Some cacheEntries => stage_child cachedDescendants l stageEntries (setAllDescendants ∪ cacheEntries)
      | None => stage_child cachedDescendants l (if decide (childEntry ∈ setAllDescendants) then stageEntries else {[childEntry]} ∪ stageEntries) setAllDescendants
      end
  end.
Fixpoint collect_loop (fuel : nat) (p : CTxMemPool) (cachedDescendants : cacheMap) (stageEntries setAllDescendants : setEntries) : option setEntries :=
  match fuel with
  | O => None
  | S fuel' =>
      match elements stageEntries with
      | [] => Some setAllDescendants
      | cit :: _ =>
          setChildren ← GetMemPoolChildren p cit;
          let '(stageEntries, setAllDescendants) := stage_child cachedDescendants (elements setChildren) (stageEntries ∖ {[cit]}) ({[cit]} ∪ setAllDescendants) in
          collect_loop fuel' p cachedDescendants stageEntries setAllDescendants
      end
  end.
(** The loop that updates them and sums up. *)
Fixpoint update_loop (p : CTxMemPool) (updateIt : txid) (setExclude : setEntries) (l : list txid) (sums : Z * Z * Z) (found : setEntries) : option (CTxMemPool * (Z * Z * Z) * setEntries) :=
  match l with
  | [] => Some (p, sums, found)
  | cit :: l =>
      if decide (cit ∈ setExclude) then update_loop p updateIt setExclude l sums found
      else
        e ← mapTx p !! cit;
        u ← mapTx p !! updateIt;
        let '(modifySize, modifyFee, modifyCount) := sums in
        p ← modify p cit (λ d, UpdateAncestorState d (i64 (GetTxSize u)) (GetModifiedFee u) 1 (sigOpCost u));
        update_loop p updateIt setExclude l (i64 (modifySize + GetTxSize e), i64 (modifyFee + GetModifiedFee e), i64 (modifyCount + 1)) ({[cit]} ∪ found)
  end.
Definition UpdateForDescendants (p : CTxMemPool) (updateIt : txid) (cachedDescendants : cacheMap) (setExclude : setEntries) : option (CTxMemPool * cacheMap) :=
  stageEntries ← GetMemPoolChildren p updateIt;
  setAllDescendants ← collect_loop (S (size (mapTx p))) p cachedDescendants stageEntries ∅;
  '(p, (modifySize, modifyFee, modifyCount), found) ← update_loop p updateIt setExclude (elements setAllDescendants) (0, 0, 0) ∅;
  let cachedDescendants := if decide (found = ∅) then cachedDescendants else <[updateIt := default ∅ (cachedDescendants !! updateIt) ∪ found]> cachedDescendants in
  p ← modify p updateIt (λ e, UpdateDescendantState e modifySize modifyFee modifyCount);
  Some (p, cachedDescendants).
(** The entries that spend outputs of a transaction. *)
Definition children_of (p : CTxMemPool) (h : txid) : list txid := (filter (λ x, ophash x.1 = h) (map_to_list (mapNextTx p))).*2.
Fixpoint link_children (p : CTxMemPool) (it : txid) (setAlreadyIncluded : setEntries) (l : list txid) (setChildren : setEntries) : option CTxMemPool :=
  match l with
  | [] => Some p
  | childHash :: l =>
      _ ← mapTx p !! childHash;
      let p := if decide (childHash ∈ setChildren) then p
               else if decide (childHash ∈ setAlreadyIncluded) then p
               else UpdateParent (UpdateChild p it childHash true) childHash it true in
      link_children p it setAlreadyIncluded l ({[childHash]} ∪ setChildren)
  end.
Fixpoint update_from_block (p : CTxMemPool) (cache : cacheMap) (setAlreadyIncluded : setEntries) (l : list txid) : option CTxMemPool :=
  match l with
  | [] => Some p
  | h :: l =>
      match mapTx p !! h with
      | None => update_from_block p cache setAlreadyIncluded l
      | Some _ =>
          p ← link_children p h setAlreadyIncluded (children_of p h) ∅;
          '(p, cache) ← UpdateForDescendants p h cache setAlreadyIncluded;
          update_from_block p cache setAlreadyIncluded l
      end
  end.
Definition UpdateTransactionsFromBlock (p : CTxMemPool) (vHashesToUpdate : list txid) : option CTxMemPool :=
  update_from_block p ∅ (list_to_set vHashesToUpdate) (reverse vHashesToUpdate).
(** The memory that [check] adds up: it skips the links of private spends. *)
Definition check_usage (p : CTxMemPool) : Z :=
  foldr (λ x s, let l := default no_links (mapLinks p !! x.1) in
    u64 (s + nUsageSize x.2 + (if negb (is_private x.2) then usage * Z.of_nat (size (parents l)) + usage * Z.of_nat (size (children l)) else 0))) 0 (map_to_list (mapTx p)).
End pool.
End MemPool.
