(* ===== verification/MemPoolGraph.v ===== *)
(** * MemPoolGraph: ancestors and descendants in the memory pool

    The graph that the links of the pool form, and what the walks over it compute: the loops
    that collect ancestors and descendants end within their fuel with exactly the entries that can be reached. *)
From S2P Require Import Prelude Serialize Uint256 Script Transaction Interpreter Stake MemPool.
Open Scope Z_scope.
Open Scope list_scope.

Module MemPoolGraph.
Import Transaction Stake MemPool.

Implicit Types p : CTxMemPool.
Implicit Types A D F stage X Y : setEntries.
Implicit Types x y : txid.

(** ** Sums over sets of entries *)
Definition sum (w : txid → Z) (X : setEntries) : Z := foldr (λ x s, w x + s) 0 (elements X).
Lemma foldr_perm (w : txid → Z) l l' : l ≡ₚ l' → foldr (λ x s, w x + s) 0 l = foldr (λ x s, w x + s) 0 l'.
Proof. induction 1; cbn; lia. Qed.
Lemma foldr_sum_app (w : txid → Z) l l' : foldr (λ x s, w x + s) 0 (l ++ l') = foldr (λ x s, w x + s) 0 l + foldr (λ x s, w x + s) 0 l'.
Proof. induction l as [|x l IH]; cbn; lia. Qed.
Lemma sum_union w X Y : X ## Y → sum w (X ∪ Y) = sum w X + sum w Y.
Proof. intros Hd. unfold sum. rewrite <- foldr_sum_app. apply foldr_perm. by apply elements_disj_union. Qed.
Lemma sum_empty w : sum w ∅ = 0.
Proof. done. Qed.
Lemma sum_singleton w x : sum w {[x]} = w x.
Proof. unfold sum. rewrite elements_singleton. cbn. lia. Qed.
Lemma sum_add w x X : x ∉ X → sum w ({[x]} ∪ X) = w x + sum w X.
Proof. intros Hx. rewrite sum_union by set_solver. by rewrite sum_singleton. Qed.
Lemma sum_remove w x X : x ∈ X → sum w (X ∖ {[x]}) = sum w X - w x.
Proof. intros Hx. rewrite (union_difference_singleton_L x X) at 2 by done. rewrite sum_add by set_solver. lia. Qed.
Lemma sum_ext w w' X : (∀ x, x ∈ X → w x = w' x) → sum w X = sum w' X.
Proof.
  intros Hw. unfold sum. assert (∀ x, x ∈ elements X → w x = w' x) as Hl by (intros x Hx; apply Hw; by apply elem_of_elements). revert Hl.
  induction (elements X) as [|x l IH]; intros Hl; [done|]. cbn. rewrite IH, (Hl x); [done|by left|]. intros y Hy. apply Hl. by right.
Qed.
Lemma sum_nonneg w X : (∀ x, 0 <= w x) → 0 <= sum w X.
Proof. intros Hw. unfold sum. induction (elements X) as [|x l IH]; cbn; [done|]. specialize (Hw x). lia. Qed.
Lemma sum_count X : sum (λ _, 1) X = Z.of_nat (size X).
Proof. unfold sum, size, set_size. cbn. induction (elements X) as [|x l IH]; cbn; lia. Qed.

(** ** The graph *)
Definition par (p : CTxMemPool) (x : txid) : setEntries := default ∅ (parents <$> mapLinks p !! x).
Definition chi (p : CTxMemPool) (x : txid) : setEntries := default ∅ (children <$> mapLinks p !! x).
Definition up (p : CTxMemPool) (x y : txid) : Prop := y ∈ par p x.
Definition anc (p : CTxMemPool) : txid → txid → Prop := tc (up p).
Record linked (p : CTxMemPool) : Prop := {
  lk_dom : dom (mapLinks p) = dom (mapTx p);
  lk_conv : ∀ x y, y ∈ par p x ↔ x ∈ chi p y;
  lk_in : ∀ x y, y ∈ par p x → x ∈ dom (mapTx p) ∧ y ∈ dom (mapTx p);
  lk_acyclic : ∀ x, ¬ anc p x x }.
Lemma dom_lookup (p : CTxMemPool) x : x ∈ dom (mapTx p) ↔ ∃ e, mapTx p !! x = Some e.
Proof. rewrite elem_of_dom. done. Qed.
(** What the walks to the ancestors need. *)
Record upward (p : CTxMemPool) : Prop := {
  up_dom : dom (mapLinks p) = dom (mapTx p);
  up_in : ∀ x y, y ∈ par p x → x ∈ dom (mapTx p) ∧ y ∈ dom (mapTx p);
  up_acyclic : ∀ x, ¬ anc p x x }.
Lemma linked_upward p : linked p → upward p.
Proof. intros [? _ ? ?]. by constructor. Qed.
Lemma linked_links p x : upward p → x ∈ dom (mapTx p) → ∃ l, mapLinks p !! x = Some l.
Proof. intros Hl Hx. rewrite <- (up_dom _ Hl) in Hx. by apply elem_of_dom in Hx. Qed.
Lemma get_parents p x : upward p → x ∈ dom (mapTx p) → GetMemPoolParents p x = Some (par p x).
Proof.
  intros Hl Hx. destruct (linked_links p x Hl Hx) as [l El]. apply dom_lookup in Hx as [e Ee]. unfold GetMemPoolParents, par. by rewrite Ee, El.
Qed.
Lemma get_children p x : upward p → x ∈ dom (mapTx p) → GetMemPoolChildren p x = Some (chi p x).
Proof.
  intros Hl Hx. destruct (linked_links p x Hl Hx) as [l El]. apply dom_lookup in Hx as [e Ee]. unfold GetMemPoolChildren, chi. by rewrite Ee, El.
Qed.
Lemma anc_in p x y : upward p → anc p x y → x ∈ dom (mapTx p) ∧ y ∈ dom (mapTx p).
Proof. intros Hl. induction 1 as [x y Hu|x y z Hu _ [_ Hz]]; apply (up_in _ Hl) in Hu as [? ?]; done. Qed.
Lemma anc_parent p x y : y ∈ par p x → anc p x y.
Proof. intros Hy. by apply tc_once. Qed.
Lemma anc_trans p x y z : anc p x y → anc p y z → anc p x z.
Proof. apply tc_transitive. Qed.
(** The first and the last step of a path. *)
Lemma anc_first p x y : anc p x y → ∃ z, z ∈ par p x ∧ (z = y ∨ anc p z y).
Proof. induction 1 as [x y Hu|x z y Hu Ht _]; [exists y; auto|exists z; auto]. Qed.
Lemma anc_last p x y : anc p x y → ∃ z, y ∈ par p z ∧ (z = x ∨ anc p x z).
Proof.
  induction 1 as [x y Hu|x z y Hu Ht (u & Hy & Hx)]; [exists x; auto|]. exists u. split; [done|]. right. destruct Hx as [->|Hx]; [by apply tc_once|]. eapply tc_l; [exact Hu|exact Hx].
Qed.
(** The descendants, the entry itself included, of a set. *)
Definition below (p : CTxMemPool) (S : setEntries) (d : txid) : Prop := ∃ s, s ∈ S ∧ (d = s ∨ anc p d s).
Definition above (p : CTxMemPool) (S : setEntries) (a : txid) : Prop := ∃ s, s ∈ S ∧ (a = s ∨ anc p s a).
Lemma elements_nil (X : setEntries) : elements X = [] → X = ∅.
Proof. intros E. apply elements_empty_iff in E. by apply leibniz_equiv. Qed.
Lemma elements_cons (X : setEntries) x l : elements X = x :: l → x ∈ X.
Proof. intros E. apply elem_of_elements. rewrite E. by left. Qed.
Lemma size_rest (p : CTxMemPool) (D : setEntries) x : x ∈ dom (mapTx p) → x ∉ D → (size (dom (mapTx p) ∖ ({[x]} ∪ D)) < size (dom (mapTx p) ∖ D))%nat.
Proof.
  intros Hx Hn. apply subset_size. split; [set_solver|]. intros Hs. specialize (Hs x). set_solver.
Qed.

(** ** Descendants *)
(** A path that leaves a set that is closed up to [stage] goes through [stage]. *)
Lemma closed_below p (D stage : setEntries) : linked p → (∀ d c, d ∈ D → c ∈ chi p d → c ∈ D ∪ stage) → ∀ d c, c ∈ D → anc p d c → d ∈ D ∨ ∃ s, s ∈ stage ∧ anc p s c ∧ (d = s ∨ anc p d s).
Proof.
  intros Hl Hc d c Hcd Hd. induction Hd as [d c Hu|d z c Hu Hz IH].
  - pose proof (Hc c d Hcd (proj1 (lk_conv _ Hl _ _) Hu)) as [?|?]%elem_of_union; [by left|]. right. exists d. split_and!; [done|by apply tc_once|by left].
  - assert (anc p d c) as Hdc by (eapply tc_l; eassumption). destruct (IH Hcd) as [Hzd|(s & Hs & Hsc & Hzs)].
    + pose proof (Hc z d Hzd (proj1 (lk_conv _ Hl _ _) Hu)) as [?|?]%elem_of_union; [by left|]. right. exists d. auto.
    + right. exists s. split_and!; [done..|]. right. destruct Hzs as [->|Hzs]; [by apply tc_once|by eapply tc_l].
Qed.
Lemma descendants_loop_spec p : linked p → ∀ f stage D, (size (dom (mapTx p) ∖ D) < f)%nat → stage ⊆ dom (mapTx p) → stage ## D → (∀ d c, d ∈ D → c ∈ chi p d → c ∈ D ∪ stage) →
  ∃ D', descendants_loop f p stage D = Some D' ∧ ∀ d, d ∈ D' ↔ d ∈ D ∨ below p stage d.
Proof.
  intros Hl. induction f as [|f IH]; intros stage D Hf Hs Hd Hc; [lia|]. cbn [descendants_loop]. destruct (elements stage) as [|x l] eqn:Es.
  { apply elements_nil in Es as ->. exists D. split; [done|]. intros d. split; [by left|]. intros [?|(s & Hs' & _)]; [done|set_solver]. }
  apply elements_cons in Es. assert (x ∈ dom (mapTx p)) as Hx by set_solver. assert (x ∉ D) as Hxd by set_solver. rewrite get_children by (try apply linked_upward; done). cbn [mbind option_bind].
  assert (chi p x ⊆ dom (mapTx p)) as Hch by (intros c Hcx; apply (lk_conv _ Hl) in Hcx; by apply (lk_in _ Hl) in Hcx as [? _]).
  destruct (IH (stage ∖ {[x]} ∪ chi p x ∖ ({[x]} ∪ D)) ({[x]} ∪ D)) as (D' & -> & HD').
  - pose proof (size_rest p D x Hx Hxd). lia.
  - set_solver.
  - set_solver.
  - intros d c [->%elem_of_singleton|Hdd]%elem_of_union Hcd; [destruct (decide (c ∈ {[x]} ∪ D)); set_solver|]. specialize (Hc d c Hdd Hcd). destruct (decide (c = x)); set_solver.
  - exists D'. split; [done|]. intros d. rewrite HD'. unfold below. split.
    + intros [[->%elem_of_singleton|?]%elem_of_union|(s & [Hs'|Hs']%elem_of_union & Hd')]; [right; exists x; auto|by left|right; exists s; set_solver|].
      right. exists x. split; [done|]. right. apply elem_of_difference in Hs' as [Hs' _]. apply (lk_conv _ Hl), anc_parent in Hs'. destruct Hd' as [->|Hd']; [done|by eapply anc_trans].
    + intros [?|(s & Hs' & Hd')]; [left; set_solver|]. destruct (decide (s = x)) as [->|]; [|right; exists s; set_solver].
      destruct Hd' as [->|Hd']; [left; set_solver|]. destruct (anc_last _ _ _ Hd') as (c & Hcx & Hdc). pose proof (anc_parent _ _ _ Hcx) as Hcx'. apply (lk_conv _ Hl) in Hcx.
      destruct (decide (c ∈ {[x]} ∪ D)) as [HcD|HcD]; [|right; exists c; split; [set_solver|]; destruct Hdc; auto].
      assert (c ≠ x) by (intros ->; by apply (lk_acyclic _ Hl) in Hcx'). assert (c ∈ D) as HcD' by set_solver.
      destruct Hdc as [->|Hdc]; [left; set_solver|]. destruct (closed_below p D stage Hl Hc d c HcD' Hdc) as [?|(s & Hs2 & Hsc & Hds)]; [left; set_solver|].
      assert (s ≠ x) by (intros ->; apply (lk_acyclic _ Hl x); by eapply anc_trans). right. exists s. split; [set_solver|done].
Qed.
Lemma CalculateDescendants_spec p x D : linked p → x ∈ dom (mapTx p) → (∀ d c, d ∈ D → c ∈ chi p d → c ∈ D) →
  ∃ D', CalculateDescendants p x D = Some D' ∧ ∀ d, d ∈ D' ↔ d ∈ D ∨ d = x ∨ anc p d x.
Proof.
  intros Hl Hx Hc. unfold CalculateDescendants. destruct (descendants_loop_spec p Hl (S (size (mapTx p))) (if decide (x ∈ D) then ∅ else {[x]}) D) as (D' & E & HD').
  - rewrite <- size_dom. pose proof (subseteq_size (dom (mapTx p) ∖ D) (dom (mapTx p)) ltac:(set_solver)). lia.
  - destruct (decide _); set_solver.
  - destruct (decide _); set_solver.
  - intros d c Hd Hcd. specialize (Hc d c Hd Hcd). set_solver.
  - exists D'. split; [exact E|]. intros d. rewrite HD'. destruct (decide (x ∈ D)) as [Hxd|Hxd].
    + split; [intros [?|(s & Hs & _)]; [by left|set_solver]|]. intros [?|[->|Hd]]; [by left..|]. left.
      destruct (closed_below p D ∅ Hl) with (d := d) (c := x) as [?|(s & Hs & _)]; [intros; rewrite union_empty_r_L; eauto|done|done|done|set_solver].
    + unfold below. split; [intros [?|(s & ->%elem_of_singleton & ?)]; auto|]. intros [?|Hd]; [by left|]. right. exists x. split; [set_solver|done].
Qed.

(** ** Ancestors *)
Lemma u64_add_l a b : u64 (u64 a + b) = u64 (a + b).
Proof. unfold u64. by rewrite Zplus_mod_idemp_l. Qed.
Lemma no_limit_ok (x : Z) : (nNoLimit <? u64 x) = false.
Proof. apply Z.ltb_ge. pose proof (u64_range x). unfold nNoLimit. lia. Qed.
Lemma add_parents_spec lim l : ∀ stage A, match add_parents lim l stage A with
  | inr stage' => (∀ x, x ∈ stage' ↔ x ∈ stage ∨ x ∈ l ∧ x ∉ A) ∧ (u64 (Z.of_nat (size stage) + Z.of_nat (size A) + 1) <= limitAncestorCount lim → u64 (Z.of_nat (size stage') + Z.of_nat (size A) + 1) <= limitAncestorCount lim)
  | inl _ => lim ≠ no_limits end.
Proof.
  induction l as [|y l IH]; intros stage A; cbn [add_parents]; [split; [|done]; intros x; rewrite elem_of_nil; naive_solver|].
  destruct (Z.ltb_spec (limitAncestorCount lim) (u64 (Z.of_nat (size (if decide (y ∈ A) then stage else {[y]} ∪ stage)) + Z.of_nat (size A) + 1))) as [Hlt|Hle].
  { intros ->. cbn in Hlt. apply Z.ltb_lt in Hlt. by rewrite no_limit_ok in Hlt. }
  specialize (IH (if decide (y ∈ A) then stage else {[y]} ∪ stage) A). destruct (add_parents lim l _ A) as [e|stage']; [done|]. destruct IH as [IH1 IH2]. split; [|auto].
  intros x. rewrite IH1, elem_of_cons. destruct (decide (y ∈ A)); [naive_solver|]. rewrite elem_of_union, elem_of_singleton. naive_solver.
Qed.
Lemma closed_above p D stage : upward p → (∀ d c, d ∈ D → c ∈ par p d → c ∈ D ∪ stage) → ∀ c a, c ∈ D → anc p c a → a ∈ D ∨ ∃ s, s ∈ stage ∧ anc p c s ∧ (a = s ∨ anc p s a).
Proof.
  intros Hl Hc c a Hcd Ha. revert a Ha. apply (tc_ind_r (λ a, a ∈ D ∨ ∃ s, s ∈ stage ∧ anc p c s ∧ (a = s ∨ anc p s a))); unfold up.
  - intros a Hu. pose proof (Hc c a Hcd Hu) as [?|?]%elem_of_union; [by left|]. right. exists a. split_and!; [done|by apply tc_once|by left].
  - intros z a Hz Hu IH. assert (anc p c a) as Hca by (by eapply tc_r). destruct IH as [Hzd|(s & Hs & Hcs & Hsz)].
    + pose proof (Hc z a Hzd Hu) as [?|?]%elem_of_union; [by left|]. right. exists a. auto.
    + right. exists s. split_and!; [done..|]. right. destruct Hsz as [->|Hsz]; [by apply tc_once|by eapply tc_r].
Qed.
(** One round of the walk: [x] moves from the stage to the ancestors. *)
Lemma above_step p x stage (stage' : setEntries) A a : upward p → x ∈ stage → (∀ d c, d ∈ A → c ∈ par p d → c ∈ A ∪ stage) →
  (∀ y, y ∈ stage' ↔ y ∈ stage ∖ {[x]} ∨ y ∈ par p x ∧ y ∉ {[x]} ∪ A) → a ∈ {[x]} ∪ A ∨ above p stage' a ↔ a ∈ A ∨ above p stage a.
Proof.
  intros Hl Hx Hc Hst. unfold above. setoid_rewrite Hst. split.
  - intros [[->%elem_of_singleton|?]%elem_of_union|(s & [[Hs' _]%elem_of_difference|[Hs' _]] & Ha)]; [right; exists x; auto|by left|right; exists s; auto|].
    right. exists x. split; [done|]. right. apply anc_parent in Hs'. destruct Ha as [->|Ha]; [done|by eapply anc_trans].
  - intros [?|(s & Hs' & Ha)]; [left; set_solver +H|]. destruct (decide (s = x)) as [->|Hsx]; [|right; exists s; split; [left; set_solver +Hs' Hsx|done]].
    destruct Ha as [->|Ha]; [left; set_solver +|]. destruct (anc_first _ _ _ Ha) as (c & Hcx & Hca). pose proof (anc_parent _ _ _ Hcx) as Hcx'.
    destruct (decide (c ∈ {[x]} ∪ A)) as [HcD|HcD]; [|right; exists c; split; [by right|]; destruct Hca; auto].
    assert (c ≠ x) as Hne by (intros ->; by apply (up_acyclic _ Hl) in Hcx'). assert (c ∈ A) as HcD' by set_solver +HcD Hne.
    destruct Hca as [->|Hca]; [by left|]. destruct (closed_above p A stage Hl Hc c a HcD' Hca) as [?|(s & Hs2 & Hsc & Hds)]; [left; set_solver +H|].
    assert (s ≠ x) by (intros ->; apply (up_acyclic _ Hl x); by eapply anc_trans). right. exists s. split; [left; set_solver +Hs2 H|done].
Qed.
Lemma closed_step p x stage (stage' : setEntries) A : (∀ d c, d ∈ A → c ∈ par p d → c ∈ A ∪ stage) → (∀ y, y ∈ stage' ↔ y ∈ stage ∖ {[x]} ∨ y ∈ par p x ∧ y ∉ {[x]} ∪ A) →
  ∀ d c, d ∈ {[x]} ∪ A → c ∈ par p d → c ∈ ({[x]} ∪ A) ∪ stage'.
Proof.
  intros Hc Hst d c [->%elem_of_singleton|Hd]%elem_of_union Hcd; rewrite elem_of_union, Hst; [destruct (decide (c ∈ {[x]} ∪ A)); auto|].
  specialize (Hc d c Hd Hcd). destruct (decide (c = x)) as [->|Hne]; [left; set_solver +|]. set_solver +Hc Hne.
Qed.
Lemma round_rest x A (A' : setEntries) : x ∉ A → x ∈ A' → A' ∖ A = {[x]} ∪ A' ∖ ({[x]} ∪ A).
Proof. intros Hx Hx'. apply set_eq. intros y. rewrite elem_of_union, !elem_of_difference, elem_of_union, elem_of_singleton. destruct (decide (y = x)) as [->|]; naive_solver. Qed.
Lemma round_size x stage A : x ∈ stage → x ∉ A → Z.of_nat (size (stage ∖ {[x]})) + Z.of_nat (size ({[x]} ∪ A)) + 1 = Z.of_nat (size stage) + Z.of_nat (size A) + 1.
Proof.
  intros Hx Ha. rewrite size_difference, size_union, size_singleton by set_solver. assert (size stage ≠ 0%nat) by (intros E0%size_empty_inv; set_solver). lia.
Qed.
Ltac refused L := eexists _, _; split; [done|]; split; [|done]; intros ->; cbn in L; apply Z.ltb_lt in L; by rewrite no_limit_ok in L.
Lemma add_parents_accepts lim F l : ∀ stage A, Z.of_nat (size F) + 1 <= limitAncestorCount lim → Z.of_nat (size F) + 1 < 2 ^ 64 → (∀ y, y ∈ l → y ∈ F) → stage ⊆ F → A ⊆ F → stage ## A →
  ∀ err, add_parents lim l stage A ≠ inl err.
Proof.
  induction l as [|y l IH]; intros stage A Hn Hn' Hl Hs Ha Hd err; cbn [add_parents]; [done|]. set (stage' := if decide (y ∈ A) then stage else {[y]} ∪ stage).
  assert (stage' ⊆ F) as Hs'. { unfold stage'. destruct (decide (y ∈ A)); [done|]. specialize (Hl y ltac:(by left)). set_solver +Hl Hs. }
  assert (stage' ## A) as Hd'. { unfold stage'. destruct (decide (y ∈ A)); [done|]. set_solver +n Hd. }
  assert (size (stage' ∪ A) <= size F)%nat as Hsz by (apply subseteq_size; set_solver +Hs' Ha). rewrite size_union in Hsz by done.
  rewrite u64_small by lia. rewrite (proj2 (Z.ltb_ge _ _)) by lia. apply IH; try done. intros z Hz. apply Hl. by right.
Qed.
Section sizes.
Context (bytes : Z).
Notation GetTxSize := (GetTxSize bytes).
Definition tx_size (p : CTxMemPool) (x : txid) : Z := default 0 (GetTxSize <$> mapTx p !! x).
Lemma tx_size_nonneg p x : 0 <= tx_size p x.
Proof. unfold tx_size. destruct (mapTx p !! x); cbn; [apply u64_range|done]. Qed.
(** What the limits say of an ancestor. *)
Definition within (p : CTxMemPool) (lim : limits) (entrySize : Z) (a : txid) : Prop := ∃ e, mapTx p !! a = Some e ∧
  u64 (nSizeWithDescendants e + entrySize) <= limitDescendantSize lim ∧ u64 (nCountWithDescendants e + 1) <= limitDescendantCount lim.
Lemma tx_size_Some p x e : mapTx p !! x = Some e → tx_size p x = GetTxSize e.
Proof. unfold tx_size. by intros ->. Qed.
Lemma ancestors_loop_spec p lim entrySize : upward p → ∀ f total stage A, (size (dom (mapTx p) ∖ A) < f)%nat → stage ⊆ dom (mapTx p) → stage ## A → (∀ d c, d ∈ A → c ∈ par p d → c ∈ A ∪ stage) →
  ∃ A' err, ancestors_loop bytes f p lim entrySize total stage A = Some (A', err) ∧ (lim = no_limits → err = None) ∧ (err = None → (∀ a, a ∈ A' ↔ a ∈ A ∨ above p stage a) ∧
    (∀ a, a ∈ A' → a ∉ A → within p lim entrySize a) ∧ (u64 (Z.of_nat (size stage) + Z.of_nat (size A) + 1) <= limitAncestorCount lim → u64 (Z.of_nat (size A') + 1) <= limitAncestorCount lim) ∧
    (stage ≠ ∅ → u64 (total + sum (tx_size p) (A' ∖ A)) <= limitAncestorSize lim)).
Proof.
  intros Hl. induction f as [|f IH]; intros total stage A Hf Hs Hd Hc; [lia|]. cbn [ancestors_loop]. destruct (elements stage) as [|x l] eqn:Es.
  { apply elements_nil in Es as ->. exists A, None. split_and!; [done..|]. intros _. split_and!; [|done| |done]; [|by rewrite size_empty].
    intros a. split; [by left|]. intros [?|(s & Hs' & _)]; [done|by apply not_elem_of_empty in Hs']. }
  apply elements_cons in Es. assert (x ∈ dom (mapTx p)) as Hx by auto. assert (x ∉ A) as Hxd by (intros ?; by apply (Hd x)). pose proof Hx as [e Ee]%dom_lookup. rewrite Ee. cbn [mbind option_bind].
  destruct (Z.ltb_spec (limitDescendantSize lim) (u64 (nSizeWithDescendants e + entrySize))) as [L1|L1]; [by refused L1|].
  destruct (Z.ltb_spec (limitDescendantCount lim) (u64 (nCountWithDescendants e + 1))) as [L2|L2]; [by refused L2|].
  destruct (Z.ltb_spec (limitAncestorSize lim) (u64 (total + GetTxSize e))) as [L3|L3]; [by refused L3|].
  rewrite get_parents by done. cbn [mbind option_bind]. pose proof (add_parents_spec lim (elements (par p x)) (stage ∖ {[x]}) ({[x]} ∪ A)) as Ha. destruct (add_parents _ _ _ _) as [err|stage']; [by eexists _, _|].
  destruct Ha as [Hst Hcnt]. setoid_rewrite elem_of_elements in Hst. rewrite round_size in Hcnt by done.
  destruct (IH (u64 (total + GetTxSize e)) stage' ({[x]} ∪ A)) as (A' & err & E & Hno & Hok).
  - pose proof (size_rest p A x Hx Hxd). lia.
  - intros y [[? _]%elem_of_difference|[Hy _]]%Hst; [by apply Hs|]. by apply (up_in _ Hl) in Hy as [_ ?].
  - intros y [Hy|[_ ?]]%Hst; [|done]. specialize (Hd y). set_solver +Hy Hd.
  - by eapply closed_step.
  - exists A', err. split; [exact E|]. split; [done|]. intros He. destruct (Hok He) as (HA & Hw & Hn & Hsz). split_and!.
    + intros a. rewrite HA. by apply above_step.
    + intros a Ha Hna. destruct (decide (a = x)) as [->|Hne]; [by exists e|]. apply Hw; [done|]. set_solver +Hna Hne.
    + auto.
    + intros _. rewrite (round_rest x A A') by (try apply HA; set_solver +Hxd). rewrite sum_add by set_solver +. rewrite (tx_size_Some _ _ _ Ee), Z.add_assoc, <- u64_add_l.
      destruct (decide (stage' = ∅)) as [->|Hne]; [|by apply Hsz]. assert (A' ∖ ({[x]} ∪ A) = ∅) as ->; [|by rewrite sum_empty, Z.add_0_r, u64_small by (apply u64_range)].
      apply set_eq. intros y. rewrite elem_of_difference, HA. unfold above. set_solver +.
Qed.
(** If no limit is exceeded, there is no error. *)
Lemma ancestors_loop_accepts p lim entrySize F : upward p → (∀ a, a ∈ F → within p lim entrySize a) → (∀ d c, d ∈ F → c ∈ par p d → c ∈ F) → Z.of_nat (size F) + 1 <= limitAncestorCount lim → Z.of_nat (size F) + 1 < 2 ^ 64 →
  ∀ f total stage A A' err, stage ⊆ F → A ⊆ F → stage ## A → 0 <= total → total + sum (tx_size p) (F ∖ A) <= limitAncestorSize lim → total + sum (tx_size p) (F ∖ A) < 2 ^ 64 →
  ancestors_loop bytes f p lim entrySize total stage A = Some (A', err) → err = None.
Proof.
  intros Hl Hw Hc Hn Hn'. induction f as [|f IH]; intros total stage A A' err Hs Ha Hd Ht Hsz Hsz'; [done|]. cbn [ancestors_loop]. destruct (elements stage) as [|x l] eqn:Es; [by intros [= _ <-]|].
  apply elements_cons in Es. assert (x ∈ F) as Hx by auto. assert (x ∉ A) as Hxd by (intros ?; by apply (Hd x)). destruct (Hw x Hx) as (e & Ee & W1 & W2). rewrite Ee. cbn [mbind option_bind].
  assert (F ∖ A = {[x]} ∪ F ∖ ({[x]} ∪ A)) as EF by (by apply round_rest). rewrite EF, sum_add, (tx_size_Some _ _ _ Ee) in Hsz, Hsz' by set_solver +.
  assert (0 <= sum (tx_size p) (F ∖ ({[x]} ∪ A))) as Hpos by (apply sum_nonneg; intros y; apply tx_size_nonneg). assert (0 <= GetTxSize e) by (apply u64_range).
  assert (u64 (total + GetTxSize e) = total + GetTxSize e) as E3 by (apply u64_small; lia). rewrite E3.
  rewrite (proj2 (Z.ltb_ge _ _) W1), (proj2 (Z.ltb_ge _ _) W2), (proj2 (Z.ltb_ge _ (total + GetTxSize e))) by lia.
  assert (x ∈ dom (mapTx p)) as Hxp by (apply dom_lookup; eauto). rewrite get_parents by done. cbn [mbind option_bind].
  destruct (add_parents lim (elements (par p x)) (stage ∖ {[x]}) ({[x]} ∪ A)) as [err'|stage'] eqn:Ep.
  { exfalso. revert Ep. apply (add_parents_accepts lim F); try done; try lia; [intros y Hy%elem_of_elements; by eapply Hc|set_solver +Hs|set_solver +Ha Hx|set_solver +Hd]. }
  pose proof (add_parents_spec lim (elements (par p x)) (stage ∖ {[x]}) ({[x]} ∪ A)) as Hp. rewrite Ep in Hp. destruct Hp as [Hst _]. setoid_rewrite elem_of_elements in Hst.
  apply IH; [|set_solver +Ha Hx| |lia..].
  - intros y [[? _]%elem_of_difference|[Hy _]]%Hst; [by apply Hs|by eapply Hc].
  - intros y [Hy|[_ ?]]%Hst; [|done]. specialize (Hd y). set_solver +Hy Hd.
Qed.
End sizes.

(** ** [CalculateMemPoolAncestors] *)
Definition inputs (t : CMutableTransaction) : setEntries := list_to_set (map (λ i, ophash (prevout i)) (vin t)).
Definition start (p : CTxMemPool) (e : CTxMemPoolEntry) (search : bool) : setEntries := if search then inputs (tx e) ∩ dom (mapTx p) else par p (hash e).
Lemma exists_tx_true p x : exists_tx p x = true ↔ x ∈ dom (mapTx p).
Proof. unfold exists_tx. by rewrite bool_decide_eq_true, elem_of_dom. Qed.
Lemma find_parents_spec p lim l : ∀ X, match find_parents p lim l X with
  | inr X' => X' = X ∪ list_to_set (map (λ i, ophash (prevout i)) l) ∩ dom (mapTx p) ∧ (u64 (Z.of_nat (size X) + 1) <= limitAncestorCount lim ∨ X = ∅ → u64 (Z.of_nat (size X') + 1) <= limitAncestorCount lim ∨ X' = ∅)
  | inl _ => lim ≠ no_limits end.
Proof.
  induction l as [|i l IH]; intros X; cbn [find_parents]; [split; [set_solver +|done]|]. destruct (exists_tx p (ophash (prevout i))) eqn:Ee.
  - apply exists_tx_true in Ee. destruct (Z.ltb_spec (limitAncestorCount lim) (u64 (Z.of_nat (size ({[ophash (prevout i)]} ∪ X)) + 1))) as [L|L].
    { intros ->. cbn in L. apply Z.ltb_lt in L. by rewrite no_limit_ok in L. }
    specialize (IH ({[ophash (prevout i)]} ∪ X)). destruct (find_parents _ _ _ _) as [err|X']; [done|]. destruct IH as [-> IH]. split; [set_solver +Ee|]. intros _. apply IH. by left.
  - assert (ophash (prevout i) ∉ dom (mapTx p)) as Hn by (rewrite <- exists_tx_true, Ee; done). specialize (IH X). destruct (find_parents _ _ _ _) as [err|X']; [done|]. destruct IH as [-> IH]. split; [set_solver +Hn|done].
Qed.
Lemma find_parents_accepts p lim F l : Z.of_nat (size F) + 1 <= limitAncestorCount lim → Z.of_nat (size F) + 1 < 2 ^ 64 → ∀ X, list_to_set (map (λ i, ophash (prevout i)) l) ∩ dom (mapTx p) ⊆ F → X ⊆ F →
  ∀ err, find_parents p lim l X ≠ inl err.
Proof.
  intros Hn Hn'. induction l as [|i l IH]; intros X Hl HX err; cbn [find_parents]; [done|]. destruct (exists_tx p (ophash (prevout i))) eqn:Ee; [|apply IH; [set_solver +Hl|done]].
  apply exists_tx_true in Ee. assert ({[ophash (prevout i)]} ∪ X ⊆ F) as HX' by set_solver +Hl HX Ee. pose proof (subseteq_size _ _ HX').
  rewrite u64_small by lia. rewrite (proj2 (Z.ltb_ge _ _)) by lia. apply IH; [set_solver +Hl|done].
Qed.
Section calculate.
Context (bytes : Z).
Lemma start_dom p e search : upward p → start p e search ⊆ dom (mapTx p).
Proof. intros Hl. unfold start. destruct search; [set_solver +|]. intros x Hx. by apply (up_in _ Hl) in Hx as [_ ?]. Qed.
Lemma CalculateMemPoolAncestors_spec p e lim search : upward p → (search = false → hash e ∈ dom (mapTx p)) →
  ∃ A err, CalculateMemPoolAncestors bytes p e lim search = Some (A, err) ∧ (lim = no_limits → err = None) ∧ (err = None → (∀ a, a ∈ A ↔ above p (start p e search) a) ∧
    (∀ a, a ∈ A → within p lim (GetTxSize bytes e) a) ∧ (search = true → A ≠ ∅ → u64 (Z.of_nat (size A) + 1) <= limitAncestorCount lim) ∧ (A ≠ ∅ → u64 (GetTxSize bytes e + sum (tx_size bytes p) A) <= limitAncestorSize lim)).
Proof.
  intros Hl Hh. pose proof (start_dom p e search Hl) as Hs. assert (∀ stage, stage ⊆ dom (mapTx p) → (∀ a, a ∈ stage ↔ a ∈ start p e search) → (search = true → u64 (Z.of_nat (size stage) + 1) <= limitAncestorCount lim ∨ stage = ∅) →
    ∃ A err, ancestors_loop bytes (S (size (mapTx p))) p lim (GetTxSize bytes e) (GetTxSize bytes e) stage ∅ = Some (A, err) ∧ (lim = no_limits → err = None) ∧ (err = None → (∀ a, a ∈ A ↔ above p (start p e search) a) ∧
    (∀ a, a ∈ A → within p lim (GetTxSize bytes e) a) ∧ (search = true → A ≠ ∅ → u64 (Z.of_nat (size A) + 1) <= limitAncestorCount lim) ∧ (A ≠ ∅ → u64 (GetTxSize bytes e + sum (tx_size bytes p) A) <= limitAncestorSize lim))) as Hloop.
  { intros stage Hst Heq Hb. destruct (ancestors_loop_spec bytes p lim (GetTxSize bytes e) Hl (S (size (mapTx p))) (GetTxSize bytes e) stage ∅) as (A & err & E & Hno & Hok); [|done|set_solver +..|].
    { rewrite difference_empty_L, size_dom. lia. }
    exists A, err. split_and!; [done..|]. intros He. destruct (Hok He) as (HA & Hw & Hn & Hsz). rewrite size_empty, Z.add_0_r in Hn. rewrite difference_empty_L in Hsz. apply set_eq in Heq as ->.
    assert (A ≠ ∅ → start p e search ≠ ∅) as Hne. { intros HneA E0. apply HneA. apply set_eq. intros a. rewrite HA, E0. unfold above. set_solver +. }
    split_and!; [intros a; rewrite HA; set_solver +|intros a Ha; apply Hw; [done|set_solver +]| |auto]. intros Hb' HneA. destruct (Hb Hb'); [auto|]. by destruct (Hne HneA). }
  unfold CalculateMemPoolAncestors. destruct search.
  - pose proof (find_parents_spec p lim (vin (tx e)) ∅) as Hf. destruct (find_parents _ _ _ _) as [err|X]; [by eexists _, _|]. destruct Hf as [-> Hf]. apply Hloop; [set_solver +|unfold start, inputs; set_solver +|]. intros _. apply Hf. by right.
  - rewrite get_parents by auto. by apply Hloop.
Qed.
(** The walk accepts whenever the limits hold of all the ancestors. *)
Lemma CalculateMemPoolAncestors_accepts p e lim F A err : upward p → (∀ a, a ∈ F ↔ above p (start p e true) a) → (∀ a, a ∈ F → within p lim (GetTxSize bytes e) a) → Z.of_nat (size F) + 1 <= limitAncestorCount lim → Z.of_nat (size F) + 1 < 2 ^ 64 →
  GetTxSize bytes e + sum (tx_size bytes p) F <= limitAncestorSize lim → GetTxSize bytes e + sum (tx_size bytes p) F < 2 ^ 64 → CalculateMemPoolAncestors bytes p e lim true = Some (A, err) → err = None.
Proof.
  intros Hl HF Hw Hn Hn' Hsz Hsz'. unfold CalculateMemPoolAncestors. assert (start p e true ⊆ F) as Hst by (intros a Ha; apply HF; exists a; auto).
  pose proof (find_parents_spec p lim (vin (tx e)) ∅) as Hf. destruct (find_parents p lim (vin (tx e)) ∅) as [err'|X] eqn:E.
  { exfalso. revert E. by apply (find_parents_accepts p lim F). }
  destruct Hf as [-> _]. rewrite union_empty_l_L. apply (ancestors_loop_accepts bytes p lim _ F Hl Hw); try done; try (rewrite difference_empty_L; lia); try set_solver +; [|apply u64_range].
  intros d c Hd Hc. apply HF. apply HF in Hd as (s & Hs & Hd). exists s. split; [done|]. right. apply anc_parent in Hc. destruct Hd as [->|Hd]; [done|by eapply anc_trans].
Qed.
End calculate.
End MemPoolGraph.
