(* ===== verification/MemPoolIndex.v ===== *)
(** * MemPoolIndex: the indexes and the counters of the memory pool

    What the parts of the pool that are kept beside the entries say of them: the index of
    spent outputs, the vector of witness hashes with the position of each entry in it, the fee deltas, the total size
    and the memory in use.  Every step of the operations keeps them, those that change only statistics and links trivially. *)
From S2P Require Import Prelude Serialize Uint256 Script Transaction Interpreter Stake MemPool MemPoolGraph.
Open Scope Z_scope.
Open Scope list_scope.

Module MemPoolIndex.
Import Transaction Stake MemPool MemPoolGraph.

Implicit Types p : CTxMemPool.
Implicit Types e : CTxMemPoolEntry.
Implicit Types A D F stage X Y : setEntries.
Implicit Types x y : txid.

(** ** The invariant *)
Section index.
Context (bytes usage : Z).
Definition mem_use (p : CTxMemPool) (x : txid) : Z := default 0 (nUsageSize <$> mapTx p !! x) + usage * (Z.of_nat (size (par p x)) + Z.of_nat (size (chi p x))).
Record indexed (p : CTxMemPool) : Prop := {
  ix_keys : ∀ x e, mapTx p !! x = Some e → hash e = x;
  ix_next : ∀ o x, mapNextTx p !! o = Some x ↔ ∃ e, mapTx p !! x = Some e ∧ is_private e = false ∧ o ∈ map prevout (vin (tx e));
  ix_hashes : ∀ i w x, vTxHashes p !! i = Some (w, x) ↔ ∃ e, mapTx p !! x = Some e ∧ is_private e = false ∧ vTxHashesIdx e = i ∧ wtxid e = w;
  ix_deltas : ∀ x e, mapTx p !! x = Some e → feeDelta e = default 0 (mapDeltas p !! x);
  ix_total : totalTxSize p = u64 (sum (tx_size bytes p) (dom (mapTx p))) }.
Definition counted_usage (p : CTxMemPool) : Prop := cachedInnerUsage p = u64 (sum (mem_use p) (dom (mapTx p))).

(** ** Steps that change only statistics and links *)
(** An entry without its statistics. *)
Definition core (e : CTxMemPoolEntry) : CTxMemPoolEntry :=
  mkEntry (tx e) (hash e) (wtxid e) (nFee e) (nTxWeight e) (nUsageSize e) (nTime e) (spendsCoinbase e) (sigOpCost e) (feeDelta e) 0 0 0 0 0 0 0 (vTxHashesIdx e).
Definition frozen (p : CTxMemPool) := (core <$> mapTx p, mapNextTx p, mapDeltas p, vTxHashes p, totalTxSize p).
Lemma frozen_core p p' : frozen p' = frozen p → core <$> mapTx p' = core <$> mapTx p.
Proof. unfold frozen. congruence. Qed.
Lemma frozen_lookup p p' x : core <$> mapTx p' = core <$> mapTx p → core <$> mapTx p' !! x = core <$> mapTx p !! x.
Proof. intros E. by rewrite <- !lookup_fmap, E. Qed.
Lemma frozen_entry p p' x e' : core <$> mapTx p' = core <$> mapTx p → mapTx p' !! x = Some e' → ∃ e, mapTx p !! x = Some e ∧ core e' = core e.
Proof.
  intros E Ex. apply (frozen_lookup _ _ x) in E. rewrite Ex in E. destruct (mapTx p !! x) as [e|]; [|done]. exists e. split; [done|]. by apply (inj Some) in E.
Qed.
Lemma frozen_dom p p' : core <$> mapTx p' = core <$> mapTx p → dom (mapTx p') = dom (mapTx p).
Proof. intros E. by rewrite <- (dom_fmap_L core (mapTx p')), E, dom_fmap_L. Qed.
Lemma core_fields e e' : core e = core e' → tx e = tx e' ∧ hash e = hash e' ∧ wtxid e = wtxid e' ∧ nFee e = nFee e' ∧ nTxWeight e = nTxWeight e' ∧ nUsageSize e = nUsageSize e' ∧
  nTime e = nTime e' ∧ sigOpCost e = sigOpCost e' ∧ feeDelta e = feeDelta e' ∧ vTxHashesIdx e = vTxHashesIdx e'.
Proof. unfold core. intros [=]. auto 20. Qed.
Lemma core_private e e' : core e = core e' → is_private e = is_private e'.
Proof. unfold is_private. by intros [-> _]%core_fields. Qed.
Lemma core_size e e' : core e = core e' → GetTxSize bytes e = GetTxSize bytes e'.
Proof. unfold GetTxSize. intros (_ & _ & _ & _ & -> & _ & _ & -> & _)%core_fields. done. Qed.
Lemma core_fee e e' : core e = core e' → GetModifiedFee e = GetModifiedFee e'.
Proof. unfold GetModifiedFee. intros (_ & _ & _ & -> & _ & _ & _ & _ & -> & _)%core_fields. done. Qed.
Lemma frozen_size p p' x : core <$> mapTx p' = core <$> mapTx p → tx_size bytes p' x = tx_size bytes p x.
Proof.
  intros E%(frozen_lookup _ _ x). unfold tx_size. destruct (mapTx p' !! x), (mapTx p !! x); try done. cbn in E |- *. apply (inj Some) in E. by apply core_size.
Qed.
Lemma indexed_frozen p p' : frozen p' = frozen p → indexed p → indexed p'.
Proof.
  intros E [K N V D T]. pose proof (frozen_core _ _ E) as Ec. unfold frozen in E. injection E as _ En Ed Ev Et. constructor.
  - intros x e' Ex. destruct (frozen_entry _ _ _ _ Ec Ex) as (e & Ex' & Ee). apply K in Ex'. apply core_fields in Ee as (_ & -> & _). done.
  - intros o x. rewrite En, N. split; intros (e & Ex & P & Ho); [apply (frozen_entry p' p) in Ex as (e' & Ex & Ee); [|done]|apply (frozen_entry p p') in Ex as (e' & Ex & Ee); [|done]];
      exists e'; (split; [done|]); (split; [by rewrite <- (core_private _ _ Ee)|]); apply core_fields in Ee as (<- & _); done.
  - intros i w x. rewrite Ev, V. split; intros (e & Ex & P & Hi & Hw); [apply (frozen_entry p' p) in Ex as (e' & Ex & Ee); [|done]|apply (frozen_entry p p') in Ex as (e' & Ex & Ee); [|done]];
      exists e'; (split; [done|]); (split; [by rewrite <- (core_private _ _ Ee)|]); apply core_fields in Ee as (_ & _ & <- & _ & _ & _ & _ & _ & _ & <-); done.
  - intros x e' Ex. destruct (frozen_entry _ _ _ _ Ec Ex) as (e & Ex' & Ee). apply D in Ex'. rewrite Ed. apply core_fields in Ee as (_ & _ & _ & _ & _ & _ & _ & _ & -> & _). done.
  - rewrite Et, T, (frozen_dom _ _ Ec). f_equal. apply sum_ext. intros x _. symmetry. by apply frozen_size.
Qed.
Lemma modify_some p x e (f : CTxMemPoolEntry → CTxMemPoolEntry) : mapTx p !! x = Some e → modify p x f = Some (set_mapTx p (<[x := f e]> (mapTx p))).
Proof. unfold modify. by intros ->. Qed.
Lemma modify_frozen p x e (f : CTxMemPoolEntry → CTxMemPoolEntry) : mapTx p !! x = Some e → core (f e) = core e → frozen (set_mapTx p (<[x := f e]> (mapTx p))) = frozen p.
Proof.
  intros Ex Ec. unfold frozen. cbn. do 4 f_equal. rewrite fmap_insert, Ec. apply insert_id. by rewrite lookup_fmap, Ex.
Qed.

(** ** Modifications of several entries *)
Lemma modify_all_spec (f : CTxMemPoolEntry → CTxMemPoolEntry) l : NoDup l → ∀ p, (∀ x, x ∈ l → x ∈ dom (mapTx p)) →
  ∃ m, modify_all p l f = Some (set_mapTx p m) ∧ ∀ x, m !! x = if decide (x ∈ l) then f <$> mapTx p !! x else mapTx p !! x.
Proof.
  induction 1 as [|y l Hy Hnd IH]; intros p Hl; cbn [modify_all]. { exists (mapTx p). split; [by destruct p|]. done. }
  destruct (proj1 (dom_lookup p y) (Hl y ltac:(by left))) as [e Ee]. rewrite (modify_some _ _ _ _ Ee). cbn [mbind option_bind]. destruct (IH (set_mapTx p (<[y := f e]> (mapTx p)))) as (m & E & Hm).
  { intros x Hx. cbn. rewrite dom_insert_L. specialize (Hl x ltac:(by right)). set_solver +Hl. }
  exists m. split; [exact E|]. intros x. rewrite Hm. cbn [mapTx set_mapTx]. destruct (decide (x = y)) as [->|Hne].
  - rewrite !decide_False, decide_True by (try done; by left). by rewrite lookup_insert_eq, Ee.
  - rewrite lookup_insert_ne by done. destruct (decide (x ∈ l)); [by rewrite decide_True by (by right)|]. rewrite decide_False; [done|]. by intros [?|?]%elem_of_cons.
Qed.
Lemma modify_set p X (f : CTxMemPoolEntry → CTxMemPoolEntry) : X ⊆ dom (mapTx p) → ∃ m, modify_all p (elements X) f = Some (set_mapTx p m) ∧ ∀ x, m !! x = if decide (x ∈ X) then f <$> mapTx p !! x else mapTx p !! x.
Proof.
  intros HX. destruct (modify_all_spec f (elements X) (NoDup_elements X) p) as (m & E & Hm); [intros x Hx%elem_of_elements; auto|]. exists m. split; [done|]. intros x. rewrite Hm.
  apply decide_ext. by rewrite elem_of_elements.
Qed.
Lemma restated_core p m (f : txid → CTxMemPoolEntry → CTxMemPoolEntry) : (∀ x e, core (f x e) = core e) → (∀ x, m !! x = f x <$> mapTx p !! x) → core <$> m = core <$> mapTx p.
Proof. intros Hf Hm. apply map_eq. intros x. rewrite !lookup_fmap, Hm. destruct (mapTx p !! x); cbn; [by rewrite Hf|done]. Qed.
Lemma restated_core_on p m X (f : CTxMemPoolEntry → CTxMemPoolEntry) : (∀ e, core (f e) = core e) → (∀ x, m !! x = if decide (x ∈ X) then f <$> mapTx p !! x else mapTx p !! x) → core <$> m = core <$> mapTx p.
Proof.
  intros Hf Hm. apply (restated_core p m (λ x e, if decide (x ∈ X) then f e else e)); [intros x e; by destruct (decide _)|]. intros x. rewrite Hm. destruct (decide _); [done|]. by destruct (mapTx p !! x).
Qed.
Lemma frozen_set_mapTx p m : core <$> m = core <$> mapTx p → frozen (set_mapTx p m) = frozen p.
Proof. unfold frozen. cbn. by intros ->. Qed.

(** ** Links *)
Lemma par_child p y c add x : par (UpdateChild usage p y c add) x = par p x.
Proof. unfold par, UpdateChild. destruct add; cbn; (destruct (decide (x = y)) as [->|]; [rewrite lookup_insert_eq; by destruct (mapLinks p !! y)|by rewrite lookup_insert_ne]). Qed.
Lemma chi_child p y c add x : chi (UpdateChild usage p y c add) x = if decide (x = y) then (if add then {[c]} ∪ chi p y else chi p y ∖ {[c]}) else chi p x.
Proof. unfold chi, UpdateChild. destruct add; cbn; (destruct (decide (x = y)) as [->|]; [rewrite lookup_insert_eq; by destruct (mapLinks p !! y)|by rewrite lookup_insert_ne]). Qed.
Lemma chi_parent p y c add x : chi (UpdateParent usage p y c add) x = chi p x.
Proof. unfold chi, UpdateParent. destruct add; cbn; (destruct (decide (x = y)) as [->|]; [rewrite lookup_insert_eq; by destruct (mapLinks p !! y)|by rewrite lookup_insert_ne]). Qed.
Lemma par_parent p y c add x : par (UpdateParent usage p y c add) x = if decide (x = y) then (if add then {[c]} ∪ par p y else par p y ∖ {[c]}) else par p x.
Proof. unfold par, UpdateParent. destruct add; cbn; (destruct (decide (x = y)) as [->|]; [rewrite lookup_insert_eq; by destruct (mapLinks p !! y)|by rewrite lookup_insert_ne]). Qed.
Lemma dom_child p y c add : dom (mapLinks (UpdateChild usage p y c add)) = {[y]} ∪ dom (mapLinks p).
Proof. unfold UpdateChild. destruct add; cbn; apply dom_insert_L. Qed.
Lemma dom_parent p y c add : dom (mapLinks (UpdateParent usage p y c add)) = {[y]} ∪ dom (mapLinks p).
Proof. unfold UpdateParent. destruct add; cbn; apply dom_insert_L. Qed.
Lemma mapTx_child p y c add : mapTx (UpdateChild usage p y c add) = mapTx p.
Proof. unfold UpdateChild. by destruct add. Qed.
Lemma mapTx_parent p y c add : mapTx (UpdateParent usage p y c add) = mapTx p.
Proof. unfold UpdateParent. by destruct add. Qed.
Lemma frozen_child p y c add : frozen (UpdateChild usage p y c add) = frozen p.
Proof. unfold UpdateChild. by destruct add. Qed.
Lemma frozen_parent p y c add : frozen (UpdateParent usage p y c add) = frozen p.
Proof. unfold UpdateParent. by destruct add. Qed.
Lemma sum_update w w' X x : x ∈ X → (∀ y, y ≠ x → w' y = w y) → sum w' X = sum w X + (w' x - w x).
Proof.
  intros Hx Hw. rewrite (union_difference_singleton_L x X) by done. rewrite !sum_add by set_solver +. rewrite (sum_ext w' w); [lia|]. intros y Hy. apply Hw. set_solver +Hy.
Qed.
(** The change of the counter is that of the size of the set. *)
Lemma usage_change (s : setEntries) c (add : bool) v : (if add then if decide (c ∈ s) then v else u64 (v + usage) else if decide (c ∈ s) then u64 (v - usage) else v) mod 2 ^ 64 =
  (v + usage * (Z.of_nat (size (if add then {[c]} ∪ s else s ∖ {[c]})) - Z.of_nat (size s))) mod 2 ^ 64.
Proof.
  unfold u64. destruct add, (decide (c ∈ s)) as [Hc|Hc].
  - replace ({[c]} ∪ s) with s by set_solver +Hc. f_equal. lia.
  - rewrite size_union, size_singleton, Nat2Z.inj_add by set_solver +Hc. rewrite Zmod_mod. f_equal. lia.
  - rewrite size_difference, size_singleton by set_solver +Hc. assert (size s ≠ 0%nat) by (intros E0%size_empty_inv; set_solver +E0 Hc). rewrite Nat2Z.inj_sub by lia. rewrite Zmod_mod. f_equal. lia.
  - replace (s ∖ {[c]}) with s by set_solver +Hc. f_equal. lia.
Qed.
Lemma usage_step p p' y : y ∈ dom (mapTx p) → mapTx p' = mapTx p → (∀ x, x ≠ y → par p' x = par p x ∧ chi p' x = chi p x) → u64 (cachedInnerUsage p') = cachedInnerUsage p' →
  cachedInnerUsage p' mod 2 ^ 64 = (cachedInnerUsage p + usage * (Z.of_nat (size (par p' y)) + Z.of_nat (size (chi p' y)) - Z.of_nat (size (par p y)) - Z.of_nat (size (chi p y)))) mod 2 ^ 64 → counted_usage p → counted_usage p'.
Proof.
  unfold counted_usage. intros Hy Em Hne Er Ec Hu. rewrite <- Er. unfold u64 at 1. rewrite Ec, Hu. unfold u64 at 1. rewrite Zplus_mod_idemp_l. rewrite Em. unfold u64. f_equal.
  rewrite (sum_update (mem_use p) (mem_use p') _ y Hy); [unfold mem_use; rewrite Em; lia|]. intros x Hx. unfold mem_use. rewrite Em. by destruct (Hne x Hx) as [-> ->].
Qed.
Lemma counted_u64 p : counted_usage p → u64 (cachedInnerUsage p) = cachedInnerUsage p.
Proof. intros ->. apply u64_small, u64_range. Qed.
Lemma usage_child p y c add : y ∈ dom (mapTx p) → counted_usage p → counted_usage (UpdateChild usage p y c add).
Proof.
  intros Hy Hu. apply (usage_step p _ y); [done|apply mapTx_child|intros x Hx; by rewrite par_child, chi_child, decide_False| | |done].
  - pose proof (counted_u64 p Hu) as E. unfold UpdateChild. destruct add; cbn; destruct (decide _); try done; apply u64_small, u64_range.
  - rewrite par_child, chi_child, decide_True by done. transitivity ((cachedInnerUsage p + usage * (Z.of_nat (size (if add then {[c]} ∪ chi p y else chi p y ∖ {[c]})) - Z.of_nat (size (chi p y)))) mod 2 ^ 64); [|f_equal; lia].
    rewrite <- usage_change. unfold UpdateChild, chi. by destruct add, (mapLinks p !! y).
Qed.
Lemma usage_parent p y c add : y ∈ dom (mapTx p) → counted_usage p → counted_usage (UpdateParent usage p y c add).
Proof.
  intros Hy Hu. apply (usage_step p _ y); [done|apply mapTx_parent|intros x Hx; by rewrite par_parent, chi_parent, decide_False| | |done].
  - pose proof (counted_u64 p Hu) as E. unfold UpdateParent. destruct add; cbn; destruct (decide _); try done; apply u64_small, u64_range.
  - rewrite chi_parent, par_parent, decide_True by done. transitivity ((cachedInnerUsage p + usage * (Z.of_nat (size (if add then {[c]} ∪ par p y else par p y ∖ {[c]})) - Z.of_nat (size (par p y)))) mod 2 ^ 64); [|f_equal; lia].
    rewrite <- usage_change. unfold UpdateParent, par. by destruct add, (mapLinks p !! y).
Qed.

(** ** Removing an entry *)
(** An entry without its position in the vector of hashes. *)
Definition bare (e : CTxMemPoolEntry) : CTxMemPoolEntry := set_idx e 0.
Lemma bare_fields e e' : bare e = bare e' → tx e = tx e' ∧ hash e = hash e' ∧ wtxid e = wtxid e' ∧ nTxWeight e = nTxWeight e' ∧ nUsageSize e = nUsageSize e' ∧ sigOpCost e = sigOpCost e' ∧ feeDelta e = feeDelta e'.
Proof. unfold bare, set_idx. intros [=]. auto 20. Qed.
Lemma bare_private e e' : bare e = bare e' → is_private e = is_private e'.
Proof. unfold is_private. by intros [-> _]%bare_fields. Qed.
Lemma bare_entry p p' x e' : bare <$> mapTx p' = bare <$> mapTx p → mapTx p' !! x = Some e' → ∃ e, mapTx p !! x = Some e ∧ bare e' = bare e.
Proof.
  intros E Ex. assert (bare <$> mapTx p' !! x = bare <$> mapTx p !! x) as Eb by (by rewrite <- !lookup_fmap, E). rewrite Ex in Eb. destruct (mapTx p !! x) as [e|]; [|done]. exists e. split; [done|]. by apply (inj Some) in Eb.
Qed.
Lemma delete_spends (l : list CTxIn) : ∀ (m : gmap COutPoint txid) o, foldl (λ m i, delete (prevout i) m) m l !! o = if decide (o ∈ map prevout l) then None else m !! o.
Proof.
  induction l as [|i l IH]; intros m o; cbn [foldl map]; [done|]. rewrite IH. destruct (decide (o ∈ map prevout l)); [by rewrite decide_True by (by right)|].
  destruct (decide (o = prevout i)) as [->|Hne]; [by rewrite decide_True, lookup_delete_eq by (by left)|]. rewrite decide_False, lookup_delete_ne by done || (by intros [?|?]%elem_of_cons). done.
Qed.
(** The last element of the vector takes the place of the removed one. *)
Definition positions (p : CTxMemPool) (v : list (list Z * txid)) (m : gmap txid CTxMemPoolEntry) : Prop := ∀ i w x, v !! i = Some (w, x) ↔ ∃ e, m !! x = Some e ∧ is_private e = false ∧ vTxHashesIdx e = i ∧ wtxid e = w.
Lemma swap_last (v : list (list Z * txid)) i j a b : v !! (length v - 1)%nat = Some b → (i < length v)%nat →
  take (length (<[i := b]> v) - 1) (<[i := b]> v) !! j = Some a ↔ (j < length v - 1)%nat ∧ (j = i ∧ a = b ∨ j ≠ i ∧ v !! j = Some a).
Proof.
  intros Hb Hi. rewrite length_insert. destruct (decide (j < length v - 1)%nat) as [Hj|Hj].
  - rewrite lookup_take_lt by done. destruct (decide (j = i)) as [->|Hne]; [rewrite list_lookup_insert_eq by done; naive_solver|]. rewrite list_lookup_insert_ne by done. naive_solver.
  - rewrite lookup_take_ge by lia. naive_solver.
Qed.
Lemma remove_hash_spec p r e : indexed p → mapTx p !! r = Some e → is_private e = false → ∃ m v,
  remove_hash p e = Some (mkPool m (mapLinks p) (foldl (λ m i, delete (prevout i) m) (mapNextTx p) (vin (tx e))) (mapDeltas p) v (totalTxSize p) (cachedInnerUsage p) (nTransactionsUpdated p)) ∧
  bare <$> m = bare <$> mapTx p ∧ positions p v (delete r m).
Proof.
  intros Hi Er Pe. pose proof (ix_hashes _ Hi) as V. assert (vTxHashes p !! vTxHashesIdx e = Some (wtxid e, r)) as Vr by (apply V; eauto). pose proof (lookup_lt_Some _ _ _ Vr) as Hlt.
  unfold remove_hash. destruct (Nat.ltb_spec 1 (length (vTxHashes p))) as [L|L].
  - destruct (lookup_lt_is_Some_2 (vTxHashes p) (length (vTxHashes p) - 1) ltac:(lia)) as [[w h] Vl]. rewrite Vl, Vr. pose proof (proj1 (V _ _ _) Vl) as (el & El & Pl & Il & Wl).
    erewrite modify_some by exact El. eexists _, _. split; [reflexivity|]. cbn [mapTx vTxHashes set_mapTx]. split.
    { rewrite fmap_insert. apply insert_id. by rewrite lookup_fmap, El. }
    intros j w' x. rewrite (swap_last _ _ _ _ (w, h)) by done. split.
    + intros [Hj [[-> [= -> ->]]|[Hne Vj]]].
      * exists (set_idx el (vTxHashesIdx e)). assert (h ≠ r) as Hhr by (intros ->; rewrite El in Er; injection Er as ->; lia). by rewrite lookup_delete_ne, lookup_insert_eq.
      * apply V in Vj as (ex & Ex & Px & Ix & Wx). exists ex. rewrite lookup_delete_ne by (intros <-; rewrite Er in Ex; by injection Ex as ->). rewrite lookup_insert_ne by (intros <-; rewrite El in Ex; injection Ex as ->; lia). done.
    + intros (ex & Ex & Px & Ix & Wx). apply lookup_delete_Some in Ex as [Hxr Ex]. destruct (decide (x = h)) as [->|Hxh].
      * rewrite lookup_insert_eq in Ex. injection Ex as <-. cbn in Ix, Wx. subst j w'. assert (vTxHashesIdx e ≠ length (vTxHashes p) - 1)%nat by (intros E; rewrite E, Vl in Vr; by injection Vr). split; [lia|]. left. by rewrite Wl.
      * rewrite lookup_insert_ne in Ex by done. assert (vTxHashes p !! j = Some (w', x)) as Vj by (apply V; eauto). pose proof (lookup_lt_Some _ _ _ Vj).
        assert (j ≠ length (vTxHashes p) - 1)%nat by (intros ->; rewrite Vl in Vj; by injection Vj). split; [lia|]. right. split; [|done]. intros ->. rewrite Vr in Vj. by injection Vj.
  - eexists _, _. split; [reflexivity|]. split; [done|]. intros j w x. split; [done|]. intros (ex & Ex & Px & Ix & Wx). exfalso. apply lookup_delete_Some in Ex as [Hxr Ex].
    assert (vTxHashes p !! j = Some (w, x)) as Vj by (apply V; eauto). pose proof (lookup_lt_Some _ _ _ Vj). replace j with (vTxHashesIdx e) in Vj by lia. rewrite Vr in Vj. by injection Vj.
Qed.
(** The entry is gone, and nothing else changes but positions and counters. *)
Lemma removeUnchecked_steps p r e : indexed p → mapTx p !! r = Some e → ∃ m n v, bare <$> m = bare <$> mapTx p ∧ positions p v (delete r m) ∧ (∀ o x, n !! o = Some x ↔ ∃ e, delete r m !! x = Some e ∧ is_private e = false ∧ o ∈ map prevout (vin (tx e))) ∧
  removeUnchecked bytes usage p r = Some (mkPool (delete r m) (delete r (mapLinks p)) n (mapDeltas p) v (u64 (totalTxSize p - GetTxSize bytes e)) (u64 (cachedInnerUsage p - mem_use p r)) (u32 (nTransactionsUpdated p + 1))).
Proof.
  intros Hi Er. assert (u64 (u64 (cachedInnerUsage p - nUsageSize e) - (usage * Z.of_nat (size (par p r)) + usage * Z.of_nat (size (chi p r)))) = u64 (cachedInnerUsage p - mem_use p r)) as Eu.
  { unfold mem_use. rewrite Er. cbn [fmap option_fmap option_map default]. unfold u64. rewrite Zminus_mod_idemp_l. f_equal. cbn. lia. }
  assert (∀ m, bare <$> m = bare <$> mapTx p → ∀ x ex, m !! x = Some ex → ∃ ex', mapTx p !! x = Some ex' ∧ bare ex = bare ex') as Hb by (intros m Em x ex Ex; apply (bare_entry p (set_mapTx p m) x ex Em Ex)).
  assert (∀ m, bare <$> m = bare <$> mapTx p → ∀ x ex, mapTx p !! x = Some ex → ∃ ex', m !! x = Some ex' ∧ bare ex = bare ex') as Hb' by (intros m Em x ex Ex; apply (bare_entry (set_mapTx p m) p x ex (eq_sym Em) Ex)).
  unfold removeUnchecked. rewrite Er. cbn [mbind option_bind]. destruct (is_private e) eqn:Pe; cbn [negb].
  - exists (mapTx p), (mapNextTx p), (vTxHashes p). split; [done|]. split_and!.
    + intros i w x. rewrite (ix_hashes _ Hi). split; intros (ex & Ex & Px & ?); exists ex; (split; [|done]); [rewrite lookup_delete_ne by (intros <-; rewrite Er in Ex; injection Ex as <-; congruence); done|by apply lookup_delete_Some in Ex as [_ ?]].
    + intros o x. rewrite (ix_next _ Hi). split; intros (ex & Ex & Px & ?); exists ex; (split; [|done]); [rewrite lookup_delete_ne by (intros <-; rewrite Er in Ex; injection Ex as <-; congruence); done|by apply lookup_delete_Some in Ex as [_ ?]].
    + cbn [mbind option_bind]. rewrite <- Eu. unfold par, chi. by destruct (mapLinks p !! r).
  - destruct (remove_hash_spec p r e Hi Er Pe) as (m & v & E & Em & Hv). rewrite E. cbn [mbind option_bind mapLinks mapTx mapNextTx mapDeltas vTxHashes totalTxSize cachedInnerUsage nTransactionsUpdated].
    exists m. eexists _, v. split; [done|]. split; [done|]. split; [|rewrite <- Eu; unfold par, chi; by destruct (mapLinks p !! r)].
    intros o x. rewrite delete_spends. split.
    + destruct (decide _) as [|Ho]; [done|]. intros (ex & Ex & Px & Hx)%(ix_next _ Hi). destruct (Hb' m Em x ex Ex) as (ex' & Ex' & Eb). exists ex'.
      rewrite lookup_delete_ne by (intros <-; rewrite Er in Ex; by injection Ex as ->). rewrite <- (bare_private _ _ Eb). apply bare_fields in Eb as [<- _]. done.
    + intros (ex' & Ex' & Px & Hx). apply lookup_delete_Some in Ex' as [Hxr Ex']. destruct (Hb m Em x ex' Ex') as (ex & Ex & Eb). rewrite (bare_private _ _ Eb) in Px. apply bare_fields in Eb as [Et _]. rewrite Et in Hx.
      assert (mapNextTx p !! o = Some x) as No by (apply (ix_next _ Hi); eauto). rewrite decide_False; [done|]. intros Ho. assert (mapNextTx p !! o = Some r) as No' by (apply (ix_next _ Hi); eauto). congruence.
Qed.
Lemma bare_size p p' x : bare <$> mapTx p' !! x = bare <$> mapTx p !! x → tx_size bytes p' x = tx_size bytes p x.
Proof.
  unfold tx_size. destruct (mapTx p' !! x), (mapTx p !! x); try done. intros E%(inj Some). cbn. unfold GetTxSize. apply bare_fields in E as (_ & _ & _ & -> & _ & -> & _). done.
Qed.
Lemma bare_use p p' x : bare <$> mapTx p' !! x = bare <$> mapTx p !! x → mapLinks p' !! x = mapLinks p !! x → mem_use p' x = mem_use p x.
Proof.
  intros E El. unfold mem_use, par, chi. rewrite El. f_equal. destruct (mapTx p' !! x), (mapTx p !! x); try done. apply (inj Some) in E. cbn. by apply bare_fields in E as (_ & _ & _ & _ & -> & _).
Qed.
Lemma removeUnchecked_indexed p r : indexed p → r ∈ dom (mapTx p) → ∃ p', removeUnchecked bytes usage p r = Some p' ∧ indexed p' ∧ (counted_usage p → counted_usage p') ∧
  (∀ x, bare <$> mapTx p' !! x = if decide (x = r) then None else bare <$> mapTx p !! x) ∧ mapLinks p' = delete r (mapLinks p) ∧ mapDeltas p' = mapDeltas p.
Proof.
  intros Hi [e Er]%dom_lookup. destruct (removeUnchecked_steps p r e Hi Er) as (m & n & v & Em & Hv & Hn & E). eexists. split; [exact E|]. cbn.
  assert (∀ x, x ≠ r → bare <$> delete r m !! x = bare <$> mapTx p !! x) as Hb by (intros x Hx; rewrite lookup_delete_ne by done; by rewrite <- !lookup_fmap, Em).
  assert (dom (delete r m) = dom (mapTx p) ∖ {[r]}) as Ed by (rewrite dom_delete_L, <- (dom_fmap_L bare m), Em, dom_fmap_L; done).
  assert (r ∈ dom (mapTx p)) as Hr by (apply dom_lookup; eauto). split_and!; [constructor; cbn| | |done..].
  - intros x ex Ex. apply lookup_delete_Some in Ex as [Hx Ex]. destruct (bare_entry p (set_mapTx p m) x ex Em Ex) as (ex' & Ex' & Eb). apply bare_fields in Eb as (_ & -> & _). by apply (ix_keys _ Hi).
  - exact Hn.
  - exact Hv.
  - intros x ex Ex. apply lookup_delete_Some in Ex as [Hx Ex]. destruct (bare_entry p (set_mapTx p m) x ex Em Ex) as (ex' & Ex' & Eb). apply bare_fields in Eb as (_ & _ & _ & _ & _ & _ & ->). by apply (ix_deltas _ Hi).
  - rewrite (ix_total _ Hi), Ed. unfold u64. rewrite Zminus_mod_idemp_l. f_equal. rewrite <- (tx_size_Some _ _ _ _ Er), <- sum_remove by done. apply sum_ext. intros x Hx. symmetry. apply bare_size, Hb. set_solver +Hx.
  - unfold counted_usage. cbn. intros ->. rewrite Ed. unfold u64. rewrite Zminus_mod_idemp_l. f_equal. rewrite <- sum_remove by done. apply sum_ext. intros x Hx. symmetry. apply bare_use; cbn; [apply Hb; set_solver +Hx|]. rewrite lookup_delete_ne; [done|set_solver +Hx].
  - intros x. destruct (decide (x = r)) as [->|Hx]; [by rewrite lookup_delete_eq|by apply Hb].
Qed.
Lemma remove_all_indexed l : NoDup l → ∀ p, indexed p → (∀ x, x ∈ l → x ∈ dom (mapTx p)) → ∃ p', fold_pool (removeUnchecked bytes usage) p l = Some p' ∧ indexed p' ∧ (counted_usage p → counted_usage p') ∧
  (∀ x, bare <$> mapTx p' !! x = if decide (x ∈ l) then None else bare <$> mapTx p !! x) ∧ (∀ x, mapLinks p' !! x = if decide (x ∈ l) then None else mapLinks p !! x) ∧ mapDeltas p' = mapDeltas p.
Proof.
  induction 1 as [|y l Hy Hnd IH]; intros p Hi Hl; cbn [fold_pool]; [by exists p|]. destruct (removeUnchecked_indexed p y Hi (Hl y ltac:(by left))) as (p1 & E1 & Hi1 & Hc1 & Hb1 & Hl1 & Hd1). rewrite E1. cbn [mbind option_bind].
  destruct (IH p1 Hi1) as (p' & E & Hi' & Hc & Hb & Hk & Hd).
  { intros x Hx. specialize (Hb1 x). rewrite decide_False in Hb1 by (by intros ->). specialize (Hl x ltac:(by right)). apply dom_lookup in Hl as [ex Ex]. rewrite Ex in Hb1. apply dom_lookup. destruct (mapTx p1 !! x); [eauto|done]. }
  exists p'. split; [exact E|]. split; [done|]. split; [auto|]. split; [|split; [|congruence]].
  - intros x. rewrite Hb, Hb1. destruct (decide (x ∈ l)); [by rewrite decide_True by (by right)|]. destruct (decide (x = y)) as [->|]; [by rewrite decide_True by (by left)|]. rewrite decide_False; [done|]. by intros [?|?]%elem_of_cons.
  - intros x. rewrite Hk, Hl1. destruct (decide (x ∈ l)); [by rewrite decide_True by (by right)|]. destruct (decide (x = y)) as [->|]; [by rewrite decide_True, lookup_delete_eq by (by left)|]. rewrite lookup_delete_ne, decide_False by (try done; by intros [?|?]%elem_of_cons). done.
Qed.
End index.
End MemPoolIndex.
