(* ===== verification/MemPoolStats.v ===== *)
(** * MemPoolStats: the statistics that the entries of the memory pool carry

    Each entry keeps the number, size, fees and signature operations of its ancestors and descendants.  What they
    count is described by relations, one for the ancestors and one for the descendants; each
    step that updates statistics adds pairs to the relations or takes pairs away, and the pool is consistent
    when both are the reachability of its links. *)
From S2P Require Import Prelude Serialize Uint256 Script Transaction Interpreter Stake MemPool MemPoolGraph MemPoolIndex.
Open Scope Z_scope.
Open Scope list_scope.

Module MemPoolStats.
Import Transaction Stake MemPool MemPoolGraph MemPoolIndex.

Implicit Types p : CTxMemPool.
Implicit Types e : CTxMemPoolEntry.
Implicit Types A D F stage X Y : setEntries.
Implicit Types x y r : txid.
Implicit Types R : txid → txid → Prop.

(** ** Wrap-around of sums *)
Lemma wrap64 (a b : Z) : (a - b) mod 2 ^ 64 = 0 → u64 a = u64 b ∧ i64 a = i64 b.
Proof. intros E. unfold u64, i64. Z.div_mod_to_equations. lia. Qed.
Lemma wrap32 (a b : Z) : (a - b) mod 2 ^ 32 = 0 → u32 a = u32 b.
Proof. intros E. unfold u32. Z.div_mod_to_equations. lia. Qed.
Lemma u64_add_u64 (a b : Z) : u64 (u64 a + b) = u64 (a + b).
Proof. apply wrap64. unfold u64. Z.div_mod_to_equations. lia. Qed.
Lemma u64_add_i64 (a b : Z) : u64 (a + i64 b) = u64 (a + b).
Proof. apply wrap64. unfold i64. Z.div_mod_to_equations. lia. Qed.
Lemma i64_add_l (a b : Z) : i64 (i64 a + b) = i64 (a + b).
Proof. apply wrap64. unfold i64. Z.div_mod_to_equations. lia. Qed.
Lemma i64_add_r (a b : Z) : i64 (a + i64 b) = i64 (a + b).
Proof. apply wrap64. unfold i64. Z.div_mod_to_equations. lia. Qed.
Lemma u32_i64 (a : Z) : u32 (i64 a) = u32 a.
Proof. apply wrap32. unfold i64. Z.div_mod_to_equations. lia. Qed.
Lemma u32_add_i32 (a b : Z) : u32 (a + i32 b) = u32 (a + b).
Proof. apply wrap32. unfold i32. Z.div_mod_to_equations. lia. Qed.
Lemma u32_add_i64 (a b : Z) : u32 (a + i64 b) = u32 (a + b).
Proof. apply wrap32. unfold i64. Z.div_mod_to_equations. lia. Qed.
Lemma u32_add_eq (a a' b : Z) : u32 a = u32 a' → u32 (a + b) = u32 (a' + b).
Proof. unfold u32. intros E. by rewrite <- Zplus_mod_idemp_l, E, Zplus_mod_idemp_l. Qed.
Hint Rewrite u64_add_u64 u64_add_i64 i64_add_l i64_add_r u32_i64 u32_add_i32 u32_add_i64 : wrap.

Section stats.
Context (bytes usage : Z).
Notation tx_size := (tx_size bytes).
Definition mod_fee (p : CTxMemPool) (x : txid) : Z := default 0 (GetModifiedFee <$> mapTx p !! x).
Definition sig_ops (p : CTxMemPool) (x : txid) : Z := default 0 (sigOpCost <$> mapTx p !! x).
Definition desc_exact (p : CTxMemPool) (e : CTxMemPoolEntry) (Y : setEntries) : Prop :=
  nCountWithDescendants e = u64 (Z.of_nat (size Y)) ∧ nSizeWithDescendants e = u64 (sum (tx_size p) Y) ∧ nModFeesWithDescendants e = i64 (sum (mod_fee p) Y).
(** The signature operations are added as [int]s. *)
Definition anc_exact (p : CTxMemPool) (e : CTxMemPoolEntry) (X : setEntries) : Prop :=
  nCountWithAncestors e = u64 (Z.of_nat (size X)) ∧ nSizeWithAncestors e = u64 (sum (tx_size p) X) ∧ nModFeesWithAncestors e = i64 (sum (mod_fee p) X) ∧ u32 (nSigOpCostWithAncestors e) = u32 (sum (sig_ops p) X).
(** [Ra x a]: the ancestor [a] is counted in [x]; [Rd d x]: the descendant [d] is counted in [x]. *)
Definition stats (p : CTxMemPool) (Ra Rd : txid → txid → Prop) : Prop := ∀ x e, mapTx p !! x = Some e →
  ∃ X Y, (∀ a, a ∈ X ↔ Ra x a) ∧ (∀ d, d ∈ Y ↔ Rd d x) ∧ anc_exact p e X ∧ desc_exact p e Y.

(** ** One entry *)
Lemma size_remove X r : r ∈ X → Z.of_nat (size (X ∖ {[r]})) = Z.of_nat (size X) - 1.
Proof. intros Hr. rewrite <- !sum_count. by apply (sum_remove (λ _, 1)). Qed.
Lemma desc_add p e Y r : r ∉ Y → desc_exact p e Y → desc_exact p (UpdateDescendantState e (i64 (1 * tx_size p r)) (i64 (1 * mod_fee p r)) 1) ({[r]} ∪ Y).
Proof.
  intros Hr (Ec & Es & Ef). unfold desc_exact. cbn [nCountWithDescendants nSizeWithDescendants nModFeesWithDescendants UpdateDescendantState]. rewrite !sum_add by done. rewrite size_union, size_singleton by set_solver +Hr. rewrite Ec, Es, Ef.
  autorewrite with wrap. split_and!; f_equal; try lia.
Qed.
Lemma desc_remove p e Y r : r ∈ Y → desc_exact p e Y → desc_exact p (UpdateDescendantState e (i64 (-1 * tx_size p r)) (i64 (-1 * mod_fee p r)) (-1)) (Y ∖ {[r]}).
Proof.
  intros Hr (Ec & Es & Ef). unfold desc_exact. cbn [nCountWithDescendants nSizeWithDescendants nModFeesWithDescendants UpdateDescendantState]. rewrite !sum_remove by done. rewrite size_remove by done. rewrite Ec, Es, Ef.
  autorewrite with wrap. split_and!; f_equal; try lia.
Qed.
Lemma anc_remove p e X r : r ∈ X → anc_exact p e X → anc_exact p (UpdateAncestorState e (i64 (- tx_size p r)) (i64 (- mod_fee p r)) (-1) (i32 (- sig_ops p r))) (X ∖ {[r]}).
Proof.
  intros Hr (Ec & Es & Ef & Eo). unfold anc_exact. cbn [nCountWithAncestors nSizeWithAncestors nModFeesWithAncestors nSigOpCostWithAncestors UpdateAncestorState]. rewrite !sum_remove by done. rewrite size_remove by done. rewrite Ec, Es, Ef.
  autorewrite with wrap. split_and!; [f_equal; lia..|]. rewrite (u32_add_eq _ _ _ Eo). f_equal; lia.
Qed.
(** A set of ancestors at once. *)
Lemma anc_add_set p e X A ss sf so : X ## A → i64 ss = i64 (sum (tx_size p) A) → i64 sf = i64 (sum (mod_fee p) A) → u32 so = u32 (sum (sig_ops p) A) → anc_exact p e X →
  anc_exact p (UpdateAncestorState e ss sf (Z.of_nat (size A)) so) (X ∪ A).
Proof.
  intros Hd Hs Hf Ho (Ec & Es & Ef & Eo). unfold anc_exact. cbn [nCountWithAncestors nSizeWithAncestors nModFeesWithAncestors nSigOpCostWithAncestors UpdateAncestorState]. rewrite !sum_union, size_union by done. rewrite Ec, Es, Ef.
  split_and!.
  - rewrite u64_add_u64. f_equal. lia.
  - rewrite u64_add_u64, <- u64_add_i64, Hs, u64_add_i64. done.
  - rewrite i64_add_l, <- i64_add_r, Hf, i64_add_r. done.
  - autorewrite with wrap. rewrite (u32_add_eq _ _ _ Eo). rewrite Z.add_comm, (u32_add_eq _ _ _ Ho). f_equal. lia.
Qed.
(** The weights do not depend on the statistics. *)
Lemma frozen_fee p p' x : core <$> mapTx p' = core <$> mapTx p → mod_fee p' x = mod_fee p x.
Proof.
  intros E%(frozen_lookup _ _ x). unfold mod_fee. destruct (mapTx p' !! x), (mapTx p !! x); try done. cbn in E |- *. apply (inj Some) in E. by apply core_fee.
Qed.
Lemma frozen_ops p p' x : core <$> mapTx p' = core <$> mapTx p → sig_ops p' x = sig_ops p x.
Proof.
  intros E%(frozen_lookup _ _ x). unfold sig_ops. destruct (mapTx p' !! x), (mapTx p !! x); try done. cbn in E |- *. apply (inj Some) in E. by apply core_fields in E as (_ & _ & _ & _ & _ & _ & _ & -> & _).
Qed.
Lemma frozen_exact p p' e X Y : core <$> mapTx p' = core <$> mapTx p → anc_exact p e X → desc_exact p e Y → anc_exact p' e X ∧ desc_exact p' e Y.
Proof.
  intros E (A1 & A2 & A3 & A4) (D1 & D2 & D3). unfold anc_exact, desc_exact.
  assert (∀ Z, sum (tx_size p') Z = sum (tx_size p) Z) as E1 by (intros Z; apply sum_ext; intros; by apply frozen_size).
  assert (∀ Z, sum (mod_fee p') Z = sum (mod_fee p) Z) as E2 by (intros Z; apply sum_ext; intros; by apply frozen_fee).
  assert (∀ Z, sum (sig_ops p') Z = sum (sig_ops p) Z) as E3 by (intros Z; apply sum_ext; intros; by apply frozen_ops). rewrite !E1, !E2, !E3. auto.
Qed.
Lemma core_desc e a b c : core (UpdateDescendantState e a b c) = core e.
Proof. done. Qed.
Lemma core_anc e a b c d : core (UpdateAncestorState e a b c d) = core e.
Proof. done. Qed.

(** ** Steps *)
Definition step (p p' : CTxMemPool) : Prop := frozen p' = frozen p ∧ dom (mapLinks p') = dom (mapLinks p) ∧ (counted_usage usage p → counted_usage usage p').
Lemma step_refl p : step p p.
Proof. done. Qed.
Lemma step_trans p1 p2 p3 : step p1 p2 → step p2 p3 → step p1 p3.
Proof. intros (? & ? & ?) (? & ? & ?). split_and!; [congruence..|auto]. Qed.
Lemma step_dom p p' : step p p' → dom (mapTx p') = dom (mapTx p).
Proof. intros (E & _). by apply frozen_dom, frozen_core. Qed.
Lemma anc_par p p' x y : (∀ z, par p' z = par p z) → anc p' x y ↔ anc p x y.
Proof.
  intros E. split; induction 1 as [x y Hu|x z y Hu _ IH]; unfold up in Hu; [apply anc_parent; by rewrite <- E| |apply anc_parent; by rewrite E|]; (eapply anc_trans; [apply anc_parent|exact IH]); [by rewrite <- E|by rewrite E].
Qed.
Lemma step_upward p p' : step p p' → (∀ x, par p' x = par p x) → upward p → upward p'.
Proof.
  intros Hs Hp [Hd Hi Ha]. pose proof (step_dom _ _ Hs) as Ed. destruct Hs as (_ & El & _). constructor; [by rewrite El, Ed|intros x y; rewrite Hp, Ed; auto|intros x; rewrite (anc_par p p') by done; auto].
Qed.
Lemma step_child p y c add : upward p → y ∈ dom (mapTx p) → step p (UpdateChild usage p y c add).
Proof. intros Hu Hy. split_and!; [apply frozen_child| |by apply usage_child]. rewrite dom_child, (up_dom _ Hu). set_solver +Hy. Qed.
Lemma step_parent p y c add : dom (mapLinks p) = dom (mapTx p) → y ∈ dom (mapTx p) → step p (UpdateParent usage p y c add).
Proof. intros Hu Hy. split_and!; [apply frozen_parent| |by apply usage_parent]. rewrite dom_parent, Hu. set_solver +Hy. Qed.
(** New statistics. *)
Lemma counted_restat p m : core <$> m = core <$> mapTx p → counted_usage usage p → counted_usage usage (set_mapTx p m).
Proof.
  unfold counted_usage. cbn. intros E ->. f_equal. rewrite (frozen_dom p (set_mapTx p m) E : dom m = _). apply sum_ext. intros x _. unfold mem_use. f_equal.
  apply (frozen_lookup p (set_mapTx p m) x) in E. cbn in E |- *. destruct (m !! x), (mapTx p !! x); try done. apply (inj Some) in E. cbn. by apply core_fields in E as (_ & _ & _ & _ & _ & -> & _).
Qed.
Lemma step_restat p m : core <$> m = core <$> mapTx p → step p (set_mapTx p m).
Proof. intros E. split_and!; [by apply frozen_set_mapTx|done|by apply counted_restat]. Qed.
Lemma stats_ext p Ra Rd (Ra' Rd' : txid → txid → Prop) : (∀ x a, x ∈ dom (mapTx p) → Ra x a ↔ Ra' x a) → (∀ x d, x ∈ dom (mapTx p) → Rd d x ↔ Rd' d x) → stats p Ra Rd → stats p Ra' Rd'.
Proof.
  intros Ea Ed Hs x e Ex. assert (x ∈ dom (mapTx p)) as Hx by (apply dom_lookup; eauto). destruct (Hs x e Ex) as (X & Y & HX & HY & ?). exists X, Y. split_and!; [| |tauto..]; [intros a; by rewrite HX, Ea|intros d; by rewrite HY, Ed].
Qed.
(** Statistics do not depend on the links. *)
Lemma stats_mapTx p p' Ra Rd : mapTx p' = mapTx p → stats p Ra Rd → stats p' Ra Rd.
Proof.
  intros E Hs x e Ex. rewrite E in Ex. destruct (Hs x e Ex) as (X & Y & HX & HY & HA & HD). exists X, Y. split_and!; [done..| |]; apply (frozen_exact p p' e X Y); try done; by rewrite E.
Qed.
Lemma stats_restat p m X (f : CTxMemPoolEntry → CTxMemPoolEntry) Ra Rd (Ra' Rd' : txid → txid → Prop) : (∀ e, core (f e) = core e) → (∀ x, m !! x = if decide (x ∈ X) then f <$> mapTx p !! x else mapTx p !! x) →
  (∀ x e A D, x ∈ X → mapTx p !! x = Some e → (∀ a, a ∈ A ↔ Ra x a) → (∀ d, d ∈ D ↔ Rd d x) → anc_exact p e A → desc_exact p e D → ∃ A' D' : setEntries, (∀ a, a ∈ A' ↔ Ra' x a) ∧ (∀ d, d ∈ D' ↔ Rd' d x) ∧ anc_exact p (f e) A' ∧ desc_exact p (f e) D') →
  (∀ x, x ∉ X → (∀ a, Ra' x a ↔ Ra x a) ∧ (∀ d, Rd' d x ↔ Rd d x)) → stats p Ra Rd → stats (set_mapTx p m) Ra' Rd'.
Proof.
  intros Hf Hm Hin Hout Hs x e' Ex. pose proof (restated_core_on p m X f Hf Hm) as Ec. cbn in Ex. rewrite Hm in Ex. destruct (decide (x ∈ X)) as [HX|HX].
  - destruct (mapTx p !! x) as [e|] eqn:Ee; [|done]. apply (inj Some) in Ex as <-. destruct (Hs x e Ee) as (A & D & HA & HD & EA & ED). destruct (Hin x e A D HX Ee HA HD EA ED) as (A' & D' & HA' & HD' & EA' & ED').
    exists A', D'. split_and!; [done..| |]; by apply (frozen_exact p _ (f e) A' D').
  - destruct (Hs x e' Ex) as (A & D & HA & HD & EA & ED). destruct (Hout x HX) as [Oa Od]. exists A, D. split_and!; [intros a; by rewrite HA, Oa|intros d; by rewrite HD, Od|..]; by apply (frozen_exact p _ e' A D).
Qed.
Lemma weights p r e : mapTx p !! r = Some e → GetTxSize bytes e = tx_size p r ∧ GetModifiedFee e = mod_fee p r ∧ sigOpCost e = sig_ops p r.
Proof. unfold tx_size, mod_fee, sig_ops. by intros ->. Qed.

(** ** [UpdateAncestorsOf] *)
Lemma fold_child l c add : NoDup l → ∀ p, upward p → (∀ x, x ∈ l → x ∈ dom (mapTx p)) → step p (foldl (λ p y, UpdateChild usage p y c add) p l) ∧ mapTx (foldl (λ p y, UpdateChild usage p y c add) p l) = mapTx p ∧ (∀ x, par (foldl (λ p y, UpdateChild usage p y c add) p l) x = par p x) ∧
  ∀ x, chi (foldl (λ p y, UpdateChild usage p y c add) p l) x = if decide (x ∈ l) then (if add then {[c]} ∪ chi p x else chi p x ∖ {[c]}) else chi p x.
Proof.
  induction 1 as [|y l Hy Hnd IH]; intros p Hu Hl; cbn [foldl]; [by split_and!|]. assert (step p (UpdateChild usage p y c add)) as Hs by (apply step_child; [done|]; apply Hl; by left).
  destruct (IH (UpdateChild usage p y c add)) as (Hs' & Em & Ep & Ec). { apply (step_upward p); [done|intros; apply par_child|done]. } { intros x Hx. rewrite (step_dom _ _ Hs). apply Hl. by right. }
  split_and!; [by eapply step_trans|by rewrite Em, mapTx_child|intros x; by rewrite Ep, par_child|]. intros x. rewrite Ec, chi_child. destruct (decide (x = y)) as [->|Hne].
  - rewrite decide_False by done. by rewrite decide_True by (by left).
  - destruct (decide (x ∈ l)); [by rewrite decide_True by (by right)|]. rewrite decide_False; [done|]. by intros [?|?]%elem_of_cons.
Qed.
Lemma UpdateAncestorsOf_spec p add it e S : upward p → mapTx p !! it = Some e → S ⊆ dom (mapTx p) → ∃ p', UpdateAncestorsOf bytes usage p add it S = Some p' ∧ step p p' ∧ (∀ x, par p' x = par p x) ∧
  (∀ x, chi p' x = if decide (x ∈ par p it) then (if add then {[it]} ∪ chi p x else chi p x ∖ {[it]}) else chi p x) ∧
  ∀ x, mapTx p' !! x = if decide (x ∈ S) then (λ a, UpdateDescendantState a (i64 ((if add then 1 else -1) * tx_size p it)) (i64 ((if add then 1 else -1) * mod_fee p it)) (if add then 1 else -1)) <$> mapTx p !! x else mapTx p !! x.
Proof.
  intros Hu Ee HS. assert (it ∈ dom (mapTx p)) as Hit by (apply dom_lookup; eauto). unfold UpdateAncestorsOf. rewrite get_parents by done. cbn [mbind option_bind].
  destruct (fold_child (elements (par p it)) it add (NoDup_elements _) p Hu) as (Hs & Em & Ep & Ec). { intros x Hx%elem_of_elements. by apply (up_in _ Hu) in Hx as [_ ?]. }
  set (q := foldl _ p _) in *. rewrite Em, Ee. cbn [mbind option_bind]. destruct (weights p it e Ee) as (-> & -> & _).
  destruct (modify_set q S (λ a, UpdateDescendantState a (i64 ((if add then 1 else -1) * tx_size p it)) (i64 ((if add then 1 else -1) * mod_fee p it)) (if add then 1 else -1))) as (m & E & Hm); [by rewrite Em|].
  eexists. split; [exact E|]. pose proof (restated_core_on q m S _ (λ e, core_desc e _ _ _) Hm) as Hc. split_and!.
  - eapply step_trans; [exact Hs|]. by apply step_restat.
  - exact Ep.
  - intros x. unfold chi at 1. cbn [mapLinks set_mapTx]. change (chi q x = if decide (x ∈ par p it) then if add then {[it]} ∪ chi p x else chi p x ∖ {[it]} else chi p x). rewrite Ec. apply decide_ext. apply elem_of_elements.
  - intros x. cbn [mapTx set_mapTx]. by rewrite Hm, Em.
Qed.

(** ** The steps of [UpdateForRemoveFromMempool] *)
Lemma start_above p x e a : hash e = x → above p (start p e false) a ↔ anc p x a.
Proof.
  intros <-. unfold start, above. split; [intros (s & Hs%anc_parent & [->|Ha]); [done|by eapply anc_trans]|]. intros Ha. destruct (anc_first _ _ _ Ha) as (z & Hz & Hza). exists z. split; [done|]. destruct Hza; auto.
Qed.
Lemma indexed_step p p' : step p p' → indexed bytes p → indexed bytes p'.
Proof. intros (E & _). by apply indexed_frozen. Qed.
Lemma ancestors_of p x e : upward p → indexed bytes p → mapTx p !! x = Some e → ∃ A, CalculateMemPoolAncestors bytes p e no_limits false = Some (A, None) ∧ ∀ a, a ∈ A ↔ anc p x a.
Proof.
  intros Hu Hi Ex. pose proof (ix_keys _ _ Hi x e Ex) as Eh. destruct (CalculateMemPoolAncestors_spec bytes p e no_limits false Hu) as (A & err & E & Hno & Hok). { intros _. rewrite Eh. apply dom_lookup. eauto. }
  rewrite Hno in E by done. exists A. split; [done|]. destruct (Hok (Hno eq_refl)) as [HA _]. intros a. rewrite HA. by apply start_above.
Qed.
Lemma update_ancestors_spec p r Ra Rd : upward p → indexed bytes p → r ∈ dom (mapTx p) → stats p Ra Rd → (∀ a, anc p r a → Rd r a) →
  ∃ p', update_ancestors bytes usage p r = Some p' ∧ step p p' ∧ (∀ x, par p' x = par p x) ∧ (∀ x c, c ∈ chi p' x ↔ c ∈ chi p x ∧ ¬ (c = r ∧ x ∈ par p r)) ∧ stats p' Ra (λ d a, Rd d a ∧ ¬ (d = r ∧ anc p r a)).
Proof.
  intros Hu Hi [e Er]%dom_lookup Hs Hr. unfold update_ancestors. rewrite Er. cbn [mbind option_bind]. destruct (ancestors_of p r e Hu Hi Er) as (A & EA & HA). rewrite EA. cbn [mbind option_bind].
  destruct (UpdateAncestorsOf_spec p false r e A Hu Er) as (p' & E & Hst & Ep & Ec & Em). { intros a Ha%HA. by apply (anc_in _ _ _ Hu) in Ha as [_ ?]. }
  exists p'. split_and!; [done..| |].
  - intros x c. rewrite Ec. destruct (decide _) as [Hx|Hx]; [rewrite elem_of_difference, elem_of_singleton|]; naive_solver.
  - apply (stats_mapTx (set_mapTx p (mapTx p'))); [done|]. eapply (stats_restat p (mapTx p') A _ Ra Rd); [|exact Em| | |exact Hs]; [done| |].
    + intros x ex X Y Hx Ex HX HY EX EY. exists X, (Y ∖ {[r]}). split_and!; [done| |done|apply desc_remove; [|done]; by apply HY, Hr, HA]. intros d. rewrite elem_of_difference, elem_of_singleton, HY. apply HA in Hx. naive_solver.
    + intros x Hx. split; [done|]. intros d. rewrite HA in Hx. naive_solver.
Qed.
Lemma fold_update_ancestors l : NoDup l → ∀ p Ra Rd, upward p → indexed bytes p → (∀ r, r ∈ l → r ∈ dom (mapTx p)) → stats p Ra Rd → (∀ r a, r ∈ l → anc p r a → Rd r a) →
  ∃ p', fold_pool (update_ancestors bytes usage) p l = Some p' ∧ step p p' ∧ (∀ x, par p' x = par p x) ∧ (∀ x c, c ∈ chi p' x ↔ c ∈ chi p x ∧ ¬ (c ∈ l ∧ x ∈ par p c)) ∧ stats p' Ra (λ d a, Rd d a ∧ ¬ (d ∈ l ∧ anc p d a)).
Proof.
  induction 1 as [|r l Hr Hnd IH]; intros p Ra Rd Hu Hi Hl Hs Hc; cbn [fold_pool].
  { exists p. split_and!; [done..| |]; [set_solver +|]. eapply stats_ext; [| |exact Hs]; [done|]. intros x d _. set_solver +. }
  destruct (update_ancestors_spec p r Ra Rd Hu Hi) as (p1 & E1 & S1 & P1 & C1 & T1); [apply Hl; by left|done|intros a; apply Hc; by left|]. rewrite E1. cbn [mbind option_bind].
  assert (∀ x y, anc p1 x y ↔ anc p x y) as Ha by (intros; by apply anc_par). destruct (IH p1 _ _ (step_upward _ _ S1 P1 Hu) (indexed_step _ _ S1 Hi) ltac:(intros x Hx; rewrite (step_dom _ _ S1); apply Hl; by right) T1) as (p' & E & S' & P' & C' & T').
  { intros x a Hx Hxa%Ha. split; [apply Hc; [by right|done]|]. by intros [-> _]. }
  exists p'. split; [done|]. split_and!; [by eapply step_trans|intros x; by rewrite P'| |].
  - intros x c. rewrite C', C1, P1, elem_of_cons. naive_solver.
  - eapply stats_ext; [| |exact T']; [done|]. intros x d _. cbn beta. rewrite Ha, elem_of_cons. naive_solver.
Qed.
Lemma update_descendants_spec p r Ra Rd : linked p → r ∈ dom (mapTx p) → stats p Ra Rd → (∀ x, anc p x r → Ra x r) →
  ∃ p', update_descendants bytes p r = Some p' ∧ step p p' ∧ mapLinks p' = mapLinks p ∧ stats p' (λ x a, Ra x a ∧ ¬ (a = r ∧ anc p x r)) Rd.
Proof.
  intros Hl Hrd Hs Hr. unfold update_descendants. destruct (CalculateDescendants_spec p r ∅ Hl Hrd) as (D & E & HD); [set_solver +|]. rewrite E. cbn [mbind option_bind]. apply dom_lookup in Hrd as [e Er]. rewrite Er. cbn [mbind option_bind].
  destruct (weights p r e Er) as (-> & -> & ->).
  assert (∀ x, x ∈ D ∖ {[r]} ↔ anc p x r) as HD'. { intros x. rewrite elem_of_difference, elem_of_singleton, HD. split; [set_solver +|]. intros Hx. split; [auto|]. intros ->. by apply (lk_acyclic _ Hl) in Hx. }
  destruct (modify_set p (D ∖ {[r]}) (λ d, UpdateAncestorState d (i64 (- tx_size p r)) (i64 (- mod_fee p r)) (-1) (i32 (- sig_ops p r)))) as (m & Em & Hm). { intros x Hx%HD'. by apply (anc_in _ _ _ (linked_upward _ Hl)) in Hx as [? _]. }
  eexists. split; [exact Em|]. split; [apply step_restat; apply (restated_core_on p m (D ∖ {[r]}) _ (λ e, core_anc e _ _ _ _) Hm)|]. split; [done|].
  eapply (stats_restat p m _ _ Ra Rd); [|exact Hm| | |exact Hs]; [done| |].
  - intros x ex X Y Hx%HD' Ex HX HY EX EY. exists (X ∖ {[r]}), Y. split_and!; [|done|apply anc_remove; [by apply HX, Hr|done]|done]. intros a. rewrite elem_of_difference, elem_of_singleton, HX. naive_solver.
  - intros x Hx. rewrite HD' in Hx. split; [|done]. naive_solver.
Qed.
Lemma links_par p p' x : mapLinks p' = mapLinks p → par p' x = par p x.
Proof. unfold par. by intros ->. Qed.
Lemma links_chi p p' x : mapLinks p' = mapLinks p → chi p' x = chi p x.
Proof. unfold chi. by intros ->. Qed.
Lemma step_linked p p' : step p p' → mapLinks p' = mapLinks p → linked p → linked p'.
Proof.
  intros Hs El Hl. destruct (step_upward p p' Hs (λ x, links_par p p' x El) (linked_upward _ Hl)) as [? ? ?]. constructor; [done| |done..]. intros x y. rewrite (links_par p p'), (links_chi p p') by done. apply (lk_conv _ Hl).
Qed.
Lemma fold_update_descendants l : NoDup l → ∀ p Ra Rd, linked p → (∀ r, r ∈ l → r ∈ dom (mapTx p)) → stats p Ra Rd → (∀ r x, r ∈ l → anc p x r → Ra x r) →
  ∃ p', fold_pool (update_descendants bytes) p l = Some p' ∧ step p p' ∧ mapLinks p' = mapLinks p ∧ stats p' (λ x a, Ra x a ∧ ¬ (a ∈ l ∧ anc p x a)) Rd.
Proof.
  induction 1 as [|r l Hr Hnd IH]; intros p Ra Rd Hu Hl Hs Hc; cbn [fold_pool].
  { exists p. split_and!; [done..|]. eapply stats_ext; [| |exact Hs]; [|done]. intros x a _. set_solver +. }
  destruct (update_descendants_spec p r Ra Rd Hu) as (p1 & E1 & S1 & L1 & T1); [apply Hl; by left|done|intros a; apply Hc; by left|]. rewrite E1. cbn [mbind option_bind].
  assert (∀ x y, anc p1 x y ↔ anc p x y) as Ha by (intros; apply anc_par; intros; by apply links_par). destruct (IH p1 _ _ (step_linked _ _ S1 L1 Hu) ltac:(intros x Hx; rewrite (step_dom _ _ S1); apply Hl; by right) T1) as (p' & E & S' & L' & T').
  { intros a x Hx Hxa%Ha. split; [apply Hc; [by right|done]|]. by intros [-> _]. }
  exists p'. split; [done|]. split_and!; [by eapply step_trans|congruence|]. eapply stats_ext; [| |exact T']; [|done]. intros x a _. cbn beta. rewrite Ha, elem_of_cons. naive_solver.
Qed.
End stats.
End MemPoolStats.
