(* ===== verification/MemPoolRemove.v ===== *)
(** * MemPoolRemove: removing from the memory pool keeps it consistent

    The invariant of the pool, and that [RemoveStaged] and the operations built on it keep it: they remove exactly
    the entries they should, and what is left is linked, counted and indexed as if the removed entries had never been there. *)
From S2P Require Import Prelude Serialize Uint256 Script Transaction Interpreter Stake MemPool MemPoolGraph MemPoolIndex MemPoolStats.
Open Scope Z_scope.
Open Scope list_scope.

Module MemPoolRemove.
Import Transaction Stake MemPool MemPoolGraph MemPoolIndex MemPoolStats.

Implicit Types p : CTxMemPool.
Implicit Types e : CTxMemPoolEntry.
Implicit Types A B D F stage X Y : setEntries.
Implicit Types x y r : txid.

Section remove.
Context (bytes usage : Z).
Notation tx_size := (tx_size bytes).
Notation stats := (stats bytes).
Notation step := (step usage).
Definition lineage (p : CTxMemPool) (x a : txid) : Prop := a = x ∨ anc p x a.
(** The links are the spends between entries, but for the transactions of [B], whose children are not linked yet. *)
Definition spends_linked (B : setEntries) (p : CTxMemPool) : Prop := ∀ x e, mapTx p !! x = Some e → ∀ y, y ∈ par p x ↔ is_private e = false ∧ y ∈ inputs (tx e) ∧ y ∈ dom (mapTx p) ∧ (x ∈ B ∨ y ∉ B).
Record consistent (B : setEntries) (p : CTxMemPool) : Prop := {
  cs_linked : linked p;
  cs_spends : spends_linked B p;
  cs_stats : stats p (lineage p) (lineage p);
  cs_index : indexed bytes p;
  cs_usage : counted_usage usage p }.

Lemma decide_elements {T} x X (a b : T) : (if decide (x ∈ elements X) then a else b) = if decide (x ∈ X) then a else b.
Proof. apply decide_ext. apply elem_of_elements. Qed.

(** ** The children of removed entries *)
Lemma fold_parent_remove r l : NoDup l → ∀ p, dom (mapLinks p) = dom (mapTx p) → (∀ x, x ∈ l → x ∈ dom (mapTx p)) → step p (foldl (λ p y, UpdateParent usage p y r false) p l) ∧ mapTx (foldl (λ p y, UpdateParent usage p y r false) p l) = mapTx p ∧
  (∀ x, chi (foldl (λ p y, UpdateParent usage p y r false) p l) x = chi p x) ∧ ∀ x y, y ∈ par (foldl (λ p y, UpdateParent usage p y r false) p l) x ↔ y ∈ par p x ∧ ¬ (y = r ∧ x ∈ l).
Proof.
  induction 1 as [|z l Hz Hnd IH]; intros p Hu Hl; cbn [foldl]; [split_and!; [done..|]; set_solver +|]. assert (step p (UpdateParent usage p z r false)) as Hs by (apply step_parent; [done|]; apply Hl; by left).
  destruct (IH (UpdateParent usage p z r false)) as (Hs' & Em & Ec & Ep). { destruct Hs as (_ & -> & _). by rewrite mapTx_parent. } { intros x Hx. rewrite mapTx_parent. apply Hl. by right. }
  split_and!; [by eapply step_trans|by rewrite Em, mapTx_parent|intros x; by rewrite Ec, chi_parent|]. intros x y. rewrite Ep, par_parent, elem_of_cons. destruct (decide (x = z)) as [->|Hne]; [rewrite elem_of_difference, elem_of_singleton; clear|clear -Hne]; naive_solver.
Qed.
Lemma UpdateChildrenForRemoval_spec p r : dom (mapLinks p) = dom (mapTx p) → r ∈ dom (mapTx p) → chi p r ⊆ dom (mapTx p) → ∃ p', UpdateChildrenForRemoval usage p r = Some p' ∧ step p p' ∧ mapTx p' = mapTx p ∧ (∀ x, chi p' x = chi p x) ∧
  ∀ x y, y ∈ par p' x ↔ y ∈ par p x ∧ ¬ (y = r ∧ x ∈ chi p y).
Proof.
  intros Hd Hr Hc. unfold UpdateChildrenForRemoval. assert (GetMemPoolChildren p r = Some (chi p r)) as ->.
  { pose proof Hr as Hr'. rewrite <- Hd in Hr'. apply elem_of_dom in Hr' as [l El]. apply dom_lookup in Hr as [e Ee]. unfold GetMemPoolChildren, chi. by rewrite Ee, El. }
  cbn [mbind option_bind]. destruct (fold_parent_remove r (elements (chi p r)) (NoDup_elements _) p Hd) as (Hs & Em & Ec & Ep); [intros x Hx%elem_of_elements; auto|].
  eexists. split; [reflexivity|]. split_and!; [done..|]. intros x y. rewrite Ep, elem_of_elements. naive_solver.
Qed.
Lemma fold_children_removal l : ∀ p, dom (mapLinks p) = dom (mapTx p) → (∀ r, r ∈ l → r ∈ dom (mapTx p)) → (∀ r, chi p r ⊆ dom (mapTx p)) → ∃ p', fold_pool (UpdateChildrenForRemoval usage) p l = Some p' ∧ step p p' ∧ mapTx p' = mapTx p ∧ (∀ x, chi p' x = chi p x) ∧
  ∀ x y, y ∈ par p' x ↔ y ∈ par p x ∧ ¬ (y ∈ l ∧ x ∈ chi p y).
Proof.
  induction l as [|r l IH]; intros p Hd Hl Hc; cbn [fold_pool]; [exists p; split_and!; [done..|]; set_solver +|]. destruct (UpdateChildrenForRemoval_spec p r Hd) as (p1 & E1 & S1 & M1 & C1 & P1); [apply Hl; by left|done|]. rewrite E1. cbn [mbind option_bind].
  destruct (IH p1) as (p' & E & S' & M' & C' & P'). { destruct S1 as (_ & -> & _). by rewrite M1. } { intros x Hx. rewrite M1. apply Hl. by right. } { intros x. rewrite C1, M1. auto. }
  exists p'. split_and!; [done|by eapply step_trans|congruence|intros x; by rewrite C'|]. intros x y. rewrite P', P1, C1, elem_of_cons. naive_solver.
Qed.

(** ** [UpdateForRemoveFromMempool] *)
Lemma chi_in p x c : linked p → c ∈ chi p x → c ∈ dom (mapTx p) ∧ x ∈ dom (mapTx p).
Proof. intros Hl Hc. apply (lk_conv _ Hl) in Hc. by apply (lk_in _ Hl) in Hc. Qed.
Lemma UpdateForRemove_spec B p stage (upd : bool) : consistent B p → stage ⊆ dom (mapTx p) → ∃ p', UpdateForRemoveFromMempool bytes usage p stage upd = Some p' ∧ step p p' ∧
  (∀ x c, c ∈ chi p' x ↔ c ∈ chi p x ∧ c ∉ stage) ∧ (∀ x y, y ∈ par p' x ↔ y ∈ par p x ∧ ¬ (y ∈ stage ∧ x ∉ stage)) ∧
  stats p' (λ x a, lineage p x a ∧ ¬ (upd = true ∧ a ∈ stage ∧ anc p x a)) (λ d a, lineage p d a ∧ ¬ (d ∈ stage ∧ anc p d a)).
Proof.
  intros Hc HS. destruct Hc as [Hl _ Hs Hi _]. pose proof (linked_upward _ Hl) as Hu. assert (∀ r, r ∈ elements stage → r ∈ dom (mapTx p)) as He by (intros r Hr%elem_of_elements; auto). unfold UpdateForRemoveFromMempool.
  assert (∃ p1, (if upd then fold_pool (update_descendants bytes) p (elements stage) else Some p) = Some p1 ∧ step p p1 ∧ mapLinks p1 = mapLinks p ∧ stats p1 (λ x a, lineage p x a ∧ ¬ (upd = true ∧ a ∈ stage ∧ anc p x a)) (lineage p)) as (p1 & E1 & S1 & L1 & T1).
  { destruct upd.
    - destruct (fold_update_descendants bytes usage (elements stage) (NoDup_elements _) p (lineage p) (lineage p) Hl He Hs) as (p1 & E1 & S1 & L1 & T1); [by right|]. exists p1. split_and!; [done..|]. eapply stats_ext; [| |exact T1]; [|done].
      intros x a _. cbn beta. rewrite elem_of_elements. naive_solver.
    - exists p. split_and!; [done..|]. eapply stats_ext; [| |exact Hs]; [|done]. naive_solver. }
  rewrite E1. cbn [mbind option_bind]. assert (∀ x y, anc p1 x y ↔ anc p x y) as Ha1 by (intros; apply anc_par; intros; by apply links_par).
  destruct (fold_update_ancestors bytes usage (elements stage) (NoDup_elements _) p1 _ _ (step_upward _ _ _ S1 (λ x, links_par p p1 x L1) Hu) (indexed_step _ _ _ _ S1 Hi) ltac:(intros r Hr; rewrite (step_dom _ _ _ S1); auto) T1) as (p2 & E2 & S2 & P2 & C2 & T2).
  { intros r a _ Ha%Ha1. by right. }
  rewrite E2. cbn [mbind option_bind]. pose proof (step_trans _ _ _ _ S1 S2) as S12. assert (∀ x c, c ∈ chi p2 x ↔ c ∈ chi p x ∧ c ∉ stage) as C2'.
  { intros x c. rewrite C2, elem_of_elements, (links_par p p1), (links_chi p p1) by done. split; [|naive_solver]. intros [Hcx Hn]. split; [done|]. intros Hst. apply Hn. split; [done|]. by apply (lk_conv _ Hl). }
  destruct (fold_children_removal (elements stage) p2) as (p3 & E3 & S3 & M3 & C3 & P3).
  { rewrite (step_dom _ _ _ S12). destruct S12 as (_ & -> & _). apply (lk_dom _ Hl). } { intros r Hr. rewrite (step_dom _ _ _ S12). auto. } { intros r c [Hcr _]%C2'. rewrite (step_dom _ _ _ S12). by apply (chi_in p r c Hl). }
  exists p3. split; [done|]. split_and!; [by eapply step_trans|intros x c; by rewrite C3, C2'| |].
  - intros x y. rewrite P3, P2, (links_par p p1), elem_of_elements, C2' by done. split; [|naive_solver]. intros [Hy Hn]. split; [done|]. intros [? ?]. apply Hn. split_and!; [done| |done]. by apply (lk_conv _ Hl).
  - apply (stats_mapTx bytes p2); [done|]. eapply stats_ext; [| |exact T2]; [done|]. intros x d _. cbn beta. rewrite Ha1, elem_of_elements. naive_solver.
Qed.

(** ** [RemoveStaged] *)
(** What identifies an entry: all but its statistics and its position in the vector of hashes. *)
Definition base (e : CTxMemPoolEntry) : CTxMemPoolEntry := bare (core e).
Lemma base_fields e e' : base e = base e' → tx e = tx e' ∧ hash e = hash e' ∧ nTime e = nTime e' ∧ nFee e = nFee e' ∧ feeDelta e = feeDelta e' ∧ nTxWeight e = nTxWeight e' ∧ sigOpCost e = sigOpCost e'.
Proof. unfold base, bare, core, set_idx. cbn. intros [=]. auto 20. Qed.
Definition closed (p : CTxMemPool) (stage : setEntries) (upd : bool) : Prop := ∀ x a, anc p x a → if upd then x ∈ stage → a ∈ stage else a ∈ stage → x ∈ stage.
Definition remains (stage : setEntries) (p p' : CTxMemPool) : Prop := ∀ x, base <$> mapTx p' !! x = if decide (x ∈ stage) then None else base <$> mapTx p !! x.
Lemma remains_dom stage p p' : remains stage p p' → dom (mapTx p') = dom (mapTx p) ∖ stage.
Proof.
  intros Hlf. apply set_eq. intros x. rewrite elem_of_difference, !elem_of_dom. specialize (Hlf x). destruct (decide (x ∈ stage)).
  - destruct (mapTx p' !! x); [done|]. split; [by intros []|naive_solver].
  - destruct (mapTx p' !! x), (mapTx p !! x); try done; naive_solver.
Qed.
Lemma remains_entry stage p p' x e' : remains stage p p' → mapTx p' !! x = Some e' → x ∉ stage ∧ ∃ e, mapTx p !! x = Some e ∧ base e' = base e.
Proof.
  intros Hlf Ex. specialize (Hlf x). rewrite Ex in Hlf. destruct (decide (x ∈ stage)); [done|]. split; [done|]. destruct (mapTx p !! x) as [e|]; [|done]. exists e. split; [done|]. by apply (inj Some) in Hlf.
Qed.
Lemma remains_trans X Y p1 p2 p3 : remains X p1 p2 → remains Y p2 p3 → remains (X ∪ Y) p1 p3.
Proof.
  intros L1 L2 x. rewrite L2, L1. destruct (decide (x ∈ Y)); [by rewrite decide_True by (apply elem_of_union; auto)|]. destruct (decide (x ∈ X)); [by rewrite decide_True by (apply elem_of_union; auto)|]. rewrite decide_False; [done|]. by intros [?|?]%elem_of_union.
Qed.
Lemma remains_refl p : remains ∅ p p.
Proof. intros x. by rewrite decide_False by set_solver +. Qed.
Lemma bare_fee e e' : bare e = bare e' → GetModifiedFee e = GetModifiedFee e'.
Proof. intros E. unfold GetModifiedFee. pose proof (f_equal nFee E) as E1. pose proof (f_equal feeDelta E) as E2. cbn in E1, E2. by rewrite E1, E2. Qed.
Lemma bare_stats e e' : bare e = bare e' → nCountWithDescendants e = nCountWithDescendants e' ∧ nSizeWithDescendants e = nSizeWithDescendants e' ∧ nModFeesWithDescendants e = nModFeesWithDescendants e' ∧
  nCountWithAncestors e = nCountWithAncestors e' ∧ nSizeWithAncestors e = nSizeWithAncestors e' ∧ nModFeesWithAncestors e = nModFeesWithAncestors e' ∧ nSigOpCostWithAncestors e = nSigOpCostWithAncestors e'.
Proof. unfold bare, set_idx. intros [=]. auto 10. Qed.
Lemma stats_survivors p p' stage Ra Rd (Ra' Rd' : txid → txid → Prop) : (∀ x, x ∉ stage → bare <$> mapTx p' !! x = bare <$> mapTx p !! x) → (∀ x, x ∈ dom (mapTx p') → x ∉ stage) →
  (∀ x a, x ∉ stage → Ra x a ↔ Ra' x a) → (∀ x d, x ∉ stage → Rd d x ↔ Rd' d x) → (∀ x a, x ∈ dom (mapTx p') → Ra' x a → a ∉ stage) → (∀ x d, x ∈ dom (mapTx p') → Rd' d x → d ∉ stage) → stats p Ra Rd → stats p' Ra' Rd'.
Proof.
  intros Hb Hd Ea Ed Na Nd Hs x e' Ex. assert (x ∈ dom (mapTx p')) as Hx by (apply dom_lookup; eauto). pose proof (Hd x Hx) as Hn. pose proof (Hb x Hn) as Ebx. rewrite Ex in Ebx. destruct (mapTx p !! x) as [e|] eqn:Ee; [|done]. apply (inj Some) in Ebx.
  destruct (Hs x e Ee) as (X & Y & HX & HY & EX & EY). exists X, Y. assert (∀ a, a ∈ X ↔ Ra' x a) as HX' by (intros a; by rewrite HX, Ea). assert (∀ d, d ∈ Y ↔ Rd' d x) as HY' by (intros d; by rewrite HY, Ed).
  assert (∀ Z, (∀ z, z ∈ Z → z ∉ stage) → sum (tx_size p') Z = sum (tx_size p) Z ∧ sum (mod_fee p') Z = sum (mod_fee p) Z ∧ sum (sig_ops p') Z = sum (sig_ops p) Z) as Hw.
  { intros Z HZ. split_and!; apply sum_ext; intros z Hz; specialize (Hb z (HZ z Hz)); [by apply bare_size|unfold mod_fee|unfold sig_ops]; destruct (mapTx p' !! z), (mapTx p !! z); try done; apply (inj Some) in Hb; cbn; [apply (bare_fee _ _ Hb)|apply (f_equal sigOpCost Hb)]. }
  destruct (Hw X) as (W1 & W2 & W3); [intros z Hz%HX'; eauto|]. destruct (Hw Y) as (V1 & V2 & V3); [intros z Hz%HY'; eauto|]. unfold anc_exact, desc_exact in *. rewrite W1, W2, W3, V1, V2.
  apply bare_stats in Ebx as (-> & -> & -> & -> & -> & -> & ->). tauto.
Qed.
(** Paths between entries that are left. *)
Lemma anc_left p p' stage upd x y : closed p stage upd → (∀ x y, y ∈ par p' x ↔ x ∉ stage ∧ y ∉ stage ∧ y ∈ par p x) → anc p' x y ↔ x ∉ stage ∧ y ∉ stage ∧ anc p x y.
Proof.
  intros Hc Hp. split.
  - induction 1 as [x y Hu|x z y Hu _ IH]; unfold up in Hu; apply Hp in Hu as (? & ? & Hu); apply anc_parent in Hu; [done|]. destruct IH as (? & ? & ?). split_and!; [done..|]. by eapply anc_trans.
  - intros (Hx & Hy & Ha). induction Ha as [x y Hu|x z y Hu Ha IH].
    + apply anc_parent, Hp. done.
    + assert (z ∉ stage) as Hz. { intros Hz. destruct upd; [apply Hy; by apply (Hc z y)|apply Hx; apply (Hc x z); [by apply anc_parent|done]]. } eapply anc_trans; [apply anc_parent, Hp; split_and!; done|auto].
Qed.
Lemma RemoveStaged_spec B p stage upd : consistent B p → stage ⊆ dom (mapTx p) → closed p stage upd → ∃ p', RemoveStaged bytes usage p stage upd = Some p' ∧ consistent B p' ∧ remains stage p p' ∧ mapDeltas p' = mapDeltas p ∧
  ∀ x y, anc p' x y ↔ x ∉ stage ∧ y ∉ stage ∧ anc p x y.
Proof.
  intros Hc HS Hcl. destruct (UpdateForRemove_spec B p stage upd Hc HS) as (p1 & E1 & S1 & C1 & P1 & T1). destruct Hc as [Hl Hsp _ Hi Hus]. unfold RemoveStaged. rewrite E1. cbn [mbind option_bind].
  destruct (remove_all_indexed bytes usage (elements stage) (NoDup_elements _) p1) as (p' & E' & I' & U' & B' & L' & D'). { by apply (indexed_step bytes usage p). } { intros x Hx%elem_of_elements. rewrite (step_dom _ _ _ S1). auto. }
  setoid_rewrite decide_elements in B'. setoid_rewrite decide_elements in L'. assert (∀ x y, y ∈ par p' x ↔ x ∉ stage ∧ y ∉ stage ∧ y ∈ par p x) as P'.
  { intros x y. assert (par p' x = if decide (x ∈ stage) then ∅ else par p1 x) as -> by (unfold par; rewrite L'; by destruct (decide _)). destruct (decide _); [set_solver|]. rewrite P1. naive_solver. }
  assert (∀ x c, c ∈ chi p' x ↔ x ∉ stage ∧ c ∉ stage ∧ c ∈ chi p x) as C'.
  { intros x y. assert (chi p' x = if decide (x ∈ stage) then ∅ else chi p1 x) as -> by (unfold chi; rewrite L'; by destruct (decide _)). destruct (decide _); [set_solver|]. rewrite C1. naive_solver. }
  assert (remains stage p p') as Hlf.
  { intros x. specialize (B' x). destruct S1 as (F1 & _). apply frozen_core, (frozen_lookup _ _ x) in F1. destruct (decide (x ∈ stage)); [by destruct (mapTx p' !! x)|].
    transitivity (bare <$> (core <$> mapTx p1 !! x)); [|rewrite F1; by destruct (mapTx p !! x)]. transitivity (core <$> (bare <$> mapTx p' !! x)); [by destruct (mapTx p' !! x)|]. rewrite B'. by destruct (mapTx p1 !! x). }
  pose proof (remains_dom _ _ _ Hlf) as Ed. assert (∀ x y, anc p' x y ↔ x ∉ stage ∧ y ∉ stage ∧ anc p x y) as Ha by (intros; by eapply anc_left).
  exists p'. split; [done|]. split; [|split_and!; [done| |done]]; [|rewrite D'; destruct S1 as (F1 & _); unfold frozen in F1; congruence]. constructor; [constructor| | | |].
  - rewrite Ed, <- (lk_dom _ Hl). destruct S1 as (_ & <- & _). apply set_eq. intros x. rewrite elem_of_difference, !elem_of_dom, L'. destruct (decide _); [|naive_solver]. split; [by intros []|naive_solver].
  - intros x y. rewrite P', C', (lk_conv _ Hl). naive_solver.
  - intros x y (? & ? & Hy)%P'. rewrite Ed, !elem_of_difference. apply (lk_in _ Hl) in Hy. naive_solver.
  - intros x (_ & _ & Hx)%Ha. by apply (lk_acyclic _ Hl) in Hx.
  - intros x e' Ex y. destruct (remains_entry _ _ _ _ _ Hlf Ex) as (Hx & e & Ex' & Eb). rewrite P', (Hsp x e Ex' y), Ed, elem_of_difference. unfold is_private. apply base_fields in Eb as (-> & _). naive_solver.
  - eapply (stats_survivors p1 p' stage); [| | | | | |exact T1].
    + intros x Hx. rewrite B'. by rewrite decide_False.
    + intros x. rewrite Ed. set_solver +.
    + intros x a Hx. unfold lineage. rewrite Ha. split; [intros [[->|Hxa] Hn]; [by left|]; right; split_and!; [done| |done]; intros Has; destruct upd; [by apply Hn|by apply Hx, (Hcl x a)]|].
      intros [->|(_ & ? & ?)]; (split; [auto|]); naive_solver.
    + intros x d Hx. unfold lineage. rewrite Ha. split; [intros [[->|Hxa] Hn]; [by left|]; right; split_and!; [|done..]; intros Hd; by apply Hn|].
      intros [->|(? & _ & ?)]; (split; [auto|]); naive_solver.
    + intros x a Hx [->|(_ & ? & _)%Ha]; [|done]. rewrite Ed in Hx. set_solver +Hx.
    + intros x a Hx [->|(? & _)%Ha]; [|done]. rewrite Ed in Hx. set_solver +Hx.
  - done.
  - apply U'. destruct S1 as (_ & _ & ?). auto.
Qed.
End remove.
End MemPoolRemove.
