(* ===== verification/MemPoolAdd.v ===== *)
(** * MemPoolAdd: adding to the memory pool keeps it consistent

    [addUnchecked] with the right ancestors adds the entry, links it to its parents, counts it in its ancestors and
    its ancestors in it, and enters it in the indexes. *)
From S2P Require Import Prelude Serialize Uint256 Script Transaction Interpreter Stake MemPool MemPoolGraph MemPoolIndex MemPoolStats MemPoolRemove.
Open Scope Z_scope.
Open Scope list_scope.

Module MemPoolAdd.
Import Transaction Stake MemPool MemPoolGraph MemPoolIndex MemPoolStats MemPoolRemove.

Implicit Types p : CTxMemPool.
Implicit Types e : CTxMemPoolEntry.
Implicit Types A B D F P stage X Y : setEntries.
Implicit Types x y h : txid.

Section add.
Context (bytes usage : Z).
Notation tx_size := (tx_size bytes).
Notation stats := (stats bytes).
Notation step := (step usage).
(** An entry as its constructor leaves it. *)
Record fresh (e : CTxMemPoolEntry) : Prop := {
  fr_delta : feeDelta e = 0;
  fr_fee : - 2 ^ 63 <= nFee e < 2 ^ 63;
  fr_desc : nCountWithDescendants e = 1 ∧ nSizeWithDescendants e = GetTxSize bytes e ∧ nModFeesWithDescendants e = nFee e;
  fr_anc : nCountWithAncestors e = 1 ∧ nSizeWithAncestors e = GetTxSize bytes e ∧ nModFeesWithAncestors e = nFee e ∧ nSigOpCostWithAncestors e = sigOpCost e }.
Lemma CTxMemPoolEntry_fresh t h w fee time v cb so us e : - 2 ^ 63 <= fee < 2 ^ 63 → CTxMemPoolEntry_of bytes t h w fee time v cb so us = Some e → fresh e ∧ tx e = t ∧ hash e = h ∧ wtxid e = w.
Proof.
  intros Hf. unfold CTxMemPoolEntry_of. destruct (GetTransactionWeight t) as [wt|]; [|done]. destruct (GetValueOut t) as [out|]; [|done]. cbn [mbind option_bind]. destruct (_ && _); [done|]. intros [= <-]. split; [|done]. by constructor.
Qed.

(** ** The entry with its fee delta *)
Definition with_delta (p : CTxMemPool) (h : txid) (e : CTxMemPoolEntry) : CTxMemPoolEntry :=
  match mapDeltas p !! h with Some d => if negb (d =? 0) then UpdateFeeDelta e d else e | None => e end.
Definition inserted (p : CTxMemPool) (h : txid) (e : CTxMemPoolEntry) : CTxMemPool :=
  mkPool (<[h := with_delta p h e]> (mapTx p)) (<[h := no_links]> (mapLinks p)) (mapNextTx p) (mapDeltas p) (vTxHashes p) (totalTxSize p) (u64 (cachedInnerUsage p + nUsageSize e)) (nTransactionsUpdated p).
Lemma addUnchecked_unfold p h e S : hash e = h → h ∉ dom (mapTx p) → dom (mapLinks p) = dom (mapTx p) → addUnchecked bytes usage p h e S =
  (p ← (if negb (is_private e) then link_entry bytes usage (inserted p h e) e S else Some (inserted p h e));
   Some (mkPool (mapTx p) (mapLinks p) (mapNextTx p) (mapDeltas p) (vTxHashes p) (u64 (totalTxSize p + GetTxSize bytes e)) (cachedInnerUsage p) (u32 (nTransactionsUpdated p + 1)))).
Proof.
  intros <- Hn Hd. unfold addUnchecked, inserted, with_delta, insert_new. rewrite (not_elem_of_dom_1 _ _ Hn). rewrite <- Hd in Hn. cbn [mapLinks mapDeltas set_mapTx set_links mapTx]. rewrite (not_elem_of_dom_1 _ _ Hn).
  destruct (mapDeltas p !! hash e) as [d|]; [|done]. destruct (negb (d =? 0)); [|done]. unfold modify. cbn [mapTx set_links set_mapTx]. rewrite lookup_insert_eq. cbn [mbind option_bind]. unfold set_links, set_mapTx. cbn. by rewrite insert_insert_eq.
Qed.
Lemma with_delta_fields p h e : fresh e → tx (with_delta p h e) = tx e ∧ hash (with_delta p h e) = hash e ∧ wtxid (with_delta p h e) = wtxid e ∧ nUsageSize (with_delta p h e) = nUsageSize e ∧ is_private (with_delta p h e) = is_private e ∧
  GetTxSize bytes (with_delta p h e) = GetTxSize bytes e ∧ feeDelta (with_delta p h e) = default 0 (mapDeltas p !! h).
Proof.
  intros Hf. unfold with_delta. destruct (mapDeltas p !! h) as [d|]; [|by rewrite (fr_delta _ Hf)]. destruct (Z.eqb_spec d 0) as [->|]; cbn [negb]; [by rewrite (fr_delta _ Hf)|]. done.
Qed.
(** The entry counts itself. *)
Lemma with_delta_exact p q h e : fresh e → mapTx q !! h = Some (with_delta p h e) → anc_exact bytes q (with_delta p h e) {[h]} ∧ desc_exact bytes q (with_delta p h e) {[h]}.
Proof.
  intros [F0 F1 (F2 & F3 & F4) (F5 & F6 & F7 & F8)] Eq. unfold anc_exact, desc_exact. destruct (weights bytes q h _ Eq) as (W1 & W2 & W3). rewrite !sum_singleton, !size_singleton, <- W1, <- W2, <- W3. clear -F0 F1 F2 F3 F4 F5 F6 F7 F8.
  assert (u64 (GetTxSize bytes e) = GetTxSize bytes e) as Es by (apply u64_small, u64_range). unfold with_delta. destruct (mapDeltas p !! h) as [d|]; [destruct (negb (d =? 0))|];
    unfold GetModifiedFee, UpdateFeeDelta; cbn; rewrite ?F0, ?F2, ?F3, ?F4, ?F5, ?F6, ?F7, ?F8, ?Z.sub_0_r, ?Z.add_0_r; change (MemPool.GetTxSize bytes (mkEntry _ _ _ _ _ _ _ _ _ _ _ _ _ _ _ _ _ _)) with (GetTxSize bytes e);
    rewrite ?Es, ?i64_add_r; (assert (∀ z, i64 (i64 z) = i64 z) as Ei by (intros z; apply i64_small, i64_range)); rewrite ?Ei; try rewrite (i64_small (nFee e)) by lia; done.
Qed.

(** ** The entry alone *)
Lemma par_out p x : upward p → x ∉ dom (mapTx p) → par p x = ∅ ∧ mapLinks p !! x = None.
Proof. intros Hu Hx. rewrite <- (up_dom _ Hu) in Hx. apply not_elem_of_dom in Hx. unfold par. by rewrite Hx. Qed.
Lemma chi_out p x : upward p → x ∉ dom (mapTx p) → chi p x = ∅.
Proof. intros Hu Hx. destruct (par_out p x Hu Hx) as [_ E]. unfold chi. by rewrite E. Qed.
Lemma inserted_links p h e x : upward p → h ∉ dom (mapTx p) → par (inserted p h e) x = par p x ∧ chi (inserted p h e) x = chi p x.
Proof.
  intros Hu Hh. unfold par, chi. cbn [mapLinks inserted]. destruct (decide (x = h)) as [->|]; [|by rewrite lookup_insert_ne]. rewrite lookup_insert_eq. destruct (par_out p h Hu Hh) as [_ ->]. done.
Qed.
Lemma inserted_dom p h e : dom (mapTx (inserted p h e)) = {[h]} ∪ dom (mapTx p).
Proof. cbn. apply dom_insert_L. Qed.
Lemma inserted_linked p h e : linked p → h ∉ dom (mapTx p) → linked (inserted p h e).
Proof.
  intros Hl Hh. pose proof (linked_upward _ Hl) as Hu. constructor.
  - rewrite inserted_dom. cbn. by rewrite dom_insert_L, (lk_dom _ Hl).
  - intros x y. destruct (inserted_links p h e x Hu Hh) as [-> _]. destruct (inserted_links p h e y Hu Hh) as [_ ->]. apply (lk_conv _ Hl).
  - intros x y. destruct (inserted_links p h e x Hu Hh) as [-> _]. rewrite inserted_dom. intros [? ?]%(lk_in _ Hl). split; apply elem_of_union; by right.
  - intros x. rewrite (anc_par p) by (intros z; by apply (inserted_links p h e z Hu Hh)). apply (lk_acyclic _ Hl).
Qed.
Lemma inserted_counted p h e : fresh e → upward p → h ∉ dom (mapTx p) → counted_usage usage p → counted_usage usage (inserted p h e).
Proof.
  intros Hf Hu Hh Hc. unfold counted_usage. rewrite inserted_dom, sum_add by done. cbn [cachedInnerUsage inserted]. rewrite Hc, u64_add_u64. f_equal. rewrite (sum_ext (mem_use usage (inserted p h e)) (mem_use usage p)).
  - unfold mem_use at 2. destruct (inserted_links p h e h Hu Hh) as [-> ->]. destruct (par_out p h Hu Hh) as [-> _]. rewrite (chi_out p h Hu Hh), size_empty. cbn [mapTx inserted]. rewrite lookup_insert_eq. cbn. destruct (with_delta_fields p h e Hf) as (_ & _ & _ & -> & _). lia.
  - intros x Hx. unfold mem_use. destruct (inserted_links p h e x Hu Hh) as [-> ->]. cbn [mapTx inserted]. rewrite lookup_insert_ne; [done|]. by intros <-.
Qed.
Lemma lineage_dom p x a : upward p → x ∈ dom (mapTx p) ∨ a ∈ dom (mapTx p) → lineage p x a → x ∈ dom (mapTx p) ∧ a ∈ dom (mapTx p).
Proof. intros Hu Hx [->|Ha]; [naive_solver|by apply anc_in in Ha]. Qed.
(** Exactness only depends on the entries that are counted. *)
Lemma exact_same p q e X Y : (∀ z, z ∈ X ∪ Y → mapTx q !! z = mapTx p !! z) → anc_exact bytes p e X → desc_exact bytes p e Y → anc_exact bytes q e X ∧ desc_exact bytes q e Y.
Proof.
  intros Hz HX HY. assert (∀ Z, Z ⊆ X ∪ Y → sum (tx_size q) Z = sum (tx_size p) Z ∧ sum (mod_fee q) Z = sum (mod_fee p) Z ∧ sum (sig_ops q) Z = sum (sig_ops p) Z) as Hw.
  { intros Z HZ. split_and!; apply sum_ext; intros z Hin; unfold tx_size, mod_fee, sig_ops; rewrite (Hz z (HZ z Hin)); done. }
  destruct (Hw X) as (W1 & W2 & W3); [set_solver +|]. destruct (Hw Y) as (V1 & V2 & V3); [set_solver +|]. unfold anc_exact, desc_exact in *. rewrite W1, W2, W3, V1, V2. done.
Qed.
Lemma inserted_stats p h e : fresh e → upward p → h ∉ dom (mapTx p) → stats p (lineage p) (lineage p) → stats (inserted p h e) (lineage p) (lineage p).
Proof.
  intros Hf Hu Hh Hs x ex Ex. cbn [mapTx inserted] in Ex. destruct (decide (x = h)) as [->|Hne].
  - rewrite lookup_insert_eq in Ex. apply (inj Some) in Ex as <-. exists {[h]}, {[h]}. destruct (with_delta_exact p (inserted p h e) h e Hf) as [EA ED]; [cbn; apply lookup_insert_eq|].
    split_and!; [| |done..]; intros a; rewrite elem_of_singleton; unfold lineage; (split; [by left|]); (intros [?|Ha]; [done|]); apply (anc_in _ _ _ Hu) in Ha as [? ?]; done.
  - rewrite lookup_insert_ne in Ex by done. destruct (Hs x ex Ex) as (X & Y & HX & HY & EX & EY). exists X, Y. assert (x ∈ dom (mapTx p)) as Hx by (apply dom_lookup; eauto).
    destruct (exact_same p (inserted p h e) ex X Y) as [? ?]; [|done..|done]. intros z Hz. cbn [mapTx inserted]. apply lookup_insert_ne. intros <-.
    apply elem_of_union in Hz as [Hz%HX|Hz%HY]; apply lineage_dom in Hz; naive_solver.
Qed.

(** ** Linking it *)
Lemma sum_entries_spec p l : (∀ x, x ∈ l → x ∈ dom (mapTx p)) → ∀ a b c, ∃ ss sf so, sum_entries bytes p l (a, b, c) = Some (ss, sf, so) ∧
  i64 ss = i64 (a + foldr (λ x s, tx_size p x + s) 0 l) ∧ i64 sf = i64 (b + foldr (λ x s, mod_fee p x + s) 0 l) ∧ u32 so = u32 (c + foldr (λ x s, sig_ops p x + s) 0 l).
Proof.
  induction l as [|x l IH]; intros Hl a b c; cbn [sum_entries foldr]; [exists a, b, c; by rewrite !Z.add_0_r|]. destruct (proj1 (dom_lookup p x) (Hl x ltac:(by left))) as [e Ee]. rewrite Ee. cbn [mbind option_bind]. destruct (weights bytes p x e Ee) as (-> & -> & ->).
  destruct (IH ltac:(intros; apply Hl; by right) (i64 (a + tx_size p x)) (i64 (b + mod_fee p x)) (i64 (c + sig_ops p x))) as (ss & sf & so & E & E1 & E2 & E3). exists ss, sf, so. split; [exact E|]. rewrite E1, E2, E3.
  split_and!; [rewrite i64_add_l; f_equal; lia..|]. rewrite Z.add_comm, u32_add_i64. f_equal. lia.
Qed.
Lemma UpdateEntryForAncestors_spec p h e S Ra Rd : mapTx p !! h = Some e → S ⊆ dom (mapTx p) → stats p Ra Rd → (∀ a, a ∈ S → ¬ Ra h a) →
  ∃ m, UpdateEntryForAncestors bytes p h S = Some (set_mapTx p m) ∧ core <$> m = core <$> mapTx p ∧ stats (set_mapTx p m) (λ x a, Ra x a ∨ x = h ∧ a ∈ S) Rd.
Proof.
  intros Eh HS Hs Hn. unfold UpdateEntryForAncestors. destruct (sum_entries_spec p (elements S) ltac:(intros x Hx%elem_of_elements; auto) 0 0 0) as (ss & sf & so & E & E1 & E2 & E3). rewrite E. cbn [mbind option_bind]. rewrite (modify_some _ _ _ _ Eh).
  eexists. split; [reflexivity|]. set (f := λ e, UpdateAncestorState e ss sf (Z.of_nat (size S)) so). assert (∀ x, <[h := f e]> (mapTx p) !! x = if decide (x ∈ ({[h]} : setEntries)) then f <$> mapTx p !! x else mapTx p !! x) as Hm.
  { intros x. destruct (decide (x ∈ {[h]})) as [->%elem_of_singleton|Hx]; [by rewrite lookup_insert_eq, Eh|]. rewrite lookup_insert_ne; [done|]. intros <-. by apply Hx, elem_of_singleton. }
  split; [apply (restated_core_on p _ {[h]} f); [done|exact Hm]|]. eapply (stats_restat bytes p _ {[h]} f Ra Rd); [done|exact Hm| | |exact Hs].
  - intros x ex X Y ->%elem_of_singleton Ex HX HY EX EY. exists (X ∪ S), Y. split_and!; [|done| |done].
    + intros a. rewrite elem_of_union, HX. naive_solver.
    + apply anc_add_set; [|done..]. intros a Ha Has. by apply (Hn a Has), HX.
  - intros x Hx. rewrite elem_of_singleton in Hx. naive_solver.
Qed.
Lemma fold_parent_add h l : ∀ p, dom (mapLinks p) = dom (mapTx p) → h ∈ dom (mapTx p) → let p' := foldl (λ p phash, if exists_tx p phash then UpdateParent usage p h phash true else p) p l in
  step p p' ∧ mapTx p' = mapTx p ∧ (∀ x, chi p' x = chi p x) ∧ ∀ x y, y ∈ par p' x ↔ y ∈ par p x ∨ x = h ∧ y ∈ l ∧ y ∈ dom (mapTx p).
Proof.
  induction l as [|z l IH]; intros p Hd Hh; cbn [foldl]; [split_and!; [done..|]; set_solver +|]. destruct (exists_tx p z) eqn:Ez.
  - apply exists_tx_true in Ez. assert (step p (UpdateParent usage p h z true)) as Hs by (by apply step_parent). destruct (IH (UpdateParent usage p h z true)) as (S' & M' & C' & P'); [destruct Hs as (_ & -> & _); by rewrite mapTx_parent|by rewrite mapTx_parent|].
    split_and!; [by eapply step_trans|by rewrite M', mapTx_parent|intros x; by rewrite C', chi_parent|]. intros x y. rewrite P', par_parent, mapTx_parent, elem_of_cons. destruct (decide (x = h)) as [->|Hne]; [rewrite elem_of_union, elem_of_singleton; clear -Ez|clear -Ez Hne]; naive_solver.
  - assert (z ∉ dom (mapTx p)) as Hz by (rewrite <- exists_tx_true, Ez; done). destruct (IH p Hd Hh) as (S' & M' & C' & P'). split_and!; [done..|]. intros x y. rewrite P', elem_of_cons. clear -Hz. naive_solver.
Qed.
(** A new entry with parents [P] and no children. *)
Lemma anc_grown p q h P x a : upward p → h ∉ dom (mapTx p) → P ⊆ dom (mapTx p) → (∀ x y, y ∈ par q x ↔ y ∈ par p x ∨ x = h ∧ y ∈ P) → anc q x a ↔ anc p x a ∨ x = h ∧ above p P a.
Proof.
  intros Hu Hh HP Hp. assert (∀ z a, z ≠ h → anc q z a → anc p z a) as Hold.
  { intros z b Hz Ha. induction Ha as [z b Hb|z c b Hb _ IH]; unfold up in Hb; apply Hp in Hb as [Hb|[? _]]; try done; [by apply anc_parent|]. eapply anc_trans; [by apply anc_parent|]. apply IH. intros ->. by apply (up_in _ Hu) in Hb as [_ ?]. }
  assert (∀ z b, anc p z b → anc q z b) as Hnew by (induction 1 as [z b Hb|z c b Hb _ IH]; [|eapply anc_trans; [|exact IH]]; apply anc_parent, Hp; by left). split.
  - intros Ha. destruct (decide (x = h)) as [->|Hx]; [|left; by apply Hold]. right. split; [done|]. destruct (anc_first _ _ _ Ha) as (z & Hz & Hza). apply Hp in Hz as [Hz|[_ Hz]]; [by apply (up_in _ Hu) in Hz as [? _]|].
    exists z. split; [done|]. destruct Hza as [->|Hza]; [by left|]. right. apply Hold; [|done]. intros ->. by apply Hh, HP.
  - intros [Ha|[-> (z & Hz & [->|Ha])]]; [by apply Hnew|apply anc_parent, Hp; by right|]. eapply anc_trans; [apply anc_parent, Hp; by right|by apply Hnew].
Qed.
Lemma core_idx e n : core (set_idx e n) = set_idx (core e) n.
Proof. done. Qed.
(** The position of an entry counts for nothing. *)
Lemma counted_idx p q h e n : mapTx p !! h = Some e → mapTx q = <[h := set_idx e n]> (mapTx p) → mapLinks q = mapLinks p → cachedInnerUsage q = cachedInnerUsage p → counted_usage usage p → counted_usage usage q.
Proof.
  intros Eh Em El Ec. unfold counted_usage. rewrite Ec. intros ->. f_equal. assert (dom (mapTx q) = dom (mapTx p)) as ->. { rewrite Em. apply dom_insert_lookup_L. eauto. }
  apply sum_ext. intros x _. unfold mem_use, par, chi. rewrite El, Em. f_equal. destruct (decide (x = h)) as [->|]; [by rewrite lookup_insert_eq, Eh|by rewrite lookup_insert_ne].
Qed.
Lemma stats_idx p q h e n Ra Rd : mapTx p !! h = Some e → mapTx q = <[h := set_idx e n]> (mapTx p) → stats p Ra Rd → stats q Ra Rd.
Proof.
  intros Eh Em. apply (stats_survivors bytes p q ∅); try done; try set_solver +. intros x _. rewrite Em. destruct (decide (x = h)) as [->|]; [by rewrite lookup_insert_eq, Eh|by rewrite lookup_insert_ne].
Qed.
Definition spent_by (m : gmap COutPoint txid) (h : txid) (l : list CTxIn) : gmap COutPoint txid := foldl (λ m i, insert_new m (prevout i) h) m l.
Lemma link_entry_spec p h e S : fresh e → hash e = h → linked p → h ∉ dom (mapTx p) → h ∉ inputs (tx e) → stats p (lineage p) (lineage p) → counted_usage usage p → (∀ a, a ∈ S ↔ above p (inputs (tx e) ∩ dom (mapTx p)) a) →
  ∃ q, link_entry bytes usage (inserted p h e) e S = Some q ∧ core <$> mapTx q = <[h := core (set_idx (with_delta p h e) (length (vTxHashes p)))]> (core <$> mapTx p) ∧ mapNextTx q = spent_by (mapNextTx p) h (vin (tx e)) ∧
    mapDeltas q = mapDeltas p ∧ vTxHashes q = vTxHashes p ++ [(wtxid e, h)] ∧ totalTxSize q = totalTxSize p ∧ dom (mapLinks q) = {[h]} ∪ dom (mapLinks p) ∧ counted_usage usage q ∧
    (∀ x y, y ∈ par q x ↔ y ∈ par p x ∨ x = h ∧ y ∈ inputs (tx e) ∩ dom (mapTx p)) ∧ (∀ x, chi q x = if decide (x ∈ inputs (tx e) ∩ dom (mapTx p)) then {[h]} ∪ chi p x else chi p x) ∧
    stats q (λ x a, lineage p x a ∨ x = h ∧ a ∈ S) (λ x a, lineage p x a ∨ x = h ∧ a ∈ S).
Proof.
  intros Hf Eh Hl Hh Hself Hs Hus HS. pose proof (linked_upward _ Hl) as Hu. set (P := inputs (tx e) ∩ dom (mapTx p)) in *. unfold link_entry. rewrite Eh. set (q0 := add_spends (inserted p h e) e).
  assert (mapTx q0 = mapTx (inserted p h e)) as M0 by done. assert (linked q0) as L0 by (destruct (inserted_linked p h e Hl Hh) as [? ? ? ?]; by constructor). assert (dom (mapTx q0) = {[h]} ∪ dom (mapTx p)) as D0 by apply inserted_dom.
  assert (∀ x, par q0 x = par p x ∧ chi q0 x = chi p x) as PC0 by (intros x; apply (inserted_links p h e x Hu Hh)). assert (counted_usage usage q0) as U0 by (by apply (inserted_counted p h e)).
  assert (stats q0 (lineage p) (lineage p)) as T0 by (apply (stats_mapTx bytes (inserted p h e)); [done|by apply inserted_stats]). assert (h ∈ dom (mapTx q0)) as Hh0 by (rewrite D0; set_solver +).
  destruct (fold_parent_add h (elements (inputs (tx e))) q0 (lk_dom _ L0) Hh0) as (S1 & M1 & C1 & P1). change (list_to_set (map (λ i, ophash (prevout i)) (vin (tx e)))) with (inputs (tx e)). set (q1 := foldl _ q0 _) in *.
  assert (∀ x y, y ∈ par q1 x ↔ y ∈ par p x ∨ x = h ∧ y ∈ P) as P1'. { intros x y. rewrite P1, elem_of_elements, D0. destruct (PC0 x) as [-> _]. unfold P. rewrite elem_of_intersection, elem_of_union, elem_of_singleton. naive_solver. }
  assert (P ⊆ dom (mapTx p)) as HP by (unfold P; set_solver +). assert (S ⊆ dom (mapTx p)) as HSd by (intros a (s & Hs' & [->|Ha])%HS; [by apply HP|by apply (anc_in _ _ _ Hu) in Ha as [_ ?]]).
  assert (upward q1) as Hu1.
  { constructor; [rewrite M1; destruct S1 as (_ & -> & _); apply (lk_dom _ L0)| |].
    - intros x y [Hy|[-> Hy]]%P1'; rewrite M1, D0; [apply (up_in _ Hu) in Hy as [? ?]; split; apply elem_of_union; by right|split; [set_solver +|apply elem_of_union; right; by apply HP]].
    - intros x Hx. apply (anc_grown p q1 h P) in Hx as [Hx|[-> (s & Hs' & Hx)]]; [by apply (up_acyclic _ Hu) in Hx| |done..]. apply HP in Hs'. destruct Hx as [->|Hx]; [done|]. by apply (anc_in _ _ _ Hu) in Hx as [_ ?]. }
  assert (mapTx q1 !! h = Some (with_delta p h e)) as E1 by (rewrite M1; cbn; apply lookup_insert_eq). assert (stats q1 (lineage p) (lineage p)) as T1 by (by apply (stats_mapTx bytes q0)).
  destruct (UpdateAncestorsOf_spec bytes usage q1 true h _ S Hu1 E1) as (q2 & E2 & S2 & P2 & C2 & M2). { rewrite M1, D0. intros a Ha. apply elem_of_union. right. auto. }
  rewrite E2. cbn [mbind option_bind]. assert (∀ a, a ∈ S → lineage p h a → False) as HnS. { intros a Ha%HSd Hla. apply lineage_dom in Hla; [|done|by right]. naive_solver. }
  assert (stats q2 (lineage p) (λ x a, lineage p x a ∨ x = h ∧ a ∈ S)) as T2.
  { apply (stats_mapTx bytes (set_mapTx q1 (mapTx q2))); [done|]. eapply (stats_restat bytes q1 (mapTx q2) S _ (lineage p) (lineage p)); [|exact M2| | |exact T1]; [done| |].
    - intros x ex X Y Hx Ex HX HY EX EY. exists X, ({[h]} ∪ Y). split_and!; [done| |done|apply desc_add; [intros Hhx%HY; by apply (HnS x)|done]]. intros d. rewrite elem_of_union, elem_of_singleton, HY. naive_solver.
    - intros x Hx. split; [done|]. naive_solver. }
  assert (h ∈ dom (mapTx q2)) as [e2 Eh2]%dom_lookup by (rewrite (step_dom _ _ _ S2), M1; done).
  destruct (UpdateEntryForAncestors_spec q2 h e2 S (lineage p) (λ x a, lineage p x a ∨ x = h ∧ a ∈ S) Eh2) as (m & E3 & M3 & T3); [|exact T2|done|]. { rewrite (step_dom _ _ _ S2), M1, D0. intros a Ha. apply elem_of_union. right. auto. }
  rewrite E3. cbn [mbind option_bind]. pose proof (step_trans _ _ _ _ S1 S2) as S12. pose proof (step_trans _ _ _ _ S12 (step_restat usage q2 m M3)) as S3. clear S1 S2 S12. set (q3 := set_mapTx q2 m) in *.
  assert (h ∈ dom (mapTx q3)) as [e3 Eh3]%dom_lookup by (rewrite (step_dom _ _ _ S3); done). erewrite modify_some by exact Eh3. eexists. split; [reflexivity|]. cbn [set_mapTx mapTx mapLinks mapNextTx mapDeltas vTxHashes totalTxSize cachedInnerUsage].
  destruct S3 as (F3 & D3 & U3). pose proof (frozen_core _ _ F3) as FC. assert (mapNextTx q3 = mapNextTx q0 ∧ mapDeltas q3 = mapDeltas q0 ∧ vTxHashes q3 = vTxHashes q0 ∧ totalTxSize q3 = totalTxSize q0) as (Fn & Fd & Fv & Ft) by (unfold frozen in F3; split_and!; congruence).
  assert (core e3 = core (with_delta p h e)) as Ec3. { destruct (frozen_entry _ _ _ _ FC Eh3) as (e0 & E0 & ->). rewrite M0 in E0. cbn in E0. rewrite lookup_insert_eq in E0. by apply (inj Some) in E0 as ->. }
  rewrite Fv. split_and!; [|by rewrite Fn; cbn; rewrite Eh|by rewrite Fd|done|by rewrite Ft|rewrite D3; cbn; apply dom_insert_L| | | |].
  - rewrite fmap_insert, FC, M0. cbn [inserted mapTx]. rewrite fmap_insert, insert_insert_eq, !core_idx, Ec3. done.
  - apply (counted_idx q3 _ h e3 (length (vTxHashes q0))); [done..|]. by apply U3.
  - intros x y. rewrite <- P1', <- (P2 x). done.
  - intros x. transitivity (chi q2 x); [done|]. rewrite C2. assert (par q1 h = P) as ->. { apply set_eq. intros y. rewrite P1'. destruct (par_out p h Hu Hh) as [-> _]. set_solver +. } rewrite C1. by destruct (PC0 x) as [_ ->].
  - apply (stats_idx q3 _ h e3 (length (vTxHashes q0))); done.
Qed.

(** ** [addUnchecked] *)
Lemma spent_by_lookup h l : ∀ m o, (∀ i, i ∈ l → m !! prevout i = None ∨ m !! prevout i = Some h) → spent_by m h l !! o = if decide (o ∈ map prevout l) then Some h else m !! o.
Proof.
  unfold spent_by. induction l as [|i l IH]; intros m o Hl; cbn [foldl map]; [done|]. assert (∀ o, insert_new m (prevout i) h !! o = if decide (o = prevout i) then Some h else m !! o) as Hi.
  { intros o'. unfold insert_new. destruct (Hl i ltac:(by left)) as [E|E]; rewrite E; destruct (decide (o' = prevout i)) as [->|]; try done; [by rewrite lookup_insert_eq|by rewrite lookup_insert_ne]. }
  rewrite IH. 2: { intros j Hj. rewrite Hi. destruct (decide _); [by right|]. apply Hl. by right. }
  rewrite Hi. destruct (decide (o ∈ map prevout l)); [by rewrite decide_True by (by right)|]. destruct (decide (o = prevout i)) as [->|]; [by rewrite decide_True by (by left)|]. rewrite decide_False; [done|]. by intros [?|?]%elem_of_cons.
Qed.
(** What a new entry has to satisfy: it is new, conflicts with no entry, and either no entry spends it or it comes from the block [B]. *)
Record admissible (B : setEntries) (p : CTxMemPool) (e : CTxMemPoolEntry) : Prop := {
  ad_fresh : fresh e;
  ad_new : hash e ∉ dom (mapTx p);
  ad_self : hash e ∉ inputs (tx e);
  ad_conflict : is_private e = false → ∀ i, i ∈ vin (tx e) → mapNextTx p !! prevout i = None;
  ad_spent : ∀ x ex, mapTx p !! x = Some ex → is_private ex = false → hash e ∈ inputs (tx ex) → x ∉ B ∧ hash e ∈ B;
  ad_block : is_private e = false → hash e ∈ B ∨ ∀ y, y ∈ inputs (tx e) → y ∈ dom (mapTx p) → y ∉ B }.
(** The pool with the new entry, before its counters. *)
Definition grown (p q : CTxMemPool) (h : txid) (e' : CTxMemPoolEntry) : Prop := core <$> mapTx q = <[h := core e']> (core <$> mapTx p) ∧ mapDeltas q = mapDeltas p ∧ totalTxSize q = totalTxSize p ∧
  if is_private e' then mapNextTx q = mapNextTx p ∧ vTxHashes q = vTxHashes p
  else mapNextTx q = spent_by (mapNextTx p) h (vin (tx e')) ∧ vTxHashes q = vTxHashes p ++ [(wtxid e', h)] ∧ vTxHashesIdx e' = length (vTxHashes p).
Definition with_total (p : CTxMemPool) (n u : Z) : CTxMemPool := mkPool (mapTx p) (mapLinks p) (mapNextTx p) (mapDeltas p) (vTxHashes p) n (cachedInnerUsage p) u.
Lemma grown_entry p q h e' x ex : grown p q h e' → h ∉ dom (mapTx p) → mapTx q !! x = Some ex → x = h ∧ core ex = core e' ∨ x ≠ h ∧ ∃ e0, mapTx p !! x = Some e0 ∧ core ex = core e0.
Proof.
  intros (Em & _) Hh Ex. assert (core <$> mapTx q !! x = <[h := core e']> (core <$> mapTx p) !! x) as E by (by rewrite <- lookup_fmap, Em). rewrite Ex in E. destruct (decide (x = h)) as [->|Hne].
  - rewrite lookup_insert_eq in E. apply (inj Some) in E. auto.
  - rewrite lookup_insert_ne, lookup_fmap in E by done. destruct (mapTx p !! x) as [e0|]; [|done]. apply (inj Some) in E. right. eauto.
Qed.
Lemma grown_old p q h e' x e0 : grown p q h e' → x ≠ h → mapTx p !! x = Some e0 → ∃ ex, mapTx q !! x = Some ex ∧ core ex = core e0.
Proof.
  intros (Em & _) Hne Ex. assert (core <$> mapTx q !! x = <[h := core e']> (core <$> mapTx p) !! x) as E by (by rewrite <- lookup_fmap, Em). rewrite lookup_insert_ne, lookup_fmap, Ex in E by done. destruct (mapTx q !! x) as [ex|]; [|done]. apply (inj Some) in E. eauto.
Qed.
Lemma grown_new p q h e' : grown p q h e' → ∃ ex, mapTx q !! h = Some ex ∧ core ex = core e'.
Proof.
  intros (Em & _). assert (core <$> mapTx q !! h = <[h := core e']> (core <$> mapTx p) !! h) as E by (by rewrite <- lookup_fmap, Em). rewrite lookup_insert_eq in E. destruct (mapTx q !! h) as [ex|]; [|done]. apply (inj Some) in E. eauto.
Qed.
Lemma grown_dom p q h e' : grown p q h e' → dom (mapTx q) = {[h]} ∪ dom (mapTx p).
Proof. intros (Em & _). by rewrite <- (dom_fmap_L core), Em, dom_insert_L, dom_fmap_L. Qed.
Lemma grown_next p q h e' : indexed bytes p → grown p q h e' → h ∉ dom (mapTx p) → (is_private e' = false → ∀ i, i ∈ vin (tx e') → mapNextTx p !! prevout i = None) →
  ∀ o x, mapNextTx q !! o = Some x ↔ ∃ e, mapTx q !! x = Some e ∧ is_private e = false ∧ o ∈ map prevout (vin (tx e)).
Proof.
  intros Hi Hg Hh Hc o x. assert (mapNextTx q !! o = Some x ↔ (is_private e' = false ∧ x = h ∧ o ∈ map prevout (vin (tx e'))) ∨ (mapNextTx p !! o = Some x)) as ->.
  { pose proof Hg as (_ & _ & _ & Hn). destruct (is_private e'); [destruct Hn as [-> _]; naive_solver|]. destruct Hn as [-> _]. rewrite spent_by_lookup by (intros i Hin; left; auto).
    destruct (decide _) as [Ho|Ho]; [|naive_solver]. split; [intros [= ->]; auto|]. intros [(_ & -> & _)|Hx]; [done|]. apply list_elem_of_fmap in Ho as (i & -> & Hin). rewrite (Hc eq_refl i Hin) in Hx. done. }
  rewrite (ix_next _ _ Hi). split.
  - intros [(P' & -> & Ho)|(e0 & Ex & P0 & Ho)].
    + destruct (grown_new _ _ _ _ Hg) as (ex & Ex & Ec). exists ex. rewrite (core_private _ _ Ec). apply core_fields in Ec as (-> & _). done.
    + destruct (grown_old p q h e' x e0 Hg) as (ex & Ex' & Ec); [intros ->; apply Hh, dom_lookup; eauto|done|]. exists ex. rewrite (core_private _ _ Ec). apply core_fields in Ec as (-> & _). done.
  - intros (ex & Ex & Px & Ho). destruct (grown_entry p q h e' x ex Hg Hh Ex) as [[-> Ec]|(Hne & e0 & E0 & Ec)]; rewrite (core_private _ _ Ec) in Px; apply core_fields in Ec as (Et & _); rewrite Et in Ho; [by left|right; eauto].
Qed.
Lemma grown_hashes p q h e' : indexed bytes p → grown p q h e' → h ∉ dom (mapTx p) → ∀ i w x, vTxHashes q !! i = Some (w, x) ↔ ∃ e, mapTx q !! x = Some e ∧ is_private e = false ∧ vTxHashesIdx e = i ∧ wtxid e = w.
Proof.
  intros Hi Hg Hh i w x. assert (vTxHashes q !! i = Some (w, x) ↔ (is_private e' = false ∧ x = h ∧ i = vTxHashesIdx e' ∧ w = wtxid e') ∨ vTxHashes p !! i = Some (w, x)) as ->.
  { pose proof Hg as (_ & _ & _ & Hn). destruct (is_private e'); [destruct Hn as [_ ->]; naive_solver|]. destruct Hn as (_ & -> & ->). rewrite lookup_app. destruct (vTxHashes p !! i) as [a|] eqn:Ei.
    - split; [by right|]. intros [(_ & _ & -> & _)|?]; [|done]. apply lookup_lt_Some in Ei. lia.
    - apply lookup_ge_None in Ei. destruct (decide (i = length (vTxHashes p))) as [->|Hne]; [rewrite Nat.sub_diag; cbn; naive_solver|]. destruct (i - length (vTxHashes p))%nat eqn:En; [lia|]. cbn. naive_solver. }
  rewrite (ix_hashes _ _ Hi). split.
  - intros [(P' & -> & -> & ->)|(e0 & Ex & P0 & Ho)].
    + destruct (grown_new _ _ _ _ Hg) as (ex & Ex & Ec). exists ex. rewrite (core_private _ _ Ec). apply core_fields in Ec as (_ & _ & -> & _ & _ & _ & _ & _ & _ & ->). done.
    + destruct (grown_old p q h e' x e0 Hg) as (ex & Ex' & Ec); [intros ->; apply Hh, dom_lookup; eauto|done|]. exists ex. rewrite (core_private _ _ Ec). apply core_fields in Ec as (_ & _ & -> & _ & _ & _ & _ & _ & _ & ->). done.
  - intros (ex & Ex & Px & Ho). destruct (grown_entry p q h e' x ex Hg Hh Ex) as [[-> Ec]|(Hne & e0 & E0 & Ec)]; rewrite (core_private _ _ Ec) in Px; apply core_fields in Ec as (_ & _ & Ew & _ & _ & _ & _ & _ & _ & En); rewrite Ew, En in Ho; [left; naive_solver|right; eauto].
Qed.
Lemma grown_indexed p q h e' u : indexed bytes p → grown p q h e' → h ∉ dom (mapTx p) → hash e' = h → feeDelta e' = default 0 (mapDeltas p !! h) → (is_private e' = false → ∀ i, i ∈ vin (tx e') → mapNextTx p !! prevout i = None) →
  indexed bytes (with_total q (u64 (totalTxSize q + GetTxSize bytes e')) u).
Proof.
  intros Hi Hg Hh Ek Ed Hc. constructor; cbn.
  - intros x ex Ex. destruct (grown_entry p q h e' x ex Hg Hh Ex) as [[-> Ec]|(_ & e0 & E0 & Ec)]; apply core_fields in Ec as (_ & -> & _); [done|by apply (ix_keys _ _ Hi)].
  - by apply (grown_next p q h e').
  - by apply (grown_hashes p q h e').
  - intros x ex Ex. pose proof Hg as (_ & -> & _). destruct (grown_entry p q h e' x ex Hg Hh Ex) as [[-> Ec]|(_ & e0 & E0 & Ec)]; apply core_fields in Ec as (_ & _ & _ & _ & _ & _ & _ & _ & -> & _); [done|by apply (ix_deltas _ _ Hi)].
  - rewrite (grown_dom _ _ _ _ Hg), sum_add by done. pose proof Hg as (_ & _ & -> & _). rewrite (ix_total _ _ Hi), u64_add_u64. f_equal. destruct (grown_new _ _ _ _ Hg) as (ex & Ex & Ec).
    unfold tx_size at 2. cbn [mapTx with_total]. rewrite Ex. cbn. rewrite (core_size bytes _ _ Ec), Z.add_comm. f_equal. apply sum_ext. intros x Hx. unfold tx_size. cbn [mapTx with_total].
    apply dom_lookup in Hx as [e0 E0]. destruct (grown_old p q h e' x e0 Hg) as (ex' & Ex' & Ec'); [intros ->; apply Hh, dom_lookup; eauto|done|]. rewrite E0, Ex'. cbn. by rewrite (core_size bytes _ _ Ec').
Qed.
(** What the links of the result have to be. *)
Definition relinked (p q : CTxMemPool) (h : txid) (P : setEntries) : Prop := dom (mapLinks q) = {[h]} ∪ dom (mapLinks p) ∧ (∀ x y, y ∈ par q x ↔ y ∈ par p x ∨ x = h ∧ y ∈ P) ∧ (∀ x c, c ∈ chi q x ↔ c ∈ chi p x ∨ c = h ∧ x ∈ P).
Lemma relinked_linked p q h P : linked p → h ∉ dom (mapTx p) → P ⊆ dom (mapTx p) → dom (mapTx q) = {[h]} ∪ dom (mapTx p) → relinked p q h P → linked q.
Proof.
  intros Hl Hh HP Ed (El & Hp & Hc). pose proof (linked_upward _ Hl) as Hu. constructor.
  - by rewrite El, Ed, (lk_dom _ Hl).
  - intros x y. rewrite Hp, Hc, (lk_conv _ Hl). naive_solver.
  - intros x y [Hy|[-> Hy]]%Hp; rewrite Ed, !elem_of_union, !elem_of_singleton; [apply (lk_in _ Hl) in Hy; naive_solver|]. apply HP in Hy. auto.
  - intros x Hx. apply (anc_grown p q h P) in Hx as [Hx|[-> (s & Hs & Hx)]]; [by apply (lk_acyclic _ Hl) in Hx| |done..]. apply HP in Hs. destruct Hx as [->|Hx]; [done|]. by apply (anc_in _ _ _ Hu) in Hx as [_ ?].
Qed.
Lemma link_or_not p e S : fresh e → linked p → hash e ∉ dom (mapTx p) → hash e ∉ inputs (tx e) → stats p (lineage p) (lineage p) → counted_usage usage p → (∀ a, a ∈ S ↔ above p (inputs (tx e) ∩ dom (mapTx p)) a) →
  let P := if is_private e then ∅ else inputs (tx e) ∩ dom (mapTx p) in
  ∃ q e', (if negb (is_private e) then link_entry bytes usage (inserted p (hash e) e) e S else Some (inserted p (hash e) e)) = Some q ∧ bare e' = bare (with_delta p (hash e) e) ∧ grown p q (hash e) e' ∧ relinked p q (hash e) P ∧ counted_usage usage q ∧
    stats q (λ x a, lineage p x a ∨ x = hash e ∧ above p P a) (λ x a, lineage p x a ∨ x = hash e ∧ above p P a).
Proof.
  intros Hf Hl Hh Hself Hs Hus HS P. pose proof (linked_upward _ Hl) as Hu. destruct (with_delta_fields p (hash e) e Hf) as (W1 & W2 & W3 & W4 & W5 & W6 & W7). unfold P. destruct (is_private e) eqn:Pe; cbn [negb].
  - exists (inserted p (hash e) e), (with_delta p (hash e) e). split_and!; [done..| | |by apply inserted_counted|].
    + unfold grown. rewrite W5. cbn. by rewrite fmap_insert.
    + split_and!; [cbn; apply dom_insert_L|..]; intros x y; destruct (inserted_links p (hash e) e x Hu Hh) as [E1 E2]; rewrite ?E1, ?E2; set_solver +.
    + eapply stats_ext; [| |by apply inserted_stats]; intros x a _; unfold above; set_solver +.
  - destruct (link_entry_spec p (hash e) e S Hf eq_refl Hl Hh Hself Hs Hus HS) as (q & E & Ec & En & Ed & Ev & Et & El & Uq & Pq & Cq & Tq). exists q, (set_idx (with_delta p (hash e) e) (length (vTxHashes p))). split_and!; [done..| | |done|].
    + unfold grown. assert (is_private (set_idx (with_delta p (hash e) e) (length (vTxHashes p))) = false) as -> by exact W5. cbn [tx wtxid vTxHashesIdx set_idx]. rewrite W1, W3. done.
    + split_and!; [done..|]. clear -Cq. intros x c. rewrite Cq. destruct (decide _) as [Hx|Hx]; [rewrite elem_of_union, elem_of_singleton|]; naive_solver.
    + eapply stats_ext; [| |exact Tq]; intros x a _; cbn beta; by rewrite HS.
Qed.
Lemma grown_spends B p q e e' : upward p → admissible B p e → tx e' = tx e → is_private e' = is_private e → grown p q (hash e) e' → (∀ x y, y ∈ par q x ↔ y ∈ par p x ∨ x = hash e ∧ y ∈ if is_private e then ∅ else inputs (tx e) ∩ dom (mapTx p)) →
  spends_linked B p → spends_linked B q.
Proof.
  intros Hu [_ Hh Hself _ Hspent Hblk] Et Ep Hg Hp Hsp x ex Ex y. rewrite Hp, (grown_dom _ _ _ _ Hg), elem_of_union, elem_of_singleton.
  destruct (grown_entry p q (hash e) e' x ex Hg Hh Ex) as [[-> Ec]|(Hne & e0 & E0 & Ec)]; rewrite (core_private _ _ Ec); apply core_fields in Ec as (-> & _).
  - destruct (par_out p (hash e) Hu Hh) as [-> _]. rewrite Et, Ep. clear -Hblk Hself. destruct (is_private e); [set_solver +|]. rewrite elem_of_intersection, elem_of_empty. specialize (Hblk eq_refl). naive_solver.
  - rewrite (Hsp x e0 E0 y). specialize (Hspent x e0 E0). clear -Hspent Hne. naive_solver.
Qed.
Lemma addUnchecked_spec B p e S : consistent bytes usage B p → admissible B p e → (∀ a, a ∈ S ↔ above p (inputs (tx e) ∩ dom (mapTx p)) a) →
  ∃ p', addUnchecked bytes usage p (hash e) e S = Some p' ∧ consistent bytes usage B p' ∧ dom (mapTx p') = {[hash e]} ∪ dom (mapTx p) ∧ (∀ x, x ∈ dom (mapTx p) → core <$> mapTx p' !! x = core <$> mapTx p !! x) ∧
    (∃ e', mapTx p' !! hash e = Some e' ∧ tx e' = tx e ∧ nFee e' = nFee e ∧ nTime e' = nTime e) ∧ mapDeltas p' = mapDeltas p.
Proof.
  intros [Hl Hsp Hs Hi Hus] Had HS. pose proof Had as [Hf Hh Hself Hconf _ _]. pose proof (linked_upward _ Hl) as Hu. rewrite addUnchecked_unfold by (try done; apply (lk_dom _ Hl)).
  destruct (with_delta_fields p (hash e) e Hf) as (W1 & W2 & W3 & W4 & W5 & W6 & W7). destruct (link_or_not p e S Hf Hl Hh Hself Hs Hus HS) as (q & e' & Eq & Eb & Hg & Hr & Uq & Tq). set (P := if is_private e then ∅ else inputs (tx e) ∩ dom (mapTx p)) in *.
  assert (P ⊆ dom (mapTx p)) as HP by (unfold P; destruct (is_private e); set_solver +). rewrite Eq. cbn [mbind option_bind]. replace (GetTxSize bytes e) with (GetTxSize bytes e').
  2: { rewrite <- W6. unfold GetTxSize. apply bare_fields in Eb as (_ & _ & _ & -> & _ & -> & _). done. }
  fold (with_total q (u64 (totalTxSize q + GetTxSize bytes e')) (u32 (nTransactionsUpdated q + 1))). pose proof (bare_private _ _ Eb) as Pb. pose proof (f_equal nTime Eb) as Eb1. pose proof (f_equal nFee Eb) as Eb2. apply bare_fields in Eb as (Eb3 & Eb4 & _ & _ & _ & _ & Eb7). rewrite W1 in Eb3. rewrite W5 in Pb.
  eexists. split; [reflexivity|]. cbn [mapTx mapDeltas with_total]. rewrite (grown_dom _ _ _ _ Hg).
  assert (∀ x a, anc q x a ↔ anc p x a ∨ x = hash e ∧ above p P a) as Ha by (intros; apply anc_grown; try done; by destruct Hr as (_ & ? & _)).
  split_and!; [|done| | |by destruct Hg as (_ & ? & _)].
  - constructor; [|change (spends_linked B q)|..].
    + destruct (relinked_linked p q (hash e) P Hl Hh HP (grown_dom _ _ _ _ Hg) Hr) as [? ? ? ?]. by constructor.
    + apply (grown_spends B p q e e'); try done. by destruct Hr as (_ & ? & _).
    + apply (stats_mapTx bytes q); [done|]. eapply stats_ext; [| |exact Tq]; intros x a _; unfold lineage; change (anc (with_total _ _ _)) with (anc q); rewrite Ha; clear; tauto.
    + apply (grown_indexed p q (hash e) e'); try done; [by rewrite Eb4, W2|by rewrite Eb7, W7|]. rewrite Pb, Eb3. done.
    + done.
  - intros x [e0 E0]%dom_lookup. destruct (grown_old p q (hash e) e' x e0 Hg) as (ex & Ex & Ec); [intros ->; apply Hh, dom_lookup; eauto|done|]. rewrite Ex, E0. cbn. by rewrite Ec.
  - destruct (grown_new _ _ _ _ Hg) as (ex & Ex & Ec). exists ex. split; [done|]. apply core_fields in Ec as (-> & _ & _ & -> & _ & _ & -> & _). split; [done|]. cbn in Eb1, Eb2. rewrite Eb1, Eb2. unfold with_delta. destruct (mapDeltas p !! hash e) as [d|]; [by destruct (negb (d =? 0))|done].
Qed.
End add.
End MemPoolAdd.
