(* ===== verification/MemPoolOps.v ===== *)
(** * MemPoolOps: the operations of the memory pool

    Each operation that the node performs on its pool (a transaction arrives, is confirmed, conflicts with a block, expires, is pushed out
    or gets another priority) keeps the pool consistent, ends, and adds or removes exactly the entries that it should. *)
From S2P Require Import Prelude Serialize Uint256 Script Transaction Interpreter Stake MemPool MemPoolGraph MemPoolIndex MemPoolStats MemPoolRemove MemPoolAdd.
Open Scope Z_scope.
Open Scope list_scope.

Module MemPoolOps.
Import Transaction Stake MemPool MemPoolGraph MemPoolIndex MemPoolStats MemPoolRemove MemPoolAdd.

Implicit Types p : CTxMemPool.
Implicit Types e : CTxMemPoolEntry.
Implicit Types A B D F P R stage X Y : setEntries.
Implicit Types x y h d : txid.

Section ops.
Context (bytes usage : Z).
Notation consistent := (consistent bytes usage).

(** ** Removal with descendants *)
(** [R] is [T] with all descendants. *)
Definition family (p : CTxMemPool) (T : txid → Prop) (R : setEntries) : Prop := ∀ d, d ∈ R ↔ ∃ r, T r ∧ (d = r ∨ anc p d r).
Lemma family_closed p T R : family p T R → closed p R false.
Proof. intros HR x a Ha [r [Hr Hd]]%HR. apply HR. exists r. split; [done|]. right. destruct Hd as [->|Hd]; [done|by eapply anc_trans]. Qed.
Lemma family_dom p (T : txid → Prop) R : linked p → (∀ r, T r → r ∈ dom (mapTx p)) → family p T R → R ⊆ dom (mapTx p).
Proof. intros Hl HT HR d (r & Hr & [->|Hd])%HR; [auto|]. by apply (anc_in _ _ _ (linked_upward _ Hl)) in Hd as [? _]. Qed.
Lemma all_descendants_spec p l : linked p → (∀ r, r ∈ l → r ∈ dom (mapTx p)) → ∀ D (T : txid → Prop), family p T D → ∃ R, all_descendants p l D = Some R ∧ family p (λ r, T r ∨ r ∈ l) R.
Proof.
  intros Hl. induction l as [|r l IH]; intros Hd D T HD; cbn [all_descendants]. { exists D. split; [done|]. intros d. rewrite (HD d). split; intros (r & Hr & ?); exists r; (split; [|done]); [by left|]. destruct Hr as [|Hr]; [done|]. by apply elem_of_nil in Hr. }
  destruct (CalculateDescendants_spec p r D Hl) as (D' & E & HD'); [apply Hd; by left| |]. { intros d c Hdd Hc. apply (family_closed p T D HD c d); [|done]. apply anc_parent. by apply (lk_conv _ Hl). }
  rewrite E. cbn [mbind option_bind]. destruct (IH ltac:(intros; apply Hd; by right) D' (λ x, T x ∨ x = r)) as (R & ER & HR).
  { intros d. rewrite HD', (HD d). split; [intros [(x & ? & ?)|Hdr]; [exists x; auto|exists r; auto]|]. intros (x & [?| ->] & ?); [left; eauto|by right]. }
  exists R. split; [done|]. intros d. rewrite (HR d). split; intros (x & Hx & ?); exists x; (split; [|done]); rewrite elem_of_cons in *; tauto.
Qed.
Lemma family_ext p (T T' : txid → Prop) R : (∀ r, T r ↔ T' r) → family p T R → family p T' R.
Proof. intros E HR d. rewrite (HR d). split; intros (r & Hr & ?); exists r; (split; [|done]); by apply E. Qed.
Lemma all_descendants_set p X : linked p → X ⊆ dom (mapTx p) → ∃ R, all_descendants p (elements X) ∅ = Some R ∧ family p (λ r, r ∈ X) R.
Proof.
  intros Hl HX. destruct (all_descendants_spec p (elements X) Hl ltac:(intros r Hr%elem_of_elements; auto) ∅ (λ _, False)) as (R & E & HR); [intros d; set_solver +|]. exists R. split; [done|]. eapply family_ext; [|exact HR]. intros r. cbn. rewrite elem_of_elements. tauto.
Qed.
(** Removing a family: what all the removals below do. *)
Lemma remove_family B p T R : consistent B p → (∀ r, T r → r ∈ dom (mapTx p)) → family p T R → ∃ p', RemoveStaged bytes usage p R false = Some p' ∧ consistent B p' ∧ remains R p p' ∧ mapDeltas p' = mapDeltas p ∧ ∀ x y, anc p' x y ↔ x ∉ R ∧ y ∉ R ∧ anc p x y.
Proof.
  intros Hc HT HR. apply (RemoveStaged_spec bytes usage); [done| |by eapply family_closed]. eapply family_dom; [apply (cs_linked _ _ _ _ Hc)|done..].
Qed.
(** The transaction itself, or what spends it when it is not in the pool. *)
Definition roots (p : CTxMemPool) (h : txid) (t : CMutableTransaction) (x : txid) : Prop :=
  if exists_tx p h then x = h else ∃ i, 0 <= i < Z.of_nat (length (vout t)) ∧ mapNextTx p !! mkOutPoint h i = Some x.
Lemma spenders_spec B p h n : consistent B p → ∀ i X, ∃ X', spenders p h i n X = Some X' ∧ ∀ x, x ∈ X' ↔ x ∈ X ∨ ∃ j, i <= j < i + Z.of_nat n ∧ mapNextTx p !! mkOutPoint h j = Some x.
Proof.
  intros Hc. induction n as [|n IH]; intros i X; cbn [spenders]. { exists X. split; [done|]. intros x. split; [by left|]. intros [?|(j & ? & _)]; [done|lia]. }
  destruct (mapNextTx p !! mkOutPoint h i) as [y|] eqn:Ey.
  - pose proof (proj1 (ix_next _ _ (cs_index _ _ _ _ Hc) _ _) Ey) as (e & Ee & _). rewrite Ee. cbn [mbind option_bind]. destruct (IH (i + 1) ({[y]} ∪ X)) as (X' & E & HX'). exists X'. split; [done|]. intros x. rewrite HX', elem_of_union, elem_of_singleton. split.
    + intros [[->|?]|(j & ? & ?)]; [right; exists i; split; [lia|done]|by left|right; exists j; split; [lia|done]].
    + intros [?|(j & Hj & Ex)]; [auto|]. destruct (decide (j = i)) as [->|]; [left; left; congruence|]. right. exists j. split; [lia|done].
  - destruct (IH (i + 1) X) as (X' & E & HX'). exists X'. split; [done|]. intros x. rewrite HX'. split; (intros [?|(j & Hj & Ex)]; [by left|]); right; exists j; (split; [|done]); [lia|]. assert (j ≠ i) by (intros ->; congruence). lia.
Qed.
Lemma roots_dom B p h t x : consistent B p → roots p h t x → x ∈ dom (mapTx p).
Proof.
  intros Hc. unfold roots. destruct (exists_tx p h) eqn:E; [intros ->; by apply exists_tx_true|]. intros (i & _ & Hi). apply (ix_next _ _ (cs_index _ _ _ _ Hc)) in Hi as (e & Ee & _). apply dom_lookup. eauto.
Qed.
Lemma removeRecursive_spec B p h t : consistent B p → ∃ p' R, removeRecursive bytes usage p h t = Some (p', R) ∧ consistent B p' ∧ family p (roots p h t) R ∧ remains R p p' ∧ mapDeltas p' = mapDeltas p ∧ ∀ x y, anc p' x y ↔ x ∉ R ∧ y ∉ R ∧ anc p x y.
Proof.
  intros Hc. pose proof (cs_linked _ _ _ _ Hc) as Hl. unfold removeRecursive. assert (∃ X, (if exists_tx p h then Some {[h]} else spenders p h 0 (length (vout t)) ∅) = Some X ∧ ∀ x, x ∈ X ↔ roots p h t x) as (X & EX & HX).
  { unfold roots. destruct (exists_tx p h); [exists {[h]}; split; [done|]; intros x; apply elem_of_singleton|]. destruct (spenders_spec B p h (length (vout t)) Hc 0 ∅) as (X & E & HX). exists X. split; [done|]. intros x. rewrite HX, Z.add_0_l. set_solver +. }
  rewrite EX. cbn [mbind option_bind]. destruct (all_descendants_set p X Hl) as (R & ER & HR). { intros x Hx%HX. by eapply roots_dom. }
  rewrite ER. cbn [mbind option_bind]. apply (family_ext _ _ (roots p h t)) in HR; [|done]. destruct (remove_family B p _ R Hc ltac:(intros; by eapply roots_dom) HR) as (p' & E & Hc' & Hr & Hd & Ha). rewrite E. by exists p', R.
Qed.

(** ** Conflicts *)
Lemma next_remains R p p' o x : indexed bytes p → indexed bytes p' → remains R p p' → mapNextTx p' !! o = Some x ↔ mapNextTx p !! o = Some x ∧ x ∉ R.
Proof.
  intros Hi Hi' Hr. rewrite (ix_next _ _ Hi'), (ix_next _ _ Hi). split.
  - intros (e' & Ex & Pe & Ho). destruct (remains_entry _ _ _ _ _ Hr Ex) as (Hx & e & Ex' & Eb). split; [|done]. exists e. unfold is_private in *. apply base_fields in Eb as (<- & _). done.
  - intros [(e & Ex & Pe & Ho) Hx]. pose proof (Hr x) as Hrx. rewrite decide_False, Ex in Hrx by done. destruct (mapTx p' !! x) as [e'|]; [|done]. apply (inj Some) in Hrx. exists e'. unfold is_private in *. apply base_fields in Hrx as (-> & _). done.
Qed.
Lemma clear_consistent B p h : consistent B p → h ∉ dom (mapTx p) → consistent B (ClearPrioritisation p h).
Proof.
  intros [[? ? ? ?] Hs Ht [? ? ? Hd ?] ?] Hh. constructor; [by constructor|done|by apply (stats_mapTx bytes p)| |done]. constructor; try done. intros x e Ex. cbn in Ex |- *. rewrite lookup_delete_ne; [by apply Hd|]. intros <-. apply Hh, dom_lookup. eauto.
Qed.
(** [R] is what leaves [p] for [p'], and other priorities stay. *)
Record removed (B : setEntries) (p p' : CTxMemPool) (R : setEntries) : Prop := {
  rm_consistent : consistent B p';
  rm_remains : remains R p p';
  rm_anc : ∀ x y, anc p' x y ↔ x ∉ R ∧ y ∉ R ∧ anc p x y }.
Lemma removed_refl B p : consistent B p → removed B p p ∅.
Proof. intros Hc. constructor; [done|apply remains_refl|]. intros x y. set_solver +. Qed.
Lemma removed_trans B p1 p2 p3 R1 (R2 : setEntries) : removed B p1 p2 R1 → removed B p2 p3 R2 → removed B p1 p3 (R1 ∪ R2).
Proof.
  intros [_ M1 A1] [C2 M2 A2]. constructor; [done|by eapply remains_trans|]. intros x y. rewrite A2, A1, !elem_of_union. tauto.
Qed.
Lemma removed_next B p p' R o x : consistent B p → removed B p p' R → mapNextTx p' !! o = Some x ↔ mapNextTx p !! o = Some x ∧ x ∉ R.
Proof. intros Hc [Hc' Hr _]. apply next_remains; [by apply (cs_index _ _ _ _ Hc)|by apply (cs_index _ _ _ _ Hc')|done]. Qed.
Lemma removed_dom B p p' R : removed B p p' R → dom (mapTx p') = dom (mapTx p) ∖ R.
Proof. intros [_ Hr _]. by apply remains_dom. Qed.
Lemma removed_clear B p p' R h : removed B p p' R → h ∉ dom (mapTx p') → removed B p (ClearPrioritisation p' h) R.
Proof. intros [Hc Hr Ha] Hh. constructor; [by apply clear_consistent|done..]. Qed.
Definition conflict (p : CTxMemPool) (h : txid) (l : list CTxIn) (c : txid) : Prop := c ≠ h ∧ ∃ i, i ∈ l ∧ mapNextTx p !! prevout i = Some c.
Lemma removeConflicts_spec B h l : ∀ p, consistent B p → ∃ p' R, removeConflicts bytes usage p h l = Some p' ∧ removed B p p' R ∧ family p (conflict p h l) R.
Proof.
  induction l as [|i l IH]; intros p Hc; cbn [removeConflicts]. { exists p, ∅. split_and!; [done|by apply removed_refl|]. intros d. unfold conflict. set_solver +. }
  assert (∃ p1 R1, match mapNextTx p !! prevout i with Some c => if negb (bool_decide (c = h)) then e ← mapTx p !! c; '(p, _) ← removeRecursive bytes usage p c (tx e); Some (ClearPrioritisation p c) else Some p | None => Some p end = Some p1 ∧
    removed B p p1 R1 ∧ family p (λ c, c ≠ h ∧ mapNextTx p !! prevout i = Some c) R1) as (p1 & R1 & E1 & H1 & F1).
  { destruct (mapNextTx p !! prevout i) as [c|] eqn:Ei; [|exists p, ∅; split_and!; [done|by apply removed_refl|]; intros d; set_solver +]. destruct (decide (c = h)) as [->|Hch]; [rewrite bool_decide_true by done|rewrite bool_decide_false by done]; cbn [negb].
    { exists p, ∅. split_and!; [done|by apply removed_refl|]. intros d. split; [set_solver +|]. intros (r & [? ?] & _). congruence. }
    pose proof (proj1 (ix_next _ _ (cs_index _ _ _ _ Hc) _ _) Ei) as (e & Ec & _). rewrite Ec. cbn [mbind option_bind]. destruct (removeRecursive_spec B p c (tx e) Hc) as (p1 & R & E & Hc1 & HF & Hr & _ & Ha). rewrite E. cbn [mbind option_bind].
    assert (exists_tx p c = true) as Ex by (apply exists_tx_true, dom_lookup; eauto). assert (family p (λ r, r ≠ h ∧ Some c = Some r) R) as HF'. { eapply family_ext; [|exact HF]. intros r. unfold roots. rewrite Ex. naive_solver. }
    eexists _, R. split_and!; [done| |done]. apply removed_clear; [by constructor|]. rewrite (remains_dom _ _ _ Hr). assert (c ∈ R) by (apply HF'; exists c; auto). set_solver. }
  rewrite E1. cbn [mbind option_bind]. destruct (IH p1) as (p' & R2 & E2 & H2 & F2); [by destruct H1|]. exists p', (R1 ∪ R2). split_and!; [done|by eapply removed_trans|].
  pose proof (λ o x, removed_next B p p1 R1 o x Hc H1) as Hn. destruct H1 as [_ _ Ha]. intros d. rewrite elem_of_union, (F1 d), (F2 d). unfold conflict. split.
  - intros [(r & [? ?] & Hd)|(r & [? (j & Hj & [? ?]%Hn)] & Hd)]; exists r; [split; [split; [done|exists i; split; [by left|done]]|done]|]. split; [split; [done|exists j; split; [by right|done]]|]. destruct Hd as [->|(_ & _ & ?)%Ha]; auto.
  - intros (r & [? (j & [->|Hj]%elem_of_cons & Hr)] & Hd); [left; exists r; auto|]. destruct (decide (r ∈ R1)) as [Hr1|Hr1]; [left; by apply F1; destruct Hd as [->|Hd]; [|apply (family_closed _ _ _ F1 d r Hd)]|].
    destruct (decide (d ∈ R1)) as [Hd1|Hd1]; [left; by apply F1|]. right. exists r. split; [split; [done|exists j; split; [done|by apply Hn]]|]. destruct Hd as [->|Hd]; [by left|]. right. by apply Ha.
Qed.

(** ** Blocks *)
Definition hashes (vtx : list (txid * CMutableTransaction)) : setEntries := list_to_set vtx.*1.
(** A block that the pool can follow: the parents of its transactions that are in the pool come before them in the block, and no transaction of the block
    conflicts with another one of it that is in the pool. *)
Record confirms (p : CTxMemPool) (vtx : list (txid * CMutableTransaction)) : Prop := {
  cf_order : ∀ l1 h t l2, vtx = l1 ++ (h, t) :: l2 → par p h ⊆ hashes l1;
  cf_spend : ∀ h t i c, (h, t) ∈ vtx → i ∈ vin t → mapNextTx p !! prevout i = Some c → c ≠ h → c ∉ hashes vtx }.
Definition block_conflict (p : CTxMemPool) (vtx : list (txid * CMutableTransaction)) (c : txid) : Prop := ∃ h t, (h, t) ∈ vtx ∧ conflict p h (vin t) c.
Lemma removed_par B p p' R x y : consistent B p → removed B p p' R → y ∈ par p' x → y ∈ par p x ∧ x ∉ R ∧ y ∉ R.
Proof.
  intros Hc Hr Hy. pose proof Hr as [Hc' Hm Ha]. destruct (lk_in _ (cs_linked _ _ _ _ Hc') _ _ Hy) as [[e' Ex]%dom_lookup Hyd]. destruct (remains_entry _ _ _ _ _ Hm Ex) as (Hx & e & Ex' & Eb).
  apply (cs_spends _ _ _ _ Hc' x e' Ex) in Hy. rewrite (removed_dom _ _ _ _ Hr), elem_of_difference in Hyd. rewrite (cs_spends _ _ _ _ Hc x e Ex'). unfold is_private in *. apply base_fields in Eb as (Et & _). rewrite Et in Hy. naive_solver.
Qed.
Lemma remove_one B p h : consistent B p → par p h = ∅ → ∃ p', (if exists_tx p h then RemoveStaged bytes usage p {[h]} true else Some p) = Some p' ∧ removed B p p' ({[h]} ∩ dom (mapTx p)).
Proof.
  intros Hc Hp. destruct (exists_tx p h) eqn:E.
  - apply exists_tx_true in E. destruct (RemoveStaged_spec bytes usage B p {[h]} true Hc) as (p' & E' & Hc' & Hr & _ & Ha); [set_solver +E| |].
    { intros x a Ha ->%elem_of_singleton. destruct (anc_first _ _ _ Ha) as (z & Hz & _). rewrite Hp in Hz. by apply not_elem_of_empty in Hz. }
    exists p'. split; [done|]. replace ({[h]} ∩ dom (mapTx p)) with ({[h]} : setEntries) by set_solver +E. by constructor.
  - assert (h ∉ dom (mapTx p)) as Hh by (rewrite <- exists_tx_true, E; done). exists p. split; [done|]. replace ({[h]} ∩ dom (mapTx p)) with (∅ : setEntries) by set_solver +Hh. by apply removed_refl.
Qed.
Lemma confirms_next B p p' R h t vtx : consistent B p → removed B p p' R → h ∉ dom (mapTx p') → confirms p ((h, t) :: vtx) → confirms p' vtx.
Proof.
  intros Hc Hr Hh [Ho Hs]. constructor.
  - intros l1 h' t' l2 -> y Hy. assert (y ∈ dom (mapTx p')) as Hyd by (destruct Hr as [Hc' _ _]; by apply (lk_in _ (cs_linked _ _ _ _ Hc')) in Hy as [_ ?]). apply (removed_par B p p' R) in Hy as (Hy & _ & _); [|done..].
    apply (Ho ((h, t) :: l1) h' t' l2 eq_refl) in Hy. unfold hashes in *. cbn in Hy. apply elem_of_union in Hy as [->%elem_of_singleton|?]; done.
  - intros h' t' i c Hin Hi Hn Hne. apply (removed_next B p p' R) in Hn as [Hn _]; [|done..]. pose proof (Hs h' t' i c ltac:(by right) Hi Hn Hne) as Hc'. unfold hashes in *. cbn in Hc'. set_solver +Hc'.
Qed.
Lemma removeForBlock_spec B vtx : ∀ p, consistent B p → confirms p vtx → ∃ p' R, removeForBlock bytes usage p vtx = Some p' ∧ removed B p p' R ∧ ∀ x, x ∈ R ↔ x ∈ hashes vtx ∩ dom (mapTx p) ∨ ∃ c, block_conflict p vtx c ∧ (x = c ∨ anc p x c).
Proof.
  induction vtx as [|[h t] vtx IH]; intros p Hc Hcf; cbn [removeForBlock]. { exists p, ∅. split_and!; [done|by apply removed_refl|]. intros x. unfold block_conflict, hashes. set_solver +. }
  assert (par p h = ∅) as Hp. { pose proof (cf_order _ _ Hcf [] h t vtx eq_refl) as Hs. unfold hashes in Hs. cbn in Hs. set_solver +Hs. }
  destruct (remove_one B p h Hc Hp) as (pa & Ea & Ha). rewrite Ea. cbn [mbind option_bind]. destruct (removeConflicts_spec B h (vin t) pa (rm_consistent _ _ _ _ Ha)) as (pb & Rb & Eb & Hb & Fb). rewrite Eb. cbn [mbind option_bind].
  pose proof (removed_trans _ _ _ _ _ _ Ha Hb) as Hab. assert (h ∉ dom (mapTx pb)) as Hh by (rewrite (removed_dom _ _ _ _ Hab); set_solver +). apply (removed_clear _ _ _ _ h) in Hab; [|done].
  set (pc := ClearPrioritisation pb h) in *. destruct (IH pc (rm_consistent _ _ _ _ Hab) (confirms_next B p pc _ h t vtx Hc Hab Hh Hcf)) as (p' & R & E & HR & FR). rewrite E. set (R0 := {[h]} ∩ dom (mapTx p)) in *. exists p', (R0 ∪ Rb ∪ R). split_and!; [done|by eapply removed_trans|].
  pose proof (λ o x, removed_next B p pa R0 o x Hc Ha) as Na. pose proof (λ o x, removed_next B p pc _ o x Hc Hab) as Nc. pose proof (removed_dom _ _ _ _ Hab) as Dc. pose proof (rm_anc _ _ _ _ Ha) as Aa. pose proof (rm_anc _ _ _ _ Hab) as Ac.
  assert (∀ h' t' i c, (h', t') ∈ (h, t) :: vtx → i ∈ vin t' → mapNextTx p !! prevout i = Some c → c ≠ h' → c ∉ R0) as Hc0. { intros h' t' i c Hin Hi Hn Hne Hr. apply (cf_spend _ _ Hcf h' t' i c Hin Hi Hn Hne). unfold R0, hashes in *. cbn. set_solver +Hr. }
  intros x. rewrite !elem_of_union, (FR x), (Fb x). split.
  - intros [[Hx|(c & [Hne (i & Hi & [Hn _]%Na)] & Hd)]|[Hx|(c & (h' & t' & Hin & Hne & i & Hi & [Hn _]%Nc) & Hd)]].
    + left. unfold R0, hashes in *. cbn. set_solver +Hx.
    + right. exists c. split; [exists h, t; split; [by left|]; split; [done|eauto]|]. destruct Hd as [->|(_ & _ & ?)%Aa]; auto.
    + left. rewrite Dc in Hx. unfold hashes in *. cbn. set_solver +Hx.
    + right. exists c. split; [exists h', t'; split; [by right|]; split; [done|eauto]|]. destruct Hd as [->|(_ & _ & ?)%Ac]; auto.
  - destruct (decide (x ∈ R0)) as [|Hx0]; [auto|]. destruct (decide (x ∈ Rb)) as [Hxb|Hxb]; [left; right; by apply Fb|]. assert (x ∉ R0 ∪ Rb) as Hx0b by (rewrite elem_of_union; tauto).
    intros [Hx|(c & (h' & t' & Hin & Hne & i & Hi & Hn) & Hd)]; [right; left; rewrite Dc; unfold R0, hashes in *; cbn in Hx; set_solver +Hx Hx0 Hx0b|]. pose proof (Hc0 h' t' i c Hin Hi Hn Hne) as Hcn.
    apply elem_of_cons in Hin as [[= -> ->]|Hin]; [left; right; exists c; split; [split; [done|exists i; split; [done|by apply Na]]|]; destruct Hd as [->|Hd]; [by left|right; by apply Aa]|].
    destruct (decide (c ∈ Rb)) as [Hcb|Hcb].
    + exfalso. apply Hxb. destruct Hd as [->|Hd]; [done|]. apply (family_closed _ _ _ Fb x c); [by apply Aa|done].
    + assert (c ∉ R0 ∪ Rb) as Hc0b by (rewrite elem_of_union; tauto). right. right. exists c. split; [exists h', t'; split; [done|]; split; [done|exists i; split; [done|by apply Nc]]|]. destruct Hd as [->|Hd]; [by left|right; by apply Ac].
Qed.

(** ** Expiry and eviction *)
Lemma Expire_spec B p time : consistent B p → ∃ p' R, Expire bytes usage p time = Some (p', size R) ∧ removed B p p' R ∧ family p (λ r, ∃ e, mapTx p !! r = Some e ∧ nTime e < time) R.
Proof.
  intros Hc. unfold Expire. destruct (all_descendants_set p (dom (filter (λ z : txid * CTxMemPoolEntry, nTime z.2 < time) (mapTx p))) (cs_linked _ _ _ _ Hc)) as (R & E & HR); [apply dom_filter_subseteq|]. rewrite E. cbn [mbind option_bind].
  apply (family_ext _ _ (λ r, ∃ e, mapTx p !! r = Some e ∧ nTime e < time)) in HR. 2: { intros r. rewrite elem_of_dom. unfold is_Some. setoid_rewrite map_lookup_filter_Some. done. }
  assert (∀ r, (∃ e, mapTx p !! r = Some e ∧ nTime e < time) → r ∈ dom (mapTx p)) as Hd by (intros r (e & Ee & _); apply dom_lookup; eauto). destruct (remove_family B p _ R Hc Hd HR) as (p' & E' & Hc' & Hr & _ & Ha). rewrite E'. exists p', R. by split_and!.
Qed.
Lemma trim_spec B (memory : CTxMemPool → Z) (worst : CTxMemPool → option txid) sizelimit : (∀ p, mapTx p ≠ ∅ → ∃ x, worst p = Some x ∧ x ∈ dom (mapTx p)) → ∀ fuel p, (size (mapTx p) <= fuel)%nat → consistent B p →
  ∃ p' R, trim_loop bytes usage fuel memory worst p sizelimit = Some p' ∧ removed B p p' R ∧ closed p R false ∧ (mapTx p' = ∅ ∨ memory p' <= sizelimit).
Proof.
  intros Hw. induction fuel as [|fuel IH]; intros p Hf Hc; cbn [trim_loop].
  { assert (mapTx p = ∅) as E by (apply map_size_empty_inv; lia). rewrite bool_decide_true by done. cbn. exists p, ∅. split_and!; [done|by apply removed_refl|intros x a _; set_solver +|by left]. }
  destruct (bool_decide (mapTx p = ∅) || (memory p <=? sizelimit)) eqn:Eb.
  { exists p, ∅. split_and!; [done|by apply removed_refl|intros x a _; set_solver +|]. apply orb_true_iff in Eb as [?%bool_decide_eq_true|?]; [by left|right; lia]. }
  apply orb_false_iff in Eb as [Hne%bool_decide_eq_false _]. destruct (Hw p Hne) as (x & Ex & Hx). rewrite Ex. cbn [mbind option_bind]. destruct (CalculateDescendants_spec p x ∅ (cs_linked _ _ _ _ Hc) Hx) as (D & ED & HD); [set_solver +|]. rewrite ED. cbn [mbind option_bind].
  assert (family p (λ r, r = x) D) as HF. { intros d. rewrite HD. split; [intros [?|?]; [set_solver|exists x; auto]|]. intros (r & -> & ?). by right. }
  assert (∀ r, r = x → r ∈ dom (mapTx p)) as Hrx by (by intros r ->). destruct (remove_family B p _ D Hc Hrx HF) as (p1 & E1 & Hc1 & Hr1 & _ & Ha1). rewrite E1. cbn [mbind option_bind]. assert (removed B p p1 D) as H1 by (by constructor). assert (x ∈ D) as HxD by (apply HF; exists x; auto).
  destruct (IH p1) as (p' & R & E & HR & HcR & Hend); [|done|]. { assert (size (dom (mapTx p1)) < size (dom (mapTx p)))%nat as Hlt by (rewrite (removed_dom _ _ _ _ H1); apply subset_size; set_solver +Hx HxD). rewrite !size_dom in Hlt. lia. }
  exists p', (D ∪ R). split_and!; [done|by eapply removed_trans| |done]. intros y a Ha [HaD|HaR]%elem_of_union; apply elem_of_union; [left; by apply (family_closed _ _ _ HF y a)|]. destruct (decide (y ∈ D)); [by left|]. right.
  destruct (decide (a ∈ D)) as [HaD|HaD]; [exfalso; by apply n, (family_closed _ _ _ HF y a)|]. apply (HcR y a); [by apply Ha1|done].
Qed.

(** ** Priorities *)
Lemma sum_shift w w' X h n : (∀ y, y ≠ h → w' y = w y) → i64 (w' h) = i64 (w h + n) → i64 (sum w' X) = i64 (sum w X + if decide (h ∈ X) then n else 0).
Proof.
  intros Hne Hh. destruct (decide (h ∈ X)) as [Hx|Hx].
  - rewrite (sum_update w w' X h Hx Hne). replace (sum w X + (w' h - w h)) with (sum w X - w h + w' h) by lia. rewrite <- i64_add_r, Hh, i64_add_r. f_equal. lia.
  - rewrite Z.add_0_r. f_equal. apply sum_ext. intros y Hy. apply Hne. by intros ->.
Qed.
(** The fee of one entry changes by [n], and the statistics of those that count it. *)
Lemma stats_fee p q h n Ra Rd : (∀ y, tx_size bytes q y = tx_size bytes p y ∧ sig_ops q y = sig_ops p y) → (∀ y, y ≠ h → mod_fee q y = mod_fee p y) → i64 (mod_fee q h) = i64 (mod_fee p h + n) →
  (∀ x e', mapTx q !! x = Some e' → ∃ e, mapTx p !! x = Some e ∧ nCountWithAncestors e' = nCountWithAncestors e ∧ nSizeWithAncestors e' = nSizeWithAncestors e ∧ nSigOpCostWithAncestors e' = nSigOpCostWithAncestors e ∧
    nCountWithDescendants e' = nCountWithDescendants e ∧ nSizeWithDescendants e' = nSizeWithDescendants e ∧
    (Ra x h ∧ nModFeesWithAncestors e' = i64 (nModFeesWithAncestors e + n) ∨ ¬ Ra x h ∧ nModFeesWithAncestors e' = nModFeesWithAncestors e) ∧
    (Rd h x ∧ nModFeesWithDescendants e' = i64 (nModFeesWithDescendants e + n) ∨ ¬ Rd h x ∧ nModFeesWithDescendants e' = nModFeesWithDescendants e)) →
  stats bytes p Ra Rd → stats bytes q Ra Rd.
Proof.
  intros Hw Hne Hh Hq Hs x e' Ex. destruct (Hq x e' Ex) as (e & Ee & Q1 & Q2 & Q3 & Q4 & Q5 & Q6 & Q7). destruct (Hs x e Ee) as (X & Y & HX & HY & (A1 & A2 & A3 & A4) & (D1 & D2 & D3)). exists X, Y. unfold anc_exact, desc_exact.
  assert (∀ Z, sum (tx_size bytes q) Z = sum (tx_size bytes p) Z) as E1 by (intros Z; apply sum_ext; intros; by apply Hw). assert (∀ Z, sum (sig_ops q) Z = sum (sig_ops p) Z) as E2 by (intros Z; apply sum_ext; intros; by apply Hw).
  rewrite !E1, !E2, Q1, Q2, Q3, Q4, Q5, !(sum_shift (mod_fee p) (mod_fee q) _ h n Hne Hh). split_and!; [done..| |done|done|done|].
  - destruct Q6 as [[Hr ->]|[Hr ->]]; rewrite A3; [rewrite decide_True by (by apply HX); apply i64_add_l|rewrite decide_False by (by rewrite HX); by rewrite Z.add_0_r].
  - destruct Q7 as [[Hr ->]|[Hr ->]]; rewrite D3; [rewrite decide_True by (by apply HY); apply i64_add_l|rewrite decide_False by (by rewrite HY); by rewrite Z.add_0_r].
Qed.
(** The result of [PrioritiseTransaction]. *)
Definition reprioritised (p : CTxMemPool) (h : txid) (A : setEntries) (new n : Z) (m : gmap txid CTxMemPoolEntry) : Prop := ∀ x, m !! x = if decide (x = h) then (λ e, UpdateFeeDelta e new) <$> mapTx p !! x
  else if decide (x ∈ A) then (λ a, UpdateDescendantState a 0 n 0) <$> mapTx p !! x else mapTx p !! x.
Lemma PrioritiseTransaction_pool B p h n : consistent B p → h ∈ dom (mapTx p) → let new := i64 (default 0 (mapDeltas p !! h) + n) in
  ∃ A m, PrioritiseTransaction bytes p h n = Some (set_mapTx (set_deltas p (<[h := new]> (mapDeltas p))) m) ∧ (∀ a, a ∈ A ↔ anc p h a) ∧ reprioritised p h A new n m.
Proof.
  intros Hc [e Ee]%dom_lookup new. pose proof (linked_upward _ (cs_linked _ _ _ _ Hc)) as Hu. unfold PrioritiseTransaction. fold new. change (mapTx (set_deltas p (<[h := new]> (mapDeltas p)))) with (mapTx p). rewrite Ee. erewrite modify_some by exact Ee. cbn [mbind option_bind]. set (q := set_mapTx _ _).
  assert (mapTx q = <[h := UpdateFeeDelta e new]> (mapTx p)) as Mq by done. assert (dom (mapTx q) = dom (mapTx p)) as Dq by (rewrite Mq; apply dom_insert_lookup_L; eauto). rewrite Mq, lookup_insert_eq. cbn [mbind option_bind].
  assert (upward q) as Uq by (destruct Hu as [? ? ?]; constructor; [by rewrite Dq|by rewrite Dq|done]). pose proof (ix_keys _ _ (cs_index _ _ _ _ Hc) h e Ee) as Eh.
  destruct (CalculateMemPoolAncestors_spec bytes q (UpdateFeeDelta e new) no_limits false Uq) as (A & err & EA & Hno & Hok). { intros _. cbn [hash UpdateFeeDelta]. rewrite Eh, Dq. apply dom_lookup. eauto. }
  rewrite EA. cbn [mbind option_bind]. destruct (Hok (Hno eq_refl)) as [HA _]. assert (∀ a, a ∈ A ↔ anc p h a) as HA' by (intros a; rewrite HA; by apply (start_above q h)).
  destruct (modify_set q A (λ a, UpdateDescendantState a 0 n 0)) as (m & Em & Hm). { intros a Ha%HA'. rewrite Dq. by apply (anc_in _ _ _ Hu) in Ha as [_ ?]. }
  exists A, m. split_and!; [exact Em|done|]. intros x. rewrite Hm, Mq. destruct (decide (x = h)) as [->|Hx]; [|by rewrite lookup_insert_ne]. rewrite decide_False by (rewrite HA'; apply (lk_acyclic _ (cs_linked _ _ _ _ Hc))). by rewrite lookup_insert_eq, Ee.
Qed.
Lemma fee_shift (a o n : Z) : i64 (a + i64 (i64 (o + n) - o)) = i64 (a + n).
Proof. rewrite i64_add_r. replace (a + (i64 (o + n) - o)) with (a - o + i64 (o + n)) by lia. rewrite i64_add_r. f_equal. lia. Qed.
Lemma fee_shifted (f o n : Z) : i64 (i64 (f + i64 (o + n))) = i64 (i64 (f + o) + n).
Proof. rewrite (i64_small (i64 _)) by apply i64_range. rewrite i64_add_l, i64_add_r. f_equal. lia. Qed.
Lemma repr_entry p h A new n m x : reprioritised p h A new n m → ∀ e', m !! x = Some e' ↔ ∃ e, mapTx p !! x = Some e ∧ e' = if decide (x = h) then UpdateFeeDelta e new else if decide (x ∈ A) then UpdateDescendantState e 0 n 0 else e.
Proof.
  intros Hm e'. rewrite (Hm x). destruct (decide (x = h)) as [_|_]; [|destruct (decide (x ∈ A)) as [_|_]]; destruct (mapTx p !! x) as [e|]; cbn; (split; [intros [= <-]; eauto|intros (e0 & [= <-] & ->); done]) || (split; [done|by intros (? & ? & _)]).
Qed.
Lemma repr_fields (h x : txid) A new n e : let e' := if decide (x = h) then UpdateFeeDelta e new else if decide (x ∈ A) then UpdateDescendantState e 0 n 0 else e in
  tx e' = tx e ∧ hash e' = hash e ∧ wtxid e' = wtxid e ∧ nUsageSize e' = nUsageSize e ∧ sigOpCost e' = sigOpCost e ∧ vTxHashesIdx e' = vTxHashesIdx e ∧ GetTxSize bytes e' = GetTxSize bytes e ∧ is_private e' = is_private e ∧
  feeDelta e' = (if decide (x = h) then new else feeDelta e) ∧ nFee e' = nFee e.
Proof. cbn zeta. destruct (decide (x = h)); [done|]. by destruct (decide (x ∈ A)). Qed.
Lemma repr_dom p h A new n m : reprioritised p h A new n m → dom m = dom (mapTx p).
Proof. intros Hm. apply set_eq. intros x. rewrite !elem_of_dom. unfold is_Some. setoid_rewrite (repr_entry p h A new n m x Hm). naive_solver. Qed.
Lemma repr_value {V} p h A new n m (f : CTxMemPoolEntry → V) (g : CTxMemPoolEntry → V) x : reprioritised p h A new n m → (∀ e, f (if decide (x = h) then UpdateFeeDelta e new else if decide (x ∈ A) then UpdateDescendantState e 0 n 0 else e) = g e) → f <$> m !! x = g <$> mapTx p !! x.
Proof.
  intros Hm Hf. rewrite (Hm x). destruct (mapTx p !! x) as [e|]; [|by destruct (decide _) as [_|_]; [|destruct (decide _)]]. cbn. specialize (Hf e). destruct (decide _) as [_|_]; [cbn; by rewrite Hf|]. destruct (decide _) as [_|_]; cbn; by rewrite Hf.
Qed.
Lemma repr_indexed p h A new n m : indexed bytes p → reprioritised p h A new n m → indexed bytes (set_mapTx (set_deltas p (<[h := new]> (mapDeltas p))) m).
Proof.
  intros [K N V D T] Hm. pose proof (λ x, repr_entry p h A new n m x Hm) as He. constructor; cbn.
  - intros x e' (e & Ee & ->)%He. destruct (repr_fields h x A new n e) as (_ & -> & _). auto.
  - intros o x. rewrite N. setoid_rewrite He. split.
    + intros (e & Ee & Pe & Ho). eexists. split; [eauto|]. destruct (repr_fields h x A new n e) as (-> & _ & _ & _ & _ & _ & _ & -> & _). done.
    + intros (e' & (e & Ee & ->) & Pe & Ho). exists e. destruct (repr_fields h x A new n e) as (E1 & _ & _ & _ & _ & _ & _ & E2 & _). rewrite E1 in Ho. rewrite E2 in Pe. done.
  - intros i w x. rewrite V. setoid_rewrite He. split.
    + intros (e & Ee & Pe & Ho & Hw). eexists. split; [eauto|]. destruct (repr_fields h x A new n e) as (_ & _ & -> & _ & _ & -> & _ & -> & _). done.
    + intros (e' & (e & Ee & ->) & Pe & Ho & Hw). exists e. destruct (repr_fields h x A new n e) as (_ & _ & E1 & _ & _ & E2 & _ & E3 & _). rewrite E1 in Hw. rewrite E2 in Ho. rewrite E3 in Pe. done.
  - intros x e' (e & Ee & ->)%He. destruct (repr_fields h x A new n e) as (_ & _ & _ & _ & _ & _ & _ & _ & -> & _). destruct (decide (x = h)) as [->|]; [by rewrite lookup_insert_eq|rewrite lookup_insert_ne by done; auto].
  - rewrite T, (repr_dom _ _ _ _ _ _ Hm). f_equal. apply sum_ext. intros x _. unfold tx_size. cbn. f_equal. symmetry. apply (repr_value p h A new n m _ _ x Hm). intros e. apply (repr_fields h x A new n e).
Qed.
Lemma PrioritiseTransaction_spec B p h n : consistent B p → chi p h = ∅ → ∃ p', PrioritiseTransaction bytes p h n = Some p' ∧ consistent B p' ∧ mapDeltas p' = <[h := i64 (default 0 (mapDeltas p !! h) + n)]> (mapDeltas p) ∧ dom (mapTx p') = dom (mapTx p) ∧
  ∀ x e', mapTx p' !! x = Some e' → ∃ e, mapTx p !! x = Some e ∧ tx e' = tx e ∧ nFee e' = nFee e.
Proof.
  intros Hc Hh. destruct (decide (h ∈ dom (mapTx p))) as [Hd|Hd].
  2: { exists (set_deltas p (<[h := i64 (default 0 (mapDeltas p !! h) + n)]> (mapDeltas p))). split_and!; [|destruct Hc as [[? ? ? ?] ? Ht [? ? ? Hdl ?] ?]|done|done|by intros x e' Ex; exists e'].
       - unfold PrioritiseTransaction. cbn [mapTx set_deltas]. by rewrite (not_elem_of_dom_1 _ _ Hd).
       - constructor; [by constructor|done|by apply (stats_mapTx bytes p)| |done]. constructor; try done. intros x e Ex. cbn in Ex |- *. rewrite lookup_insert_ne; [by apply Hdl|]. intros <-. apply Hd, dom_lookup. eauto. }
  destruct (PrioritiseTransaction_pool B p h n Hc Hd) as (A & m & E & HA & Hm). set (new := i64 (default 0 (mapDeltas p !! h) + n)) in *. eexists. split; [exact E|]. destruct Hc as [Hl Hsp Hs Hi Hus]. pose proof (repr_dom _ _ _ _ _ _ Hm) as Dm. pose proof (λ x, repr_entry p h A new n m x Hm) as He.
  split_and!; [|done|done|]. 2: { intros x e' (e & Ee & ->)%He. exists e. split; [done|]. split; apply (repr_fields h x A new n e). }
  assert (∀ x, lineage p x h → x = h) as Hdesc. { intros x [->|Ha]; [done|]. destruct (anc_last _ _ _ Ha) as (z & Hz & _). apply (lk_conv _ Hl) in Hz. rewrite Hh in Hz. by apply not_elem_of_empty in Hz. }
  constructor; [destruct Hl as [? ? ? ?]; constructor; cbn; by rewrite ?Dm| | |by apply (repr_indexed p h A new n)|].
  - intros x e' (e & Ee & ->)%He y. cbn [mapTx set_mapTx]. rewrite Dm. destruct (repr_fields h x A new n e) as (-> & _ & _ & _ & _ & _ & _ & -> & _). by apply Hsp.
  - apply (stats_fee p _ h n); [| | | |exact Hs].
    + intros y. unfold tx_size, sig_ops. cbn. split; f_equal; apply (repr_value p h A new n m _ _ y Hm); intros e; apply (repr_fields h y A new n e).
    + intros y Hy. unfold mod_fee. cbn. f_equal. apply (repr_value p h A new n m _ _ y Hm). intros e. rewrite decide_False by done. by destruct (decide _).
    + unfold mod_fee. cbn. apply dom_lookup in Hd as [e Ee]. rewrite (Hm h), decide_True, Ee by done. cbn. unfold GetModifiedFee. cbn. rewrite (ix_deltas _ _ Hi h e Ee). apply fee_shifted.
    + cbn. intros x e' (e & Ee & ->)%He. exists e. split; [done|]. destruct (decide (x = h)) as [->|Hx].
      * split_and!; try done; left; (split; [by left|]); cbn; rewrite (ix_deltas _ _ Hi h e Ee); apply fee_shift.
      * assert (¬ lineage p x h) as Hnl by (intros ?; by apply Hx, Hdesc). destruct (Hs x e Ee) as (X & Y & _ & _ & _ & (D1 & D2 & _)). destruct (decide (x ∈ A)) as [HxA|HxA]; split_and!; try done; try (right; done);
          [cbn; rewrite Z.add_0_r, D1; apply u64_small, u64_range|cbn; rewrite Z.add_0_r, D2; apply u64_small, u64_range|left; split; [right; by apply HA|done]|].
        right. split; [|done]. intros [?|?%HA]; [by subst|done].
  - unfold counted_usage in *. cbn. rewrite Hus, Dm. f_equal. apply sum_ext. intros x _. unfold mem_use. f_equal. cbn. f_equal. symmetry. apply (repr_value p h A new n m _ _ x Hm). intros e. apply (repr_fields h x A new n e).
Qed.
End ops.
End MemPoolOps.
