(* ===== verification/MemPoolReorg.v ===== *)
(** * MemPoolReorg: transactions that come back from a disconnected block

    When a block is disconnected its transactions are added to the pool, in which their children may be.  [UpdateTransactionsFromBlock] links
    the children and corrects the statistics, from the last transaction of the block to the first, with a cache of
    the descendants that it has found.  It ends and leaves a consistent pool. *)
From S2P Require Import Prelude Serialize Uint256 Script Transaction Interpreter Stake MemPool MemPoolGraph MemPoolIndex MemPoolStats MemPoolRemove MemPoolAdd.
Open Scope Z_scope.
Open Scope list_scope.

Module MemPoolReorg.
Import Transaction Stake MemPool MemPoolGraph MemPoolIndex MemPoolStats MemPoolRemove MemPoolAdd.

Implicit Types p : CTxMemPool.
Implicit Types e : CTxMemPoolEntry.
Implicit Types A B D F P R V stage X Y : setEntries.
Implicit Types x y h d c : txid.

Section reorg.
Context (bytes usage : Z).
Notation stats := (stats bytes).
Notation step := (step usage).

(** ** Linking the children *)
Lemma children_of_spec p h c : indexed bytes p → c ∈ children_of p h ↔ ∃ e, mapTx p !! c = Some e ∧ is_private e = false ∧ h ∈ inputs (tx e).
Proof.
  intros Hi. unfold children_of. rewrite list_elem_of_fmap. split.
  - intros ([o c'] & -> & [Ho Hin]%list_elem_of_filter). apply elem_of_map_to_list in Hin. cbn in *. apply (ix_next _ _ Hi) in Hin as (e & Ee & Pe & Hi'). exists e. split_and!; [done..|]. unfold inputs. apply elem_of_list_to_set. apply list_elem_of_fmap in Hi' as (i & -> & Hi'). apply list_elem_of_fmap. eauto.
  - intros (e & Ee & Pe & (i & -> & Hin)%elem_of_list_to_set%list_elem_of_fmap). exists (prevout i, c). split; [done|]. apply list_elem_of_filter. split; [done|]. apply elem_of_map_to_list. apply (ix_next _ _ Hi). exists e. split_and!; [done..|]. apply list_elem_of_fmap. eauto.
Qed.
Lemma link_children_spec h B l : ∀ p X, dom (mapLinks p) = dom (mapTx p) → h ∈ dom (mapTx p) → (∀ c, c ∈ l → c ∈ dom (mapTx p)) → ∃ p', link_children usage p h B l X = Some p' ∧ step p p' ∧ mapTx p' = mapTx p ∧
  (∀ x y, y ∈ par p' x ↔ y ∈ par p x ∨ y = h ∧ x ∈ l ∧ x ∉ B ∧ x ∉ X) ∧ (∀ x c, c ∈ chi p' x ↔ c ∈ chi p x ∨ x = h ∧ c ∈ l ∧ c ∉ B ∧ c ∉ X).
Proof.
  induction l as [|z l IH]; intros p X Hd Hh Hl; cbn [link_children]; [exists p; split_and!; [done..| |]; set_solver +|]. destruct (proj1 (dom_lookup p z) (Hl z ltac:(by left))) as [ez Ez]. rewrite Ez. cbn [mbind option_bind].
  assert (∃ p1, (if decide (z ∈ X) then p else if decide (z ∈ B) then p else UpdateParent usage (UpdateChild usage p h z true) z h true) = p1 ∧ step p p1 ∧ mapTx p1 = mapTx p ∧ (∀ x y, y ∈ par p1 x ↔ y ∈ par p x ∨ y = h ∧ x = z ∧ x ∉ B ∧ x ∉ X) ∧ (∀ x c, c ∈ chi p1 x ↔ c ∈ chi p x ∨ x = h ∧ c = z ∧ c ∉ B ∧ c ∉ X)) as (p1 & E1 & S1 & M1 & P1 & C1).
  { destruct (decide (z ∈ X)) as [Hx|Hx]; [exists p; split_and!; [done..| |]; naive_solver|]. destruct (decide (z ∈ B)) as [Hb|Hb]; [exists p; split_and!; [done..| |]; naive_solver|]. eexists. split; [reflexivity|].
    assert (step p (UpdateChild usage p h z true)) as S0. { split_and!; [apply frozen_child| |by apply usage_child]. rewrite dom_child, Hd. set_solver +Hh. } split_and!.
    - eapply step_trans; [exact S0|]. apply step_parent; [destruct S0 as (_ & -> & _)|]; rewrite mapTx_child; [done|]. apply dom_lookup. eauto.
    - by rewrite mapTx_parent, mapTx_child.
    - clear -Hx Hb. intros x y. rewrite par_parent, !par_child. destruct (decide (x = z)) as [->|]; [rewrite elem_of_union, elem_of_singleton|]; naive_solver.
    - clear -Hx Hb. intros x y. rewrite chi_parent, chi_child. destruct (decide (x = h)) as [->|]; [rewrite elem_of_union, elem_of_singleton|]; naive_solver. }
  rewrite E1. destruct (IH p1 ({[z]} ∪ X)) as (p' & E & S' & M' & P' & C'). { destruct S1 as (_ & -> & _). by rewrite M1. } { by rewrite M1. } { intros c Hc. rewrite M1. apply Hl. by right. }
  exists p'. split_and!; [done|by eapply step_trans|congruence|clear -P' P1|clear -C' C1]; intros x y; [rewrite P', P1|rewrite C', C1]; rewrite elem_of_cons, not_elem_of_union, not_elem_of_singleton; [destruct (decide (x = z))|destruct (decide (y = z))]; naive_solver.
Qed.

(** ** Collecting the descendants *)
(** The cache holds the descendants outside the block. *)
Definition cached (B : setEntries) (p : CTxMemPool) (cache : gmap txid setEntries) : Prop := ∀ y D, cache !! y = Some D → y ∈ B ∧ ∀ d, d ∈ D ↔ d ∉ B ∧ anc p d y.
(** All the descendants of [c] outside the block are in [X]. *)
Definition covered (B : setEntries) (p : CTxMemPool) (X : setEntries) (c : txid) : Prop := ∀ d, d ∉ B → (d = c ∨ anc p d c) → d ∈ X.
Lemma covered_mono B p X X' c : X ⊆ X' → covered B p X c → covered B p X' c.
Proof. intros Hs Hc d Hd Ha. by apply Hs, Hc. Qed.
Lemma covered_child B p X c d : anc p d c → covered B p X c → covered B p X d.
Proof. intros Ha Hc z Hz Hd. apply Hc; [done|]. right. destruct Hd as [->|Hd]; [done|by eapply anc_trans]. Qed.
Lemma cached_covered B p cache y D d : cached B p cache → cache !! y = Some D → d ∈ D → covered B p D d.
Proof. intros Hc Ey Hd z Hz Ha. destruct (Hc y D Ey) as [_ HD]. apply HD in Hd as [_ Hd]. apply HD. split; [done|]. destruct Ha as [->|Ha]; [done|by eapply anc_trans]. Qed.
Lemma stage_child_spec B p cache l : cached B p cache → ∀ stage X stage' X', stage_child cache l stage X = (stage', X') → X ⊆ X' ∧ stage ⊆ stage' ∧
  (∀ z, z ∈ stage' → z ∈ stage ∨ z ∈ l ∧ z ∉ X) ∧ (∀ z, z ∈ X' → z ∈ X ∨ covered B p X' z ∧ ∃ c, c ∈ l ∧ anc p z c) ∧ ∀ c, c ∈ l → c ∈ stage' ∨ c ∈ X' ∨ covered B p X' c.
Proof.
  intros Hc. induction l as [|c l IH]; intros stage X stage' X' E; cbn [stage_child] in E. { injection E as <- <-. split_and!; [done|done|auto|auto|]. intros c Hcn. by apply elem_of_nil in Hcn. }
  destruct (cache !! c) as [D|] eqn:Ec.
  - destruct (IH _ _ _ _ E) as (H1 & H2 & H3 & H4 & H5). destruct (Hc c D Ec) as [Hcb HD]. split_and!; [set_solver +H1|done| | |].
    + intros z [?|[? ?]]%H3; [by left|right]. split; [by right|set_solver].
    + intros z [[?|Hz]%elem_of_union|[? (x & ? & ?)]]%H4; [by left| |right; split; [done|]; exists x; split; [by right|done]]. right. split; [|exists c; split; [by left|]; by apply HD]. eapply covered_mono; [|by eapply cached_covered]. set_solver +H1.
    + intros x [->|Hx]%elem_of_cons; [|auto]. right. right. intros d Hd [->|Ha]; [done|]. apply H1, elem_of_union. right. by apply HD.
  - destruct (IH _ _ _ _ E) as (H1 & H2 & H3 & H4 & H5). split_and!; [done|destruct (decide _); set_solver +H2| | |].
    + intros z [Hz|[? ?]]%H3; [|right; split; [by right|done]]. destruct (decide (c ∈ X)) as [|Hcx]; [by left|]. apply elem_of_union in Hz as [->%elem_of_singleton|?]; [right; split; [by left|done]|by left].
    + intros z [?|[? (x & ? & ?)]]%H4; [by left|right; split; [done|]; exists x; split; [by right|done]].
    + intros x [->|Hx]%elem_of_cons; [|auto]. destruct (decide (c ∈ X)) as [Hcx|Hcx]; [right; left; auto|left]. apply H2. set_solver +.
Qed.
(** Every entry is taken from the stage at most once: [V] are those that were. *)
Lemma collect_loop_spec B p cache h : linked p → cached B p cache → ∀ f stage X V, (size (dom (mapTx p) ∖ V) < f)%nat → V ⊆ X → stage ## V → (∀ z, z ∈ stage → anc p z h) → (∀ z, z ∈ X → anc p z h ∧ (z ∈ V ∨ covered B p X z)) →
  (∀ v c, v = h ∨ v ∈ V → c ∈ chi p v → c ∈ stage ∨ c ∈ V ∨ covered B p X c) → ∃ X', collect_loop f p cache stage X = Some X' ∧ (∀ d, d ∈ X' → anc p d h) ∧ ∀ d, d ∉ B → anc p d h → d ∈ X'.
Proof.
  intros Hl Hca. pose proof (linked_upward _ Hl) as Hu. induction f as [|f IH]; intros stage X V Hf HV Hd Hs HX Hc; [lia|]. cbn [collect_loop]. destruct (elements stage) as [|z l] eqn:Es.
  { apply elements_nil in Es as ->. exists X. split_and!; [done|intros d Hdx; by apply HX|]. assert (∀ d v, anc p d v → v = h ∨ v ∈ V ∨ covered B p X v → d ∈ V ∨ covered B p X d) as Hpath.
    { intros d v. revert v. assert (∀ v c, c ∈ chi p v → v = h ∨ v ∈ V ∨ covered B p X v → c ∈ V ∨ covered B p X c) as Hone.
      { intros v c Hcv [Hv|[Hv|Hv]]; [| |right; eapply covered_child; [|exact Hv]; apply anc_parent; by apply (lk_conv _ Hl)]; (destruct (Hc v c ltac:(auto) Hcv) as [?%not_elem_of_empty|?]; done). }
      intros v Ha. induction Ha as [d v Hu'|d z v Hu' _ IH']; intros Hv; (apply (lk_conv _ Hl) in Hu'); [by apply (Hone v)|]. apply (Hone z d Hu'). right. auto. }
    intros d Hdb Ha. destruct (Hpath d h Ha ltac:(auto)) as [?|Hcd]; [auto|]. apply Hcd; auto. }
  apply elements_cons in Es. assert (anc p z h) as Hz by auto. assert (z ∈ dom (mapTx p)) as Hzd by (by apply (anc_in _ _ _ Hu) in Hz as [? _]). assert (z ∉ V) as HzV by (intros ?; by apply (Hd z)). rewrite get_children by done. cbn [mbind option_bind].
  destruct (stage_child cache (elements (chi p z)) (stage ∖ {[z]}) ({[z]} ∪ X)) as [stage1 X1] eqn:E1. destruct (stage_child_spec B p cache _ Hca _ _ _ _ E1) as (H1 & H2 & H3 & H4 & H5).
  assert (∀ c, c ∈ elements (chi p z) → anc p c h) as Hch. { intros c Hcz%elem_of_elements. apply (lk_conv _ Hl) in Hcz. eapply anc_trans; [by apply anc_parent|done]. }
  assert (∀ y, y ∈ X1 → anc p y h ∧ (y ∈ {[z]} ∪ V ∨ covered B p X1 y)) as HX1.
  { intros y [[->%elem_of_singleton|Hy]%elem_of_union|[? (c & Hcz & Hyc)]]%H4.
    - split; [done|]. left. set_solver +.
    - destruct (HX y Hy) as [? [?|?]]; (split; [done|]); [left; set_solver|right]. eapply covered_mono; [|done]. set_solver +H1.
    - split; [|by right]. eapply anc_trans; [done|by apply Hch]. }
  apply (IH stage1 X1 ({[z]} ∪ V)).
  - pose proof (size_rest p V z Hzd HzV). lia.
  - set_solver +HV H1.
  - intros y [Hy|[_ Hy]]%H3; [specialize (Hd y); set_solver +Hy Hd|set_solver +Hy HV].
  - intros y [Hy|[Hy _]]%H3; [apply Hs; set_solver +Hy|auto].
  - done.
  - assert (∀ c, c ∈ stage ∨ c ∈ V ∨ covered B p X c → c ∈ stage1 ∨ c ∈ {[z]} ∪ V ∨ covered B p X1 c) as Hold.
    { intros c [Hcs|[?|?]]; [|right; left; set_solver|right; right; eapply covered_mono; [|done]; set_solver +H1]. destruct (decide (c = z)) as [->|Hcz]; [right; left; set_solver +|left; apply H2; set_solver +Hcs Hcz]. }
    intros v c [->|[->%elem_of_singleton|Hv]%elem_of_union] Hcv; [apply Hold, (Hc h); auto| |apply Hold, (Hc v); auto]. destruct (H5 c ltac:(by apply elem_of_elements)) as [?|[Hc1|?]]; [auto| |auto]. destruct (HX1 c Hc1) as [_ ?]. auto.
Qed.

(** ** Updating the descendants *)
Lemma anc_add p e X r : r ∉ X → anc_exact bytes p e X → anc_exact bytes p (UpdateAncestorState e (i64 (tx_size bytes p r)) (mod_fee p r) 1 (sig_ops p r)) ({[r]} ∪ X).
Proof.
  intros Hr HX. replace 1 with (Z.of_nat (size ({[r]} : setEntries))) by (by rewrite size_singleton). rewrite union_comm_L. apply anc_add_set; [set_solver +Hr|rewrite sum_singleton..|done]; [apply i64_small, i64_range|done..].
Qed.
Lemma desc_add_set p e Y A ss sf sc : Y ## A → i64 ss = i64 (sum (tx_size bytes p) A) → i64 sf = i64 (sum (mod_fee p) A) → i64 sc = i64 (Z.of_nat (size A)) → desc_exact bytes p e Y → desc_exact bytes p (UpdateDescendantState e ss sf sc) (Y ∪ A).
Proof.
  intros Hd Hs Hf Hc (Ec & Es & Ef). unfold desc_exact. cbn [nCountWithDescendants nSizeWithDescendants nModFeesWithDescendants UpdateDescendantState]. rewrite !sum_union, size_union by done. rewrite Ec, Es, Ef. split_and!.
  - rewrite u64_add_u64, <- u64_add_i64, Hc, u64_add_i64. f_equal. lia.
  - rewrite u64_add_u64, <- u64_add_i64, Hs, u64_add_i64. done.
  - rewrite i64_add_l, <- i64_add_r, Hf, i64_add_r. done.
Qed.
(** The entries of [l] outside the block: each counts [h], and the sums are theirs. *)
Lemma update_loop_spec B h l : NoDup l → ∀ p (a b c : Z) D Ra Rd, h ∈ dom (mapTx p) → (∀ x, x ∈ l → x ∈ dom (mapTx p) ∧ x ≠ h) → stats p Ra Rd → (∀ x, x ∈ l → x ∉ B → ¬ Ra x h) → ∃ m ss sf sc, let X := list_to_set (filter (λ x, x ∉ B) l) : setEntries in
  update_loop bytes p h B l (a, b, c) D = Some (set_mapTx p m, (ss, sf, sc), X ∪ D) ∧ core <$> m = core <$> mapTx p ∧
  i64 ss = i64 (a + sum (tx_size bytes p) X) ∧ i64 sf = i64 (b + sum (mod_fee p) X) ∧ i64 sc = i64 (c + Z.of_nat (size X)) ∧ stats (set_mapTx p m) (λ x y, Ra x y ∨ y = h ∧ x ∈ X) Rd.
Proof.
  induction 1 as [|z l Hz Hnd IH]; intros p a b c D Ra Rd Hh Hl Hs Hn; cbn [update_loop].
  { exists (mapTx p), a, b, c. cbn zeta. cbn. rewrite sum_empty, size_empty, !Z.add_0_r, union_empty_l_L. split_and!; try done; [by destruct p|]. eapply (stats_mapTx bytes p); [done|]. eapply stats_ext; [| |exact Hs]; [|done]. intros x y _. set_solver +. }
  destruct (decide (z ∈ B)) as [Hb|Hb].
  { destruct (IH p a b c D Ra Rd Hh ltac:(intros; apply Hl; by right) Hs ltac:(intros x ? ?; apply Hn; [by right|done])) as (m & ss & sf & sc & E & ?). exists m, ss, sf, sc. rewrite filter_cons_False by (by intros ?). done. }
  destruct (Hl z ltac:(by left)) as [[e Ez]%dom_lookup Hzh]. rewrite Ez. cbn [mbind option_bind]. apply dom_lookup in Hh as [u Eu]. rewrite Eu. cbn [mbind option_bind]. rewrite (modify_some _ _ _ _ Ez). cbn [mbind option_bind]. destruct (weights bytes p h u Eu) as (-> & -> & ->). destruct (weights bytes p z e Ez) as (-> & -> & _).
  set (f := λ v : CTxMemPoolEntry, UpdateAncestorState v (i64 (tx_size bytes p h)) (mod_fee p h) 1 (sig_ops p h)). assert (∀ x, <[z := f e]> (mapTx p) !! x = if decide (x ∈ ({[z]} : setEntries)) then f <$> mapTx p !! x else mapTx p !! x) as Hm0.
  { intros x. destruct (decide (x ∈ {[z]})) as [->%elem_of_singleton|Hx]; [by rewrite lookup_insert_eq, Ez|]. rewrite lookup_insert_ne; [done|]. intros <-. by apply Hx, elem_of_singleton. }
  pose proof (restated_core_on p _ {[z]} f (λ e, core_anc e _ _ _ _) Hm0) as Hcore. set (p1 := set_mapTx p (<[z := f e]> (mapTx p))) in *.
  assert (stats p1 (λ x y, Ra x y ∨ y = h ∧ x = z) Rd) as S1.
  { eapply (stats_restat bytes p _ {[z]} f Ra Rd); [done|exact Hm0| | |exact Hs].
    - intros x ex X Y ->%elem_of_singleton Ex HX HY EX EY. exists ({[h]} ∪ X), Y. split_and!; [|done|apply anc_add; [rewrite HX; apply Hn; [by left|done]|done]|done]. intros y. rewrite elem_of_union, elem_of_singleton, HX. clear. naive_solver.
    - intros x Hx. rewrite elem_of_singleton in Hx. clear -Hx. naive_solver. }
  assert (dom (mapTx p1) = dom (mapTx p)) as D1 by (by apply frozen_dom). destruct (IH p1 (i64 (a + tx_size bytes p z)) (i64 (b + mod_fee p z)) (i64 (c + 1)) ({[z]} ∪ D) (λ x y, Ra x y ∨ y = h ∧ x = z) Rd) as (m & ss & sf & sc & E & Ec & E1 & E2 & E3 & S'); [rewrite D1; apply dom_lookup; eauto| |exact S1| |].
  { intros x Hx. rewrite D1. apply Hl. by right. } { intros x Hx Hxb [?|[_ ->]]; [|done]. by apply (Hn x); [right|..]. }
  exists m, ss, sf, sc. rewrite filter_cons_True by done. cbn zeta in *. rewrite list_to_set_cons. set (X := list_to_set (filter (λ x, x ∉ B) l) : setEntries) in *.
  assert (z ∉ X) as HzX by (unfold X; rewrite elem_of_list_to_set, list_elem_of_filter; tauto). rewrite !sum_add, size_union, size_singleton by set_solver +HzX.
  split_and!; [etransitivity; [exact E|]; do 2 f_equal; set_solver +|by rewrite Ec| | | |].
  - rewrite E1, i64_add_l. f_equal. rewrite (sum_ext (tx_size bytes p1) (tx_size bytes p)) by (intros; by apply frozen_size). lia.
  - rewrite E2, i64_add_l. f_equal. rewrite (sum_ext (mod_fee p1) (mod_fee p)) by (intros; by apply frozen_fee). lia.
  - rewrite E3, i64_add_l. f_equal. lia.
  - eapply stats_ext; [| |exact S']; [|done]. intros x y _. cbn beta. rewrite elem_of_union, elem_of_singleton. clear. tauto.
Qed.
Lemma UpdateForDescendants_spec B p h cache Ra Rd : linked p → cached B p cache → h ∈ dom (mapTx p) → h ∈ B → cache !! h = None → stats p Ra Rd → (∀ d, d ∉ B → anc p d h → ¬ Ra d h ∧ ¬ Rd d h) →
  ∃ p' cache', UpdateForDescendants bytes p h cache B = Some (p', cache') ∧ step p p' ∧ mapLinks p' = mapLinks p ∧ cached B p' cache' ∧ (∀ y, y ≠ h → cache' !! y = cache !! y) ∧
    stats p' (λ x a, Ra x a ∨ a = h ∧ x ∉ B ∧ anc p x h) (λ d a, Rd d a ∨ a = h ∧ d ∉ B ∧ anc p d h).
Proof.
  intros Hl Hca Hh Hb Hn Hs Hf. pose proof (linked_upward _ Hl) as Hu. unfold UpdateForDescendants. rewrite get_children by done. cbn [mbind option_bind].
  destruct (collect_loop_spec B p cache h Hl Hca (S (size (mapTx p))) (chi p h) ∅ ∅) as (S & ES & HS1 & HS2); [rewrite difference_empty_L, size_dom; lia|done|set_solver +|intros z Hz; by apply anc_parent, (lk_conv _ Hl)|set_solver +|intros v c [->|Hv] Hc; [by left|by apply not_elem_of_empty in Hv]|].
  rewrite ES. cbn [mbind option_bind]. destruct (update_loop_spec B h (elements S) (NoDup_elements _) p 0 0 0 ∅ Ra Rd Hh) as (m & ss & sf & sc & E & Ec & E1 & E2 & E3 & S1).
  { intros x Hx%elem_of_elements%HS1. split; [by apply (anc_in _ _ _ Hu) in Hx as [? _]|]. intros ->. by apply (lk_acyclic _ Hl) in Hx. } { done. } { intros x Hx%elem_of_elements%HS1 Hxb. by apply Hf. }
  cbn zeta in *. set (X := list_to_set (filter (λ x, x ∉ B) (elements S)) : setEntries) in *. assert (∀ x, x ∈ X ↔ x ∉ B ∧ anc p x h) as HX.
  { intros x. unfold X. rewrite elem_of_list_to_set, list_elem_of_filter, elem_of_elements. split; [intros [? ?]; auto|]. intros [? ?]. auto. }
  rewrite E. cbn [mbind option_bind]. rewrite union_empty_r_L in *. set (p1 := set_mapTx p m) in *. assert (step p p1) as St1 by (by apply step_restat). assert (h ∈ dom (mapTx p1)) as [e1 Eh1]%dom_lookup by (by rewrite (step_dom _ _ _ St1)). rewrite (modify_some _ _ _ _ Eh1). cbn [mbind option_bind].
  set (f := λ e, UpdateDescendantState e ss sf sc). assert (∀ x, <[h := f e1]> (mapTx p1) !! x = if decide (x ∈ ({[h]} : setEntries)) then f <$> mapTx p1 !! x else mapTx p1 !! x) as Hm2.
  { intros x. destruct (decide (x ∈ {[h]})) as [->%elem_of_singleton|Hx]; [by rewrite lookup_insert_eq, Eh1|]. rewrite lookup_insert_ne; [done|]. intros <-. by apply Hx, elem_of_singleton. }
  pose proof (restated_core_on p1 _ {[h]} f (λ e, core_desc e _ _ _) Hm2) as Hcore2. eexists _, _. split; [reflexivity|]. split; [eapply step_trans; [exact St1|by apply step_restat]|]. split; [done|]. split_and!.
  - intros y D Ey. change (anc (set_mapTx p1 _)) with (anc p). destruct (decide (X = ∅)) as [_|_]; [by apply Hca|]. rewrite Hn in Ey. cbn in Ey. rewrite union_empty_l_L in Ey. destruct (decide (y = h)) as [->|Hy]; [|rewrite lookup_insert_ne in Ey by done; by apply Hca]. rewrite lookup_insert_eq in Ey. injection Ey as <-. done.
  - intros y Hy. destruct (decide (X = ∅)); [done|]. by rewrite lookup_insert_ne.
  - eapply (stats_restat bytes p1 _ {[h]} f (λ x a, Ra x a ∨ a = h ∧ x ∉ B ∧ anc p x h) Rd); [done|exact Hm2| | |eapply stats_ext; [| |exact S1]; [|done]; intros x a _; cbn beta; by rewrite HX].
    + intros x ex XA YD ->%elem_of_singleton Ex HXA HYD EX EY. exists XA, (YD ∪ X). split_and!; [done| |done|].
      * intros d. rewrite elem_of_union, HYD, HX. clear. naive_solver.
      * apply desc_add_set; [|rewrite E1|rewrite E2|rewrite E3|done]; [intros d Hd1%HYD [? ?]%HX; by apply (Hf d)|rewrite Z.add_0_l; f_equal; symmetry; apply sum_ext; intros; by apply frozen_size|rewrite Z.add_0_l; f_equal; symmetry; apply sum_ext; intros; by apply frozen_fee|done].
    + intros x Hx. rewrite elem_of_singleton in Hx. split; [done|]. clear -Hx. naive_solver.
Qed.

(** ** The loop *)
(** The state between two transactions of the block; [B1] are those that are still to come. *)
Record midway (B B1 : setEntries) (cache : gmap txid setEntries) (p : CTxMemPool) : Prop := {
  mw_linked : linked p;
  mw_spends : ∀ x e, mapTx p !! x = Some e → ∀ y, y ∈ par p x ↔ is_private e = false ∧ y ∈ inputs (tx e) ∧ y ∈ dom (mapTx p) ∧ (x ∈ B ∨ y ∉ B1);
  mw_stats : stats p (λ x a, lineage p x a ∧ ¬ (x ∉ B ∧ a ∈ B1)) (λ x a, lineage p x a ∧ ¬ (x ∉ B ∧ a ∈ B1));
  mw_index : indexed bytes p;
  mw_usage : counted_usage usage p;
  mw_up : ∀ x y, x ∈ B → y ∈ par p x → y ∈ B;
  mw_cached : cached B p cache;
  mw_new : ∀ y, y ∈ B1 → cache !! y = None }.
(** The parents of every transaction come after it in the list, which starts with the last transaction of the block. *)
Fixpoint ordered (p : CTxMemPool) (l : list txid) : Prop :=
  match l with
  | [] => True
  | h :: l => par p h ⊆ list_to_set l ∧ h ∉ l ∧ ordered p l
  end.
Lemma ordered_anc p l : ordered p l → ∀ x a, x ∈ l → anc p x a → a ∈ l.
Proof.
  induction l as [|h l IH]; intros Ho x a Hx Ha; [by apply elem_of_nil in Hx|]. destruct Ho as (Hp & _ & Ho). apply elem_of_cons in Hx as [->|Hx]; [|right; by eapply IH]. right. destruct (anc_first _ _ _ Ha) as (z & Hz & Hza). apply Hp, elem_of_list_to_set in Hz. destruct Hza as [->|Hza]; [done|by eapply IH].
Qed.
Lemma ordered_head p h l a : ordered p (h :: l) → anc p h a → a ∈ l.
Proof. intros (Hp & _ & Ho) Ha. destruct (anc_first _ _ _ Ha) as (z & Hz & Hza). apply Hp, elem_of_list_to_set in Hz. destruct Hza as [->|Hza]; [done|by eapply ordered_anc]. Qed.
Lemma ordered_same p q l : (∀ x, x ∈ l → par q x = par p x) → ordered p l → ordered q l.
Proof. induction l as [|h l IH]; intros Hp; cbn; [done|]. intros (H1 & H2 & H3). split_and!; [rewrite Hp by (by left); done|done|]. apply IH; [|done]. intros x Hx. apply Hp. by right. Qed.
(** New paths lead to the transaction whose children were linked, or to its ancestors. *)
Lemma anc_new B p q h x a : (∀ x y, x ∈ B → y ∈ par p x → y ∈ B) → h ∈ B → (∀ x y, y ∈ par q x → y ∈ par p x ∨ y = h ∧ x ∉ B) → anc q x a → anc p x a ∨ x ∉ B ∧ (a = h ∨ anc p h a).
Proof.
  intros Hup Hh Hp Ha. induction Ha as [x a Hu|x z a Hu _ IH]; unfold up in Hu; apply Hp in Hu as [Hu|[-> Hx]].
  - left. by apply anc_parent.
  - auto.
  - destruct IH as [Ha|[Hz ?]]; [left; eapply anc_trans; [by apply anc_parent|done]|]. right. split; [|done]. intros Hx. by eapply Hz, Hup.
  - destruct IH as [Ha|[Hz _]]; [auto|done].
Qed.
Lemma midway_skip B l cache p h : midway B ({[h]} ∪ l) cache p → h ∉ dom (mapTx p) → midway B l cache p.
Proof.
  intros [Hl Hsp Hs Hi Hus Hup Hca Hn] Hh. pose proof (linked_upward _ Hl) as Hu. assert (∀ x a, x ∈ dom (mapTx p) ∨ a ∈ dom (mapTx p) → lineage p x a → a ≠ h) as Hne by (intros x a Hd Hla ->; by apply lineage_dom in Hla as [_ ?]).
  constructor; try done.
  - intros x e Ex y. rewrite (Hsp x e Ex y), elem_of_union, elem_of_singleton. split; [tauto|]. intros (? & ? & Hy & Hb). split_and!; [done..|]. destruct Hb as [|Hb]; [by left|right]. intros [->|?]; done.
  - eapply stats_ext; [| |exact Hs]; intros x a Hx; cbn beta; rewrite elem_of_union, elem_of_singleton; (split; [tauto|]); intros [Hla Hnb]; (split; [done|]); intros [Hxb [->|?]]; [|tauto| |tauto]; (eapply Hne; [|exact Hla|done]); auto.
  - intros y Hy. apply Hn. set_solver +Hy.
Qed.
(** What the links are after the children of [h] have been linked. *)
Lemma linked_children B l cache p h : midway B ({[h]} ∪ list_to_set l) cache p → h ∈ dom (mapTx p) → h ∈ B → ordered p (h :: l) → ∃ q, link_children usage p h B (children_of p h) ∅ = Some q ∧ step p q ∧ mapTx q = mapTx p ∧ linked q ∧
  (∀ x y, y ∈ par q x ↔ y ∈ par p x ∨ y = h ∧ x ∉ B ∧ ∃ e, mapTx p !! x = Some e ∧ is_private e = false ∧ h ∈ inputs (tx e)) ∧ (∀ x a, x ∈ B ∨ a ∉ {[h]} ∪ (list_to_set l : setEntries) → anc q x a ↔ anc p x a).
Proof.
  intros [Hl Hsp Hs Hi Hus Hup Hca Hn] Hh Hb Ho. destruct (link_children_spec h B (children_of p h) p ∅ (lk_dom _ Hl) Hh) as (q & E & St & M & P & C). { intros c (e & Ee & _)%(children_of_spec p h c Hi). apply dom_lookup. eauto. }
  assert (∀ x y, y ∈ par q x → y ∈ par p x ∨ y = h ∧ x ∉ B) as P'. { intros x y [?|(? & _ & ? & _)]%P; auto. }
  assert (∀ x a, anc p x a → anc q x a) as Hmono by (induction 1 as [x a Hu|x z a Hu _ IH]; [|eapply anc_trans; [|exact IH]]; apply anc_parent, P; by left).
  assert (∀ x a, anc q x a → anc p x a ∨ x ∉ B ∧ a ∈ {[h]} ∪ (list_to_set l : setEntries)) as Hnew.
  { intros x a [?|[Hx [->|Ha]]]%(anc_new B p q h x a Hup Hb P'); [by left|right; set_solver +Hx|]. right. split; [done|]. apply (ordered_head _ _ _ _ Ho) in Ha. apply elem_of_union. right. by apply elem_of_list_to_set. }
  exists q. split_and!; [done..| | |].
  - constructor.
    + destruct St as (_ & -> & _). rewrite M. apply (lk_dom _ Hl).
    + intros x y. rewrite P, C, (lk_conv _ Hl). tauto.
    + intros x y [Hy|(-> & Hx & _)]%P; rewrite M; [by apply (lk_in _ Hl)|]. split; [|done]. apply (children_of_spec p h x Hi) in Hx as (e & Ee & _). apply dom_lookup. eauto.
    + intros x Hx. apply (anc_new B p q h x x Hup Hb P') in Hx as [Hx|[Hx [->|Ha]]]; [by apply (lk_acyclic _ Hl) in Hx|done|]. apply Hx. clear -Ha Hup Hb. induction Ha as [x a Hu|x z a Hu _ IH]; [by eapply Hup|]. apply IH. by eapply Hup.
  - intros x y. rewrite P, children_of_spec by done. set_solver +.
  - intros x a Hxa. split; [|apply Hmono]. intros [?|[? ?]]%Hnew; [done|]. tauto.
Qed.
Lemma midway_step B l cache p h : midway B ({[h]} ∪ list_to_set l) cache p → h ∈ dom (mapTx p) → h ∈ B → ordered p (h :: l) → ∃ q p' cache', link_children usage p h B (children_of p h) ∅ = Some q ∧ UpdateForDescendants bytes q h cache B = Some (p', cache') ∧
  midway B (list_to_set l) cache' p' ∧ step p p' ∧ ∀ x, x ∈ B → par p' x = par p x.
Proof.
  intros Hm Hh Hb Ho. destruct (linked_children B l cache p h Hm Hh Hb Ho) as (q & E & St & M & Lq & Pq & Aq). destruct Hm as [Hl Hsp Hs Hi Hus Hup Hca Hn]. set (B1 := list_to_set l : setEntries) in *.
  assert (h ∈ {[h]} ∪ B1) as Hh1 by set_solver +. assert (h ∉ B1) as Hh2 by (destruct Ho as (_ & ? & _); unfold B1; by rewrite elem_of_list_to_set).
  pose proof (stats_mapTx bytes p q _ _ M Hs) as Hsq. set (cnt := λ x a, lineage p x a ∧ ¬ (x ∉ B ∧ a ∈ {[h]} ∪ B1)) in *. destruct (UpdateForDescendants_spec B q h cache cnt cnt Lq) as (p' & cache' & E' & St' & Lk & Ca' & Cn & S'); [|by rewrite M|done|by apply Hn|exact Hsq| |].
  { intros y D Ey. destruct (Hca y D Ey) as [Hy HD]. split; [done|]. intros d. rewrite HD, Aq; [done|]. right. intros Hy1. rewrite (Hn y Hy1) in Ey. done. }
  { intros d Hd Ha. unfold cnt. clear -Hd Hh1. tauto. }
  pose proof (step_trans _ _ _ _ St St') as Stt. assert (∀ x y, y ∈ par p' x ↔ y ∈ par q x) as Pp by (intros x y; by rewrite (links_par q p')). exists q, p', cache'. split_and!; [done..| |done|].
  2: { intros x Hx. apply set_eq. intros y. rewrite Pp, Pq. tauto. }
  constructor.
  - by apply (step_linked usage q).
  - intros x e' Ex y. rewrite Pp, Pq. destruct Stt as (Fr & _). apply frozen_core in Fr. rewrite (frozen_dom _ _ Fr). destruct (frozen_entry _ _ _ _ Fr Ex) as (e & Ee & Ec). rewrite (core_private _ _ Ec). apply core_fields in Ec as (-> & _).
    rewrite (Hsp x e Ee y), elem_of_union, elem_of_singleton. split.
    + intros [(? & ? & ? & [?|Hy])|(-> & ? & e0 & E0 & ? & ?)]; [tauto|tauto|]. rewrite Ee in E0. injection E0 as <-. tauto.
    + intros (? & ? & ? & [?|Hy]); [tauto|]. destruct (decide (x ∈ B)); [tauto|]. destruct (decide (y = h)) as [->|]; [right; eauto 10|tauto].
  - assert (∀ x a, x ∈ B ∨ a ∉ {[h]} ∪ B1 → lineage p' x a ↔ lineage p x a) as Al. { intros x a Hxa. unfold lineage. rewrite <- (Aq x a Hxa), (anc_par q p') by (intros; by apply links_par). done. }
    assert (∀ x a, (lineage p x a ∧ ¬ (x ∉ B ∧ a ∈ {[h]} ∪ B1)) ∨ (a = h ∧ x ∉ B ∧ anc q x h) ↔ lineage p' x a ∧ ¬ (x ∉ B ∧ a ∈ B1)) as Heq.
    { intros x a. destruct (decide (x ∈ B)) as [Hx|Hx]; [rewrite Al by (by left); tauto|]. destruct (decide (a = h)) as [->|Hah].
      - unfold lineage. rewrite (anc_par q p') by (intros; by apply links_par). assert (h ≠ x) by (by intros ->). tauto.
      - destruct (decide (a ∈ {[h]} ∪ B1)) as [Ha|Ha]; [|rewrite (Al x a) by (by right); set_solver +Ha Hah]. assert (a ∈ B1) as Ha' by set_solver +Ha Hah. tauto. }
    eapply stats_ext; [| |exact S']; intros x a _; cbn beta; apply Heq.
  - by apply (indexed_step bytes usage p).
  - destruct Stt as (_ & _ & U). auto.
  - intros x y Hx. rewrite Pp, Pq. intros [Hy|[_ [? _]]]; [by apply (Hup x)|done].
  - done.
  - intros y Hy. rewrite Cn by (by intros ->). apply Hn. set_solver +Hy.
Qed.
Lemma update_from_block_spec B l : ∀ cache p, midway B (list_to_set l) cache p → (∀ x, x ∈ l → x ∈ B) → ordered p l → ∃ p' cache', update_from_block bytes usage p cache B l = Some p' ∧ midway B ∅ cache' p' ∧ frozen p' = frozen p.
Proof.
  induction l as [|h l IH]; intros cache p Hm Hl Ho; cbn [update_from_block]; [by exists p, cache|]. rewrite list_to_set_cons in Hm. destruct (mapTx p !! h) as [e|] eqn:Eh.
  - assert (h ∈ dom (mapTx p)) as Hh by (apply dom_lookup; eauto). destruct (midway_step B l cache p h Hm Hh ltac:(apply Hl; by left) Ho) as (q & p1 & cache1 & E1 & E2 & Hm1 & St & Hp). rewrite E1. cbn [mbind option_bind]. rewrite E2. cbn [mbind option_bind].
    destruct (IH cache1 p1 Hm1 ltac:(intros; apply Hl; by right)) as (p' & cache' & E & Hm' & Fr). { destruct Ho as (_ & _ & Ho). eapply ordered_same; [|exact Ho]. intros x Hx. apply Hp, Hl. by right. }
    exists p', cache'. split_and!; [done..|]. rewrite Fr. by destruct St.
  - destruct (IH cache p) as (p' & cache' & E & Hm' & Fr); [|intros; apply Hl; by right|by destruct Ho as (_ & _ & Ho)|by exists p', cache']. apply (midway_skip _ _ _ _ h); [done|]. by apply not_elem_of_dom.
Qed.
(** The whole operation. *)
Lemma UpdateTransactionsFromBlock_spec p vHashes : let B := list_to_set vHashes : setEntries in consistent bytes usage B p → (∀ x y, x ∈ B → y ∈ par p x → y ∈ B) → ordered p (reverse vHashes) →
  ∃ p', UpdateTransactionsFromBlock bytes usage p vHashes = Some p' ∧ consistent bytes usage ∅ p' ∧ frozen p' = frozen p.
Proof.
  intros B [Hl Hsp Hs Hi Hus] Hup Ho. unfold UpdateTransactionsFromBlock. fold B. pose proof (linked_upward _ Hl) as Hu. assert (list_to_set (reverse vHashes) = B) as EB by (apply set_eq; intros x; unfold B; rewrite !elem_of_list_to_set; apply elem_of_reverse).
  assert (∀ x a, x ∉ B → a ∈ B → ¬ anc p x a) as Hout.
  { intros x a Hx Ha Hxa. induction Hxa as [x a Hu'|x z a Hu' _ IH]; unfold up in Hu'; (destruct (lk_in _ Hl _ _ Hu') as [Hxd _]); apply dom_lookup in Hxd as [e Ee]; destruct (proj1 (Hsp x e Ee _) Hu') as (Q1 & Q2 & Q3 & [Q4|Hz]); try done. by apply IH. }
  destruct (update_from_block_spec B (reverse vHashes) ∅ p) as (p' & cache' & E & [Hl' Hsp' Hs' Hi' Hus' _ _ _] & Fr); [|intros x Hx; rewrite <- EB; by apply elem_of_list_to_set|done|].
  { rewrite EB. constructor; try done. eapply stats_ext; [| |exact Hs]; intros x a _; cbn beta; (split; [|tauto]); intros Hla; (split; [done|]); intros [H1 H2]; (destruct Hla as [->|?]; [done|by eapply Hout]). }
  exists p'. split_and!; [done| |done]. constructor; try done; [intros x e Ex y; rewrite (Hsp' x e Ex y); set_solver +|]. eapply stats_ext; [| |exact Hs']; intros x a _; cbn beta; set_solver +.
Qed.
End reorg.
End MemPoolReorg.
