(* ===== verification/MemPoolMachine.v ===== *)
(** * MemPoolMachine: the memory pool as a machine

    The calls that [main.cpp] makes on its pool, in any order: a transaction is accepted within the limits, a block is connected or
    disconnected, transactions are removed, expire, are pushed out or get another priority.  A disconnected block gives its transactions back one by
    one, and until [UpdateTransactionsFromBlock] the pool does not link them to the children it had; the hashes that came back are part of the state. *)
From S2P Require Import Prelude Serialize Uint256 Script Transaction Interpreter Stake MemPool MemPoolGraph MemPoolIndex MemPoolStats MemPoolRemove MemPoolAdd MemPoolOps MemPoolReorg.
Open Scope Z_scope.
Open Scope list_scope.

Module MemPoolMachine.
Import Transaction Stake MemPool MemPoolGraph MemPoolIndex MemPoolStats MemPoolRemove MemPoolAdd MemPoolOps MemPoolReorg.

Section machine.
Context (bytes usage : Z).
Notation consistent := (consistent bytes usage).
Implicit Types p : CTxMemPool.
Implicit Types e : CTxMemPoolEntry.
Implicit Types x y h : txid.
Implicit Types l B : list txid.

(** ** The calls *)
Inductive pool_op :=
| accept_tx (e : CTxMemPoolEntry) (lim : limits)
| return_tx (e : CTxMemPoolEntry) (lim : limits)
| end_disconnect
| remove_tx (h : txid) (t : CMutableTransaction)
| connect_block (vtx : list (txid * CMutableTransaction))
| expire (time : Z)
| trim (memory : CTxMemPool → Z) (worst : CTxMemPool → option txid) (sizelimit : Z)
| prioritise (h : txid) (nFeeDelta : Z).
(** The hashes that came back from the block that is being disconnected, in their order, and the pool. *)
Notation pool_state := (list txid * CTxMemPool)%type.
Definition pool_init : pool_state := ([], mkPool ∅ ∅ ∅ ∅ [] 0 0 0).
(** [CalculateMemPoolAncestors] and, within the limits, [addUnchecked], as in [AcceptToMemoryPoolWorker]. *)
Definition add_within (p : CTxMemPool) (e : CTxMemPoolEntry) (lim : limits) : option (CTxMemPool * bool) :=
  '(setAncestors, err) ← CalculateMemPoolAncestors bytes p e lim true;
  match err with
  | Some _ => Some (p, false)
  | None => p ← addUnchecked bytes usage p (hash e) e setAncestors; Some (p, true)
  end.
Definition run_op (s : pool_state) (op : pool_op) : option pool_state :=
  let '(B, p) := s in
  match op with
  | accept_tx e lim => '(p, _) ← add_within p e lim; Some (B, p)
  | return_tx e lim => '(p, ok) ← add_within p e lim; Some (if ok : bool then B ++ [hash e] else B, p)
  | end_disconnect => p ← UpdateTransactionsFromBlock bytes usage p B; Some ([], p)
  | remove_tx h t => '(p, _) ← removeRecursive bytes usage p h t; Some (B, p)
  | connect_block vtx => p ← removeForBlock bytes usage p vtx; Some (B, p)
  | expire time => '(p, _) ← Expire bytes usage p time; Some (B, p)
  | trim memory worst sizelimit => p ← TrimToSize bytes usage memory worst p sizelimit; Some (B, p)
  | prioritise h n => p ← PrioritiseTransaction bytes p h n; Some (B, p)
  end.
(** A transaction that comes back from a block: it is new, spends nothing that an entry spends, none of those that came back before it spends its outputs, and it
    spends outputs of no other entry of the pool. *)
Record returns (B : list txid) (p : CTxMemPool) (e : CTxMemPoolEntry) : Prop := {
  rt_fresh : fresh bytes e;
  rt_new : hash e ∉ dom (mapTx p) ∧ hash e ∉ B;
  rt_self : hash e ∉ inputs (tx e);
  rt_conflict : is_private e = false → ∀ i, i ∈ vin (tx e) → mapNextTx p !! prevout i = None;
  rt_later : ∀ x ex, x ∈ B → mapTx p !! x = Some ex → hash e ∉ inputs (tx ex);
  rt_earlier : inputs (tx e) ∩ dom (mapTx p) ⊆ list_to_set B }.
(** What the callers make sure of.  A new transaction arrives between blocks, is new, conflicts with no entry and has no children in the pool; a block has the parents of its transactions
    first, and no transaction twice; the entry with the lowest score exists; and the entry that gets another priority has no children in the pool. *)
Definition op_ok (s : pool_state) (op : pool_op) : Prop :=
  match op with
  | accept_tx e _ => s.1 = [] ∧ admissible bytes ∅ s.2 e
  | return_tx e _ => returns s.1 s.2 e
  | connect_block vtx => confirms s.2 vtx
  | trim _ worst _ => ∀ p, mapTx p ≠ ∅ → ∃ x, worst p = Some x ∧ x ∈ dom (mapTx p)
  | prioritise h _ => chi s.2 h = ∅
  | _ => True
  end.
Inductive pool_reachable : pool_state → Prop :=
| reach_empty : pool_reachable pool_init
| reach_op s op s' : pool_reachable s → op_ok s op → run_op s op = Some s' → pool_reachable s'.

(** ** The invariant *)
Record pool_inv (B : list txid) (p : CTxMemPool) : Prop := {
  pi_consistent : consistent (list_to_set B) p;
  pi_nodup : NoDup B;
  pi_order : ∀ l1 x l2 e, B = l1 ++ x :: l2 → mapTx p !! x = Some e → inputs (tx e) ∩ dom (mapTx p) ⊆ list_to_set l1 }.
Lemma pool_init_inv : pool_inv [] (mkPool ∅ ∅ ∅ ∅ [] 0 0 0).
Proof.
  constructor; [|constructor|by intros [|? ?] x l2 e]. assert (∀ x, par (mkPool ∅ ∅ ∅ ∅ [] 0 0 0) x = ∅ ∧ chi (mkPool ∅ ∅ ∅ ∅ [] 0 0 0) x = ∅) as Hpc by (intros x; unfold par, chi; cbn; by rewrite lookup_empty).
  constructor; [constructor|..].
  - done.
  - intros x y. destruct (Hpc x) as [-> _], (Hpc y) as [_ ->]. set_solver +.
  - intros x y. destruct (Hpc x) as [-> _]. set_solver +.
  - intros x (z & Hz & _)%anc_first. destruct (Hpc x) as [E _]. rewrite E in Hz. set_solver +Hz.
  - intros x e [=].
  - intros x e [=].
  - constructor; [by intros x e [=]| | |by intros x e [=]|done]; intros; cbn; rewrite ?lookup_empty, ?lookup_nil; (split; [done|]); intros (? & [=] & _).
  - done.
Qed.
Lemma inv_shrink B p p' : pool_inv B p → consistent (list_to_set B) p' → (∀ x e', mapTx p' !! x = Some e' → ∃ e, mapTx p !! x = Some e ∧ tx e' = tx e) → pool_inv B p'.
Proof.
  intros [_ Hn Ho] Hc Htx. constructor; [done|done|]. intros l1 x l2 e' EB Ee'. destruct (Htx x e' Ee') as (e & Ee & ->). intros y [Hy Hyd]%elem_of_intersection.
  apply dom_lookup in Hyd as [ey' Ey']. destruct (Htx y ey' Ey') as (ey & Ey & _). apply (Ho l1 x l2 e EB Ee), elem_of_intersection. split; [done|]. apply dom_lookup. eauto.
Qed.
Lemma removed_inv B p p' R : pool_inv B p → removed bytes usage (list_to_set B) p p' R → pool_inv B p'.
Proof.
  intros HI [Hc Hr _]. apply (inv_shrink B p); [done|done|]. intros x e' Ee'. specialize (Hr x). rewrite Ee' in Hr. destruct (decide (x ∈ R)); [done|].
  destruct (mapTx p !! x) as [e|]; [|done]. exists e. split; [done|]. injection Hr as Hr. done.
Qed.
Lemma inv_ordered B p : pool_inv B p → ordered p (reverse B).
Proof.
  intros [[Hl Hsp _ _ _] Hn Ho]. cut (∀ l r, B = l ++ r → ordered p (reverse l)); [intros Hall; apply (Hall B []); by rewrite app_nil_r|].
  intros l. induction l as [|x l IH] using rev_ind; intros r EB; [done|]. rewrite reverse_snoc. rewrite <- app_assoc in EB. cbn [app] in EB. cbn [ordered]. split_and!.
  - intros y Hy. destruct (lk_in _ Hl _ _ Hy) as [Hx _]. apply dom_lookup in Hx as [e Ee]. destruct (proj1 (Hsp x e Ee y) Hy) as (_ & Hyi & Hyd & _).
    assert (y ∈ (list_to_set l : setEntries)) as Hyl by (apply (Ho l x r e EB Ee); by apply elem_of_intersection). apply elem_of_list_to_set in Hyl. apply elem_of_list_to_set. by apply elem_of_reverse.
  - rewrite elem_of_reverse. rewrite EB in Hn. apply list.NoDup_app in Hn as (_ & Hd & _). intros Hx. apply (Hd x Hx). by left.
  - eapply IH. exact EB.
Qed.
Lemma inv_closed B p : pool_inv B p → ∀ x y, x ∈ (list_to_set B : setEntries) → y ∈ par p x → y ∈ (list_to_set B : setEntries).
Proof.
  intros HI x y Hx Hy. apply elem_of_list_to_set in Hx. apply elem_of_list_to_set, elem_of_reverse. eapply (ordered_anc p (reverse B) (inv_ordered B p HI) x); [by apply elem_of_reverse|by apply anc_parent].
Qed.
(** A hash that is not in the pool may be taken as one that came back. *)
Lemma extend_consistent (X : setEntries) p h : consistent X p → h ∉ dom (mapTx p) → consistent ({[h]} ∪ X) p.
Proof.
  intros [Hl Hsp Hs Hi Hu] Hh. constructor; try done. intros x e Ee y. rewrite (Hsp x e Ee y). assert (x ≠ h) as Hx by (intros ->; apply Hh, dom_lookup; eauto).
  split; intros (H1 & H2 & H3 & H4); (split_and!; [done..|]); assert (y ≠ h) as Hy by (by intros ->); set_solver +H4 Hx Hy.
Qed.
Lemma add_within_spec (X : setEntries) p e lim : consistent X p → admissible bytes X p e → ∃ p' ok, add_within p e lim = Some (p', ok) ∧
  if ok then consistent X p' ∧ dom (mapTx p') = {[hash e]} ∪ dom (mapTx p) ∧ (∀ x, x ∈ dom (mapTx p) → core <$> mapTx p' !! x = core <$> mapTx p !! x) ∧ ∃ e', mapTx p' !! hash e = Some e' ∧ tx e' = tx e
  else p' = p.
Proof.
  intros Hc Ha. unfold add_within. destruct (CalculateMemPoolAncestors_spec bytes p e lim true (linked_upward _ (cs_linked _ _ _ _ Hc))) as (S & err & -> & _ & HS); [done|].
  cbn [mbind option_bind]. destruct err as [err|]; [by exists p, false|]. destruct (HS eq_refl) as [HS' _].
  destruct (addUnchecked_spec bytes usage X p e S Hc Ha HS') as (p' & -> & Hc' & Hd & Hcore & (e' & Ee' & Ht & _) & _). cbn [mbind option_bind]. exists p', true. split_and!; [done..|]. by exists e'.
Qed.
Lemma returns_inv B p e lim : pool_inv B p → returns B p e → ∃ s', run_op (B, p) (return_tx e lim) = Some s' ∧ pool_inv s'.1 s'.2.
Proof.
  intros HI [Hf [Hn Hb] Hself Hconf Hlater Hearlier]. cbn [run_op]. pose proof HI as [Hc Hnd Ho]. pose proof (extend_consistent _ p (hash e) Hc Hn) as Hc1.
  destruct (add_within_spec ({[hash e]} ∪ list_to_set B) p e lim Hc1) as (p' & ok & -> & Hok).
  { constructor; try done; [|intros _; left; set_solver +]. intros x ex Ex _ Hx. split; [|set_solver +]. assert (x ≠ hash e) as Hne by (intros ->; apply Hn, dom_lookup; eauto).
    intros [->%elem_of_singleton|Hin]%elem_of_union; [done|]. apply elem_of_list_to_set in Hin. by apply (Hlater x ex Hin Ex). }
  cbn [mbind option_bind]. eexists. split; [done|]. destruct ok; [|by rewrite Hok]. destruct Hok as (Hc' & Hd & Hcore & e' & Ee' & Ht). cbn [fst snd].
  assert (∀ x ex', mapTx p' !! x = Some ex' → x ≠ hash e → ∃ ex, mapTx p !! x = Some ex ∧ tx ex' = tx ex) as Hold.
  { intros x ex' Ex' Hx. assert (x ∈ dom (mapTx p)) as Hxd by (assert (x ∈ dom (mapTx p')) as Hd' by (apply dom_lookup; eauto); rewrite Hd in Hd'; set_solver +Hd' Hx).
    specialize (Hcore x Hxd). rewrite Ex' in Hcore. destruct (mapTx p !! x) as [ex|]; [|done]. exists ex. split; [done|]. injection Hcore as Hcore. done. }
  constructor.
  - assert (({[hash e]} ∪ list_to_set B : setEntries) = list_to_set (B ++ [hash e])) as <- by (rewrite list_to_set_app_L; set_solver +). done.
  - apply list.NoDup_app. split_and!; [done| |apply NoDup_singleton]. intros x Hx ->%list_elem_of_singleton. done.
  - intros l1 x l2 ex' EB Ex'. destruct l2 as [|z l2 _] using rev_ind.
    + apply app_inj_tail in EB as [<- <-]. rewrite Ee' in Ex'. injection Ex' as <-. rewrite Ht, Hd. set_solver +Hearlier Hself.
    + rewrite app_comm_cons, app_assoc in EB. apply app_inj_tail in EB as [EB <-]. assert (x ∈ B) as Hx by (rewrite EB; set_solver +). assert (x ≠ hash e) as Hne by (by intros ->).
      destruct (Hold x ex' Ex' Hne) as (ex & Ex & ->). pose proof (Ho l1 x l2 ex EB Ex) as Hl. pose proof (Hlater x ex Hx Ex) as Hh. rewrite Hd. set_solver +Hl Hh.
Qed.
Lemma run_op_spec B p op : pool_inv B p → op_ok (B, p) op → ∃ s', run_op (B, p) op = Some s' ∧ pool_inv s'.1 s'.2.
Proof.
  intros HI Hok. pose proof HI as [Hc Hn _]. destruct op as [e lim|e lim| |h t|vtx|time|memory worst sizelimit|h n]; cbn [op_ok fst snd] in Hok.
  - destruct Hok as [-> Ha]. cbn [run_op]. destruct (add_within_spec ∅ p e lim Hc Ha) as (p' & ok & -> & Hok). cbn [mbind option_bind]. eexists. split; [done|]. cbn [fst snd].
    destruct ok; [|by rewrite Hok]. constructor; [apply Hok|constructor|by intros [|? ?] x l2 ex].
  - by apply returns_inv.
  - cbn [run_op]. destruct (UpdateTransactionsFromBlock_spec bytes usage p B Hc) as (p' & -> & Hc' & _).
    + by apply inv_closed.
    + by apply inv_ordered.
    + cbn [mbind option_bind]. eexists. split; [done|]. constructor; [done|constructor|by intros [|? ?] x l2 ex].
  - cbn [run_op]. destruct (removeRecursive_spec bytes usage _ p h t Hc) as (p' & R & -> & Hc' & _ & Hr & _ & Ha). cbn [mbind option_bind]. eexists. split; [done|]. apply (removed_inv B p p' R HI). by constructor.
  - cbn [run_op]. destruct (removeForBlock_spec bytes usage _ vtx p Hc Hok) as (p' & R & -> & Hr & _). cbn [mbind option_bind]. eexists. split; [done|]. by apply (removed_inv B p p' R HI).
  - cbn [run_op]. destruct (Expire_spec bytes usage _ p time Hc) as (p' & R & -> & Hr & _). cbn [mbind option_bind]. eexists. split; [done|]. by apply (removed_inv B p p' R HI).
  - cbn [run_op]. unfold TrimToSize. destruct (trim_spec bytes usage _ memory worst sizelimit Hok (size (mapTx p)) p (le_n _) Hc) as (p' & R & -> & Hr & _). cbn [mbind option_bind]. eexists. split; [done|]. by apply (removed_inv B p p' R HI).
  - cbn [run_op]. destruct (PrioritiseTransaction_spec bytes usage _ p h n Hc Hok) as (p' & -> & Hc' & _ & _ & Htx). cbn [mbind option_bind]. eexists. split; [done|]. apply (inv_shrink B p); [done|done|].
    intros x e' Ee'. destruct (Htx x e' Ee') as (e & ? & ? & _). eauto.
Qed.
Lemma reachable_inv s : pool_reachable s → pool_inv s.1 s.2.
Proof.
  induction 1 as [|[B p] op s' _ IH Hok E]; [apply pool_init_inv|]. destruct (run_op_spec B p op IH Hok) as (s1 & E1 & H1). rewrite E in E1. injection E1 as <-. done.
Qed.

End machine.

(** ** A run: a parent and its child are accepted, the parent is confirmed, its block is disconnected, and the parent comes back *)
Section sample.
Definition id_of (n : Z) : txid := replicate 32 n.
Definition spend_of (prev : Z) (value : Z) : CMutableTransaction := mkTx 1 [mkTxIn (mkOutPoint (id_of prev) 0) [] 0xffffffff] [mkTxOut value [81] (-10)] [] 0.
Definition parent_tx : CMutableTransaction := spend_of 1 900.
Definition child_tx : CMutableTransaction := spend_of 2 800.
Definition no_entry : CTxMemPoolEntry := mkEntry parent_tx [] [] 0 0 0 0 false 0 0 0 0 0 0 0 0 0 0.
Definition entry_of (t : CMutableTransaction) (n : Z) : CTxMemPoolEntry := default no_entry (CTxMemPoolEntry_of 20 t (id_of n) (id_of (n + 100)) 100 1600000000 0 false 1 200).
Definition parent_entry : CTxMemPoolEntry := entry_of parent_tx 2.
Definition child_entry : CTxMemPoolEntry := entry_of child_tx 3.
Definition sample_limits : limits := mkLimits 25 101000 25 101000.
Definition next (s : list txid * CTxMemPool) (op : pool_op) : list txid * CTxMemPool := default s (run_op 20 64 s op).
Definition pool1 : list txid * CTxMemPool := next pool_init (accept_tx parent_entry sample_limits).
Definition pool2 : list txid * CTxMemPool := next pool1 (accept_tx child_entry sample_limits).
Definition pool3 : list txid * CTxMemPool := next pool2 (prioritise (id_of 3) 50).
Definition pool4 : list txid * CTxMemPool := next pool3 (connect_block [(id_of 2, parent_tx)]).
Definition pool5 : list txid * CTxMemPool := next pool4 (return_tx parent_entry sample_limits).
Lemma sample_fresh t n : is_Some (CTxMemPoolEntry_of 20 t (id_of n) (id_of (n + 100)) 100 1600000000 0 false 1 200) → fresh 20 (entry_of t n) ∧ tx (entry_of t n) = t ∧ hash (entry_of t n) = id_of n.
Proof.
  intros [e E]. unfold entry_of. rewrite E. cbn [default]. assert (- 2 ^ 63 <= 100 < 2 ^ 63) as Hf by lia. destruct (CTxMemPoolEntry_fresh 20 _ _ _ _ _ _ _ _ _ _ Hf E) as (? & ? & ? & _). done.
Qed.
Definition defined {A} (o : option A) : bool := match o with Some _ => true | None => false end.
Lemma next_reachable s op : pool_reachable 20 64 s → op_ok 20 s op → defined (run_op 20 64 s op) = true → pool_reachable 20 64 (next s op).
Proof. intros Hr Hok Hd. unfold next. destruct (run_op 20 64 s op) as [s'|] eqn:E; [|done]. by eapply reach_op. Qed.
Lemma parent_fresh : fresh 20 parent_entry.
Proof. apply (sample_fresh parent_tx 2). vm_compute. eauto. Qed.
Lemma child_fresh : fresh 20 child_entry.
Proof. apply (sample_fresh child_tx 3). vm_compute. eauto. Qed.
(** The conditions can be decided. *)
Lemma admissible_decided p e : fresh 20 e → bool_decide (hash e ∉ dom (mapTx p)) && bool_decide (hash e ∉ inputs (tx e)) && forallb (λ i, bool_decide (mapNextTx p !! prevout i = None)) (vin (tx e)) &&
  bool_decide (map_Forall (λ _ ex, hash e ∉ inputs (tx ex)) (mapTx p)) = true → admissible 20 ∅ p e.
Proof.
  intros Hf H. rewrite !andb_true_iff, !bool_decide_eq_true in H. destruct H as [[[H1 H2] H3] H4]. constructor; [done|done|done| | |].
  - intros _ i Hi. rewrite forallb_forall in H3. specialize (H3 i (proj1 (list_elem_of_In _ _) Hi)). by apply bool_decide_eq_true in H3.
  - intros x ex Ex _ Hin. by destruct (H4 x ex Ex).
  - intros _. right. set_solver +.
Qed.
Lemma returns_decided B p e : fresh 20 e → bool_decide (hash e ∉ dom (mapTx p)) && bool_decide (hash e ∉ B) && bool_decide (hash e ∉ inputs (tx e)) && forallb (λ i, bool_decide (mapNextTx p !! prevout i = None)) (vin (tx e)) &&
  bool_decide (map_Forall (λ x ex, x ∈ B → hash e ∉ inputs (tx ex)) (mapTx p)) && bool_decide (inputs (tx e) ∩ dom (mapTx p) ⊆ list_to_set B) = true → returns 20 B p e.
Proof.
  intros Hf H. rewrite !andb_true_iff, !bool_decide_eq_true in H. destruct H as [[[[[H1 H2] H3] H4] H5] H6]. constructor; [done|done|done| | |done].
  - intros _ i Hi. rewrite forallb_forall in H4. specialize (H4 i (proj1 (list_elem_of_In _ _) Hi)). by apply bool_decide_eq_true in H4.
  - intros x ex Hx Ex. by apply (H5 x ex Ex).
Qed.
Lemma confirms_one p h t : par p h = ∅ → (∀ i, i ∈ vin t → mapNextTx p !! prevout i = Some h) → confirms p [(h, t)].
Proof.
  intros Hp Hn. constructor.
  - intros [|? [|? ?]] h' t' l2 E; [|done..]. injection E as <- <- _. rewrite Hp. set_solver +.
  - intros h' t' i c [[= -> ->]|[]%not_elem_of_nil]%elem_of_cons Hi E Hne. rewrite (Hn i Hi) in E. congruence.
Qed.
Lemma sample_confirms : confirms pool3.2 [(id_of 2, parent_tx)].
Proof.
  apply confirms_one; [vm_compute; reflexivity|]. intros i Hi. unfold parent_tx, spend_of in Hi. cbn [vin] in Hi. apply list_elem_of_singleton in Hi as ->. vm_compute. reflexivity.
Qed.
Lemma pool2_reached : pool_reachable 20 64 pool2.
Proof.
  apply next_reachable; [apply next_reachable; [constructor| |vm_compute; reflexivity]| |vm_compute; reflexivity].
  - split; [reflexivity|]. apply admissible_decided; [apply parent_fresh|vm_compute; reflexivity].
  - split; [vm_compute; reflexivity|]. apply admissible_decided; [apply child_fresh|vm_compute; reflexivity].
Qed.
Lemma pool5_reached : pool_reachable 20 64 pool5.
Proof.
  apply next_reachable; [apply next_reachable; [apply next_reachable; [apply pool2_reached| |vm_compute; reflexivity]|apply sample_confirms|vm_compute; reflexivity]| |vm_compute; reflexivity].
  - assert (bool_decide (chi pool2.2 (id_of 3) = ∅) = true) as H by (vm_compute; reflexivity). by apply bool_decide_eq_true in H.
  - apply returns_decided; [apply parent_fresh|vm_compute; reflexivity].
Qed.
(** A priority given to a parent is not passed on to the fees that its child carries for its ancestors. *)
Example prioritise_parent : (λ s, (λ e, nModFeesWithAncestors e) <$> mapTx s.2 !! id_of 3) <$> run_op 20 64 pool2 (prioritise (id_of 2) 50) = Some (Some 200) ∧
  (λ s, (λ e, GetModifiedFee e) <$> mapTx s.2 !! id_of 2) <$> run_op 20 64 pool2 (prioritise (id_of 2) 50) = Some (Some 150).
Proof. split; vm_compute; reflexivity. Qed.
(** The links of a private spend that has a child are counted, but [check] leaves them out. *)
Definition private_tx : CMutableTransaction := mkTx 1 [mkTxIn COutPoint_SetNull [Script.opcode_val Script.OP_ZEROCOINSPEND] 0xffffffff] [mkTxOut 900 [81] (-10)] [] 0.
Definition private_pool : list txid * CTxMemPool := next (next pool_init (accept_tx (entry_of private_tx 2) sample_limits)) (accept_tx child_entry sample_limits).
Example check_skips_links : cachedInnerUsage private_pool.2 = 528 ∧ check_usage 64 private_pool.2 = 464.
Proof. split; vm_compute; reflexivity. Qed.
End sample.
End MemPoolMachine.
